(* ===== verification/_CoqProject ===== *)
-Q . S2P
Prelude.v
Endian.v
Coding.v
BitStream.v
XORChunk.v
MassTree.v
SlabStore.v
SlabFlush.v
Label.v
Record.v
Tombstone.v
ChunkOps.v
Postings.v
MemPostings.v
Matchers.v
Crc32c.v
WalLog.v
WalRecords.v
Gorilla.v
TreeMemSeries.v
MemSeries.v
ParallelWal.v
HeadIndex.v
HeadAppender.v
HeadRecovery.v
HeadFlush.v
PrefixPostings.v
ThmapPostings.v
ThmapThreads.v
HeadSelect.v
SeriesIterators.v
TreeQuerier.v
IndexFile.v
ChunkFile.v
CompactPlan.v
Compaction.v
BlockQuery.v
