(* ===== verification/Prelude.v ===== *)
(** PromTCS: verification of the storage engine's own data paths.

    ** The program

    A sample arrives at the head.  The head gives its label set a source id and
    a metric id, appends the sample to the write-ahead log (parallel_wal over
    leveldb's log format) and to the compressed chunk of its series in memory
    (head, chunk).  A full chunk is put into a slab in memory (TreeSeries);
    full slabs are written to the SSD in batches and from there migrated to the
    key-value store (leveldb).  A query selects series by label matchers
    through an inverted index (label, index, querier) and reads chunks through
    iterators that merge them and leave out deleted ranges (chunk, tombstone).

    ** Files

    Each file opens with its own description; data, operations, invariant and
    theorems of a component are in one file, named after the source.

    - Prelude: machine integers, bits, bytes, little- and big-endian numbers,
      varints, the error monad with state [SE], lists read past their end.
    - Endian (base/Endian): big-endian integers, varints, zig-zag.
    - Coding (leveldb/util/coding): the encodings of the log and of index keys.
    - BitStream, XORChunk (chunk): the bit stream and the compressed chunk with
      its appender and iterator.
    - MassTree (third_party/masstree_wrapper): the ordered index, an interface
      with its laws and a finite map as instance.
    - SlabStore, SlabFlush (TreeSeries): the slab store; putting a chunk,
      scanning, the flushes to the SSD, migration, range reads, recovery.
    - Label, Matchers, Postings, MemPostings (label, index, querier/QuerierUtils):
      labels and matchers, postings iterators, the inverted index in memory and
      the selection of series.
    - Record (tsdbutil): byte buffers and the log records of the older head.
    - Tombstone (tombstone): deleted intervals and their file.
    - ChunkOps (chunk): the iterator interface, deletion, merging of chunks.
    - Crc32c (leveldb/util/crc32c): the checksum of the log.
    - WalLog, WalRecords, Gorilla (leveldb/db/log_writer and log_reader):
      framing of the log, its records, and the bit-packed sample record.
    - TreeMemSeries, MemSeries (head): a series in memory, of the tree head and
      of the older one.
    - ParallelWal (parallel_wal): the queues and the background thread of the
      tree head's log.
    - HeadIndex (head/TreeHead): ids, label pools and their arena, the forward
      index and its flat copy.
    - HeadAppender (head/TreeHeadAppender): transactions on the tree head.
    - HeadRecovery, HeadFlush (head/TreeHead): reading the logs back, cleaning
      them, moving slabs to the key-value store.
    - PrefixPostings (index/prefix_postings.h): postings in blocks of 16-bit
      offsets.
    - ThmapPostings, ThmapThreads (index/ThmapPostings, index/MergeSetPostings,
      TreeHead::select): the inverted index of the tree head, its migration to
      the merge set, selection; adds from several threads.
    - HeadSelect: that index under the tree head.
    - SeriesIterators (querier/SeriesIteratorInterface, the iterators of
      querier/tsdb_tree_querier): samples read one after the other, merged by
      time, from the chunk in memory, from slabs.
    - TreeQuerier (querier/tsdb_tree_querier): queries on the tree head, the slab
      store and the key-value store.
    - IndexFile (index/IndexWriter, index/IndexReader): the index file of a
      block.
    - ChunkFile (chunk/ChunkWriter, chunk/ChunkReader, the sequence files of
      chunk/ChunkUtils): the chunk files of a block, chunks in the key-value
      store.
    - CompactPlan (compact/LeveledCompactor, block/BlockUtils.hpp): which blocks
      to compact, the meta of the new block.
    - Compaction (compact/LeveledCompactor, compact/CompactionChunkSeriesSet,
      compact/MergedChunkSeriesSet): filling a new block from others.
    - BlockQuery (querier/ChunkSeriesIterator, ChainSeriesIterator,
      BaseChunkSeriesSet, PopulatedChunkSeriesSet, BlockSeriesSet, BlockQuerier,
      MergedSeriesSet, Querier): queries on blocks.

    ** How the code is modelled

    An unsigned integer of [w] bits is a [Z] in [0, 2^w), conversions written
    out; a [double] is its bit pattern; bytes and strings are lists of [Z].  A
    method takes and returns the object it changes.  Exceptions and reads of
    memory the program does not own are [None], or, where the code uses a byte
    past the end of a buffer, a value of the class [PastEnd] about which nothing
    is known.  Shared objects live in stores (slabs in SlabStore, chunk metas in
    ChunkOps).  Threads are explicit where they meet: the step relation of
    ParallelWal, the steps between two accesses of shared data in ThmapThreads,
    the class [Threads] of TreeMemSeries; an operation that holds a lock for its
    whole body is one step.

    Components meet at classes: [TreeOps]/[TreeLaws] (index under the slab
    store), [ChunkStore]/[StoreSpec] (slab store under a series),
    [ChunkIterator] and its [visits], [Postings]/[PostingsSpec],
    [IndexReader]/[ReaderSpec], the file classes of WalLog,
    [LogItem]/[LogItemSpec] (record types under the log), [LogSink] (the log
    under the appender), [Thmap]/[ThmapLaws] (the lock-free maps of the
    head), [InvertedIndex] (the index under the head), [MergeSet]/[MergeSetLaws]
    (the merge set under the index), [SeriesIterator]/[SeriesIteratorSpec] (the
    iterators of a query), [DBIterator]/[DBIteratorSpec] (the key-value store
    under a query), [BlockInterface] (blocks under compaction and queries),
    [Sort]/[SortLaws] (std::sort, which leaves the order of equal elements open).  Clients are proved
    against the class, implementations are instances.  Vendored code (the mass
    tree, XXH64, boost's CRC, std::regex, the hardware CRC instruction, the file
    system) is a parameter with its documented behaviour.

    Loops that are not structural take a number of rounds and return [None]
    when it runs out.  It is computed from the state (the bytes left, the ids
    left, the length of the queue), and the theorems show that it suffices:
    results are stated as [Some], never under the assumption that a call
    returned.

    ** What is proved

    - Slab store: [SlabFlush.reachable_books], an invariant of every reachable
      state (each slab in one queue, queues and tables in agreement);
      [SlabStore.put_stores_item] and [put_keeps_books] (a put stores its item
      and nothing else changes); [SlabFlush.lazy_flush_copies] (a flush writes
      to the SSD what memory held, and the index refers to it);
      [scan_finds_range], [migrate_reads_slabs] (what a range read or a
      migration returns).
    - Chunks and series: [XORChunk.xor_chunk_round_trip] and its companions;
      [TreeMemSeries.head_keeps_samples] (the chunks handed to the store and the
      chunk in memory hold exactly the samples appended) and
      [flushed_chunk_in_slab], which composes a series with the slab store;
      merging and deletion of chunks.
    - Log: [Crc32c.crc32c_extend_correct] (the strided routine is the bit-wise
      CRC); [WalLog.log_prefix_readable] (any prefix of the file gives back the
      records that end in it); the round trips of the records;
      [WalLog.random_read_finds] (a record is read from its offset);
      [ParallelWal.wal_logs_in_order], [wal_drains] and [flush_logs_all] (under
      any interleaving nothing is lost, reordered or logged twice).  What a
      sample record reads back as is [Gorilla.decoded_samples]: ids, times and
      transaction numbers always, and the values where each equals the one
      before it or differs from it in the upper 32 bits ([samples_run]).
    - Tree head: [HeadAppender.commits_keep_samples] (after transactions for
      fewer different sources and metrics than the pools have room for each
      series holds its samples, and all of it is logged) and
      [HeadRecovery.restart_restores] (the logs of these transactions, flushed
      and read into a new head, give the same series with samples at the same
      times, and with the same values where the log keeps them), which
      compose the index, the series and the log; [HeadIndex.series_identified],
      [migration_invisible] and [arena_blocks_disjoint];
      [HeadFlush.flush_db_moves_items]; [HeadSelect.head_select_exact] (a
      selection in the head returns the series it created with the labels
      asked for, metric names apart), which composes the head with its inverted index.
    - Index: [Postings] (intersection, union and difference are those of the
      sets); [MemPostings.mem_postings_exact]; [Matchers.matchers_select_series]
      (a selection returns the series the matchers accept);
      [PrefixPostings.postings_are_set] (the compressed postings are a set of
      ids); [ThmapPostings.tree_select_exact], [migration_keeps_ids] (for label
      names that are not beginnings of each other);
      [ThmapThreads.concurrent_adds_kept] (adds to known names, for each label
      in one block of ids, lose nothing under any interleaving).
    - Queries: [SeriesIterators.merge_iterators_union] (merging is the union of
      the maps from times to values), [slab_array_exact] (slabs give back the
      samples of the series in the range) and [TreeQuerier.query_returns_range]
      (a series whose samples are divided among its places as the flush times
      say is read back exactly; a table that ends before the query counts as
      empty), which composes the iterators with the head, the
      slab store and the key-value store.
    - Blocks: [IndexFile.index_file_round_trip] and
      [ChunkFile.chunk_files_round_trip] (what is written to the files of a
      block is what a reader finds there, and nothing else);
      [CompactPlan.plan_keeps_blocks_apart] (compaction never makes blocks
      overlap), [split_by_range_windows]; [Compaction.compacted_block_exact]
      (a compacted block, read back, holds what the deletion leaves of its
      blocks), which composes merging by id, deletion, merging of chunks
      and the two files; [BlockQuery.chunk_series_exact] (what the iterator over
      the chunks of a series returns, case by case) and
      [BlockQuery.block_query_exact] (a query over several blocks returns the
      samples of the series selected that are in its range and that the
      deletion leaves).  These three say what the deletion does in every case,
      that it is the one intended for intervals in order and times that fit an
      [int] ([itvls_fine]), and that it lets all samples through where the
      intervals begin at or after [2^31] ([itvls_recent]).
    - Where the code does not do what it means to, a theorem says what it does:
      [SlabFlush.lazy_flush_loses_last], [TreeMemSeries.exact_fit_loses_end],
      [MemSeries.flush_overwrites_chunk], [Gorilla.gorilla_loses_low_bits],
      [Tombstone.swallowed_interval_undeletes], [XORChunk.xor_count_wraps],
      [HeadIndex.late_series_lost], [HeadRecovery.restart_forgets_names],
      [HeadFlush.cleaning_drops_samples], [PrefixPostings.remove_takes_neighbour],
      [low_block_breaks_order], [ThmapPostings.add_hides_moved],
      [migrate_forgets], [ThmapThreads.new_name_loses_id],
      [TreeQuerier.narrow_query_misses], [late_query_misses_db],
      [Compaction.disk_blocks_not_compacted], [BlockQuery.chain_seek_misses].

    ** Not modelled

    Of the tree head: garbage collection and migration of series, epochs, the
    radix tree of symbols.  Of the compressed postings: the older class without
    blocks and the variant with 256 slots, which the program does not use.  Next:
    leveldb's RandomWriter (records overwritten in place),
    disk/log_manager.  Of queries: the cache of decoded chunks, which no query
    uses, the choice of partitions in leveldb, the destructors, the queries on the
    older head and on groups, and MergedSeriesSet by labels, which nothing uses.  Not modelled
    because there is little to prove against the code alone: servers, HTTP
    parsing, thread pools and logging, directory handling of blocks.  Not
    modelled because they are large systems of their own: leveldb's memtable,
    versions and tables, the radix tree and merge sets under mem.  Of blocks:
    their metas as JSON, deletion, and marking the blocks that were compacted. *)
From Stdlib Require Import ZArith Lia Bool.
From stdpp Require Import base list numbers option.

#[global] Open Scope Z_scope.

(** * Machine integers

    A [w]-bit unsigned integer is a [Z] in [0, 2^w); conversions and
    arithmetic wrap modulo [2^w].  A signed one is a [Z] in
    [-2^(w-1), 2^(w-1)); conversion to it is two's complement.  Signed
    overflow, which C++ leaves undefined, is given its two's complement
    value. *)

Definition wrap (w z : Z) : Z := z mod 2 ^ w.
Definition u8 (z : Z) : Z := wrap 8 z.
Definition u16 (z : Z) : Z := wrap 16 z.
Definition u32 (z : Z) : Z := wrap 32 z.
Definition u64 (z : Z) : Z := wrap 64 z.
Definition swrap (w z : Z) : Z :=
  let m := wrap w z in if m <? 2 ^ (w - 1) then m else m - 2 ^ w.
Definition s64 (z : Z) : Z := swrap 64 z.
Definition s32 (z : Z) : Z := swrap 32 z.

Definition is_u (w z : Z) : Prop := 0 <= z < 2 ^ w.
Definition is_s (w z : Z) : Prop := - 2 ^ (w - 1) <= z < 2 ^ (w - 1).
Abbreviation is_byte := (is_u 8).
Abbreviation is_u64 := (is_u 64).
Abbreviation is_s64 := (is_s 64).

Create HintDb ints.
Create Rewrite HintDb ints.

Lemma wrap_range w z : 0 <= w -> is_u w (wrap w z).
Proof. intros. apply Z.mod_pos_bound, Z.pow_pos_nonneg; lia. Qed.

Lemma wrap_id w z : is_u w z -> wrap w z = z.
Proof. apply Z.mod_small. Qed.

Lemma wrap_wrap w z : wrap w (wrap w z) = wrap w z.
Proof. apply Zmod_mod. Qed.

Lemma wrap_add_l w a b : wrap w (wrap w a + b) = wrap w (a + b).
Proof. apply Zplus_mod_idemp_l. Qed.

Lemma wrap_add_r w a b : wrap w (a + wrap w b) = wrap w (a + b).
Proof. apply Zplus_mod_idemp_r. Qed.

Lemma wrap_sub_l w a b : wrap w (wrap w a - b) = wrap w (a - b).
Proof. apply Zminus_mod_idemp_l. Qed.

Lemma wrap_sub_r w a b : wrap w (a - wrap w b) = wrap w (a - b).
Proof. apply Zminus_mod_idemp_r. Qed.

Lemma swrap_range w z : 0 < w -> is_s w (swrap w z).
Proof.
  intros Hw. unfold is_s, swrap. pose proof (wrap_range w z ltac:(lia)) as [H1 H2].
  assert (2 ^ w = 2 * 2 ^ (w - 1)) by (rewrite <- Z.pow_succ_r by lia; f_equal; lia).
  destruct (Z.ltb_spec (wrap w z) (2 ^ (w - 1))); lia.
Qed.

Lemma wrap_swrap w z : 0 < w -> wrap w (swrap w z) = wrap w z.
Proof.
  intros Hw. unfold swrap. destruct (_ <? _); [apply wrap_wrap|].
  unfold wrap. rewrite <- (Z.mul_1_l (2 ^ w)) at 2.
  rewrite Zminus_mod, Z_mod_mult, Z.sub_0_r, !Zmod_mod. done.
Qed.

(** Two signed integers of one width are equal when they agree modulo [2^w]. *)
Lemma is_s_inj w a b : 0 < w -> is_s w a -> is_s w b -> wrap w a = wrap w b -> a = b.
Proof.
  intros Hw Ha Hb H. unfold is_s, wrap in *.
  assert (2 ^ w = 2 * 2 ^ (w - 1)) by (rewrite <- Z.pow_succ_r by lia; f_equal; lia).
  assert (0 < 2 ^ (w - 1)) by (apply Z.pow_pos_nonneg; lia).
  apply Z.cong_iff_ex in H as [k Hk]. assert (k = 0) by nia. lia.
Qed.

Lemma swrap_id w z : 0 < w -> is_s w z -> swrap w z = z.
Proof.
  intros. apply (is_s_inj w); auto using swrap_range, wrap_swrap.
Qed.

Lemma swrap_ex w z : exists k, swrap w z = z + k * 2 ^ w.
Proof.
  unfold swrap, wrap. destruct (_ <? _).
  - exists (- (z / 2 ^ w)). pose proof (Z_div_mod_eq_full z (2 ^ w)). lia.
  - exists (- (z / 2 ^ w) - 1). pose proof (Z_div_mod_eq_full z (2 ^ w)). lia.
Qed.

Lemma swrap_wrap w z : swrap w (wrap w z) = swrap w z.
Proof. unfold swrap. by rewrite wrap_wrap. Qed.

Lemma u64_s64 z : u64 (s64 z) = u64 z.
Proof. by apply wrap_swrap. Qed.

Lemma s64_u64 z : s64 (u64 z) = s64 z.
Proof. apply swrap_wrap. Qed.

#[export] Hint Rewrite wrap_wrap wrap_add_l wrap_add_r wrap_sub_l wrap_sub_r swrap_wrap : ints.
#[export] Hint Resolve wrap_range swrap_range : ints.

(** * Bits

    [bits_of n v] lists the low [n] bits of [v], most significant first, the
    order in which every bit stream of the program is written. *)

Fixpoint bits_of (n : nat) (v : Z) : list bool :=
  match n with
  | O => []
  | S m => Z.testbit v (Z.of_nat m) :: bits_of m v
  end.

Definition Z_of_bits (l : list bool) : Z :=
  fold_left (fun a b => 2 * a + Z.b2z b) l 0.

Definition bytes_bits (l : list Z) : list bool := l ≫= bits_of 8.
#[global] Arguments bytes_bits : simpl never.

Create Rewrite HintDb bits.

Lemma length_bits_of n v : length (bits_of n v) = n.
Proof. induction n; simpl; auto. Qed.

Lemma bits_of_ext n v w :
  (forall i, 0 <= i < Z.of_nat n -> Z.testbit v i = Z.testbit w i) ->
  bits_of n v = bits_of n w.
Proof.
  induction n as [|n IH]; intros H; simpl; [done|].
  rewrite H by lia. f_equal. apply IH. intros. apply H. lia.
Qed.

Lemma bits_of_app n m v :
  bits_of (n + m) v = bits_of n (Z.shiftr v (Z.of_nat m)) ++ bits_of m v.
Proof.
  induction n as [|n IH]; simpl; [done|].
  rewrite IH, Z.shiftr_spec by lia. do 2 f_equal. lia.
Qed.

Lemma bits_of_wrap n w v : Z.of_nat n <= w -> bits_of n (wrap w v) = bits_of n v.
Proof.
  intros H. apply bits_of_ext. intros i Hi. unfold wrap.
  rewrite Z.mod_pow2_bits_low; [done|lia].
Qed.

Lemma fold_bits_acc l a :
  fold_left (fun a b => 2 * a + Z.b2z b) l a = a * 2 ^ Z.of_nat (length l) + Z_of_bits l.
Proof.
  unfold Z_of_bits. revert a. induction l as [|b l IH]; intros a; [simpl; lia|].
  cbn [fold_left length]. rewrite IH, (IH (2 * 0 + _)).
  rewrite Nat2Z.inj_succ, Z.pow_succ_r by lia. lia.
Qed.

Lemma Z_of_bits_cons b l :
  Z_of_bits (b :: l) = Z.b2z b * 2 ^ Z.of_nat (length l) + Z_of_bits l.
Proof.
  unfold Z_of_bits at 1. simpl fold_left. rewrite fold_bits_acc. by destruct b.
Qed.

Lemma Z_of_bits_app l k :
  Z_of_bits (l ++ k) = Z_of_bits l * 2 ^ Z.of_nat (length k) + Z_of_bits k.
Proof.
  unfold Z_of_bits at 1. rewrite fold_left_app. apply fold_bits_acc.
Qed.

Lemma Z_of_bits_range l : is_u (Z.of_nat (length l)) (Z_of_bits l).
Proof.
  unfold is_u. induction l as [|b l IH]; [done|]. rewrite Z_of_bits_cons. simpl length.
  rewrite Nat2Z.inj_succ, Z.pow_succ_r by lia. destruct b; simpl Z.b2z; lia.
Qed.

Lemma Z_of_bits_of n v : Z_of_bits (bits_of n v) = wrap (Z.of_nat n) v.
Proof.
  unfold wrap. induction n as [|n IH]; [simpl; by rewrite Z.mod_1_r|].
  simpl bits_of. rewrite Z_of_bits_cons, IH, length_bits_of.
  rewrite Nat2Z.inj_succ, Z.pow_succ_r by lia.
  rewrite (Z.mul_comm 2), Z.rem_mul_r by lia.
  rewrite <- Z.testbit_spec' by lia. lia.
Qed.

Lemma bits_of_Z_of_bits l : bits_of (length l) (Z_of_bits l) = l.
Proof.
  induction l as [|b l IH]; [done|]. simpl bits_of. f_equal.
  - rewrite Z_of_bits_cons. pose proof (Z_of_bits_range l) as H. unfold is_u in H.
    apply Z.b2z_inj. rewrite Z.testbit_spec', Z.div_add_l, Z.div_small by lia.
    by destruct b.
  - rewrite <- IH at 3. rewrite <- (bits_of_wrap _ (Z.of_nat (length l))) by lia.
    f_equal. rewrite Z_of_bits_cons. unfold wrap.
    rewrite Z.add_comm, Z_mod_plus_full. apply wrap_id, Z_of_bits_range.
Qed.

Lemma bits_of_inj n v w :
  is_u (Z.of_nat n) v -> is_u (Z.of_nat n) w -> bits_of n v = bits_of n w -> v = w.
Proof.
  intros Hv Hw H. rewrite <- (wrap_id _ v Hv), <- (wrap_id _ w Hw).
  by rewrite <- !Z_of_bits_of, H.
Qed.

Lemma bytes_bits_cons x l : bytes_bits (x :: l) = bits_of 8 x ++ bytes_bits l.
Proof. done. Qed.

Lemma length_bytes_bits l : length (bytes_bits l) = (8 * length l)%nat.
Proof.
  induction l as [|x l IH]; [done|].
  rewrite bytes_bits_cons, length_app, length_bits_of, IH. simpl. lia.
Qed.

Lemma bytes_bits_app l k : bytes_bits (l ++ k) = bytes_bits l ++ bytes_bits k.
Proof. unfold bytes_bits. by rewrite bind_app. Qed.

Lemma take_bytes_bits n l : take (8 * n) (bytes_bits l) = bytes_bits (take n l).
Proof.
  revert l. induction n as [|n IH]; intros l; [done|].
  destruct l as [|x l]; [done|].
  rewrite firstn_cons, !bytes_bits_cons, <- IH.
  by replace (8 * S n)%nat with (8 + 8 * n)%nat by lia.
Qed.

Lemma drop_bytes_bits n l : drop (8 * n) (bytes_bits l) = bytes_bits (drop n l).
Proof.
  revert l. induction n as [|n IH]; intros l; [done|].
  destruct l as [|x l]; [done|].
  rewrite skipn_cons, bytes_bits_cons, <- IH.
  by replace (8 * S n)%nat with (8 + 8 * n)%nat by lia.
Qed.

#[export] Hint Rewrite length_bits_of length_bytes_bits : bits.

(** * Bytes and memory *)

(** What a load finds when it is aimed outside the buffer it is meant for.
    Nothing is assumed of it but that it is a byte. *)
Class PastEnd := past_end : Z -> Z.

Definition peek `{PastEnd} (l : list Z) (i : Z) : Z :=
  if i <? 0 then u8 (past_end i)
  else match l !! Z.to_nat i with Some b => b | None => u8 (past_end i) end.

(** A store inside the buffer; one outside it does not change the buffer. *)
Definition poke (l : list Z) (i z : Z) : list Z :=
  if i <? 0 then l else <[Z.to_nat i := z]> l.

Abbreviation bytes_ok := (Forall is_byte).

Lemma peek_lookup `{PastEnd} l i b :
  0 <= i -> l !! Z.to_nat i = Some b -> peek l i = b.
Proof. intros Hi H'. unfold peek. destruct (Z.ltb_spec i 0); [lia|]. by rewrite H'. Qed.

Lemma peek_app_l `{PastEnd} l k i :
  i < Z.of_nat (length l) -> 0 <= i -> peek (l ++ k) i = peek l i.
Proof. intros. unfold peek. rewrite lookup_app_l by lia. done. Qed.

Lemma peek_app_r `{PastEnd} l k i b :
  0 <= i -> k !! Z.to_nat i = Some b -> peek (l ++ k) (Z.of_nat (length l) + i) = b.
Proof.
  intros Hi Hk. apply peek_lookup; [lia|]. rewrite lookup_app_r by lia.
  rewrite <- Hk. f_equal. lia.
Qed.

Lemma peek_byte `{PastEnd} l i : bytes_ok l -> is_byte (peek l i).
Proof.
  intros Hl. unfold peek. destruct (i <? 0); [by apply wrap_range|].
  destruct (l !! _) eqn:E; [|by apply wrap_range].
  by eapply Forall_lookup_1.
Qed.

Lemma length_poke l i z : length (poke l i z) = length l.
Proof. unfold poke. destruct (_ <? _); [done|]. apply length_insert. Qed.

Lemma peek_poke `{PastEnd} l i z :
  0 <= i < Z.of_nat (length l) -> peek (poke l i z) i = z.
Proof.
  intros. apply peek_lookup; [lia|]. unfold poke. destruct (Z.ltb_spec i 0); [lia|].
  apply list_lookup_insert_eq. lia.
Qed.

Lemma peek_poke_ne `{PastEnd} l i j z : i <> j -> peek (poke l i z) j = peek l j.
Proof.
  intros. unfold peek, poke. destruct (Z.ltb_spec i 0), (Z.ltb_spec j 0); try done.
  rewrite list_lookup_insert_ne by lia. done.
Qed.

Lemma poke_bytes_ok l i z : bytes_ok l -> is_byte z -> bytes_ok (poke l i z).
Proof. intros. unfold poke. destruct (_ <? _); [done|]. by apply Forall_insert. Qed.

(** Disjoint bit patterns: or is addition. *)
Lemma lor_disjoint a k y :
  0 <= k -> 0 <= y < 2 ^ k -> Z.lor (a * 2 ^ k) y = a * 2 ^ k + y.
Proof.
  intros Hk Hy.
  assert (Hl : Z.land (a * 2 ^ k) y = 0).
  { apply Z.bits_inj'. intros i Hi. rewrite Z.land_spec, Z.bits_0.
    destruct (Z.lt_ge_cases i k).
    - rewrite Z.mul_pow2_bits_low by lia. done.
    - rewrite <- (Z.mod_small y (2 ^ k)) by lia.
      rewrite Z.mod_pow2_bits_high by lia. apply andb_false_r. }
  by rewrite Z.add_nocarry_lxor, Z.lxor_lor.
Qed.

Lemma land_ff z : Z.land z 255 = u8 z.
Proof. apply (Z.land_ones z 8). lia. Qed.

Lemma shiftr_u8 v k : 0 <= k -> u8 (Z.shiftr v k) = wrap 8 (v / 2 ^ k).
Proof. intros. unfold u8. by rewrite Z.shiftr_div_pow2. Qed.

(** Big-endian digits in base 256, the common reference of the fixed-width
    encoders. *)
Fixpoint be_bytes (n : nat) (v : Z) : list Z :=
  match n with
  | O => []
  | S m => u8 (Z.shiftr v (8 * Z.of_nat m)) :: be_bytes m v
  end.

Definition be_val (l : list Z) : Z := fold_left (fun a b => 256 * a + b) l 0.

Definition le_bytes (n : nat) (v : Z) : list Z := rev (be_bytes n v).

Lemma length_be_bytes n v : length (be_bytes n v) = n.
Proof. induction n; simpl; auto. Qed.

Lemma length_le_bytes n v : length (le_bytes n v) = n.
Proof. unfold le_bytes. by rewrite length_rev, length_be_bytes. Qed.

Lemma be_bytes_ok n v : bytes_ok (be_bytes n v).
Proof. induction n; simpl; constructor; auto. by apply wrap_range. Qed.

Lemma le_bytes_ok n v : bytes_ok (le_bytes n v).
Proof. apply List.Forall_rev, be_bytes_ok. Qed.

Lemma fold_be_acc l a :
  fold_left (fun a b => 256 * a + b) l a = a * 2 ^ (8 * Z.of_nat (length l)) + be_val l.
Proof.
  unfold be_val. revert a. induction l as [|b l IH]; intros a; [simpl; lia|].
  cbn [fold_left length]. rewrite IH, (IH (256 * 0 + b)).
  replace (8 * Z.of_nat (S (length l))) with (8 + 8 * Z.of_nat (length l)) by lia.
  rewrite Z.pow_add_r by lia. change (2 ^ 8) with 256. lia.
Qed.

Lemma be_val_be_bytes n v : be_val (be_bytes n v) = wrap (8 * Z.of_nat n) v.
Proof.
  unfold wrap. induction n as [|n IH]; [simpl; by rewrite Z.mod_1_r|].
  unfold be_val. cbn [be_bytes fold_left]. rewrite fold_be_acc, IH, length_be_bytes.
  replace (8 * Z.of_nat (S n)) with (8 * Z.of_nat n + 8) by lia.
  rewrite Z.pow_add_r, Z.rem_mul_r by lia. rewrite shiftr_u8 by lia.
  unfold wrap. lia.
Qed.

Lemma be_bytes_wrap n v w :
  wrap (8 * Z.of_nat n) v = wrap (8 * Z.of_nat n) w -> be_bytes n v = be_bytes n w.
Proof.
  induction n as [|n IH]; intros H; [done|]. cbn [be_bytes].
  assert (Hb : forall i, 0 <= i < 8 * Z.of_nat (S n) -> Z.testbit v i = Z.testbit w i).
  { intros i Hi. apply (f_equal (fun z => Z.testbit z i)) in H. unfold wrap in H.
    rewrite !Z.mod_pow2_bits_low in H by lia. done. }
  f_equal.
  - apply Z.bits_inj'. intros i Hi. unfold u8, wrap.
    destruct (Z.lt_ge_cases i 8).
    + rewrite !Z.mod_pow2_bits_low, !Z.shiftr_spec by lia. apply Hb. lia.
    + rewrite !Z.mod_pow2_bits_high by lia. done.
  - apply IH. apply Z.bits_inj'. intros i Hi. unfold wrap.
    destruct (Z.lt_ge_cases i (8 * Z.of_nat n)).
    + rewrite !Z.mod_pow2_bits_low by lia. apply Hb. lia.
    + rewrite !Z.mod_pow2_bits_high by lia. done.
Qed.

(** A property of bytes is decided by trying all of them. *)
Lemma byte_forall (P : Z -> bool) :
  forallb P (seqZ 0 256) = true -> forall b, is_byte b -> P b = true.
Proof.
  intros H b Hb. rewrite forallb_forall in H. apply H.
  apply list_elem_of_In, elem_of_seqZ. unfold is_u in Hb. lia.
Qed.

Ltac by_bytes b :=
  match goal with
  | H : is_byte b |- ?lhs = ?rhs =>
    apply Z.eqb_eq; revert b H; apply byte_forall; vm_compute; reflexivity
  end.

Lemma land_127 z : Z.land z 127 = z mod 128.
Proof. apply (Z.land_ones z 7). lia. Qed.

Lemma byte_land_128 b : is_byte b -> Z.land b 128 = if b <? 128 then 0 else 128.
Proof. intros H. by_bytes b. Qed.

(** * Base-128 varints

    The reference encoding every varint routine of the program is compared
    with: seven value bits per byte, low group first, the top bit set on all
    bytes but the last. *)

Fixpoint varint_fuel (fuel : nat) (v : Z) : list Z :=
  match fuel with
  | O => []
  | S fuel => if v <? 128 then [v] else (v mod 128 + 128) :: varint_fuel fuel (v / 128)
  end.

Definition varint (v : Z) : list Z := varint_fuel 10 v.

Lemma varint_fuel_irrel n m v :
  (0 < n <= m)%nat -> 0 <= v < 2 ^ (7 * Z.of_nat n) -> varint_fuel n v = varint_fuel m v.
Proof.
  revert m v. induction n as [|n IH]; intros m v Hn Hv; [lia|].
  destruct m as [|m]; [lia|]. cbn [varint_fuel].
  destruct (Z.ltb_spec v 128); [done|]. f_equal.
  replace (7 * Z.of_nat (S n)) with (7 + 7 * Z.of_nat n) in Hv by lia.
  rewrite Z.pow_add_r in Hv by lia. change (2 ^ 7) with 128 in Hv.
  assert (n <> 0)%nat by (intros ->; simpl in Hv; lia).
  apply IH; [lia|]. split; [apply Z.div_pos; lia|]. apply Z.div_lt_upper_bound; lia.
Qed.

Lemma varint_small v : v < 128 -> varint v = [v].
Proof. intros. unfold varint. cbn [varint_fuel]. by destruct (Z.ltb_spec v 128); [|lia]. Qed.

Lemma varint_big v :
  128 <= v < 2 ^ 64 -> varint v = (v mod 128 + 128) :: varint (v / 128).
Proof.
  intros. unfold varint at 1. cbn [varint_fuel]. destruct (Z.ltb_spec v 128); [lia|].
  f_equal. apply (varint_fuel_irrel 9 10); [lia|]. split; [apply Z.div_pos; lia|].
  apply Z.div_lt_upper_bound; [lia|]. lia.
Qed.

Lemma varint_ind (P : Z -> Prop) :
  (forall v, 0 <= v < 128 -> P v) ->
  (forall v, 128 <= v -> P (v / 128) -> P v) ->
  forall v, 0 <= v -> P v.
Proof.
  intros H0 H1. apply Zlt_0_ind. intros v IH Hv.
  destruct (Z.lt_ge_cases v 128); [by apply H0|].
  apply H1; [lia|]. apply IH. split; [apply Z.div_pos; lia|]. apply Z.div_lt; lia.
Qed.

Lemma varint_bytes_ok v : 0 <= v < 2 ^ 64 -> bytes_ok (varint v).
Proof.
  intros [H1 H2]. revert v H1 H2. apply (varint_ind (fun v => v < 2 ^ 64 -> _)); intros v Hv.
  - intros _. rewrite varint_small by lia. repeat constructor; unfold is_u; lia.
  - intros IH Hv'. rewrite varint_big by lia. constructor.
    + unfold is_u. pose proof (Z.mod_pos_bound v 128). lia.
    + apply IH. apply Z.div_lt_upper_bound; lia.
Qed.

Lemma length_varint v : 0 <= v < 2 ^ 64 -> (1 <= length (varint v) <= 10)%nat.
Proof.
  intros Hv. unfold varint. clear Hv.
  assert (H : forall n w, (length (varint_fuel n w) <= n)%nat).
  { intros n; induction n as [|n IH]; intros w; simpl; [lia|].
    destruct (w <? 128); simpl; [lia|]. pose proof (IH (w / 128)). lia. }
  split; [|apply H]. cbn [varint_fuel]. destruct (v <? 128); simpl; lia.
Qed.

(** One round of every decoder's accumulation. *)
Lemma varint_accum acc b s :
  0 <= s -> is_byte b -> 0 <= acc < 2 ^ s -> (b mod 128) * 2 ^ s < 2 ^ 64 ->
  Z.lor acc (u64 (Z.shiftl (Z.land b 127) s)) = acc + (b mod 128) * 2 ^ s.
Proof.
  intros Hs Hb Hacc Hlt. rewrite land_127, Z.shiftl_mul_pow2 by lia.
  assert (0 <= b mod 128 < 128) by (apply Z.mod_pos_bound; lia).
  unfold u64. rewrite wrap_id by (unfold is_u; nia).
  rewrite Z.lor_comm, lor_disjoint by lia. lia.
Qed.

(** * Computations over a state that may throw

    [S -> option A * S]: the state survives a throw, as the members of a C++
    object do when a method called on it throws and the caller catches. *)

Definition SE (S A : Type) : Type := S -> option A * S.

#[export] Instance SE_ret S : MRet (SE S) := fun A a s => (Some a, s).
#[export] Instance SE_bind S : MBind (SE S) := fun A B k m s =>
  match m s with
  | (Some a, s') => k a s'
  | (None, s') => (None, s')
  end.

Definition throw {S A} : SE S A := fun s => (None, s).
Definition get_state {S} : SE S S := fun s => (Some s, s).
Definition put_state {S} (s : S) : SE S unit := fun _ => (Some tt, s).

(** * More on bit lists *)

(** The bits of a word split where another word's and a third's meet. *)
Lemma bits_of_split n m v w u :
  (forall i, 0 <= i < Z.of_nat n -> Z.testbit v (i + Z.of_nat m) = Z.testbit w i) ->
  (forall i, 0 <= i < Z.of_nat m -> Z.testbit v i = Z.testbit u i) ->
  bits_of (n + m) v = bits_of n w ++ bits_of m u.
Proof.
  intros Hn Hm. rewrite bits_of_app. f_equal; apply bits_of_ext; [|done].
  intros i Hi. rewrite Z.shiftr_spec by lia. by apply Hn.
Qed.

Lemma bits_of_0 n : bits_of n 0 = replicate n false.
Proof. induction n; simpl; [done|]. by rewrite Z.testbit_0_l, IHn. Qed.

Lemma bits_of_zeros n v i :
  bits_of n v = replicate n false -> 0 <= i < Z.of_nat n -> Z.testbit v i = false.
Proof.
  induction n as [|n IH]; simpl; [lia|]. intros [= H1 H2] Hi.
  destruct (Z.eq_dec i (Z.of_nat n)) as [->|]; [done|]. apply IH; [done|lia].
Qed.

Lemma bits_of_snoc n v : bits_of (S n) v = bits_of n (Z.shiftr v 1) ++ [Z.testbit v 0].
Proof. replace (S n) with (n + 1)%nat by lia. by rewrite bits_of_app. Qed.

Lemma byte_high_bits v i : is_byte v -> 8 <= i -> Z.testbit v i = false.
Proof.
  intros Hv Hi. rewrite <- (Z.mod_small v (2 ^ 8)) by exact Hv.
  apply Z.mod_pow2_bits_high. lia.
Qed.

Lemma testbit_u8 v i : 0 <= i -> Z.testbit (u8 v) i = (i <? 8) && Z.testbit v i.
Proof.
  intros. unfold u8, wrap. destruct (Z.ltb_spec i 8).
  - by rewrite Z.mod_pow2_bits_low by lia.
  - by rewrite Z.mod_pow2_bits_high by lia.
Qed.

Lemma lor_byte a b : is_byte a -> is_byte b -> is_byte (Z.lor a b).
Proof.
  intros Ha Hb. assert (E : Z.lor a b = u8 (Z.lor a b)).
  { apply Z.bits_inj'. intros i Hi. rewrite testbit_u8, Z.lor_spec by lia.
    destruct (Z.ltb_spec i 8); [done|]. by rewrite !byte_high_bits by done. }
  rewrite E. by apply wrap_range.
Qed.

Lemma shiftr_byte a n : 0 <= n -> is_byte a -> is_byte (Z.shiftr a n).
Proof.
  intros Hn Ha. unfold is_u in *. rewrite Z.shiftr_div_pow2 by lia.
  assert (0 < 2 ^ n) by (apply Z.pow_pos_nonneg; lia). split.
  - apply Z.div_pos; lia.
  - apply Z.div_lt_upper_bound; nia.
Qed.

Lemma bytes_bits_drop_S k l x :
  l !! k = Some x -> drop (8 * k) (bytes_bits l) = bits_of 8 x ++ bytes_bits (drop (S k) l).
Proof. intros H. by rewrite drop_bytes_bits, (drop_S _ _ _ H), bytes_bits_cons. Qed.

Lemma poke_app_r l k i z : 0 <= i -> poke (l ++ k) (Z.of_nat (length l) + i) z = l ++ poke k i z.
Proof.
  intros Hi. unfold poke. rewrite (proj2 (Z.ltb_ge _ _)), (proj2 (Z.ltb_ge _ _)) by lia.
  replace (Z.to_nat (Z.of_nat (length l) + i)) with (length l + Z.to_nat i)%nat by lia.
  apply insert_app_r.
Qed.

Lemma poke_app_r0 l k z : poke (l ++ k) (Z.of_nat (length l)) z = l ++ poke k 0 z.
Proof. rewrite <- poke_app_r by lia. f_equal. lia. Qed.

Lemma peek_app_r0 `{PastEnd} l b k : peek (l ++ b :: k) (Z.of_nat (length l)) = b.
Proof. rewrite <- (Z.add_0_r (Z.of_nat (length l))). by apply peek_app_r. Qed.

(** * Bytes put back together *)

Lemma shifted_byte w b k :
  is_byte b -> 0 <= k -> k + 8 <= w -> wrap w (Z.shiftl b k) = b * 2 ^ k.
Proof.
  intros Hb Hk Hw. rewrite Z.shiftl_mul_pow2 by lia. apply wrap_id. unfold is_u in *.
  assert (0 < 2 ^ k) by (apply Z.pow_pos_nonneg; lia). split; [lia|].
  apply Z.lt_le_trans with (2 ^ 8 * 2 ^ k); [nia|]. rewrite <- Z.pow_add_r by lia.
  apply Z.pow_le_mono_r; lia.
Qed.

Lemma be_bytes_lookup n v i :
  (i < n)%nat -> be_bytes n v !! i = Some (u8 (Z.shiftr v (8 * Z.of_nat (n - 1 - i)))).
Proof.
  revert i. induction n as [|n IH]; intros i Hi; [lia|]. cbn [be_bytes].
  destruct i as [|i]; [cbn; do 4 f_equal; lia|]. cbn [lookup list_lookup].
  rewrite IH by lia. do 4 f_equal. lia.
Qed.

Lemma be_byte_nth `{PastEnd} n v i pre post :
  (i < n)%nat ->
  peek (pre ++ be_bytes n v ++ post) (Z.of_nat (length pre) + Z.of_nat i)
  = u8 (Z.shiftr v (8 * Z.of_nat (n - 1 - i))).
Proof.
  intros Hi. apply peek_app_r; [lia|]. rewrite Nat2Z.id.
  rewrite lookup_app_l by (rewrite length_be_bytes; lia). by apply be_bytes_lookup.
Qed.

Lemma be_byte_first `{PastEnd} n v i post :
  (i < n)%nat ->
  peek (be_bytes n v ++ post) (Z.of_nat i) = u8 (Z.shiftr v (8 * Z.of_nat (n - 1 - i))).
Proof. apply (be_byte_nth n v i []). Qed.

Lemma le_byte_nth `{PastEnd} n v i post :
  (i < n)%nat -> peek (le_bytes n v ++ post) (Z.of_nat i) = u8 (Z.shiftr v (8 * Z.of_nat i)).
Proof.
  intros Hi. apply peek_lookup; [lia|]. rewrite Nat2Z.id.
  rewrite lookup_app_l by (rewrite length_le_bytes; lia). unfold le_bytes.
  rewrite rev_alt. change (rev_append (be_bytes n v) []) with (reverse (be_bytes n v)).
  rewrite reverse_lookup by (rewrite length_be_bytes; lia).
  rewrite length_be_bytes, be_bytes_lookup by lia. do 4 f_equal. lia.
Qed.

Lemma lor_be a b j k :
  is_byte b -> 0 <= k -> j = k + 8 -> Z.lor (a * 2 ^ j) (b * 2 ^ k) = (a * 256 + b) * 2 ^ k.
Proof.
  intros Hb Hk ->. rewrite Z.pow_add_r by lia.
  replace (a * (2 ^ k * 2 ^ 8)) with (a * 2 ^ 8 * 2 ^ k) by ring.
  rewrite <- (Z.shiftl_mul_pow2 (a * 2 ^ 8)), <- (Z.shiftl_mul_pow2 b), <- Z.shiftl_lor by lia.
  rewrite lor_disjoint, Z.shiftl_mul_pow2 by (done || lia). done.
Qed.

Lemma lor_le x b k : 0 <= k -> 0 <= x < 2 ^ k -> Z.lor x (b * 2 ^ k) = x + b * 2 ^ k.
Proof. intros. rewrite Z.lor_comm, lor_disjoint by done. lia. Qed.

Lemma be_val_app l k : be_val (l ++ k) = be_val l * 2 ^ (8 * Z.of_nat (length k)) + be_val k.
Proof. unfold be_val at 1. rewrite fold_left_app. apply fold_be_acc. Qed.

Lemma be_bytes_inj n v w :
  is_u (8 * Z.of_nat n) v -> is_u (8 * Z.of_nat n) w -> be_bytes n v = be_bytes n w -> v = w.
Proof.
  intros Hv Hw E. rewrite <- (wrap_id _ v Hv), <- (wrap_id _ w Hw).
  by rewrite <- !be_val_be_bytes, E.
Qed.

Lemma le_bytes_inj n v w :
  is_u (8 * Z.of_nat n) v -> is_u (8 * Z.of_nat n) w -> le_bytes n v = le_bytes n w -> v = w.
Proof.
  intros Hv Hw E. apply (be_bytes_inj n); [done|done|].
  unfold le_bytes in E. apply (f_equal (@rev Z)) in E. by rewrite !rev_involutive in E.
Qed.

(** * The order of byte strings ([memcmp], shorter first on a tie) *)

Fixpoint bytes_ltb (a b : list Z) : bool :=
  match a, b with
  | _, [] => false
  | [], _ :: _ => true
  | x :: a, y :: b => (x <? y) || ((x =? y) && bytes_ltb a b)
  end.

Lemma bytes_ltb_app p a b : bytes_ltb (p ++ a) (p ++ b) = bytes_ltb a b.
Proof.
  induction p as [|x p IH]; [done|]. cbn [app bytes_ltb].
  by rewrite Z.ltb_irrefl, Z.eqb_refl, IH.
Qed.

(** Big-endian digits are ordered as the numbers they stand for. *)
Lemma bytes_ltb_irrefl a : bytes_ltb a a = false.
Proof. induction a as [|x a IH]; [done|]. simpl. by rewrite Z.ltb_irrefl, Z.eqb_refl, IH. Qed.

Lemma bytes_ltb_trans a b c : bytes_ltb a b = true -> bytes_ltb b c = true -> bytes_ltb a c = true.
Proof.
  revert b c. induction a as [|x a IH]; intros [|y b] [|z c]; simpl; try done.
  rewrite !orb_true_iff, !andb_true_iff, !Z.ltb_lt, !Z.eqb_eq.
  intros [H1|[H1 H2]] [H3|[H3 H4]]; try (left; lia). right. split; [lia|]. by eapply IH.
Qed.

Lemma bytes_ltb_total a b : bytes_ltb a b = false -> bytes_ltb b a = false -> a = b.
Proof.
  revert b. induction a as [|x a IH]; intros [|y b]; simpl; try done.
  rewrite !orb_false_iff, !andb_false_iff, !Z.ltb_ge, !Z.eqb_neq. intros [H1 H2] [H3 H4].
  assert (x = y) by lia. subst y. f_equal. apply IH; [by destruct H2|by destruct H4].
Qed.

Lemma bytes_ltb_asym a b : bytes_ltb a b = true -> bytes_ltb b a = false.
Proof.
  intros H. destruct (bytes_ltb b a) eqn:E; [|done].
  pose proof (bytes_ltb_trans _ _ _ H E) as Hx. by rewrite bytes_ltb_irrefl in Hx.
Qed.

(** A string between two that share a prefix shares it too. *)
Lemma bytes_ltb_prefix p q a b c :
  length p = length q -> bytes_ltb (q ++ c) (p ++ a) = false -> bytes_ltb (q ++ c) (p ++ b) = true ->
  q = p.
Proof.
  revert q. induction p as [|x p IH]; intros [|y q] Hl H1 H2; try done. cbn [app bytes_ltb] in *.
  rewrite orb_false_iff, andb_false_iff, Z.ltb_ge, Z.eqb_neq in H1.
  rewrite orb_true_iff, andb_true_iff, Z.ltb_lt, Z.eqb_eq in H2.
  assert (y = x) by lia. subst y. f_equal. apply IH; [by injection Hl|by destruct H1 as [_ [?|?]]|].
  by destruct H2 as [?|[_ ?]]; [lia|].
Qed.

Lemma bytes_ltb_be n v w :
  is_u (8 * Z.of_nat n) v -> is_u (8 * Z.of_nat n) w ->
  bytes_ltb (be_bytes n v) (be_bytes n w) = (v <? w).
Proof.
  intros Hv Hw. rewrite <- (wrap_id _ v Hv) at 2. rewrite <- (wrap_id _ w Hw) at 2.
  rewrite <- !be_val_be_bytes. clear Hv Hw.
  assert (H : forall a b, length a = length b -> bytes_ok a -> bytes_ok b ->
    bytes_ltb a b = (be_val a <? be_val b)); [|by apply H; rewrite ?length_be_bytes; try apply be_bytes_ok].
  induction a as [|x a IH]; intros [|y b] Hl Ha Hb; try done. cbn [bytes_ltb].
  inversion Ha as [|? ? Hx Ha']; inversion Hb as [|? ? Hy Hb']; subst. injection Hl as Hl.
  rewrite IH by done. change (x :: a) with ([x] ++ a). change (y :: b) with ([y] ++ b).
  rewrite !be_val_app. change (be_val [x]) with (256 * 0 + x). change (be_val [y]) with (256 * 0 + y).
  rewrite <- Hl. assert (Hr : forall l, bytes_ok l -> is_u (8 * Z.of_nat (length l)) (be_val l)).
  { clear. unfold is_u. induction l as [|z l IHl] using rev_ind; intros Hz; [done|].
    apply Forall_app in Hz as [Hz Hz1]. apply Forall_inv in Hz1. specialize (IHl Hz).
    rewrite be_val_app, length_app. change (be_val [z]) with (256 * 0 + z). unfold is_u in Hz1.
    simpl length. replace (8 * Z.of_nat (length l + 1)) with (8 * Z.of_nat (length l) + 8) by lia.
    rewrite Z.pow_add_r by lia. change (8 * Z.of_nat 1) with 8. lia. }
  pose proof (Hr a Ha') as Ra. pose proof (Hr b Hb') as Rb. unfold is_u in *. rewrite <- Hl in Rb.
  set (P := 2 ^ (8 * Z.of_nat (length a))) in *.
  destruct (Z.ltb_spec x y), (Z.eqb_spec x y), (Z.ltb_spec (be_val a) (be_val b)),
    (Z.ltb_spec ((256 * 0 + x) * P + be_val a) ((256 * 0 + y) * P + be_val b));
    try reflexivity; exfalso; nia.
Qed.

(** * Block stores and loads *)

(** [memcpy] or [pwrite] of [l] into [m] at [off]. *)
Definition store (m : list Z) (off : Z) (l : list Z) : list Z :=
  take (Z.to_nat off) m ++ l ++ drop (Z.to_nat off + length l) m.

Definition load (m : list Z) (off n : Z) : list Z := take (Z.to_nat n) (drop (Z.to_nat off) m).

Lemma length_store m off l :
  0 <= off -> off + Z.of_nat (length l) <= Z.of_nat (length m) -> length (store m off l) = length m.
Proof. intros. unfold store. rewrite !length_app, length_take, length_drop. lia. Qed.

Lemma lookup_store m off l i :
  0 <= off -> off + Z.of_nat (length l) <= Z.of_nat (length m) ->
  store m off l !! i =
  if decide (Z.to_nat off <= i < Z.to_nat off + length l)%nat then l !! (i - Z.to_nat off)%nat
  else m !! i.
Proof.
  intros H1 H2. unfold store. case_decide as Hd.
  - rewrite lookup_app_r by (rewrite length_take; lia).
    rewrite length_take, lookup_app_l by lia. f_equal. lia.
  - destruct (decide (i < Z.to_nat off)%nat) as [Hi|Hi].
    + rewrite lookup_app_l by (rewrite length_take; lia). by rewrite lookup_take_lt.
    + rewrite lookup_app_r by (rewrite length_take; lia).
      rewrite lookup_app_r by (rewrite length_take; lia).
      rewrite lookup_drop, length_take. f_equal. lia.
Qed.

Lemma lookup_load m off n i :
  0 <= off -> load m off n !! i =
  if decide (i < Z.to_nat n)%nat then m !! (Z.to_nat off + i)%nat else None.
Proof.
  intros. unfold load. case_decide; [by rewrite lookup_take_lt, lookup_drop|].
  rewrite lookup_take_ge by lia. done.
Qed.

Lemma load_split m off a b :
  0 <= off -> 0 <= a -> 0 <= b ->
  load m off (a + b) = load m off a ++ load m (off + a) b.
Proof.
  intros H1 H2 H3. unfold load. rewrite !Z2Nat.inj_add by lia.
  rewrite <- drop_drop. symmetry. apply take_take_drop.
Qed.

Lemma length_load m off n :
  0 <= off -> 0 <= n -> off + n <= Z.of_nat (length m) -> length (load m off n) = Z.to_nat n.
Proof. intros. unfold load. rewrite length_take, length_drop. lia. Qed.

Lemma load_store m off l :
  0 <= off -> off + Z.of_nat (length l) <= Z.of_nat (length m) ->
  load (store m off l) off (Z.of_nat (length l)) = l.
Proof.
  intros H1 H2. apply list_eq. intros i. rewrite lookup_load, lookup_store by lia.
  case_decide; [|symmetry; apply lookup_ge_None; lia]. rewrite decide_True by lia. f_equal. lia.
Qed.

Lemma load_store_disjoint m off l off' n :
  0 <= off -> off + Z.of_nat (length l) <= Z.of_nat (length m) -> 0 <= off' ->
  off' + n <= off \/ off + Z.of_nat (length l) <= off' ->
  load (store m off l) off' n = load m off' n.
Proof.
  intros H1 H2 H3 H4. apply list_eq. intros i. rewrite !lookup_load by lia.
  case_decide; [|done]. rewrite lookup_store by lia. rewrite decide_False by lia. done.
Qed.

Lemma filter_id {A} (P : A -> Prop) `{forall x, Decision (P x)} (l : list A) : Forall P l -> filter P l = l.
Proof. induction 1 as [|x l Hx _ IH]; [done|]. by rewrite filter_cons_True, IH. Qed.
