(* ===== verification/Endian.v ===== *)
(** base/Endian.cpp and base/Endian.hpp: fixed-width big-endian integers,
    base-128 varints, the zig-zag transform and the small bit-width helpers.
    A buffer is a [list Z] of bytes, a pointer into it an offset; a thrown
    [TSDBException] is [None]. *)
From Stdlib Require Import ZArith Lia Bool.
From stdpp Require Import base list numbers option.
From S2P Require Import Prelude.

Definition MAX_VARINT_LEN_64 : Z := 10.

(** ** Fixed-width big-endian stores and loads *)

Definition put_uint16_big_endian (bytes : list Z) (o num : Z) : list Z :=
  let bytes := poke bytes (o + 1) (Z.land num 255) in
  poke bytes o (Z.land (Z.shiftr num 8) 255).

Definition put_uint32_big_endian (bytes : list Z) (o num : Z) : list Z :=
  let bytes := poke bytes (o + 3) (Z.land num 255) in
  let bytes := poke bytes (o + 2) (Z.land (Z.shiftr num 8) 255) in
  let bytes := poke bytes (o + 1) (Z.land (Z.shiftr num 16) 255) in
  poke bytes o (Z.land (Z.shiftr num 24) 255).

Definition put_uint64_big_endian (bytes : list Z) (o num : Z) : list Z :=
  let bytes := poke bytes (o + 7) (Z.land num 255) in
  let bytes := poke bytes (o + 6) (Z.land (Z.shiftr num 8) 255) in
  let bytes := poke bytes (o + 5) (Z.land (Z.shiftr num 16) 255) in
  let bytes := poke bytes (o + 4) (Z.land (Z.shiftr num 24) 255) in
  let bytes := poke bytes (o + 3) (Z.land (Z.shiftr num 32) 255) in
  let bytes := poke bytes (o + 2) (Z.land (Z.shiftr num 40) 255) in
  let bytes := poke bytes (o + 1) (Z.land (Z.shiftr num 48) 255) in
  poke bytes o (Z.land (Z.shiftr num 56) 255).

Section Loads.
Context `{PastEnd}.

Definition get_uint16_big_endian (bytes : list Z) (o : Z) : Z :=
  Z.shiftl (peek bytes o) 8 + peek bytes (o + 1).

Definition get_uint32_big_endian (bytes : list Z) (o : Z) : Z :=
  u32 (u32 (Z.shiftl (peek bytes o) 24) + u32 (Z.shiftl (peek bytes (o + 1)) 16)
       + u32 (Z.shiftl (peek bytes (o + 2)) 8) + peek bytes (o + 3)).

Definition get_uint64_big_endian (bytes : list Z) (o : Z) : Z :=
  u64 (u64 (Z.shiftl (peek bytes o) 56) + u64 (Z.shiftl (peek bytes (o + 1)) 48)
       + u64 (Z.shiftl (peek bytes (o + 2)) 40) + u64 (Z.shiftl (peek bytes (o + 3)) 32)
       + u64 (Z.shiftl (peek bytes (o + 4)) 24) + u64 (Z.shiftl (peek bytes (o + 5)) 16)
       + u64 (Z.shiftl (peek bytes (o + 6)) 8) + peek bytes (o + 7)).

End Loads.

(** A [double] is its 64-bit pattern: both conversions go through a union and
    keep every bit. *)
Definition encode_double (value : Z) : Z := value.
Definition decode_double (value : Z) : Z := value.

(** ** Varints *)

(** The do-while loop of [encode_unsigned_varint]; it emits
    [buffer[0..encoded)].  A 64-bit value leaves it after at most 10 rounds. *)
Fixpoint encode_unsigned_varint_loop (fuel : nat) (value : Z) : list Z :=
  match fuel with
  | O => []
  | S fuel =>
    let next_byte := Z.land value 127 in
    let value := Z.shiftr value 7 in
    if value =? 0 then [next_byte]
    else Z.lor next_byte 128 :: encode_unsigned_varint_loop fuel value
  end.

Definition encode_unsigned_varint (value : Z) : list Z :=
  encode_unsigned_varint_loop (Z.to_nat MAX_VARINT_LEN_64) value.

(** The zig-zag transform of [encode_signed_varint(int64_t)]. *)
Definition zigzag (value : Z) : Z :=
  u64 (if value <? 0 then Z.lnot (s64 (Z.shiftl value 1)) else s64 (Z.shiftl value 1)).

Definition unzigzag (unsigned_value : Z) : Z :=
  s64 (if Z.land unsigned_value 1 =? 0
       then Z.shiftr unsigned_value 1
       else u64 (Z.lnot (Z.shiftr unsigned_value 1))).

Definition encode_signed_varint (value : Z) : list Z :=
  encode_unsigned_varint (zigzag value).

Section Varint.
Context `{PastEnd}.

(** [data] points at offset [o]; [i] counts the bytes looked at.  The loop
    body loads [data[i]] before it compares [i] with [size], so it may look
    one byte past [size]; the exit test then throws. *)
Fixpoint decode_unsigned_varint_loop (fuel : nat) (data : list Z)
    (o size i decoded_value shift_amount : Z) : Z * Z :=
  match fuel with
  | O => (decoded_value, i)
  | S fuel =>
    let b := peek data (o + i) in
    let decoded_value :=
      Z.lor decoded_value (u64 (Z.shiftl (Z.land b 127) shift_amount)) in
    let shift_amount := shift_amount + 7 in
    if i <? size then
      if Z.land b 128 =? 0 then (decoded_value, i + 1)
      else decode_unsigned_varint_loop fuel data o size (i + 1) decoded_value shift_amount
    else (decoded_value, i)
  end.

(** Value and number of decoded bytes. *)
Definition decode_unsigned_varint (data : list Z) (o size : Z) : option (Z * Z) :=
  let '(decoded_value, i) :=
    decode_unsigned_varint_loop (S (Z.to_nat size)) data o size 0 0 0 in
  if (i =? size) && negb (Z.land (peek data (o + i - 1)) 128 =? 0) then None
  else Some (decoded_value, i).

Definition decode_signed_varint (data : list Z) (o size : Z) : option (Z * Z) :=
  match decode_unsigned_varint data o size with
  | None => None
  | Some (unsigned_value, decoded_bytes) => Some (unzigzag unsigned_value, decoded_bytes)
  end.

End Varint.

(** ** Bit widths *)

Definition len8table : list Z :=
  [0; 1; 2; 2; 3; 3; 3; 3; 4; 4; 4; 4; 4; 4; 4; 4; 5; 5; 5; 5; 5; 5; 5; 5;
   5; 5; 5; 5; 5; 5; 5; 5; 6; 6; 6; 6; 6; 6; 6; 6; 6; 6; 6; 6; 6; 6; 6; 6;
   6; 6; 6; 6; 6; 6; 6; 6; 6; 6; 6; 6; 6; 6; 6; 6; 7; 7; 7; 7; 7; 7; 7; 7;
   7; 7; 7; 7; 7; 7; 7; 7; 7; 7; 7; 7; 7; 7; 7; 7; 7; 7; 7; 7; 7; 7; 7; 7;
   7; 7; 7; 7; 7; 7; 7; 7; 7; 7; 7; 7; 7; 7; 7; 7; 7; 7; 7; 7; 7; 7; 7; 7;
   7; 7; 7; 7; 7; 7; 7; 7; 8; 8; 8; 8; 8; 8; 8; 8; 8; 8; 8; 8; 8; 8; 8; 8;
   8; 8; 8; 8; 8; 8; 8; 8; 8; 8; 8; 8; 8; 8; 8; 8; 8; 8; 8; 8; 8; 8; 8; 8;
   8; 8; 8; 8; 8; 8; 8; 8; 8; 8; 8; 8; 8; 8; 8; 8; 8; 8; 8; 8; 8; 8; 8; 8;
   8; 8; 8; 8; 8; 8; 8; 8; 8; 8; 8; 8; 8; 8; 8; 8; 8; 8; 8; 8; 8; 8; 8; 8;
   8; 8; 8; 8; 8; 8; 8; 8; 8; 8; 8; 8; 8; 8; 8; 8; 8; 8; 8; 8; 8; 8; 8; 8;
   8; 8; 8; 8; 8; 8; 8; 8; 8; 8; 8; 8; 8; 8; 8; 8].

(** [max_bits64] and [max_bytes64]; the test against [2^8] shifts by 16. *)
Definition max_bits64 (v : Z) : Z :=
  let '(v, n) := if 2 ^ 32 <=? v then (Z.shiftr v 32, 32) else (v, 0) in
  let '(v, n) := if 2 ^ 16 <=? v then (Z.shiftr v 16, n + 16) else (v, n) in
  let '(v, n) := if 2 ^ 8 <=? v then (Z.shiftr v 16, n + 8) else (v, n) in
  n + nth (Z.to_nat v) len8table 0.

Definition max_bytes64 (v : Z) : Z :=
  let '(v, n) := if 2 ^ 32 <=? v then (Z.shiftr v 32, 4) else (v, 0) in
  let '(v, n) := if 2 ^ 16 <=? v then (Z.shiftr v 16, n + 2) else (v, n) in
  let '(v, n) := if 2 ^ 8 <=? v then (Z.shiftr v 16, n + 1) else (v, n) in
  n + 1.

(** [__builtin_clzll] of a 64-bit pattern; on zero its result is undefined,
    [clz_zero] here. *)
Definition clz (clz_zero v : Z) : Z := if v =? 0 then clz_zero else 63 - Z.log2 v.

(** The bits that hold every element of a nonempty vector as a signed integer. *)
Definition max_bits (clz_zero : Z) (v : list Z) : Z :=
  let front := nth 0 v 0 in
  let max := foldl (fun max x => if max <? x then x else max) front (drop 1 v) in
  let min := foldl (fun min x => if x <? min then x else min) front (drop 1 v) in
  if min <? 0 then
    let min_bits_ := u8 (u8 (clz clz_zero (u64 (Z.lnot min))) - 1) in
    if max <? 0 then u8 (64 - min_bits_)
    else
      let max_bits_ := u8 (clz clz_zero max) in
      u8 (if min_bits_ <? max_bits_ then 64 - min_bits_ else 65 - max_bits_)
  else u8 (65 - clz clz_zero max).

Definition max_bytes (clz_zero : Z) (v : list Z) : Z := u8 (Z.shiftr (max_bits clz_zero v + 7) 3).

(** Sign extension of the low [bits] bits. *)
Definition get_origin (data bits : Z) : Z :=
  if Z.shiftr data (bits - 1) =? 1
  then s64 (Z.lor data (u64 (Z.lnot (s64 (Z.shiftl 1 bits) - 1))))
  else s64 data.

Definition get_max (bits : Z) : Z := s64 (s64 (Z.shiftl 1 (bits - 1)) - 1).
Definition get_min (bits : Z) : Z := s64 (-1 * s64 (Z.shiftl 1 (bits - 1))).

(** ** Facts *)

(** The loop writes the reference varint. *)
Lemma encode_unsigned_varint_varint v :
  0 <= v < 2 ^ 64 -> encode_unsigned_varint v = varint v.
Proof.
  intros Hv. unfold encode_unsigned_varint, varint, MAX_VARINT_LEN_64.
  change (Z.to_nat 10) with 10%nat.
  assert (H : forall n w, 0 <= w -> encode_unsigned_varint_loop n w = varint_fuel n w).
  { clear. intros n. induction n as [|n IH]; intros w Hw; [done|].
    cbn [encode_unsigned_varint_loop varint_fuel].
    rewrite land_127, Z.shiftr_div_pow2 by lia. change (2 ^ 7) with 128.
    pose proof (Z.mod_pos_bound w 128 ltac:(lia)).
    pose proof (Z.div_mod w 128 ltac:(lia)).
    destruct (Z.eqb_spec (w / 128) 0), (Z.ltb_spec w 128).
    - f_equal. apply Z.mod_small. lia.
    - lia.
    - exfalso. apply n0. apply Z.div_small. lia.
    - rewrite IH by (apply Z.div_pos; lia). f_equal.
      rewrite Z.lor_comm, (lor_disjoint 1 7) by lia. lia. }
  apply H. lia.
Qed.

Lemma zigzag_u64 v : is_u64 (zigzag v).
Proof. by apply wrap_range. Qed.

(** Decoding undoes the zig-zag transform on every 64-bit integer. *)
Lemma unzigzag_zigzag v : is_s64 v -> unzigzag (zigzag v) = v.
Proof.
  intros Hv. assert (Hv' : - 2 ^ 63 <= v < 2 ^ 63) by exact Hv.
  unfold unzigzag. change 1 with (Z.ones 1) at 1. rewrite Z.land_ones by lia.
  rewrite Z.shiftr_div_pow2 by lia. change (2 ^ 1) with 2.
  assert (Hz : zigzag v = if v <? 0 then -2 * v - 1 else 2 * v).
  { unfold zigzag, u64. destruct (Z.ltb_spec v 0).
    - rewrite <- (wrap_id 64 (-2 * v - 1)) by (unfold is_u; lia).
      unfold Z.lnot, Z.pred. destruct (swrap_ex 64 (Z.shiftl v 1)) as [k Hk].
      unfold s64. rewrite Hk, Z.shiftl_mul_pow2 by lia.
      apply Z.cong_iff_ex. exists (- k). lia.
    - unfold s64. rewrite wrap_swrap by lia. rewrite Z.shiftl_mul_pow2 by lia.
      rewrite wrap_id by (unfold is_u; lia). lia. }
  rewrite Hz. destruct (Z.ltb_spec v 0).
  - replace ((-2 * v - 1) mod 2) with 1 by (rewrite Z.mod_eq by lia;
      replace (-2 * v - 1) with (1 + (- v - 1) * 2) by lia;
      rewrite Z.div_add by lia; change (1 / 2) with 0; lia).
    replace ((-2 * v - 1) / 2) with (- v - 1)
      by (replace (-2 * v - 1) with (1 + (- v - 1) * 2) by lia;
          rewrite Z.div_add by lia; change (1 / 2) with 0; lia).
    simpl (1 =? 0). cbv iota. rewrite s64_u64. unfold Z.lnot, Z.pred.
    replace (- (- v - 1) + -1) with v by lia. by apply swrap_id.
  - replace (2 * v) with (0 + v * 2) by lia. rewrite Z_mod_plus_full, Z.div_add by lia.
    change (0 / 2) with 0. simpl (0 mod 2 =? 0). cbv iota.
    replace (0 + v) with v by lia. by apply swrap_id.
Qed.

(** The decoder's loop consumes one reference varint. *)
Lemma decode_unsigned_varint_loop_varint `{PastEnd} v :
  0 <= v -> forall fuel pre rest o size i acc s,
  v * 2 ^ s < 2 ^ 64 -> 0 <= s -> 0 <= acc < 2 ^ s -> 0 <= i ->
  o + i = Z.of_nat (length pre) ->
  i + Z.of_nat (length (varint v)) <= size ->
  (length (varint v) <= fuel)%nat ->
  decode_unsigned_varint_loop fuel (pre ++ varint v ++ rest) o size i acc s
  = (acc + v * 2 ^ s, i + Z.of_nat (length (varint v))).
Proof.
  revert v. refine (varint_ind _ _ _).
  - intros v Hv fuel pre rest o size i acc s H1 H2 H3 H4 H5 H6 H7.
    rewrite varint_small in * by lia. simpl in H6, H7. destruct fuel as [|fuel]; [lia|].
    cbn [decode_unsigned_varint_loop]. rewrite H5.
    rewrite <- (Z.add_0_r (Z.of_nat (length pre))), (peek_app_r pre _ 0 v) by done.
    assert (Hb : is_byte v) by (unfold is_u; lia).
    rewrite (varint_accum _ _ _ H2 Hb H3) by (rewrite Z.mod_small by lia; lia).
    destruct (Z.ltb_spec i size); [|lia].
    rewrite byte_land_128 by done. destruct (Z.ltb_spec v 128); [|lia]. simpl.
    rewrite Z.mod_small by lia. done.
  - intros v Hv IH fuel pre rest o size i acc s H1 H2 H3 H4 H5 H6 H7.
    assert (0 < 2 ^ s) by (apply Z.pow_pos_nonneg; lia).
    assert (Hv64 : 128 <= v < 2 ^ 64) by nia.
    rewrite varint_big in * by lia. simpl in H6, H7. destruct fuel as [|fuel]; [lia|].
    set (b := v mod 128 + 128) in *.
    assert (0 <= v mod 128 < 128) by (apply Z.mod_pos_bound; lia).
    pose proof (Z.div_mod v 128 ltac:(lia)) as Hdm.
    assert (Hb : is_byte b) by (unfold is_u; subst b; lia).
    assert (Hbm : b mod 128 = v mod 128).
    { subst b. rewrite <- Z.add_mod_idemp_r, Z_mod_same_full, Z.add_0_r, Zmod_mod by lia. done. }
    cbn [decode_unsigned_varint_loop]. rewrite H5.
    rewrite <- (Z.add_0_r (Z.of_nat (length pre))), (peek_app_r pre _ 0 b) by done.
    rewrite (varint_accum _ _ _ H2 Hb H3) by (rewrite Hbm; nia).
    destruct (Z.ltb_spec i size); [|lia].
    rewrite byte_land_128 by done. destruct (Z.ltb_spec b 128); [lia|]. simpl (128 =? 0).
    cbv iota. rewrite Hbm.
    rewrite <- app_comm_cons, cons_middle, (app_assoc pre [b]).
    rewrite IH; try rewrite ?length_app; simpl length; try lia.
    + rewrite Z.pow_add_r by lia. change (2 ^ 7) with 128. f_equal; nia.
    + rewrite Z.pow_add_r by lia. change (2 ^ 7) with 128. nia.
    + rewrite Z.pow_add_r by lia. change (2 ^ 7) with 128. nia.
Qed.

(** ** Fixed-width integers in a buffer *)

(** The store replaces the bytes it is aimed at by the big-endian digits and
    leaves the rest of the buffer alone. *)
Lemma put_uint16_spec pre old post num :
  length old = 2%nat ->
  put_uint16_big_endian (pre ++ old ++ post) (Z.of_nat (length pre)) num
  = pre ++ be_bytes 2 num ++ post.
Proof.
  intros Hl. destruct old as [|? [|? [|]]]; try done. unfold put_uint16_big_endian.
  rewrite poke_app_r, poke_app_r0, !land_ff by lia. done.
Qed.

Lemma put_uint32_spec pre old post num :
  length old = 4%nat ->
  put_uint32_big_endian (pre ++ old ++ post) (Z.of_nat (length pre)) num
  = pre ++ be_bytes 4 num ++ post.
Proof.
  intros Hl. destruct old as [|? [|? [|? [|? [|]]]]]; try done. unfold put_uint32_big_endian.
  rewrite !poke_app_r, poke_app_r0, !land_ff by lia. done.
Qed.

Lemma put_uint64_spec pre old post num :
  length old = 8%nat ->
  put_uint64_big_endian (pre ++ old ++ post) (Z.of_nat (length pre)) num
  = pre ++ be_bytes 8 num ++ post.
Proof.
  intros Hl. destruct old as [|? [|? [|? [|? [|? [|? [|? [|? [|]]]]]]]]]; try done.
  unfold put_uint64_big_endian. rewrite !poke_app_r, poke_app_r0, !land_ff by lia. done.
Qed.

Section Gets.
Context `{PastEnd}.

Lemma get_uint16_spec pre post num :
  get_uint16_big_endian (pre ++ be_bytes 2 num ++ post) (Z.of_nat (length pre)) = u16 num.
Proof.
  unfold get_uint16_big_endian. cbn [be_bytes app].
  rewrite peek_app_r0, (peek_app_r pre _ 1 (u8 (Z.shiftr num 0))) by done.
  rewrite Z.shiftl_mul_pow2 by lia. pose proof (be_val_be_bytes 2 num) as E.
  etransitivity; [|exact E]. unfold be_val. cbn [be_bytes fold_left].
  change (8 * Z.of_nat 1) with 8. change (8 * Z.of_nat 0) with 0. lia.
Qed.

Lemma get_uint32_spec pre post num :
  get_uint32_big_endian (pre ++ be_bytes 4 num ++ post) (Z.of_nat (length pre)) = u32 num.
Proof.
  unfold get_uint32_big_endian. rewrite <- (Z.add_0_r (Z.of_nat (length pre))) at 1.
  rewrite (be_byte_nth 4 num 0), (be_byte_nth 4 num 1), (be_byte_nth 4 num 2),
    (be_byte_nth 4 num 3) by lia.
  pose proof (be_val_be_bytes 4 num) as E. etransitivity; [|exact E].
  pose proof (be_bytes_ok 4 num) as Hok. unfold be_val. cbn [be_bytes fold_left Nat.sub] in *.
  unfold u32. inversion_clear Hok as [|? ? H1 Hok1]. inversion_clear Hok1 as [|? ? H2 Hok2].
  inversion_clear Hok2 as [|? ? H3 Hok3]. inversion_clear Hok3 as [|? ? H4 _].
  rewrite !shifted_byte by (done || lia). rewrite wrap_id; [lia|]. unfold is_u in *. lia.
Qed.

Lemma get_uint64_spec pre post num :
  get_uint64_big_endian (pre ++ be_bytes 8 num ++ post) (Z.of_nat (length pre)) = u64 num.
Proof.
  unfold get_uint64_big_endian. rewrite <- (Z.add_0_r (Z.of_nat (length pre))) at 1.
  rewrite (be_byte_nth 8 num 0), (be_byte_nth 8 num 1), (be_byte_nth 8 num 2),
    (be_byte_nth 8 num 3), (be_byte_nth 8 num 4), (be_byte_nth 8 num 5),
    (be_byte_nth 8 num 6), (be_byte_nth 8 num 7) by lia.
  pose proof (be_val_be_bytes 8 num) as E. etransitivity; [|exact E].
  pose proof (be_bytes_ok 8 num) as Hok. unfold be_val. cbn [be_bytes fold_left Nat.sub] in *.
  unfold u64. repeat match goal with
  | Hok : Forall _ (_ :: _) |- _ => inversion_clear Hok end.
  rewrite !shifted_byte by (done || lia). rewrite wrap_id; [lia|]. unfold is_u in *. lia.
Qed.

(** The last byte of a varint has its top bit clear. *)
Lemma varint_last v :
  is_u64 v -> Z.land (default 0 (varint v !! (length (varint v) - 1)%nat)) 128 = 0.
Proof.
  intros [H1 H2]. revert v H1 H2. apply (varint_ind (fun v => v < 2 ^ 64 -> _)).
  - intros v Hv _. rewrite varint_small by lia. cbn. rewrite byte_land_128 by (unfold is_u; lia).
    by rewrite (proj2 (Z.ltb_lt _ _)) by lia.
  - intros v Hv IH Hv2. rewrite varint_big by lia.
    assert (Hd : 0 <= v / 128 < 2 ^ 64)
      by (split; [apply Z.div_pos; lia|apply Z.div_lt_upper_bound; lia]).
    pose proof (length_varint (v / 128) Hd). specialize (IH ltac:(lia)).
    destruct (length (varint (v / 128))) as [|n] eqn:En; [lia|]. simpl length. rewrite En.
    simpl in *. by rewrite Nat.sub_0_r in IH.
Qed.

(** Storing a 64-bit integer big-endian anywhere in a buffer and loading
    it from the same place gives it back, whatever the buffer held, and the
    bytes before and after are untouched. *)
Theorem put_get_uint64_round_trip pre old post num :
  length old = 8%nat -> is_u64 num ->
  let buffer := put_uint64_big_endian (pre ++ old ++ post) (Z.of_nat (length pre)) num in
  get_uint64_big_endian buffer (Z.of_nat (length pre)) = num /\
  take (length pre) buffer = pre /\ drop (length pre + 8) buffer = post.
Proof.
  intros Hl Hn buffer. subst buffer. rewrite put_uint64_spec, get_uint64_spec by done.
  split_and!; [by apply wrap_id|apply take_app_length|].
  rewrite app_assoc. apply drop_app_length'. by rewrite length_app, length_be_bytes.
Qed.

Lemma decode_encode_unsigned v pre rest size :
  is_u64 v -> Z.of_nat (length (encode_unsigned_varint v)) <= size ->
  decode_unsigned_varint (pre ++ encode_unsigned_varint v ++ rest) (Z.of_nat (length pre)) size
  = Some (v, Z.of_nat (length (encode_unsigned_varint v))).
Proof.
  intros Hv Hs. rewrite encode_unsigned_varint_varint in * by done.
  pose proof (length_varint v Hv). unfold decode_unsigned_varint.
  rewrite decode_unsigned_varint_loop_varint; unfold is_u in Hv; try lia.
  rewrite Z.mul_1_r, !Z.add_0_l.
  replace (peek _ _) with (default 0 (varint v !! (length (varint v) - 1)%nat)).
  - replace (Z.land _ 128) with 0; [by rewrite andb_false_r|].
    by rewrite varint_last.
  - destruct (lookup_lt_is_Some_2 (varint v) (length (varint v) - 1)) as [x Hx]; [lia|].
    rewrite Hx. symmetry. simpl.
    replace (Z.of_nat (length pre) + Z.of_nat (length (varint v)) - 1)
      with (Z.of_nat (length pre) + Z.of_nat (length (varint v) - 1)) by lia.
    apply peek_app_r; [lia|]. rewrite Nat2Z.id, lookup_app_l by lia. done.
Qed.

(** A varint written by [encode_unsigned_varint] is read back by
    [decode_unsigned_varint], which reports exactly the bytes that were written,
    wherever it stands in the buffer, as long as the size limit covers it. *)
Theorem unsigned_varint_round_trip v pre rest size :
  is_u64 v -> Z.of_nat (length (encode_unsigned_varint v)) <= size ->
  decode_unsigned_varint (pre ++ encode_unsigned_varint v ++ rest) (Z.of_nat (length pre)) size
  = Some (v, Z.of_nat (length (encode_unsigned_varint v))).
Proof.
  apply decode_encode_unsigned.
Qed.

(** The signed variant: every 64-bit integer survives zig-zag encoding,
    varint encoding and their inverses. *)
Theorem signed_varint_round_trip v pre rest size :
  is_s64 v -> Z.of_nat (length (encode_signed_varint v)) <= size ->
  decode_signed_varint (pre ++ encode_signed_varint v ++ rest) (Z.of_nat (length pre)) size
  = Some (v, Z.of_nat (length (encode_signed_varint v))).
Proof.
  intros Hv Hs. unfold decode_signed_varint, encode_signed_varint in *.
  rewrite decode_encode_unsigned by (done || apply zigzag_u64). by rewrite unzigzag_zigzag.
Qed.

(** A varint cut short is reported, never read past: on a buffer whose
    [size] bytes all carry the continuation bit the decoder throws. *)
Theorem varint_truncated_throws data o size :
  0 < size -> (forall i, 0 <= i < size -> Z.land (peek data (o + i)) 128 <> 0) ->
  decode_unsigned_varint data o size = None.
Proof.
  intros Hs Hc. unfold decode_unsigned_varint.
  assert (E : forall fuel i acc s, 0 <= i <= size -> (Z.to_nat (size - i) < fuel)%nat ->
    (decode_unsigned_varint_loop fuel data o size i acc s).2 = size).
  { induction fuel as [|fuel IH]; intros i acc s Hi Hf; [lia|]. cbn [decode_unsigned_varint_loop].
    destruct (Z.ltb_spec i size); [|simpl; lia].
    rewrite (proj2 (Z.eqb_neq _ _) (Hc i ltac:(lia))). apply IH; lia. }
  specialize (E (S (Z.to_nat size)) 0 0 0 ltac:(lia) ltac:(lia)).
  destruct (decode_unsigned_varint_loop _ _ _ _ _ _ _) as [d i]. simpl in E. subst i.
  rewrite Z.eqb_refl. specialize (Hc (size - 1) ltac:(lia)).
  replace (o + size - 1) with (o + (size - 1)) by lia. by rewrite (proj2 (Z.eqb_neq _ _) Hc).
Qed.

End Gets.

Lemma put_get_uint64_round_trip_witness :
  let pe : PastEnd := fun _ => 0 in
  let buffer := put_uint64_big_endian [1; 2; 3; 4; 5; 6; 7; 8; 9; 10] 1 (2 ^ 63 + 258) in
  get_uint64_big_endian buffer 1 = 2 ^ 63 + 258 /\ take 1 buffer = [1] /\ drop (1 + 8) buffer = [10].
Proof.
  intros pe. apply (put_get_uint64_round_trip [1] [2; 3; 4; 5; 6; 7; 8; 9] [10]);
    [reflexivity|vm_compute; split; congruence].
Defined.

Lemma unsigned_varint_round_trip_witness :
  let pe : PastEnd := fun _ => 0 in
  decode_unsigned_varint ([9] ++ encode_unsigned_varint 300 ++ [7]) 1 5 = Some (300, 2).
Proof.
  intros pe. apply (unsigned_varint_round_trip 300 [9] [7] 5);
    [vm_compute; split; congruence|vm_compute; congruence].
Defined.

Lemma signed_varint_round_trip_witness :
  let pe : PastEnd := fun _ => 0 in
  decode_signed_varint ([9] ++ encode_signed_varint (- 2 ^ 63) ++ [7]) 1 12 = Some (- 2 ^ 63, 10).
Proof.
  intros pe. apply (signed_varint_round_trip (- 2 ^ 63) [9] [7] 12);
    [vm_compute; split; congruence|vm_compute; congruence].
Defined.

Lemma varint_truncated_throws_witness :
  let pe : PastEnd := fun _ => 0 in decode_unsigned_varint [129; 130; 5] 0 2 = None.
Proof.
  intros pe. apply (varint_truncated_throws [129; 130; 5] 0 2); [lia|].
  intros i Hi. assert (i = 0 \/ i = 1) as [->| ->] by lia; vm_compute; congruence.
Defined.

(** [max_bits64] is meant to be the bit length of a word; the branch for
    words of 9 to 16 bits shifts by 16 instead of 8, so it answers 8 for every
    one of them. *)
Theorem max_bits64_two_bytes v : 2 ^ 8 <= v < 2 ^ 16 -> max_bits64 v = 8.
Proof.
  intros Hv. unfold max_bits64. rewrite (proj2 (Z.leb_gt (2 ^ 32) v)) by lia.
  rewrite (proj2 (Z.leb_gt (2 ^ 16) v)), (proj2 (Z.leb_le (2 ^ 8) v)) by lia.
  rewrite Z.shiftr_div_pow2, Z.div_small by lia. done.
Qed.

Lemma max_bits64_two_bytes_witness : max_bits64 65535 = 8 /\ Z.log2 65535 + 1 = 16.
Proof. split; [apply (max_bits64_two_bytes 65535); lia|reflexivity]. Defined.
