(* ===== verification/Coding.v ===== *)
(** leveldb/util/coding.h and coding.cc: the integer and key encodings shared
    by the write-ahead log, the slab store and the index keys.

    A [Slice] or a [const char*] is the list of bytes from the pointer on; an
    encoder returns the bytes it appends; a decoder that can fail returns an
    option with the bytes left. *)
From Stdlib Require Import ZArith Lia Bool.
From stdpp Require Import base list numbers option.
From S2P Require Import Prelude.

(** ** Fixed-width integers *)

Definition EncodeFixed16 (value : Z) : list Z :=
  [Z.land value 255; Z.land (Z.shiftr value 8) 255].

Definition EncodeFixed32 (value : Z) : list Z :=
  [u8 value; u8 (Z.shiftr value 8); u8 (Z.shiftr value 16); u8 (Z.shiftr value 24)].

Definition EncodeFixed64 (value : Z) : list Z :=
  [u8 value; u8 (Z.shiftr value 8); u8 (Z.shiftr value 16); u8 (Z.shiftr value 24);
   u8 (Z.shiftr value 32); u8 (Z.shiftr value 40); u8 (Z.shiftr value 48);
   u8 (Z.shiftr value 56)].

Definition EncodeFixed32BE (value : Z) : list Z :=
  [u8 (Z.shiftr value 24); u8 (Z.shiftr value 16); u8 (Z.shiftr value 8); u8 value].

Definition EncodeFixed64BE (value : Z) : list Z :=
  [u8 (Z.shiftr value 56); u8 (Z.shiftr value 48); u8 (Z.shiftr value 40);
   u8 (Z.shiftr value 32); u8 (Z.shiftr value 24); u8 (Z.shiftr value 16);
   u8 (Z.shiftr value 8); u8 value].

Definition PutFixed16 (dst : list Z) (value : Z) : list Z := dst ++ EncodeFixed16 value.
Definition PutFixed32 (dst : list Z) (value : Z) : list Z := dst ++ EncodeFixed32 value.
Definition PutFixed64 (dst : list Z) (value : Z) : list Z := dst ++ EncodeFixed64 value.
Definition PutFixed32BE (dst : list Z) (value : Z) : list Z := dst ++ EncodeFixed32BE value.
Definition PutFixed64BE (dst : list Z) (value : Z) : list Z := dst ++ EncodeFixed64BE value.

Section Decode.
Context `{PastEnd}.

Definition DecodeFixed16 (ptr : list Z) : Z :=
  u16 (Z.lor (peek ptr 0) (Z.shiftl (peek ptr 1) 8)).

Definition DecodeFixed32 (b : list Z) : Z :=
  Z.lor (Z.lor (Z.lor (peek b 0) (u32 (Z.shiftl (peek b 1) 8)))
    (u32 (Z.shiftl (peek b 2) 16))) (u32 (Z.shiftl (peek b 3) 24)).

Definition DecodeFixed64 (b : list Z) : Z :=
  Z.lor (Z.lor (Z.lor (Z.lor (Z.lor (Z.lor (Z.lor (peek b 0) (u64 (Z.shiftl (peek b 1) 8)))
    (u64 (Z.shiftl (peek b 2) 16))) (u64 (Z.shiftl (peek b 3) 24)))
    (u64 (Z.shiftl (peek b 4) 32))) (u64 (Z.shiftl (peek b 5) 40)))
    (u64 (Z.shiftl (peek b 6) 48))) (u64 (Z.shiftl (peek b 7) 56)).

Definition DecodeFixed32BE (b : list Z) : Z :=
  Z.lor (Z.lor (Z.lor (u32 (Z.shiftl (peek b 0) 24)) (u32 (Z.shiftl (peek b 1) 16)))
    (u32 (Z.shiftl (peek b 2) 8))) (peek b 3).

Definition DecodeFixed64BE (b : list Z) : Z :=
  Z.lor (Z.lor (Z.lor (Z.lor (Z.lor (Z.lor (Z.lor (u64 (Z.shiftl (peek b 0) 56))
    (u64 (Z.shiftl (peek b 1) 48))) (u64 (Z.shiftl (peek b 2) 40)))
    (u64 (Z.shiftl (peek b 3) 32))) (u64 (Z.shiftl (peek b 4) 24)))
    (u64 (Z.shiftl (peek b 5) 16))) (u64 (Z.shiftl (peek b 6) 8))) (peek b 7).

Definition GetFixed64 (input : list Z) : option (Z * list Z) :=
  if Z.of_nat (length input) <? 8 then None else Some (DecodeFixed64 input, drop 8 input).
Definition GetFixed32 (input : list Z) : option (Z * list Z) :=
  if Z.of_nat (length input) <? 4 then None else Some (DecodeFixed32 input, drop 4 input).
Definition GetFixed16 (input : list Z) : option (Z * list Z) :=
  if Z.of_nat (length input) <? 2 then None else Some (DecodeFixed16 input, drop 2 input).

(** ** Keys *)

Definition encodeKey (str : list Z) (tsid t : Z) : list Z :=
  PutFixed64BE (PutFixed64BE str tsid) (u64 t).

Definition decodeKey (s : list Z) : Z * Z :=
  (DecodeFixed64BE s, s64 (DecodeFixed64BE (drop 8 s))).

Definition EnCodeKey (str : list Z) (source_group_id metric_id t : Z) : list Z :=
  PutFixed64BE (PutFixed16 (PutFixed64BE str source_group_id) metric_id) t.

Definition DeCodeKey (str : list Z) : Z * Z * Z :=
  (DecodeFixed64BE str, DecodeFixed16 (drop 8 str), DecodeFixed64BE (drop 10 str)).

End Decode.

(** ** Varints *)

Definition EncodeVarint32 (v : Z) : list Z :=
  let B := 128 in
  if v <? Z.shiftl 1 7 then [u8 v]
  else if v <? Z.shiftl 1 14 then [u8 (Z.lor v B); u8 (Z.shiftr v 7)]
  else if v <? Z.shiftl 1 21 then
    [u8 (Z.lor v B); u8 (Z.lor (Z.shiftr v 7) B); u8 (Z.shiftr v 14)]
  else if v <? Z.shiftl 1 28 then
    [u8 (Z.lor v B); u8 (Z.lor (Z.shiftr v 7) B); u8 (Z.lor (Z.shiftr v 14) B);
     u8 (Z.shiftr v 21)]
  else
    [u8 (Z.lor v B); u8 (Z.lor (Z.shiftr v 7) B); u8 (Z.lor (Z.shiftr v 14) B);
     u8 (Z.lor (Z.shiftr v 21) B); u8 (Z.shiftr v 28)].

Definition PutVarint32 (dst : list Z) (v : Z) : list Z := dst ++ EncodeVarint32 v.

(** The loop of [EncodeVarint64]; ten rounds bring any 64-bit value below 128. *)
Fixpoint EncodeVarint64_loop (fuel : nat) (v : Z) : list Z :=
  match fuel with
  | O => []
  | S fuel =>
    if 128 <=? v then u8 (Z.lor v 128) :: EncodeVarint64_loop fuel (Z.shiftr v 7)
    else [u8 v]
  end.

Definition EncodeVarint64 (v : Z) : list Z := EncodeVarint64_loop 10 v.
Definition PutVarint64 (dst : list Z) (v : Z) : list Z := dst ++ EncodeVarint64 v.

Fixpoint VarintLength_loop (fuel : nat) (v len : Z) : Z :=
  match fuel with
  | O => len
  | S fuel => if 128 <=? v then VarintLength_loop fuel (Z.shiftr v 7) (len + 1) else len
  end.

Definition VarintLength (v : Z) : Z := VarintLength_loop 10 v 1.

(** The loops of [GetVarint64Ptr] and [GetVarint32PtrFallback]: [w] is the
    width of the result, [last] the largest shift, the list the bytes up to
    [limit]. *)
Fixpoint GetVarint_loop (w last shift result : Z) (p : list Z) : option (Z * list Z) :=
  match p with
  | [] => None
  | byte :: p =>
    if last <? shift then None
    else if negb (Z.land byte 128 =? 0) then
      GetVarint_loop w last (shift + 7)
        (Z.lor result (wrap w (Z.shiftl (Z.land byte 127) shift))) p
    else Some (Z.lor result (wrap w (Z.shiftl byte shift)), p)
  end.

Definition GetVarint64Ptr (p : list Z) : option (Z * list Z) := GetVarint_loop 64 63 0 0 p.
Definition GetVarint64 (input : list Z) : option (Z * list Z) := GetVarint64Ptr input.

Definition GetVarint32PtrFallback (p : list Z) : option (Z * list Z) := GetVarint_loop 32 28 0 0 p.

Definition GetVarint32Ptr (p : list Z) : option (Z * list Z) :=
  match p with
  | result :: p' => if Z.land result 128 =? 0 then Some (result, p') else GetVarint32PtrFallback p
  | [] => GetVarint32PtrFallback p
  end.

Definition GetVarint32 (input : list Z) : option (Z * list Z) := GetVarint32Ptr input.

(** ** Length-prefixed strings *)

Definition PutLengthPrefixedSlice (dst value : list Z) : list Z :=
  PutVarint32 dst (u32 (Z.of_nat (length value))) ++ value.

(** The slice and the input after it. *)
Definition GetLengthPrefixedSlice (input : list Z) : option (list Z * list Z) :=
  match GetVarint32 input with
  | Some (len, input) =>
    if len <=? Z.of_nat (length input) then Some (take (Z.to_nat len) input, drop (Z.to_nat len) input)
    else None
  | None => None
  end.

(** ** Facts *)

Lemma EncodeFixed16_le v : EncodeFixed16 v = le_bytes 2 v.
Proof. unfold EncodeFixed16, le_bytes. cbn [be_bytes rev app]. by rewrite !land_ff. Qed.

Lemma EncodeFixed32_le v : EncodeFixed32 v = le_bytes 4 v.
Proof. done. Qed.

Lemma EncodeFixed64_le v : EncodeFixed64 v = le_bytes 8 v.
Proof. done. Qed.

Lemma EncodeFixed32BE_be v : EncodeFixed32BE v = be_bytes 4 v.
Proof. done. Qed.

Lemma EncodeFixed64BE_be v : EncodeFixed64BE v = be_bytes 8 v.
Proof. done. Qed.

Section Fixed.
Context `{PastEnd}.

(** Opens a fixed-width decoder on the digits it is meant for. *)
Ltac be_digits n v :=
  pose proof (be_bytes_ok n v) as Hok; pose proof (be_val_be_bytes n v) as Hval;
  unfold be_val in Hval; cbn [be_bytes fold_left] in Hok, Hval;
  repeat match goal with Hx : Forall _ (_ :: _) |- _ => inversion_clear Hx end.

Lemma DecodeFixed64BE_spec v rest : DecodeFixed64BE (be_bytes 8 v ++ rest) = u64 v.
Proof.
  unfold DecodeFixed64BE.
  rewrite (be_byte_first 8 v 0), (be_byte_first 8 v 1), (be_byte_first 8 v 2),
    (be_byte_first 8 v 3), (be_byte_first 8 v 4), (be_byte_first 8 v 5),
    (be_byte_first 8 v 6), (be_byte_first 8 v 7) by lia.
  cbn [Nat.sub]. be_digits 8%nat v. etransitivity; [|exact Hval]. unfold u64.
  rewrite !shifted_byte by (done || lia).
  rewrite (lor_be _ _ 56 48), (lor_be _ _ 48 40), (lor_be _ _ 40 32), (lor_be _ _ 32 24),
    (lor_be _ _ 24 16), (lor_be _ _ 16 8) by (done || lia).
  rewrite lor_disjoint by (done || lia). change (2 ^ 8) with 256. lia.
Qed.

Lemma DecodeFixed32BE_spec v rest : DecodeFixed32BE (be_bytes 4 v ++ rest) = u32 v.
Proof.
  unfold DecodeFixed32BE.
  rewrite (be_byte_first 4 v 0), (be_byte_first 4 v 1), (be_byte_first 4 v 2),
    (be_byte_first 4 v 3) by lia.
  cbn [Nat.sub]. be_digits 4%nat v. etransitivity; [|exact Hval]. unfold u32.
  rewrite !shifted_byte by (done || lia).
  rewrite (lor_be _ _ 24 16), (lor_be _ _ 16 8), lor_disjoint by (done || lia).
  change (2 ^ 8) with 256. lia.
Qed.

Lemma DecodeFixed16_spec v rest : DecodeFixed16 (le_bytes 2 v ++ rest) = u16 v.
Proof.
  unfold DecodeFixed16. rewrite (le_byte_nth 2 v 0), (le_byte_nth 2 v 1) by lia.
  be_digits 2%nat v. rewrite Z.shiftl_mul_pow2, lor_le by (done || lia).
  replace (u8 (Z.shiftr v (8 * Z.of_nat 0)) + u8 (Z.shiftr v (8 * Z.of_nat 1)) * 2 ^ 8)
    with (wrap 16 v) by (symmetry; etransitivity; [|exact Hval]; change (2 ^ 8) with 256; lia).
  apply wrap_wrap.
Qed.

Lemma DecodeFixed32_spec v rest : DecodeFixed32 (le_bytes 4 v ++ rest) = u32 v.
Proof.
  unfold DecodeFixed32.
  rewrite (le_byte_nth 4 v 0), (le_byte_nth 4 v 1), (le_byte_nth 4 v 2), (le_byte_nth 4 v 3) by lia.
  be_digits 4%nat v. etransitivity; [|exact Hval]. unfold u32, is_u in *.
  rewrite !shifted_byte by (done || lia).
  rewrite (lor_le _ _ 8), (lor_le _ _ 16), (lor_le _ _ 24) by lia. lia.
Qed.

Lemma DecodeFixed64_spec v rest : DecodeFixed64 (le_bytes 8 v ++ rest) = u64 v.
Proof.
  unfold DecodeFixed64.
  rewrite (le_byte_nth 8 v 0), (le_byte_nth 8 v 1), (le_byte_nth 8 v 2), (le_byte_nth 8 v 3),
    (le_byte_nth 8 v 4), (le_byte_nth 8 v 5), (le_byte_nth 8 v 6), (le_byte_nth 8 v 7) by lia.
  be_digits 8%nat v. etransitivity; [|exact Hval]. unfold u64, is_u in *.
  rewrite !shifted_byte by (done || lia).
  rewrite (lor_le _ _ 8), (lor_le _ _ 16), (lor_le _ _ 24), (lor_le _ _ 32), (lor_le _ _ 40),
    (lor_le _ _ 48), (lor_le _ _ 56) by lia. lia.
Qed.

Lemma GetFixed64_spec v rest : GetFixed64 (le_bytes 8 v ++ rest) = Some (u64 v, rest).
Proof.
  unfold GetFixed64. rewrite length_app, length_le_bytes.
  rewrite (proj2 (Z.ltb_ge _ 8)) by lia. by rewrite DecodeFixed64_spec.
Qed.

Lemma GetFixed16_spec v rest : GetFixed16 (le_bytes 2 v ++ rest) = Some (u16 v, rest).
Proof.
  unfold GetFixed16. rewrite length_app, length_le_bytes.
  rewrite (proj2 (Z.ltb_ge _ 2)) by lia. by rewrite DecodeFixed16_spec.
Qed.

Lemma GetFixed32_spec v rest : GetFixed32 (le_bytes 4 v ++ rest) = Some (u32 v, rest).
Proof.
  unfold GetFixed32. rewrite length_app, length_le_bytes.
  rewrite (proj2 (Z.ltb_ge _ 4)) by lia. by rewrite DecodeFixed32_spec.
Qed.

End Fixed.

(** ** Varints against the reference *)

Lemma u8_lor_128 v : 0 <= v -> u8 (Z.lor v 128) = v mod 128 + 128.
Proof.
  intros Hv. assert (E : u8 (Z.lor v 128) = Z.lor 128 (v mod 128)).
  { apply Z.bits_inj'. intros i Hi. rewrite testbit_u8, !Z.lor_spec by lia.
    change 128 with (2 ^ 7). rewrite Z.pow2_bits_eqb by lia.
    destruct (Z.ltb_spec i 8), (Z.ltb_spec i 7).
    - rewrite Z.mod_pow2_bits_low by lia. destruct (Z.eqb_spec 7 i); [lia|].
      by rewrite orb_false_r.
    - assert (i = 7) by lia. subst i. by rewrite orb_true_r.
    - lia.
    - rewrite Z.mod_pow2_bits_high by lia. by destruct (Z.eqb_spec 7 i); [lia|]. }
  rewrite E. pose proof (Z.mod_pos_bound v 128 ltac:(lia)).
  rewrite (lor_disjoint 1 7) by lia. lia.
Qed.

Lemma u8_small v : 0 <= v < 256 -> u8 v = v.
Proof. intros. by apply wrap_id. Qed.

Lemma EncodeVarint64_varint v : is_u64 v -> EncodeVarint64 v = varint v.
Proof.
  intros Hv. unfold EncodeVarint64, varint.
  assert (E : forall n w, 0 <= w -> EncodeVarint64_loop n w = varint_fuel n w).
  { clear. intros n. induction n as [|n IH]; intros w Hw; [done|].
    cbn [EncodeVarint64_loop varint_fuel]. destruct (Z.leb_spec 128 w), (Z.ltb_spec w 128); try lia.
    - rewrite u8_lor_128, Z.shiftr_div_pow2 by lia. f_equal. apply IH. apply Z.div_pos; lia.
    - by rewrite u8_small by lia. }
  apply E. unfold is_u in Hv. lia.
Qed.

(** The unrolled branches of [EncodeVarint32] are the loop. *)
Lemma EncodeVarint32_varint v : is_u 32 v -> EncodeVarint32 v = varint v.
Proof.
  intros Hv. unfold is_u in Hv. unfold EncodeVarint32. rewrite !Z.shiftl_1_l.
  set (a := v / 128). set (b := a / 128). set (c := b / 128). set (d := c / 128).
  assert (Sa : Z.shiftr v 7 = a) by (by rewrite Z.shiftr_div_pow2).
  assert (Sb : Z.shiftr v 14 = b) by (subst b a; rewrite Z.shiftr_div_pow2, Z.div_div by lia; done).
  assert (Sc : Z.shiftr v 21 = c) by (subst c b a; rewrite Z.shiftr_div_pow2, !Z.div_div by lia; done).
  assert (Sd : Z.shiftr v 28 = d) by (subst d c b a; rewrite Z.shiftr_div_pow2, !Z.div_div by lia; done).
  assert (Ha : 128 * a <= v < 128 * a + 128)
    by (pose proof (Z.div_mod v 128); pose proof (Z.mod_pos_bound v 128); lia).
  assert (Hb : 128 * b <= a < 128 * b + 128)
    by (pose proof (Z.div_mod a 128); pose proof (Z.mod_pos_bound a 128); lia).
  assert (Hc : 128 * c <= b < 128 * c + 128)
    by (pose proof (Z.div_mod b 128); pose proof (Z.mod_pos_bound b 128); lia).
  assert (Hd : 128 * d <= c < 128 * d + 128)
    by (pose proof (Z.div_mod c 128); pose proof (Z.mod_pos_bound c 128); lia).
  cbv zeta. rewrite Sa, Sb, Sc, Sd.
  destruct (Z.ltb_spec v (2 ^ 7)); [|destruct (Z.ltb_spec v (2 ^ 14)); [|destruct (Z.ltb_spec v (2 ^ 21));
    [|destruct (Z.ltb_spec v (2 ^ 28))]]].
  - rewrite varint_small, u8_small by lia. done.
  - rewrite varint_big by lia. fold a. rewrite varint_small, u8_lor_128, u8_small by lia. done.
  - rewrite varint_big by lia. fold a. rewrite varint_big by lia. fold b.
    rewrite varint_small, !u8_lor_128, u8_small by lia. done.
  - rewrite varint_big by lia. fold a. rewrite varint_big by lia. fold b.
    rewrite varint_big by lia. fold c. rewrite varint_small, !u8_lor_128, u8_small by lia. done.
  - rewrite varint_big by lia. fold a. rewrite varint_big by lia. fold b.
    rewrite varint_big by lia. fold c. rewrite varint_big by lia. fold d.
    rewrite varint_small, !u8_lor_128, u8_small by lia. done.
Qed.

Lemma VarintLength_spec v : is_u64 v -> VarintLength v = Z.of_nat (length (varint v)).
Proof.
  intros Hv. unfold VarintLength, varint.
  assert (E : forall n w k, 0 <= w < 2 ^ (7 * Z.of_nat n) -> (0 < n)%nat ->
    VarintLength_loop n w k = k - 1 + Z.of_nat (length (varint_fuel n w))).
  { clear. intros n. induction n as [|n IH]; intros w k Hw Hn; [lia|].
    cbn [VarintLength_loop varint_fuel].
    destruct (Z.leb_spec 128 w), (Z.ltb_spec w 128); try lia; [|simpl; lia].
    rewrite Z.shiftr_div_pow2 by lia. change (2 ^ 7) with 128.
    replace (7 * Z.of_nat (S n)) with (7 + 7 * Z.of_nat n) in Hw by lia.
    rewrite Z.pow_add_r in Hw by lia. change (2 ^ 7) with 128 in Hw.
    assert (n <> 0)%nat by (intros ->; simpl in Hw; lia).
    rewrite IH; [simpl length; lia| |lia].
    split; [apply Z.div_pos; lia|apply Z.div_lt_upper_bound; lia]. }
  rewrite E; [lia| |lia]. unfold is_u in Hv. lia.
Qed.

(** The decoding loops of both widths on a reference varint. *)
Lemma GetVarint_loop_varint w last v :
  0 <= v -> (forall k, 7 * k < w -> 7 * k <= last) -> forall k acc rest,
  let shift := 7 * k in
  v * 2 ^ shift < 2 ^ w -> 0 <= w <= 64 -> 0 <= shift -> 0 <= acc < 2 ^ shift ->
  shift < w ->
  GetVarint_loop w last shift acc (varint v ++ rest) = Some (acc + v * 2 ^ shift, rest).
Proof.
  revert v. refine (varint_ind _ _ _).
  - intros v Hv Hlast k acc rest shift H1 Hw H2 H3 H4.
    pose proof (Hlast k H4). rewrite varint_small by lia. cbn [app GetVarint_loop].
    rewrite (proj2 (Z.ltb_ge _ _)) by lia. rewrite byte_land_128 by (unfold is_u; lia).
    rewrite (proj2 (Z.ltb_lt _ _)) by lia. cbn [negb Z.eqb].
    rewrite Z.shiftl_mul_pow2, wrap_id, lor_le by (unfold is_u; lia). done.
  - intros v Hv IH Hlast k acc rest shift H1 Hw H2 H3 H4.
    pose proof (Hlast k H4).
    assert (0 < 2 ^ shift) by (apply Z.pow_pos_nonneg; lia).
    assert (2 ^ w <= 2 ^ 64) by (apply Z.pow_le_mono_r; lia).
    assert (Hv64 : 128 <= v < 2 ^ 64) by nia.
    rewrite varint_big by lia. set (c := v mod 128 + 128). cbn [app GetVarint_loop].
    assert (0 <= v mod 128 < 128) by (apply Z.mod_pos_bound; lia).
    pose proof (Z.div_mod v 128 ltac:(lia)) as Hdm.
    assert (Hcm : Z.land c 127 = v mod 128).
    { rewrite land_127. subst c. rewrite <- Z.add_mod_idemp_r, Z_mod_same_full, Z.add_0_r, Zmod_mod by lia. done. }
    rewrite (proj2 (Z.ltb_ge _ _)) by lia. rewrite byte_land_128 by (unfold is_u; subst c; lia).
    rewrite (proj2 (Z.ltb_ge c 128)) by (subst c; lia). cbn [negb Z.eqb]. rewrite Hcm.
    rewrite Z.shiftl_mul_pow2, wrap_id, lor_le by (unfold is_u; nia).
    assert (Hp : 2 ^ (shift + 7) = 2 ^ shift * 128) by (rewrite Z.pow_add_r by lia; done).
    assert (shift + 7 < w).
    { apply (Z.pow_lt_mono_r_iff 2); [lia|lia|]. rewrite Hp. nia. }
    replace (shift + 7) with (7 * (k + 1)) in * by (subst shift; lia).
    rewrite (IH Hlast (k + 1)); [f_equal; f_equal; rewrite Hp; nia|rewrite Hp; nia|lia|lia|rewrite Hp; nia|lia].
Qed.

Lemma GetVarint64_varint v rest : is_u64 v -> GetVarint64 (varint v ++ rest) = Some (v, rest).
Proof.
  intros Hv. unfold is_u in Hv. unfold GetVarint64, GetVarint64Ptr.
  rewrite (GetVarint_loop_varint 64 63 v ltac:(lia) ltac:(lia) 0) by lia. by rewrite Z.mul_1_r.
Qed.

Lemma GetVarint32_varint v rest : is_u 32 v -> GetVarint32 (varint v ++ rest) = Some (v, rest).
Proof.
  intros Hv. unfold is_u in Hv. unfold GetVarint32, GetVarint32Ptr.
  assert (E : GetVarint32PtrFallback (varint v ++ rest) = Some (v, rest)).
  { unfold GetVarint32PtrFallback. rewrite (GetVarint_loop_varint 32 28 v ltac:(lia) ltac:(lia) 0) by lia.
    by rewrite Z.mul_1_r. }
  destruct (Z.lt_ge_cases v 128) as [Hs|Hs].
  - rewrite varint_small by lia. cbn [app]. rewrite byte_land_128 by (unfold is_u; lia).
    by rewrite (proj2 (Z.ltb_lt _ _)) by lia.
  - rewrite varint_big in * by lia. cbn [app] in *.
    pose proof (Z.mod_pos_bound v 128 ltac:(lia)).
    rewrite byte_land_128 by (unfold is_u; lia). by rewrite (proj2 (Z.ltb_ge _ 128)) by lia.
Qed.

(** ** Properties *)

Section Claims.
Context `{PastEnd}.

Lemma EnCodeKey_bytes s m t :
  EnCodeKey [] s m t = be_bytes 8 s ++ le_bytes 2 m ++ be_bytes 8 t.
Proof.
  unfold EnCodeKey, PutFixed64BE, PutFixed16.
  by rewrite EncodeFixed16_le, !EncodeFixed64BE_be, <- !app_assoc.
Qed.

Lemma EnCodeKey_inj s m t s' m' t' :
  is_u64 s -> is_u 16 m -> is_u64 t -> is_u64 s' -> is_u 16 m' -> is_u64 t' ->
  EnCodeKey [] s m t = EnCodeKey [] s' m' t' -> s = s' /\ m = m' /\ t = t'.
Proof.
  rewrite !EnCodeKey_bytes. intros ?????? E.
  apply app_inj_1 in E as [E1 E]; [|by rewrite !length_be_bytes].
  apply app_inj_1 in E as [E2 E3]; [|by rewrite !length_le_bytes].
  split_and!; [by apply (be_bytes_inj 8)|by apply (le_bytes_inj 2)|by apply (be_bytes_inj 8)].
Qed.

Lemma EnCodeKey_time s m t t' :
  is_u64 t -> is_u64 t' -> bytes_ltb (EnCodeKey [] s m t) (EnCodeKey [] s m t') = (t <? t').
Proof. intros Ht Ht'. rewrite !EnCodeKey_bytes, !bytes_ltb_app. by apply (bytes_ltb_be 8). Qed.

(** A key between two of one series is of that series and of a time between
    theirs. *)
Lemma EnCodeKey_between s m lo hi s' m' t :
  is_u64 s -> is_u 16 m -> is_u64 lo -> is_u64 hi -> is_u64 s' -> is_u 16 m' -> is_u64 t ->
  bytes_ltb (EnCodeKey [] s' m' t) (EnCodeKey [] s m lo) = false ->
  bytes_ltb (EnCodeKey [] s' m' t) (EnCodeKey [] s m hi) = true ->
  s' = s /\ m' = m /\ lo <= t < hi.
Proof.
  intros Hs Hm Hlo Hhi Hs' Hm' Ht H1 H2.
  assert (E : be_bytes 8 s' ++ le_bytes 2 m' = be_bytes 8 s ++ le_bytes 2 m).
  { rewrite !EnCodeKey_bytes, !app_assoc in H1, H2. eapply bytes_ltb_prefix; [|exact H1|exact H2].
    by rewrite !length_app, !length_be_bytes, !length_le_bytes. }
  apply app_inj_1 in E as [E1 E2]; [|by rewrite !length_be_bytes].
  apply (be_bytes_inj 8) in E1; [|done..]. apply (le_bytes_inj 2) in E2; [|done..]. subst s' m'.
  rewrite EnCodeKey_time in H1, H2 by done. apply Z.ltb_ge in H1. apply Z.ltb_lt in H2. lia.
Qed.

(** An index key decodes to the source, metric and time it was made of,
    also when it stands at the front of a longer string. *)
Theorem index_key_round_trip s m t rest :
  is_u64 s -> is_u 16 m -> is_u64 t -> DeCodeKey (EnCodeKey [] s m t ++ rest) = (s, m, t).
Proof.
  intros Hs Hm Ht. unfold DeCodeKey. rewrite EnCodeKey_bytes, <- !app_assoc.
  rewrite DecodeFixed64BE_spec.
  rewrite (drop_app_length' _ _ 8) by (by rewrite length_be_bytes). rewrite DecodeFixed16_spec.
  replace 10%nat with (8 + 2)%nat by done. rewrite <- drop_drop.
  rewrite (drop_app_length' _ _ 8) by (by rewrite length_be_bytes).
  rewrite (drop_app_length' _ _ 2) by (by rewrite length_le_bytes). rewrite DecodeFixed64BE_spec.
  unfold u64, u16. by rewrite !wrap_id.
Qed.

(** Keys of one series are ordered as bytes exactly as their times are
    ordered as numbers, so a range scan over bytes is a range scan over time. *)
Theorem index_key_order s m t t' :
  is_u64 t -> is_u64 t' ->
  bytes_ltb (EnCodeKey [] s m t) (EnCodeKey [] s m t') = (t <? t').
Proof.
  apply EnCodeKey_time.
Qed.

(** A chunk key of the LSM store decodes to its series id and signed
    time. *)
Theorem chunk_key_round_trip tsid t :
  is_u64 tsid -> is_s64 t -> decodeKey (encodeKey [] tsid t) = (tsid, t).
Proof.
  intros Hs Ht. unfold decodeKey, encodeKey, PutFixed64BE. rewrite !EncodeFixed64BE_be. cbn [app].
  rewrite DecodeFixed64BE_spec, (drop_app_length' _ _ 8) by (by rewrite length_be_bytes).
  rewrite (EncodeFixed64BE_be (u64 t)), <- (app_nil_r (be_bytes 8 (u64 t))), DecodeFixed64BE_spec.
  unfold u64. rewrite wrap_wrap. change (wrap 64 t) with (u64 t). rewrite s64_u64.
  unfold s64. rewrite swrap_id by (done || lia). by rewrite wrap_id.
Qed.

End Claims.

(** The unrolled 32-bit encoder, the 64-bit loop and [VarintLength] agree:
    the same bytes, and their number. *)
Theorem varint_encoders_agree v :
  is_u 32 v ->
  EncodeVarint32 v = EncodeVarint64 v /\ VarintLength v = Z.of_nat (length (EncodeVarint64 v)).
Proof.
  intros Hv. assert (Hv64 : is_u64 v) by (unfold is_u in *; lia).
  by rewrite EncodeVarint32_varint, EncodeVarint64_varint, VarintLength_spec.
Qed.

(** A length-prefixed string is read back whole and the input left is
    what followed it. *)
Theorem length_prefixed_round_trip value rest :
  Z.of_nat (length value) < 2 ^ 32 ->
  GetLengthPrefixedSlice (PutLengthPrefixedSlice [] value ++ rest) = Some (value, rest).
Proof.
  intros Hl. unfold GetLengthPrefixedSlice, PutLengthPrefixedSlice, PutVarint32, u32. cbn [app].
  assert (Hu : is_u 32 (Z.of_nat (length value))) by (unfold is_u; lia). rewrite wrap_id by done.
  rewrite EncodeVarint32_varint, <- app_assoc, GetVarint32_varint by done.
  rewrite length_app, (proj2 (Z.leb_le _ _)) by lia. rewrite Nat2Z.id.
  by rewrite take_app_length, drop_app_length.
Qed.

Lemma index_key_round_trip_witness :
  let pe : PastEnd := fun _ => 9 in
  DeCodeKey (EnCodeKey [] 12345678901 513 (2 ^ 64 - 1) ++ [1; 2]) = (12345678901, 513, 2 ^ 64 - 1).
Proof.
  intros pe. apply (index_key_round_trip 12345678901 513 (2 ^ 64 - 1) [1; 2]);
    vm_compute; split; congruence.
Defined.

Lemma index_key_order_witness :
  bytes_ltb (EnCodeKey [] 7 300 255) (EnCodeKey [] 7 300 256) = true.
Proof. apply (index_key_order 7 300 255 256); vm_compute; split; congruence. Defined.

Lemma chunk_key_round_trip_witness :
  let pe : PastEnd := fun _ => 9 in decodeKey (encodeKey [] 42 (-5)) = (42, -5).
Proof. intros pe. apply (chunk_key_round_trip 42 (-5)); vm_compute; split; congruence. Defined.

Lemma varint_encoders_agree_witness :
  EncodeVarint32 2097152 = EncodeVarint64 2097152
  /\ VarintLength 2097152 = Z.of_nat (length (EncodeVarint64 2097152)).
Proof. apply (varint_encoders_agree 2097152). vm_compute; split; congruence. Defined.

Lemma length_prefixed_round_trip_witness :
  GetLengthPrefixedSlice (PutLengthPrefixedSlice [] (replicate 200 65) ++ [1; 2])
  = Some (replicate 200 65, [1; 2]).
Proof. apply (length_prefixed_round_trip (replicate 200 65) [1; 2]). vm_compute. reflexivity. Defined.
