(* ===== verification/BitStream.v ===== *)
(** chunk/BitStream.hpp and chunk/BitStream.cpp: the bit stream under every
    compressed chunk.

    A stream either owns its bytes ([vector_mode], field [stream]) or looks at
    foreign memory ([stream_ptr]); both are a [list Z] here, and a load outside
    the list goes through [PastEnd].  The reading methods run in [SE BitStream],
    because the cursor members keep their values when a method throws.

    Two abstractions carry the proofs: [wr_at b pre l] says a writer holds the
    whole bytes [pre] followed by the bits [l], and [consumes m l v] says a
    reading method applied to any reader in front of the bits [l] returns [v]
    and moves just past them. *)
From Stdlib Require Import ZArith Lia Bool.
From stdpp Require Import base list numbers option.
From S2P Require Import Prelude Endian.

Record BitStream := mkBitStream {
  stream : list Z;
  stream_ptr : list Z;
  head_count : Z;
  tail_count : Z;
  vector_mode : bool;
  index : Z;
  end_ : Z;
  header_size : Z }.

(** ** Constructors *)

Definition size_of (l : list Z) : Z := Z.of_nat (length l).

(** [BitStream(BitStream &, bool iterator_mode)]; it leaves [header_size]
    uninitialised, here an argument [junk]. *)
Definition bs_copy (junk : Z) (b : BitStream) (iterator_mode : bool) : BitStream :=
  if vector_mode b then
    if iterator_mode then
      mkBitStream (stream b) [] (if 0 <? size_of (stream b) then 8 else 0) 0 true 0 (end_ b) junk
    else
      mkBitStream (stream b) [] (head_count b) (tail_count b) true (index b) (end_ b) junk
  else
    mkBitStream [] (stream_ptr b) (if 0 <? end_ b - 0 then 8 else 0) 0 false 0 (end_ b) junk.

Definition bs_of_vector (s : list Z) : BitStream :=
  mkBitStream s [] (if 1 <=? size_of s then 8 else 0) 0 true 0 (size_of s) 0.

Definition bs_of_ptr (p : list Z) (size : Z) : BitStream :=
  mkBitStream [] p (if 1 <=? size then 8 else 0) 0 false 0 size 0.

Definition bs_empty : BitStream := mkBitStream [] [] 0 0 true 0 0 0.

Definition bs_sized (size header_size : Z) : BitStream :=
  mkBitStream (replicate (Z.to_nat (size + header_size)) 0) [] 0 0 true 0
    (size + header_size) header_size.

(** ** Writing *)

Definition set_write (b : BitStream) (s : list Z) (e t : Z) : BitStream :=
  mkBitStream s (stream_ptr b) (head_count b) t (vector_mode b) (index b) e (header_size b).

(** [stream.back() |= x] *)
Definition or_back (s : list Z) (x : Z) : list Z :=
  alter (fun y => Z.lor y x) (length s - 1)%nat s.

Definition write_bit (b : BitStream) (bit : bool) : BitStream :=
  let '(s, e) :=
    if tail_count b =? 0 then (stream b ++ [0], end_ b + 1) else (stream b, end_ b) in
  let t := tail_count b + 1 in
  let s := if bit then or_back s (u8 (Z.shiftl 1 (8 - t))) else s in
  set_write b s e (Z.land t 7).

Definition write_byte (b : BitStream) (byte : Z) : BitStream :=
  let t := tail_count b in
  let '(s, e) := if t =? 0 then (stream b ++ [0], end_ b + 1) else (stream b, end_ b) in
  let s := or_back s (Z.shiftr byte t) in
  if t =? 0 then set_write b s e t
  else set_write b (s ++ [Z.land (Z.shiftl byte (8 - t)) 255]) (e + 1) t.

Fixpoint write_bytes_be (b : BitStream) (bytes : Z) (num : nat) : BitStream :=
  match num with
  | O => b
  | S i => write_bytes_be (write_byte b (Z.land (Z.shiftr bytes (8 * Z.of_nat i)) 255)) bytes i
  end.

(** [while (num >= 8)] of [write_bits]: the stream, the shifted word and the
    bits left. *)
Fixpoint write_bits_bytes (fuel : nat) (b : BitStream) (bits num : Z) : BitStream * Z * Z :=
  match fuel with
  | O => (b, bits, num)
  | S fuel =>
    if 8 <=? num then
      write_bits_bytes fuel (write_byte b (u8 (Z.land 255 (Z.shiftr bits 56))))
        (u64 (Z.shiftl bits 8)) (num - 8)
    else (b, bits, num)
  end.

(** [while (num > 0)] of [write_bits] *)
Fixpoint write_bits_bits (fuel : nat) (b : BitStream) (bits num : Z) : BitStream :=
  match fuel with
  | O => b
  | S fuel =>
    if 0 <? num then
      write_bits_bits fuel (write_bit b (Z.shiftr bits 63 =? 1)) (u64 (Z.shiftl bits 1)) (num - 1)
    else b
  end.

Definition write_bits (b : BitStream) (bits num : Z) : BitStream :=
  let bits := u64 (Z.shiftl bits (64 - num)) in
  let '(b, bits, num) := write_bits_bytes (Z.to_nat num) b bits num in
  write_bits_bits (Z.to_nat num) b bits num.

(** [bytes()] and [bytes_ptr()]: the memory from the pointer on. *)
Definition bytes_ptr (b : BitStream) : list Z :=
  if vector_mode b then drop (Z.to_nat (header_size b)) (stream b) else stream_ptr b.

Definition bs_size (b : BitStream) : Z :=
  if vector_mode b then size_of (stream b) else end_ b.

Definition write_pos (b : BitStream) : Z :=
  if tail_count b =? 0 then Z.shiftl (bs_size b) 3
  else Z.shiftl (bs_size b - 1) 3 + tail_count b.

Definition pop_front (b : BitStream) : BitStream :=
  mkBitStream (stream b) (stream_ptr b) (head_count b) (tail_count b) (vector_mode b)
    (index b + 1) (end_ b) (header_size b).

Section Memory.
Context `{PastEnd}.

(** The trailing bits of [write_stream]: [j] is shifted left, its top bit
    written. *)
Fixpoint write_top_bits (num : nat) (b : BitStream) (j : Z) : BitStream :=
  match num with
  | O => b
  | S num => write_top_bits num (write_bit b (Z.shiftr j 7 =? 1)) (u8 (Z.shiftl j 1))
  end.

Fixpoint write_stream_loop (fuel : nat) (b : BitStream) (ptr : list Z) (i num : Z) : BitStream :=
  match fuel with
  | O => b
  | S fuel =>
    if 8 <=? num then write_stream_loop fuel (write_byte b (peek ptr i)) ptr (i + 1) (num - 8)
    else if 0 <? num then write_top_bits (Z.to_nat num) b (peek ptr i)
    else b
  end.

Definition write_stream (b s : BitStream) (num : Z) : BitStream :=
  write_stream_loop (S (Z.to_nat num)) b (bytes_ptr s) 0 num.

Fixpoint write_padding (fuel : nat) (b : BitStream) (num : Z) : BitStream :=
  match fuel with
  | O => b
  | S fuel =>
    if 8 <=? num then write_padding fuel (write_byte b 0) (num - 8)
    else if 0 <? num then write_padding fuel (write_bit b false) (num - 1)
    else b
  end.

(** ** Reading *)

(** The bytes behind [stream[i]] or [stream_ptr[i]]. *)
Definition mem (b : BitStream) : list Z :=
  if vector_mode b then stream b else stream_ptr b.

Definition set_cursor (b : BitStream) (i h : Z) : BitStream :=
  mkBitStream (stream b) (stream_ptr b) h (tail_count b) (vector_mode b) i (end_ b)
    (header_size b).

Definition reading := SE BitStream.

Definition read_bit : reading bool := fun b =>
  if end_ b <=? index b then (None, b) else
  let b := if head_count b =? 0 then set_cursor b (index b + 1) 0 else b in
  if (head_count b =? 0) && (end_ b <=? index b) then (None, b) else
  let h := if head_count b =? 0 then 8 else head_count b in
  (Some (Z.land (Z.shiftl (peek (mem b) (index b)) (8 - h)) 128 =? 128),
   set_cursor b (index b) (h - 1)).

(** [read_byte_helper] works on a cursor of its own; [read_byte] has the same
    body over the member cursor. *)
Definition read_byte_helper (b : BitStream) : SE (Z * Z) Z := fun '(i, h) =>
  if end_ b <=? i then (None, (i, h)) else
  let i' := if h =? 0 then i + 1 else i in
  if (h =? 0) && (end_ b <=? i') then (None, (i', h)) else
  let h := if h =? 0 then 8 else h in
  let temp := u8 (Z.shiftl (peek (mem b) i') (8 - h)) in
  let i' := i' + 1 in
  if negb (h =? 8) && (end_ b <=? i') then (None, (i', h)) else
  (Some (Z.lor temp (Z.shiftr (peek (mem b) i') h)), (i', h)).

Definition read_byte : reading Z := fun b =>
  if end_ b <=? index b then (None, b) else
  let i := if head_count b =? 0 then index b + 1 else index b in
  if (head_count b =? 0) && (end_ b <=? i) then (None, set_cursor b i 0) else
  let h := if head_count b =? 0 then 8 else head_count b in
  let temp := u8 (Z.shiftl (peek (mem b) i) (8 - h)) in
  let i := i + 1 in
  if negb (h =? 8) && (end_ b <=? i) then (None, set_cursor b i h) else
  (Some (Z.lor temp (Z.shiftr (peek (mem b) i) h)), set_cursor b i h).

(** [while (num >= 8)] of [read_bits]: the bits left and the value so far. *)
Fixpoint read_bits_bytes (fuel : nat) (num result : Z) : reading (Z * Z) :=
  match fuel with
  | O => mret (num, result)
  | S fuel =>
    if 8 <=? num then
      temp ← read_byte;
      read_bits_bytes fuel (num - 8) (Z.lor (u64 (Z.shiftl result 8)) temp)
    else mret (num, result)
  end.

Definition low_mask (n : Z) : Z := Z.shiftl 1 n - 1.

(** The rest of [read_bits]: fewer than eight bits, across at most one byte
    boundary. *)
Definition read_bits_rest (num result : Z) : reading Z := fun b =>
  let h := head_count b in
  let cross := h <? num in
  let result :=
    if cross then Z.lor (u64 (Z.shiftl result h)) (Z.land (peek (mem b) (index b)) (low_mask h))
    else result in
  let num := if cross then num - h else num in
  let b := if cross then set_cursor b (index b + 1) h else b in
  if cross && (end_ b <=? index b) then (None, b) else
  let h := if cross then 8 else h in
  (Some (Z.lor (u64 (Z.shiftl result num))
           (Z.land (Z.shiftr (peek (mem b) (index b)) (h - num)) (low_mask num))),
   set_cursor b (index b) (h - num)).

Definition read_bits (num : Z) : reading Z :=
  '(num, result) ← read_bits_bytes (Z.to_nat num) num 0;
  read_bits_rest num result.

(** The loop leaves after at most one round per byte of the stream, because
    [read_byte] throws at its end; [S (end - index)] rounds are enough. *)
Fixpoint read_unsigned_varint_loop (fuel : nat) (decoded_value shift_amount : Z) : reading Z :=
  match fuel with
  | O => throw
  | S fuel =>
    current ← read_byte;
    let decoded_value :=
      Z.lor decoded_value (u64 (Z.shiftl (Z.land current 127) shift_amount)) in
    if Z.land current 128 =? 0 then mret decoded_value
    else read_unsigned_varint_loop fuel decoded_value (shift_amount + 7)
  end.

Definition read_unsigned_varint : reading Z := fun b =>
  read_unsigned_varint_loop (S (Z.to_nat (end_ b - index b))) 0 0 b.

Definition read_signed_varint : reading Z :=
  unsigned_value ← read_unsigned_varint;
  mret (unzigzag unsigned_value).

(** ** Reading at a position: [pos] counts bits, nothing is mutated. *)

Definition read_bit_at (b : BitStream) (pos : Z) : option bool :=
  let index_ := Z.shiftr pos 3 in
  let head_count_ := Z.rem pos 8 in
  if end_ b <=? index_ then None
  else Some (Z.land (Z.shiftl (peek (mem b) index_) head_count_) 128 =? 128).

Definition read_byte_at (b : BitStream) (pos : Z) : option Z :=
  let index_ := Z.shiftr pos 3 in
  let head_count_ := Z.rem pos 8 in
  if end_ b <=? index_ then None else
  let temp := u8 (Z.shiftl (peek (mem b) index_) head_count_) in
  let index_ := index_ + 1 in
  if negb (head_count_ =? 0) && (end_ b <=? index_) then None
  else Some (Z.lor temp (Z.shiftr (peek (mem b) index_) (8 - head_count_))).

Definition bytes64pretable : list Z :=
  map (fun k => s64 (2 ^ 64 - 2 ^ (8 * k))) [1; 2; 3; 4; 5; 6; 7; 8].

Fixpoint read_bytes_be_loop (b : BitStream) (i : nat) (result : Z) : SE (Z * Z) Z :=
  match i with
  | O => mret result
  | S i =>
    temp ← read_byte_helper b;
    read_bytes_be_loop b i (s64 (Z.lor (s64 (Z.shiftl result 8)) temp))
  end.

Definition read_bytes_be_at (b : BitStream) (pos num : Z) : option Z :=
  match read_bytes_be_loop b (Z.to_nat num) 0 (Z.shiftr pos 3, 8 - Z.rem pos 8) with
  | (Some result, _) =>
    Some (if Z.shiftr result (Z.shiftl num 3 - 1) =? 1
          then Z.lor result (nth (Z.to_nat (num - 1)) bytes64pretable 0) else result)
  | (None, _) => None
  end.

Fixpoint read_bits_bytes_at (b : BitStream) (fuel : nat) (num result : Z) : SE (Z * Z) (Z * Z) :=
  match fuel with
  | O => mret (num, result)
  | S fuel =>
    if 8 <=? num then
      temp ← read_byte_helper b;
      read_bits_bytes_at b fuel (num - 8) (Z.lor (u64 (Z.shiftl result 8)) temp)
    else mret (num, result)
  end.

Definition read_bits_at (b : BitStream) (pos num : Z) : option Z :=
  match read_bits_bytes_at b (Z.to_nat num) num 0 (Z.shiftr pos 3, 8 - Z.rem pos 8) with
  | (None, _) => None
  | (Some (num, result), (i, h)) =>
    let cross := h <? num in
    let result :=
      if cross then Z.lor (u64 (Z.shiftl result h)) (Z.land (peek (mem b) i) (low_mask h))
      else result in
    let num := if cross then num - h else num in
    let i := if cross then i + 1 else i in
    if cross && (end_ b <=? i) then None else
    let h := if cross then 8 else h in
    Some (Z.lor (u64 (Z.shiftl result num))
            (Z.land (Z.shiftr (peek (mem b) i) (h - num)) (low_mask num)))
  end.

(** Value and number of decoded bits (a [uint8_t]). *)
Fixpoint read_unsigned_varint_at_loop (b : BitStream) (fuel : nat)
    (decoded_value shift_amount c : Z) : SE (Z * Z) (Z * Z) :=
  match fuel with
  | O => throw
  | S fuel =>
    current ← read_byte_helper b;
    let decoded_value :=
      Z.lor decoded_value (u64 (Z.shiftl (Z.land current 127) shift_amount)) in
    let c := u8 (c + 8) in
    if Z.land current 128 =? 0 then mret (decoded_value, c)
    else read_unsigned_varint_at_loop b fuel decoded_value (shift_amount + 7) c
  end.

Definition read_unsigned_varint_at (b : BitStream) (pos : Z) : option (Z * Z) :=
  (read_unsigned_varint_at_loop b (S (Z.to_nat (end_ b - Z.shiftr pos 3))) 0 0 0
     (Z.shiftr pos 3, 8 - Z.rem pos 8)).1.

Definition read_signed_varint_at (b : BitStream) (pos : Z) : option (Z * Z) :=
  match read_unsigned_varint_at b pos with
  | Some (v, c) => Some (unzigzag v, c)
  | None => None
  end.

End Memory.

(** ** What a writer holds *)

(** [pre] is whole bytes (headers that are patched in place), [l] the bits
    written after them; the last byte is filled up with zeros. *)
Definition wr_at (b : BitStream) (pre : list Z) (l : list bool) : Prop :=
  vector_mode b = true /\ 0 <= tail_count b < 8 /\ end_ b = size_of (stream b) /\
  exists s, stream b = pre ++ s /\ bytes_ok s /\
    bytes_bits s = l ++ replicate (Z.to_nat ((8 - tail_count b) mod 8)) false.

Lemma or_back_snoc s y x : or_back (s ++ [y]) x = s ++ [Z.lor y x].
Proof.
  unfold or_back. rewrite length_app. simpl.
  replace (length s + 1 - 1)%nat with (length s + 0)%nat by lia.
  by rewrite alter_app_r.
Qed.

(** The state of an unaligned writer, with its last byte in hand. *)
Lemma wr_at_unaligned b pre l :
  wr_at b pre l -> tail_count b <> 0 ->
  exists s y t, stream b = pre ++ s ++ [y] /\ bytes_ok s /\ is_byte y /\
    tail_count b = Z.of_nat t /\ (1 <= t <= 7)%nat /\
    bits_of (8 - t) y = replicate (8 - t) false /\
    l = bytes_bits s ++ bits_of t (Z.shiftr y (8 - Z.of_nat t)).
Proof.
  intros (Hv & Ht & He & s & Hs & Hok & Hb) Hne.
  exists (take (length s - 1) s). destruct s as [|x s] using rev_ind.
  { apply (f_equal length) in Hb. rewrite length_app, length_replicate in Hb.
    rewrite (Z.mod_small (8 - tail_count b)) in Hb by lia. simpl in Hb. lia. }
  clear IHs. exists x, (Z.to_nat (tail_count b)).
  rewrite length_app. simpl. replace (length s + 1 - 1)%nat with (length s) by lia.
  rewrite take_app_length. apply Forall_app in Hok as [Hok Hx].
  apply Forall_inv in Hx. set (t := Z.to_nat (tail_count b)).
  assert (Htt : (1 <= t <= 7)%nat) by lia.
  rewrite Z.mod_small in Hb by lia.
  replace (Z.to_nat (8 - tail_count b)) with (8 - t)%nat in Hb by lia.
  rewrite bytes_bits_app, bytes_bits_cons, app_nil_r in Hb.
  replace 8%nat with (t + (8 - t))%nat in Hb at 1 by lia.
  rewrite bits_of_app, app_assoc in Hb.
  apply app_inj_2 in Hb as [Hb1 Hb2]; [|by rewrite length_bits_of, length_replicate].
  split_and!; try done; try lia. rewrite <- Hb1. do 3 f_equal. lia.
Qed.

Lemma wr_at_aligned b pre l :
  wr_at b pre l -> tail_count b = 0 ->
  exists s, stream b = pre ++ s /\ bytes_ok s /\ bytes_bits s = l.
Proof.
  intros (Hv & Ht & He & s & Hs & Hok & Hb) Hne. exists s. split_and!; try done.
  rewrite Hb, Hne. simpl. by rewrite app_nil_r.
Qed.

Lemma wr_at_intro b pre s l pad :
  vector_mode b = true -> 0 <= tail_count b < 8 -> end_ b = size_of (stream b) ->
  stream b = pre ++ s -> bytes_ok s ->
  pad = Z.to_nat ((8 - tail_count b) mod 8) ->
  bytes_bits s = l ++ replicate pad false -> wr_at b pre l.
Proof. intros ?????? ?. split_and!; try done; try lia. exists s. by subst. Qed.

Lemma size_of_app l k : size_of (l ++ k) = size_of l + size_of k.
Proof. unfold size_of. rewrite length_app. lia. Qed.

Lemma write_bit_frame b x : header_size (write_bit b x) = header_size b.
Proof. unfold write_bit. by destruct (_ =? _). Qed.

Lemma write_byte_frame b x : header_size (write_byte b x) = header_size b.
Proof. unfold write_byte. by destruct (_ =? _). Qed.

(** Or-ing a pattern into the free low bits of a byte. *)
Lemma or_free_bits y m t :
  (t <= 8)%nat -> bits_of (8 - t) y = replicate (8 - t) false ->
  (forall i, Z.of_nat (8 - t) <= i < 8 -> Z.testbit m i = false) ->
  bits_of 8 (Z.lor y m) = bits_of t (Z.shiftr y (8 - Z.of_nat t)) ++ bits_of (8 - t) m.
Proof.
  intros Ht Hz Hm. replace 8%nat with (t + (8 - t))%nat at 1 by lia.
  apply bits_of_split; intros i Hi; rewrite Z.lor_spec.
  - rewrite Z.shiftr_spec by lia. rewrite (Hm (i + _)) by lia.
    rewrite orb_false_r. f_equal. lia.
  - by rewrite (bits_of_zeros (8 - t) y i) by (done || lia).
Qed.

Lemma pow2_bits k n :
  (k < n)%nat ->
  bits_of n (2 ^ Z.of_nat k) = replicate (n - 1 - k) false ++ true :: replicate k false.
Proof.
  intros Hk. replace n with ((n - 1 - k) + (1 + k))%nat at 1 by lia.
  rewrite (bits_of_split _ _ _ 0 (2 ^ Z.of_nat k)), bits_of_0; [f_equal| |done].
  - simpl. rewrite Z.pow2_bits_true by lia. f_equal. rewrite <- bits_of_0.
    apply bits_of_ext. intros i Hi. by rewrite Z.pow2_bits_false, Z.testbit_0_l by lia.
  - intros i Hi. by rewrite Z.pow2_bits_false, Z.testbit_0_l by lia.
Qed.

(** [write_bit] appends one bit. *)
Lemma write_bit_spec b pre l x :
  wr_at b pre l -> wr_at (write_bit b x) pre (l ++ [x]).
Proof.
  intros Hw. pose proof Hw as (Hv & Ht & He & _). unfold write_bit.
  destruct (Z.eqb_spec (tail_count b) 0) as [E|E].
  - destruct (wr_at_aligned _ _ _ Hw E) as (s & Hs & Hok & Hl). rewrite E. simpl (0 + 1).
    apply (wr_at_intro _ _ (s ++ [if x then 128 else 0]) _ 7); simpl.
    + done.
    + vm_compute; split; congruence.
    + destruct x; rewrite ?or_back_snoc, ?size_of_app; unfold size_of in *; simpl; lia.
    + rewrite Hs. destruct x; [rewrite or_back_snoc|]; by rewrite <- app_assoc.
    + apply Forall_app. split; [done|]. destruct x; repeat constructor; unfold is_u; lia.
    + done.
    + rewrite bytes_bits_app, Hl, <- app_assoc. f_equal. by destruct x.
  - destruct (wr_at_unaligned _ _ _ Hw E) as (s & y & t & Hs & Hok & Hy & Et & Htt & Hz & Hl).
    rewrite Et. set (m := if x then 2 ^ Z.of_nat (7 - t) else 0).
    assert (Hs' : (if x then or_back (stream b) (u8 (Z.shiftl 1 (8 - (Z.of_nat t + 1))))
                   else stream b) = pre ++ s ++ [Z.lor y m]).
    { rewrite Hs. destruct x; subst m; [|by rewrite Z.lor_0_r].
      rewrite app_assoc, or_back_snoc, <- app_assoc. do 4 f_equal.
      clear - Htt. do 8 (destruct t as [|t]; [reflexivity || lia|]). lia. }
    assert (Hm : is_byte m /\ bits_of (8 - t) m = x :: replicate (7 - t) false
                 /\ (forall i, Z.of_nat (8 - t) <= i < 8 -> Z.testbit m i = false)).
    { subst m. destruct x; split_and!.
      - unfold is_u. split; [lia|]. apply Z.pow_lt_mono_r; lia.
      - rewrite pow2_bits by lia. by replace (8 - t - 1 - (7 - t))%nat with 0%nat by lia.
      - intros i Hi. apply Z.pow2_bits_false. lia.
      - unfold is_u; lia.
      - rewrite bits_of_0. by replace (8 - t)%nat with (S (7 - t)) by lia.
      - intros. apply Z.testbit_0_l. }
    destruct Hm as (Hm & Hmb & Hmt).
    apply (wr_at_intro _ _ (s ++ [Z.lor y m]) _ (7 - t)); simpl; rewrite ?Hs'; try done.
    + clear - Htt. do 8 (destruct t as [|t]; [lia || (vm_compute; split; congruence)|]). lia.
    + rewrite He, Hs, !size_of_app. done.
    + apply Forall_app. split; [done|]. repeat constructor; by apply lor_byte.
    + clear - Htt. do 8 (destruct t as [|t]; [reflexivity || lia|]). lia.
    + rewrite bytes_bits_app, Hl, bytes_bits_cons, app_nil_r, <- !app_assoc. f_equal.
      by rewrite (or_free_bits y m t), Hmb by (done || lia).
Qed.

(** [write_byte] appends eight bits. *)
Lemma write_byte_spec b pre l v :
  is_byte v -> wr_at b pre l -> wr_at (write_byte b v) pre (l ++ bits_of 8 v).
Proof.
  intros Hv8 Hw. pose proof Hw as (Hv & Ht & He & _). unfold write_byte.
  destruct (Z.eqb_spec (tail_count b) 0) as [E|E].
  - destruct (wr_at_aligned _ _ _ Hw E) as (s & Hs & Hok & Hl). rewrite E, or_back_snoc.
    rewrite Z.shiftr_0_r, Z.lor_0_l.
    apply (wr_at_intro _ _ (s ++ [v]) _ 0); simpl; try done; try lia.
    + rewrite He, size_of_app. done.
    + by rewrite Hs, <- app_assoc.
    + apply Forall_app. split; [done|]. by constructor.
    + by rewrite bytes_bits_app, Hl, bytes_bits_cons, !app_nil_r.
  - destruct (wr_at_unaligned _ _ _ Hw E) as (s & y & t & Hs & Hok & Hy & Et & Htt & Hz & Hl).
    rewrite Et, Hs, app_assoc, or_back_snoc, land_ff.
    set (w := Z.shiftr v (Z.of_nat t)). set (z := u8 (Z.shiftl v (8 - Z.of_nat t))).
    assert (Hz8 : bits_of 8 z = bits_of t v ++ replicate (8 - t) false).
    { replace 8%nat with (t + (8 - t))%nat at 1 by lia. rewrite <- bits_of_0.
      apply bits_of_split; intros i Hi; subst z;
        rewrite testbit_u8, Z.shiftl_spec by lia; destruct (Z.ltb_spec i 8); try lia; simpl.
      - destruct (Z.ltb_spec (i + Z.of_nat (8 - t)) 8); [|lia]. simpl. f_equal. lia.
      - by rewrite Z.testbit_neg_r, Z.testbit_0_l by lia. }
    apply (wr_at_intro _ _ (s ++ [Z.lor y w; z]) _ (8 - t));
      cbn [set_write stream end_ tail_count vector_mode]; rewrite ?Et; try done; try lia.
    + rewrite He, Hs, !size_of_app. unfold size_of; simpl. lia.
    + by rewrite <- !app_assoc.
    + apply Forall_app. split; [done|]. constructor; [|constructor; [|done]].
      * apply lor_byte; [done|]. by apply shiftr_byte; [lia|].
      * by apply wrap_range.
    + rewrite Z.mod_small by lia. lia.
    + rewrite bytes_bits_app, !bytes_bits_cons, Hl, Hz8, <- !app_assoc, app_nil_r. f_equal.
      rewrite (or_free_bits y w t), <- app_assoc; [|lia|done|].
      * f_equal. rewrite app_assoc. f_equal.
        subst w. rewrite <- bits_of_app. f_equal. lia.
      * intros i Hi. subst w. rewrite Z.shiftr_spec by lia. apply byte_high_bits; [done|lia].
Qed.

Lemma write_bits_bytes_spec fuel : forall b pre l bits num,
  wr_at b pre l -> is_u64 bits -> 0 <= num <= 64 -> num < 8 * Z.of_nat (S fuel) ->
  exists b' bits' num' k,
    write_bits_bytes fuel b bits num = (b', bits', num') /\
    is_u64 bits' /\ 0 <= num' < 8 /\ num = num' + Z.of_nat k /\
    header_size b' = header_size b /\
    wr_at b' pre (l ++ bits_of k (Z.shiftr bits (64 - Z.of_nat k))) /\
    bits' = u64 (Z.shiftl bits (Z.of_nat k)).
Proof.
  induction fuel as [|fuel IH]; intros b pre l bits num Hw Hb Hn Hf;
    cbn [write_bits_bytes].
  1: exists b, bits, num, 0%nat; rewrite Z.shiftl_0_r, app_nil_r;
     split_and!; try done; try lia; by rewrite (wrap_id 64).
  destruct (Z.leb_spec 8 num) as [H8|H8].
  2: exists b, bits, num, 0%nat; rewrite Z.shiftl_0_r, app_nil_r;
     split_and!; try done; try lia; by rewrite (wrap_id 64).
  rewrite Z.land_comm, land_ff. unfold u8 at 1. rewrite wrap_wrap.
  set (y := wrap 8 (Z.shiftr bits 56)).
  assert (Hy : is_byte y) by by apply wrap_range.
  destruct (IH (write_byte b y) pre (l ++ bits_of 8 y) (u64 (Z.shiftl bits 8)) (num - 8))
    as (b' & bits' & num' & k & E & Hb' & Hn' & Hk & Hh & Hw' & Hbits');
    [by apply write_byte_spec|by apply wrap_range|lia|lia|].
  exists b', bits', num', (8 + k)%nat. split_and!; try done; try lia.
  - by rewrite Hh, write_byte_frame.
  - rewrite <- app_assoc in Hw'. refine (eq_ind _ (wr_at b' pre) Hw' _ _). f_equal.
    symmetry. apply bits_of_split; intros i Hi; rewrite !Z.shiftr_spec by lia.
    + subst y. unfold wrap. rewrite Z.mod_pow2_bits_low, Z.shiftr_spec by lia. f_equal. lia.
    + unfold u64, wrap. rewrite Z.mod_pow2_bits_low, Z.shiftl_spec by lia. f_equal. lia.
  - rewrite Hbits'. rewrite !Z.shiftl_mul_pow2 by lia. unfold u64, wrap.
    rewrite Zmult_mod_idemp_l, <- Z.mul_assoc, <- Z.pow_add_r by lia. do 3 f_equal. lia.
Qed.

Lemma write_bits_bits_spec fuel : forall b pre l bits,
  wr_at b pre l -> is_u64 bits -> (fuel <= 64)%nat ->
  wr_at (write_bits_bits fuel b bits (Z.of_nat fuel)) pre
    (l ++ bits_of fuel (Z.shiftr bits (64 - Z.of_nat fuel)))
  /\ header_size (write_bits_bits fuel b bits (Z.of_nat fuel)) = header_size b.
Proof.
  induction fuel as [|fuel IH]; intros b pre l bits Hw Hb Hf; cbn [write_bits_bits].
  { by rewrite app_nil_r. }
  destruct (Z.ltb_spec 0 (Z.of_nat (S fuel))); [|lia].
  replace (Z.of_nat (S fuel) - 1) with (Z.of_nat fuel) by lia.
  assert (Htop : (Z.shiftr bits 63 =? 1) = Z.testbit bits 63).
  { rewrite Z.shiftr_div_pow2 by lia. apply eq_true_iff_eq.
    rewrite Z.eqb_eq, Z.testbit_true by lia. unfold is_u in Hb.
    assert (0 <= bits / 2 ^ 63 < 2)
      by (split; [apply Z.div_pos; lia|apply Z.div_lt_upper_bound; lia]).
    rewrite Z.mod_small by lia. done. }
  rewrite Htop. destruct (IH (write_bit b (Z.testbit bits 63)) pre
    (l ++ [Z.testbit bits 63]) (u64 (Z.shiftl bits 1))) as [IH1 IH2];
    [by apply write_bit_spec|by apply wrap_range|lia|].
  rewrite IH2, write_bit_frame. split; [|done].
  refine (eq_ind _ (wr_at _ pre) IH1 _ _). rewrite <- app_assoc. f_equal. cbn [bits_of app]. f_equal.
  - rewrite Z.shiftr_spec by lia. f_equal. lia.
  - apply bits_of_ext. intros i Hi. rewrite !Z.shiftr_spec by lia. unfold u64, wrap.
    rewrite Z.mod_pow2_bits_low, Z.shiftl_spec by lia. f_equal. lia.
Qed.

(** [write_bits] appends the low [num] bits of its word. *)
Lemma write_bits_spec b pre l v num :
  wr_at b pre l -> 0 <= num <= 64 ->
  wr_at (write_bits b v num) pre (l ++ bits_of (Z.to_nat num) v)
  /\ header_size (write_bits b v num) = header_size b.
Proof.
  intros Hw Hn. unfold write_bits. set (bits := u64 (Z.shiftl v (64 - num))).
  destruct (write_bits_bytes_spec (Z.to_nat num) b pre l bits num)
    as (b' & bits' & num' & k & -> & Hb' & Hn' & Hk & Hh & Hw' & Hbits');
    [done|by apply wrap_range|lia|lia|].
  destruct (write_bits_bits_spec (Z.to_nat num') b' pre
    (l ++ bits_of k (Z.shiftr bits (64 - Z.of_nat k))) bits') as [H1 H2]; [done|done|lia|].
  rewrite !Z2Nat.id in H1, H2 by lia. split; [|by rewrite H2, Hh].
  refine (eq_ind _ (wr_at _ pre) H1 _ _). rewrite <- app_assoc. f_equal.
  replace (Z.to_nat num) with (k + Z.to_nat num')%nat by lia. symmetry.
  apply bits_of_split; intros i Hi; rewrite Z.shiftr_spec by lia; subst bits bits'.
  - unfold u64, wrap. rewrite Z.mod_pow2_bits_low, Z.shiftl_spec by lia. f_equal. lia.
  - unfold u64, wrap. rewrite Z.mod_pow2_bits_low, Z.shiftl_spec by lia.
    rewrite Z.mod_pow2_bits_low, Z.shiftl_spec by lia. f_equal. lia.
Qed.

Lemma write_bytes_be_spec n : forall b pre l v,
  wr_at b pre l -> wr_at (write_bytes_be b v n) pre (l ++ bits_of (8 * n) v).
Proof.
  induction n as [|n IH]; intros b pre l v Hw; cbn [write_bytes_be].
  - by rewrite app_nil_r.
  - replace (8 * S n)%nat with (8 + 8 * n)%nat by lia.
    rewrite bits_of_app, app_assoc, <- (bits_of_wrap 8 8) by done. rewrite land_ff.
    replace (Z.of_nat (8 * n)) with (8 * Z.of_nat n) by lia.
    apply IH, write_byte_spec; [by apply wrap_range|done].
Qed.

(** Bytes written one after the other, as [append] writes a varint. *)
Lemma write_all_spec vs : forall b pre l,
  bytes_ok vs -> wr_at b pre l -> wr_at (foldl write_byte b vs) pre (l ++ bytes_bits vs).
Proof.
  induction vs as [|v vs IH]; intros b pre l Hvs Hw; simpl.
  - by rewrite app_nil_r.
  - rewrite bytes_bits_cons, app_assoc. inversion Hvs; subst.
    apply IH; [done|]. by apply write_byte_spec.
Qed.

Lemma write_all_frame vs : forall b, header_size (foldl write_byte b vs) = header_size b.
Proof. induction vs as [|v vs IH]; intros b; simpl; [done|]. by rewrite IH, write_byte_frame. Qed.

Lemma write_padding_spec fuel : forall b pre l num,
  wr_at b pre l -> 0 <= num < Z.of_nat fuel ->
  wr_at (write_padding fuel b num) pre (l ++ replicate (Z.to_nat num) false).
Proof.
  induction fuel as [|fuel IH]; intros b pre l num Hw Hn; [lia|]. cbn [write_padding].
  destruct (Z.leb_spec 8 num); [|destruct (Z.ltb_spec 0 num)].
  - replace (Z.to_nat num) with (8 + Z.to_nat (num - 8))%nat by lia.
    rewrite replicate_add, app_assoc, <- (bits_of_0 8).
    apply IH; [|lia]. apply write_byte_spec; [unfold is_u; lia|done].
  - replace (Z.to_nat num) with (1 + Z.to_nat (num - 1))%nat by lia.
    rewrite replicate_add, app_assoc. apply IH; [|lia]. by apply write_bit_spec.
  - replace num with 0 by lia. by rewrite app_nil_r.
Qed.

Lemma write_top_bits_spec n : forall b pre l j,
  (n <= 8)%nat -> is_byte j -> wr_at b pre l ->
  wr_at (write_top_bits n b j) pre (l ++ take n (bits_of 8 j)).
Proof.
  induction n as [|n IH]; intros b pre l j Hn Hj Hw; cbn [write_top_bits].
  - by rewrite app_nil_r.
  - assert (E : bits_of 8 (u8 (Z.shiftl j 1)) = bits_of 7 j ++ [false]).
    { rewrite bits_of_snoc. f_equal; [|by rewrite testbit_u8, Z.shiftl_spec].
      apply bits_of_ext. intros i Hi. rewrite Z.shiftr_spec, testbit_u8 by lia.
      rewrite Z.shiftl_spec, (proj2 (Z.ltb_lt _ _)) by lia. simpl. f_equal. lia. }
    assert (Ht : (Z.shiftr j 7 =? 1) = Z.testbit j 7) by
      (apply eqb_true_iff; clear IH Hw E; revert j Hj; apply byte_forall; vm_compute; reflexivity).
    rewrite Ht. replace (take (S n) (bits_of 8 j))
      with ([Z.testbit j 7] ++ take n (bits_of 8 (u8 (Z.shiftl j 1)))).
    + rewrite app_assoc. apply IH; [lia|by apply wrap_range|by apply write_bit_spec].
    + rewrite E, take_app_le by (rewrite length_bits_of; lia). done.
Qed.

Section Writers.
Context `{PastEnd}.

(** [write_stream] copies the first [num] bits of another stream. *)
Lemma write_stream_loop_spec fuel : forall b pre l ptr i num,
  wr_at b pre l -> bytes_ok ptr -> 0 <= i -> 0 <= num < Z.of_nat fuel ->
  8 * i + num <= 8 * size_of ptr ->
  wr_at (write_stream_loop fuel b ptr i num) pre
    (l ++ take (Z.to_nat num) (drop (8 * Z.to_nat i) (bytes_bits ptr))).
Proof.
  induction fuel as [|fuel IH]; intros b pre l ptr i num Hw Hok Hi Hn Hl; [lia|].
  cbn [write_stream_loop]. unfold size_of in Hl.
  destruct (Z.leb_spec 8 num); [|destruct (Z.ltb_spec 0 num)].
  3: by replace num with 0 by lia; rewrite app_nil_r.
  all: destruct (lookup_lt_is_Some_2 ptr (Z.to_nat i)) as [x Hx]; [lia|];
    rewrite (peek_lookup _ _ _ Hi Hx); rewrite (bytes_bits_drop_S _ _ _ Hx);
    assert (Hx8 : is_byte x) by (by eapply Forall_lookup_1).
  - replace (Z.to_nat num) with (8 + Z.to_nat (num - 8))%nat by lia.
    rewrite (take_app_add' _ _ 8) by (by rewrite length_bits_of).
    rewrite app_assoc, <- drop_bytes_bits. replace (S (Z.to_nat i)) with (Z.to_nat (i + 1)) by lia.
    apply IH; try lia; [|done|unfold size_of; lia]. by apply write_byte_spec.
  - rewrite take_app_le by (rewrite length_bits_of; lia).
    apply write_top_bits_spec; [lia|done|done].
Qed.

End Writers.

(** ** What a reader has in front of it *)

Definition rd_ok (b : BitStream) : Prop :=
  0 <= head_count b <= 8 /\ 0 <= index b /\ bytes_ok (mem b).

Definition rd_pos (b : BitStream) : nat := Z.to_nat (8 * index b + 8 - head_count b).

Definition rd_rest (b : BitStream) : list bool :=
  drop (rd_pos b) (bytes_bits (take (Z.to_nat (end_ b)) (mem b))).

(** Reading moves the cursor only. *)
Definition same_source (b b' : BitStream) : Prop :=
  b' = set_cursor b (index b') (head_count b').

Definition consumes {A} (m : reading A) (l : list bool) (v : A) : Prop :=
  forall b rest, rd_ok b -> rd_rest b = l ++ rest ->
  exists b', m b = (Some v, b') /\ rd_ok b' /\ rd_rest b' = rest /\ same_source b b'.

Lemma same_source_refl b : same_source b b.
Proof. by destruct b. Qed.

Lemma same_source_cursor b i h : same_source b (set_cursor b i h).
Proof. done. Qed.

Lemma same_source_trans a b c : same_source a b -> same_source b c -> same_source a c.
Proof. unfold same_source. intros H1 ->. by rewrite H1. Qed.

Lemma same_source_mem b b' : same_source b b' -> mem b' = mem b /\ end_ b' = end_ b.
Proof. intros ->. done. Qed.

Lemma consumes_ret {A} (v : A) : consumes (mret v) [] v.
Proof. intros b rest Hb Hr. exists b. by eauto using same_source_refl. Qed.

Lemma consumes_bind {A B} (m : reading A) (k : A -> reading B) l l' v w :
  consumes m l v -> consumes (k v) l' w -> consumes (m ≫= k) (l ++ l') w.
Proof.
  intros Hm Hk b rest Hb Hr. rewrite <- app_assoc in Hr.
  destruct (Hm b _ Hb Hr) as (b1 & E1 & Hb1 & Hr1 & Hs1).
  destruct (Hk b1 _ Hb1 Hr1) as (b2 & E2 & Hb2 & Hr2 & Hs2).
  exists b2. unfold mbind, SE_bind. rewrite E1. eauto using same_source_trans.
Qed.

Lemma consumes_bind_nil {A B} (m : reading A) (k : A -> reading B) l v w :
  consumes m l v -> consumes (k v) [] w -> consumes (m ≫= k) l w.
Proof. intros. rewrite <- (app_nil_r l). eauto using consumes_bind. Qed.

Definition rd_tail (b : BitStream) (i : nat) : list bool :=
  bytes_bits (drop i (take (Z.to_nat (end_ b)) (mem b))).

Lemma rd_rest_in b i h y :
  0 <= h <= 8 -> 0 <= i < end_ b -> mem b !! Z.to_nat i = Some y ->
  rd_rest (set_cursor b i h) = bits_of (Z.to_nat h) y ++ rd_tail b (S (Z.to_nat i)).
Proof.
  intros Hh Hi Hy. unfold rd_rest, rd_pos, rd_tail. change (mem (set_cursor b i h)) with (mem b).
  simpl. replace (Z.to_nat (8 * i + 8 - h)) with (8 * Z.to_nat i + (8 - Z.to_nat h))%nat by lia.
  rewrite <- drop_drop, (bytes_bits_drop_S _ _ y); [|by rewrite lookup_take_lt by lia].
  rewrite drop_app_le by (rewrite length_bits_of; lia). f_equal.
  replace 8%nat with ((8 - Z.to_nat h) + Z.to_nat h)%nat at 2 by lia.
  rewrite bits_of_app, drop_app_length'; [done|]. by rewrite length_bits_of.
Qed.

Lemma rd_tail_cons b i x l :
  rd_tail b i = x :: l ->
  exists y, mem b !! i = Some y /\ Z.of_nat i < end_ b /\ rd_tail b i = bits_of 8 y ++ rd_tail b (S i).
Proof.
  unfold rd_tail. set (s := take (Z.to_nat (end_ b)) (mem b)). intros Hr.
  destruct (s !! i) as [y|] eqn:Hy.
  - exists y. rewrite (drop_S _ _ _ Hy), bytes_bits_cons.
    subst s. apply lookup_take_Some in Hy as [Hy Hlt]. split_and!; [done|lia|done].
  - apply lookup_ge_None in Hy. by rewrite drop_ge in Hr.
Qed.

Lemma set_cursor_id b : set_cursor b (index b) (head_count b) = b.
Proof. by destruct b. Qed.

(** A reader with something left stands in a byte of its buffer. *)
Lemma rd_rest_byte b x l :
  rd_ok b -> rd_rest b = x :: l -> head_count b <> 0 ->
  exists y, mem b !! Z.to_nat (index b) = Some y /\ is_byte y /\ index b < end_ b /\
    rd_rest b = bits_of (Z.to_nat (head_count b)) y ++ rd_tail b (S (Z.to_nat (index b))).
Proof.
  intros (Hh & Hi & Hok) Hr Hne.
  destruct (mem b !! Z.to_nat (index b)) as [y|] eqn:Hy.
  - destruct (Z.lt_ge_cases (index b) (end_ b)) as [Hlt|Hge].
    + exists y. split_and!; [done|by eapply Forall_lookup_1|done|].
      rewrite <- (set_cursor_id b) at 1. by apply rd_rest_in.
    + exfalso. unfold rd_rest, rd_pos in Hr. rewrite drop_ge in Hr; [done|].
      rewrite length_bytes_bits, length_take. lia.
  - exfalso. apply lookup_ge_None in Hy. unfold rd_rest, rd_pos in Hr.
    rewrite drop_ge in Hr; [done|]. rewrite length_bytes_bits, length_take. lia.
Qed.

(** With no bits left in its byte a reader is where the next byte starts. *)
Lemma rd_rest_next b :
  rd_ok b -> head_count b = 0 ->
  rd_ok (set_cursor b (index b + 1) 8) /\ rd_rest (set_cursor b (index b + 1) 8) = rd_rest b.
Proof.
  intros (Hh & Hi & Hok) E. split.
  - unfold rd_ok. change (mem (set_cursor _ _ _)) with (mem b). simpl. split_and!; (lia || done).
  - unfold rd_rest, rd_pos. change (mem (set_cursor _ _ _)) with (mem b). simpl.
    rewrite E. do 2 f_equal. lia.
Qed.

Lemma rd_ok_cursor b i h : rd_ok b -> 0 <= h <= 8 -> 0 <= i -> rd_ok (set_cursor b i h).
Proof. intros (? & ? & ?) [??] ?. unfold rd_ok. by split_and!. Qed.

Section Readers.
Context `{PastEnd}.

(** A reading method that skips to the next byte when its own is used up. *)
Definition skips {A} (m : reading A) : Prop :=
  forall b, head_count b = 0 -> index b + 1 < end_ b -> m b = m (set_cursor b (index b + 1) 8).

Lemma consumes_skips {A} (m : reading A) x l v :
  skips m ->
  (forall b rest, rd_ok b -> head_count b <> 0 -> rd_rest b = x :: l ++ rest ->
    exists b', m b = (Some v, b') /\ rd_ok b' /\ rd_rest b' = rest /\ same_source b b') ->
  consumes m (x :: l) v.
Proof.
  intros Hs Hm b rest Hb Hr. destruct (Z.eq_dec (head_count b) 0) as [E|E]; [|by eauto].
  destruct (rd_rest_next b Hb E) as [Hb' Hr']. rewrite Hr in Hr'.
  assert (Hlt : index b + 1 < end_ b).
  { by destruct (rd_rest_byte _ _ _ Hb' Hr' ltac:(discriminate)) as (y & _ & _ & Hlt & _). }
  rewrite (Hs b E Hlt). destruct (Hm _ rest Hb') as (b' & E1 & E2 & E3 & E4); [discriminate|done|].
  exists b'. by split_and!.
Qed.

Lemma read_bit_skips : skips read_bit.
Proof.
  intros b E Hlt. unfold read_bit. rewrite E. simpl.
  destruct (Z.leb_spec (end_ b) (index b)); [lia|].
  destruct (Z.leb_spec (end_ b) (index b + 1)); [lia|]. done.
Qed.

Lemma read_byte_skips : skips read_byte.
Proof.
  intros b E Hlt. unfold read_byte. rewrite E. simpl.
  destruct (Z.leb_spec (end_ b) (index b)); [lia|].
  destruct (Z.leb_spec (end_ b) (index b + 1)); [lia|]. done.
Qed.

Lemma top_bit y h :
  is_byte y -> 1 <= h <= 8 ->
  (Z.land (Z.shiftl y (8 - h)) 128 =? 128) = Z.testbit y (h - 1).
Proof.
  intros Hy Hh. apply eqb_true_iff.
  assert (Hc : h = 1 \/ h = 2 \/ h = 3 \/ h = 4 \/ h = 5 \/ h = 6 \/ h = 7 \/ h = 8) by lia.
  clear Hh. revert y Hy. apply byte_forall.
  repeat (destruct Hc as [Hc|Hc]); subst h; vm_compute; reflexivity.
Qed.

(** [read_bit] reads one bit. *)
Lemma read_bit_spec x : consumes read_bit [x] x.
Proof.
  apply consumes_skips; [apply read_bit_skips|]. intros b rest Hb E Hr.
  destruct (rd_rest_byte _ _ _ Hb Hr E) as (y & Hy & Hy8 & Hlt & Hr').
  pose proof Hb as Hb0. destruct Hb as (Hh & Hi & Hok).
  rewrite Hr in Hr'. replace (Z.to_nat (head_count b)) with (S (Z.to_nat (head_count b - 1)))
    in Hr' by lia. cbn [bits_of app] in Hr'. injection Hr' as Hx Hrest.
  rewrite Z2Nat.id in Hx by lia.
  exists (set_cursor b (index b) (head_count b - 1)). unfold read_bit.
  destruct (Z.leb_spec (end_ b) (index b)); [lia|].
  cbv zeta. rewrite !(proj2 (Z.eqb_neq _ _) E), (peek_lookup _ _ _ Hi Hy).
  cbv iota delta [andb].
  rewrite top_bit, <- Hx by (done || lia). split_and!; [done|..|done].
  - apply rd_ok_cursor; [done|lia|lia].
  - rewrite (rd_rest_in b _ _ y) by (done || lia). done.
Qed.

(** Eight bits taken across a byte boundary. *)
Lemma joined_byte y y2 h :
  is_byte y2 -> 1 <= h <= 8 ->
  bits_of 8 (Z.lor (u8 (Z.shiftl y (8 - h))) (Z.shiftr y2 h))
  = bits_of (Z.to_nat h) y ++ bits_of (8 - Z.to_nat h) (Z.shiftr y2 h).
Proof.
  intros Hy2 Hh. replace 8%nat with (Z.to_nat h + (8 - Z.to_nat h))%nat at 1 by lia.
  apply bits_of_split; intros i Hi;
    rewrite Z.lor_spec, testbit_u8, Z.shiftl_spec, !Z.shiftr_spec by lia;
    rewrite (proj2 (Z.ltb_lt _ 8)) by lia; simpl.
  - rewrite (byte_high_bits y2) by (done || lia). rewrite orb_false_r. f_equal. lia.
  - rewrite Z.testbit_neg_r by lia. done.
Qed.

Lemma joined_byte_ok y y2 h :
  is_byte y2 -> 1 <= h <= 8 -> is_byte (Z.lor (u8 (Z.shiftl y (8 - h))) (Z.shiftr y2 h)).
Proof. intros. apply lor_byte; [by apply wrap_range|apply shiftr_byte; (done || lia)]. Qed.

(** [read_byte] reads eight bits. *)
Lemma read_byte_spec v : is_byte v -> consumes read_byte (bits_of 8 v) v.
Proof.
  intros Hv. change (bits_of 8 v) with (Z.testbit v 7 :: bits_of 7 v).
  apply consumes_skips; [apply read_byte_skips|]. intros b rest Hb E Hr.
  destruct (rd_rest_byte _ _ _ Hb Hr E) as (y & Hy & Hy8 & Hlt & Hr').
  pose proof Hb as (Hh & Hi & Hok). rewrite Hr in Hr'. clear Hr.
  change (Z.testbit v 7 :: bits_of 7 v ++ rest) with (bits_of 8 v ++ rest) in Hr'.
  exists (set_cursor b (index b + 1) (head_count b)). unfold read_byte.
  destruct (Z.leb_spec (end_ b) (index b)); [lia|].
  cbv zeta. rewrite !(proj2 (Z.eqb_neq _ _) E), (peek_lookup _ _ _ Hi Hy). cbv iota delta [andb].
  set (y2 := peek (mem b) (index b + 1)).
  assert (Hy2 : is_byte y2) by by apply peek_byte.
  assert (Hmain : bits_of 8 v
      = bits_of 8 (Z.lor (u8 (Z.shiftl y (8 - head_count b))) (Z.shiftr y2 (head_count b)))
    /\ rd_rest (set_cursor b (index b + 1) (head_count b)) = rest
    /\ (head_count b <> 8 -> index b + 1 < end_ b)).
  { rewrite joined_byte by (done || lia).
    destruct (Z.eq_dec (head_count b) 8) as [E8|E8].
    - rewrite E8 in *. change (Z.to_nat 8) with 8%nat in *.
      apply app_inj_1 in Hr' as [Hr1 Hr2]; [|by rewrite !length_bits_of].
      split_and!; [|rewrite Hr2|lia].
      + rewrite Hr1. cbn [bits_of]. by rewrite app_nil_r.
      + unfold rd_rest, rd_pos, rd_tail. simpl. rewrite <- drop_bytes_bits. f_equal. lia.
    - destruct (rd_tail b (S (Z.to_nat (index b)))) as [|x t] eqn:Et.
      { apply (f_equal length) in Hr'. rewrite !length_app, !length_bits_of in Hr'. simpl in Hr'. lia. }
      destruct (rd_tail_cons _ _ _ _ Et) as (z & Hz & Hze & Hzt). rewrite Hzt in Et.
      assert (y2 = z) as -> by (apply peek_lookup; [lia|]; rewrite <- Hz; f_equal; lia).
      rewrite <- Et, app_assoc in Hr'.
      replace 8%nat with ((8 - Z.to_nat (head_count b)) + Z.to_nat (head_count b))%nat
        in Hr' at 2 by lia.
      rewrite bits_of_app, <- !app_assoc, app_assoc in Hr'.
      apply app_inj_1 in Hr' as [Hr1 Hr2]; [|rewrite length_app, !length_bits_of; lia].
      rewrite Z2Nat.id in Hr1 by lia. split_and!; [done|rewrite Hr2|lia].
      rewrite (rd_rest_in b _ _ z); [|lia|lia|rewrite <- Hz; f_equal; lia].
      do 2 f_equal. lia. }
  destruct Hmain as (Hm1 & Hm2 & Hm3).
  apply bits_of_inj in Hm1; [|done|apply joined_byte_ok; (done || lia)]. rewrite <- Hm1.
  destruct (Z.eqb_spec (head_count b) 8) as [E8|E8]; cbv iota delta [negb].
  - split_and!; try done. apply rd_ok_cursor; [done|lia|lia].
  - destruct (Z.leb_spec (end_ b) (index b + 1)); [lia|].
    split_and!; try done. apply rd_ok_cursor; [done|lia|lia].
Qed.

(** Shifting bits into an accumulator that has room for them. *)
Lemma accum_bits result w y :
  0 <= w -> 0 <= result -> 0 <= y < 2 ^ w -> result * 2 ^ w < 2 ^ 64 ->
  Z.lor (u64 (Z.shiftl result w)) y = result * 2 ^ w + y.
Proof.
  intros. rewrite Z.shiftl_mul_pow2 by lia. unfold u64.
  rewrite wrap_id by (unfold is_u; nia). by apply lor_disjoint.
Qed.

Lemma land_low_mask z n : 0 <= n -> Z.land z (low_mask n) = wrap n z.
Proof.
  intros. unfold low_mask. rewrite Z.shiftl_1_l, Z.sub_1_r, <- Z.ones_equiv.
  by apply Z.land_ones.
Qed.

Lemma read_bits_bytes_spec fuel : forall k l r result,
  (k <= fuel)%nat -> length l = (8 * k)%nat -> 0 <= r < 8 -> 0 <= result ->
  result * 2 ^ Z.of_nat (8 * k) + 2 ^ Z.of_nat (8 * k) <= 2 ^ 64 ->
  consumes (read_bits_bytes fuel (8 * Z.of_nat k + r) result) l
    (r, result * 2 ^ Z.of_nat (8 * k) + Z_of_bits l).
Proof.
  induction fuel as [|fuel IH]; intros k l r result Hk Hl Hr Hres Hb; cbn [read_bits_bytes].
  - replace k with 0%nat in * by lia. destruct l; [|done].
    replace (result * _ + _) with result by (unfold Z_of_bits; simpl; lia).
    replace (8 * _ + r) with r by (simpl; lia). apply consumes_ret.
  - destruct k as [|k].
    + destruct l; [|done]. rewrite (proj2 (Z.leb_gt _ _)) by lia.
      replace (result * _ + _) with result by (unfold Z_of_bits; simpl; lia).
    replace (8 * _ + r) with r by (simpl; lia). apply consumes_ret.
    + rewrite (proj2 (Z.leb_le _ _)) by lia.
      assert (Hv : is_byte (Z_of_bits (take 8 l))).
      { pose proof (Z_of_bits_range (take 8 l)) as Hx. rewrite length_take_le in Hx by lia. done. }
      assert (Hl8 : take 8 l = bits_of 8 (Z_of_bits (take 8 l))).
      { rewrite <- (bits_of_Z_of_bits (take 8 l)) at 1. f_equal. by rewrite length_take_le by lia. }
      rewrite <- (take_drop 8 l) at 1. rewrite Hl8.
      eapply consumes_bind; [by apply read_byte_spec|].
      replace (8 * Z.of_nat (S k) + r - 8) with (8 * Z.of_nat k + r) by lia.
      replace (Z.of_nat (8 * S k)) with (8 + Z.of_nat (8 * k)) in * by lia.
      rewrite Z.pow_add_r in * by lia. change (2 ^ 8) with 256 in *.
      assert (0 < 2 ^ Z.of_nat (8 * k)) by (apply Z.pow_pos_nonneg; lia).
      unfold is_u in Hv. rewrite accum_bits; [|lia|lia|lia|change (2 ^ 8) with 256; nia].
      change (2 ^ 8) with 256.
      rewrite <- (take_drop 8 l) at 3. rewrite Z_of_bits_app, length_drop, Hl.
      replace (8 * S k - 8)%nat with (8 * k)%nat by lia.
      rewrite Z.add_assoc, Z.mul_assoc, <- Z.mul_add_distr_r.
      apply IH; [lia|rewrite length_drop; lia|lia|lia|nia].
Qed.

(** The last bits when they do not cross a byte boundary. *)
Lemma read_bits_rest_in b l rest result :
  rd_ok b -> l <> [] -> rd_rest b = l ++ rest -> Z.of_nat (length l) <= head_count b ->
  0 <= result -> result * 2 ^ Z.of_nat (length l) < 2 ^ 64 ->
  exists b', read_bits_rest (Z.of_nat (length l)) result b
             = (Some (result * 2 ^ Z.of_nat (length l) + Z_of_bits l), b')
    /\ rd_ok b' /\ rd_rest b' = rest /\ same_source b b'.
Proof.
  intros Hb Hne Hr Hh Hres Hlt. pose proof Hb as (Hh8 & Hi & Hok).
  remember (Z.of_nat (length l)) as n eqn:Hn.
  assert (0 < n) by (destruct l; [done|subst n; simpl; lia]).
  assert (E : head_count b <> 0) by lia.
  destruct l as [|x l'] eqn:El; [done|]. rewrite <- El in *. clear Hne.
  assert (Hr' := Hr). rewrite El in Hr' at 1.
  destruct (rd_rest_byte _ _ _ Hb Hr' E) as (y & Hy & Hy8 & Hlt' & Hrb). clear Hr'.
  exists (set_cursor b (index b) (head_count b - n)). unfold read_bits_rest.
  rewrite (proj2 (Z.ltb_ge _ _)) by lia. cbv zeta iota delta [andb].
  rewrite (peek_lookup _ _ _ Hi Hy), land_low_mask by lia.
  rewrite Hr in Hrb.
  replace (Z.to_nat (head_count b)) with (length l + Z.to_nat (head_count b - n))%nat in Hrb
    by lia.
  rewrite bits_of_app, <- app_assoc in Hrb.
  apply app_inj_1 in Hrb as [Hl Hrest]; [|by rewrite length_bits_of].
  rewrite Z2Nat.id in Hl by lia.
  assert (Hz : Z_of_bits l = wrap n (Z.shiftr y (head_count b - n)))
    by (rewrite Hl at 1; rewrite Hn; apply Z_of_bits_of).
  split_and!.
  - rewrite accum_bits, Hz; [done|lia|lia|by apply wrap_range; lia|lia].
  - apply rd_ok_cursor; [done|lia|lia].
  - by rewrite (rd_rest_in b _ _ y) by (done || lia).
  - apply same_source_cursor.
Qed.

Lemma read_bits_rest_cross b num result :
  head_count b < num -> num <= 8 -> 0 <= head_count b -> index b + 1 < end_ b ->
  read_bits_rest num result b =
  read_bits_rest (num - head_count b)
    (Z.lor (u64 (Z.shiftl result (head_count b)))
           (Z.land (peek (mem b) (index b)) (low_mask (head_count b))))
    (set_cursor b (index b + 1) 8).
Proof.
  intros. unfold read_bits_rest. rewrite (proj2 (Z.ltb_lt _ _)) by lia. cbn [head_count set_cursor].
  rewrite (proj2 (Z.ltb_ge 8 _)) by lia. cbv zeta iota delta [andb].
  cbn [end_ index set_cursor]. rewrite (proj2 (Z.leb_gt _ _)) by lia. done.
Qed.

Lemma read_bits_rest_nil result : 0 <= result < 2 ^ 64 -> consumes (read_bits_rest 0 result) [] result.
Proof.
  intros Hres b rest Hb Hr. exists b. pose proof Hb as (Hh8 & _).
  split_and!; try done; [|apply same_source_refl]. unfold read_bits_rest.
  rewrite (proj2 (Z.ltb_ge _ _)) by lia. cbv zeta iota delta [andb].
  rewrite land_low_mask by lia. unfold wrap. rewrite Z.mod_1_r, Z.lor_0_r, Z.shiftl_0_r.
  unfold u64. by rewrite wrap_id, Z.sub_0_r, set_cursor_id.
Qed.

(** Bits that run past the current byte: those left in it, then the start of
    the next one. *)
Lemma rd_cross b l rest :
  rd_ok b -> rd_rest b = l ++ rest -> head_count b < Z.of_nat (length l) ->
  let h := Z.to_nat (head_count b) in
  Z.land (peek (mem b) (index b)) (low_mask (head_count b)) = Z_of_bits (take h l)
  /\ rd_rest (set_cursor b (index b + 1) 8) = drop h l ++ rest
  /\ index b + 1 < end_ b.
Proof.
  intros Hb Hr Hc h. pose proof Hb as (Hh8 & Hi & Hok).
  assert (Hsplit : take h l ++ drop h l ++ rest = rd_rest b) by (by rewrite app_assoc, take_drop).
  assert (H1 : Z.land (peek (mem b) (index b)) (low_mask (head_count b)) = Z_of_bits (take h l)
               /\ rd_rest (set_cursor b (index b + 1) 8) = drop h l ++ rest).
  { rewrite land_low_mask by lia. destruct (Z.eq_dec (head_count b) 0) as [E|E].
    - destruct (rd_rest_next b Hb E) as [_ Hr1]. rewrite Hr1, <- Hsplit.
      subst h. rewrite E. split; [|done]. unfold wrap. by rewrite Z.mod_1_r.
    - destruct l as [|x l'] eqn:El; [simpl in *; lia|]. rewrite <- El in *.
      assert (Hr' := Hr). rewrite El in Hr' at 1.
      destruct (rd_rest_byte _ _ _ Hb Hr' E) as (y & Hy & Hy8 & Hlt' & Hrb).
      rewrite (peek_lookup _ _ _ Hi Hy). rewrite <- Hsplit in Hrb. fold h in Hrb.
      apply app_inj_1 in Hrb as [Ht Hd]; [|rewrite length_bits_of, length_take_le by lia; done].
      split; [rewrite Ht, Z_of_bits_of; f_equal; lia|]. rewrite Hd. unfold rd_rest, rd_pos, rd_tail.
      simpl. rewrite <- drop_bytes_bits. f_equal. lia. }
  destruct H1 as [H1 Hrb1]. split_and!; [done|done|].
  destruct (drop h l) as [|x l'] eqn:El.
  { apply (f_equal length) in El. rewrite length_drop in El. simpl in El. lia. }
  destruct (rd_rest_byte (set_cursor b (index b + 1) 8) x (l' ++ rest)) as (y & _ & _ & Hx & _);
    [apply rd_ok_cursor; (done || lia)|done|discriminate|exact Hx].
Qed.

Lemma read_bits_rest_spec l result :
  (length l < 8)%nat -> 0 <= result ->
  result * 2 ^ Z.of_nat (length l) + 2 ^ Z.of_nat (length l) <= 2 ^ 64 ->
  consumes (read_bits_rest (Z.of_nat (length l)) result) l
    (result * 2 ^ Z.of_nat (length l) + Z_of_bits l).
Proof.
  intros Hl Hres Hlt.
  assert (0 < 2 ^ Z.of_nat (length l)) by (apply Z.pow_pos_nonneg; lia).
  destruct (decide (l = [])) as [->|Hne].
  { simpl length in *. change (Z.of_nat 0) with 0 in *. change (2 ^ 0) with 1 in *.
    change (Z_of_bits []) with 0. rewrite Z.add_0_r, Z.mul_1_r. apply read_bits_rest_nil. lia. }
  intros b rest Hb Hr. pose proof Hb as (Hh8 & Hi & Hok).
  destruct (Z.lt_ge_cases (head_count b) (Z.of_nat (length l))) as [Hc|Hc].
  2: { apply read_bits_rest_in; (done || lia). }
  destruct (rd_cross b l rest Hb Hr Hc) as (H1 & Hrb1 & Hlt1).
  set (h := Z.to_nat (head_count b)) in *.
  assert (Hlen2 : Z.of_nat (length (drop h l)) = Z.of_nat (length l) - head_count b)
    by (rewrite length_drop; lia).
  assert (Hl2 : drop h l <> []) by (intros E; rewrite E in Hlen2; simpl in Hlen2; lia).
  rewrite read_bits_rest_cross, H1 by lia.
  pose proof (Z_of_bits_range (take h l)) as Hz. unfold is_u in Hz.
  rewrite length_take_le in Hz by lia. replace (Z.of_nat h) with (head_count b) in Hz by lia.
  assert (Hpow : 2 ^ Z.of_nat (length l) = 2 ^ head_count b * 2 ^ Z.of_nat (length (drop h l)))
    by (rewrite <- Z.pow_add_r by lia; f_equal; lia).
  assert (0 < 2 ^ head_count b) by (apply Z.pow_pos_nonneg; lia).
  assert (0 < 2 ^ Z.of_nat (length (drop h l))) by (apply Z.pow_pos_nonneg; lia).
  rewrite accum_bits, <- Hlen2 by nia.
  replace (result * 2 ^ Z.of_nat (length l) + Z_of_bits l)
    with ((result * 2 ^ head_count b + Z_of_bits (take h l)) * 2 ^ Z.of_nat (length (drop h l))
          + Z_of_bits (drop h l))
    by (replace (Z_of_bits l) with (Z_of_bits (take h l ++ drop h l)) by (by rewrite take_drop);
        rewrite Z_of_bits_app, Hpow; ring).
  destruct (read_bits_rest_in (set_cursor b (index b + 1) 8) (drop h l) rest
    (result * 2 ^ head_count b + Z_of_bits (take h l))) as (b' & E1 & E2 & E3 & E4);
    try done; try nia.
  - apply rd_ok_cursor; (done || lia).
  - simpl head_count. lia.
  - exists b'. by rewrite E1.
Qed.

(** [read_bits] reads [num] bits, most significant first. *)
Lemma read_bits_spec l :
  (length l <= 64)%nat -> consumes (read_bits (Z.of_nat (length l))) l (Z_of_bits l).
Proof.
  intros Hl. unfold read_bits. set (k := (length l / 8)%nat). set (r := (length l mod 8)%nat).
  pose proof (Nat.div_mod (length l) 8 ltac:(lia)) as Hdm. fold k r in Hdm.
  assert (Hr : (r < 8)%nat) by (apply Nat.mod_upper_bound; lia).
  replace (Z.of_nat (length l)) with (8 * Z.of_nat k + Z.of_nat r) by lia.
  replace (Z_of_bits l) with (Z_of_bits (take (8 * k) l ++ drop (8 * k) l)) by (by rewrite take_drop).
  rewrite Z_of_bits_app. rewrite <- (take_drop (8 * k) l) at 1.
  assert (Hpow : 2 ^ Z.of_nat (8 * k) * 2 ^ Z.of_nat r <= 2 ^ 64)
    by (rewrite <- Z.pow_add_r by lia; apply Z.pow_le_mono_r; lia).
  assert (0 < 2 ^ Z.of_nat (8 * k)) by (apply Z.pow_pos_nonneg; lia).
  assert (0 < 2 ^ Z.of_nat r) by (apply Z.pow_pos_nonneg; lia).
  assert (Hlr : length (drop (8 * k) l) = r) by (rewrite length_drop; lia).
  eapply consumes_bind.
  - apply (read_bits_bytes_spec _ k (take (8 * k) l) (Z.of_nat r) 0); try lia.
    rewrite length_take_le; lia.
  - rewrite Z.mul_0_l, Z.add_0_l, Hlr.
    pose proof (Z_of_bits_range (take (8 * k) l)) as Hz. unfold is_u in Hz.
    rewrite length_take_le in Hz by lia. cbv beta iota. rewrite <- Hlr.
    apply read_bits_rest_spec; rewrite ?Hlr; try lia. nia.
Qed.

(** The varint loop consumes one reference varint. *)
Lemma read_unsigned_varint_loop_spec v :
  0 <= v -> forall fuel acc s,
  v * 2 ^ s < 2 ^ 64 -> 0 <= s -> 0 <= acc < 2 ^ s -> (length (varint v) <= fuel)%nat ->
  consumes (read_unsigned_varint_loop fuel acc s) (bytes_bits (varint v)) (acc + v * 2 ^ s).
Proof.
  revert v. refine (varint_ind _ _ _).
  - intros v Hv fuel acc s H1 H2 H3 H4. rewrite varint_small in * by lia.
    destruct fuel as [|fuel]; [simpl in H4; lia|]. cbn [read_unsigned_varint_loop].
    assert (Hb : is_byte v) by (unfold is_u; lia). rewrite bytes_bits_cons, app_nil_r.
    eapply consumes_bind_nil; [by apply read_byte_spec|].
    rewrite varint_accum by (rewrite ?Z.mod_small by lia; (done || lia)).
    rewrite byte_land_128 by done. rewrite (proj2 (Z.ltb_lt _ _)) by lia. simpl (0 =? 0).
    cbv iota. rewrite Z.mod_small by lia. apply consumes_ret.
  - intros v Hv IH fuel acc s H1 H2 H3 H4.
    assert (0 < 2 ^ s) by (apply Z.pow_pos_nonneg; lia).
    assert (Hv64 : 128 <= v < 2 ^ 64) by nia.
    rewrite varint_big in * by lia. destruct fuel as [|fuel]; [simpl in H4; lia|].
    set (c := v mod 128 + 128) in *. cbn [read_unsigned_varint_loop]. rewrite bytes_bits_cons.
    assert (0 <= v mod 128 < 128) by (apply Z.mod_pos_bound; lia).
    pose proof (Z.div_mod v 128 ltac:(lia)) as Hdm.
    assert (Hc : is_byte c) by (unfold is_u; subst c; lia).
    assert (Hcm : c mod 128 = v mod 128).
    { subst c. rewrite <- Z.add_mod_idemp_r, Z_mod_same_full, Z.add_0_r, Zmod_mod by lia. done. }
    eapply consumes_bind; [by apply read_byte_spec|].
    rewrite varint_accum by (rewrite ?Hcm; (done || nia)).
    rewrite byte_land_128 by done. rewrite (proj2 (Z.ltb_ge c 128)) by (subst c; lia).
    simpl (128 =? 0). cbv iota. rewrite Hcm.
    assert (Hp : 2 ^ (s + 7) = 2 ^ s * 128) by (rewrite Z.pow_add_r by lia; done).
    replace (acc + v * 2 ^ s) with (acc + v mod 128 * 2 ^ s + v / 128 * 2 ^ (s + 7))
      by (rewrite Hp; nia).
    apply IH; [rewrite Hp; nia|lia|rewrite Hp; nia|simpl in H4; lia].
Qed.

Lemma rd_rest_length b : (length (rd_rest b) <= 8 * Z.to_nat (end_ b) - rd_pos b)%nat.
Proof. unfold rd_rest. rewrite length_drop, length_bytes_bits, length_take. lia. Qed.

Lemma read_unsigned_varint_spec v :
  is_u64 v -> consumes read_unsigned_varint (bytes_bits (varint v)) v.
Proof.
  intros Hv b rest Hb Hr. unfold read_unsigned_varint. pose proof Hb as (Hh & Hi & Hok).
  pose proof (rd_rest_length b) as Hl. rewrite Hr, length_app, length_bytes_bits in Hl.
  unfold rd_pos in Hl. pose proof (length_varint v Hv). unfold is_u in Hv.
  destruct (read_unsigned_varint_loop_spec v ltac:(lia) (S (Z.to_nat (end_ b - index b))) 0 0)
    with (b := b) (rest := rest) as (b' & E1 & E2 & E3 & E4); try done; try lia.
  exists b'. rewrite E1, Z.mul_1_r. done.
Qed.

(** [read_signed_varint] reads what [encode_signed_varint] produced. *)
Lemma read_signed_varint_spec v :
  is_s64 v -> consumes read_signed_varint (bytes_bits (encode_signed_varint v)) v.
Proof.
  intros Hv. unfold read_signed_varint, encode_signed_varint.
  rewrite encode_unsigned_varint_varint by apply zigzag_u64.
  eapply consumes_bind_nil; [apply read_unsigned_varint_spec, zigzag_u64|].
  rewrite unzigzag_zigzag by done. apply consumes_ret.
Qed.

(** *** Reading at a position *)

Lemma read_byte_as_helper b :
  read_byte b =
  let '(r, (i, h)) := read_byte_helper b (index b, head_count b) in (r, set_cursor b i h).
Proof.
  unfold read_byte, read_byte_helper. destruct (end_ b <=? index b); [by rewrite set_cursor_id|].
  destruct (Z.eqb_spec (head_count b) 0) as [E|E]; cbn [andb].
  - destruct (_ <=? _); [by rewrite E|]. done.
  - destruct (_ && _); done.
Qed.

Definition at_pos (b : BitStream) (pos : Z) : BitStream :=
  set_cursor b (Z.shiftr pos 3) (8 - Z.rem pos 8).

Lemma at_pos_ok b pos : 0 <= pos -> bytes_ok (mem b) -> rd_ok (at_pos b pos).
Proof.
  intros Hp Hok. pose proof (Z.rem_bound_pos pos 8 ltac:(lia) ltac:(lia)).
  unfold rd_ok, at_pos. simpl. split_and!; [lia|lia| |exact Hok]. by apply Z.shiftr_nonneg.
Qed.

(** The bits from [pos] on. *)
Lemma at_pos_rest b pos :
  0 <= pos -> rd_rest (at_pos b pos) =
  drop (Z.to_nat pos) (bytes_bits (take (Z.to_nat (end_ b)) (mem b))).
Proof.
  intros Hp. unfold rd_rest, rd_pos, at_pos. simpl. change (mem (set_cursor _ _ _)) with (mem b).
  f_equal. f_equal. rewrite Z.shiftr_div_pow2 by lia. change (2 ^ 3) with 8.
  rewrite Z.rem_mod_nonneg by lia. pose proof (Z.div_mod pos 8 ltac:(lia)). lia.
Qed.

Lemma read_bits_bytes_at_cursor f : forall b i h n r p,
  read_bits_bytes_at (set_cursor b i h) f n r p = read_bits_bytes_at b f n r p.
Proof.
  induction f as [|f IHf]; intros b i h n r [i' h']; cbn [read_bits_bytes_at]; [done|].
  destruct (8 <=? n); [|done]. unfold mbind, SE_bind.
  change (read_byte_helper (set_cursor b i h)) with (read_byte_helper b).
  destruct (read_byte_helper b (i', h')) as [[v|] p]; [|done]. apply IHf.
Qed.

Lemma read_bits_bytes_at_sim fuel : forall b num result,
  read_bits_bytes fuel num result b =
  let '(r, (i, h)) := read_bits_bytes_at b fuel num result (index b, head_count b) in
  (r, set_cursor b i h).
Proof.
  induction fuel as [|fuel IH]; intros b num result;
    cbn [read_bits_bytes read_bits_bytes_at]; [by rewrite <- (set_cursor_id b) at 1|].
  destruct (8 <=? num); [|by rewrite <- (set_cursor_id b) at 1].
  unfold mbind, SE_bind. rewrite read_byte_as_helper.
  destruct (read_byte_helper b (index b, head_count b)) as [[v|] [i h]]; [|done].
  rewrite IH. simpl index. simpl head_count.
  rewrite read_bits_bytes_at_cursor. by destruct (read_bits_bytes_at _ _ _ _ _) as [[|] [??]].
Qed.

(** [read_bits(pos, num)] is [read_bits(num)] of a reader placed at [pos]. *)
Lemma read_bits_at_read_bits b pos num :
  read_bits_at b pos num = (read_bits num (at_pos b pos)).1.
Proof.
  unfold read_bits_at, read_bits, mbind, SE_bind. rewrite read_bits_bytes_at_sim.
  unfold at_pos at 1. rewrite read_bits_bytes_at_cursor. simpl index. simpl head_count.
  destruct (read_bits_bytes_at _ _ _ _ _) as [[[n r]|] [i h]]; [|done].
  unfold read_bits_rest. simpl. destruct (h <? n); simpl; [|done]. by destruct (_ <=? _).
Qed.

End Readers.
