(* ===== verification/XORChunk.v ===== *)
(** chunk/XORAppender.cpp, chunk/XORIterator.cpp and chunk/XORChunk.cpp: the
    Gorilla-style chunk of one series.

    A chunk is a bit stream whose first two bytes (after [header_size] reserved
    bytes) count the samples.  The appender keeps a reference to the chunk's
    stream, so [append] passes the stream along; the iterator owns a stream of
    its own over the same bytes.  A [double] is its 64-bit pattern. *)
From Stdlib Require Import ZArith Lia Bool.
From stdpp Require Import base list numbers option.
From S2P Require Import Prelude Endian BitStream.

(** ** [__builtin_clzll] and [__builtin_ctzll] on a nonzero word *)

Definition clzll (v : Z) : Z := 63 - Z.log2 v.

Fixpoint ctz_pos (p : positive) : Z :=
  match p with
  | xO p => 1 + ctz_pos p
  | _ => 0
  end.

Definition ctzll (v : Z) : Z := match v with Zpos p => ctz_pos p | _ => 64 end.

(** ** The appender *)

Record XORAppender := mkXORAppender {
  ap_timestamp : Z;
  ap_value : Z;
  ap_delta_timestamp : Z;
  ap_leading_zero : Z;
  ap_trailing_zero : Z }.

Definition set_zeros (a : XORAppender) (lz tz : Z) : XORAppender :=
  mkXORAppender (ap_timestamp a) (ap_value a) (ap_delta_timestamp a) lz tz.

Definition write_delta_value (b : BitStream) (a : XORAppender) (value : Z)
    : BitStream * XORAppender :=
  let delta_vale := Z.lxor (encode_double value) (encode_double (ap_value a)) in
  if delta_vale =? 0 then (write_bit b false, a) else
  let b := write_bit b true in
  let lz := clzll delta_vale in
  let tz := ctzll delta_vale in
  let lz := if 32 <=? lz then 31 else lz in
  if negb (ap_leading_zero a =? 255) && (ap_leading_zero a <=? lz)
     && (ap_trailing_zero a <=? tz) then
    let b := write_bit b false in
    (write_bits b (Z.shiftr delta_vale (ap_trailing_zero a))
       (64 - ap_leading_zero a - ap_trailing_zero a), a)
  else
    let b := write_bit b true in
    let b := write_bits b lz 5 in
    let sigbits := 64 - lz - tz in
    let b := write_bits b sigbits 6 in
    (write_bits b (Z.shiftr delta_vale tz) sigbits, set_zeros a lz tz).

Definition bit_range (delta_delta_timestamp num : Z) : bool :=
  (- (Z.shiftl 1 (num - 1) - 1) <=? delta_delta_timestamp)
  && (delta_delta_timestamp <=? Z.shiftl 1 (num - 1)).

(** [put_uint16_big_endian(bstream.bytes(), num)] *)
Definition put_count (b : BitStream) (num : Z) : BitStream :=
  set_write b (put_uint16_big_endian (stream b) (header_size b) num) (end_ b) (tail_count b).

Section Chunk.
Context `{PastEnd}.

Definition append (b : BitStream) (a : XORAppender) (timestamp value : Z)
    : BitStream * XORAppender :=
  let num_samples := get_uint16_big_endian (bytes_ptr b) 0 in
  let '(current_delta_timestamp, b, a) :=
    if num_samples =? 0 then
      let b := foldl write_byte b (encode_signed_varint timestamp) in
      (0, write_bits b (encode_double value) 64, a)
    else if num_samples =? 1 then
      let current := u64 (timestamp - ap_timestamp a) in
      let b := foldl write_byte b (encode_signed_varint (s64 current)) in
      let '(b, a) := write_delta_value b a value in
      (current, b, a)
    else
      let current := u64 (timestamp - ap_timestamp a) in
      let delta_delta_timestamp := s64 (current - ap_delta_timestamp a) in
      let b :=
        if delta_delta_timestamp =? 0 then write_bit b false
        else if bit_range delta_delta_timestamp 14 then
          write_bits (write_bits b 2 2) (u64 delta_delta_timestamp) 14
        else if bit_range delta_delta_timestamp 17 then
          write_bits (write_bits b 6 3) (u64 delta_delta_timestamp) 17
        else if bit_range delta_delta_timestamp 20 then
          write_bits (write_bits b 14 4) (u64 delta_delta_timestamp) 20
        else
          write_bits (write_bits b 15 4) (u64 delta_delta_timestamp) 64 in
      let '(b, a) := write_delta_value b a value in
      (current, b, a) in
  (put_count b (num_samples + 1),
   mkXORAppender timestamp value current_delta_timestamp (ap_leading_zero a)
     (ap_trailing_zero a)).

(** ** The iterator *)

Record XORIterator := mkXORIterator {
  it_bstream : BitStream;
  it_timestamp : Z;
  it_value : Z;
  it_delta_timestamp : Z;
  it_leading_zero : Z;
  it_trailing_zero : Z;
  num_total : Z;
  num_read : Z;
  err_ : bool }.

(** [XORIterator(bstream, safe_mode)]: in safe mode [size()] bytes are copied
    from [bytes_ptr()], otherwise the stream is looked at in place. *)
Definition xor_iterator_of (b : BitStream) (safe_mode : bool) : XORIterator :=
  let b' :=
    if safe_mode then bs_of_vector (map (peek (bytes_ptr b)) (seqZ 0 (bs_size b)))
    else bs_of_ptr (bytes_ptr b) (bs_size b) in
  mkXORIterator (pop_front (pop_front b')) 0 0 0 0 0
    (u16 (get_uint16_big_endian (bytes_ptr b) 0)) 0 false.

Definition at_ (it : XORIterator) : Z * Z := (it_timestamp it, it_value it).

Definition set_bstream (it : XORIterator) (b : BitStream) : XORIterator :=
  mkXORIterator b (it_timestamp it) (it_value it) (it_delta_timestamp it)
    (it_leading_zero it) (it_trailing_zero it) (num_total it) (num_read it) (err_ it).

Definition set_time (it : XORIterator) (delta t : Z) : XORIterator :=
  mkXORIterator (it_bstream it) t (it_value it) delta (it_leading_zero it)
    (it_trailing_zero it) (num_total it) (num_read it) (err_ it).

Definition set_window (it : XORIterator) (lz tz : Z) : XORIterator :=
  mkXORIterator (it_bstream it) (it_timestamp it) (it_value it) (it_delta_timestamp it)
    lz tz (num_total it) (num_read it) (err_ it).

Definition set_err (it : XORIterator) : XORIterator :=
  mkXORIterator (it_bstream it) (it_timestamp it) (it_value it) (it_delta_timestamp it)
    (it_leading_zero it) (it_trailing_zero it) (num_total it) (num_read it) true.

(** [value := v; ++num_read] *)
Definition got_value (it : XORIterator) (v : Z) : XORIterator :=
  mkXORIterator (it_bstream it) (it_timestamp it) v (it_delta_timestamp it)
    (it_leading_zero it) (it_trailing_zero it) (num_total it) (u16 (num_read it + 1)) (err_ it).

(** [try { x = m } catch (TSDBException) { fail; return false }]; the stream
    keeps its cursor either way. *)
Definition try_read {A} (it : XORIterator) (m : reading A) (fail : XORIterator -> XORIterator)
    (k : A -> XORIterator -> bool * XORIterator) : bool * XORIterator :=
  match m (it_bstream it) with
  | (Some v, b) => k v (set_bstream it b)
  | (None, b) => (false, fail (set_bstream it b))
  end.

(** The tail of [read_value]: the significant bits under the current window. *)
Definition read_xor (it : XORIterator) : bool * XORIterator :=
  try_read it (read_bits (64 - it_leading_zero it - it_trailing_zero it)) id (fun bits it =>
    let vbits := Z.lxor (encode_double (it_value it))
                        (u64 (Z.shiftl bits (it_trailing_zero it))) in
    (true, got_value it (decode_double vbits))).

(** [read_value] leaves [err_] alone when the stream ends. *)
Definition read_value (it : XORIterator) : bool * XORIterator :=
  try_read it read_bit id (fun control_bit it =>
    if control_bit then
      try_read it read_bit id (fun control_bit it =>
        if control_bit then
          try_read it (read_bits 5) id (fun bits it =>
            let it := set_window it (u8 bits) (it_trailing_zero it) in
            try_read it (read_bits 6) id (fun bits it =>
              let bits := if u8 bits =? 0 then 64 else u8 bits in
              read_xor (set_window it (it_leading_zero it) (u8 (64 - it_leading_zero it - bits)))))
        else read_xor it)
    else (true, got_value it (it_value it))).

(** [for (int i = 0; i < 4; i++)]: the prefix of a delta of deltas. *)
Fixpoint read_type (rounds : nat) (type : Z) : reading Z :=
  match rounds with
  | O => mret type
  | S rounds =>
    bit ← read_bit;
    let type := u8 (Z.shiftl type 1) in
    if (bit : bool) then read_type rounds (Z.lor type 1) else mret type
  end.

Definition dod_size (type : Z) : Z :=
  if type =? 2 then 14 else if type =? 6 then 17 else if type =? 14 then 20 else 0.

(** The delta of deltas after its prefix. *)
Definition read_delta_delta (type : Z) : reading Z :=
  if type =? 15 then
    v ← read_bits 64;
    mret (s64 v)
  else if dod_size type =? 0 then mret 0
  else
    v ← read_bits (dod_size type);
    let delta_delta := s64 v in
    mret (if Z.shiftl 1 (dod_size type - 1) <? delta_delta
          then delta_delta - Z.shiftl 1 (dod_size type) else delta_delta).

Definition next (it : XORIterator) : bool * XORIterator :=
  if err_ it || (num_read it =? num_total it) then (false, it)
  else if num_read it =? 0 then
    try_read it read_signed_varint set_err (fun current_t it =>
      try_read it (read_bits 64) set_err (fun current_v it =>
        let it := set_time it (it_delta_timestamp it) current_t in
        (true, got_value it (decode_double current_v))))
  else if num_read it =? 1 then
    try_read it read_signed_varint set_err (fun delta_t it =>
      read_value (set_time it (u64 delta_t) (s64 (it_timestamp it + delta_t))))
  else
    try_read it (read_type 4 0) set_err (fun type it =>
      try_read it (read_delta_delta type) set_err (fun delta_delta it =>
        let delta := u64 (s64 (delta_delta + s64 (it_delta_timestamp it))) in
        read_value (set_time it delta (s64 (it_timestamp it + s64 delta))))).

(** The samples [while (it->next())] visits, and the iterator it ends with. *)
Fixpoint drain (fuel : nat) (it : XORIterator) : list (Z * Z) * XORIterator :=
  match fuel with
  | O => ([], it)
  | S fuel =>
    match next it with
    | (true, it) => let '(l, it') := drain fuel it in (at_ it :: l, it')
    | (false, it) => ([], it)
    end
  end.

(** One round per sample announced by the header and the round that fails. *)
Definition run (it : XORIterator) : list (Z * Z) * XORIterator :=
  drain (S (Z.to_nat (num_total it))) it.

(** ** The chunk *)

Record XORChunk := mkXORChunk {
  bstream : BitStream;
  read_mode : bool;
  size_ : Z }.

Definition xor_chunk : XORChunk := mkXORChunk (bs_sized 2 0) false 0.
Definition xor_chunk_header (header_size : Z) : XORChunk :=
  mkXORChunk (bs_sized 2 header_size) false 0.

(** [XORChunk(stream_ptr, size, copy)] *)
Definition xor_chunk_of (p : list Z) (size : Z) (copy : bool) : XORChunk :=
  mkXORChunk (if copy then bs_of_ptr (map (peek p) (seqZ 0 size)) size else bs_of_ptr p size)
    true size.

Definition chunk_bytes (c : XORChunk) : list Z :=
  if read_mode c then stream_ptr (bstream c) else bytes_ptr (bstream c).

Definition chunk_size (c : XORChunk) : Z :=
  if read_mode c then size_ c else bs_size (bstream c) - header_size (bstream c).

Definition chunk_num_samples (c : XORChunk) : Z := get_uint16_big_endian (chunk_bytes c) 0.

Inductive Appender :=
  | EmptyAppender
  | AppenderOf (a : XORAppender).

(** [appender()]: [None] is the exception for a broken stream. *)
Definition appender (c : XORChunk) : option Appender :=
  if read_mode c then Some EmptyAppender else
  let '(_, it) := run (xor_iterator_of (bstream c) false) in
  if err_ it then None else
  let lz := if get_uint16_big_endian (bytes_ptr (bstream c)) 0 =? 0 then 255
            else it_leading_zero it in
  Some (AppenderOf (mkXORAppender (it_timestamp it) (it_value it) (it_delta_timestamp it) lz
                      (it_trailing_zero it))).

Definition chunk_iterator (c : XORChunk) : XORIterator :=
  xor_iterator_of (bstream c) (negb (read_mode c)).

(** Samples appended one after the other through one appender. *)
Definition append_all (b : BitStream) (a : XORAppender) (samples : list (Z * Z))
    : BitStream * XORAppender :=
  foldl (fun '(b, a) '(t, v) => append b a t v) (b, a) samples.

(** A client that opens an appender for a batch of samples, and again for the
    next batch. *)
Definition append_batch (c : XORChunk) (samples : list (Z * Z)) : option XORChunk :=
  match appender c with
  | None => None
  | Some EmptyAppender => Some c
  | Some (AppenderOf a) =>
    Some (mkXORChunk (append_all (bstream c) a samples).1 (read_mode c) (size_ c))
  end.

End Chunk.

(** ** The encoding, stated on bits *)

Definition reuse_window (a : XORAppender) (d : Z) : bool :=
  negb (ap_leading_zero a =? 255) && (ap_leading_zero a <=? Z.min 31 (clzll d))
  && (ap_trailing_zero a <=? ctzll d).

(** The window (leading and trailing zeros) after a value. *)
Definition value_window (a : XORAppender) (v : Z) : Z * Z :=
  let d := Z.lxor v (ap_value a) in
  if (d =? 0) || reuse_window a d then (ap_leading_zero a, ap_trailing_zero a)
  else (Z.min 31 (clzll d), ctzll d).

Definition sig_bits (lz tz d : Z) : list bool :=
  bits_of (Z.to_nat (64 - lz - tz)) (Z.shiftr d tz).

Definition value_bits (a : XORAppender) (v : Z) : list bool :=
  let d := Z.lxor v (ap_value a) in
  if d =? 0 then [false]
  else if reuse_window a d then
    [true] ++ [false] ++ sig_bits (ap_leading_zero a) (ap_trailing_zero a) d
  else
    let lz := Z.min 31 (clzll d) in
    let tz := ctzll d in
    [true] ++ [true] ++ bits_of 5 lz ++ bits_of 6 (64 - lz - tz) ++ sig_bits lz tz d.

Definition dod_bits (dd : Z) : list bool :=
  if dd =? 0 then [false]
  else if bit_range dd 14 then bits_of 2 2 ++ bits_of 14 dd
  else if bit_range dd 17 then bits_of 3 6 ++ bits_of 17 dd
  else if bit_range dd 20 then bits_of 4 14 ++ bits_of 20 dd
  else bits_of 4 15 ++ bits_of 64 dd.

Definition sample_delta (n : Z) (a : XORAppender) (t : Z) : Z :=
  if n =? 0 then 0 else u64 (t - ap_timestamp a).

Definition sample_bits (n : Z) (a : XORAppender) (t v : Z) : list bool :=
  if n =? 0 then bytes_bits (encode_signed_varint t) ++ bits_of 64 v
  else if n =? 1 then bytes_bits (encode_signed_varint (s64 (t - ap_timestamp a))) ++ value_bits a v
  else dod_bits (s64 (u64 (t - ap_timestamp a) - ap_delta_timestamp a)) ++ value_bits a v.

Definition sample_next (n : Z) (a : XORAppender) (t v : Z) : XORAppender :=
  let '(lz, tz) := if n =? 0 then (ap_leading_zero a, ap_trailing_zero a) else value_window a v in
  mkXORAppender t v (sample_delta n a t) lz tz.

(** A window the five and six bit fields can express, or none yet. *)
Definition window_ok (lz tz : Z) : Prop := 0 <= lz <= 31 /\ 0 <= tz /\ lz + tz < 64.

Definition appender_ok (a : XORAppender) : Prop :=
  is_s64 (ap_timestamp a) /\ is_u64 (ap_value a) /\ is_u64 (ap_delta_timestamp a) /\
  (ap_leading_zero a = 255 \/ window_ok (ap_leading_zero a) (ap_trailing_zero a)).

Definition sample_ok (s : Z * Z) : Prop := is_s64 s.1 /\ is_u64 s.2.

(** *** Leading and trailing zeros *)

Lemma ctz_pos_divide p : (2 ^ ctz_pos p | Zpos p) /\ 0 <= ctz_pos p <= Z.log2 (Zpos p).
Proof.
  induction p as [p IH|p IH|]; simpl ctz_pos.
  - split; [apply Z.divide_1_l|]. pose proof (Z.log2_nonneg (Zpos p~1)). lia.
  - destruct IH as [[k Hk] [Hl Hu]]. rewrite (Pos2Z.inj_xO p).
    rewrite Z.log2_double by lia. split; [|lia].
    rewrite Z.pow_add_r by lia. exists k. lia.
  - split; [apply Z.divide_refl|]. done.
Qed.

Lemma ctzll_spec d : 0 < d -> (2 ^ ctzll d | d) /\ 0 <= ctzll d <= Z.log2 d.
Proof. intros. destruct d as [|p|p]; try lia. apply ctz_pos_divide. Qed.

Lemma fresh_window_ok d :
  0 < d < 2 ^ 64 -> window_ok (Z.min 31 (clzll d)) (ctzll d).
Proof.
  intros Hd. destruct (ctzll_spec d) as [_ Hc]; [lia|]. unfold window_ok, clzll.
  assert (Z.log2 d < 64) by (apply Z.log2_lt_pow2; lia). lia.
Qed.

(** The significant bits, put back in place, are the word. *)
Lemma sig_bits_value lz tz d :
  0 < d < 2 ^ 64 -> window_ok lz tz -> lz <= clzll d -> tz <= ctzll d ->
  u64 (Z.shiftl (Z_of_bits (sig_bits lz tz d)) tz) = d.
Proof.
  intros Hd (Hl & Ht & Hs) Hlz Htz. unfold sig_bits, clzll in *.
  rewrite Z_of_bits_of, Z2Nat.id by lia.
  destruct (ctzll_spec d) as [[k Hk] Hc]; [lia|].
  assert (Hdiv : d = d / 2 ^ tz * 2 ^ tz).
  { rewrite Z.mul_comm. apply Z.div_exact; [apply Z.pow_nonzero; lia|].
    apply Z.mod_divide; [apply Z.pow_nonzero; lia|]. exists (k * 2 ^ (ctzll d - tz)).
    rewrite <- Z.mul_assoc, <- Z.pow_add_r by lia. rewrite Hk at 1. do 2 f_equal. lia. }
  assert (Hlt : d < 2 ^ (64 - lz)).
  { apply Z.log2_lt_pow2; [lia|]. lia. }
  rewrite Z.shiftr_div_pow2, Z.shiftl_mul_pow2 by lia. rewrite wrap_id.
  - rewrite <- Hdiv. apply wrap_id. unfold is_u. lia.
  - unfold is_u. split; [apply Z.div_pos; [lia|apply Z.pow_pos_nonneg; lia]|].
    apply Z.div_lt_upper_bound; [apply Z.pow_pos_nonneg; lia|].
    rewrite <- Z.pow_add_r by lia. replace (tz + (64 - lz - tz)) with (64 - lz) by lia. done.
Qed.

Lemma lxor_u64 a b : is_u64 a -> is_u64 b -> is_u64 (Z.lxor a b).
Proof.
  intros Ha Hb. unfold is_u in *. assert (0 <= Z.lxor a b) by (apply Z.lxor_nonneg; lia).
  split; [done|]. destruct (Z.eq_dec (Z.lxor a b) 0) as [->|Hne]; [lia|].
  apply Z.log2_lt_pow2; [lia|]. eapply Z.le_lt_trans; [by apply Z.log2_lxor; lia|].
  apply Z.max_lub_lt.
  - destruct (Z.eq_dec a 0) as [->|]; [done|]. apply Z.log2_lt_pow2; lia.
  - destruct (Z.eq_dec b 0) as [->|]; [done|]. apply Z.log2_lt_pow2; lia.
Qed.

(** *** The appender writes that encoding *)

Lemma reuse_window_eq a d :
  negb (ap_leading_zero a =? 255)
  && (ap_leading_zero a <=? (if 32 <=? clzll d then 31 else clzll d))
  && (ap_trailing_zero a <=? ctzll d) = reuse_window a d.
Proof. unfold reuse_window. do 3 f_equal. destruct (Z.leb_spec 32 (clzll d)); lia. Qed.

Lemma clamp_min d : (if 32 <=? clzll d then 31 else clzll d) = Z.min 31 (clzll d).
Proof. destruct (Z.leb_spec 32 (clzll d)); lia. Qed.

Lemma reuse_window_true a d :
  reuse_window a d = true ->
  ap_leading_zero a <> 255 /\ ap_leading_zero a <= Z.min 31 (clzll d)
  /\ ap_trailing_zero a <= ctzll d.
Proof. unfold reuse_window. rewrite !andb_true_iff, negb_true_iff. lia. Qed.

(** A stream operation that appends the bits [l] and keeps the header size. *)
Definition writes (f : BitStream -> BitStream) (l : list bool) : Prop :=
  forall b pre k, wr_at b pre k -> wr_at (f b) pre (k ++ l) /\ header_size (f b) = header_size b.

Lemma writes_bit x : writes (fun b => write_bit b x) [x].
Proof. intros b pre k Hw. split; [by apply write_bit_spec|apply write_bit_frame]. Qed.

Lemma writes_bits v num :
  0 <= num <= 64 -> writes (fun b => write_bits b v num) (bits_of (Z.to_nat num) v).
Proof. intros Hn b pre k Hw. by apply write_bits_spec. Qed.

Lemma writes_bytes vs : bytes_ok vs -> writes (fun b => foldl write_byte b vs) (bytes_bits vs).
Proof. intros Hv b pre k Hw. split; [by apply write_all_spec|apply write_all_frame]. Qed.

Lemma writes_comp f g l k :
  writes f l -> writes g k -> writes (fun b => g (f b)) (l ++ k).
Proof.
  intros Hf Hg b pre m Hw. destruct (Hf b pre m Hw) as [H1 H2].
  destruct (Hg _ _ _ H1) as [H3 H4]. rewrite app_assoc. split; [done|]. by rewrite H4.
Qed.

Lemma writes_then_bit f l x : writes f l -> writes (fun b => write_bit (f b) x) (l ++ [x]).
Proof. intros. apply (writes_comp f (fun b => write_bit b x)); [done|apply writes_bit]. Qed.

Lemma writes_then_bits f l v num k :
  writes f l -> 0 <= num <= 64 -> k = bits_of (Z.to_nat num) v ->
  writes (fun b => write_bits (f b) v num) (l ++ k).
Proof.
  intros Hf Hn ->. apply (writes_comp f (fun b => write_bits b v num)); [done|by apply writes_bits].
Qed.

(** Peels a nest of writes off from the outside. *)
Ltac writes_tac :=
  cbn [fst]; rewrite ?app_assoc;
  repeat first
    [ apply writes_bit
    | apply writes_then_bit
    | apply writes_then_bits; [|lia|reflexivity]
    | apply writes_bits; lia ].

Lemma write_delta_value_spec a v :
  appender_ok a -> is_u64 v ->
  writes (fun b => (write_delta_value b a v).1) (value_bits a v)
  /\ forall b, (write_delta_value b a v).2
               = set_zeros a (value_window a v).1 (value_window a v).2.
Proof.
  intros (Ht & Hv & Hd & Hz) Hv'. unfold write_delta_value, value_bits, value_window, encode_double.
  set (d := Z.lxor v (ap_value a)). destruct (Z.eqb_spec d 0) as [E|E].
  { split; [apply writes_bit|]. intros b. by destruct a. }
  assert (Hd64 : 0 < d < 2 ^ 64) by (pose proof (lxor_u64 v (ap_value a) Hv' Hv) as Hx;
    unfold is_u in Hx; fold d in Hx; lia).
  pose proof (fresh_window_ok d Hd64) as Hfw. unfold window_ok in *.
  cbv zeta. rewrite reuse_window_eq, clamp_min. cbn [orb].
  destruct (reuse_window a d) eqn:Hr.
  - apply reuse_window_true in Hr as (Hr1 & Hr2 & Hr3). split; [|intros b; by destruct a].
    unfold sig_bits. writes_tac.
  - split; [|done]. unfold sig_bits. writes_tac.
Qed.

Lemma write_dod_spec dd :
  writes (fun b =>
    if dd =? 0 then write_bit b false
    else if bit_range dd 14 then write_bits (write_bits b 2 2) (u64 dd) 14
    else if bit_range dd 17 then write_bits (write_bits b 6 3) (u64 dd) 17
    else if bit_range dd 20 then write_bits (write_bits b 14 4) (u64 dd) 20
    else write_bits (write_bits b 15 4) (u64 dd) 64) (dod_bits dd).
Proof.
  unfold dod_bits. destruct (dd =? 0); [apply writes_bit|].
  destruct (bit_range dd 14); [|destruct (bit_range dd 17); [|destruct (bit_range dd 20)]];
    match goal with |- writes _ (_ ++ bits_of ?n dd) => rewrite <- (bits_of_wrap n 64) by lia end.
  all: writes_tac.
Qed.

Lemma encode_signed_varint_ok v : bytes_ok (encode_signed_varint v).
Proof.
  unfold encode_signed_varint. rewrite encode_unsigned_varint_varint by apply zigzag_u64.
  apply varint_bytes_ok, zigzag_u64.
Qed.

(** A chunk under construction: [hdr] reserved bytes, the count [n], the body. *)
Definition chunk_at (b : BitStream) (hdr : list Z) (n : Z) (body : list bool) : Prop :=
  wr_at b (hdr ++ be_bytes 2 n) body /\ header_size b = Z.of_nat (length hdr) /\ is_u 16 n.

Lemma chunk_at_mem b hdr n body :
  chunk_at b hdr n body ->
  exists s pad, bytes_ptr b = be_bytes 2 n ++ s /\ bytes_bits s = body ++ pad /\ bytes_ok s
    /\ stream b = hdr ++ be_bytes 2 n ++ s.
Proof.
  intros [(Hv & Ht & He & s & Hs & Hok & Hb) [Hh Hn]]. exists s. eexists. unfold bytes_ptr.
  rewrite Hv, Hh, Hs, Nat2Z.id, <- app_assoc, drop_app_length. by split_and!.
Qed.

Lemma u16_be_bytes n : is_u 16 n -> Z.shiftl (u8 (Z.shiftr n 8)) 8 + u8 (Z.shiftr n 0) = n.
Proof.
  intros Hn. pose proof (be_val_be_bytes 2 n) as E. cbn [be_bytes] in E.
  change (8 * Z.of_nat 1) with 8 in E. change (8 * Z.of_nat 0) with 0 in E.
  rewrite wrap_id in E by exact Hn. etransitivity; [|exact E].
  unfold be_val. cbn [fold_left]. rewrite Z.shiftl_mul_pow2 by lia. lia.
Qed.

Lemma get_count `{PastEnd} n s :
  is_u 16 n -> get_uint16_big_endian (be_bytes 2 n ++ s) 0 = n.
Proof.
  intros Hn. unfold get_uint16_big_endian. cbn [be_bytes app].
  rewrite (peek_lookup _ 0 (u8 (Z.shiftr n 8))), (peek_lookup _ (0 + 1) (u8 (Z.shiftr n 0)))
    by done. by apply u16_be_bytes.
Qed.

Lemma put_count_spec b hdr n m body :
  chunk_at b hdr n body -> chunk_at (put_count b m) hdr (u16 m) body.
Proof.
  intros [(Hv & Ht & He & s & Hs & Hok & Hb) [Hh Hn]].
  split_and!; [|done|by apply wrap_range].
  rewrite (be_bytes_wrap 2 (u16 m) m) by apply wrap_wrap. rewrite <- app_assoc in Hs.
  assert (E : put_uint16_big_endian (stream b) (header_size b) m = hdr ++ be_bytes 2 m ++ s).
  { unfold put_uint16_big_endian. rewrite Hs, Hh.
    rewrite (poke_app_r _ _ 1) by lia.
    rewrite <- (Z.add_0_r (Z.of_nat (length hdr))), poke_app_r by lia.
    cbn [be_bytes app]. unfold poke. simpl. by rewrite !land_ff. }
  split; [done|]. split; [simpl; lia|]. split.
  - simpl. rewrite E, He, Hs, !size_of_app. done.
  - exists s. split_and!; [|done|exact Hb]. simpl. by rewrite E, <- app_assoc.
Qed.

Lemma writes_chunk f l b hdr n body :
  writes f l -> chunk_at b hdr n body -> chunk_at (f b) hdr n (body ++ l).
Proof. intros Hf [Hw [Hh Hn]]. destruct (Hf _ _ _ Hw). split_and!; [done|congruence|done]. Qed.

(** [append] adds the sample's bits and counts it. *)
Lemma append_spec `{PastEnd} b a hdr n body t v :
  chunk_at b hdr n body -> appender_ok a -> sample_ok (t, v) ->
  chunk_at (append b a t v).1 hdr (u16 (n + 1)) (body ++ sample_bits n a t v)
  /\ (append b a t v).2 = sample_next n a t v.
Proof.
  intros Hc Ha [Ht Hv]. pose proof (chunk_at_mem _ _ _ _ Hc) as (s & pad & Hp & _).
  pose proof Hc as (_ & _ & Hn16).
  destruct (write_delta_value_spec a v Ha Hv) as [Hw1 Hw2].
  unfold append, sample_bits, sample_next, sample_delta. rewrite Hp, get_count by done.
  destruct (Z.eqb_spec n 0) as [->|E0]; [|destruct (Z.eqb_spec n 1) as [->|E1]].
  - split; [|done]. apply (put_count_spec _ _ 0).
    apply (writes_chunk (fun b => write_bits (foldl write_byte b _) _ 64)); [|done].
    apply writes_then_bits; [apply writes_bytes, encode_signed_varint_ok|lia|done].
  - rewrite s64_u64. set (l1 := encode_signed_varint _).
    specialize (Hw2 (foldl write_byte b l1)).
    pose proof (writes_chunk _ _ _ _ _ _
      (writes_comp _ _ _ _ (writes_bytes l1 (encode_signed_varint_ok _)) Hw1) Hc) as Hc'.
    cbv beta in Hc'. destruct (write_delta_value _ a v) as [b' a']. simpl in *. subst a'.
    split; [|by destruct (value_window a v)]. by apply (put_count_spec _ _ 1).
  - cbv zeta. set (dd := s64 (u64 (t - ap_timestamp a) - ap_delta_timestamp a)).
    pose proof (writes_chunk _ _ _ _ _ _
      (writes_comp _ _ _ _ (write_dod_spec dd) Hw1) Hc) as Hc'. cbv beta in Hc'.
    match type of Hc' with context [write_delta_value ?b1 a v] =>
      specialize (Hw2 b1); destruct (write_delta_value b1 a v) as [b' a'] end.
    simpl in *. subst a'. split; [|by destruct (value_window a v)]. by apply (put_count_spec _ _ n).
Qed.

(** *** The iterator reads it back *)

Lemma sample_next_ok n a t v :
  appender_ok a -> sample_ok (t, v) -> appender_ok (sample_next n a t v).
Proof.
  intros (Ht & Hv & Hd & Hz) [Ht' Hv']. unfold sample_next, appender_ok, sample_delta.
  assert (Hdl : is_u64 (if n =? 0 then 0 else u64 (t - ap_timestamp a)))
    by (destruct (n =? 0); [unfold is_u; lia|by apply wrap_range]).
  destruct (Z.eqb_spec n 0); [by split_and!|]. unfold value_window.
  set (d := Z.lxor v (ap_value a)).
  assert (Hd64 : is_u64 d) by by apply lxor_u64. unfold is_u in Hd64.
  destruct (Z.eqb_spec d 0) as [E|E]; [by split_and!|]. simpl.
  destruct (reuse_window a d); split_and!; try done. right. apply fresh_window_ok. lia.
Qed.

Section Iterator.
Context `{PastEnd}.

(** The reader's window after a value, given the one before. *)
Definition reader_window (n : Z) (a : XORAppender) (w : Z * Z) (v : Z) : Z * Z :=
  let d := Z.lxor v (ap_value a) in
  if (n =? 0) || (d =? 0) || reuse_window a d then w else (Z.min 31 (clzll d), ctzll d).

(** The appender's window is the reader's, once it has one. *)
Definition same_window (a : XORAppender) (w : Z * Z) : Prop :=
  ap_leading_zero a = 255 \/ (ap_leading_zero a = w.1 /\ ap_trailing_zero a = w.2).

(** What the iterator knows after [n] samples is what the appender knew. *)
Definition synced (n : Z) (a : XORAppender) (w : Z * Z) (it : XORIterator) : Prop :=
  it_timestamp it = ap_timestamp a /\ it_value it = ap_value a /\
  it_delta_timestamp it = ap_delta_timestamp a /\ num_read it = n /\ err_ it = false /\
  it_leading_zero it = w.1 /\ it_trailing_zero it = w.2.

Definition facing (it : XORIterator) (l : list bool) : Prop :=
  rd_ok (it_bstream it) /\ rd_rest (it_bstream it) = l.

Lemma try_read_spec {A} (m : reading A) l v it fail k rest :
  consumes m l v -> facing it (l ++ rest) ->
  exists b, try_read it m fail k = k v (set_bstream it b) /\ facing (set_bstream it b) rest.
Proof.
  intros Hm [Hok Hr]. destruct (Hm _ _ Hok Hr) as (b & E & Hb & Hrb & _).
  exists b. unfold try_read. rewrite E. done.
Qed.

Lemma read_bits_of num v :
  0 <= num <= 64 -> is_u num v -> consumes (read_bits num) (bits_of (Z.to_nat num) v) v.
Proof.
  intros Hn Hv. pose proof (read_bits_spec (bits_of (Z.to_nat num) v)) as Hs.
  rewrite length_bits_of, Z_of_bits_of, Z2Nat.id, wrap_id in Hs by (done || lia).
  apply Hs. lia.
Qed.

Lemma read_sig_bits lz tz d :
  window_ok lz tz -> consumes (read_bits (64 - lz - tz)) (sig_bits lz tz d) (Z_of_bits (sig_bits lz tz d)).
Proof.
  intros (Hl & Ht & Hs). pose proof (read_bits_spec (sig_bits lz tz d)) as Hx.
  unfold sig_bits in Hx at 1 2. rewrite length_bits_of, Z2Nat.id in Hx by lia. apply Hx. lia.
Qed.

Lemma read_xor_spec it v d rest :
  window_ok (it_leading_zero it) (it_trailing_zero it) -> d = Z.lxor v (it_value it) ->
  0 < d < 2 ^ 64 -> it_leading_zero it <= clzll d -> it_trailing_zero it <= ctzll d ->
  facing it (sig_bits (it_leading_zero it) (it_trailing_zero it) d ++ rest) ->
  exists b, read_xor it = (true, got_value (set_bstream it b) v) /\ facing (set_bstream it b) rest.
Proof.
  intros Hw Ed Hd Hl Ht Hf. unfold read_xor.
  destruct (try_read_spec _ _ _ it id (fun bits it => (true, got_value it (decode_double
    (Z.lxor (encode_double (it_value it)) (u64 (Z.shiftl bits (it_trailing_zero it)))))))
    rest (read_sig_bits _ _ d Hw) Hf) as (b & E & Hb).
  exists b. split; [|done]. rewrite E. cbn [set_bstream it_value it_trailing_zero].
  rewrite sig_bits_value by done. unfold encode_double, decode_double.
  rewrite Ed, <- Z.lxor_assoc, (Z.lxor_comm _ v), Z.lxor_assoc, Z.lxor_nilpotent, Z.lxor_0_r. done.
Qed.

Lemma facing_same it it' l : it_bstream it' = it_bstream it -> facing it l -> facing it' l.
Proof. unfold facing. by intros ->. Qed.

(** A read step of the iterator against the bits in front of it. *)
Ltac read_step spec :=
  match goal with
  | Hf : facing ?it (_ ++ ?rest) |- context [try_read ?it _ ?fail ?k] =>
    let b := fresh "b" in let E := fresh "E" in let Hf' := fresh "Hf" in
    destruct (try_read_spec _ _ _ it fail k rest spec Hf) as (b & E & Hf'); clear Hf;
    rename Hf' into Hf; rewrite E; clear E; cbv beta iota
  end.

Lemma six_bits lz tz :
  window_ok lz tz ->
  let s := wrap 6 (64 - lz - tz) in (if u8 s =? 0 then 64 else u8 s) = 64 - lz - tz.
Proof.
  intros (Hl & Ht & Hs) s. assert (Hu : u8 s = s).
  { apply wrap_id. pose proof (wrap_range 6 (64 - lz - tz) ltac:(lia)). fold s in H0.
    unfold is_u in *. lia. }
  rewrite Hu. destruct (Z.eq_dec (lz + tz) 0).
  - assert (64 - lz - tz = 64) as Hq by lia. subst s. rewrite Hq. reflexivity.
  - subst s. rewrite wrap_id by (unfold is_u; lia). destruct (Z.eqb_spec (64 - lz - tz) 0); lia.
Qed.

Lemma read_value_spec n a w it v rest :
  synced n a w it -> same_window a w -> appender_ok a -> is_u64 v -> 1 <= n < 65535 ->
  facing it (value_bits a v ++ rest) ->
  exists it', read_value it = (true, it') /\ facing it' rest /\
    num_total it' = num_total it /\
    synced (n + 1) (mkXORAppender (ap_timestamp a) v (ap_delta_timestamp a)
                      (value_window a v).1 (value_window a v).2) (reader_window n a w v) it'.
Proof.
  intros (S1 & S2 & S3 & S4 & S5 & S6 & S7) Hsw (Ht & Hv & Hd & Hz) Hv' Hn Hf.
  assert (Hcnt : u16 (num_read it + 1) = n + 1)
    by (rewrite S4; apply wrap_id; unfold is_u; lia).
  unfold read_value, value_bits, value_window, reader_window in *.
  rewrite (proj2 (Z.eqb_neq n 0)) by lia. cbn [orb].
  set (d := Z.lxor v (ap_value a)) in *.
  destruct (Z.eqb_spec d 0) as [E|E].
  { read_step (read_bit_spec false). eexists. split; [done|]. split; [done|]. split; [done|].
    apply Z.lxor_eq in E. subst v. by split_and!. }
  assert (Hd64 : 0 < d < 2 ^ 64) by (pose proof (lxor_u64 v (ap_value a) Hv' Hv) as Hx;
    unfold is_u in Hx; fold d in Hx; lia).
  pose proof (fresh_window_ok d Hd64) as Hfw. cbn [orb]. destruct (reuse_window a d) eqn:Hr.
  - apply reuse_window_true in Hr as (Hr1 & Hr2 & Hr3).
    destruct Hsw as [|[W1 W2]]; [done|]. destruct Hz as [|Hz]; [done|].
    rewrite <- !app_assoc in Hf. read_step (read_bit_spec true). read_step (read_bit_spec false).
    match goal with |- context [read_xor ?i] => set (it2 := i) in * end.
    assert (L2 : it_leading_zero it2 = ap_leading_zero a) by (simpl; congruence).
    assert (T2 : it_trailing_zero it2 = ap_trailing_zero a) by (simpl; congruence).
    destruct (read_xor_spec it2 v d rest) as (b' & Eb & Hb'); rewrite ?L2, ?T2; try done; try lia.
    { simpl. by rewrite S2. }
    eexists. split; [exact Eb|]. split; [exact Hb'|]. split; [done|]. by split_and!.
  - rewrite <- !app_assoc in Hf. read_step (read_bit_spec true). read_step (read_bit_spec true).
    pose proof Hfw as (Hw1 & Hw2 & Hw3). set (lz := Z.min 31 (clzll d)) in *. set (tz := ctzll d) in *.
    read_step (read_bits_of 5 lz ltac:(lia) ltac:(unfold is_u; lia)).
    assert (Hu8 : u8 lz = lz) by (apply wrap_id; unfold is_u; lia). rewrite Hu8.
    match goal with |- context [set_window ?i lz ?z] => set (it3 := set_window i lz z) in * end.
    assert (Hf4 : facing it3 (bits_of 6 (64 - lz - tz) ++ sig_bits lz tz d ++ rest)) by done.
    clear Hf. rewrite <- (bits_of_wrap 6 6) in Hf4 by done.
    read_step (read_bits_of 6 (wrap 6 (64 - lz - tz)) ltac:(lia) ltac:(apply wrap_range; lia)).
    rewrite (six_bits lz tz Hfw).
    match goal with |- context [read_xor ?i] => set (it5 := i) in * end.
    assert (El5 : it_leading_zero it5 = lz) by done.
    assert (Et5 : it_trailing_zero it5 = tz).
    { subst it5. simpl. transitivity (u8 tz); [f_equal; lia|]. apply wrap_id. unfold is_u; lia. }
    destruct (read_xor_spec it5 v d rest) as (b' & Eb & Hb'); rewrite ?El5, ?Et5; try done; try lia.
    { simpl. by rewrite S2. }
    eexists. split; [exact Eb|]. split; [exact Hb'|]. split; [done|]. by split_and!.
Qed.

Lemma read_type_spec k rounds type :
  (k <= rounds)%nat ->
  consumes (read_type rounds type)
    (replicate k true ++ (if decide (k = rounds) then [] else [false]))
    (let type := Nat.iter k (fun t => Z.lor (u8 (Z.shiftl t 1)) 1) type in
     if decide (k = rounds) then type else u8 (Z.shiftl type 1)).
Proof.
  revert k type. induction rounds as [|rounds IH]; intros k type Hk; cbn [read_type].
  { replace k with 0%nat by lia. apply consumes_ret. }
  destruct k as [|k].
  - eapply consumes_bind_nil; [apply read_bit_spec|]. apply consumes_ret.
  - cbn [replicate app]. apply (consumes_bind _ _ [true]) with (v := true); [apply read_bit_spec|].
    specialize (IH k (Z.lor (u8 (Z.shiftl type 1)) 1) ltac:(lia)). cbv iota.
    rewrite Nat.iter_succ_r. destruct (decide (k = rounds)), (decide (S k = S rounds)); try lia; done.
Qed.

Lemma bit_range_spec dd n :
  1 <= n -> bit_range dd n = true <-> - (2 ^ (n - 1) - 1) <= dd <= 2 ^ (n - 1).
Proof.
  intros. unfold bit_range. rewrite Z.shiftl_1_l, andb_true_iff, !Z.leb_le. done.
Qed.

(** A delta of deltas in one of the short forms. *)
Lemma read_short_dod type dd :
  1 < dod_size type <= 20 -> type <> 15 -> bit_range dd (dod_size type) = true ->
  consumes (read_delta_delta type) (bits_of (Z.to_nat (dod_size type)) dd) dd.
Proof.
  intros Hs Ht Hr. apply bit_range_spec in Hr; [|lia]. unfold read_delta_delta.
  rewrite (proj2 (Z.eqb_neq _ _) Ht), (proj2 (Z.eqb_neq (dod_size type) 0)) by lia.
  set (n := dod_size type) in *.
  assert (Hp : 2 ^ n = 2 * 2 ^ (n - 1)) by (rewrite <- Z.pow_succ_r by lia; f_equal; lia).
  assert (Hp20 : 2 ^ n <= 2 ^ 20) by (apply Z.pow_le_mono_r; lia).
  rewrite <- (bits_of_wrap _ n) by lia.
  eapply consumes_bind_nil; [apply read_bits_of; [lia|apply wrap_range; lia]|].
  assert (Hw : s64 (wrap n dd) = wrap n dd).
  { apply swrap_id; [lia|]. pose proof (wrap_range n dd ltac:(lia)). unfold is_s, is_u in *. lia. }
  rewrite Hw, !Z.shiftl_1_l.
  replace (if _ : bool then _ else _) with dd; [apply consumes_ret|].
  destruct (Z.lt_ge_cases dd 0).
  - assert (E : wrap n dd = dd + 2 ^ n).
    { unfold wrap. symmetry. apply (Z.mod_unique_pos _ _ (-1)); lia. }
    rewrite E. destruct (Z.ltb_spec (2 ^ (n - 1)) (dd + 2 ^ n)); lia.
  - rewrite wrap_id by (unfold is_u; lia). destruct (Z.ltb_spec (2 ^ (n - 1)) dd); lia.
Qed.

Lemma read_dod_spec dd :
  is_s64 dd ->
  exists p l type, dod_bits dd = p ++ l /\ consumes (read_type 4 0) p type /\
    consumes (read_delta_delta type) l dd.
Proof.
  intros Hd. unfold dod_bits. destruct (Z.eqb_spec dd 0) as [->|E].
  { exists [false], [], 0. split_and!; [done|apply (read_type_spec 0); lia|apply consumes_ret]. }
  destruct (bit_range dd 14) eqn:E14; [|destruct (bit_range dd 17) eqn:E17;
    [|destruct (bit_range dd 20) eqn:E20]].
  - exists (bits_of 2 2), (bits_of 14 dd), 2.
    split_and!; [done|apply (read_type_spec 1); lia|by apply (read_short_dod 2)].
  - exists (bits_of 3 6), (bits_of 17 dd), 6.
    split_and!; [done|apply (read_type_spec 2); lia|by apply (read_short_dod 6)].
  - exists (bits_of 4 14), (bits_of 20 dd), 14.
    split_and!; [done|apply (read_type_spec 3); lia|by apply (read_short_dod 14)].
  - exists (bits_of 4 15), (bits_of 64 dd), 15.
    split_and!; [done|apply (read_type_spec 4); lia|]. unfold read_delta_delta. simpl (15 =? 15).
    cbv iota. rewrite <- (bits_of_wrap 64 64) by done.
    eapply consumes_bind_nil; [apply (read_bits_of 64); [lia|by apply wrap_range]|].
    replace dd with (s64 (wrap 64 dd)) at 2; [apply consumes_ret|].
    unfold s64. rewrite swrap_wrap. by apply swrap_id.
Qed.

(** [next] reads what [append] wrote. *)
Lemma next_spec n a w it t v rest :
  synced n a w it -> same_window a w -> appender_ok a -> sample_ok (t, v) -> 0 <= n < num_total it ->
  (n = 0 -> ap_delta_timestamp a = 0) ->
  num_total it <= 65535 -> facing it (sample_bits n a t v ++ rest) ->
  exists it', next it = (true, it') /\ facing it' rest /\ num_total it' = num_total it /\
    synced (n + 1) (sample_next n a t v) (reader_window n a w v) it'.
Proof.
  intros Hs Hsw Ha [Ht Hv] Hn Hd0 Htot Hf.
  pose proof Hs as (S1 & S2 & S3 & S4 & S5 & S6 & S7).
  pose proof Ha as (Hat & Hav & Had & Haz).
  unfold next. rewrite S5, S4. rewrite (proj2 (Z.eqb_neq n (num_total it))) by lia. simpl orb.
  unfold sample_bits in Hf. unfold sample_next, sample_delta.
  destruct (Z.eqb_spec n 0) as [->|E0]; [|destruct (Z.eqb_spec n 1) as [->|E1]].
  - cbv iota. rewrite <- app_assoc in Hf. read_step (read_signed_varint_spec t Ht).
    read_step (read_bits_of 64 v ltac:(lia) Hv).
    eexists. split_and!; try done. split_and!; simpl; try done; [|by rewrite S4].
    rewrite S3. by apply Hd0.
  - cbv iota. rewrite <- app_assoc in Hf. set (dt := s64 (t - ap_timestamp a)) in *.
    read_step (read_signed_varint_spec dt (swrap_range 64 (t - ap_timestamp a) ltac:(lia))).
    set (it1 := set_time _ _ _).
    assert (E1 : s64 (it_timestamp it + dt) = t).
    { apply (is_s_inj 64); [lia|by apply swrap_range|done|]. subst dt. unfold s64.
      rewrite wrap_swrap, <- wrap_add_r, wrap_swrap, wrap_add_r, S1 by lia. f_equal. lia. }
    destruct (read_value_spec 1 (mkXORAppender t (ap_value a) (u64 (t - ap_timestamp a))
      (ap_leading_zero a) (ap_trailing_zero a)) w it1 v rest) as (it' & H1 & H2 & H3 & H4);
      try done; try lia.
    + split_and!; try done. subst dt. apply u64_s64.
    + split_and!; try done. by apply wrap_range.
    + exists it'. rewrite H1. split_and!; try done. revert H4. unfold value_window, reuse_window.
      simpl. by destruct (_ || _).
  - cbv iota. rewrite <- app_assoc in Hf.
    set (delta := u64 (t - ap_timestamp a)) in *. set (dd := s64 (delta - ap_delta_timestamp a)) in *.
    destruct (read_dod_spec dd) as (p & l & type & E & Hp & Hl); [by apply swrap_range|].
    rewrite E, <- app_assoc in Hf. read_step Hp. read_step Hl.
    set (it1 := set_time _ _ _).
    assert (Ed : u64 (s64 (dd + s64 (it_delta_timestamp it))) = delta).
    { rewrite S3, u64_s64. subst dd. unfold u64, s64. rewrite <- wrap_add_r, wrap_swrap, wrap_add_r by lia.
      rewrite <- wrap_add_l, wrap_swrap, wrap_add_l by lia.
      replace (delta - ap_delta_timestamp a + ap_delta_timestamp a) with delta by lia.
      apply wrap_id. by apply wrap_range. }
    assert (Et : s64 (it_timestamp it + s64 delta) = t).
    { apply (is_s_inj 64); [lia|by apply swrap_range|done|]. subst delta. unfold s64, u64.
      rewrite swrap_wrap, wrap_swrap, <- wrap_add_r, wrap_swrap, wrap_add_r, S1 by lia. f_equal. lia. }
    destruct (read_value_spec n (mkXORAppender t (ap_value a) delta
      (ap_leading_zero a) (ap_trailing_zero a)) w it1 v rest) as (it' & H1 & H2 & H3 & H4);
      try done; try lia.
    + subst it1. unfold set_time. cbn [it_bstream set_bstream it_delta_timestamp it_timestamp] in *.
      split_and!; simpl; try done. by rewrite Ed.
    + split_and!; try done. by apply wrap_range.
    + exists it'. rewrite H1. split_and!; try done. revert H4. unfold value_window, reuse_window.
      simpl. by destruct (_ || _).
Qed.

Lemma same_window_next n a w t v :
  same_window a w -> same_window (sample_next n a t v) (reader_window n a w v).
Proof.
  unfold same_window, sample_next, reader_window, value_window. intros Hw.
  destruct (n =? 0); [done|]. simpl. destruct (_ || _); [done|]. right. done.
Qed.

Lemma reader_window_ok n a w v :
  is_u64 v -> is_u64 (ap_value a) -> window_ok w.1 w.2 ->
  window_ok (reader_window n a w v).1 (reader_window n a w v).2.
Proof.
  intros Hv Hav Hw. unfold reader_window. set (d := Z.lxor v (ap_value a)).
  pose proof (lxor_u64 v (ap_value a) Hv Hav) as Hd. fold d in Hd. unfold is_u in Hd.
  destruct (n =? 0); [done|]. destruct (Z.eqb_spec d 0); [done|]. simpl.
  destruct (reuse_window a d); [done|]. apply fresh_window_ok. lia.
Qed.

(** The iterator visits the samples, in order. *)
Fixpoint steps (it : XORIterator) (samples : list (Z * Z)) (it' : XORIterator) : Prop :=
  match samples with
  | [] => it' = it
  | s :: samples => exists it1, next it = (true, it1) /\ at_ it1 = s /\ steps it1 samples it'
  end.

Lemma steps_snoc it l it1 s it2 :
  steps it l it1 -> next it1 = (true, it2) -> at_ it2 = s -> steps it (l ++ [s]) it2.
Proof.
  revert it. induction l as [|x l IH]; intros it; simpl.
  - intros -> H1 H2. eauto.
  - intros (it3 & H1 & H2 & H3) H4 H5. eauto.
Qed.

Lemma drain_steps fuel it l it' :
  steps it l it' -> (length l < fuel)%nat -> (next it').1 = false ->
  (drain fuel it).1 = l /\ (drain fuel it).2 = (next it').2.
Proof.
  revert fuel it. induction l as [|s l IH]; intros fuel it; simpl.
  - intros -> Hf Hn. destruct fuel as [|fuel]; [lia|]. cbn [drain].
    destruct (next it) as [r it2]. simpl in *. by subst r.
  - intros (it1 & H1 & H2 & H3) Hf Hn. destruct fuel as [|fuel]; [lia|]. cbn [drain].
    rewrite H1. destruct (IH fuel it1 H3 ltac:(lia) Hn) as [E1 E2].
    destruct (drain fuel it1) as [l2 it2]. simpl in *. subst. done.
Qed.

Definition fresh_iterator (it : XORIterator) : Prop :=
  at_ it = (0, 0) /\ it_delta_timestamp it = 0 /\ it_leading_zero it = 0 /\
  it_trailing_zero it = 0 /\ num_read it = 0 /\ err_ it = false.

(** Every fresh iterator in front of [body] visits [samples] and then knows
    what [a] knows. *)
Definition reads_as (body : list bool) (samples : list (Z * Z)) (a : XORAppender) (w : Z * Z) : Prop :=
  forall it rest, fresh_iterator it -> Z.of_nat (length samples) <= num_total it <= 65535 ->
  facing it (body ++ rest) ->
  exists it', steps it samples it' /\ facing it' rest /\ num_total it' = num_total it /\
    synced (Z.of_nat (length samples)) a w it'.

(** A chunk that holds [samples], and an appender in step with it. *)
Definition holds (b : BitStream) (hdr : list Z) (samples : list (Z * Z)) (a : XORAppender)
    (w : Z * Z) : Prop :=
  exists body, chunk_at b hdr (Z.of_nat (length samples)) body /\ reads_as body samples a w /\
    appender_ok a /\ same_window a w /\ window_ok w.1 w.2 /\
    (samples = [] -> ap_delta_timestamp a = 0).

Lemma append_holds b hdr samples a w t v :
  holds b hdr samples a w -> sample_ok (t, v) -> Z.of_nat (length samples) < 65535 ->
  holds (append b a t v).1 hdr (samples ++ [(t, v)]) (append b a t v).2
    (reader_window (Z.of_nat (length samples)) a w v).
Proof.
  intros (body & Hc & Hr & Ha & Hsw & Hw & Hd) Hs Hn. set (n := Z.of_nat (length samples)) in *.
  destruct (append_spec b a hdr n body t v Hc Ha Hs) as [Hc' ->].
  unfold u16 in Hc'. rewrite wrap_id in Hc' by (unfold is_u; lia).
  assert (Hl : Z.of_nat (length (samples ++ [(t, v)])) = n + 1)
    by (rewrite length_app; simpl; lia).
  exists (body ++ sample_bits n a t v). rewrite Hl. split_and!.
  - done.
  - intros it rest Hf Ht Hface. rewrite <- app_assoc in Hface. rewrite Hl in *.
    destruct (Hr it _ Hf ltac:(lia) Hface) as (it1 & H1 & H2 & H3 & H4). fold n in H4.
    destruct (next_spec n a w it1 t v rest) as (it2 & E1 & E2 & E3 & E4); try done; try lia.
    { intros E. apply Hd. destruct samples; [done|simpl in *; lia]. }
    exists it2. split_and!; try done; [|congruence].
    eapply steps_snoc; [done|done|]. destruct E4 as (Q1 & Q2 & _). unfold at_. rewrite Q1, Q2.
    unfold sample_next. by destruct (if n =? 0 then _ else _).
  - by apply sample_next_ok.
  - by apply same_window_next.
  - apply reader_window_ok; [apply Hs|apply Ha|done].
  - by destruct samples.
Qed.

Lemma append_all_holds hdr samples : forall b a w old,
  holds b hdr old a w -> Forall sample_ok samples ->
  Z.of_nat (length old + length samples) <= 65535 ->
  exists w', holds (append_all b a samples).1 hdr (old ++ samples) (append_all b a samples).2 w'.
Proof.
  induction samples as [|[t v] samples IH]; intros b a w old Hh Hok Hl.
  - rewrite app_nil_r. eauto.
  - inversion Hok; subst. simpl length in Hl. unfold append_all. cbn [foldl].
    pose proof (append_holds b hdr old a w t v Hh ltac:(done) ltac:(lia)) as Hh'.
    destruct (append b a t v) as [b' a'].
    destruct (IH b' a' _ _ Hh') as (w' & Hw'); [done|rewrite length_app; simpl; lia|].
    exists w'. rewrite (cons_middle (t, v) old samples), app_assoc. exact Hw'.
Qed.

(** [memcpy] of a buffer and [k] bytes past its end. *)
Lemma copied_bytes l k :
  bytes_ok l ->
  exists g, map (peek l) (seqZ 0 (Z.of_nat (length l + k))) = l ++ g /\ bytes_ok g.
Proof.
  intros Hok. exists (map (peek l) (seqZ (Z.of_nat (length l)) (Z.of_nat k))).
  rewrite Nat2Z.inj_add, seqZ_app, map_app by lia. split.
  - f_equal. apply list_eq. intros i. rewrite list_lookup_fmap.
    destruct (decide (i < length l)%nat) as [Hi|Hi].
    + rewrite lookup_seqZ_lt by lia. simpl. destruct (lookup_lt_is_Some_2 l i Hi) as [x Hx].
      rewrite Hx. f_equal. apply peek_lookup; [lia|]. rewrite <- Hx. f_equal. lia.
    + rewrite lookup_seqZ_ge by lia. symmetry. apply lookup_ge_None. lia.
  - apply Forall_fmap, Forall_true. intros x. by apply peek_byte.
Qed.

(** An iterator opened on a count and a body, with [k] bytes more in its view,
    stands in front of the body. *)
Lemma iterator_facing b n s k body pad safe :
  is_u 16 n -> bytes_ptr b = be_bytes 2 n ++ s -> bytes_bits s = body ++ pad -> bytes_ok s ->
  bs_size b = Z.of_nat (k + (2 + length s)) ->
  fresh_iterator (xor_iterator_of b safe) /\ num_total (xor_iterator_of b safe) = n /\
  exists rest, facing (xor_iterator_of b safe) (body ++ rest).
Proof.
  intros Hn Hp Hb Hok Hsz. split; [by split_and!|]. split.
  { simpl. rewrite Hp, get_count by done. by apply wrap_id. }
  set (m := if safe then map (peek (bytes_ptr b)) (seqZ 0 (bs_size b)) else bytes_ptr b).
  assert (Hm : exists g, m = be_bytes 2 n ++ s ++ g /\ bytes_ok g).
  { subst m. destruct safe; [|exists []; by rewrite app_nil_r]. rewrite Hsz, Hp.
    destruct (copied_bytes (be_bytes 2 n ++ s) k) as (g & Eg & Hg).
    - apply Forall_app. split; [apply be_bytes_ok|done].
    - exists g. rewrite app_assoc, <- Eg. split; [|done]. do 2 f_equal.
      rewrite length_app, length_be_bytes. lia. }
  destruct Hm as (g & Hm & Hg).
  assert (Hmem : mem (it_bstream (xor_iterator_of b safe)) = m) by (by destruct safe).
  exists (pad ++ bytes_bits (take k g)). split.
  - split; [|split].
    + destruct safe; simpl; case_match; lia.
    + destruct safe; simpl; lia.
    + rewrite Hmem, Hm. repeat (apply Forall_app; split); try done. apply be_bytes_ok.
  - unfold rd_rest. rewrite Hmem, Hm.
    assert (He : Z.to_nat (end_ (it_bstream (xor_iterator_of b safe)))
                 = (2 + (length s + k))%nat).
    { destruct safe; simpl; [|lia]. unfold size_of. rewrite length_map, length_seqZ. lia. }
    assert (Hpos : rd_pos (it_bstream (xor_iterator_of b safe)) = (8 * 2)%nat).
    { unfold rd_pos. destruct safe; simpl;
        match goal with |- context [1 <=? ?x] => destruct (Z.leb_spec 1 x) as [|Hx]; [done|exfalso] end;
        revert Hx; unfold size_of; rewrite ?length_map, ?length_seqZ; lia. }
    rewrite He, Hpos, drop_bytes_bits.
    rewrite (take_app_add' _ _ 2) by (by rewrite length_be_bytes).
    rewrite (drop_app_length' _ _ 2) by (by rewrite length_be_bytes).
    rewrite take_app_add, bytes_bits_app, Hb, <- app_assoc. done.
Qed.

Lemma xor_iterator_facing b hdr n body safe :
  chunk_at b hdr n body ->
  fresh_iterator (xor_iterator_of b safe) /\ num_total (xor_iterator_of b safe) = n /\
  exists rest, facing (xor_iterator_of b safe) (body ++ rest).
Proof.
  intros Hc. destruct (chunk_at_mem _ _ _ _ Hc) as (s & pad & Hp & Hb & Hok & Hst).
  pose proof Hc as ((Hv & _) & Hh & Hn). apply (iterator_facing b n s (length hdr) body pad); try done.
  unfold bs_size, size_of. rewrite Hv, Hst, !length_app, length_be_bytes. lia.
Qed.

Lemma next_exhausted it n a w :
  synced n a w it -> n = num_total it -> next it = (false, it).
Proof.
  intros (_ & _ & _ & Hn & He & _) E. unfold next. rewrite He, Hn, E, Z.eqb_refl. done.
Qed.

(** Running an iterator in front of the whole body. *)
Lemma run_reads body samples a w it rest :
  reads_as body samples a w -> fresh_iterator it -> facing it (body ++ rest) ->
  num_total it = Z.of_nat (length samples) -> num_total it <= 65535 ->
  (run it).1 = samples /\ synced (Z.of_nat (length samples)) a w (run it).2.
Proof.
  intros Hr Hf Hface Hn Hmax.
  destruct (Hr it rest Hf ltac:(lia) Hface) as (it' & H1 & H2 & H3 & H4).
  assert (E : next it' = (false, it')) by (eapply next_exhausted; [done|lia]).
  unfold run. destruct (drain_steps (S (Z.to_nat (num_total it))) it samples it') as [E1 E2];
    [done|lia|by rewrite E|]. by rewrite E1, E2, E.
Qed.

Lemma holds_run b hdr samples a w safe :
  holds b hdr samples a w ->
  (run (xor_iterator_of b safe)).1 = samples /\
  synced (Z.of_nat (length samples)) a w (run (xor_iterator_of b safe)).2.
Proof.
  intros (body & Hc & Hr & _). pose proof Hc as (_ & _ & Hn). unfold is_u in Hn.
  destruct (xor_iterator_facing b hdr _ body safe Hc) as (Hf & Ht & rest & Hface).
  eapply run_reads; [done|done|done|done|lia].
Qed.

Lemma appender_holds c hdr samples a w :
  holds (bstream c) hdr samples a w -> read_mode c = false ->
  exists a', appender c = Some (AppenderOf a') /\ holds (bstream c) hdr samples a' w.
Proof.
  intros Hh Hm. destruct (holds_run _ _ _ _ _ false Hh) as [E1 Hs].
  destruct Hh as (body & Hc & Hr & (Ha1 & Ha2 & Ha3 & Ha4) & Hsw & Hw & Hd).
  pose proof Hc as (_ & _ & Hn). destruct (chunk_at_mem _ _ _ _ Hc) as (s & pad & Hp & _).
  pose proof Hs as (S1 & S2 & S3 & S4 & S5 & S6 & S7).
  unfold appender. rewrite Hm, Hp, get_count by done.
  destruct (run (xor_iterator_of (bstream c) false)) as [l it]. simpl in *. rewrite S5.
  eexists. split; [done|]. rewrite S1, S2, S3, S6, S7.
  set (lz := if _ =? 0 then 255 else _).
  exists body. split_and!; try done; try by split_and!.
  - split_and!; try done. simpl. subst lz. destruct (_ =? 0); [by left|by right].
  - unfold same_window. simpl. subst lz. destruct (_ =? 0); [by left|by right].
Qed.

Lemma append_batch_holds c hdr old a w samples :
  holds (bstream c) hdr old a w -> read_mode c = false -> Forall sample_ok samples ->
  Z.of_nat (length old + length samples) <= 65535 ->
  exists c' a' w', append_batch c samples = Some c' /\ read_mode c' = false /\
    holds (bstream c') hdr (old ++ samples) a' w'.
Proof.
  intros Hh Hm Hok Hl. destruct (appender_holds _ _ _ _ _ Hh Hm) as (a1 & E & Hh1).
  unfold append_batch. rewrite E, Hm.
  destruct (append_all_holds hdr samples _ _ _ _ Hh1 Hok Hl) as (w' & Hh2).
  do 3 eexists. split_and!; [done|done|exact Hh2].
Qed.

Definition first_appender : XORAppender := mkXORAppender 0 0 0 255 0.

Lemma fresh_holds h :
  0 <= h -> holds (bs_sized 2 h) (replicate (Z.to_nat h) 0) [] first_appender (0, 0).
Proof.
  intros Hh. exists []. split_and!; try done; try by left.
  - split; [|split; [simpl; rewrite length_replicate; lia|done]].
    split; [done|]. split; [simpl; lia|]. split.
    + simpl. unfold size_of. rewrite length_replicate. lia.
    + exists []. split_and!; [|done|done]. rewrite app_nil_r.
      replace (be_bytes 2 (Z.of_nat (length (@nil (Z * Z))))) with (replicate 2 0) by done.
      rewrite <- replicate_add. simpl. f_equal. lia.
  - intros it rest Hf Ht Hface. exists it. split_and!; try done.
    destruct Hf as (F1 & F2 & F3 & F4 & F5 & F6). unfold at_ in F1. by simplify_eq.
  - split_and!; simpl; unfold is_s, is_u; lia.
Qed.

End Iterator.

(** ** Properties of chunks *)

(** A writer's bit position counts the bits it holds. *)
Lemma write_pos_spec b pre l :
  wr_at b pre l -> write_pos b = Z.of_nat (8 * length pre + length l).
Proof.
  intros (Hv & Ht & He & s & Hs & Hok & Hb). unfold write_pos, bs_size. rewrite Hv, Hs, size_of_app.
  apply (f_equal length) in Hb. rewrite length_app, length_bytes_bits, length_replicate in Hb.
  unfold size_of. rewrite !Z.shiftl_mul_pow2 by lia. change (2 ^ 3) with 8.
  destruct (Z.eqb_spec (tail_count b) 0) as [E|E].
  - rewrite E in Hb. change (Z.to_nat ((8 - 0) mod 8)) with 0%nat in Hb. lia.
  - rewrite Z.mod_small in Hb by lia. lia.
Qed.

Lemma value_bits_length a v :
  appender_ok a -> is_u64 v -> (1 <= length (value_bits a v) <= 77)%nat.
Proof.
  intros (_ & Hv & _ & Hz) Hv'. unfold value_bits. set (d := Z.lxor v (ap_value a)).
  assert (Hd64 : is_u64 d) by by apply lxor_u64. unfold is_u in Hd64.
  destruct (Z.eqb_spec d 0); [simpl; lia|].
  pose proof (fresh_window_ok d ltac:(lia)) as (? & ? & ?). unfold sig_bits.
  destruct (reuse_window a d) eqn:Hr; rewrite !length_app, !length_bits_of; simpl length; [|lia].
  apply reuse_window_true in Hr as (Hr & _). destruct Hz as [|(? & ? & ?)]; [done|]. lia.
Qed.

Lemma dod_bits_length dd : (1 <= length (dod_bits dd) <= 68)%nat.
Proof. unfold dod_bits. repeat case_match; simpl length; rewrite ?length_app, ?length_bits_of; lia. Qed.

Lemma next_true `{PastEnd} it it' :
  next it = (true, it') ->
  num_read it <> num_total it /\ num_total it' = num_total it /\
  num_read it' = u16 (num_read it + 1).
Proof.
  assert (Hx : forall i i', read_xor i = (true, i') ->
    num_total i' = num_total i /\ num_read i' = u16 (num_read i + 1)).
  { intros i i'. unfold read_xor, try_read. destruct (read_bits _ _) as [[?|] ?]; by intros [= <-]. }
  assert (Hv : forall i i', read_value i = (true, i') ->
    num_total i' = num_total i /\ num_read i' = u16 (num_read i + 1)).
  { intros i i'. unfold read_value, try_read.
    repeat first [ progress intros [= <-]; done
                 | match goal with |- context [match ?m with (_, _) => _ end] =>
                     destruct m as [[[]|] ?] end
                 | intros Hr%Hx; exact Hr ]. }
  unfold next, try_read. destruct (err_ it); [done|].
  destruct (Z.eqb_spec (num_read it) (num_total it)); [done|]. cbn [orb].
  destruct (num_read it =? 0); [|destruct (num_read it =? 1)];
    repeat match goal with |- context [match ?m with (_, _) => _ end] => destruct m as [[?|] ?] end;
    intros Hr; simplify_eq; try apply Hv in Hr as [Hr1 Hr2]; done.
Qed.

(** [while (it->next())] ends: more rounds than samples announced change
    nothing. *)
Lemma drain_enough `{PastEnd} fuel it :
  0 <= num_read it <= num_total it -> num_total it <= 65535 ->
  (Z.to_nat (num_total it - num_read it) < fuel)%nat ->
  forall more, (fuel <= more)%nat -> drain more it = drain fuel it.
Proof.
  revert it. induction fuel as [|fuel IH]; intros it Hr Ht Hf more Hm; [lia|].
  destruct more as [|more]; [lia|]. cbn [drain]. destruct (next it) as [[|] it'] eqn:E; [|done].
  apply next_true in E as (E1 & E2 & E3). unfold u16 in E3. rewrite wrap_id in E3 by (unfold is_u; lia).
  rewrite (IH it') by lia. done.
Qed.

(** The batches of a client, each through an appender of its own. *)
Definition append_batches `{PastEnd} (c : XORChunk) (batches : list (list (Z * Z))) : option XORChunk :=
  foldl (fun oc batch => match oc with Some c => append_batch c batch | None => None end)
    (Some c) batches.

Lemma append_batches_hold `{PastEnd} batches : forall c hdr old a w,
  holds (bstream c) hdr old a w -> read_mode c = false -> Forall (Forall sample_ok) batches ->
  Z.of_nat (length old + length (concat batches)) <= 65535 ->
  exists c' a' w', append_batches c batches = Some c' /\ read_mode c' = false /\
    holds (bstream c') hdr (old ++ concat batches) a' w'.
Proof.
  unfold append_batches. induction batches as [|l batches IH]; intros c hdr old a w Hh Hm Hok Hl.
  - cbn [foldl concat]. rewrite app_nil_r. eauto 10.
  - inversion Hok; subst. cbn [foldl concat] in *. rewrite length_app in Hl.
    destruct (append_batch_holds c hdr old a w l) as (c' & a' & w' & E & Hm' & Hh'); try done; try lia.
    rewrite E, app_assoc. eapply IH; try done. rewrite length_app. lia.
Qed.

(** C11.  Whatever samples, 65535 at most, a client appends to a fresh chunk, in whatever
    batches, each batch through a newly opened appender, an iterator opened on
    the chunk, copying or in place, visits exactly those samples in order and
    reports no error; the chunk's counter is their number. *)
Theorem xor_chunk_round_trip `{PastEnd} h batches :
  0 <= h -> Forall (Forall sample_ok) batches ->
  Z.of_nat (length (concat batches)) <= 65535 ->
  exists c, append_batches (xor_chunk_header h) batches = Some c /\
    chunk_num_samples c = Z.of_nat (length (concat batches)) /\
    forall safe_mode, (run (xor_iterator_of (bstream c) safe_mode)).1 = concat batches /\
      err_ (run (xor_iterator_of (bstream c) safe_mode)).2 = false.
Proof.
  intros Hh Hok Hl.
  destruct (append_batches_hold batches (xor_chunk_header h) _ [] _ _ (fresh_holds h Hh))
    as (c & a & w & E & Hm & Hc); try done.
  exists c. split_and!; [done| |intros safe].
  - destruct Hc as (body & Hc & _). pose proof Hc as (_ & _ & Hn).
    destruct (chunk_at_mem _ _ _ _ Hc) as (s & pad & Hp & _).
    unfold chunk_num_samples, chunk_bytes. rewrite Hm, Hp. by apply get_count.
  - destruct (holds_run _ _ _ _ _ safe Hc) as [E1 (_ & _ & _ & _ & E2 & _)]. done.
Qed.

Lemma xor_chunk_round_trip_witness :
  exists c, append_batches (H := fun _ => 170) (xor_chunk_header 11)
              [[(1000, 5); (2000, 2 ^ 62)]; [(3001, 2 ^ 62 + 1); (-7, 0)]] = Some c /\
    chunk_num_samples (H := fun _ => 170) c = 4 /\
    forall safe_mode,
      (run (H := fun _ => 170) (xor_iterator_of (H := fun _ => 170) (bstream c) safe_mode)).1
      = [(1000, 5); (2000, 2 ^ 62); (3001, 2 ^ 62 + 1); (-7, 0)] /\
      err_ (run (H := fun _ => 170) (xor_iterator_of (H := fun _ => 170) (bstream c) safe_mode)).2 = false.
Proof.
  apply (@xor_chunk_round_trip (fun _ => 170) 11
    [[(1000, 5); (2000, 2 ^ 62)]; [(3001, 2 ^ 62 + 1); (-7, 0)]]).
  - lia.
  - repeat constructor; vm_compute; congruence.
  - vm_compute; congruence.
Defined.

(** The bytes of a chunk are enough to read it: a read-mode chunk over
    [bytes()] and [size()] of the written one, copied or not, yields the same
    samples. *)
Theorem xor_chunk_reopened `{PastEnd} h batches c copy :
  0 <= h -> Forall (Forall sample_ok) batches ->
  Z.of_nat (length (concat batches)) <= 65535 ->
  append_batches (xor_chunk_header h) batches = Some c ->
  let r := xor_chunk_of (chunk_bytes c) (chunk_size c) copy in
  (run (chunk_iterator r)).1 = concat batches /\ err_ (run (chunk_iterator r)).2 = false.
Proof.
  intros Hh Hok Hl Ec.
  destruct (append_batches_hold batches (xor_chunk_header h) _ [] _ _ (fresh_holds h Hh))
    as (c' & a & w & E & Hm & Hc); try done.
  rewrite Ec in E. injection E as <-. change ([] ++ concat batches) with (concat batches) in Hc.
  destruct Hc as (body & Hc & Hr & _).
  pose proof Hc as ((Hv & _) & Hhs & Hn). destruct (chunk_at_mem _ _ _ _ Hc) as (s & pad & Hp & Hb & Hs & Hst).
  set (l := be_bytes 2 (Z.of_nat (length (concat batches))) ++ s).
  assert (Hll : length l = (2 + length s)%nat) by (subst l; by rewrite length_app, length_be_bytes).
  assert (Hsz : chunk_size c = Z.of_nat (length l + 0)).
  { unfold chunk_size, bs_size, size_of. rewrite Hm, Hv, Hst, Hhs, !length_app, length_be_bytes. lia. }
  unfold chunk_bytes. rewrite Hm, Hp, Hsz. fold l. unfold chunk_iterator. simpl negb.
  set (r := xor_chunk_of _ _ _).
  assert (Hrp : bytes_ptr (bstream r) = l).
  { subst r. destruct copy; [|done]. unfold xor_chunk_of, bytes_ptr.
    cbn [bstream vector_mode bs_of_ptr stream_ptr].
    destruct (copied_bytes l 0) as (g & Eg & _).
    { apply Forall_app. split; [apply be_bytes_ok|done]. }
    rewrite Eg. apply (f_equal length) in Eg as El. rewrite length_map, length_seqZ, length_app in El.
    destruct g; [by rewrite app_nil_r|simpl in El; lia]. }
  destruct (iterator_facing (bstream r) _ s 0 body pad false Hn Hrp Hb Hs) as (Hf & Ht & rest & Hface).
  { transitivity (Z.of_nat (length l + 0)); [by destruct copy|]. rewrite Hll. lia. }
  unfold is_u in Hn.
  destruct (run_reads body (concat batches) a w _ rest Hr Hf Hface Ht ltac:(lia))
    as [E1 (_ & _ & _ & _ & E2 & _)]. done.
Qed.

Lemma xor_chunk_reopened_witness :
  let pe : PastEnd := fun _ => 170 in
  exists c, append_batches (xor_chunk_header 0) [[(10, 1); (20, 3)]; [(40, 3)]] = Some c /\
    let r := xor_chunk_of (chunk_bytes c) (chunk_size c) true in
    (run (chunk_iterator r)).1 = [(10, 1); (20, 3); (40, 3)] /\
    err_ (run (chunk_iterator r)).2 = false.
Proof.
  intros pe. eexists. split; [vm_compute; reflexivity|].
  apply (xor_chunk_reopened 0 [[(10, 1); (20, 3)]; [(40, 3)]]).
  - lia.
  - repeat constructor; vm_compute; congruence.
  - vm_compute; congruence.
  - vm_compute; reflexivity.
Defined.

(** Iterating any byte sequence ends: an iterator opened on any stream,
    corrupt or not, returns false from [next] after at most as many rounds as
    its header announces samples, so no further rounds add anything. *)
Theorem xor_iteration_terminates `{PastEnd} b safe_mode rounds :
  bytes_ok (bytes_ptr b) ->
  let it := xor_iterator_of b safe_mode in
  (Z.to_nat (num_total it) < rounds)%nat -> drain rounds it = run it.
Proof.
  intros Hb it Hr. assert (Ht : is_u 16 (num_total it)) by by apply wrap_range.
  unfold is_u in Ht. apply drain_enough; simpl num_read; lia.
Qed.

Lemma xor_iteration_terminates_witness :
  let pe : PastEnd := fun _ => 170 in
  drain 100 (xor_iterator_of (bs_of_ptr [0; 3; 129; 200] 4) false)
  = run (xor_iterator_of (bs_of_ptr [0; 3; 129; 200] 4) false).
Proof.
  intros pe. apply (xor_iteration_terminates (bs_of_ptr [0; 3; 129; 200] 4) false 100).
  - repeat constructor; vm_compute; congruence.
  - apply Nat.ltb_lt. vm_compute. reflexivity.
Defined.

(** From the third sample on, one sample takes between 2 and 145 bits: 1
    to 68 for the delta of deltas and 1 to 77 for the value, the bounds the
    format's description gives. *)
Theorem xor_sample_size `{PastEnd} b a hdr n body t v :
  chunk_at b hdr n body -> appender_ok a -> sample_ok (t, v) -> 2 <= n ->
  2 <= write_pos (append b a t v).1 - write_pos b <= 145.
Proof.
  intros Hc Ha Hs Hn. destruct (append_spec b a hdr n body t v Hc Ha Hs) as [[Hw _] _].
  destruct Hc as [Hw0 _]. rewrite (write_pos_spec _ _ _ Hw), (write_pos_spec _ _ _ Hw0).
  rewrite !length_app, !length_be_bytes. unfold sample_bits.
  rewrite (proj2 (Z.eqb_neq n 0)), (proj2 (Z.eqb_neq n 1)) by lia. rewrite length_app.
  pose proof (value_bits_length a v Ha (proj2 Hs)).
  pose proof (dod_bits_length (s64 (u64 (t - ap_timestamp a) - ap_delta_timestamp a))). lia.
Qed.

Lemma xor_sample_size_witness :
  let pe : PastEnd := fun _ => 170 in
  let b := mkBitStream [0; 2] [] 0 0 true 0 2 0 in
  let a := mkXORAppender 20 7 10 255 0 in
  2 <= write_pos (append b a 30 (2 ^ 63)).1 - write_pos b <= 145.
Proof.
  intros pe b a. apply (xor_sample_size b a [] 2 [] 30 (2 ^ 63)).
  - split; [|split; [reflexivity|vm_compute; split; congruence]]. split; [reflexivity|].
    split; [vm_compute; split; congruence|]. split; [reflexivity|].
    exists []. split_and!; [reflexivity|constructor|reflexivity].
  - split; [|split; [|split; [|by left]]]; vm_compute; split; congruence.
  - split; split; vm_compute; congruence.
  - lia.
Defined.

(** The counter has 16 bits and nothing guards it: the sample appended to
    a chunk of 65535 samples sets the counter to zero, and an iterator then
    visits nothing. *)
Theorem xor_count_wraps `{PastEnd} b hdr samples a w t v safe_mode :
  holds b hdr samples a w -> sample_ok (t, v) -> length samples = Z.to_nat 65535 ->
  let b' := (append b a t v).1 in
  chunk_num_samples (mkXORChunk b' false 0) = 0 /\
  (run (xor_iterator_of b' safe_mode)).1 = [].
Proof.
  intros (body & Hc & _ & Ha & _) Hs Hl b'. rewrite Hl, Z2Nat.id in Hc by lia.
  destruct (append_spec b a hdr 65535 body t v Hc Ha Hs) as [Hc' _].
  change (u16 (65535 + 1)) with 0 in Hc'.
  destruct (xor_iterator_facing _ _ _ _ safe_mode Hc') as ((_ & _ & _ & _ & Hr & He) & Ht & _).
  fold b' in Hr, He, Ht. split.
  - destruct (chunk_at_mem _ _ _ _ Hc') as (s & pad & Hp & _).
    unfold chunk_num_samples, chunk_bytes. simpl. fold b' in Hp. rewrite Hp. by apply get_count.
  - unfold run. rewrite Ht. cbn [Z.to_nat drain]. unfold next. by rewrite He, Hr, Ht.
Qed.

Lemma xor_count_wraps_witness :
  let pe : PastEnd := fun _ => 170 in
  exists b a, let b' := (append b a 1 1).1 in
    chunk_num_samples (mkXORChunk b' false 0) = 0 /\
    (run (xor_iterator_of b' true)).1 = [].
Proof.
  intros pe.
  assert (exists samples, Forall sample_ok samples /\ length samples = Z.to_nat 65535)
    as (samples & Hok & Hl).
  { exists (replicate (Z.to_nat 65535) (0, 0)). split; [|apply length_replicate].
    apply Forall_replicate. split; vm_compute; split; congruence. }
  destruct (append_all_holds (replicate (Z.to_nat 0) 0) samples _ _ _ [] (fresh_holds 0 ltac:(lia)))
    as (w & Hh); [done|rewrite Hl, Nat2Z.inj_add, Z2Nat.id by lia; vm_compute; congruence|].
  eexists _, _. apply (xor_count_wraps _ _ _ _ _ 1 1 true Hh).
  - split; vm_compute; split; congruence.
  - exact Hl.
Defined.
