(* ===== verification/MassTree.v ===== *)
(** third_party/masstree_wrapper/masstree_wrapper.hpp: the ordered index that
    maps packed keys to slabs.

    The tree under the wrapper is vendored code that is not part of the
    repository; it is an interface here.  [TreeOps] is what the wrapper calls,
    [TreeLaws] what those calls promise, and the wrapper's own functions are
    written on top.  [map_tree] is an instance: a finite map with sorted range
    reads. *)
From Stdlib Require Import ZArith Lia Bool.
From stdpp Require Import base list numbers option gmap sorting.
From S2P Require Import Prelude.

Class TreeOps (T V : Type) := {
  tr_find : T -> list Z -> option V;
  tr_set : T -> list Z -> V -> T;
  tr_remove : T -> list Z -> T;
  (** Every entry whose key is not below the bound, in key order. *)
  tr_from : T -> list Z -> list (list Z * V) }.

Definition key_le (a b : list Z) : Prop := bytes_ltb b a = false.

Class TreeLaws (T V : Type) `{TreeOps T V} := {
  find_set : forall t k v k', tr_find (tr_set t k v) k' = if decide (k = k') then Some v else tr_find t k';
  find_remove : forall t k k', tr_find (tr_remove t k) k' = if decide (k = k') then None else tr_find t k';
  from_sorted : forall t lo, StronglySorted key_le (map fst (tr_from t lo));
  from_spec : forall t lo k v, (k, v) ∈ tr_from t lo <-> tr_find t k = Some v /\ key_le lo k }.

Section Wrapper.
Context {T V : Type} `{TreeOps T V}.

(** [insert_value] does not replace an entry that is there. *)
Definition insert_value (t : T) (key : list Z) (value : V) : bool * T :=
  match tr_find t key with
  | Some _ => (false, t)
  | None => (true, tr_set t key value)
  end.

Definition get_value (t : T) (key : list Z) : option V := tr_find t key.

Definition update_value (t : T) (key : list Z) (value : V) : bool * T :=
  match tr_find t key with
  | Some _ => (true, tr_set t key value)
  | None => (false, t)
  end.

Definition remove_value (t : T) (key : list Z) : bool * T :=
  match tr_find t key with
  | Some _ => (true, tr_remove t key)
  | None => (false, t)
  end.

(** [visit_value]: whether a key is below the end key. *)
Definition below_end (rkey : list Z) (r_exclusive : bool) (key : list Z) : bool :=
  bytes_ltb key rkey || (bool_decide (key = rkey) && negb r_exclusive).

(** The entries [per_kv_func] sees: the scan stops at the first key past the
    end.  [l_exclusive] leaves out an entry equal to the start key. *)
Fixpoint take_below (rkey : list Z) (r_exclusive : bool) (l : list (list Z * V)) : list (list Z * V) :=
  match l with
  | [] => []
  | (k, v) :: l => if below_end rkey r_exclusive k then (k, v) :: take_below rkey r_exclusive l else []
  end.

Definition scan (t : T) (lkey : list Z) (l_exclusive : bool) (rkey : list Z) (r_exclusive : bool)
    : list (list Z * V) :=
  let l := tr_from t lkey in
  let l := match l with
           | (k, _) :: l' => if l_exclusive && bool_decide (k = lkey) then l' else l
           | [] => []
           end in
  take_below rkey r_exclusive l.

End Wrapper.

(** ** Order of keys *)

Lemma key_le_lt_trans a b c : key_le a b -> bytes_ltb b c = true -> bytes_ltb a c = true.
Proof.
  unfold key_le. intros H1 H2. destruct (bytes_ltb a c) eqn:E; [done|].
  destruct (bytes_ltb a b) eqn:E2; [by rewrite (bytes_ltb_trans _ _ _ E2 H2) in E|].
  rewrite (bytes_ltb_total _ _ E2 H1) in E. congruence.
Qed.

(** ** Laws of the wrapper *)

Section WrapperLaws.
Context {T V : Type} `{TreeLaws T V}.

Lemma find_insert t k v k' :
  tr_find (insert_value t k v).2 k' =
  if decide (k = k') then Some (default v (tr_find t k)) else tr_find t k'.
Proof.
  unfold insert_value. destruct (tr_find t k) as [w|] eqn:E; simpl.
  - by case_decide; subst.
  - rewrite find_set. by case_decide.
Qed.

Lemma find_update t k v k' :
  tr_find (update_value t k v).2 k' =
  if decide (k = k') then (fun _ => v) <$> tr_find t k else tr_find t k'.
Proof.
  unfold update_value. destruct (tr_find t k) as [w|] eqn:E; simpl.
  - rewrite find_set. by case_decide; subst.
  - by case_decide; subst.
Qed.

Lemma find_removed t k k' :
  tr_find (remove_value t k).2 k' = if decide (k = k') then None else tr_find t k'.
Proof.
  unfold remove_value. destruct (tr_find t k) as [w|] eqn:E; simpl.
  - rewrite find_remove. by case_decide.
  - by case_decide; subst.
Qed.

Lemma take_below_spec rkey l k (v : V) :
  StronglySorted key_le (map fst l) ->
  (k, v) ∈ take_below rkey true l <-> (k, v) ∈ l /\ bytes_ltb k rkey = true.
Proof.
  induction l as [|[k0 v0] l IH]; intros Hs; simpl.
  - split; [by intros ?%elem_of_nil|]. by intros [?%elem_of_nil _].
  - inversion Hs as [|? ? Hs' Hall]; subst. unfold below_end.
    rewrite andb_false_r, orb_false_r. destruct (bytes_ltb k0 rkey) eqn:E.
    + rewrite !elem_of_cons, IH by done. split.
      * intros [[= -> ->]|[? ?]]; [by split; [left|]|by split; [right|]].
      * intros [[?|?] ?]; [by left|by right].
    + split; [by intros ?%elem_of_nil|]. intros [Hin Hlt].
      apply elem_of_cons in Hin as [[= -> ->]|Hin]; [congruence|].
      assert (Hk : key_le k0 k).
      { rewrite Forall_forall in Hall. apply (Hall k), list_elem_of_In.
        apply list_elem_of_In in Hin. apply (in_map fst _ _ Hin). }
      by rewrite (key_le_lt_trans _ _ _ Hk Hlt) in E.
Qed.

(** A scan from an inclusive start to an exclusive end visits exactly the
    entries in between. *)
Lemma scan_spec t lo hi k v :
  (k, v) ∈ scan t lo false hi true <->
  tr_find t k = Some v /\ key_le lo k /\ bytes_ltb k hi = true.
Proof.
  unfold scan. assert (E : match tr_from t lo with
    | (k, _) :: l' => if false && bool_decide (k = lo) then l' else tr_from t lo
    | [] => [] end = tr_from t lo) by (by destruct (tr_from t lo) as [|[? ?] ?]).
  rewrite E, take_below_spec, from_spec by apply from_sorted. tauto.
Qed.

Lemma scan_sorted t lo hi : StronglySorted key_le (map fst (scan t lo false hi true)).
Proof.
  unfold scan. assert (E : match tr_from t lo with
    | (k, _) :: l' => if false && bool_decide (k = lo) then l' else tr_from t lo
    | [] => [] end = tr_from t lo) by (by destruct (tr_from t lo) as [|[? ?] ?]).
  rewrite E. pose proof (from_sorted t lo) as Hs. clear E. revert Hs.
  generalize (tr_from t lo) as l. intros l. induction l as [|[k v] l IH]; simpl; intros Hs.
  - constructor.
  - inversion Hs as [|? ? Hs' Hall]; subst. destruct (below_end hi true k); [|constructor].
    simpl. constructor; [by apply IH|].
    clear - Hall. induction l as [|[k1 v1] l IHl]; simpl; [constructor|].
    inversion Hall; subst. destruct (below_end hi true k1); simpl; constructor; auto.
Qed.

End WrapperLaws.

(** ** A finite map as a tree *)

Definition entry_le {V} (a b : list Z * V) : Prop := key_le a.1 b.1.

#[export] Instance entry_le_dec {V} (a b : list Z * V) : Decision (entry_le a b).
Proof. unfold entry_le, key_le. apply _. Defined.

#[export] Instance entry_le_total {V} : Total (@entry_le V).
Proof.
  intros a b. unfold entry_le, key_le. destruct (bytes_ltb b.1 a.1) eqn:E; [right|by left].
  by apply bytes_ltb_asym.
Qed.

#[export] Instance entry_le_trans {V} : Transitive (@entry_le V).
Proof.
  intros a b c H1 H2. unfold entry_le, key_le in *.
  destruct (bytes_ltb c.1 a.1) eqn:E; [|done].
  by rewrite (key_le_lt_trans b.1 c.1 a.1 H2 E) in H1.
Qed.

#[export] Instance map_tree V : TreeOps (gmap (list Z) V) V := {|
  tr_find t k := t !! k;
  tr_set t k v := <[k := v]> t;
  tr_remove t k := delete k t;
  tr_from t lo := merge_sort entry_le (filter (fun e => bytes_ltb e.1 lo = false) (map_to_list t)) |}.

#[export] Instance map_tree_laws V : TreeLaws (gmap (list Z) V) V.
Proof.
  split.
  - intros t k v k'. simpl. case_decide; subst; [by rewrite lookup_insert_eq|by rewrite lookup_insert_ne].
  - intros t k k'. simpl. case_decide; subst; [by rewrite lookup_delete_eq|by rewrite lookup_delete_ne].
  - intros t lo. simpl. set (l := filter _ _).
    pose proof (StronglySorted_merge_sort entry_le l) as Hs.
    induction Hs as [|e l' Hs IH Hall]; simpl; constructor; [done|].
    apply Forall_fmap. eapply Forall_impl; [done|]. intros e' He. exact He.
  - intros t lo k v. simpl. rewrite merge_sort_Permutation, list_elem_of_filter, elem_of_map_to_list.
    unfold key_le. simpl. tauto.
Qed.
