(* ===== verification/SlabStore.v ===== *)
(** TreeSeries/TreeSeries.{h,cpp} and TreeSeries/slab.h: the slab store, its
    state, its slab bookkeeping and the path that writes a chunk.

    Slab memory ([mstart_]) and the SSD file are flat byte lists.  A
    [SlabInfo*] is [MemRef i] or [DiskRef i], the address of [mstable_[i]] or
    [dstable_[i]].  The lock-free queues are lists, oldest element first; the
    atomic counters are 32-bit.  Every operation holds the mutex of its slab
    class (or runs on the single flushing thread), so it is one step here. *)
From Stdlib Require Import ZArith Lia Bool.
From stdpp Require Import base list numbers option gmap.
From S2P Require Import Prelude Coding MassTree.

Definition CX_NUM : Z := 100.
Definition CY_NUM : Z := 10000.
Definition MAX_SERIES_NUM : Z := 16.
Definition SLAB_ITEM_SIZE : Z := 256.
Definition CHUNK_SIZE : Z := 248.
Definition SLAB_SIZE : Z := 4 * 1024.
Definition UINT32_MAX : Z := 2 ^ 32 - 1.

Record SlabInfo := mkSlabInfo {
  cid_x_ : Z;
  cid_y_ : Z;
  slab_id_ : Z;
  source_id_ : list Z;
  metric_id_ : list Z;
  start_time_ : list Z;
  end_time_ : list Z;
  nalloc_ : Z;
  mem_ : bool;
  free_ : bool;
  idx_ : Z }.

Record SlabClass := mkSlabClass {
  class_source_id_ : Z;
  class_metric_id_ : Z;
  class_slab_id_ : Z;
  txn_ : list Z }.

Inductive SlabRef :=
  | MemRef (i : Z)
  | DiskRef (i : Z).

#[export] Instance SlabRef_eq_dec : EqDecision SlabRef.
Proof. solve_decision. Defined.

Record Queues := mkQueues {
  free_msinfoq_ : list Z;
  full_msinfoq_ : list Z;
  free_dsinfoq_ : list Z;
  used_dsinfoq_ : list Z;
  mem_evict_sinfoq_ : list (Z * Z);
  disk_evict_sinfoq_ : list Z;
  free_bsinfoq_ : list Z }.

Record Counters := mkCounters {
  nfree_msinfoq_ : Z;
  nused_msinfoq_ : Z;
  nfull_msinfoq_ : Z;
  nfree_dsinfoq_ : Z;
  nused_dsinfoq_ : Z;
  n_mem_evict_sinfo_ : Z;
  n_disk_evict_sinfo_ : Z;
  nfree_bsinfo_ : Z }.

Record Setting := mkSetting {
  nmslab_ : Z;
  ndslab_ : Z;
  nbuf_slab_ : Z;
  write_batch_size_ : Z;
  migrate_batch_size_ : Z }.

Record TreeSeries {T : Type} := mkTreeSeries {
  setting_ : Setting;
  mstart_ : list Z;
  ssd_ : list Z;
  info_ : list SlabInfo;
  mstable_ : list SlabInfo;
  dstable_ : list SlabInfo;
  ctable : gmap (Z * Z) SlabClass;
  mass_tree_ : T;
  queues : Queues;
  counters : Counters }.
Arguments TreeSeries : clear implicits.
Arguments mkTreeSeries {T}.

(** ** Field updates *)

Definition set_ids (s : SlabInfo) (i src met : Z) : SlabInfo :=
  mkSlabInfo (cid_x_ s) (cid_y_ s) (slab_id_ s) (poke (source_id_ s) i src)
    (poke (metric_id_ s) i met) (start_time_ s) (end_time_ s) (nalloc_ s) (mem_ s) (free_ s) (idx_ s).

Definition set_start (s : SlabInfo) (i t : Z) : SlabInfo :=
  mkSlabInfo (cid_x_ s) (cid_y_ s) (slab_id_ s) (source_id_ s) (metric_id_ s)
    (poke (start_time_ s) i t) (end_time_ s) (nalloc_ s) (mem_ s) (free_ s) (idx_ s).

Definition set_end (s : SlabInfo) (i t : Z) : SlabInfo :=
  mkSlabInfo (cid_x_ s) (cid_y_ s) (slab_id_ s) (source_id_ s) (metric_id_ s) (start_time_ s)
    (poke (end_time_ s) i t) (nalloc_ s) (mem_ s) (free_ s) (idx_ s).

Definition set_cid (s : SlabInfo) (x y : Z) : SlabInfo :=
  mkSlabInfo x y (slab_id_ s) (source_id_ s) (metric_id_ s) (start_time_ s) (end_time_ s)
    (nalloc_ s) (mem_ s) (free_ s) (idx_ s).

Definition set_free (s : SlabInfo) (b : bool) : SlabInfo :=
  mkSlabInfo (cid_x_ s) (cid_y_ s) (slab_id_ s) (source_id_ s) (metric_id_ s) (start_time_ s)
    (end_time_ s) (nalloc_ s) (mem_ s) b (idx_ s).

Definition set_nalloc (s : SlabInfo) (n : Z) : SlabInfo :=
  mkSlabInfo (cid_x_ s) (cid_y_ s) (slab_id_ s) (source_id_ s) (metric_id_ s) (start_time_ s)
    (end_time_ s) n (mem_ s) (free_ s) (idx_ s).

Definition set_idx (s : SlabInfo) (i : Z) : SlabInfo :=
  mkSlabInfo (cid_x_ s) (cid_y_ s) (slab_id_ s) (source_id_ s) (metric_id_ s) (start_time_ s)
    (end_time_ s) (nalloc_ s) (mem_ s) (free_ s) i.

(** [for (uint8_t i = 0; i < n; i++) a[i] = 0] *)
Definition zero_first (n : Z) (a : list Z) : list Z :=
  replicate (Nat.min (Z.to_nat n) (length a)) 0 ++ drop (Z.to_nat n) a.

(** [FreeSlab] *)
Definition FreeSlab (s : SlabInfo) : SlabInfo :=
  mkSlabInfo (cid_x_ s) (cid_y_ s) (slab_id_ s) (zero_first (idx_ s) (source_id_ s))
    (zero_first (idx_ s) (metric_id_ s)) (zero_first (idx_ s) (start_time_ s))
    (zero_first (idx_ s) (end_time_ s)) 0 (mem_ s) true 0.

(** [for (uint8_t i = 0; i < n; i++) d[i] = s[i]] *)
Definition copy_first (n : Z) (d s : list Z) : list Z :=
  take (Z.to_nat n) s ++ drop (Z.to_nat n) d.

(** [CopyInfo]: everything but the slab's own id and its [mem_] and [free_]
    flags. *)
Definition CopyInfo (d s : SlabInfo) : SlabInfo :=
  mkSlabInfo (cid_x_ s) (cid_y_ s) (slab_id_ d)
    (copy_first (idx_ s) (source_id_ d) (source_id_ s))
    (copy_first (idx_ s) (metric_id_ d) (metric_id_ s))
    (copy_first (idx_ s) (start_time_ d) (start_time_ s))
    (copy_first (idx_ s) (end_time_ d) (end_time_ s))
    (nalloc_ s) (mem_ d) (free_ d) (idx_ s).

(** A fresh entry of [mstable_] or [dstable_]; the pages are zero. *)
Definition fresh_info (mem : bool) (i : Z) : SlabInfo :=
  mkSlabInfo 0 0 i (replicate 16 0) (replicate 16 0) (replicate 16 0) (replicate 16 0) 0 mem true 0.

(** [InitCtable]'s entry for [ctable[i][j]]. *)
Definition init_class (i j : Z) : SlabClass := mkSlabClass j i UINT32_MAX (replicate 16 0).

(** [for (i < MAX_SERIES_NUM)]-style access to the arrays of 16. *)
Definition arr (l : list Z) (i : Z) : Z := nth (Z.to_nat i) l 0.

Section Store.
Context {T : Type} `{TreeOps T SlabRef}.
Implicit Types st : TreeSeries T.

(** ** State access *)

Definition class_of (st : TreeSeries T) (x y : Z) : SlabClass :=
  default (init_class x y) (ctable st !! (x, y)).

Definition minfo (st : TreeSeries T) (i : Z) : SlabInfo :=
  default (fresh_info true i) (mstable_ st !! Z.to_nat i).
Definition dinfo (st : TreeSeries T) (i : Z) : SlabInfo :=
  default (fresh_info false i) (dstable_ st !! Z.to_nat i).
Definition info_at (st : TreeSeries T) (r : SlabRef) : SlabInfo :=
  match r with MemRef i => minfo st i | DiskRef i => dinfo st i end.

Definition set_minfo (st : TreeSeries T) (i : Z) (s : SlabInfo) : TreeSeries T :=
  mkTreeSeries (setting_ st) (mstart_ st) (ssd_ st) (info_ st) (<[Z.to_nat i := s]> (mstable_ st))
    (dstable_ st) (ctable st) (mass_tree_ st) (queues st) (counters st).
Definition set_dinfo (st : TreeSeries T) (i : Z) (s : SlabInfo) : TreeSeries T :=
  mkTreeSeries (setting_ st) (mstart_ st) (ssd_ st) (info_ st) (mstable_ st)
    (<[Z.to_nat i := s]> (dstable_ st)) (ctable st) (mass_tree_ st) (queues st) (counters st).
Definition set_class (st : TreeSeries T) (x y : Z) (c : SlabClass) : TreeSeries T :=
  mkTreeSeries (setting_ st) (mstart_ st) (ssd_ st) (info_ st) (mstable_ st) (dstable_ st)
    (<[(x, y) := c]> (ctable st)) (mass_tree_ st) (queues st) (counters st).
Definition set_tree (st : TreeSeries T) (t : T) : TreeSeries T :=
  mkTreeSeries (setting_ st) (mstart_ st) (ssd_ st) (info_ st) (mstable_ st) (dstable_ st) (ctable st) t
    (queues st) (counters st).
Definition set_queues (st : TreeSeries T) (q : Queues) : TreeSeries T :=
  mkTreeSeries (setting_ st) (mstart_ st) (ssd_ st) (info_ st) (mstable_ st) (dstable_ st) (ctable st)
    (mass_tree_ st) q (counters st).
Definition set_counters (st : TreeSeries T) (n : Counters) : TreeSeries T :=
  mkTreeSeries (setting_ st) (mstart_ st) (ssd_ st) (info_ st) (mstable_ st) (dstable_ st) (ctable st)
    (mass_tree_ st) (queues st) n.
Definition set_mstart (st : TreeSeries T) (m : list Z) : TreeSeries T :=
  mkTreeSeries (setting_ st) m (ssd_ st) (info_ st) (mstable_ st) (dstable_ st) (ctable st) (mass_tree_ st)
    (queues st) (counters st).
Definition set_ssd (st : TreeSeries T) (m : list Z) : TreeSeries T :=
  mkTreeSeries (setting_ st) (mstart_ st) m (info_ st) (mstable_ st) (dstable_ st) (ctable st)
    (mass_tree_ st) (queues st) (counters st).

Definition set_class_slab (c : SlabClass) (sid : Z) : SlabClass :=
  mkSlabClass (class_source_id_ c) (class_metric_id_ c) sid (txn_ c).
Definition set_txn (c : SlabClass) (i txn : Z) : SlabClass :=
  mkSlabClass (class_source_id_ c) (class_metric_id_ c) (class_slab_id_ c) (poke (txn_ c) i txn).

(** Counter changes: free, used, full, evicted memory slabs; free, used,
    evicted disk slabs. *)
Definition count_mem (st : TreeSeries T) (df du dl de : Z) : TreeSeries T :=
  let n := counters st in
  set_counters st (mkCounters (u32 (nfree_msinfoq_ n + df)) (u32 (nused_msinfoq_ n + du))
    (u32 (nfull_msinfoq_ n + dl)) (nfree_dsinfoq_ n) (nused_dsinfoq_ n)
    (u32 (n_mem_evict_sinfo_ n + de)) (n_disk_evict_sinfo_ n) (nfree_bsinfo_ n)).
Definition count_disk (st : TreeSeries T) (df du de : Z) : TreeSeries T :=
  let n := counters st in
  set_counters st (mkCounters (nfree_msinfoq_ n) (nused_msinfoq_ n) (nfull_msinfoq_ n)
    (u32 (nfree_dsinfoq_ n + df)) (u32 (nused_dsinfoq_ n + du)) (n_mem_evict_sinfo_ n)
    (u32 (n_disk_evict_sinfo_ n + de)) (nfree_bsinfo_ n)).

Definition set_free_msinfoq (q : Queues) (l : list Z) : Queues :=
  mkQueues l (full_msinfoq_ q) (free_dsinfoq_ q) (used_dsinfoq_ q) (mem_evict_sinfoq_ q)
    (disk_evict_sinfoq_ q) (free_bsinfoq_ q).
Definition set_full_msinfoq (q : Queues) (l : list Z) : Queues :=
  mkQueues (free_msinfoq_ q) l (free_dsinfoq_ q) (used_dsinfoq_ q) (mem_evict_sinfoq_ q)
    (disk_evict_sinfoq_ q) (free_bsinfoq_ q).
Definition set_free_dsinfoq (q : Queues) (l : list Z) : Queues :=
  mkQueues (free_msinfoq_ q) (full_msinfoq_ q) l (used_dsinfoq_ q) (mem_evict_sinfoq_ q)
    (disk_evict_sinfoq_ q) (free_bsinfoq_ q).
Definition set_used_dsinfoq (q : Queues) (l : list Z) : Queues :=
  mkQueues (free_msinfoq_ q) (full_msinfoq_ q) (free_dsinfoq_ q) l (mem_evict_sinfoq_ q)
    (disk_evict_sinfoq_ q) (free_bsinfoq_ q).
Definition set_mem_evict (q : Queues) (l : list (Z * Z)) : Queues :=
  mkQueues (free_msinfoq_ q) (full_msinfoq_ q) (free_dsinfoq_ q) (used_dsinfoq_ q) l
    (disk_evict_sinfoq_ q) (free_bsinfoq_ q).
Definition set_disk_evict (q : Queues) (l : list Z) : Queues :=
  mkQueues (free_msinfoq_ q) (full_msinfoq_ q) (free_dsinfoq_ q) (used_dsinfoq_ q)
    (mem_evict_sinfoq_ q) l (free_bsinfoq_ q).
Definition set_free_bsinfoq (q : Queues) (l : list Z) : Queues :=
  mkQueues (free_msinfoq_ q) (full_msinfoq_ q) (free_dsinfoq_ q) (used_dsinfoq_ q)
    (mem_evict_sinfoq_ q) (disk_evict_sinfoq_ q) l.
Definition count_buf (st : TreeSeries T) (d : Z) : TreeSeries T :=
  let n := counters st in
  set_counters st (mkCounters (nfree_msinfoq_ n) (nused_msinfoq_ n) (nfull_msinfoq_ n)
    (nfree_dsinfoq_ n) (nused_dsinfoq_ n) (n_mem_evict_sinfo_ n) (n_disk_evict_sinfo_ n)
    (u32 (nfree_bsinfo_ n + d))).
Definition set_info (st : TreeSeries T) (l : list SlabInfo) : TreeSeries T :=
  mkTreeSeries (setting_ st) (mstart_ st) (ssd_ st) l (mstable_ st) (dstable_ st) (ctable st)
    (mass_tree_ st) (queues st) (counters st).

(** ** Construction *)

(** The state the constructor leaves: [InitCtable] and [InitStable] on
    [nmslab_] memory and [ndslab_] disk slabs.  The batch sizes are those the
    constructor derives from the slab counts; [info] is what the slab-info
    file holds and the SSD is taken as zero. *)
Definition init_store (empty : T) (info : list SlabInfo) (nm nd nbuf : Z) : TreeSeries T :=
  mkTreeSeries (mkSetting nm nd nbuf (nm / 6) (nd / 10))
    (replicate (Z.to_nat (nm * SLAB_SIZE)) 0) (replicate (Z.to_nat (nd * SLAB_SIZE)) 0) info
    (map (fresh_info true) (seqZ 0 nm)) (map (fresh_info false) (seqZ 0 nd)) ∅ empty
    (mkQueues (seqZ 0 nm) [] (seqZ 0 nd) [] [] [] (seqZ 0 nbuf)) (mkCounters nm 0 0 nd 0 0 0 nbuf).

(** ** Small accessors *)

Definition SlabFull (s : SlabInfo) : bool := nalloc_ s =? SLAB_SIZE / SLAB_ITEM_SIZE.

Definition ValidSid (st : TreeSeries T) (sid : Z) : bool :=
  (sid <? nmslab_ (setting_ st)) && (sid <? ndslab_ (setting_ st)).

Definition GetSinfoSourceID (st : TreeSeries T) (s : SlabInfo) (idx : Z) : Z :=
  u64 (arr (source_id_ s) idx * CY_NUM + class_source_id_ (class_of st (cid_x_ s) (cid_y_ s))).

Definition GetSinfoMetricID (st : TreeSeries T) (s : SlabInfo) (idx : Z) : Z :=
  u16 (arr (metric_id_ s) idx * CX_NUM + class_metric_id_ (class_of st (cid_x_ s) (cid_y_ s))).

(** ** The index *)

Definition InsertMT (st : TreeSeries T) (source_id metric_id ts : Z) (r : SlabRef) : TreeSeries T :=
  set_tree st (insert_value (mass_tree_ st) (EnCodeKey [] source_id metric_id ts) r).2.
Definition RemoveMT (st : TreeSeries T) (source_id metric_id ts : Z) : TreeSeries T :=
  set_tree st (remove_value (mass_tree_ st) (EnCodeKey [] source_id metric_id ts)).2.
Definition SearchMT (st : TreeSeries T) (source_id metric_id ts : Z) : option SlabRef :=
  get_value (mass_tree_ st) (EnCodeKey [] source_id metric_id ts).
Definition UpdateMT (st : TreeSeries T) (source_id metric_id ts : Z) (r : SlabRef) : TreeSeries T :=
  set_tree st (update_value (mass_tree_ st) (EnCodeKey [] source_id metric_id ts) r).2.

(** [ScanMT]'s callback: a slab is added unless it equals the last one. *)
Fixpoint add_slabs (acc : list SlabRef) (vals : list SlabRef) : list SlabRef :=
  match vals with
  | [] => acc
  | v :: vals =>
    let acc := match List.rev acc with
               | l :: _ => if bool_decide (v = l) then acc else acc ++ [v]
               | [] => acc ++ [v]
               end in
    add_slabs acc vals
  end.

Definition ScanMT (st : TreeSeries T) (source_id metric_id start_time end_time : Z) : list SlabRef :=
  add_slabs [] (map snd (scan (mass_tree_ st) (EnCodeKey [] source_id metric_id start_time) false
                           (EnCodeKey [] source_id metric_id end_time) true)).

(** Both keys of every series of slab [s] are pointed at [r]; the metric of
    the keys is taken from [s'] (the callers differ in it). *)
Fixpoint update_keys (st : TreeSeries T) (s s' : SlabInfo) (r : SlabRef) (js : list Z) : TreeSeries T :=
  match js with
  | [] => st
  | j :: js =>
    let src := GetSinfoSourceID st s j in
    let met := GetSinfoMetricID st s' j in
    let st := UpdateMT st src met (arr (start_time_ s) j) r in
    let st := UpdateMT st src met (arr (end_time_ s) j) r in
    update_keys st s s' r js
  end.

Fixpoint remove_keys (st : TreeSeries T) (s : SlabInfo) (js : list Z) : TreeSeries T :=
  match js with
  | [] => st
  | j :: js =>
    let src := GetSinfoSourceID st s j in
    let met := GetSinfoMetricID st s j in
    let st := RemoveMT st src met (arr (start_time_ s) j) in
    let st := RemoveMT st src met (arr (end_time_ s) j) in
    remove_keys st s js
  end.

Fixpoint insert_keys (st : TreeSeries T) (s : SlabInfo) (r : SlabRef) (js : list Z) : TreeSeries T :=
  match js with
  | [] => st
  | j :: js =>
    let src := GetSinfoSourceID st s j in
    let met := GetSinfoMetricID st s j in
    let st := InsertMT st src met (arr (start_time_ s) j) r in
    let st := InsertMT st src met (arr (end_time_ s) j) r in
    insert_keys st s r js
  end.

Definition series_of (s : SlabInfo) : list Z := seqZ 0 (idx_ s).

(** ** Writing a chunk *)

(** Where item [idx] of slab [sid] starts ([GetMemSlab] and [ReadSlabItem]). *)
Definition item_offset (sid idx : Z) : Z := sid * SLAB_SIZE + idx * SLAB_ITEM_SIZE.

(** [WritableItem]: [None] is the null pointer for a slab id out of range. *)
Definition WritableItem (st : TreeSeries T) (sid : Z) : option (Z * TreeSeries T) :=
  if ValidSid st sid then
    let s := minfo st sid in
    Some (item_offset (slab_id_ s) (nalloc_ s), set_minfo st sid (set_nalloc s (u8 (nalloc_ s + 1))))
  else None.

(** [item->timestamp_ = t; memcpy(item->chunk_, value, min(value_len, CHUNK_SIZE))] *)
Definition write_item (st : TreeSeries T) (off t : Z) (value : list Z) (value_len : Z) : TreeSeries T :=
  let m := store (mstart_ st) off (le_bytes 8 t) in
  let n := if value_len <? CHUNK_SIZE then value_len else CHUNK_SIZE in
  set_mstart st (store m (off + 8) (take (Z.to_nat n) value)).

Definition InsertMemFullQueue (st : TreeSeries T) (i : Z) : TreeSeries T :=
  let q := queues st in
  count_mem (set_queues st (set_full_msinfoq q (full_msinfoq_ q ++ [i]))) 0 (-1) 1 0.

(** Re-using a slab whose contents are on disk: its keys move to the disk slab
    and it is emptied. *)
Definition reclaim (st : TreeSeries T) (m d : Z) : TreeSeries T :=
  let st := count_mem st 0 1 0 (-1) in
  let s := minfo st m in
  let st := update_keys st s s (DiskRef d) (series_of s) in
  set_minfo st m (set_free (FreeSlab s) false).

(** The block of [ConPutKV] that gives the class a slab: from the free queue,
    or by evicting, or not at all. *)
Definition open_slab (st : TreeSeries T) (x y : Z) : bool * TreeSeries T :=
  let q := queues st in
  match free_msinfoq_ q with
  | i :: rest =>
    let st := set_queues st (set_free_msinfoq q rest) in
    let st := count_mem st (-1) 1 0 0 in
    let st := set_minfo st i (set_free (minfo st i) false) in
    (true, set_class st x y (set_class_slab (class_of st x y) (slab_id_ (minfo st i))))
  | [] =>
    match mem_evict_sinfoq_ q with
    | (m, d) :: rest =>
      let st := set_queues st (set_mem_evict q rest) in
      let st := reclaim st m d in
      (true, set_class st x y (set_class_slab (class_of st x y) (slab_id_ (minfo st m))))
    | [] => (false, st)
    end
  end.

(** The search for a series among the first [n] of a slab. *)
Fixpoint find_series (s : SlabInfo) (src met : Z) (js : list Z) : option Z :=
  match js with
  | [] => None
  | j :: js =>
    if (arr (source_id_ s) j =? src) && (arr (metric_id_ s) j =? met) then Some j
    else find_series s src met js
  end.

(** The bookkeeping of [ConPutKV] after the item is written: an existing
    series gets a new end key, a new one both keys.  [None]: an [assert] fails. *)
Definition record_series (st : TreeSeries T) (sid source_id metric_id start_time end_time txn : Z)
    : option (TreeSeries T) :=
  let x := metric_id mod CX_NUM in
  let y := source_id mod CY_NUM in
  let s := minfo st sid in
  let f_sgid := u8 (source_id / CY_NUM) in
  let f_mid := u8 (metric_id / CX_NUM) in
  match find_series s f_sgid f_mid (series_of s) with
  | Some idx =>
    let st := RemoveMT st source_id metric_id (arr (end_time_ s) idx) in
    let s := set_end s idx end_time in
    let st := set_minfo st sid s in
    Some (InsertMT st (GetSinfoSourceID st s idx) (GetSinfoMetricID st s idx)
            (arr (end_time_ s) idx) (MemRef sid))
  | None =>
    let idx := idx_ s in
    let s := set_ids (set_idx s (u8 (idx + 1))) idx f_sgid f_mid in
    let st := set_class st x y (set_txn (class_of st x y) idx txn) in
    if (GetSinfoSourceID st s idx =? source_id) && (GetSinfoMetricID st s idx =? metric_id) then
      let s := set_end (set_start s idx start_time) idx end_time in
      let st := set_minfo st sid s in
      let src := GetSinfoSourceID st s idx in
      let met := GetSinfoMetricID st s idx in
      let st := InsertMT st src met (arr (start_time_ s) idx) (MemRef sid) in
      Some (InsertMT st src met (arr (end_time_ s) idx) (MemRef sid))
    else None
  end.

(** [ConPutKV]: the flag, the slab id and the new state; [None] is a crash (a
    null item or a failed assertion). *)
Definition ConPutKV (st : TreeSeries T) (source_id metric_id start_time end_time : Z)
    (value : list Z) (value_len txn : Z) : option (bool * Z * TreeSeries T) :=
  let x := metric_id mod CX_NUM in
  let y := source_id mod CY_NUM in
  let '(flag, st) :=
    if class_slab_id_ (class_of st x y) =? UINT32_MAX then open_slab st x y else (true, st) in
  if flag then
    let sid := class_slab_id_ (class_of st x y) in
    let st := set_minfo st sid (set_cid (minfo st sid) x y) in
    match WritableItem st sid with
    | None => None
    | Some (off, st) =>
      let st := write_item st off start_time value value_len in
      match record_series st sid source_id metric_id start_time end_time txn with
      | None => None
      | Some st =>
        let s := minfo st sid in
        if SlabFull s then
          let st := InsertMemFullQueue st sid in
          if bool_decide ((cid_x_ s, cid_y_ s) = (x, y)) then
            Some (true, sid,
                  set_class st (cid_x_ s) (cid_y_ s)
                    (set_class_slab (class_of st (cid_x_ s) (cid_y_ s)) UINT32_MAX))
          else None
        else Some (true, sid, st)
      end
    end
  else Some (false, 0, st).

End Store.

(** ** Bookkeeping invariant *)

Section Invariant.
Context {T : Type} `{TreeLaws T SlabRef}.
Implicit Types st : TreeSeries T.

(** The slab a class is filling, if any. *)
Definition cur (c : SlabClass) : list Z :=
  if class_slab_id_ c =? UINT32_MAX then [] else [class_slab_id_ c].

Definition open_slabs (m : gmap (Z * Z) SlabClass) : list Z :=
  map_to_list m ≫= (fun e => cur e.2).

Definition info_ok (i : Z) (s : SlabInfo) : Prop :=
  slab_id_ s = i /\ mem_ s = true /\ length (source_id_ s) = 16%nat /\
  length (metric_id_ s) = 16%nat /\ length (start_time_ s) = 16%nat /\
  length (end_time_ s) = 16%nat /\ 0 <= idx_ s <= nalloc_ s /\ nalloc_ s <= 16.

(** Every memory slab is in exactly one of four places: free, being filled by
    one class, full, or waiting to be reclaimed; the counters count them; a
    slab's arrays are never indexed past their end.  [hole] is a slab in the
    middle of a write, which may have been filled up while its class still
    holds it; [-1] when there is none. *)
Record mem_inv_but (hole : Z) (st : TreeSeries T) : Prop := {
  mi_size : 0 <= nmslab_ (setting_ st) < UINT32_MAX /\ nmslab_ (setting_ st) <= ndslab_ (setting_ st);
  mi_table : Z.of_nat (length (mstable_ st)) = nmslab_ (setting_ st);
  mi_mem : Z.of_nat (length (mstart_ st)) = nmslab_ (setting_ st) * SLAB_SIZE;
  mi_info : forall i, 0 <= i < nmslab_ (setting_ st) -> info_ok i (minfo st i);
  mi_class : forall x y c, ctable st !! (x, y) = Some c ->
    class_metric_id_ c = x /\ class_source_id_ c = y;
  mi_part : free_msinfoq_ (queues st) ++ full_msinfoq_ (queues st)
      ++ map fst (mem_evict_sinfoq_ (queues st)) ++ open_slabs (ctable st)
    ≡ₚ seqZ 0 (nmslab_ (setting_ st));
  mi_free : forall i, i ∈ free_msinfoq_ (queues st) -> nalloc_ (minfo st i) = 0;
  mi_open : forall i, i ∈ open_slabs (ctable st) -> i <> hole -> nalloc_ (minfo st i) < 16;
  mi_full : forall i, i ∈ full_msinfoq_ (queues st) -> nalloc_ (minfo st i) = 16;
  mi_nfree : nfree_msinfoq_ (counters st) = Z.of_nat (length (free_msinfoq_ (queues st)));
  mi_nfull : nfull_msinfoq_ (counters st) = Z.of_nat (length (full_msinfoq_ (queues st)));
  mi_nevict : n_mem_evict_sinfo_ (counters st) = Z.of_nat (length (mem_evict_sinfoq_ (queues st)));
  mi_nused : nused_msinfoq_ (counters st) = Z.of_nat (length (open_slabs (ctable st))) }.

Definition mem_inv (st : TreeSeries T) : Prop := mem_inv_but (-1) st.

(** *** Classes *)

Lemma open_slabs_at (m : gmap (Z * Z) SlabClass) k d :
  cur d = [] ->
  exists l, open_slabs m ≡ₚ cur (default d (m !! k)) ++ l /\
    forall c, open_slabs (<[k := c]> m) ≡ₚ cur c ++ l.
Proof.
  intros Hd. exists (open_slabs (delete k m)). unfold open_slabs. split.
  - destruct (m !! k) as [c|] eqn:E.
    + rewrite <- (map_to_list_delete m k c E). done.
    + simpl. rewrite Hd, delete_id by done. done.
  - intros c. rewrite <- insert_delete_eq, map_to_list_insert by apply lookup_delete_eq. done.
Qed.

Lemma cur_init x y : cur (init_class x y) = [].
Proof. done. Qed.

Lemma open_slabs_class st x y :
  exists l, open_slabs (ctable st) ≡ₚ cur (class_of st x y) ++ l /\
    forall c, open_slabs (ctable (set_class st x y c)) ≡ₚ cur c ++ l.
Proof. apply (open_slabs_at (ctable st) (x, y)), cur_init. Qed.

Lemma class_of_ids h st x y :
  mem_inv_but h st -> class_metric_id_ (class_of st x y) = x /\ class_source_id_ (class_of st x y) = y.
Proof.
  intros Hi. unfold class_of. destruct (ctable st !! (x, y)) as [c|] eqn:E; [|done].
  by apply (mi_class h st Hi).
Qed.

(** *** Index operations change the index only *)

Definition tree_only st st' : Prop := exists t, st' = set_tree st t.

Lemma tree_only_refl st : tree_only st st.
Proof. exists (mass_tree_ st). by destruct st. Qed.

Lemma tree_only_trans a b c : tree_only a b -> tree_only b c -> tree_only a c.
Proof. intros [t ->] [u ->]. by exists u. Qed.

Lemma update_keys_tree st s s' r js : tree_only st (update_keys st s s' r js).
Proof.
  revert st. induction js as [|j js IH]; intros st; [apply tree_only_refl|].
  cbn [update_keys]. eapply tree_only_trans; [|apply IH]. eexists. reflexivity.
Qed.

Lemma remove_keys_tree st s js : tree_only st (remove_keys st s js).
Proof.
  revert st. induction js as [|j js IH]; intros st; [apply tree_only_refl|].
  cbn [remove_keys]. eapply tree_only_trans; [|apply IH]. eexists. reflexivity.
Qed.

Lemma mem_inv_tree h st st' : tree_only st st' -> mem_inv_but h st -> mem_inv_but h st'.
Proof. intros [t ->] []. by split. Qed.

(** *** Slab table *)

Lemma minfo_set st i s j :
  0 <= i < Z.of_nat (length (mstable_ st)) -> 0 <= j ->
  minfo (set_minfo st i s) j = if decide (i = j) then s else minfo st j.
Proof.
  intros Hi Hj. unfold minfo. simpl. case_decide as Hd.
  - subst j. by rewrite list_lookup_insert_eq by lia.
  - by rewrite list_lookup_insert_ne by lia.
Qed.

Lemma mem_inv_slab h st i :
  mem_inv_but h st ->
  i ∈ free_msinfoq_ (queues st) ++ full_msinfoq_ (queues st)
      ++ map fst (mem_evict_sinfoq_ (queues st)) ++ open_slabs (ctable st) ->
  0 <= i < nmslab_ (setting_ st).
Proof. intros Hi Hin. rewrite (mi_part h st Hi), elem_of_seqZ in Hin. lia. Qed.

Lemma mem_inv_nodup h st :
  mem_inv_but h st ->
  NoDup (free_msinfoq_ (queues st) ++ full_msinfoq_ (queues st)
      ++ map fst (mem_evict_sinfoq_ (queues st)) ++ open_slabs (ctable st)).
Proof. intros Hi. rewrite (mi_part h st Hi). apply NoDup_seqZ. Qed.

Lemma mem_inv_count h st :
  mem_inv_but h st ->
  Z.of_nat (length (free_msinfoq_ (queues st))) + Z.of_nat (length (full_msinfoq_ (queues st)))
  + Z.of_nat (length (mem_evict_sinfoq_ (queues st))) + Z.of_nat (length (open_slabs (ctable st)))
  = nmslab_ (setting_ st).
Proof.
  intros Hi. pose proof (Permutation_length (mi_part h st Hi)) as Hl.
  rewrite !length_app, length_map, length_seqZ in Hl. pose proof (mi_size h st Hi). lia.
Qed.

(** *** One slab, one class, one queue at a time *)

Lemma mem_inv_minfo h st i s :
  mem_inv_but h st -> 0 <= i < nmslab_ (setting_ st) -> info_ok i s ->
  (i ∈ free_msinfoq_ (queues st) -> nalloc_ s = 0) ->
  (i ∈ open_slabs (ctable st) -> i <> h -> nalloc_ s < 16) ->
  (i ∈ full_msinfoq_ (queues st) -> nalloc_ s = 16) ->
  mem_inv_but h (set_minfo st i s).
Proof.
  intros Hi Hr Hs Hf Ho Hl. pose proof (mi_table _ _ Hi) as Ht.
  assert (Hin : forall j, j ∈ free_msinfoq_ (queues st) ++ full_msinfoq_ (queues st)
      ++ map fst (mem_evict_sinfoq_ (queues st)) ++ open_slabs (ctable st) -> 0 <= j)
    by (intros j Hj; apply (mem_inv_slab _ _ _ Hi) in Hj; lia).
  assert (Hget : forall j, 0 <= j -> minfo (set_minfo st i s) j = if decide (i = j) then s else minfo st j)
    by (intros; apply minfo_set; lia).
  destruct Hi as []. split; try done.
  - simpl. by rewrite length_insert.
  - intros j Hj. rewrite Hget by lia. case_decide; [by subst|]. by apply mi_info0.
  - intros j Hj. rewrite Hget by (apply Hin; rewrite !elem_of_app; tauto). case_decide; [subst; auto|]. by apply mi_free0.
  - intros j Hj Hne. rewrite Hget by (apply Hin; rewrite !elem_of_app; tauto). case_decide; [subst; auto|]. by apply mi_open0.
  - intros j Hj. rewrite Hget by (apply Hin; rewrite !elem_of_app; tauto). case_decide; [subst; auto|]. by apply mi_full0.
Qed.

Lemma mem_inv_mstart h st m :
  mem_inv_but h st -> length m = length (mstart_ st) -> mem_inv_but h (set_mstart st m).
Proof. intros [] Hl. split; try done. simpl. lia. Qed.

(** A class entry changes, its slab does not. *)
Lemma mem_inv_class h st x y c :
  mem_inv_but h st -> cur c = cur (class_of st x y) ->
  class_metric_id_ c = x -> class_source_id_ c = y ->
  mem_inv_but h (set_class st x y c).
Proof.
  intros Hi Hc Hx Hy. destruct (open_slabs_class st x y) as (l & El & Hset).
  specialize (Hset c). rewrite Hc, <- El in Hset. destruct Hi as []. split; try done.
  - intros x' y' c' E. simpl in E. apply lookup_insert_Some in E as [[E <-]|[_ E]]; [|by apply mi_class0].
    by simplify_eq.
  - rewrite Hset. done.
  - intros i Hin. rewrite Hset in Hin. by apply mi_open0.
  - rewrite Hset. done.
Qed.

Lemma u32_id z : 0 <= z < 2 ^ 32 -> u32 z = z.
Proof. intros. by apply wrap_id. Qed.

(** A freshly opened slab of a class. *)
Definition opened (st : TreeSeries T) (x y sid : Z) : Prop :=
  class_slab_id_ (class_of st x y) = sid /\ 0 <= sid < nmslab_ (setting_ st) /\
  nalloc_ (minfo st sid) = 0.

Lemma class_of_set st x y c : class_of (set_class st x y c) x y = c.
Proof. unfold class_of. simpl. by rewrite lookup_insert_eq. Qed.

Lemma elem_of_head {A} (x : A) l : x ∈ x :: l.
Proof. by left. Qed.

Lemma length_zero_first n a : length (zero_first n a) = length a.
Proof. unfold zero_first. rewrite length_app, length_replicate, length_drop. lia. Qed.

Lemma FreeSlab_ok i s : info_ok i s -> info_ok i (FreeSlab s).
Proof.
  intros (? & ? & ? & ? & ? & ? & ? & ?). split_and!; simpl; rewrite ?length_zero_first; try done; lia.
Qed.

(** Giving a class, that has none, the slab [i] taken off a queue. *)
Lemma mem_inv_give st x y i q (s : SlabInfo) n :
  mem_inv st -> cur (class_of st x y) = [] ->
  free_msinfoq_ q ++ full_msinfoq_ q ++ map fst (mem_evict_sinfoq_ q) ++ (i :: open_slabs (ctable st))
    ≡ₚ seqZ 0 (nmslab_ (setting_ st)) ->
  full_msinfoq_ q = full_msinfoq_ (queues st) ->
  (forall j, j ∈ free_msinfoq_ q -> j ∈ free_msinfoq_ (queues st)) ->
  info_ok i s -> nalloc_ s = 0 ->
  nfree_msinfoq_ n = Z.of_nat (length (free_msinfoq_ q)) ->
  nfull_msinfoq_ n = Z.of_nat (length (full_msinfoq_ q)) ->
  n_mem_evict_sinfo_ n = Z.of_nat (length (mem_evict_sinfoq_ q)) ->
  nused_msinfoq_ n = Z.of_nat (length (open_slabs (ctable st))) + 1 ->
  let st' := set_minfo (set_counters (set_queues st q) n) i s in
  let st' := set_class st' x y (set_class_slab (class_of st' x y) i) in
  mem_inv st' /\ opened st' x y i.
Proof.
  intros Hi Hc Hp Hfull Hfree Hs Hn H1 H2 H3 H4 st0 st'.
  assert (Hir : 0 <= i < nmslab_ (setting_ st)).
  { assert (Hin : i ∈ seqZ 0 (nmslab_ (setting_ st))); [|apply elem_of_seqZ in Hin; lia].
    rewrite <- Hp, !elem_of_app, elem_of_cons. tauto. }
  pose proof (mi_table _ _ Hi) as Ht. pose proof (mi_size _ _ Hi) as Hsz.
  assert (Hnd : NoDup (free_msinfoq_ q ++ full_msinfoq_ q ++ map fst (mem_evict_sinfoq_ q)
                ++ (i :: open_slabs (ctable st)))) by (rewrite Hp; apply NoDup_seqZ).
  assert (Hni : (i ∉ free_msinfoq_ q) /\ (i ∉ full_msinfoq_ q) /\ (i ∉ open_slabs (ctable st))).
  { rewrite NoDup_app in Hnd. destruct Hnd as (_ & N1 & Hnd). rewrite NoDup_app in Hnd.
    destruct Hnd as (_ & N2 & Hnd). rewrite NoDup_app in Hnd. destruct Hnd as (_ & _ & Hnd).
    apply NoDup_cons in Hnd as [N3 _]. split_and!; [intros Hx; apply (N1 i Hx)|intros Hx; apply (N2 i Hx)|done];
    rewrite !elem_of_app, elem_of_cons; tauto. }
  destruct Hni as (Hn1 & Hn2 & Hn3).
  assert (Hget : forall j, 0 <= j -> minfo st' j = if decide (i = j) then s else minfo st j)
    by (intros; apply (minfo_set (set_counters (set_queues st q) n)); simpl; lia).
  destruct (open_slabs_class st0 x y) as (l & El & Hset).
  assert (Hl : open_slabs (ctable st') ≡ₚ i :: open_slabs (ctable st)).
  { subst st'. rewrite Hset. change (ctable st0) with (ctable st) in El.
    change (class_of st0 x y) with (class_of st x y) in El. rewrite El, Hc.
    unfold cur. simpl. rewrite (proj2 (Z.eqb_neq i UINT32_MAX)) by lia. done. }
  assert (Hids := class_of_ids _ st x y Hi).
  split; [|split; [|split]].
  - destruct Hi as []. split; try done.
    + change (mstable_ st') with (<[Z.to_nat i := s]> (mstable_ st)). by rewrite length_insert.
    + intros j Hj. rewrite Hget by lia. case_decide; [by subst|]. by apply mi_info0.
    + intros x' y' c' E. unfold st' in E. cbn [ctable set_class] in E.
      apply lookup_insert_Some in E as [[E <-]|[_ E]]; [|by apply mi_class0].
      simplify_eq. exact Hids.
    + change (queues st') with q. by rewrite Hl, Hp.
    + intros j Hj. change (queues st') with q in Hj. assert (0 <= j) by (apply Hfree in Hj; apply (mem_inv_slab (-1) st); [by split|];
        rewrite !elem_of_app; tauto). rewrite Hget by done. case_decide; [by subst|]. auto.
    + intros j Hj _. rewrite Hl in Hj. apply elem_of_cons in Hj as [->|Hj].
      { rewrite Hget by lia. by rewrite decide_True, Hn by done. }
      assert (0 <= j) by (apply (mem_inv_slab (-1) st); [by split|]; rewrite !elem_of_app; tauto).
      rewrite Hget by done. case_decide; [by subst; rewrite Hn|]. apply mi_open0; [done|lia].
    + change (queues st') with q. rewrite Hfull. intros j Hj. rewrite Hfull in Hn2.
      assert (0 <= j) by (apply (mem_inv_slab (-1) st); [by split|]; rewrite !elem_of_app; tauto).
      rewrite Hget by done. case_decide; [by subst|]. auto.
    + change (counters st') with n. rewrite Hl. simpl. lia.
  - subst st'. by rewrite class_of_set.
  - exact Hir.
  - rewrite Hget by lia. by rewrite decide_True.
Qed.

Lemma cur_none c : class_slab_id_ c = UINT32_MAX -> cur c = [].
Proof. intros E. unfold cur. by rewrite E, Z.eqb_refl. Qed.

Lemma open_slab_ok st x y st' :
  mem_inv st -> class_slab_id_ (class_of st x y) = UINT32_MAX -> open_slab st x y = (true, st') ->
  exists sid, mem_inv st' /\ opened st' x y sid /\ setting_ st' = setting_ st /\
    mstart_ st' = mstart_ st.
Proof.
  intros Hi Hc E. apply cur_none in Hc. unfold open_slab in E.
  pose proof (mi_size _ _ Hi) as Hsz. pose proof (mem_inv_count _ _ Hi) as Hcnt.
  pose proof (mi_part _ _ Hi) as Hp.
  destruct (free_msinfoq_ (queues st)) as [|i rest] eqn:Ef.
  - destruct (mem_evict_sinfoq_ (queues st)) as [|[m d] rest] eqn:Ee; [done|].
    injection E as <-. set (q := set_mem_evict (queues st) rest).
    set (st1 := count_mem (set_queues st q) 0 1 0 (-1)).
    destruct (update_keys_tree st1 (minfo st1 m) (minfo st1 m) (DiskRef d) (series_of (minfo st1 m)))
      as [t Et].
    assert (Hm : 0 <= m < nmslab_ (setting_ st)).
    { apply (mem_inv_slab _ _ _ Hi). rewrite Ee, !elem_of_app. simpl. rewrite elem_of_cons. tauto. }
    pose proof (mi_info _ _ Hi m Hm) as Hinfo.
    destruct (mem_inv_give (set_tree st t) x y m q (set_free (FreeSlab (minfo st m)) false)
      (counters st1)) as [H1 H2].
    { apply (mem_inv_tree _ st); [by exists t|done]. } all: try done.
    { simpl. rewrite <- Hp, Ef. simpl. apply Permutation_app_head. symmetry. apply Permutation_middle. }
    { by apply FreeSlab_ok. }
    { simpl. rewrite Ef. pose proof (mi_nfree _ _ Hi) as Hn. rewrite Ef in Hn. rewrite u32_id; simpl in *; lia. }
    { simpl. rewrite (mi_nfull _ _ Hi), Z.add_0_r. apply u32_id. unfold UINT32_MAX in *. lia. }
    { simpl. rewrite (mi_nevict _ _ Hi), Ee. simpl length in *. rewrite u32_id; unfold UINT32_MAX in *; lia. }
    { simpl. rewrite (mi_nused _ _ Hi). apply u32_id. unfold UINT32_MAX in *. simpl in Hcnt. lia. }
    exists m. unfold reclaim. fold st1. rewrite Et.
    assert (Eid : slab_id_ (minfo (set_minfo (set_tree st1 t) m (set_free (FreeSlab (minfo st1 m)) false)) m) = m).
    { rewrite minfo_set by (simpl; rewrite ?(mi_table _ _ Hi); lia). rewrite decide_True by done.
      simpl. apply Hinfo. }
    rewrite Eid. split_and!; [exact H1|exact H2| |]; done.
  - injection E as <-. set (q := set_free_msinfoq (queues st) rest).
    set (st1 := count_mem (set_queues st q) (-1) 1 0 0).
    assert (Hm : 0 <= i < nmslab_ (setting_ st)).
    { apply (mem_inv_slab _ _ _ Hi). rewrite Ef, !elem_of_app, elem_of_cons. tauto. }
    pose proof (mi_info _ _ Hi i Hm) as Hinfo.
    destruct (mem_inv_give st x y i q (set_free (minfo st i) false) (counters st1)) as [H1 H2]; try done.
    { simpl. rewrite <- Hp. simpl. rewrite !app_assoc. symmetry. apply Permutation_middle. }
    { simpl. intros j Hj. rewrite Ef. by right. }
    { apply (mi_free _ _ Hi). rewrite Ef. apply elem_of_head. }
    { simpl. rewrite (mi_nfree _ _ Hi), Ef. simpl length in *. rewrite u32_id; unfold UINT32_MAX in *; lia. }
    { simpl. rewrite (mi_nfull _ _ Hi), Z.add_0_r. apply u32_id. unfold UINT32_MAX in *. lia. }
    { simpl. rewrite (mi_nevict _ _ Hi), Z.add_0_r. apply u32_id. unfold UINT32_MAX in *. lia. }
    { simpl. rewrite (mi_nused _ _ Hi). apply u32_id. unfold UINT32_MAX in *. simpl length in Hcnt. lia. }
    exists i.
    assert (Eid : slab_id_ (minfo (set_minfo st1 i (set_free (minfo st1 i) false)) i) = i).
    { rewrite minfo_set by (simpl; rewrite ?(mi_table _ _ Hi); lia). rewrite decide_True by done.
      simpl. apply Hinfo. }
    rewrite Eid. split_and!; [exact H1|exact H2| |]; done.
Qed.

Lemma open_slab_fails st x y st' :
  open_slab st x y = (false, st') ->
  st' = st /\ free_msinfoq_ (queues st) = [] /\ mem_evict_sinfoq_ (queues st) = [].
Proof.
  unfold open_slab. destruct (free_msinfoq_ (queues st)); [|done].
  destruct (mem_evict_sinfoq_ (queues st)) as [|[??]?]; [|done]. by intros [= <-].
Qed.

(** *** The ids a slab can name *)

Lemma arr_poke l i v : 0 <= i < Z.of_nat (length l) -> arr (poke l i v) i = v.
Proof.
  intros Hi. unfold arr, poke. rewrite (proj2 (Z.ltb_ge i 0)) by lia.
  apply nth_lookup_Some. apply list_lookup_insert_eq. lia.
Qed.

(** Ids whose quotient fits the byte the slab keeps. *)
Definition id_ok (source_id metric_id : Z) : Prop :=
  0 <= source_id < 256 * CY_NUM /\ 0 <= metric_id < 256 * CX_NUM.

Lemma quotient_byte a n : 0 < n -> 0 <= a < 256 * n -> u8 (a / n) = a / n.
Proof.
  intros Hn Ha. apply wrap_id. unfold is_u. change (2 ^ 8) with 256.
  split; [apply Z.div_pos; lia|apply Z.div_lt_upper_bound; lia].
Qed.

Lemma sinfo_ids h st s idx source_id metric_id :
  mem_inv_but h st -> id_ok source_id metric_id ->
  cid_x_ s = metric_id mod CX_NUM -> cid_y_ s = source_id mod CY_NUM ->
  arr (source_id_ s) idx = u8 (source_id / CY_NUM) ->
  arr (metric_id_ s) idx = u8 (metric_id / CX_NUM) ->
  GetSinfoSourceID st s idx = source_id /\ GetSinfoMetricID st s idx = metric_id.
Proof.
  intros Hi [Hs Hm] Ex Ey Es Em. unfold GetSinfoSourceID, GetSinfoMetricID.
  rewrite Es, Em, Ex, Ey. destruct (class_of_ids h st (metric_id mod CX_NUM) (source_id mod CY_NUM) Hi) as [-> ->].
  unfold CX_NUM, CY_NUM in *. rewrite !quotient_byte by lia.
  pose proof (Z.div_mod source_id 10000 ltac:(lia)). pose proof (Z.div_mod metric_id 100 ltac:(lia)).
  split; [transitivity (u64 source_id)|transitivity (u16 metric_id)];
    try (f_equal; lia); apply wrap_id; unfold is_u; lia.
Qed.

Lemma find_series_spec s src met js idx :
  find_series s src met js = Some idx ->
  idx ∈ js /\ arr (source_id_ s) idx = src /\ arr (metric_id_ s) idx = met.
Proof.
  induction js as [|j js IH]; simpl; [done|].
  destruct (Z.eqb_spec (arr (source_id_ s) j) src), (Z.eqb_spec (arr (metric_id_ s) j) met); simpl.
  1: intros [= <-]; split_and!; [by left|done|done].
  all: intros E; destruct (IH E) as (? & ? & ?); split_and!; [by right|done|done].
Qed.

(** What a step on slab [sid] of class [(x, y)] leaves alone. *)
Definition same_frame (sid x y : Z) st st' : Prop :=
  setting_ st' = setting_ st /\ mstart_ st' = mstart_ st /\ queues st' = queues st /\
  counters st' = counters st /\ nalloc_ (minfo st' sid) = nalloc_ (minfo st sid) /\
  cid_x_ (minfo st' sid) = cid_x_ (minfo st sid) /\ cid_y_ (minfo st' sid) = cid_y_ (minfo st sid) /\
  class_slab_id_ (class_of st' x y) = class_slab_id_ (class_of st x y).

Lemma record_series_ok st sid source_id metric_id start_time end_time txn :
  mem_inv_but sid st -> 0 <= sid < nmslab_ (setting_ st) -> id_ok source_id metric_id ->
  cid_x_ (minfo st sid) = metric_id mod CX_NUM -> cid_y_ (minfo st sid) = source_id mod CY_NUM ->
  idx_ (minfo st sid) < nalloc_ (minfo st sid) ->
  sid ∉ free_msinfoq_ (queues st) -> sid ∉ full_msinfoq_ (queues st) ->
  exists st', record_series st sid source_id metric_id start_time end_time txn = Some st' /\
    mem_inv_but sid st' /\ same_frame sid (metric_id mod CX_NUM) (source_id mod CY_NUM) st st'.
Proof.
  intros Hi Hr Hid Ex Ey Hidx Hnf Hnl. unfold record_series.
  pose proof (mi_info _ _ Hi sid Hr) as (I1 & I2 & I3 & I4 & I5 & I6 & I7 & I8).
  pose proof (mi_table _ _ Hi) as Ht. pose proof Hid as [Hs Hm].
  set (s := minfo st sid) in *. set (x := metric_id mod CX_NUM) in *. set (y := source_id mod CY_NUM) in *.
  destruct (find_series s _ _ (series_of s)) as [idx|] eqn:Ef.
  - eexists. split; [reflexivity|].
    set (s' := set_end s idx end_time).
    assert (Hi' : mem_inv_but sid (set_minfo st sid s')).
    { apply mem_inv_minfo; try done. subst s'. split_and!; simpl; rewrite ?length_poke; done || lia. }
    split; [by apply (mem_inv_tree _ (set_minfo st sid s')); [eexists|]|].
    assert (E : minfo (set_minfo st sid s') sid = s') by (rewrite minfo_set, decide_True by (done || lia); done).
    split_and!; try done;
      match goal with |- ?f _ = _ =>
        transitivity (f (minfo (set_minfo st sid s') sid)); [done|by rewrite E] end.
  - set (s1 := set_ids (set_idx s (u8 (idx_ s + 1))) (idx_ s) (u8 (source_id / CY_NUM)) (u8 (metric_id / CX_NUM))).
    set (st1 := set_class st x y (set_txn (class_of st x y) (idx_ s) txn)).
    destruct (class_of_ids _ st x y Hi) as [C1 C2].
    assert (Hi1 : mem_inv_but sid st1) by (by apply mem_inv_class).
    destruct (sinfo_ids sid st1 s1 (idx_ s) source_id metric_id Hi1 Hid) as [G1 G2]; try done;
      try (apply arr_poke; simpl; lia).
    rewrite G1, G2, !Z.eqb_refl. simpl andb. cbv iota.
    set (s2 := set_end (set_start s1 (idx_ s) start_time) (idx_ s) end_time).
    eexists. split; [reflexivity|].
    assert (Hu : u8 (idx_ s + 1) = idx_ s + 1) by (apply wrap_id; unfold is_u; lia).
    assert (Hi2 : mem_inv_but sid (set_minfo st1 sid s2)).
    { apply mem_inv_minfo; try done. subst s2 s1. split_and!; simpl; rewrite ?length_poke, ?Hu; done || lia. }
    split; [by apply (mem_inv_tree _ (set_minfo st1 sid s2)); [eexists|]|].
    assert (E : minfo (set_minfo st1 sid s2) sid = s2).
    { rewrite minfo_set, decide_True by (done || (change (mstable_ st1) with (mstable_ st); lia)). done. }
    split_and!; try done.
    1-3: match goal with |- ?f _ = _ =>
        transitivity (f (minfo (set_minfo st1 sid s2) sid)); [done|by rewrite E] end.
    change (class_slab_id_ (class_of st1 x y) = class_slab_id_ (class_of st x y)).
    subst st1. by rewrite class_of_set.
Qed.

(** The slab of a class is one of the open ones, and in no queue. *)
Lemma current_slab h st x y sid :
  mem_inv_but h st -> class_slab_id_ (class_of st x y) = sid -> sid <> UINT32_MAX ->
  sid ∈ open_slabs (ctable st) /\ 0 <= sid < nmslab_ (setting_ st) /\
  (sid ∉ free_msinfoq_ (queues st)) /\ (sid ∉ full_msinfoq_ (queues st)).
Proof.
  intros Hi E Hne. destruct (open_slabs_class st x y) as (l & El & _).
  assert (Hin : sid ∈ open_slabs (ctable st)).
  { rewrite El. unfold cur. rewrite E, (proj2 (Z.eqb_neq _ _) Hne). apply elem_of_head. }
  pose proof (mem_inv_nodup _ _ Hi) as Hnd. rewrite NoDup_app in Hnd.
  destruct Hnd as (_ & N1 & Hnd). rewrite NoDup_app in Hnd. destruct Hnd as (_ & N2 & _).
  split; [done|]. split; [apply (mem_inv_slab _ _ _ Hi); rewrite !elem_of_app; tauto|].
  split; [intros Hx; apply (N1 sid Hx)|intros Hx; apply (N2 sid Hx)]; rewrite !elem_of_app; tauto.
Qed.

(** A slab that is filled up leaves its class for the full queue. *)
Lemma mem_inv_retire st x y sid :
  mem_inv_but sid st -> class_slab_id_ (class_of st x y) = sid -> sid <> UINT32_MAX ->
  nalloc_ (minfo st sid) = 16 ->
  mem_inv (set_class (InsertMemFullQueue st sid) x y (set_class_slab (class_of st x y) UINT32_MAX)).
Proof.
  intros Hi E Hne Hn. destruct (current_slab _ _ _ _ _ Hi E Hne) as (Hin & Hr & _).
  destruct (class_of_ids _ st x y Hi) as [C1 C2].
  set (c := set_class_slab (class_of st x y) UINT32_MAX).
  destruct (open_slabs_class st x y) as (l & El & Hset). specialize (Hset c).
  change (cur c) with (@nil Z) in Hset. unfold cur in El.
  rewrite E, (proj2 (Z.eqb_neq _ _) Hne) in El. simpl app in El, Hset.
  pose proof (mem_inv_count _ _ Hi) as Hcnt. pose proof (mem_inv_nodup _ _ Hi) as Hnd.
  pose proof (mi_size _ _ Hi) as Hsz. unfold UINT32_MAX in Hsz.
  rewrite El in Hcnt, Hnd. simpl length in Hcnt.
  set (st' := set_class _ x y c). assert (Hl : open_slabs (ctable st') ≡ₚ l) by exact Hset.
  assert (Hsl : sid ∉ l).
  { rewrite NoDup_app in Hnd. destruct Hnd as (_ & _ & Hnd). rewrite NoDup_app in Hnd.
    destruct Hnd as (_ & _ & Hnd). rewrite NoDup_app in Hnd. destruct Hnd as (_ & _ & Hnd).
    by apply NoDup_cons in Hnd as [? _]. }
  destruct Hi as []. split; try done.
  - intros x' y' c' Ec. unfold st' in Ec. cbn [ctable set_class] in Ec.
    apply lookup_insert_Some in Ec as [[Ec <-]|[_ Ec]]; [|by apply mi_class0]. by simplify_eq.
  - change (setting_ st') with (setting_ st). rewrite <- mi_part0, Hl, El.
    change (queues st') with (set_full_msinfoq (queues st) (full_msinfoq_ (queues st) ++ [sid])). simpl.
    apply Permutation_app_head. rewrite <- app_assoc. apply Permutation_app_head.
    simpl. rewrite Permutation_middle. done.
  - intros j Hj _. rewrite Hl in Hj. apply mi_open0; [by rewrite El; right|]. by intros ->.
  - intros j Hj. change (full_msinfoq_ (queues st')) with (full_msinfoq_ (queues st) ++ [sid]) in Hj.
    apply elem_of_app in Hj as [Hj|Hj]; [by apply mi_full0|]. by apply list_elem_of_singleton in Hj as ->.
  - simpl. rewrite mi_nfree0, Z.add_0_r. apply u32_id. lia.
  - simpl. rewrite mi_nfull0, length_app. simpl length. rewrite u32_id; lia.
  - simpl. rewrite mi_nevict0, Z.add_0_r. apply u32_id. lia.
  - rewrite Hl. simpl. rewrite mi_nused0, El. simpl length. rewrite u32_id; lia.
Qed.

Lemma mem_inv_close st sid :
  mem_inv_but sid st -> nalloc_ (minfo st sid) < 16 -> mem_inv st.
Proof.
  intros [] Hn. split; try done. intros j Hj _. destruct (Z.eq_dec j sid) as [->|]; [done|]. auto.
Qed.

(** The bytes [ConPutKV] stores: the start time and the value, cut to a chunk. *)
Definition item_bytes (t : Z) (value : list Z) (value_len : Z) : list Z :=
  le_bytes 8 t ++ take (Z.to_nat (if value_len <? CHUNK_SIZE then value_len else CHUNK_SIZE)) value.

Lemma store_app m off a b :
  0 <= off -> off + Z.of_nat (length a) + Z.of_nat (length b) <= Z.of_nat (length m) ->
  store (store m off a) (off + Z.of_nat (length a)) b = store m off (a ++ b).
Proof.
  intros H1 H2. apply list_eq. intros i.
  rewrite !lookup_store by (rewrite ?length_store, ?length_app; lia).
  rewrite length_app. repeat case_decide; try lia; try done.
  - rewrite lookup_app_r by lia. f_equal. lia.
  - rewrite lookup_app_l by lia. done.
Qed.

Lemma write_item_store st off t value value_len :
  0 <= off -> off + SLAB_ITEM_SIZE <= Z.of_nat (length (mstart_ st)) ->
  write_item st off t value value_len = set_mstart st (store (mstart_ st) off (item_bytes t value value_len)).
Proof.
  intros H1 H2. unfold write_item, item_bytes, SLAB_ITEM_SIZE, CHUNK_SIZE in *. cbv zeta.
  f_equal. rewrite <- store_app; rewrite ?length_le_bytes; [done|done|].
  rewrite length_take. destruct (Z.ltb_spec value_len 248); lia.
Qed.

Lemma item_bytes_length t value value_len :
  Z.of_nat (length (item_bytes t value value_len)) <= SLAB_ITEM_SIZE.
Proof.
  unfold item_bytes, SLAB_ITEM_SIZE, CHUNK_SIZE. rewrite length_app, length_le_bytes, length_take.
  destruct (Z.ltb_spec value_len 248); lia.
Qed.

Lemma item_offset_bounds nm sid n :
  0 <= sid < nm -> 0 <= n < 16 ->
  0 <= item_offset sid n /\ item_offset sid n + SLAB_ITEM_SIZE <= nm * SLAB_SIZE.
Proof. unfold item_offset, SLAB_SIZE, SLAB_ITEM_SIZE. nia. Qed.

Lemma mem_inv_hole st h : mem_inv st -> mem_inv_but h st.
Proof.
  intros Hi. assert (Hin : forall j, j ∈ open_slabs (ctable st) -> j <> -1).
  { intros j Hj. assert (0 <= j); [|lia]. apply (mem_inv_slab _ _ _ Hi). rewrite !elem_of_app. tauto. }
  destruct Hi. split; auto.
Qed.

(** Writing the item and the bookkeeping, once the class has a slab. *)
Lemma put_into_slab st source_id metric_id start_time end_time value value_len txn sid :
  let x := metric_id mod CX_NUM in
  let y := source_id mod CY_NUM in
  mem_inv st -> id_ok source_id metric_id ->
  class_slab_id_ (class_of st x y) = sid -> sid <> UINT32_MAX ->
  exists off st1 st2,
    WritableItem (set_minfo st sid (set_cid (minfo st sid) x y)) sid = Some (off, st1) /\
    off = item_offset sid (nalloc_ (minfo st sid)) /\
    record_series (write_item st1 off start_time value value_len) sid source_id metric_id
      start_time end_time txn = Some st2 /\
    mem_inv_but sid st2 /\
    nalloc_ (minfo st2 sid) = nalloc_ (minfo st sid) + 1 /\
    cid_x_ (minfo st2 sid) = x /\ cid_y_ (minfo st2 sid) = y /\
    class_slab_id_ (class_of st2 x y) = sid /\
    setting_ st2 = setting_ st /\ queues st2 = queues st /\
    mstart_ st2 = store (mstart_ st) off (item_bytes start_time value value_len).
Proof.
  intros x y Hi Hid Ec Hne.
  destruct (current_slab _ _ _ _ _ Hi Ec Hne) as (Hin & Hr & Hnf & Hnl).
  pose proof (mi_info _ _ Hi sid Hr) as (I1 & I2 & I3 & I4 & I5 & I6 & I7 & I8).
  pose proof (mi_open _ _ Hi sid Hin ltac:(lia)) as Hopen. pose proof (mi_table _ _ Hi) as Ht.
  pose proof (mi_size _ _ Hi) as [Hsz1 Hsz2].
  set (s := minfo st sid) in *. set (s0 := set_cid s x y).
  set (s1 := set_nalloc s0 (u8 (nalloc_ s0 + 1))).
  assert (Hu : u8 (nalloc_ s + 1) = nalloc_ s + 1) by (apply wrap_id; unfold is_u; lia).
  set (off := item_offset sid (nalloc_ s)).
  set (st0 := set_minfo st sid s0).
  assert (E0 : minfo st0 sid = s0) by (subst st0; rewrite minfo_set, decide_True by (done || lia); done).
  assert (EW : WritableItem st0 sid = Some (off, set_minfo st0 sid s1)).
  { unfold WritableItem, ValidSid. rewrite E0. change (setting_ st0) with (setting_ st).
    rewrite !(proj2 (Z.ltb_lt _ _)) by lia. simpl. rewrite I1. done. }
  set (st1 := set_minfo st0 sid s1) in *.
  assert (Hb := item_offset_bounds _ sid (nalloc_ s) Hr ltac:(lia)). fold off in Hb.
  set (m := store (mstart_ st) off (item_bytes start_time value value_len)).
  assert (Ewr : write_item st1 off start_time value value_len = set_mstart st1 m).
  { rewrite write_item_store; [done|lia|]. change (mstart_ st1) with (mstart_ st).
    rewrite (mi_mem _ _ Hi). lia. }
  set (st1' := set_mstart st1 m).
  assert (E1 : minfo st1' sid = s1).
  { change (minfo st1' sid) with (minfo (set_minfo st0 sid s1) sid).
    rewrite minfo_set, decide_True; try done; [simpl; rewrite length_insert; lia|lia]. }
  assert (Hi1 : mem_inv_but sid st1').
  { pose proof (item_bytes_length start_time value value_len).
    apply mem_inv_mstart; [|change (length m = length (mstart_ st)); apply length_store;
      rewrite ?(mi_mem _ _ Hi); lia].
    assert (Hi0 : mem_inv_but sid st0).
    { apply mem_inv_minfo; [by apply mem_inv_hole|done|by split_and!; simpl; (done || lia)|by intros ?|by intros _|by intros ?]. }
    apply mem_inv_minfo; [done|done| |by intros ?|by intros _|by intros ?].
    split_and!; simpl; rewrite ?Hu; try done; lia. }
  destruct (record_series_ok st1' sid source_id metric_id start_time end_time txn Hi1)
    as (st2 & Er & Hi2 & F1 & F2 & F3 & F4 & F5 & F6 & F7 & F8); try done; rewrite ?E1; try done.
  { subst s1 s0. simpl. rewrite Hu. lia. }
  rewrite E1 in F5, F6, F7. fold x y in F8.
  exists off, st1, st2. rewrite Ewr. split_and!; try done.
  - rewrite F5. exact Hu.
  - rewrite F8. exact Ec.
Qed.

(** The last block of [ConPutKV]. *)
Lemma retire_or_keep st x y sid :
  mem_inv_but sid st -> class_slab_id_ (class_of st x y) = sid -> sid <> UINT32_MAX ->
  0 <= sid < nmslab_ (setting_ st) ->
  cid_x_ (minfo st sid) = x -> cid_y_ (minfo st sid) = y ->
  exists st',
    (if SlabFull (minfo st sid) then
       let st1 := InsertMemFullQueue st sid in
       if bool_decide ((cid_x_ (minfo st sid), cid_y_ (minfo st sid)) = (x, y)) then
         Some (true, sid, set_class st1 (cid_x_ (minfo st sid)) (cid_y_ (minfo st sid))
           (set_class_slab (class_of st1 (cid_x_ (minfo st sid)) (cid_y_ (minfo st sid))) UINT32_MAX))
       else None
     else Some (true, sid, st)) = Some (true, sid, st') /\
    mem_inv st' /\ setting_ st' = setting_ st /\ mstart_ st' = mstart_ st /\
    mstable_ st' = mstable_ st /\ mass_tree_ st' = mass_tree_ st.
Proof.
  intros Hi Ec Hne Hr Ex Ey. pose proof (mi_info _ _ Hi sid Hr) as (_ & _ & _ & _ & _ & _ & _ & Hn).
  rewrite Ex, Ey, bool_decide_true by done. unfold SlabFull, SLAB_SIZE, SLAB_ITEM_SIZE.
  change (4 * 1024 / 256) with 16. destruct (Z.eqb_spec (nalloc_ (minfo st sid)) 16) as [E|E].
  - eexists. split; [reflexivity|]. split_and!; try done. exact (mem_inv_retire st x y sid Hi Ec Hne E).
  - eexists. split; [reflexivity|]. split_and!; try done. apply (mem_inv_close _ sid); [done|lia].
Qed.

(** What [ConPutKV] does when the class can be given a slab. *)
Definition put_done st source_id metric_id start_time value value_len sid st' : Prop :=
  let x := metric_id mod CX_NUM in
  let y := source_id mod CY_NUM in
  exists n,
    n = (if class_slab_id_ (class_of st x y) =? UINT32_MAX then 0 else nalloc_ (minfo st sid)) /\
    (class_slab_id_ (class_of st x y) <> UINT32_MAX -> class_slab_id_ (class_of st x y) = sid) /\
    0 <= n < 16 /\ 0 <= sid < nmslab_ (setting_ st) /\ setting_ st' = setting_ st /\
    mstart_ st' = store (mstart_ st) (item_offset sid n) (item_bytes start_time value value_len) /\
    nalloc_ (minfo st' sid) = n + 1.

Lemma minfo_table st st' i : mstable_ st' = mstable_ st -> minfo st' i = minfo st i.
Proof. unfold minfo. by intros ->. Qed.

Lemma ConPutKV_steps st source_id metric_id start_time end_time value value_len txn :
  mem_inv st -> id_ok source_id metric_id ->
  let r := ConPutKV st source_id metric_id start_time end_time value value_len txn in
  (r = Some (false, 0, st) /\
    class_slab_id_ (class_of st (metric_id mod CX_NUM) (source_id mod CY_NUM)) = UINT32_MAX /\
    free_msinfoq_ (queues st) = [] /\ mem_evict_sinfoq_ (queues st) = []) \/
  exists sid st', r = Some (true, sid, st') /\ mem_inv st' /\
    put_done st source_id metric_id start_time value value_len sid st'.
Proof.
  intros Hi Hid r. subst r. unfold ConPutKV, put_done. cbv zeta.
  set (x := metric_id mod CX_NUM). set (y := source_id mod CY_NUM).
  destruct (class_slab_id_ (class_of st x y) =? UINT32_MAX) eqn:Eb.
  all: pose proof (mi_size _ _ Hi) as [Hsz _].
  - apply Z.eqb_eq in Eb. destruct (open_slab st x y) as [[|] st0] eqn:Eo;
      [|by apply open_slab_fails in Eo as (-> & ? & ?); left].
    destruct (open_slab_ok _ _ _ _ Hi Eb Eo) as (sid & Hi0 & (Ec & Hr & Hn) & Es & Em).
    right. rewrite Ec. pose proof (mi_info _ _ Hi0 sid Hr) as (_ & _ & _ & _ & _ & _ & _ & _).
    destruct (put_into_slab st0 source_id metric_id start_time end_time value value_len txn sid
      Hi0 Hid Ec ltac:(rewrite Es in Hr; lia))
      as (off & st1 & st2 & EW & Hoff & ER & Hi2 & Hn2 & Hx & Hy & Hc & Hs & Hq & Hm).
    fold x y in EW, Hx, Hy, Hc. rewrite EW, ER.
    destruct (retire_or_keep st2 x y sid) as (st' & EK & Hi' & S1 & S2 & S3 & S4); try done;
      [rewrite Es in Hr; lia|congruence|]. cbv zeta in EK. rewrite EK.
    exists sid, st'. split; [done|]. split; [done|]. exists 0.
    rewrite (minfo_table _ _ _ S3), Hn2, Hn, S1, Hs, S2, Hm, Hoff, Hn, Em.
    rewrite Es in *. split_and!; done || lia.
  - apply Z.eqb_neq in Eb. right. set (sid := class_slab_id_ (class_of st x y)) in *.
    destruct (current_slab _ st x y sid Hi eq_refl Eb) as (Hin & Hr & _ & _).
    pose proof (mi_open _ _ Hi sid Hin ltac:(lia)) as Hopen.
    pose proof (mi_info _ _ Hi sid Hr) as (_ & _ & _ & _ & _ & _ & Hidx & _).
    destruct (put_into_slab st source_id metric_id start_time end_time value value_len txn sid
      Hi Hid eq_refl Eb)
      as (off & st1 & st2 & EW & Hoff & ER & Hi2 & Hn2 & Hx & Hy & Hc & Hs & Hq & Hm).
    fold x y in EW, Hx, Hy, Hc. rewrite EW, ER.
    destruct (retire_or_keep st2 x y sid) as (st' & EK & Hi' & S1 & S2 & S3 & S4); try done;
      [congruence|]. cbv zeta in EK. rewrite EK.
    exists sid, st'. split; [done|]. split; [done|]. exists (nalloc_ (minfo st sid)).
    rewrite (minfo_table _ _ _ S3), Hn2, S1, Hs, S2, Hm, Hoff.
    split_and!; done || lia.
Qed.

(** [ConPutKV] keeps the books: every memory slab is still in exactly one
    of the free queue, the full queue, the eviction queue or the hands of one
    class; the counters equal the queue lengths; no slab array is overrun.
    It returns (no assertion fails, no null item is written), and it fails
    only when the class holds no slab and none is free or evictable, leaving
    the store as it was. *)
Theorem put_keeps_books st source_id metric_id start_time end_time value value_len txn :
  mem_inv st -> id_ok source_id metric_id ->
  exists flag sid st',
    ConPutKV st source_id metric_id start_time end_time value value_len txn = Some (flag, sid, st') /\
    mem_inv st' /\
    (flag = false -> st' = st /\ free_msinfoq_ (queues st) = [] /\ mem_evict_sinfoq_ (queues st) = [] /\
      class_slab_id_ (class_of st (metric_id mod CX_NUM) (source_id mod CY_NUM)) = UINT32_MAX).
Proof.
  intros Hi Hid.
  destruct (ConPutKV_steps st source_id metric_id start_time end_time value value_len txn Hi Hid)
    as [(-> & ? & ? & ?)|(sid & st' & -> & Hi' & _)].
  - by exists false, 0, st.
  - by exists true, sid, st'.
Qed.

(** Items do not overlap. *)
Lemma items_disjoint sid n sid' n' :
  0 <= n < 16 -> 0 <= n' < 16 -> (sid, n) <> (sid', n') ->
  item_offset sid n + SLAB_ITEM_SIZE <= item_offset sid' n' \/
  item_offset sid' n' + SLAB_ITEM_SIZE <= item_offset sid n.
Proof.
  intros H1 H2 Hne. unfold item_offset, SLAB_SIZE, SLAB_ITEM_SIZE.
  destruct (Z.eq_dec sid sid') as [<-|]; [|nia]. assert (n <> n') by congruence. nia.
Qed.

(** C25. A successful [ConPutKV] stores the start time and the value (cut to
    248 bytes) in the next item of the returned slab, where a read of that
    item finds them, and changes no other item of any slab. *)
Theorem put_stores_item st source_id metric_id start_time end_time value value_len txn sid st' :
  mem_inv st -> id_ok source_id metric_id ->
  ConPutKV st source_id metric_id start_time end_time value value_len txn = Some (true, sid, st') ->
  exists n, 0 <= n < 16 /\ nalloc_ (minfo st' sid) = n + 1 /\
    load (mstart_ st') (item_offset sid n) (Z.of_nat (length (item_bytes start_time value value_len)))
      = item_bytes start_time value value_len /\
    (forall sid' n', 0 <= sid' < nmslab_ (setting_ st) -> 0 <= n' < 16 -> (sid', n') <> (sid, n) ->
      load (mstart_ st') (item_offset sid' n') SLAB_ITEM_SIZE
        = load (mstart_ st) (item_offset sid' n') SLAB_ITEM_SIZE).
Proof.
  intros Hi Hid E.
  destruct (ConPutKV_steps st source_id metric_id start_time end_time value value_len txn Hi Hid)
    as [(Ef & _)|(sid0 & st0 & Es & _ & Hd)]; [by rewrite Ef in E|].
  rewrite Es in E. injection E as -> ->.
  destruct Hd as (n & _ & _ & Hn & Hr & Hset & Hm & Hna). exists n. rewrite Hm.
  pose proof (item_offset_bounds _ sid n Hr Hn). pose proof (item_bytes_length start_time value value_len).
  pose proof (mi_mem _ _ Hi) as Hmem.
  split_and!; try done; try lia.
  - apply load_store; lia.
  - intros sid' n' Hr' Hn' Hne. pose proof (item_offset_bounds _ sid' n' Hr' Hn').
    destruct (items_disjoint sid' n' sid n Hn' Hn Hne); apply load_store_disjoint; try lia;
    unfold SLAB_ITEM_SIZE in *; lia.
Qed.

(** The books are in order when the store is built. *)
Lemma init_store_inv (empty : T) info nm nd nbuf :
  0 <= nm < UINT32_MAX -> nm <= nd -> mem_inv (init_store empty info nm nd nbuf).
Proof.
  intros Hn Hd.
  assert (Hget : forall i, 0 <= i < nm -> minfo (init_store empty info nm nd nbuf) i = fresh_info true i).
  { intros i Hi. unfold minfo. simpl. rewrite list_lookup_fmap, lookup_seqZ_lt by lia. simpl. f_equal. lia. }
  split; try done.
  - simpl. rewrite length_map, length_seqZ. lia.
  - simpl. rewrite length_replicate. unfold SLAB_SIZE. lia.
  - simpl. intros i Hi. rewrite Hget by done. split_and!; simpl; done || lia.
  - simpl. unfold open_slabs. rewrite map_to_list_empty. simpl. by rewrite !app_nil_r.
  - simpl. intros i Hi. apply elem_of_seqZ in Hi. by rewrite Hget by lia.
  - simpl. intros i Hi. by apply elem_of_nil in Hi.
  - simpl. intros i Hi. by apply elem_of_nil in Hi.
  - simpl. rewrite length_seqZ. lia.
Qed.

(** Two slab refs in a row in a result of [ScanMT] differ, and it loses none. *)
Lemma add_slabs_elem acc vals r : r ∈ add_slabs acc vals <-> r ∈ acc \/ r ∈ vals.
Proof.
  revert acc. induction vals as [|v vals IH]; intros acc; simpl.
  { rewrite elem_of_nil. tauto. }
  rewrite IH, elem_of_cons. destruct (List.rev acc) as [|l acc'] eqn:E.
  - rewrite elem_of_app, list_elem_of_singleton. tauto.
  - case_bool_decide as Hv; [|rewrite elem_of_app, list_elem_of_singleton; tauto].
    assert (l ∈ acc) by (apply list_elem_of_In, in_rev; rewrite E; by left).
    subst v. split; [tauto|]. intros [?|[->|?]]; tauto.
Qed.

(** A range lookup returns exactly the slabs that the index holds for the
    series under a time in the half-open range. *)
Theorem scan_finds_range st source_id metric_id start_time end_time r :
  is_u64 source_id -> is_u 16 metric_id -> is_u64 start_time -> is_u64 end_time ->
  (forall k v, tr_find (mass_tree_ st) k = Some v ->
     exists s m t, is_u64 s /\ is_u 16 m /\ is_u64 t /\ k = EnCodeKey [] s m t) ->
  r ∈ ScanMT st source_id metric_id start_time end_time <->
  exists t, start_time <= t < end_time /\ SearchMT st source_id metric_id t = Some r.
Proof.
  intros Hs Hm Ht1 Ht2 Hk. unfold ScanMT, SearchMT, get_value.
  rewrite add_slabs_elem, elem_of_nil, list_elem_of_fmap. split.
  - intros [[]|([k v] & -> & Hin)]. simpl.
    apply scan_spec in Hin as (Hf & Hlo & Hhi). destruct (Hk _ _ Hf) as (s & m & t & ? & ? & ? & ->).
    destruct (EnCodeKey_between source_id metric_id start_time end_time s m t) as (-> & -> & ?); try done.
    by exists t.
  - intros (t & Ht & Hf). right. exists (EnCodeKey [] source_id metric_id t, r). split; [done|].
    apply scan_spec. split; [done|]. assert (is_u64 t) by (unfold is_u64, is_u in *; lia).
    unfold key_le. rewrite !EnCodeKey_time by done. split; [apply Z.ltb_ge|apply Z.ltb_lt]; lia.
Qed.

End Invariant.

(** ** Examples *)

Definition small_store : TreeSeries (gmap (list Z) SlabRef) := init_store ∅ [] 2 2 1.

Lemma small_store_inv : mem_inv small_store.
Proof. by apply init_store_inv. Qed.

Definition after_put : option (bool * Z * TreeSeries (gmap (list Z) SlabRef)) :=
  ConPutKV small_store 30005 107 1000 2000 [1; 2; 3; 4] 3 9.

Lemma put_keeps_books_witness :
  exists flag sid st', after_put = Some (flag, sid, st') /\ mem_inv st' /\
    (flag = false -> st' = small_store /\ free_msinfoq_ (queues small_store) = [] /\
      mem_evict_sinfoq_ (queues small_store) = [] /\
      class_slab_id_ (class_of small_store (107 mod CX_NUM) (30005 mod CY_NUM)) = UINT32_MAX).
Proof.
  assert (Hid : id_ok 30005 107) by (vm_compute; repeat split; congruence).
  unfold after_put.
  exact (put_keeps_books small_store 30005 107 1000 2000 [1; 2; 3; 4] 3 9 small_store_inv Hid).
Defined.

Lemma put_stores_item_witness :
  exists st' n, after_put = Some (true, 0, st') /\ 0 <= n < 16 /\ nalloc_ (minfo st' 0) = n + 1 /\
    load (mstart_ st') (item_offset 0 n) 11 = [232; 3; 0; 0; 0; 0; 0; 0; 1; 2; 3].
Proof.
  set (st' := match after_put with Some (_, _, s) => s | None => small_store end).
  assert (E : after_put = Some (true, 0, st')) by (vm_compute; reflexivity).
  assert (Hid : id_ok 30005 107) by (vm_compute; repeat split; congruence).
  destruct (put_stores_item small_store 30005 107 1000 2000 [1; 2; 3; 4] 3 9 0 st' small_store_inv Hid E)
    as (n & Hn & Ha & Hl & _).
  exists st', n. split; [exact E|]. split; [exact Hn|]. split; [exact Ha|]. exact Hl.
Defined.

Lemma scan_finds_range_witness :
  let st := set_tree small_store {[ EnCodeKey [] 5 7 1500 := MemRef 1 ]} in
  MemRef 1 ∈ ScanMT st 5 7 1000 2000.
Proof.
  intros st. refine (proj2 (scan_finds_range st 5 7 1000 2000 (MemRef 1) _ _ _ _ _) _).
  1-4: vm_compute; split; congruence.
  - intros k v Hk. change (({[ EnCodeKey [] 5 7 1500 := MemRef 1 ]} : gmap (list Z) SlabRef) !! k = Some v) in Hk.
    apply lookup_singleton_Some in Hk as [<- _].
    exists 5, 7, 1500. split_and!; vm_compute; done || split; congruence.
  - exists 1500. split; [lia|]. vm_compute. reflexivity.
Defined.
