(* ===== verification/SlabFlush.v ===== *)
(** TreeSeries/TreeSeries.cpp: the paths that move slabs to the SSD and from
    there to migration, reading, the older slab-allocation calls, and recovery.

    [pwrite] is the system call: [pwrite_n off size] is the number of bytes it
    reports (-1 on error).  The writes a flush hands to its thread pool and
    awaits before it returns are done where they are enqueued; the memory of a
    slab does not change in between on the flushing thread.  The device holds
    every disk slab, so a read of one is never short. *)
From Stdlib Require Import ZArith Lia Bool.
From stdpp Require Import base list numbers option gmap sorting.
From S2P Require Import Prelude Endian Coding BitStream XORChunk MassTree SlabStore.

Class Device := pwrite_n : Z -> Z -> Z.

Section Flush.
Context {T : Type} `{TreeOps T SlabRef} `{Device}.
Implicit Types st : TreeSeries T.

(** ** Device *)

Definition SlabToDaddr (s : SlabInfo) : Z := slab_id_ s * SLAB_SIZE.

(** [OptWriteToSSD]; [WriteToSSD] is the case of one slab.  [None]: an
    assertion fails or an exception is thrown. *)
Definition OptWriteToSSD (st : TreeSeries T) (msid dsid slab_num : Z) : option (TreeSeries T) :=
  let size := SLAB_SIZE * slab_num in
  let offset := SlabToDaddr (dinfo st dsid) in
  let n := pwrite_n offset size in
  if n <? size then None
  else Some (set_ssd st (store (ssd_ st) offset (load (mstart_ st) (msid * SLAB_SIZE) size))).

Definition WriteToSSD (st : TreeSeries T) (msid dsid : Z) : option (TreeSeries T) :=
  OptWriteToSSD st msid dsid 1.

(** ** Runs of consecutive slabs *)

Definition id_at (ids : list Z) (i : Z) : Z := nth (Z.to_nat i) ids 0.

(** The loop of [FindSinfoSubSequence]; [end_] grows at every turn. *)
Fixpoint find_runs (fuel : nat) (ids : list Z) (count start end_ : Z) : option (list (Z * Z)) :=
  match fuel with
  | O => None
  | S fuel =>
    if start <? count then
      if u32 (id_at ids end_ + 1) =? id_at ids (end_ + 1) then
        if end_ + 1 =? count then Some [(start, end_ + 1)]
        else find_runs fuel ids count start (end_ + 1)
      else
        l ← find_runs fuel ids count (end_ + 1) (end_ + 1);
        Some ((start, end_) :: l)
    else Some []
  end.

Definition FindSinfoSubSequence (ids : list Z) (count : Z) : option (list (Z * Z)) :=
  if count =? 0 then Some [(0, 0)] else find_runs (S (Z.to_nat count)) ids count 0 0.

(** [std::stable_sort] with [compareSlabInfo]. *)
Definition slab_before (f : Z -> SlabInfo) (a b : Z) : Prop := slab_id_ (f a) <= slab_id_ (f b).

#[export] Instance slab_before_dec f a b : Decision (slab_before f a b).
Proof. unfold slab_before. apply _. Defined.

Definition sort_slabs (f : Z -> SlabInfo) (l : list Z) : list Z := merge_sort (slab_before f) l.

(** ** Flushing *)

(** The popping loop shared by the flushes and the migrations. *)
Definition batch (n : Z) (q : list Z) : list Z * list Z :=
  (take (Nat.max 1 (Z.to_nat n)) q, drop (Nat.max 1 (Z.to_nat n)) q).

(** Slab [j] of a run gets its disk slab's info and joins the used queue; in
    the lazy flush the pair also joins the eviction queue. *)
Definition hand_over (lazy : bool) (ws ds : list Z) (st : TreeSeries T) (j : Z) : TreeSeries T :=
  let m := id_at ws j in
  let d := id_at ds j in
  let st := set_dinfo st d (CopyInfo (dinfo st d) (minfo st m)) in
  let q := queues st in
  let q := if lazy then set_mem_evict q (mem_evict_sinfoq_ q ++ [(m, d)]) else q in
  set_queues st (set_used_dsinfoq q (used_dsinfoq_ q ++ [d])).

(** One run: in one write if the disk slabs are consecutive too, else slab by
    slab. *)
Definition flush_run (lazy : bool) (ws ds : list Z) (st : TreeSeries T) (run : Z * Z) : option (TreeSeries T) :=
  let '(a, b) := run in
  let js := seqZ a (b - a + 1) in
  if (b - a) =? u32 (slab_id_ (dinfo st (id_at ds b)) - slab_id_ (dinfo st (id_at ds a))) then
    st ← OptWriteToSSD st (slab_id_ (minfo st (id_at ws a))) (slab_id_ (dinfo st (id_at ds a))) (b - a + 1);
    Some (foldl (hand_over lazy ws ds) st js)
  else
    foldl (fun (r : option (TreeSeries T)) j =>
      st ← r;
      let st := hand_over lazy ws ds st j in
      OptWriteToSSD st (slab_id_ (minfo st (id_at ws j))) (slab_id_ (dinfo st (id_at ds j))) 1)
      (Some st) js.

Definition flush_runs (lazy : bool) (ws ds : list Z) (st : TreeSeries T) (runs : list (Z * Z))
    : option (TreeSeries T) :=
  foldl (fun r run => st ← r; flush_run lazy ws ds st run) (Some st) runs.

Definition WriteDiskSlabInfo (st : TreeSeries T) : TreeSeries T := set_info st (dstable_ st).

(** The keys of a flushed slab move to its disk slab and it is freed; [s']
    gives the metric of the keys. *)
Definition release (st : TreeSeries T) (md : Z * Z) : TreeSeries T :=
  let s := minfo st md.1 in
  let st := update_keys st s (dinfo st md.2) (DiskRef md.2) (series_of s) in
  set_minfo st md.1 (FreeSlab s).

Definition push_free (st : TreeSeries T) (ws : list Z) : TreeSeries T :=
  let q := queues st in
  let n := Z.of_nat (length ws) in
  let st := set_queues st (set_free_msinfoq q (free_msinfoq_ q ++ ws)) in
  count_disk (count_mem st n 0 (- n) 0) (- n) n 0.

Definition requeue_full (st : TreeSeries T) (rest ws : list Z) : TreeSeries T :=
  set_queues st (set_full_msinfoq (queues st) (rest ++ ws)).

Definition OptBatchWrite (st : TreeSeries T) : option (bool * TreeSeries T) :=
  let n := counters st in
  let wbs := write_batch_size_ (setting_ st) in
  if (nfull_msinfoq_ n <? wbs) && (nfree_dsinfoq_ n <? wbs) then Some (false, st)
  else if bool_decide (full_msinfoq_ (queues st) = []) then Some (false, st)
  else
    let '(ws, rest) := batch wbs (full_msinfoq_ (queues st)) in
    let count := length ws in
    if Nat.ltb (length (free_dsinfoq_ (queues st))) count then Some (false, requeue_full st rest ws)
    else
      let q := set_full_msinfoq (queues st) rest in
      let ds := take count (free_dsinfoq_ q) in
      let st := set_queues st (set_free_dsinfoq q (drop count (free_dsinfoq_ q))) in
      let st := WriteDiskSlabInfo st in
      let ws := sort_slabs (minfo st) ws in
      runs ← FindSinfoSubSequence (map (fun w => slab_id_ (minfo st w)) ws) (Z.of_nat count - 1);
      st ← flush_runs false ws ds st runs;
      let st := foldl release st (zip ws ds) in
      Some (true, push_free st ws).

(** Disk slabs for a lazy flush: free ones first, then evicted ones, whose
    keys leave the index. *)
Definition evict_disk (st : TreeSeries T) (d : Z) : TreeSeries T :=
  let s := dinfo st d in
  let st := remove_keys (count_disk st 0 0 (-1)) s (series_of s) in
  set_dinfo st d (FreeSlab s).

Definition take_disk (st : TreeSeries T) (count : nat) : list Z * TreeSeries T :=
  let num := Nat.min count (Z.to_nat (nfree_dsinfoq_ (counters st))) in
  let q := queues st in
  let fs := take num (free_dsinfoq_ q) in
  let es := take (count - num) (disk_evict_sinfoq_ q) in
  let q := set_free_dsinfoq q (drop num (free_dsinfoq_ q)) in
  let q := set_disk_evict q (drop (count - num) (disk_evict_sinfoq_ q)) in
  let st := count_disk (set_queues st q) (- Z.of_nat num) 0 0 in
  (fs ++ es, foldl evict_disk st es).

Definition OptBatchWriteLazyFlush (st : TreeSeries T) : option (bool * TreeSeries T) :=
  let n := counters st in
  let wbs := write_batch_size_ (setting_ st) in
  if (nfull_msinfoq_ n <? wbs) && (u32 (nfree_dsinfoq_ n + n_disk_evict_sinfo_ n) <? wbs) then
    Some (false, st)
  else if bool_decide (full_msinfoq_ (queues st) = []) then Some (false, st)
  else
    let '(ws, rest) := batch wbs (full_msinfoq_ (queues st)) in
    let count := length ws in
    if Nat.ltb (length (free_dsinfoq_ (queues st)) + length (disk_evict_sinfoq_ (queues st))) count then
      Some (false, requeue_full st rest ws)
    else
      let st := set_queues st (set_full_msinfoq (queues st) rest) in
      let '(ds, st) := take_disk st count in
      let ds := sort_slabs (dinfo st) ds in
      let st := WriteDiskSlabInfo st in
      let ws := sort_slabs (minfo st) ws in
      runs ← FindSinfoSubSequence (map (fun w => slab_id_ (minfo st w)) ws) (Z.of_nat count - 1);
      st ← flush_runs true ws ds st runs;
      let c := Z.of_nat count in
      Some (true, count_disk (count_mem st 0 0 (- c) c) 0 c 0).

(** [BatchWrite]: every slab in a write of its own; the info of the disk slab
    is not copied. *)
Definition BatchWrite (st : TreeSeries T) : option (bool * TreeSeries T) :=
  let wbs := write_batch_size_ (setting_ st) in
  if bool_decide (full_msinfoq_ (queues st) = []) then Some (false, st)
  else
    let '(ws, rest) := batch wbs (full_msinfoq_ (queues st)) in
    let count := length ws in
    if Nat.ltb (length (free_dsinfoq_ (queues st))) count then Some (false, requeue_full st rest ws)
    else
      let q := set_full_msinfoq (queues st) rest in
      let ds := take count (free_dsinfoq_ q) in
      let q := set_free_dsinfoq q (drop count (free_dsinfoq_ q)) in
      let st := set_queues st (set_used_dsinfoq q (used_dsinfoq_ q ++ ds)) in
      st ← foldl (fun (r : option (TreeSeries T)) md =>
             st ← r;
             let st := set_dinfo st md.2 (set_free (dinfo st md.2) false) in
             let st := set_minfo st md.1 (set_free (minfo st md.1) true) in
             WriteToSSD st (slab_id_ (minfo st md.1)) (slab_id_ (dinfo st md.2))) (Some st) (zip ws ds);
      let st := foldl release st (zip ws ds) in
      Some (true, push_free st ws).

Definition ForceFlush (st : TreeSeries T) : TreeSeries T :=
  foldl (fun st i =>
    let s := minfo st i in
    if negb (free_ s) && negb (nalloc_ s =? SLAB_SIZE / SLAB_ITEM_SIZE) then InsertMemFullQueue st i
    else st) st (seqZ 0 (nmslab_ (setting_ st))).

(** ** Reading *)

(** [ReadDiskSlab]: the buffer and what is read into it.  [None]: it waits for
    a free buffer. *)
Definition ReadDiskSlab (st : TreeSeries T) (s : SlabInfo) : option (Z * list Z * TreeSeries T) :=
  match free_bsinfoq_ (queues st) with
  | [] => None
  | b :: rest =>
    let st := count_buf (set_queues st (set_free_bsinfoq (queues st) rest)) (-1) in
    Some (b, load (ssd_ st) (SlabToDaddr s) SLAB_SIZE, st)
  end.

Definition FreeBufSlab (st : TreeSeries T) (b : Z) : TreeSeries T :=
  let q := queues st in
  count_buf (set_queues st (set_free_bsinfoq q (free_bsinfoq_ q ++ [b]))) 1.

Fixpoint BatchDiskRead (st : TreeSeries T) (ds : list Z) : option (list (list Z) * TreeSeries T) :=
  match ds with
  | [] => Some ([], st)
  | d :: ds =>
    '(_, slab, st) ← ReadDiskSlab st (dinfo st d);
    '(slabs, st) ← BatchDiskRead st ds;
    Some (slab :: slabs, st)
  end.

Definition SequentialDiskRead (st : TreeSeries T) (ds : list Z) : list (list Z) :=
  let off := SlabToDaddr (dinfo st (id_at ds 0)) in
  let seq_read_buf_ := load (ssd_ st) off (SLAB_SIZE * Z.of_nat (length ds)) in
  map (fun i => load seq_read_buf_ (Z.of_nat i * SLAB_SIZE) SLAB_SIZE) (seq 0 (length ds)).

(** The common part of the two migrations: a batch of used disk slabs and
    their contents, if there are enough of them. *)
Definition migrate_batch (st : TreeSeries T)
    : option (option (list Z * list (list Z) * bool) * TreeSeries T) :=
  let nbuf := nbuf_slab_ (setting_ st) in
  if nused_dsinfoq_ (counters st) <? migrate_batch_size_ (setting_ st) then Some (None, st)
  else if Z.of_nat (length (used_dsinfoq_ (queues st))) <? nbuf then Some (None, st)
  else
    let '(ds, rest) := batch nbuf (used_dsinfoq_ (queues st)) in
    let count := Z.of_nat (length ds) in
    let st := count_disk (set_queues st (set_used_dsinfoq (queues st) rest)) 0 (- count) 0 in
    if u32 (slab_id_ (dinfo st (id_at ds (count - 1))) - slab_id_ (dinfo st (id_at ds 0)) + 1) =? count then
      Some (Some (ds, SequentialDiskRead st ds, true), st)
    else
      '(slabs, st) ← BatchDiskRead st ds;
      Some (Some (ds, slabs, false), st).

(** [MigrateRead]: the keys go at once and the disk slabs are free again. *)
Definition MigrateRead (st : TreeSeries T)
    : option (option (list (Z * list Z) * bool) * TreeSeries T) :=
  '(r, st) ← migrate_batch st;
  match r with
  | None => Some (None, st)
  | Some (ds, slabs, is_seq) =>
    let st := foldl (fun st d => remove_keys st (dinfo st d) (series_of (dinfo st d))) st ds in
    let q := queues st in
    let st := set_queues st (set_free_dsinfoq q (free_dsinfoq_ q ++ ds)) in
    Some (Some (zip ds slabs, is_seq), count_disk st (Z.of_nat (length ds)) 0 0)
  end.

(** [MigrateReadLazyFlush]: the disk slabs wait in the disk eviction queue and
    keep their keys. *)
Definition MigrateReadLazyFlush (st : TreeSeries T)
    : option (option (list (Z * list Z) * bool) * TreeSeries T) :=
  '(r, st) ← migrate_batch st;
  match r with
  | None => Some (None, st)
  | Some (ds, slabs, is_seq) =>
    let q := queues st in
    let st := set_queues st (set_disk_evict q (disk_evict_sinfoq_ q ++ ds)) in
    Some (Some (zip ds slabs, is_seq), count_disk st 0 0 (Z.of_nat (length ds)))
  end.

(** [Scan]: the slabs of a range lookup, with their contents. *)
Fixpoint read_slabs (st : TreeSeries T) (rs : list SlabRef) : option (list (list Z) * TreeSeries T) :=
  match rs with
  | [] => Some ([], st)
  | r :: rs =>
    let s := info_at st r in
    if slab_id_ s =? UINT32_MAX then read_slabs st rs
    else
      '(slab, st) ← if mem_ s then Some (load (mstart_ st) (slab_id_ s * SLAB_SIZE) SLAB_SIZE, st)
                    else '(_, slab, st) ← ReadDiskSlab st s; Some (slab, st);
      '(l, st) ← read_slabs st rs;
      Some (slab :: l, st)
  end.

Definition Scan (st : TreeSeries T) (source_id metric_id start_time end_time : Z)
    : option (list (SlabRef * list Z) * TreeSeries T) :=
  let sinfo_arr := ScanMT st source_id metric_id start_time end_time in
  '(slabs, st) ← read_slabs st sinfo_arr;
  Some (zip sinfo_arr slabs, st).

(** ** Recovery *)

(** [RecoveryDiskSlabInfo]: the info file becomes the disk table, and the keys
    of every slab that is not marked free are put back. *)
Definition RecoveryDiskSlabInfo (st : TreeSeries T) : TreeSeries T :=
  let st := mkTreeSeries (setting_ st) (mstart_ st) (ssd_ st) (info_ st) (mstable_ st) (info_ st)
              (ctable st) (mass_tree_ st) (queues st) (counters st) in
  foldl (fun st i =>
    let s := dinfo st i in
    if free_ s then st else insert_keys st s (DiskRef i) (series_of s)) st
    (seqZ 0 (ndslab_ (setting_ st))).

(** [TraverseMasstree]: every entry below the largest key. *)
Definition TraverseMasstree (st : TreeSeries T) : list (list Z * SlabRef) :=
  scan (mass_tree_ st) (EnCodeKey [] 0 0 0) false
    (EnCodeKey [] (2 ^ 64 - 1) (2 ^ 16 - 1) (2 ^ 64 - 1)) true.

(** ** The older allocation calls *)

(** [GetMemSlabID]; the call with a start time ([start] is [Some]) records it
    when it opens a slab or adds a series, and leaves the slab's class ids
    alone. *)
Definition GetMemSlabID (st : TreeSeries T) (source_id metric_id : Z) (start : option Z)
    : bool * Z * TreeSeries T :=
  let x := metric_id mod CX_NUM in
  let y := source_id mod CY_NUM in
  let c := class_of st x y in
  let set_time s i := match start with Some t => set_start s i t | None => s end in
  let closed := (class_slab_id_ c =? UINT32_MAX) || (idx_ (minfo st (class_slab_id_ c)) =? MAX_SERIES_NUM)
                || SlabFull (minfo st (class_slab_id_ c)) in
  if closed then
    let '(flag, st) := open_slab st x y in
    if flag then
      let sid := class_slab_id_ (class_of st x y) in
      let s := set_idx (set_ids (minfo st sid) 0 (u8 (source_id / CY_NUM)) (u8 (metric_id / CX_NUM))) 1 in
      let s := set_time s 0 in
      let s := match start with Some _ => s | None => set_cid s x y end in
      (true, sid, set_minfo st sid s)
    else (false, 0, st)
  else
    let sid := class_slab_id_ c in
    let s := minfo st sid in
    let i := idx_ s in
    let s := set_time (set_ids s i (u8 (source_id / CY_NUM)) (u8 (metric_id / CX_NUM))) i in
    (true, sid, set_minfo st sid (set_idx s (u8 (i + 1)))).

(** [GetDiskSlabID]; only the call with a start time keeps the counters. *)
Definition GetDiskSlabID (st : TreeSeries T) (source_id metric_id : Z) (start : option Z)
    : bool * Z * TreeSeries T :=
  let q := queues st in
  match free_dsinfoq_ q with
  | [] => (false, 0, st)
  | d :: rest =>
    let st := set_queues st (set_used_dsinfoq (set_free_dsinfoq q rest) (used_dsinfoq_ q ++ [d])) in
    let st := match start with Some _ => count_disk st (-1) 1 0 | None => st end in
    let s := set_ids (set_free (dinfo st d) false) 0 (u8 source_id) (u8 metric_id) in
    let s := match start with Some t => set_start s 0 t | None => s end in
    (true, slab_id_ s, set_dinfo st d s)
  end.

(** [PutKV]: the slab is given by the caller.  The end keys are inserted when
    the slab fills up. *)
Definition PutKV (st : TreeSeries T) (sid source_id metric_id key end_time : Z)
    (value : list Z) (value_len : Z) : bool * TreeSeries T :=
  if negb (ValidSid st sid) || SlabFull (minfo st sid) then (false, st)
  else
    let f_sgid := u8 (source_id / CY_NUM) in
    let f_mid := u8 (metric_id / CX_NUM) in
    match WritableItem st sid with
    | None => (false, st)
    | Some (off, st) =>
      let s := minfo st sid in
      let '(idx, st) :=
        match find_series s f_sgid f_mid (series_of s) with
        | Some idx => (idx, st)
        | None =>
          let idx := idx_ s in
          let s := set_start (set_ids (set_idx s (u8 (idx + 1))) idx f_sgid f_mid) idx key in
          let st := set_minfo st sid s in
          (idx, InsertMT st (GetSinfoSourceID st s idx) (GetSinfoMetricID st s idx)
                  (arr (start_time_ s) idx) (MemRef sid))
        end in
      let st := write_item st off key value value_len in
      let s := set_end (minfo st sid) idx end_time in
      let st := set_minfo st sid s in
      if SlabFull s then
        let st := InsertMemFullQueue st sid in
        let st := foldl (fun st i => InsertMT st (GetSinfoSourceID st s i) (GetSinfoMetricID st s i)
                          (arr (end_time_ s) i) (MemRef sid)) st (series_of s) in
        (true, set_class st (cid_x_ s) (cid_y_ s)
                 (set_class_slab (class_of st (cid_x_ s) (cid_y_ s)) UINT32_MAX))
      else (true, st)
    end.

End Flush.

(** ** Reading an item back *)

(** [ReadSlabItem]: the item and how many follow it in the slab. *)
Definition ReadSlabItem (slab : list Z) (s : SlabInfo) (idx : Z) : list Z * Z :=
  (load slab (idx * SLAB_ITEM_SIZE) SLAB_ITEM_SIZE, u32 (nalloc_ s - idx)).

(** [DecodeChunk]: the metric, the group and the samples of a chunk.  The
    first byte is a tag; the chunk's bit stream starts at byte 11. *)
Definition DecodeChunk `{PastEnd} (chunk : list Z) : Z * Z * list (Z * Z) :=
  let s := take (Z.to_nat CHUNK_SIZE) chunk in
  let mid := DecodeFixed16 (drop 1 s) in
  let sgid := DecodeFixed64BE (drop 3 s) in
  let c := xor_chunk_of (drop 11 s) (CHUNK_SIZE - 11) false in
  (mid, sgid, (run (chunk_iterator c)).1).

(** ** Runs *)

(** Slab [i] of the batch is followed by the next slab id. *)
Definition linked (ids : list Z) (i : Z) : Prop := u32 (id_at ids i + 1) = id_at ids (i + 1).

#[export] Instance linked_dec ids i : Decision (linked ids i).
Proof. unfold linked. apply _. Defined.

Definition run_slabs (run : Z * Z) : list Z := seqZ run.1 (run.2 - run.1 + 1).

(** How far the runs reach: the last slab of the batch is left out when it does
    not continue the run before it. *)
Definition reached (ids : list Z) (count : Z) : Z :=
  if decide (count = 0 \/ linked ids (count - 1)) then count + 1 else count.

Definition run_ok (ids : list Z) (run : Z * Z) : Prop :=
  0 <= run.1 <= run.2 /\ forall i, run.1 <= i < run.2 -> linked ids i.

Lemma seqZ_split a b c : a <= b -> b <= c -> seqZ a (b - a) ++ seqZ b (c - b) = seqZ a (c - a).
Proof.
  intros H1 H2. replace (c - a) with ((b - a) + (c - b)) by lia.
  rewrite seqZ_app by lia. do 2 f_equal. lia.
Qed.

Lemma find_runs_spec fuel ids count start end_ :
  0 < count -> 0 <= start <= end_ -> end_ <= count -> (start = count \/ end_ < count) ->
  (start = count -> ~ linked ids (count - 1)) ->
  (forall i, start <= i < end_ -> linked ids i) ->
  (Z.to_nat (count - end_) < fuel)%nat ->
  exists runs, find_runs fuel ids count start end_ = Some runs /\
    Forall (run_ok ids) runs /\
    runs ≫= run_slabs = seqZ start (reached ids count - start).
Proof.
  revert start end_. induction fuel as [|fuel IH]; intros start end_ Hc Hs He Hor Hn Hl Hf; [lia|].
  cbn [find_runs]. destruct (Z.ltb_spec start count) as [Hlt|Hge].
  - destruct (Z.eqb_spec (u32 (id_at ids end_ + 1)) (id_at ids (end_ + 1))) as [Hk|Hk].
    + assert (Hl' : forall i, start <= i < end_ + 1 -> linked ids i).
      { intros i Hi. destruct (Z.eq_dec i end_) as [->|]; [done|]. apply Hl. lia. }
      destruct (Z.eqb_spec (end_ + 1) count) as [Ee|Ee].
      * eexists. split; [done|]. split.
        -- constructor; [|done]. split; [simpl; lia|done].
        -- unfold reached. rewrite decide_True by (right; replace (count - 1) with end_ by lia; done).
           simpl. rewrite app_nil_r. unfold run_slabs. simpl. f_equal. lia.
      * apply IH; try done; try lia.
    + destruct (IH (end_ + 1) (end_ + 1)) as (l & El & Hok & Hcat); try done; try lia.
      { intros E1 E2. apply Hk. unfold linked in E2. by replace (count - 1) with end_ in E2 by lia. }
      rewrite El. eexists. split; [done|]. split.
      * constructor; [|done]. split; [simpl; lia|done].
      * cbn [mbind list_bind]. fold (l ≫= run_slabs). rewrite Hcat. unfold run_slabs. simpl.
        replace (end_ - start + 1) with (end_ + 1 - start) by lia. apply seqZ_split; [lia|].
        unfold reached. case_decide; lia.
  - eexists. split; [done|]. split; [done|]. simpl.
    unfold reached. rewrite decide_False; [rewrite seqZ_nil by lia; done|].
    assert (start = count) by lia. intros [?|?]; [lia|by apply Hn].
Qed.

Lemma FindSinfoSubSequence_spec ids count :
  0 <= count ->
  exists runs, FindSinfoSubSequence ids count = Some runs /\ Forall (run_ok ids) runs /\
    runs ≫= run_slabs = seqZ 0 (reached ids count).
Proof.
  intros Hc. unfold FindSinfoSubSequence. destruct (Z.eqb_spec count 0) as [->|Hne].
  - eexists. split; [done|]. split; [constructor; [|done]; split; simpl; lia|]. done.
  - destruct (find_runs_spec (S (Z.to_nat count)) ids count 0 0) as (runs & E & Hok & Hcat);
      try lia. rewrite Z.sub_0_r in Hcat. eauto.
Qed.

Section FlushProps.
Context {T : Type} `{TreeLaws T SlabRef} `{Device}.
Implicit Types st : TreeSeries T.

(** *** Handing slabs over *)

Definition hand_queues (lazy : bool) (ws ds : list Z) (q : Queues) (js : list Z) : Queues :=
  let q := if lazy then set_mem_evict q (mem_evict_sinfoq_ q ++ map (fun j => (id_at ws j, id_at ds j)) js)
           else q in
  set_used_dsinfoq q (used_dsinfoq_ q ++ map (id_at ds) js).

Definition hand_table (ws ds : list Z) (ms dt : list SlabInfo) (js : list Z) : list SlabInfo :=
  foldl (fun dt j =>
    let d := id_at ds j in
    <[Z.to_nat d := CopyInfo (default (fresh_info false d) (dt !! Z.to_nat d))
         (default (fresh_info true (id_at ws j)) (ms !! Z.to_nat (id_at ws j)))]> dt) dt js.

(** What [hand_over] does to the state, in one step. *)
Definition handed (lazy : bool) (ws ds : list Z) st (js : list Z) : TreeSeries T :=
  mkTreeSeries (setting_ st) (mstart_ st) (ssd_ st) (info_ st) (mstable_ st)
    (hand_table ws ds (mstable_ st) (dstable_ st) js) (ctable st) (mass_tree_ st)
    (hand_queues lazy ws ds (queues st) js) (counters st).

Lemma hand_queues_nil lazy ws ds q : hand_queues lazy ws ds q [] = q.
Proof. destruct lazy, q; unfold hand_queues; simpl; by rewrite ?app_nil_r. Qed.

Lemma hand_queues_cons lazy ws ds q j js :
  hand_queues lazy ws ds (hand_queues lazy ws ds q [j]) js = hand_queues lazy ws ds q (j :: js).
Proof. destruct lazy, q; unfold hand_queues; simpl; by rewrite <- !app_assoc. Qed.

Lemma hand_over_handed lazy ws ds st js : foldl (hand_over lazy ws ds) st js = handed lazy ws ds st js.
Proof.
  revert st. induction js as [|j js IH]; intros st; cbn [foldl].
  - unfold handed. rewrite hand_queues_nil. by destruct st.
  - rewrite IH. unfold handed. f_equal. rewrite <- hand_queues_cons.
    unfold hand_over, hand_queues. destruct lazy; done.
Qed.

Lemma hand_table_app ws ds ms dt js js' :
  hand_table ws ds ms dt (js ++ js') = hand_table ws ds ms (hand_table ws ds ms dt js) js'.
Proof. apply foldl_app. Qed.

Lemma handed_app lazy ws ds st js js' :
  handed lazy ws ds (handed lazy ws ds st js) js' = handed lazy ws ds st (js ++ js').
Proof. by rewrite <- !hand_over_handed, foldl_app. Qed.

(** The disk table keeps its slab ids, and holds a copy of every slab handed
    over. *)
Definition table_ids (dt : list SlabInfo) : Prop :=
  forall i s, dt !! i = Some s -> slab_id_ s = Z.of_nat i.

Lemma hand_table_ids ws ds ms dt js :
  Forall (fun j => 0 <= id_at ds j) js ->
  table_ids dt -> table_ids (hand_table ws ds ms dt js) /\ length (hand_table ws ds ms dt js) = length dt.
Proof.
  revert dt. induction js as [|j js IH]; intros dt Hj Hd; [done|]. inversion Hj; subst.
  edestruct (IH (hand_table ws ds ms dt [j])) as [I1 I2]; [done| |split; [exact I1|]].
  2: etransitivity; [exact I2|apply length_insert].
  intros i s Hi. apply list_lookup_insert_Some in Hi as [(<- & <- & Hlt)|[_ Hi]]; [|by apply Hd].
  simpl. destruct (dt !! Z.to_nat (id_at ds j)) as [s|] eqn:E; [by apply Hd in E|].
  apply lookup_ge_None in E. lia.
Qed.

Lemma dinfo_id st d : table_ids (dstable_ st) -> 0 <= d -> slab_id_ (dinfo st d) = d.
Proof.
  intros Ht Hd. unfold dinfo. destruct (dstable_ st !! Z.to_nat d) as [s|] eqn:E; [|done].
  apply Ht in E. simpl. lia.
Qed.

(** *** Copying slabs to the device *)

(** Slab by slab, the reference for both ways of writing. *)
Definition copy_slabs (ws ds : list Z) (mem ssd : list Z) (js : list Z) : list Z :=
  foldl (fun ssd j => store ssd (id_at ds j * SLAB_SIZE) (load mem (id_at ws j * SLAB_SIZE) SLAB_SIZE)) ssd js.

(** Writing one slab at a time, the effect of a flush of the slabs [js]. *)
Definition flushed (lazy : bool) (ws ds : list Z) st (js : list Z) : TreeSeries T :=
  set_ssd (handed lazy ws ds st js) (copy_slabs ws ds (mstart_ st) (ssd_ st) js).

Lemma flushed_app lazy ws ds st js js' :
  flushed lazy ws ds (flushed lazy ws ds st js) js' = flushed lazy ws ds st (js ++ js').
Proof.
  unfold flushed. rewrite <- handed_app. unfold copy_slabs. rewrite foldl_app. done.
Qed.

(** Slab ids that fit the memory and the device. *)
Definition slabs_in (n : Z) (l : list Z) (js : list Z) : Prop := Forall (fun j => 0 <= id_at l j < n) js.

Lemma one_write ws ds mem ssd nm nd a n :
  Z.of_nat (length mem) = nm * SLAB_SIZE -> Z.of_nat (length ssd) = nd * SLAB_SIZE ->
  (forall i, a <= i <= a + Z.of_nat n -> 0 <= id_at ws i < nm /\ 0 <= id_at ds i < nd) ->
  (forall i, a <= i <= a + Z.of_nat n -> id_at ws i = id_at ws a + (i - a) /\ id_at ds i = id_at ds a + (i - a)) ->
  copy_slabs ws ds mem ssd (seqZ a (Z.of_nat n + 1)) =
  store ssd (id_at ds a * SLAB_SIZE) (load mem (id_at ws a * SLAB_SIZE) (SLAB_SIZE * (Z.of_nat n + 1))).
Proof.
  intros Hm Hd Hr Hc. induction n as [|n IH].
  - done.
  - replace (Z.of_nat (S n) + 1) with ((Z.of_nat n + 1) + 1) by lia. rewrite seqZ_app by lia.
    unfold copy_slabs. rewrite foldl_app. fold (copy_slabs ws ds mem ssd (seqZ a (Z.of_nat n + 1))).
    rewrite IH by (intros; apply Hr || apply Hc; lia).
    destruct (Hc (a + (Z.of_nat n + 1)) ltac:(lia)) as [E1 E2].
    destruct (Hr (a + Z.of_nat (S n)) ltac:(lia)) as [R1 R2]. destruct (Hr a ltac:(lia)) as [R3 R4].
    destruct (Hc (a + Z.of_nat (S n)) ltac:(lia)) as [E3 E4].
    change (seqZ (a + (Z.of_nat n + 1)) 1) with [a + (Z.of_nat n + 1)]. cbn [foldl].
    rewrite E1, E2. rewrite (Z.mul_add_distr_l _ (Z.of_nat n + 1) 1), Z.mul_1_r.
    rewrite (load_split _ _ _ SLAB_SIZE) by (unfold SLAB_SIZE; lia).
    unfold SLAB_SIZE in *.
    set (la := load mem (id_at ws a * (4 * 1024)) (4 * 1024 * (Z.of_nat n + 1))).
    assert (Hla : Z.of_nat (length la) = 4 * 1024 * (Z.of_nat n + 1)).
    { subst la. rewrite length_load by lia. lia. }
    rewrite <- store_app; [|lia|rewrite Hla, length_load by lia; lia].
    rewrite Hla. f_equal; [lia|]. f_equal. lia.
Qed.

(** What a flush of the batch [ws] to the disk slabs [ds] starts from: slabs
    in range, disk slabs in increasing order, and a device that takes every
    write whole. *)
Record flush_ready (ws ds : list Z) (n : Z) st : Prop := {
  fr_mem : Z.of_nat (length (mstart_ st)) = nmslab_ (setting_ st) * SLAB_SIZE;
  fr_ssd : Z.of_nat (length (ssd_ st)) = ndslab_ (setting_ st) * SLAB_SIZE;
  fr_nm : nmslab_ (setting_ st) < UINT32_MAX;
  fr_nd : ndslab_ (setting_ st) < UINT32_MAX;
  fr_ws : forall i, 0 <= i < n -> 0 <= id_at ws i < nmslab_ (setting_ st);
  fr_wid : forall i, 0 <= i < n -> slab_id_ (minfo st (id_at ws i)) = id_at ws i;
  fr_ds : forall i, 0 <= i < n -> 0 <= id_at ds i < ndslab_ (setting_ st);
  fr_ids : table_ids (dstable_ st);
  fr_sorted : forall i j, 0 <= i < j -> j < n -> id_at ds i < id_at ds j;
  fr_dev : forall off size, pwrite_n off size = size }.

Lemma length_copy_slabs ws ds mem ssd nm nd js :
  Z.of_nat (length mem) = nm * SLAB_SIZE -> Z.of_nat (length ssd) = nd * SLAB_SIZE ->
  slabs_in nm ws js -> slabs_in nd ds js -> length (copy_slabs ws ds mem ssd js) = length ssd.
Proof.
  intros Hm. revert ssd. induction js as [|j js IH]; intros ssd Hs Hw Hd; [done|].
  inversion Hw; inversion Hd; subst.
  assert (El : length (store ssd (id_at ds j * SLAB_SIZE) (load mem (id_at ws j * SLAB_SIZE) SLAB_SIZE))
               = length ssd).
  { unfold SLAB_SIZE in *. rewrite length_store; [done|lia|]. rewrite length_load by lia. lia. }
  unfold copy_slabs. cbn [foldl]. fold (copy_slabs ws ds mem).
  etransitivity; [apply IH; [by rewrite El|done|done]|exact El].
Qed.

Lemma slabs_in_seq n l a k m :
  (forall i, 0 <= i < m -> 0 <= id_at l i < n) -> 0 <= a -> a + k <= m -> slabs_in n l (seqZ a k).
Proof. intros Hl Ha Hk. apply Forall_forall. intros i Hi%elem_of_seqZ. apply Hl. lia. Qed.

Lemma flush_ready_flushed lazy ws ds n st a k :
  flush_ready ws ds n st -> 0 <= a -> a + k <= n -> flush_ready ws ds n (flushed lazy ws ds st (seqZ a k)).
Proof.
  intros [] Ha Hk. split; try done.
  - change (ssd_ _) with (copy_slabs ws ds (mstart_ st) (ssd_ st) (seqZ a k)).
    erewrite length_copy_slabs; [done|done|done| |]; by eapply slabs_in_seq.
  - apply hand_table_ids; [|done]. eapply Forall_impl; [by eapply slabs_in_seq|]. simpl. lia.
Qed.

(** In an increasing sequence, ends as far apart as their positions leave no
    gap. *)
Lemma increasing_span (l : list Z) a b :
  (forall i j, a <= i < j -> j <= b -> id_at l i < id_at l j) -> b - a = id_at l b - id_at l a ->
  forall i, a <= i <= b -> id_at l i = id_at l a + (i - a).
Proof.
  intros Hs E i Hi.
  assert (L1 : forall k, a <= a + Z.of_nat k <= b -> id_at l a + Z.of_nat k <= id_at l (a + Z.of_nat k)).
  { induction k as [|k IH]; intros Hk; [rewrite !Z.add_0_r; lia|].
    pose proof (Hs (a + Z.of_nat k) (a + Z.of_nat (S k))). lia. }
  assert (L2 : forall k, a <= b - Z.of_nat k <= b -> id_at l (b - Z.of_nat k) <= id_at l b - Z.of_nat k).
  { induction k as [|k IH]; intros Hk; [rewrite !Z.sub_0_r; lia|].
    pose proof (Hs (b - Z.of_nat (S k)) (b - Z.of_nat k)). lia. }
  specialize (L1 (Z.to_nat (i - a))). specialize (L2 (Z.to_nat (b - i))).
  rewrite Z2Nat.id in L1, L2 by lia. replace (a + (i - a)) with i in L1 by lia.
  replace (b - (b - i)) with i in L2 by lia. lia.
Qed.

Lemma linked_span (l : list Z) nm a b :
  nm < UINT32_MAX -> (forall i, a <= i <= b -> 0 <= id_at l i < nm) ->
  (forall i, a <= i < b -> linked l i) ->
  forall i, a <= i <= b -> id_at l i = id_at l a + (i - a).
Proof.
  intros Hn Hr Hl i Hi.
  assert (L : forall k, a <= a + Z.of_nat k <= b -> id_at l (a + Z.of_nat k) = id_at l a + Z.of_nat k).
  { induction k as [|k IH]; intros Hk; [rewrite !Z.add_0_r; lia|].
    pose proof (Hl (a + Z.of_nat k) ltac:(lia)) as Hk'. unfold linked in Hk'.
    pose proof (Hr (a + Z.of_nat k) ltac:(lia)). unfold UINT32_MAX in *. rewrite u32_id in Hk' by lia.
    replace (a + Z.of_nat (S k)) with (a + Z.of_nat k + 1) by lia. lia. }
  specialize (L (Z.to_nat (i - a))). rewrite Z2Nat.id in L by lia.
  replace (a + (i - a)) with i in L by lia. lia.
Qed.

(** The loop over a run whose disk slabs are scattered. *)
Lemma slab_by_slab lazy ws ds n st a k :
  flush_ready ws ds n st -> 0 <= a -> a + Z.of_nat k <= n ->
  foldl (fun (r : option (TreeSeries T)) j => st ← r;
    let st := hand_over lazy ws ds st j in
    OptWriteToSSD st (slab_id_ (minfo st (id_at ws j))) (slab_id_ (dinfo st (id_at ds j))) 1)
    (Some st) (seqZ a (Z.of_nat k)) = Some (flushed lazy ws ds st (seqZ a (Z.of_nat k))).
Proof.
  intros Hr Ha. induction k as [|k IH]; intros Hk.
  - change (seqZ a (Z.of_nat 0)) with (@nil Z). cbn [foldl]. unfold flushed, handed, set_ssd. simpl.
    rewrite hand_queues_nil. by destruct st.
  - rewrite seqZ_S, foldl_app, IH by lia. cbn [foldl mbind option_bind].
    pose proof (flush_ready_flushed lazy ws ds n st a (Z.of_nat k) Hr ltac:(lia) ltac:(lia)) as Hr'.
    rewrite <- flushed_app. set (st' := flushed lazy ws ds st (seqZ a (Z.of_nat k))) in *.
    set (j := a + Z.of_nat k). pose proof (fr_ds _ _ _ _ Hr' j ltac:(lia)).
    change (hand_over lazy ws ds st' j) with (foldl (hand_over lazy ws ds) st' [j]).
    rewrite hand_over_handed. unfold OptWriteToSSD.
    change (minfo (handed lazy ws ds st' [j])) with (minfo st').
    assert (Hd : table_ids (dstable_ (handed lazy ws ds st' [j]))).
    { apply hand_table_ids; [|apply (fr_ids _ _ _ _ Hr')]. constructor; [lia|done]. }
    rewrite (fr_wid _ _ _ _ Hr'), (fr_dev _ _ _ _ Hr'), Z.ltb_irrefl by lia. unfold SlabToDaddr.
    rewrite !dinfo_id by (done || (rewrite ?dinfo_id by (done || lia); lia)).
    rewrite Z.mul_1_r. done.
Qed.

(** Both ways of writing a run copy it slab by slab. *)
Lemma flush_run_flushed lazy ws ds n st a b :
  flush_ready ws ds n st -> run_ok ws (a, b) -> b < n ->
  flush_run lazy ws ds st (a, b) = Some (flushed lazy ws ds st (run_slabs (a, b))).
Proof.
  intros Hr [Hab Hl] Hb. simpl in Hab, Hl. unfold flush_run, run_slabs. cbn [fst snd].
  pose proof (fr_ds _ _ _ _ Hr a ltac:(lia)). pose proof (fr_ds _ _ _ _ Hr b ltac:(lia)).
  pose proof (fr_nd _ _ _ _ Hr) as Hnd. unfold UINT32_MAX in Hnd.
  rewrite !dinfo_id by (apply (fr_ids _ _ _ _ Hr) || lia).
  assert (Hge : id_at ds a <= id_at ds b).
  { destruct (Z.eq_dec a b) as [->|]; [lia|]. pose proof (fr_sorted _ _ _ _ Hr a b). lia. }
  rewrite u32_id by lia. destruct (Z.eqb_spec (b - a) (id_at ds b - id_at ds a)) as [E|E].
  - unfold OptWriteToSSD. rewrite (fr_wid _ _ _ _ Hr) by lia.
    rewrite (fr_dev _ _ _ _ Hr), Z.ltb_irrefl. cbn [mbind option_bind]. rewrite hand_over_handed.
    unfold flushed, handed, set_ssd, SlabToDaddr. simpl. do 2 f_equal.
    rewrite dinfo_id by (apply (fr_ids _ _ _ _ Hr) || lia).
    replace (b - a + 1) with (Z.of_nat (Z.to_nat (b - a)) + 1) by lia. symmetry.
    eapply one_write; [apply (fr_mem _ _ _ _ Hr)|apply (fr_ssd _ _ _ _ Hr)| |]; intros i Hi; split.
    + apply (fr_ws _ _ _ _ Hr); lia.
    + apply (fr_ds _ _ _ _ Hr); lia.
    + apply (linked_span ws (nmslab_ (setting_ st)) a b); try done; [apply (fr_nm _ _ _ _ Hr)| |lia].
      intros k Hk. apply (fr_ws _ _ _ _ Hr). lia.
    + apply (increasing_span ds a b); try done; [|lia]. intros k k' ? ?. apply (fr_sorted _ _ _ _ Hr); lia.
  - replace (b - a + 1) with (Z.of_nat (Z.to_nat (b - a + 1))) by lia.
    apply (slab_by_slab _ _ _ n); [done|lia|lia].
Qed.

Lemma flush_runs_flushed lazy ws ds n st runs :
  flush_ready ws ds n st -> Forall (run_ok ws) runs -> Forall (fun r => r.2 < n) runs ->
  flush_runs lazy ws ds st runs = Some (flushed lazy ws ds st (runs ≫= run_slabs)).
Proof.
  revert st. induction runs as [|[a b] runs IH]; intros st Hr Hok Hn.
  - unfold flush_runs, flushed, handed, set_ssd. simpl. rewrite hand_queues_nil. by destruct st.
  - inversion Hok as [|? ? Hok1 Hok2]; inversion Hn as [|? ? Hn1 Hn2]; subst. simpl in Hn1.
    unfold flush_runs. cbn [foldl]. cbn [mbind option_bind].
    rewrite (flush_run_flushed _ _ _ n) by done.
    etransitivity; [apply IH; try done|].
    + destruct Hok1 as [? _]. simpl in *. apply flush_ready_flushed; [done|simpl; lia|simpl; lia].
    + cbn [mbind list_bind]. by rewrite flushed_app.
Qed.

(** *** Disk slabs *)

Lemma perm_rotate {A} (a b c d : list A) : a ++ (b ++ c) ++ d ≡ₚ c ++ a ++ b ++ d.
Proof.
  rewrite !app_assoc. apply Permutation_app_tail. rewrite <- !app_assoc, (app_assoc a b).
  apply Permutation_app_comm.
Qed.

(** Every disk slab is in exactly one of the free queue, the used queue and the
    disk eviction queue, and the counters count them. *)
Record disk_inv st : Prop := {
  di_size : 0 <= ndslab_ (setting_ st) < UINT32_MAX;
  di_table : Z.of_nat (length (dstable_ st)) = ndslab_ (setting_ st);
  di_ids : table_ids (dstable_ st);
  di_ssd : Z.of_nat (length (ssd_ st)) = ndslab_ (setting_ st) * SLAB_SIZE;
  di_part : free_dsinfoq_ (queues st) ++ used_dsinfoq_ (queues st) ++ disk_evict_sinfoq_ (queues st)
    ≡ₚ seqZ 0 (ndslab_ (setting_ st));
  di_nfree : nfree_dsinfoq_ (counters st) = Z.of_nat (length (free_dsinfoq_ (queues st)));
  di_nused : nused_dsinfoq_ (counters st) = Z.of_nat (length (used_dsinfoq_ (queues st)));
  di_nevict : n_disk_evict_sinfo_ (counters st) = Z.of_nat (length (disk_evict_sinfoq_ (queues st))) }.

Lemma disk_count st :
  disk_inv st ->
  Z.of_nat (length (free_dsinfoq_ (queues st))) + Z.of_nat (length (used_dsinfoq_ (queues st)))
  + Z.of_nat (length (disk_evict_sinfoq_ (queues st))) = ndslab_ (setting_ st).
Proof.
  intros Hd. pose proof (Permutation_length (di_part _ Hd)) as Hl.
  rewrite !length_app, length_seqZ in Hl. pose proof (di_size _ Hd). lia.
Qed.

(** The memory side of the state is the same in both. *)
Definition same_memory st st' : Prop :=
  setting_ st' = setting_ st /\ mstart_ st' = mstart_ st /\ mstable_ st' = mstable_ st /\
  ctable st' = ctable st /\ free_msinfoq_ (queues st') = free_msinfoq_ (queues st) /\
  full_msinfoq_ (queues st') = full_msinfoq_ (queues st) /\
  mem_evict_sinfoq_ (queues st') = mem_evict_sinfoq_ (queues st) /\
  nfree_msinfoq_ (counters st') = nfree_msinfoq_ (counters st) /\
  nused_msinfoq_ (counters st') = nused_msinfoq_ (counters st) /\
  nfull_msinfoq_ (counters st') = nfull_msinfoq_ (counters st) /\
  n_mem_evict_sinfo_ (counters st') = n_mem_evict_sinfo_ (counters st).

Lemma same_memory_inv st st' : same_memory st st' -> mem_inv st -> mem_inv st'.
Proof.
  intros (E1 & E2 & E3 & E4 & E5 & E6 & E7 & E8 & E9 & E10 & E11) Hi.
  assert (Em : forall i, minfo st' i = minfo st i) by (intros i; unfold minfo; by rewrite E3).
  split; rewrite ?E1, ?E2, ?E3, ?E4, ?E5, ?E6, ?E7, ?E8, ?E9, ?E10, ?E11; try apply Hi;
    intros i; rewrite Em; apply Hi.
Qed.

(** Emptying an evicted disk slab. *)
Lemma evict_disk_frame st d :
  table_ids (dstable_ st) -> 0 <= d ->
  let st' := evict_disk st d in
  same_memory st st' /\ queues st' = queues st /\ ssd_ st' = ssd_ st /\
  table_ids (dstable_ st') /\ length (dstable_ st') = length (dstable_ st) /\
  nfree_dsinfoq_ (counters st') = u32 (nfree_dsinfoq_ (counters st) + 0) /\
  nused_dsinfoq_ (counters st') = u32 (nused_dsinfoq_ (counters st) + 0) /\
  n_disk_evict_sinfo_ (counters st') = u32 (n_disk_evict_sinfo_ (counters st) - 1).
Proof.
  intros Ht Hd. cbv zeta. unfold evict_disk.
  destruct (remove_keys_tree (count_disk st 0 0 (-1)) (dinfo st d) (series_of (dinfo st d))) as [t ->].
  split_and!; try done.
  - intros i s Hi. cbn [set_dinfo dstable_ set_tree count_disk set_counters] in Hi.
    apply list_lookup_insert_Some in Hi as [(<- & <- & _)|[_ Hi]]; [|by apply Ht].
    change (slab_id_ (dinfo st d) = Z.of_nat (Z.to_nat d)). rewrite dinfo_id by done. lia.
  - apply length_insert.
Qed.

Lemma evict_disks st es :
  table_ids (dstable_ st) -> Forall (fun d => 0 <= d) es ->
  is_u 32 (nfree_dsinfoq_ (counters st)) -> is_u 32 (nused_dsinfoq_ (counters st)) ->
  Z.of_nat (length es) <= n_disk_evict_sinfo_ (counters st) < 2 ^ 32 ->
  let st' := foldl evict_disk st es in
  same_memory st st' /\ queues st' = queues st /\ ssd_ st' = ssd_ st /\
  table_ids (dstable_ st') /\ length (dstable_ st') = length (dstable_ st) /\
  nfree_dsinfoq_ (counters st') = nfree_dsinfoq_ (counters st) /\
  nused_dsinfoq_ (counters st') = nused_dsinfoq_ (counters st) /\
  n_disk_evict_sinfo_ (counters st') = n_disk_evict_sinfo_ (counters st) - Z.of_nat (length es).
Proof.
  revert st. induction es as [|d es IH]; intros st Ht He Hf Hu Hn; cbn [foldl].
  { split_and!; try done. simpl. lia. }
  inversion He; subst. simpl length in Hn.
  destruct (evict_disk_frame st d Ht) as (F1 & F2 & F3 & F4 & F5 & F6 & F7 & F8); [done|].
  rewrite Z.add_0_r in F6, F7. unfold u32 in F6, F7. rewrite wrap_id in F6, F7 by done.
  rewrite u32_id in F8 by lia.
  destruct (IH (evict_disk st d)) as (G1 & G2 & G3 & G4 & G5 & G6 & G7 & G8);
    rewrite ?F6, ?F7, ?F8; try done; [lia|].
  unfold same_memory in *. split_and!; try (intuition congruence).
  rewrite G8, F8. simpl length. lia.
Qed.

(** Taking disk slabs for a lazy flush. *)
Lemma take_disk_spec st count ds st' :
  disk_inv st -> (count <= length (free_dsinfoq_ (queues st)) + length (disk_evict_sinfoq_ (queues st)))%nat ->
  take_disk st count = (ds, st') ->
  length ds = count /\ same_memory st st' /\ ssd_ st' = ssd_ st /\ table_ids (dstable_ st') /\
  length (dstable_ st') = length (dstable_ st) /\
  used_dsinfoq_ (queues st') = used_dsinfoq_ (queues st) /\
  nused_dsinfoq_ (counters st') = nused_dsinfoq_ (counters st) /\
  nfree_dsinfoq_ (counters st') = Z.of_nat (length (free_dsinfoq_ (queues st'))) /\
  n_disk_evict_sinfo_ (counters st') = Z.of_nat (length (disk_evict_sinfoq_ (queues st'))) /\
  ds ++ free_dsinfoq_ (queues st') ++ used_dsinfoq_ (queues st') ++ disk_evict_sinfoq_ (queues st')
    ≡ₚ seqZ 0 (ndslab_ (setting_ st)).
Proof.
  intros Hd Hc E. pose proof (disk_count st Hd) as Hcnt. pose proof (di_size _ Hd) as Hsz.
  unfold UINT32_MAX in Hsz.
  pose proof (di_part _ Hd) as Hp. unfold take_disk in E.
  rewrite (di_nfree _ Hd), Nat2Z.id in E.
  set (fq := free_dsinfoq_ (queues st)) in *. set (eq := disk_evict_sinfoq_ (queues st)) in *.
  set (num := Nat.min count (length fq)) in *. set (k := (count - num)%nat) in *.
  injection E as <- <-. set (st0 := count_disk _ _ _ _).
  destruct (evict_disks st0 (take k eq)) as (G1 & G2 & G3 & G4 & G5 & G6 & G7 & G8).
  { apply (di_ids _ Hd). }
  { apply Forall_forall. intros d Hin. assert (Hx : d ∈ seqZ 0 (ndslab_ (setting_ st))).
    { rewrite <- Hp, !elem_of_app. right. right. eapply subseteq_take; exact Hin. }
    apply elem_of_seqZ in Hx. lia. }
  { simpl. unfold u32. apply wrap_range. lia. }
  { simpl. unfold u32. apply wrap_range. lia. }
  { simpl. rewrite (di_nevict _ Hd). fold eq. rewrite Z.add_0_r, u32_id, length_take by lia. lia. }
  split_and!.
  - rewrite length_app, !length_take. lia.
  - exact G1.
  - exact G3.
  - exact G4.
  - exact G5.
  - rewrite G2. done.
  - rewrite G7. simpl. rewrite (di_nused _ Hd), Z.add_0_r. apply u32_id. lia.
  - rewrite G6, G2. simpl. rewrite (di_nfree _ Hd). fold fq. rewrite length_drop, u32_id; lia.
  - rewrite G8, G2. simpl. rewrite (di_nevict _ Hd). fold eq.
    rewrite Z.add_0_r, u32_id, length_drop, length_take by lia. lia.
  - rewrite G2. simpl. rewrite <- Hp.
    transitivity ((take num fq ++ drop num fq) ++ used_dsinfoq_ (queues st) ++ (take k eq ++ drop k eq));
      [|by rewrite !take_drop]. rewrite <- !app_assoc. apply Permutation_app_head.
    rewrite (Permutation_app_comm (take k eq)), <- !app_assoc.
    do 2 apply Permutation_app_head. apply Permutation_app_comm.
Qed.

(** *** Sorting a batch *)

#[local] Instance slab_before_total f : Total (slab_before f).
Proof. intros a b. unfold slab_before. lia. Qed.

#[local] Instance slab_before_trans f : Transitive (slab_before f).
Proof. intros a b c. unfold slab_before. lia. Qed.

Lemma id_at_lookup l i : 0 <= i < Z.of_nat (length l) -> l !! Z.to_nat i = Some (id_at l i).
Proof.
  intros Hi. unfold id_at. destruct (l !! Z.to_nat i) as [x|] eqn:E.
  - f_equal. symmetry. by apply nth_lookup_Some.
  - apply lookup_ge_None in E. lia.
Qed.

Lemma id_at_elem l i : 0 <= i < Z.of_nat (length l) -> id_at l i ∈ l.
Proof. intros Hi. eapply list_elem_of_lookup_2, id_at_lookup, Hi. Qed.

Lemma map_id_at l : map (id_at l) (seqZ 0 (Z.of_nat (length l))) = l.
Proof.
  apply list_eq. intros i. rewrite list_lookup_fmap. destruct (l !! i) as [x|] eqn:E.
  - pose proof (lookup_lt_Some _ _ _ E). rewrite lookup_seqZ_lt by lia. simpl.
    f_equal. unfold id_at. replace (Z.to_nat (0 + Z.of_nat i)) with i by lia. by apply nth_lookup_Some.
  - apply lookup_ge_None in E. by rewrite lookup_seqZ_ge by lia.
Qed.

Lemma sorted_lookup {A} (R : A -> A -> Prop) l i j x y :
  StronglySorted R l -> l !! i = Some x -> l !! j = Some y -> (i < j)%nat -> R x y.
Proof.
  intros Hs. revert i j. induction Hs as [|a l Hs IH Ha]; intros i j Hx Hy Hlt; [done|].
  destruct j as [|j]; [lia|]. simpl in Hy. destruct i as [|i]; simpl in Hx.
  - simplify_eq. rewrite Forall_forall in Ha. apply Ha. by eapply list_elem_of_lookup_2.
  - apply (IH i j); [done|done|lia].
Qed.

Lemma sort_slabs_increasing f l i j :
  NoDup l -> Forall (fun x => slab_id_ (f x) = x) l ->
  0 <= i < j -> j < Z.of_nat (length l) -> id_at (sort_slabs f l) i < id_at (sort_slabs f l) j.
Proof.
  intros Hn Hf Hi Hj. set (s := sort_slabs f l).
  assert (Hp : s ≡ₚ l) by apply merge_sort_Permutation.
  pose proof (Permutation_length Hp) as Hl.
  assert (Hs : StronglySorted (slab_before f) s) by (apply StronglySorted_merge_sort; apply _).
  pose proof (id_at_lookup s i ltac:(lia)) as Ei. pose proof (id_at_lookup s j ltac:(lia)) as Ej.
  pose proof (sorted_lookup _ _ _ _ _ _ Hs Ei Ej ltac:(lia)) as Hb. unfold slab_before in Hb.
  rewrite <- Hp in Hf. rewrite Forall_forall in Hf.
  rewrite !Hf in Hb by (apply id_at_elem; lia). rewrite <- Hp in Hn.
  destruct (Z.eq_dec (id_at s i) (id_at s j)) as [E|]; [|lia].
  rewrite E in Ei. pose proof (NoDup_lookup _ _ _ _ Hn Ei Ej). lia.
Qed.

Lemma map_slab_ids f l : Forall (fun x => slab_id_ (f x) = x) l -> map (fun w => slab_id_ (f w)) l = l.
Proof. induction 1 as [|x l E _ IH]; [done|]. simpl. by rewrite E, IH. Qed.

(** *** The lazy flush *)

Definition device_ok : Prop := forall off size, pwrite_n off size = size.

(** The full slabs the next flush takes. *)
Definition next_batch st : list Z :=
  (batch (write_batch_size_ (setting_ st)) (full_msinfoq_ (queues st))).1.

(** What a lazy flush that goes ahead does: the batch, in slab order, goes to
    increasing disk slabs, as far as the runs reach. *)
Record lazy_flushed st st' (ws rest ds : list Z) : Prop := {
  lf_ws : ws = sort_slabs (minfo st) (next_batch st);
  lf_batch : full_msinfoq_ (queues st) ≡ₚ ws ++ rest;
  lf_some : ws <> [];
  lf_len : length ds = length ws;
  lf_nodup : NoDup ds;
  lf_range : Forall (fun d => 0 <= d < ndslab_ (setting_ st)) ds;
  lf_js : exists st1 js,
    js = seqZ 0 (reached ws (Z.of_nat (length ws) - 1)) /\
    same_memory (set_queues st (set_full_msinfoq (queues st) rest)) st1 /\ ssd_ st1 = ssd_ st /\
    table_ids (dstable_ st1) /\ length (dstable_ st1) = length (dstable_ st) /\
    used_dsinfoq_ (queues st1) = used_dsinfoq_ (queues st) /\
    nused_dsinfoq_ (counters st1) = nused_dsinfoq_ (counters st) /\
    nfree_dsinfoq_ (counters st1) = Z.of_nat (length (free_dsinfoq_ (queues st1))) /\
    n_disk_evict_sinfo_ (counters st1) = Z.of_nat (length (disk_evict_sinfoq_ (queues st1))) /\
    ds ++ free_dsinfoq_ (queues st1) ++ used_dsinfoq_ (queues st1) ++ disk_evict_sinfoq_ (queues st1)
      ≡ₚ seqZ 0 (ndslab_ (setting_ st)) /\
    st' = (let c := Z.of_nat (length ws) in
           count_disk (count_mem (flushed true ws ds (WriteDiskSlabInfo st1) js) 0 0 (- c) c) 0 c 0) }.

Lemma runs_within ws runs n :
  Forall (run_ok ws) runs -> runs ≫= run_slabs = seqZ 0 n -> Forall (fun r => r.2 < n) runs.
Proof.
  intros Hok Hc. apply Forall_forall. intros [a b] Hin. rewrite Forall_forall in Hok.
  destruct (Hok _ Hin) as [Hab _]. simpl in *.
  assert (Hb : b ∈ runs ≫= run_slabs).
  { apply list_elem_of_bind. exists (a, b). split; [|done]. unfold run_slabs. simpl. apply elem_of_seqZ. lia. }
  rewrite Hc, elem_of_seqZ in Hb. lia.
Qed.

Lemma reached_bounds ids c : 0 <= c -> c <= reached ids c <= c + 1.
Proof. unfold reached. case_decide; lia. Qed.

(** The flush itself, once the batch and the disk slabs are chosen. *)
Lemma flush_batch st ws0 ds0 ndw :
  Z.of_nat (length (mstart_ st)) = nmslab_ (setting_ st) * SLAB_SIZE -> nmslab_ (setting_ st) < UINT32_MAX ->
  Forall (fun w => slab_id_ (minfo st w) = w) ws0 ->
  table_ids (dstable_ st) -> device_ok ->
  Z.of_nat (length (ssd_ st)) = ndslab_ (setting_ st) * SLAB_SIZE -> ndslab_ (setting_ st) < UINT32_MAX ->
  Forall (fun w => 0 <= w < nmslab_ (setting_ st)) ws0 ->
  Forall (fun d => 0 <= d < ndslab_ (setting_ st)) ds0 -> NoDup ds0 ->
  length ds0 = length ws0 -> ws0 <> [] ->
  let ws := sort_slabs (minfo st) ws0 in
  let ds := sort_slabs (dinfo st) ds0 in
  (runs ← FindSinfoSubSequence (map (fun w => slab_id_ (minfo st w)) ws) (Z.of_nat (length ws0) - 1);
   st ← flush_runs ndw ws ds st runs; Some st) =
  Some (flushed ndw ws ds st (seqZ 0 (reached ws (Z.of_nat (length ws0) - 1)))).
Proof.
  intros Hmem Hnm Hids Ht Hdev Hssd Hnd Hw Hd Hnod Hlen Hne ws ds.
  assert (Pw : ws ≡ₚ ws0) by apply merge_sort_Permutation.
  assert (Pd : ds ≡ₚ ds0) by apply merge_sort_Permutation.
  assert (Hw' : Forall (fun w => 0 <= w < nmslab_ (setting_ st)) ws) by (by rewrite Pw).
  rewrite <- Pw in Hids. rewrite map_slab_ids by done.
  assert (Hpos : 0 < Z.of_nat (length ws0)) by (destruct ws0; [done|simpl; lia]).
  destruct (FindSinfoSubSequence_spec ws (Z.of_nat (length ws0) - 1)) as (runs & -> & Hok & Hcat); [lia|].
  cbn [mbind option_bind].
  pose proof (reached_bounds ws (Z.of_nat (length ws0) - 1) ltac:(lia)) as Hrb.
  rewrite (flush_runs_flushed _ _ _ (Z.of_nat (length ws0))), Hcat; [done| |done|].
  - pose proof (Permutation_length Pw) as Lw. pose proof (Permutation_length Pd) as Ld.
    split; try done.
    + intros i Hx. rewrite Forall_forall in Hw'. apply Hw', id_at_elem. lia.
    + intros i Hx. rewrite Forall_forall in Hids. apply Hids, id_at_elem. lia.
    + intros i Hx. rewrite <- Pd in Hd. rewrite Forall_forall in Hd. apply Hd, id_at_elem. lia.
    + intros i j Hx Hj. apply sort_slabs_increasing; try done; [|lia].
      eapply Forall_impl; [exact Hd|]. intros d Hx'. simpl in Hx'. apply dinfo_id; [done|lia].
  - eapply Forall_impl; [exact (runs_within _ _ _ Hok Hcat)|]. simpl. lia.
Qed.

(** The disk slabs a lazy flush takes for the batch [ws0], and the writing of
    the sorted batch to them. *)
Lemma lazy_batch_written st ws0 rest ds0 st1 :
  mem_inv st -> disk_inv st -> device_ok -> full_msinfoq_ (queues st) = ws0 ++ rest -> ws0 <> [] ->
  (length ws0 <= length (free_dsinfoq_ (queues st)) + length (disk_evict_sinfoq_ (queues st)))%nat ->
  take_disk (set_queues st (set_full_msinfoq (queues st) rest)) (length ws0) = (ds0, st1) ->
  let st1' := WriteDiskSlabInfo st1 in
  let ws := sort_slabs (minfo st1') ws0 in
  let ds := sort_slabs (dinfo st1) ds0 in
  NoDup ds0 /\ Forall (fun d => 0 <= d < ndslab_ (setting_ st)) ds0 /\
  (runs ← FindSinfoSubSequence (map (fun w => slab_id_ (minfo st1' w)) ws) (Z.of_nat (length ws0) - 1);
   st ← flush_runs true ws ds st1' runs; Some st) =
  Some (flushed true ws ds st1' (seqZ 0 (reached ws (Z.of_nat (length ws0) - 1)))).
Proof.
  intros Hi Hd Hdev Hfull Hne Hge Etd st1' ws ds. set (st0 := set_queues st _) in Etd.
  assert (Hd0 : disk_inv st0) by (destruct Hd; by split).
  destruct (take_disk_spec st0 (length ws0) ds0 st1 Hd0 Hge Etd) as (G1 & G2 & G3 & G4 & G5 & G6 & G7 & G8 & G9 & G10).
  assert (Hnd : NoDup (ds0 ++ free_dsinfoq_ (queues st1) ++ used_dsinfoq_ (queues st1)
                        ++ disk_evict_sinfoq_ (queues st1))) by (rewrite G10; apply NoDup_seqZ).
  apply NoDup_app in Hnd as (Hnd & _ & _).
  assert (Hdr : Forall (fun d => 0 <= d < ndslab_ (setting_ st)) ds0).
  { apply Forall_forall. intros d Hin. assert (Hx : d ∈ seqZ 0 (ndslab_ (setting_ st0))).
    { rewrite <- G10, elem_of_app. by left. } apply elem_of_seqZ in Hx. simpl in Hx. lia. }
  assert (Es : setting_ st1 = setting_ st) by (destruct G2 as (-> & _); done).
  assert (Em : forall w, minfo st1 w = minfo st w).
  { intros w. unfold minfo. destruct G2 as (_ & _ & -> & _). done. }
  split_and!; [done|done|]. apply (flush_batch st1' ws0 ds0 true); try done.
  - change (Z.of_nat (length (mstart_ st1)) = nmslab_ (setting_ st1) * SLAB_SIZE).
    rewrite Es. destruct G2 as (_ & -> & _). apply (mi_mem _ _ Hi).
  - change (nmslab_ (setting_ st1) < UINT32_MAX). rewrite Es. apply (mi_size _ _ Hi).
  - apply Forall_forall. intros w Hw. change (minfo st1' w) with (minfo st1 w). rewrite Em.
    apply (mi_info _ _ Hi), (mem_inv_slab _ _ _ Hi). rewrite Hfull, !elem_of_app. tauto.
  - change (Z.of_nat (length (ssd_ st1)) = ndslab_ (setting_ st1) * SLAB_SIZE).
    rewrite G3, Es. apply (di_ssd _ Hd).
  - change (ndslab_ (setting_ st1) < UINT32_MAX). rewrite Es. apply (di_size _ Hd).
  - change (setting_ st1') with (setting_ st1). rewrite Es. apply Forall_forall. intros w Hw.
    apply (mem_inv_slab _ _ _ Hi). rewrite Hfull, !elem_of_app. tauto.
  - change (setting_ st1') with (setting_ st1). by rewrite Es.
Qed.

Lemma lazy_flush_steps st :
  mem_inv st -> disk_inv st -> device_ok ->
  (exists st', OptBatchWriteLazyFlush st = Some (false, st') /\
     (st' = st \/ exists ws rest, full_msinfoq_ (queues st) = ws ++ rest /\ st' = requeue_full st rest ws)) \/
  (exists st' ws rest ds, OptBatchWriteLazyFlush st = Some (true, st') /\ lazy_flushed st st' ws rest ds).
Proof.
  intros Hi Hd Hdev. unfold OptBatchWriteLazyFlush.
  destruct (_ && _); [left; eexists; eauto|].
  case_bool_decide as Hf; [left; eexists; eauto|].
  destruct (batch _ _) as [ws0 rest] eqn:Eb.
  assert (Enb : next_batch st = ws0) by (unfold next_batch; by rewrite Eb).
  unfold batch in Eb. injection Eb as Eb1 Eb2.
  assert (Hfull : full_msinfoq_ (queues st) = ws0 ++ rest) by (by rewrite <- Eb1, <- Eb2, take_drop).
  assert (Hne : ws0 <> []).
  { rewrite <- Eb1. destruct (full_msinfoq_ (queues st)); [done|].
    by destruct (Nat.max 1 (Z.to_nat (write_batch_size_ (setting_ st)))) eqn:E; [lia|]. }
  clear Eb1 Eb2. destruct (Nat.ltb_spec (length (free_dsinfoq_ (queues st)) + length (disk_evict_sinfoq_ (queues st)))
    (length ws0)) as [Hlt|Hge]; [left; eexists; split; [done|]; right; eauto|].
  right. set (st0 := set_queues st (set_full_msinfoq (queues st) rest)).
  destruct (take_disk st0 (length ws0)) as [ds0 st1] eqn:Etd.
  destruct (lazy_batch_written st ws0 rest ds0 st1 Hi Hd Hdev Hfull Hne Hge Etd) as (Hnd & Hdr & Hrun).
  assert (Hd0 : disk_inv st0) by (destruct Hd; by split).
  destruct (take_disk_spec st0 (length ws0) ds0 st1 Hd0 Hge Etd) as (G1 & G2 & G3 & G4 & G5 & G6 & G7 & G8 & G9 & G10).
  cbv zeta in *. set (st1' := WriteDiskSlabInfo st1) in *. set (ws := sort_slabs (minfo st1') ws0) in *.
  set (ds := sort_slabs (dinfo st1) ds0) in *.
  assert (Pw : ws ≡ₚ ws0) by apply merge_sort_Permutation.
  assert (Pd : ds ≡ₚ ds0) by apply merge_sort_Permutation.
  destruct (FindSinfoSubSequence (map (fun w => slab_id_ (minfo st1' w)) ws) (Z.of_nat (length ws0) - 1))
    as [runs|]; cbn [mbind option_bind] in *; [|discriminate Hrun].
  destruct (flush_runs true ws ds st1' runs) as [st2|]; cbn [mbind option_bind] in *; [|discriminate Hrun].
  injection Hrun as ->. eexists _, ws, rest, ds. split; [done|].
  pose proof (Permutation_length Pw) as Lw. pose proof (Permutation_length Pd) as Ld.
  split.
  - rewrite Enb. subst ws st1'. f_equal. unfold minfo. cbn [mstable_ WriteDiskSlabInfo set_info].
    by destruct G2 as (_ & _ & -> & _).
  - by rewrite Hfull, Pw.
  - intros E. rewrite E in Pw. by apply Permutation_nil_l in Pw.
  - lia.
  - by rewrite Pd.
  - by rewrite Pd.
  - exists st1, (seqZ 0 (reached ws (Z.of_nat (length ws) - 1))). rewrite Lw.
    split_and!; try done. by rewrite Pd.
Qed.

(** The last slab of the batch continues the one before it, or is alone. *)
Definition batch_linked st : Prop :=
  let ws := sort_slabs (minfo st) (next_batch st) in
  Z.of_nat (length ws) <= 1 \/ linked ws (Z.of_nat (length ws) - 2).

Lemma batch_reached ws :
  ws <> [] -> (Z.of_nat (length ws) <= 1 \/ linked ws (Z.of_nat (length ws) - 2)) ->
  reached ws (Z.of_nat (length ws) - 1) = Z.of_nat (length ws).
Proof.
  intros Hne Hl. assert (0 < Z.of_nat (length ws)) by (destruct ws; [done|simpl; lia]).
  unfold reached. rewrite decide_True; [lia|]. destruct Hl as [Hl|Hl]; [left; lia|right].
  by replace (Z.of_nat (length ws) - 1 - 1) with (Z.of_nat (length ws) - 2) by lia.
Qed.

(** The memory side after a flush that went ahead: what was reached of the
    batch has joined the eviction queue. *)
Lemma lazy_flushed_memory st st' ws rest ds :
  mem_inv st -> lazy_flushed st st' ws rest ds ->
  let js := seqZ 0 (reached ws (Z.of_nat (length ws) - 1)) in
  let n := Z.of_nat (length ws) in
  setting_ st' = setting_ st /\ mstart_ st' = mstart_ st /\ mstable_ st' = mstable_ st /\
  ctable st' = ctable st /\ free_msinfoq_ (queues st') = free_msinfoq_ (queues st) /\
  full_msinfoq_ (queues st') = rest /\
  mem_evict_sinfoq_ (queues st') = mem_evict_sinfoq_ (queues st) ++ map (fun j => (id_at ws j, id_at ds j)) js /\
  nfree_msinfoq_ (counters st') = nfree_msinfoq_ (counters st) /\
  nused_msinfoq_ (counters st') = nused_msinfoq_ (counters st) /\
  nfull_msinfoq_ (counters st') = nfull_msinfoq_ (counters st) - n /\
  n_mem_evict_sinfo_ (counters st') = n_mem_evict_sinfo_ (counters st) + n.
Proof.
  intros Hi Hl js n.
  pose proof (mem_inv_count _ _ Hi) as Hcnt. pose proof (mi_size _ _ Hi) as Hsz. unfold UINT32_MAX in Hsz.
  pose proof (Permutation_length (lf_batch _ _ _ _ _ Hl)) as Hlen. rewrite length_app in Hlen.
  destruct (lf_js _ _ _ _ _ Hl) as (st1 & js' & Hjs & G & _ & _ & _ & _ & _ & _ & _ & _ & ->). fold js in Hjs. subst js'.
  destruct G as (E1 & E2 & E3 & E4 & E5 & E6 & E7 & E8 & E9 & E10 & E11).
  split_and!; try done.
  - change (mem_evict_sinfoq_ (queues st1) ++ map (fun j => (id_at ws j, id_at ds j)) js =
      mem_evict_sinfoq_ (queues st) ++ map (fun j => (id_at ws j, id_at ds j)) js). by rewrite E7.
  - simpl. rewrite E8. simpl. rewrite (mi_nfree _ _ Hi), Z.add_0_r. apply u32_id. lia.
  - simpl. rewrite E9. simpl. rewrite (mi_nused _ _ Hi), Z.add_0_r. apply u32_id. lia.
  - simpl. rewrite E10. simpl. rewrite (mi_nfull _ _ Hi). apply u32_id. lia.
  - simpl. rewrite E11. simpl. rewrite (mi_nevict _ _ Hi). apply u32_id. lia.
Qed.

Lemma lazy_flushed_mem_inv st st' ws rest ds :
  mem_inv st -> lazy_flushed st st' ws rest ds ->
  reached ws (Z.of_nat (length ws) - 1) = Z.of_nat (length ws) -> mem_inv st'.
Proof.
  intros Hi Hl Hr. pose proof (lazy_flushed_memory _ _ _ _ _ Hi Hl) as Hm. rewrite Hr in Hm. cbv zeta in Hm.
  destruct Hm as (E1 & E2 & E3 & E4 & E5 & E6 & E7 & E8 & E9 & E10 & E11).
  pose proof (lf_batch _ _ _ _ _ Hl) as Hp.
  pose proof (Permutation_length Hp) as Hlen. rewrite length_app in Hlen.
  assert (Em : forall i, minfo st' i = minfo st i) by (intros i; unfold minfo; by rewrite E3).
  split; rewrite ?E1, ?E2, ?E3, ?E4, ?E5, ?E6, ?E7, ?E8, ?E9, ?E10, ?E11; try apply Hi;
    try (intros i; rewrite Em; apply Hi).
  - rewrite <- (mi_part _ _ Hi), Hp. rewrite map_app, map_map. cbn [fst].
    change (map (fun x => id_at ws x)) with (map (id_at ws)). rewrite map_id_at.
    rewrite (Permutation_app_comm ws rest), <- !app_assoc. do 2 apply Permutation_app_head.
    rewrite !app_assoc. apply Permutation_app_tail, Permutation_app_comm.
  - intros i Hin. rewrite Em. apply (mi_full _ _ Hi). rewrite Hp, elem_of_app. by right.
  - rewrite (mi_nfull _ _ Hi). lia.
  - rewrite (mi_nevict _ _ Hi), length_app, length_map, length_seqZ. lia.
Qed.

Lemma lazy_flushed_disk_inv st st' ws rest ds :
  disk_inv st -> mem_inv st -> lazy_flushed st st' ws rest ds ->
  reached ws (Z.of_nat (length ws) - 1) = Z.of_nat (length ws) -> disk_inv st'.
Proof.
  intros Hd Hi Hl Hr. pose proof (lf_len _ _ _ _ _ Hl) as Ll. pose proof (lf_range _ _ _ _ _ Hl) as Hdr.
  pose proof (lf_batch _ _ _ _ _ Hl) as Hb.
  destruct (lf_js _ _ _ _ _ Hl) as (st1 & js & Hjs & G & G3 & G4 & G5 & G6 & G7 & G8 & G9 & G10 & Est).
  cbv zeta in Est. rewrite Hr, <- Ll in Hjs. destruct G as (E1 & E2 & E3 & E4 & _). simpl in E1, E2.
  pose proof (Permutation_length G10) as Hlen. rewrite !length_app, length_seqZ in Hlen.
  pose proof (di_size _ Hd) as Hsz. unfold UINT32_MAX in Hsz.
  assert (Hds : map (id_at ds) js = ds) by (rewrite Hjs; apply map_id_at).
  assert (Hin : slabs_in (ndslab_ (setting_ st)) ds js).
  { rewrite Hjs. eapply slabs_in_seq; [|lia|reflexivity]. intros i Hx. rewrite Forall_forall in Hdr.
    apply Hdr, id_at_elem. lia. }
  assert (Hws : slabs_in (nmslab_ (setting_ st)) ws js).
  { rewrite Hjs. eapply slabs_in_seq; [|lia|reflexivity]. intros i Hx.
    apply (mem_inv_slab _ _ _ Hi). rewrite Hb, !elem_of_app.
    right. left. left. apply id_at_elem. lia. }
  destruct (hand_table_ids ws ds (mstable_ st1) (dstable_ st1) js) as [T1 T2]; [|done|].
  { eapply Forall_impl; [exact Hin|]. simpl. lia. }
  assert (Es : setting_ st' = setting_ st) by (rewrite Est; exact E1).
  assert (Eu : used_dsinfoq_ (queues st') = used_dsinfoq_ (queues st) ++ ds).
  { rewrite Est. change (used_dsinfoq_ (queues st1) ++ map (id_at ds) js = used_dsinfoq_ (queues st) ++ ds). by rewrite G6, Hds. }
  split; rewrite ?Es.
  - apply Hd.
  - rewrite Est. change (Z.of_nat (length (hand_table ws ds (mstable_ st1) (dstable_ st1) js)) = ndslab_ (setting_ st)).
    rewrite T2, G5. apply (di_table _ Hd).
  - rewrite Est. exact T1.
  - rewrite Est. change (Z.of_nat (length (copy_slabs ws ds (mstart_ st1) (ssd_ st1) js)) = ndslab_ (setting_ st) * SLAB_SIZE).
    erewrite length_copy_slabs; [rewrite G3; apply (di_ssd _ Hd)| | |exact Hws|exact Hin].
    + rewrite E2. apply (mi_mem _ _ Hi).
    + rewrite G3. apply (di_ssd _ Hd).
  - rewrite Eu, <- G10, G6, Est. apply perm_rotate.
  - rewrite Est. simpl. rewrite G8, Z.add_0_r. apply u32_id. lia.
  - rewrite Eu, length_app, Est. simpl. rewrite G6 in Hlen. rewrite G7, (di_nused _ Hd), u32_id by lia. lia.
  - rewrite Est. simpl. rewrite G9, Z.add_0_r. apply u32_id. lia.
Qed.

Lemma requeue_inv st rest ws :
  mem_inv st -> full_msinfoq_ (queues st) = ws ++ rest -> mem_inv (requeue_full st rest ws).
Proof.
  intros Hi E. assert (Hp : rest ++ ws ≡ₚ full_msinfoq_ (queues st)) by (rewrite E; apply Permutation_app_comm).
  split; simpl; rewrite ?Hp; try apply Hi.
  intros i. rewrite Hp. apply (mi_full _ _ Hi).
Qed.

Lemma lf_ds_range st st' ws rest ds :
  lazy_flushed st st' ws rest ds ->
  forall i, 0 <= i < Z.of_nat (length ds) -> 0 <= id_at ds i < ndslab_ (setting_ st).
Proof.
  intros Hl i Hx. pose proof (lf_range _ _ _ _ _ Hl) as Hr. rewrite Forall_forall in Hr. by apply Hr, id_at_elem.
Qed.

Lemma lf_ws_range st st' ws rest ds :
  mem_inv st -> lazy_flushed st st' ws rest ds ->
  forall i, 0 <= i < Z.of_nat (length ws) -> 0 <= id_at ws i < nmslab_ (setting_ st).
Proof.
  intros Hi Hl i Hx. apply (mem_inv_slab _ _ _ Hi). rewrite (lf_batch _ _ _ _ _ Hl), !elem_of_app.
  right. left. left. by apply id_at_elem.
Qed.

Lemma nodup_prefix l n :
  NoDup l -> 0 <= n <= Z.of_nat (length l) -> NoDup (map (id_at l) (seqZ 0 n)).
Proof.
  intros Hn Hr. rewrite <- (map_id_at l) in Hn.
  replace (Z.of_nat (length l)) with (n + (Z.of_nat (length l) - n)) in Hn by lia.
  rewrite seqZ_app, map_app in Hn by lia. by apply NoDup_app in Hn as [Hn _].
Qed.

Lemma load_copy_slabs ws ds mem ssd nm nd js j :
  Z.of_nat (length mem) = nm * SLAB_SIZE -> Z.of_nat (length ssd) = nd * SLAB_SIZE ->
  slabs_in nm ws js -> slabs_in nd ds js -> NoDup (map (id_at ds) js) -> j ∈ js ->
  load (copy_slabs ws ds mem ssd js) (id_at ds j * SLAB_SIZE) SLAB_SIZE
  = load mem (id_at ws j * SLAB_SIZE) SLAB_SIZE.
Proof.
  intros Hm Hs. induction js as [|k js IH] using rev_ind; intros Hw Hd Hn Hj; [by apply elem_of_nil in Hj|].
  apply Forall_app in Hw as [Hw Hwk]. apply Forall_app in Hd as [Hd Hdk].
  rewrite Forall_singleton in Hwk, Hdk. simpl in Hwk, Hdk. rewrite map_app in Hn. apply NoDup_app in Hn as (Hn & Hnk & _).
  unfold copy_slabs. rewrite foldl_app. fold (copy_slabs ws ds mem ssd js). cbn [foldl].
  pose proof (length_copy_slabs ws ds mem ssd nm nd js Hm Hs Hw Hd) as Hl. unfold SLAB_SIZE in *.
  set (blk := load mem (id_at ws k * (4 * 1024)) (4 * 1024)).
  assert (Hb : Z.of_nat (length blk) = 4 * 1024) by (subst blk; rewrite length_load; lia).
  apply elem_of_app in Hj as [Hj|Hj%list_elem_of_singleton].
  - assert (Hin : id_at ds j ∈ map (id_at ds) js) by (by apply list_elem_of_fmap_2).
    pose proof (Hnk _ Hin) as Hne. simpl in Hne. rewrite list_elem_of_singleton in Hne.
    rewrite Forall_forall in Hd. pose proof (Hd _ Hj).
    rewrite load_store_disjoint by lia. apply IH; try done. by apply Forall_forall.
  - subst j. fold blk. rewrite <- Hb at 3. apply load_store; lia.
Qed.

Lemma hand_table_copied ws ds ms dt js j :
  Forall (fun j => 0 <= id_at ds j < Z.of_nat (length dt)) js -> NoDup (map (id_at ds) js) -> j ∈ js ->
  exists old, hand_table ws ds ms dt js !! Z.to_nat (id_at ds j)
    = Some (CopyInfo old (default (fresh_info true (id_at ws j)) (ms !! Z.to_nat (id_at ws j)))).
Proof.
  induction js as [|k js IH] using rev_ind; intros Hd Hn Hj; [by apply elem_of_nil in Hj|].
  apply Forall_app in Hd as [Hd Hdk]. rewrite Forall_singleton in Hdk. simpl in Hdk.
  rewrite map_app in Hn. apply NoDup_app in Hn as (Hn & Hnk & _).
  assert (Hl : length (hand_table ws ds ms dt js) = length dt).
  { clear. revert dt. induction js as [|k js IH]; intros dt; [done|].
    etransitivity; [exact (IH (hand_table ws ds ms dt [k]))|]. apply length_insert. }
  rewrite hand_table_app. unfold hand_table at 1. cbn [foldl].
  apply elem_of_app in Hj as [Hj|Hj%list_elem_of_singleton].
  - assert (Hin : id_at ds j ∈ map (id_at ds) js) by (by apply list_elem_of_fmap_2).
    pose proof (Hnk _ Hin) as Hne. simpl in Hne. rewrite list_elem_of_singleton in Hne.
    rewrite Forall_forall in Hd. pose proof (Hd _ Hj). rewrite list_lookup_insert_ne by lia.
    apply IH; try done. by apply Forall_forall.
  - subst j. eexists. apply list_lookup_insert_eq. lia.
Qed.

(** C26. Every slab a lazy flush puts in the eviction queue is on the device,
    byte for byte, at its disk slab, whose entry of the disk table is a copy of
    its own: consecutive slabs written in one call end up where slab-by-slab
    writes would put them.  Slab memory does not change. *)
Theorem lazy_flush_copies st st' :
  mem_inv st -> disk_inv st -> device_ok -> OptBatchWriteLazyFlush st = Some (true, st') ->
  exists new, mem_evict_sinfoq_ (queues st') = mem_evict_sinfoq_ (queues st) ++ new /\
    new <> [] /\ mstart_ st' = mstart_ st /\
    forall m d, (m, d) ∈ new ->
      load (ssd_ st') (d * SLAB_SIZE) SLAB_SIZE = load (mstart_ st) (m * SLAB_SIZE) SLAB_SIZE /\
      exists old, dinfo st' d = CopyInfo old (minfo st m).
Proof.
  intros Hi Hd Hdev E.
  destruct (lazy_flush_steps st Hi Hd Hdev) as [(st1 & E1 & _)|(st1 & ws & rest & ds & E1 & Hl)];
    rewrite E in E1; simplify_eq.
  pose proof (lazy_flushed_memory _ _ _ _ _ Hi Hl) as Hm. cbv zeta in Hm.
  destruct Hm as (_ & M1 & _ & _ & _ & _ & M2 & _).
  pose proof (lf_some _ _ _ _ _ Hl) as Hne. pose proof (lf_len _ _ _ _ _ Hl) as Ll.
  assert (Hpos : 0 < Z.of_nat (length ws)) by (destruct ws; [done|simpl; lia]).
  pose proof (reached_bounds ws (Z.of_nat (length ws) - 1) ltac:(lia)) as Hrb.
  assert (Hrp : 0 < reached ws (Z.of_nat (length ws) - 1)).
  { unfold reached in *. case_decide as Hx; [lia|]. apply Decidable.not_or in Hx. lia. }
  set (js := seqZ 0 (reached ws (Z.of_nat (length ws) - 1))) in *.
  exists (map (fun j => (id_at ws j, id_at ds j)) js). split; [done|]. split.
  { subst js. rewrite seqZ_cons by lia. done. }
  split; [done|]. intros m d Hin. apply list_elem_of_fmap in Hin as (j & [= -> ->] & Hj).
  destruct (lf_js _ _ _ _ _ Hl) as (st2 & js' & Hjs & G & G3 & G4 & G5 & _ & _ & _ & _ & _ & ->).
  fold js in Hjs. subst js'. destruct G as (S1 & S2 & S3 & _). simpl in S1, S2, S3.
  pose proof (lf_ds_range _ _ _ _ _ Hl) as Hds. pose proof (lf_ws_range _ _ _ _ _ Hi Hl) as Hws.
  pose proof (nodup_prefix ds (reached ws (Z.of_nat (length ws) - 1)) (lf_nodup _ _ _ _ _ Hl) ltac:(lia)) as Hnd.
  split.
  - change (ssd_ _) with (copy_slabs ws ds (mstart_ st2) (ssd_ st2) js). rewrite S2, G3.
    eapply load_copy_slabs; [apply (mi_mem _ _ Hi)|apply (di_ssd _ Hd)| | |done|done];
      eapply slabs_in_seq; done || lia.
  - destruct (hand_table_copied ws ds (mstable_ st2) (dstable_ st2) js j) as [old Hold]; [|done|done|].
    { eapply Forall_impl; [eapply (slabs_in_seq (ndslab_ (setting_ st))); [exact Hds|lia|lia]|].
      intros i Hx. simpl in Hx. rewrite G5, (di_table _ Hd). done. }
    exists old. unfold dinfo.
    change (dstable_ _) with (hand_table ws ds (mstable_ st2) (dstable_ st2) js).
    rewrite Hold. unfold minfo. by rewrite S3.
Qed.

(** When the last slab of a sorted batch of two or more does not continue
    the slab before it, a lazy flush loses it: afterwards the slab is in no
    queue and in the hands of no class, its keys still point at it, and it can
    never be written or reused. *)
Theorem lazy_flush_loses_last st st' :
  mem_inv st -> disk_inv st -> device_ok -> OptBatchWriteLazyFlush st = Some (true, st') ->
  let ws := sort_slabs (minfo st) (next_batch st) in
  1 < Z.of_nat (length ws) -> ~ linked ws (Z.of_nat (length ws) - 2) ->
  let w := id_at ws (Z.of_nat (length ws) - 1) in
  w ∈ full_msinfoq_ (queues st) /\
  (w ∉ free_msinfoq_ (queues st') ++ full_msinfoq_ (queues st')
     ++ map fst (mem_evict_sinfoq_ (queues st')) ++ open_slabs (ctable st')).
Proof.
  intros Hi Hd Hdev E ws Hlen Hnl w.
  destruct (lazy_flush_steps st Hi Hd Hdev) as [(st1 & E1 & _)|(st1 & ws' & rest & ds & E1 & Hl)];
    rewrite E in E1; simplify_eq.
  pose proof (lf_ws _ _ _ _ _ Hl) as Ews. fold ws in Ews. subst ws'.
  pose proof (lazy_flushed_memory _ _ _ _ _ Hi Hl) as Hm. cbv zeta in Hm.
  destruct Hm as (_ & _ & _ & M1 & M2 & M3 & M4 & _).
  pose proof (lf_batch _ _ _ _ _ Hl) as Hb.
  assert (Hw : w ∈ ws) by (apply id_at_elem; lia).
  split; [by rewrite Hb, elem_of_app; left|].
  assert (Hr : reached ws (Z.of_nat (length ws) - 1) = Z.of_nat (length ws) - 1).
  { unfold reached. rewrite decide_False; [done|]. intros [?|Hx]; [lia|]. apply Hnl.
    by replace (Z.of_nat (length ws) - 2) with (Z.of_nat (length ws) - 1 - 1) by lia. }
  rewrite M1, M2, M3, M4, Hr, map_app, map_map. cbn [fst].
  pose proof (mem_inv_nodup _ _ Hi) as Hnd. rewrite Hb in Hnd.
  assert (Hnw : NoDup ws).
  { apply NoDup_app in Hnd as (_ & _ & Hnd). rewrite <- app_assoc in Hnd. by apply NoDup_app in Hnd as (Hn & _ & _). }
  assert (Hpre : w ∉ map (fun j => id_at ws j) (seqZ 0 (Z.of_nat (length ws) - 1))).
  { intros Hin. apply list_elem_of_fmap in Hin as (j & Hj & Hin). apply elem_of_seqZ in Hin.
    pose proof (id_at_lookup ws j ltac:(lia)) as L1.
    pose proof (id_at_lookup ws (Z.of_nat (length ws) - 1) ltac:(lia)) as L2. fold w in L2. rewrite <- Hj in L1.
    pose proof (NoDup_lookup _ _ _ _ Hnw L1 L2). lia. }
  rewrite (Permutation_app_comm ws rest), <- !app_assoc in Hnd.
  assert (Hsplit : forall a b c : list Z, NoDup (a ++ b ++ ws ++ c) -> (w ∉ a) /\ (w ∉ b) /\ (w ∉ c)).
  { intros a b c Hx. apply NoDup_app in Hx as (_ & N1 & Hx). apply NoDup_app in Hx as (_ & N2 & Hx).
    apply NoDup_app in Hx as (_ & N3 & _). split_and!.
    - intros Hy. apply (N1 _ Hy). rewrite !elem_of_app. tauto.
    - intros Hy. apply (N2 _ Hy). rewrite !elem_of_app. tauto.
    - by apply N3. }
  destruct (Hsplit _ _ _ Hnd) as (N1 & N2 & N3). rewrite elem_of_app in N3.
  rewrite !elem_of_app. tauto.
Qed.

(** The grouping of a sorted batch into runs always returns; every run is a
    stretch of consecutive slab ids, and the runs list the positions of the
    batch in order, each once, up to the last one, which is left out exactly
    when there are several slabs and it does not continue the slab before it. *)
Theorem runs_cover_batch ids count :
  0 <= count ->
  exists runs, FindSinfoSubSequence ids count = Some runs /\
    Forall (fun run => 0 <= run.1 <= run.2 /\
              forall i, run.1 <= i < run.2 -> u32 (id_at ids i + 1) = id_at ids (i + 1)) runs /\
    runs ≫= run_slabs =
      seqZ 0 (if decide (count = 0 \/ u32 (id_at ids (count - 1) + 1) = id_at ids (count - 1 + 1))
              then count + 1 else count).
Proof. apply FindSinfoSubSequence_spec. Qed.

(** *** Migration *)

Definition forget_buf (n : Counters) : Counters :=
  mkCounters (nfree_msinfoq_ n) (nused_msinfoq_ n) (nfull_msinfoq_ n) (nfree_dsinfoq_ n)
    (nused_dsinfoq_ n) (n_mem_evict_sinfo_ n) (n_disk_evict_sinfo_ n) 0.

(** Only the pool of read buffers differs. *)
Definition buffers_only st st' : Prop :=
  setting_ st' = setting_ st /\ mstart_ st' = mstart_ st /\ ssd_ st' = ssd_ st /\ info_ st' = info_ st /\
  mstable_ st' = mstable_ st /\ dstable_ st' = dstable_ st /\ ctable st' = ctable st /\
  mass_tree_ st' = mass_tree_ st /\
  set_free_bsinfoq (queues st') [] = set_free_bsinfoq (queues st) [] /\
  forget_buf (counters st') = forget_buf (counters st).

Lemma BatchDiskRead_contents st ds slabs st' :
  BatchDiskRead st ds = Some (slabs, st') ->
  slabs = map (fun d => load (ssd_ st) (SlabToDaddr (dinfo st d)) SLAB_SIZE) ds /\ buffers_only st st'.
Proof.
  revert st slabs st'. induction ds as [|d ds IH]; intros st slabs st' E; cbn [BatchDiskRead] in E.
  - by simplify_eq.
  - unfold ReadDiskSlab in E. destruct (free_bsinfoq_ (queues st)) as [|b bs] eqn:Eb; [done|].
    cbn [mbind option_bind] in E. set (st1 := count_buf _ _) in E.
    destruct (BatchDiskRead st1 ds) as [[l st2]|] eqn:Er; [|done]. cbn [mbind option_bind] in E. simplify_eq.
    destruct (IH st1 l st' Er) as [-> Hb]. split; [done|]. exact Hb.
Qed.

Lemma SequentialDiskRead_contents st ds :
  ds <> [] -> table_ids (dstable_ st) -> 0 <= id_at ds 0 ->
  SequentialDiskRead st ds =
  map (fun i => load (ssd_ st) ((id_at ds 0 + Z.of_nat i) * SLAB_SIZE) SLAB_SIZE) (seq 0 (length ds)).
Proof.
  intros Hne Ht Hd. unfold SequentialDiskRead, SlabToDaddr. rewrite dinfo_id by done.
  apply map_ext_in. intros i Hi. apply in_seq in Hi. unfold SLAB_SIZE.
  replace (4 * 1024 * Z.of_nat (length ds)) with
    (Z.of_nat i * (4 * 1024) + (4 * 1024 + (Z.of_nat (length ds) - Z.of_nat i - 1) * (4 * 1024))) by lia.
  unfold load. rewrite Z2Nat.inj_add, skipn_firstn_comm, firstn_firstn, drop_drop by lia.
  f_equal; [lia|]. f_equal. lia.
Qed.

(** What both migrations read, and from which slabs. *)
Lemma migrate_batch_spec st r st1 :
  disk_inv st -> migrate_batch st = Some (r, st1) ->
  match r with
  | None => st1 = st
  | Some (ds, slabs, is_seq) => exists rest,
    used_dsinfoq_ (queues st) = ds ++ rest /\ length slabs = length ds /\
    buffers_only (count_disk (set_queues st (set_used_dsinfoq (queues st) rest)) 0 (- Z.of_nat (length ds)) 0) st1 /\
    (is_seq = false \/ (forall i j, 0 <= i < j -> j < Z.of_nat (length ds) -> id_at ds i < id_at ds j) ->
     slabs = map (fun d => load (ssd_ st) (d * SLAB_SIZE) SLAB_SIZE) ds)
  end.
Proof.
  intros Hd E. unfold migrate_batch in E.
  destruct (_ <? _); [by simplify_eq|]. destruct (_ <? _) eqn:En; [by simplify_eq|].
  destruct (batch _ _) as [ds rest] eqn:Eb. unfold batch in Eb. injection Eb as E1 E2.
  assert (Hu : used_dsinfoq_ (queues st) = ds ++ rest) by (by rewrite <- E1, <- E2, take_drop). clear E1 E2.
  set (st0 := count_disk _ _ _ _) in E.
  assert (Hin : Forall (fun d => 0 <= d < ndslab_ (setting_ st)) ds).
  { apply Forall_forall. intros d Hx. assert (Hy : d ∈ seqZ 0 (ndslab_ (setting_ st))); [|apply elem_of_seqZ in Hy; lia].
    rewrite <- (di_part _ Hd), Hu, !elem_of_app. tauto. }
  assert (Hids : forall d, 0 <= d -> SlabToDaddr (dinfo st0 d) = d * SLAB_SIZE).
  { intros d Hx. unfold SlabToDaddr. rewrite dinfo_id; [done|apply (di_ids _ Hd)|done]. }
  destruct (_ =? _) eqn:Eq.
  - simplify_eq. exists rest. split; [done|]. split; [by unfold SequentialDiskRead; rewrite length_map, length_seq|].
    split; [done|]. intros [?|Hs]; [done|].
    destruct (decide (ds = [])) as [->|Hne]; [done|].
    assert (Hpos : 0 < Z.of_nat (length ds)) by (destruct ds; [done|simpl; lia]).
    assert (Hr : forall i, 0 <= i < Z.of_nat (length ds) -> 0 <= id_at ds i < ndslab_ (setting_ st)).
    { intros i Hx. rewrite Forall_forall in Hin. by apply Hin, id_at_elem. }
    pose proof (Hr 0 ltac:(lia)). pose proof (Hr (Z.of_nat (length ds) - 1) ltac:(lia)).
    rewrite SequentialDiskRead_contents by (done || apply (di_ids _ Hd) || lia).
    assert (Hspan : forall i, 0 <= i <= Z.of_nat (length ds) - 1 -> id_at ds i = id_at ds 0 + (i - 0)).
    { apply increasing_span; [intros i j ? ?; apply Hs; lia|]. apply Z.eqb_eq in Eq.
      rewrite !dinfo_id in Eq by (apply (di_ids _ Hd) || lia). pose proof (di_size _ Hd) as Hsz.
      unfold UINT32_MAX in Hsz.
      assert (id_at ds 0 <= id_at ds (Z.of_nat (length ds) - 1)).
      { destruct (Z.eq_dec 0 (Z.of_nat (length ds) - 1)) as [<-|]; [lia|].
        pose proof (Hs 0 (Z.of_nat (length ds) - 1)). lia. }
      rewrite u32_id in Eq by lia. lia. }
    transitivity (map (fun d => load (ssd_ st) (d * SLAB_SIZE) SLAB_SIZE)
                    (map (id_at ds) (seqZ 0 (Z.of_nat (length ds))))); [|by rewrite map_id_at].
    unfold seqZ. rewrite Nat2Z.id, !map_map.
    apply map_ext_in. intros i Hi. apply in_seq in Hi.
    rewrite (Hspan (Z.of_nat i + 0)) by lia. simpl ssd_. do 2 f_equal. lia.
  - destruct (BatchDiskRead st0 ds) as [[slabs st2]|] eqn:Er; [|done]. cbn [mbind option_bind] in E. simplify_eq.
    destruct (BatchDiskRead_contents st0 ds slabs st1 Er) as [-> Hb]. exists rest.
    split; [done|]. split; [by rewrite length_map|]. split; [done|]. intros _.
    apply map_ext_in. intros d Hx. rewrite Hids; [done|]. rewrite Forall_forall in Hin.
    apply list_elem_of_In, Hin in Hx. lia.
Qed.


Lemma buffers_only_mem st st' : buffers_only st st' -> mem_inv st -> mem_inv st'.
Proof.
  intros (E1 & E2 & E3 & E4 & E5 & E6 & E7 & E8 & E9 & E10). apply same_memory_inv.
  injection E9. injection E10. intros. by split_and!.
Qed.

Lemma buffers_only_disk st st' : buffers_only st st' -> disk_inv st -> disk_inv st'.
Proof.
  intros (E1 & E2 & E3 & E4 & E5 & E6 & E7 & E8 & E9 & E10) [].
  injection E9 as Q1 Q2 Q3 Q4 Q5 Q6. injection E10 as N1 N2 N3 N4 N5 N6 N7.
  split; rewrite ?E1, ?E3, ?E6, ?Q3, ?Q4, ?Q6, ?N4, ?N5, ?N7; done.
Qed.

(** *** The life of a store *)

(** The disk side of the state is the same in both. *)
Definition same_disk st st' : Prop :=
  setting_ st' = setting_ st /\ dstable_ st' = dstable_ st /\ ssd_ st' = ssd_ st /\
  free_dsinfoq_ (queues st') = free_dsinfoq_ (queues st) /\
  used_dsinfoq_ (queues st') = used_dsinfoq_ (queues st) /\
  disk_evict_sinfoq_ (queues st') = disk_evict_sinfoq_ (queues st) /\
  nfree_dsinfoq_ (counters st') = nfree_dsinfoq_ (counters st) /\
  nused_dsinfoq_ (counters st') = nused_dsinfoq_ (counters st) /\
  n_disk_evict_sinfo_ (counters st') = n_disk_evict_sinfo_ (counters st).

Lemma same_disk_trans a b c : same_disk a b -> same_disk b c -> same_disk a c.
Proof. unfold same_disk. intuition congruence. Qed.

Lemma same_disk_inv st st' : same_disk st st' -> disk_inv st -> disk_inv st'.
Proof.
  intros (E1 & E2 & E3 & E4 & E5 & E6 & E7 & E8 & E9) Hd.
  split; rewrite ?E1, ?E2, ?E3, ?E4, ?E5, ?E6, ?E7, ?E8, ?E9; apply Hd.
Qed.

Lemma open_slab_disk st x y b st' : open_slab st x y = (b, st') -> same_disk st st'.
Proof.
  unfold open_slab. destruct (free_msinfoq_ (queues st)); [|by intros [= _ <-]].
  destruct (mem_evict_sinfoq_ (queues st)) as [|[m d] rest]; [by intros [= _ <-]|].
  unfold reclaim. intros [= _ <-]. set (st1 := count_mem _ _ _ _ _).
  destruct (update_keys_tree st1 (minfo st1 m) (minfo st1 m) (DiskRef d) (series_of (minfo st1 m))) as [t ->].
  by split_and!.
Qed.

Lemma record_series_disk st sid source_id metric_id start_time end_time txn st' :
  record_series st sid source_id metric_id start_time end_time txn = Some st' -> same_disk st st'.
Proof. unfold record_series. repeat case_match; intros [= <-]; by split_and!. Qed.

Lemma ConPutKV_disk st source_id metric_id start_time end_time value value_len txn flag sid st' :
  ConPutKV st source_id metric_id start_time end_time value value_len txn = Some (flag, sid, st') ->
  same_disk st st'.
Proof.
  unfold ConPutKV. set (x := _ mod CX_NUM). set (y := _ mod CY_NUM).
  destruct (if class_slab_id_ (class_of st x y) =? UINT32_MAX then _ else _) as [b st0] eqn:E0.
  assert (Hs0 : same_disk st st0).
  { destruct (_ =? _); [by eapply open_slab_disk|]. by simplify_eq. }
  destruct b; [|by intros [= _ _ <-]]. unfold WritableItem. destruct (ValidSid _ _); [|done].
  destruct (record_series _ _ _ _ _ _ _) as [st2|] eqn:Er; [|done]. apply record_series_disk in Er.
  assert (Hs2 : same_disk st st2) by (eapply same_disk_trans; [exact Hs0|exact Er]).
  repeat case_match; intros [= _ _ <-]; exact Hs2.
Qed.

(** Stores that puts, lazy flushes of linked batches and lazy migrations lead
    to, from a freshly built one. *)
Inductive reachable (empty : T) (info : list SlabInfo) (nm nd nbuf : Z) : TreeSeries T -> Prop :=
  | reach_init : reachable empty info nm nd nbuf (init_store empty info nm nd nbuf)
  | reach_put st source_id metric_id start_time end_time value value_len txn flag sid st' :
      reachable empty info nm nd nbuf st -> id_ok source_id metric_id ->
      ConPutKV st source_id metric_id start_time end_time value value_len txn = Some (flag, sid, st') ->
      reachable empty info nm nd nbuf st'
  | reach_flush st flag st' :
      reachable empty info nm nd nbuf st -> batch_linked st ->
      OptBatchWriteLazyFlush st = Some (flag, st') -> reachable empty info nm nd nbuf st'
  | reach_migrate st r st' :
      reachable empty info nm nd nbuf st -> MigrateReadLazyFlush st = Some (r, st') ->
      reachable empty info nm nd nbuf st'.

Definition books st : Prop := mem_inv st /\ disk_inv st.

Lemma init_books (empty : T) info nm nd nbuf :
  0 <= nm <= nd -> nd < UINT32_MAX -> books (init_store empty info nm nd nbuf).
Proof.
  intros Hn Hd. split; [apply init_store_inv; lia|].
  assert (Hl : length (map (fresh_info false) (seqZ 0 nd)) = Z.to_nat nd) by (by rewrite length_map, length_seqZ).
  split; simpl; rewrite ?Hl, ?length_replicate, ?length_seqZ, ?app_nil_r; try done; try (unfold SLAB_SIZE; lia).
  intros i s Hi. apply list_lookup_fmap_Some in Hi as (j & -> & Hj). apply lookup_seqZ in Hj as [-> _].
  simpl. lia.
Qed.

Lemma put_books st source_id metric_id start_time end_time value value_len txn flag sid st' :
  books st -> id_ok source_id metric_id ->
  ConPutKV st source_id metric_id start_time end_time value value_len txn = Some (flag, sid, st') -> books st'.
Proof.
  intros [Hm Hd] Hid E. split; [|by eapply same_disk_inv; [eapply ConPutKV_disk|]].
  destruct (ConPutKV_steps st source_id metric_id start_time end_time value value_len txn Hm Hid)
    as [(E' & _)|(sid' & st1 & E' & Hi & _)]; rewrite E in E'; by simplify_eq.
Qed.

Lemma lazy_flush_books st :
  books st -> device_ok -> batch_linked st ->
  exists flag st', OptBatchWriteLazyFlush st = Some (flag, st') /\ books st'.
Proof.
  intros [Hi Hd] Hdev Hl.
  destruct (lazy_flush_steps st Hi Hd Hdev)
    as [(st' & E & [->|(ws & rest & Hf & ->)])|(st' & ws & rest & ds & E & Hfl)].
  - by exists false, st.
  - exists false, (requeue_full st rest ws). split; [done|]. split; [by apply requeue_inv|]. by destruct Hd; split.
  - exists true, st'. assert (Hr : reached ws (Z.of_nat (length ws) - 1) = Z.of_nat (length ws)).
    { apply batch_reached; [apply (lf_some _ _ _ _ _ Hfl)|]. rewrite (lf_ws _ _ _ _ _ Hfl). exact Hl. }
    split; [done|]. split; [by eapply lazy_flushed_mem_inv|by eapply lazy_flushed_disk_inv].
Qed.

Lemma migrate_books st r st' :
  books st -> MigrateReadLazyFlush st = Some (r, st') -> books st'.
Proof.
  intros [Hi Hd] E. unfold MigrateReadLazyFlush in E.
  destruct (migrate_batch st) as [[r1 st1]|] eqn:Em; [|done]. cbn [mbind option_bind] in E.
  pose proof (migrate_batch_spec _ _ _ Hd Em) as Hs. destruct r1 as [[[ds slabs] sq]|]; [|by simplify_eq].
  destruct Hs as (rest & Hu & _ & Hb & _). simplify_eq.
  pose proof (disk_count _ Hd) as Hcnt. pose proof (di_size _ Hd) as Hsz. unfold UINT32_MAX in Hsz.
  rewrite Hu, length_app in Hcnt. split.
  - apply (same_memory_inv st1); [by split_and!|]. apply (buffers_only_mem _ _ Hb).
    apply (same_memory_inv st); [by split_and!|done].
  - destruct Hb as (E1 & E2 & E3 & E4 & E5 & E6 & E7 & E8 & E9 & E10).
    injection E9 as Q1 Q2 Q3 Q4 Q5 Q6. injection E10 as N1 N2 N3 N4 N5 N6 N7.
    split; simpl; rewrite ?E1, ?E3, ?E6, ?Q3, ?Q4, ?Q6, ?N4, ?N5, ?N7; simpl; try apply Hd.
    + rewrite <- (di_part _ Hd), Hu. apply Permutation_app_head.
      rewrite (app_assoc rest), (Permutation_app_comm _ ds), <- !app_assoc. done.
    + rewrite (di_nfree _ Hd), !Z.add_0_r, !u32_id by (rewrite ?u32_id; lia). done.
    + rewrite (di_nused _ Hd), Hu, length_app, Z.add_0_r, !u32_id by (rewrite ?u32_id; lia). lia.
    + rewrite (di_nevict _ Hd), length_app, Z.add_0_r, !u32_id by (rewrite ?u32_id; lia). lia.
Qed.

(** C1. In every state that puts, lazy flushes (of batches whose last slab
    continues the one before it) and lazy migrations lead to from a freshly
    built store, each memory slab is in exactly one of the free queue, the full
    queue, the eviction queue and the hands of one class, each disk slab in
    exactly one of the free, used and eviction queues, every counter is the
    length of its queue, and no slab has more items or series than it can
    hold. *)
Theorem reachable_books (empty : T) info nm nd nbuf st :
  device_ok -> 0 <= nm <= nd -> nd < UINT32_MAX ->
  reachable empty info nm nd nbuf st -> mem_inv st /\ disk_inv st.
Proof.
  intros Hdev Hn Hd Hr. change (books st).
  induction Hr as [|st ?????????? Hr IH Hid E|st flag st' Hr IH Hl E|st r st' Hr IH E].
  - by apply init_books.
  - by eapply put_books.
  - destruct (lazy_flush_books st IH Hdev Hl) as (flag' & st'' & E' & Hb). rewrite E in E'. by simplify_eq.
  - by eapply migrate_books.
Qed.

(** A lazy migration moves a batch of used disk slabs to the disk eviction
    queue; what it returns for each slab is that slab's contents when the slabs
    were read one by one, or were read in one go and stand in the queue in
    increasing order. *)
Theorem migrate_reads_slabs st pairs is_seq st' :
  disk_inv st -> MigrateReadLazyFlush st = Some (Some (pairs, is_seq), st') ->
  exists rest, used_dsinfoq_ (queues st) = map fst pairs ++ rest /\
    disk_evict_sinfoq_ (queues st') = disk_evict_sinfoq_ (queues st) ++ map fst pairs /\
    (is_seq = false \/ StronglySorted Z.lt (map fst pairs) ->
     Forall (fun p => p.2 = load (ssd_ st) (p.1 * SLAB_SIZE) SLAB_SIZE) pairs).
Proof.
  intros Hd E. unfold MigrateReadLazyFlush in E.
  destruct (migrate_batch st) as [[r st1]|] eqn:Em; [|done]. cbn [mbind option_bind] in E.
  pose proof (migrate_batch_spec _ _ _ Hd Em) as Hs. destruct r as [[[ds slabs] sq]|]; [|done].
  destruct Hs as (rest & Hu & Hl & Hb & Hc). simplify_eq.
  assert (Hfst : map fst (zip ds slabs) = ds) by (apply fst_zip; lia). rewrite Hfst.
  exists rest. split; [done|]. destruct Hb as (_ & _ & _ & _ & _ & _ & _ & _ & E9 & _).
  injection E9 as _ _ _ _ _ Q6. split; [simpl; by rewrite Q6|]. intros Hor. rewrite Hc.
  - clear. induction ds as [|d ds IH]; simpl; constructor; done.
  - destruct Hor as [?|Hst]; [by left|right]. intros i j Hx Hj.
    apply (sorted_lookup Z.lt ds (Z.to_nat i) (Z.to_nat j)); try done; [|apply id_at_lookup; lia|lia].
    apply id_at_lookup; lia.
Qed.

End FlushProps.

(** ** Examples *)

#[local] Instance whole_device : Device := fun _ size => size.

Lemma whole_device_ok : device_ok.
Proof. done. Qed.

Definition tree := gmap (list Z) SlabRef.

(** Chunks put one after the other, as (source, metric, time). *)
Definition put_times (st : TreeSeries tree) (l : list (Z * Z * Z)) : option (TreeSeries tree) :=
  foldl (fun r e => st ← r;
    '(_, _, st) ← ConPutKV st e.1.1 e.1.2 e.2 (e.2 + 5) [e.2] 1 0; Some st) (Some st) l.

Lemma put_times_ind (P : TreeSeries tree -> Prop) st l st' :
  (forall st s m t t' v n txn flag sid st', P st -> id_ok s m ->
     ConPutKV st s m t t' v n txn = Some (flag, sid, st') -> P st') ->
  P st -> Forall (fun e => id_ok e.1.1 e.1.2) l -> put_times st l = Some st' -> P st'.
Proof.
  intros Hstep. unfold put_times. revert st.
  induction l as [|[[s m] t] l IH]; intros st Hb Hl E; [by simplify_eq/=|].
  inversion Hl as [|? ? Hx Hl']; subst. cbn [foldl] in E. cbn [mbind option_bind] in E.
  destruct (ConPutKV st _ _ _ _ _ _ _) as [[[flag sid] st1]|] eqn:E1.
  - apply (IH st1); [by eapply Hstep|done|]. exact E.
  - exfalso. clear -E. cbn in E. induction l; [done|]. by apply IHl.
Qed.

Definition base_store (nm nd : Z) : TreeSeries tree := init_store ∅ [] nm nd 1.
Definition fill (s m : Z) : list (Z * Z * Z) := map (fun t => (s, m, 10 * t)) (seqZ 1 16).

(** Slabs 0 and 2 are full, slab 1 is not. *)
Definition gap_store : TreeSeries tree :=
  default (base_store 12 12) (put_times (base_store 12 12) (fill 1 1 ++ [(2, 2, 7)] ++ fill 3 3)).

(** Slab 0 is full. *)
Definition full_store : TreeSeries tree :=
  default (base_store 2 10) (put_times (base_store 2 10) (fill 1 1)).

Definition ids_fit (l : list (Z * Z * Z)) : bool :=
  forallb (fun e => (0 <=? e.1.1) && (e.1.1 <? 256 * CY_NUM) && (0 <=? e.1.2) && (e.1.2 <? 256 * CX_NUM)) l.

Lemma put_times_some (P : TreeSeries tree -> Prop) st l :
  (forall st s m t t' v n txn flag sid st', P st -> id_ok s m ->
     ConPutKV st s m t t' v n txn = Some (flag, sid, st') -> P st') ->
  P st -> ids_fit l = true -> P (default st (put_times st l)).
Proof.
  intros Hstep Hb Hl. destruct (put_times st l) as [st'|] eqn:E; [|done].
  eapply put_times_ind; [exact Hstep|done| |done].
  unfold ids_fit in Hl. rewrite forallb_forall in Hl. apply Forall_forall. intros e He.
  apply list_elem_of_In, Hl in He. rewrite !andb_true_iff, !Z.leb_le, !Z.ltb_lt in He. unfold id_ok. lia.
Qed.

Lemma base_books nm nd : 0 <= nm <= nd -> nd < UINT32_MAX -> books (base_store nm nd).
Proof. apply init_books. Qed.

Lemma gap_store_books : books gap_store.
Proof.
  apply (put_times_some books); [intros; by eapply put_books|apply base_books; unfold UINT32_MAX; lia|reflexivity].
Qed.

Lemma full_store_books : books full_store.
Proof.
  apply (put_times_some books); [intros; by eapply put_books|apply base_books; unfold UINT32_MAX; lia|reflexivity].
Qed.

Lemma full_store_reachable : reachable ∅ [] 2 10 1 full_store.
Proof. apply (put_times_some (reachable ∅ [] 2 10 1)); [intros; by eapply reach_put|apply reach_init|reflexivity]. Qed.

Lemma full_store_linked : batch_linked full_store.
Proof.
  unfold batch_linked. assert (E : sort_slabs (minfo full_store) (next_batch full_store) = [0]) by (vm_compute; reflexivity).
  rewrite E. left. simpl. lia.
Qed.

Definition flush_result (st : TreeSeries tree) : TreeSeries tree :=
  match OptBatchWriteLazyFlush st with Some (_, st') => st' | None => st end.

Definition flushes (st : TreeSeries tree) : bool :=
  match OptBatchWriteLazyFlush st with Some (b, _) => b | None => false end.

Lemma flush_result_true st : flushes st = true -> OptBatchWriteLazyFlush st = Some (true, flush_result st).
Proof.
  unfold flushes, flush_result. by destruct (OptBatchWriteLazyFlush st) as [[[|] ?]|].
Qed.

Lemma runs_cover_batch_witness :
  exists runs, FindSinfoSubSequence [4; 5; 6; 9; 10] 4 = Some runs /\ runs ≫= run_slabs = [0; 1; 2; 3; 4].
Proof.
  destruct (runs_cover_batch [4; 5; 6; 9; 10] 4 ltac:(lia)) as (runs & E & _ & Hc).
  exists runs. split; [exact E|exact Hc].
Defined.

Lemma lazy_flush_copies_witness :
  exists new, mem_evict_sinfoq_ (queues (flush_result full_store)) = new /\ new <> [].
Proof.
  assert (E : flushes full_store = true) by (vm_compute; reflexivity). apply flush_result_true in E.
  destruct full_store_books as [Hm Hd].
  destruct (lazy_flush_copies full_store (flush_result full_store) Hm Hd whole_device_ok E) as (new & Hn & Hne & _).
  exists new. split; [|exact Hne]. rewrite Hn. vm_compute. reflexivity.
Defined.

Lemma lazy_flush_loses_last_witness :
  2 ∈ full_msinfoq_ (queues gap_store) /\
  (2 ∉ free_msinfoq_ (queues (flush_result gap_store)) ++ full_msinfoq_ (queues (flush_result gap_store))
     ++ map fst (mem_evict_sinfoq_ (queues (flush_result gap_store))) ++ open_slabs (ctable (flush_result gap_store))).
Proof.
  assert (E : flushes gap_store = true) by (vm_compute; reflexivity). apply flush_result_true in E.
  destruct gap_store_books as [Hm Hd].
  assert (Ews : sort_slabs (minfo gap_store) (next_batch gap_store) = [0; 2]) by (vm_compute; reflexivity).
  pose proof (lazy_flush_loses_last gap_store (flush_result gap_store) Hm Hd whole_device_ok E) as Hx.
  cbv zeta in Hx. rewrite Ews in Hx. apply Hx; [simpl; lia|]. vm_compute. discriminate.
Defined.

Lemma reachable_books_witness :
  mem_inv (flush_result full_store) /\ disk_inv (flush_result full_store).
Proof.
  assert (E : flushes full_store = true) by (vm_compute; reflexivity). apply flush_result_true in E.
  assert (Hr : reachable ∅ [] 2 10 1 (flush_result full_store))
    by (eapply reach_flush; [exact full_store_reachable|exact full_store_linked|exact E]).
  assert (H1 : 0 <= 2 <= 10) by lia. assert (H2 : 10 < UINT32_MAX) by (unfold UINT32_MAX; lia).
  exact (reachable_books ∅ [] 2 10 1 (flush_result full_store) whole_device_ok H1 H2 Hr).
Defined.

Definition migrated (st : TreeSeries tree) : option (list (Z * list Z) * bool * TreeSeries tree) :=
  match MigrateReadLazyFlush st with Some (Some (p, q), s) => Some (p, q, s) | _ => None end.

Lemma migrated_some st p q s :
  migrated st = Some (p, q, s) -> MigrateReadLazyFlush st = Some (Some (p, q), s).
Proof. unfold migrated. destruct (MigrateReadLazyFlush st) as [[[[? ?]|] ?]|]; naive_solver. Qed.

Lemma migrate_reads_slabs_witness :
  exists pairs is_seq st' rest, migrated (flush_result full_store) = Some (pairs, is_seq, st') /\
    used_dsinfoq_ (queues (flush_result full_store)) = map fst pairs ++ rest /\ map fst pairs = [0].
Proof.
  assert (Hb : books (flush_result full_store)).
  { destruct (lazy_flush_books full_store full_store_books whole_device_ok full_store_linked)
      as (flag & st' & E & Hb). unfold flush_result. rewrite E. exact Hb. }
  assert (E : match migrated (flush_result full_store) with
              | Some (p, _, _) => map fst p | None => [] end = [0]) by (vm_compute; reflexivity).
  destruct (migrated (flush_result full_store)) as [[[pairs q] st']|] eqn:Em; [|discriminate E].
  pose proof (migrate_reads_slabs _ _ _ _ (proj2 Hb) (migrated_some _ _ _ _ Em)) as (rest & Hu & _).
  exists pairs, q, st', rest. split; [reflexivity|]. split; [exact Hu|exact E].
Defined.
