(* ===== verification/Label.v ===== *)
(** label/Label.{hpp,cpp}: labels, label sets and what is hashed of them.

    A [std::string] is its list of bytes; [compare] orders bytes as unsigned
    numbers.  [XXH64] is vendored and a parameter.  [std::sort] with a strict
    total order has one possible result, the sorted permutation. *)
From Stdlib Require Import ZArith Lia Bool.
From stdpp Require Import base list numbers option sorting.
From S2P Require Import Prelude.

Abbreviation str := (list Z).

(** The sign of [a.compare(b)]. *)
Definition str_compare (a b : str) : Z :=
  if bytes_ltb a b then -1 else if bytes_ltb b a then 1 else 0.

Record Label := mkLabel { label : str; value : str }.
Definition Labels := list Label.

#[export] Instance Label_eq_dec : EqDecision Label.
Proof. solve_decision. Defined.

Definition label_lt (l l2 : Label) : bool :=
  let c := str_compare (label l) (label l2) in
  if 0 <? c then false else if c <? 0 then true
  else str_compare (value l) (value l2) <? 0.

Definition label_le (l l2 : Label) : bool :=
  let c := str_compare (label l) (label l2) in
  if 0 <? c then false else if c <? 0 then true
  else str_compare (value l) (value l2) <=? 0.

Definition label_eq (l l2 : Label) : bool :=
  (str_compare (label l) (label l2) =? 0) && (str_compare (value l) (value l2) =? 0).

(** [std::sort(r.begin(), r.end())] *)
Definition label_before (a b : Label) : Prop := label_lt b a = false.

#[export] Instance label_before_dec a b : Decision (label_before a b).
Proof. unfold label_before. apply _. Defined.

Definition sort_labels (l : Labels) : Labels := merge_sort label_before l.

Definition str_eqb (a b : str) : bool := bool_decide (a = b).

Definition lbs_add (lset : Labels) (l : Label) : Labels :=
  if existsb (fun x => str_eqb (label x) (label l)) lset then lset
  else sort_labels (lset ++ [l]).

Definition lbs_del (lset : Labels) (name : str) : Labels :=
  filter (fun x => label x <> name) lset.

(** The characters the printing functions and the metric name use. *)
Definition ch_open : Z := 123.
Definition ch_close : Z := 125.
Definition ch_comma : Z := 44.
Definition ch_eq : Z := 61.
Definition ch_plus : Z := 43.
Definition metric_name : str := [95; 95; 110; 97; 109; 101; 95; 95].

Fixpoint lbs_string_loop (first : bool) (lbs : Labels) : str :=
  match lbs with
  | [] => []
  | l :: lbs => (if first then [] else [ch_comma]) ++ label l ++ [ch_eq] ++ value l ++ lbs_string_loop false lbs
  end.
Definition lbs_string (lbs : Labels) : str := [ch_open] ++ lbs_string_loop true lbs ++ [ch_close].

Definition label_metric (lbs : Labels) : str :=
  match List.find (fun l => str_eqb (label l) metric_name) lbs with Some l => value l | None => [] end.

Definition label_source_group (lbs : Labels) : str :=
  [ch_open] ++ (lbs ≫= fun l => if str_eqb (label l) metric_name then [] else label l ++ [ch_plus] ++ value l)
  ++ [ch_close].

(** [lbs_map]: [insert] keeps the first value of a name. *)
Definition lbs_map (lbs : Labels) : list (str * str) :=
  foldl (fun m l => if existsb (fun e => str_eqb e.1 (label l)) m then m else m ++ [(label l, value l)]) [] lbs.

(** ** What is hashed *)

Definition SEP : Z := 255.
Definition label_bytes (l : Label) : str := label l ++ [SEP] ++ value l ++ [SEP].

Definition hash_input (lbs : Labels) : str := lbs ≫= label_bytes.
Definition metric_input (lbs : Labels) : str := label_metric lbs.
Definition source_input (lbs : Labels) : str :=
  lbs ≫= fun l => if str_eqb (label l) metric_name then [] else label_bytes l.
Definition group_input (labels : list Labels) : str := labels ≫= hash_input.
Definition for_labels_input (lbs : Labels) (names : list str) : str :=
  lbs ≫= fun l => if existsb (str_eqb (label l)) names then label_bytes l else [].
Definition without_labels_input (lbs : Labels) (names : list str) : str :=
  lbs ≫= fun l => if str_eqb (label l) metric_name || existsb (str_eqb (label l)) names then [] else label_bytes l.

Section Hash.
Context (XXH64 : str -> Z -> Z).

Definition lb_name_label_hash (lb : Label) (seed : Z) : Z := XXH64 (label lb) seed.
Definition lb_value_label_hash (lb : Label) (seed : Z) : Z := XXH64 (value lb) seed.
Definition lbs_hash (lbs : Labels) (seed : Z) : Z := XXH64 (hash_input lbs) seed.
Definition lbs_metric_hash (lbs : Labels) (seed : Z) : Z := XXH64 (metric_input lbs) seed.
Definition lbs_source_hash (lbs : Labels) (seed : Z) : Z := XXH64 (source_input lbs) seed.
Definition lbs_hash_group (labels : list Labels) : Z := XXH64 (group_input labels) 0.
Definition lbs_hash_for_labels (lbs : Labels) (names : list str) : Z := XXH64 (for_labels_input lbs names) 0.
Definition lbs_hash_without_labels (lbs : Labels) (names : list str) : Z :=
  XXH64 (without_labels_input lbs names) 0.

End Hash.

(** ** Building and comparing *)

Fixpoint pair_up (l : list str) : Labels :=
  match l with a :: b :: l => mkLabel a b :: pair_up l | _ => [] end.

Definition lbs_from_string (l : list str) : Labels :=
  if Nat.eqb (length l mod 2) 0 then sort_labels (pair_up l) else [].

(** The map's entries in its iteration order. *)
Definition lbs_from_map (m : list (str * str)) : Labels :=
  sort_labels (map (fun e => mkLabel e.1 e.2) m).

Fixpoint lbs_compare (lbs1 lbs2 : Labels) : Z :=
  match lbs1, lbs2 with
  | a :: lbs1', b :: lbs2' =>
    let c := str_compare (label a) (label b) in
    if c =? 0 then
      let c := str_compare (value a) (value b) in
      if c =? 0 then lbs_compare lbs1' lbs2' else c
    else c
  | _, _ => Z.of_nat (length lbs1) - Z.of_nat (length lbs2)
  end.

(** ** Order of labels *)

Lemma str_compare_lt a b : str_compare a b < 0 <-> bytes_ltb a b = true.
Proof. unfold str_compare. destruct (bytes_ltb a b), (bytes_ltb b a); split; done || lia. Qed.

Lemma str_compare_gt a b : 0 < str_compare a b <-> bytes_ltb b a = true.
Proof.
  unfold str_compare. destruct (bytes_ltb a b) eqn:E; [|destruct (bytes_ltb b a); split; done || lia].
  apply bytes_ltb_asym in E. rewrite E. split; done || lia.
Qed.

Lemma str_compare_eq a b : str_compare a b = 0 <-> a = b.
Proof.
  unfold str_compare. destruct (bytes_ltb a b) eqn:E; [split; [done|]|].
  - intros ->. by rewrite bytes_ltb_irrefl in E.
  - destruct (bytes_ltb b a) eqn:E2; split; try done.
    + intros ->. by rewrite bytes_ltb_irrefl in E2.
    + intros _. by apply bytes_ltb_total.
Qed.

Lemma label_lt_spec a b :
  label_lt a b = true <->
  bytes_ltb (label a) (label b) = true \/ (label a = label b /\ bytes_ltb (value a) (value b) = true).
Proof.
  unfold label_lt. destruct (Z.ltb_spec 0 (str_compare (label a) (label b))) as [Hc|Hc].
  - split; [done|]. apply str_compare_gt in Hc. pose proof (bytes_ltb_asym _ _ Hc) as Hn.
    intros [?|[E _]]; [congruence|]. rewrite E, bytes_ltb_irrefl in Hc. done.
  - destruct (Z.ltb_spec (str_compare (label a) (label b)) 0) as [Hl|Hl].
    + apply str_compare_lt in Hl. split; [by left|done].
    + assert (E : label a = label b) by (apply str_compare_eq; lia). rewrite Z.ltb_lt, str_compare_lt, E.
      rewrite bytes_ltb_irrefl. naive_solver.
Qed.

Lemma label_lt_irrefl a : label_lt a a = false.
Proof.
  destruct (label_lt a a) eqn:E; [|done]. apply label_lt_spec in E.
  rewrite !bytes_ltb_irrefl in E. naive_solver.
Qed.

Lemma label_lt_trans a b c : label_lt a b = true -> label_lt b c = true -> label_lt a c = true.
Proof.
  rewrite !label_lt_spec. intros [H1|[E1 H1]] [H2|[E2 H2]].
  - left. by eapply bytes_ltb_trans.
  - left. by rewrite <- E2.
  - left. by rewrite E1.
  - right. split; [congruence|]. by eapply bytes_ltb_trans.
Qed.

Lemma label_lt_total a b : label_lt a b = false -> label_lt b a = false -> a = b.
Proof.
  intros H1 H2. apply not_true_iff_false in H1, H2. rewrite label_lt_spec in H1, H2.
  destruct a as [n v], b as [n' v']. simpl in *.
  assert (n = n') as <-.
  { apply bytes_ltb_total; apply not_true_iff_false; naive_solver. }
  f_equal. apply bytes_ltb_total; apply not_true_iff_false; naive_solver.
Qed.

#[export] Instance label_before_trans : Transitive label_before.
Proof.
  intros a b c H1 H2. unfold label_before in *. apply not_true_iff_false. intros Hca.
  destruct (label_lt a b) eqn:Eab; [by rewrite (label_lt_trans c a b Hca Eab) in H2|].
  rewrite (label_lt_total a b Eab H1) in Hca. congruence.
Qed.

#[export] Instance label_before_total : Total label_before.
Proof.
  intros a b. unfold label_before. destruct (label_lt b a) eqn:E; [right|by left].
  apply not_true_iff_false. intros E'. pose proof (label_lt_trans _ _ _ E E') as Hx.
  by rewrite label_lt_irrefl in Hx.
Qed.

#[export] Instance label_before_antisym : AntiSymm (=) label_before.
Proof. intros a b H1 H2. by apply label_lt_total. Qed.

Lemma sort_labels_perm l : sort_labels l ≡ₚ l.
Proof. apply merge_sort_Permutation. Qed.

Lemma sort_labels_sorted l : StronglySorted label_before (sort_labels l).
Proof. apply StronglySorted_merge_sort; apply _. Qed.

Lemma sort_labels_id l : StronglySorted label_before l -> sort_labels l = l.
Proof.
  intros Hs. apply (StronglySorted_unique label_before); [apply sort_labels_sorted|done|apply sort_labels_perm].
Qed.

(** ** Label sets *)

(** Sorted, one label per name. *)
Definition lset_ok (lset : Labels) : Prop :=
  StronglySorted label_before lset /\ NoDup (map label lset).

Lemma existsb_name lset (n : str) :
  existsb (fun x => str_eqb (label x) n) lset = true <-> n ∈ map label lset.
Proof.
  rewrite existsb_exists, list_elem_of_fmap. unfold str_eqb. split.
  - intros (x & Hin & Hb). apply bool_decide_eq_true in Hb. exists x. by rewrite list_elem_of_In.
  - intros (x & -> & Hin). exists x. rewrite <- list_elem_of_In. split; [done|]. by apply bool_decide_eq_true.
Qed.

Lemma filter_sorted (P : Label -> Prop) `{!forall x, Decision (P x)} l :
  StronglySorted label_before l -> StronglySorted label_before (filter P l).
Proof.
  induction 1 as [|x l Hs IH Hx]; [constructor|]. rewrite filter_cons. case_decide; [|done].
  constructor; [done|]. apply Forall_forall. intros y Hy. apply list_elem_of_filter in Hy as [_ Hy].
  rewrite Forall_forall in Hx. by apply Hx.
Qed.

Lemma filter_names (P : Label -> Prop) `{!forall x, Decision (P x)} l :
  NoDup (map label l) -> NoDup (map label (filter P l)).
Proof.
  induction l as [|x l IH]; [done|]. rewrite filter_cons. cbn [map]. rewrite NoDup_cons. intros [Hx Hn].
  case_decide; [|by apply IH]. cbn [map]. apply NoDup_cons. split; [|by apply IH].
  intros Hin. apply Hx. apply list_elem_of_fmap in Hin as (y & -> & Hy).
  apply list_elem_of_filter in Hy as [_ Hy]. by apply list_elem_of_fmap_2.
Qed.

(** Adding a label to a label set keeps the set sorted with one label per
    name, leaves a set that has the name alone, and deleting the name again
    gives back the set it was added to. *)
Theorem lbs_add_del lset l :
  lset_ok lset ->
  lset_ok (lbs_add lset l) /\ lset_ok (lbs_del lset (label l)) /\
  (label l ∈ map label lset -> lbs_add lset l = lset) /\
  (~ label l ∈ map label lset -> lbs_add lset l ≡ₚ l :: lset /\ lbs_del (lbs_add lset l) (label l) = lset).
Proof.
  intros [Hs Hn].
  assert (Hdel : lset_ok (lbs_del lset (label l))) by (split; [by apply filter_sorted|by apply filter_names]).
  unfold lbs_add. destruct (existsb _ lset) eqn:E.
  - apply existsb_name in E. by split_and!.
  - assert (Hni : label l ∉ map label lset).
    { intros Hin. apply existsb_name in Hin. congruence. }
    assert (Hp : sort_labels (lset ++ [l]) ≡ₚ l :: lset).
    { rewrite sort_labels_perm. symmetry. apply Permutation_cons_append. }
    assert (Hs' : StronglySorted label_before (sort_labels (lset ++ [l]))) by apply sort_labels_sorted.
    split_and!; try done.
    + split; [done|]. rewrite Hp. cbn [map]. by apply NoDup_cons.
    + intros _. split; [done|].
      apply (StronglySorted_unique label_before); [by apply filter_sorted|done|].
      unfold lbs_del. transitivity (filter (fun x => label x <> label l) (l :: lset)); [by rewrite Hp|].
      rewrite filter_cons, decide_False by (intros Hx; by apply Hx).
      clear -Hni. induction lset as [|x lset IH]; [done|]. cbn [map] in Hni. rewrite not_elem_of_cons in Hni.
      rewrite filter_cons, decide_True by (intros Hx; by destruct Hni as [[] _]). constructor. apply IH, Hni.
Qed.

Lemma str_compare_sgn a b : str_compare b a = - str_compare a b.
Proof.
  unfold str_compare. destruct (bytes_ltb a b) eqn:E; [by rewrite (bytes_ltb_asym _ _ E)|].
  by destruct (bytes_ltb b a).
Qed.

Lemma lbs_compare_opp a b : lbs_compare b a = - lbs_compare a b.
Proof.
  revert b. induction a as [|x a IH]; intros [|y b]; cbn [lbs_compare]; try (cbn [length]; lia).
  assert (Ho : forall c, (- c =? 0) = (c =? 0)) by (intros c; destruct (Z.eqb_spec c 0), (Z.eqb_spec (- c) 0); lia).
  rewrite (str_compare_sgn (label x)), (str_compare_sgn (value x)), IH, !Ho.
  by destruct (str_compare (label x) (label y) =? 0), (str_compare (value x) (value y) =? 0).
Qed.

Lemma lbs_compare_zero a b : lbs_compare a b = 0 <-> a = b.
Proof.
  revert b. induction a as [|x a IH]; intros [|y b]; cbn [lbs_compare]; try (cbn [length]; split; done || lia).
  destruct (Z.eqb_spec (str_compare (label x) (label y)) 0) as [E|E].
  - destruct (Z.eqb_spec (str_compare (value x) (value y)) 0) as [E2|E2].
    + rewrite IH. apply str_compare_eq in E, E2. destruct x, y. simpl in *. subst. split; congruence.
    + split; [done|]. intros [= -> _]. by destruct E2; apply str_compare_eq.
  - split; [done|]. intros [= -> _]. by destruct E; apply str_compare_eq.
Qed.

Lemma lbs_compare_trans a b c : lbs_compare a b < 0 -> lbs_compare b c < 0 -> lbs_compare a c < 0.
Proof.
  revert b c. induction a as [|x a IH]; intros [|y b] [|z c]; cbn [lbs_compare]; try (cbn [length]; lia).
  assert (Hlt : forall u v w, str_compare u v < 0 -> str_compare v w < 0 -> str_compare u w < 0).
  { intros u v w. rewrite !str_compare_lt. apply bytes_ltb_trans. }
  assert (Hz : forall u v, str_compare u v = 0 -> u = v) by (intros; by apply str_compare_eq).
  assert (Hr : forall u, str_compare u u = 0) by (intros; by apply str_compare_eq).
  destruct (Z.eqb_spec (str_compare (label x) (label y)) 0) as [E|E],
    (Z.eqb_spec (str_compare (label y) (label z)) 0) as [E'|E'].
  - rewrite (Hz _ _ E), (Hz _ _ E'), Hr. simpl.
    destruct (Z.eqb_spec (str_compare (value x) (value y)) 0) as [F|F],
      (Z.eqb_spec (str_compare (value y) (value z)) 0) as [F'|F'].
    + rewrite (Hz _ _ F), (Hz _ _ F'), Hr. simpl. apply IH.
    + rewrite (Hz _ _ F). intros _ ?. by rewrite (proj2 (Z.eqb_neq _ _)).
    + rewrite <- (Hz _ _ F'). intros ? _. by rewrite (proj2 (Z.eqb_neq _ _)).
    + intros H1 H2. pose proof (Hlt _ _ _ H1 H2). by rewrite (proj2 (Z.eqb_neq _ _)) by lia.
  - rewrite (Hz _ _ E). intros _ ?. by rewrite (proj2 (Z.eqb_neq _ _)).
  - rewrite <- (Hz _ _ E'). intros ? _. by rewrite (proj2 (Z.eqb_neq _ _)).
  - intros H1 H2. pose proof (Hlt _ _ _ H1 H2). by rewrite (proj2 (Z.eqb_neq _ _)) by lia.
Qed.

(** [lbs_compare] is a strict total order on label sets: it is zero exactly
    on equal sets, changes sign with its arguments swapped, and is
    transitive. *)
Theorem lbs_compare_order a b c :
  (lbs_compare a b = 0 <-> a = b) /\ lbs_compare b a = - lbs_compare a b /\
  (lbs_compare a b < 0 -> lbs_compare b c < 0 -> lbs_compare a c < 0).
Proof. split_and!; [apply lbs_compare_zero|apply lbs_compare_opp|apply lbs_compare_trans]. Qed.

(** No separator byte in a string, as in UTF-8 text. *)
Definition no_sep (s : str) : Prop := SEP ∉ s.
Definition label_clean (l : Label) : Prop := no_sep (label l) /\ no_sep (value l).

Lemma sep_inj a b (s t : str) : no_sep a -> no_sep b -> a ++ SEP :: s = b ++ SEP :: t -> a = b /\ s = t.
Proof.
  unfold no_sep. revert b. induction a as [|x a IH]; intros [|y b] Ha Hb E; simpl in E.
  - by injection E.
  - injection E as <- _. by destruct Hb; left.
  - injection E as -> _. by destruct Ha; left.
  - injection E as -> E. rewrite not_elem_of_cons in Ha, Hb. destruct (IH b) as [-> ->]; naive_solver.
Qed.

(** Label sets of strings without the byte 0xff are hashed as different
    inputs when they differ, so two of them share a hash only if [XXH64]
    collides. *)
Theorem lbs_hash_inputs_differ XXH64 lbs lbs' seed :
  Forall label_clean lbs -> Forall label_clean lbs' -> lbs <> lbs' ->
  hash_input lbs <> hash_input lbs' /\
  (lbs_hash XXH64 lbs seed = lbs_hash XXH64 lbs' seed ->
   exists i j, i <> j /\ XXH64 i seed = XXH64 j seed).
Proof.
  intros H1 H2 Hne.
  assert (Hin : hash_input lbs <> hash_input lbs').
  { intros E. apply Hne. clear Hne. revert lbs' H2 E.
    induction H1 as [|[n v] lbs [Hn Hv] _ IH]; intros lbs' H2 E.
    - destruct lbs' as [|[n' v'] lbs']; [done|]. unfold hash_input, label_bytes in E. simpl in E.
      apply (f_equal length) in E. simpl in E. rewrite !length_app in E. simpl in E. lia.
    - destruct H2 as [|[n' v'] lbs' [Hn' Hv'] H2].
      { unfold hash_input, label_bytes in E. simpl in E. apply (f_equal length) in E.
        rewrite !length_app in E. simpl in E. lia. }
      unfold hash_input in E. cbn [mbind list_bind] in E. unfold label_bytes in E. simpl in E.
      rewrite <- !app_assoc in E. simpl in E. apply sep_inj in E as [-> E]; [|done..].
      rewrite <- !app_assoc in E. simpl in E. apply sep_inj in E as [-> E]; [|done..].
      f_equal. by apply IH. }
  split; [done|]. intros E. by exists (hash_input lbs), (hash_input lbs').
Qed.

Lemma lbs_add_del_witness :
  let lset := [mkLabel [97] [1]; mkLabel [99] [2]] in
  lbs_add lset (mkLabel [98] [7]) ≡ₚ mkLabel [98] [7] :: lset /\
  lbs_del (lbs_add lset (mkLabel [98] [7])) [98] = lset.
Proof.
  intros lset. apply (lbs_add_del lset (mkLabel [98] [7])).
  - split; [repeat constructor|]. apply (bool_decide_unpack _). vm_compute. exact I.
  - apply (bool_decide_unpack _). vm_compute. exact I.
Defined.

Lemma lbs_compare_order_witness :
  lbs_compare [mkLabel [97] [1]] [mkLabel [98] [1]] < 0 /\
  lbs_compare [mkLabel [97] [1]] [mkLabel [98] [1]; mkLabel [99] [2]] < 0.
Proof.
  split; [reflexivity|].
  apply (lbs_compare_order [mkLabel [97] [1]] [mkLabel [98] [1]] [mkLabel [98] [1]; mkLabel [99] [2]]);
    vm_compute; reflexivity.
Defined.

Lemma lbs_hash_inputs_differ_witness :
  hash_input [mkLabel [97] [98; 99]] <> hash_input [mkLabel [97; 98] [99]].
Proof.
  apply (lbs_hash_inputs_differ (fun _ _ => 0) [mkLabel [97] [98; 99]] [mkLabel [97; 98] [99]] 0); [| |discriminate];
    apply (bool_decide_unpack _); vm_compute; exact I.
Defined.
