(* ===== verification/Record.v ===== *)
(** tsdbutil/EncBuf.hpp, tsdbutil/DecBuf.hpp, tsdbutil/RecordEncoder.cpp and
    tsdbutil/RecordDecoder.cpp: the byte buffers and the log records built on
    them.

    The decoder's overloads for vectors and for pointers have the same body. *)
From Stdlib Require Import ZArith Lia Bool.
From stdpp Require Import base list numbers option sorting.
From S2P Require Import Prelude Endian Label.

(** ** EncBuf *)

Record EncBuf := mkEncBuf { eb_b : list Z; eb_index : Z }.

Definition enc_buf : EncBuf := mkEncBuf [] 0.
Definition eb_reset (e : EncBuf) : EncBuf := mkEncBuf (eb_b e) 0.
Definition eb_len (e : EncBuf) : Z := eb_index e.
(** [get()]: the bytes up to [index]. *)
Definition eb_out (e : EncBuf) : list Z := take (Z.to_nat (eb_index e)) (eb_b e).

(** [b.resize(n)] for a larger [n]; [push_back(0)] until the size is [n]. *)
Definition grow (b : list Z) (n : Z) : list Z := b ++ replicate (Z.to_nat n - length b) 0.

Definition eb_size (e : EncBuf) : Z := Z.of_nat (length (eb_b e)).

Definition put_string (e : EncBuf) (s : list Z) : EncBuf :=
  let n := Z.of_nat (length s) in
  let b := if eb_size e <? n + eb_index e then grow (eb_b e) (n + eb_index e + 1) else eb_b e in
  mkEncBuf (store b (eb_index e) s) (eb_index e + n).

Definition put_byte (e : EncBuf) (byte : Z) : EncBuf :=
  mkEncBuf (if eb_index e =? eb_size e then eb_b e ++ [byte] else poke (eb_b e) (eb_index e) byte)
    (eb_index e + 1).

(** Room for [n] more bytes. *)
Definition pad_to (e : EncBuf) (n : Z) : list Z :=
  if eb_size e <? eb_index e + n then grow (eb_b e) (eb_index e + n) else eb_b e.

Definition put_BE_uint16 (e : EncBuf) (num : Z) : EncBuf :=
  mkEncBuf (put_uint16_big_endian (pad_to e 2) (eb_index e) num) (eb_index e + 2).
Definition put_BE_uint32 (e : EncBuf) (num : Z) : EncBuf :=
  mkEncBuf (put_uint32_big_endian (pad_to e 4) (eb_index e) num) (eb_index e + 4).
Definition put_BE_uint64 (e : EncBuf) (num : Z) : EncBuf :=
  mkEncBuf (put_uint64_big_endian (pad_to e 8) (eb_index e) num) (eb_index e + 8).

Definition put_unsigned_variant (e : EncBuf) (num : Z) : EncBuf :=
  let bytes := encode_unsigned_varint num in
  mkEncBuf (store (pad_to e MAX_VARINT_LEN_64) (eb_index e) bytes) (eb_index e + Z.of_nat (length bytes)).
Definition put_signed_variant (e : EncBuf) (num : Z) : EncBuf :=
  let bytes := encode_signed_varint num in
  mkEncBuf (store (pad_to e MAX_VARINT_LEN_64) (eb_index e) bytes) (eb_index e + Z.of_nat (length bytes)).

Definition put_uvariant_string (e : EncBuf) (s : list Z) : EncBuf :=
  put_string (put_unsigned_variant e (Z.of_nat (length s))) s.

(** ** DecBuf *)

Definition NO_ERR : Z := 0.
Definition ERR_INVALID_SIZE : Z := 1.

Record DecBuf := mkDecBuf { db_b : list Z; db_size : Z; db_index : Z; db_err : Z }.

Definition dec_buf (b : list Z) (size : Z) : DecBuf := mkDecBuf b size 0 NO_ERR.
Definition db_len (d : DecBuf) : Z := u64 (db_size d - db_index d).
Definition db_fail (d : DecBuf) : DecBuf := mkDecBuf (db_b d) (db_size d) (db_index d) ERR_INVALID_SIZE.
Definition db_skip (d : DecBuf) (n : Z) : DecBuf :=
  mkDecBuf (db_b d) (db_size d) (u64 (db_index d + n)) (db_err d).
Definition failed (d : DecBuf) : bool := negb (db_err d =? NO_ERR).

Section Decode.
Context `{PastEnd}.

(** The reads of a fixed number of bytes. *)
Definition get_fixed (n : Z) (read : list Z -> Z -> Z) (d : DecBuf) : Z * DecBuf :=
  if failed d then (0, d)
  else if db_len d <? n then (0, db_fail d)
  else (read (db_b d) (db_index d), db_skip d n).

Definition get_byte (d : DecBuf) : Z * DecBuf := get_fixed 1 peek d.
Definition get_BE_uint16 (d : DecBuf) : Z * DecBuf := get_fixed 2 get_uint16_big_endian d.
Definition get_BE_uint32 (d : DecBuf) : Z * DecBuf := get_fixed 4 get_uint32_big_endian d.
Definition get_BE_uint64 (d : DecBuf) : Z * DecBuf := get_fixed 8 get_uint64_big_endian d.

Definition get_varint (decode : list Z -> Z -> Z -> option (Z * Z)) (d : DecBuf) : Z * DecBuf :=
  if failed d then (0, d)
  else if db_size d <=? db_index d then (0, db_fail d)
  else match decode (db_b d) (db_index d) (db_len d) with
       | None => (0, db_fail d)
       | Some (r, decoded) => (r, db_skip d decoded)
       end.

Definition get_unsigned_variant (d : DecBuf) : Z * DecBuf := get_varint decode_unsigned_varint d.
Definition get_signed_variant (d : DecBuf) : Z * DecBuf := get_varint decode_signed_varint d.

Definition get_uvariant_string (d : DecBuf) : list Z * DecBuf :=
  let '(len, d) := get_unsigned_variant d in
  if failed d then ([], d)
  else if db_len d <? len then ([], db_fail d)
  else (load (db_b d) (db_index d) len, db_skip d len).

End Decode.

(** ** Records *)

Definition RECORD_INVALID : Z := 255.
Definition RECORD_SERIES : Z := 1.
Definition RECORD_SAMPLES : Z := 2.
Definition RECORD_TOMBSTONES : Z := 3.

Record RefSeries := mkRefSeries {
  rs_ref : Z; rs_lset : Labels; rs_lset_ptr : option Labels; rs_flushed_txn : Z; rs_log_clean_txn : Z }.
Record RefSample := mkRefSample { rp_ref : Z; rp_logical_id : Z; rp_t : Z; rp_v : Z }.
Record Interval := mkInterval { min_time : Z; max_time : Z }.
Record Stone := mkStone { st_ref : Z; st_itvls : list Interval }.

Definition lset_of (r : RefSeries) : Labels := default (rs_lset r) (rs_lset_ptr r).

Definition put_label (e : EncBuf) (l : Label) : EncBuf :=
  put_uvariant_string (put_uvariant_string e (label l)) (value l).

Definition put_series (e : EncBuf) (r : RefSeries) : EncBuf :=
  let e := put_BE_uint64 e (rs_ref r) in
  let e := put_BE_uint64 e (u64 (rs_flushed_txn r)) in
  let e := put_BE_uint64 e (u64 (rs_log_clean_txn r)) in
  let e := put_unsigned_variant e (Z.of_nat (length (lset_of r))) in
  foldl put_label e (lset_of r).

(** [RecordEncoder::series]: what is appended to the record. *)
Definition encode_series (refseries : list RefSeries) : list Z :=
  eb_out (foldl put_series (put_byte enc_buf RECORD_SERIES) refseries).

Definition put_sample (first : RefSample) (e : EncBuf) (s : RefSample) : EncBuf :=
  let e := put_signed_variant e (s64 (s64 (rp_ref s) - s64 (rp_ref first))) in
  let e := put_signed_variant e (s64 (s64 (rp_logical_id s) - s64 (rp_logical_id first))) in
  let e := put_signed_variant e (s64 (rp_t s - rp_t first)) in
  put_BE_uint64 e (encode_double (rp_v s)).

Definition encode_samples (refsamples : list RefSample) : list Z :=
  match refsamples with
  | [] => []
  | s :: rest =>
    let e := put_byte enc_buf RECORD_SAMPLES in
    let e := put_BE_uint64 e (rp_ref s) in
    let e := put_BE_uint64 e (rp_logical_id s) in
    let e := put_BE_uint64 e (u64 (rp_t s)) in
    let e := put_BE_uint64 e (encode_double (rp_v s)) in
    eb_out (foldl (put_sample s) e rest)
  end.

Definition put_interval (ref : Z) (e : EncBuf) (i : Interval) : EncBuf :=
  put_signed_variant (put_signed_variant (put_BE_uint64 e ref) (min_time i)) (max_time i).

Definition put_stone (e : EncBuf) (s : Stone) : EncBuf :=
  foldl (put_interval (st_ref s)) e (st_itvls s).

Definition encode_tombstones (stones : list Stone) : list Z :=
  eb_out (foldl put_stone (put_byte enc_buf RECORD_TOMBSTONES) stones).

(** [RecordDecoder::type] *)
Definition record_type (rec : list Z) : Z :=
  match rec with
  | [] => RECORD_INVALID
  | t :: _ => if (t =? RECORD_SERIES) || (t =? RECORD_SAMPLES) || (t =? RECORD_TOMBSTONES) then t
              else RECORD_INVALID
  end.

(** What [error::Error] carries. *)
Inductive DecodeError :=
  | Ok
  | InvalidType
  | InvalidSize
  | BytesLeft (n : Z).

Definition finish (d : DecBuf) : DecodeError :=
  if failed d then InvalidSize else if 0 <? db_len d then BytesLeft (db_len d) else Ok.

Section Records.
Context `{PastEnd}.

Fixpoint get_labels (n : nat) (d : DecBuf) : Labels * DecBuf :=
  match n with
  | O => ([], d)
  | S n =>
    let '(l, d) := get_uvariant_string d in
    let '(v, d) := get_uvariant_string d in
    let '(ls, d) := get_labels n d in
    (mkLabel l v :: ls, d)
  end.

Definition get_series (d : DecBuf) : RefSeries * DecBuf :=
  let '(ref, d) := get_BE_uint64 d in
  let '(flushed_txn, d) := get_BE_uint64 d in
  let '(log_clean_txn, d) := get_BE_uint64 d in
  let '(num_lbs, d) := get_unsigned_variant d in
  let '(lset, d) := get_labels (Z.to_nat num_lbs) d in
  (mkRefSeries ref (sort_labels lset) None (s64 flushed_txn) (s64 log_clean_txn), d).

(** The loop of each decoder; the second result is what the caller's vector has
    gained.  [None]: out of fuel. *)
Fixpoint series_loop (fuel : nat) (d : DecBuf) : option (DecodeError * list RefSeries) :=
  match fuel with
  | O => None
  | S fuel =>
    if (0 <? db_len d) && negb (failed d) then
      let '(r, d) := get_series d in
      if failed d then Some (InvalidSize, [])
      else '(e, l) ← series_loop fuel d; Some (e, r :: l)
    else Some (finish d, [])
  end.

Definition rounds (rec : list Z) : nat := S (length rec).

Definition decode_series (rec : list Z) : option (DecodeError * list RefSeries) :=
  let '(t, d) := get_byte (dec_buf rec (Z.of_nat (length rec))) in
  if t =? RECORD_SERIES then series_loop (rounds rec) d else Some (InvalidType, []).

Definition get_sample (base : RefSample) (d : DecBuf) : RefSample * DecBuf :=
  let '(id_delta, d) := get_signed_variant d in
  let '(logical_id_delta, d) := get_signed_variant d in
  let '(time_delta, d) := get_signed_variant d in
  let '(value, d) := get_BE_uint64 d in
  (mkRefSample (u64 (s64 (rp_ref base) + id_delta)) (u64 (s64 (rp_logical_id base) + logical_id_delta))
     (s64 (rp_t base + time_delta)) (decode_double value), d).

(** A sample is appended before its error is looked at. *)
Fixpoint samples_loop (fuel : nat) (base : RefSample) (d : DecBuf) : option (DecodeError * list RefSample) :=
  match fuel with
  | O => None
  | S fuel =>
    if (0 <? db_len d) && negb (failed d) then
      let '(r, d) := get_sample base d in
      '(e, l) ← samples_loop fuel base d; Some (e, r :: l)
    else Some (finish d, [])
  end.

Definition decode_samples (rec : list Z) : option (DecodeError * list RefSample) :=
  let '(t, d) := get_byte (dec_buf rec (Z.of_nat (length rec))) in
  if negb (t =? RECORD_SAMPLES) then Some (InvalidType, [])
  else if db_len d =? 0 then Some (Ok, [])
  else
    let '(base_ref, d) := get_BE_uint64 d in
    let '(base_logical_id, d) := get_BE_uint64 d in
    let '(base_time, d) := get_BE_uint64 d in
    let '(value, d) := get_BE_uint64 d in
    let base := mkRefSample base_ref base_logical_id (s64 base_time) (decode_double value) in
    '(e, l) ← samples_loop (rounds rec) base d; Some (e, base :: l).

Definition get_stone (d : DecBuf) : Stone * DecBuf :=
  let '(ref, d) := get_BE_uint64 d in
  let '(t1, d) := get_signed_variant d in
  let '(t2, d) := get_signed_variant d in
  (mkStone ref [mkInterval t1 t2], d).

Fixpoint tombstones_loop (fuel : nat) (d : DecBuf) : option (DecodeError * list Stone) :=
  match fuel with
  | O => None
  | S fuel =>
    if (0 <? db_len d) && negb (failed d) then
      let '(r, d) := get_stone d in
      '(e, l) ← tombstones_loop fuel d; Some (e, r :: l)
    else Some (finish d, [])
  end.

Definition decode_tombstones (rec : list Z) : option (DecodeError * list Stone) :=
  let '(t, d) := get_byte (dec_buf rec (Z.of_nat (length rec))) in
  if t =? RECORD_TOMBSTONES then tombstones_loop (rounds rec) d else Some (InvalidType, []).

End Records.

(** ** What is written *)

Definition eb_ok (e : EncBuf) : Prop := 0 <= eb_index e <= eb_size e.

(** [f] appends [bytes] to a buffer. *)
Definition puts (f : EncBuf -> EncBuf) (bytes : list Z) : Prop :=
  forall e, eb_ok e -> eb_ok (f e) /\ eb_out (f e) = eb_out e ++ bytes.

Lemma puts_comp f g a b : puts f a -> puts g b -> puts (fun e => g (f e)) (a ++ b).
Proof.
  intros Hf Hg e He. destruct (Hf e He) as [H1 E1]. destruct (Hg _ H1) as [H2 E2].
  split; [done|]. by rewrite E2, E1, <- app_assoc.
Qed.

Lemma puts_foldl {A} (f : EncBuf -> A -> EncBuf) (g : A -> list Z) l :
  (forall x, x ∈ l -> puts (fun e => f e x) (g x)) -> puts (fun e => foldl f e l) (l ≫= g).
Proof.
  induction l as [|x l IH]; intros Hf.
  - intros e He. cbn. by rewrite app_nil_r.
  - apply (puts_comp (fun e => f e x) (fun e => foldl f e l)); [apply Hf; by left|].
    apply IH. intros y Hy. apply Hf. by right.
Qed.

Lemma length_eb_out e : eb_ok e -> Z.of_nat (length (eb_out e)) = eb_index e.
Proof. unfold eb_ok, eb_size, eb_out. rewrite length_take. lia. Qed.

Lemma grow_split e b n :
  eb_ok e -> 0 <= n -> b = eb_b e \/ (exists m, b = grow (eb_b e) m) ->
  eb_index e + n <= Z.of_nat (length b) ->
  exists old post, b = eb_out e ++ old ++ post /\ Z.of_nat (length old) = n.
Proof.
  intros He Hn Hb Hl. unfold eb_ok, eb_size in He.
  assert (Ht : take (Z.to_nat (eb_index e)) b = eb_out e).
  { destruct Hb as [->|[m ->]]; [done|]. unfold grow, eb_out. apply take_app_le. lia. }
  exists (take (Z.to_nat n) (drop (Z.to_nat (eb_index e)) b)), (drop (Z.to_nat n) (drop (Z.to_nat (eb_index e)) b)).
  rewrite take_drop, <- Ht, take_drop. split; [done|]. rewrite length_take, length_drop. lia.
Qed.

Lemma pad_split e n :
  eb_ok e -> 0 <= n -> exists old post, pad_to e n = eb_out e ++ old ++ post /\ Z.of_nat (length old) = n.
Proof.
  intros He Hn. unfold eb_ok, eb_size in He. apply grow_split; try done; unfold pad_to, eb_size.
  - destruct (_ <? _); [right; eauto|by left].
  - destruct (Z.ltb_spec (Z.of_nat (length (eb_b e))) (eb_index e + n)); [|lia].
    unfold grow. rewrite length_app, length_replicate. lia.
Qed.

(** The buffer after [bytes] were stored at [index]. *)
Lemma written e bytes post b :
  eb_ok e -> b = eb_out e ++ bytes ++ post ->
  eb_ok (mkEncBuf b (eb_index e + Z.of_nat (length bytes))) /\
  eb_out (mkEncBuf b (eb_index e + Z.of_nat (length bytes))) = eb_out e ++ bytes.
Proof.
  intros He ->. pose proof (length_eb_out e He) as Hl. unfold eb_ok in *. split.
  - unfold eb_size. simpl. rewrite !length_app. lia.
  - unfold eb_out at 1. simpl. rewrite app_assoc. apply take_app_length'. rewrite length_app. lia.
Qed.

Lemma store_split pre old post bytes :
  (length bytes <= length old)%nat ->
  store (pre ++ old ++ post) (Z.of_nat (length pre)) bytes = pre ++ bytes ++ drop (length bytes) old ++ post.
Proof.
  intros Hl. unfold store. rewrite Nat2Z.id, take_app_length. do 2 f_equal.
  rewrite <- drop_drop, drop_app_length, drop_app_le by lia. done.
Qed.

Lemma stored e n bytes b :
  eb_ok e -> Z.of_nat (length bytes) <= n -> (exists old post, b = eb_out e ++ old ++ post /\ Z.of_nat (length old) = n) ->
  eb_ok (mkEncBuf (store b (eb_index e) bytes) (eb_index e + Z.of_nat (length bytes))) /\
  eb_out (mkEncBuf (store b (eb_index e) bytes) (eb_index e + Z.of_nat (length bytes))) = eb_out e ++ bytes.
Proof.
  intros He Hn (old & post & -> & Hl). apply (written e bytes (drop (length bytes) old ++ post)); [done|].
  rewrite <- (length_eb_out e He). apply store_split. lia.
Qed.

Lemma put_byte_puts byte : puts (fun e => put_byte e byte) [byte].
Proof.
  intros e He. unfold put_byte. pose proof (length_eb_out e He) as Hl. unfold eb_ok, eb_size in He.
  destruct (Z.eqb_spec (eb_index e) (eb_size e)) as [E|E]; unfold eb_size in E.
  - apply (written e [byte] []); [done|]. rewrite app_nil_r. f_equal. unfold eb_out. rewrite E, Nat2Z.id.
    symmetry. apply firstn_all.
  - destruct (grow_split e (eb_b e) 1 ltac:(done) ltac:(lia) ltac:(by left) ltac:(lia)) as (old & post & Eb & Ho).
    destruct old as [|x [|? ?]]; [done| |simpl in Ho; lia].
    apply (written e [byte] post); [done|]. rewrite Eb, <- Hl. unfold poke.
    rewrite (proj2 (Z.ltb_ge _ 0)), Nat2Z.id by lia. simpl.
    rewrite insert_app_r_alt, Nat.sub_diag by lia. done.
Qed.

Lemma put_BE_uint64_puts num : puts (fun e => put_BE_uint64 e num) (be_bytes 8 num).
Proof.
  intros e He. destruct (pad_split e 8 He ltac:(lia)) as (old & post & E & Ho).
  unfold put_BE_uint64. rewrite E, <- (length_eb_out e He), put_uint64_spec by lia.
  rewrite (length_eb_out e He). apply (written e (be_bytes 8 num) post); done.
Qed.

Lemma put_BE_uint32_puts num : puts (fun e => put_BE_uint32 e num) (be_bytes 4 num).
Proof.
  intros e He. destruct (pad_split e 4 He ltac:(lia)) as (old & post & E & Ho).
  unfold put_BE_uint32. rewrite E, <- (length_eb_out e He), put_uint32_spec by lia.
  rewrite (length_eb_out e He). apply (written e (be_bytes 4 num) post); done.
Qed.

Lemma encode_unsigned_length num : is_u64 num -> Z.of_nat (length (encode_unsigned_varint num)) <= MAX_VARINT_LEN_64.
Proof.
  intros Hn. rewrite encode_unsigned_varint_varint by done. pose proof (length_varint num Hn).
  unfold MAX_VARINT_LEN_64. lia.
Qed.

Lemma put_unsigned_puts num : is_u64 num -> puts (fun e => put_unsigned_variant e num) (encode_unsigned_varint num).
Proof.
  intros Hn e He. eapply stored; [done|by apply encode_unsigned_length|]. by apply pad_split.
Qed.

Lemma put_signed_puts num : puts (fun e => put_signed_variant e num) (encode_signed_varint num).
Proof.
  intros e He. eapply stored; [done| |by apply pad_split].
  apply encode_unsigned_length, zigzag_u64.
Qed.

Lemma put_string_puts s : puts (fun e => put_string e s) s.
Proof.
  intros e He. pose proof He as He'. unfold eb_ok, eb_size in He'. eapply (stored e (Z.of_nat (length s))); [done|lia|].
  apply grow_split; try done; [lia| |].
  - destruct (_ <? _); [right; eauto|by left].
  - destruct (Z.ltb_spec (eb_size e) (Z.of_nat (length s) + eb_index e)); unfold eb_size in *; [|lia].
    unfold grow. rewrite length_app, length_replicate. lia.
Qed.

Definition uvstr (s : list Z) : list Z := encode_unsigned_varint (Z.of_nat (length s)) ++ s.

Lemma put_uvariant_string_puts s :
  is_u64 (Z.of_nat (length s)) -> puts (fun e => put_uvariant_string e s) (uvstr s).
Proof. intros Hs. apply (puts_comp (fun e => put_unsigned_variant e _) (fun e => put_string e s)); [by apply put_unsigned_puts|apply put_string_puts]. Qed.

(** ** What is read *)

(** [d] is about to read [rest], in a buffer it reads to the end. *)
Definition db_at (d : DecBuf) (rest : list Z) : Prop :=
  db_err d = NO_ERR /\ db_size d = Z.of_nat (length (db_b d)) /\ db_size d < 2 ^ 63 /\
  0 <= db_index d <= db_size d /\ drop (Z.to_nat (db_index d)) (db_b d) = rest.

Lemma db_at_len d rest : db_at d rest -> db_len d = Z.of_nat (length rest).
Proof.
  intros (_ & Hs & Hb & Hi & <-). unfold db_len, u64. rewrite length_drop, wrap_id; [lia|]. unfold is_u. lia.
Qed.

Lemma db_at_split d rest :
  db_at d rest -> exists pre, db_b d = pre ++ rest /\ Z.of_nat (length pre) = db_index d.
Proof.
  intros (_ & Hs & _ & Hi & <-). exists (take (Z.to_nat (db_index d)) (db_b d)).
  rewrite take_drop, length_take. split; [done|lia].
Qed.

Lemma db_at_skip d bytes rest :
  db_at d (bytes ++ rest) -> db_at (db_skip d (Z.of_nat (length bytes))) rest.
Proof.
  intros Hd. pose proof (db_at_split _ _ Hd) as (pre & Eb & Hp). destruct Hd as (He & Hs & Hb & Hi & Hdr).
  assert (Hle : db_index d + Z.of_nat (length bytes) <= db_size d).
  { rewrite Hs, Eb, !length_app. lia. }
  unfold db_at, db_skip. simpl. rewrite Eb. unfold u64. rewrite wrap_id by (unfold is_u; lia).
  split_and!; try done; try lia; [by rewrite <- Eb|].
  rewrite <- Hp, <- Nat2Z.inj_add, Nat2Z.id, <- drop_drop, drop_app_length. apply drop_app_length.
Qed.

Lemma db_at_ok d rest : db_at d rest -> failed d = false.
Proof. intros (E & _). unfold failed. by rewrite E. Qed.

Section Reads.
Context `{PastEnd}.

(** [f] reads [bytes] as [v]. *)
Definition takes {A} (f : DecBuf -> A * DecBuf) (bytes : list Z) (v : A) : Prop :=
  forall d rest, db_at d (bytes ++ rest) -> exists d', f d = (v, d') /\ db_at d' rest.

Lemma get_fixed_takes n read bytes v :
  Z.of_nat (length bytes) = n ->
  (forall pre post, read (pre ++ bytes ++ post) (Z.of_nat (length pre)) = v) ->
  takes (get_fixed n read) bytes v.
Proof.
  intros Hn Hr d rest Hd. pose proof (db_at_split _ _ Hd) as (pre & Eb & Hp).
  exists (db_skip d n). split; [|rewrite <- Hn; by apply db_at_skip].
  unfold get_fixed. rewrite (db_at_ok _ _ Hd), (db_at_len _ _ Hd), length_app.
  rewrite (proj2 (Z.ltb_ge _ _)) by lia. by rewrite Eb, <- Hp, Hr.
Qed.

Lemma get_byte_takes b : takes get_byte [b] b.
Proof. apply get_fixed_takes; [done|]. intros pre post. apply peek_app_r0. Qed.

Lemma get_BE_uint64_takes v : is_u64 v -> takes get_BE_uint64 (be_bytes 8 v) v.
Proof.
  intros Hv. apply get_fixed_takes; [by rewrite length_be_bytes|]. intros. rewrite get_uint64_spec. by apply wrap_id.
Qed.

Lemma get_varint_takes decode bytes v :
  bytes <> [] ->
  (forall pre post size, Z.of_nat (length bytes) <= size ->
     decode (pre ++ bytes ++ post) (Z.of_nat (length pre)) size = Some (v, Z.of_nat (length bytes))) ->
  takes (get_varint decode) bytes v.
Proof.
  intros Hne Hr d rest Hd. pose proof (db_at_split _ _ Hd) as (pre & Eb & Hp).
  exists (db_skip d (Z.of_nat (length bytes))). split; [|by apply db_at_skip].
  unfold get_varint. rewrite (db_at_ok _ _ Hd), (db_at_len _ _ Hd).
  assert (Hpos : 0 < Z.of_nat (length bytes)) by (destruct bytes; [done|simpl; lia]).
  destruct Hd as (_ & Hs & _). rewrite (proj2 (Z.leb_gt _ _)) by (rewrite Hs, Eb, !length_app; lia).
  rewrite Eb, <- Hp, Hr; [done|]. rewrite length_app. lia.
Qed.

Lemma encode_unsigned_nonempty v : is_u64 v -> encode_unsigned_varint v <> [].
Proof.
  intros Hv E. rewrite encode_unsigned_varint_varint in E by done. pose proof (length_varint v Hv) as Hl.
  rewrite E in Hl. simpl in Hl. lia.
Qed.

Lemma get_unsigned_takes v : is_u64 v -> takes get_unsigned_variant (encode_unsigned_varint v) v.
Proof.
  intros Hv. apply get_varint_takes; [by apply encode_unsigned_nonempty|]. intros. by apply decode_encode_unsigned.
Qed.

Lemma get_signed_takes v : is_s64 v -> takes get_signed_variant (encode_signed_varint v) v.
Proof.
  intros Hv. apply get_varint_takes; [apply encode_unsigned_nonempty, zigzag_u64|].
  intros pre post size Hs. unfold decode_signed_varint, encode_signed_varint in *.
  rewrite decode_encode_unsigned by (done || apply zigzag_u64). by rewrite unzigzag_zigzag.
Qed.

Lemma get_uvariant_string_takes s : takes get_uvariant_string (uvstr s) s.
Proof.
  intros d rest Hd. unfold get_uvariant_string, uvstr in *. rewrite <- app_assoc in Hd.
  assert (Hlen : is_u64 (Z.of_nat (length s))).
  { pose proof (db_at_split _ _ Hd) as (pre & Eb & _). destruct Hd as (_ & Hs & Hb & _).
    rewrite Hs, Eb, !length_app in Hb. unfold is_u. lia. }
  destruct (get_unsigned_takes _ Hlen d _ Hd) as (d1 & -> & Hd1).
  rewrite (db_at_ok _ _ Hd1), (db_at_len _ _ Hd1), length_app, (proj2 (Z.ltb_ge _ _)) by lia.
  eexists. split; [|apply db_at_skip; exact Hd1]. f_equal.
  unfold load. destruct Hd1 as (_ & _ & _ & _ & ->). rewrite Nat2Z.id. apply take_app_length.
Qed.

(** *** Records *)

Definition label_rec (l : Label) : list Z := uvstr (label l) ++ uvstr (value l).
Definition series_rec (r : RefSeries) : list Z :=
  be_bytes 8 (rs_ref r) ++ be_bytes 8 (u64 (rs_flushed_txn r)) ++ be_bytes 8 (u64 (rs_log_clean_txn r))
  ++ encode_unsigned_varint (Z.of_nat (length (lset_of r))) ++ (lset_of r ≫= label_rec).
Definition sample_rec (first s : RefSample) : list Z :=
  encode_signed_varint (s64 (s64 (rp_ref s) - s64 (rp_ref first)))
  ++ encode_signed_varint (s64 (s64 (rp_logical_id s) - s64 (rp_logical_id first)))
  ++ encode_signed_varint (s64 (rp_t s - rp_t first)) ++ be_bytes 8 (rp_v s).
Definition interval_rec (ref : Z) (i : Interval) : list Z :=
  be_bytes 8 ref ++ encode_signed_varint (min_time i) ++ encode_signed_varint (max_time i).

Definition str_ok (s : list Z) : Prop := is_u64 (Z.of_nat (length s)).
Definition series_ok (r : RefSeries) : Prop :=
  is_u64 (rs_ref r) /\ is_s64 (rs_flushed_txn r) /\ is_s64 (rs_log_clean_txn r) /\
  is_u64 (Z.of_nat (length (lset_of r))) /\ Forall (fun l => str_ok (label l) /\ str_ok (value l)) (lset_of r).
Definition ref_sample_ok (s : RefSample) : Prop :=
  is_u64 (rp_ref s) /\ is_u64 (rp_logical_id s) /\ is_s64 (rp_t s) /\ is_u64 (rp_v s).
Definition interval_ok (i : Interval) : Prop := is_s64 (min_time i) /\ is_s64 (max_time i).

Lemma takes_comp {A B C} (f : DecBuf -> A * DecBuf) (g : A -> DecBuf -> B * DecBuf) (h : A -> B -> C) a b x y :
  takes f a x -> takes (g x) b y ->
  takes (fun d => let '(u, d) := f d in let '(v, d) := g u d in (h u v, d)) (a ++ b) (h x y).
Proof.
  intros Hf Hg d rest Hd. rewrite <- app_assoc in Hd. destruct (Hf d _ Hd) as (d1 & -> & Hd1).
  destruct (Hg d1 _ Hd1) as (d2 & -> & Hd2). by exists d2.
Qed.

Lemma get_labels_takes (ls : Labels) : takes (get_labels (length ls)) (ls ≫= label_rec) ls.
Proof.
  induction ls as [|[l v] ls IH]; intros d rest Hd; [by exists d|].
  cbn [mbind list_bind] in Hd. fold (ls ≫= label_rec) in Hd. unfold label_rec in Hd at 1. simpl in Hd.
  rewrite <- !app_assoc in Hd. cbn [length get_labels].
  destruct (get_uvariant_string_takes l d _ Hd) as (d1 & -> & Hd1).
  destruct (get_uvariant_string_takes v d1 _ Hd1) as (d2 & -> & Hd2).
  destruct (IH d2 _ Hd2) as (d3 & -> & Hd3). by exists d3.
Qed.

Lemma s64_u64_id z : is_s64 z -> s64 (u64 z) = z.
Proof. intros Hz. rewrite s64_u64. by apply swrap_id. Qed.

(** What the decoder makes of an encoded series. *)
Definition series_read (r : RefSeries) : RefSeries :=
  mkRefSeries (rs_ref r) (sort_labels (lset_of r)) None (rs_flushed_txn r) (rs_log_clean_txn r).

Lemma get_series_takes r : series_ok r -> takes get_series (series_rec r) (series_read r).
Proof.
  intros (Hr & Hf & Hc & Hn & _) d rest Hd. unfold series_rec in Hd. rewrite <- !app_assoc in Hd.
  unfold get_series.
  destruct (get_BE_uint64_takes _ Hr d _ Hd) as (d1 & -> & Hd1).
  destruct (get_BE_uint64_takes (u64 (rs_flushed_txn r)) ltac:(by apply wrap_range) d1 _ Hd1) as (d2 & -> & Hd2).
  destruct (get_BE_uint64_takes (u64 (rs_log_clean_txn r)) ltac:(by apply wrap_range) d2 _ Hd2) as (d3 & -> & Hd3).
  destruct (get_unsigned_takes _ Hn d3 _ Hd3) as (d4 & -> & Hd4). rewrite Nat2Z.id.
  destruct (get_labels_takes (lset_of r) d4 _ Hd4) as (d5 & -> & Hd5).
  exists d5. split; [|done]. by rewrite !s64_u64_id.
Qed.

Lemma delta_u64 a b : is_u64 a -> u64 (s64 b + s64 (s64 a - s64 b)) = a.
Proof.
  intros Ha. unfold s64. destruct (swrap_ex 64 (swrap 64 a - swrap 64 b)) as [k ->].
  destruct (swrap_ex 64 a) as [j ->]. unfold u64.
  replace (swrap 64 b + (a + j * 2 ^ 64 - swrap 64 b + k * 2 ^ 64)) with (a + (j + k) * 2 ^ 64) by lia.
  unfold wrap. rewrite Z_mod_plus_full. by apply wrap_id.
Qed.

Lemma delta_s64 a b : is_s64 a -> s64 (b + s64 (a - b)) = a.
Proof.
  intros Ha. apply (is_s_inj 64); [done|by apply swrap_range|done|].
  unfold s64. rewrite wrap_swrap by done. destruct (swrap_ex 64 (a - b)) as [k ->].
  replace (b + (a - b + k * 2 ^ 64)) with (a + k * 2 ^ 64) by lia. unfold wrap. apply Z_mod_plus_full.
Qed.

Lemma get_sample_takes first s :
  ref_sample_ok first -> ref_sample_ok s -> takes (get_sample first) (sample_rec first s) s.
Proof.
  intros (F1 & F2 & F3 & F4) (S1 & S2 & S3 & S4) d rest Hd. unfold sample_rec in Hd. rewrite <- !app_assoc in Hd.
  unfold get_sample. assert (Hr : forall z, is_s64 (s64 z)) by (intros; by apply swrap_range).
  destruct (get_signed_takes _ (Hr _) d _ Hd) as (d1 & -> & Hd1).
  destruct (get_signed_takes _ (Hr _) d1 _ Hd1) as (d2 & -> & Hd2).
  destruct (get_signed_takes _ (Hr _) d2 _ Hd2) as (d3 & -> & Hd3).
  destruct (get_BE_uint64_takes _ S4 d3 _ Hd3) as (d4 & -> & Hd4).
  exists d4. split; [|done]. f_equal. destruct s as [ref lid t v]. simpl in *. unfold decode_double. f_equal.
  - by apply delta_u64.
  - by apply delta_u64.
  - by apply delta_s64.
Qed.

Lemma get_stone_takes ref i :
  is_u64 ref -> interval_ok i -> takes get_stone (interval_rec ref i) (mkStone ref [i]).
Proof.
  intros Hr [H1 H2] d rest Hd. unfold interval_rec in Hd. rewrite <- !app_assoc in Hd. unfold get_stone.
  destruct (get_BE_uint64_takes _ Hr d _ Hd) as (d1 & -> & Hd1).
  destruct (get_signed_takes _ H1 d1 _ Hd1) as (d2 & -> & Hd2).
  destruct (get_signed_takes _ H2 d2 _ Hd2) as (d3 & -> & Hd3).
  exists d3. split; [|done]. by destruct i.
Qed.

Lemma more_left d rest : db_at d rest -> (0 <? db_len d) && negb (failed d) = negb (bool_decide (rest = [])).
Proof.
  intros Hd. rewrite (db_at_ok _ _ Hd), (db_at_len _ _ Hd), andb_true_r.
  destruct rest; [done|]. by apply Z.ltb_lt.
Qed.

Lemma at_end d : db_at d [] -> finish d = Ok.
Proof. intros Hd. unfold finish. by rewrite (db_at_ok _ _ Hd), (db_at_len _ _ Hd). Qed.

Lemma series_loop_reads l fuel d :
  Forall series_ok l -> (length l < fuel)%nat -> db_at d (l ≫= series_rec) ->
  series_loop fuel d = Some (Ok, map series_read l).
Proof.
  intros Hl. revert fuel d. induction Hl as [|r l Hr Hl IH]; intros fuel d Hf Hd;
    (destruct fuel as [|fuel]; [simpl in Hf; lia|]); cbn [series_loop].
  - rewrite (more_left _ _ Hd). cbn. by rewrite at_end.
  - rewrite (more_left _ _ Hd), bool_decide_eq_false_2 by (intros E; discriminate E). cbn [negb].
    destruct (get_series_takes r Hr d _ Hd) as (d1 & -> & Hd1). rewrite (db_at_ok _ _ Hd1).
    rewrite (IH fuel d1) by (done || (simpl in Hf; lia)). done.
Qed.

Lemma samples_loop_reads first l fuel d :
  ref_sample_ok first -> Forall ref_sample_ok l -> (length l < fuel)%nat -> db_at d (l ≫= sample_rec first) ->
  samples_loop fuel first d = Some (Ok, l).
Proof.
  intros Hfirst Hl. revert fuel d. induction Hl as [|r l Hr Hl IH]; intros fuel d Hf Hd;
    (destruct fuel as [|fuel]; [simpl in Hf; lia|]); cbn [samples_loop].
  - rewrite (more_left _ _ Hd). cbn. by rewrite at_end.
  - rewrite (more_left _ _ Hd), bool_decide_eq_false_2.
    2:{ cbn [mbind list_bind]. unfold sample_rec. intros E. apply app_nil in E as [E _].
        apply app_nil in E as [E _]. by apply encode_unsigned_nonempty in E; [|apply zigzag_u64]. }
    cbn [negb]. destruct (get_sample_takes first r Hfirst Hr d _ Hd) as (d1 & -> & Hd1).
    rewrite (IH fuel d1) by (done || (simpl in Hf; lia)). done.
Qed.

(** Stones as the decoder returns them, one per interval. *)
Definition split_stone (s : Stone) : list Stone := map (fun i => mkStone (st_ref s) [i]) (st_itvls s).
Definition stone_rec (s : Stone) : list Z := st_itvls s ≫= interval_rec (st_ref s).
Definition stone_ok (s : Stone) : Prop := is_u64 (st_ref s) /\ Forall interval_ok (st_itvls s).

Lemma tombstones_loop_reads (l : list (Z * Interval)) fuel d :
  Forall (fun p => is_u64 p.1 /\ interval_ok p.2) l -> (length l < fuel)%nat ->
  db_at d (l ≫= fun p => interval_rec p.1 p.2) ->
  tombstones_loop fuel d = Some (Ok, map (fun p => mkStone p.1 [p.2]) l).
Proof.
  intros Hl. revert fuel d. induction Hl as [|[ref i] l [Hr Hi] Hl IH]; intros fuel d Hf Hd;
    (destruct fuel as [|fuel]; [simpl in Hf; lia|]); cbn [tombstones_loop].
  - rewrite (more_left _ _ Hd). cbn. by rewrite at_end.
  - rewrite (more_left _ _ Hd), bool_decide_eq_false_2 by (intros E; discriminate E). cbn [negb].
    destruct (get_stone_takes ref i Hr Hi d _ Hd) as (d1 & -> & Hd1).
    rewrite (IH fuel d1) by (done || (simpl in Hf; lia)). done.
Qed.

(** *** Encoded records *)

Lemma enc_buf_ok : eb_ok enc_buf.
Proof. done. Qed.

Lemma puts_start f bytes : puts f bytes -> eb_out (f enc_buf) = bytes.
Proof. intros Hf. by destruct (Hf _ enc_buf_ok) as [_ ->]. Qed.

Lemma put_label_puts l : str_ok (label l) /\ str_ok (value l) -> puts (fun e => put_label e l) (label_rec l).
Proof.
  intros [H1 H2]. apply (puts_comp (fun e => put_uvariant_string e _) (fun e => put_uvariant_string e _));
    by apply put_uvariant_string_puts.
Qed.

Lemma put_series_puts r : series_ok r -> puts (fun e => put_series e r) (series_rec r).
Proof.
  intros (_ & _ & _ & Hn & Hl). unfold put_series, series_rec.
  apply (puts_comp (fun e => put_BE_uint64 e _) (fun e => foldl put_label (put_unsigned_variant
    (put_BE_uint64 (put_BE_uint64 e _) _) _) _)); [apply put_BE_uint64_puts|].
  apply (puts_comp (fun e => put_BE_uint64 e _) (fun e => foldl put_label (put_unsigned_variant
    (put_BE_uint64 e _) _) _)); [apply put_BE_uint64_puts|].
  apply (puts_comp (fun e => put_BE_uint64 e _) (fun e => foldl put_label (put_unsigned_variant e _) _));
    [apply put_BE_uint64_puts|].
  apply (puts_comp (fun e => put_unsigned_variant e _) (fun e => foldl put_label e _)); [by apply put_unsigned_puts|].
  apply puts_foldl. intros l Hin. apply put_label_puts. rewrite Forall_forall in Hl. by apply Hl.
Qed.

Lemma put_sample_puts first s : puts (fun e => put_sample first e s) (sample_rec first s).
Proof.
  unfold put_sample, sample_rec.
  apply (puts_comp (fun e => put_signed_variant e _) (fun e => put_BE_uint64 (put_signed_variant
    (put_signed_variant e _) _) _)); [apply put_signed_puts|].
  apply (puts_comp (fun e => put_signed_variant e _) (fun e => put_BE_uint64 (put_signed_variant e _) _));
    [apply put_signed_puts|].
  apply (puts_comp (fun e => put_signed_variant e _) (fun e => put_BE_uint64 e _)); [apply put_signed_puts|].
  apply put_BE_uint64_puts.
Qed.

Lemma put_stone_puts s : puts (fun e => put_stone e s) (stone_rec s).
Proof.
  apply puts_foldl. intros i _. unfold put_interval, interval_rec.
  apply (puts_comp (fun e => put_BE_uint64 e _) (fun e => put_signed_variant (put_signed_variant e _) _));
    [apply put_BE_uint64_puts|].
  apply (puts_comp (fun e => put_signed_variant e _) (fun e => put_signed_variant e _)); apply put_signed_puts.
Qed.

Lemma encode_series_bytes l : Forall series_ok l -> encode_series l = [RECORD_SERIES] ++ (l ≫= series_rec).
Proof.
  intros Hl. apply (puts_start (fun e => foldl put_series (put_byte e RECORD_SERIES) l)).
  apply (puts_comp (fun e => put_byte e _) (fun e => foldl put_series e l)); [apply put_byte_puts|].
  apply puts_foldl. intros r Hr. apply put_series_puts. rewrite Forall_forall in Hl. by apply Hl.
Qed.

Definition first_rec (s : RefSample) : list Z :=
  be_bytes 8 (rp_ref s) ++ be_bytes 8 (rp_logical_id s) ++ be_bytes 8 (u64 (rp_t s)) ++ be_bytes 8 (rp_v s).

Lemma encode_samples_bytes s l :
  encode_samples (s :: l) = [RECORD_SAMPLES] ++ first_rec s ++ (l ≫= sample_rec s).
Proof.
  apply (puts_start (fun e => foldl (put_sample s) (put_BE_uint64 (put_BE_uint64 (put_BE_uint64 (put_BE_uint64
    (put_byte e _) _) _) _) _) l)).
  unfold first_rec. rewrite <- !app_assoc.
  apply (puts_comp (fun e => put_byte e _) (fun e => foldl (put_sample s) (put_BE_uint64 (put_BE_uint64
    (put_BE_uint64 (put_BE_uint64 e _) _) _) _) l)); [apply put_byte_puts|].
  apply (puts_comp (fun e => put_BE_uint64 e _) (fun e => foldl (put_sample s) (put_BE_uint64 (put_BE_uint64
    (put_BE_uint64 e _) _) _) l)); [apply put_BE_uint64_puts|].
  apply (puts_comp (fun e => put_BE_uint64 e _) (fun e => foldl (put_sample s) (put_BE_uint64 (put_BE_uint64
    e _) _) l)); [apply put_BE_uint64_puts|].
  apply (puts_comp (fun e => put_BE_uint64 e _) (fun e => foldl (put_sample s) (put_BE_uint64 e _) l));
    [apply put_BE_uint64_puts|].
  apply (puts_comp (fun e => put_BE_uint64 e _) (fun e => foldl (put_sample s) e l)); [apply put_BE_uint64_puts|].
  apply puts_foldl. intros r _. apply put_sample_puts.
Qed.

Lemma encode_tombstones_bytes l : encode_tombstones l = [RECORD_TOMBSTONES] ++ (l ≫= stone_rec).
Proof.
  apply (puts_start (fun e => foldl put_stone (put_byte e RECORD_TOMBSTONES) l)).
  apply (puts_comp (fun e => put_byte e _) (fun e => foldl put_stone e l)); [apply put_byte_puts|].
  apply puts_foldl. intros s _. apply put_stone_puts.
Qed.

Lemma dec_buf_at rec : Z.of_nat (length rec) < 2 ^ 63 -> db_at (dec_buf rec (Z.of_nat (length rec))) rec.
Proof. intros Hl. split_and!; try done; simpl; lia. Qed.

(** A bind of non-empty pieces is at least as long as the list. *)
Lemma bind_length {A} (g : A -> list Z) l :
  (forall x, g x <> []) -> (length l <= length (l ≫= g))%nat.
Proof.
  intros Hg. induction l as [|x l IH]; [done|]. rewrite bind_cons, length_app. cbn [length].
  assert (0 < length (g x))%nat by (specialize (Hg x); destruct (g x); [done|simpl; lia]).
  lia.
Qed.

(** A series record decodes to the series it was made of, with the label
    set each refers to, sorted. *)
Theorem series_record_round_trip l :
  Forall series_ok l -> Z.of_nat (length (encode_series l)) < 2 ^ 63 ->
  decode_series (encode_series l) = Some (Ok, map series_read l).
Proof.
  intros Hl Hn. pose proof (dec_buf_at _ Hn) as Hd. unfold decode_series.
  rewrite (encode_series_bytes l Hl) in *.
  destruct (get_byte_takes RECORD_SERIES _ _ Hd) as (d1 & -> & Hd1). cbn [Z.eqb].
  apply series_loop_reads; [done| |done]. unfold rounds. cbn [app length].
  pose proof (bind_length series_rec l ltac:(intros r E; discriminate E)). lia.
Qed.

(** A samples record decodes to the samples it was made of, although refs,
    logical ids and times are stored as differences that may wrap. *)
Theorem samples_record_round_trip l :
  Forall ref_sample_ok l -> Z.of_nat (length (encode_samples l)) < 2 ^ 63 -> l <> [] ->
  decode_samples (encode_samples l) = Some (Ok, l).
Proof.
  intros Hl Hn Hne. destruct l as [|s l]; [done|]. inversion Hl as [|? ? Hs Hl']; subst.
  pose proof (dec_buf_at _ Hn) as Hd. pose proof Hs as (F1 & F2 & F3 & F4). unfold decode_samples.
  rewrite encode_samples_bytes in *. destruct (get_byte_takes RECORD_SAMPLES _ _ Hd) as (d1 & -> & Hd1).
  cbn [Z.eqb negb]. rewrite (db_at_len _ _ Hd1), length_app. unfold first_rec in *.
  rewrite (proj2 (Z.eqb_neq _ 0)) by (rewrite !length_app, !length_be_bytes; lia).
  rewrite <- !app_assoc in Hd1.
  destruct (get_BE_uint64_takes _ F1 d1 _ Hd1) as (d2 & -> & Hd2).
  destruct (get_BE_uint64_takes _ F2 d2 _ Hd2) as (d3 & -> & Hd3).
  destruct (get_BE_uint64_takes (u64 (rp_t s)) ltac:(by apply wrap_range) d3 _ Hd3) as (d4 & -> & Hd4).
  destruct (get_BE_uint64_takes _ F4 d4 _ Hd4) as (d5 & -> & Hd5).
  rewrite s64_u64_id by done. unfold decode_double.
  replace (mkRefSample (rp_ref s) (rp_logical_id s) (rp_t s) (rp_v s)) with s by (by destruct s).
  rewrite (samples_loop_reads s l); [done|done|done| |done]. unfold rounds. rewrite !length_app. cbn [length].
  pose proof (bind_length (sample_rec s) l) as Hb. assert (Hx : forall x, sample_rec s x <> []).
  { intros x E. apply app_nil in E as [E _]. by apply encode_unsigned_nonempty in E; [|apply zigzag_u64]. }
  specialize (Hb Hx). lia.
Qed.

(** A tombstones record decodes to one stone per interval, in order, with
    the same series and times. *)
Theorem tombstones_record_round_trip l :
  Forall stone_ok l -> Z.of_nat (length (encode_tombstones l)) < 2 ^ 63 ->
  decode_tombstones (encode_tombstones l) = Some (Ok, l ≫= split_stone).
Proof.
  intros Hl Hn. pose proof (dec_buf_at _ Hn) as Hd. unfold decode_tombstones.
  rewrite (encode_tombstones_bytes l) in *.
  destruct (get_byte_takes RECORD_TOMBSTONES _ _ Hd) as (d1 & -> & Hd1). cbn [Z.eqb].
  set (ps := l ≫= fun s => map (fun i => (st_ref s, i)) (st_itvls s)).
  assert (E1 : l ≫= stone_rec = ps ≫= fun p => interval_rec p.1 p.2).
  { subst ps. clear. induction l as [|s l IH]; [done|]. cbn [mbind list_bind]. rewrite bind_app, <- IH. f_equal.
    unfold stone_rec. induction (st_itvls s) as [|i itvs IHi]; [done|]. cbn [mbind list_bind map]. by rewrite IHi. }
  assert (E2 : l ≫= split_stone = map (fun p => mkStone p.1 [p.2]) ps).
  { subst ps. clear. induction l as [|s l IH]; [done|]. cbn [mbind list_bind]. rewrite map_app, <- IH. f_equal.
    unfold split_stone. by rewrite map_map. }
  rewrite E1 in *. rewrite E2. apply tombstones_loop_reads; [|unfold rounds; cbn [app length]|done].
  - subst ps. clear -Hl. induction Hl as [|s l [Hr Hi] Hl IH]; [constructor|]. cbn [mbind list_bind].
    apply Forall_app. split; [|done]. induction Hi; constructor; done.
  - pose proof (bind_length (fun p => interval_rec p.1 p.2) ps ltac:(intros r E; discriminate E)). lia.
Qed.

(** *** Decoding ends *)

Definition db_ok (d : DecBuf) : Prop := 0 <= db_index d <= db_size d /\ db_size d < 2 ^ 63.

(** Reading never moves back, past the end, or out of a failure. *)
Definition onward (d d' : DecBuf) : Prop :=
  db_ok d' /\ db_size d' = db_size d /\ db_index d <= db_index d' /\ (failed d = true -> failed d' = true).

Lemma onward_refl d : db_ok d -> onward d d.
Proof. intros Hd. split_and!; done || apply Hd || lia. Qed.

Lemma onward_trans a b c : onward a b -> onward b c -> onward a c.
Proof. intros (A1 & A2 & A3 & A4) (B1 & B2 & B3 & B4). split_and!; auto; congruence || lia || apply B1. Qed.

Lemma onward_fail d : db_ok d -> onward d (db_fail d).
Proof. intros Hd. split_and!; done || apply Hd || simpl; lia. Qed.

Lemma onward_skip d n : db_ok d -> failed d = false -> 0 <= n <= db_len d -> onward d (db_skip d n) /\
  db_index (db_skip d n) = db_index d + n /\ failed (db_skip d n) = false.
Proof.
  intros [Hi Hs] Hf Hn. unfold db_len, u64 in Hn. rewrite wrap_id in Hn by (unfold is_u; lia).
  assert (E : db_index (db_skip d n) = db_index d + n) by (simpl; unfold u64; apply wrap_id; unfold is_u; lia).
  unfold onward, db_ok. change (failed (db_skip d n)) with (failed d). rewrite Hf, E.
  change (db_size (db_skip d n)) with (db_size d). split_and!; done || lia.
Qed.

Lemma get_fixed_onward n read d :
  db_ok d -> 0 <= n -> let d' := (get_fixed n read d).2 in
  onward d d' /\ (failed d' = true \/ db_index d' = db_index d + n).
Proof.
  intros Hd Hn. unfold get_fixed. destruct (failed d) eqn:Ef.
  - split; [by apply onward_refl|by left].
  - destruct (Z.ltb_spec (db_len d) n); [split; [by apply onward_fail|by left]|].
    destruct (onward_skip d n Hd Ef ltac:(lia)) as (Ho & Ei & _). split; [done|by right].
Qed.

Lemma varint_loop_count fuel data o size i v s :
  i <= size -> i <= (decode_unsigned_varint_loop fuel data o size i v s).2 <= size.
Proof.
  revert i v s. induction fuel as [|fuel IH]; intros i v s Hi; cbn [decode_unsigned_varint_loop]; [simpl; lia|].
  destruct (Z.ltb_spec i size); [|simpl; lia]. destruct (_ =? 0); [simpl; lia|].
  specialize (IH (i + 1) (Z.lor v (u64 (Z.shiftl (Z.land (peek data (o + i)) 127) s))) (s + 7) ltac:(lia)). lia.
Qed.

Lemma decode_unsigned_count data o size v n :
  0 <= size -> decode_unsigned_varint data o size = Some (v, n) -> 0 <= n <= size.
Proof.
  intros Hs. unfold decode_unsigned_varint.
  pose proof (varint_loop_count (S (Z.to_nat size)) data o size 0 0 0 Hs) as Hc.
  destruct (decode_unsigned_varint_loop _ _ _ _ _ _ _) as [u i]. simpl in Hc.
  destruct (_ && _); [done|]. intros [= _ <-]. done.
Qed.

Lemma get_varint_onward decode d :
  (forall data o size v n, 0 <= size -> decode data o size = Some (v, n) -> 0 <= n <= size) ->
  db_ok d -> onward d (get_varint decode d).2.
Proof.
  intros Hdec Hd. unfold get_varint. destruct (failed d) eqn:Ef; [by apply onward_refl|].
  destruct (_ <=? _); [by apply onward_fail|].
  destruct (decode (db_b d) (db_index d) (db_len d)) as [[r n]|] eqn:E; [|by apply onward_fail].
  assert (Hl : 0 <= db_len d) by (unfold db_len; by apply wrap_range).
  apply (onward_skip d n Hd Ef). by apply (Hdec _ _ _ _ _ Hl E).
Qed.

Lemma get_unsigned_onward d : db_ok d -> onward d (get_unsigned_variant d).2.
Proof. apply get_varint_onward. intros. by eapply decode_unsigned_count. Qed.

Lemma get_signed_onward d : db_ok d -> onward d (get_signed_variant d).2.
Proof.
  apply get_varint_onward. intros data o size v n Hs. unfold decode_signed_varint.
  destruct (decode_unsigned_varint data o size) as [[u k]|] eqn:E; [|done]. intros [= _ <-].
  by eapply decode_unsigned_count.
Qed.

Lemma varint_loop_nonneg fuel data o size i v s :
  0 <= v -> 0 <= (decode_unsigned_varint_loop fuel data o size i v s).1.
Proof.
  revert i v s. induction fuel as [|fuel IH]; intros i v s Hv; cbn [decode_unsigned_varint_loop]; [done|].
  assert (Hl : 0 <= Z.lor v (u64 (Z.shiftl (Z.land (peek data (o + i)) 127) s))).
  { apply Z.lor_nonneg. split; [done|]. by apply wrap_range. }
  destruct (_ <? _); [|done]. destruct (_ =? 0); [done|]. by apply IH.
Qed.

Lemma get_unsigned_nonneg d : 0 <= (get_unsigned_variant d).1.
Proof.
  unfold get_unsigned_variant, get_varint. destruct (failed d); [done|]. destruct (_ <=? _); [done|].
  unfold decode_unsigned_varint.
  pose proof (varint_loop_nonneg (S (Z.to_nat (db_len d))) (db_b d) (db_index d) (db_len d) 0 0 0 ltac:(lia)) as Hn.
  destruct (decode_unsigned_varint_loop _ _ _ _ _ _ _) as [u i]. by destruct (_ && _).
Qed.

Lemma get_uvariant_string_onward d : db_ok d -> onward d (get_uvariant_string d).2.
Proof.
  intros Hd. unfold get_uvariant_string. pose proof (get_unsigned_onward d Hd) as Ho.
  pose proof (get_unsigned_nonneg d) as Hv. destruct (get_unsigned_variant d) as [v d1]. simpl in Ho, Hv.
  assert (Hd1 : db_ok d1) by apply Ho. destruct (failed d1) eqn:Ef; [done|].
  destruct (Z.ltb_spec (db_len d1) v); (eapply onward_trans; [exact Ho|]); [by apply onward_fail|].
  by apply onward_skip.
Qed.

Lemma get_labels_onward n d : db_ok d -> onward d (get_labels n d).2.
Proof.
  revert d. induction n as [|n IH]; intros d Hd; cbn [get_labels]; [by apply onward_refl|].
  pose proof (get_uvariant_string_onward d Hd) as H1. destruct (get_uvariant_string d) as [l d1]. simpl in H1.
  pose proof (get_uvariant_string_onward d1 ltac:(apply H1)) as H2. destruct (get_uvariant_string d1) as [v d2]. simpl in H2.
  pose proof (IH d2 ltac:(apply H2)) as H3. destruct (get_labels n d2) as [ls d3]. simpl in *.
  eapply onward_trans; [exact H1|]. by eapply onward_trans.
Qed.

(** A round of a decoder fails or moves on. *)
Definition advances (d d' : DecBuf) : Prop := onward d d' /\ (failed d' = true \/ db_index d < db_index d').

Lemma advances_then a b c : advances a b -> onward b c -> advances a c.
Proof.
  intros [H1 H2] H3. split; [by eapply onward_trans|]. destruct H3 as (_ & _ & Hi & Hf).
  destruct H2 as [H2|H2]; [left; auto|right; lia].
Qed.

Lemma then_advances a b c : onward a b -> advances b c -> advances a c.
Proof.
  intros H1 [H2 H3]. split; [by eapply onward_trans|]. destruct H1 as (_ & _ & Hi & _).
  destruct H3; [by left|right; lia].
Qed.

Lemma get_BE_uint64_advances d : db_ok d -> advances d (get_BE_uint64 d).2.
Proof.
  intros Hd. destruct (get_fixed_onward 8 get_uint64_big_endian d Hd ltac:(lia)) as [Ho [Hf|Hi]];
    (split; [exact Ho|]); [by left|right]. unfold get_BE_uint64. rewrite Hi. lia.
Qed.

Lemma get_series_advances d : db_ok d -> advances d (get_series d).2.
Proof.
  intros Hd. unfold get_series. pose proof (get_BE_uint64_advances d Hd) as H1.
  destruct (get_BE_uint64 d) as [a d1]. simpl in H1.
  pose proof (get_BE_uint64_advances d1 ltac:(apply H1)) as [H2 _]. destruct (get_BE_uint64 d1) as [b d2]. simpl in H2.
  pose proof (get_BE_uint64_advances d2 ltac:(apply H2)) as [H3 _]. destruct (get_BE_uint64 d2) as [c d3]. simpl in H3.
  pose proof (get_unsigned_onward d3 ltac:(apply H3)) as H4. destruct (get_unsigned_variant d3) as [n d4]. simpl in H4.
  pose proof (get_labels_onward (Z.to_nat n) d4 ltac:(apply H4)) as H5. destruct (get_labels _ d4) as [ls d5]. simpl in *.
  do 4 (eapply advances_then; [|eassumption]). exact H1.
Qed.

Lemma get_sample_advances base d : db_ok d -> advances d (get_sample base d).2.
Proof.
  intros Hd. unfold get_sample.
  pose proof (get_signed_onward d Hd) as H1. destruct (get_signed_variant d) as [a d1]. simpl in H1.
  pose proof (get_signed_onward d1 ltac:(apply H1)) as H2. destruct (get_signed_variant d1) as [b d2]. simpl in H2.
  pose proof (get_signed_onward d2 ltac:(apply H2)) as H3. destruct (get_signed_variant d2) as [c d3]. simpl in H3.
  pose proof (get_BE_uint64_advances d3 ltac:(apply H3)) as H4. destruct (get_BE_uint64 d3) as [v d4]. simpl in *.
  do 3 (eapply then_advances; [eassumption|]). exact H4.
Qed.

Lemma get_stone_advances d : db_ok d -> advances d (get_stone d).2.
Proof.
  intros Hd. unfold get_stone. pose proof (get_BE_uint64_advances d Hd) as H1.
  destruct (get_BE_uint64 d) as [a d1]. simpl in H1.
  pose proof (get_signed_onward d1 ltac:(apply H1)) as H2. destruct (get_signed_variant d1) as [b d2]. simpl in H2.
  pose proof (get_signed_onward d2 ltac:(apply H2)) as H3. destruct (get_signed_variant d2) as [c d3]. simpl in *.
  do 2 (eapply advances_then; [|eassumption]). exact H1.
Qed.

(** Rounds still needed. *)
Definition left_over (d : DecBuf) : nat := if failed d then 0 else Z.to_nat (db_size d - db_index d).

Lemma advances_left d d' : advances d d' -> (0 <? db_len d) && negb (failed d) = true -> db_ok d ->
  (left_over d' < left_over d)%nat.
Proof.
  intros [(Hok & Hs & Hi & _) Hor] Hg Hd. apply andb_true_iff in Hg as [Hg Hf]. apply negb_true_iff in Hf.
  unfold left_over. rewrite Hf, Hs. apply Z.ltb_lt in Hg. unfold db_len, u64 in Hg.
  destruct Hd as [Hd1 Hd2]. rewrite wrap_id in Hg by (unfold is_u; lia). destruct Hok as [Hok _].
  destruct (failed d') eqn:Ef; [lia|]. destruct Hor as [?|?]; [done|lia].
Qed.

(** The error a decoder can end with. *)
Definition decode_end (e : DecodeError) : Prop := e = Ok \/ e = InvalidType \/ e = InvalidSize.

Lemma finish_end d : (0 <? db_len d) && negb (failed d) = false -> decode_end (finish d).
Proof.
  intros Hg. unfold finish, decode_end. destruct (failed d); [tauto|]. rewrite andb_true_r in Hg. rewrite Hg. tauto.
Qed.

Lemma series_loop_ends fuel d :
  db_ok d -> (left_over d < fuel)%nat -> exists e l, series_loop fuel d = Some (e, l) /\ decode_end e.
Proof.
  revert d. induction fuel as [|fuel IH]; intros d Hd Hf; [lia|]. cbn [series_loop].
  destruct ((0 <? db_len d) && negb (failed d)) eqn:Eg; [|by eauto using finish_end].
  pose proof (get_series_advances d Hd) as Ha. destruct (get_series d) as [r d1]. simpl in Ha.
  pose proof (advances_left _ _ Ha Eg Hd). destruct (failed d1); [unfold decode_end; eauto 10|].
  destruct (IH d1) as (e & l & -> & He); [apply Ha|lia|]. cbn. eauto.
Qed.

Lemma samples_loop_ends fuel base d :
  db_ok d -> (left_over d < fuel)%nat -> exists e l, samples_loop fuel base d = Some (e, l) /\ decode_end e.
Proof.
  revert d. induction fuel as [|fuel IH]; intros d Hd Hf; [lia|]. cbn [samples_loop].
  destruct ((0 <? db_len d) && negb (failed d)) eqn:Eg; [|by eauto using finish_end].
  pose proof (get_sample_advances base d Hd) as Ha. destruct (get_sample base d) as [r d1]. simpl in Ha.
  pose proof (advances_left _ _ Ha Eg Hd).
  destruct (IH d1) as (e & l & -> & He); [apply Ha|lia|]. cbn. eauto.
Qed.

Lemma tombstones_loop_ends fuel d :
  db_ok d -> (left_over d < fuel)%nat -> exists e l, tombstones_loop fuel d = Some (e, l) /\ decode_end e.
Proof.
  revert d. induction fuel as [|fuel IH]; intros d Hd Hf; [lia|]. cbn [tombstones_loop].
  destruct ((0 <? db_len d) && negb (failed d)) eqn:Eg; [|by eauto using finish_end].
  pose proof (get_stone_advances d Hd) as Ha. destruct (get_stone d) as [r d1]. simpl in Ha.
  pose proof (advances_left _ _ Ha Eg Hd).
  destruct (IH d1) as (e & l & -> & He); [apply Ha|lia|]. cbn. eauto.
Qed.

Lemma onward_left rec d : onward (dec_buf rec (Z.of_nat (length rec))) d -> (left_over d < rounds rec)%nat.
Proof. intros (Hok & Hs & Hi & _). unfold left_over, rounds. destruct (failed d); simpl in *; lia. Qed.

(** On any bytes, each of the three record decoders ends within a round per
    byte, with success, a wrong record type or an invalid size; the check for
    bytes left over after the loop never fires. *)
Theorem record_decoding_ends rec :
  Z.of_nat (length rec) < 2 ^ 63 ->
  (exists e l, decode_series rec = Some (e, l) /\ decode_end e) /\
  (exists e l, decode_samples rec = Some (e, l) /\ decode_end e) /\
  (exists e l, decode_tombstones rec = Some (e, l) /\ decode_end e).
Proof.
  intros Hn. set (d0 := dec_buf rec (Z.of_nat (length rec))).
  assert (Hd0 : db_ok d0) by (split; simpl; lia).
  destruct (get_fixed_onward 1 peek d0 Hd0 ltac:(lia)) as [Ho _].
  unfold decode_series, decode_samples, decode_tombstones. fold d0. unfold get_byte.
  destruct (get_fixed 1 peek d0) as [t d1]. simpl in Ho. assert (Hd1 : db_ok d1) by apply Ho.
  split_and!.
  - destruct (t =? RECORD_SERIES); [|unfold decode_end; eauto 10].
    apply series_loop_ends; [done|by apply onward_left].
  - destruct (t =? RECORD_SAMPLES); cbn [negb]; [|unfold decode_end; eauto 10].
    destruct (db_len d1 =? 0); [unfold decode_end; eauto 10|].
    pose proof (get_BE_uint64_advances d1 Hd1) as [H1 _]. destruct (get_BE_uint64 d1) as [a d2]. simpl in H1.
    pose proof (get_BE_uint64_advances d2 ltac:(apply H1)) as [H2 _]. destruct (get_BE_uint64 d2) as [b d3]. simpl in H2.
    pose proof (get_BE_uint64_advances d3 ltac:(apply H2)) as [H3 _]. destruct (get_BE_uint64 d3) as [c d4]. simpl in H3.
    pose proof (get_BE_uint64_advances d4 ltac:(apply H3)) as [H4 _]. destruct (get_BE_uint64 d4) as [v d5]. simpl in H4.
    destruct (samples_loop_ends (rounds rec) (mkRefSample a b (s64 c) (decode_double v)) d5) as (e & l & -> & He);
      [apply H4| |cbn; eauto].
    apply onward_left. fold d0. eapply onward_trans; [exact Ho|]. eapply onward_trans; [exact H1|].
    eapply onward_trans; [exact H2|]. by eapply onward_trans.
  - destruct (t =? RECORD_TOMBSTONES); [|unfold decode_end; eauto 10].
    apply tombstones_loop_ends; [done|by apply onward_left].
Qed.

End Reads.

(** ** Examples *)

Definition demo_series : list RefSeries :=
  [mkRefSeries 7 [mkLabel [97] [1; 2]; mkLabel [98] []] None (-1) 5;
   mkRefSeries (2 ^ 64 - 1) [] (Some [mkLabel [122] [255]]) 0 0].
Definition demo_samples : list RefSample :=
  [mkRefSample 5 1 (2 ^ 63 - 1) 77; mkRefSample (2 ^ 64 - 1) 0 (- 2 ^ 63) (2 ^ 63)].
Definition demo_stones : list Stone :=
  [mkStone 3 [mkInterval (-5) 10; mkInterval 20 30]; mkStone 9 [mkInterval 0 0]].

Lemma series_record_round_trip_witness :
  let pe : PastEnd := fun _ => 9 in
  decode_series (encode_series demo_series) = Some (Ok, map series_read demo_series).
Proof.
  intros pe. apply (series_record_round_trip demo_series); [|vm_compute; reflexivity].
  repeat constructor; vm_compute; congruence.
Defined.

Lemma samples_record_round_trip_witness :
  let pe : PastEnd := fun _ => 9 in
  decode_samples (encode_samples demo_samples) = Some (Ok, demo_samples).
Proof.
  intros pe. apply (samples_record_round_trip demo_samples); [|vm_compute; reflexivity|discriminate].
  repeat constructor; vm_compute; congruence.
Defined.

Lemma tombstones_record_round_trip_witness :
  let pe : PastEnd := fun _ => 9 in
  decode_tombstones (encode_tombstones demo_stones) =
  Some (Ok, [mkStone 3 [mkInterval (-5) 10]; mkStone 3 [mkInterval 20 30]; mkStone 9 [mkInterval 0 0]]).
Proof.
  intros pe. apply (tombstones_record_round_trip demo_stones); [|vm_compute; reflexivity].
  repeat constructor; vm_compute; congruence.
Defined.

Lemma record_decoding_ends_witness :
  let pe : PastEnd := fun _ => 200 in
  exists e l, decode_samples [2; 0; 0; 0; 0; 0; 0; 0; 1; 200; 200] = Some (e, l) /\ decode_end e.
Proof.
  intros pe. apply (record_decoding_ends [2; 0; 0; 0; 0; 0; 0; 0; 1; 200; 200]). vm_compute. reflexivity.
Defined.
