(* ===== verification/Tombstone.v ===== *)
(** tombstone/Interval.cpp, tombstone/MemTombstones.hpp and
    tombstone/TombstoneUtils.cpp: deleted time ranges, per series, and the file
    they are kept in.

    [crc32] is boost's checksum, a parameter: the checksum of bytes fed in
    pieces is that of all of them. *)
From Stdlib Require Import ZArith Lia Bool.
From stdpp Require Import base list numbers option gmap sorting.
From S2P Require Import Prelude Endian Label Record.

Abbreviation Intervals := (list Interval).

#[export] Instance Interval_eq_dec : EqDecision Interval.
Proof. solve_decision. Defined.

Definition in_bounds (i : Interval) (t : Z) : bool := (t <=? max_time i) && (min_time i <=? t).

Definition is_subrange (mint maxt : Z) (itvs : Intervals) : bool :=
  existsb (fun i => in_bounds i mint && in_bounds i maxt) itvs.

(** How many of the following intervals the new one reaches. *)
Fixpoint reach (maxt : Z) (itvs : Intervals) : nat :=
  match itvs with
  | [] => 0
  | cur :: itvs => if s64 (maxt + 1) <? min_time cur then 0 else S (reach maxt itvs)
  end.

Fixpoint itvls_add (itvs : Intervals) (itvl : Interval) : Intervals :=
  match itvs with
  | [] => [itvl]
  | i :: rest =>
    if in_bounds i (min_time itvl) || in_bounds i (s64 (min_time itvl - 1)) then
      let m := if max_time i <? max_time itvl then max_time itvl else max_time i in
      let n := reach (max_time itvl) rest in
      let last_max := match n with O => m | S k => match rest !! k with Some c => max_time c | None => m end end in
      let m := if m <? last_max then last_max else m in
      mkInterval (min_time i) m :: drop n rest
    else if in_bounds i (max_time itvl) || in_bounds i (s64 (max_time itvl + 1)) then
      mkInterval (min_time itvl) (max_time i) :: rest
    else if min_time itvl <? min_time i then itvl :: i :: rest
    else i :: itvls_add rest itvl
  end.

Fixpoint intervals_equal (a b : Intervals) : bool :=
  match a, b with
  | [], [] => true
  | i :: a, j :: b => (min_time i =? min_time j) && (max_time i =? max_time j) && intervals_equal a b
  | _, _ => false
  end.

(** ** MemTombstones *)

Abbreviation MemTombstones := (gmap Z Intervals).

(** [get]: [None] is [std::out_of_range]. *)
Definition get_intervals (ts : MemTombstones) (ref : Z) : option Intervals := ts !! ref.

Definition add_interval (ts : MemTombstones) (ref : Z) (itvl : Interval) : MemTombstones :=
  <[ref := itvls_add (default [] (ts !! ref)) itvl]> ts.

Definition total (ts : MemTombstones) : Z :=
  u64 (Z.of_nat (length (map_to_list ts ≫= snd))).

(** ** The tombstone file *)

Definition MAGIC_TOMBSTONE : Z := 2716639724.
Definition TOMBSTONE_FORMAT : Z := 1.

Class Crc := crc32 : list Z -> Z.

Section File.
Context `{PastEnd} `{Crc}.

(** [write_ts_helper]: the bytes [fwrite] gets for one interval. *)
Definition tomb_bytes (ref : Z) (i : Interval) : list Z :=
  eb_out (put_signed_variant (put_signed_variant (put_unsigned_variant enc_buf ref) (min_time i)) (max_time i)).

Definition write_ts_helper (entry : Z * Intervals) : list Z := entry.2 ≫= tomb_bytes entry.1.

(** [write_tombstones], given the reader's entries in iteration order: the
    contents of the file. *)
Definition write_tombstones (entries : list (Z * Intervals)) : list Z :=
  let header := take 5 (eb_out (put_byte (put_BE_uint32 enc_buf MAGIC_TOMBSTONE) TOMBSTONE_FORMAT)) in
  let body := entries ≫= write_ts_helper in
  header ++ body ++ take 4 (eb_out (put_BE_uint32 enc_buf (crc32 body))).

Fixpoint read_stones (fuel : nat) (d : DecBuf) (ts : MemTombstones) : option (option MemTombstones) :=
  match fuel with
  | O => None
  | S fuel =>
    if 0 <? db_len d then
      let '(ref, d) := get_unsigned_variant d in
      let '(mint, d) := get_signed_variant d in
      let '(maxt, d) := get_signed_variant d in
      if failed d then Some None
      else read_stones fuel d (add_interval ts ref (mkInterval mint maxt))
    else Some (Some ts)
  end.

(** [read_tombstones]; [file] is [None] when there is no file.  The outer
    [None] is running out of fuel, the inner one the null pointer. *)
Definition read_tombstones (file : option (list Z)) : option (option (MemTombstones * Z)) :=
  match file with
  | None => Some (Some (∅, 0))
  | Some bs =>
    let len := Z.of_nat (length bs) in
    if len <? 9 then Some None
    else
      let start := take (Z.to_nat (len - 4)) bs in
      if negb (get_uint32_big_endian bs 0 =? MAGIC_TOMBSTONE) then Some None
      else if negb (peek bs 4 =? 1) then Some None
      else if negb (crc32 (drop 5 start) =? get_uint32_big_endian bs (len - 4)) then Some None
      else
        r ← read_stones (S (length bs)) (dec_buf (drop 5 start) (len - 4 - 5)) ∅;
        Some (ts ← r; Some (ts, len))
  end.

End File.

(** ** Adding intervals *)

(** Time [t] is deleted. *)
Definition covers (itvs : Intervals) (t : Z) : Prop := exists i, i ∈ itvs /\ min_time i <= t <= max_time i.

Lemma in_bounds_spec i t : in_bounds i t = true <-> min_time i <= t <= max_time i.
Proof. unfold in_bounds. rewrite andb_true_iff, !Z.leb_le. lia. Qed.

Lemma covers_cons i itvs t : covers (i :: itvs) t <-> min_time i <= t <= max_time i \/ covers itvs t.
Proof.
  unfold covers. split.
  - intros (j & Hj & Ht). apply elem_of_cons in Hj as [->|Hj]; [by left|right; eauto].
  - intros [Ht|(j & Hj & Ht)]; [exists i; split; [by left|done]|exists j; split; [by right|done]].
Qed.

Lemma covers_nil t : covers [] t <-> False.
Proof. unfold covers. split; [intros (i & Hi & _); by apply elem_of_nil in Hi|done]. Qed.

Lemma covers_app a b t : covers (a ++ b) t <-> covers a t \/ covers b t.
Proof.
  induction a as [|i a IH]; cbn [app]; [rewrite covers_nil; tauto|]. rewrite !covers_cons, IH. tauto.
Qed.

(** An interval whose neighbours are 64-bit times too. *)
Definition itvl_ok (i : Interval) : Prop :=
  - 2 ^ 63 < min_time i /\ min_time i <= max_time i /\ max_time i < 2 ^ 63 - 1.

(** Sorted, with a gap of at least one time in between. *)
Definition gap (a b : Interval) : Prop := max_time a + 1 < min_time b.
Definition apart (itvs : Intervals) : Prop := StronglySorted gap itvs /\ Forall itvl_ok itvs.

Lemma s64_small z : - 2 ^ 63 <= z < 2 ^ 63 -> s64 z = z.
Proof. intros Hz. apply swrap_id; [done|]. unfold is_s. lia. Qed.

Lemma apart_cons i itvs : apart (i :: itvs) <-> itvl_ok i /\ Forall (gap i) itvs /\ apart itvs.
Proof.
  unfold apart. split.
  - intros [Hs Hf]. inversion Hs; inversion Hf; subst. done.
  - intros (? & ? & ? & ?). split; by constructor.
Qed.

(** What the new interval reaches, and what it does not. *)
Lemma reach_spec maxt itvs :
  apart itvs -> - 2 ^ 63 < maxt < 2 ^ 63 - 1 ->
  Forall (fun c => min_time c <= maxt + 1) (take (reach maxt itvs) itvs) /\
  Forall (fun c => maxt + 1 < min_time c) (drop (reach maxt itvs) itvs).
Proof.
  intros Ha Hm. induction itvs as [|c itvs IH]; [by split|]. apply apart_cons in Ha as (Hc & Hg & Ha).
  cbn [reach]. rewrite s64_small by lia. destruct (Z.ltb_spec (maxt + 1) (min_time c)) as [Hlt|Hge].
  - split; [constructor|]. cbn [drop]. constructor; [done|]. eapply Forall_impl; [exact Hg|].
    intros x Hx. unfold gap in Hx. unfold itvl_ok in Hc. lia.
  - destruct (IH Ha) as [H1 H2]. split; cbn [take drop]; [by constructor|done].
Qed.

Lemma reach_length maxt itvs : (reach maxt itvs <= length itvs)%nat.
Proof. induction itvs as [|c itvs IH]; cbn [reach length]; [lia|]. destruct (_ <? _); lia. Qed.

(** The last interval reached ends last. *)
Lemma last_max itvs n c :
  apart itvs -> itvs !! n = Some c -> Forall (fun x => max_time x <= max_time c) (take (S n) itvs).
Proof.
  revert n. induction itvs as [|i itvs IH]; intros n Ha Hn; [done|].
  apply apart_cons in Ha as (Hi & Hg & Ha). destruct n as [|n]; simpl in Hn.
  - simplify_eq. constructor; [lia|constructor].
  - cbn [take]. constructor; [|by apply IH].
    rewrite Forall_forall in Hg. pose proof (Hg c ltac:(by eapply list_elem_of_lookup_2)) as Hx.
    unfold gap in Hx. destruct Ha as [_ Ha]. rewrite Forall_forall in Ha.
    pose proof (Ha c ltac:(by eapply list_elem_of_lookup_2)). unfold itvl_ok in *. lia.
Qed.

Lemma apart_drop n itvs : apart itvs -> apart (drop n itvs).
Proof.
  revert n. induction itvs as [|i itvs IH]; intros [|n] Ha; try done. apply apart_cons in Ha as (_ & _ & Ha). by apply IH.
Qed.

(** The case in which the new interval starts in, or right after, [i]. *)
Lemma merge_into i rest itvl :
  apart (i :: rest) -> itvl_ok itvl -> min_time i <= min_time itvl <= max_time i + 1 ->
  let m := Z.max (max_time i) (max_time itvl) in
  let n := reach (max_time itvl) rest in
  let last := match n with O => m | S k => match rest !! k with Some c => max_time c | None => m end end in
  let itvs := mkInterval (min_time i) (Z.max m last) :: drop n rest in
  apart itvs /\ forall t, covers itvs t <-> covers (i :: rest) t \/ min_time itvl <= t <= max_time itvl.
Proof.
  intros Ha Hv Hmin m n last itvs. apply apart_cons in Ha as (Hi & Hg & Ha). unfold itvl_ok in Hv, Hi.
  destruct (reach_spec (max_time itvl) rest Ha ltac:(lia)) as [Htake Hdrop]. fold n in Htake, Hdrop.
  pose proof (reach_length (max_time itvl) rest) as Hlen. fold n in Hlen.
  assert (Hlast : last = m \/ exists c, c ∈ take n rest /\ last = max_time c).
  { subst last. destruct n as [|k]; [by left|]. destruct (lookup_lt_is_Some_2 rest k ltac:(lia)) as [c Hc].
    rewrite Hc. right. exists c. split; [|done]. apply list_elem_of_lookup_2 with k. rewrite lookup_take_lt by lia. done. }
  assert (Htop : Forall (fun x => max_time x <= Z.max m last) (take n rest)).
  { destruct n as [|k]; [constructor|]. destruct (lookup_lt_is_Some_2 rest k ltac:(lia)) as [c Hc].
    eapply Forall_impl; [by eapply last_max|]. intros x Hx. subst last. simpl. rewrite Hc. simpl in Hx. lia. }
  assert (Hin : forall c, c ∈ rest -> gap i c /\ itvl_ok c).
  { intros c Hc. rewrite Forall_forall in Hg. destruct Ha as [_ Ha]. rewrite Forall_forall in Ha. auto. }
  assert (Hsub : forall c, c ∈ take n rest -> c ∈ rest) by (intros c Hc; by eapply subseteq_take).
  split.
  - apply apart_cons. split_and!.
    + unfold itvl_ok. simpl. destruct Hlast as [->|(c & Hc & ->)]; [lia|].
      destruct (Hin c (Hsub c Hc)) as [_ Hok]. unfold itvl_ok in Hok. lia.
    + apply Forall_forall. intros c Hc. rewrite Forall_forall in Hdrop. pose proof (Hdrop c Hc) as Hd.
      assert (Hcr : c ∈ rest) by (by eapply subseteq_drop). destruct (Hin c Hcr) as [Hgc _].
      unfold gap in *. simpl. destruct Hlast as [->|(x & Hx & ->)]; [lia|].
      assert (Hxc : gap x c); [|unfold gap in Hxc; lia].
      destruct Ha as [Hs _]. rewrite <- (take_drop n rest) in Hs.
      by eapply StronglySorted_app_1_elem_of.
    + by apply apart_drop.
  - intros t. subst itvs. rewrite !covers_cons. simpl.
    assert (Hsplit : covers rest t <-> covers (take n rest) t \/ covers (drop n rest) t).
    { rewrite <- covers_app. by rewrite take_drop. }
    rewrite Hsplit. clear Hsplit. rewrite Forall_forall in Htop, Htake. split.
    + intros [Ht|?]; [|tauto]. destruct (Z.le_gt_cases t (max_time i)); [left; left; lia|].
      destruct (Z.le_gt_cases t (max_time itvl)); [right; lia|].
      destruct Hlast as [E|(c & Hc & E)]; [lia|]. left. right. left. exists c. split; [done|].
      pose proof (Htake c Hc). simpl in *. lia.
    + intros [[?|[(c & Hc & Ht)|?]]|?]; [left; lia| |tauto|left; lia].
      left. pose proof (Htop c Hc). destruct (Hin c (Hsub c Hc)) as [Hgc _]. unfold gap in Hgc. simpl in *. lia.
Qed.

(** The new interval is not larger than one it would have to be put before:
    every existing interval that lies inside it follows one that it touches. *)
Definition no_swallow (itvs : Intervals) (itvl : Interval) : Prop :=
  forall i, i ∈ itvs -> min_time itvl < min_time i -> max_time i < max_time itvl ->
  exists j, j ∈ itvs /\ min_time j <= min_time itvl <= max_time j + 1.

Lemma touch_spec i itvl :
  itvl_ok i -> itvl_ok itvl ->
  in_bounds i (min_time itvl) || in_bounds i (s64 (min_time itvl - 1)) = true <->
  min_time i <= min_time itvl <= max_time i + 1.
Proof. unfold itvl_ok. intros Hi Hv. rewrite orb_true_iff, !in_bounds_spec, s64_small by lia. lia. Qed.

Lemma tail_spec i itvl :
  itvl_ok i -> itvl_ok itvl ->
  in_bounds i (max_time itvl) || in_bounds i (s64 (max_time itvl + 1)) = true <->
  min_time i <= max_time itvl + 1 /\ max_time itvl <= max_time i.
Proof. unfold itvl_ok. intros Hi Hv. rewrite orb_true_iff, !in_bounds_spec, s64_small by lia. lia. Qed.

Lemma merge_max a b : (if a <? b then b else a) = Z.max a b.
Proof. destruct (Z.ltb_spec a b); lia. Qed.

Lemma itvls_add_spec itvs itvl :
  apart itvs -> itvl_ok itvl ->
  (forall t, covers (itvls_add itvs itvl) t <-> covers itvs t \/ min_time itvl <= t <= max_time itvl) /\
  (no_swallow itvs itvl -> apart (itvls_add itvs itvl)) /\
  (forall x, Forall (gap x) itvs -> gap x itvl -> Forall (gap x) (itvls_add itvs itvl)).
Proof.
  induction itvs as [|i rest IH]; intros Ha Hv.
  - cbn [itvls_add]. split_and!; [|intros _; apply apart_cons; split_and!; [done|constructor|by split; constructor]|by constructor].
    intros t. rewrite covers_cons, !covers_nil. tauto.
  - pose proof Ha as Ha0. apply apart_cons in Ha as (Hi & Hg & Ha). cbn [itvls_add].
    destruct (in_bounds i (min_time itvl) || _) eqn:E1.
    { apply touch_spec in E1; [|done..]. rewrite !merge_max.
      destruct (merge_into i rest itvl Ha0 Hv E1) as [M1 M2]. split_and!; [exact M2|by intros _|].
      intros x Hx _. inversion Hx as [|? ? Hxi Hxr]; subst. constructor; [exact Hxi|]. by apply Forall_drop. }
    apply not_true_iff_false in E1. rewrite touch_spec in E1 by done.
    destruct (in_bounds i (max_time itvl) || _) eqn:E2.
    { apply tail_spec in E2; [|done..]. unfold itvl_ok in *. split_and!.
      - intros t. rewrite !covers_cons. simpl. assert (Hdec : min_time itvl < min_time i) by lia.
        split; [|intros [[?|?]|?]; [left; lia|tauto|left; lia]].
        intros [?|?]; [|tauto]. destruct (Z.le_gt_cases (min_time i) t); [tauto|right; lia].
      - intros _. apply apart_cons. split_and!; [unfold itvl_ok; simpl; lia| |done].
        eapply Forall_impl; [exact Hg|]. intros c. unfold gap. simpl. lia.
      - intros x Hx Hxi. inversion Hx; subst. constructor; [|done]. unfold gap in *. simpl. lia. }
    apply not_true_iff_false in E2. rewrite tail_spec in E2 by done.
    destruct (Z.ltb_spec (min_time itvl) (min_time i)) as [Hlt|Hge].
    { split_and!.
      - intros t. rewrite !covers_cons. tauto.
      - intros Hn. apply apart_cons. split_and!; [done| |done].
        assert (Hgi : gap itvl i).
        { unfold gap, itvl_ok in *. destruct (Z.le_gt_cases (max_time itvl) (max_time i)); [lia|].
          destruct (Hn i ltac:(by left) Hlt ltac:(lia)) as (j & Hj & Hjt).
          apply elem_of_cons in Hj as [->|Hj]; [lia|]. rewrite Forall_forall in Hg. pose proof (Hg j Hj) as Hx.
          unfold gap in Hx. lia. }
        constructor; [done|]. eapply Forall_impl; [exact Hg|]. intros c. unfold gap, itvl_ok in *. lia.
      - intros x Hx Hxi. by constructor. }
    destruct (IH Ha Hv) as (I1 & I2 & I3).
    assert (Hgi : gap i itvl) by (unfold gap, itvl_ok in *; lia).
    split_and!.
    + intros t. rewrite !covers_cons, I1. tauto.
    + intros Hn. apply apart_cons. split_and!; [done|by apply I3|]. apply I2.
      intros c Hc H1 H2. destruct (Hn c ltac:(by right) H1 H2) as (j & Hj & Hjt).
      apply elem_of_cons in Hj as [->|Hj]; [unfold gap in Hgi; lia|]. eauto.
    + intros x Hx Hxi. inversion Hx; subst. constructor; [done|]. by apply I3.
Qed.

(** Adding an interval to a list of separate, sorted intervals deletes
    exactly the times that were deleted before and those of the new interval;
    the list stays sorted and separate unless the new interval swallows one
    that it would have to be put before. *)
Theorem add_interval_union itvs itvl :
  apart itvs -> itvl_ok itvl ->
  (forall t, covers (itvls_add itvs itvl) t <-> covers itvs t \/ min_time itvl <= t <= max_time itvl) /\
  (no_swallow itvs itvl -> apart (itvls_add itvs itvl)).
Proof. intros Ha Hv. destruct (itvls_add_spec itvs itvl Ha Hv) as (H1 & H2 & _). done. Qed.

(** A swallowed interval is kept after the one that swallowed it, and the
    next addition can then drop deleted times: of 6-7, 1-3, 5-30 and 2-6, added
    in this order, only 1-7 is left, although 5-30 was asked for. *)
Theorem swallowed_interval_undeletes :
  let itvs := foldl itvls_add [] [mkInterval 6 7; mkInterval 1 3; mkInterval 5 30; mkInterval 2 6] in
  itvs = [mkInterval 1 7] /\ ~ covers itvs 20.
Proof.
  split; [reflexivity|]. intros (i & Hi & Ht). apply list_elem_of_singleton in Hi as ->. simpl in Ht. lia.
Qed.

(** ** The file *)

(** Intervals added in order are kept as they are. *)
Lemma add_at_end itvs itvl :
  apart itvs -> itvl_ok itvl -> Forall (fun i => gap i itvl) itvs -> itvls_add itvs itvl = itvs ++ [itvl].
Proof.
  induction itvs as [|i itvs IH]; intros Ha Hv Hg; [done|]. apply apart_cons in Ha as (Hi & _ & Ha).
  inversion Hg as [|? ? Hgi Hgr]; subst. unfold gap in Hgi. cbn [itvls_add].
  pose proof (touch_spec i itvl Hi Hv) as T1. pose proof (tail_spec i itvl Hi Hv) as T2. unfold itvl_ok in *.
  rewrite (not_true_is_false _ (fun Hx => ltac:(apply T1 in Hx; lia))).
  rewrite (not_true_is_false _ (fun Hx => ltac:(apply T2 in Hx; lia))).
  rewrite (proj2 (Z.ltb_ge _ _)) by lia. by rewrite IH.
Qed.

Lemma apart_app a b : apart (a ++ b) -> apart a /\ apart b /\ forall i j, i ∈ a -> j ∈ b -> gap i j.
Proof.
  intros [Hs Hf]. apply StronglySorted_app in Hs as (H1 & H2 & H3). apply Forall_app in Hf as [? ?]. done.
Qed.

Lemma add_all pre itvs : apart (pre ++ itvs) -> foldl itvls_add pre itvs = pre ++ itvs.
Proof.
  revert pre. induction itvs as [|i itvs IH]; intros pre Ha; cbn [foldl]; [by rewrite app_nil_r|].
  apply apart_app in Ha as Hp. destruct Hp as (Hp & Hi & Hg). apply apart_cons in Hi as (Hi & _ & _).
  rewrite add_at_end; [|done|done|].
  - rewrite IH; by rewrite <- app_assoc.
  - apply Forall_forall. intros j Hj. apply Hg; [done|by left].
Qed.

Definition flat (entries : list (Z * Intervals)) : list (Z * Interval) :=
  entries ≫= fun e => map (fun i => (e.1, i)) e.2.

Definition add_pair (ts : MemTombstones) (p : Z * Interval) : MemTombstones := add_interval ts p.1 p.2.

Lemma add_entry ts ref itvs :
  itvs <> [] -> ts !! ref = None ->
  foldl add_pair ts (map (fun i => (ref, i)) itvs) = <[ref := foldl itvls_add [] itvs]> ts.
Proof.
  intros Hne Hn.
  assert (Hgen : forall itvs l, foldl add_pair (<[ref := l]> ts) (map (fun i => (ref, i)) itvs)
            = <[ref := foldl itvls_add l itvs]> ts).
  { clear. intros itvs. induction itvs as [|i itvs IH]; intros l; cbn [map foldl]; [done|].
    unfold add_pair at 2, add_interval. cbn [fst snd]. rewrite lookup_insert_eq, insert_insert_eq. apply IH. }
  destruct itvs as [|i itvs]; [done|]. cbn [map foldl]. unfold add_pair at 2, add_interval. cbn [fst snd].
  rewrite Hn. apply Hgen.
Qed.

Lemma add_entries entries ts :
  NoDup (map fst entries) -> (forall e, e ∈ entries -> e.2 <> [] /\ apart e.2 /\ ts !! e.1 = None) ->
  foldl add_pair ts (flat entries) = foldl (fun ts e => <[e.1 := e.2]> ts) ts entries.
Proof.
  revert ts. induction entries as [|[ref itvs] entries IH]; intros ts Hn He; [done|].
  cbn [map] in Hn. apply NoDup_cons in Hn as [Hx Hn]. unfold flat. rewrite bind_cons, foldl_app.
  destruct (He (ref, itvs) ltac:(by left)) as (H1 & H2 & H3). cbn [fst snd] in *.
  rewrite add_entry, (add_all []) by done. cbn [app]. apply IH; [done|].
  intros e Hin. destruct (He e ltac:(by right)) as (E1 & E2 & E3). split_and!; try done.
  rewrite lookup_insert_ne; [done|]. intros ->. apply Hx. by apply list_elem_of_fmap_2.
Qed.

Lemma entries_lookup entries ts ref itvs :
  NoDup (map fst entries) -> (ref, itvs) ∈ entries ->
  foldl (fun (ts : MemTombstones) e => <[e.1 := e.2]> ts) ts entries !! ref = Some itvs.
Proof.
  revert ts. induction entries as [|[r l] entries IH]; intros ts Hn Hin; [by apply elem_of_nil in Hin|].
  cbn [map] in Hn. apply NoDup_cons in Hn as [Hx Hn]. cbn [foldl fst snd].
  apply elem_of_cons in Hin as [[= <- <-]|Hin]; [|by apply IH].
  assert (Hk : forall ts, foldl (fun (ts : MemTombstones) e => <[e.1 := e.2]> ts) ts entries !! ref = ts !! ref).
  { clear -Hx. induction entries as [|[r l] entries IH]; intros ts; [done|]. cbn [map foldl fst snd] in *.
    rewrite not_elem_of_cons in Hx. destruct Hx as [Hr Hx]. rewrite IH by done. by rewrite lookup_insert_ne by done. }
  by rewrite Hk, lookup_insert_eq.
Qed.

Section FileProps.
Context `{PastEnd} `{Crc}.

Definition pair_rec (p : Z * Interval) : list Z :=
  encode_unsigned_varint p.1 ++ encode_signed_varint (min_time p.2) ++ encode_signed_varint (max_time p.2).

Lemma tomb_bytes_rec ref i : is_u64 ref -> tomb_bytes ref i = pair_rec (ref, i).
Proof.
  intros Hr. apply (puts_start (fun e => put_signed_variant (put_signed_variant (put_unsigned_variant e ref) _) _)).
  apply (puts_comp (fun e => put_unsigned_variant e _) (fun e => put_signed_variant (put_signed_variant e _) _));
    [by apply put_unsigned_puts|].
  apply (puts_comp (fun e => put_signed_variant e _) (fun e => put_signed_variant e _)); apply put_signed_puts.
Qed.

Lemma body_rec entries :
  Forall (fun e => is_u64 e.1) entries -> entries ≫= write_ts_helper = flat entries ≫= pair_rec.
Proof.
  induction 1 as [|[ref itvs] entries Hr Hl IH]; [done|]. unfold flat. rewrite !bind_cons, bind_app, IH. f_equal.
  unfold write_ts_helper. cbn [fst snd] in *. clear IH. induction itvs as [|i itvs IH]; [done|].
  cbn [map]. rewrite !bind_cons, IH. f_equal. by apply tomb_bytes_rec.
Qed.

Lemma read_stones_reads ps fuel d ts :
  Forall (fun p => is_u64 p.1 /\ interval_ok p.2) ps -> (length ps < fuel)%nat -> db_at d (ps ≫= pair_rec) ->
  read_stones fuel d ts = Some (Some (foldl add_pair ts ps)).
Proof.
  intros Hl. revert fuel d ts. induction Hl as [|[ref i] ps [Hr [Hi1 Hi2]] Hl IH]; intros fuel d ts Hf Hd;
    (destruct fuel as [|fuel]; [simpl in Hf; lia|]); cbn [read_stones]; rewrite (db_at_len _ _ Hd); [done|].
  rewrite bind_cons in Hd. unfold pair_rec in Hd at 1. cbn [fst snd] in *. rewrite <- !app_assoc in Hd.
  rewrite bind_cons, length_app. rewrite (proj2 (Z.ltb_lt 0 _)).
  2:{ unfold pair_rec. rewrite length_app. cbn [fst].
      pose proof (encode_unsigned_nonempty ref Hr). destruct (encode_unsigned_varint ref); [done|simpl length; lia]. }
  destruct (get_unsigned_takes _ Hr d _ Hd) as (d1 & -> & Hd1).
  destruct (get_signed_takes _ Hi1 d1 _ Hd1) as (d2 & -> & Hd2).
  destruct (get_signed_takes _ Hi2 d2 _ Hd2) as (d3 & -> & Hd3).
  rewrite (db_at_ok _ _ Hd3), IH by (done || (simpl in Hf; lia)). by destruct i.
Qed.

Definition entry_ok (e : Z * Intervals) : Prop := is_u64 e.1 /\ e.2 <> [] /\ apart e.2.

Lemma flat_ok entries :
  Forall entry_ok entries -> Forall (fun p => is_u64 p.1 /\ interval_ok p.2) (flat entries).
Proof.
  induction 1 as [|[ref itvs] entries (Hr & _ & _ & Hok) Hl IH]; [constructor|]. unfold flat. rewrite bind_cons.
  apply Forall_app. split; [|done]. cbn [fst snd] in *. induction Hok as [|i itvs Hi Hok IHi]; [constructor|].
  cbn [map]. constructor; [|done]. cbn [fst snd]. split; [done|].
  unfold itvl_ok, interval_ok, is_s in *. lia.
Qed.

Lemma file_parts entries :
  exists body, write_tombstones entries = (be_bytes 4 MAGIC_TOMBSTONE ++ [TOMBSTONE_FORMAT]) ++ body ++ be_bytes 4 (crc32 body)
    /\ body = entries ≫= write_ts_helper.
Proof.
  eexists. split; [|reflexivity]. unfold write_tombstones. f_equal.
  do 2 f_equal. rewrite (puts_start (fun e => put_BE_uint32 e _) (be_bytes 4 _)) by apply put_BE_uint32_puts. done.
Qed.

(** A tombstone file reads back as the tombstones it was written from:
    every series gets exactly the intervals it had. *)
Theorem tombstone_file_round_trip entries :
  Forall entry_ok entries -> NoDup (map fst entries) ->
  Z.of_nat (length (write_tombstones entries)) < 2 ^ 63 ->
  (forall b, is_u 32 (crc32 b)) ->
  exists ts, read_tombstones (Some (write_tombstones entries)) =
      Some (Some (ts, Z.of_nat (length (write_tombstones entries)))) /\
    forall ref itvs, (ref, itvs) ∈ entries -> get_intervals ts ref = Some itvs.
Proof.
  intros Hok Hn Hlen Hcrc. exists (foldl add_pair ∅ (flat entries)). split.
  - destruct (file_parts entries) as (body & E & Eb). unfold read_tombstones. rewrite E in *. clear E.
    set (hd := be_bytes 4 MAGIC_TOMBSTONE ++ [TOMBSTONE_FORMAT]) in *.
    assert (Hh : length hd = 5%nat) by done. rewrite !length_app, length_be_bytes, Hh in *.
    rewrite (proj2 (Z.ltb_ge _ 9)) by lia.
    rewrite (get_uint32_spec [] ([TOMBSTONE_FORMAT] ++ body ++ be_bytes 4 (crc32 body)) MAGIC_TOMBSTONE).
    change (u32 MAGIC_TOMBSTONE =? MAGIC_TOMBSTONE) with true. cbn [negb].
    rewrite (peek_lookup _ 4 1) by done. cbn [Z.eqb negb].
    assert (Hcut : take (Z.to_nat (Z.of_nat (5 + (length body + 4)) - 4)) (hd ++ body ++ be_bytes 4 (crc32 body)) = hd ++ body).
    { rewrite app_assoc. apply take_app_length'. rewrite length_app, Hh. lia. }
    rewrite Hcut, drop_app_length' by done.
    replace (Z.of_nat (5 + (length body + 4)) - 4) with (Z.of_nat (length (hd ++ body))) by (rewrite length_app, Hh; lia).
    rewrite (app_assoc hd body), <- (app_nil_r (be_bytes 4 (crc32 body))), get_uint32_spec.
    unfold u32. rewrite wrap_id, Z.eqb_refl by apply Hcrc. cbn [negb]. rewrite ?app_nil_r.
    replace (Z.of_nat (length (hd ++ body)) - 5) with (Z.of_nat (length body)) by (rewrite length_app, Hh; lia).
    assert (Hbody : body = flat entries ≫= pair_rec).
    { rewrite Eb. apply body_rec. eapply Forall_impl; [exact Hok|]. by intros e (? & _). }
    erewrite (read_stones_reads (flat entries)); [done|by apply flat_ok| |rewrite <- Hbody; apply dec_buf_at; lia].
    assert (Hb : (length (flat entries) <= length body)%nat); [|rewrite ?length_app, ?length_be_bytes, ?Hh; lia].
    rewrite Hbody. apply bind_length. intros [ref i] Hx. unfold pair_rec in Hx. apply app_nil in Hx as [Hx _].
    unfold encode_unsigned_varint in Hx. change (Z.to_nat MAX_VARINT_LEN_64) with 10%nat in Hx.
    cbn [encode_unsigned_varint_loop fst] in Hx. destruct (_ =? 0); discriminate Hx.
  - intros ref itvs Hin. unfold get_intervals. rewrite add_entries; [by apply entries_lookup|done|].
    intros e He. rewrite Forall_forall in Hok. destruct (Hok e He) as (_ & H1' & H2'). done.
Qed.

End FileProps.

(** ** Examples *)

Lemma add_interval_union_witness :
  let itvs := [mkInterval 1 3; mkInterval 6 7; mkInterval 20 30] in
  itvls_add itvs (mkInterval 4 21) = [mkInterval 1 30] /\ apart (itvls_add itvs (mkInterval 4 21)).
Proof.
  intros itvs. split; [reflexivity|].
  assert (Ha : apart itvs) by (split; repeat constructor; vm_compute; congruence).
  apply (add_interval_union itvs (mkInterval 4 21) Ha); [repeat constructor; vm_compute; congruence|].
  intros i Hi H1 H2. exists (mkInterval 1 3). split; [by left|]. simpl. lia.
Defined.

Lemma tombstone_file_round_trip_witness :
  let pe : PastEnd := fun _ => 9 in
  let crc : Crc := fun l => u32 (fold_left Z.add l 0) in
  let entries := [(7, [mkInterval (-5) 3; mkInterval 6 7]); (2 ^ 63, [mkInterval 0 0])] in
  exists ts, read_tombstones (Some (write_tombstones entries)) = Some (Some (ts, 27)) /\
    get_intervals ts 7 = Some [mkInterval (-5) 3; mkInterval 6 7].
Proof.
  intros pe crc entries.
  destruct (tombstone_file_round_trip entries) as (ts & E & Hg).
  - repeat constructor; try (vm_compute; congruence).
  - apply (bool_decide_unpack _). vm_compute. exact I.
  - vm_compute. reflexivity.
  - intros b. apply wrap_range. lia.
  - exists ts. split; [exact E|]. apply Hg. by left.
Defined.
