(* ===== verification/ChunkOps.v ===== *)
(** chunk/ChunkIteratorInterface.hpp, chunk/DeleteIterator.cpp and the merging
    of chunks in chunk/ChunkUtils.cpp.

    [ChunkIterator] is the interface the three share; [DeleteIterator] and
    [merge_iterators] are written against it, and [XORIterator] is an instance.
    [visits it l it'] says that [while (it->next())] sees the samples [l] and
    leaves [it'].  Chunk metas are shared pointers that
    [merge_overlapping_chunks] writes through, so they live in a store. *)
From Stdlib Require Import ZArith Lia Bool Sorting.Sorted.
From stdpp Require Import base list numbers option gmap sorting.
From S2P Require Import Prelude Endian BitStream XORChunk Record Tombstone.

(** ** The interface *)

Class ChunkIterator (I : Type) := {
  ci_at : I -> Z * Z;
  ci_next : I -> bool * I;
  ci_error : I -> bool }.

#[export] Instance XORIterator_iterator `{PastEnd} : ChunkIterator XORIterator := {
  ci_at := at_;
  ci_next := next;
  ci_error := err_ }.

(** ** Iterating past deleted samples *)

(** [std::pair<int, int> p = it->at()] narrows the timestamp to 32 bits. *)
Definition to_int (t : Z) : Z := s32 t.

(** The inner loop: whether the sample is deleted, and the intervals left. *)
Fixpoint deleted_at (t : Z) (itvls : Intervals) : bool * Intervals :=
  match itvls with
  | [] => (false, [])
  | i :: rest =>
    if in_bounds i t then (true, itvls)
    else if max_time i <? t then deleted_at t rest
    else (false, itvls)
  end.

Record DeleteIterator (I : Type) := mkDeleteIterator {
  dl_it : I;
  dl_itvls : Intervals }.
Arguments mkDeleteIterator {I}.
Arguments dl_it {I}.
Arguments dl_itvls {I}.

Section Delete.
Context {I : Type} `{CI : ChunkIterator I}.

Definition del_at (d : DeleteIterator I) : Z * Z := ci_at (dl_it d).
Definition del_error (d : DeleteIterator I) : bool := ci_error (dl_it d).

(** [next]: one round per sample of the inner iterator; [None] is a loop that
    needs more than [rounds]. *)
Fixpoint del_next (rounds : nat) (d : DeleteIterator I) : option (bool * DeleteIterator I) :=
  match rounds with
  | O => None
  | S rounds =>
    match ci_next (dl_it d) with
    | (false, it) => Some (false, mkDeleteIterator it (dl_itvls d))
    | (true, it) =>
      match deleted_at (to_int (ci_at it).1) (dl_itvls d) with
      | (true, itvls) => del_next rounds (mkDeleteIterator it itvls)
      | (false, itvls) => Some (true, mkDeleteIterator it itvls)
      end
    end
  end.

(** The samples [while (it->next())] sees. *)
Fixpoint del_drain (rounds : nat) (d : DeleteIterator I) : option (list (Z * Z) * DeleteIterator I) :=
  match rounds with
  | O => None
  | S n =>
    match del_next rounds d with
    | None => None
    | Some (false, d) => Some ([], d)
    | Some (true, d) =>
      match del_drain n d with
      | None => None
      | Some (l, d') => Some (del_at d :: l, d')
      end
    end
  end.

End Delete.

(** ** Merging two chunks *)

(** [app->append(t, v)]: an [EmptyAppender] does nothing. *)
Definition app_append `{PastEnd} (b : BitStream) (app : Appender) (s : Z * Z) : BitStream * Appender :=
  match app with
  | EmptyAppender => (b, app)
  | AppenderOf a => let '(b, a) := append b a s.1 s.2 in (b, AppenderOf a)
  end.

(** The locals of [merge_chunks]: the iterators, what their last [next]
    returned, the new chunk's stream and its appender. *)
Record Merging (I1 I2 : Type) := mkMerging {
  mg_it1 : I1;
  mg_ok1 : bool;
  mg_it2 : I2;
  mg_ok2 : bool;
  mg_b : BitStream;
  mg_app : Appender }.
Arguments mkMerging {I1 I2}.
Arguments mg_it1 {I1 I2}.
Arguments mg_ok1 {I1 I2}.
Arguments mg_it2 {I1 I2}.
Arguments mg_ok2 {I1 I2}.
Arguments mg_b {I1 I2}.
Arguments mg_app {I1 I2}.

Inductive MergeError :=
  | ErrAppender
  | ErrFirst
  | ErrSecond.

Section Merge.
Context `{PE : PastEnd} {I1 I2 : Type} `{CI1 : ChunkIterator I1} `{CI2 : ChunkIterator I2}.

Definition step1 (m : Merging I1 I2) : Merging I1 I2 :=
  let '(ok, it) := ci_next (mg_it1 m) in
  mkMerging it ok (mg_it2 m) (mg_ok2 m) (mg_b m) (mg_app m).

Definition step2 (m : Merging I1 I2) : Merging I1 I2 :=
  let '(ok, it) := ci_next (mg_it2 m) in
  mkMerging (mg_it1 m) (mg_ok1 m) it ok (mg_b m) (mg_app m).

Definition put (m : Merging I1 I2) (s : Z * Z) : Merging I1 I2 :=
  let '(b, app) := app_append (mg_b m) (mg_app m) s in
  mkMerging (mg_it1 m) (mg_ok1 m) (mg_it2 m) (mg_ok2 m) b app.

Definition merge_body (m : Merging I1 I2) : Merging I1 I2 :=
  let p1 := ci_at (mg_it1 m) in
  let p2 := ci_at (mg_it2 m) in
  if p1.1 <? p2.1 then step1 (put m p1)
  else if p2.1 <? p1.1 then step2 (put m p2)
  else step2 (step1 (put m p2)).

(** [while (cond) body]; [None] is a loop that needs more rounds. *)
Fixpoint while_ {S} (rounds : nat) (cond : S -> bool) (body : S -> S) (s : S) : option S :=
  match rounds with
  | O => None
  | Datatypes.S rounds => if cond s then while_ rounds cond body (body s) else Some s
  end.

Definition merge_iterators (rounds : nat) (it1 : I1) (it2 : I2) : option (MergeError + XORChunk) :=
  match appender xor_chunk with
  | None => Some (inl ErrAppender)
  | Some app =>
    let m := step2 (step1 (mkMerging it1 false it2 false (bstream xor_chunk) app)) in
    m ← while_ rounds (fun m => mg_ok1 m && mg_ok2 m) merge_body m;
    m ← while_ rounds mg_ok1 (fun m => step1 (put m (ci_at (mg_it1 m)))) m;
    m ← while_ rounds mg_ok2 (fun m => step2 (put m (ci_at (mg_it2 m)))) m;
    if ci_error (mg_it1 m) then Some (inl ErrFirst)
    else if ci_error (mg_it2 m) then Some (inl ErrSecond)
    else Some (inr (mkXORChunk (mg_b m) (read_mode xor_chunk) (size_ xor_chunk)))
  end.

End Merge.

Section Overlapping.
Context `{PastEnd}.

(** No loop runs more rounds than the two headers announce samples, plus one. *)
Definition merge_chunks (c1 c2 : XORChunk) : option (MergeError + XORChunk) :=
  let it1 := chunk_iterator c1 in
  let it2 := chunk_iterator c2 in
  merge_iterators (S (Z.to_nat (num_total it1) + Z.to_nat (num_total it2))) it1 it2.

(** ** Merging overlapping chunks *)

Record ChunkMeta := mkChunkMeta {
  cm_ref : Z;
  cm_chunk : XORChunk;
  cm_min_time : Z;
  cm_max_time : Z }.

(** The metas behind the shared pointers; a pointer is an index. *)
Abbreviation Metas := (list ChunkMeta).

Inductive Merged :=
  | MOk (st : Metas) (chunks : list nat)
  | MErr (st : Metas) (e : MergeError)
  | MCrash.

(** One round of the loop: [new_chunks] and its last index. *)
Definition overlap_step (st : Metas) (new_chunks : list nat) (last : nat) (p : nat) : Merged :=
  match st !! p, new_chunks !! last with
  | Some c, Some q =>
    match st !! q with
    | Some l =>
      if cm_max_time l <? cm_min_time c then MOk st (new_chunks ++ [p])
      else
        let l := if cm_max_time l <? cm_max_time c
                 then mkChunkMeta (cm_ref l) (cm_chunk l) (cm_min_time l) (cm_max_time c) else l in
        let st := <[q := l]> st in
        match merge_chunks (cm_chunk l) (cm_chunk c) with
        | Some (inr chk) =>
          MOk (<[q := mkChunkMeta (cm_ref l) chk (cm_min_time l) (cm_max_time l)]> st) new_chunks
        | Some (inl e) => MErr st e
        | None => MCrash
        end
    | None => MCrash
    end
  | _, _ => MCrash
  end.

Fixpoint overlap_loop (st : Metas) (new_chunks : list nat) (chunks : list nat) : Merged :=
  match chunks with
  | [] => MOk st new_chunks
  | p :: chunks =>
    match overlap_step st new_chunks (length new_chunks - 1) p with
    | MOk st new_chunks => overlap_loop st new_chunks chunks
    | r => r
    end
  end.

Definition merge_overlapping_chunks (st : Metas) (chunks : list nat) : Merged :=
  match chunks with
  | p :: p2 :: rest => overlap_loop st [p] (p2 :: rest)
  | _ => MOk st chunks
  end.

End Overlapping.

(** ** What an iterator visits *)

Section Visits.
Context {I : Type} `{CI : ChunkIterator I}.

Inductive visits : I -> list (Z * Z) -> I -> Prop :=
  | visits_end it it' : ci_next it = (false, it') -> visits it [] it'
  | visits_next it it1 l it' :
      ci_next it = (true, it1) -> visits it1 l it' -> visits it (ci_at it1 :: l) it'.

Lemma visits_functional it l it' l2 it2 : visits it l it' -> visits it l2 it2 -> l = l2 /\ it' = it2.
Proof.
  intros Hv. revert l2 it2. induction Hv as [it it' E|it it1 l it' E Hv IH]; intros l2 it2 Hv2;
    destruct Hv2 as [? ? E2|? ? ? ? E2 Hv2]; rewrite E in E2; simplify_eq; [done|].
  by apply IH in Hv2 as [-> ->].
Qed.

(** An iterator just moved, with the samples from its current one on. *)
Definition pending (it : I) (ok : bool) (l : list (Z * Z)) (it' : I) : Prop :=
  match l with
  | [] => ok = false /\ it' = it
  | s :: l => ok = true /\ ci_at it = s /\ visits it l it'
  end.

Lemma visits_pending it l it' : visits it l it' -> pending (ci_next it).2 (ci_next it).1 l it'.
Proof. by destruct 1 as [? ? E|? ? ? ? E]; rewrite E. Qed.

(** *** The deleting iterator *)

Definition by_min (a b : Interval) : Prop := min_time a <= min_time b.

Lemma deleted_at_spec t itvls :
  StronglySorted by_min itvls ->
  ((deleted_at t itvls).1 = true <-> covers itvls t) /\
  exists pre, itvls = pre ++ (deleted_at t itvls).2 /\ Forall (fun i => max_time i < t) pre.
Proof.
  induction itvls as [|i itvls IH]; intros Hs; simpl.
  { rewrite covers_nil. split; [done|]. by exists []. }
  apply StronglySorted_inv in Hs as [Hs Hi]. rewrite covers_cons.
  destruct (in_bounds i t) eqn:Eb.
  { apply in_bounds_spec in Eb. split; [tauto|]. by exists []. }
  assert (Hb : ~ (min_time i <= t <= max_time i)) by (rewrite <- in_bounds_spec; congruence).
  destruct (Z.ltb_spec (max_time i) t).
  - destruct (IH Hs) as [E (pre & Ep & Hp)]. rewrite E. split; [tauto|].
    exists (i :: pre). split; [by rewrite Ep at 1|]. by constructor.
  - simpl. split; [|by exists []]. split; [done|]. intros [?|(j & Hj & ?)]; [done|].
    rewrite Forall_forall in Hi. specialize (Hi j Hj). unfold by_min in Hi. lia.
Qed.

Lemma covers_later pre itvls t t' :
  Forall (fun i => max_time i < t) pre -> t <= t' -> covers (pre ++ itvls) t' <-> covers itvls t'.
Proof.
  intros Hp Ht. rewrite covers_app. split; [|tauto]. intros [(i & Hi & ?)|?]; [|done].
  rewrite Forall_forall in Hp. specialize (Hp i Hi). simpl in Hp. lia.
Qed.

#[export] Instance covers_dec itvls t : Decision (covers itvls t).
Proof.
  refine (cast_if (decide (Exists (fun i => min_time i <= t <= max_time i) itvls)));
    unfold covers; setoid_rewrite <- Exists_exists; done.
Defined.

(** The deletion as a function of the samples. *)
Fixpoint del_samples (l : list (Z * Z)) (itvls : Intervals) : list (Z * Z) :=
  match l with
  | [] => []
  | s :: l =>
    match deleted_at (to_int s.1) itvls with
    | (true, itvls) => del_samples l itvls
    | (false, itvls) => s :: del_samples l itvls
    end
  end.

Lemma del_next_more n d r : del_next n d = Some r -> del_next (S n) d = Some r.
Proof.
  revert d. induction n as [|n IH]; intros d; [done|]. cbn [del_next].
  destruct (ci_next (dl_it d)) as [[] it]; [|done].
  destruct (deleted_at _ _) as [[] itvls]; [|done]. apply IH.
Qed.

Lemma del_drain_S n d :
  del_drain (S n) d =
  match del_next (S n) d with
  | None => None
  | Some (false, d) => Some ([], d)
  | Some (true, d) => match del_drain n d with None => None | Some (l, d') => Some (del_at d :: l, d') end
  end.
Proof. done. Qed.

Lemma del_drain_more n d r : del_drain n d = Some r -> del_drain (S n) d = Some r.
Proof.
  revert d r. induction n as [|n IH]; intros d r; [done|]. rewrite (del_drain_S n), (del_drain_S (S n)).
  destruct (del_next (S n) d) as [[[] d1]|] eqn:E; [| |done]; rewrite (del_next_more _ _ _ E); [|done].
  destruct (del_drain n d1) as [[l d2]|] eqn:E2; [|done]. by rewrite (IH _ _ E2).
Qed.

Lemma del_drain_samples it l it' :
  visits it l it' -> forall rounds itvls, (length l < rounds)%nat ->
  exists itvls', del_drain rounds (mkDeleteIterator it itvls)
                 = Some (del_samples l itvls, mkDeleteIterator it' itvls').
Proof.
  induction 1 as [it it' E|it it1 l it' E Hv IH]; intros rounds itvls Hr;
    (destruct rounds as [|n]; [simpl in Hr; lia|]); cbn [del_drain del_next dl_it dl_itvls]; rewrite E.
  { by exists itvls. }
  simpl in Hr. cbn [del_samples].
  destruct (deleted_at (to_int (ci_at it1).1) itvls) as [[] itvls1].
  - destruct (IH n itvls1 ltac:(lia)) as (itvls' & E').
    exists itvls'. destruct n as [|n]; [done|]. cbn [del_drain] in E'.
    destruct (del_next (S n) _) as [[[] d1]|]; [|done|done].
    destruct (del_drain n d1) as [[l2 d2]|] eqn:E2; [|done].
    by rewrite (del_drain_more _ _ _ E2).
  - destruct (IH n itvls1 ltac:(lia)) as (itvls' & ->). by exists itvls'.
Qed.

Definition in_order (l : list (Z * Z)) : Prop := StronglySorted (fun s1 s2 => s1.1 <= s2.1) l.

Lemma del_samples_filter l itvls :
  in_order l -> Forall (fun s => is_s 32 s.1) l -> StronglySorted by_min itvls ->
  del_samples l itvls = filter (fun s => ~ covers itvls s.1) l.
Proof.
  revert itvls. induction l as [|s l IH]; intros itvls Ho Hs Hi; [done|].
  apply StronglySorted_inv in Ho as [Ho Hl]. apply Forall_cons in Hs as [Hs1 Hs].
  cbn [del_samples]. unfold to_int, s32. rewrite swrap_id by done.
  destruct (deleted_at_spec s.1 itvls Hi) as [Hd (pre & Ep & Hp)].
  destruct (deleted_at s.1 itvls) as [del itvls1]. simpl in *. subst itvls.
  assert (Hi1 : StronglySorted by_min itvls1).
  { clear -Hi. induction pre as [|i pre IH]; [done|]. by apply StronglySorted_inv in Hi as [Hi _]; apply IH. }
  assert (Hf : filter (fun s => ~ covers (pre ++ itvls1) s.1) l = filter (fun s => ~ covers itvls1 s.1) l).
  { clear -Hl Hp. induction Hl as [|x l Hx Hl IH]; [done|]. rewrite !filter_cons, IH.
    pose proof (covers_later pre itvls1 _ _ Hp Hx). repeat case_decide; tauto. }
  rewrite filter_cons, Hf, <- (IH itvls1) by done.
  destruct del; case_decide; try done; exfalso; naive_solver.
Qed.

(** The deleting iterator over any iterator that visits [samples] in
    timestamp order, with tombstones sorted by their start, ends, yields
    exactly the samples no tombstone covers, in order, and reports the inner
    iterator's error, as long as the timestamps fit in an [int]. *)
Theorem delete_iterator_filters it samples it' itvls rounds :
  visits it samples it' -> in_order samples -> Forall (fun s => is_s 32 s.1) samples ->
  StronglySorted by_min itvls -> (length samples < rounds)%nat ->
  exists d, del_drain rounds (mkDeleteIterator it itvls)
            = Some (filter (fun s => ~ covers itvls s.1) samples, d) /\
    del_error d = ci_error it'.
Proof.
  intros Hv Ho Hs Hi Hr. destruct (del_drain_samples it samples it' Hv rounds itvls Hr) as (itvls' & E).
  exists (mkDeleteIterator it' itvls'). split; [|done]. by rewrite E, del_samples_filter.
Qed.

Lemma del_samples_recent l itvls :
  Forall (fun i => 2 ^ 31 <= min_time i <= max_time i) itvls -> del_samples l itvls = l.
Proof.
  intros Hi. induction l as [|s l IH]; [done|]. cbn [del_samples].
  enough (deleted_at (to_int s.1) itvls = (false, itvls)) as -> by (by rewrite IH).
  destruct Hi as [|i itvls Hi _]; [done|]. cbn [deleted_at].
  pose proof (swrap_range 32 s.1 ltac:(lia)) as Hr. unfold is_s in Hr. fold (s32 s.1) in Hr.
  unfold to_int. destruct (in_bounds i (s32 s.1)) eqn:E; [apply in_bounds_spec in E; lia|].
  by destruct (Z.ltb_spec (max_time i) (s32 s.1)); [lia|].
Qed.

(** No tombstone that starts at or after [2^31] milliseconds (25 January
    1970) deletes anything: the deleting iterator narrows each timestamp to an
    [int], so it yields every sample. *)
Theorem delete_iterator_ignores_recent it samples it' itvls rounds :
  visits it samples it' -> Forall (fun i => 2 ^ 31 <= min_time i <= max_time i) itvls ->
  (length samples < rounds)%nat ->
  exists d, del_drain rounds (mkDeleteIterator it itvls) = Some (samples, d).
Proof.
  intros Hv Hi Hr. destruct (del_drain_samples it samples it' Hv rounds itvls Hr) as (itvls' & E).
  rewrite E, del_samples_recent by done. eauto.
Qed.

End Visits.

(** ** What merging yields *)

(** The merge of two sample lists; on equal timestamps the second's sample is
    kept. *)
Fixpoint merge_samples (l1 : list (Z * Z)) : list (Z * Z) -> list (Z * Z) :=
  fix go (l2 : list (Z * Z)) :=
    match l1, l2 with
    | [], _ => l2
    | _, [] => l1
    | s1 :: r1, s2 :: r2 =>
      if s1.1 <? s2.1 then s1 :: merge_samples r1 l2
      else if s2.1 <? s1.1 then s2 :: go r2
      else s2 :: merge_samples r1 r2
    end.

Lemma merge_samples_nil l : merge_samples l [] = l.
Proof. by destruct l. Qed.

Lemma merge_samples_cons s1 r1 s2 r2 :
  merge_samples (s1 :: r1) (s2 :: r2) =
  if s1.1 <? s2.1 then s1 :: merge_samples r1 (s2 :: r2)
  else if s2.1 <? s1.1 then s2 :: merge_samples (s1 :: r1) r2
  else s2 :: merge_samples r1 r2.
Proof. done. Qed.

(** *** The size of a chunk *)

Section Size.
Context `{PE : PastEnd}.

(** No sample takes more than twenty bytes. *)
Definition short (b : BitStream) (n : nat) : Prop := write_pos b <= 16 + 160 * Z.of_nat n.

Lemma sample_bits_length n a t v : appender_ok a -> sample_ok (t, v) -> (length (sample_bits n a t v) <= 160)%nat.
Proof.
  intros Ha [_ Hv]. pose proof (value_bits_length a v Ha Hv) as Hb. unfold sample_bits.
  assert (Hs : forall x, (length (encode_signed_varint x) <= 10)%nat).
  { intros x. unfold encode_signed_varint. rewrite encode_unsigned_varint_varint by apply zigzag_u64. apply length_varint, zigzag_u64. }
  repeat case_match; rewrite length_app, ?length_bytes_bits, ?length_bits_of.
  - pose proof (Hs t). lia.
  - pose proof (Hs (s64 (t - ap_timestamp a))). lia.
  - pose proof (dod_bits_length (s64 (u64 (t - ap_timestamp a) - ap_delta_timestamp a))). lia.
Qed.

Lemma append_short b hdr l a w t v : holds b hdr l a w -> sample_ok (t, v) -> short b (length l) ->
  short (append b a t v).1 (length (l ++ [(t, v)])).
Proof.
  intros (body & Hc & _ & Ha & _) Hs Hb. destruct (append_spec b a hdr _ body t v Hc Ha Hs) as [[Hw _] _]. destruct Hc as [Hw0 _].
  unfold short in *. rewrite (write_pos_spec _ _ _ Hw). rewrite (write_pos_spec _ _ _ Hw0) in Hb.
  pose proof (sample_bits_length (Z.of_nat (length l)) a t v Ha Hs). rewrite !length_app, !length_be_bytes in *. simpl length. lia.
Qed.

(** The chunk of some samples, appended one after the other. *)
Definition made (c : XORChunk) (l : list (Z * Z)) : Prop :=
  read_mode c = false /\ short (bstream c) (length l) /\ exists a w, holds (bstream c) [] l a w.

Lemma made_size c l : made c l -> 2 <= chunk_size c <= 3 + 20 * Z.of_nat (length l).
Proof.
  intros (Hm & Hs & a & w & body & (Hw & Hh & _) & _). unfold chunk_size, short in *. rewrite Hm, Hh. simpl length.
  rewrite (write_pos_spec _ _ _ Hw) in Hs. destruct Hw as (Hv & Ht & _ & s & Es & _ & Hb). unfold bs_size, size_of. rewrite Hv, Es.
  apply (f_equal length) in Hb. rewrite length_app, length_bytes_bits, length_replicate in Hb. rewrite length_app in *. simpl length in *.
 pose proof (Z.mod_pos_bound (8 - tail_count (bstream c)) 8 ltac:(lia)). lia.
Qed.

Lemma append_all_short hdr samples : forall b a w old, holds b hdr old a w -> Forall sample_ok samples ->
  Z.of_nat (length old + length samples) <= 65535 -> short b (length old) -> short (append_all b a samples).1 (length (old ++ samples)).
Proof.
  induction samples as [|[t v] samples IH]; intros b a w old Hh Hok Hl Hb; [by rewrite app_nil_r|]. apply Forall_cons in Hok as [Hs Hok].
  simpl length in Hl. unfold append_all. cbn [foldl]. pose proof (append_short b hdr old a w t v Hh Hs Hb) as Hb'.
  pose proof (append_holds b hdr old a w t v Hh Hs ltac:(lia)) as Hh'. destruct (append b a t v) as [b' a'].
  specialize (IH b' a' _ _ Hh' Hok ltac:(rewrite length_app; simpl; lia) Hb'). rewrite <- app_assoc in IH. exact IH.
Qed.

Lemma append_batch_made l : Forall sample_ok l -> Z.of_nat (length l) <= 65535 -> exists c, append_batch xor_chunk l = Some c /\ made c l.
Proof.
  intros Hok Hl. destruct (appender_holds xor_chunk _ _ _ _ (fresh_holds 0 ltac:(lia)) eq_refl) as (a & E & Hh).
  destruct (append_all_holds _ l _ _ _ _ Hh Hok Hl) as (w & Hw). unfold append_batch. rewrite E. eexists. split; [done|]. split; [done|].
  split; [|by eexists _, w]. by apply (append_all_short _ l _ _ _ _ Hh Hok Hl).
Qed.

End Size.

Section MergeProps.
Context `{PE : PastEnd} {I1 I2 : Type} `{CI1 : ChunkIterator I1} `{CI2 : ChunkIterator I2}.

(** The state of a merge: what each iterator still has, and what the new chunk
    holds. *)
Definition merging (m : Merging I1 I2) (l1 : list (Z * Z)) (e1 : I1) (l2 : list (Z * Z)) (e2 : I2)
    (out : list (Z * Z)) : Prop :=
  pending (mg_it1 m) (mg_ok1 m) l1 e1 /\ pending (mg_it2 m) (mg_ok2 m) l2 e2 /\
  exists a w, mg_app m = AppenderOf a /\ holds (mg_b m) [] out a w /\ short (mg_b m) (length out).

Lemma put_merging m l1 e1 l2 e2 out s :
  merging m l1 e1 l2 e2 out -> sample_ok s -> Z.of_nat (length out) < 65535 ->
  merging (put m s) l1 e1 l2 e2 (out ++ [s]).
Proof.
  intros (H1 & H2 & a & w & Ha & Hh & Hb) Hs Hl. destruct s as [t v]. unfold put, app_append. rewrite Ha.
  pose proof (append_short _ _ _ _ _ _ _ Hh Hs Hb) as Hb'.
  pose proof (append_holds _ _ _ _ _ _ _ Hh Hs Hl) as Hh'. cbn [fst snd]. destruct (append _ _ _ _) as [b' a'].
  cbn [fst snd] in *. split; [done|]. split; [done|]. eauto.
Qed.

Lemma step1_merging m s l1 e1 l2 e2 out :
  merging m (s :: l1) e1 l2 e2 out -> merging (step1 m) l1 e1 l2 e2 out.
Proof.
  intros ((_ & _ & Hv) & H2 & Hh). apply visits_pending in Hv. unfold step1.
  by destruct (ci_next (mg_it1 m)) as [ok it].
Qed.

Lemma step2_merging m l1 e1 s l2 e2 out :
  merging m l1 e1 (s :: l2) e2 out -> merging (step2 m) l1 e1 l2 e2 out.
Proof.
  intros (H1 & (_ & _ & Hv) & Hh). apply visits_pending in Hv. unfold step2.
  by destruct (ci_next (mg_it2 m)) as [ok it].
Qed.

Lemma merging_heads m l1 e1 l2 e2 out :
  merging m l1 e1 l2 e2 out ->
  mg_ok1 m = negb (bool_decide (l1 = [])) /\ mg_ok2 m = negb (bool_decide (l2 = [])) /\
  (forall s r, l1 = s :: r -> ci_at (mg_it1 m) = s) /\ (forall s r, l2 = s :: r -> ci_at (mg_it2 m) = s).
Proof.
  intros (H1 & H2 & _). destruct l1, l2; simpl in *; destruct_and!; split_and!; naive_solver.
Qed.

(** One loop of the merge copies what is left of one side. *)
Lemma copy1 rounds : forall m l1 e1 l2 e2 out,
  merging m l1 e1 l2 e2 out -> Forall sample_ok l1 -> (length l1 < rounds)%nat ->
  Z.of_nat (length out + length l1) <= 65535 ->
  exists m', while_ rounds mg_ok1 (fun m => step1 (put m (ci_at (mg_it1 m)))) m = Some m' /\
    merging m' [] e1 l2 e2 (out ++ l1).
Proof.
  induction rounds as [|rounds IH]; intros m l1 e1 l2 e2 out Hm Hok Hr Hl; [lia|].
  destruct (merging_heads _ _ _ _ _ _ Hm) as (E1 & _ & Hs & _). cbn [while_]. rewrite E1.
  destruct l1 as [|s l1]; simpl.
  - exists m. by rewrite app_nil_r.
  - rewrite (Hs s l1) by done. apply Forall_cons in Hok as [Hok1 Hok]. simpl in Hr, Hl.
    rewrite (cons_middle s out l1), app_assoc.
    apply IH; [|done|lia|rewrite length_app; simpl; lia].
    eapply step1_merging, put_merging; [done|done|lia].
Qed.

Lemma copy2 rounds : forall m l1 e1 l2 e2 out,
  merging m l1 e1 l2 e2 out -> Forall sample_ok l2 -> (length l2 < rounds)%nat ->
  Z.of_nat (length out + length l2) <= 65535 ->
  exists m', while_ rounds mg_ok2 (fun m => step2 (put m (ci_at (mg_it2 m)))) m = Some m' /\
    merging m' l1 e1 [] e2 (out ++ l2).
Proof.
  induction rounds as [|rounds IH]; intros m l1 e1 l2 e2 out Hm Hok Hr Hl; [lia|].
  destruct (merging_heads _ _ _ _ _ _ Hm) as (_ & E2 & _ & Hs). cbn [while_]. rewrite E2.
  destruct l2 as [|s l2]; simpl.
  - exists m. by rewrite app_nil_r.
  - rewrite (Hs s l2) by done. apply Forall_cons in Hok as [Hok1 Hok]. simpl in Hr, Hl.
    rewrite (cons_middle s out l2), app_assoc.
    apply IH; [|done|lia|rewrite length_app; simpl; lia].
    eapply step2_merging, put_merging; [done|done|lia].
Qed.

(** The loop over both: what it leaves completes the merge. *)
Lemma merge_both rounds : forall m l1 e1 l2 e2 out,
  merging m l1 e1 l2 e2 out -> Forall sample_ok l1 -> Forall sample_ok l2 ->
  (length l1 + length l2 < rounds)%nat -> Z.of_nat (length out + length l1 + length l2) <= 65535 ->
  exists m' r1 r2 out', while_ rounds (fun m => mg_ok1 m && mg_ok2 m) merge_body m = Some m' /\
    merging m' r1 e1 r2 e2 out' /\ (out' ++ r1) ++ r2 = out ++ merge_samples l1 l2 /\
    Forall sample_ok r1 /\ Forall sample_ok r2 /\ (length r1 + length r2 < rounds)%nat /\
    Z.of_nat (length out' + length r1 + length r2) <= 65535.
Proof.
  induction rounds as [|rounds IH]; intros m l1 e1 l2 e2 out Hm Hok1 Hok2 Hr Hl; [lia|].
  destruct (merging_heads _ _ _ _ _ _ Hm) as (E1 & E2 & Hs1 & Hs2). cbn [while_]. rewrite E1, E2.
  destruct l1 as [|s1 l1]; [|destruct l2 as [|s2 l2]].
  - exists m, [], l2, out. simpl. rewrite app_nil_r. split_and!; try done. by destruct l2.
  - exists m, (s1 :: l1), [], out. rewrite app_nil_r. split_and!; try done.
  - rewrite merge_samples_cons. unfold merge_body at 2. rewrite (Hs1 s1 l1), (Hs2 s2 l2) by done.
    apply Forall_cons in Hok1 as [Ha1 Hb1]. apply Forall_cons in Hok2 as [Ha2 Hb2].
    simpl length in *. simpl negb. cbn [andb].
    assert (Hgo : forall m' k1 k2 s, merging m' k1 e1 k2 e2 (out ++ [s]) -> Forall sample_ok k1 ->
      Forall sample_ok k2 -> (length k1 + length k2 < S (length l1) + S (length l2))%nat ->
      exists m'' r1 r2 out', while_ rounds (fun m => mg_ok1 m && mg_ok2 m) merge_body m' = Some m'' /\
        merging m'' r1 e1 r2 e2 out' /\ (out' ++ r1) ++ r2 = out ++ s :: merge_samples k1 k2 /\
        Forall sample_ok r1 /\ Forall sample_ok r2 /\ (length r1 + length r2 < S rounds)%nat /\
        Z.of_nat (length out' + length r1 + length r2) <= 65535).
    { intros m' k1 k2 s Hm' F1 F2 Hk. destruct (IH m' k1 e1 k2 e2 (out ++ [s])) as
        (m'' & r1 & r2 & out' & Q); try done; [lia|rewrite length_app; simpl; lia|].
      exists m'', r1, r2, out'. rewrite (cons_middle s out _), app_assoc. destruct_and! Q.
      split_and!; try done; lia. }
    destruct (s1.1 <? s2.1); [|destruct (s2.1 <? s1.1)]; apply Hgo; try done; simpl; try lia;
      try (by constructor); first [ eapply step2_merging, step1_merging, put_merging
                                  | eapply step1_merging, put_merging
                                  | eapply step2_merging, put_merging ]; eauto; lia.
Qed.

End MergeProps.

Section MergeIterators.
Context `{PE : PastEnd} {I1 I2 : Type} `{CI1 : ChunkIterator I1} `{CI2 : ChunkIterator I2}.

Lemma holds_visits b hdr l a w safe :
  holds b hdr l a w -> exists e, visits (xor_iterator_of b safe) l e /\ err_ e = false.
Proof.
  intros (body & Hc & Hr & _). pose proof Hc as (_ & _ & Hn). unfold is_u in Hn.
  destruct (xor_iterator_facing b hdr _ body safe Hc) as (Hf & Ht & rest & Hface).
  destruct (Hr _ rest Hf ltac:(lia) Hface) as (it' & Hs & _ & Ht' & Hy).
  assert (E : next it' = (false, it')) by (eapply next_exhausted; [done|congruence]).
  exists it'. split; [|apply Hy]. clear -Hs E. revert Hs. generalize (xor_iterator_of b safe) as it.
  induction l as [|s l IH]; intros it; simpl.
  - intros ->. by apply visits_end.
  - intros (it1 & E1 & <- & Hs). exact (visits_next it it1 l it' E1 (IH it1 Hs)).
Qed.

(** Merging two iterators: the error of the first, then of the second, else a
    chunk of the merged samples. *)
Lemma merge_iterators_spec rounds it1 l1 e1 it2 l2 e2 :
  visits it1 l1 e1 -> visits it2 l2 e2 -> Forall sample_ok l1 -> Forall sample_ok l2 ->
  Z.of_nat (length l1 + length l2) <= 65535 -> (length l1 + length l2 < rounds)%nat ->
  exists c, merge_iterators rounds it1 it2
      = Some (if ci_error e1 then inl ErrFirst else if ci_error e2 then inl ErrSecond else inr c) /\
    made c (merge_samples l1 l2).
Proof.
  intros Hv1 Hv2 Hok1 Hok2 Hl Hr. pose proof (fresh_holds 0 ltac:(lia)) as Hf.
  destruct (appender_holds xor_chunk _ _ _ _ Hf eq_refl) as (a0 & Ea & Ha).
  unfold merge_iterators. rewrite Ea.
  assert (Hm : merging (step2 (step1 (mkMerging it1 false it2 false (bstream xor_chunk) (AppenderOf a0))))
                 l1 e1 l2 e2 []).
  { apply visits_pending in Hv1, Hv2. unfold step1, step2. simpl.
    destruct (ci_next it1) as [ok1 i1]. simpl. destruct (ci_next it2) as [ok2 i2].
    split; [done|]. split; [done|]. exists a0, (0, 0). by split_and!. }
  revert Hm. generalize (step2 (step1 (mkMerging it1 false it2 false (bstream xor_chunk) (AppenderOf a0)))).
  intros m Hm.
  destruct (merge_both rounds _ _ _ _ _ _ Hm Hok1 Hok2 Hr Hl) as (m1 & r1 & r2 & out & -> & Hm1 & Eo & ? & ? & ? & ?).
  destruct (copy1 rounds _ _ _ _ _ _ Hm1) as (m2 & E2 & Hm2); try done; try lia.
  destruct (copy2 rounds _ _ _ _ _ _ Hm2) as (m3 & E3 & Hm3); try done; try lia.
  { rewrite length_app. lia. }
  simpl mbind. rewrite E2. simpl mbind. rewrite E3. simpl mbind.
  rewrite Eo in Hm3. destruct Hm3 as ((_ & ->) & (_ & ->) & a & w & _ & Hh & Hb).
  exists (mkXORChunk (mg_b m3) false 0). split; [|split; [done|]; split; [done|by exists a, w]].
  by destruct (ci_error (mg_it1 m3)), (ci_error (mg_it2 m3)).
Qed.

End MergeIterators.

(** *** The merged samples *)

Definition ascending (l : list (Z * Z)) : Prop := StronglySorted (fun s1 s2 => s1.1 < s2.1) l.

Lemma ascending_cons s l : ascending (s :: l) <-> Forall (fun s2 => s.1 < s2.1) l /\ ascending l.
Proof. unfold ascending. split; [by intros [??]%StronglySorted_inv|]. intros [? ?]. by constructor. Qed.

(** A lower bound of both lists is one of their merge. *)
Lemma merge_samples_Forall (P : Z * Z -> Prop) l1 l2 : Forall P l1 -> Forall P l2 -> Forall P (merge_samples l1 l2).
Proof.
  revert l2. induction l1 as [|s1 l1 IH1]; [by intros []|]. intros l2 [P1 F1]%Forall_cons.
  induction l2 as [|s2 l2 IH2]; [intros _; by constructor|]. intros [P2 F2]%Forall_cons.
  rewrite merge_samples_cons. repeat case_match; constructor; try done.
  - apply IH1; [done|by constructor].
  - by apply IH2.
  - by apply IH1.
Qed.

Lemma Forall_lt_weaken t t' (l : list (Z * Z)) :
  t <= t' -> Forall (fun s => t' < s.1) l -> Forall (fun s => t < s.1) l.
Proof. intros Ht Hl. eapply Forall_impl; [exact Hl|]. intros s. simpl. lia. Qed.

Lemma merge_samples_ascending l1 l2 : ascending l1 -> ascending l2 -> ascending (merge_samples l1 l2).
Proof.
  revert l2. induction l1 as [|s1 l1 IH1]; [by intros []|]. intros l2 H1.
  pose proof (proj1 (ascending_cons _ _) H1) as [F1 A1].
  induction l2 as [|s2 l2 IH2]; [done|]. intros H2.
  pose proof (proj1 (ascending_cons _ _) H2) as [F2 A2]. rewrite merge_samples_cons.
  destruct (Z.ltb_spec s1.1 s2.1); [|destruct (Z.ltb_spec s2.1 s1.1)]; apply ascending_cons; split.
  - apply merge_samples_Forall; [done|]. constructor; [done|]. eapply Forall_lt_weaken; [|done]. lia.
  - by apply IH1.
  - apply merge_samples_Forall; [|done]. constructor; [done|]. eapply Forall_lt_weaken; [|done]. lia.
  - by apply IH2.
  - apply merge_samples_Forall; [|done]. eapply Forall_lt_weaken; [|done]. lia.
  - by apply IH1.
Qed.

(** The samples as a map from timestamps. *)
Definition sample_map (l : list (Z * Z)) : gmap Z Z := list_to_map l.

Lemma sample_map_below t (l : list (Z * Z)) : Forall (fun s => t < s.1) l -> sample_map l !! t = None.
Proof.
  intros Hl. apply not_elem_of_list_to_map_1. rewrite list_elem_of_fmap. intros (s & -> & Hs).
  rewrite Forall_forall in Hl. specialize (Hl s Hs). simpl in Hl. lia.
Qed.

Lemma sample_map_cons s l : sample_map (s :: l) = <[s.1 := s.2]> (sample_map l).
Proof. by destruct s. Qed.

Lemma merge_samples_map l1 l2 :
  ascending l1 -> ascending l2 -> sample_map (merge_samples l1 l2) = sample_map l2 ∪ sample_map l1.
Proof.
  revert l2. induction l1 as [|s1 l1 IH1].
  { intros l2 _ _. change (sample_map []) with (∅ : gmap Z Z). rewrite (right_id_L ∅ (∪)). by destruct l2. }
  intros l2 H1.
  pose proof (proj1 (ascending_cons _ _) H1) as [F1 A1].
  induction l2 as [|s2 l2 IH2].
  { intros _. change (sample_map []) with (∅ : gmap Z Z). by rewrite (left_id_L ∅ (∪)). }
  intros H2. pose proof (proj1 (ascending_cons _ _) H2) as [F2 A2]. rewrite merge_samples_cons.
  destruct (Z.ltb_spec s1.1 s2.1); [|destruct (Z.ltb_spec s2.1 s1.1)].
  - rewrite sample_map_cons, IH1, (sample_map_cons s1) by done. apply insert_union_r, sample_map_below.
    constructor; [done|]. eapply Forall_lt_weaken; [|done]. lia.
  - rewrite sample_map_cons, IH2, (sample_map_cons s2) by done. by rewrite insert_union_l.
  - assert (E : s1.1 = s2.1) by lia. rewrite !sample_map_cons, IH1, E by done.
    rewrite <- insert_union_l. apply map_eq. intros t. rewrite !lookup_insert. case_decide; [done|].
    rewrite !lookup_union, lookup_insert_ne by done. done.
Qed.

Lemma merge_samples_length l1 l2 : (length (merge_samples l1 l2) <= length l1 + length l2)%nat.
Proof.
  revert l2. induction l1 as [|s1 l1 IH1]; [by intros []|]. intros l2.
  induction l2 as [|s2 l2 IH2]; [simpl; lia|]. rewrite merge_samples_cons.
  repeat case_match; cbn [length] in *;
    [specialize (IH1 (s2 :: l2)); simpl in IH1|idtac|specialize (IH1 l2)]; lia.
Qed.

(** ** Merged chunks *)

Section Chunks.
Context `{PE : PastEnd}.

Definition chunk_reads (c : XORChunk) : list (Z * Z) := (run (chunk_iterator c)).1.
Definition chunk_fails (c : XORChunk) : bool := err_ (run (chunk_iterator c)).2.

Lemma drain_visits fuel it :
  0 <= num_read it <= num_total it -> num_total it <= 65535 ->
  (Z.to_nat (num_total it - num_read it) < fuel)%nat ->
  visits it (drain fuel it).1 (drain fuel it).2 /\
  Z.of_nat (length (drain fuel it).1) <= num_total it - num_read it.
Proof.
  revert it. induction fuel as [|fuel IH]; intros it Hr Ht Hf; [lia|]. cbn [drain].
  destruct (next it) as [[|] it1] eqn:E; [|split; [by apply visits_end|simpl; lia]].
  pose proof (next_true _ _ E) as (E1 & E2 & E3). unfold u16 in E3. rewrite wrap_id in E3 by (unfold is_u; lia).
  destruct (IH it1) as [Hv Hl]; [lia|lia|lia|]. destruct (drain fuel it1) as [l it2]. simpl in *.
  split; [exact (visits_next it it1 l it2 E Hv)|lia].
Qed.

Lemma chunk_visits c :
  visits (chunk_iterator c) (chunk_reads c) (run (chunk_iterator c)).2 /\
  (length (chunk_reads c) <= Z.to_nat (num_total (chunk_iterator c)))%nat.
Proof.
  assert (Hn : is_u 16 (num_total (chunk_iterator c))) by (apply wrap_range; lia). unfold is_u in Hn.
  change (num_read (chunk_iterator c)) with 0 in *.
  destruct (drain_visits (S (Z.to_nat (num_total (chunk_iterator c)))) (chunk_iterator c)) as [Hv Hl];
    change (num_read (chunk_iterator c)) with 0 in *; try lia.
  split; [exact Hv|]. unfold chunk_reads, run. lia.
Qed.

Lemma made_reads c l : made c l -> chunk_reads c = l /\ chunk_fails c = false.
Proof.
  intros (Hm & _ & a & w & Hh). unfold chunk_fails, chunk_reads, chunk_iterator. rewrite Hm.
  destruct (holds_run _ _ _ _ _ true Hh) as [E1 (_ & _ & _ & _ & E2 & _)]. done.
Qed.

Lemma merge_chunks_spec c1 c2 :
  Forall sample_ok (chunk_reads c1) -> Forall sample_ok (chunk_reads c2) ->
  Z.of_nat (length (chunk_reads c1) + length (chunk_reads c2)) <= 65535 ->
  exists c, merge_chunks c1 c2
      = Some (if chunk_fails c1 then inl ErrFirst else if chunk_fails c2 then inl ErrSecond else inr c) /\
    chunk_fails c = false /\ chunk_reads c = merge_samples (chunk_reads c1) (chunk_reads c2) /\ made c (chunk_reads c).
Proof.
  intros H1 H2 Hl. destruct (chunk_visits c1) as [V1 L1], (chunk_visits c2) as [V2 L2].
  destruct (merge_iterators_spec (S (Z.to_nat (num_total (chunk_iterator c1)) +
    Z.to_nat (num_total (chunk_iterator c2)))) _ _ _ _ _ _ V1 V2 H1 H2 Hl) as (c & E & Hm); [lia|].
  destruct (made_reads c _ Hm) as [Er Ef]. exists c. split; [exact E|]. rewrite Er. done.
Qed.

(** Merging two chunks whose samples have ascending timestamps always
    ends.  It reports the first chunk's reading error, then the second's;
    otherwise the new chunk can be read back and holds, in ascending order,
    every timestamp of either chunk once, with the second chunk's value where
    both have it. *)
Theorem merge_chunks_second_wins c1 c2 :
  Forall sample_ok (chunk_reads c1) -> Forall sample_ok (chunk_reads c2) ->
  ascending (chunk_reads c1) -> ascending (chunk_reads c2) ->
  Z.of_nat (length (chunk_reads c1) + length (chunk_reads c2)) <= 65535 ->
  exists c, merge_chunks c1 c2
      = Some (if chunk_fails c1 then inl ErrFirst else if chunk_fails c2 then inl ErrSecond else inr c) /\
    chunk_fails c = false /\ ascending (chunk_reads c) /\
    sample_map (chunk_reads c) = sample_map (chunk_reads c2) ∪ sample_map (chunk_reads c1).
Proof.
  intros H1 H2 A1 A2 Hl. destruct (merge_chunks_spec c1 c2 H1 H2 Hl) as (c & E & Hf & Hr & _).
  exists c. rewrite Hr. split_and!; [done|done|by apply merge_samples_ascending|by apply merge_samples_map].
Qed.

(** *** Overlapping chunks *)

Definition meta_ok (m : ChunkMeta) : Prop :=
  chunk_fails (cm_chunk m) = false /\ Forall sample_ok (chunk_reads (cm_chunk m)) /\
  ascending (chunk_reads (cm_chunk m)) /\
  Forall (fun s => cm_min_time m <= s.1 <= cm_max_time m) (chunk_reads (cm_chunk m)).

Definition by_start (a b : ChunkMeta) : Prop := cm_min_time a <= cm_min_time b.
Definition before (a b : ChunkMeta) : Prop := cm_max_time a < cm_min_time b.

Definition add_samples (m : gmap Z Z) (c : ChunkMeta) : gmap Z Z := sample_map (chunk_reads (cm_chunk c)) ∪ m.

(** The samples of a run of chunks, a later chunk over an earlier one. *)
Definition contents (ms : list ChunkMeta) : gmap Z Z := foldl add_samples ∅ ms.

Definition total_samples (ms : list ChunkMeta) : nat :=
  sum_list ((fun m => length (chunk_reads (cm_chunk m))) <$> ms).

(** The metas a list of pointers leads to. *)
Definition points (st : list ChunkMeta) (ps : list nat) (ms : list ChunkMeta) : Prop :=
  Forall2 (fun p m => st !! p = Some m) ps ms.

Lemma points_insert st ps ms q x : q ∉ ps -> points st ps ms -> points (<[q := x]> st) ps ms.
Proof.
  intros Hq Hp. induction Hp as [|p m ps ms Hm Hp IH]; [constructor|].
  apply not_elem_of_cons in Hq as [Hne Hq]. constructor; [|by apply IH].
  by rewrite list_lookup_insert_ne.
Qed.

Lemma contents_merged pre l c l' rest :
  sample_map (chunk_reads (cm_chunk l'))
    = sample_map (chunk_reads (cm_chunk c)) ∪ sample_map (chunk_reads (cm_chunk l)) ->
  contents (pre ++ l' :: rest) = contents (pre ++ l :: c :: rest).
Proof.
  intros E. unfold contents. rewrite !foldl_app. simpl. f_equal. unfold add_samples.
  by rewrite E, (assoc_L (∪)).
Qed.

Lemma total_cons m ms : total_samples (m :: ms) = (length (chunk_reads (cm_chunk m)) + total_samples ms)%nat.
Proof. done. Qed.

Lemma total_app a b : total_samples (a ++ b) = (total_samples a + total_samples b)%nat.
Proof.
  induction a as [|m a IH]; [done|]. change ((m :: a) ++ b) with (m :: (a ++ b)).
  rewrite !total_cons, IH. lia.
Qed.

Lemma total_merged pre l c l' rest :
  (length (chunk_reads (cm_chunk l')) <= length (chunk_reads (cm_chunk l)) + length (chunk_reads (cm_chunk c)))%nat ->
  (total_samples (pre ++ l' :: rest) <= total_samples (pre ++ l :: c :: rest))%nat.
Proof.
  intros Hl. rewrite !total_app, !total_cons. lia.
Qed.

Lemma total_two pre l c rest :
  (length (chunk_reads (cm_chunk l)) + length (chunk_reads (cm_chunk c)) <= total_samples (pre ++ l :: c :: rest))%nat.
Proof. rewrite total_app, !total_cons. lia. Qed.

(** The round that merges: the last new chunk takes the other's samples and
    the later end. *)
Lemma overlap_step_merges st pre q p l c :
  st !! p = Some c -> st !! q = Some l -> meta_ok l -> meta_ok c -> by_start l c ->
  cm_min_time c <= cm_max_time l ->
  Z.of_nat (length (chunk_reads (cm_chunk l)) + length (chunk_reads (cm_chunk c))) <= 65535 ->
  exists st' l', overlap_step st (pre ++ [q]) (length (pre ++ [q]) - 1)%nat p = MOk st' (pre ++ [q]) /\
    st' = <[q := l']> st /\ meta_ok l' /\ cm_min_time l' = cm_min_time l /\
    cm_max_time l' = Z.max (cm_max_time l) (cm_max_time c) /\ made (cm_chunk l') (chunk_reads (cm_chunk l')) /\
    chunk_reads (cm_chunk l') = merge_samples (chunk_reads (cm_chunk l)) (chunk_reads (cm_chunk c)).
Proof.
  intros Hp Hq (Lf & Ls & La & Lr) (Cf & Cs & Ca & Cr) Hb Ho Hn.
  destruct (merge_chunks_spec (cm_chunk l) (cm_chunk c) Ls Cs Hn) as (k & Ek & Kf & Kr & Km).
  rewrite Lf, Cf in Ek. set (mx := Z.max (cm_max_time l) (cm_max_time c)).
  exists (<[q := mkChunkMeta (cm_ref l) k (cm_min_time l) mx]> st), (mkChunkMeta (cm_ref l) k (cm_min_time l) mx).
  split_and!; [|done| |done|done|done|done].
  - unfold overlap_step. rewrite length_app, Nat.add_sub, lookup_app_r, Nat.sub_diag, Hp by lia. simpl. rewrite Hq.
    destruct (Z.ltb_spec (cm_max_time l) (cm_min_time c)); [lia|].
    destruct (Z.ltb_spec (cm_max_time l) (cm_max_time c)); cbn [cm_chunk cm_ref cm_min_time cm_max_time];
      rewrite Ek, list_insert_insert_eq; do 3 f_equal; lia.
  - unfold meta_ok, by_start in *. cbn [cm_chunk cm_min_time cm_max_time]. rewrite Kr. split_and!; [done| | |].
    + by apply merge_samples_Forall.
    + by apply merge_samples_ascending.
    + apply merge_samples_Forall; (eapply Forall_impl; [eassumption|]); simpl; lia.
Qed.

Lemma overlap_step_pushes st pre q p l c :
  st !! p = Some c -> st !! q = Some l -> cm_max_time l < cm_min_time c ->
  overlap_step st (pre ++ [q]) (length (pre ++ [q]) - 1)%nat p = MOk st ((pre ++ [q]) ++ [p]).
Proof.
  intros Hp Hq Ho. unfold overlap_step.
  rewrite length_app, Nat.add_sub, lookup_app_r, Nat.sub_diag, Hp by lia. simpl. rewrite Hq.
  by destruct (Z.ltb_spec (cm_max_time l) (cm_min_time c)); [|lia].
Qed.

Lemma before_snoc pre l c :
  StronglySorted before (pre ++ [l]) -> before l c -> by_start l c -> StronglySorted before ((pre ++ [l]) ++ [c]).
Proof.
  intros Hs Hb Hm. apply StronglySorted_app_2; [|done|by repeat constructor].
  intros a b Ha ->%list_elem_of_singleton. apply elem_of_app in Ha as [Ha|Ha]; [|by apply list_elem_of_singleton in Ha as ->].
  pose proof (StronglySorted_app_1_elem_of _ _ _ a l Hs Ha ltac:(by apply list_elem_of_singleton)) as H1.
  unfold before, by_start in *. lia.
Qed.

(** A property of metas that merging keeps. *)
Definition merge_keeps (P : ChunkMeta -> Prop) : Prop := forall l c m, P l -> P c -> made (cm_chunk m) (chunk_reads (cm_chunk m)) ->
  cm_min_time m = cm_min_time l -> cm_max_time m = Z.max (cm_max_time l) (cm_max_time c) -> P m.

Lemma overlap_loop_spec (P : ChunkMeta -> Prop) rs : merge_keeps P -> forall st pre q mpre l mrs,
  NoDup (pre ++ q :: rs) -> points st pre mpre -> st !! q = Some l -> points st rs mrs ->
  Forall meta_ok (mpre ++ l :: mrs) -> StronglySorted by_start (l :: mrs) ->
  StronglySorted before (mpre ++ [l]) -> Z.of_nat (total_samples (mpre ++ l :: mrs)) <= 65535 -> Forall P (mpre ++ l :: mrs) ->
  exists st' ps' ms', overlap_loop st (pre ++ [q]) rs = MOk st' ps' /\ points st' ps' ms' /\
    ps' `sublist_of` pre ++ q :: rs /\ Forall meta_ok ms' /\ StronglySorted before ms' /\
    contents ms' = contents (mpre ++ l :: mrs) /\ (total_samples ms' <= total_samples (mpre ++ l :: mrs))%nat /\ Forall P ms'.
Proof.
  intros HP. induction rs as [|p rs IH]; intros st pre q mpre l mrs Hnd Hpre Hq Hrs Hok Hst Hbf Htot HPl.
  { inversion Hrs; subst. exists st, (pre ++ [q]), (mpre ++ [l]). split_and!; try done.
    apply Forall2_app; [done|]. by repeat constructor. }
  pose proof HPl as [HPp [HPq HPr]%Forall_cons]%Forall_app.
  inversion Hrs as [|? c ? mrs' Hp Hrs']; subst.
  apply StronglySorted_inv in Hst as [Hst Hl]. apply Forall_cons in Hl as [Hlc Hl].
  apply Forall_app in Hok as [Hokp [Hokl [Hokc Hokr]%Forall_cons]%Forall_cons].
  cbn [overlap_loop]. destruct (Z_lt_le_dec (cm_max_time l) (cm_min_time c)) as [Ho|Ho].
  - rewrite (overlap_step_pushes st pre q p l c) by done.
    rewrite (cons_middle q pre (p :: rs)), (cons_middle l mpre (c :: mrs')), !app_assoc in *.
    apply IH; try done.
    + apply Forall2_app; [done|]. by repeat constructor.
    + rewrite Forall_app, Forall_app, !Forall_cons. done.
    + by apply before_snoc.
  - destruct (overlap_step_merges st pre q p l c) as (st' & l' & -> & -> & Hokl' & Hm & Hmx & Hmade & Hr); try done.
    { pose proof (total_two mpre l c mrs'). lia. }
    apply NoDup_app in Hnd as (Hn1 & Hn2 & Hn3). apply NoDup_cons in Hn3 as [Hq3 Hn3].
    apply NoDup_cons in Hn3 as [Hp3 Hn3]. apply not_elem_of_cons in Hq3 as [Hqp Hq3].
    destruct (IH (<[q := l']> st) pre q mpre l' mrs') as (st2 & ps & ms & E & Hpt & Hsub & Hm2 & Hs2 & Hc & Htt & HP2).
    + apply NoDup_app. split_and!; [done| |by constructor].
      intros x Hx. specialize (Hn2 x Hx). rewrite !not_elem_of_cons in *. tauto.
    + apply points_insert; [|done]. intros Hx. apply (Hn2 q Hx). by left.
    + apply list_lookup_insert_eq, lookup_lt_is_Some_1. eauto.
    + by apply points_insert.
    + rewrite Forall_app, !Forall_cons. done.
    + apply StronglySorted_inv in Hst as [Hst _]. constructor; [done|]. unfold by_start in *. by rewrite Hm.
    + apply StronglySorted_app in Hbf as (Hb1 & Hb2 & _). apply StronglySorted_app_2; [|done|by repeat constructor].
      intros a b Ha ->%list_elem_of_singleton. unfold before. rewrite Hm.
      apply Hb1; [done|by apply list_elem_of_singleton].
    + pose proof (total_merged mpre l c l' mrs') as Ht. rewrite Hr in Ht.
      specialize (Ht (merge_samples_length _ _)). lia.
    + apply Forall_app. split; [done|]. apply Forall_cons. apply Forall_cons in HPr as [HPc HPr]. split; [by apply (HP l c)|done].
    + exists st2, ps, ms. split_and!; try done.
      * etransitivity; [exact Hsub|]. apply sublist_app; [done|]. apply sublist_skip. by apply sublist_cons.
      * rewrite Hc. apply contents_merged. rewrite Hr.
        destruct Hokl as (_ & _ & ? & _), Hokc as (_ & _ & ? & _). by apply merge_samples_map.
      * pose proof (total_merged mpre l c l' mrs') as Ht. rewrite Hr in Ht. specialize (Ht (merge_samples_length _ _)). lia.
Qed.

Lemma merge_overlapping_spec (P : ChunkMeta -> Prop) st chunks ms : merge_keeps P ->
  NoDup chunks -> points st chunks ms -> Forall meta_ok ms -> StronglySorted by_start ms ->
  Z.of_nat (total_samples ms) <= 65535 -> Forall P ms ->
  exists st' ps' ms', merge_overlapping_chunks st chunks = MOk st' ps' /\ points st' ps' ms' /\
    ps' `sublist_of` chunks /\ Forall meta_ok ms' /\ StronglySorted before ms' /\
    contents ms' = contents ms /\ (total_samples ms' <= total_samples ms)%nat /\ Forall P ms'.
Proof.
  intros HP Hnd Hp Hok Hs Ht HPs.
  destruct Hp as [|p m ps ms Hpm Hp]; [exists st, [], []; by repeat split; constructor|].
  destruct Hp as [|p2 m2 ps ms Hpm2 Hp].
  { exists st, [p], [m]. split_and!; try done; by repeat constructor. }
  apply (overlap_loop_spec P (p2 :: ps) HP st [] p [] m (m2 :: ms)); try done; by repeat constructor.
Qed.

(** C27.  [merge_overlapping_chunks] on distinct chunks sorted by their first
    time, each readable and within its bounds, with 65535 samples in all at
    most: it succeeds, the chunks it
    returns are readable, lie within their bounds, follow each other without
    overlap, and together hold every sample of the input, the later chunk's
    where two have the same timestamp. *)
Theorem overlapping_chunks_merged st chunks ms :
  NoDup chunks -> points st chunks ms -> Forall meta_ok ms -> StronglySorted by_start ms ->
  Z.of_nat (total_samples ms) <= 65535 ->
  exists st' ps' ms', merge_overlapping_chunks st chunks = MOk st' ps' /\ points st' ps' ms' /\
    ps' `sublist_of` chunks /\ Forall meta_ok ms' /\ StronglySorted before ms' /\
    contents ms' = contents ms.
Proof.
  intros Hnd Hp Hok Hs Ht. destruct (merge_overlapping_spec (fun _ => True) st chunks ms) as (st' & ps' & ms' & H); try done; [by apply Forall_true|].
  exists st', ps', ms'. by destruct_and! H.
Qed.

End Chunks.

(** ** Witnesses *)

(** A chunk of some samples. *)
Definition chunk_of `{PastEnd} (l : list (Z * Z)) : XORChunk :=
  match append_batch xor_chunk l with Some c => c | None => xor_chunk end.

Lemma chunk_of_reads `{PastEnd} l :
  Forall sample_ok l -> Z.of_nat (length l) <= 65535 ->
  chunk_reads (chunk_of l) = l /\ chunk_fails (chunk_of l) = false.
Proof.
  intros Hok Hl. destruct (append_batch_holds xor_chunk _ [] _ _ l (fresh_holds 0 ltac:(lia)) eq_refl Hok Hl)
    as (c & a & w & E & Hm & Hh).
  unfold chunk_of. rewrite E. unfold chunk_reads, chunk_fails, chunk_iterator. rewrite Hm.
  destruct (holds_run _ _ _ _ _ true Hh) as [E1 (_ & _ & _ & _ & E2 & _)]. done.
Qed.

Lemma meta_of_ok `{PastEnd} r l mn mx :
  Forall sample_ok l -> Z.of_nat (length l) <= 65535 -> ascending l ->
  Forall (fun s => mn <= s.1 <= mx) l -> meta_ok (mkChunkMeta r (chunk_of l) mn mx).
Proof.
  intros Hok Hl Ha Hb. destruct (chunk_of_reads l Hok Hl) as [Er Ef]. unfold meta_ok. simpl. by rewrite Er.
Qed.

Lemma delete_iterator_filters_witness :
  let pe : PastEnd := fun _ => 9 in
  let c := chunk_of [(10, 1); (20, 2); (30, 3); (40, 4)] in
  exists d, del_drain 5 (mkDeleteIterator (chunk_iterator c) [mkInterval 15 20; mkInterval 35 60])
            = Some (filter (fun s => ~ covers [mkInterval 15 20; mkInterval 35 60] s.1)
                      [(10, 1); (20, 2); (30, 3); (40, 4)], d) /\
    del_error d = ci_error (run (chunk_iterator c)).2.
Proof.
  intros pe c.
  apply (delete_iterator_filters (chunk_iterator c) [(10, 1); (20, 2); (30, 3); (40, 4)]
           (run (chunk_iterator c)).2 [mkInterval 15 20; mkInterval 35 60] 5).
  - replace [(10, 1); (20, 2); (30, 3); (40, 4)] with (chunk_reads c) by (vm_compute; reflexivity).
    apply chunk_visits.
  - repeat constructor; simpl; lia.
  - repeat constructor; vm_compute; congruence.
  - repeat constructor; vm_compute; congruence.
  - simpl. lia.
Defined.

Lemma delete_iterator_ignores_recent_witness :
  let pe : PastEnd := fun _ => 9 in
  let c := chunk_of [(1700000000000, 1); (1700000000100, 2)] in
  exists d, del_drain 3 (mkDeleteIterator (chunk_iterator c) [mkInterval 1600000000000 1800000000000])
            = Some ([(1700000000000, 1); (1700000000100, 2)], d).
Proof.
  intros pe c.
  apply (delete_iterator_ignores_recent (chunk_iterator c) [(1700000000000, 1); (1700000000100, 2)]
           (run (chunk_iterator c)).2 [mkInterval 1600000000000 1800000000000] 3).
  - replace [(1700000000000, 1); (1700000000100, 2)] with (chunk_reads c) by (vm_compute; reflexivity).
    apply chunk_visits.
  - repeat constructor; vm_compute; congruence.
  - simpl. lia.
Defined.

Lemma merge_chunks_second_wins_witness :
  let pe : PastEnd := fun _ => 9 in
  let c1 := chunk_of [(10, 1); (20, 2); (30, 3)] in
  let c2 := chunk_of [(20, 7); (25, 8)] in
  exists c, merge_chunks c1 c2 = Some (inr c) /\
    chunk_fails c = false /\ ascending (chunk_reads c) /\
    sample_map (chunk_reads c) = sample_map (chunk_reads c2) ∪ sample_map (chunk_reads c1).
Proof.
  intros pe c1 c2. pose proof (merge_chunks_second_wins c1 c2) as T.
  assert (chunk_fails c1 = false /\ chunk_fails c2 = false) as [E1 E2] by (vm_compute; done).
  assert (R1 : chunk_reads c1 = [(10, 1); (20, 2); (30, 3)]) by (vm_compute; reflexivity).
  assert (R2 : chunk_reads c2 = [(20, 7); (25, 8)]) by (vm_compute; reflexivity).
  rewrite E1, E2, R1, R2 in T. rewrite R1, R2.
  apply T; repeat constructor; vm_compute; congruence.
Defined.

Lemma overlapping_chunks_merged_witness :
  let pe : PastEnd := fun _ => 9 in
  let ms := [mkChunkMeta 0 (chunk_of [(10, 1); (20, 2)]) 10 20;
             mkChunkMeta 1 (chunk_of [(15, 5); (20, 6)]) 15 20;
             mkChunkMeta 2 (chunk_of [(40, 4)]) 40 40] in
  exists st' ps' ms', merge_overlapping_chunks ms [0%nat; 1%nat; 2%nat] = MOk st' ps' /\ points st' ps' ms' /\
    ps' `sublist_of` [0%nat; 1%nat; 2%nat] /\ Forall meta_ok ms' /\ StronglySorted before ms' /\
    contents ms' = contents ms.
Proof.
  intros pe ms. apply (overlapping_chunks_merged ms [0%nat; 1%nat; 2%nat] ms).
  - apply NoDup_ListNoDup. repeat constructor; simpl; lia.
  - by repeat constructor.
  - repeat (apply Forall_cons_2; [apply meta_of_ok; [|vm_compute; congruence|..];
      repeat constructor; vm_compute; congruence|]). apply Forall_nil_2.
  - repeat constructor; vm_compute; congruence.
  - vm_compute; congruence.
Defined.

Example overlapping_chunks_pointers :
  let pe : PastEnd := fun _ => 9 in
  let ms := [mkChunkMeta 0 (chunk_of [(10, 1); (20, 2)]) 10 20;
             mkChunkMeta 1 (chunk_of [(15, 5); (20, 6)]) 15 20;
             mkChunkMeta 2 (chunk_of [(40, 4)]) 40 40] in
  match merge_overlapping_chunks ms [0%nat; 1%nat; 2%nat] with
  | MOk st ps => (ps, map (fun m => chunk_reads (cm_chunk m)) st)
  | _ => ([], [])
  end = ([0%nat; 2%nat], [[(10, 1); (15, 5); (20, 6)]; [(15, 5); (20, 6)]; [(40, 4)]]).
Proof. vm_compute. reflexivity. Qed.
