(* ===== verification/Postings.v ===== *)
(** index/: sorted lists of series ids and the iterators that combine them.

    [Postings] is [PostingsInterface]: [next], [seek], [at].  A call that needs
    another iterator's calls in a loop returns [None] when the loop runs out of
    rounds; [p_left] bounds the ids an iterator still has and only serves to
    give the loops enough rounds.

    What an implementation promises is the class [PostingsSpec]: an iterator is
    [ahead] of a list it has not started, or [on] an id with a list behind it;
    the list and vector postings, the intersection, the union and the
    difference are instances, the last three over any instance. *)
From Stdlib Require Import ZArith Lia Bool Sorting.Sorted.
From stdpp Require Import base list numbers option sorting sets.
From S2P Require Import Prelude Endian.

Class Postings (P : Type) := {
  p_next : P -> option (bool * P);
  p_seek : Z -> P -> option (bool * P);
  p_at : P -> Z;
  p_left : P -> nat }.

(** [expand_postings]: [while (p->next()) d.push_back(p->at())] *)
Fixpoint expand_loop `{Postings P} (rounds : nat) (p : P) : option (list Z) :=
  match rounds with
  | O => None
  | S rounds =>
    '(ok, p) ← p_next p;
    if (ok : bool) then l ← expand_loop rounds p; Some (p_at p :: l) else Some []
  end.

Definition expand_postings `{Postings P} (p : P) : option (list Z) := expand_loop (S (p_left p)) p.

(** ** Lists in memory *)

Fixpoint below (v : Z) (l : list Z) : list Z :=
  match l with
  | [] => []
  | x :: l => if x <? v then x :: below v l else []
  end.

Fixpoint from (v : Z) (l : list Z) : list Z :=
  match l with
  | [] => []
  | x :: l' => if x <? v then from v l' else l
  end.

(** [std::lower_bound] over [l] from position [i]: the position of the first
    element not below [v] ([length l] if there is none). *)
Definition lower_bound (l : list Z) (i : nat) (v : Z) : nat := (i + length (below v (drop i l)))%nat.

(** [*(begin + i)]; [at] before [next] is the caller's error. *)
Definition elem (l : list Z) (i : Z) : Z := default 0 (l !! Z.to_nat i).

(** The body [seek] of every list-like class shares: the cursor it leaves. *)
Definition list_seek (l : list Z) (i v : Z) : bool * Z :=
  let n := Z.of_nat (length l) in
  if (n =? 0) || (n <=? i) then (false, i)
  else
    let i := if i <? 0 then 0 else i in
    if v <=? elem l i then (true, i)
    else
      let it := Z.of_nat (lower_bound l (Z.to_nat i) v) in
      if it =? n then (false, n) else (true, it).

Record ListPostings := mkListPostings { lp_list : list Z; lp_index : Z }.
Definition list_postings (l : list Z) : ListPostings := mkListPostings l (-1).

#[export] Instance ListPostings_postings : Postings ListPostings := {
  p_next p :=
    let i := lp_index p + 1 in
    Some (negb (Z.of_nat (length (lp_list p)) <=? i), mkListPostings (lp_list p) i);
  p_seek v p :=
    let '(ok, i) := list_seek (lp_list p) (lp_index p) v in Some (ok, mkListPostings (lp_list p) i);
  p_at p := elem (lp_list p) (lp_index p);
  p_left p := (length (lp_list p) - Z.to_nat (lp_index p))%nat }.

(** [VectorPostings] (and the pointer, shared and deque variants of it): its
    [next] stays on the last id. *)
Record VectorPostings := mkVectorPostings { vp_list : list Z; vp_i : Z }.
Definition vector_postings (l : list Z) : VectorPostings := mkVectorPostings l (-1).

#[export] Instance VectorPostings_postings : Postings VectorPostings := {
  p_next p :=
    Some (if Z.of_nat (length (vp_list p)) - 1 <=? vp_i p then (false, p)
          else (true, mkVectorPostings (vp_list p) (vp_i p + 1)));
  p_seek v p :=
    let '(ok, i) := list_seek (vp_list p) (vp_i p) v in Some (ok, mkVectorPostings (vp_list p) i);
  p_at p := elem (vp_list p) (vp_i p);
  p_left p := (length (vp_list p) - Z.to_nat (vp_i p))%nat }.

Inductive EmptyPostings := empty_postings.

#[export] Instance EmptyPostings_postings : Postings EmptyPostings := {
  p_next p := Some (false, p);
  p_seek v p := Some (false, p);
  p_at p := 0;
  p_left p := O }.

(** [IncrementPostings(begin, end)]: an [int] cursor. *)
Record IncrementPostings := mkIncrementPostings { ip_begin : Z; ip_i : Z; ip_end : Z }.
Definition increment_postings (b e : Z) : IncrementPostings := mkIncrementPostings b (b - 1) e.

#[export] Instance IncrementPostings_postings : Postings IncrementPostings := {
  p_next p :=
    let i := ip_i p + 1 in Some (negb (i =? ip_end p), mkIncrementPostings (ip_begin p) i (ip_end p));
  p_seek v p :=
    Some (if (v <? u64 (ip_begin p)) || (u64 (ip_end p) <=? v) then (false, p)
          else (true, mkIncrementPostings (ip_begin p) (s32 v) (ip_end p)));
  p_at p := u64 (ip_i p);
  p_left p := Z.to_nat (ip_end p - ip_i p) }.

(** Virtual dispatch between two classes. *)
#[export] Instance sum_postings `{Postings A} `{Postings B} : Postings (A + B) := {
  p_next p := match p with
              | inl a => '(ok, a) ← p_next a; Some (ok, inl a)
              | inr b => '(ok, b) ← p_next b; Some (ok, inr b)
              end;
  p_seek v p := match p with
                | inl a => '(ok, a) ← p_seek v a; Some (ok, inl a)
                | inr b => '(ok, b) ← p_seek v b; Some (ok, inr b)
                end;
  p_at p := match p with inl a => p_at a | inr b => p_at b end;
  p_left p := match p with inl a => p_left a | inr b => p_left b end }.

(** ** Intersection *)

Section Intersect.
Context `{Postings P}.

(** One pass of a [for] loop over the iterators: [move] each of them, stop at
    the first that has nothing left, keep the largest id seen and whether none
    was above [max]. *)
Fixpoint pass (move : Z -> P -> option (bool * P)) (max : Z) (find : bool) (ps : list P)
    : option (bool * list P * Z * bool) :=
  match ps with
  | [] => Some (true, [], max, find)
  | p :: rest =>
    '(has_next, p) ← move max p;
    if negb has_next then Some (false, p :: rest, max, find)
    else
      let '(max, find) := if max <? p_at p then (p_at p, false) else (max, find) in
      '(ok, rest, max, find) ← pass move max find rest;
      Some (ok, p :: rest, max, find)
  end.

(** [recursive_next]: [while (true)] *)
Fixpoint recursive_next (rounds : nat) (max : Z) (ps : list P) : option (bool * list P) :=
  match rounds with
  | O => None
  | S rounds =>
    '(ok, ps, max, find) ← pass p_seek max true ps;
    if negb ok then Some (false, ps)
    else if (find : bool) then Some (true, ps)
    else recursive_next rounds max ps
  end.

(** One round for each id the iterators hold, and one more. *)
Definition intersect_rounds (ps : list P) : nat := S (sum_list (p_left <$> ps)).

Definition intersect_next (ps : list P) : option (bool * list P) :=
  '(ok, ps', max, _) ← pass (fun _ => p_next) 0 true ps;
  if negb ok then Some (false, ps') else recursive_next (intersect_rounds ps) max ps'.

Definition intersect_seek (v : Z) (ps : list P) : option (bool * list P) :=
  '(ok, ps', max, _) ← pass (fun _ => p_seek v) 0 true ps;
  if negb ok then Some (false, ps') else recursive_next (intersect_rounds ps) max ps'.

Definition intersect_at (ps : list P) : Z := match ps with [] => 0 | p :: _ => p_at p end.

End Intersect.

Record IntersectPostings (P : Type) := mkIntersect { ip_ps : list P }.
Arguments mkIntersect {P}.
Arguments ip_ps {P}.

#[export] Instance IntersectPostings_postings `{Postings P} : Postings (IntersectPostings P) := {
  p_next p := '(ok, ps) ← intersect_next (ip_ps p); Some (ok, mkIntersect ps);
  p_seek v p := '(ok, ps) ← intersect_seek v (ip_ps p); Some (ok, mkIntersect ps);
  p_at p := intersect_at (ip_ps p);
  p_left p := match ip_ps p with [] => O | p :: _ => p_left p end }.

(** [intersect_u]: no iterator, one, or several. *)
Definition intersect_u {P} (l : list P) : EmptyPostings + (P + IntersectPostings P) :=
  match l with
  | [] => inl empty_postings
  | [p] => inr (inl p)
  | _ => inr (inr (mkIntersect l))
  end.

(** ** Union *)

(** The elements of a [std::set<uint64_t>] into which [l] was inserted. *)
Definition set_insert (x : Z) (s : list Z) : list Z := below x s ++ x :: (filter (fun y => y <> x) (from x s)).
Definition set_of (l : list Z) : list Z := foldr set_insert [] l.

Fixpoint expand_all `{Postings P} (ps : list P) : option (list Z) :=
  match ps with
  | [] => Some []
  | p :: ps => l ← expand_postings p; k ← expand_all ps; Some (l ++ k)
  end.

(** [UnionPostings]: everything is read at construction. *)
Definition union_postings `{Postings P} (ps : list P) : option ListPostings :=
  l ← expand_all ps; Some (list_postings (set_of l)).

(** ** Difference *)

Record SubtractionPostings (F D : Type) := mkSub {
  sb_full : F;
  sb_drop : D;
  full_ok : bool;
  drop_ok : bool;
  sb_cur : Z;
  initialized : bool }.
Arguments mkSub {F D}.
Arguments sb_full {F D}.
Arguments sb_drop {F D}.
Arguments full_ok {F D}.
Arguments drop_ok {F D}.
Arguments sb_cur {F D}.
Arguments initialized {F D}.

(** The constructor leaves [cur] and the flags uninitialised: [junk]. *)
Definition subtraction {F D} (junk : Z) (full : F) (drop : D) : SubtractionPostings F D :=
  mkSub full drop false false junk false.

Section Subtract.
Context `{Postings F} `{Postings D}.

Definition advance_full (s : SubtractionPostings F D) (cur : Z) : option (SubtractionPostings F D) :=
  '(ok, f) ← p_next (sb_full s);
  Some (mkSub f (sb_drop s) ok (drop_ok s) cur (initialized s)).

(** [while (true)] of [next] *)
Fixpoint sub_loop (rounds : nat) (s : SubtractionPostings F D) : option (bool * SubtractionPostings F D) :=
  match rounds with
  | O => None
  | S rounds =>
    if negb (full_ok s) then Some (false, s)
    else
      let full_cur := p_at (sb_full s) in
      if negb (drop_ok s) then s ← advance_full s full_cur; Some (true, s)
      else
        let drop_cur := p_at (sb_drop s) in
        if full_cur <? drop_cur then s ← advance_full s full_cur; Some (true, s)
        else if drop_cur <? full_cur then
          '(ok, d) ← p_seek full_cur (sb_drop s);
          sub_loop rounds (mkSub (sb_full s) d (full_ok s) ok (sb_cur s) (initialized s))
        else s ← advance_full s (sb_cur s); sub_loop rounds s
  end.

(** The loop seeks [drop] at most once for each id of [full]. *)
Definition sub_rounds (s : SubtractionPostings F D) : nat := (2 * p_left (sb_full s) + 2)%nat.

Definition sub_next (s : SubtractionPostings F D) : option (bool * SubtractionPostings F D) :=
  if initialized s then sub_loop (sub_rounds s) s
  else
    '(fok, f) ← p_next (sb_full s);
    '(dok, d) ← p_next (sb_drop s);
    sub_loop (sub_rounds s) (mkSub f d fok dok (sb_cur s) true).

Definition sub_seek (v : Z) (s : SubtractionPostings F D) : option (bool * SubtractionPostings F D) :=
  if v <=? sb_cur s then Some (true, s)
  else
    '(fok, f) ← p_seek v (sb_full s);
    '(dok, d) ← p_seek v (sb_drop s);
    sub_next (mkSub f d fok dok (sb_cur s) true).

End Subtract.

#[export] Instance SubtractionPostings_postings `{Postings F} `{Postings D} :
    Postings (SubtractionPostings F D) := {
  p_next := sub_next;
  p_seek := sub_seek;
  p_at := sb_cur;
  p_left s := S (p_left (sb_full s)) }.

(** ** What an iterator promises *)

(** Ids in ascending order, as [uint64_t]. *)
Definition asc (l : list Z) : Prop := StronglySorted Z.lt l /\ Forall (fun x => 0 <= x) l.

(** A call moved to the first id of [l], or found that [l] is empty. *)
Definition lands {P} (on : P -> Z -> list Z -> Prop) (r : option (bool * P)) (l : list Z) : Prop :=
  exists p, r = Some (negb (bool_decide (l = [])), p) /\ match l with [] => True | y :: l => on p y l end.

Class PostingsSpec (P : Type) `{Postings P} := {
  ahead : P -> list Z -> Prop;
  on : P -> Z -> list Z -> Prop;
  ahead_asc p l : ahead p l -> asc l;
  on_asc p x l : on p x l -> asc (x :: l);
  ahead_left p l : ahead p l -> (length l <= p_left p)%nat;
  on_left p x l : on p x l -> (S (length l) <= p_left p)%nat;
  on_at p x l : on p x l -> p_at p = x;
  next_ahead p l : ahead p l -> lands on (p_next p) l;
  next_on p x l : on p x l -> lands on (p_next p) l;
  seek_on v p x l : on p x l -> lands on (p_seek v p) (from v (x :: l)) }.

(** What the difference needs besides: an iterator that ran out stays out, for
    ids above the last it was on. *)
Class PostingsCloses (P : Type) `{PostingsSpec P} := {
  ended : P -> Z -> Prop;
  next_ahead_ended p : ahead p [] -> exists p', p_next p = Some (false, p') /\ ended p' 0;
  next_on_ended p x : on p x [] -> exists p', p_next p = Some (false, p') /\ ended p' (x + 1);
  seek_on_ended v p x l : on p x l -> from v (x :: l) = [] ->
    exists p', p_seek v p = Some (false, p') /\ ended p' v;
  seek_ended v p m : ended p m -> m <= v -> exists p', p_seek v p = Some (false, p') /\ ended p' v }.

(** *** Ascending lists *)

Lemma asc_cons x l : asc (x :: l) <-> 0 <= x /\ Forall (Z.lt x) l /\ asc l.
Proof.
  unfold asc. split.
  - intros [[H1 H2]%StronglySorted_inv [H3 H4]%Forall_cons]. done.
  - intros (H1 & H2 & H3 & H4). split; by constructor.
Qed.

Lemma asc_nil : asc [].
Proof. by split; constructor. Qed.

Lemma from_elem v l z : asc l -> z ∈ from v l <-> z ∈ l /\ v <= z.
Proof.
  induction l as [|x l IH]; intros Ha; simpl; [rewrite !elem_of_nil; tauto|].
  apply asc_cons in Ha as (_ & Hx & Ha). specialize (IH Ha).
  destruct (Z.ltb_spec x v).
  - rewrite IH, elem_of_cons. split; [tauto|]. intros [[->|?] ?]; [lia|done].
  - rewrite elem_of_cons. split; [|tauto]. intros [->|Hz]; [split; [by left|done]|].
    split; [by right|]. rewrite Forall_forall in Hx. specialize (Hx z Hz). lia.
Qed.

Lemma from_asc v l : asc l -> asc (from v l).
Proof.
  induction l as [|x l IH]; intros Ha; simpl; [done|].
  destruct (x <? v); [|done]. apply asc_cons in Ha as (_ & _ & Ha). by apply IH.
Qed.

Lemma below_from v l : below v l ++ from v l = l.
Proof. induction l as [|x l IH]; simpl; [done|]. destruct (x <? v); simpl; [by rewrite IH|done]. Qed.

Lemma from_length v l : (length (from v l) <= length l)%nat.
Proof. rewrite <- (below_from v l) at 2. rewrite length_app. lia. Qed.

Lemma from_head v l y r : asc l -> from v l = y :: r -> v <= y /\ y ∈ l /\ Forall (Z.lt y) r.
Proof.
  intros Ha E. assert (Hy : y ∈ from v l) by (rewrite E; by left).
  apply from_elem in Hy as [Hy1 Hy2]; [|done]. split; [done|]. split; [done|].
  apply (from_asc v) in Ha. rewrite E in Ha. by apply asc_cons in Ha as (_ & ? & _).
Qed.

Lemma from_all v l : asc l -> Forall (fun x => v <= x) l -> from v l = l.
Proof. intros _ Hl. destruct Hl as [|x l Hx Hl]; [done|]. simpl. destruct (Z.ltb_spec x v); [lia|done]. Qed.

Lemma asc_NoDup l : asc l -> NoDup l.
Proof.
  induction l as [|x l IH]; intros Ha; [constructor|]. apply asc_cons in Ha as (_ & H1 & H2).
  constructor; [|by apply IH]. intros Hx. rewrite Forall_forall in H1. specialize (H1 x Hx). lia.
Qed.

Lemma asc_unique l k : asc l -> asc k -> (forall z, z ∈ l <-> z ∈ k) -> l = k.
Proof.
  intros Hl Hk E. apply (StronglySorted_unique_strong Z.lt); [|apply Hl|apply Hk|].
  - intros x y _ _ ??. lia.
  - by apply NoDup_Permutation; [apply asc_NoDup..|].
Qed.

Lemma asc_filter (Q : Z -> Prop) `{forall z, Decision (Q z)} l : asc l -> asc (filter Q l).
Proof.
  induction l as [|x l IH]; intros Ha; [done|]. apply asc_cons in Ha as (H1 & H2 & H3).
  rewrite filter_cons. case_decide; [|by apply IH]. apply asc_cons. split; [done|]. split; [|by apply IH].
  rewrite Forall_forall in *. intros z [_ Hz]%list_elem_of_filter. by apply H2.
Qed.

(** *** Lists and vectors *)

Lemma elem_drop l i x r : 0 <= i -> drop (Z.to_nat i) l = x :: r -> elem l i = x.
Proof.
  intros Hi E. unfold elem. rewrite <- (Nat.add_0_r (Z.to_nat i)), <- lookup_drop, E. done.
Qed.

Lemma drop_next (l : list Z) i x r : 0 <= i -> drop (Z.to_nat i) l = x :: r -> drop (Z.to_nat (i + 1)) l = r.
Proof.
  intros Hi E. replace (Z.to_nat (i + 1)) with (Z.to_nat i + 1)%nat by lia.
  by rewrite <- drop_drop, E.
Qed.

Lemma drop_length_nil {A} i (l : list A) : drop i l = [] <-> (length l <= i)%nat.
Proof.
  split; [|apply drop_ge]. intros E. apply (f_equal length) in E. rewrite length_drop in E. simpl in E. lia.
Qed.

(** [seek] with the cursor on an element. *)
Lemma list_seek_spec l i v x r :
  0 <= i -> asc l -> drop (Z.to_nat i) l = x :: r ->
  match from v (x :: r) with
  | [] => list_seek l i v = (false, Z.of_nat (length l))
  | y :: k => exists j, list_seek l i v = (true, j) /\ 0 <= j /\ drop (Z.to_nat j) l = y :: k
  end.
Proof.
  intros Hi Ha E. assert (Hn : (Z.to_nat i < length l)%nat).
  { destruct (decide (length l <= Z.to_nat i)%nat); [|lia]. rewrite drop_ge in E by done. done. }
  unfold list_seek. destruct (Z.eqb_spec (Z.of_nat (length l)) 0); [lia|].
  destruct (Z.leb_spec (Z.of_nat (length l)) i); [lia|]. destruct (Z.ltb_spec i 0); [lia|]. cbn [orb].
  rewrite (elem_drop l i x r) by done. simpl from. destruct (Z.leb_spec v x).
  { destruct (Z.ltb_spec x v); [lia|]. by exists i. }
  destruct (Z.ltb_spec x v); [|lia].
  assert (El : drop (lower_bound l (Z.to_nat i) v) l = from v r).
  { unfold lower_bound. rewrite <- drop_drop, E. simpl. destruct (Z.ltb_spec x v); [|lia]. simpl.
    rewrite <- (below_from v r) at 2. by rewrite drop_app_length. }
  destruct (from v r) as [|y k].
  - apply drop_length_nil in El.
    assert (lower_bound l (Z.to_nat i) v <= length l)%nat.
    { unfold lower_bound. rewrite E. pose proof (f_equal length (below_from v (x :: r))) as Hb.
      rewrite length_app in Hb. pose proof (f_equal length E) as Hd. rewrite length_drop in Hd. simpl in *. lia. }
    destruct (Z.eqb_spec (Z.of_nat (lower_bound l (Z.to_nat i) v)) (Z.of_nat (length l))); [done|lia].
  - exists (Z.of_nat (lower_bound l (Z.to_nat i) v)).
    destruct (Z.eqb_spec (Z.of_nat (lower_bound l (Z.to_nat i) v)) (Z.of_nat (length l))) as [Ee|].
    { apply Nat2Z.inj in Ee. rewrite drop_ge in El by lia. done. }
    rewrite Nat2Z.id. split_and!; [done|lia|done].
Qed.

Lemma list_seek_out l i v : Z.of_nat (length l) <= i -> list_seek l i v = (false, i).
Proof. intros Hi. unfold list_seek. destruct (Z.leb_spec (Z.of_nat (length l)) i); [|lia]. by rewrite orb_true_r. Qed.

Definition cursor_on (l : list Z) (i x : Z) (r : list Z) : Prop :=
  asc l /\ 0 <= i /\ drop (Z.to_nat i) l = x :: r.

Lemma cursor_on_asc l i x r : cursor_on l i x r -> asc (x :: r).
Proof.
  intros (Ha & _ & E). rewrite <- E. clear E. generalize (Z.to_nat i). intros n. revert n.
  induction l as [|y l IH]; intros n; [by rewrite drop_nil|]. destruct n; [done|].
  apply asc_cons in Ha as (_ & _ & Ha). by apply IH.
Qed.

Lemma cursor_on_length l i x r : cursor_on l i x r -> (length l - Z.to_nat i = S (length r))%nat.
Proof. intros (_ & _ & E). apply (f_equal length) in E. rewrite length_drop in E. done. Qed.

(** Moving the cursor of a list from before it, or from an element, to the
    next one. *)
Lemma cursor_first l : asc l -> match l with [] => True | y :: r => cursor_on l 0 y r end.
Proof. by destruct l. Qed.

Lemma cursor_next l i x r :
  cursor_on l i x r -> match r with [] => True | y :: k => cursor_on l (i + 1) y k end.
Proof.
  intros (Ha & Hi & E). apply (drop_next l i x r) in E; [|done]. destruct r; [done|].
  split_and!; [done|lia|done].
Qed.

Lemma cursor_more l i x r :
  cursor_on l i x r -> (Z.of_nat (length l) <=? i + 1) = bool_decide (r = []).
Proof.
  intros Hc. pose proof (cursor_on_length _ _ _ _ Hc). destruct Hc as (_ & Hi & _).
  destruct r; simpl in *; destruct (Z.leb_spec (Z.of_nat (length l)) (i + 1)); done || lia.
Qed.

Lemma cursor_seek v l i x r :
  cursor_on l i x r ->
  exists j, list_seek l i v = (negb (bool_decide (from v (x :: r) = [])), j) /\
    match from v (x :: r) with [] => j = Z.of_nat (length l) | y :: k => cursor_on l j y k end.
Proof.
  intros (Ha & Hi & E). pose proof (list_seek_spec l i v x r Hi Ha E) as Hs.
  destruct (from v (x :: r)) as [|y k]; [eauto|]. destruct Hs as (j & -> & Hj & Ej). by exists j.
Qed.

#[export] Instance ListPostings_spec : PostingsSpec ListPostings.
Proof.
  refine {| ahead p l := lp_list p = l /\ lp_index p = -1 /\ asc l;
            on p x r := cursor_on (lp_list p) (lp_index p) x r |}.
  - by intros p l (_ & _ & ?).
  - intros p x l H. by eapply cursor_on_asc.
  - intros p l (<- & Hi & _). simpl. rewrite Hi. simpl. lia.
  - intros p x l H. simpl. by rewrite (cursor_on_length _ _ _ _ H).
  - intros p x l (_ & Hi & E). by apply (elem_drop _ _ x l).
  - intros [k i] l (El & Ei & Ha). simpl in El, Ei. subst k i. eexists. split; [by destruct l|].
    by apply cursor_first in Ha; destruct l.
  - intros p x l H. eexists. split; [simpl; by rewrite (cursor_more _ _ _ _ H)|].
    apply cursor_next in H. by destruct l.
  - intros v p x l H. cbn [p_seek ListPostings_postings]. destruct (cursor_seek v _ _ _ _ H) as (j & -> & Hj). eexists.
    split; [done|]. by destruct (from v (x :: l)).
Defined.

#[export] Instance ListPostings_closes : PostingsCloses ListPostings.
Proof.
  refine {| ended p m := Z.of_nat (length (lp_list p)) <= lp_index p |}.
  - intros [l i] (El & Ei & _). simpl in *. subst. eexists. split; [done|]. simpl. lia.
  - intros p x H. eexists. split; [simpl; by rewrite (cursor_more _ _ _ _ H)|].
    pose proof (cursor_more _ _ _ _ H) as E. simpl in *. apply Z.leb_le. by rewrite E.
  - intros v p x l H E. cbn [p_seek ListPostings_postings]. destruct (cursor_seek v _ _ _ _ H) as (j & -> & Hj). rewrite E in *.
    eexists. split; [done|]. simpl. lia.
  - intros v p m H _. simpl. rewrite list_seek_out by done. eexists. by split.
Defined.

#[export] Instance VectorPostings_spec : PostingsSpec VectorPostings.
Proof.
  refine {| ahead p l := vp_list p = l /\ vp_i p = -1 /\ asc l;
            on p x r := cursor_on (vp_list p) (vp_i p) x r |}.
  - by intros p l (_ & _ & ?).
  - intros p x l H. by eapply cursor_on_asc.
  - intros p l (<- & Hi & _). simpl. rewrite Hi. simpl. lia.
  - intros p x l H. simpl. by rewrite (cursor_on_length _ _ _ _ H).
  - intros p x l (_ & Hi & E). by apply (elem_drop _ _ x l).
  - intros [k i] l (El & Ei & Ha). simpl in El, Ei. subst k i. cbn [p_next VectorPostings_postings vp_list vp_i].
    apply cursor_first in Ha. destruct l; [by eexists|].
    exists (mkVectorPostings (z :: l) 0). split; [|exact Ha].
    destruct (Z.leb_spec (Z.of_nat (length (z :: l)) - 1) (-1)); [simpl in *; lia|done].
  - intros p x l H. pose proof (cursor_more _ _ _ _ H) as E. cbn [p_next VectorPostings_postings].
    replace (Z.of_nat (length (vp_list p)) - 1 <=? vp_i p) with (bool_decide (l = []))
      by (rewrite <- E; apply eq_true_iff_eq; rewrite !Z.leb_le; lia).
    apply cursor_next in H. destruct l; eexists; by split.
  - intros v p x l H. cbn [p_seek VectorPostings_postings]. destruct (cursor_seek v _ _ _ _ H) as (j & -> & Hj). eexists.
    split; [done|]. by destruct (from v (x :: l)).
Defined.

#[export] Instance EmptyPostings_spec : PostingsSpec EmptyPostings.
Proof.
  refine {| ahead p l := l = []; on p x l := False |}; try done.
  - intros p l ->. apply asc_nil.
  - intros p l ->. simpl. lia.
  - intros p l ->. by eexists.
Defined.

#[export] Instance sum_spec `{PostingsSpec A} `{PostingsSpec B} : PostingsSpec (A + B).
Proof.
  refine {| ahead p l := match p with inl a => ahead a l | inr b => ahead b l end;
            on p x l := match p with inl a => on a x l | inr b => on b x l end |}.
  - intros [a|b] l Hp; [exact (ahead_asc a l Hp)|exact (ahead_asc b l Hp)].
  - intros [a|b] x l Hp; [exact (on_asc a x l Hp)|exact (on_asc b x l Hp)].
  - intros [a|b] l Hp; [exact (ahead_left a l Hp)|exact (ahead_left b l Hp)].
  - intros [a|b] x l Hp; [exact (on_left a x l Hp)|exact (on_left b x l Hp)].
  - intros [a|b] x l Hp; [exact (on_at a x l Hp)|exact (on_at b x l Hp)].
  - intros [a|b] l Hp; apply next_ahead in Hp as (p' & E & Hp); simpl; rewrite E; eexists;
      (split; [done|]); by destruct l.
  - intros [a|b] x l Hp; apply next_on in Hp as (p' & E & Hp); simpl; rewrite E; eexists;
      (split; [done|]); by destruct l.
  - intros v [a|b] x l Hp; apply (seek_on v) in Hp as (p' & E & Hp); cbn [p_seek sum_postings]; rewrite E; eexists;
      (split; [done|]); by destruct (from v (x :: l)).
Defined.

(** Reading an iterator to its end gives its list. *)
Lemma expand_on `{PostingsSpec P} rounds : forall (p : P) x l,
  on p x l -> (length l < rounds)%nat -> expand_loop rounds p = Some l.
Proof.
  induction rounds as [|rounds IH]; intros p x l Hp Hr; [lia|]. cbn [expand_loop].
  apply next_on in Hp as (p' & -> & Hp). destruct l as [|y l]; [done|]. simpl in *.
  rewrite (IH p' y l) by (done || lia). simpl. by rewrite (on_at _ _ _ Hp).
Qed.

Lemma expand_ahead `{PostingsSpec P} (p : P) l : ahead p l -> expand_postings p = Some l.
Proof.
  intros Hp. pose proof (ahead_left _ _ Hp) as Hl. unfold expand_postings. cbn [expand_loop].
  apply next_ahead in Hp as (p' & -> & Hp). destruct l as [|y l]; [done|]. simpl in *.
  rewrite (expand_on _ p' y l) by (done || lia). simpl. by rewrite (on_at _ _ _ Hp).
Qed.

(** *** The intersection of lists *)

Definition common (ks : list (list Z)) (z : Z) : Prop := Forall (fun k => z ∈ k) ks.

#[export] Instance common_dec ks z : Decision (common ks z).
Proof. unfold common. apply _. Defined.

Definition inter (ks : list (list Z)) : list Z :=
  match ks with [] => [] | k :: ks => filter (common ks) k end.

Lemma inter_elem ks z : ks <> [] -> z ∈ inter ks <-> common ks z.
Proof.
  intros Hk. destruct ks as [|k ks]; [done|]. unfold inter, common. rewrite list_elem_of_filter, Forall_cons. tauto.
Qed.

Lemma inter_asc ks : Forall asc ks -> asc (inter ks).
Proof. intros Hk. destruct Hk as [|k ks Hk _]; [apply asc_nil|]. by apply asc_filter. Qed.

(** Ids above [m]. *)
Definition above (m : Z) (k : list Z) : nat := length (filter (Z.lt m) k).

Lemma above_le m m' v k : m <= m' -> (above m' (from v k) <= above m k)%nat.
Proof.
  intros Hm. unfold above. rewrite <- (below_from v k) at 2. rewrite filter_app, length_app.
  enough (length (filter (Z.lt m') (from v k)) <= length (filter (Z.lt m) (from v k)))%nat by lia.
  induction (from v k) as [|x l IH]; [done|]. rewrite !filter_cons. repeat case_decide; simpl; lia.
Qed.

Lemma above_lt m m' v k :
  m < m' -> m' ∈ from v k -> (above m' (from v k) < above m k)%nat.
Proof.
  intros Hm Hi. unfold above. rewrite <- (below_from v k) at 2. rewrite filter_app, length_app.
  enough (length (filter (Z.lt m') (from v k)) < length (filter (Z.lt m) (from v k)))%nat by lia.
  induction (from v k) as [|x l IH]; [by apply elem_of_nil in Hi|].
  assert (Hle : (length (filter (Z.lt m') l) <= length (filter (Z.lt m) l))%nat).
  { clear -Hm. induction l as [|x l IH]; [done|]. rewrite !filter_cons. repeat case_decide; simpl; lia. }
  rewrite !filter_cons. apply elem_of_cons in Hi as [<-|Hi].
  - repeat case_decide; simpl; lia.
  - specialize (IH Hi). repeat case_decide; simpl; lia.
Qed.

Definition sum_above (m : Z) (ks : list (list Z)) : nat := sum_list (above m <$> ks).

Lemma sum_above_cons m k ks : sum_above m (k :: ks) = (above m k + sum_above m ks)%nat.
Proof. done. Qed.

Lemma sum_above_le m m' ks ks' :
  m <= m' -> Forall2 (fun k k' => exists v, k' = from v k) ks ks' -> (sum_above m' ks' <= sum_above m ks)%nat.
Proof.
  intros Hm Hk. induction Hk as [|k k' ks ks' [v ->] _ IH]; [done|]. rewrite !sum_above_cons.
  pose proof (above_le m m' v k Hm). lia.
Qed.

Lemma sum_above_lt m m' ks ks' :
  m < m' -> Forall2 (fun k k' => exists v, k' = from v k) ks ks' -> Exists (fun k' => m' ∈ k') ks' ->
  (sum_above m' ks' < sum_above m ks)%nat.
Proof.
  intros Hm Hk. induction Hk as [|k k' ks ks' [v ->] Hk IH]; intros He; [by inversion He|].
  rewrite !sum_above_cons. apply Exists_cons in He as [He|He].
  - pose proof (above_lt m m' v k Hm He).
    pose proof (sum_above_le m m' ks ks' ltac:(lia) Hk). lia.
  - specialize (IH He). pose proof (above_le m m' v k ltac:(lia)). lia.
Qed.

Section IntersectProps.
Context `{HS : PostingsSpec P}.

Definition stands (p : P) (k : list Z) : Prop := match k with [] => False | x :: l => on p x l end.

Lemma stands_asc p k : stands p k -> asc k.
Proof. destruct k; [done|]. apply on_asc. Qed.

Definition head_is (m : Z) (k : list Z) : Prop := match k with [] => False | x :: _ => x = m end.
Definition head_le (m : Z) (k : list Z) : Prop := match k with [] => False | x :: _ => x <= m end.

(** One pass: [g m k] is what [move] makes of the list [k]; [Q] holds of the
    ids that every moved list keeps. *)
Lemma pass_spec (move : Z -> P -> option (bool * P)) (g : Z -> list Z -> list Z) (st : P -> list Z -> Prop)
    (Q : Z -> Prop) :
  (forall m p k, st p k -> asc (g m k) /\ lands on (move m p) (g m k)) ->
  forall ps ks max find, Forall2 st ps ks ->
  (forall z, Q z -> max <= z) -> (forall z k m, Q z -> k ∈ ks -> m <= z -> z ∈ g m k) ->
  match pass move max find ps with
  | None => False
  | Some (false, _, _, _) => forall z, ~ Q z
  | Some (true, ps', max', find') =>
    exists ks', Forall2 stands ps' ks' /\ Forall2 (fun k k' => exists m, max <= m <= max' /\ k' = g m k) ks ks' /\
      max <= max' /\ (forall z, Q z -> max' <= z /\ common ks' z) /\ Forall (head_le max') ks' /\
      (max' = max \/ Exists (head_is max') ks') /\ find' = (find && (max' =? max))
  end.
Proof.
  intros Hmove. induction ps as [|p ps IH]; intros ks max find Hst Hmax Hg.
  - inversion Hst; subst. cbn [pass]. exists []. split_and!; try (constructor; done).
    + done.
    + intros z Hq. split; [by apply Hmax|constructor].
    + by rewrite Z.eqb_refl, andb_true_r.
  - inversion Hst as [|? k ? ks0 Hp Hps]; subst. cbn [pass].
    destruct (Hmove max p k Hp) as [Ha (p' & E & Hl)]. rewrite E. cbn [mbind option_bind].
    assert (Hz : forall z, Q z -> z ∈ g max k).
    { intros z Hq. apply Hg; [done|by left|by apply Hmax]. }
    destruct (g max k) as [|y r] eqn:Eg.
    { simpl. intros z Hq. specialize (Hz z Hq). by apply elem_of_nil in Hz. }
    simpl. rewrite (on_at _ _ _ Hl). pose proof (proj1 (asc_cons _ _) Ha) as (_ & Hy & _).
    set (max1 := Z.max max y).
    assert (E1 : (if max <? y then (y, false) else (max, find)) = (max1, find && (max1 =? max))).
    { subst max1. destruct (Z.ltb_spec max y).
      - rewrite Z.max_r by lia. destruct (Z.eqb_spec y max); [lia|]. by rewrite andb_false_r.
      - rewrite Z.max_l, Z.eqb_refl, andb_true_r by lia. done. }
    rewrite E1.
    assert (Hmax1 : forall z, Q z -> max1 <= z).
    { intros z Hq. specialize (Hmax z Hq). specialize (Hz z Hq). subst max1.
      apply elem_of_cons in Hz as [->|Hz]; [lia|]. rewrite Forall_forall in Hy. specialize (Hy z Hz). lia. }
    assert (Hg1 : forall z k0 m, Q z -> k0 ∈ ks0 -> m <= z -> z ∈ g m k0).
    { intros z k0 m Hq Hk Hm. apply Hg; [done|by right|done]. }
    specialize (IH ks0 max1 (find && (max1 =? max)) Hps Hmax1 Hg1).
    destruct (pass move max1 (find && (max1 =? max)) ps) as [[[[[] ps'] max'] find']|]; [|exact IH|exact IH].
    destruct IH as (ks' & I1 & I2 & I3 & I4 & I5 & I6 & I7). simpl. exists ((y :: r) :: ks').
    assert (Hm1 : max <= max1 /\ y <= max1) by (subst max1; lia). split_and!.
    + constructor; [exact Hl|done].
    + constructor; [exists max; split; [lia|done]|]. eapply Forall2_impl; [done|]. simpl.
      intros k0 k1 (m & Hm & ->). exists m. split; [lia|done].
    + lia.
    + intros z Hq. destruct (I4 z Hq) as [Hz1 Hz2]. split; [done|]. constructor; [by apply Hz|done].
    + constructor; [simpl; lia|done].
    + destruct I6 as [->|I6]; [|right; by right]. subst max1. destruct (Z.max_spec max y) as [[? ->]|[? ->]]; [|by left].
      right. by left.
    + rewrite I7, <- andb_assoc. f_equal. destruct (Z.eqb_spec max1 max), (Z.eqb_spec max' max1), (Z.eqb_spec max' max);
        done || lia.
Qed.

(** The ids common to lists that all start with [x]. *)
Lemma inter_heads x ks : ks <> [] -> Forall asc ks -> Forall (head_is x) ks -> inter ks = x :: inter (tail <$> ks).
Proof.
  intros Hne Ha Hx. assert (Hne' : tail <$> ks <> []) by (by destruct ks).
  assert (Hc : common ks x).
  { eapply Forall_impl; [exact Hx|]. intros [|y k]; simpl; [done|]. intros ->. by left. }
  assert (Hts : Forall asc (tail <$> ks)).
  { apply Forall_fmap. eapply Forall_impl; [exact Ha|]. intros [|y k]; simpl; [done|]. by intros (_ & _ & ?)%asc_cons. }
  assert (Hgt : forall z, common (tail <$> ks) z -> x < z).
  { intros z Hz. destruct ks as [|k ks]; [done|]. apply Forall_cons in Ha as [Ha _], Hx as [Hx _].
    apply Forall_cons in Hz as [Hz _]. destruct k as [|y k]; simpl in Hx, Hz; [done|]. subst y.
    apply asc_cons in Ha as (_ & Ha & _). rewrite Forall_forall in Ha. by apply Ha. }
  apply asc_unique.
  - by apply inter_asc.
  - apply asc_cons. split_and!; [|apply Forall_forall; intros z Hz; apply Hgt; by apply inter_elem|by apply inter_asc].
    destruct ks as [|k ks]; [done|]. apply Forall_cons in Ha as [[_ Ha] _], Hc as [Hc _].
    rewrite Forall_forall in Ha. by apply Ha.
  - intros z. rewrite elem_of_cons, !inter_elem by done. split.
    + intros Hz. destruct (decide (z = x)); [by left|right]. unfold common in *. rewrite Forall_fmap.
      rewrite Forall_forall in Hz, Hx |- *. intros k Hk. specialize (Hz k Hk). specialize (Hx k Hk).
      destruct k as [|y k]; [done|]. simpl in Hx. subst y. by apply elem_of_cons in Hz as [->|Hz].
    + intros [->|Hz]; [done|]. unfold common in Hz. rewrite Forall_fmap in Hz. eapply Forall_impl; [exact Hz|].
      intros [|y k]; simpl; [done|]. intros ?. by right.
Qed.

(** All iterators stand on [x]. *)
Definition all_on (ps : list P) (x : Z) (l : list Z) : Prop :=
  ps <> [] /\ exists rs, Forall2 (fun p r => on p x r) ps rs /\ l = inter rs.

Lemma stands_all_on ps ks x :
  Forall2 stands ps ks -> ks <> [] -> Forall (head_is x) ks -> all_on ps x (inter (tail <$> ks)).
Proof.
  intros Hs Hne Hx. split; [by destruct Hs|]. exists (tail <$> ks). split; [|done].
  clear Hne. induction Hs as [|p k ps ks Hp Hs IH]; [constructor|]. apply Forall_cons in Hx as [Hx Hxs].
  constructor; [|by apply IH]. destruct k; [done|]. simpl in *. by subst.
Qed.

Lemma Forall2_stands_asc ps ks : Forall2 stands ps ks -> Forall asc ks.
Proof. induction 1; constructor; [by eapply stands_asc|done]. Qed.

Lemma stands_seek m p k : stands p k -> asc (from m k) /\ lands on (p_seek m p) (from m k).
Proof.
  intros Hp. split; [by apply from_asc, (stands_asc p)|]. destruct k as [|x l]; [done|]. by apply seek_on.
Qed.

Lemma recursive_next_spec rounds : forall max ps ks,
  Forall2 stands ps ks -> ks <> [] -> (forall z, common ks z -> max <= z) ->
  (sum_above max ks < rounds)%nat -> lands all_on (recursive_next rounds max ps) (inter ks).
Proof.
  induction rounds as [|rounds IH]; intros max ps ks Hs Hne Hmax Hr; [lia|]. cbn [recursive_next].
  pose proof (Forall2_stands_asc _ _ Hs) as Ha.
  pose proof (pass_spec p_seek from stands (common ks) stands_seek ps ks max true Hs Hmax) as Hp.
  assert (Hg : forall z k m, common ks z -> k ∈ ks -> m <= z -> z ∈ from m k).
  { intros z k m Hz Hk Hm. unfold common in Hz. rewrite Forall_forall in Hz, Ha. apply from_elem; auto. }
  specialize (Hp Hg). destruct (pass p_seek max true ps) as [[[[[] ps'] max'] find']|]; [| |done]; cbn [mbind option_bind negb].
  2: { exists ps'. destruct (inter ks) as [|z l] eqn:E; [done|]. exfalso. apply (Hp z), (inter_elem ks z Hne).
       rewrite E. by left. }
  destruct Hp as (ks' & H1 & H2 & H3 & H4 & H5 & H6 & ->).
  assert (Hne' : ks' <> []) by (by destruct H2). pose proof (Forall2_stands_asc _ _ H1) as Ha'.
  assert (Hf : Forall2 (fun k k' => exists v, k' = from v k) ks ks').
  { eapply Forall2_impl; [exact H2|]. intros k k' (m & _ & ->). eauto. }
  assert (Hi : inter ks = inter ks').
  { apply asc_unique; [by apply inter_asc..|]. intros z. rewrite !inter_elem by done. split; [by intros Hz; apply H4|].
    clear -Hf Ha. intros Hz. unfold common in *. induction Hf as [|k k' ks ks' (v & ->) Hf IHf]; [constructor|].
    apply Forall_cons in Ha as [Ha1 Ha]. apply Forall_cons in Hz as [Hz1 Hz]. constructor; [|by apply IHf].
    by apply from_elem in Hz1 as [? _]. }
  destruct (Z.eqb_spec max' max) as [->|Hgt]; simpl.
  - assert (Hh : Forall (head_is max) ks').
    { clear -H2 H5 Ha. induction H2 as [|k k' ks ks' (m & Hm & E) H2 IH]; [constructor|].
      apply Forall_cons in H5 as [Hk H5], Ha as [Ha1 Ha]. constructor; [|by apply IH].
      destruct k' as [|y k']; [done|]. simpl in *. symmetry in E. apply from_head in E as (? & _); [lia|done]. }
    rewrite Hi, (inter_heads max ks') by done. exists ps'. split; [done|]. by apply stands_all_on.
  - rewrite Hi. apply IH; [done|done| |].
    + intros z Hz. rewrite <- inter_elem, <- Hi, inter_elem in Hz by done. by apply H4.
    + enough (sum_above max' ks' < sum_above max ks)%nat by lia.
      apply sum_above_lt; [lia|done|]. destruct H6 as [->|H6]; [done|]. eapply Exists_impl; [exact H6|].
      intros [|y k]; simpl; [done|]. intros ->. by left.
Qed.


Lemma inter_from v ks : ks <> [] -> Forall asc ks -> inter (from v <$> ks) = from v (inter ks).
Proof.
  intros Hne Ha. assert (Hf : Forall asc (from v <$> ks)).
  { apply Forall_fmap. eapply Forall_impl; [exact Ha|]. intros k. apply from_asc. }
  apply asc_unique; [by apply inter_asc|by apply from_asc, inter_asc|]. intros z.
  rewrite from_elem, !inter_elem by (by apply inter_asc || by destruct ks). unfold common. rewrite Forall_fmap.
  destruct ks as [|k0 ks0]; [done|]. rewrite !Forall_forall in *. simpl. split.
  - intros Hz. split.
    + intros k Hk. specialize (Hz k Hk). by apply from_elem in Hz as [? _]; [|apply Ha].
    + specialize (Hz k0 ltac:(by left)). apply from_elem in Hz as [_ ?]; [done|apply Ha; by left].
  - intros [Hz Hv] k Hk. apply from_elem; [by apply Ha|]. auto.
Qed.

Lemma sum_above_bound m (ps : list P) ks :
  Forall2 (fun p k => (length k <= p_left p)%nat) ps ks -> (sum_above m ks <= sum_list (p_left <$> ps))%nat.
Proof.
  induction 1 as [|p k ps ks Hp _ IH]; [done|]. rewrite sum_above_cons.
  assert (above m k <= length k)%nat by (unfold above; apply length_filter).
  change (sum_list (p_left <$> p :: ps)) with (p_left p + sum_list (p_left <$> ps))%nat. lia.
Qed.

(** [next] and [seek]: one pass that moves every iterator, then the loop. *)
Lemma pass_then_recursive (move : P -> option (bool * P)) (g : list Z -> list Z) (st : P -> list Z -> Prop) ps ks :
  (forall p k, st p k -> asc (g k) /\ (length (g k) <= p_left p)%nat /\ lands on (move p) (g k)) ->
  Forall2 st ps ks -> ks <> [] ->
  lands all_on
    ('(ok, ps', max, _) ← pass (fun _ => move) 0 true ps;
     if negb ok then Some (false, ps') else recursive_next (intersect_rounds ps) max ps')
    (inter (g <$> ks)).
Proof.
  intros Hm Hs Hne. assert (Hne' : g <$> ks <> []) by (by destruct ks).
  assert (Ha : Forall asc (g <$> ks)).
  { apply Forall_fmap. clear -Hm Hs. induction Hs; constructor; [by eapply Hm|done]. }
  assert (Hl : Forall2 (fun p k => (length k <= p_left p)%nat) ps (g <$> ks)).
  { apply Forall2_fmap_r. eapply Forall2_impl; [exact Hs|]. intros p k Hp. by apply Hm. }
  assert (Hmin : forall z, common (g <$> ks) z -> 0 <= z).
  { intros z Hz. rewrite <- inter_elem in Hz by done. apply inter_asc in Ha as [_ Ha].
    rewrite Forall_forall in Ha. by apply Ha. }
  pose proof (pass_spec (fun _ => move) (fun _ => g) st (common (g <$> ks))
    ltac:(intros m p k Hk; by apply Hm in Hk as (? & _ & ?)) ps ks 0 true Hs Hmin) as Hp.
  specialize (Hp ltac:(intros z k m Hz Hk _; unfold common in Hz; rewrite Forall_fmap, Forall_forall in Hz; by apply Hz)).
  destruct (pass (fun _ => move) 0 true ps) as [[[[[] ps'] max] find]|]; cbn [mbind option_bind negb]; [| |done].
  - destruct Hp as (ks' & H1 & H2 & _ & H4 & _). assert (ks' = g <$> ks) as ->.
    { clear -H2. induction H2 as [|k k' ks ks' (m & _ & ->) _ IH]; [done|]. by rewrite IH. }
    apply recursive_next_spec; [done|done|by intros z Hz; apply H4|].
    unfold intersect_rounds. pose proof (sum_above_bound max ps (g <$> ks) Hl). lia.
  - exists ps'. destruct (inter (g <$> ks)) as [|z l] eqn:E; [done|]. exfalso. apply (Hp z).
    apply inter_elem; [done|]. rewrite E. by left.
Qed.

Lemma lands_wrap {A B} (onA : A -> Z -> list Z -> Prop) (onB : B -> Z -> list Z -> Prop) (f : A -> B) r l :
  (forall a x k, onA a x k -> onB (f a) x k) -> lands onA r l ->
  lands onB ('(ok, a) ← r; Some (ok, f a)) l.
Proof. intros Hf (a & -> & Ha). exists (f a). split; [done|]. destruct l; [done|]. by apply Hf. Qed.

#[export] Instance IntersectPostings_spec : PostingsSpec (IntersectPostings P).
Proof.
  refine {| ahead p l := ip_ps p <> [] /\ exists ks, Forall2 ahead (ip_ps p) ks /\ l = inter ks;
            on p x l := all_on (ip_ps p) x l |}.
  - intros p l (_ & ks & Hk & ->). apply inter_asc. induction Hk; constructor; [by eapply ahead_asc|done].
  - intros p x l (Hne & rs & Hr & ->). assert (Ha : Forall (fun r => asc (x :: r)) rs).
    { clear Hne. induction Hr; constructor; [by eapply on_asc|done]. }
    destruct Hr as [|p0 r0 ps rs Hp Hr]; [done|]. apply Forall_cons in Ha as [Ha _].
    apply asc_cons in Ha as (H1 & H2 & H3). apply asc_cons. split_and!; [done| |by apply asc_filter].
    rewrite Forall_forall in *. intros z [_ Hz]%list_elem_of_filter. by apply H2.
  - intros p l (Hne & ks & Hk & ->). simpl. destruct Hk as [|p0 k ps ks Hp Hk]; [done|].
    apply ahead_left in Hp. pose proof (length_filter (common ks) k). simpl. lia.
  - intros p x l (Hne & rs & Hr & ->). simpl. destruct Hr as [|p0 r ps rs Hp Hr]; [done|].
    apply on_left in Hp. pose proof (length_filter (common rs) r). simpl. lia.
  - intros p x l (Hne & rs & Hr & ->). simpl. destruct Hr as [|p0 r ps rs Hp Hr]; [done|]. by apply on_at in Hp.
  - intros p l (Hne & ks & Hk & ->). apply (lands_wrap all_on); [done|].
    rewrite <- (list_fmap_id ks). apply (pass_then_recursive _ id ahead); [|done|by destruct Hk].
    intros p0 k Hp. split; [by eapply ahead_asc|]. split; [by apply ahead_left|by apply next_ahead].
  - intros p x l (Hne & rs & Hr & ->). apply (lands_wrap all_on); [done|].
    rewrite <- (list_fmap_id rs).
    apply (pass_then_recursive _ id (fun p r => on p x r)); [|done|by destruct Hr].
    intros p0 r Hp. pose proof (on_asc _ _ _ Hp) as (_ & _ & Ha)%asc_cons. pose proof (on_left _ _ _ Hp).
    split; [done|]. split; [simpl; lia|by eapply next_on].
  - intros v p x l (Hne & rs & Hr & ->). apply (lands_wrap all_on); [done|].
    set (ks := cons x <$> rs). assert (Hks : ks <> []) by (subst ks; by destruct Hr).
    assert (Hs : Forall2 stands (ip_ps p) ks) by (by apply Forall2_fmap_r).
    replace (from v (x :: inter rs)) with (inter (from v <$> ks)).
    + apply (pass_then_recursive _ (from v) stands); [|done|done].
      intros p0 [|y k] Hp; [done|]. pose proof (on_left _ _ _ Hp). pose proof (from_length v (y :: k)).
      split; [by apply from_asc, (on_asc _ _ _ Hp)|]. split; [cbn [length] in *; lia|by apply seek_on].
    + pose proof (Forall2_stands_asc _ _ Hs) as Ha. rewrite inter_from by done. f_equal.
      rewrite (inter_heads x) by (done || (apply Forall_fmap, Forall_true; done)). do 2 f_equal.
      subst ks. rewrite <- list_fmap_compose. by apply list_fmap_id.
Defined.

End IntersectProps.

(** *** Union and difference *)

Lemma set_insert_elem x s z : asc s -> z ∈ set_insert x s <-> z = x \/ z ∈ s.
Proof.
  intros Hs. unfold set_insert. rewrite elem_of_app, elem_of_cons, list_elem_of_filter.
  rewrite <- (below_from x s) at 3. rewrite elem_of_app. destruct (decide (z = x)); tauto.
Qed.

Lemma below_elem v l z : z ∈ below v l -> z < v /\ z ∈ l.
Proof.
  induction l as [|x l IH]; simpl; [by intros ?%elem_of_nil|].
  destruct (Z.ltb_spec x v); [|by intros ?%elem_of_nil].
  intros [->|Hz]%elem_of_cons; [split; [done|by left]|]. destruct (IH Hz). split; [done|by right].
Qed.

Lemma below_asc v l : asc l -> asc (below v l).
Proof.
  induction l as [|x l IH]; intros Ha; simpl; [done|]. apply asc_cons in Ha as (H1 & H2 & H3).
  destruct (x <? v); [|apply asc_nil]. apply asc_cons. split; [done|]. split; [|by apply IH].
  rewrite Forall_forall in *. intros z [_ Hz]%below_elem. by apply H2.
Qed.

Lemma asc_app a b : asc a -> asc b -> (forall x y, x ∈ a -> y ∈ b -> x < y) -> asc (a ++ b).
Proof.
  intros [Ha1 Ha2] [Hb1 Hb2] Hx. split; [|by apply Forall_app]. by apply StronglySorted_app_2.
Qed.

Lemma set_insert_asc x s : 0 <= x -> asc s -> asc (set_insert x s).
Proof.
  intros Hx Hs. unfold set_insert. apply asc_app; [by apply below_asc| |].
  - apply asc_cons. split; [done|]. split; [|by apply asc_filter, from_asc].
    apply Forall_forall. intros z [Hne Hz]%list_elem_of_filter. apply from_elem in Hz as [_ Hz]; [lia|done].
  - intros y z [Hy _]%below_elem Hz. apply elem_of_cons in Hz as [->|Hz]; [done|].
    apply list_elem_of_filter in Hz as [_ Hz]. apply from_elem in Hz as [_ Hz]; [lia|done].
Qed.

Lemma set_of_spec l : Forall (fun x => 0 <= x) l -> asc (set_of l) /\ forall z, z ∈ set_of l <-> z ∈ l.
Proof.
  induction l as [|x l IH]; intros Hl; [split; [apply asc_nil|done]|]. apply Forall_cons in Hl as [Hx Hl].
  destruct (IH Hl) as [Ha He]. split; [by apply set_insert_asc|]. intros z. simpl.
  rewrite set_insert_elem, He, elem_of_cons by done. done.
Qed.

Lemma expand_all_ahead `{PostingsSpec P} (ps : list P) ls :
  Forall2 ahead ps ls -> expand_all ps = Some (concat ls).
Proof.
  induction 1 as [|p l ps ls Hp _ IH]; [done|]. simpl. by rewrite (expand_ahead p l), IH.
Qed.

Lemma union_postings_ahead `{PostingsSpec P} (ps : list P) ls :
  Forall2 ahead ps ls -> exists p, union_postings ps = Some p /\ ahead p (set_of (concat ls)).
Proof.
  intros Hp. unfold union_postings. rewrite (expand_all_ahead ps ls) by done. eexists. split; [done|].
  simpl. split; [done|]. split; [done|]. apply set_of_spec. apply Forall_concat.
  induction Hp as [|p l ps ls Hp _ IH]; constructor; [|done]. by apply ahead_asc in Hp as [_ ?].
Qed.

Definition diff (f d : list Z) : list Z := filter (fun z => z ∉ d) f.

Section SubtractProps.
Context `{HF : PostingsSpec F} `{HD : PostingsSpec D}.
Context `{CF : !PostingsCloses F} `{CD : !PostingsCloses D}.

(** An iterator and the flag its last move returned. *)
Definition side `{PostingsCloses P} (p : P) (ok : bool) (k : list Z) (m : Z) : Prop :=
  if ok then stands p k else k = [] /\ exists m', m' <= m /\ ended p m'.

Lemma lands_side `{PostingsCloses P} p k m : lands on (p_next p) k ->
  (k = [] -> exists p', p_next p = Some (false, p') /\ ended p' m) ->
  exists ok p', p_next p = Some (ok, p') /\ side p' ok k m.
Proof.
  intros (p' & E & Hp) He. destruct k as [|y k].
  - destruct (He eq_refl) as (p2 & E2 & Hp2). exists false, p2. split; [done|]. split; [done|]. exists m. done.
  - exists true, p'. done.
Qed.

Lemma seek_side `{PostingsCloses P} v p ok k m :
  side p ok k m -> m <= v -> exists ok' p', p_seek v p = Some (ok', p') /\ side p' ok' (from v k) v.
Proof.
  intros Hs Hm. destruct ok; simpl in Hs.
  - destruct k as [|x l]; [done|]. destruct (from v (x :: l)) as [|y r] eqn:E.
    + destruct (seek_on_ended v p x l Hs E) as (p' & Ep & He). exists false, p'. split; [done|]. split; [done|].
      by exists v.
    + destruct (seek_on v p x l Hs) as (p' & Ep & Hp). rewrite E in *. by exists true, p'.
  - destruct Hs as (-> & m' & Hm' & He). destruct (seek_ended v p m' He ltac:(lia)) as (p' & Ep & He').
    exists false, p'. split; [done|]. split; [done|]. by exists v.
Qed.

Definition sub_on (s : SubtractionPostings F D) (x : Z) (l : list Z) : Prop :=
  initialized s = true /\ sb_cur s = x /\ 0 <= x /\
  exists f d, side (sb_full s) (full_ok s) f (x + 1) /\ side (sb_drop s) (drop_ok s) d (x + 1) /\
    asc f /\ asc d /\ Forall (Z.lt x) f /\ l = diff f d.

Definition behind (f d : list Z) : nat :=
  match f, d with y :: _, z :: _ => if z <? y then 1 else 0 | _, _ => 0 end.

Lemma diff_from f d y : asc d -> Forall (Z.le y) f -> diff f (from y d) = diff f d.
Proof.
  intros Hd Hf. unfold diff. induction Hf as [|z f Hz Hf IH]; [done|]. rewrite !filter_cons, IH.
  pose proof (from_elem y d z Hd). repeat case_decide; tauto || naive_solver.
Qed.

(** The loop of [next], given what is left of both sides; [m] bounds where an
    exhausted [drop] ended. *)
Lemma sub_loop_spec rounds : forall s f d m mf,
  initialized s = true -> side (sb_full s) (full_ok s) f mf -> side (sb_drop s) (drop_ok s) d m ->
  asc f -> asc d -> Forall (Z.le m) f -> (2 * length f + behind f d < rounds)%nat ->
  lands sub_on (sub_loop rounds s) (diff f d).
Proof.
  induction rounds as [|rounds IH]; intros s f d m mf Hi Hf Hd Haf Had Hm Hr; [lia|]. cbn [sub_loop].
  destruct (full_ok s); simpl in Hf; [|destruct Hf as (-> & _); by exists s].
  destruct f as [|y f]; [done|]. cbn [negb]. rewrite (on_at _ _ _ Hf).
  pose proof (proj1 (asc_cons _ _) Haf) as (Hy & Hyf & Haf').
  destruct (lands_side (sb_full s) f (y + 1)) as (fok & f' & Ef & Hf').
  { by eapply next_on. }
  { intros ->. by apply next_on_ended. }
  (* what yielding [y] leaves *)
  assert (Hyield : forall dl, dl = d -> y ∉ d ->
    lands sub_on (s ← advance_full s y; Some (true, s)) (diff (y :: f) dl)).
  { intros dl -> Hyd. unfold advance_full. rewrite Ef. simpl. unfold diff. rewrite filter_cons, decide_True by done.
    eexists. split; [done|]. split_and!; try done. exists f, d. split_and!; try done. simpl.
    apply Forall_cons in Hm as [Hm _]. destruct (drop_ok s); [done|]. destruct Hd as (? & m' & ? & ?).
    split; [done|]. exists m'. split; [lia|done]. }
  destruct (drop_ok s) eqn:Ed; cbn [negb].
  2: { apply Hyield; [done|]. simpl in Hd. destruct Hd as (-> & _). by intros ?%elem_of_nil. }
  destruct d as [|z d]; [done|]. rewrite (on_at _ _ _ Hd).
  pose proof (proj1 (asc_cons _ _) Had) as (_ & Hzd & _).
  destruct (Z.ltb_spec y z).
  { apply Hyield; [done|]. intros [->|Hin]%elem_of_cons; [lia|]. rewrite Forall_forall in Hzd. specialize (Hzd y Hin). lia. }
  destruct (Z.ltb_spec z y).
  - pose proof (seek_side y (sb_drop s) true (z :: d) y Hd ltac:(lia)) as (dok & d' & Edr & Hd').
    rewrite Edr. cbn [mbind option_bind].
    assert (Hall : Forall (Z.le y) (y :: f)).
    { constructor; [lia|]. eapply Forall_impl; [exact Hyf|]. intros w. simpl. lia. }
    rewrite <- (diff_from (y :: f) (z :: d) y) by done.
    apply (IH _ (y :: f) _ y mf); try done; [by apply from_asc|].
    assert (behind (y :: f) (from y (z :: d)) = 0)%nat as ->.
    { destruct (from y (z :: d)) as [|w k] eqn:E; [done|]. apply from_head in E as (Hw & _); [|done]. simpl.
      by destruct (Z.ltb_spec w y); [lia|]. }
    unfold behind in Hr. destruct (Z.ltb_spec z y); [|lia]. lia.
  - assert (z = y) as -> by lia. unfold advance_full. rewrite Ef. cbn [mbind option_bind].
    unfold diff. rewrite filter_cons, decide_False by (intros Hn; apply Hn; by left).
    apply (IH _ f (y :: d) m (y + 1)); try done.
    + simpl. by rewrite Ed.
    + by apply Forall_cons in Hm as [_ Hm].
    + cbn [length] in Hr. unfold behind at 1. destruct f as [|w f]; [simpl; lia|].
      destruct (y <? w); simpl in *; lia.
Qed.


Lemma behind_le f d : (behind f d <= 1)%nat.
Proof. unfold behind. repeat case_match; lia. Qed.

Lemma side_left `{PostingsCloses P} (p : P) ok k m : side p ok k m -> (length k <= p_left p)%nat.
Proof. destruct ok; simpl; [|intros (-> & _); simpl; lia]. destruct k; [done|]. apply on_left. Qed.

Lemma diff_asc f d : asc f -> asc (diff f d).
Proof. apply asc_filter. Qed.

Lemma diff_of_from v f d : asc f -> diff (from v f) d = from v (diff f d).
Proof.
  intros Ha. apply asc_unique; [by apply diff_asc, from_asc|by apply from_asc, diff_asc|]. intros z.
  unfold diff. rewrite from_elem, !list_elem_of_filter, from_elem by (done || by apply asc_filter). tauto.
Qed.

#[export] Instance SubtractionPostings_spec : PostingsSpec (SubtractionPostings F D).
Proof.
  refine {| ahead s l := initialized s = false /\ exists f d, ahead (sb_full s) f /\ ahead (sb_drop s) d /\ l = diff f d;
            on s x l := sub_on s x l |}.
  - intros s l (_ & f & d & Hf & _ & ->). apply diff_asc. by apply ahead_asc in Hf.
  - intros s x l (_ & _ & Hx & f & d & _ & _ & Haf & _ & Hxf & ->). apply asc_cons. split; [done|].
    split; [|by apply diff_asc]. rewrite Forall_forall in *. intros z [_ Hz]%list_elem_of_filter. by apply Hxf.
  - intros s l (_ & f & d & Hf & _ & ->). apply ahead_left in Hf. pose proof (length_filter (fun z => z ∉ d) f).
    unfold diff. simpl. lia.
  - intros s x l (_ & _ & Hx & f & d & Hf & _ & _ & _ & _ & ->). apply side_left in Hf.
    pose proof (length_filter (fun z => z ∉ d) f). unfold diff. simpl. lia.
  - intros s x l (_ & Hc & _). exact Hc.
  - intros s l (Hi & f & d & Hf & Hd & ->). cbn [p_next SubtractionPostings_postings]. unfold sub_next. rewrite Hi.
    pose proof (ahead_left _ _ Hf) as Hl. pose proof (ahead_asc _ _ Hf) as Haf. pose proof (ahead_asc _ _ Hd) as Had.
    destruct (lands_side (sb_full s) f 0 (next_ahead _ _ Hf)) as (fok & f' & -> & Hf').
    { intros ->. by apply next_ahead_ended. }
    destruct (lands_side (sb_drop s) d 0 (next_ahead _ _ Hd)) as (dok & d' & -> & Hd').
    { intros ->. by apply next_ahead_ended. }
    simpl. apply (sub_loop_spec _ _ f d 0 0); try done; [apply Haf|].
    pose proof (behind_le f d). unfold sub_rounds. lia.
  - intros s x l (Hi & _ & Hx & f & d & Hf & Hd & Haf & Had & Hxf & ->).
    cbn [p_next SubtractionPostings_postings]. unfold sub_next. rewrite Hi.
    apply (sub_loop_spec _ _ f d (x + 1) (x + 1)); try done.
    + eapply Forall_impl; [exact Hxf|]. intros z. simpl. lia.
    + pose proof (behind_le f d). apply side_left in Hf. unfold sub_rounds. lia.
  - intros v s x l (Hi & Hc & Hx & f & d & Hf & Hd & Haf & Had & Hxf & ->).
    cbn [p_seek SubtractionPostings_postings]. unfold sub_seek. rewrite Hc. cbn [from].
    destruct (Z.leb_spec v x).
    { destruct (Z.ltb_spec x v); [lia|]. eexists. split; [done|]. split_and!; try done. by exists f, d. }
    destruct (Z.ltb_spec x v); [|lia].
    destruct (seek_side v _ _ _ _ Hf ltac:(lia)) as (fok & f' & -> & Hf').
    destruct (seek_side v _ _ _ _ Hd ltac:(lia)) as (dok & d' & -> & Hd'). simpl. unfold sub_next. cbn [initialized].
    rewrite <- diff_of_from by done. rewrite <- (diff_from _ _ v) by
      (done || (apply Forall_forall; intros z Hz; by apply from_elem in Hz as [_ Hz])).
    apply (sub_loop_spec _ _ (from v f) (from v d) v v); try done; try by apply from_asc.
    + apply Forall_forall. intros z Hz. by apply from_elem in Hz as [_ Hz].
    + pose proof (behind_le (from v f) (from v d)). apply side_left in Hf'. unfold sub_rounds. simpl. lia.
Defined.

End SubtractProps.

(** ** Properties *)

Lemma intersect_u_expands `{HS : PostingsSpec P} (ps : list P) ls :
  Forall2 ahead ps ls -> expand_postings (intersect_u ps) = Some (inter ls).
Proof.
  intros Hp. apply expand_ahead. destruct Hp as [|p l ps ls Hp Hps]; [done|].
  destruct Hps as [|p2 l2 ps ls Hp2 Hps].
  - simpl. unfold inter. enough (filter (common []) l = l) as -> by done.
    clear. induction l as [|x l IH]; [done|]. rewrite filter_cons, decide_True by constructor. by rewrite IH.
  - split; [done|]. exists (l :: l2 :: ls). split; [|done]. by repeat constructor.
Qed.

(** Intersecting iterators of any class: reading the result of
    [intersect_u] to its end yields the ids all of them hold, in order; and
    when all stand on an id, [seek(v)] moves to the first common id from there
    on that is at least [v], or reports that there is none.  Both always
    return. *)
Theorem intersection_of_postings `{HS : PostingsSpec P} (ps : list P) :
  (forall ls, Forall2 ahead ps ls -> expand_postings (intersect_u ps) = Some (inter ls)) /\
  (forall v x l, all_on ps x l ->
     exists ps', p_seek v (mkIntersect ps) = Some (negb (bool_decide (from v (x :: l) = [])), mkIntersect ps') /\
       match from v (x :: l) with [] => True | y :: r => all_on ps' y r /\ p_at (mkIntersect ps') = y end).
Proof.
  split.
  - intros ls. apply intersect_u_expands.
  - intros v x l Ha. change (on (mkIntersect ps) x l) in Ha. destruct (seek_on v (mkIntersect ps) x l Ha) as ([ps'] & E & Hs). exists ps'.
    split; [exact E|]. destruct (from v (x :: l)) as [|y r]; [done|]. split; [exact Hs|]. by apply on_at in Hs.
Qed.

(** [UnionPostings] over any iterators holds the ids of all of them, each
    once and in order. *)
Theorem union_of_postings `{HS : PostingsSpec P} (ps : list P) ls :
  Forall2 ahead ps ls ->
  exists p, union_postings ps = Some p /\ expand_postings p = Some (set_of (concat ls)) /\
    asc (set_of (concat ls)) /\ (forall z, z ∈ set_of (concat ls) <-> Exists (fun l => z ∈ l) ls).
Proof.
  intros Hp. destruct (union_postings_ahead ps ls Hp) as (p & E & Ha). exists p.
  split; [done|]. split; [by apply expand_ahead|].
  destruct (set_of_spec (concat ls)) as [H1 H2].
  { apply Forall_concat. clear -Hp. induction Hp as [|q l ps ls Hq _ IH]; constructor; [|done].
    by apply ahead_asc in Hq as [_ ?]. }
  split; [done|]. intros z. rewrite H2, list_elem_of_In, in_concat, Exists_exists.
  split; intros (l & Hl & Hz); exists l; [|]; rewrite !list_elem_of_In in *; done.
Qed.

(** The difference of two iterators that stay exhausted holds the ids of
    the first that the second does not have, in order, whatever [cur] held
    before; and on an id, [seek(v)] moves to the first such id at least [v]. *)
Theorem difference_of_postings `{HF : PostingsSpec F} `{HD : PostingsSpec D}
    `{CF : !PostingsCloses F} `{CD : !PostingsCloses D} (junk : Z) (full : F) (drop : D) f d :
  ahead full f -> ahead drop d ->
  expand_postings (subtraction junk full drop) = Some (diff f d) /\
  (forall s v x l, on (s : SubtractionPostings F D) x l ->
     exists s', p_seek v s = Some (negb (bool_decide (from v (x :: l) = [])), s') /\
       match from v (x :: l) with [] => True | y :: r => on s' y r /\ p_at s' = y end).
Proof.
  intros Hf Hd. split.
  - apply expand_ahead. split; [done|]. by exists f, d.
  - intros s v x l Hs. destruct (seek_on v s x l Hs) as (s' & E & Hs'). exists s'. split; [exact E|].
    destruct (from v (x :: l)) as [|y r]; [done|]. split; [done|]. by apply on_at in Hs'.
Qed.

(** Before the first [next], [seek] compares [v] with the uninitialised
    [cur]. *)
Lemma subtraction_seek_uninitialised `{Postings F} `{Postings D} junk (full : F) (drop : D) v :
  v <= junk -> p_seek v (subtraction junk full drop) = Some (true, subtraction junk full drop).
Proof. intros Hv. simpl. unfold sub_seek. simpl. by destruct (Z.leb_spec v junk); [|lia]. Qed.

(** [IncrementPostings::seek] of an id below the range fails, where every other
    class moves to its first id. *)
Example increment_seek_below : p_seek 1 (increment_postings 5 8) = Some (false, increment_postings 5 8).
Proof. reflexivity. Qed.

(** ** Witnesses *)

Lemma vector_ahead l : asc l -> ahead (vector_postings l) l.
Proof. done. Qed.

Lemma list_ahead l : asc l -> ahead (list_postings l) l.
Proof. done. Qed.

Lemma asc_check l : Forall (fun x => 0 <= x) l -> Sorted Z.lt l -> asc l.
Proof. intros H1 H2. split; [|done]. apply Sorted_StronglySorted; [|done]. intros x y z ??. lia. Qed.

Ltac ascending := apply asc_check; repeat constructor; lia.

Lemma intersection_of_postings_witness :
  expand_postings (intersect_u [vector_postings [1; 4; 7; 9]; vector_postings [2; 4; 9]; vector_postings [0; 4; 8; 9; 11]])
  = Some (inter [[1; 4; 7; 9]; [2; 4; 9]; [0; 4; 8; 9; 11]]).
Proof.
  apply (proj1 (intersection_of_postings
    [vector_postings [1; 4; 7; 9]; vector_postings [2; 4; 9]; vector_postings [0; 4; 8; 9; 11]])).
  repeat constructor; lia.
Defined.

Lemma union_of_postings_witness :
  exists p, union_postings [list_postings [1; 4]; list_postings [0; 4; 8]] = Some p /\
    expand_postings p = Some (set_of [1; 4; 0; 4; 8]) /\ asc (set_of [1; 4; 0; 4; 8]) /\
    (forall z, z ∈ set_of [1; 4; 0; 4; 8] <-> Exists (fun l => z ∈ l) [[1; 4]; [0; 4; 8]]).
Proof.
  apply (union_of_postings [list_postings [1; 4]; list_postings [0; 4; 8]] [[1; 4]; [0; 4; 8]]).
  repeat constructor; lia.
Defined.

Lemma difference_of_postings_witness :
  expand_postings (subtraction 77 (list_postings [1; 4; 6; 9]) (list_postings [0; 4; 9])) = Some (diff [1; 4; 6; 9] [0; 4; 9]).
Proof.
  refine (proj1 (difference_of_postings 77 (list_postings [1; 4; 6; 9]) (list_postings [0; 4; 9]) _ _ _ _));
    apply list_ahead; ascending.
Defined.
