(* ===== verification/MemPostings.v ===== *)
(** index/MemPostings.{hpp,cpp} and the helpers of index/PostingsInterface.hpp:
    the in-memory inverted index from labels to lists of series ids.

    The two-level [std::unordered_map] is a finite map of finite maps; the
    order in which it is walked does not matter to any operation but [iter],
    which takes the entries in some order.  The locks are left out: every
    method but [del] holds one lock for its whole body, and [del] is modelled
    without a writer in between. *)
From Stdlib Require Import ZArith Lia Bool Sorting.Sorted.
From stdpp Require Import base list numbers option gmap sorting.
From S2P Require Import Prelude Label Postings.

(** ** Helpers *)

(** [binary_search]: [while (left < right)]; [None] is a loop that needs more
    rounds. *)
Fixpoint binary_search_loop (rounds : nat) (d : list Z) (v left right middle : Z) : option Z :=
  match rounds with
  | O => None
  | S rounds =>
    if left <? right then
      if elem d middle =? v then Some middle
      else if elem d middle <? v then
        binary_search_loop rounds d v middle right ((middle + right) / 2)
      else binary_search_loop rounds d v left middle ((left + middle) / 2)
    else Some (if elem d middle =? v then middle else Z.of_nat (length d))
  end.

Definition binary_search (rounds : nat) (d : list Z) (v : Z) : option Z :=
  binary_search_loop rounds d v 0 (Z.of_nat (length d)) ((0 + Z.of_nat (length d)) / 2).

Definition binary_cut (d : list Z) (v : Z) : bool * list Z :=
  let it := lower_bound d 0 v in
  if decide (it = length d) then (false, []) else (true, drop it d).

Definition binary_insert (d : list Z) (v : Z) : list Z :=
  let it := lower_bound d 0 v in
  match d !! it with
  | None => d ++ [v]
  | Some y =>
    if v <? y then v :: d
    else if negb (v =? y) then take (S it) d ++ v :: drop (S it) d
    else d
  end.

(** ** The index *)

Record MemPostings := mkMemPostings { mp_m : gmap str (gmap str (list Z)); mp_ordered : bool }.

Definition mem_postings (ordered : bool) : MemPostings := mkMemPostings ∅ ordered.

(** "ALL_POSTINGS" *)
Definition all_name : str := [65; 76; 76; 95; 80; 79; 83; 84; 73; 78; 71; 83].
Definition ALL_POSTINGS_KEYS : Label := mkLabel all_name all_name.

Definition mp_list (mp : MemPostings) (l : Label) : option (list Z) := mp_m mp !! label l ≫= (.!! value l).

(** [get]: [None] is the null pointer. *)
Definition mp_get (mp : MemPostings) (l : Label) : option ListPostings := list_postings <$> mp_list mp l.
Definition mp_all (mp : MemPostings) : option ListPostings := mp_get mp ALL_POSTINGS_KEYS.

Definition sorted_keys (mp : MemPostings) : Labels :=
  sort_labels (map_to_list (mp_m mp) ≫= fun '(n, vs) => (fun '(v, _) => mkLabel n v) <$> map_to_list vs).

(** [m[l.label][l.value]] is created when it is missing. *)
Definition add_label (id : Z) (mp : MemPostings) (l : Label) : MemPostings :=
  let vs := default ∅ (mp_m mp !! label l) in
  let d := default [] (vs !! value l) in
  let d := if mp_ordered mp then binary_insert d id else d ++ [id] in
  mkMemPostings (<[label l := <[value l := d]> vs]> (mp_m mp)) (mp_ordered mp).

Definition mp_add (mp : MemPostings) (id : Z) (ls : Labels) : MemPostings :=
  add_label id (foldl (add_label id) mp ls) ALL_POSTINGS_KEYS.

(** [del], one list: untouched unless it holds a deleted id, erased when
    nothing remains. *)
Definition del_list (deleted : gset Z) (d : option (list Z)) : option (list Z) :=
  let d := default [] d in
  if existsb (fun i => bool_decide (i ∈ deleted)) d then
    match filter (fun i => i ∉ deleted) d with [] => None | v => Some v end
  else Some d.

Definition del_value (deleted : gset Z) (vs : gmap str (list Z)) (v : str) : gmap str (list Z) :=
  partial_alter (del_list deleted) v vs.

(** [del], one key: its values, then the key when nothing remains. *)
Definition del_values (deleted : gset Z) (vs : option (gmap str (list Z))) : option (gmap str (list Z)) :=
  let vs := default ∅ vs in
  let vs := foldl (del_value deleted) vs (map_to_list vs).*1 in
  if decide (vs = ∅) then None else Some vs.

Definition del_key (deleted : gset Z) (m : gmap str (gmap str (list Z))) (k : str) : gmap str (gmap str (list Z)) :=
  partial_alter (del_values deleted) k m.

Definition mp_del (mp : MemPostings) (deleted : gset Z) : MemPostings :=
  mkMemPostings (foldl (del_key deleted) (mp_m mp) (map_to_list (mp_m mp)).*1) (mp_ordered mp).

Definition mp_clear (mp : MemPostings) : MemPostings := mkMemPostings ∅ (mp_ordered mp).

Definition mp_size (mp : MemPostings) : Z :=
  s32 (foldr (fun '(_, vs) n => Z.of_nat (size (vs : gmap str (list Z))) + n) 0 (map_to_list (mp_m mp))).

(** [iter]: what the callback is called with. *)
Definition mp_iter (mp : MemPostings) : list (Label * ListPostings) :=
  map_to_list (mp_m mp) ≫= fun '(n, vs) => (fun '(v, d) => (mkLabel n v, list_postings d)) <$> map_to_list vs.

(** [ensure_order]: one sorting task per list, all awaited. *)
Definition ensure_order (mp : MemPostings) : MemPostings :=
  mkMemPostings ((fun vs : gmap str (list Z) => merge_sort Z.le <$> vs) <$> mp_m mp) (mp_ordered mp).

(** ** Lookups *)

Definition with_list (mp : MemPostings) (l : Label) : list Z := default [] (mp_list mp l).

Lemma add_label_list id mp l l' :
  mp_list (add_label id mp l) l' =
  if decide (l = l') then
    Some (if mp_ordered mp then binary_insert (with_list mp l) id else with_list mp l ++ [id])
  else mp_list mp l'.
Proof.
  unfold mp_list, with_list, mp_list, add_label. simpl. destruct l as [n v], l' as [n' v']. simpl.
  destruct (decide (n = n')) as [<-|Hn].
  - rewrite lookup_insert_eq. simpl. destruct (decide (v = v')) as [<-|Hv].
    + rewrite lookup_insert_eq, decide_True by done. destruct (mp_m mp !! n); simpl; [done|]. by rewrite lookup_empty.
    + rewrite lookup_insert_ne, decide_False by congruence. destruct (mp_m mp !! n); simpl; [done|]. by rewrite lookup_empty.
  - rewrite lookup_insert_ne, decide_False by congruence. done.
Qed.

(** Altering each of some distinct keys of a map. *)
Lemma foldl_alter_lookup `{Countable K} {A} (f : option A -> option A) (ks : list K) (m : gmap K A) k :
  NoDup ks -> foldl (fun m k => partial_alter f k m) m ks !! k = if decide (k ∈ ks) then f (m !! k) else m !! k.
Proof.
  revert m. induction ks as [|k0 ks IH]; intros m Hnd; [done|]. apply NoDup_cons in Hnd as [Hk Hnd]. simpl.
  rewrite IH by done. destruct (decide (k = k0)) as [->|Hne].
  - rewrite decide_False, lookup_partial_alter_eq, decide_True by (done || by left). done.
  - rewrite lookup_partial_alter_ne by done. destruct (decide (k ∈ ks)), (decide (k ∈ k0 :: ks)) as [Hin|Hin]; try done; rewrite elem_of_cons in Hin; tauto.
Qed.

(** ... all the keys it has. *)
Lemma foldl_alter_all `{Countable K} {A} (f : option A -> option A) (m : gmap K A) k :
  foldl (fun m k => partial_alter f k m) m (map_to_list m).*1 !! k = match m !! k with Some x => f (Some x) | None => None end.
Proof.
  rewrite foldl_alter_lookup by apply NoDup_fst_map_to_list. destruct (m !! k) as [x|] eqn:E.
  - rewrite decide_True; [done|]. apply list_elem_of_fmap. exists (k, x). split; [done|]. by apply elem_of_map_to_list.
  - rewrite decide_False; [done|]. rewrite list_elem_of_fmap. intros ([k' x] & -> & Hx).
    apply elem_of_map_to_list in Hx. simpl in E. congruence.
Qed.

(** What [del] leaves of a list. *)
Definition kept (deleted : gset Z) (d : list Z) : list Z := filter (fun i => i ∉ deleted) d.

Definition some_list (d : list Z) : option (list Z) := match d with [] => None | _ => Some d end.

Lemma del_list_some deleted d : d <> [] -> del_list deleted (Some d) = some_list (kept deleted d).
Proof.
  intros Hd. unfold del_list, kept. simpl. destruct (existsb _ d) eqn:E; [by destruct (filter (fun i => i ∉ deleted) d)|].
  enough (filter (fun i => i ∉ deleted) d = d) as -> by (by destruct d). clear Hd.
  induction d as [|x d IH]; [done|]. simpl in E. apply orb_false_iff in E as [E1 E2].
  apply bool_decide_eq_false in E1. rewrite filter_cons, decide_True by done. by rewrite IH.
Qed.

Lemma mp_del_list mp deleted l :
  mp_list (mp_del mp deleted) l = match mp_list mp l with Some d => del_list deleted (Some d) | None => None end.
Proof.
  unfold mp_list, mp_del. simpl. unfold del_key. rewrite foldl_alter_all.
  destruct (mp_m mp !! label l) as [vs|]; simpl; [|done]. unfold del_values. simpl.
  transitivity (foldl (del_value deleted) vs (map_to_list vs).*1 !! value l).
  - destruct (decide _) as [->|]; simpl; [by rewrite lookup_empty|done].
  - unfold del_value. apply foldl_alter_all.
Qed.

(** ** The index and the series it stands for *)

Inductive IndexOp :=
  | OpAdd (id : Z) (ls : Labels)
  | OpDel (deleted : gset Z).

Definition index_step (mp : MemPostings) (op : IndexOp) : MemPostings :=
  match op with OpAdd id ls => mp_add mp id ls | OpDel deleted => mp_del mp deleted end.

(** The specification: the live series in the order they were added. *)
Definition series_step (s : list (Z * Labels)) (op : IndexOp) : list (Z * Labels) :=
  match op with
  | OpAdd id ls => s ++ [(id, ls)]
  | OpDel deleted => filter (fun e => e.1 ∉ deleted) s
  end.

Definition op_ok (op : IndexOp) : Prop :=
  match op with OpAdd _ ls => NoDup ls /\ ALL_POSTINGS_KEYS ∉ ls | OpDel _ => True end.

Definition carries (l : Label) (e : Z * Labels) : Prop := l ∈ e.2 \/ l = ALL_POSTINGS_KEYS.

#[export] Instance carries_dec l e : Decision (carries l e).
Proof. unfold carries. apply _. Defined.

Definition ids_with (l : Label) (s : list (Z * Labels)) : list Z := (filter (carries l) s).*1.

Definition indexes (mp : MemPostings) (s : list (Z * Labels)) : Prop :=
  mp_ordered mp = false /\ forall l, mp_list mp l = some_list (ids_with l s).

Lemma some_list_default d : default [] (some_list d) = d.
Proof. by destruct d. Qed.

Lemma add_labels_list id ls mp l :
  mp_ordered mp = false -> NoDup ls ->
  mp_ordered (foldl (add_label id) mp ls) = false /\
  mp_list (foldl (add_label id) mp ls) l =
    if decide (l ∈ ls) then Some (with_list mp l ++ [id]) else mp_list mp l.
Proof.
  revert mp. induction ls as [|l0 ls IH]; intros mp Ho Hnd; [done|]. apply NoDup_cons in Hnd as [Hl0 Hnd].
  simpl. destruct (IH (add_label id mp l0) Ho Hnd) as [H1 H2]. split; [done|]. rewrite H2. clear H2.
  unfold with_list. rewrite add_label_list, Ho.
  destruct (decide (l0 = l)) as [->|].
  - rewrite decide_False, decide_True by (done || by left). done.
  - destruct (decide (l ∈ ls)), (decide (l ∈ l0 :: ls)) as [Hin|Hin]; try done; rewrite elem_of_cons in Hin; naive_solver.
Qed.

Lemma mp_add_indexes mp s id ls :
  indexes mp s -> NoDup ls -> ALL_POSTINGS_KEYS ∉ ls -> indexes (mp_add mp id ls) (s ++ [(id, ls)]).
Proof.
  intros [Ho Hl] Hnd Hall. unfold mp_add. destruct (add_labels_list id ls mp ALL_POSTINGS_KEYS Ho Hnd) as [Ho' _].
  split; [done|]. intros l. destruct (add_labels_list id ls mp l Ho Hnd) as [_ E].
  rewrite add_label_list, Ho'. unfold ids_with. rewrite filter_app, fmap_app. fold (ids_with l s).
  unfold with_list in *. rewrite Hl, some_list_default in E. rewrite filter_cons, filter_nil. unfold carries at 1. simpl.
  destruct (decide (ALL_POSTINGS_KEYS = l)) as [<-|Hne].
  - rewrite E, decide_False by done. clear E. rewrite some_list_default. case_decide as Hc; [|exfalso; apply Hc; by right].
    simpl. by destruct (ids_with ALL_POSTINGS_KEYS s).
  - rewrite E. clear E. destruct (decide (l ∈ ls)); case_decide as Hc; try tauto.
    + by destruct (ids_with l s).
    + destruct Hc as [?|Hc]; [done|]. by destruct Hne.
    + simpl. by rewrite app_nil_r.
Qed.

Lemma mp_del_indexes mp s deleted :
  indexes mp s -> indexes (mp_del mp deleted) (filter (fun e => e.1 ∉ deleted) s).
Proof.
  intros [Ho Hl]. split; [done|]. intros l. rewrite mp_del_list, Hl.
  assert (E : ids_with l (filter (fun e => e.1 ∉ deleted) s) = kept deleted (ids_with l s)).
  { unfold ids_with, kept.  clear. induction s as [|e s IH]; [done|].
    destruct (decide (e.1 ∈ deleted)), (decide (carries l e)).
    - rewrite (filter_cons_False _ e s), (filter_cons_True _ e s), fmap_cons, filter_cons_False by tauto. done.
    - rewrite (filter_cons_False _ e s), (filter_cons_False _ e s) by tauto. done.
    - rewrite (filter_cons_True _ e s), (filter_cons_True _ e), (filter_cons_True _ e s), !fmap_cons, filter_cons_True by tauto. by rewrite IH.
    - rewrite (filter_cons_True _ e s), (filter_cons_False _ e), (filter_cons_False _ e s) by tauto. done. }
  rewrite E. destruct (ids_with l s) as [|x d]; [done|]. simpl some_list at 1. by apply del_list_some.
Qed.

Lemma mem_postings_exact_list ops l :
  Forall op_ok ops ->
  mp_list (foldl index_step (mem_postings false) ops) l = some_list (ids_with l (foldl series_step [] ops)).
Proof.
  intros Hok. enough (indexes (foldl index_step (mem_postings false) ops) (foldl series_step [] ops)) as [_ Hl] by apply Hl.
  assert (Hi : indexes (mem_postings false) []) by (split; [done|]; intros k; unfold mp_list; simpl; by rewrite lookup_empty).
  revert Hi. generalize (mem_postings false) as mp, (@nil (Z * Labels)) as s.
  induction Hok as [|op ops Hop _ IH]; intros mp s Hi; [done|]. simpl. apply IH.
  destruct op as [id ls|deleted]; [destruct Hop; by apply mp_add_indexes|by apply mp_del_indexes].
Qed.

(** C16.  The index is exact: after any sequence of additions and deletions,
    [get] of a label returns the ids of the live series that carry it, in the
    order they were added, and the null pointer when there is none; the
    all-postings key carries every series. *)
Theorem mem_postings_exact ops l :
  Forall op_ok ops ->
  mp_get (foldl index_step (mem_postings false) ops) l =
  list_postings <$> some_list (ids_with l (foldl series_step [] ops)).
Proof. intros Hok. unfold mp_get. by rewrite mem_postings_exact_list. Qed.

(** ** The binary helpers *)

Lemma lower_bound_above d v :
  asc d -> d !! lower_bound d 0 v = head (from v d).
Proof.
  intros _. unfold lower_bound. rewrite Nat.add_0_l, drop_0. induction d as [|x d IH]; [done|].
  simpl. by destruct (x <? v).
Qed.

(** In ordered mode an id that falls strictly inside a list is put in
    front of it: [binary_insert] leaves the list unsorted. *)
Theorem binary_insert_unsorts d v x y :
  asc d -> x ∈ d -> y ∈ d -> x < v < y -> v ∉ d ->
  binary_insert d v = v :: d /\ ~ StronglySorted Z.lt (binary_insert d v).
Proof.
  intros Ha Hx Hy Hv Hn. assert (E : binary_insert d v = v :: d).
  { unfold binary_insert. rewrite lower_bound_above by done. destruct (from v d) as [|z r] eqn:Ef.
    - assert (Hf : y ∈ from v d) by (apply from_elem; [done|]; split; [done|lia]). rewrite Ef in Hf. by apply elem_of_nil in Hf.
    - simpl. apply from_head in Ef as (Hz & Hzd & _); [|done]. destruct (Z.ltb_spec v z); [done|].
      assert (z = v) as -> by lia. done. }
  split; [done|]. rewrite E. intros [_ Hs]%StronglySorted_inv. rewrite Forall_forall in Hs. specialize (Hs x Hx). lia.
Qed.

(** Searching a non-empty list for a value above all its elements never
    ends: the loop moves [left] to [middle], which is where it was. *)
Theorem binary_search_hangs d v rounds :
  d <> [] -> Forall (fun x => x < v) d -> binary_search rounds d v = None.
Proof.
  intros Hd Hv. set (n := Z.of_nat (length d)).
  assert (Hn : 0 < n) by (subst n; destruct d; [done|simpl; lia]).
  assert (He : forall i, 0 <= i < n -> elem d i < v).
  { intros i Hi. unfold elem. destruct (d !! Z.to_nat i) as [x|] eqn:E.
    - simpl. rewrite Forall_forall in Hv. apply Hv. by eapply list_elem_of_lookup_2.
    - apply lookup_ge_None in E. lia. }
  assert (Hl : forall left middle, 0 <= left <= middle -> middle < n ->
    binary_search_loop rounds d v left n middle = None).
  { induction rounds as [|r IH]; intros left middle Hl Hm; [done|]. cbn [binary_search_loop].
    destruct (Z.ltb_spec left n); [|lia]. specialize (He middle ltac:(lia)).
    destruct (Z.eqb_spec (elem d middle) v); [lia|]. destruct (Z.ltb_spec (elem d middle) v); [|lia].
    apply IH; [|apply Z.div_lt_upper_bound; lia]. split; [lia|]. apply Z.div_le_lower_bound; lia. }
  unfold binary_search. fold n. apply Hl; [|apply Z.div_lt_upper_bound; lia]. split; [lia|]. apply Z.div_pos; lia.
Qed.

(** ** Witnesses *)

Definition demo_label (n v : Z) : Label := mkLabel [n] [v].

Lemma mem_postings_exact_witness :
  mp_get (foldl index_step (mem_postings false)
    [OpAdd 1 [demo_label 1 1]; OpAdd 2 [demo_label 1 1; demo_label 2 5]; OpDel {[1]}; OpAdd 7 [demo_label 1 1]])
    (demo_label 1 1)
  = list_postings <$> some_list (ids_with (demo_label 1 1) (foldl series_step []
    [OpAdd 1 [demo_label 1 1]; OpAdd 2 [demo_label 1 1; demo_label 2 5]; OpDel {[1]}; OpAdd 7 [demo_label 1 1]])).
Proof.
  apply mem_postings_exact.
  repeat apply Forall_cons_2; try apply Forall_nil_2; try exact I; (split; [repeat constructor; set_solver|set_solver]).
Defined.

Lemma binary_insert_unsorts_witness :
  binary_insert [5; 9] 7 = [7; 5; 9] /\ ~ StronglySorted Z.lt (binary_insert [5; 9] 7).
Proof.
  apply (binary_insert_unsorts [5; 9] 7 5 9); [ascending|set_solver|set_solver|lia|set_solver].
Defined.

Lemma binary_search_hangs_witness : binary_search 1000 [1; 2; 3] 4 = None.
Proof. apply (binary_search_hangs [1; 2; 3] 4 1000); [done|]. repeat constructor. Defined.
