(* ===== verification/Matchers.v ===== *)
(** label/*Matcher.hpp and the selection of series in querier/QuerierUtils.cpp.

    [postings_for_matchers] is written against [IndexReader], the part of
    block/IndexReaderInterface.hpp it calls; [ReaderSpec] says what it means
    for a reader to index a set of series.  A reader over [MemPostings] is an
    instance.  [std::regex] is the standard library's: a [RegexMatcher] carries
    the predicate its pattern stands for. *)
From Stdlib Require Import ZArith Lia Bool Sorting.Sorted.
From stdpp Require Import base list numbers option gmap sorting.
From S2P Require Import Prelude Label Postings MemPostings.

(** ** Matchers *)

Inductive Matcher :=
  | EqualMatcher (name value : str)
  | NotMatcher (m : Matcher)
  | RegexMatcher (name : str) (re : str -> bool).

Fixpoint m_name (m : Matcher) : str :=
  match m with EqualMatcher n _ => n | NotMatcher m => m_name m | RegexMatcher n _ => n end.

Definition m_value (m : Matcher) : str :=
  match m with EqualMatcher _ v => v | NotMatcher _ => [] | RegexMatcher _ _ => [] end.

Fixpoint m_match (m : Matcher) (s : str) : bool :=
  match m with
  | EqualMatcher _ v => str_compare s v =? 0
  | NotMatcher m => negb (m_match m s)
  | RegexMatcher _ re => re s
  end.

(** [class_name() == "equal"] *)
Definition m_equal (m : Matcher) : bool := match m with EqualMatcher _ _ => true | _ => false end.

(** ** The reader *)

(** [postings] returns a pair whose flag says whether the list exists. *)
Class IndexReader (R P : Type) := {
  ir_label_values : R -> str -> list str;
  ir_postings : R -> Label -> option P }.

(** ** Selecting postings *)

Section Select.
Context `{Postings P} `{IndexReader R P}.
(** What the uninitialised members of a new [SubtractionPostings] hold. *)
Context (junk : Z).

Definition MatcherPostings : Type := EmptyPostings + (P + (ListPostings + SubtractionPostings P ListPostings)).

Definition no_postings : MatcherPostings * bool := (inl empty_postings, false).

(** The postings of some values of a name; [None]: one of them is missing. *)
Definition postings_of (r : R) (name : str) (values : list str) : option (list P) :=
  mapM (fun v => ir_postings r (mkLabel name v)) values.

Definition postings_for_unset_label_matcher (r : R) (m : Matcher) : option (MatcherPostings * bool) :=
  let vtpls := ir_label_values r (m_name m) in
  match vtpls with
  | [] => Some no_postings
  | _ =>
    let not_matches := filter (fun v => m_match m v = false) vtpls in
    match postings_of r (m_name m) not_matches with
    | None => Some no_postings
    | Some not_matched_postings =>
      match ir_postings r ALL_POSTINGS_KEYS with
      | None => Some no_postings
      | Some all =>
        u ← union_postings not_matched_postings;
        Some (inr (inr (inr (subtraction junk all u))), true)
      end
    end
  end.

Definition postings_for_matcher (r : R) (m : Matcher) : option (MatcherPostings * bool) :=
  if m_match m [] then postings_for_unset_label_matcher r m
  else if m_equal m then
    match ir_postings r (mkLabel (m_name m) (m_value m)) with
    | None => Some no_postings
    | Some p => Some (inr (inl p), true)
    end
  else
    let vtpls := ir_label_values r (m_name m) in
    match vtpls with
    | [] => Some no_postings
    | _ =>
      match filter (fun v => m_match m v = true) vtpls with
      | [] => Some (inl empty_postings, true)
      | matches =>
        match postings_of r (m_name m) matches with
        | None => Some no_postings
        | Some ps => u ← union_postings ps; Some (inr (inr (inl u)), true)
        end
      end
    end.

(** The loop of [postings_for_matchers]; the inner [None] is its early
    return. *)
Fixpoint matchers_loop (r : R) (l : list Matcher) : option (option (list MatcherPostings)) :=
  match l with
  | [] => Some (Some [])
  | m :: l =>
    '(p, ok) ← postings_for_matcher r m;
    if negb ok then Some None
    else
      rest ← matchers_loop r l;
      Some (match rest with Some ps => Some (p :: ps) | None => None end)
  end.

Definition postings_for_matchers (r : R) (l : list Matcher)
    : option ((EmptyPostings + (MatcherPostings + IntersectPostings MatcherPostings)) * bool) :=
  ps ← matchers_loop r l;
  Some (match ps with
        | None => (inl empty_postings, false)
        | Some ps => (intersect_u ps, true)
        end).

End Select.
Arguments MatcherPostings P : clear implicits.

(** ** What a reader stands for *)

(** The value a series has for a name; a missing label is the empty string. *)
Definition value_of (ls : Labels) (n : str) : str :=
  match List.find (fun l => str_eqb (label l) n) ls with Some l => value l | None => [] end.

Definition matching (m : Matcher) (e : Z * Labels) : Prop := m_match m (value_of e.2 (m_name m)) = true.
Definition all_matching (l : list Matcher) (e : Z * Labels) : Prop := Forall (fun m => matching m e) l.

#[export] Instance matching_dec m e : Decision (matching m e).
Proof. unfold matching. apply _. Defined.
#[export] Instance all_matching_dec l e : Decision (all_matching l e).
Proof. unfold all_matching. apply _. Defined.

(** The ids of the series with a property, ascending. *)
Definition ids_of (Q : Z * Labels -> Prop) `{forall e, Decision (Q e)} (s : list (Z * Labels)) : list Z :=
  set_of (filter Q s).*1.

Record series_ok (s : list (Z * Labels)) : Prop := {
  so_ids : NoDup s.*1;
  so_pos : Forall (fun e => 0 <= e.1) s;
  so_names : Forall (fun e => NoDup (label <$> e.2) /\ all_name ∉ (label <$> e.2)) s }.

Class ReaderSpec `{PostingsSpec P} `{IndexReader R P} (r : R) (s : list (Z * Labels)) : Prop := {
  reader_values n v : n <> all_name -> v ∈ ir_label_values r n <-> exists e, e ∈ s /\ mkLabel n v ∈ e.2;
  reader_postings l :
    match ir_postings r l with
    | None => ids_with l s = []
    | Some p => ids_with l s <> [] /\ ahead p (ids_of (carries l) s)
    end }.

(** ** Ids of series *)

Lemma ids_of_spec Q `{forall e, Decision (Q e)} s :
  series_ok s -> asc (ids_of Q s) /\ forall z, z ∈ ids_of Q s <-> exists e, e ∈ s /\ Q e /\ e.1 = z.
Proof.
  intros Hs. destruct (set_of_spec (filter Q s).*1) as [Ha He].
  { apply Forall_fmap. pose proof (so_pos s Hs) as Hp. rewrite Forall_forall in *.
    intros e [_ He]%list_elem_of_filter. by apply Hp. }
  split; [done|]. intros z. unfold ids_of. rewrite He, list_elem_of_fmap. split.
  - intros (e & -> & [Hq Hi]%list_elem_of_filter). eauto.
  - intros (e & Hi & Hq & <-). exists e. split; [done|]. by apply list_elem_of_filter.
Qed.

Lemma ids_of_elem Q `{forall e, Decision (Q e)} s z :
  series_ok s -> z ∈ ids_of Q s <-> exists e, e ∈ s /\ Q e /\ e.1 = z.
Proof. intros Hs. by apply ids_of_spec. Qed.

Lemma ids_of_asc Q `{forall e, Decision (Q e)} s : series_ok s -> asc (ids_of Q s).
Proof. intros Hs. by apply ids_of_spec. Qed.

(** An ascending list is the ids of [Q] when it has the ids of [Q]. *)
Lemma ids_of_unique l Q `{forall e, Decision (Q e)} s :
  series_ok s -> asc l -> (forall z, z ∈ l <-> exists e, e ∈ s /\ Q e /\ e.1 = z) -> l = ids_of Q s.
Proof.
  intros Hs Ha He. apply asc_unique; [done|by apply ids_of_asc|]. intros z. by rewrite He, ids_of_elem.
Qed.

Lemma series_same_id s e e' : series_ok s -> e ∈ s -> e' ∈ s -> e.1 = e'.1 -> e = e'.
Proof.
  intros Hs He He' E. pose proof (so_ids s Hs) as Hnd. clear Hs. induction s as [|x s IH]; [by apply elem_of_nil in He|].
  simpl in Hnd. apply NoDup_cons in Hnd as [Hx Hnd].
  assert (Hin : forall y, y ∈ s -> y.1 <> x.1).
  { intros y Hy Ey. apply Hx. rewrite <- Ey. apply list_elem_of_fmap. by exists y. }
  apply elem_of_cons in He as [->|He], He' as [->|He']; [done| | |by apply IH].
  - by destruct (Hin e' He').
  - by destruct (Hin e He).
Qed.

(** ** Values *)

Lemma value_of_present ls n v : NoDup (label <$> ls) -> mkLabel n v ∈ ls -> value_of ls n = v.
Proof.
  unfold value_of. induction ls as [|l ls IH]; intros Hnd Hl; [by apply elem_of_nil in Hl|].
  simpl in Hnd |- *. apply NoDup_cons in Hnd as [Hn Hnd]. unfold str_eqb at 1.
  apply elem_of_cons in Hl as [<-|Hl]; [by rewrite bool_decide_eq_true_2|].
  rewrite bool_decide_eq_false_2; [by apply IH|]. intros E. apply Hn. rewrite E.
  apply list_elem_of_fmap. by exists (mkLabel n v).
Qed.

Lemma value_of_cases ls n :
  mkLabel n (value_of ls n) ∈ ls \/ (value_of ls n = [] /\ forall v, mkLabel n v ∉ ls).
Proof.
  unfold value_of. destruct (List.find _ ls) as [l|] eqn:E.
  - left. apply find_some in E as [Hl E]. apply bool_decide_eq_true in E as <-. rewrite list_elem_of_In. by destruct l.
  - right. split; [done|]. intros v Hv. rewrite list_elem_of_In in Hv. apply (find_none _ _ E) in Hv.
    unfold str_eqb in Hv. simpl in Hv. by rewrite bool_decide_eq_true_2 in Hv.
Qed.

Lemma equal_match n v s : m_match (EqualMatcher n v) s = true <-> s = v.
Proof. simpl. rewrite Z.eqb_eq. apply str_compare_eq. Qed.

Section SelectProps.
Context `{HS : PostingsSpec P} `{HC : !PostingsCloses P} `{HR : IndexReader R P}.
Context (junk : Z) (r : R) (s : list (Z * Labels)) (Hok : series_ok s) (Hr : ReaderSpec r s).

Lemma carries_label n v e : n <> all_name -> carries (mkLabel n v) e <-> mkLabel n v ∈ e.2.
Proof. intros Hn. unfold carries. split; [|tauto]. intros [?|[= ? ?]]; [done|]. by subst. Qed.

(** A series has the value [v] for [n]. *)
Lemma value_of_label e n v : e ∈ s -> mkLabel n v ∈ e.2 -> value_of e.2 n = v.
Proof.
  intros He. apply value_of_present. pose proof (so_names s Hok) as Hn. rewrite Forall_forall in Hn. by apply Hn.
Qed.

Lemma postings_of_spec n vs :
  n <> all_name -> (forall v, v ∈ vs -> v ∈ ir_label_values r n) ->
  exists ps, postings_of r n vs = Some ps /\ Forall2 ahead ps ((fun v => ids_of (carries (mkLabel n v)) s) <$> vs).
Proof.
  intros Hn Hvs. unfold postings_of. induction vs as [|v vs IH]; [by exists []|].
  destruct IH as (ps & E & Hp); [intros w Hw; apply Hvs; by right|].
  pose proof (Hvs v ltac:(by left)) as Hv. apply (reader_values n v Hn) in Hv as (e & He & Hl).
  pose proof (reader_postings (mkLabel n v)) as Hl2. simpl. destruct (ir_postings r (mkLabel n v)) as [p|].
  - exists (p :: ps). rewrite E. split; [done|]. simpl. constructor; [apply Hl2|done].
  - exfalso. assert (Hin : e.1 ∈ ids_with (mkLabel n v) s).
    { apply list_elem_of_fmap. exists e. split; [done|]. apply list_elem_of_filter. split; [by left|done]. }
    rewrite Hl2 in Hin. by apply elem_of_nil in Hin.
Qed.

(** The union of the postings of some values. *)
Lemma union_values n vs (Q : Z * Labels -> Prop) `{forall e, Decision (Q e)} :
  n <> all_name -> (forall v, v ∈ vs -> v ∈ ir_label_values r n) ->
  (forall e, e ∈ s -> Q e <-> exists v, v ∈ vs /\ mkLabel n v ∈ e.2) ->
  exists ps u, postings_of r n vs = Some ps /\ union_postings ps = Some u /\ ahead u (ids_of Q s).
Proof.
  intros Hn Hvs HQ. destruct (postings_of_spec n vs Hn Hvs) as (ps & E & Hp).
  destruct (union_postings_ahead ps _ Hp) as (u & Eu & Hu). exists ps, u. split; [done|]. split; [done|].
  enough (set_of (concat ((fun v => ids_of (carries (mkLabel n v)) s) <$> vs)) = ids_of Q s) as <- by done.
  pose proof (ahead_asc _ _ Hu) as Ha. apply ids_of_unique; [done|done|]. intros z.
  destruct (set_of_spec (concat ((fun v => ids_of (carries (mkLabel n v)) s) <$> vs))) as [_ ->].
  { apply Forall_concat, Forall_fmap, Forall_true. intros v. by apply ids_of_asc. }
  rewrite list_elem_of_In, in_concat. split.
  - intros (l & Hl & Hz). rewrite <- list_elem_of_In in Hl. rewrite <- list_elem_of_In in Hz. apply list_elem_of_fmap in Hl as (v & -> & Hv).
    apply ids_of_elem in Hz as (e & He & Hc & <-); [|done]. exists e. split; [done|]. split; [|done].
    apply HQ; [done|]. exists v. split; [done|]. by apply carries_label.
  - intros (e & He & Hq & <-). apply HQ in Hq as (v & Hv & Hl); [|done].
    exists (ids_of (carries (mkLabel n v)) s). rewrite <- !list_elem_of_In. split.
    + apply list_elem_of_fmap. by exists v.
    + apply ids_of_elem; [done|]. exists e. split_and!; [done|by left|done].
Qed.

Lemma all_postings e : e ∈ s -> exists p, ir_postings r ALL_POSTINGS_KEYS = Some p /\ ahead p (ids_of (fun _ => True) s).
Proof.
  intros He. pose proof (reader_postings ALL_POSTINGS_KEYS) as Hl. destruct (ir_postings r ALL_POSTINGS_KEYS) as [p|].
  - exists p. split; [done|]. destruct Hl as [_ Hl]. enough (ids_of (carries ALL_POSTINGS_KEYS) s = ids_of (fun _ => True) s) as <- by done.
    apply ids_of_unique; [done|by apply ids_of_asc|]. intros z. rewrite ids_of_elem by done. unfold carries. naive_solver.
  - exfalso. assert (Hin : e.1 ∈ ids_with ALL_POSTINGS_KEYS s).
    { apply list_elem_of_fmap. exists e. split; [done|]. apply list_elem_of_filter. split; [by right|done]. }
    rewrite Hl in Hin. by apply elem_of_nil in Hin.
Qed.


(** What one matcher's selection means. *)
Definition selects (m : Matcher) (res : MatcherPostings P * bool) : Prop :=
  if res.2 then ahead res.1 (ids_of (matching m) s)
  else (m_match m [] = true /\ ir_label_values r (m_name m) = []) \/ forall e, e ∈ s -> ~ matching m e.

Lemma unset_selects m :
  m_name m <> all_name -> m_match m [] = true ->
  exists res, postings_for_unset_label_matcher junk r m = Some res /\ selects m res.
Proof.
  intros Hn Hm. unfold postings_for_unset_label_matcher.
  destruct (ir_label_values r (m_name m)) as [|v0 vs] eqn:Ev; [exists no_postings; split; [done|by left]|].
  assert (Hv0 : v0 ∈ ir_label_values r (m_name m)) by (rewrite Ev; by left).
  apply (reader_values _ _ Hn) in Hv0 as (e0 & He0 & _). rewrite <- Ev.
  set (nm := filter (fun v => m_match m v = false) (ir_label_values r (m_name m))).
  assert (Hmiss : forall e, e ∈ s -> ~ matching m e <-> exists v, v ∈ nm /\ mkLabel (m_name m) v ∈ e.2).
  { intros e He. unfold matching. split.
    - intros Hq. apply not_true_is_false in Hq. destruct (value_of_cases e.2 (m_name m)) as [Hl|[E _]]; [|congruence].
      exists (value_of e.2 (m_name m)). split; [|done]. apply list_elem_of_filter. split; [done|].
      apply (reader_values _ _ Hn). eauto.
    - intros (v & [Hq _]%list_elem_of_filter & Hl). rewrite (value_of_label e _ v) by done. congruence. }
  destruct (union_values (m_name m) nm (fun e => ~ matching m e) Hn) as (ps & u & -> & Eu & Hu); [|done|].
  { by intros v [_ Hv]%list_elem_of_filter. }
  destruct (all_postings e0 He0) as (p & -> & Hp). rewrite Eu. simpl.
  eexists. split; [done|]. unfold selects. simpl. split; [done|]. do 2 eexists. split; [exact Hp|]. split; [exact Hu|].
  symmetry. apply ids_of_unique; [done|by apply diff_asc, ids_of_asc|]. intros z. unfold diff.
  rewrite list_elem_of_filter, !ids_of_elem by done. split.
  - intros [Hz (e & He & _ & <-)]. exists e. split; [done|]. split; [|done].
    destruct (decide (matching m e)); [done|]. destruct Hz. eauto.
  - intros (e & He & Hq & <-). split; [|eauto]. intros (e' & He' & Hq' & E).
    assert (e' = e) as -> by (by eapply series_same_id). done.
Qed.

Lemma set_selects m :
  m_name m <> all_name -> m_match m [] = false ->
  exists res, postings_for_matcher junk r m = Some res /\ selects m res.
Proof.
  intros Hn Hm. unfold postings_for_matcher. rewrite Hm.
  assert (Hhas : forall e, e ∈ s -> matching m e -> mkLabel (m_name m) (value_of e.2 (m_name m)) ∈ e.2).
  { intros e He Hq. unfold matching in Hq. destruct (value_of_cases e.2 (m_name m)) as [?|[E _]]; [done|congruence]. }
  destruct (m_equal m) eqn:Eq.
  { destruct m as [n v|m|n re]; simpl in Eq; try done. simpl in *.
    assert (Hc : forall e, e ∈ s -> matching (EqualMatcher n v) e <-> carries (mkLabel n v) e).
    { intros e He. rewrite carries_label by done. unfold matching. rewrite equal_match. simpl. split.
      - intros <-. apply Hhas; [done|]. unfold matching. by rewrite equal_match.
      - intros Hl. by apply value_of_label. }
    pose proof (reader_postings (mkLabel n v)) as Hl. destruct (ir_postings r (mkLabel n v)) as [p|].
    - eexists. split; [done|]. unfold selects. simpl. destruct Hl as [_ Hl].
      replace (ids_of (matching (EqualMatcher n v)) s) with (ids_of (carries (mkLabel n v)) s); [done|].
      apply ids_of_unique; [done|by apply ids_of_asc|]. intros z. rewrite ids_of_elem by done.
      split; intros (e & He & Hq & <-); exists e; (split; [done|]); (split; [|done]); by apply Hc.
    - eexists. split; [done|]. right. intros e He Hq. apply Hc in Hq; [|done].
      assert (Hin : e.1 ∈ ids_with (mkLabel n v) s).
      { apply list_elem_of_fmap. exists e. split; [done|]. by apply list_elem_of_filter. }
      rewrite Hl in Hin. by apply elem_of_nil in Hin. }
  assert (Hval : forall e, e ∈ s -> matching m e -> value_of e.2 (m_name m) ∈ ir_label_values r (m_name m)).
  { intros e He Hq. apply (reader_values _ _ Hn). exists e. split; [done|]. by apply Hhas. }
  destruct (ir_label_values r (m_name m)) as [|v0 vs] eqn:Ev.
  { eexists. split; [done|]. right. intros e He Hq. specialize (Hval e He Hq). by apply elem_of_nil in Hval. }
  rewrite <- Ev in *. set (mt := filter (fun v => m_match m v = true) (ir_label_values r (m_name m))).
  assert (Hq : forall e, e ∈ s -> matching m e <-> exists v, v ∈ mt /\ mkLabel (m_name m) v ∈ e.2).
  { intros e He. split.
    - intros Hq. exists (value_of e.2 (m_name m)). split; [|by apply Hhas]. apply list_elem_of_filter. auto.
    - intros (v & [Hq _]%list_elem_of_filter & Hl). unfold matching. by rewrite (value_of_label e _ v). }
  destruct (union_values (m_name m) mt (matching m) Hn) as (ps & u & Ep & Eu & Hu); [|done|].
  { by intros v [_ Hv]%list_elem_of_filter. }
  destruct mt as [|v1 mt1] eqn:Em.
  - eexists. split; [done|]. unfold selects. simpl. symmetry. apply ids_of_unique; [done|apply asc_nil|]. intros z.
    split; [by intros ?%elem_of_nil|]. intros (e & He & Hq' & _). apply Hq in Hq' as (v & Hv & _); [|done].
    by apply elem_of_nil in Hv.
  - rewrite Ep, Eu. eexists. split; [done|]. exact Hu.
Qed.

Lemma matcher_selects m :
  m_name m <> all_name -> exists res, postings_for_matcher junk r m = Some res /\ selects m res.
Proof.
  intros Hn. destruct (m_match m []) eqn:Em; [|by apply set_selects]. unfold postings_for_matcher. rewrite Em.
  by apply unset_selects.
Qed.

Lemma matchers_loop_spec l :
  Forall (fun m => m_name m <> all_name) l ->
  exists ps, matchers_loop junk r l = Some ps /\
    match ps with
    | Some ps => Forall2 (fun p m => ahead p (ids_of (matching m) s)) ps l
    | None => Exists (fun m => selects m no_postings) l
    end.
Proof.
  induction 1 as [|m l Hn _ (ps & E & Hp)]; [by exists (Some [])|]. simpl.
  destruct (matcher_selects m Hn) as ([p ok] & Em & Hm). rewrite Em. simpl. destruct ok; simpl.
  - rewrite E. eexists. split; [done|]. destruct ps as [ps|]; [by constructor|by right].
  - exists None. split; [done|]. left. exact Hm.
Qed.

Lemma inter_matching l (m0 : Matcher) :
  inter ((fun m => ids_of (matching m) s) <$> (m0 :: l)) = ids_of (all_matching (m0 :: l)) s.
Proof.
  apply ids_of_unique; [done| |].
  - apply inter_asc, Forall_fmap, Forall_true. intros m. by apply ids_of_asc.
  - intros z. rewrite inter_elem by done. unfold common. rewrite Forall_fmap. split.
    + intros Hz. pose proof (Forall_inv Hz) as H0. simpl in H0. apply ids_of_elem in H0 as (e & He & _ & <-); [|done].
      exists e. split; [done|]. split; [|done]. eapply Forall_impl; [exact Hz|]. intros m Hm. simpl in Hm.
      apply ids_of_elem in Hm as (e' & He' & Hq & E); [|done]. assert (e' = e) as <- by (by eapply series_same_id). done.
    + intros (e & He & Hq & <-). eapply Forall_impl; [exact Hq|]. intros m Hm. simpl. apply ids_of_elem; [done|]. eauto.
Qed.

(** C12.  Selecting series: for any non-empty list of matchers over a reader
    that indexes the series [s], [postings_for_matchers] returns; with the flag
    set, its postings are the ids of the series that satisfy every matcher (a
    missing label counting as the empty string), in ascending order; with the
    flag clear they are empty, and no series satisfies every matcher unless a
    matcher that accepts the empty string names a label no series has. *)
Theorem matchers_select_series l :
  l <> [] -> Forall (fun m => m_name m <> all_name) l ->
  exists p ok, postings_for_matchers junk r l = Some (p, ok) /\
    if ok : bool then expand_postings p = Some (ids_of (all_matching l) s)
    else expand_postings p = Some [] /\
      (Forall (fun m => m_match m [] = true -> ir_label_values r (m_name m) <> []) l ->
       ids_of (all_matching l) s = []).
Proof.
  intros Hl Hn. destruct (matchers_loop_spec l Hn) as (ps & E & Hp). unfold postings_for_matchers. rewrite E. simpl.
  destruct ps as [ps|].
  - exists (intersect_u ps), true. split; [done|]. destruct l as [|m0 l]; [done|]. rewrite <- inter_matching.
    apply intersect_u_expands. by apply Forall2_fmap_r.
  - exists (inl empty_postings), false. split; [done|]. split; [done|]. intros Hu. symmetry.
    apply ids_of_unique; [done|apply asc_nil|]. intros z. split; [by intros ?%elem_of_nil|].
    intros (e & He & Hq & _). exfalso. apply Exists_exists in Hp as (m & Hm & Hs).
    unfold all_matching in Hq. rewrite Forall_forall in Hu, Hq. destruct Hs as [[H1 H2]|Hs]; [by destruct (Hu m Hm H1)|].
    by apply (Hs e He), Hq.
Qed.

(** A matcher that accepts the empty string on a label that no series has
    is satisfied by every series, but the selection reports failure and
    nothing. *)
Theorem unknown_label_selects_nothing m :
  m_name m <> all_name -> m_match m [] = true -> ir_label_values r (m_name m) = [] ->
  postings_for_matchers junk r [m] = Some (inl empty_postings, false) /\
  ids_of (all_matching [m]) s = ids_of (fun _ => True) s.
Proof.
  intros Hn Hm Hv. split.
  - unfold postings_for_matchers. simpl. unfold postings_for_matcher, postings_for_unset_label_matcher. by rewrite Hm, Hv.
  - apply ids_of_unique; [done|by apply ids_of_asc|]. intros z. rewrite ids_of_elem by done.
    split; intros (e & He & _ & <-); [eauto|]. exists e. split; [done|]. split; [|done]. constructor; [|constructor].
    unfold matching. destruct (value_of_cases e.2 (m_name m)) as [Hl|[-> _]]; [|done]. exfalso.
    assert (Hin : value_of e.2 (m_name m) ∈ ir_label_values r (m_name m)) by (apply (reader_values _ _ Hn); eauto).
    rewrite Hv in Hin. by apply elem_of_nil in Hin.
Qed.

End SelectProps.

(** ** A reader over the in-memory index *)

#[export] Instance mem_reader : IndexReader MemPostings ListPostings := {
  ir_label_values mp n := value <$> filter (fun l => label l = n) (sorted_keys mp);
  ir_postings := mp_get }.

Lemma sorted_keys_elem mp l : l ∈ sorted_keys mp <-> is_Some (mp_list mp l).
Proof.
  unfold sorted_keys, sort_labels. rewrite merge_sort_Permutation, list_elem_of_bind. unfold mp_list. split.
  - intros ([n vs] & Hl & Hm). apply elem_of_map_to_list in Hm.
    apply list_elem_of_fmap in Hl as ([v d] & -> & Hd). apply elem_of_map_to_list in Hd. simpl. rewrite Hm. simpl. eauto.
  - intros [d Hd]. apply bind_Some in Hd as (vs & Hn & Hv). exists (label l, vs). split.
    + apply list_elem_of_fmap. exists (value l, d). split; [by destruct l|]. by apply elem_of_map_to_list.
    + by apply elem_of_map_to_list.
Qed.

Lemma ids_with_sorted l s : asc s.*1 -> asc (ids_with l s).
Proof.
  unfold ids_with. induction s as [|e s IH]; intros Ha; [apply asc_nil|]. simpl in Ha.
  apply asc_cons in Ha as (H1 & H2 & H3). rewrite filter_cons. case_decide; [|by apply IH].
  simpl. apply asc_cons. split; [done|]. split; [|by apply IH]. rewrite Forall_forall in *.
  intros z (e' & -> & [_ He]%list_elem_of_filter)%list_elem_of_fmap. apply H2. apply list_elem_of_fmap. by exists e'.
Qed.

(** The index of series added with ascending ids is a reader of them. *)
Lemma mem_reader_spec mp s : indexes mp s -> series_ok s -> asc s.*1 -> ReaderSpec mp s.
Proof.
  intros [_ Hl] Hs Ha. split.
  - intros n v Hn. simpl. rewrite list_elem_of_fmap. split.
    + intros (l & -> & [<- Hk]%list_elem_of_filter). apply sorted_keys_elem in Hk as [d Hd]. rewrite Hl in Hd.
      destruct (ids_with l s) as [|x k] eqn:E; [done|].
      assert (Hx : x ∈ ids_with l s) by (rewrite E; by left).
      apply list_elem_of_fmap in Hx as (e & -> & [[Hc|Hc] He]%list_elem_of_filter); [|by rewrite Hc in Hn].
      exists e. split; [done|]. by destruct l.
    + intros (e & He & Hv). exists (mkLabel n v). split; [done|]. apply list_elem_of_filter. split; [done|].
      apply sorted_keys_elem. rewrite Hl. destruct (ids_with (mkLabel n v) s) as [|x k] eqn:E; [|by eexists].
      assert (Hx : e.1 ∈ ids_with (mkLabel n v) s).
      { apply list_elem_of_fmap. exists e. split; [done|]. apply list_elem_of_filter. split; [by left|done]. }
      rewrite E in Hx. by apply elem_of_nil in Hx.
  - intros l. simpl. unfold mp_get. rewrite Hl. destruct (ids_with l s) as [|x k] eqn:E; [done|]. simpl. split; [done|].
    rewrite <- E. enough (ids_with l s = ids_of (carries l) s) as <- by (split; [done|]; split; [done|]; by apply ids_with_sorted).
    apply ids_of_unique; [done|by apply ids_with_sorted|]. intros z. unfold ids_with. rewrite list_elem_of_fmap. split.
    + intros (e & -> & [Hq He]%list_elem_of_filter). eauto.
    + intros (e & He & Hq & <-). exists e. split; [done|]. by apply list_elem_of_filter.
Qed.

(** Three series in an index: two with name 1, one with name 2. *)
Definition demo_ops : list IndexOp :=
  [OpAdd 3 [demo_label 1 7]; OpAdd 5 [demo_label 1 8; demo_label 2 9]; OpAdd 6 [demo_label 2 9]].
Definition demo_series : list (Z * Labels) := foldl series_step [] demo_ops.
Definition demo_index : MemPostings := foldl index_step (mem_postings false) demo_ops.

Lemma demo_series_ok : series_ok demo_series.
Proof.
  split.
  - change (demo_series.*1) with [3; 5; 6]. apply asc_NoDup. ascending.
  - repeat constructor; simpl; lia.
  - repeat constructor; simpl; set_solver.
Qed.

Lemma demo_reader : ReaderSpec demo_index demo_series.
Proof.
  apply mem_reader_spec; [|apply demo_series_ok|change (demo_series.*1) with [3; 5; 6]; ascending].
  split; [done|]. intros l. pose proof (mem_postings_exact_list demo_ops l) as E. apply E.
  repeat apply Forall_cons_2; try apply Forall_nil_2; (split; [repeat constructor; set_solver|set_solver]).
Qed.

Lemma matchers_select_series_witness :
  exists p ok, postings_for_matchers 0 demo_index [NotMatcher (EqualMatcher [1] [7]); EqualMatcher [2] [9]] = Some (p, ok) /\
    if ok : bool then expand_postings p = Some (ids_of (all_matching [NotMatcher (EqualMatcher [1] [7]); EqualMatcher [2] [9]]) demo_series)
    else expand_postings p = Some [] /\
      (Forall (fun m => m_match m [] = true -> ir_label_values demo_index (m_name m) <> [])
         [NotMatcher (EqualMatcher [1] [7]); EqualMatcher [2] [9]] ->
       ids_of (all_matching [NotMatcher (EqualMatcher [1] [7]); EqualMatcher [2] [9]]) demo_series = []).
Proof.
  apply (matchers_select_series 0 demo_index demo_series demo_series_ok demo_reader
    [NotMatcher (EqualMatcher [1] [7]); EqualMatcher [2] [9]]); [done|].
  repeat constructor; done.
Defined.

Lemma unknown_label_selects_nothing_witness :
  postings_for_matchers 0 demo_index [EqualMatcher [42] []] = Some (inl empty_postings, false) /\
  ids_of (all_matching [EqualMatcher [42] []]) demo_series = ids_of (fun _ => True) demo_series.
Proof.
  apply (unknown_label_selects_nothing 0 demo_index demo_series demo_series_ok demo_reader (EqualMatcher [42] [])); done.
Defined.

Example demo_selection :
  (p ← postings_for_matchers 0 demo_index [NotMatcher (EqualMatcher [1] [7]); EqualMatcher [2] [9]];
   expand_postings p.1) = Some [5; 6].
Proof. vm_compute. reflexivity. Qed.
