(* ===== verification/WalLog.v ===== *)
(** leveldb/db/log_format.h, log_writer.cc and log_reader.cc: the framing of the
    write-ahead log.

    A log is a sequence of 32 KiB blocks; a record is cut into fragments that
    fit in what is left of a block, each behind a header with its checksum,
    length and type.  [Writer] appends records, [Reader] returns them in order
    and [RandomReader] returns the one at an offset.  Files are instances of
    the classes [WritableFile], [SequentialFile] and [RandomFile], the parts of
    leveldb/env.h the log uses. *)
From Stdlib Require Import ZArith Lia Bool Sorting.Sorted.
From stdpp Require Import base list numbers option.
From S2P Require Import Prelude Coding Crc32c.

(** ** The format *)

Definition kZeroType : Z := 0.
Definition kFullType : Z := 1.
Definition kFirstType : Z := 2.
Definition kMiddleType : Z := 3.
Definition kLastType : Z := 4.
Definition kMaxRecordType : Z := kLastType.
Definition kBlockSize : Z := 32768.
Definition kHeaderSize : Z := 4 + 2 + 1.
Definition kEof : Z := kMaxRecordType + 1.
Definition kBadRecord : Z := kMaxRecordType + 2.

(** Where some bytes lie in memory, on which the checksum routine depends. *)
Class Placement := address : list Z -> Z.

(** ** Files *)

(** [Append] returns whether its status is ok. *)
Class WritableFile (F : Type) := wf_append : F -> list Z -> bool * F.

(** [Read(n)] returns the bytes read, or [None] for a bad status; [Skip]
    returns whether its status is ok.  [sf_left] bounds the bytes left. *)
Class SequentialFile (F : Type) := {
  sf_read : F -> nat -> option (list Z) * F;
  sf_skip : F -> Z -> bool * F;
  sf_left : F -> nat }.

(** [Read(offset, n)] of a file opened for random access. *)
Class RandomFile (F : Type) := rf_read : F -> Z -> nat -> option (list Z).

(** ** Writer *)

Record Writer (F : Type) := mkWriter { dest_ : F; block_offset_ : Z; num_block_ : Z }.
Arguments mkWriter {F}. Arguments dest_ {F}. Arguments block_offset_ {F}. Arguments num_block_ {F}.

Definition writer {F} (dest : F) : Writer F := mkWriter dest 0 0.
Definition writer_at {F} (dest : F) (dest_length : Z) : Writer F :=
  mkWriter dest (dest_length mod kBlockSize) (dest_length / kBlockSize).

Definition write_off {F} (w : Writer F) : Z := kBlockSize * num_block_ w + block_offset_ w.

Section Write.
Context `{PastEnd} `{Accelerated} `{Placement}.

(** [type_crc_[t]] *)
Definition type_crc (t : Z) : Z := Value (address [t]) [t].

Definition header (t : Z) (data : list Z) : list Z :=
  let length := Z.of_nat (length data) in
  EncodeFixed32 (Mask (Extend (address data) (type_crc t) data))
    ++ [Z.land length 0xff; u8 (Z.shiftr length 8); u8 t].

Context `{WritableFile F}.

Definition EmitPhysicalRecord (t : Z) (data : list Z) (w : Writer F) : bool * Writer F :=
  let '(ok, d) := wf_append (dest_ w) (header t data) in
  let '(ok, d) := if ok : bool then wf_append d data else (ok, d) in
  (ok, mkWriter d (block_offset_ w + (kHeaderSize + Z.of_nat (length data))) (num_block_ w)).

(** Switching to a new block when a header does not fit any more. *)
Definition switch_block (w : Writer F) : Writer F :=
  let leftover := kBlockSize - block_offset_ w in
  if leftover <? kHeaderSize then
    let d := if 0 <? leftover then (wf_append (dest_ w) (replicate (Z.to_nat leftover) 0)).2 else dest_ w in
    mkWriter d 0 (num_block_ w + 1)
  else w.

Definition record_type (begin end_ : bool) : Z :=
  if begin && end_ then kFullType else if begin then kFirstType else if end_ then kLastType else kMiddleType.

(** The loop of [AddRecord]; every round but the first two takes a byte. *)
Fixpoint add_loop (rounds : nat) (begin : bool) (data : list Z) (w : Writer F) : option (bool * Writer F) :=
  match rounds with
  | O => None
  | S rounds =>
    let w := switch_block w in
    let avail := Z.to_nat (kBlockSize - block_offset_ w - kHeaderSize) in
    let fragment_length := Nat.min (length data) avail in
    let end_ := (length data =? fragment_length)%nat in
    let '(ok, w) := EmitPhysicalRecord (record_type begin end_) (take fragment_length data) w in
    let data := drop fragment_length data in
    if ok && (0 <? length data)%nat then add_loop rounds false data w else Some (ok, w)
  end.

Definition AddRecord (data : list Z) (w : Writer F) : option (bool * Writer F) :=
  add_loop (length data + 2) true data w.

End Write.

(** ** Reader *)

Inductive Reason :=
  | read_failed | bad_record_length | checksum_mismatch | partial_record_1 | partial_record_2
  | missing_start_1 | missing_start_2 | error_in_middle | unknown_record_type (t : Z).

Record Reader (F : Type) := mkReader {
  file_ : F;
  reporter_ : bool;
  checksum_ : bool;
  buffer_ : list Z;
  eof_ : bool;
  last_record_offset_ : Z;
  end_of_buffer_offset_ : Z;
  initial_offset_ : Z;
  resyncing_ : bool;
  (** what [Reporter::Corruption] was called with, latest first *)
  reports : list (Z * Reason) }.
Arguments mkReader {F}. Arguments file_ {F}. Arguments reporter_ {F}. Arguments checksum_ {F}. Arguments buffer_ {F}.
Arguments eof_ {F}. Arguments last_record_offset_ {F}. Arguments end_of_buffer_offset_ {F}. Arguments initial_offset_ {F}.
Arguments resyncing_ {F}. Arguments reports {F}.

Definition reader {F} (file : F) (reporter checksum : bool) (initial_offset : Z) : Reader F :=
  mkReader file reporter checksum [] false 0 0 initial_offset (0 <? initial_offset) [].

Section Read.
Context `{PastEnd} `{Accelerated} `{Placement} `{SequentialFile F}.

Definition set_buffer (b : list Z) (r : Reader F) : Reader F :=
  mkReader (file_ r) (reporter_ r) (checksum_ r) b (eof_ r) (last_record_offset_ r) (end_of_buffer_offset_ r)
    (initial_offset_ r) (resyncing_ r) (reports r).

Definition set_resyncing (b : bool) (r : Reader F) : Reader F :=
  mkReader (file_ r) (reporter_ r) (checksum_ r) (buffer_ r) (eof_ r) (last_record_offset_ r) (end_of_buffer_offset_ r)
    (initial_offset_ r) b (reports r).

Definition set_last_record (o : Z) (r : Reader F) : Reader F :=
  mkReader (file_ r) (reporter_ r) (checksum_ r) (buffer_ r) (eof_ r) o (end_of_buffer_offset_ r)
    (initial_offset_ r) (resyncing_ r) (reports r).

Definition buffered (r : Reader F) : Z := Z.of_nat (length (buffer_ r)).

Definition ReportDrop (bytes : Z) (reason : Reason) (r : Reader F) : Reader F :=
  if reporter_ r && (initial_offset_ r <=? u64 (end_of_buffer_offset_ r - buffered r - bytes)) then
    mkReader (file_ r) (reporter_ r) (checksum_ r) (buffer_ r) (eof_ r) (last_record_offset_ r) (end_of_buffer_offset_ r)
      (initial_offset_ r) (resyncing_ r) ((bytes, reason) :: reports r)
  else r.

(** [file_->Read(kBlockSize, ...)] and what follows it; [None]: the status was
    bad. *)
Definition refill (r : Reader F) : option (Reader F) * Reader F :=
  let '(status, f) := sf_read (file_ r) (Z.to_nat kBlockSize) in
  let b := default [] status in
  let r := mkReader f (reporter_ r) (checksum_ r) b (eof_ r) (last_record_offset_ r)
             (u64 (end_of_buffer_offset_ r + Z.of_nat (length b))) (initial_offset_ r) (resyncing_ r) (reports r) in
  let at_eof (r : Reader F) := mkReader (file_ r) (reporter_ r) (checksum_ r) (buffer_ r) true (last_record_offset_ r)
             (end_of_buffer_offset_ r) (initial_offset_ r) (resyncing_ r) (reports r) in
  match status with
  | None => (None, at_eof (ReportDrop kBlockSize read_failed (set_buffer [] r)))
  | Some _ => let r := if Z.of_nat (length b) <? kBlockSize then at_eof r else r in (Some r, r)
  end.

(** The rest of [ReadPhysicalRecord] once the buffer holds a header. *)
Definition parse_physical (result : list Z) (r : Reader F) : Z * list Z * Reader F :=
  let h := buffer_ r in
  let a := Z.land (peek h 4) 0xff in
  let b := Z.land (peek h 5) 0xff in
  let type := u32 (swrap 8 (peek h 6)) in
  let length_ := Z.lor a (Z.shiftl b 8) in
  if buffered r <? kHeaderSize + length_ then
    let drop_size := buffered r in
    let r := set_buffer [] r in
    if negb (eof_ r) then (kBadRecord, result, ReportDrop drop_size bad_record_length r)
    else (kEof, result, r)
  else if (type =? kZeroType) && (length_ =? 0) then (kBadRecord, result, set_buffer [] r)
  else
    let covered := take (Z.to_nat (1 + length_)) (drop 6 h) in
    if checksum_ r && negb (Value (address covered) covered =? Unmask (DecodeFixed32 h)) then
      let drop_size := buffered r in
      (kBadRecord, result, ReportDrop drop_size checksum_mismatch (set_buffer [] r))
    else
      let r := set_buffer (drop (Z.to_nat (kHeaderSize + length_)) h) r in
      if u64 (end_of_buffer_offset_ r - buffered r - kHeaderSize - length_) <? initial_offset_ r
      then (kBadRecord, [], r)
      else (type, take (Z.to_nat length_) (drop (Z.to_nat kHeaderSize) h), r).

(** The loop of [ReadPhysicalRecord] ends in its third round at the latest: a
    refill that leaves the buffer short sets [eof_]. *)
Fixpoint physical_loop (rounds : nat) (result : list Z) (r : Reader F) : option (Z * list Z * Reader F) :=
  match rounds with
  | O => None
  | S rounds =>
    if buffered r <? kHeaderSize then
      if negb (eof_ r) then
        match refill (set_buffer [] r) with
        | (None, r) => Some (kEof, result, r)
        | (Some r, _) => physical_loop rounds result r
        end
      else Some (kEof, result, set_buffer [] r)
    else Some (parse_physical result r)
  end.

Definition ReadPhysicalRecord (result : list Z) (r : Reader F) : option (Z * list Z * Reader F) :=
  physical_loop 3 result r.

Definition SkipToInitialBlock (r : Reader F) : bool * Reader F :=
  let offset_in_block := initial_offset_ r mod kBlockSize in
  let start := initial_offset_ r - offset_in_block in
  let start := if kBlockSize - 6 <? offset_in_block then u64 (start + kBlockSize) else start in
  let with_file f := mkReader f (reporter_ r) (checksum_ r) (buffer_ r) (eof_ r) (last_record_offset_ r) start
    (initial_offset_ r) (resyncing_ r) (reports r) in
  if 0 <? start then
    let '(ok, f) := sf_skip (file_ r) start in
    if ok : bool then (true, with_file f) else (false, ReportDrop start read_failed (with_file f))
  else (true, with_file (file_ r)).

(** A report about a fragmented record that has no end. *)
Definition report_partial (in_fragmented : bool) (scratch : list Z) (reason : Reason) (r : Reader F) : Reader F :=
  if in_fragmented && negb (bool_decide (scratch = [])) then ReportDrop (Z.of_nat (length scratch)) reason r else r.

(** The loop of [ReadRecord], with its locals; it returns [*record], or [None]
    for [false]. *)
Fixpoint read_loop (rounds : nat) (in_fragmented : bool) (prospective : Z) (scratch fragment : list Z) (r : Reader F)
    : option (option (list Z) * Reader F) :=
  match rounds with
  | O => None
  | S rounds =>
    match ReadPhysicalRecord fragment r with
    | None => None
    | Some (type, fragment, r) =>
      let physical_record_offset :=
        u64 (end_of_buffer_offset_ r - buffered r - kHeaderSize - Z.of_nat (length fragment)) in
      if resyncing_ r && (type =? kMiddleType) then read_loop rounds in_fragmented prospective scratch fragment r
      else if resyncing_ r && (type =? kLastType)
      then read_loop rounds in_fragmented prospective scratch fragment (set_resyncing false r)
      else
        let r := set_resyncing false r in
        if type =? kFullType then
          let r := report_partial in_fragmented scratch partial_record_1 r in
          Some (Some fragment, set_last_record physical_record_offset r)
        else if type =? kFirstType then
          let r := report_partial in_fragmented scratch partial_record_2 r in
          read_loop rounds true physical_record_offset fragment fragment r
        else if type =? kMiddleType then
          if negb in_fragmented
          then read_loop rounds in_fragmented prospective scratch fragment
                 (ReportDrop (Z.of_nat (length fragment)) missing_start_1 r)
          else read_loop rounds in_fragmented prospective (scratch ++ fragment) fragment r
        else if type =? kLastType then
          if negb in_fragmented
          then read_loop rounds in_fragmented prospective scratch fragment
                 (ReportDrop (Z.of_nat (length fragment)) missing_start_2 r)
          else Some (Some (scratch ++ fragment), set_last_record prospective r)
        else if type =? kEof then Some (None, r)
        else if type =? kBadRecord then
          if in_fragmented
          then read_loop rounds false prospective [] fragment
                 (ReportDrop (Z.of_nat (length scratch)) error_in_middle r)
          else read_loop rounds in_fragmented prospective scratch fragment r
        else
          read_loop rounds false prospective [] fragment
            (ReportDrop (Z.of_nat (length fragment) + (if in_fragmented then Z.of_nat (length scratch) else 0))
               (unknown_record_type type) r)
    end
  end.

(** Every round but the last takes a byte from the buffer or the file. *)
Definition ReadRecord (r : Reader F) : option (option (list Z) * Reader F) :=
  let '(ok, r) := if last_record_offset_ r <? initial_offset_ r then SkipToInitialBlock r else (true, r) in
  if ok : bool then read_loop (S (length (buffer_ r) + sf_left (file_ r))) false 0 [] [] r else Some (None, r).

End Read.

(** ** RandomReader *)

Record RandomReader (F : Type) := mkRandomReader { rr_file_ : F; rr_buffer_ : list Z; current_offset_ : Z }.
Arguments mkRandomReader {F}. Arguments rr_file_ {F}. Arguments rr_buffer_ {F}. Arguments current_offset_ {F}.

Definition random_reader {F} (file : F) : RandomReader F := mkRandomReader file [] 0.

Section RandomRead.
Context `{PastEnd} `{RandomFile F}.

(** The body of the loop returns in its first round on every path. *)
Definition random_physical (result : list Z) (r : RandomReader F) : Z * list Z * RandomReader F :=
  match rf_read (rr_file_ r) (current_offset_ r) (Z.to_nat kHeaderSize) with
  | None => (kEof, result, mkRandomReader (rr_file_ r) [] (current_offset_ r))
  | Some h =>
    let a := Z.land (peek h 4) 0xff in
    let b := Z.land (peek h 5) 0xff in
    let type := u32 (swrap 8 (peek h 6)) in
    let length_ := Z.lor a (Z.shiftl b 8) in
    if (type =? kZeroType) && (length_ =? 0)
    then (kBadRecord, result, mkRandomReader (rr_file_ r) [] (u64 (current_offset_ r + (kHeaderSize + length_))))
    else
      match rf_read (rr_file_ r) (u64 (current_offset_ r + kHeaderSize)) (Z.to_nat length_) with
      | None => (kEof, result, mkRandomReader (rr_file_ r) [] (current_offset_ r))
      | Some b => (type, take (Z.to_nat length_) b,
                   mkRandomReader (rr_file_ r) b (u64 (current_offset_ r + (kHeaderSize + length_))))
      end
  end.

(** The loop of [RandomReader::ReadRecord]; it goes on only after a first or a
    middle fragment. *)
Fixpoint random_loop (rounds : nat) (in_fragmented : bool) (scratch fragment : list Z) (r : RandomReader F)
    : option (option (list Z) * RandomReader F) :=
  match rounds with
  | O => None
  | S rounds =>
    let '(type, fragment, r) := random_physical fragment r in
    if type =? kFullType then Some (Some fragment, r)
    else if type =? kFirstType then random_loop rounds true fragment fragment r
    else if type =? kMiddleType then
      if negb in_fragmented then Some (None, r) else random_loop rounds in_fragmented (scratch ++ fragment) fragment r
    else if type =? kLastType then
      if negb in_fragmented then Some (None, r) else Some (Some (scratch ++ fragment), r)
    else Some (None, r)
  end.

Definition random_start (pos : Z) : Z :=
  if kBlockSize - pos mod kBlockSize <? kHeaderSize then u64 (kBlockSize * (pos / kBlockSize + 1)) else pos.

Definition random_ReadRecord (rounds : nat) (pos : Z) (r : RandomReader F) : option (option (list Z) * RandomReader F) :=
  random_loop rounds false [] [] (mkRandomReader (rr_file_ r) (rr_buffer_ r) (random_start pos)).

End RandomRead.

(** ** What the files promise *)

Class ReliableFile (F : Type) `{WritableFile F} := {
  contents : F -> list Z;
  append_ok f d : exists f', wf_append f d = (true, f') /\ contents f' = contents f ++ d }.

Class WholeReads (F : Type) `{SequentialFile F} := {
  remaining : F -> list Z;
  read_ok f n : exists f', sf_read f n = (Some (take n (remaining f)), f') /\ remaining f' = drop n (remaining f);
  left_ok f : (length (remaining f) <= sf_left f)%nat }.

(** A read inside the file returns what was asked for. *)
Class RandomReads (F : Type) `{RandomFile F} := {
  random_bytes : F -> list Z;
  random_read_ok f off n : 0 <= off -> off + Z.of_nat n <= Z.of_nat (length (random_bytes f)) ->
    rf_read f off n = Some (take n (drop (Z.to_nat off) (random_bytes f))) }.

(** A read never invents bytes: all that the termination of the reader needs. *)
Class BoundedReads (F : Type) `{SequentialFile F} : Prop := {
  read_bounded f n b f' : sf_read f n = (Some b, f') -> (length b + sf_left f' <= sf_left f)%nat;
  skip_bounded f n ok f' : sf_skip f n = (ok, f') -> (sf_left f' <= sf_left f)%nat }.

Class PlacementSpec `{Placement} : Prop := address_ok l :
  Z.of_nat (length l) <= 65536 -> 0 <= address l /\ address l + Z.of_nat (length l) + 3 < 2 ^ 64.

(** A file in memory. *)
#[export] Instance mem_writable : WritableFile (list Z) := fun f d => (true, f ++ d).
#[export] Instance mem_reliable : ReliableFile (list Z).
Proof. refine {| contents := fun f => f |}. intros f d. by exists (f ++ d). Defined.
#[export] Instance mem_sequential : SequentialFile (list Z) := {
  sf_read f n := (Some (take n f), drop n f);
  sf_skip f n := (true, drop (Z.to_nat n) f);
  sf_left f := length f }.
#[export] Instance mem_whole_reads : WholeReads (list Z).
Proof. refine {| remaining := fun f => f |}; [|done]. intros f n. by exists (drop n f). Defined.

#[export] Instance mem_random : RandomFile (list Z) := fun f off n => Some (take n (drop (Z.to_nat off) f)).
#[export] Instance mem_random_reads : RandomReads (list Z).
Proof. by refine {| random_bytes := fun f => f |}. Defined.

#[export] Instance mem_bounded_reads : BoundedReads (list Z).
Proof.
  split; intros f n; intros; simplify_eq/=; rewrite ?length_take, ?length_drop; lia.
Qed.

(** ** Reading ends *)

Section Ends.
Context `{PE : PastEnd} `{AC : Accelerated} `{PL : Placement} `{SF : SequentialFile F} `{BR : !BoundedReads F}.
Implicit Type r : Reader F.

(** The bytes a reader has not looked at. *)
Definition unread r : nat := (length (buffer_ r) + sf_left (file_ r))%nat.

Lemma ReportDrop_same bytes reason r :
  file_ (ReportDrop bytes reason r) = file_ r /\ buffer_ (ReportDrop bytes reason r) = buffer_ r.
Proof. unfold ReportDrop. by destruct (_ && _). Qed.

Lemma unread_ReportDrop bytes reason r : unread (ReportDrop bytes reason r) = unread r.
Proof. unfold unread. by destruct (ReportDrop_same bytes reason r) as [-> ->]. Qed.

Lemma unread_set_buffer b r : unread (set_buffer b r) = (length b + sf_left (file_ r))%nat.
Proof. done. Qed.

Lemma parse_physical_unread result r :
  kHeaderSize <= buffered r ->
  let '(t, _, r') := parse_physical result r in t = kEof \/ (unread r' < unread r)%nat.
Proof.
  intros Hb. unfold parse_physical, buffered in *. cbv zeta. unfold kHeaderSize in *.
  destruct (_ <? _) eqn:E.
  - destruct (negb _); [|by left]. right. rewrite unread_ReportDrop, unread_set_buffer. unfold unread. simpl. lia.
  - apply Z.ltb_ge in E. destruct (_ && _).
    { right. rewrite unread_set_buffer. unfold unread. simpl. lia. }
    destruct (_ && _).
    { right. rewrite unread_ReportDrop, unread_set_buffer. unfold unread. simpl. lia. }
    assert (0 <= Z.lor (Z.land (peek (buffer_ r) 4) 255) (Z.shiftl (Z.land (peek (buffer_ r) 5) 255) 8)).
    { apply Z.lor_nonneg. split; [apply Z.land_nonneg; lia|]. apply Z.shiftl_nonneg, Z.land_nonneg. lia. }
    destruct (_ <? _); right; rewrite unread_set_buffer, length_drop; unfold unread; lia.
Qed.

Lemma refill_unread r :
  match refill (set_buffer [] r) with
  | (None, _) => True
  | (Some r', _) => (unread r' <= unread r)%nat /\ (eof_ r' = true \/ kHeaderSize <= buffered r')
  end.
Proof.
  unfold refill. destruct (sf_read _ _) as [[b|] f] eqn:E; [|done]. apply read_bounded in E. simpl in E.
  simpl default. cbv zeta. destruct (Z.ltb_spec (Z.of_nat (length b)) kBlockSize); simpl.
  - split; [|by left]. unfold unread. simpl. lia.
  - split; [unfold unread; simpl; lia|]. right. unfold buffered, kBlockSize, kHeaderSize in *. simpl. lia.
Qed.

Lemma physical_loop_S rounds result r :
  physical_loop (S rounds) result r =
    if buffered r <? kHeaderSize then
      if negb (eof_ r) then
        match refill (set_buffer [] r) with
        | (None, r) => Some (kEof, result, r)
        | (Some r, _) => physical_loop rounds result r
        end
      else Some (kEof, result, set_buffer [] r)
    else Some (parse_physical result r).
Proof. done. Qed.

Lemma physical_returns result r :
  exists t fragment r', ReadPhysicalRecord result r = Some (t, fragment, r') /\ (t = kEof \/ (unread r' < unread r)%nat).
Proof.
  assert (P : forall rounds r, kHeaderSize <= buffered r ->
    exists t fragment r', physical_loop (S rounds) result r = Some (t, fragment, r') /\ (t = kEof \/ (unread r' < unread r)%nat)).
  { clear r. intros rounds r Hb. rewrite physical_loop_S. destruct (Z.ltb_spec (buffered r) kHeaderSize); [lia|].
    pose proof (parse_physical_unread result r Hb) as Hp. destruct (parse_physical result r) as [[t fr] r']. eauto 6. }
  unfold ReadPhysicalRecord. destruct (Z.lt_ge_cases (buffered r) kHeaderSize) as [Hb|Hb]; [|by apply P].
  rewrite physical_loop_S. destruct (Z.ltb_spec (buffered r) kHeaderSize); [|lia].
  destruct (eof_ r) eqn:Ee; simpl negb; cbv iota; [by eauto 8|].
  pose proof (refill_unread r) as Hr. destruct (refill _) as [[r1|] r2]; [|by eauto 8]. destruct Hr as [Hu Hr].
  destruct (Z.lt_ge_cases (buffered r1) kHeaderSize) as [Hh|Hh].
  - destruct Hr as [He|]; [|lia]. rewrite physical_loop_S, He. destruct (Z.ltb_spec (buffered r1) kHeaderSize); [|lia]. simpl. eauto 8.
  - destruct (P 1%nat r1 Hh) as (t & fr & r' & -> & Ht). eexists _, _, _. split; [done|]. destruct Ht; [by left|right; lia].
Qed.

(** [ReadRecord] returns, and a record takes bytes. *)
Lemma read_loop_returns rounds in_frag prospective scratch fragment r :
  (unread r < rounds)%nat ->
  exists d r', read_loop rounds in_frag prospective scratch fragment r = Some (d, r') /\ (d = None \/ (unread r' < unread r)%nat).
Proof.
  revert in_frag prospective scratch fragment r.
  induction rounds as [|k IH]; intros in_frag prospective scratch fragment r Hu; [lia|]. cbn [read_loop].
  destruct (physical_returns fragment r) as (t & fr & r' & -> & Ht). cbv zeta.
  destruct (Z.eq_dec t kEof) as [->|Hne].
  { simpl. rewrite !andb_false_r. simpl. eauto. }
  assert (Hlt : (unread r' < unread r)%nat) by (destruct Ht; [done|lia]). clear Ht.
  assert (Hgo : forall in_frag prospective scratch r2, unread r2 = unread r' ->
    exists d r3, read_loop k in_frag prospective scratch fr r2 = Some (d, r3) /\ (d = None \/ (unread r3 < unread r)%nat)).
  { intros b p sc r2 E. destruct (IH b p sc fr r2 ltac:(lia)) as (d & r3 & -> & H). eexists _, _. split; [done|].
    destruct H; [by left|right; lia]. }
  assert (Hp : forall reason, unread (report_partial in_frag scratch reason (set_resyncing false r')) = unread r').
  { intros reason. unfold report_partial. destruct (in_frag && _); [by rewrite unread_ReportDrop|done]. }
  repeat (case_match; try (by eauto)).
  all: try (by apply Hgo; rewrite ?unread_ReportDrop).
  all: try (eexists _, _; split; [reflexivity|right]; rewrite <- ?(Hp partial_record_1) in Hlt; exact Hlt).
Qed.

Lemma skip_unread r : (unread (SkipToInitialBlock r).2 <= unread r)%nat.
Proof.
  unfold SkipToInitialBlock. cbv zeta. destruct (0 <? _); [|done].
  destruct (sf_skip _ _) as [ok f] eqn:E. apply skip_bounded in E.
  destruct ok; cbn [snd]; rewrite ?unread_ReportDrop; unfold unread; simpl; lia.
Qed.

Lemma ReadRecord_returns r :
  exists d r', ReadRecord r = Some (d, r') /\ (d = None \/ (unread r' < unread r)%nat).
Proof.
  unfold ReadRecord. set (x := if _ <? _ then _ else _).
  assert (Hx : (unread x.2 <= unread r)%nat) by (unfold x; destruct (_ <? _); [apply skip_unread|done]).
  destruct x as [ok r1]. simpl in Hx. destruct ok; [|by eauto].
  destruct (read_loop_returns (S (length (buffer_ r1) + sf_left (file_ r1))) false 0 [] [] r1) as (d & r' & -> & H); [unfold unread; lia|].
  eexists _, _. split; [done|]. destruct H; [by left|right; lia].
Qed.

End Ends.

(** ** The bytes of a record *)

(** Where a fragment starts when the last one ended at [o], and the trailer
    skipped before it. *)
Definition start (o : Z) : Z := if kBlockSize - o <? kHeaderSize then 0 else o.
Definition trailer (o : Z) : list Z := if kBlockSize - o <? kHeaderSize then replicate (Z.to_nat (kBlockSize - o)) 0 else [].

Section Frames.
Context `{PE : PastEnd} `{AC : Accelerated} `{PL : Placement}.

Definition frame (t : Z) (data : list Z) : list Z := header t data ++ data.

(** [Frags begin o data bytes o']: [bytes] are the fragments of [data] from
    offset [o] in a block on, the last ending at [o']. *)
Inductive Frags : bool -> Z -> list Z -> list Z -> Z -> Prop :=
  | Frags_last begin o data :
      start o + kHeaderSize + Z.of_nat (length data) <= kBlockSize ->
      Frags begin o data (trailer o ++ frame (record_type begin true) data) (start o + kHeaderSize + Z.of_nat (length data))
  | Frags_more begin o data data' bytes o' :
      start o + kHeaderSize + Z.of_nat (length data) = kBlockSize -> data' <> [] ->
      Frags false kBlockSize data' bytes o' ->
      Frags begin o (data ++ data') (trailer o ++ frame (record_type begin false) data ++ bytes) o'.

(** [Log base o ds bytes ends o']: [bytes] are the records [ds] one after the
    other from offset [o] in a block and [base] in the file on, [ends] where
    each of them ends in the file. *)
Inductive Log : Z -> Z -> list (list Z) -> list Z -> list Z -> Z -> Prop :=
  | Log_nil base o : Log base o [] [] [] o
  | Log_cons base o d ds bytes rest ends o1 o2 :
      Frags true o d bytes o1 -> Log (base + Z.of_nat (length bytes)) o1 ds rest ends o2 ->
      Log base o (d :: ds) (bytes ++ rest) (base + Z.of_nat (length bytes) :: ends) o2.

Lemma start_ok o : 0 <= o <= kBlockSize -> 0 <= start o <= kBlockSize - kHeaderSize.
Proof. unfold start, kBlockSize, kHeaderSize. intros Ho. destruct (Z.ltb_spec (32768 - o) (4 + 2 + 1)); lia. Qed.

Lemma length_trailer o : 0 <= o <= kBlockSize -> Z.of_nat (length (trailer o)) = (start o - o) mod kBlockSize.
Proof.
  unfold start, trailer, kBlockSize, kHeaderSize. intros Ho. destruct (Z.ltb_spec (32768 - o) (4 + 2 + 1)).
  - rewrite length_replicate. replace (0 - o) with (32768 - o + (-1) * 32768) by lia. rewrite Z.mod_add by lia.
    rewrite Z.mod_small by lia. lia.
  - rewrite Z.sub_diag. done.
Qed.

Lemma length_header t data : length (header t data) = 7%nat.
Proof. done. Qed.

Lemma Frags_end begin o data bytes o' : 0 <= o <= kBlockSize -> Frags begin o data bytes o' -> 0 < o' <= kBlockSize.
Proof.
  intros Ho Hf. induction Hf as [begin o data Hl|begin o data data' bytes o' Hl Hd Hf IH].
  - apply start_ok in Ho. unfold kHeaderSize in *. lia.
  - apply IH. unfold kBlockSize. lia.
Qed.

End Frames.

Lemma mod_shift n a b : 0 < n -> a mod n = b mod n <-> exists k, a = b + k * n.
Proof.
  intros Hn. split.
  - intros E. exists (a / n - b / n). pose proof (Z.div_mod a n ltac:(lia)). pose proof (Z.div_mod b n ltac:(lia)). lia.
  - intros [k ->]. by rewrite Z.mod_add by lia.
Qed.

Lemma Frags_mod `{PastEnd} `{Accelerated} `{Placement} begin o data bytes o' base : Frags begin o data bytes o' ->
  0 <= o <= kBlockSize -> base mod kBlockSize = o mod kBlockSize -> (base + Z.of_nat (length bytes)) mod kBlockSize = o' mod kBlockSize.
Proof.
  assert (Ht : forall o base, 0 <= o <= kBlockSize -> base mod kBlockSize = o mod kBlockSize ->
    exists k, base + Z.of_nat (length (trailer o)) = start o + k * kBlockSize).
  { intros o1 b1 Ho Hm. apply mod_shift in Hm as [k ->]; [|done]. rewrite length_trailer by done.
    destruct (proj1 (mod_shift kBlockSize ((start o1 - o1) mod kBlockSize) (start o1 - o1) ltac:(done))) as [j ->];
      [by rewrite Z.mod_mod|]. exists (k + j). lia. }
  intros Hf. revert base. induction Hf as [begin o data Hl|begin o data data' bytes o' Hl Hd Hf IH]; intros base Ho Hm;
    destruct (Ht o base Ho Hm) as [k Hk].
  - apply mod_shift; [done|]. exists k. unfold frame. rewrite !length_app, length_header. unfold kHeaderSize in *. lia.
  - rewrite !length_app, !Nat2Z.inj_add, !Z.add_assoc. apply IH; [unfold kBlockSize; lia|]. apply mod_shift; [done|].
    exists k. unfold frame. rewrite length_app, length_header. unfold kHeaderSize in *. lia.
Qed.

Section WriteProps.
Context `{PE : PastEnd} `{AC : Accelerated} `{PL : Placement} `{WF : WritableFile F} `{RF : !ReliableFile F}.
Implicit Type w : Writer F.

(** A writer that stands at offset [o] of a block; at the end of a block it may
    have been opened anew. *)
Definition stands_at w (o : Z) : Prop :=
  0 <= o <= kBlockSize /\ (block_offset_ w = o \/ (o = kBlockSize /\ block_offset_ w = 0)) /\
  write_off w = Z.of_nat (length (contents (dest_ w))).

Lemma switch_block_spec w o :
  stands_at w o ->
  block_offset_ (switch_block w) = start o /\ contents (dest_ (switch_block w)) = contents (dest_ w) ++ trailer o /\
  write_off (switch_block w) = Z.of_nat (length (contents (dest_ w) ++ trailer o)).
Proof.
  intros (Ho & Hw & Hl). unfold switch_block, start, trailer, write_off, kBlockSize, kHeaderSize in *.
  destruct Hw as [Hw|[-> Hw]]; rewrite Hw in *.
  - destruct (Z.ltb_spec (32768 - o) (4 + 2 + 1)).
    + destruct (Z.ltb_spec 0 (32768 - o)).
      * destruct (append_ok (dest_ w) (replicate (Z.to_nat (32768 - o)) 0)) as (f' & -> & Hc). simpl.
        rewrite Hc, length_app, length_replicate. split_and!; [done|done|lia].
      * assert (o = 32768) as -> by lia. simpl. rewrite app_nil_r. split_and!; [done|done|lia].
    + rewrite app_nil_r. split_and!; [done|done|lia].
  - simpl. rewrite app_nil_r. split_and!; [done|done|]. rewrite Hw. lia.
Qed.

Lemma emit_spec t data w :
  exists w', EmitPhysicalRecord t data w = (true, w') /\ contents (dest_ w') = contents (dest_ w) ++ frame t data /\
    block_offset_ w' = block_offset_ w + kHeaderSize + Z.of_nat (length data) /\ num_block_ w' = num_block_ w.
Proof.
  unfold EmitPhysicalRecord. destruct (append_ok (dest_ w) (header t data)) as (f1 & -> & H1).
  destruct (append_ok f1 data) as (f2 & -> & H2). eexists. split; [done|]. simpl.
  rewrite H2, H1. unfold frame. rewrite app_assoc. split_and!; [done|lia|done].
Qed.

Lemma add_loop_spec rounds begin data w o :
  stands_at w o -> (length data + (if (start o =? 0)%Z then 1 else 2) <= rounds)%nat ->
  exists w' bytes o', add_loop rounds begin data w = Some (true, w') /\ Frags begin o data bytes o' /\
    contents (dest_ w') = contents (dest_ w) ++ bytes /\ stands_at w' o'.
Proof.
  revert begin data w o. induction rounds as [|k IH]; intros begin data w o Hw Hk.
  { destruct (_ =? _); lia. }
  destruct (switch_block_spec w o Hw) as (Hs1 & Hs2 & Hs3). pose proof (start_ok o (proj1 Hw)) as Hst.
  unfold write_off in Hs3. cbn [add_loop]. cbv zeta. rewrite Hs1.
  set (avail := Z.to_nat (kBlockSize - start o - kHeaderSize)). set (n := Nat.min (length data) avail).
  destruct (emit_spec (record_type begin (length data =? n)%nat) (take n data) (switch_block w)) as (w1 & -> & H1 & H2 & H3).
  rewrite Hs1 in H2. simpl andb.
  assert (Hlen : write_off w1 = Z.of_nat (length (contents (dest_ w1)))).
  { unfold write_off. rewrite H2, H3, H1. rewrite Hs1 in Hs3. rewrite Hs2. unfold frame.
    rewrite !length_app, length_header. rewrite length_app in Hs3. unfold kHeaderSize. lia. }
  destruct (Nat.le_gt_cases (length data) avail) as [Hf|Hf].
  - assert (n = length data) as En by (unfold n; lia). clearbody n. subst n. rewrite firstn_all in *. rewrite skipn_all. simpl.
    eexists w1, _, _. split; [done|]. rewrite Nat.eqb_refl in H1.
    assert (start o + kHeaderSize + Z.of_nat (length data) <= kBlockSize) by (unfold avail, kHeaderSize in *; lia).
    split; [by constructor|]. split; [by rewrite H1, Hs2, app_assoc|].
    split; [unfold kHeaderSize in *; lia|]. split; [by left|done].
  - assert (n = avail) as En by (unfold n; lia). clearbody n. subst n.
    destruct (Nat.ltb_spec 0 (length (drop avail data))) as [_|?]; [|rewrite length_drop in *; lia].
    destruct (Nat.eqb_spec (length data) avail); [lia|].
    assert (Hl : length (take avail data) = avail) by (rewrite length_take; lia).
    assert (He : start o + kHeaderSize + Z.of_nat avail = kBlockSize) by (unfold avail, kHeaderSize in *; lia).
    destruct (IH false (drop avail data) w1 kBlockSize) as (w' & bytes & o' & E & Hfr & Hc & Hw').
    { split; [unfold kBlockSize; lia|]. split; [left; rewrite H2, Hl; lia|done]. }
    { change (start kBlockSize) with 0. rewrite length_drop. simpl. unfold avail, kBlockSize, kHeaderSize in *.
      destruct (Z.eqb_spec (start o) 0) as [E0|]; [rewrite E0 in *|]; lia. }
    eexists w', _, o'. split; [exact E|]. rewrite <- (take_drop avail data) at 1. split.
    { apply Frags_more; [rewrite Hl; lia| |exact Hfr]. intros Hn%(f_equal length). rewrite length_drop in Hn. simpl in Hn. lia. }
    split; [|done]. by rewrite Hc, H1, Hs2, <- !app_assoc.
Qed.

(** Appending a record to a log. *)
Lemma AddRecord_spec data w o :
  stands_at w o ->
  exists w' bytes o', AddRecord data w = Some (true, w') /\ Frags true o data bytes o' /\
    contents (dest_ w') = contents (dest_ w) ++ bytes /\ stands_at w' o'.
Proof. intros Hw. apply add_loop_spec; [done|]. destruct (_ =? _); lia. Qed.

End WriteProps.

(** ** Reading fragments back *)

Lemma record_type_range begin end_ : 1 <= record_type begin end_ <= 4.
Proof. destruct begin, end_; unfold record_type, kFullType, kFirstType, kLastType, kMiddleType; simpl; lia. Qed.

Section ReadProps.
Context `{PE : PastEnd} `{AC : Accelerated} `{AS : !AcceleratedSpec} `{PL : Placement} `{PS : !PlacementSpec}.

Lemma Value_spec data :
  bytes_ok data -> Z.of_nat (length data) <= 65536 -> Value (address data) data = crc_extend 0 data.
Proof. intros Hd Hl. destruct (PS data Hl). apply Extend_spec; [done|done|unfold is_u; lia|done]. Qed.

Lemma header_crc t data rest :
  0 <= t <= 4 -> bytes_ok data -> Z.of_nat (length data) <= 65000 ->
  Unmask (DecodeFixed32 (header t data ++ rest)) = Value (address (t :: data)) (t :: data).
Proof.
  intros Ht Hd Hl. assert (Hb : is_byte t) by (unfold is_u; lia).
  unfold header. rewrite <- app_assoc, EncodeFixed32_le, DecodeFixed32_spec.
  assert (E : Extend (address data) (type_crc t) data = crc_extend 0 (t :: data)).
  { assert (Hbs : bytes_ok [t]) by (constructor; [done|constructor]). unfold type_crc.
    rewrite Value_spec by (done || (simpl; lia)). destruct (PS data ltac:(lia)) as [H1 H2].
    assert (Hu : is_u 32 (crc_extend 0 [t])) by (apply crc_extend_u32; [unfold is_u; lia|done]).
    rewrite Extend_spec by done.
    by rewrite <- crc_extend_app. }
  rewrite E, Value_spec by (by constructor || (simpl; lia)).
  assert (Hu : is_u 32 (crc_extend 0 (t :: data))) by (apply crc_extend_u32; [unfold is_u; lia|by constructor]).
  unfold u32. rewrite (wrap_id 32 (Mask _)) by apply Mask_u32. by apply Unmask_Mask.
Qed.

(** What the reader computes from a header. *)
Lemma header_fields t data rest :
  0 <= t <= 4 -> Z.of_nat (length data) <= kBlockSize ->
  let h := header t data ++ rest in
  Z.lor (Z.land (peek h 4) 0xff) (Z.shiftl (Z.land (peek h 5) 0xff) 8) = Z.of_nat (length data) /\
  u32 (swrap 8 (peek h 6)) = t.
Proof.
  intros Ht Hl h. unfold kBlockSize in Hl. set (n := Z.of_nat (length data)) in *.
  rewrite (peek_lookup h 4 (Z.land n 0xff)), (peek_lookup h 5 (u8 (Z.shiftr n 8))), (peek_lookup h 6 (u8 t)) by (done || lia).
  rewrite !land_ff. assert (Et : u8 t = t) by (apply wrap_id; unfold is_u; lia). rewrite Et.
  split.
  - unfold u8. rewrite !wrap_wrap. rewrite Z.shiftr_div_pow2 by lia. rewrite (wrap_id 8 (n / 2 ^ 8)).
    + rewrite Z.shiftl_mul_pow2 by lia. rewrite lor_le; [|lia|apply wrap_range; lia]. unfold wrap.
      pose proof (Z.div_mod n (2 ^ 8)). lia.
    + unfold is_u. split; [apply Z.div_pos; lia|]. apply Z.div_lt_upper_bound; lia.
  - rewrite swrap_id; [|lia|unfold is_s; simpl; lia]. apply wrap_id. unfold is_u. lia.
Qed.

Context `{SF : SequentialFile F} `{WR : !WholeReads F}.
Implicit Type r : Reader F.

(** A reader at offset [o] of a block with [rest] still to come: its buffer is
    what is left of the block, or of the file. *)
Record positioned r (o : Z) (rest : list Z) : Prop := {
  pos_initial : initial_offset_ r = 0;
  pos_resync : resyncing_ r = false;
  pos_off : 0 <= o <= kBlockSize;
  pos_rest : buffer_ r ++ remaining (file_ r) = rest;
  pos_buffer : (eof_ r = false /\ buffered r = kBlockSize - o) \/
               (eof_ r = true /\ remaining (file_ r) = [] /\ buffered r < kBlockSize - o) }.

Lemma parse_whole result r t data more :
  1 <= t <= 4 -> bytes_ok data -> Z.of_nat (length data) <= kBlockSize -> initial_offset_ r = 0 ->
  buffer_ r = frame t data ++ more ->
  parse_physical result r = (t, data, set_buffer more r).
Proof.
  intros Ht Hd Hl Hi Hb. unfold parse_physical. cbv zeta. unfold frame in Hb. rewrite <- app_assoc in Hb.
  destruct (header_fields t data (data ++ more) ltac:(lia) Hl) as [E1 E2]. rewrite Hb, E1, E2.
  assert (Hn : buffered r = kHeaderSize + Z.of_nat (length data) + Z.of_nat (length more)).
  { unfold buffered. rewrite Hb, !length_app, length_header. unfold kHeaderSize. lia. }
  destruct (Z.ltb_spec (buffered r) (kHeaderSize + Z.of_nat (length data))); [lia|].
  destruct (Z.eqb_spec t kZeroType) as [->|_]; [unfold kZeroType in *; lia|]. rewrite andb_false_l.
  assert (Et : u8 t = t) by (apply wrap_id; unfold is_u; lia).
  assert (Ec : take (Z.to_nat (1 + Z.of_nat (length data))) (drop 6 (header t data ++ data ++ more)) = t :: data).
  { unfold header. simpl. rewrite Et. replace (Z.to_nat (1 + Z.of_nat (length data))) with (S (length data)) by lia.
    simpl. by rewrite take_app_length. }
  rewrite Ec, header_crc, Z.eqb_refl by (done || lia || (unfold kBlockSize in *; lia)).
  rewrite andb_false_r. change (initial_offset_ (set_buffer ?b r)) with (initial_offset_ r). rewrite Hi.
  match goal with |- context [u64 ?x <? 0] => destruct (Z.ltb_spec (u64 x) 0) as [Hneg|_];
    [pose proof (wrap_range 64 x ltac:(lia)) as Hw; unfold is_u, u64 in *; lia|] end.
  replace (Z.to_nat (kHeaderSize + Z.of_nat (length data))) with (length (header t data ++ data))
    by (rewrite length_app, length_header; unfold kHeaderSize; lia).
  rewrite Nat2Z.id. change (Z.to_nat kHeaderSize) with (length (header t data)).
  rewrite drop_app_length, take_app_length, app_assoc, drop_app_length. done.
Qed.

Lemma parse_cut result r t data more tail :
  1 <= t <= 4 -> Z.of_nat (length data) <= kBlockSize -> eof_ r = true ->
  buffer_ r = header t data ++ more -> more ++ tail = data -> tail <> [] ->
  parse_physical result r = (kEof, result, set_buffer [] r).
Proof.
  intros Ht Hl He Hb Hd Hn. unfold parse_physical. cbv zeta.
  destruct (header_fields t data more ltac:(lia) Hl) as [E1 E2]. rewrite Hb, E1.
  destruct (Z.ltb_spec (buffered r) (kHeaderSize + Z.of_nat (length data))) as [_|Hge].
  - simpl. by rewrite He.
  - unfold buffered in Hge. rewrite Hb, length_app, length_header, <- Hd, length_app in Hge.
    assert (length tail <> 0%nat) by (by intros ?%nil_length_inv). unfold kHeaderSize in Hge. lia.
Qed.

Lemma in_block_whole rounds result r o t data rest :
  positioned r o (frame t data ++ rest) -> 1 <= t <= 4 -> bytes_ok data ->
  o + kHeaderSize + Z.of_nat (length data) <= kBlockSize ->
  exists r', physical_loop (S rounds) result r = Some (t, data, r') /\
    positioned r' (o + kHeaderSize + Z.of_nat (length data)) rest /\ reports r' = reports r.
Proof.
  intros [Hi Hs Ho Hr Hb] Ht Hd Hl. set (n := length (frame t data)).
  assert (En : Z.of_nat n = kHeaderSize + Z.of_nat (length data)).
  { unfold n, frame. rewrite length_app, length_header. unfold kHeaderSize. lia. }
  assert (Hn : (n <= length (buffer_ r))%nat).
  { unfold buffered in Hb. destruct Hb as [[_ Hb]|(_ & Hb & _)]; [lia|].
    apply (f_equal length) in Hr. rewrite Hb, app_nil_r, length_app in Hr. fold n in Hr. lia. }
  destruct (app_eq_inv _ _ _ _ Hr) as [(k & E1 & E2)|(k & E1 & E2)]; revgoals.
  - assert (k = []) as -> by (apply nil_length_inv; apply (f_equal length) in E1; rewrite length_app in E1; fold n in E1; lia).
    rewrite app_nil_r in E1. symmetry in E1. simpl in E2. rewrite physical_loop_S.
    destruct (Z.ltb_spec (buffered r) kHeaderSize); [unfold buffered in *; lia|].
    rewrite (parse_whole result r t data []) by (done || (unfold kHeaderSize in *; lia) || by rewrite app_nil_r).
    eexists. split; [done|]. split; [|done]. split; simpl; try done; [unfold kHeaderSize in *; lia|].
    unfold buffered in *. simpl. rewrite E1 in Hb. fold n in Hb.
    destruct Hb as [[? Hb]|(? & ? & Hb)]; [left; split|right; split_and!]; try done; lia.
  - rewrite physical_loop_S.
    destruct (Z.ltb_spec (buffered r) kHeaderSize); [unfold buffered in *; lia|].
    rewrite (parse_whole result r t data k) by (done || (unfold kHeaderSize in *; lia)).
    eexists. split; [done|]. split; [|done]. split; simpl; try done; [unfold kHeaderSize in *; lia|].
    unfold buffered in *. simpl. rewrite E1, length_app in Hb. fold n in Hb.
    destruct Hb as [[? Hb]|(? & ? & Hb)]; [left; split|right; split_and!]; try done; lia.
Qed.

Lemma in_block_cut rounds result r o t data rest tail :
  positioned r o rest -> rest ++ tail = frame t data -> tail <> [] -> 1 <= t <= 4 ->
  o + kHeaderSize + Z.of_nat (length data) <= kBlockSize ->
  exists r', physical_loop (S rounds) result r = Some (kEof, result, r') /\ reports r' = reports r.
Proof.
  intros [Hi Hs Ho Hr Hb] Hf Hn Ht Hl.
  assert (Hlt : (length rest < length (frame t data))%nat).
  { rewrite <- Hf, length_app. assert (length tail <> 0%nat) by (by intros ?%nil_length_inv). lia. }
  assert (En : Z.of_nat (length (frame t data)) = kHeaderSize + Z.of_nat (length data)).
  { unfold frame. rewrite length_app, length_header. unfold kHeaderSize. lia. }
  assert (Hlr : (length (buffer_ r) <= length rest)%nat) by (rewrite <- Hr, length_app; lia).
  unfold buffered in Hb. destruct Hb as [[_ Hb]|(He & Hre & _)]; [lia|].
  rewrite Hre, app_nil_r in Hr. rewrite physical_loop_S, He.
  destruct (Z.ltb_spec (buffered r) kHeaderSize) as [_|Hge]; [by eexists|].
  unfold frame in Hf. destruct (app_eq_inv _ _ _ _ Hf) as [(k & E1 & E2)|(k & E1 & E2)]; revgoals.
  - assert (k = []) as ->.
    { apply nil_length_inv. apply (f_equal length) in E1. rewrite length_app, length_header in E1.
      unfold buffered, kHeaderSize in Hge. rewrite Hr in Hge. lia. }
    rewrite app_nil_r in E1. simpl in E2.
    rewrite (parse_cut result r t data [] tail); try done; [by eexists|unfold kHeaderSize in *; lia|by rewrite app_nil_r, Hr].
  - rewrite (parse_cut result r t data k tail); try done; [by eexists|unfold kHeaderSize in *; lia|by rewrite Hr].
Qed.

(** At the end of a block the reader skips the trailer and loads the next
    block. *)
Lemma skip_trailer rounds result r o rest :
  positioned r o rest -> kBlockSize - o < kHeaderSize -> kBlockSize - o <= Z.of_nat (length rest) ->
  exists r', physical_loop (S rounds) result r = physical_loop rounds result r' /\
    positioned r' 0 (drop (Z.to_nat (kBlockSize - o)) rest) /\ reports r' = reports r.
Proof.
  intros [Hi Hs Ho Hr Hb] Hk Hl. unfold buffered in Hb. destruct Hb as [[He Hb]|(He & Hre & Hb)].
  2:{ rewrite Hre, app_nil_r in Hr. rewrite Hr in Hb. lia. }
  rewrite physical_loop_S, He. destruct (Z.ltb_spec (buffered r) kHeaderSize) as [_|?]; [|unfold buffered in *; lia].
  unfold refill. change (file_ (set_buffer [] r)) with (file_ r).
  destruct (read_ok (file_ r) (Z.to_nat kBlockSize)) as (f' & -> & Hf'). simpl default. simpl negb. cbv iota zeta.
  assert (Ed : drop (Z.to_nat (kBlockSize - o)) rest = remaining (file_ r)).
  { rewrite <- Hr, <- Hb, Nat2Z.id. apply drop_app_length. }
  rewrite Ed. eexists. split; [reflexivity|].
  destruct (Z.ltb_spec (Z.of_nat (length (take (Z.to_nat kBlockSize) (remaining (file_ r))))) kBlockSize) as [Hs'|Hs'].
  - rewrite length_take in Hs'. split; [|done]. split; simpl; try done; [by rewrite Hf', take_drop|].
    right. split; [done|]. split; [rewrite Hf'; apply drop_ge; lia|]. unfold buffered. simpl. rewrite length_take. lia.
  - rewrite length_take in Hs'. split; [|done]. split; simpl; try done; [by rewrite Hf', take_drop|].
    left. split; [done|]. unfold buffered. simpl. rewrite length_take. unfold kBlockSize in *. lia.
Qed.

(** Less than the trailer of a block is left: the file ended. *)
Lemma cut_in_trailer rounds result r o rest :
  positioned r o rest -> kBlockSize - o < kHeaderSize -> Z.of_nat (length rest) < kBlockSize - o ->
  exists r', physical_loop (S rounds) result r = Some (kEof, result, r') /\ reports r' = reports r.
Proof.
  intros [Hi Hs Ho Hr Hb] Hk Hl. unfold buffered in Hb.
  assert (Hlr : (length (buffer_ r) <= length rest)%nat) by (rewrite <- Hr, length_app; lia).
  destruct Hb as [[He Hb]|(He & Hre & Hb)]; [lia|].
  rewrite physical_loop_S, He. destruct (Z.ltb_spec (buffered r) kHeaderSize) as [_|?]; [|unfold buffered in *; lia].
  by eexists.
Qed.

Lemma physical_whole result r o t data rest :
  positioned r o (trailer o ++ frame t data ++ rest) -> 1 <= t <= 4 -> bytes_ok data ->
  start o + kHeaderSize + Z.of_nat (length data) <= kBlockSize ->
  exists r', ReadPhysicalRecord result r = Some (t, data, r') /\
    positioned r' (start o + kHeaderSize + Z.of_nat (length data)) rest /\ reports r' = reports r.
Proof.
  unfold start, trailer, ReadPhysicalRecord. intros Hp Ht Hd Hl.
  destruct (Z.ltb_spec (kBlockSize - o) kHeaderSize) as [Hk|Hk]; [|by apply in_block_whole].
  pose proof (pos_off _ _ _ Hp).
  destruct (skip_trailer 2 result r o _ Hp Hk) as (r1 & -> & Hp1 & <-).
  { rewrite length_app, length_replicate. lia. }
  rewrite drop_app_length' in Hp1 by (by rewrite length_replicate). by apply in_block_whole.
Qed.

Lemma physical_cut result r o t data rest tail :
  positioned r o rest -> rest ++ tail = trailer o ++ frame t data -> tail <> [] -> 1 <= t <= 4 ->
  start o + kHeaderSize + Z.of_nat (length data) <= kBlockSize ->
  exists r', ReadPhysicalRecord result r = Some (kEof, result, r') /\ reports r' = reports r.
Proof.
  unfold start, trailer, ReadPhysicalRecord. intros Hp Hf Hn Ht Hl.
  destruct (Z.ltb_spec (kBlockSize - o) kHeaderSize) as [Hk|Hk]; [|by eapply in_block_cut].
  pose proof (pos_off _ _ _ Hp).
  destruct (Z.lt_ge_cases (Z.of_nat (length rest)) (kBlockSize - o)) as [Hc|Hc]; [by eapply cut_in_trailer|].
  destruct (skip_trailer 2 result r o _ Hp Hk ltac:(lia)) as (r1 & -> & Hp1 & <-).
  eapply in_block_cut; [exact Hp1| |exact Hn|exact Ht|exact Hl].
  rewrite <- drop_app_le by lia. rewrite Hf. by rewrite drop_app_length' by (by rewrite length_replicate).
Qed.

(** ** Reading records back *)

Lemma read_loop_S rounds in_frag prospective scratch fragment r t fr r' :
  ReadPhysicalRecord fragment r = Some (t, fr, r') -> resyncing_ r' = false ->
  exists off, read_loop (S rounds) in_frag prospective scratch fragment r =
    if t =? kFullType then Some (Some fr, set_last_record off (report_partial in_frag scratch partial_record_1 r'))
    else if t =? kFirstType then read_loop rounds true off fr fr (report_partial in_frag scratch partial_record_2 r')
    else if t =? kMiddleType then
      if in_frag then read_loop rounds true prospective (scratch ++ fr) fr r'
      else read_loop rounds false prospective scratch fr (ReportDrop (Z.of_nat (length fr)) missing_start_1 r')
    else if t =? kLastType then
      if in_frag then Some (Some (scratch ++ fr), set_last_record prospective r')
      else read_loop rounds false prospective scratch fr (ReportDrop (Z.of_nat (length fr)) missing_start_2 r')
    else if t =? kEof then Some (None, r')
    else read_loop (S rounds) in_frag prospective scratch fragment r.
Proof.
  intros E Hr. eexists. cbn [read_loop]. rewrite E, Hr. simpl andb. cbv iota zeta.
  assert (Hs : set_resyncing false r' = r') by (destruct r'; simpl in *; by subst). rewrite Hs.
  by repeat (case_match; try done).
Qed.

Lemma read_loop_eof rounds in_frag prospective scratch fragment r fr r' :
  ReadPhysicalRecord fragment r = Some (kEof, fr, r') -> reports r' = reports r ->
  exists r2, read_loop (S rounds) in_frag prospective scratch fragment r = Some (None, r2) /\ reports r2 = reports r.
Proof.
  intros E Hr. exists (set_resyncing false r'). split; [|done]. cbn [read_loop]. rewrite E. simpl. by rewrite !andb_false_r.
Qed.

(** The fragments of a record, read from where they start: in full they give
    the record; cut anywhere they give the end of the log. *)
Lemma read_frags begin o data bytes o' : Frags begin o data bytes o' ->
  forall rounds prospective scratch fragment r rest,
  bytes_ok data -> (begin = true -> scratch = []) ->
  ((length bytes < rounds)%nat -> positioned r o (bytes ++ rest) ->
     exists r', read_loop rounds (negb begin) prospective scratch fragment r = Some (Some (scratch ++ data), r') /\
       positioned r' o' rest /\ reports r' = reports r) /\
  (forall tail, (length rest < rounds)%nat -> positioned r o rest -> rest ++ tail = bytes -> tail <> [] ->
     exists r', read_loop rounds (negb begin) prospective scratch fragment r = Some (None, r') /\ reports r' = reports r).
Proof.
  intros Hf. induction Hf as [begin o data Hl|begin o data data' bytes o' Hl Hd' Hf IH];
    intros rounds prospective scratch fragment r rest Hb Hs.
  - split.
    + intros Hn Hp. destruct rounds as [|rounds]; [lia|]. rewrite <- app_assoc in Hp.
      destruct (physical_whole fragment r o _ data rest Hp (record_type_range begin true) Hb Hl) as (r' & E & Hp' & Hr').
      destruct (read_loop_S rounds (negb begin) prospective scratch fragment r _ _ _ E (pos_resync _ _ _ Hp')) as [off ->].
      destruct begin; simpl.
      * rewrite (Hs eq_refl). simpl. eexists. split; [done|]. split; [|done]. destruct Hp'; by split.
      * eexists. split; [done|]. split; [|done]. destruct Hp'; by split.
    + intros tail Hn Hp Ht Hne. destruct rounds as [|rounds]; [lia|].
      destruct (physical_cut fragment r o _ data rest tail Hp Ht Hne (record_type_range begin true) Hl) as (r' & E & Hr').
      by apply (read_loop_eof _ _ _ _ _ _ _ _ E).
  - cbn [negb] in IH. apply Forall_app in Hb as [Hb Hb'].
    assert (Hw : forall k rest, positioned r o (trailer o ++ frame (record_type begin false) data ++ rest) ->
      exists r1 off, positioned r1 kBlockSize rest /\ reports r1 = reports r /\
        read_loop (S k) (negb begin) prospective scratch fragment r = read_loop k true off (scratch ++ data) data r1).
    { intros k rest0 Hp.
      destruct (physical_whole fragment r o _ data rest0 Hp (record_type_range begin false) Hb ltac:(lia)) as (r' & E & Hp' & Hr').
      destruct (read_loop_S k (negb begin) prospective scratch fragment r _ _ _ E (pos_resync _ _ _ Hp')) as [off ->].
      rewrite Hl in Hp'. destruct begin; simpl; [rewrite (Hs eq_refl)|]; eauto 6. }
    assert (Hfl : (1 <= length (frame (record_type begin false) data))%nat) by (unfold frame; rewrite length_app, length_header; lia).
    split.
    + intros Hn Hp. destruct rounds as [|rounds]; [lia|]. rewrite !length_app in Hn.
      rewrite <- !app_assoc in Hp. destruct (Hw rounds _ Hp) as (r1 & off & Hp1 & Hr1 & ->).
      destruct (IH rounds off (scratch ++ data) data r1 rest Hb' ltac:(done)) as [IH1 _].
      destruct (IH1 ltac:(lia) Hp1) as (r' & -> & Hp' & Hr'). exists r'. rewrite <- app_assoc. split_and!; [done|done|congruence].
    + intros tail Hn Hp Ht Hne. destruct rounds as [|rounds]; [lia|]. rewrite app_assoc in Ht.
      assert (Hc : forall k, rest = (trailer o ++ frame (record_type begin false) data) ++ k -> k ++ tail = bytes ->
        exists r', read_loop (S rounds) (negb begin) prospective scratch fragment r = Some (None, r') /\ reports r' = reports r).
      { intros k -> E2. rewrite !length_app in Hn. rewrite <- app_assoc in Hp. destruct (Hw rounds _ Hp) as (r1 & off & Hp1 & Hr1 & ->).
        destruct (IH rounds off (scratch ++ data) data r1 k Hb' ltac:(done)) as [_ IH2].
        destruct (IH2 tail ltac:(lia) Hp1 E2 Hne) as (r' & -> & Hr'). exists r'. split; [done|congruence]. }
      destruct (app_eq_inv _ _ _ _ Ht) as [(k & E1 & E2)|(k & E1 & E2)]; [by apply (Hc k)|].
      destruct (decide (k = [])) as [->|Hk]; [apply (Hc []); [by rewrite app_nil_r in *|done]|].
      destruct (physical_cut fragment r o _ data rest k Hp (eq_sym E1) Hk (record_type_range begin false) ltac:(lia)) as (r' & E & Hr').
      by apply (read_loop_eof _ _ _ _ _ _ _ _ E).
Qed.

(** ** Reading a log *)

Lemma ReadRecord_loop r o rest :
  positioned r o rest ->
  exists r1 rounds, ReadRecord r = read_loop rounds false 0 [] [] r1 /\ positioned r1 o rest /\
    (length rest < rounds)%nat /\ reports r1 = reports r.
Proof.
  intros Hp. assert (Hl : forall f : F, (length (remaining f) <= sf_left f)%nat) by apply left_ok.
  assert (Hn : forall r1, positioned r1 o rest -> (length rest < S (length (buffer_ r1) + sf_left (file_ r1)))%nat).
  { intros r1 H1. rewrite <- (pos_rest _ _ _ H1), length_app. specialize (Hl (file_ r1)). lia. }
  unfold ReadRecord. rewrite (pos_initial _ _ _ Hp). destruct (Z.ltb_spec (last_record_offset_ r) 0).
  - set (r0 := mkReader (file_ r) (reporter_ r) (checksum_ r) (buffer_ r) (eof_ r) (last_record_offset_ r) 0 0 (resyncing_ r) (reports r)).
    assert (E : SkipToInitialBlock r = (true, r0)) by (unfold SkipToInitialBlock; by rewrite (pos_initial _ _ _ Hp)).
    rewrite E. assert (Hp' : positioned r0 o rest) by (destruct Hp; by split).
    eexists r0, _. split; [reflexivity|]. split; [done|]. split; [by apply (Hn _ Hp')|done].
  - eexists r, _. split; [reflexivity|]. split; [done|]. split; [by apply Hn|done].
Qed.

(** Calling [ReadRecord] until it returns false. *)
Fixpoint read_all (rounds : nat) (r : Reader F) : option (list (list Z) * Reader F) :=
  match rounds with
  | O => None
  | S rounds =>
    '(d, r) ← ReadRecord r;
    match d with
    | None => Some ([], r)
    | Some d => '(ds, r) ← read_all rounds r; Some (d :: ds, r)
    end
  end.

Lemma Log_ends base o ds bytes ends o' :
  Log base o ds bytes ends o' ->
  length ends = length ds /\ Forall (fun e => base < e <= base + Z.of_nat (length bytes)) ends /\ StronglySorted Z.lt ends.
Proof.
  intros Hl. induction Hl as [|base o d ds bytes rest ends o1 o2 Hf Hl (IH1 & IH2 & IH3)]; [by repeat constructor|].
  assert (Hb : (7 <= length bytes)%nat).
  { inversion Hf; subst; unfold frame; rewrite !length_app, length_header; lia. }
  rewrite length_app. split; [simpl; lia|]. split.
  - constructor; [lia|]. eapply List.Forall_impl; [|exact IH2]. intros e. simpl. lia.
  - constructor; [done|]. eapply List.Forall_impl; [|exact IH2]. intros e. simpl. lia.
Qed.

Lemma filter_none ds ends n :
  Forall (fun e => n < e) ends -> filter (fun x : list Z * Z => x.2 <= n) (zip ds ends) = [].
Proof.
  intros He. revert ds. induction He as [|e ends Hle _ IH]; intros [|d ds]; try done. simpl. rewrite filter_cons.
  rewrite decide_False by (simpl; lia). apply IH.
Qed.

(** Reading the first [n] bytes of a log: the records that end in them. *)
Lemma read_log base o ds bytes ends o' n :
  Log base o ds bytes ends o' -> Forall bytes_ok ds -> base <= n -> 0 <= o <= kBlockSize ->
  forall r, positioned r o (take (Z.to_nat (n - base)) bytes) ->
  exists r', read_all (S (length ds)) r = Some ((filter (fun x => x.2 <= n) (zip ds ends)).*1, r') /\ reports r' = reports r.
Proof.
  intros Hl. induction Hl as [base o|base o d ds bytes rest ends o1 o2 Hf Hl IH]; intros Hd Hn Ho r Hp.
  - rewrite take_nil in Hp. destruct (ReadRecord_loop r o [] Hp) as (r1 & k & E & Hp1 & Hk & <-).
    assert (Hl : start o + kHeaderSize + Z.of_nat (length (@nil Z)) <= kBlockSize) by (apply start_ok in Ho; simpl; lia).
    destruct (read_frags _ _ _ _ _ (Frags_last true o [] Hl) k 0 [] [] r1 [] (Forall_nil_2 _) ltac:(done)) as [_ Hc].
    destruct (Hc (trailer o ++ frame (record_type true true) []) Hk Hp1 eq_refl) as (r' & Er & Hr').
    { intros Hnil%(f_equal length). unfold frame in Hnil. rewrite !length_app, length_header in Hnil. simpl in Hnil. lia. }
    exists r'. split; [|done]. cbn [read_all length]. change (negb true) with false in Er. by rewrite E, Er.
  - apply Forall_cons_1 in Hd as [Hd Hds]. pose proof (Frags_end _ _ _ _ _ Ho Hf) as Ho1.
    destruct (ReadRecord_loop r o _ Hp) as (r1 & k & E & Hp1 & Hk & <-). cbn [length read_all]. rewrite E.
    destruct (Z.le_gt_cases (base + Z.of_nat (length bytes)) n) as [Hle|Hgt].
    + rewrite take_app_ge in Hp1, Hk by lia. rewrite length_app in Hk.
      destruct (read_frags _ _ _ _ _ Hf k 0 [] [] r1 (take (Z.to_nat (n - base) - length bytes) rest) Hd ltac:(done)) as [Hw _].
      destruct (Hw ltac:(lia) Hp1) as (r2 & Er & Hp2 & Hr2). change (negb true) with false in Er. rewrite Er. simpl.
      replace (Z.to_nat (n - base) - length bytes)%nat with (Z.to_nat (n - (base + Z.of_nat (length bytes)))) in Hp2 by lia.
      destruct (IH Hds ltac:(lia) ltac:(lia) r2 Hp2) as (r' & Ea & Hr'). cbn [read_all length] in Ea. rewrite Ea.
      exists r'. rewrite filter_cons, decide_True by (simpl; lia). split; [done|congruence].
    + rewrite take_app_le in Hp1, Hk by lia.
      destruct (read_frags _ _ _ _ _ Hf k 0 [] [] r1 (take (Z.to_nat (n - base)) bytes) Hd ltac:(done)) as [_ Hc].
      destruct (Hc (drop (Z.to_nat (n - base)) bytes) Hk Hp1 (take_drop _ _)) as (r' & Er & Hr').
      { intros Hnil%(f_equal length). rewrite length_drop in Hnil. simpl in Hnil. lia. }
      change (negb true) with false in Er. rewrite Er. exists r'. split; [|done]. simpl.
      change (((d, base + Z.of_nat (length bytes)) :: zip ds ends)) with (zip (d :: ds) (base + Z.of_nat (length bytes) :: ends)).
      rewrite filter_none; [done|]. constructor; [lia|].
      destruct (Log_ends _ _ _ _ _ _ Hl) as (_ & He & _). eapply List.Forall_impl; [|exact He]. intros e. simpl. lia.
Qed.

End ReadProps.

(** ** Reading a record at its offset *)

Section RandomProps.
Context `{PE : PastEnd} `{AC : Accelerated} `{PL : Placement}.
Context `{RA : RandomFile F} `{RR : !RandomReads F}.

Lemma random_physical_spec result (r : RandomReader F) pre t data post :
  random_bytes (rr_file_ r) = pre ++ frame t data ++ post -> current_offset_ r = Z.of_nat (length pre) ->
  Z.of_nat (length (random_bytes (rr_file_ r))) < 2 ^ 63 -> 1 <= t <= 4 -> Z.of_nat (length data) <= kBlockSize ->
  exists r', random_physical result r = (t, data, r') /\ rr_file_ r' = rr_file_ r /\
    current_offset_ r' = Z.of_nat (length (pre ++ frame t data)).
Proof.
  intros Hf Ho Hl Ht Hd. assert (Hn := f_equal length Hf). unfold frame in *. rewrite !length_app, length_header in Hn.
  assert (Eu : forall z, 0 <= z < 2 ^ 63 -> u64 z = z) by (intros z Hz; apply wrap_id; unfold is_u; lia).
  unfold random_physical. rewrite Ho. rewrite random_read_ok by (rewrite ?Hn; change (Z.to_nat kHeaderSize) with 7%nat; lia).
  rewrite Nat2Z.id, Hf, drop_app_length. change (Z.to_nat kHeaderSize) with (length (header t data)).
  rewrite <- app_assoc, take_app_length. cbv iota zeta.
  destruct (header_fields t data [] ltac:(lia) Hd) as [E1 E2]. rewrite app_nil_r in E1, E2. rewrite E1, E2.
  destruct (Z.eqb_spec t kZeroType) as [->|_]; [unfold kZeroType in *; lia|]. rewrite andb_false_l.
  change kHeaderSize with 7. rewrite !Eu by lia. rewrite random_read_ok by (rewrite ?Hn; lia).
  replace (Z.to_nat (Z.of_nat (length pre) + 7)) with (length (pre ++ header t data)) by (rewrite length_app, length_header; lia).
  rewrite Nat2Z.id, Hf. rewrite <- app_assoc, (app_assoc pre (header t data)), drop_app_length, take_app_length, firstn_all.
  eexists. split; [reflexivity|]. split; [done|]. simpl current_offset_. rewrite !length_app, length_header. lia.
Qed.

Lemma random_start_spec pos o :
  0 <= pos < 2 ^ 62 -> 0 <= o <= kBlockSize -> pos mod kBlockSize = o mod kBlockSize ->
  random_start pos = pos + Z.of_nat (length (trailer o)).
Proof.
  intros Hp Ho Hm. unfold random_start, trailer. rewrite Hm. pose proof (Z.div_mod pos kBlockSize ltac:(done)) as Hdm.
  pose proof (Z.mod_pos_bound pos kBlockSize ltac:(done)) as Hb. unfold kBlockSize, kHeaderSize in *.
  destruct (Z.eq_dec o 32768) as [->|Hne].
  - change (32768 mod 32768) with 0 in *. simpl. lia.
  - rewrite (Z.mod_small o) in * by lia. destruct (Z.ltb_spec (32768 - o) (4 + 2 + 1)); [|simpl; lia].
    rewrite length_replicate. assert (Eu : u64 (32768 * (pos / 32768 + 1)) = 32768 * (pos / 32768 + 1)); [|lia].
    apply wrap_id. unfold is_u. lia.
Qed.

Lemma random_frags begin o data bytes o' : Frags begin o data bytes o' ->
  forall rounds scratch fragment (r : RandomReader F) pre post,
  random_bytes (rr_file_ r) = pre ++ bytes ++ post -> current_offset_ r = Z.of_nat (length (pre ++ trailer o)) ->
  Z.of_nat (length (random_bytes (rr_file_ r))) < 2 ^ 62 -> 0 <= o <= kBlockSize ->
  (length bytes < rounds)%nat -> (begin = true -> scratch = []) ->
  exists r', random_loop rounds (negb begin) scratch fragment r = Some (Some (scratch ++ data), r').
Proof.
  intros Hf. induction Hf as [begin o data Hl|begin o data data' bytes o' Hl Hd' Hf IH];
    intros rounds scratch fragment r pre post Hb Ho Hn Hoo Hk Hs; (destruct rounds as [|rounds]; [lia|]).
  - pose proof (start_ok o Hoo). rewrite <- app_assoc, app_assoc in Hb.
    destruct (random_physical_spec fragment r (pre ++ trailer o) (record_type begin true) data post) as (r' & E & _); try done;
      [lia|apply record_type_range|unfold kHeaderSize in *; lia|].
    cbn [random_loop]. rewrite E. destruct begin; simpl; [rewrite (Hs eq_refl)|]; by eexists.
  - pose proof (start_ok o Hoo). rewrite <- !app_assoc in Hb. rewrite app_assoc in Hb.
    destruct (random_physical_spec fragment r (pre ++ trailer o) (record_type begin false) data (bytes ++ post)) as (r' & E & Ef & Eo);
      try done; [lia|apply record_type_range|unfold kHeaderSize in *; lia|].
    assert (Hfl : (7 <= length (frame (record_type begin false) data))%nat) by (unfold frame; rewrite length_app, length_header; lia).
    rewrite !length_app in Hk.
    destruct (IH rounds (scratch ++ data) data r' ((pre ++ trailer o) ++ frame (record_type begin false) data) post) as (r2 & E2); try done;
      [by rewrite Ef, Hb, <- !app_assoc|by rewrite Eo, app_nil_r|by rewrite Ef|lia|].
    exists r2. cbn [random_loop]. rewrite E. rewrite app_assoc. destruct begin; simpl; [rewrite (Hs eq_refl) in *|]; exact E2.
Qed.

End RandomProps.

(** ** Properties *)

Section LogProps.
Context `{PE : PastEnd} `{AC : Accelerated} `{AS : !AcceleratedSpec} `{PL : Placement} `{PS : !PlacementSpec}.
Context `{WF : WritableFile F} `{RF : !ReliableFile F}.

(** Appending records through one writer, with the offset after each. *)
Fixpoint add_all (ds : list (list Z)) (w : Writer F) : option (list Z * Writer F) :=
  match ds with
  | [] => Some ([], w)
  | d :: ds =>
    '(ok, w) ← AddRecord d w;
    if ok : bool then '(ends, w') ← add_all ds w; Some (write_off w :: ends, w') else None
  end.

(** Opening the log anew for each batch of records. *)
Fixpoint write_batches (batches : list (list (list Z))) (f : F) : option (list Z * F) :=
  match batches with
  | [] => Some ([], f)
  | ds :: batches =>
    '(ends, w) ← add_all ds (writer_at f (Z.of_nat (length (contents f))));
    '(ends', f) ← write_batches batches (dest_ w);
    Some (ends ++ ends', f)
  end.

Lemma add_all_spec ds w o :
  stands_at w o ->
  exists ends w' bytes o', add_all ds w = Some (ends, w') /\ contents (dest_ w') = contents (dest_ w) ++ bytes /\
    Log (Z.of_nat (length (contents (dest_ w)))) o ds bytes ends o' /\ stands_at w' o'.
Proof.
  revert w o. induction ds as [|d ds IH]; intros w o Hw.
  - eexists [], w, [], o. rewrite app_nil_r. split_and!; [done|done|constructor|done].
  - destruct (AddRecord_spec d w o Hw) as (w1 & b1 & o1 & E1 & Hf & Hc1 & Hw1).
    destruct (IH w1 o1 Hw1) as (ends & w' & b2 & o2 & E2 & Hc2 & Hl & Hw').
    assert (He : write_off w1 = Z.of_nat (length (contents (dest_ w))) + Z.of_nat (length b1)).
    { destruct Hw1 as (_ & _ & ->). rewrite Hc1, length_app. lia. }
    exists (write_off w1 :: ends), w', (b1 ++ b2), o2. split; [cbn [add_all]; rewrite E1; simpl; by rewrite E2|].
    split; [by rewrite Hc2, Hc1, app_assoc|]. split; [|done]. rewrite He. constructor 2 with (o1 := o1); [done|].
    rewrite Hc1, length_app, Nat2Z.inj_add in Hl. exact Hl.
Qed.

Lemma Log_app base o ds bytes ends o1 ds' bytes' ends' o2 :
  Log base o ds bytes ends o1 -> Log (base + Z.of_nat (length bytes)) o1 ds' bytes' ends' o2 ->
  Log base o (ds ++ ds') (bytes ++ bytes') (ends ++ ends') o2.
Proof.
  intros Hl Hl'. induction Hl as [base o|base o d ds b rest ends o1 o3 Hf Hl IH].
  - simpl in *. by rewrite Z.add_0_r in Hl'.
  - rewrite <- app_assoc. simpl. econstructor; [done|]. apply IH. rewrite length_app, Nat2Z.inj_add, Z.add_assoc in Hl'. exact Hl'.
Qed.

(** A file the log may be opened on: it ends where a block offset says. *)
Lemma reopened f o : 0 <= o <= kBlockSize -> Z.of_nat (length (contents f)) mod kBlockSize = o mod kBlockSize ->
  0 < o -> stands_at (writer_at f (Z.of_nat (length (contents f)))) o.
Proof.
  intros Ho Hm H0. split; [done|]. unfold writer_at, write_off. simpl. rewrite Hm. split.
  - destruct (Z.eq_dec o kBlockSize) as [->|]; [by right|left]. apply Z.mod_small. lia.
  - rewrite <- Hm. symmetry. apply Z.div_mod. done.
Qed.

Lemma write_off_mod (w : Writer F) o : stands_at w o -> Z.of_nat (length (contents (dest_ w))) mod kBlockSize = o mod kBlockSize.
Proof.
  intros (Ho & Hb & <-). unfold write_off. rewrite Z.add_comm, Z.mul_comm, Z.mod_add by done.
  destruct Hb as [->|[-> ->]]; done.
Qed.

Lemma Log_off base o ds bytes ends o' : Log base o ds bytes ends o' -> 0 < o <= kBlockSize -> 0 < o' <= kBlockSize.
Proof.
  intros Hl. induction Hl as [base o|base o d ds b rest ends o1 o3 Hf Hl IH]; intros Ho; [done|]. apply IH.
  eapply Frags_end; [|done]. lia.
Qed.

Lemma write_batches_spec batches f o :
  0 < o <= kBlockSize -> Z.of_nat (length (contents f)) mod kBlockSize = o mod kBlockSize ->
  exists ends f' bytes o', write_batches batches f = Some (ends, f') /\ contents f' = contents f ++ bytes /\
    Log (Z.of_nat (length (contents f))) o (concat batches) bytes ends o'.
Proof.
  revert f o. induction batches as [|ds batches IH]; intros f o Ho Hm.
  - eexists [], f, [], o. rewrite app_nil_r. split_and!; [done|done|constructor].
  - destruct (add_all_spec ds _ o (reopened f o ltac:(lia) Hm ltac:(lia))) as (e1 & w & b1 & o1 & E1 & Hc1 & Hl1 & Hw).
    simpl dest_ in Hc1, Hl1. pose proof (Log_off _ _ _ _ _ _ Hl1 Ho) as Ho1.
    destruct (IH (dest_ w) o1 Ho1 (write_off_mod w o1 Hw)) as (e2 & f' & b2 & o2 & E2 & Hc2 & Hl2).
    exists (e1 ++ e2), f', (b1 ++ b2), o2. split; [simpl; rewrite E1; simpl; by rewrite E2|].
    split; [by rewrite Hc2, Hc1, app_assoc|]. simpl. eapply Log_app; [done|].
    by rewrite Hc1, length_app, Nat2Z.inj_add in Hl2.
Qed.

Context `{SF : SequentialFile G} `{WR : !WholeReads G}.

(** C2.  The log survives a crash.  Records of any length are appended in any
    number of sessions, the writer opened anew on the file each time; every
    [AddRecord] succeeds, and [write_off] after it is where the record ends in
    the file.  Whatever part of the file is left, a reader from offset 0
    returns, in order, exactly the records that end within it, and then
    reports the end without a corruption; with the whole file it returns all
    of them. *)
Theorem log_prefix_readable (batches : list (list (list Z))) (f0 : F) :
  contents f0 = [] -> Forall (Forall bytes_ok) batches ->
  exists ends f, write_batches batches f0 = Some (ends, f) /\
    length ends = length (concat batches) /\ StronglySorted Z.lt ends /\
    Forall (fun e => e <= Z.of_nat (length (contents f))) ends /\
    forall (n : nat) (g : G) reporter checksum, remaining g = take n (contents f) ->
      exists r, read_all (S (length (concat batches))) (reader g reporter checksum 0)
                = Some ((filter (fun x => x.2 <= Z.of_nat n) (zip (concat batches) ends)).*1, r) /\ reports r = [].
Proof.
  intros H0 Hb.
  destruct (write_batches_spec batches f0 kBlockSize) as (ends & f & bytes & o' & E & Hc & Hl); [done| |].
  { rewrite H0. done. }
  rewrite H0 in Hc, Hl. simpl in Hc, Hl. exists ends, f. split; [done|].
  destruct (Log_ends _ _ _ _ _ _ Hl) as (H1 & H2 & H3). split; [done|]. split; [done|]. rewrite Hc. split.
  { eapply List.Forall_impl; [|exact H2]. intros e. simpl. lia. }
  intros n g reporter checksum Hg.
  apply (read_log 0 kBlockSize (concat batches) bytes ends o' (Z.of_nat n) Hl); [by apply Forall_concat|lia|unfold kBlockSize; lia|].
  rewrite Z.sub_0_r, Nat2Z.id. split; simpl; try done. left. done.
Qed.

Context `{RA : RandomFile H} `{RR : !RandomReads H}.

Lemma random_read_log base o ds bytes ends o' :
  Log base o ds bytes ends o' ->
  forall i d pos pre (h : H),
    ds !! i = Some d -> (base :: ends) !! i = Some pos -> Z.of_nat (length pre) = base ->
    base mod kBlockSize = o mod kBlockSize -> 0 < o <= kBlockSize ->
    random_bytes h = pre ++ bytes -> Z.of_nat (length (random_bytes h)) < 2 ^ 62 ->
    forall rounds, (length bytes < rounds)%nat ->
    exists r', random_ReadRecord rounds pos (random_reader h) = Some (Some d, r').
Proof.
  intros Hl. induction Hl as [base o|base o d ds bytes rest ends o1 o2 Hf Hl IH];
    intros i d' pos pre h Hd Hp Hb Hm Ho Hr Hs rounds Hk; [done|].
  assert (Hlen := f_equal length Hr). rewrite !length_app in Hlen. rewrite length_app in Hk.
  destruct i as [|i]; simplify_eq/=.
  - unfold random_ReadRecord.
    apply (random_frags true o d' bytes o1 Hf rounds [] [] _ pre rest); simpl; try done; try lia.
    rewrite (random_start_spec (Z.of_nat (length pre)) o) by (done || lia). rewrite length_app. lia.
  - pose proof (Frags_end true o d bytes o1 ltac:(lia) Hf) as Ho1.
    apply (IH i d' pos (pre ++ bytes) h); try done; [by rewrite length_app, Nat2Z.inj_add| |by rewrite Hr, app_assoc|lia].
    eapply Frags_mod; [exact Hf|lia|done].
Qed.

(** C40.  Random access: in a log written to an empty file by any number of
    sessions, and read through a file that returns its bytes,
    [RandomReader::ReadRecord], given the offset the writer stood at before it
    appended a record, returns exactly that record, also when the offset is in
    the trailer of a block or the record is in fragments over several blocks.
    It reads at most as many fragments as the log has bytes.  The log is
    shorter than 2^62 bytes. *)
Theorem random_read_finds (batches : list (list (list Z))) (f0 : F) (h : H) i d :
  contents f0 = [] -> concat batches !! i = Some d ->
  exists ends f, write_batches batches f0 = Some (ends, f) /\
    (random_bytes h = contents f -> Z.of_nat (length (contents f)) < 2 ^ 62 ->
     exists pos r, (0 :: ends) !! i = Some pos /\
       random_ReadRecord (S (length (contents f))) pos (random_reader h) = Some (Some d, r)).
Proof.
  intros H0 Hd.
  destruct (write_batches_spec batches f0 kBlockSize) as (ends & f & bytes & o' & E & Hc & Hl); [done| |].
  { rewrite H0. done. }
  rewrite H0 in Hc, Hl. simpl in Hc, Hl. exists ends, f. split; [done|]. intros Hh Hs.
  destruct (Log_ends _ _ _ _ _ _ Hl) as (Hn & _). apply lookup_lt_Some in Hd as Hi.
  destruct (lookup_lt_is_Some_2 (0 :: ends) i) as [pos Hp]; [simpl; lia|]. rewrite Hc in *.
  destruct (random_read_log 0 kBlockSize _ bytes ends o' Hl i d pos [] h Hd Hp eq_refl eq_refl ltac:(done) Hh
    ltac:(by rewrite Hh) (S (length bytes)) ltac:(lia)) as [r Er].
  by exists pos, r.
Qed.

End LogProps.

(** Reading to the end needs no more rounds than there are unread bytes. *)
Lemma read_all_ends `{PE : PastEnd} `{AC : Accelerated} `{PL : Placement} `{SF : SequentialFile F} `{BR : !BoundedReads F} n :
  forall r : Reader F, (unread r < n)%nat -> is_Some (read_all n r).
Proof.
  induction n as [|n IH]; intros r Hn; [lia|]. cbn [read_all].
  destruct (ReadRecord_returns r) as (d & r' & -> & Hd). simpl. destruct d as [d|]; [|by eexists].
  destruct Hd as [?|Hd]; [done|]. destruct (IH r' ltac:(lia)) as [[ds r2] ->]. by eexists.
Qed.

Lemma read_all_mono `{PE : PastEnd} `{AC : Accelerated} `{PL : Placement} `{SF : SequentialFile F} n :
  forall (r : Reader F) x k, read_all n r = Some x -> (n <= k)%nat -> read_all k r = Some x.
Proof.
  induction n as [|n IH]; intros r x [|k] E Hk; try done; [lia|]. cbn [read_all] in *.
  destruct (ReadRecord r) as [[[d|] r']|]; [|done|done]. cbn [mbind option_bind] in *.
  destruct (read_all n r') as [[ds r2]|] eqn:E'; [|done]. by rewrite (IH _ _ k E') by lia.
Qed.

(** C37.  Reading ends: over any bytes, in any state and from any offset,
    [ReadRecord] returns, and when it returns a record it has taken bytes; so
    reading until it returns false ends within as many calls as there are
    unread bytes. *)
Theorem log_reading_ends `{PE : PastEnd} `{AC : Accelerated} `{PL : Placement} `{SF : SequentialFile F}
    `{BR : !BoundedReads F} (r : Reader F) :
  (exists d r', ReadRecord r = Some (d, r') /\ (d = None \/ (unread r' < unread r)%nat)) /\
  is_Some (read_all (S (unread r)) r).
Proof.
  split; [apply ReadRecord_returns|]. apply read_all_ends. lia.
Qed.

(** ** Witnesses *)

Section Witnesses.
#[local] Instance wal_past_end : PastEnd := fun _ => 0.
#[local] Instance wal_not_accelerated : Accelerated := fun _ _ => 0.
#[local] Instance wal_not_accelerated_spec : AcceleratedSpec.
Proof. by left. Defined.
#[local] Instance wal_placement : Placement := fun _ => 64.
#[local] Instance wal_placement_spec : PlacementSpec.
Proof. intros l Hl. unfold address, wal_placement. lia. Defined.

Lemma bytes_check l : forallb (fun b => (0 <=? b) && (b <? 256)) l = true -> bytes_ok l.
Proof.
  intros H. apply Forall_forall. intros b Hb. rewrite forallb_forall in H. specialize (H b Hb). unfold is_u.
  apply andb_true_iff in H as [H1%Z.leb_le H2%Z.ltb_lt]. lia.
Qed.

(** Two sessions; the first record is empty. *)
Definition demo_batches : list (list (list Z)) := [[[]; [1; 2; 3]]; [replicate 40 7; [255]]].

Lemma log_prefix_readable_witness :
  exists ends f, write_batches demo_batches [] = Some (ends, f) /\
    length ends = length (concat demo_batches) /\ StronglySorted Z.lt ends /\
    Forall (fun e => e <= Z.of_nat (length (contents f))) ends /\
    forall (n : nat) (g : list Z) reporter checksum, remaining g = take n (contents f) ->
      exists r, read_all (S (length (concat demo_batches))) (reader g reporter checksum 0)
                = Some ((filter (fun x => x.2 <= Z.of_nat n) (zip (concat demo_batches) ends)).*1, r) /\ reports r = [].
Proof.
  apply (log_prefix_readable (F := list Z) (G := list Z) demo_batches []); [reflexivity|].
  do 2 (apply Forall_cons_2; [do 2 (apply Forall_cons_2; [by apply bytes_check|]); apply Forall_nil_2|]). apply Forall_nil_2.
Defined.

Definition demo_log : list Z := default [] (snd <$> write_batches demo_batches []).

(** The third record was appended at offset 17. *)
Lemma random_read_finds_witness :
  exists r, random_ReadRecord (S (length demo_log)) 17 (random_reader demo_log) = Some (Some (replicate 40 7), r).
Proof.
  destruct (random_read_finds (F := list Z) (H := list Z) demo_batches [] demo_log 2 (replicate 40 7))
    as (ends & f & E & Hr); [reflexivity|reflexivity|].
  assert (Ef : demo_log = f) by (unfold demo_log; rewrite E; reflexivity).
  assert (Ee : fst <$> write_batches demo_batches [] = Some [7; 17; 64; 72]) by (vm_compute; reflexivity).
  rewrite E in Ee. injection Ee as ->. rewrite <- Ef in Hr.
  destruct Hr as (pos & r & Hp & Er); [reflexivity|vm_compute; reflexivity|].
  injection Hp as <-. exists r. exact Er.
Defined.

Lemma log_reading_ends_witness :
  is_Some (read_all (S (unread (reader [1; 2; 3] true true 0))) (reader [1; 2; 3] true true 0)).
Proof. exact (proj2 (log_reading_ends (reader [1; 2; 3] true true 0))). Defined.

(** A record cut in two by the end of a block comes back whole; without its
    last byte it is not returned. *)
Example log_across_blocks :
  let w := mkWriter (replicate 32750 9) 32750 0 in
  (AddRecord (seqZ 0 40) w) ≫= (fun '(_, w) =>
     read_all 3 (mkReader (drop 32768 (dest_ w)) true true (take 18 (drop 32750 (dest_ w))) false 0 32768 0 false [])
     ≫= fun '(ds, r) => Some (ds, reports r, write_off w)) = Some ([seqZ 0 40], [], 32804).
Proof. vm_compute. reflexivity. Qed.

End Witnesses.
