(* ===== verification/WalRecords.v ===== *)
(** leveldb/db/log_writer.cc (20-292, 560-665) and log_reader.cc (19-387,
    577-583): the records of the write-ahead log.

    A writer appends to a string; it is modelled by the bytes it returns for
    the bytes it is given.  A reader walks a [Slice]; the index [i] of the
    source is the list of bytes from [s.data() + i] on.  The readers do not
    look at the results of [GetVarint32] and its like and do not check lengths:
    [None] stands for every path on which they would use bytes that the slice
    does not hold.  Doubles are their bit patterns, as in base/Endian.hpp. *)
From Stdlib Require Import ZArith Lia Bool.
From stdpp Require Import base list numbers option.
From S2P Require Import Prelude Endian Coding Label.

(** ** Types *)

Definition kSeries : Z := 0.
Definition kSample : Z := 1.
Definition kFlush : Z := 3.
Definition kGroup : Z := 4.
Definition kGroupSample : Z := 5.

Record RefSeries := mkRefSeries {
  ref : Z; lset : Labels; lset_ptr : option Labels; flushed_txn : Z; log_clean_txn : Z }.

Record RefGroup := mkRefGroup { g_ref : Z; group_lset : Labels; individual_lsets : list Labels }.

Record RefSample := mkRefSample { s_ref : Z; logical_id : Z; s_t : Z; s_v : Z; s_txn : Z }.

Record RefGroupSample := mkRefGroupSample {
  gs_ref : Z; gs_lsets : list Labels; slots : list Z; gs_t : Z; gs_v : list Z; gs_txn : Z }.

Record RefFlush := mkRefFlush { f_ref : Z; f_logical_id : Z; f_txn : Z }.

(** tsdbutil/tsdbutils.hpp; the pointer members are not logged. *)
Record TreeRefSeries := mkTreeRefSeries {
  tr_sgid : Z; tr_mid : Z; tr_lset : Labels; tr_lset_ptr : option Labels; tr_flushed_txn : Z; tr_log_clean_txn : Z }.

Record TreeRefSample := mkTreeRefSample { sgid : Z; mid : Z; t_t : Z; t_v : Z; t_txn : Z }.

Record TreeRefFlush := mkTreeRefFlush { tf_mid : Z; tf_sgid : Z; tf_txn : Z }.

(** ** Writing *)

Definition put_label (result : list Z) (l : Label) : list Z :=
  PutLengthPrefixedSlice (PutLengthPrefixedSlice result (label l)) (value l).

(** A label set: its size and its labels. *)
Definition put_labels (result : list Z) (ls : Labels) : list Z :=
  foldl put_label (PutVarint32 result (u32 (Z.of_nat (length ls)))) ls.

(** [lptr]: the label set behind [lset_ptr], or [lset]. *)
Definition labels_of (own : Labels) (ptr : option Labels) : Labels := default own ptr.

Definition put_series (result : list Z) (r : RefSeries) : list Z :=
  let result := PutFixed64BE result (ref r) in
  let result := PutFixed64BE result (u64 (flushed_txn r)) in
  let result := PutFixed64BE result (u64 (log_clean_txn r)) in
  put_labels result (labels_of (lset r) (lset_ptr r)).

Definition series (l : list RefSeries) (result : list Z) : list Z := foldl put_series (result ++ [kSeries]) l.

Definition series_without_labels (r flushed clean : Z) (result : list Z) : list Z :=
  PutFixed64BE (PutFixed64BE (PutFixed64BE (result ++ [kSeries]) r) (u64 flushed)) (u64 clean).

Definition put_lsets (result : list Z) (ls : list Labels) : list Z :=
  foldl put_labels (PutVarint32 result (u32 (Z.of_nat (length ls)))) ls.

Definition group (g : RefGroup) (result : list Z) : list Z :=
  let result := result ++ [kGroup] in
  let result := PutFixed64BE result (g_ref g) in
  put_lsets (put_labels result (group_lset g)) (individual_lsets g).

(** [PutVarint64(result, encode_signed_varint(d))] *)
Definition put_delta (result : list Z) (d : Z) : list Z := PutVarint64 result (zigzag (s64 d)).

(** The samples after the first, each against the one before it. *)
Fixpoint put_samples (result : list Z) (prev : RefSample) (l : list RefSample) : list Z :=
  match l with
  | [] => result
  | s :: l =>
    let result := put_delta result (s64 (s_ref s) - s64 (s_ref prev)) in
    let result := put_delta result (s64 (logical_id s) - s64 (logical_id prev)) in
    let result := put_delta result (s_t s - s_t prev) in
    let result := PutFixed64BE result (encode_double (s_v s)) in
    let result := put_delta result (s_txn s - s_txn prev) in
    put_samples result s l
  end.

(** [None]: [samples[0]] of an empty vector. *)
Definition samples (l : list RefSample) (result : list Z) : option (list Z) :=
  match l with
  | [] => None
  | s :: l =>
    let result := result ++ [kSample] in
    let result := PutFixed64BE result (s_ref s) in
    let result := PutFixed64BE result (logical_id s) in
    let result := PutFixed64BE result (u64 (s_t s)) in
    let result := PutFixed64BE result (encode_double (s_v s)) in
    let result := PutFixed64BE result (u64 (s_txn s)) in
    Some (put_samples result s l)
  end.

Definition group_sample (g : RefGroupSample) (result : list Z) : list Z :=
  let result := result ++ [kGroupSample] in
  let result := PutFixed64BE result (gs_ref g) in
  let result :=
    match gs_lsets g with
    | [] =>
      let result := result ++ [1] in
      let result :=
        match slots g with
        | [] => PutVarint32 result (Z.lor (Z.shiftl 1 31) (u32 (Z.of_nat (length (gs_v g)))))
        | _ => PutVarint32 result (u32 (Z.of_nat (length (slots g))))
        end in
      foldl (fun result s => PutVarint32 result (u32 s)) result (slots g)
    | _ => put_lsets (result ++ [2]) (gs_lsets g)
    end in
  let result := PutFixed64BE result (u64 (gs_t g)) in
  let result := foldl (fun result v => PutFixed64BE result (encode_double v)) result (gs_v g) in
  PutFixed64BE result (u64 (gs_txn g)).

Definition flush (f : RefFlush) (result : list Z) : list Z :=
  PutFixed64BE (PutFixed64BE (PutFixed64BE (result ++ [kFlush]) (f_ref f)) (f_logical_id f)) (u64 (f_txn f)).

Fixpoint put_tree_samples (result : list Z) (prev : TreeRefSample) (l : list TreeRefSample) : list Z :=
  match l with
  | [] => result
  | s :: l =>
    let result := put_delta result (mid s - mid prev) in
    let result := put_delta result (s64 (sgid s) - s64 (sgid prev)) in
    let result := put_delta result (t_t s - t_t prev) in
    let result := PutFixed64BE result (encode_double (t_v s)) in
    let result := put_delta result (t_txn s - t_txn prev) in
    put_tree_samples result s l
  end.

Definition treeSamples (l : list TreeRefSample) (result : list Z) : option (list Z) :=
  match l with
  | [] => None
  | s :: l =>
    let result := result ++ [kSample] in
    let result := PutFixed16 result (mid s) in
    let result := PutFixed64BE result (sgid s) in
    let result := PutFixed64BE result (u64 (t_t s)) in
    let result := PutFixed64BE result (encode_double (t_v s)) in
    let result := PutFixed64BE result (u64 (t_txn s)) in
    Some (put_tree_samples result s l)
  end.

Definition put_tree_series (result : list Z) (r : TreeRefSeries) : list Z :=
  let result := PutFixed16 result (tr_mid r) in
  let result := PutFixed64BE result (tr_sgid r) in
  let result := PutFixed64BE result (u64 (tr_flushed_txn r)) in
  let result := PutFixed64BE result (u64 (tr_log_clean_txn r)) in
  put_labels result (labels_of (tr_lset r) (tr_lset_ptr r)).

Definition treeSeries (l : list TreeRefSeries) (result : list Z) : list Z :=
  foldl put_tree_series (result ++ [kSeries]) l.

Definition tree_series_without_label (m s flushed clean : Z) (result : list Z) : list Z :=
  PutFixed64BE (PutFixed64BE (PutFixed64BE (PutFixed16 (result ++ [kSeries]) m) s) (u64 flushed)) (u64 clean).

Definition treeFlush (f : TreeRefFlush) (result : list Z) : list Z :=
  PutFixed64BE (PutFixed64BE (PutFixed16 (result ++ [kFlush]) (tf_mid f)) (tf_sgid f)) (u64 (tf_txn f)).

(** ** Reading *)

Section Read.
Context `{PastEnd}.

Definition get_fixed64 (l : list Z) : option (Z * list Z) :=
  if Z.of_nat (length l) <? 8 then None else Some (DecodeFixed64BE l, drop 8 l).

(** [GetVarint64] and [decode_signed_varint]. *)
Definition get_delta (l : list Z) : option (Z * list Z) :=
  '(tmp, l) ← GetVarint64 l; Some (unzigzag tmp, l).

(** [n] items, one after the other. *)
Fixpoint get_many {A} (get : list Z -> option (A * list Z)) (n : nat) (l : list Z) : option (list A * list Z) :=
  match n with
  | O => Some ([], l)
  | S n => '(x, l) ← get l; '(xs, l) ← get_many get n l; Some (x :: xs, l)
  end.

Definition get_label (l : list Z) : option (Label * list Z) :=
  '(n, l) ← GetLengthPrefixedSlice l;
  '(v, l) ← GetLengthPrefixedSlice l;
  Some (mkLabel n v, l).

Definition get_labels (l : list Z) : option (Labels * list Z) :=
  '(size, l) ← GetVarint32 l; get_many get_label (Z.to_nat size) l.

Definition get_lsets (l : list Z) : option (list Labels * list Z) :=
  '(num_ts, l) ← GetVarint32 l; get_many get_labels (Z.to_nat num_ts) l.

Definition get_series (l : list Z) : option (RefSeries * list Z) :=
  '(r, l) ← get_fixed64 l;
  '(f, l) ← get_fixed64 l;
  '(c, l) ← get_fixed64 l;
  '(ls, l) ← get_labels l;
  Some (mkRefSeries r ls None (s64 f) (s64 c), l).

(** [while (i < s.size())]: every round takes bytes. *)
Fixpoint get_all {A} (rounds : nat) (get : list Z -> option (A * list Z)) (l : list Z) : option (list A) :=
  match l with
  | [] => Some []
  | _ =>
    match rounds with
    | O => None
    | S rounds => '(x, l) ← get l; xs ← get_all rounds get l; Some (x :: xs)
    end
  end.

(** The check of the first byte; the readers return [false] for another. *)
Definition of_type {A} (type : Z) (get : list Z -> option A) (s : list Z) : option (option A) :=
  match s with
  | [] => None
  | b :: l => if b =? type then Some <$> get l else Some None
  end.

Definition read_series (s : list Z) : option (option (list RefSeries)) :=
  of_type kSeries (fun l => get_all (length l) get_series l) s.

(** The overload for one series overwrites its fields and appends to its
    labels. *)
Definition merge_series (rs r : RefSeries) : RefSeries :=
  mkRefSeries (ref r) (lset rs ++ lset r) (lset_ptr rs) (flushed_txn r) (log_clean_txn r).

Definition read_one_series (s : list Z) (rs : RefSeries) : option (option RefSeries) :=
  of_type kSeries (fun l => foldl merge_series rs <$> get_all (length l) get_series l) s.

Definition read_group (s : list Z) : option (option RefGroup) :=
  of_type kGroup (fun l =>
    '(r, l) ← get_fixed64 l;
    '(ls, l) ← get_labels l;
    '(lss, l) ← get_lsets l;
    Some (mkRefGroup r ls lss)) s.

Definition get_sample (prev : RefSample) (l : list Z) : option (RefSample * list Z) :=
  '(dr, l) ← get_delta l;
  '(di, l) ← get_delta l;
  '(dt, l) ← get_delta l;
  '(v, l) ← get_fixed64 l;
  '(dx, l) ← get_delta l;
  Some (mkRefSample (u64 (s64 (s_ref prev) + dr)) (u64 (s64 (logical_id prev) + di)) (s64 (s_t prev + dt))
          (decode_double v) (s64 (s_txn prev + dx)), l).

Fixpoint get_samples (rounds : nat) (prev : RefSample) (l : list Z) : option (list RefSample) :=
  match l with
  | [] => Some []
  | _ =>
    match rounds with
    | O => None
    | S rounds => '(s, l) ← get_sample prev l; ss ← get_samples rounds s l; Some (s :: ss)
    end
  end.

Definition read_samples (s : list Z) : option (option (list RefSample)) :=
  of_type kSample (fun l =>
    '(r, l) ← get_fixed64 l;
    '(i, l) ← get_fixed64 l;
    '(t, l) ← get_fixed64 l;
    '(v, l) ← get_fixed64 l;
    '(x, l) ← get_fixed64 l;
    let s0 := mkRefSample r i (s64 t) (decode_double v) (s64 x) in
    ss ← get_samples (length l) s0 l; Some (s0 :: ss)) s.

Definition get_double (l : list Z) : option (Z * list Z) := '(v, l) ← get_fixed64 l; Some (decode_double v, l).

Definition get_slot (l : list Z) : option (Z * list Z) := '(slot, l) ← GetVarint32 l; Some (s32 slot, l).

(** The part that is either slots or label sets, with [num_slots]. *)
Definition get_members (kind : Z) (l : list Z) : option ((list Labels * list Z * Z) * list Z) :=
  if kind =? 1 then
    '(num_slots, l) ← GetVarint32 l;
    if Z.shiftr num_slots 31 =? 0 then
      '(ss, l) ← get_many get_slot (Z.to_nat num_slots) l; Some (([], ss, num_slots), l)
    else Some (([], [], num_slots), l)
  else
    '(num_ts, l) ← GetVarint32 l;
    '(lss, l) ← get_many get_labels (Z.to_nat num_ts) l; Some ((lss, [], num_ts), l).

Definition read_group_sample (s : list Z) : option (option RefGroupSample) :=
  of_type kGroupSample (fun l =>
    '(r, l) ← get_fixed64 l;
    match l with
    | [] => None
    | kind :: l =>
      '((lss, ss, num_slots), l) ← get_members kind l;
      '(t, l) ← get_fixed64 l;
      '(vs, l) ← get_many get_double (Z.to_nat (Z.land num_slots 0x7fffffff)) l;
      '(x, l) ← get_fixed64 l;
      Some (mkRefGroupSample r lss ss (s64 t) vs (s64 x))
    end) s.

Definition read_flush (s : list Z) : option (option RefFlush) :=
  of_type kFlush (fun l =>
    '(r, l) ← get_fixed64 l;
    '(i, l) ← get_fixed64 l;
    '(x, l) ← get_fixed64 l;
    Some (mkRefFlush r i (s64 x))) s.

Definition get_tree_series (l : list Z) : option (TreeRefSeries * list Z) :=
  '(m, l) ← GetFixed16 l;
  '(r, l) ← get_fixed64 l;
  '(f, l) ← get_fixed64 l;
  '(c, l) ← get_fixed64 l;
  '(ls, l) ← get_labels l;
  Some (mkTreeRefSeries r m ls None (s64 f) (s64 c), l).

Definition read_treeSeries (s : list Z) : option (option (list TreeRefSeries)) :=
  of_type kSeries (fun l => get_all (length l) get_tree_series l) s.

Definition merge_tree_series (rs r : TreeRefSeries) : TreeRefSeries :=
  mkTreeRefSeries (tr_sgid r) (tr_mid r) (tr_lset rs ++ tr_lset r) (tr_lset_ptr rs) (tr_flushed_txn r) (tr_log_clean_txn r).

Definition read_one_treeSeries (s : list Z) (rs : TreeRefSeries) : option (option TreeRefSeries) :=
  of_type kSeries (fun l => foldl merge_tree_series rs <$> get_all (length l) get_tree_series l) s.

Definition get_tree_sample (prev : TreeRefSample) (l : list Z) : option (TreeRefSample * list Z) :=
  '(dm, l) ← get_delta l;
  '(dg, l) ← get_delta l;
  '(dt, l) ← get_delta l;
  '(v, l) ← get_fixed64 l;
  '(dx, l) ← get_delta l;
  Some (mkTreeRefSample (u64 (s64 (sgid prev) + dg)) (u16 (u64 (mid prev + dm))) (s64 (t_t prev + dt))
          (decode_double v) (s64 (t_txn prev + dx)), l).

Fixpoint get_tree_samples (rounds : nat) (prev : TreeRefSample) (l : list Z) : option (list TreeRefSample) :=
  match l with
  | [] => Some []
  | _ =>
    match rounds with
    | O => None
    | S rounds => '(s, l) ← get_tree_sample prev l; ss ← get_tree_samples rounds s l; Some (s :: ss)
    end
  end.

Definition read_treeSamples (s : list Z) : option (option (list TreeRefSample)) :=
  of_type kSample (fun l =>
    '(m, l) ← GetFixed16 l;
    '(g, l) ← get_fixed64 l;
    '(t, l) ← get_fixed64 l;
    '(v, l) ← get_fixed64 l;
    '(x, l) ← get_fixed64 l;
    let s0 := mkTreeRefSample g m (s64 t) (decode_double v) (s64 x) in
    ss ← get_tree_samples (length l) s0 l; Some (s0 :: ss)) s.

(** [treeFlush] stores the fields and runs off its end without a [return]:
    what it returns for a flush record is not determined. *)
Definition read_treeFlush (s : list Z) : option (option TreeRefFlush) :=
  of_type kFlush (fun l =>
    '(m, l) ← GetFixed16 l;
    '(g, l) ← get_fixed64 l;
    '(x, l) ← get_fixed64 l;
    Some (mkTreeRefFlush m g (s64 x))) s.

End Read.

(** ** What is written *)

Definition delta_rec (d : Z) : list Z := varint (zigzag (s64 d)).
Definition string_rec (s : str) : list Z := varint (Z.of_nat (length s)) ++ s.
Definition label_rec (l : Label) : list Z := string_rec (label l) ++ string_rec (value l).
Definition labels_rec (ls : Labels) : list Z := varint (Z.of_nat (length ls)) ++ (ls ≫= label_rec).
Definition lsets_rec (lss : list Labels) : list Z := varint (Z.of_nat (length lss)) ++ (lss ≫= labels_rec).

(** Sizes fit in the 32 bits they are written with. *)
Definition str_ok (s : str) : Prop := Z.of_nat (length s) < 2 ^ 32.
Definition labels_ok (ls : Labels) : Prop :=
  Z.of_nat (length ls) < 2 ^ 32 /\ Forall (fun l => str_ok (label l) /\ str_ok (value l)) ls.
Definition lsets_ok (lss : list Labels) : Prop := Z.of_nat (length lss) < 2 ^ 32 /\ Forall labels_ok lss.

Lemma put_fixed64 r v : PutFixed64BE r v = r ++ be_bytes 8 v.
Proof. unfold PutFixed64BE. by rewrite EncodeFixed64BE_be. Qed.

Lemma put_fixed16 r v : PutFixed16 r v = r ++ le_bytes 2 v.
Proof. unfold PutFixed16. by rewrite EncodeFixed16_le. Qed.

Lemma put_delta_rec r d : put_delta r d = r ++ delta_rec d.
Proof. unfold put_delta, PutVarint64. by rewrite EncodeVarint64_varint by apply zigzag_u64. Qed.

Lemma put_varint32 r v : is_u 32 v -> PutVarint32 r v = r ++ varint v.
Proof. intros Hv. unfold PutVarint32. by rewrite EncodeVarint32_varint. Qed.

Lemma put_size {A} r (l : list A) : Z.of_nat (length l) < 2 ^ 32 -> PutVarint32 r (u32 (Z.of_nat (length l))) = r ++ varint (Z.of_nat (length l)).
Proof.
  intros Hl. assert (Hu : is_u 32 (Z.of_nat (length l))) by (unfold is_u; lia). unfold u32. rewrite wrap_id by done. by apply put_varint32.
Qed.

Lemma put_string r s : str_ok s -> PutLengthPrefixedSlice r s = r ++ string_rec s.
Proof. intros Hs. unfold PutLengthPrefixedSlice, string_rec. by rewrite put_size, <- app_assoc. Qed.

(** Appending the items of a list one after the other. *)
Lemma foldl_put {A} (put : list Z -> A -> list Z) (rec : A -> list Z) (P : A -> Prop) l :
  (forall r x, P x -> put r x = r ++ rec x) -> Forall P l -> forall r, foldl put r l = r ++ (l ≫= rec).
Proof.
  intros Hp Hl. induction Hl as [|x l Hx _ IH]; intros r; [by rewrite app_nil_r|]. simpl. by rewrite IH, Hp, <- app_assoc.
Qed.

Lemma put_labels_rec r ls : labels_ok ls -> put_labels r ls = r ++ labels_rec ls.
Proof.
  intros [Hn Hl]. unfold put_labels, labels_rec. rewrite put_size by done.
  rewrite (foldl_put _ label_rec _ ls) with (2 := Hl); [by rewrite <- app_assoc|].
  intros r' l [H1 H2]. unfold put_label. rewrite put_string by done. rewrite put_string by done. by rewrite <- app_assoc.
Qed.

Lemma put_lsets_rec r lss : lsets_ok lss -> put_lsets r lss = r ++ lsets_rec lss.
Proof.
  intros [Hn Hl]. unfold put_lsets, lsets_rec. rewrite put_size by done.
  rewrite (foldl_put _ labels_rec _ lss) with (2 := Hl); [by rewrite <- app_assoc|]. intros r' l. apply put_labels_rec.
Qed.

(** ** What is read *)

(** [get] reads [x] from the bytes [enc], whatever follows them. *)
Definition reads {A} (get : list Z -> option (A * list Z)) (enc : list Z) (x : A) : Prop :=
  forall rest, get (enc ++ rest) = Some (x, rest).

Lemma reads_many {A} get (rec : A -> list Z) l :
  Forall (fun x => reads get (rec x) x) l -> reads (get_many get (length l)) (l ≫= rec) l.
Proof.
  intros Hl. induction Hl as [|x l Hx _ IH]; intros rest; [done|].
  cbn [length get_many]. rewrite bind_cons, <- app_assoc, Hx. cbn [mbind option_bind]. by rewrite IH.
Qed.

Lemma reads_all {A B} get (rec : A -> list Z) (out : A -> B) l rounds :
  Forall (fun x => reads get (rec x) (out x) /\ rec x <> []) l -> (length l <= rounds)%nat ->
  get_all rounds get (l ≫= rec) = Some (out <$> l).
Proof.
  intros Hl. revert rounds. induction Hl as [|x l [Hx Hne] _ IH]; intros rounds Hr; [by destruct rounds|].
  destruct rounds as [|k]; [simpl in Hr; lia|]. simpl in Hr. rewrite bind_cons.
  assert (E : forall tail, get_all (S k) get (rec x ++ tail) = '(x, l) ← get (rec x ++ tail); xs ← get_all k get l; Some (x :: xs)).
  { intros tail. by destruct (rec x). }
  rewrite E, Hx. cbn [mbind option_bind]. by rewrite IH by lia.
Qed.

Lemma length_bind_ge {A} (rec : A -> list Z) l : Forall (fun x => rec x <> []) l -> (length l <= length (l ≫= rec))%nat.
Proof.
  intros Hl. induction Hl as [|x l Hx _ IH]; [done|]. rewrite bind_cons, length_app.
  destruct (rec x); [done|]. cbn [length]. lia.
Qed.

Section ReadProps.
Context `{PE : PastEnd}.

Lemma reads_fixed64 v : reads get_fixed64 (be_bytes 8 v) (u64 v).
Proof.
  intros rest. unfold get_fixed64. rewrite length_app, length_be_bytes, DecodeFixed64BE_spec.
  destruct (Z.ltb_spec (Z.of_nat (8 + length rest)) 8); [lia|].
  by rewrite drop_app_length' by (by rewrite length_be_bytes).
Qed.

Lemma reads_fixed16 v : reads GetFixed16 (le_bytes 2 v) (u16 v).
Proof. intros rest. apply GetFixed16_spec. Qed.

Lemma reads_delta d : reads get_delta (delta_rec d) (s64 d).
Proof.
  intros rest. unfold get_delta, delta_rec. rewrite GetVarint64_varint by apply zigzag_u64. simpl.
  rewrite unzigzag_zigzag; [done|]. apply swrap_range. lia.
Qed.

Lemma reads_string s : str_ok s -> reads GetLengthPrefixedSlice (string_rec s) s.
Proof.
  intros Hs rest. assert (Hu : is_u 32 (Z.of_nat (length s))) by (unfold is_u, str_ok in *; lia).
  unfold GetLengthPrefixedSlice, string_rec. rewrite <- app_assoc, GetVarint32_varint by done.
  rewrite length_app, (proj2 (Z.leb_le _ _)) by lia. by rewrite Nat2Z.id, take_app_length, drop_app_length.
Qed.

Lemma reads_label l : str_ok (label l) -> str_ok (value l) -> reads get_label (label_rec l) l.
Proof.
  intros H1 H2 rest. unfold get_label, label_rec. rewrite <- app_assoc, (reads_string _ H1). simpl.
  rewrite (reads_string _ H2). by destruct l.
Qed.

Lemma reads_sized {A} (get : list Z -> option (A * list Z)) rec l :
  Z.of_nat (length l) < 2 ^ 32 -> Forall (fun x => reads get (rec x) x) l ->
  reads (fun i => '(n, i) ← GetVarint32 i; get_many get (Z.to_nat n) i) (varint (Z.of_nat (length l)) ++ (l ≫= rec)) l.
Proof.
  intros Hn Hl rest. assert (Hu : is_u 32 (Z.of_nat (length l))) by (unfold is_u; lia).
  rewrite <- app_assoc, GetVarint32_varint by done. simpl. rewrite Nat2Z.id. by apply reads_many.
Qed.

Lemma reads_labels ls : labels_ok ls -> reads get_labels (labels_rec ls) ls.
Proof.
  intros [Hn Hl]. apply reads_sized; [done|]. eapply List.Forall_impl; [|exact Hl]. intros l [H1 H2]. by apply reads_label.
Qed.

Lemma reads_lsets lss : lsets_ok lss -> reads get_lsets (lsets_rec lss) lss.
Proof. intros [Hn Hl]. apply reads_sized; [done|]. eapply List.Forall_impl; [|exact Hl]. intros l. apply reads_labels. Qed.

End ReadProps.

Create HintDb wal.
#[export] Hint Resolve reads_fixed64 reads_fixed16 reads_delta reads_labels reads_lsets : wal.

(** Reading one field after the other. *)
Ltac read_field :=
  match goal with
  | |- context [?get (?enc ++ ?rest)] =>
    let H := fresh in assert (H : reads get enc _) by (eauto with wal); rewrite (H rest); clear H; cbn [mbind option_bind]
  end.

Lemma s64_id z : is_s64 z -> s64 (u64 z) = z.
Proof. intros Hz. rewrite s64_u64. apply swrap_id; [lia|done]. Qed.

Lemma u64_id z : is_u64 z -> u64 z = z.
Proof. apply wrap_id. Qed.

(** ** The records and their bytes *)

Definition series_rec (r : RefSeries) : list Z :=
  be_bytes 8 (ref r) ++ be_bytes 8 (u64 (flushed_txn r)) ++ be_bytes 8 (u64 (log_clean_txn r)) ++
  labels_rec (labels_of (lset r) (lset_ptr r)).

Definition tree_series_rec (r : TreeRefSeries) : list Z :=
  le_bytes 2 (tr_mid r) ++ be_bytes 8 (tr_sgid r) ++ be_bytes 8 (u64 (tr_flushed_txn r)) ++
  be_bytes 8 (u64 (tr_log_clean_txn r)) ++ labels_rec (labels_of (tr_lset r) (tr_lset_ptr r)).

Definition sample_rec (prev s : RefSample) : list Z :=
  delta_rec (s64 (s_ref s) - s64 (s_ref prev)) ++ delta_rec (s64 (logical_id s) - s64 (logical_id prev)) ++
  delta_rec (s_t s - s_t prev) ++ be_bytes 8 (s_v s) ++ delta_rec (s_txn s - s_txn prev).

Definition tree_sample_rec (prev s : TreeRefSample) : list Z :=
  delta_rec (mid s - mid prev) ++ delta_rec (s64 (sgid s) - s64 (sgid prev)) ++
  delta_rec (t_t s - t_t prev) ++ be_bytes 8 (t_v s) ++ delta_rec (t_txn s - t_txn prev).

(** The values the fields can hold. *)
Definition series_ok (r : RefSeries) : Prop :=
  is_u64 (ref r) /\ is_s64 (flushed_txn r) /\ is_s64 (log_clean_txn r) /\ labels_ok (labels_of (lset r) (lset_ptr r)).
Definition tree_series_ok (r : TreeRefSeries) : Prop :=
  is_u 16 (tr_mid r) /\ is_u64 (tr_sgid r) /\ is_s64 (tr_flushed_txn r) /\ is_s64 (tr_log_clean_txn r) /\
  labels_ok (labels_of (tr_lset r) (tr_lset_ptr r)).
Definition sample_ok (s : RefSample) : Prop :=
  is_u64 (s_ref s) /\ is_u64 (logical_id s) /\ is_s64 (s_t s) /\ is_u64 (s_v s) /\ is_s64 (s_txn s).
Definition tree_sample_ok (s : TreeRefSample) : Prop :=
  is_u 16 (mid s) /\ is_u64 (sgid s) /\ is_s64 (t_t s) /\ is_u64 (t_v s) /\ is_s64 (t_txn s).

(** A series as it comes back: its labels in [lset]. *)
Definition loaded (r : RefSeries) : RefSeries :=
  mkRefSeries (ref r) (labels_of (lset r) (lset_ptr r)) None (flushed_txn r) (log_clean_txn r).
Definition tree_loaded (r : TreeRefSeries) : TreeRefSeries :=
  mkTreeRefSeries (tr_sgid r) (tr_mid r) (labels_of (tr_lset r) (tr_lset_ptr r)) None (tr_flushed_txn r) (tr_log_clean_txn r).

Lemma put_series_rec result r : series_ok r -> put_series result r = result ++ series_rec r.
Proof. intros (_ & _ & _ & Hl). unfold put_series, series_rec. by rewrite !put_fixed64, put_labels_rec, <- !app_assoc. Qed.

Lemma put_tree_series_rec result r : tree_series_ok r -> put_tree_series result r = result ++ tree_series_rec r.
Proof.
  intros (_ & _ & _ & _ & Hl). unfold put_tree_series, tree_series_rec.
  by rewrite !put_fixed64, put_fixed16, put_labels_rec, <- !app_assoc.
Qed.

Lemma delta_back w a b : 0 < w <= 64 -> is_u w b -> wrap w (s64 a + s64 (s64 b - s64 a)) = b.
Proof.
  intros Hw Hb. rewrite <- (wrap_id w b Hb) at 2.
  destruct (swrap_ex 64 a) as [i Ei]. destruct (swrap_ex 64 b) as [j Ej].
  destruct (swrap_ex 64 (swrap 64 b - swrap 64 a)) as [k Ek]. unfold s64. rewrite Ek, Ej, Ei. unfold wrap.
  replace (a + i * 2 ^ 64 + (b + j * 2 ^ 64 - (a + i * 2 ^ 64) + k * 2 ^ 64)) with (b + ((j + k) * 2 ^ (64 - w)) * 2 ^ w).
  - apply Z.mod_add. apply Z.pow_nonzero; lia.
  - rewrite <- Z.mul_assoc, <- Z.pow_add_r by lia. replace (64 - w + w) with 64 by lia. lia.
Qed.

Lemma signed_delta_back a b : is_s64 b -> s64 (a + s64 (b - a)) = b.
Proof.
  intros Hb. apply (is_s_inj 64); [lia|apply swrap_range; lia|done|].
  change (u64 (s64 (a + s64 (b - a))) = u64 b). rewrite u64_s64. unfold u64. rewrite <- wrap_add_r.
  change (wrap 64 (s64 (b - a))) with (u64 (s64 (b - a))). rewrite u64_s64. unfold u64. rewrite wrap_add_r. f_equal. lia.
Qed.

Section RoundTrips.
Context `{PE : PastEnd}.

Lemma reads_series r : series_ok r -> reads get_series (series_rec r) (loaded r).
Proof.
  intros (H1 & H2 & H3 & H4) rest. unfold get_series, series_rec. rewrite <- !app_assoc. do 4 read_field.
  unfold u64 in *. rewrite !wrap_wrap, (wrap_id 64 (ref r)) by done. change (wrap 64 ?x) with (u64 x). by rewrite !s64_id.
Qed.

Lemma reads_tree_series r : tree_series_ok r -> reads get_tree_series (tree_series_rec r) (tree_loaded r).
Proof.
  intros (H1 & H2 & H3 & H4 & H5) rest. unfold get_tree_series, tree_series_rec. rewrite <- !app_assoc. do 5 read_field.
  unfold u64, u16 in *. rewrite !wrap_wrap, (wrap_id 64 (tr_sgid r)), (wrap_id 16 (tr_mid r)) by done.
  change (wrap 64 ?x) with (u64 x). by rewrite !s64_id.
Qed.

Lemma reads_sample prev s : sample_ok s -> reads (get_sample prev) (sample_rec prev s) s.
Proof.
  intros (H1 & H2 & H3 & H4 & H5) rest. unfold get_sample, sample_rec. rewrite <- !app_assoc. do 5 read_field.
  unfold u64. rewrite !delta_back by (done || lia). rewrite !signed_delta_back by done. rewrite wrap_id by done. by destruct s.
Qed.

Lemma reads_tree_sample prev s :
  tree_sample_ok prev -> tree_sample_ok s -> reads (get_tree_sample prev) (tree_sample_rec prev s) s.
Proof.
  intros (Hm & _) (H1 & H2 & H3 & H4 & H5) rest. unfold get_tree_sample, tree_sample_rec. rewrite <- !app_assoc. do 5 read_field.
  assert (Hs : forall z, is_u 16 z -> s64 z = z) by (intros z Hz; apply swrap_id; [lia|unfold is_u, is_s in *; lia]).
  assert (Em : u16 (u64 (mid prev + s64 (mid s - mid prev))) = mid s).
  { unfold u16, u64. rewrite <- (Hs _ Hm) at 1. rewrite <- (Hs _ H1) at 1. rewrite <- (Hs _ Hm) at 2.
    assert (E : forall z, wrap 16 (wrap 64 z) = wrap 16 z).
    { intros z. unfold wrap. rewrite (Z.mod_eq z (2 ^ 64)) by done.
      replace (z - 2 ^ 64 * (z / 2 ^ 64)) with (z + (- (2 ^ 48 * (z / 2 ^ 64))) * 2 ^ 16) by lia. by apply Z.mod_add. }
    rewrite E. by apply delta_back. }
  rewrite Em. unfold u64. rewrite delta_back by (done || lia). rewrite !signed_delta_back by done.
  rewrite wrap_id by done. by destruct s.
Qed.

End RoundTrips.

(** Items written each against the one before it. *)
Fixpoint chain {A} (rec : A -> A -> list Z) (prev : A) (l : list A) : list Z :=
  match l with [] => [] | x :: l => rec prev x ++ chain rec x l end.

Lemma length_chain {A} (rec : A -> A -> list Z) prev l :
  (forall p x, rec p x <> []) -> (length l <= length (chain rec prev l))%nat.
Proof.
  intros Hr. revert prev. induction l as [|x l IH]; intros prev; [done|]. simpl. rewrite length_app. specialize (IH x).
  specialize (Hr prev x). destruct (rec prev x); [done|]. simpl. lia.
Qed.

Lemma delta_rec_nonempty d : delta_rec d <> [].
Proof.
  unfold delta_rec. intros E%(f_equal length). pose proof (length_varint (zigzag (s64 d)) (zigzag_u64 _)) as Hl.
  rewrite E in Hl. simpl in Hl. lia.
Qed.

Lemma put_samples_rec result prev l : put_samples result prev l = result ++ chain sample_rec prev l.
Proof.
  revert result prev. induction l as [|s l IH]; intros result prev; [by rewrite app_nil_r|]. cbn [put_samples chain].
  rewrite IH, !put_delta_rec, put_fixed64. unfold sample_rec. by rewrite <- !app_assoc.
Qed.

Lemma put_tree_samples_rec result prev l : put_tree_samples result prev l = result ++ chain tree_sample_rec prev l.
Proof.
  revert result prev. induction l as [|s l IH]; intros result prev; [by rewrite app_nil_r|]. cbn [put_tree_samples chain].
  rewrite IH, !put_delta_rec, put_fixed64. unfold tree_sample_rec. by rewrite <- !app_assoc.
Qed.

Section Records.
Context `{PE : PastEnd}.

Lemma get_samples_chain rounds prev l :
  Forall sample_ok l -> (length l <= rounds)%nat -> get_samples rounds prev (chain sample_rec prev l) = Some l.
Proof.
  intros Hl. revert rounds prev. induction Hl as [|s l Hs _ IH]; intros rounds prev Hr; [by destruct rounds|].
  destruct rounds as [|k]; [simpl in Hr; lia|]. simpl in Hr. cbn [chain].
  assert (E : forall tail, get_samples (S k) prev (sample_rec prev s ++ tail) =
    '(s, l) ← get_sample prev (sample_rec prev s ++ tail); ss ← get_samples k s l; Some (s :: ss)).
  { intros tail. unfold sample_rec. pose proof (delta_rec_nonempty (s64 (s_ref s) - s64 (s_ref prev))). by destruct (delta_rec _). }
  rewrite E, (reads_sample prev s Hs). cbn [mbind option_bind]. by rewrite IH by lia.
Qed.

Lemma get_tree_samples_chain rounds prev l :
  tree_sample_ok prev -> Forall tree_sample_ok l -> (length l <= rounds)%nat ->
  get_tree_samples rounds prev (chain tree_sample_rec prev l) = Some l.
Proof.
  intros Hp Hl. revert rounds prev Hp. induction Hl as [|s l Hs _ IH]; intros rounds prev Hp Hr; [by destruct rounds|].
  destruct rounds as [|k]; [simpl in Hr; lia|]. simpl in Hr. cbn [chain].
  assert (E : forall tail, get_tree_samples (S k) prev (tree_sample_rec prev s ++ tail) =
    '(s, l) ← get_tree_sample prev (tree_sample_rec prev s ++ tail); ss ← get_tree_samples k s l; Some (s :: ss)).
  { intros tail. unfold tree_sample_rec. pose proof (delta_rec_nonempty (mid s - mid prev)). by destruct (delta_rec _). }
  rewrite E, (reads_tree_sample prev s Hp Hs). cbn [mbind option_bind]. by rewrite IH by (done || lia).
Qed.

Lemma series_rec_nonempty r : series_rec r <> [].
Proof. intros E%(f_equal length). unfold series_rec in E. rewrite length_app, length_be_bytes in E. simpl in E. lia. Qed.

Lemma tree_series_rec_nonempty r : tree_series_rec r <> [].
Proof. intros E%(f_equal length). unfold tree_series_rec in E. rewrite length_app, length_le_bytes in E. simpl in E. lia. Qed.

Lemma read_type {A} type (get : list Z -> option A) l : of_type type get (type :: l) = Some <$> get l.
Proof. simpl. by rewrite Z.eqb_refl. Qed.

(** The sample records of the log, the plain ones and those of the tree
    head, decode to the samples they were written from: ids, timestamps and
    transaction numbers of any size in any order, and the bits of any value. *)
Theorem wal_samples_round_trip l tl :
  l <> [] -> Forall sample_ok l -> tl <> [] -> Forall tree_sample_ok tl ->
  (samples l [] ≫= read_samples) = Some (Some l) /\ (treeSamples tl [] ≫= read_treeSamples) = Some (Some tl).
Proof.
  intros Hn Hl Htn Htl. destruct Hl as [|s l Hs Hl]; [done|]. destruct Htl as [|u tl Hu Htl]; [done|]. split.
  - unfold samples. cbn [mbind option_bind]. rewrite put_samples_rec, !put_fixed64, <- !app_assoc. cbn [app].
    unfold read_samples. rewrite read_type. do 5 read_field. destruct Hs as (H1 & H2 & H3 & H4 & H5).
    unfold u64. rewrite !wrap_wrap, !(wrap_id 64 (s_ref s)), !(wrap_id 64 (logical_id s)), !(wrap_id 64 (encode_double (s_v s))) by done.
    change (wrap 64 ?x) with (u64 x). rewrite !s64_id by done. assert (E : mkRefSample (s_ref s) (logical_id s) (s_t s) (decode_double (encode_double (s_v s))) (s_txn s) = s) by (by destruct s). rewrite E.
    rewrite get_samples_chain; [done|done|]. apply length_chain. intros p x. unfold sample_rec.
    intros E'%app_nil. by destruct E' as [?%delta_rec_nonempty _].
  - unfold treeSamples. cbn [mbind option_bind]. rewrite put_tree_samples_rec, !put_fixed64, put_fixed16, <- !app_assoc. cbn [app].
    unfold read_treeSamples. rewrite read_type. do 5 read_field. pose proof Hu as (H1 & H2 & H3 & H4 & H5).
    unfold u64, u16. rewrite !wrap_wrap, !(wrap_id 16 (mid u)), !(wrap_id 64 (sgid u)), !(wrap_id 64 (encode_double (t_v u))) by done.
    change (wrap 64 ?x) with (u64 x). rewrite !s64_id by done. assert (E : mkTreeRefSample (sgid u) (mid u) (t_t u) (decode_double (encode_double (t_v u))) (t_txn u) = u) by (by destruct u). rewrite E.
    rewrite get_tree_samples_chain; [done|done|done|]. apply length_chain. intros p x. unfold tree_sample_rec.
    intros E'%app_nil. by destruct E' as [?%delta_rec_nonempty _].
Qed.

(** The series records of the log decode to the series they were written
    from, with the labels behind [lset_ptr] when it is set; the overload for
    one series fills an empty one from a record that holds one. *)
Theorem wal_series_round_trip l tl :
  Forall series_ok l -> Forall tree_series_ok tl ->
  read_series (series l []) = Some (Some (loaded <$> l)) /\
  read_treeSeries (treeSeries tl []) = Some (Some (tree_loaded <$> tl)) /\
  (forall r rs, l = [r] -> lset rs = [] -> lset_ptr rs = None -> read_one_series (series l []) rs = Some (Some (loaded r))) /\
  (forall r rs, tl = [r] -> tr_lset rs = [] -> tr_lset_ptr rs = None ->
     read_one_treeSeries (treeSeries tl []) rs = Some (Some (tree_loaded r))).
Proof.
  intros Hl Htl.
  assert (E : series l [] = kSeries :: (l ≫= series_rec)).
  { unfold series. rewrite (foldl_put _ series_rec series_ok); [done| |done]. intros. by apply put_series_rec. }
  assert (Et : treeSeries tl [] = kSeries :: (tl ≫= tree_series_rec)).
  { unfold treeSeries. rewrite (foldl_put _ tree_series_rec tree_series_ok); [done| |done]. intros. by apply put_tree_series_rec. }
  assert (G : get_all (length (l ≫= series_rec)) get_series (l ≫= series_rec) = Some (loaded <$> l)).
  { apply reads_all.
    - eapply List.Forall_impl; [|exact Hl]. intros r Hr. split; [by apply reads_series|apply series_rec_nonempty].
    - apply length_bind_ge, Forall_true, series_rec_nonempty. }
  assert (Gt : get_all (length (tl ≫= tree_series_rec)) get_tree_series (tl ≫= tree_series_rec) = Some (tree_loaded <$> tl)).
  { apply reads_all.
    - eapply List.Forall_impl; [|exact Htl]. intros r Hr. split; [by apply reads_tree_series|apply tree_series_rec_nonempty].
    - apply length_bind_ge, Forall_true, tree_series_rec_nonempty. }
  unfold read_series, read_treeSeries, read_one_series, read_one_treeSeries. rewrite E, Et, !read_type, G, Gt.
  split; [reflexivity|]. split; [reflexivity|]. split; intros r rs El H1 H2; rewrite read_type; cbv beta.
  - rewrite G, El. change (Some (Some (merge_series rs (loaded r))) = Some (Some (loaded r))).
    unfold merge_series. by rewrite H1, H2.
  - rewrite Gt, El. change (Some (Some (merge_tree_series rs (tree_loaded r))) = Some (Some (tree_loaded r))).
    unfold merge_tree_series. by rewrite H1, H2.
Qed.

(** ** Groups and flush marks *)

Definition group_ok (g : RefGroup) : Prop := is_u64 (g_ref g) /\ labels_ok (group_lset g) /\ lsets_ok (individual_lsets g).

(** A group sample names its members by label sets, by slots, or not at all
    (all of them), and has a value for each. *)
Definition members_ok (g : RefGroupSample) : Prop :=
  Z.of_nat (length (gs_v g)) < 2 ^ 31 /\
  ((gs_lsets g = [] /\ slots g = []) \/
   (gs_lsets g = [] /\ slots g <> [] /\ length (slots g) = length (gs_v g) /\ Forall (is_s 32) (slots g)) \/
   (gs_lsets g <> [] /\ slots g = [] /\ length (gs_lsets g) = length (gs_v g) /\ Forall labels_ok (gs_lsets g))).

Definition group_sample_ok (g : RefGroupSample) : Prop :=
  is_u64 (gs_ref g) /\ is_s64 (gs_t g) /\ is_s64 (gs_txn g) /\ Forall is_u64 (gs_v g) /\ members_ok g.

(** The member part as bytes: the kind, the count and the members. *)
Definition members_rec (g : RefGroupSample) : list Z :=
  match gs_lsets g with
  | [] =>
    match slots g with
    | [] => [1] ++ varint (2 ^ 31 + Z.of_nat (length (gs_v g)))
    | ss => [1] ++ varint (Z.of_nat (length ss)) ++ (ss ≫= fun s => varint (u32 s))
    end
  | lss => [2] ++ lsets_rec lss
  end.

Lemma high_bit n : 0 <= n < 2 ^ 31 -> Z.lor (Z.shiftl 1 31) n = 2 ^ 31 + n.
Proof. intros Hn. rewrite Z.lor_comm. change (Z.shiftl 1 31) with (1 * 2 ^ 31). rewrite lor_le by lia. lia. Qed.

Lemma group_sample_bytes g : group_sample_ok g ->
  group_sample g [] = kGroupSample :: be_bytes 8 (gs_ref g) ++ members_rec g ++ be_bytes 8 (u64 (gs_t g)) ++
    (gs_v g ≫= be_bytes 8) ++ be_bytes 8 (u64 (gs_txn g)).
Proof.
  intros (_ & _ & _ & _ & Hn & Hm). unfold group_sample. rewrite !put_fixed64.
  rewrite (foldl_put _ (be_bytes 8) (fun _ => True)); [|intros; apply put_fixed64|by apply Forall_true].
  enough (E : forall result, match gs_lsets g with
    | [] => foldl (fun result s => PutVarint32 result (u32 s))
        match slots g with
        | [] => PutVarint32 (result ++ [1]) (Z.lor (Z.shiftl 1 31) (u32 (Z.of_nat (length (gs_v g)))))
        | _ => PutVarint32 (result ++ [1]) (u32 (Z.of_nat (length (slots g))))
        end (slots g)
    | _ => put_lsets (result ++ [2]) (gs_lsets g) end = result ++ members_rec g).
  { rewrite E, <- !app_assoc. done. }
  intros result. unfold members_rec. destruct Hm as [[-> ->]|[(-> & Hs & El & Hss)|(Hl & -> & El & Hls)]].
  - unfold u32. rewrite wrap_id by (unfold is_u; lia). rewrite high_bit by lia.
    cbn [foldl]. rewrite put_varint32 by (unfold is_u; lia). by rewrite <- app_assoc.
  - rewrite (foldl_put _ (fun s => varint (u32 s)) (fun _ => True));
      [|intros; apply put_varint32, wrap_range; lia|by apply Forall_true].
    destruct (slots g); [done|]. rewrite put_size by lia. by rewrite <- !app_assoc.
  - destruct (gs_lsets g); [done|]. rewrite put_lsets_rec; [by rewrite <- app_assoc|]. split; [lia|done].
Qed.

Lemma reads_slot s : is_s 32 s -> reads get_slot (varint (u32 s)) s.
Proof.
  intros Hs rest. unfold get_slot. rewrite GetVarint32_varint by (apply wrap_range; lia). cbn [mbind option_bind].
  unfold s32, u32. rewrite swrap_wrap. rewrite swrap_id by (done || lia). done.
Qed.

(** What the reader gets out of the member part. *)
Lemma reads_members g rest : group_sample_ok g ->
  exists kind l n, members_rec g ++ rest = kind :: l /\
    get_members kind l = Some ((gs_lsets g, slots g, n), rest) /\ Z.to_nat (Z.land n 0x7fffffff) = length (gs_v g).
Proof.
  intros (_ & _ & _ & _ & Hn & Hm). unfold members_rec.
  assert (Hmask : forall n, 0 <= n < 2 ^ 31 -> Z.land n 0x7fffffff = n).
  { intros n Hb. change 0x7fffffff with (Z.ones 31). rewrite Z.land_ones by lia. apply Z.mod_small. lia. }
  destruct Hm as [[-> ->]|[(-> & Hs & El & Hss)|(Hl & -> & El & Hls)]].
  - exists 1, (varint (2 ^ 31 + Z.of_nat (length (gs_v g))) ++ rest), (2 ^ 31 + Z.of_nat (length (gs_v g))). split; [reflexivity|]. unfold get_members. simpl (1 =? 1). cbv iota.
    rewrite GetVarint32_varint by (unfold is_u; lia). cbn [mbind option_bind].
    rewrite Z.shiftr_div_pow2 by lia. replace ((2 ^ 31 + Z.of_nat (length (gs_v g))) / 2 ^ 31) with 1.
    2:{ apply Z.div_unique with (Z.of_nat (length (gs_v g))); lia. }
    split; [done|]. change 0x7fffffff with (Z.ones 31). rewrite Z.land_ones by lia.
    rewrite <- (Z.mul_1_l (2 ^ 31)) at 1. rewrite Z.add_comm, Z.mod_add by lia. rewrite Z.mod_small by lia. lia.
  - destruct (slots g) as [|s0 ss] eqn:Es; [done|]. set (L := s0 :: ss) in *. exists 1, ((varint (Z.of_nat (length L)) ++ (L ≫= fun s => varint (u32 s))) ++ rest), (Z.of_nat (length L)).
    split; [reflexivity|]. unfold get_members. simpl (1 =? 1). cbv iota.
    rewrite <- app_assoc, GetVarint32_varint by (unfold is_u; lia). cbn [mbind option_bind].
    rewrite Z.shiftr_div_pow2, Z.div_small by lia. simpl (0 =? 0). cbv iota. rewrite Nat2Z.id.
    rewrite (reads_many get_slot (fun s => varint (u32 s))) by (eapply List.Forall_impl; [|exact Hss]; intros; by apply reads_slot).
    cbn [mbind option_bind]. split; [done|]. rewrite Hmask by lia. lia.
  - destruct (gs_lsets g) as [|s0 ss] eqn:Es; [done|]. set (L := s0 :: ss) in *. exists 2, (lsets_rec L ++ rest), (Z.of_nat (length L)).
    split; [reflexivity|]. unfold get_members. simpl (2 =? 1). cbv iota. unfold lsets_rec.
    rewrite <- app_assoc, GetVarint32_varint by (unfold is_u; lia). cbn [mbind option_bind]. rewrite Nat2Z.id.
    rewrite (reads_many get_labels labels_rec) by (eapply List.Forall_impl; [|exact Hls]; intros; by apply reads_labels).
    cbn [mbind option_bind]. split; [done|]. rewrite Hmask by lia. lia.
Qed.

Lemma reads_double v : is_u64 v -> reads get_double (be_bytes 8 v) v.
Proof. intros Hv rest. unfold get_double. read_field. unfold u64. by rewrite wrap_id. Qed.

(** The group records, the group samples (with their members named by label
    sets, by slots or left out) and the flush marks decode to what they were
    written from. *)
Theorem wal_group_round_trip g gs f tf :
  group_ok g -> group_sample_ok gs -> is_u64 (f_ref f) -> is_u64 (f_logical_id f) -> is_s64 (f_txn f) ->
  is_u 16 (tf_mid tf) -> is_u64 (tf_sgid tf) -> is_s64 (tf_txn tf) ->
  read_group (group g []) = Some (Some g) /\ read_group_sample (group_sample gs []) = Some (Some gs) /\
  read_flush (flush f []) = Some (Some f) /\ read_treeFlush (treeFlush tf []) = Some (Some tf).
Proof.
  intros (H1 & H2 & H3) Hgs Hf1 Hf2 Hf3 Ht1 Ht2 Ht3. split; [|split; [|split]].
  - unfold group, read_group. rewrite put_fixed64, put_labels_rec, put_lsets_rec by done. rewrite <- !app_assoc. cbn [app].
    rewrite read_type. do 2 read_field. rewrite <- (app_nil_r (lsets_rec _)). read_field.
    unfold u64. rewrite wrap_id by done. by destruct g.
  - rewrite group_sample_bytes by done. unfold read_group_sample. rewrite read_type. read_field.
    destruct (reads_members gs (be_bytes 8 (u64 (gs_t gs)) ++ (gs_v gs ≫= be_bytes 8) ++ be_bytes 8 (u64 (gs_txn gs))) Hgs)
      as (kind & l & n & -> & -> & En). cbn [mbind option_bind]. read_field. rewrite En.
    destruct Hgs as (G1 & G2 & G3 & G4 & _).
    rewrite (reads_many get_double (be_bytes 8)) by (eapply List.Forall_impl; [|exact G4]; intros; by apply reads_double).
    cbn [mbind option_bind]. rewrite <- (app_nil_r (be_bytes 8 _)). read_field. unfold u64. rewrite !wrap_wrap.
    change (wrap 64 ?x) with (u64 x). rewrite !s64_id, u64_id by done. by destruct gs.
  - unfold flush, read_flush. rewrite !put_fixed64, <- !app_assoc. cbn [app]. rewrite read_type. do 2 read_field.
    rewrite <- (app_nil_r (be_bytes 8 _)). read_field. unfold u64. rewrite !wrap_wrap. change (wrap 64 ?x) with (u64 x).
    rewrite s64_id, !u64_id by done. by destruct f.
  - unfold treeFlush, read_treeFlush. rewrite !put_fixed64, put_fixed16, <- !app_assoc. cbn [app]. rewrite read_type. do 2 read_field.
    rewrite <- (app_nil_r (be_bytes 8 _)). read_field. unfold u64, u16. rewrite !wrap_wrap. rewrite (wrap_id 16) by done.
    change (wrap 64 ?x) with (u64 x). rewrite s64_id, !u64_id by done. by destruct tf.
Qed.

(** The record [series_without_labels] writes is only the first bytes of a
    series record: on its own it has no label count. *)
Lemma series_without_labels_incomplete r f c : read_series (series_without_labels r f c []) = None.
Proof.
  unfold series_without_labels, read_series. rewrite !put_fixed64, <- !app_assoc. cbn [app]. rewrite read_type.
  rewrite <- (app_nil_r (be_bytes 8 (u64 c))). set (l := be_bytes 8 r ++ _).
  assert (E : get_series l = None) by (unfold get_series, l; do 3 read_field; done).
  assert (Hl : length l = 24%nat) by (unfold l; rewrite !length_app, !length_be_bytes; done).
  rewrite Hl. destruct l as [|b l]; [done|]. cbn [get_all]. by rewrite E.
Qed.

End Records.

(** ** Witnesses *)

Section Witnesses.
#[local] Instance rec_past_end : PastEnd := fun _ => 0.

Definition demo_sample (i : Z) : RefSample := mkRefSample (2 ^ 64 - i) i (- i) (i * 1000) (5 - i).
Definition demo_tree_sample (i : Z) : TreeRefSample := mkTreeRefSample (2 ^ 64 - i) (65535 - i) (- i) (i * 1000) (5 - i).
Definition demo_labels : Labels := [mkLabel [110] [118; 49]; mkLabel [] []].

Lemma demo_labels_ok : labels_ok demo_labels.
Proof. split; [done|]. repeat constructor; done. Qed.

Lemma wal_samples_round_trip_witness :
  (samples [demo_sample 3; demo_sample 1; demo_sample 2] [] ≫= read_samples)
    = Some (Some [demo_sample 3; demo_sample 1; demo_sample 2]) /\
  (treeSamples [demo_tree_sample 3; demo_tree_sample 1] [] ≫= read_treeSamples)
    = Some (Some [demo_tree_sample 3; demo_tree_sample 1]).
Proof.
  apply (wal_samples_round_trip [demo_sample 3; demo_sample 1; demo_sample 2] [demo_tree_sample 3; demo_tree_sample 1]); try done;
    repeat (apply Forall_cons_2; [split_and!; simpl; unfold is_u, is_s; lia|]); apply Forall_nil_2.
Defined.

Lemma wal_series_round_trip_witness :
  read_series (series [mkRefSeries 7 [] (Some demo_labels) (-1) 3] []) = Some (Some [mkRefSeries 7 demo_labels None (-1) 3]).
Proof.
  apply (wal_series_round_trip [mkRefSeries 7 [] (Some demo_labels) (-1) 3] []); [|apply Forall_nil_2].
  apply Forall_cons_2; [|apply Forall_nil_2]. split_and!; simpl; try apply demo_labels_ok; unfold is_u, is_s; lia.
Defined.

Lemma wal_group_round_trip_witness :
  read_group_sample (group_sample (mkRefGroupSample 9 [] [0; 4] 100 [1; 2] (-5)) [])
    = Some (Some (mkRefGroupSample 9 [] [0; 4] 100 [1; 2] (-5))).
Proof.
  assert (Hg : group_ok (mkRefGroup 1 demo_labels [demo_labels])).
  { split_and!; simpl; [unfold is_u; lia|apply demo_labels_ok|]. split; [done|]. apply Forall_cons_2; [apply demo_labels_ok|apply Forall_nil_2]. }
  assert (Hs : group_sample_ok (mkRefGroupSample 9 [] [0; 4] 100 [1; 2] (-5))).
  { split_and!; simpl; try (unfold is_u, is_s; lia).
    - repeat apply Forall_cons_2; try apply Forall_nil_2; unfold is_u; lia.
    - split; [done|]. right. left. split_and!; try done. repeat apply Forall_cons_2; try apply Forall_nil_2; unfold is_s; lia. }
  apply (wal_group_round_trip (mkRefGroup 1 demo_labels [demo_labels]) (mkRefGroupSample 9 [] [0; 4] 100 [1; 2] (-5))
    (mkRefFlush 1 2 3) (mkTreeRefFlush 1 2 3)); try done; simpl; unfold is_u, is_s; lia.
Defined.

End Witnesses.
