(* ===== verification/Gorilla.v ===== *)
(** leveldb/db/log_writer.cc (294-558) and log_reader.cc (389-575): the
    Gorilla-compressed sample record of the tree head's log.

    [GorillaBitWriter] mixes single bits, most significant first, with
    byte-aligned varints and fixed-width numbers; [GorillaBitReader] mirrors it.
    The reader's [data_ + byte_pos_] is the list of bytes from there on.  The
    overload over a vector of pointers writes the same bytes. *)
From Stdlib Require Import ZArith Lia Bool.
From stdpp Require Import base list numbers option.
From S2P Require Import Prelude Endian Coding XORChunk Label WalRecords.

Definition kSampleGorilla : Z := 6.

(** ** The bit writer *)

Record GorillaBitWriter := mkBW { buf_ : list Z; cur_byte_ : Z; bw_bit_pos_ : Z }.

Definition bit_writer (buf : list Z) : GorillaBitWriter := mkBW buf 0 0.

Definition writeBit (w : GorillaBitWriter) (bit : Z) : GorillaBitWriter :=
  let cur := if bit =? 0 then cur_byte_ w else u8 (Z.lor (cur_byte_ w) (Z.shiftl 1 (7 - bw_bit_pos_ w))) in
  let pos := bw_bit_pos_ w + 1 in
  if pos =? 8 then mkBW (buf_ w ++ [cur]) 0 0 else mkBW (buf_ w) cur pos.

(** [for (i = num_bits - 1; i >= 0; i--)] *)
Fixpoint writeBits (w : GorillaBitWriter) (v : Z) (num_bits : nat) : GorillaBitWriter :=
  match num_bits with
  | O => w
  | S i => writeBits (writeBit w (Z.land (Z.shiftr v (Z.of_nat i)) 1)) v i
  end.

Definition flushToByte (w : GorillaBitWriter) : GorillaBitWriter :=
  if 0 <? bw_bit_pos_ w then mkBW (buf_ w ++ [cur_byte_ w]) 0 0 else w.

(** The do-while loop of [writeUnsignedVarint]; ten rounds empty a 64-bit
    value. *)
Fixpoint varint_loop (rounds : nat) (v : Z) : list Z :=
  match rounds with
  | O => []
  | S rounds =>
    let byte := Z.land v 0x7f in
    let v := Z.shiftr v 7 in
    if v =? 0 then [byte] else Z.lor byte 0x80 :: varint_loop rounds v
  end.

Definition append (w : GorillaBitWriter) (b : list Z) : GorillaBitWriter := mkBW (buf_ w ++ b) (cur_byte_ w) (bw_bit_pos_ w).

Definition writeUnsignedVarint (w : GorillaBitWriter) (v : Z) : GorillaBitWriter :=
  append (flushToByte w) (varint_loop 10 v).

Definition writeSignedVarint (w : GorillaBitWriter) (v : Z) : GorillaBitWriter :=
  let uval := u64 (if v <? 0 then Z.lnot (s64 (Z.shiftl v 1)) else s64 (Z.shiftl v 1)) in
  writeUnsignedVarint w uval.

Definition writeFixed64BE (w : GorillaBitWriter) (v : Z) : GorillaBitWriter := append (flushToByte w) (EncodeFixed64BE v).
Definition writeFixed16 (w : GorillaBitWriter) (v : Z) : GorillaBitWriter := append (flushToByte w) (EncodeFixed16 v).

(** A field that is one bit when it is as expected, a bit and a delta
    otherwise. *)
Definition write_field (w : GorillaBitWriter) (same : bool) (d : Z) : GorillaBitWriter :=
  if same then writeBit w 0 else writeSignedVarint (writeBit w 1) d.

(** The tracking state of the encoder and of the decoder. *)
Record Track := mkTrack {
  prev_mid : Z; prev_sgid : Z; prev_t : Z; prev_v : Z; prev_txn : Z;
  prev_t_delta : Z; prev_txn_delta : Z; prev_lz : Z; prev_tz : Z }.

Definition track (s0 : TreeRefSample) : Track :=
  mkTrack (mid s0) (sgid s0) (t_t s0) (encode_double (t_v s0)) (t_txn s0) 0 0 64 0.

(** The value, with the window it leaves. *)
Definition write_value (w : GorillaBitWriter) (k : Track) (cur_v : Z) : GorillaBitWriter * Z * Z :=
  let xor_val := Z.lxor cur_v (prev_v k) in
  if xor_val =? 0 then (writeBit w 0, prev_lz k, prev_tz k)
  else
    let w := writeBit w 1 in
    let leading_zeros := clzll xor_val in
    let trailing_zeros := ctzll xor_val in
    if (prev_lz k <=? leading_zeros) && (prev_tz k <=? trailing_zeros) then
      let w := writeBit w 0 in
      let meaningful_bits := 64 - prev_lz k - prev_tz k in
      (writeBits w (Z.shiftr xor_val (prev_tz k)) (Z.to_nat meaningful_bits), prev_lz k, prev_tz k)
    else
      let w := writeBit w 1 in
      let w := writeBits w leading_zeros 5 in
      let meaningful_bits := 64 - leading_zeros - trailing_zeros in
      let w := writeBits w (u64 (meaningful_bits - 1)) 6 in
      (writeBits w (Z.shiftr xor_val trailing_zeros) (Z.to_nat meaningful_bits), leading_zeros, trailing_zeros).

Definition write_sample (w : GorillaBitWriter) (k : Track) (s : TreeRefSample) : GorillaBitWriter * Track :=
  let w := write_field w (mid s =? prev_mid k) (mid s - prev_mid k) in
  let w := write_field w (sgid s =? prev_sgid k) (s64 (s64 (sgid s) - s64 (prev_sgid k))) in
  let t_delta := s64 (t_t s - prev_t k) in
  let dod := s64 (t_delta - prev_t_delta k) in
  let w := write_field w (dod =? 0) dod in
  let cur_v := encode_double (t_v s) in
  let '(w, lz, tz) := write_value w k cur_v in
  let txn_delta := s64 (t_txn s - prev_txn k) in
  let w := write_field w (txn_delta =? prev_txn_delta k) txn_delta in
  (w, mkTrack (mid s) (sgid s) (t_t s) cur_v (t_txn s) t_delta txn_delta lz tz).

Fixpoint write_samples (w : GorillaBitWriter) (k : Track) (l : list TreeRefSample) : GorillaBitWriter :=
  match l with
  | [] => w
  | s :: l => let '(w, k) := write_sample w k s in write_samples w k l
  end.

Definition write_first (w : GorillaBitWriter) (s0 : TreeRefSample) : GorillaBitWriter :=
  let w := writeFixed16 w (mid s0) in
  let w := writeFixed64BE w (sgid s0) in
  let w := writeFixed64BE w (u64 (t_t s0)) in
  let w := writeFixed64BE w (encode_double (t_v s0)) in
  writeFixed64BE w (u64 (t_txn s0)).

Definition treeSamplesGorilla (l : list TreeRefSample) (result : list Z) : list Z :=
  match l with
  | [] => result
  | s0 :: rest =>
    let result := PutVarint32 (result ++ [kSampleGorilla]) (u32 (Z.of_nat (length l))) in
    buf_ (flushToByte (write_samples (write_first (bit_writer result) s0) (track s0) rest))
  end.

(** ** The bit reader *)

Record GorillaBitReader := mkBR { br_data : list Z; br_bit_pos_ : Z }.

(** [-1] at the end of the data. *)
Definition readBit (r : GorillaBitReader) : Z * GorillaBitReader :=
  match br_data r with
  | [] => (-1, r)
  | b :: rest =>
    let bit := Z.land (Z.shiftr b (7 - br_bit_pos_ r)) 1 in
    let pos := br_bit_pos_ r + 1 in
    (bit, if pos =? 8 then mkBR rest 0 else mkBR (br_data r) pos)
  end.

Fixpoint readBits_loop (n : nat) (v : Z) (r : GorillaBitReader) : Z * GorillaBitReader :=
  match n with
  | O => (v, r)
  | S n =>
    let '(bit, r) := readBit r in
    if bit <? 0 then (v, r) else readBits_loop n (Z.lor (u64 (Z.shiftl v 1)) bit) r
  end.
Definition readBits (num_bits : Z) (r : GorillaBitReader) : Z * GorillaBitReader := readBits_loop (Z.to_nat num_bits) 0 r.

Definition skipToByte (r : GorillaBitReader) : GorillaBitReader :=
  if 0 <? br_bit_pos_ r then mkBR (drop 1 (br_data r)) 0 else r.

Fixpoint read_varint_loop (v shift : Z) (data : list Z) : Z * list Z :=
  match data with
  | [] => (v, [])
  | b :: data =>
    let v := Z.lor v (u64 (Z.shiftl (Z.land b 0x7f) shift)) in
    if Z.land b 0x80 =? 0 then (v, data) else read_varint_loop v (shift + 7) data
  end.

Definition readUnsignedVarint (r : GorillaBitReader) : Z * GorillaBitReader :=
  let r := skipToByte r in
  let '(v, data) := read_varint_loop 0 0 (br_data r) in (v, mkBR data (br_bit_pos_ r)).

Definition readSignedVarint (r : GorillaBitReader) : Z * GorillaBitReader :=
  let '(uval, r) := readUnsignedVarint r in
  (s64 (if Z.land uval 1 =? 0 then Z.shiftr uval 1 else u64 (Z.lnot (Z.shiftr uval 1))), r).

Section Read.
Context `{PastEnd}.

Definition readFixed64BE (r : GorillaBitReader) : Z * GorillaBitReader :=
  let r := skipToByte r in (DecodeFixed64BE (br_data r), mkBR (drop 8 (br_data r)) (br_bit_pos_ r)).
Definition readFixed16 (r : GorillaBitReader) : Z * GorillaBitReader :=
  let r := skipToByte r in (DecodeFixed16 (br_data r), mkBR (drop 2 (br_data r)) (br_bit_pos_ r)).

(** [readBit() == 0] or a delta. *)
Definition read_field (r : GorillaBitReader) : option Z * GorillaBitReader :=
  let '(bit, r) := readBit r in
  if bit =? 0 then (None, r) else let '(d, r) := readSignedVarint r in (Some d, r).

Definition read_value (k : Track) (r : GorillaBitReader) : (Z * Z * Z) * GorillaBitReader :=
  let '(bit, r) := readBit r in
  if bit =? 0 then ((decode_double (prev_v k), prev_lz k, prev_tz k), r)
  else
    let '(bit, r) := readBit r in
    if bit =? 0 then
      let meaningful := 64 - prev_lz k - prev_tz k in
      let '(shifted, r) := readBits meaningful r in
      let xor_val := u64 (Z.shiftl shifted (prev_tz k)) in
      ((decode_double (Z.lxor (prev_v k) xor_val), prev_lz k, prev_tz k), r)
    else
      let '(lz, r) := readBits 5 r in
      let '(m, r) := readBits 6 r in
      let meaningful := m + 1 in
      let '(shifted, r) := readBits meaningful r in
      let tz := 64 - lz - meaningful in
      let xor_val := u64 (Z.shiftl shifted tz) in
      ((decode_double (Z.lxor (prev_v k) xor_val), lz, tz), r).

(** The fields of a sample in the order they are read. *)
Definition Fields : Type := option Z * option Z * option Z * (Z * Z * Z) * option Z.

Definition read_fields (k : Track) (r : GorillaBitReader) : Fields * GorillaBitReader :=
  let '(dm, r) := read_field r in
  let '(dg, r) := read_field r in
  let '(dd, r) := read_field r in
  let '(v, r) := read_value k r in
  let '(dx, r) := read_field r in
  ((dm, dg, dd, v, dx), r).

(** The sample they stand for, and the tracking state after it. *)
Definition assemble (k : Track) (f : Fields) : TreeRefSample * Track :=
  let '(dm, dg, dd, (v, lz, tz), dx) := f in
  let m := match dm with None => prev_mid k | Some d => u16 (prev_mid k + d) end in
  let g := match dg with None => prev_sgid k | Some d => u64 (s64 (prev_sgid k) + d) end in
  let dod := default 0 dd in
  let t := s64 (prev_t k + prev_t_delta k + dod) in
  let t_delta := s64 (t - prev_t k) in
  let txn_delta := default (prev_txn_delta k) dx in
  let x := s64 (prev_txn k + txn_delta) in
  (mkTreeRefSample g m t v x, mkTrack m g t (encode_double v) x t_delta txn_delta lz tz).

Definition read_sample (k : Track) (r : GorillaBitReader) : (TreeRefSample * Track) * GorillaBitReader :=
  let '(f, r) := read_fields k r in (assemble k f, r).

Fixpoint read_samples (n : nat) (k : Track) (r : GorillaBitReader) : list TreeRefSample :=
  match n with
  | O => []
  | S n => let '((s, k), r) := read_sample k r in s :: read_samples n k r
  end.

(** [None]: it returns false. *)
Definition read_treeSamplesGorilla (s : list Z) : option (list TreeRefSample) :=
  match s with
  | [] => None
  | b :: input =>
    if negb (b =? kSampleGorilla) then None
    else
      '(total_samples, input) ← GetVarint32 input;
      if total_samples =? 0 then Some []
      else
        let r := mkBR input 0 in
        let '(m, r) := readFixed16 r in
        let '(g, r) := readFixed64BE r in
        let '(t, r) := readFixed64BE r in
        let '(v, r) := readFixed64BE r in
        let '(x, r) := readFixed64BE r in
        let s0 := mkTreeRefSample g m (s64 t) (decode_double v) (s64 x) in
        Some (s0 :: read_samples (Z.to_nat (total_samples - 1)) (track s0) r)
  end.

End Read.

Example gorilla_demo :
  let pe : PastEnd := fun _ => 0 in
  let l := [mkTreeRefSample 5 7 1000 (2 ^ 62) 3; mkTreeRefSample 5 7 2000 (2 ^ 62 + 2 ^ 50) 4;
            mkTreeRefSample 9 2 3000 (2 ^ 62) 5; mkTreeRefSample 9 2 3500 (2 ^ 60 + 2 ^ 40) 5] in
  read_treeSamplesGorilla (treeSamplesGorilla l []) = Some l.
Proof. vm_compute. reflexivity. Qed.

(** Two values that differ only in their low bits do not survive. *)
Example gorilla_low_bits :
  let pe : PastEnd := fun _ => 0 in
  read_treeSamplesGorilla (treeSamplesGorilla [mkTreeRefSample 5 7 1000 0 3; mkTreeRefSample 5 7 2000 1 4] [])
  = Some [mkTreeRefSample 5 7 1000 0 3; mkTreeRefSample 5 7 2000 (2 ^ 32) 4].
Proof. vm_compute. reflexivity. Qed.

(** ** Reader and writer in step

    [Codes w w' rd x]: from the place in the final bytes where the writer was
    at [w], [rd] reads [x] and stops where the writer was at [w']. *)

(** The bits of the byte that is being filled. *)
Definition pending (w : GorillaBitWriter) (p : list bool) : Prop :=
  (length p < 8)%nat /\ bw_bit_pos_ w = Z.of_nat (length p) /\
  cur_byte_ w = Z_of_bits (p ++ replicate (8 - length p) false).

(** [F] extends what has been written. *)
Definition holds (F : list Z) (w : GorillaBitWriter) (p : list bool) : Prop :=
  exists R, F = buf_ w ++ R /\
    (p = [] \/ exists c R', R = c :: R' /\ is_byte c /\ take (length p) (bits_of 8 c) = p).

Definition stands (F : list Z) (w : GorillaBitWriter) (r : GorillaBitReader) : Prop :=
  br_data r = drop (length (buf_ w)) F /\ br_bit_pos_ r = bw_bit_pos_ w.

Definition Codes {A} (w w' : GorillaBitWriter) (rd : GorillaBitReader -> A * GorillaBitReader) (x : A) : Prop :=
  forall p, pending w p -> exists p', pending w' p' /\
    forall F, holds F w' p' -> holds F w p /\ forall r, stands F w r -> exists r', rd r = (x, r') /\ stands F w' r'.

Lemma Codes_bind {A B} w1 w2 w3 (rd : GorillaBitReader -> A * GorillaBitReader) (k : A -> GorillaBitReader -> B * GorillaBitReader) x y :
  Codes w1 w2 rd x -> Codes w2 w3 (k x) y -> Codes w1 w3 (fun r => let '(a, r) := rd r in k a r) y.
Proof.
  intros H1 H2 p Hp. destruct (H1 p Hp) as (p2 & Hp2 & H1'). destruct (H2 p2 Hp2) as (p3 & Hp3 & H2').
  exists p3. split; [done|]. intros F HF. destruct (H2' F HF) as [HF2 R2]. destruct (H1' F HF2) as [HF1 R1].
  split; [done|]. intros r Hr. destruct (R1 r Hr) as (r2 & -> & Hr2). by apply R2.
Qed.

Lemma Codes_ret {A} w (x : A) : Codes w w (fun r => (x, r)) x.
Proof. intros p Hp. exists p. split; [done|]. intros F HF. split; [done|]. intros r Hr. by exists r. Qed.

Lemma Codes_ret_eq {A} w (x y : A) : x = y -> Codes w w (fun r => (x, r)) y.
Proof. intros ->. apply Codes_ret. Qed.

Lemma Codes_ext {A} w w' (rd rd' : GorillaBitReader -> A * GorillaBitReader) x :
  (forall r, rd r = rd' r) -> Codes w w' rd x -> Codes w w' rd' x.
Proof.
  intros E H p Hp. destruct (H p Hp) as (p' & Hp' & H'). exists p'. split; [done|]. intros F HF.
  destruct (H' F HF) as [HF' R]. split; [done|]. intros r Hr. destruct (R r Hr) as (r' & Er & Hr'). exists r'. by rewrite <- E.
Qed.

Lemma lookup_bits_of n v i : (i < n)%nat -> bits_of n v !! i = Some (Z.testbit v (Z.of_nat (n - 1 - i))).
Proof.
  revert i. induction n as [|n IH]; intros i Hi; [lia|]. destruct i as [|i]; simpl.
  - do 2 f_equal. lia.
  - rewrite IH by lia. do 2 f_equal. lia.
Qed.

Lemma land_1 v k : 0 <= k -> Z.land (Z.shiftr v k) 1 = Z.b2z (Z.testbit v k).
Proof. intros Hk. change 1 with (Z.ones 1). rewrite Z.land_ones by lia. rewrite Z.testbit_spec' by done. by rewrite Z.shiftr_div_pow2. Qed.

(** Setting the next bit of the current byte. *)
Lemma set_bit p b :
  (length p < 8)%nat ->
  (if Z.b2z b =? 0 then Z_of_bits (p ++ replicate (8 - length p) false)
   else u8 (Z.lor (Z_of_bits (p ++ replicate (8 - length p) false)) (Z.shiftl 1 (7 - Z.of_nat (length p)))))
  = Z_of_bits ((p ++ [b]) ++ replicate (7 - length p) false).
Proof.
  intros Hp. replace (8 - length p)%nat with (S (7 - length p)) by lia. cbn [replicate].
  assert (E : forall c, Z_of_bits ((p ++ [c]) ++ replicate (7 - length p) false) = Z_of_bits (p ++ [false] ++ replicate (7 - length p) false)
     + Z.b2z c * 2 ^ (7 - Z.of_nat (length p))).
  { intros c. rewrite <- app_assoc, !(Z_of_bits_app p). rewrite (Z_of_bits_app [c]), (Z_of_bits_app [false]), !length_app, !length_replicate.
    replace (Z.of_nat (7 - length p)) with (7 - Z.of_nat (length p)) by lia.
    change (Z_of_bits [false]) with 0. assert (E1 : Z_of_bits [c] = Z.b2z c) by (by destruct c). rewrite E1. simpl length. lia. }
  destruct b; simpl Z.b2z; cbv iota; rewrite E; [|rewrite Z.mul_0_l, Z.add_0_r; done].
  change (p ++ false :: replicate (7 - length p) false) with (p ++ [false] ++ replicate (7 - length p) false).
  set (z := Z_of_bits (p ++ [false] ++ _)).
  assert (Ez : exists a, z = a * 2 ^ (8 - Z.of_nat (length p)) /\ 0 <= a < 2 ^ Z.of_nat (length p)).
  { exists (Z_of_bits p). unfold z. rewrite Z_of_bits_app. split; [|apply Z_of_bits_range].
    assert (E0 : Z_of_bits ([false] ++ replicate (7 - length p) false) = 0).
    { change ([false] ++ replicate (7 - length p) false) with (replicate (S (7 - length p)) false).
      rewrite <- bits_of_0, Z_of_bits_of. unfold wrap. apply Zmod_0_l. }
    rewrite E0, length_app, length_replicate. simpl length. replace (Z.of_nat (1 + (7 - length p))) with (8 - Z.of_nat (length p)) by lia. lia. }
  destruct Ez as (a & Ea & Ha). rewrite Z.shiftl_mul_pow2, !Z.mul_1_l by lia. set (k := 7 - Z.of_nat (length p)) in *.
  replace (8 - Z.of_nat (length p)) with (k + 1) in Ea by lia. rewrite Z.pow_add_r in Ea by lia.
  assert (Hl : Z.lor z (2 ^ k) = z + 2 ^ k).
  { rewrite Z.lor_comm, Z.add_comm. rewrite Ea. replace (a * (2 ^ k * 2 ^ 1)) with (a * 2 ^ (k + 1)) by (rewrite Z.pow_add_r by lia; lia).
    apply lor_le; [lia|]. split; [apply Z.pow_nonneg; lia|]. apply Z.pow_lt_mono_r; lia. }
  rewrite Hl. apply wrap_id. unfold is_u. assert (0 < 2 ^ k) by (apply Z.pow_pos_nonneg; lia).
  assert (2 ^ Z.of_nat (length p) * 2 ^ (k + 1) = 2 ^ 8) by (rewrite <- Z.pow_add_r by lia; f_equal; lia).
  rewrite Z.pow_add_r in H0 by lia. nia.
Qed.

Lemma pending_full p b : (length p = 7)%nat -> Z_of_bits ((p ++ [b]) ++ replicate (7 - length p) false) = Z_of_bits (p ++ [b]).
Proof. intros ->. by rewrite app_nil_r. Qed.

Lemma byte_of_bits l : length l = 8%nat -> is_byte (Z_of_bits l) /\ bits_of 8 (Z_of_bits l) = l.
Proof.
  intros Hl. split; [pose proof (Z_of_bits_range l) as H; by rewrite Hl in H|]. pose proof (bits_of_Z_of_bits l) as H. by rewrite Hl in H.
Qed.

Lemma readBit_cons c rest pos :
  0 <= pos < 8 -> readBit (mkBR (c :: rest) pos) = (Z.b2z (Z.testbit c (7 - pos)), if pos =? 7 then mkBR rest 0 else mkBR (c :: rest) (pos + 1)).
Proof.
  intros Hp. unfold readBit. simpl br_data. simpl br_bit_pos_. cbv iota zeta. rewrite land_1 by lia.
  destruct (Z.eqb_spec (pos + 1) 8), (Z.eqb_spec pos 7); try lia; done.
Qed.

Lemma Codes_bit w b : Codes w (writeBit w (Z.b2z b)) readBit (Z.b2z b).
Proof.
  intros p (Hl & Hpos & Hcur). unfold writeBit. rewrite Hcur, Hpos, set_bit by done.
  destruct (Z.eqb_spec (Z.of_nat (length p) + 1) 8) as [E|E].
  - rewrite pending_full by lia. destruct (byte_of_bits (p ++ [b])) as [Hb Hbits]; [rewrite length_app; simpl; lia|].
    exists []. split; [by repeat split; simpl; lia|]. intros F (R & -> & _). simpl buf_.
    split.
    + exists (Z_of_bits (p ++ [b]) :: R). split; [by rewrite <- app_assoc|]. right. eexists _, _. split; [done|]. split; [done|].
      by rewrite Hbits, take_app_length.
    + intros [d pos] [Hd Hq]. simpl in Hd, Hq. rewrite <- app_assoc, drop_app_length in Hd. subst d pos.
      assert (Et : Z.testbit (Z_of_bits (p ++ [b])) (7 - Z.of_nat (length p)) = b).
      { assert (El := lookup_bits_of 8 (Z_of_bits (p ++ [b])) (length p) Hl). rewrite Hbits, list_lookup_middle in El by done.
        injection El as El. rewrite El at 2. f_equal. lia. }
      rewrite Hpos. cbn [app]. rewrite readBit_cons, Et by lia. eexists. split; [done|].
      destruct (Z.eqb_spec (Z.of_nat (length p)) 7); [|lia]. split; simpl; [|done].
      by rewrite drop_app_length.
  - exists (p ++ [b]). split.
    { split_and!; simpl; rewrite ?length_app; simpl; try lia. do 2 f_equal. f_equal. lia. }
    intros F (R & -> & [Hn|(c & R' & -> & Hc & Ht)]); [by destruct p|]. simpl buf_. rewrite length_app in Ht. simpl length in Ht.
    assert (Hlen : length (bits_of 8 c) = 8%nat) by apply length_bits_of.
    assert (Htp : take (length p) (bits_of 8 c) = p).
    { apply (f_equal (take (length p))) in Ht. rewrite take_take, take_app_length in Ht. by rewrite Nat.min_l in Ht by lia. }
    split.
    + exists (c :: R'). split; [done|]. right. eauto.
    + intros [d pos] [Hd Hq]. simpl in Hd, Hq. rewrite drop_app_length in Hd. subst d pos. rewrite Hpos, readBit_cons by lia.
      assert (Et : Z.testbit c (7 - Z.of_nat (length p)) = b).
      { assert (El := lookup_bits_of 8 c (length p) Hl). apply (f_equal (.!! length p)) in Ht.
        rewrite lookup_take_lt, list_lookup_middle in Ht by (done || lia). rewrite El in Ht. injection Ht as Ht. rewrite <- Ht. f_equal. lia. }
      rewrite Et. eexists. split; [done|]. destruct (Z.eqb_spec (Z.of_nat (length p)) 7); [lia|].
      split; simpl; [by rewrite drop_app_length|done].
Qed.

Lemma Codes_bits_loop n v acc w :
  0 <= acc -> acc * 2 ^ Z.of_nat n + wrap (Z.of_nat n) v < 2 ^ 64 ->
  Codes w (writeBits w v n) (readBits_loop n acc) (acc * 2 ^ Z.of_nat n + wrap (Z.of_nat n) v).
Proof.
  revert acc w. induction n as [|n IH]; intros acc w H0 H1.
  { simpl. unfold wrap. rewrite Z.pow_0_r, Z.mod_1_r, Z.mul_1_r, Z.add_0_r. apply Codes_ret. }
  assert (Ew : wrap (Z.of_nat (S n)) v = Z.b2z (Z.testbit v (Z.of_nat n)) * 2 ^ Z.of_nat n + wrap (Z.of_nat n) v).
  { rewrite <- !Z_of_bits_of. cbn [bits_of]. by rewrite Z_of_bits_cons, length_bits_of. }
  set (b := Z.testbit v (Z.of_nat n)) in *. rewrite Ew in *. rewrite Nat2Z.inj_succ, Z.pow_succ_r in * by lia.
  assert (Hp : 0 < 2 ^ Z.of_nat n) by (apply Z.pow_pos_nonneg; lia).
  pose proof (wrap_range (Z.of_nat n) v ltac:(lia)) as Hw. unfold is_u in Hw.
  assert (Hb : 0 <= Z.b2z b <= 1) by (by destruct b).
  replace (acc * (2 * 2 ^ Z.of_nat n) + (Z.b2z b * 2 ^ Z.of_nat n + wrap (Z.of_nat n) v))
    with ((2 * acc + Z.b2z b) * 2 ^ Z.of_nat n + wrap (Z.of_nat n) v) in * by lia.
  cbn [writeBits]. rewrite land_1 by lia. fold b.
  eapply Codes_ext; [|eapply (Codes_bind _ _ _ readBit (fun bit r => if bit <? 0 then (acc, r) else readBits_loop n (Z.lor (u64 (Z.shiftl acc 1)) bit) r));
    [apply Codes_bit|]]; [done|].
  assert (E : Z.lor (u64 (Z.shiftl acc 1)) (Z.b2z b) = 2 * acc + Z.b2z b).
  { rewrite Z.shiftl_mul_pow2 by lia. unfold u64. rewrite wrap_id by (unfold is_u; nia). rewrite Z.lor_comm.
    rewrite lor_le by (change (2 ^ 1) with 2; lia). lia. }
  eapply Codes_ext; [|apply (IH (2 * acc + Z.b2z b)); lia]. intros r. destruct (Z.ltb_spec (Z.b2z b) 0); [lia|]. by rewrite E.
Qed.

Lemma Codes_bits n v w : (n <= 64)%nat -> Codes w (writeBits w v n) (readBits (Z.of_nat n)) (wrap (Z.of_nat n) v).
Proof.
  intros Hn. unfold readBits. rewrite Nat2Z.id. pose proof (wrap_range (Z.of_nat n) v ltac:(lia)) as Hw. unfold is_u in Hw.
  assert (2 ^ Z.of_nat n <= 2 ^ 64) by (apply Z.pow_le_mono_r; lia).
  apply (Codes_bits_loop n v 0 w); lia.
Qed.

Lemma Codes_bits_Z m v w : 0 <= m <= 64 -> Codes w (writeBits w v (Z.to_nat m)) (readBits m) (wrap m v).
Proof. intros Hm. pose proof (Codes_bits (Z.to_nat m) v w ltac:(lia)) as H. by rewrite Z2Nat.id in H by lia. Qed.

(** Byte-aligned items: the writer flushes, the reader skips. *)
Definition aligned {A} (rd : list Z -> A * list Z) (r : GorillaBitReader) : A * GorillaBitReader :=
  let r := skipToByte r in let '(x, data) := rd (br_data r) in (x, mkBR data (br_bit_pos_ r)).

Lemma Codes_aligned {A} w enc (rd : list Z -> A * list Z) x :
  (forall rest, rd (enc ++ rest) = (x, rest)) -> Codes w (append (flushToByte w) enc) (aligned rd) x.
Proof.
  intros Hrd p (Hl & Hpos & Hcur). unfold append, flushToByte, aligned, skipToByte.
  destruct (Z.ltb_spec 0 (bw_bit_pos_ w)) as [Hlt|Hge].
  - destruct (byte_of_bits (p ++ replicate (8 - length p) false)) as [Hb Hbits]; [rewrite length_app, length_replicate; lia|].
    exists []. split; [by repeat split; simpl; lia|]. intros F (R & -> & _). simpl buf_. split.
    + exists (cur_byte_ w :: enc ++ R). split; [by rewrite <- !app_assoc|]. right. eexists _, _. split; [done|]. rewrite Hcur.
      split; [done|]. by rewrite Hbits, take_app_length.
    + intros [d pos] [Hd Hq]. simpl in Hd, Hq. rewrite <- !app_assoc, drop_app_length in Hd. subst d pos.
      simpl br_bit_pos_. destruct (Z.ltb_spec 0 (bw_bit_pos_ w)); [|lia]. cbn [br_data].
      change (drop 1 ([cur_byte_ w] ++ enc ++ R)) with (enc ++ R). rewrite Hrd. eexists. split; [done|]. split; simpl; [|done].
      by rewrite drop_app_length.
  - assert (p = []) as -> by (apply nil_length_inv; lia). exists []. split; [done|].
    intros F (R & -> & _). simpl buf_. split.
    + exists (enc ++ R). split; [by rewrite <- app_assoc|by left].
    + intros [d pos] [Hd Hq]. simpl in Hd, Hq. rewrite <- app_assoc, drop_app_length in Hd. subst d pos.
      simpl br_bit_pos_. destruct (Z.ltb_spec 0 (bw_bit_pos_ w)); [lia|]. simpl br_data. rewrite Hrd.
      eexists. split; [done|]. split; simpl; [by rewrite drop_app_length|done].
Qed.

Lemma varint_loop_varint v : is_u64 v -> varint_loop 10 v = varint v.
Proof.
  unfold varint. intros Hv. assert (Hb : 0 <= v < 2 ^ (7 * Z.of_nat 10)) by (unfold is_u in Hv; lia). clear Hv.
  assert (Hn : (0 < 10)%nat) by lia. revert v Hb Hn. generalize 10%nat as n. induction n as [|n IH]; intros v Hv Hn; [lia|].
  cbn [varint_loop varint_fuel]. cbv zeta. rewrite land_127, Z.shiftr_div_pow2 by lia. change (2 ^ 7) with 128.
  destruct (Z.ltb_spec v 128).
  - rewrite Z.div_small by lia. simpl. by rewrite Z.mod_small by lia.
  - assert (1 <= v / 128) by (apply Z.div_le_lower_bound; lia). destruct (Z.eqb_spec (v / 128) 0); [lia|]. f_equal.
    + assert (Hm := Z.mod_pos_bound v 128 ltac:(lia)). change 128 with (1 * 2 ^ 7) at 2. rewrite lor_le by lia. lia.
    + replace (7 * Z.of_nat (S n)) with (7 + 7 * Z.of_nat n) in Hv by lia. rewrite Z.pow_add_r in Hv by lia.
      assert (n <> 0)%nat by (intros ->; simpl in Hv; lia).
      apply IH; [|lia]. split; [lia|]. apply Z.div_lt_upper_bound; lia.
Qed.

Lemma read_varint_loop_varint v rest :
  is_u64 v -> read_varint_loop 0 0 (varint v ++ rest) = (v, rest).
Proof.
  intros Hv. enough (H : forall v, 0 <= v -> forall acc shift, v < 2 ^ 64 -> 0 <= shift -> 0 <= acc < 2 ^ shift -> v * 2 ^ shift < 2 ^ 64 ->
    read_varint_loop acc shift (varint v ++ rest) = (acc + v * 2 ^ shift, rest)).
  { unfold is_u in Hv. rewrite (H v) by lia. f_equal. lia. }
  clear v Hv. apply (varint_ind (fun v => forall acc shift, v < 2 ^ 64 -> 0 <= shift -> 0 <= acc < 2 ^ shift -> v * 2 ^ shift < 2 ^ 64 ->
    read_varint_loop acc shift (varint v ++ rest) = (acc + v * 2 ^ shift, rest))).
  - intros v Hv acc shift _ Hs Ha Hb. rewrite varint_small by lia. cbn [app read_varint_loop]. cbv zeta.
    rewrite byte_land_128 by (unfold is_u; lia). destruct (Z.ltb_spec v 128); [|lia]. simpl. f_equal.
    rewrite land_127, Z.mod_small, Z.shiftl_mul_pow2 by lia. unfold u64. rewrite wrap_id by (unfold is_u; nia). by apply lor_le.
  - intros v Hv IH acc shift H64 Hs Ha Hb. rewrite varint_big by lia. cbn [app read_varint_loop]. cbv zeta.
    assert (Hm := Z.mod_pos_bound v 128 ltac:(lia)). assert (Hd := Z.div_mod v 128 ltac:(lia)).
    assert (0 < 2 ^ shift) by (apply Z.pow_pos_nonneg; lia).
    rewrite byte_land_128 by (unfold is_u; lia). destruct (Z.ltb_spec (v mod 128 + 128) 128); [lia|]. simpl (128 =? 0). cbv iota.
    rewrite land_127. replace ((v mod 128 + 128) mod 128) with (v mod 128).
    2:{ rewrite <- (Z.mul_1_l 128) at 3. rewrite Z.mod_add, Z.mod_mod by lia. done. }
    rewrite Z.shiftl_mul_pow2 by lia. unfold u64. rewrite wrap_id by (unfold is_u; nia). rewrite lor_le by lia.
    assert (2 ^ (shift + 7) = 2 ^ shift * 128) by (rewrite Z.pow_add_r by lia; done).
    rewrite IH; [f_equal; nia|nia|lia|nia|nia].
Qed.

Lemma writeSignedVarint_zigzag w d : writeSignedVarint w d = append (flushToByte w) (varint (zigzag d)).
Proof. unfold writeSignedVarint, writeUnsignedVarint. by rewrite varint_loop_varint by apply zigzag_u64. Qed.

Lemma Codes_delta w d : is_s64 d -> Codes w (writeSignedVarint w d) readSignedVarint d.
Proof.
  intros Hd. rewrite writeSignedVarint_zigzag.
  eapply Codes_ext; [|apply (Codes_aligned w (varint (zigzag d)) (fun data => let '(u, data) := read_varint_loop 0 0 data in (unzigzag u, data)))].
  - intros r. unfold aligned, readSignedVarint, readUnsignedVarint. cbv zeta. by destruct (read_varint_loop _ _ _).
  - intros rest. rewrite read_varint_loop_varint by apply zigzag_u64. by rewrite unzigzag_zigzag.
Qed.

Lemma Codes_field w (same : bool) d :
  is_s64 d -> Codes w (write_field w same d) read_field (if same then None else Some d).
Proof.
  intros Hd. unfold write_field. destruct same.
  - eapply Codes_ext; [|eapply (Codes_bind _ _ _ readBit (fun bit r => if bit =? 0 then (None, r) else let '(d, r) := readSignedVarint r in (Some d, r)));
      [apply (Codes_bit w false)|simpl; apply Codes_ret]]. done.
  - eapply Codes_ext; [|eapply (Codes_bind _ _ _ readBit (fun bit r => if bit =? 0 then (None, r) else let '(d, r) := readSignedVarint r in (Some d, r)));
      [apply (Codes_bit w true)|]]; [done|]. simpl.
    eapply Codes_bind; [by apply Codes_delta|apply Codes_ret].
Qed.

Section ReadProps.
Context `{PE : PastEnd}.

Lemma Codes_fixed64 w v : Codes w (writeFixed64BE w v) readFixed64BE (u64 v).
Proof.
  unfold writeFixed64BE. rewrite EncodeFixed64BE_be.
  eapply Codes_ext; [|apply (Codes_aligned w (be_bytes 8 v) (fun data => (DecodeFixed64BE data, drop 8 data)))]; [done|].
  intros rest. rewrite DecodeFixed64BE_spec. by rewrite drop_app_length' by (by rewrite length_be_bytes).
Qed.

Lemma Codes_fixed16 w v : Codes w (writeFixed16 w v) readFixed16 (u16 v).
Proof.
  unfold writeFixed16. rewrite EncodeFixed16_le.
  eapply Codes_ext; [|apply (Codes_aligned w (le_bytes 2 v) (fun data => (DecodeFixed16 data, drop 2 data)))]; [done|].
  intros rest. rewrite DecodeFixed16_spec. by rewrite drop_app_length' by (by rewrite length_le_bytes).
Qed.

(** How far the decoder's window lies above the encoder's: the number of leading
    zeros is written in 5 bits and comes back modulo 32. *)
Definition slip (lz : Z) : Z := if 32 <=? lz then 32 else 0.

(** The encoder's window, and the decoder's [lz'], [tz']: none yet, or the
    slipped one. *)
Definition windows (lz tz lz' tz' : Z) : Prop :=
  (lz = 64 /\ tz = 0 /\ lz' = 64 /\ tz' = 0) \/
  (0 <= lz /\ 0 <= tz /\ lz + tz < 64 /\ lz' = lz - slip lz /\ tz' = tz + slip lz).

(** The window after a difference [d]. *)
Definition next_window (d lz tz : Z) : Z * Z :=
  if (d =? 0) || ((lz <=? clzll d) && (tz <=? ctzll d)) then (lz, tz) else (clzll d, ctzll d).

Definition with_value (s : TreeRefSample) (v : Z) : TreeRefSample := mkTreeRefSample (sgid s) (mid s) (t_t s) v (t_txn s).

(** What the decoder makes of [l] when the last value was [v] and it has [v']:
    each difference is applied where the decoder's window puts it. *)
Fixpoint decoded_values (v v' lz tz : Z) (l : list TreeRefSample) : list TreeRefSample :=
  match l with
  | [] => []
  | s :: l =>
    let d := Z.lxor (t_v s) v in
    let '(lz, tz) := next_window d lz tz in
    let v' := Z.lxor v' (Z.shiftl d (slip lz)) in
    with_value s v' :: decoded_values (t_v s) v' lz tz l
  end.

(** A record of [l], read back. *)
Definition decoded_samples (l : list TreeRefSample) : list TreeRefSample :=
  match l with
  | [] => []
  | s :: l => s :: decoded_values (t_v s) (t_v s) 64 0 l
  end.

Lemma clzll_range d : 0 < d < 2 ^ 64 -> 0 <= clzll d < 64.
Proof. intros Hd. unfold clzll. assert (Z.log2 d < 64) by (apply Z.log2_lt_pow2; lia). pose proof (Z.log2_nonneg d). lia. Qed.

Lemma clzll_lt d lz : 0 < d -> lz <= clzll d -> d < 2 ^ (64 - lz).
Proof. intros Hd Hl. apply Z.log2_lt_pow2; [done|]. unfold clzll in Hl. lia. Qed.

Lemma slip_small d lz : 0 < d < 2 ^ 64 -> 0 <= lz <= clzll d -> is_u64 (d * 2 ^ slip lz).
Proof.
  intros Hd Hl. unfold is_u. split; [unfold slip; destruct (32 <=? lz); lia|]. unfold slip. destruct (Z.leb_spec 32 lz); [|lia].
  pose proof (clzll_lt d 32 ltac:(lia) ltac:(lia)). lia.
Qed.

(** The bits of a window, put back by a decoder whose window lies [slip lz]
    higher. *)
Lemma window_bits d lz tz :
  0 < d < 2 ^ 64 -> 0 <= lz <= clzll d -> 0 <= tz <= ctzll d -> lz + tz < 64 ->
  u64 (Z.shiftl (wrap (64 - lz - tz) (Z.shiftr d tz)) (tz + slip lz)) = Z.shiftl d (slip lz).
Proof.
  intros Hd Hl Ht Hs. destruct (ctzll_spec d ltac:(lia)) as [[q Hq] Hc].
  assert (Hp : 0 < 2 ^ tz) by (apply Z.pow_pos_nonneg; lia). assert (Hsl : 0 <= slip lz) by (unfold slip; destruct (32 <=? lz); lia).
  assert (Hdiv : d = d / 2 ^ tz * 2 ^ tz).
  { rewrite Z.mul_comm. apply Z.div_exact; [lia|]. apply Z.mod_divide; [lia|]. exists (q * 2 ^ (ctzll d - tz)).
    rewrite <- Z.mul_assoc, <- Z.pow_add_r by lia. rewrite Hq at 1. do 2 f_equal. lia. }
  rewrite Z.shiftr_div_pow2, !Z.shiftl_mul_pow2, Z.pow_add_r by lia. rewrite wrap_id.
  - rewrite Z.mul_assoc, <- Hdiv. apply wrap_id, slip_small; [done|lia].
  - unfold is_u. split; [apply Z.div_pos; lia|]. apply Z.div_lt_upper_bound; [done|]. rewrite <- Z.pow_add_r by lia.
    replace (tz + (64 - lz - tz)) with (64 - lz) by lia. apply clzll_lt; lia.
Qed.

(** A new window: its bits are preceded by its leading zeros, modulo 32, and
    its width. *)
Lemma Codes_window w k d :
  0 < d < 2 ^ 64 ->
  Codes w (writeBits (writeBits (writeBits w (clzll d) 5) (u64 (64 - clzll d - ctzll d - 1)) 6)
             (Z.shiftr d (ctzll d)) (Z.to_nat (64 - clzll d - ctzll d)))
    (fun r => let '(lz, r) := readBits 5 r in
              let '(m, r) := readBits 6 r in
              let meaningful := m + 1 in
              let '(shifted, r) := readBits meaningful r in
              let tz := 64 - lz - meaningful in
              let xor_val := u64 (Z.shiftl shifted tz) in
              ((decode_double (Z.lxor (prev_v k) xor_val), lz, tz), r))
    (Z.lxor (prev_v k) (Z.shiftl d (slip (clzll d))), clzll d - slip (clzll d), ctzll d + slip (clzll d)).
Proof.
  intros Hd. pose proof (clzll_range d Hd) as Hc. destruct (ctzll_spec d ltac:(lia)) as [_ Ht].
  set (m := 64 - clzll d - ctzll d). assert (Hm : 1 <= m <= 64) by (unfold m, clzll in *; lia).
  eapply Codes_bind; [apply (Codes_bits 5); lia|]. eapply Codes_bind; [apply (Codes_bits 6); lia|].
  assert (E : wrap (Z.of_nat 6) (u64 (m - 1)) + 1 = m).
  { unfold u64. rewrite (wrap_id 64) by (unfold is_u; lia). rewrite wrap_id by (unfold is_u; simpl; lia). lia. }
  assert (El : wrap (Z.of_nat 5) (clzll d) = clzll d - slip (clzll d)).
  { unfold slip. destruct (Z.leb_spec 32 (clzll d)); [|rewrite wrap_id by (unfold is_u; simpl; lia); lia].
    unfold wrap. symmetry. apply Z.mod_unique with 1; simpl; lia. }
  cbv zeta. rewrite E, El. eapply Codes_bind; [apply Codes_bits_Z; lia|]. apply Codes_ret_eq. unfold decode_double.
  replace (64 - (clzll d - slip (clzll d)) - m) with (ctzll d + slip (clzll d)) by lia.
  unfold m. rewrite window_bits by lia. done.
Qed.

(** A decoder that differs from the encoder in the last value and the window
    stays in step. *)
Lemma Codes_value w k kr v :
  is_u64 v -> is_u64 (prev_v k) -> windows (prev_lz k) (prev_tz k) (prev_lz kr) (prev_tz kr) ->
  let d := Z.lxor v (prev_v k) in
  exists w' lz tz, next_window d (prev_lz k) (prev_tz k) = (lz, tz) /\ write_value w k v = (w', lz, tz) /\
    exists lz' tz', windows lz tz lz' tz' /\
      Codes w w' (read_value kr) (Z.lxor (prev_v kr) (Z.shiftl d (slip lz)), lz', tz').
Proof.
  intros Hv Hp Hw d. pose proof (lxor_u64 _ _ Hv Hp) as Hu. unfold is_u in Hu. unfold write_value, next_window. cbv zeta. fold d in Hu |- *.
  destruct (Z.eqb_spec d 0) as [E|E].
  { eexists _, _, _. split; [done|]. split; [done|]. eexists _, _. split; [exact Hw|].
    eapply (Codes_bind _ _ _ readBit); [apply (Codes_bit w false)|]. simpl. rewrite E, Z.shiftl_0_l, Z.lxor_0_r. apply Codes_ret. }
  assert (Hd : 0 < d < 2 ^ 64) by lia. pose proof (clzll_range d Hd) as Hc. destruct (ctzll_spec d ltac:(lia)) as [_ Ht]. cbn [orb].
  destruct ((_ <=? _) && (_ <=? _)) eqn:Er; (eexists _, _, _; split; [done|]; split; [done|]).
  - apply andb_true_iff in Er as [H1%Z.leb_le H2%Z.leb_le]. destruct Hw as [(Hw & _)|Hw]; [lia|]. destruct Hw as (W1 & W2 & W3 & W4 & W5).
    eexists _, _. split; [right; by split_and!|].
    eapply (Codes_bind _ _ _ readBit); [apply (Codes_bit w true)|]. simpl (Z.b2z true =? 0). cbv iota.
    eapply (Codes_bind _ _ _ readBit); [apply (Codes_bit _ false)|]. simpl (Z.b2z false =? 0). cbv iota zeta.
    replace (64 - prev_lz kr - prev_tz kr) with (64 - prev_lz k - prev_tz k) by lia.
    eapply Codes_bind; [apply Codes_bits_Z; lia|]. rewrite W4, W5, (window_bits d (prev_lz k) (prev_tz k)) by lia. apply Codes_ret.
  - eexists _, _. split; [right; split_and!; [lia|lia|unfold clzll in *; lia|done|done]|].
    eapply (Codes_bind _ _ _ readBit); [apply (Codes_bit w true)|]. simpl (Z.b2z true =? 0). cbv iota.
    eapply (Codes_bind _ _ _ readBit); [apply (Codes_bit _ true)|]. simpl (Z.b2z true =? 0). cbv iota.
    by apply Codes_window.
Qed.

Definition track_ok (k : Track) : Prop :=
  is_u 16 (prev_mid k) /\ is_u64 (prev_sgid k) /\ is_s64 (prev_t k) /\ is_u64 (prev_v k) /\ is_s64 (prev_txn k) /\
  is_s64 (prev_t_delta k) /\ is_s64 (prev_txn_delta k).

Lemma swrap_s64 z : is_s64 (s64 z).
Proof. apply swrap_range. lia. Qed.

Lemma dod_back a d t : is_s64 t -> s64 (a + d + s64 (s64 (t - a) - d)) = t.
Proof.
  intros Ht. apply (is_s_inj 64); [lia|apply swrap_s64|done|]. change (u64 (s64 (a + d + s64 (s64 (t - a) - d))) = u64 t).
  rewrite u64_s64. destruct (swrap_ex 64 (s64 (t - a) - d)) as [i Ei]. destruct (swrap_ex 64 (t - a)) as [j Ej].
  unfold s64 in *. rewrite Ei, Ej. unfold u64, wrap.
  replace (a + d + (t - a + j * 2 ^ 64 - d + i * 2 ^ 64)) with (t + (i + j) * 2 ^ 64) by lia. by apply Z.mod_add.
Qed.

(** The writer before the value of a sample. *)
Definition before_value (w : GorillaBitWriter) (k : Track) (s : TreeRefSample) : GorillaBitWriter :=
  let dod := s64 (s64 (t_t s - prev_t k) - prev_t_delta k) in
  write_field (write_field (write_field w (mid s =? prev_mid k) (mid s - prev_mid k))
    (sgid s =? prev_sgid k) (s64 (s64 (sgid s) - s64 (prev_sgid k)))) (dod =? 0) dod.

(** A decoder that is in step with [k] but for the last value and the window. *)
Definition reader_track (k : Track) (v lz tz : Z) : Track :=
  mkTrack (prev_mid k) (prev_sgid k) (prev_t k) v (prev_txn k) (prev_t_delta k) (prev_txn_delta k) lz tz.

(** One sample whose value is read as [v2] with the window [lz2], [tz2]. *)
Lemma Codes_sample_gen w k s v1 lz1 tz1 v2 lz2 tz2 lz tz w' :
  track_ok k -> tree_sample_ok s ->
  write_value (before_value w k s) k (t_v s) = (w', lz, tz) ->
  Codes (before_value w k s) w' (read_value (reader_track k v1 lz1 tz1)) (v2, lz2, tz2) ->
  Codes w (write_sample w k s).1 (read_sample (reader_track k v1 lz1 tz1))
    (with_value s v2, reader_track (write_sample w k s).2 v2 lz2 tz2).
Proof.
  intros (K1 & K2 & K3 & K4 & K5 & K6 & K7) (S1 & S2 & S3 & S4 & S5) Ew HC. unfold before_value in *. cbv zeta in *.
  set (dod := s64 (s64 (t_t s - prev_t k) - prev_t_delta k)) in *. set (dg := s64 (s64 (sgid s) - s64 (prev_sgid k))) in *.
  set (dx := s64 (t_txn s - prev_txn k)). set (kr := reader_track k v1 lz1 tz1) in *.
  assert (HF : Codes w (write_sample w k s).1 (read_fields kr)
    (if mid s =? prev_mid k then None else Some (mid s - prev_mid k), if sgid s =? prev_sgid k then None else Some dg,
     if dod =? 0 then None else Some dod, (v2, lz2, tz2), if dx =? prev_txn_delta k then None else Some dx)).
  { unfold write_sample. cbv zeta. unfold encode_double. fold dod. fold dg. fold dx. rewrite Ew. cbn [fst].
    assert (Hmd : is_s64 (mid s - prev_mid k)) by (clear -K1 S1; unfold is_u, is_s in *; simpl in *; lia).
    eapply Codes_bind; [by apply Codes_field|]. eapply Codes_bind; [apply Codes_field, swrap_s64|].
    eapply Codes_bind; [apply Codes_field, swrap_s64|]. eapply Codes_bind; [exact HC|].
    eapply Codes_bind; [apply Codes_field, swrap_s64|]. apply Codes_ret. }
  eapply (Codes_bind _ _ _ (read_fields kr) (fun f r => (assemble kr f, r))); [exact HF|].
  apply Codes_ret_eq. unfold assemble, kr, reader_track. cbn [prev_mid prev_sgid prev_t prev_v prev_txn prev_t_delta prev_txn_delta prev_lz prev_tz].
  unfold write_sample. cbv zeta. unfold encode_double. fold dod. fold dg. fold dx. rewrite Ew.
  cbn [snd prev_mid prev_sgid prev_t prev_v prev_txn prev_t_delta prev_txn_delta prev_lz prev_tz].
  assert (Em : match (if mid s =? prev_mid k then None else Some (mid s - prev_mid k)) with None => prev_mid k | Some d => u16 (prev_mid k + d) end = mid s).
  { destruct (Z.eqb_spec (mid s) (prev_mid k)) as [->|]; [done|]. replace (prev_mid k + (mid s - prev_mid k)) with (mid s) by lia. by apply wrap_id. }
  assert (Eg : match (if sgid s =? prev_sgid k then None else Some dg) with None => prev_sgid k | Some d => u64 (s64 (prev_sgid k) + d) end = sgid s).
  { destruct (Z.eqb_spec (sgid s) (prev_sgid k)) as [->|]; [done|]. apply delta_back; [lia|done]. }
  assert (Et : s64 (prev_t k + prev_t_delta k + default 0 (if dod =? 0 then None else Some dod)) = t_t s).
  { destruct (Z.eqb_spec dod 0) as [E|]; simpl; [rewrite <- E|]; by apply dod_back. }
  assert (Ex : default (prev_txn_delta k) (if dx =? prev_txn_delta k then None else Some dx) = dx).
  { by destruct (Z.eqb_spec dx (prev_txn_delta k)). }
  assert (Exx : s64 (prev_txn k + dx) = t_txn s) by (by apply signed_delta_back).
  by rewrite Em, Eg, Et, Ex, Exx.
Qed.

(** Values that the 5-bit count of leading zeros can carry: equal to the one
    before, or different in the upper half. *)
Fixpoint apart (v : Z) (l : list TreeRefSample) : Prop :=
  match l with
  | [] => True
  | s :: l => (Z.lxor (t_v s) v = 0 \/ 2 ^ 32 <= Z.lxor (t_v s) v) /\ apart (t_v s) l
  end.

Lemma write_sample_track w k s : exists lz tz,
  (write_sample w k s).2 = mkTrack (mid s) (sgid s) (t_t s) (t_v s) (t_txn s) (s64 (t_t s - prev_t k)) (s64 (t_txn s - prev_txn k)) lz tz.
Proof. unfold write_sample. cbv zeta. destruct (write_value _ _ _) as [[w' lz] tz]. by eexists _, _. Qed.

(** One sample, by a decoder whose last value is [v']. *)
Lemma Codes_sample w k s v' lz' tz' :
  track_ok k -> tree_sample_ok s -> windows (prev_lz k) (prev_tz k) lz' tz' ->
  let d := Z.lxor (t_v s) (prev_v k) in
  let k2 := (write_sample w k s).2 in
  let v2 := Z.lxor v' (Z.shiftl d (slip (prev_lz k2))) in
  next_window d (prev_lz k) (prev_tz k) = (prev_lz k2, prev_tz k2) /\ prev_v k2 = t_v s /\ track_ok k2 /\
  exists lz2 tz2, windows (prev_lz k2) (prev_tz k2) lz2 tz2 /\
    Codes w (write_sample w k s).1 (read_sample (reader_track k v' lz' tz')) (with_value s v2, reader_track k2 v2 lz2 tz2).
Proof.
  intros Hk Hs Hw. cbv zeta. pose proof Hk as (K1 & K2 & K3 & K4 & K5 & K6 & K7). pose proof Hs as (S1 & S2 & S3 & S4 & S5).
  destruct (Codes_value (before_value w k s) k (reader_track k v' lz' tz') (t_v s) S4 K4 Hw) as (w' & lz & tz & En & Ew & lz2 & tz2 & Hw2 & HC).
  assert (E2 : (write_sample w k s).2 = mkTrack (mid s) (sgid s) (t_t s) (t_v s) (t_txn s) (s64 (t_t s - prev_t k)) (s64 (t_txn s - prev_txn k)) lz tz).
  { unfold write_sample. unfold before_value in Ew. cbv zeta in *. unfold encode_double. by rewrite Ew. }
  pose proof (Codes_sample_gen w k s v' lz' tz' _ lz2 tz2 lz tz w' Hk Hs Ew HC) as HS. rewrite E2 in HS |- *.
  cbn [prev_lz prev_tz prev_v]. split; [done|]. split; [done|]. split; [split_and!; try done; apply swrap_s64|]. by exists lz2, tz2.
Qed.

(** The last, partial byte is in the bytes of the record. *)
Lemma holds_flush w p : pending w p -> holds (buf_ (flushToByte w)) w p.
Proof.
  intros (H1 & H2 & H3). unfold flushToByte. destruct (Z.ltb_spec 0 (bw_bit_pos_ w)) as [Hlt|Hge].
  - destruct (byte_of_bits (p ++ replicate (8 - length p) false)) as [Hb Hbits]; [rewrite length_app, length_replicate; lia|].
    exists [cur_byte_ w]. split; [done|]. right. eexists _, _. split; [done|]. rewrite H3. split; [done|]. by rewrite Hbits, take_app_length.
  - exists []. split; [by rewrite app_nil_r|]. left. apply nil_length_inv. lia.
Qed.

(** From where the writer stands, the samples it goes on to write. *)
Lemma read_samples_back l w k p v' lz' tz' :
  track_ok k -> windows (prev_lz k) (prev_tz k) lz' tz' -> Forall tree_sample_ok l -> pending w p ->
  let F := buf_ (flushToByte (write_samples w k l)) in
  holds F w p /\ forall r, stands F w r ->
    read_samples (length l) (reader_track k v' lz' tz') r = decoded_values (prev_v k) v' (prev_lz k) (prev_tz k) l.
Proof.
  intros Hk Hw Hl. revert w k p v' lz' tz' Hk Hw. induction Hl as [|s l Hs Hl IH]; intros w k p v' lz' tz' Hk Hw Hp; cbv zeta.
  - cbn [write_samples]. split; [by apply holds_flush|done].
  - destruct (Codes_sample w k s v' lz' tz' Hk Hs Hw) as (En & Ev & Hk2 & lz2 & tz2 & Hw2 & HC).
    cbn [write_samples decoded_values]. rewrite En. destruct (write_sample w k s) as [w2 k2]. cbn [fst snd] in *.
    destruct (HC p Hp) as (p' & Hp' & HC'). set (v2 := Z.lxor v' _) in *.
    destruct (IH w2 k2 p' v2 lz2 tz2 Hk2 Hw2 Hp') as [HF HR]. destruct (HC' _ HF) as [HF0 HR0]. split; [done|].
    intros r Hr. destruct (HR0 r Hr) as (r' & Er & Hr'). cbn [length read_samples]. rewrite Er, <- Ev. f_equal. by apply HR.
Qed.

Lemma Codes_first w s0 : tree_sample_ok s0 ->
  Codes w (write_first w s0)
    (fun r => let '(m, r) := readFixed16 r in let '(g, r) := readFixed64BE r in let '(t, r) := readFixed64BE r in
              let '(v, r) := readFixed64BE r in let '(x, r) := readFixed64BE r in
              (mkTreeRefSample g m (s64 t) (decode_double v) (s64 x), r)) s0.
Proof.
  intros (S1 & S2 & S3 & S4 & S5). unfold write_first. cbv zeta.
  eapply Codes_bind; [apply Codes_fixed16|]. do 4 (eapply Codes_bind; [apply Codes_fixed64|]).
  apply Codes_ret_eq. unfold encode_double, decode_double.
  assert (Et : forall z, is_s64 z -> s64 (u64 (u64 z)) = z) by (intros z Hz; rewrite s64_u64; by apply s64_id).
  assert (Em : u16 (mid s0) = mid s0) by (by apply wrap_id). rewrite !Et, Em, !u64_id by done. by destruct s0.
Qed.

(** A record whose samples after the first are read as [X]. *)
Lemma gorilla_record s0 rest X :
  tree_sample_ok s0 -> Z.of_nat (length (s0 :: rest)) < 2 ^ 32 ->
  (forall w p, pending w p -> let F := buf_ (flushToByte (write_samples w (track s0) rest)) in
     holds F w p /\ forall r, stands F w r -> read_samples (length rest) (track s0) r = X) ->
  read_treeSamplesGorilla (treeSamplesGorilla (s0 :: rest) []) = Some (s0 :: X).
Proof.
  intros Hs Hn HX. unfold treeSamplesGorilla. rewrite put_size by done. cbn [app]. set (pre := kSampleGorilla :: varint _).
  set (F := buf_ _). assert (Hp0 : pending (bit_writer pre) []) by (by repeat split; simpl; lia).
  destruct (Codes_first (bit_writer pre) s0 Hs [] Hp0) as (p & Hp & HC). destruct (HX _ p Hp) as [HF HR].
  destruct (HC F HF) as [(R & EF & _) HR0]. change (F = pre ++ R) in EF.
  destruct (HR0 (mkBR R 0)) as (r' & Er & Hr'); [split; [|done]; change (R = drop (length pre) F); rewrite EF; by rewrite drop_app_length|].
  rewrite EF. unfold pre. cbn [app read_treeSamplesGorilla]. simpl (negb _). cbv iota.
  rewrite GetVarint32_varint by (unfold is_u; lia). cbn [mbind option_bind].
  destruct (Z.eqb_spec (Z.of_nat (length (s0 :: rest))) 0) as [E0|_]; [cbn [length] in E0; lia|].
  destruct (readFixed16 (mkBR R 0)) as [m r1]. destruct (readFixed64BE r1) as [g r2]. destruct (readFixed64BE r2) as [t r3].
  destruct (readFixed64BE r3) as [v r4]. destruct (readFixed64BE r4) as [x r5]. injection Er as Es <-. rewrite Es.
  do 2 f_equal. rewrite <- (HR r5 Hr'). f_equal. cbn [length]. lia.
Qed.

Lemma track_ok_first s0 : tree_sample_ok s0 -> track_ok (track s0).
Proof. intros (S1 & S2 & S3 & S4 & S5). split_and!; try done; unfold is_s; simpl; lia. Qed.

(** The Gorilla record of the tree head's log, read back: the ids, timestamps
    and transaction numbers of every sample, of any size and in any order, and
    the values [decoded_samples] gives. *)
Lemma gorilla_decodes l :
  l <> [] -> Forall tree_sample_ok l -> Z.of_nat (length l) < 2 ^ 32 ->
  read_treeSamplesGorilla (treeSamplesGorilla l []) = Some (decoded_samples l).
Proof.
  destruct l as [|s0 rest]; [done|]. intros _ [Hs Hl]%Forall_cons_1 Hn. apply gorilla_record; [done|done|]. intros w p Hp.
  destruct (read_samples_back rest w (track s0) p (t_v s0) 64 0 (track_ok_first s0 Hs) ltac:(by left) Hl Hp) as [HF HR].
  split; [exact HF|exact HR].
Qed.

(** Everything but the value comes back. *)
Definition same_but_value (x y : TreeRefSample) : Prop :=
  sgid x = sgid y /\ mid x = mid y /\ t_t x = t_t y /\ t_txn x = t_txn y /\ is_u64 (t_v x).

Lemma decoded_values_same l : forall v v' lz tz,
  is_u64 v -> is_u64 v' -> (lz = 64 \/ 0 <= lz) -> Forall tree_sample_ok l -> Forall2 same_but_value (decoded_values v v' lz tz l) l.
Proof.
  induction l as [|s l IH]; intros v v' lz tz Hv Hv' Hz Hl; [constructor|]. apply Forall_cons_1 in Hl as [Hs Hl].
  pose proof Hs as (_ & _ & _ & Hsv & _). pose proof (lxor_u64 _ _ Hsv Hv) as Hd. cbn [decoded_values]. set (d := Z.lxor (t_v s) v) in *.
  assert (Hn : exists lz2 tz2, next_window d lz tz = (lz2, tz2) /\ (lz2 = 64 \/ 0 <= lz2) /\ is_u64 (Z.shiftl d (slip lz2))).
  { unfold next_window. unfold is_u in Hd. destruct (Z.eqb_spec d 0) as [->|E]; cbn [orb].
    - exists lz, tz. split; [done|]. split; [done|]. rewrite Z.shiftl_0_l. unfold is_u. lia.
    - pose proof (clzll_range d ltac:(lia)) as Hc.
      assert (Hs' : forall z, 0 <= z <= clzll d -> is_u64 (Z.shiftl d (slip z))).
      { intros z Hz'. rewrite Z.shiftl_mul_pow2 by (unfold slip; destruct (32 <=? z); lia). apply slip_small; lia. }
      destruct (Z.leb_spec lz (clzll d)) as [Hle|Hle]; cbn [andb]; [destruct (tz <=? ctzll d)|];
        (eexists _, _; split; [reflexivity|]; split; [right; lia|apply Hs'; lia]). }
  destruct Hn as (lz2 & tz2 & -> & Hz2 & Hsh). pose proof (lxor_u64 _ _ Hv' Hsh) as Hv2. constructor; [by split_and!|]. by apply IH.
Qed.

Lemma decoded_samples_same l : Forall tree_sample_ok l -> Forall2 same_but_value (decoded_samples l) l.
Proof.
  destruct l as [|s l]; [constructor|]. intros [Hs Hl]%Forall_cons_1. pose proof Hs as (_ & _ & _ & Hv & _).
  constructor; [by split_and!|]. apply decoded_values_same; try done. by left.
Qed.

(** Where each value is equal to the one before it or differs from it in the
    upper 32 bits, the values come back too. *)
Lemma decoded_values_apart l : forall v lz tz,
  is_u64 v -> (lz = 64 \/ 0 <= lz < 32) -> Forall tree_sample_ok l -> apart v l -> decoded_values v v lz tz l = l.
Proof.
  induction l as [|s l IH]; intros v lz tz Hv Hz Hl Ha; [done|]. apply Forall_cons_1 in Hl as [Hs Hl]. destruct Ha as [Hx Ha].
  pose proof Hs as (_ & _ & _ & Hsv & _). pose proof (lxor_u64 _ _ Hsv Hv) as Hd. cbn [decoded_values].
  assert (Hback : Z.lxor v (Z.lxor (t_v s) v) = t_v s) by (by rewrite (Z.lxor_comm (t_v s)), <- Z.lxor_assoc, Z.lxor_nilpotent, Z.lxor_0_l).
  set (d := Z.lxor (t_v s) v) in *. unfold next_window. unfold is_u in Hd.
  assert (Hgo : forall lz2 tz2, (lz2 = 64 \/ 0 <= lz2 < 32) -> Z.shiftl d (slip lz2) = d ->
    with_value s (Z.lxor v (Z.shiftl d (slip lz2))) :: decoded_values (t_v s) (Z.lxor v (Z.shiftl d (slip lz2))) lz2 tz2 l = s :: l).
  { intros lz2 tz2 Hz2 ->. rewrite Hback, IH by done. f_equal. by destruct s. }
  destruct (Z.eqb_spec d 0) as [E|E]; cbn [orb]; [apply Hgo; [done|]; by rewrite E, Z.shiftl_0_l|].
  destruct Hx as [Hx|Hx]; [done|]. assert (Hc : 0 <= clzll d < 32).
  { pose proof (clzll_range d ltac:(lia)). unfold clzll. assert (32 <= Z.log2 d) by (apply Z.log2_le_pow2; lia). unfold clzll in *. lia. }
  assert (Hsl : forall z, 0 <= z < 32 -> Z.shiftl d (slip z) = d) by (intros z Hz'; unfold slip; rewrite (proj2 (Z.leb_gt 32 z)) by lia; apply Z.shiftl_0_r).
  destruct (Z.leb_spec lz (clzll d)) as [Hle|Hle]; cbn [andb]; [destruct (tz <=? ctzll d)|]; apply Hgo; (lia || (apply Hsl; lia)).
Qed.

(** Samples of which each value equals the one before or differs from it in the
    upper 32 bits. *)
Definition samples_run (l : list TreeRefSample) : Prop := match l with [] => True | s :: l => apart (t_v s) l end.

Lemma decoded_samples_run l : Forall tree_sample_ok l -> samples_run l -> decoded_samples l = l.
Proof.
  destruct l as [|s l]; [done|]. intros [Hs Hl]%Forall_cons_1 Ha. pose proof Hs as (_ & _ & _ & Hv & _).
  cbn [decoded_samples]. f_equal. apply decoded_values_apart; try done. by left.
Qed.

(** A record of such samples decodes to the samples it was written from. *)
Theorem gorilla_round_trip s0 rest :
  Forall tree_sample_ok (s0 :: rest) -> Z.of_nat (length (s0 :: rest)) < 2 ^ 32 -> apart (t_v s0) rest ->
  read_treeSamplesGorilla (treeSamplesGorilla (s0 :: rest) []) = Some (s0 :: rest).
Proof. intros Hl Hn Ha. rewrite gorilla_decodes by done. f_equal. by apply decoded_samples_run. Qed.

(** Two values that differ only in the lower 32 bits do not survive the
    Gorilla record: the number of leading zeros does not fit its 5 bits, and
    the difference comes back 32 bits too high. *)
Theorem gorilla_loses_low_bits s0 s1 :
  tree_sample_ok s0 -> tree_sample_ok s1 -> 0 < Z.lxor (t_v s1) (t_v s0) < 2 ^ 32 ->
  read_treeSamplesGorilla (treeSamplesGorilla [s0; s1] []) =
    Some [s0; mkTreeRefSample (sgid s1) (mid s1) (t_t s1) (Z.lxor (t_v s0) (Z.shiftl (Z.lxor (t_v s1) (t_v s0)) 32)) (t_txn s1)] /\
  read_treeSamplesGorilla (treeSamplesGorilla [s0; s1] []) <> Some [s0; s1].
Proof.
  intros H0 H1 Hd. set (d := Z.lxor (t_v s1) (t_v s0)) in *.
  assert (Hc : 32 <= clzll d < 64) by (pose proof (clzll_range d ltac:(lia)); unfold clzll in *; assert (Z.log2 d < 32) by (apply Z.log2_lt_pow2; lia); lia).
  assert (E : read_treeSamplesGorilla (treeSamplesGorilla [s0; s1] []) = Some [s0; with_value s1 (Z.lxor (t_v s0) (Z.shiftl d 32))]).
  { rewrite gorilla_decodes; [|done|by apply Forall_cons_2; [|apply Forall_singleton]|simpl; lia]. cbn [decoded_samples decoded_values]. fold d. unfold next_window, slip.
    rewrite (proj2 (Z.eqb_neq d 0)), (proj2 (Z.leb_gt 64 _)) by lia. cbn [orb andb]. by rewrite (proj2 (Z.leb_le 32 _)) by lia. }
  split; [exact E|]. rewrite E. intros Heq. injection Heq as Heq. apply (f_equal t_v) in Heq. simpl in Heq.
  assert (Hz : Z.shiftl d 32 = d).
  { apply (f_equal (Z.lxor (t_v s0))) in Heq. rewrite <- Z.lxor_assoc, Z.lxor_nilpotent, Z.lxor_0_l in Heq. rewrite Heq. unfold d. apply Z.lxor_comm. }
  rewrite Z.shiftl_mul_pow2 in Hz by lia. lia.
Qed.

End ReadProps.

(** ** Witnesses *)

Section Witnesses.
#[local] Instance gorilla_past_end : PastEnd := fun _ => 0.

Lemma gorilla_round_trip_witness :
  read_treeSamplesGorilla (treeSamplesGorilla
    [mkTreeRefSample 5 7 1000 (2 ^ 62) 3; mkTreeRefSample 9 2 3000 (2 ^ 62) (-5); mkTreeRefSample 9 2 3500 (2 ^ 60 + 2 ^ 40) 5] [])
  = Some [mkTreeRefSample 5 7 1000 (2 ^ 62) 3; mkTreeRefSample 9 2 3000 (2 ^ 62) (-5); mkTreeRefSample 9 2 3500 (2 ^ 60 + 2 ^ 40) 5].
Proof.
  apply (gorilla_round_trip (mkTreeRefSample 5 7 1000 (2 ^ 62) 3)
    [mkTreeRefSample 9 2 3000 (2 ^ 62) (-5); mkTreeRefSample 9 2 3500 (2 ^ 60 + 2 ^ 40) 5]).
  - repeat (apply Forall_cons_2; [split_and!; simpl; unfold is_u, is_s; simpl; lia|]). apply Forall_nil_2.
  - simpl. lia.
  - split; [by left|]. split; [right; vm_compute; discriminate|done].
Defined.

Lemma gorilla_loses_low_bits_witness :
  read_treeSamplesGorilla (treeSamplesGorilla [mkTreeRefSample 5 7 1000 0 3; mkTreeRefSample 5 7 2000 1 4] [])
    = Some [mkTreeRefSample 5 7 1000 0 3; mkTreeRefSample 5 7 2000 (2 ^ 32) 4] /\
  read_treeSamplesGorilla (treeSamplesGorilla [mkTreeRefSample 5 7 1000 0 3; mkTreeRefSample 5 7 2000 1 4] [])
    <> Some [mkTreeRefSample 5 7 1000 0 3; mkTreeRefSample 5 7 2000 1 4].
Proof.
  apply (gorilla_loses_low_bits (mkTreeRefSample 5 7 1000 0 3) (mkTreeRefSample 5 7 2000 1 4));
    [by repeat split; vm_compute|by repeat split; vm_compute|by split; vm_compute].
Defined.

End Witnesses.
