(* ===== verification/TreeMemSeries.v ===== *)
(** head/TreeMemSeries.h and head/TreeMemSeries.cpp: a series in memory.

    Samples go into a compressed chunk; when the next sample would make the
    chunk longer than an item of the slab store it is taken back, the chunk is
    put into the store and a new one started.  The store is an interface
    ([ChunkStore], implemented by [SlabStore.ConPutKV]): a put may fail, and
    the code tries again, other threads having run in between ([Threads]).

    [appends] are the samples of a series in order; [head_keeps_samples] says
    that the chunks handed to the store and the chunk in memory together hold
    exactly these. *)
From Stdlib Require Import ZArith Lia Bool.
From stdpp Require Import base list numbers option gmap.
From S2P Require Import Prelude Endian Coding BitStream XORChunk MassTree SlabStore SlabFlush.

Definition LEVELDB_VALUE_HEADER_SIZE : Z := 11.
Definition PARTITION_LENGTH : Z := 7200000.
Definition INT64_MAX : Z := 2 ^ 63 - 1.
Definition INT64_MIN : Z := - 2 ^ 63.

(** The members that the methods below use; [appender_] is [None] when
    [chunk_.appender()] threw. *)
Record TreeMemSeries := mkTreeMemSeries {
  log_pos : Z;
  min_time_ : Z;
  max_time_ : Z;
  global_max_time_ : Z;
  num_samples_ : Z;
  tuple_st_ : Z;
  chunk_ : XORChunk;
  appender_ : option Appender;
  flushed_txn_ : Z;
  sample_txn_ : Z;
  log_clean_txn_ : Z;
  key_ : list Z;
  sid_ : Z;
  ms_source_id_ : Z;
  ms_metric_id_ : Z;
  head_flush_time_ : Z;
  level_flush_time_ : Z;
  chunk_num_ : Z;
  time_boundary_ : Z }.

(** ** Field updates *)

Definition set_range (m : TreeMemSeries) (mn mx gmx : Z) : TreeMemSeries :=
  mkTreeMemSeries (log_pos m) mn mx gmx (num_samples_ m) (tuple_st_ m) (chunk_ m) (appender_ m)
    (flushed_txn_ m) (sample_txn_ m) (log_clean_txn_ m) (key_ m) (sid_ m) (ms_source_id_ m)
    (ms_metric_id_ m) (head_flush_time_ m) (level_flush_time_ m) (chunk_num_ m) (time_boundary_ m).

Definition set_num (m : TreeMemSeries) (n st : Z) : TreeMemSeries :=
  mkTreeMemSeries (log_pos m) (min_time_ m) (max_time_ m) (global_max_time_ m) n st (chunk_ m)
    (appender_ m) (flushed_txn_ m) (sample_txn_ m) (log_clean_txn_ m) (key_ m) (sid_ m)
    (ms_source_id_ m) (ms_metric_id_ m) (head_flush_time_ m) (level_flush_time_ m) (chunk_num_ m)
    (time_boundary_ m).

Definition set_chunk (m : TreeMemSeries) (c : XORChunk) (a : option Appender) : TreeMemSeries :=
  mkTreeMemSeries (log_pos m) (min_time_ m) (max_time_ m) (global_max_time_ m) (num_samples_ m)
    (tuple_st_ m) c a (flushed_txn_ m) (sample_txn_ m) (log_clean_txn_ m) (key_ m) (sid_ m)
    (ms_source_id_ m) (ms_metric_id_ m) (head_flush_time_ m) (level_flush_time_ m) (chunk_num_ m)
    (time_boundary_ m).

Definition set_txns (m : TreeMemSeries) (flushed sample : Z) : TreeMemSeries :=
  mkTreeMemSeries (log_pos m) (min_time_ m) (max_time_ m) (global_max_time_ m) (num_samples_ m)
    (tuple_st_ m) (chunk_ m) (appender_ m) flushed sample (log_clean_txn_ m) (key_ m) (sid_ m)
    (ms_source_id_ m) (ms_metric_id_ m) (head_flush_time_ m) (level_flush_time_ m) (chunk_num_ m)
    (time_boundary_ m).

Definition set_slab (m : TreeMemSeries) (key : list Z) (sid n : Z) : TreeMemSeries :=
  mkTreeMemSeries (log_pos m) (min_time_ m) (max_time_ m) (global_max_time_ m) (num_samples_ m)
    (tuple_st_ m) (chunk_ m) (appender_ m) (flushed_txn_ m) (sample_txn_ m) (log_clean_txn_ m) key
    sid (ms_source_id_ m) (ms_metric_id_ m) (head_flush_time_ m) (level_flush_time_ m) n
    (time_boundary_ m).

Definition set_flush_times (m : TreeMemSeries) (head level boundary : Z) : TreeMemSeries :=
  mkTreeMemSeries (log_pos m) (min_time_ m) (max_time_ m) (global_max_time_ m) (num_samples_ m)
    (tuple_st_ m) (chunk_ m) (appender_ m) (flushed_txn_ m) (sample_txn_ m) (log_clean_txn_ m)
    (key_ m) (sid_ m) (ms_source_id_ m) (ms_metric_id_ m) head level (chunk_num_ m) boundary.

(** ** The store *)

(** The arguments of [TreeSeries::ConPutKV]; [p_value] is the memory from the
    pointer on. *)
Record Put := mkPut {
  p_source : Z;
  p_metric : Z;
  p_start : Z;
  p_end : Z;
  p_value : list Z;
  p_len : Z;
  p_txn : Z }.

(** What the series calls of the store: whether it took the chunk, the slab,
    the store; [None] is a crash. *)
Class ChunkStore (S : Type) := con_put : S -> Put -> option (bool * Z * S).

#[export] Instance slab_chunk_store {T} `{TreeOps T SlabRef} : ChunkStore (TreeSeries T) := fun st p =>
  ConPutKV st (p_source p) (p_metric p) (p_start p) (p_end p) (p_value p) (p_len p) (p_txn p).

(** The other threads: what they make of the store between two attempts to put
    a chunk, how often the put is tried, and how far the log writer moves
    [flushed_txn_] of a series whose caller waits for it. *)
Class Threads (S : Type) := {
  attempts : nat;
  between : S -> S;
  logged : TreeMemSeries -> Z }.

Section Series.
Context `{PastEnd}.

(** [XORChunk(LEVELDB_VALUE_HEADER_SIZE)] and its appender. *)
Definition new_chunk : XORChunk := xor_chunk_header LEVELDB_VALUE_HEADER_SIZE.

(** The constructors; [junk] is what [tuple_st_] holds, which none of them
    sets. *)
Definition tree_mem_series (junk sgid mid sid pos : Z) : TreeMemSeries :=
  mkTreeMemSeries pos INT64_MAX INT64_MIN INT64_MIN 0 junk new_chunk (appender new_chunk) 0 0 (-1) []
    sid sgid mid 0 0 0 (-1).

Definition min_time (m : TreeMemSeries) : Z :=
  if min_time_ m =? INT64_MAX then INT64_MIN else min_time_ m.

Definition max_time (m : TreeMemSeries) : Z :=
  if max_time_ m =? INT64_MIN then INT64_MAX else max_time_ m.

Definition encodeSMid (sgid mid : Z) : Z := Z.lor (u64 (Z.shiftl sgid 9)) mid.
Definition decodeSMid (logical_id : Z) : Z * Z :=
  (Z.shiftr logical_id 9, u16 (Z.land logical_id 0x1ff)).

(** [appender->append(timestamp, value)] *)
Definition append_sample (m : TreeMemSeries) (timestamp value : Z) : TreeMemSeries :=
  match appender_ m with
  | Some (AppenderOf a) =>
    let c := chunk_ m in
    let '(b, a) := append (bstream c) a timestamp value in
    set_chunk m (mkXORChunk b (read_mode c) (size_ c)) (Some (AppenderOf a))
  | _ => m
  end.

(** Writing to [chunk_.bstream.stream] in place. *)
Definition on_stream (m : TreeMemSeries) (f : list Z -> list Z) : TreeMemSeries :=
  let c := chunk_ m in
  let b := bstream c in
  set_chunk m (mkXORChunk (set_write b (f (stream b)) (end_ b) (tail_count b)) (read_mode c) (size_ c))
    (appender_ m).

Section Flush.
Context {S : Type} `{ChunkStore S} `{Threads S}.

(** [while (!tree_series->ConPutKV(...));] *)
Fixpoint put_until (n : nat) (st : S) (p : Put) : option (Z * S) :=
  match n with
  | O => None
  | Datatypes.S n =>
    match con_put st p with
    | None => None
    | Some (true, sid, st) => Some (sid, st)
    | Some (false, _, st) => put_until n (between st) p
    end
  end.

(** The item header: a tag, the metric and the source. *)
Definition item_header (mid sgid : Z) (s : list Z) : list Z :=
  store (store (poke s 0 1) 1 (EncodeFixed16 mid)) 3 (EncodeFixed64BE sgid).

(** [_flush_tree]: [None] is a wait that does not end or a crash. *)
Definition _flush_tree (m : TreeMemSeries) (txn : Z) (st : S) : option (TreeMemSeries * S) :=
  let key := EnCodeKey [] (ms_source_id_ m) (ms_metric_id_ m) (u64 (tuple_st_ m)) in
  let m := on_stream m (item_header (ms_metric_id_ m) (ms_source_id_ m)) in
  let m := if chunk_num_ m mod 5 =? 0 then set_txns m (logged m) (sample_txn_ m) else m in
  if (chunk_num_ m mod 5 =? 0) && (flushed_txn_ m <? sample_txn_ m) then None else
  let p := mkPut (ms_source_id_ m) (ms_metric_id_ m) (u64 (tuple_st_ m)) (u64 (max_time_ m))
             (stream (bstream (chunk_ m))) CHUNK_SIZE (u64 txn) in
  '(sid, st) ← put_until attempts st p;
  let m := set_slab m key sid (u64 (chunk_num_ m + 1)) in
  let m := set_chunk m new_chunk (appender new_chunk) in
  Some (set_num m 0 (tuple_st_ m), st).

(** Taking back a sample that made the chunk too long. *)
Definition undo_sample (m : TreeMemSeries) (prev_end prev_byte cur_end : Z) : TreeMemSeries :=
  let c := chunk_ m in
  let b := set_write (bstream c) (poke (stream (bstream c)) (prev_end - 1) prev_byte) prev_end
             (tail_count (bstream c)) in
  let b := put_count b (chunk_num_samples (mkXORChunk b (read_mode c) (size_ c)) - 1) in
  let s := foldl (fun s i => poke s i 0) (stream b) (seqZ prev_end (cur_end - prev_end + 1)) in
  let m := set_chunk m (mkXORChunk (set_write b s (end_ b) (tail_count b)) (read_mode c) (size_ c))
             (appender_ m) in
  set_num m (num_samples_ m - 1) (tuple_st_ m).

(** [min_time_] and [max_time_] after a flush *)
Definition reset_range (m : TreeMemSeries) : TreeMemSeries :=
  set_range m INT64_MAX INT64_MIN (global_max_time_ m).

(** The end of [append]: the sample is counted. *)
Definition settle (m : TreeMemSeries) (timestamp time_boundary : Z) : TreeMemSeries :=
  let m := set_range m (min_time_ m) timestamp (global_max_time_ m) in
  let m := set_num m (num_samples_ m + 1) (tuple_st_ m) in
  let m := set_flush_times m (head_flush_time_ m) (level_flush_time_ m) time_boundary in
  if num_samples_ m =? 1 then set_num m (num_samples_ m) timestamp else m.

(** [append(slab::TreeSeries*, ...)]: whether a chunk was flushed. *)
Definition tree_append (m : TreeMemSeries) (timestamp value : Z) (st : S)
    : option (bool * TreeMemSeries * S) :=
  let m := set_range m (if min_time_ m =? INT64_MAX then timestamp else min_time_ m) (max_time_ m)
             (if global_max_time_ m <? timestamp then timestamp else global_max_time_ m) in
  let time_boundary := Z.quot timestamp PARTITION_LENGTH * PARTITION_LENGTH in
  let prev_end := end_ (bstream (chunk_ m)) in
  let prev_byte := peek (stream (bstream (chunk_ m))) (prev_end - 1) in
  let m := set_txns m (flushed_txn_ m) (s64 (sample_txn_ m + 1)) in
  let m := append_sample m timestamp value in
  let cur_end := end_ (bstream (chunk_ m)) in
  '(flushed, m, st) ←
    (if (cur_end =? CHUNK_SIZE) && (6 <=? tail_count (bstream (chunk_ m))) then
       '(m, st) ← _flush_tree m (s64 (sample_txn_ m - num_samples_ m + 1)) st;
       Some (true, reset_range (set_flush_times m timestamp (level_flush_time_ m) (time_boundary_ m)), st)
     else if CHUNK_SIZE <? cur_end then
       let m := undo_sample m prev_end prev_byte cur_end in
       '(m, st) ← _flush_tree m (s64 (sample_txn_ m - num_samples_ m + 1)) st;
       let m := set_flush_times m (max_time_ m) (level_flush_time_ m) (time_boundary_ m) in
       Some (true, append_sample (reset_range m) timestamp value, st)
     else Some (false, m, st));
  Some (flushed, settle m timestamp time_boundary, st).

(** Samples one after the other. *)
Fixpoint appends (m : TreeMemSeries) (l : list (Z * Z)) (st : S) : option (TreeMemSeries * S) :=
  match l with
  | [] => Some (m, st)
  | (t, v) :: l => '(_, m, st) ← tree_append m t v st; appends m l st
  end.

End Flush.

(** The samples of the chunk in memory. *)
Definition head_samples (m : TreeMemSeries) : list (Z * Z) :=
  (run (xor_iterator_of (bstream (chunk_ m)) true)).1.

(** ** Recording what the store accepts *)

#[export] Instance traced_store {S} `{ChunkStore S} : ChunkStore (S * list Put) := fun '(st, l) p =>
  match con_put st p with
  | None => None
  | Some (true, sid, st) => Some (true, sid, (st, l ++ [p]))
  | Some (false, sid, st) => Some (false, sid, (st, l))
  end.

#[export] Instance traced_threads {S} `{Threads S} : Threads (S * list Put) := {
  attempts := attempts;
  between := fun '(st, l) => (between st, l);
  logged := logged }.

End Series.

(** ** The undone sample *)

Lemma bytes_bits_inj l k : bytes_ok l -> bytes_ok k -> bytes_bits l = bytes_bits k -> l = k.
Proof.
  revert k. induction l as [|x l IH]; intros [|y k] Hl Hk E.
  - done.
  - apply (f_equal length) in E. rewrite !length_bytes_bits in E. simpl in E. lia.
  - apply (f_equal length) in E. rewrite !length_bytes_bits in E. simpl in E. lia.
  - apply Forall_cons_1 in Hl as [Hx Hl], Hk as [Hy Hk]. rewrite !bytes_bits_cons in E.
    apply app_inj_1 in E as [E1 E2]; [|by rewrite !length_bits_of].
    f_equal; [by apply (bits_of_inj 8)|by apply IH].
Qed.

(** Zeroing a stretch of the buffer and the byte past its end. *)
Lemma zero_stretch s k :
  foldl (fun s i => poke s i 0) (s ++ k) (seqZ (Z.of_nat (length s)) (Z.of_nat (length k) + 1))
  = s ++ replicate (length k) 0.
Proof.
  revert s. induction k as [|x k IH]; intros s.
  - change (seqZ _ _) with [Z.of_nat (length s)]. cbn [foldl]. unfold poke.
    destruct (Z.ltb_spec (Z.of_nat (length s)) 0); [lia|].
    rewrite list_insert_ge by (rewrite length_app; simpl; lia). done.
  - replace (Z.of_nat (length (x :: k)) + 1) with (1 + (Z.of_nat (length k) + 1)) by (simpl; lia).
    rewrite seqZ_app by lia. change (seqZ (Z.of_nat (length s)) 1) with [Z.of_nat (length s)].
    rewrite foldl_app. cbn [foldl]. rewrite poke_app_r0. change (poke (x :: k) 0 0) with (0 :: k).
    rewrite (cons_middle 0 s k), app_assoc. replace (Z.of_nat (length s) + 1) with (Z.of_nat (length (s ++ [0])))
      by (rewrite length_app; simpl; lia).
    rewrite IH, <- app_assoc. done.
Qed.

Section Undo.
Context `{PastEnd}.

(** A longer body keeps the whole bytes of a shorter one. *)
Lemma longer_body s s' body more pad pad' :
  bytes_ok s -> bytes_ok s' -> bytes_bits s = body ++ pad -> bytes_bits s' = (body ++ more) ++ pad' ->
  (length pad < 8)%nat -> s <> [] ->
  exists s0 x y k, s = s0 ++ [x] /\ s' = s0 ++ y :: k.
Proof.
  intros Hs Hs' Eb Eb' Hp Hne. destruct s as [|x s0 _] using rev_ind; [done|].
  assert (Hl := f_equal length Eb). assert (Hl' := f_equal length Eb').
  rewrite length_bytes_bits, !length_app in Hl. rewrite length_bytes_bits, !length_app in Hl'. simpl in Hl.
  assert (Hlt : (length s0 < length s')%nat) by lia.
  assert (E0 : take (length s0) s' = s0).
  { apply Forall_app in Hs as [Hs0 _]. apply bytes_bits_inj; [by apply Forall_take|done|].
    rewrite <- take_bytes_bits, Eb', <- app_assoc, take_app_le by lia.
    transitivity (take (8 * length s0) (bytes_bits (s0 ++ [x]))); [|by rewrite take_bytes_bits, take_app_length].
    rewrite Eb, take_app_le by lia. done. }
  exists s0, x. destruct (drop (length s0) s') as [|y k] eqn:Ed.
  { apply (f_equal length) in Ed. rewrite length_drop in Ed. simpl in Ed. lia. }
  exists y, k. split; [done|]. rewrite <- (take_drop (length s0) s'), E0, Ed. done.
Qed.

Lemma undo_stream b b' hdr n body more :
  chunk_at b hdr n body -> chunk_at b' hdr (n + 1) (body ++ more) -> is_u 16 (n + 1) -> body <> [] ->
  let m := mkXORChunk b' false 0 in
  exists k, Z.of_nat k = end_ b' - end_ b /\
  forall ms, chunk_ ms = m ->
    let ms' := undo_sample ms (end_ b) (peek (stream b) (end_ b - 1)) (end_ b') in
    stream (bstream (chunk_ ms')) = stream b ++ replicate k 0 /\
    end_ (bstream (chunk_ ms')) = end_ b.
Proof.
  intros [(Hv & Ht & He & s & Hs & Hok & Hb) [Hh Hn]] [(Hv' & Ht' & He' & s' & Hs' & Hok' & Hb') [Hh' Hn']] Hn1 Hne m.
  destruct (longer_body s s' body more _ _ Hok Hok' Hb Hb') as (s0 & x & y & k & -> & ->).
  { rewrite length_replicate. pose proof (Z.mod_pos_bound (8 - tail_count b) 8). lia. }
  { intros ->. destruct body; done. }
  set (pre := hdr ++ be_bytes 2 n) in *. set (pre' := hdr ++ be_bytes 2 (n + 1)) in *.
  assert (Hpl : length pre' = length pre) by (unfold pre, pre'; rewrite !length_app, !length_be_bytes; done).
  assert (Eend : end_ b = Z.of_nat (length (pre ++ s0)) + 1).
  { rewrite He, Hs, app_assoc, size_of_app. done. }
  exists (length k). split.
  { rewrite He', Hs', Eend. unfold size_of. rewrite !length_app, Hpl. simpl. lia. }
  assert (Epeek : peek (stream b) (end_ b - 1) = x).
  { rewrite Eend, Hs, app_assoc, Z.add_simpl_r. apply peek_app_r0. }
  intros ms Hms ms'. unfold ms', undo_sample. rewrite Hms. unfold m. cbn [bstream read_mode size_].
  rewrite Epeek, Eend, Z.add_simpl_r.
  assert (E1 : poke (stream b') (Z.of_nat (length (pre ++ s0))) x = pre' ++ s0 ++ x :: k).
  { replace (length (pre ++ s0)) with (length (pre' ++ s0)) by (rewrite !length_app, Hpl; done).
    rewrite Hs', app_assoc, poke_app_r0, <- app_assoc. done. }
  rewrite E1. unfold chunk_num_samples, chunk_bytes, bytes_ptr. cbn [read_mode bstream set_write vector_mode header_size stream].
  rewrite Hv', Hh', Nat2Z.id. unfold pre'. rewrite <- app_assoc, drop_app_length, get_count by done.
  rewrite Z.add_simpl_r. unfold put_count. cbn [set_write stream header_size end_ tail_count chunk_ set_chunk set_num bstream].
  rewrite Hh'. rewrite put_uint16_spec by apply length_be_bytes. split; [|done].
  replace (hdr ++ be_bytes 2 n ++ s0 ++ x :: k) with ((pre ++ s0 ++ [x]) ++ k)
    by (unfold pre; by rewrite <- !app_assoc).
  replace (Z.of_nat (length (pre ++ s0)) + 1) with (Z.of_nat (length (pre ++ s0 ++ [x])))
    by (rewrite app_assoc, length_app; simpl; lia).
  replace (end_ b' - _ + 1) with (Z.of_nat (length k) + 1).
  { rewrite zero_stretch, Hs. done. }
  rewrite He', Hs'. unfold size_of. rewrite !length_app, Hpl. simpl. lia.
Qed.

End Undo.

(** ** Items *)

Definition item_head (mid sgid : Z) : list Z := 1 :: le_bytes 2 mid ++ be_bytes 8 sgid.

Lemma item_header_spec mid sgid h rest :
  length h = 11%nat -> item_header mid sgid (h ++ rest) = item_head mid sgid ++ rest.
Proof.
  intros Hl. unfold item_header, item_head. rewrite EncodeFixed16_le, EncodeFixed64BE_be.
  do 11 (destruct h as [|? h]; [done|]). destruct h; [|done]. unfold store.
  rewrite length_le_bytes, length_be_bytes. change (Z.to_nat 1) with 1%nat. change (Z.to_nat 3) with 3%nat.
  pose proof (length_le_bytes 2 mid) as H2. destruct (le_bytes 2 mid) as [|x [|y [|]]]; done.
Qed.

Section Decode.
Context `{PastEnd}.

Lemma decode_item mid sgid s ext samples a w body pad :
  is_u 16 mid -> is_u64 sgid -> is_u 16 (Z.of_nat (length samples)) -> bytes_ok s -> bytes_ok ext ->
  bytes_bits s = body ++ pad -> reads_as body samples a w ->
  (13 + length s <= 248)%nat -> (248 <= 13 + length s + length ext)%nat ->
  DecodeChunk (item_head mid sgid ++ be_bytes 2 (Z.of_nat (length samples)) ++ s ++ ext)
  = (mid, sgid, samples).
Proof.
  intros Hm Hg Hn Hs He Hb Hr Hl1 Hl2. set (n := Z.of_nat (length samples)) in *.
  set (s' := s ++ take (235 - length s) ext).
  assert (Hs' : length s' = 235%nat) by (unfold s'; rewrite length_app, length_take; lia).
  assert (Et : take (Z.to_nat CHUNK_SIZE) (item_head mid sgid ++ be_bytes 2 n ++ s ++ ext)
               = item_head mid sgid ++ be_bytes 2 n ++ s').
  { unfold s'. replace (Z.to_nat CHUNK_SIZE) with (11 + (2 + (length s + (235 - length s))))%nat
      by (change (Z.to_nat CHUNK_SIZE) with 248%nat; lia).
    assert (Hh : length (item_head mid sgid) = 11%nat)
      by (unfold item_head; rewrite length_cons, length_app, length_le_bytes, length_be_bytes; done).
    rewrite <- Hh, take_app_add, <- (length_be_bytes 2 n), take_app_add, take_app_add. done. }
  unfold DecodeChunk. rewrite Et. unfold item_head. rewrite <- !app_comm_cons, <- !app_assoc.
  change (drop 1 (1 :: ?l)) with (drop 0 l). change (drop 3 (1 :: ?l)) with (drop 2 l).
  change (drop 11 (1 :: ?l)) with (drop 10 l). rewrite drop_0, DecodeFixed16_spec.
  rewrite (drop_app_length' _ _ 2) by (by rewrite length_le_bytes). rewrite DecodeFixed64BE_spec.
  rewrite app_assoc, (drop_app_length' _ _ 10) by (by rewrite length_app, length_le_bytes, length_be_bytes).
  unfold u16, u64. rewrite !wrap_id by done. f_equal.
  change (chunk_iterator _) with (xor_iterator_of (bs_of_ptr (be_bytes 2 n ++ s') (CHUNK_SIZE - 11)) false).
  destruct (iterator_facing (bs_of_ptr (be_bytes 2 n ++ s') (CHUNK_SIZE - 11)) n s' 0 body
    (pad ++ bytes_bits (take (235 - length s) ext)) false) as (Hf & Ht & rest & Hface).
  - done.
  - done.
  - unfold s'. by rewrite bytes_bits_app, Hb, app_assoc.
  - apply Forall_app. split; [done|]. by apply Forall_take.
  - simpl bs_size. rewrite Hs'. done.
  - unfold is_u in Hn. apply (run_reads body samples a w _ rest); try done; rewrite Ht; lia.
Qed.

(** ** The chunk in memory *)

Definition head_bytes : list Z := replicate 11 0.

(** The chunk holds [samples], the last byte of its body at most the last of
    an item. *)
Record filled (m : TreeMemSeries) (samples : list (Z * Z)) (a : XORAppender) (w : Z * Z) (body : list bool)
    : Prop := {
  fi_mode : chunk_ m = mkXORChunk (bstream (chunk_ m)) false 0;
  fi_app : appender_ m = Some (AppenderOf a);
  fi_at : chunk_at (bstream (chunk_ m)) head_bytes (Z.of_nat (length samples)) body;
  fi_reads : reads_as body samples a w;
  fi_appok : appender_ok a;
  fi_holds : holds (bstream (chunk_ m)) head_bytes samples a w;
  fi_bits : (length samples <= length body)%nat;
  fi_none : samples = [] -> body = [] }.

Definition filling (m : TreeMemSeries) (samples : list (Z * Z)) : Prop :=
  exists a w body, filled m samples a w body /\ end_ (bstream (chunk_ m)) <= CHUNK_SIZE.

Lemma chunk_at_end b n body :
  chunk_at b head_bytes n body ->
  8 * (end_ b - 13) - 8 < Z.of_nat (length body) <= 8 * (end_ b - 13) \/ (body = [] /\ end_ b = 13).
Proof.
  intros [(Hv & Ht & He & s & Hs & Hok & Hb) _]. apply (f_equal length) in Hb.
  rewrite length_bytes_bits, length_app, length_replicate in Hb.
  rewrite He, Hs. unfold size_of. rewrite !length_app, length_be_bytes. change (length head_bytes) with 11%nat.
  pose proof (Z.mod_pos_bound (8 - tail_count b) 8). lia.
Qed.

Lemma sample_bits_some n a t v : (1 <= length (sample_bits n a t v))%nat.
Proof.
  assert (Hv : (1 <= length (value_bits a v))%nat) by (unfold value_bits; repeat case_match; simpl; lia).
  unfold sample_bits. repeat case_match; rewrite length_app, ?length_bits_of; lia.
Qed.

Lemma first_sample_bits a t v : is_s64 t -> (length (sample_bits 0 a t v) <= 144)%nat.
Proof.
  intros Ht. unfold sample_bits. simpl (0 =? 0). cbv iota. rewrite length_app, length_bytes_bits, length_bits_of.
  unfold encode_signed_varint. rewrite encode_unsigned_varint_varint by apply zigzag_u64.
  pose proof (length_varint (zigzag t) (zigzag_u64 t)). lia.
Qed.

Lemma filled_append m samples a w body t v :
  filled m samples a w body -> end_ (bstream (chunk_ m)) <= CHUNK_SIZE -> sample_ok (t, v) ->
  exists a' w', filled (append_sample m t v) (samples ++ [(t, v)]) a' w'
                  (body ++ sample_bits (Z.of_nat (length samples)) a t v).
Proof.
  intros [Hm Ha Hc Hr Hok Hh Hb Hn] He Hs.
  assert (Hlen : Z.of_nat (length samples) < 65535).
  { pose proof (chunk_at_end _ _ _ Hc). unfold CHUNK_SIZE in He. destruct H0 as [?|[-> ?]]; [lia|]. simpl in Hb. lia. }
  destruct (append_spec _ a head_bytes _ body t v Hc Hok Hs) as [Hc' Ea].
  pose proof (append_holds _ head_bytes samples a w t v Hh Hs Hlen) as Hh'.
  unfold append_sample. rewrite Ha. destruct (append _ a t v) as [b' a'] eqn:E. simpl in *.
  destruct Hh' as (body' & Hc2 & Hr2 & Hok2 & Hrest).
  assert (Hn1 : Z.of_nat (length (samples ++ [(t, v)])) = Z.of_nat (length samples) + 1)
    by (rewrite length_app; simpl; lia).
  assert (Hc3 : chunk_at b' head_bytes (Z.of_nat (length (samples ++ [(t, v)])))
                  (body ++ sample_bits (Z.of_nat (length samples)) a t v)).
  { rewrite Hn1. unfold u16 in Hc'. rewrite wrap_id in Hc' by (unfold is_u; lia). done. }
  assert (Eb : body' = body ++ sample_bits (Z.of_nat (length samples)) a t v).
  { destruct Hc2 as [(_ & _ & _ & s1 & Hs1 & _ & Hb1) _], Hc3 as [(_ & _ & _ & s2 & Hs2 & _ & Hb2) _].
    rewrite Hs1 in Hs2. apply app_inv_head in Hs2. subst s2. rewrite Hb1 in Hb2. by apply app_inv_tail in Hb2. }
  subst body'. exists a', (reader_window (Z.of_nat (length samples)) a w v).
  split; simpl; try done.
  - by rewrite Hm.
  - eexists. split; [done|]. done.
  - rewrite !length_app. pose proof (sample_bits_some (Z.of_nat (length samples)) a t v). simpl. lia.
  - by destruct samples.
Qed.

Lemma new_chunk_appender : appender new_chunk = Some (AppenderOf first_appender).
Proof. reflexivity. Qed.

Lemma filled_new m : chunk_ m = new_chunk -> appender_ m = appender new_chunk -> filling m [].
Proof.
  intros E Ea. destruct (fresh_holds 11 ltac:(lia)) as (body & Hc & Hr & Hok & Hrest).
  assert (body = []) as ->.
  { destruct (chunk_at_end _ _ _ Hc) as [Hx|[? _]]; [|done]. simpl in Hx. destruct body; [done|]. simpl in Hx. lia. }
  exists first_appender, (0, 0), []. split; [|rewrite E; done].
  split; rewrite ?E, ?Ea, ?new_chunk_appender; try done. by apply (fresh_holds 11).
Qed.

Lemma filling_samples m samples : filling m samples -> head_samples m = samples.
Proof. intros (a & w & body & [_ _ _ _ _ Hh _ _] & _). by apply (holds_run _ _ _ _ _ true Hh). Qed.

Lemma filling_chunk m m' samples :
  chunk_ m' = chunk_ m -> appender_ m' = appender_ m -> filling m samples -> filling m' samples.
Proof.
  intros Ec Ea (a & w & body & [H1 H2 H3 H4 H5 H6 H7 H8] & He). exists a, w, body. rewrite <- Ec, <- Ea in *. done.
Qed.

End Decode.

(** ** What the series relies on *)

(** A store that is in order takes a chunk of a known series after the
    attempts made, stays in order, and the log writer catches up with a caller
    that waits. *)
Class StoreSpec (S : Type) `{ChunkStore S} `{Threads S} := {
  store_ok : S -> Prop;
  put_ends st p : store_ok st -> id_ok (p_source p) (p_metric p) ->
    exists sid st', put_until attempts st p = Some (sid, st') /\ store_ok st';
  log_catches_up m : sample_txn_ m <= logged m }.

Section Append.
Context `{PastEnd} {S : Type} `{CS : ChunkStore S} `{TH : Threads S} `{SS : !StoreSpec S}.

Lemma put_until_traced n st tr p sid st' :
  put_until n st p = Some (sid, st') -> put_until n (st, tr) p = Some (sid, (st', tr ++ [p])).
Proof.
  revert st. induction n as [|n IH]; intros st; [done|]. cbn [put_until].
  change (con_put (st, tr) p) with
    (match con_put st p with None => None | Some (true, sid, st) => Some (true, sid, (st, tr ++ [p]))
     | Some (false, sid, st) => Some (false, sid, (st, tr)) end).
  destruct (con_put st p) as [[[[|] s0] st0]|]; [|apply IH|done]. by intros [= -> ->].
Qed.

(** The members a flush leaves alone. *)
Definition same_ids (m m' : TreeMemSeries) : Prop :=
  ms_source_id_ m' = ms_source_id_ m /\ ms_metric_id_ m' = ms_metric_id_ m /\
  max_time_ m' = max_time_ m /\ tuple_st_ m' = tuple_st_ m /\ sample_txn_ m' = sample_txn_ m.

Lemma flush_tree_spec m txn st tr h rest :
  store_ok st -> id_ok (ms_source_id_ m) (ms_metric_id_ m) ->
  stream (bstream (chunk_ m)) = h ++ rest -> length h = 11%nat ->
  exists m' st', _flush_tree m txn (st, tr) = Some (m', (st', tr ++ [
      mkPut (ms_source_id_ m) (ms_metric_id_ m) (u64 (tuple_st_ m)) (u64 (max_time_ m))
        (item_head (ms_metric_id_ m) (ms_source_id_ m) ++ rest) CHUNK_SIZE (u64 txn)])) /\
    store_ok st' /\ filling m' [] /\ same_ids m m' /\ num_samples_ m' = 0.
Proof.
  intros Hst Hid Hs Hl. unfold _flush_tree. cbv zeta.
  set (m1 := on_stream m _). set (m2 := if chunk_num_ m1 mod 5 =? 0 then _ else m1).
  assert (E2 : chunk_ m2 = chunk_ m1 /\ ms_source_id_ m2 = ms_source_id_ m /\ ms_metric_id_ m2 = ms_metric_id_ m /\
    tuple_st_ m2 = tuple_st_ m /\ max_time_ m2 = max_time_ m /\ chunk_num_ m2 = chunk_num_ m /\
    sample_txn_ m2 = sample_txn_ m /\
    (chunk_num_ m mod 5 = 0 -> flushed_txn_ m2 = logged m1)).
  { unfold m2. change (chunk_num_ m1) with (chunk_num_ m).
    destruct (Z.eqb_spec (chunk_num_ m mod 5) 0); split_and!; done. }
  destruct E2 as (E2 & E3 & E4 & E5 & E6 & E7 & E8 & E9). rewrite E3, E4, E5, E6, E7, E8.
  assert (Hw : (chunk_num_ m mod 5 =? 0) && (flushed_txn_ m2 <? sample_txn_ m) = false).
  { destruct (Z.eqb_spec (chunk_num_ m mod 5) 0) as [E|E]; [|done]. rewrite (E9 E). simpl.
    apply Z.ltb_ge. apply (log_catches_up m1). }
  rewrite Hw. set (p := mkPut _ _ _ _ _ _ _).
  destruct (put_ends st p Hst Hid) as (sid & st' & Ep & Hst').
  change (@attempts (S * list Put) _) with (@attempts S _).
  rewrite (put_until_traced _ _ tr _ _ _ Ep). cbn [mbind option_bind].
  eexists _, st'. split.
  { do 4 f_equal. unfold p. rewrite E2. unfold m1, on_stream. cbn [chunk_ set_chunk bstream set_write stream].
    rewrite Hs, item_header_spec by done. done. }
  split; [done|]. split; [by apply filled_new|]. split; [|done].
  split_and!; done.
Qed.

(** A chunk handed over: it is an item of the series and decodes to its
    samples. *)
Definition good_put (sgid mid : Z) (p : Put) (samples : list (Z * Z)) : Prop :=
  p_source p = sgid /\ p_metric p = mid /\ p_len p = CHUNK_SIZE /\
  (Z.to_nat CHUNK_SIZE <= length (p_value p))%nat /\ DecodeChunk (p_value p) = (mid, sgid, samples).

Lemma good_put_intro m txn s ext samples a w body pad :
  is_u 16 (ms_metric_id_ m) -> is_u64 (ms_source_id_ m) ->
  bytes_ok s -> bytes_ok ext -> bytes_bits s = body ++ pad -> reads_as body samples a w ->
  is_u 16 (Z.of_nat (length samples)) -> (13 + length s <= 248)%nat -> (248 <= 13 + length s + length ext)%nat ->
  good_put (ms_source_id_ m) (ms_metric_id_ m)
    (mkPut (ms_source_id_ m) (ms_metric_id_ m) (u64 (tuple_st_ m)) (u64 (max_time_ m))
      (item_head (ms_metric_id_ m) (ms_source_id_ m) ++ be_bytes 2 (Z.of_nat (length samples)) ++ s ++ ext)
      CHUNK_SIZE (u64 txn)) samples.
Proof.
  intros. unfold good_put. cbn [p_source p_metric p_len p_value]. split_and!; try done.
  - unfold item_head. rewrite length_app, length_cons, !length_app, length_le_bytes, !length_be_bytes.
    change (Z.to_nat CHUNK_SIZE) with 248%nat. lia.
  - eapply decode_item; done.
Qed.

Lemma filled_stream m samples a w body :
  filled m samples a w body ->
  exists s pad, stream (bstream (chunk_ m)) = head_bytes ++ be_bytes 2 (Z.of_nat (length samples)) ++ s /\
    bytes_ok s /\ bytes_bits s = body ++ pad /\ end_ (bstream (chunk_ m)) = 13 + Z.of_nat (length s) /\
    is_u 16 (Z.of_nat (length samples)).
Proof.
  intros [_ _ [(Hv & Ht & He & s & Hs & Hok & Hb) [Hh Hn]] _ _ _ _ _]. exists s. eexists.
  rewrite <- app_assoc in Hs. split_and!; try done.
  rewrite He, Hs. unfold size_of. rewrite !length_app, length_be_bytes. change (length head_bytes) with 11%nat. lia.
Qed.

Lemma chunk_at_body b hdr n body body' : chunk_at b hdr n body -> chunk_at b hdr n body' -> body = body'.
Proof.
  intros [(_ & _ & _ & s1 & Hs1 & _ & Hb1) _] [(_ & _ & _ & s2 & Hs2 & _ & Hb2) _].
  rewrite Hs1 in Hs2. apply app_inv_head in Hs2. subst s2. rewrite Hb1 in Hb2. by apply app_inv_tail in Hb2.
Qed.

Lemma append_sample_fields m t v :
  same_ids m (append_sample m t v) /\ num_samples_ (append_sample m t v) = num_samples_ m.
Proof. unfold append_sample. destruct (appender_ m) as [[|a]|]; try done. by destruct (append _ _ _ _). Qed.

(** What one append does: the samples it hands over and keeps are those there
    were and the new one. *)
Definition append_done m t v samples tr m' tr' : Prop :=
  exists samples' new handed, tr' = tr ++ new /\
    Forall2 (good_put (ms_source_id_ m) (ms_metric_id_ m)) new handed /\
    concat handed ++ samples' = samples ++ [(t, v)] /\ filling m' samples' /\
    ms_source_id_ m' = ms_source_id_ m /\ ms_metric_id_ m' = ms_metric_id_ m.

Lemma settle_filling m t tb samples : filling m samples -> filling (settle m t tb) samples.
Proof. apply filling_chunk; unfold settle; by case_match. Qed.

Lemma settle_ids m t tb :
  ms_source_id_ (settle m t tb) = ms_source_id_ m /\ ms_metric_id_ (settle m t tb) = ms_metric_id_ m.
Proof. unfold settle. by case_match. Qed.

(** The sample fits. *)
Lemma append_kept m1 m t v tb samples tr :
  filling m1 (samples ++ [(t, v)]) -> ms_source_id_ m1 = ms_source_id_ m -> ms_metric_id_ m1 = ms_metric_id_ m ->
  append_done m t v samples tr (settle m1 t tb) tr.
Proof.
  intros Hf I1 I2. exists (samples ++ [(t, v)]), [], []. rewrite app_nil_r.
  destruct (settle_ids m1 t tb) as [-> ->]. split_and!; try done. by apply settle_filling.
Qed.

(** A chunk was handed over, and what is in memory after it is kept. *)
Lemma append_flushed m2 m t v tb samples handed kept tr p :
  filling m2 kept -> ms_source_id_ m2 = ms_source_id_ m -> ms_metric_id_ m2 = ms_metric_id_ m -> handed ++ kept = samples ++ [(t, v)] ->
  good_put (ms_source_id_ m) (ms_metric_id_ m) p handed ->
  append_done m t v samples tr (settle m2 t tb) (tr ++ [p]).
Proof.
  intros Hf I1 I2 E Hg. exists kept, [p], [handed]. destruct (settle_ids m2 t tb) as [-> ->].
  split_and!; try done; [constructor; [done|constructor]|simpl; by rewrite app_nil_r|by apply settle_filling].
Qed.

(** The chunk is given back as it was before the sample. *)
Lemma undo_good m m1 t v txn samples a w body a1 w1 :
  filled m samples a w body -> end_ (bstream (chunk_ m)) <= CHUNK_SIZE -> sample_ok (t, v) ->
  filled m1 (samples ++ [(t, v)]) a1 w1 (body ++ sample_bits (Z.of_nat (length samples)) a t v) ->
  CHUNK_SIZE < end_ (bstream (chunk_ m1)) -> same_ids m m1 ->
  is_u 16 (ms_metric_id_ m) -> is_u64 (ms_source_id_ m) ->
  let m2 := undo_sample m1 (end_ (bstream (chunk_ m)))
              (peek (stream (bstream (chunk_ m))) (end_ (bstream (chunk_ m)) - 1)) (end_ (bstream (chunk_ m1))) in
  exists rest, stream (bstream (chunk_ m2)) = head_bytes ++ rest /\
    good_put (ms_source_id_ m) (ms_metric_id_ m)
      (mkPut (ms_source_id_ m2) (ms_metric_id_ m2) (u64 (tuple_st_ m2)) (u64 (max_time_ m2))
        (item_head (ms_metric_id_ m2) (ms_source_id_ m2) ++ rest) CHUNK_SIZE (u64 txn)) samples.
Proof.
  intros Hf He Hs Hf1 Hx (I1 & I2 & _) Hmid Hsgid m2.
  assert (Hne : samples <> []).
  { intros ->. rewrite (fi_none _ _ _ _ _ Hf eq_refl), (app_nil_l (sample_bits _ _ _ _)) in Hf1. change (Z.of_nat (length [])) with 0 in Hf1.
    pose proof (first_sample_bits a t v (proj1 Hs)). pose proof (chunk_at_end _ _ _ (fi_at _ _ _ _ _ Hf1)).
    unfold CHUNK_SIZE in *. lia. }
  assert (Hb : body <> []).
  { intros ->. pose proof (fi_bits _ _ _ _ _ Hf). destruct samples; [done|simpl in *; lia]. }
  pose proof (fi_at _ _ _ _ _ Hf1) as Hc1. rewrite length_app, Nat2Z.inj_add in Hc1. simpl in Hc1.
  destruct (undo_stream _ _ _ _ _ _ (fi_at _ _ _ _ _ Hf) Hc1 (proj2 (proj2 Hc1)) Hb) as (k & Hk & Hu).
  destruct (Hu m1 (fi_mode _ _ _ _ _ Hf1)) as [Est _]. fold m2 in Est.
  destruct (filled_stream _ _ _ _ _ Hf) as (s & pad & Es & Hok & Hbits & Een & Hu16).
  exists (be_bytes 2 (Z.of_nat (length samples)) ++ s ++ replicate k 0). split.
  { rewrite Est, Es, <- !app_assoc. done. }
  change (ms_source_id_ m2) with (ms_source_id_ m1). change (ms_metric_id_ m2) with (ms_metric_id_ m1).
  rewrite <- I1, <- I2 in *. unfold CHUNK_SIZE in *.
  apply (good_put_intro m2 txn s (replicate k 0) samples a w body pad); try done; rewrite ?length_replicate; try lia.
  - apply Forall_replicate. done.
  - apply (fi_reads _ _ _ _ _ Hf).
Qed.

Lemma tree_append_spec m t v st tr samples :
  filling m samples -> sample_ok (t, v) -> store_ok st ->
  is_u 16 (ms_metric_id_ m) -> is_u64 (ms_source_id_ m) -> id_ok (ms_source_id_ m) (ms_metric_id_ m) ->
  exists flushed m' st' tr', tree_append m t v (st, tr) = Some (flushed, m', (st', tr')) /\
    store_ok st' /\ append_done m t v samples tr m' tr'.
Proof.
  intros (a & w & body & Hf & He) Hs Hst Hmid Hsgid Hid. unfold tree_append. cbv zeta.
  set (m0 := set_txns _ _ _). assert (Hf0 : filled m0 samples a w body).
  { destruct Hf as [H1 H2 H3 H4 H5 H6 H7 H8]. by split. }
  assert (He0 : end_ (bstream (chunk_ m0)) <= CHUNK_SIZE) by done.
  destruct (filled_append _ _ _ _ _ t v Hf0 He0 Hs) as (a1 & w1 & Hf1).
  destruct (append_sample_fields m0 t v) as [Hsame I6]. set (m1 := append_sample m0 t v) in *.
  pose proof Hsame as (I1 & I2 & I3 & I4 & I5).
  assert (Hkept : end_ (bstream (chunk_ m1)) <= CHUNK_SIZE ->
    forall tb, append_done m t v samples tr (settle m1 t tb) tr).
  { intros Hle tb. apply append_kept; [|done|done]. exists a1, w1. by eexists. }
  assert (Hid1 : id_ok (ms_source_id_ m1) (ms_metric_id_ m1)) by by rewrite I1, I2.
  destruct (Z.eqb_spec (end_ (bstream (chunk_ m1))) CHUNK_SIZE) as [Ex|Ex];
    [destruct (6 <=? tail_count (bstream (chunk_ m1))) eqn:E6|]; cbn [andb].
  - destruct (filled_stream _ _ _ _ _ Hf1) as (s1 & pad1 & Es1 & Hok1 & Hb1 & Een1 & Hu1).
    destruct (flush_tree_spec m1 (s64 (sample_txn_ m1 - num_samples_ m1 + 1)) st tr head_bytes _ Hst Hid1 Es1 eq_refl)
      as (m2 & st' & -> & Hst' & Hf2 & (J1 & J2 & J3 & J4 & J5) & J6).
    cbn [mbind option_bind]. do 4 eexists. split; [reflexivity|]. split; [done|].
    eapply append_flushed; [by eapply filling_chunk; [| |exact Hf2]|exact (eq_trans J1 I1)|exact (eq_trans J2 I2)|apply app_nil_r|].
    + rewrite <- (app_nil_r s1). change (ms_source_id_ m) with (ms_source_id_ m0).
      change (ms_metric_id_ m) with (ms_metric_id_ m0). rewrite <- I1, <- I2.
      unfold CHUNK_SIZE in Ex. eapply good_put_intro; rewrite ?I1, ?I2; try done; simpl; try lia.
      apply (fi_reads _ _ _ _ _ Hf1).
  - destruct (Z.ltb_spec CHUNK_SIZE (end_ (bstream (chunk_ m1)))) as [Hx|Hx]; [lia|].
    cbn [mbind option_bind]. do 4 eexists. split; [reflexivity|]. split; [done|]. apply Hkept. lia.
  - destruct (Z.ltb_spec CHUNK_SIZE (end_ (bstream (chunk_ m1)))) as [Hx|Hx].
    2:{ cbn [mbind option_bind]. do 4 eexists. split; [reflexivity|]. split; [done|]. by apply Hkept. }
    set (m2 := undo_sample _ _ _ _).
    destruct (undo_good m0 m1 t v (s64 (sample_txn_ m2 - num_samples_ m2 + 1)) samples a w body a1 w1)
      as (rest & Es2 & Hg); try done. cbv zeta in Es2, Hg. fold m2 in Es2, Hg.
    destruct (flush_tree_spec m2 (s64 (sample_txn_ m2 - num_samples_ m2 + 1)) st tr head_bytes rest Hst Hid1 Es2 eq_refl)
      as (m3 & st' & -> & Hst' & (a3 & w3 & b3 & Hf3 & He3) & (J1 & J2 & J3 & J4 & J5) & J6).
    cbn [mbind option_bind]. do 4 eexists. split; [reflexivity|]. split; [done|].
    destruct (filled_append (reset_range (set_flush_times m3 (max_time_ m3) (level_flush_time_ m3) (time_boundary_ m3)))
      [] a3 w3 b3 t v) as (a4 & w4 & Hf4); [by destruct Hf3; split|done|done|].
    match type of Hf4 with filled (append_sample ?x _ _) _ _ _ _ => destruct (append_sample_fields x t v) as [(K1 & K2 & _) _] end.
    eapply (append_flushed _ m t v _ samples samples [(t, v)] tr); try done.
    + do 3 eexists. split; [exact Hf4|]. pose proof (first_sample_bits a3 t v (proj1 Hs)).
      pose proof (chunk_at_end _ _ _ (fi_at _ _ _ _ _ Hf4)) as Hend.
      rewrite (fi_none _ _ _ _ _ Hf3 eq_refl), (app_nil_l (sample_bits _ _ _ _)) in Hend. change (Z.of_nat (length [])) with 0 in Hend. unfold CHUNK_SIZE. lia.
    + exact (eq_trans K1 (eq_trans J1 I1)).
    + exact (eq_trans K2 (eq_trans J2 I2)).
Qed.

(** The samples of a chunk handed over. *)
Definition put_samples (p : Put) : list (Z * Z) := (DecodeChunk (p_value p)).2.

Lemma good_put_samples sgid mid puts handed :
  Forall2 (good_put sgid mid) puts handed -> handed = map put_samples puts.
Proof.
  induction 1 as [|p l puts handed (_ & _ & _ & _ & E) _ ->]; [done|].
  cbn [map]. f_equal. unfold put_samples. by rewrite E.
Qed.

Lemma good_put_self sgid mid puts handed :
  Forall2 (good_put sgid mid) puts handed -> Forall (fun p => good_put sgid mid p (put_samples p)) puts.
Proof.
  induction 1 as [|p l puts handed Hg _ IH]; constructor; [|done].
  destruct Hg as (H1 & H2 & H3 & H4 & E). unfold good_put, put_samples. by rewrite E.
Qed.

(** Where a series stands after some appends. *)
Definition appended (m : TreeMemSeries) (samples l : list (Z * Z)) (m' : TreeMemSeries) (new : list Put) : Prop :=
  exists kept, Forall (fun p => good_put (ms_source_id_ m) (ms_metric_id_ m) p (put_samples p)) new /\
    filling m' kept /\ concat (map put_samples new) ++ kept = samples ++ l /\
    ms_source_id_ m' = ms_source_id_ m /\ ms_metric_id_ m' = ms_metric_id_ m.

Lemma appends_spec l : forall m st tr samples,
  filling m samples -> Forall sample_ok l -> store_ok st ->
  is_u 16 (ms_metric_id_ m) -> is_u64 (ms_source_id_ m) -> id_ok (ms_source_id_ m) (ms_metric_id_ m) ->
  exists m' st' new, appends m l (st, tr) = Some (m', (st', tr ++ new)) /\ store_ok st' /\ appended m samples l m' new.
Proof.
  induction l as [|[t v] l IH]; intros m st tr samples Hf Hl Hst Hm Hg Hid.
  - exists m, st, []. rewrite app_nil_r. split_and!; try done. exists samples. by rewrite app_nil_r.
  - apply Forall_cons_1 in Hl as [Hs Hl].
    destruct (tree_append_spec m t v st tr samples Hf Hs Hst Hm Hg Hid)
      as (fl & m1 & st1 & tr1 & E & Hst1 & kept & new & handed & -> & Hgood & Hcat & Hf1 & I1 & I2).
    cbn [appends]. rewrite E. cbn [mbind option_bind].
    destruct (IH m1 st1 (tr ++ new) kept) as (m' & st' & new' & -> & Hst' & kept' & Hgood' & Hf' & Hcat' & J1 & J2);
      rewrite ?I1, ?I2; try done.
    exists m', st', (new ++ new'). rewrite <- app_assoc. split_and!; try done. exists kept'.
    rewrite I1, I2 in *. split_and!; try done.
    + apply Forall_app. split; [by eapply good_put_self|done].
    + rewrite map_app, concat_app, <- app_assoc, Hcat', app_assoc, <- (good_put_samples _ _ _ _ Hgood), Hcat, <- app_assoc.
      done.
Qed.

(** The same for a run that is known to have happened. *)
Lemma appends_from_new junk sgid mid sid pos st l m x :
  Forall sample_ok l -> store_ok st -> is_u 16 mid -> is_u64 sgid -> id_ok sgid mid ->
  appends (tree_mem_series junk sgid mid sid pos) l (st, []) = Some (m, x) ->
  store_ok x.1 /\ appended (tree_mem_series junk sgid mid sid pos) [] l m x.2.
Proof.
  intros Hl Hst Hm Hg Hid E.
  destruct (appends_spec l (tree_mem_series junk sgid mid sid pos) st [] []) as (m1 & st1 & new & E1 & H1 & H2);
    try done; [by apply filled_new|]. rewrite E in E1. by injection E1 as <- ->.
Qed.

(** C5.  A series keeps its samples.  Whatever samples are appended, every
    append returns; each chunk it hands to the store is an item of the series,
    and the chunks handed over, in order, with the chunk in memory decode to
    exactly the samples appended, in order: no sample is lost or doubled where
    the last one did not fit and was taken back. *)
Theorem head_keeps_samples junk sgid mid sid pos st l :
  Forall sample_ok l -> store_ok st -> is_u 16 mid -> is_u64 sgid -> id_ok sgid mid ->
  exists m st' puts,
    appends (tree_mem_series junk sgid mid sid pos) l (st, []) = Some (m, (st', puts)) /\ store_ok st' /\
    Forall (fun p => good_put sgid mid p (put_samples p)) puts /\
    concat (map put_samples puts) ++ head_samples m = l.
Proof.
  intros Hl Hst Hm Hg Hid.
  destruct (appends_spec l (tree_mem_series junk sgid mid sid pos) st [] [])
    as (m & st' & new & H1 & H2 & kept & H3 & H4 & H5 & _); try done; [by apply filled_new|].
  exists m, st', new. rewrite (filling_samples _ _ H4). done.
Qed.

End Append.

(** ** A chunk that is filled exactly *)

Section Times.
Context `{PastEnd} {S : Type} `{CS : ChunkStore S} `{TH : Threads S}.

Lemma tree_append_max m t v st fl m' st' :
  tree_append m t v st = Some (fl, m', st') -> max_time_ m' = t.
Proof.
  unfold tree_append. cbv zeta. intros E.
  repeat match type of E with
  | context [if ?c then _ else _] => destruct c
  | context [_flush_tree ?a ?b ?c] => destruct (_flush_tree a b c) as [[??]|]
  end; cbn [mbind option_bind] in E; simplify_eq; unfold settle; by case_match.
Qed.

Lemma appends_max l : forall m st m' st' t v,
  appends m (l ++ [(t, v)]) st = Some (m', st') -> max_time_ m' = t.
Proof.
  induction l as [|[t0 v0] l IH]; intros m st m' st' t v; cbn [app appends];
    destruct (tree_append _ _ _ _) as [[[fl m1] st1]|] eqn:E; cbn [mbind option_bind]; try done.
  - intros [= <- <-]. by eapply tree_append_max.
  - apply IH.
Qed.

End Times.

Section Exact.
Context `{PastEnd} {S : Type} `{CS : ChunkStore S} `{TH : Threads S} `{SS : !StoreSpec S}.

(** When a sample fills the chunk to its last bits the chunk is handed
    over with the time of the sample before as its end, although it holds the
    new sample; and the series then counts one sample and keeps the new
    sample's time as the start of a chunk that is empty. *)
Theorem exact_fit_loses_end junk sgid mid sid pos st l t0 v0 t v m st1 puts :
  Forall sample_ok (l ++ [(t0, v0)]) -> sample_ok (t, v) -> store_ok st ->
  is_u 16 mid -> is_u64 sgid -> id_ok sgid mid ->
  appends (tree_mem_series junk sgid mid sid pos) (l ++ [(t0, v0)]) (st, []) = Some (m, (st1, puts)) ->
  end_ (bstream (chunk_ (append_sample m t v))) = CHUNK_SIZE ->
  6 <= tail_count (bstream (chunk_ (append_sample m t v))) ->
  exists p m' st2 before,
    tree_append m t v (st1, puts) = Some (true, m', (st2, puts ++ [p])) /\
    DecodeChunk (p_value p) = (mid, sgid, before ++ [(t, v)]) /\ p_end p = u64 t0 /\
    head_samples m' = [] /\ num_samples_ m' = 1 /\ tuple_st_ m' = t.
Proof.
  intros Hl Hs Hst Hm Hg Hid E He Ht. pose proof (appends_max _ _ _ _ _ _ _ E) as Hmax.
  destruct (appends_from_new _ _ _ _ _ _ _ _ _ Hl Hst Hm Hg Hid E)
    as (Hst1 & samples & _ & (a & w & body & Hf & Hle) & _ & I1 & I2).
  simpl in I1, I2. unfold tree_append. cbv zeta. set (m0 := set_txns _ _ _).
  assert (Hf0 : filled m0 samples a w body) by (destruct Hf; by split).
  destruct (filled_append m0 samples a w body t v Hf0 Hle Hs) as (a1 & w1 & Hf1).
  assert (Ec : bstream (chunk_ (append_sample m0 t v)) = bstream (chunk_ (append_sample m t v))).
  { unfold append_sample. change (appender_ m0) with (appender_ m). change (chunk_ m0) with (chunk_ m).
    destruct (appender_ m) as [[|?]|]; try done. by destruct (append _ _ _ _). }
  destruct (append_sample_fields m0 t v) as [(J1 & J2 & J3 & J4 & J5) J6]. set (m1 := append_sample m0 t v) in *.
  rewrite Ec, He, Z.eqb_refl. apply Z.leb_le in Ht as ->. cbn [andb].
  destruct (filled_stream _ _ _ _ _ Hf1) as (s1 & pad1 & Es1 & Hok1 & Hb1 & Een1 & Hu1).
  assert (Hid1 : id_ok (ms_source_id_ m1) (ms_metric_id_ m1)) by (rewrite J1, J2; simpl; by rewrite I1, I2).
  destruct (flush_tree_spec m1 (s64 (sample_txn_ m1 - num_samples_ m1 + 1)) st1 puts head_bytes _ Hst1 Hid1 Es1 eq_refl)
    as (m2 & st' & -> & _ & Hf2 & _ & K).
  cbn [mbind option_bind]. do 4 eexists. split; [reflexivity|]. cbn [p_value p_end]. split_and!.
  - rewrite <- (app_nil_r s1). rewrite J1, J2. change (ms_metric_id_ m0) with (ms_metric_id_ m).
    change (ms_source_id_ m0) with (ms_source_id_ m). rewrite I1, I2. rewrite Ec, He in Een1. unfold CHUNK_SIZE in Een1.
    eapply decode_item; try done; [apply (fi_reads _ _ _ _ _ Hf1)| |]; simpl; lia.
  - rewrite J3. simpl. by rewrite Hmax.
  - apply filling_samples, settle_filling. by eapply filling_chunk; [| |exact Hf2].
  - unfold settle. simpl. by rewrite K.
  - unfold settle. simpl. by rewrite K.
Qed.

End Exact.

(** ** Over the slab store *)

Section Slabs.
Context `{PastEnd} {T : Type} `{TL : TreeLaws T SlabRef} `{TH : Threads (TreeSeries T)}.

(** The flusher leaves the store in order with a slab to give, the put is
    tried at least twice, and the log writer catches up. *)
Hypothesis flusher_works : forall st : TreeSeries T, mem_inv st -> mem_inv (between st) /\
  (free_msinfoq_ (queues (between st)) <> [] \/ mem_evict_sinfoq_ (queues (between st)) <> []).
Hypothesis tried_twice : (2 <= @attempts (TreeSeries T) _)%nat.
Hypothesis log_works : forall m, sample_txn_ m <= @logged (TreeSeries T) _ m.

Lemma put_until_slab n (st : TreeSeries T) p :
  (2 <= n)%nat -> mem_inv st -> id_ok (p_source p) (p_metric p) ->
  exists sid st', put_until n st p = Some (sid, st') /\ mem_inv st'.
Proof.
  intros Hn Hi Hid. destruct n as [|[|n]]; [lia|lia|]. cbn [put_until].
  destruct (ConPutKV_steps st _ _ (p_start p) (p_end p) (p_value p) (p_len p) (p_txn p) Hi Hid)
    as [(E & _)|(sid & st' & E & Hi' & _)].
  2:{ unfold con_put, slab_chunk_store. rewrite E. eauto. }
  unfold con_put at 1, slab_chunk_store at 1. rewrite E.
  destruct (flusher_works st Hi) as [Hi1 Hfree].
  destruct (ConPutKV_steps (between st) _ _ (p_start p) (p_end p) (p_value p) (p_len p) (p_txn p) Hi1 Hid)
    as [(_ & _ & F1 & F2)|(sid & st' & E' & Hi' & _)]; [by destruct Hfree|].
  unfold con_put, slab_chunk_store. rewrite E'. eauto.
Qed.

#[local] Instance slab_store_spec : StoreSpec (TreeSeries T) := {
  store_ok := mem_inv;
  put_ends := fun st p Hi Hid => put_until_slab attempts st p tried_twice Hi Hid;
  log_catches_up := log_works }.

(** The store as the put that was accepted found it. *)
Lemma put_until_last n (st : TreeSeries T) tr p sid x :
  mem_inv st -> id_ok (p_source p) (p_metric p) -> put_until n (st, tr) p = Some (sid, x) ->
  exists st0 st', mem_inv st0 /\ x = (st', tr ++ [p]) /\
    ConPutKV st0 (p_source p) (p_metric p) (p_start p) (p_end p) (p_value p) (p_len p) (p_txn p) = Some (true, sid, st').
Proof.
  intros Hi Hid. revert st Hi. induction n as [|n IH]; intros st Hi; [done|]. cbn [put_until].
  change (con_put (st, tr) p) with
    (match ConPutKV st (p_source p) (p_metric p) (p_start p) (p_end p) (p_value p) (p_len p) (p_txn p) with
     | None => None | Some (true, sid, st) => Some (true, sid, (st, tr ++ [p]))
     | Some (false, sid, st) => Some (false, sid, (st, tr)) end).
  destruct (ConPutKV_steps st _ _ (p_start p) (p_end p) (p_value p) (p_len p) (p_txn p) Hi Hid)
    as [(E & _)|(sid' & st' & E & _)]; rewrite E.
  - apply IH. by apply flusher_works.
  - intros [= -> <-]. by exists st, st'.
Qed.

(** A flush puts exactly one chunk. *)
Lemma tree_append_put m t v (st : TreeSeries T) tr m' x :
  tree_append m t v (st, tr) = Some (true, m', x) ->
  exists n p sid, p_source p = ms_source_id_ m /\ p_metric p = ms_metric_id_ m /\
    put_until n (st, tr) p = Some (sid, x).
Proof.
  assert (F : forall m1 txn m2, _flush_tree m1 txn (st, tr) = Some (m2, x) ->
    exists n p sid, p_source p = ms_source_id_ m1 /\ p_metric p = ms_metric_id_ m1 /\ put_until n (st, tr) p = Some (sid, x)).
  { intros m1 txn m2. unfold _flush_tree. cbv zeta. set (m3 := if chunk_num_ (on_stream _ _) mod 5 =? 0 then _ else _).
    assert (E3 : ms_source_id_ m3 = ms_source_id_ m1 /\ ms_metric_id_ m3 = ms_metric_id_ m1)
      by (unfold m3; by destruct (_ =? _)).
    destruct E3 as [<- <-]. destruct (_ && _); [done|]. destruct (put_until _ _ _) as [[sid x']|] eqn:E; [|done].
    cbn [mbind option_bind]. intros [= _ <-]. eexists _, _, sid. split_and!; [| |exact E]; done. }
  unfold tree_append. cbv zeta. set (m0 := set_txns _ _ _).
  destruct (append_sample_fields m0 t v) as [(I1 & I2 & _) _]. set (m1 := append_sample m0 t v) in *.
  change (ms_source_id_ m) with (ms_source_id_ m0). change (ms_metric_id_ m) with (ms_metric_id_ m0).
  rewrite <- I1, <- I2. intros E.
  destruct (_ && _); [|destruct (CHUNK_SIZE <? _)]; [| |discriminate E];
    (destruct (_flush_tree _ _ _) as [[m2 x']|] eqn:Ef; [|done]); cbn [mbind option_bind] in E;
    injection E as _ ->; exact (F _ _ _ Ef).
Qed.

(** The chunk of an item that was stored. *)
Lemma stored_chunk mem nm sid n t value :
  Z.of_nat (length mem) = nm * SLAB_SIZE -> 0 <= sid < nm -> 0 <= n < 16 -> (Z.to_nat CHUNK_SIZE <= length value)%nat ->
  load (store mem (item_offset sid n) (item_bytes t value CHUNK_SIZE)) (item_offset sid n + 8) CHUNK_SIZE
  = take (Z.to_nat CHUNK_SIZE) value.
Proof.
  intros Hmem Hsid Hn Hv. pose proof (item_offset_bounds nm sid n Hsid Hn) as Hb.
  assert (El : length (item_bytes t value CHUNK_SIZE) = 256%nat).
  { unfold item_bytes. rewrite Z.ltb_irrefl, length_app, length_le_bytes, length_take. change (Z.to_nat CHUNK_SIZE) with 248%nat in *. lia. }
  pose proof (load_store mem (item_offset sid n) (item_bytes t value CHUNK_SIZE)) as E. rewrite El in E.
  specialize (E ltac:(lia) ltac:(unfold SLAB_ITEM_SIZE in Hb; lia)). change (Z.of_nat 256) with (8 + CHUNK_SIZE) in E.
  rewrite load_split in E by (unfold CHUNK_SIZE; lia). unfold item_bytes in E at 3. rewrite Z.ltb_irrefl in E.
  apply app_inj_1 in E as [_ E]; [exact E|]. rewrite length_le_bytes, length_load; [done|lia|lia|].
  rewrite length_store; rewrite ?El; unfold SLAB_ITEM_SIZE in Hb; lia.
Qed.

Lemma decode_cut c : DecodeChunk (take (Z.to_nat CHUNK_SIZE) c) = DecodeChunk c.
Proof. unfold DecodeChunk. by rewrite take_take, Nat.min_id. Qed.

(** A flushed chunk is in the slab store: right after an append that
    flushed, the memory of the store has, in an item of some slab, the chunk
    with all the samples the series held but those still in its chunk. *)
Theorem flushed_chunk_in_slab junk sgid mid sid pos st l m st1 puts t v m' x :
  Forall sample_ok l -> sample_ok (t, v) -> mem_inv st -> is_u 16 mid -> is_u64 sgid -> id_ok sgid mid ->
  appends (tree_mem_series junk sgid mid sid pos) l (st, []) = Some (m, (st1, puts)) ->
  tree_append m t v (st1, puts) = Some (true, m', x) ->
  exists sid' n samples, 0 <= n < 16 /\ nalloc_ (minfo x.1 sid') = n + 1 /\
    DecodeChunk (load (mstart_ x.1) (item_offset sid' n + 8) CHUNK_SIZE) = (mid, sgid, samples) /\
    concat (map put_samples puts) ++ samples ++ head_samples m' = l ++ [(t, v)].
Proof.
  intros Hl Hs Hi Hm Hg Hid E Ea.
  destruct (appends_from_new (SS := slab_store_spec) _ _ _ _ _ _ _ _ _ Hl Hi Hm Hg Hid E) as (Hi1 & kept & Hgood & Hf & Hcat & I1 & I2).
  simpl in I1, I2, Hi1. destruct (tree_append_put _ _ _ _ _ _ _ Ea) as (k & p & sid' & P1 & P2 & Ep).
  destruct (put_until_last _ _ _ _ _ _ Hi1 ltac:(by rewrite P1, P2, I1, I2) Ep) as (st0 & st' & Hi0 & -> & Ec).
  destruct (tree_append_spec (SS := slab_store_spec) m t v st1 puts kept Hf Hs Hi1) as
    (fl & m2 & st2 & tr2 & E2 & _ & kept2 & new & handed & E3 & Hg2 & Hcat2 & Hf2 & _); rewrite ?I1, ?I2; try done.
  rewrite Ea in E2. injection E2 as <- <- <- <-. apply app_inv_head in E3. subst new.
  apply Forall2_cons_inv_l in Hg2 as (samples & rest & Hg2 & Hn & ->). apply Forall2_nil_inv_l in Hn as ->.
  destruct Hg2 as (_ & _ & G1 & G2 & G3). rewrite I1, I2 in G3.
  destruct (ConPutKV_steps st0 (p_source p) (p_metric p) (p_start p) (p_end p) (p_value p) (p_len p) (p_txn p) Hi0
    ltac:(by rewrite P1, P2, I1, I2)) as [(F & _)|(sid2 & st2 & F & _ & Hd)]; rewrite Ec in F; [done|].
  injection F as <- <-. destruct Hd as (n & _ & _ & Hn & Hr & Hset & Hmem & Hna).
  exists sid', n, samples. split; [done|]. split; [done|]. split.
  - cbn [fst]. rewrite Hmem, G1, (stored_chunk _ _ _ _ _ _ (mi_mem _ _ Hi0) Hr Hn G2), decode_cut. done.
  - rewrite (filling_samples _ _ Hf2). simpl in Hcat, Hcat2. rewrite app_nil_r in Hcat2.
    rewrite Hcat2, app_assoc, Hcat. done.
Qed.

End Slabs.

(** ** Witnesses *)

Section Witnesses.
#[local] Instance tms_past_end : PastEnd := fun _ => 0.

(** A store that takes every chunk. *)
#[local] Instance any_store : ChunkStore (list Put) := fun l p => Some (true, 7, l ++ [p]).
#[local] Instance any_threads : Threads (list Put) := {
  attempts := 1; between := id; logged := sample_txn_ }.
#[local] Instance any_store_spec : StoreSpec (list Put).
Proof.
  refine {| store_ok := fun _ => True |}; [|intros; done].
  intros st p _ _. by exists 7, (st ++ [p]).
Defined.

(** Fourteen samples of more than a hundred bits, then a regular series: the
    chunk is full to the last bit but one with the twenty-fourth. *)
Definition demo_big : list (Z * Z) :=
  map (fun i => (2 ^ 40 * i * i * i, i * i * i * i * i * 1234567898765 + 1)) (seqZ 0 14).
Definition demo_series : list (Z * Z) :=
  demo_big ++ map (fun i => (2 ^ 40 * 2197 + 1000 + 1500 * i, 458386418836153146)) (seqZ 0 30).

Lemma demo_samples_ok n : Forall sample_ok (take n demo_series).
Proof.
  apply Forall_take. unfold demo_series, demo_big. cbv [seqZ fmap list_fmap seq Z.to_nat app map].
  repeat (constructor; [vm_compute; repeat split; congruence|]). constructor.
Qed.

Lemma head_keeps_samples_witness :
  exists m st' puts, appends (tree_mem_series 0 5 3 0 0) demo_series ([], []) = Some (m, (st', puts)) /\ True /\
    Forall (fun p => good_put 5 3 p (put_samples p)) puts /\
    concat (map put_samples puts) ++ head_samples m = demo_series.
Proof.
  refine (head_keeps_samples (S := list Put) 0 5 3 0 0 [] demo_series _ _ _ _ _); try done.
  exact (demo_samples_ok 44).
Defined.

Definition exactly_full (m : TreeMemSeries) (t v : Z) : bool :=
  (end_ (bstream (chunk_ (append_sample m t v))) =? CHUNK_SIZE)
  && (6 <=? tail_count (bstream (chunk_ (append_sample m t v)))).

Lemma exact_fit_loses_end_witness :
  match appends (tree_mem_series 0 5 3 0 0) (take 22 demo_series ++ [(2415627046236872, 458386418836153146)]) ([], []) with
  | Some (m, (st1, puts)) =>
    exists p m' st2 before,
      tree_append m 2415627046238372 458386418836153146 (st1, puts) = Some (true, m', (st2, puts ++ [p])) /\
      DecodeChunk (p_value p) = (3, 5, before ++ [(2415627046238372, 458386418836153146)]) /\
      p_end p = u64 2415627046236872 /\ head_samples m' = [] /\ num_samples_ m' = 1 /\ tuple_st_ m' = 2415627046238372
  | None => False
  end.
Proof.
  assert (C : match appends (tree_mem_series 0 5 3 0 0) (take 22 demo_series ++ [(2415627046236872, 458386418836153146)]) ([], []) with
    | Some (m, _) => exactly_full m 2415627046238372 458386418836153146 = true | None => False end)
    by (vm_compute; reflexivity).
  destruct (appends _ _ _) as [[m [st1 puts]]|] eqn:E; [|done]. apply andb_true_iff in C as [C1 C2].
  assert (Hl : Forall sample_ok (take 22 demo_series ++ [(2415627046236872, 458386418836153146)])).
  { apply Forall_app. split; [apply demo_samples_ok|]. constructor; [|constructor]. vm_compute. repeat split; congruence. }
  assert (Hs : sample_ok (2415627046238372, 458386418836153146)) by (vm_compute; repeat split; congruence).
  assert (Hid : is_u 16 3 /\ is_u64 5 /\ id_ok 5 3) by (vm_compute; repeat split; congruence).
  destruct Hid as (Hm & Hg & Hid). exact (exact_fit_loses_end (S := list Put) 0 5 3 0 0 [] (take 22 demo_series) _ _ _ _ m st1 puts Hl Hs I
    Hm Hg Hid E (proj1 (Z.eqb_eq _ _) C1) (proj1 (Z.leb_le _ _) C2)).
Defined.

(** A flusher that empties the store when no slab is left. *)
#[local] Instance slab_threads : Threads (TreeSeries (gmap (list Z) SlabRef)) := {
  attempts := 2;
  between := fun st => match free_msinfoq_ (queues st), mem_evict_sinfoq_ (queues st) with
                       | [], [] => small_store | _, _ => st end;
  logged := sample_txn_ }.

Lemma slab_flusher (st : TreeSeries (gmap (list Z) SlabRef)) :
  mem_inv st -> mem_inv (between st) /\
  (free_msinfoq_ (queues (between st)) <> [] \/ mem_evict_sinfoq_ (queues (between st)) <> []).
Proof.
  intros Hi. unfold between, slab_threads.
  destruct (free_msinfoq_ (queues st)) as [|i l] eqn:E1; [destruct (mem_evict_sinfoq_ (queues st)) as [|e l] eqn:E2|].
  - split; [exact small_store_inv|]. left. intros E. vm_compute in E. discriminate E.
  - split; [exact Hi|]. right. by rewrite E2.
  - split; [exact Hi|]. left. by rewrite E1.
Qed.

Lemma flushed_chunk_in_slab_witness :
  match appends (tree_mem_series 0 5 3 0 0) (take 23 demo_series) (small_store, []) with
  | Some (m, (st1, puts)) =>
    match tree_append m 2415627046238372 458386418836153146 (st1, puts) with
    | Some (flushed, m', x) => flushed = true /\
      exists sid' n samples, 0 <= n < 16 /\ nalloc_ (minfo x.1 sid') = n + 1 /\
        DecodeChunk (load (mstart_ x.1) (item_offset sid' n + 8) CHUNK_SIZE) = (3, 5, samples) /\
        concat (map put_samples puts) ++ samples ++ head_samples m'
        = take 23 demo_series ++ [(2415627046238372, 458386418836153146)]
    | None => False
    end
  | None => False
  end.
Proof.
  assert (C : match appends (tree_mem_series 0 5 3 0 0) (take 23 demo_series) (small_store, []) with
    | Some (m, (st1, puts)) =>
      match tree_append m 2415627046238372 458386418836153146 (st1, puts) with
      | Some (flushed, m', x) => flushed = true | None => False end
    | None => False end) by (vm_compute; reflexivity).
  destruct (appends _ _ _) as [[m [st1 puts]]|] eqn:E; [|done].
  destruct (tree_append _ _ _ _) as [[[fl m'] x]|] eqn:Ea; [|done]. subst fl. split; [done|].
  assert (Hs : sample_ok (2415627046238372, 458386418836153146)) by (vm_compute; repeat split; congruence).
  assert (Hid : is_u 16 3 /\ is_u64 5 /\ id_ok 5 3) by (vm_compute; repeat split; congruence).
  destruct Hid as (Hm & Hg & Hid).
  exact (flushed_chunk_in_slab slab_flusher (le_n 2) (fun m => Z.le_refl (sample_txn_ m)) 0 5 3 0 0 small_store
    (take 23 demo_series) m st1 puts _ _ m' x (demo_samples_ok 23) Hs small_store_inv Hm Hg Hid E Ea).
Defined.

End Witnesses.
