(* ===== verification/MemSeries.v ===== *)
(** head/MemSeries.hpp and head/MemSeries.cpp: a series of the older head,
    which puts a chunk into the key-value store when it has [MEM_TUPLE_SIZE]
    samples or when a sample falls into another time partition.

    [mem_series_partitions] describes the chunk in memory;
    [flush_overwrites_chunk] what reaches the store: the item header is 17
    bytes long, the chunk was built with room for 11. *)
From Stdlib Require Import ZArith Lia Bool.
From stdpp Require Import base list numbers option.
From S2P Require Import Prelude Endian Coding BitStream XORChunk MassTree SlabStore SlabFlush TreeMemSeries.

Definition MEM_TUPLE_SIZE : Z := 32.

(** The members that [append] and [_flush] use. *)
Record MemSeries := mkMemSeries {
  ms_ref : Z;
  ms_logical_id : Z;
  ms_min_time_ : Z;
  ms_max_time_ : Z;
  ms_global_max_time_ : Z;
  ms_num_samples_ : Z;
  ms_tuple_st_ : Z;
  ms_chunk_ : XORChunk;
  ms_appender_ : option Appender;
  ms_key_ : list Z;
  ms_time_boundary_ : Z }.

(** [leveldb::DB::Put]: its status and the store. *)
Class KVStore (S : Type) := db_put : S -> list Z -> list Z -> bool * S.

Section MemSeries.
Context `{PastEnd} {S : Type} `{KVStore S}.

(** The constructors; [logical] and [junk] are what [logical_id] and
    [tuple_st_] hold, which they do not set. *)
Definition mem_series (id logical junk : Z) : MemSeries :=
  mkMemSeries id logical INT64_MAX INT64_MIN INT64_MIN 0 junk new_chunk (appender new_chunk) [] (-1).

Definition ms_min_time (m : MemSeries) : Z := if ms_min_time_ m =? INT64_MAX then INT64_MIN else ms_min_time_ m.
Definition ms_max_time (m : MemSeries) : Z := if ms_max_time_ m =? INT64_MIN then INT64_MAX else ms_max_time_ m.

(** The header [_flush] writes into the chunk's own bytes. *)
Definition kv_header (logical_id txn : Z) (s : list Z) : list Z :=
  store (store (poke s 0 1) 1 (EncodeFixed64BE logical_id)) 9 (EncodeFixed64BE txn).

Definition _flush (m : MemSeries) (txn : Z) (db : S) : bool * MemSeries * S :=
  let key := encodeKey [] (ms_ref m) (ms_tuple_st_ m) in
  let value := kv_header (ms_logical_id m) (u64 txn) (stream (bstream (ms_chunk_ m))) in
  let '(s, db) := db_put db key value in
  (s, mkMemSeries (ms_ref m) (ms_logical_id m) INT64_MAX INT64_MIN (ms_global_max_time_ m) 0 (ms_tuple_st_ m)
        new_chunk (appender new_chunk) key (ms_time_boundary_ m), db).

(** [appender->append], and the sample counted *)
Definition count_sample (m : MemSeries) (timestamp value : Z) : MemSeries :=
  let '(c, a) :=
    match ms_appender_ m with
    | Some (AppenderOf a) =>
      let '(b, a) := append (bstream (ms_chunk_ m)) a timestamp value in
      (mkXORChunk b (read_mode (ms_chunk_ m)) (size_ (ms_chunk_ m)), Some (AppenderOf a))
    | a => (ms_chunk_ m, a)
    end in
  let n := ms_num_samples_ m + 1 in
  mkMemSeries (ms_ref m) (ms_logical_id m) (ms_min_time_ m) timestamp (ms_global_max_time_ m) n
    (if n =? 1 then timestamp else ms_tuple_st_ m) c a (ms_key_ m) (ms_time_boundary_ m).

Definition partition_of (timestamp : Z) : Z := Z.quot timestamp PARTITION_LENGTH * PARTITION_LENGTH.

(** The first lines of [append]. *)
Definition note_time (m : MemSeries) (timestamp : Z) : MemSeries :=
  mkMemSeries (ms_ref m) (ms_logical_id m)
    (if ms_min_time_ m =? INT64_MAX then timestamp else ms_min_time_ m) (ms_max_time_ m)
    (if ms_global_max_time_ m <? timestamp then timestamp else ms_global_max_time_ m)
    (ms_num_samples_ m) (ms_tuple_st_ m) (ms_chunk_ m) (ms_appender_ m) (ms_key_ m) (ms_time_boundary_ m).

Definition set_boundary (m : MemSeries) (b : Z) : MemSeries :=
  mkMemSeries (ms_ref m) (ms_logical_id m) (ms_min_time_ m) (ms_max_time_ m) (ms_global_max_time_ m)
    (ms_num_samples_ m) (ms_tuple_st_ m) (ms_chunk_ m) (ms_appender_ m) (ms_key_ m) b.

(** [if (c) { _flush(db, txn); flushed = true; }]: the status is dropped. *)
Definition flush_if (c flushed : bool) (m : MemSeries) (txn : Z) (db : S) : bool * MemSeries * S :=
  if c then let '(_, m, db) := _flush m txn db in (true, m, db) else (flushed, m, db).

(** [append(leveldb::DB*, ...)] *)
Definition db_append (m : MemSeries) (timestamp value txn : Z) (db : S) : bool * MemSeries * S :=
  let m := note_time m timestamp in
  let time_boundary := partition_of timestamp in
  let '(flushed, m, db) :=
    flush_if (negb (time_boundary =? ms_time_boundary_ m) && negb (ms_time_boundary_ m =? -1)
              && negb (ms_num_samples_ m =? 0)) false m txn db in
  let m := count_sample m timestamp value in
  let '(flushed, m, db) := flush_if (ms_num_samples_ m =? MEM_TUPLE_SIZE) flushed m txn db in
  (flushed, set_boundary m time_boundary, db).

(** Samples with their transaction numbers, one after the other. *)
Fixpoint db_appends (m : MemSeries) (l : list (Z * Z * Z)) (db : S) : MemSeries * S :=
  match l with
  | [] => (m, db)
  | (t, v, txn) :: l => let '(_, m, db) := db_append m t v txn db in db_appends m l db
  end.

Definition ms_head_samples (m : MemSeries) : list (Z * Z) :=
  (run (xor_iterator_of (bstream (ms_chunk_ m)) true)).1.

(** ** The chunk in memory *)

(** The chunk holds [samples], all of one partition and fewer than a tuple. *)
Record gathered (m : MemSeries) (samples : list (Z * Z)) : Prop := {
  ga_holds : exists a w, ms_appender_ m = Some (AppenderOf a) /\
    holds (bstream (ms_chunk_ m)) head_bytes samples a w;
  ga_num : ms_num_samples_ m = Z.of_nat (length samples);
  ga_few : Z.of_nat (length samples) < MEM_TUPLE_SIZE;
  ga_one : Forall (fun s => partition_of s.1 = ms_time_boundary_ m) samples;
  ga_long : samples <> [] -> 22 <= end_ (bstream (ms_chunk_ m)) }.

Lemma append_longer b a n body t v :
  chunk_at b head_bytes n body -> appender_ok a -> sample_ok (t, v) ->
  end_ b <= end_ (append b a t v).1 /\ (n = 0 -> 22 <= end_ (append b a t v).1).
Proof.
  intros Hc Ha Hs. destruct (append_spec b a head_bytes n body t v Hc Ha Hs) as [Hc' _].
  pose proof (chunk_at_end _ _ _ Hc) as H1. pose proof (chunk_at_end _ _ _ Hc') as H2.
  pose proof (sample_bits_some n a t v) as H3. rewrite length_app in H2.
  assert (H4 : n = 0 -> (72 <= length (sample_bits n a t v))%nat).
  { intros ->. unfold sample_bits. change (0 =? 0) with true. cbv iota.
    rewrite length_app, length_bytes_bits, length_bits_of. unfold encode_signed_varint.
    rewrite encode_unsigned_varint_varint by apply zigzag_u64. pose proof (length_varint (zigzag t) (zigzag_u64 t)). lia. }
  destruct H2 as [H2|[H2 _]]; [|apply app_eq_nil in H2 as [_ H2]; rewrite H2 in H3; simpl in H3; lia].
  split; [destruct H1 as [H1|[-> ->]]; simpl in *; lia|]. intros E. specialize (H4 E). lia.
Qed.

Lemma gathered_new m : ms_chunk_ m = new_chunk -> ms_appender_ m = appender new_chunk ->
  ms_num_samples_ m = 0 -> gathered m [].
Proof.
  intros E Ea En. split; [|done|done|done|done]. exists first_appender, (0, 0).
  rewrite Ea, E, new_chunk_appender. split; [done|]. by apply (fresh_holds 11).
Qed.

Lemma flush_gathered m txn db : gathered (_flush m txn db).1.2 [].
Proof. unfold _flush. destruct (db_put _ _ _). by apply gathered_new. Qed.

Lemma count_holds m samples t v a w :
  ms_appender_ m = Some (AppenderOf a) -> holds (bstream (ms_chunk_ m)) head_bytes samples a w ->
  ms_num_samples_ m = Z.of_nat (length samples) -> Z.of_nat (length samples) < MEM_TUPLE_SIZE ->
  (samples <> [] -> 22 <= end_ (bstream (ms_chunk_ m))) -> sample_ok (t, v) ->
  exists a' w', ms_appender_ (count_sample m t v) = Some (AppenderOf a') /\
    holds (bstream (ms_chunk_ (count_sample m t v))) head_bytes (samples ++ [(t, v)]) a' w' /\
    22 <= end_ (bstream (ms_chunk_ (count_sample m t v))) /\ ms_num_samples_ (count_sample m t v) = Z.of_nat (length (samples ++ [(t, v)])).
Proof.
  intros Ha Hh Hn Hl Hlong Hs. unfold MEM_TUPLE_SIZE in Hl. pose proof Hh as (body & Hc & _ & Hok & _).
  destruct (append_longer _ a _ body t v Hc Hok Hs) as [L1 L2]. pose proof (append_holds _ _ _ _ _ t v Hh Hs ltac:(lia)) as Hh'.
  unfold count_sample. rewrite Ha. destruct (append _ a t v) as [b' a'].
  exists a', (reader_window (Z.of_nat (length samples)) a w v). simpl in *.
  rewrite length_app, Hn. split; [done|]. split; [done|]. split; [|simpl; lia].
  destruct samples; [by apply L2|]. specialize (Hlong ltac:(done)). lia.
Qed.

Lemma partition_not_minus_one t : partition_of t <> -1.
Proof. unfold partition_of, PARTITION_LENGTH. lia. Qed.

Lemma flush_if_spec c flushed m txn db samples :
  gathered m samples -> (c = true -> samples <> []) ->
  exists handed kept, gathered (flush_if c flushed m txn db).1.2 kept /\ handed ++ kept = samples /\
    kept = (if c then [] else samples) /\ (c = false -> (flush_if c flushed m txn db).1.2 = m).
Proof.
  intros Hg Hne. unfold flush_if. destruct c.
  - exists samples, []. rewrite app_nil_r. pose proof (flush_gathered m txn db) as Hf.
    by destruct (_flush m txn db) as [[??]?].
  - by exists [], samples.
Qed.

(** A chunk of samples of earlier partitions is flushed before the new sample
    is added. *)
Lemma one_partition m samples t :
  gathered m samples ->
  negb (partition_of t =? ms_time_boundary_ m) && negb (ms_time_boundary_ m =? -1) && negb (ms_num_samples_ m =? 0) = false ->
  Forall (fun s => partition_of s.1 = partition_of t) samples.
Proof.
  intros [_ Hn _ Hone _] Hc. destruct samples as [|s0 samples]; [done|].
  assert (E : ms_time_boundary_ m = partition_of t); [|by rewrite E in Hone].
  rewrite Hn in Hc. simpl in Hc. rewrite andb_true_r in Hc.
  destruct (Z.eqb_spec (partition_of t) (ms_time_boundary_ m)) as [|_]; [done|].
  destruct (Z.eqb_spec (ms_time_boundary_ m) (-1)) as [E1|_]; [|done].
  apply Forall_cons_1 in Hone as [Hone _]. rewrite E1 in Hone. by apply partition_not_minus_one in Hone.
Qed.

Lemma db_append_spec m samples t v txn db :
  gathered m samples -> sample_ok (t, v) ->
  exists handed kept, gathered (db_append m t v txn db).1.2 kept /\ handed ++ kept = samples ++ [(t, v)].
Proof.
  intros Hg Hs. unfold db_append. cbv zeta. set (m0 := note_time m t).
  assert (Hg0 : gathered m0 samples) by (destruct Hg; by split).
  set (c := negb (partition_of t =? _) && _ && _).
  destruct (flush_if_spec c false m0 txn db samples Hg0) as (h1 & k1 & Hg1 & Hcat & Hk1 & Hsame).
  { intros Ec ->. subst c. rewrite (ga_num _ _ Hg0) in Ec. simpl in Ec. by rewrite andb_false_r in Ec. }
  assert (Hone : Forall (fun s => partition_of s.1 = partition_of t) k1).
  { subst k1. destruct c eqn:Ec; [done|]. by apply (one_partition m0). }
  destruct (flush_if c false m0 txn db) as [[fl m1] db1]. cbn [fst snd] in *.
  destruct Hg1 as [(a & w & Ha & Hh) Hn Hf _ Hlong].
  destruct (count_holds m1 k1 t v a w Ha Hh Hn Hf Hlong Hs) as (a' & w' & Ha' & Hh' & Hl' & Hn').
  set (m2 := count_sample m1 t v) in *. rewrite <- Hcat, <- app_assoc.
  unfold flush_if. destruct (Z.eqb_spec (ms_num_samples_ m2) MEM_TUPLE_SIZE) as [E|E].
  - exists (h1 ++ k1 ++ [(t, v)]), []. rewrite app_nil_r. split; [|done].
    pose proof (flush_gathered m2 txn db1) as Hf2. destruct (_flush m2 txn db1) as [[s m3] db2].
    destruct Hf2 as [Hx1 Hx2 Hx3 _ _]. by split.
  - exists h1, (k1 ++ [(t, v)]). split; [|done]. cbn [fst snd]. split; simpl.
    + by exists a', w'.
    + done.
    + rewrite Hn' in E. rewrite length_app in *. simpl in *. lia.
    + apply Forall_app. split; [done|]. by constructor.
    + done.
Qed.

Lemma db_appends_gathered l : forall m db samples,
  gathered m samples -> Forall (fun s => sample_ok s.1) l ->
  exists handed kept, gathered (db_appends m l db).1 kept /\ handed ++ kept = samples ++ l.*1.
Proof.
  induction l as [|[[t v] txn] l IH]; intros m db samples Hg Hl.
  - exists [], samples. by rewrite app_nil_r.
  - apply Forall_cons_1 in Hl as [Hs Hl]. cbn [db_appends].
    destruct (db_append_spec m samples t v txn db Hg Hs) as (h1 & k1 & Hg1 & E1).
    destruct (db_append m t v txn db) as [[fl m1] db1]. destruct (IH m1 db1 k1 Hg1 Hl) as (h2 & k2 & Hg2 & E2).
    exists (h1 ++ h2), k2. split; [done|]. rewrite <- app_assoc, E2, app_assoc, E1, <- app_assoc. done.
Qed.

Lemma gathered_samples m samples : gathered m samples -> ms_head_samples m = samples.
Proof. intros [(a & w & _ & Hh) _ _ _ _]. by apply (holds_run _ _ _ _ _ true Hh). Qed.

(** After any samples the chunk of a [MemSeries] holds the last of them,
    fewer than [MEM_TUPLE_SIZE], all of the partition of the last one, and
    [num_samples_] counts them. *)
Theorem mem_series_partitions id logical junk l db :
  Forall (fun s => sample_ok s.1) l ->
  let m := (db_appends (mem_series id logical junk) l db).1 in
  exists handed, handed ++ ms_head_samples m = l.*1 /\
    ms_num_samples_ m = Z.of_nat (length (ms_head_samples m)) /\ ms_num_samples_ m < MEM_TUPLE_SIZE /\
    Forall (fun s => partition_of s.1 = ms_time_boundary_ m) (ms_head_samples m).
Proof.
  intros Hl m. destruct (db_appends_gathered l (mem_series id logical junk) db []) as (handed & kept & Hg & E);
    [by apply gathered_new|done|]. exists handed. fold m in Hg. rewrite (gathered_samples _ _ Hg).
  destruct Hg as [_ Hn Hf Hone _]. rewrite Hn. done.
Qed.

(** ** What reaches the store *)

Definition kv_head (logical_id txn : Z) : list Z := 1 :: be_bytes 8 logical_id ++ be_bytes 8 txn.

Lemma kv_header_spec logical_id txn h rest :
  length h = 17%nat -> kv_header logical_id txn (h ++ rest) = kv_head logical_id txn ++ rest.
Proof.
  intros Hl. unfold kv_header, kv_head. rewrite !EncodeFixed64BE_be.
  do 17 (destruct h as [|? h]; [done|]). destruct h; [|done]. unfold store.
  rewrite !length_be_bytes. change (Z.to_nat 1) with 1%nat. change (Z.to_nat 9) with 9%nat.
  pose proof (length_be_bytes 8 logical_id) as H2.
  destruct (be_bytes 8 logical_id) as [|? [|? [|? [|? [|? [|? [|? [|? [|]]]]]]]]]; done.
Qed.

(** [MemSeries::_flush] destroys the chunk it stores.  The chunk is built
    with 11 bytes in front, the header written over it has 17: what reaches the
    store is the header and the chunk without its sample count and the first
    four bytes of its samples, whatever they were. *)
Theorem flush_overwrites_chunk id logical junk l db txn db' :
  Forall (fun s => sample_ok s.1) l ->
  let m := (db_appends (mem_series id logical junk) l db).1 in
  ms_head_samples m <> [] ->
  exists s, stream (bstream (ms_chunk_ m)) = head_bytes ++ be_bytes 2 (Z.of_nat (length (ms_head_samples m))) ++ s /\
    (_flush m txn db').2 =
      (db_put db' (encodeKey [] (ms_ref m) (ms_tuple_st_ m)) (kv_head (ms_logical_id m) (u64 txn) ++ drop 4 s)).2.
Proof.
  intros Hl m Hne. destruct (db_appends_gathered l (mem_series id logical junk) db []) as (handed & kept & Hg & _);
    [by apply gathered_new|done|]. fold m in Hg. rewrite (gathered_samples _ _ Hg) in *.
  destruct Hg as [(a & w & _ & Hh) _ _ _ Hlong]. specialize (Hlong Hne). destruct Hh as (body & Hc & _).
  pose proof Hc as [(_ & _ & He & _) _]. destruct (chunk_at_mem _ _ _ _ Hc) as (s & pad & _ & _ & _ & Hs).
  exists s. split; [done|]. rewrite He, Hs in Hlong. unfold size_of in Hlong.
  rewrite !length_app, length_be_bytes in Hlong. change (length head_bytes) with 11%nat in Hlong.
  unfold _flush. cbv zeta. rewrite Hs.
  replace (head_bytes ++ be_bytes 2 (Z.of_nat (length kept)) ++ s)
    with ((head_bytes ++ be_bytes 2 (Z.of_nat (length kept)) ++ take 4 s) ++ drop 4 s)
    by (by rewrite <- !app_assoc, take_drop).
  rewrite kv_header_spec; [by destruct (db_put _ _ _)|].
  rewrite !length_app, length_be_bytes, length_take. change (length head_bytes) with 11%nat. lia.
Qed.

End MemSeries.

(** ** Witnesses *)

Section Witnesses.
#[local] Instance mms_past_end : PastEnd := fun _ => 0.
#[local] Instance mms_store : KVStore (list (list Z * list Z)) := fun l k v => (true, l ++ [(k, v)]).

(** Three samples, the last two in the second partition. *)
Definition demo_ticks : list (Z * Z * Z) := [(1000, 5, 1); (7200000, 6, 2); (7201000, 9, 3)].

Lemma demo_ticks_ok : Forall (fun s => sample_ok s.1) demo_ticks.
Proof. repeat (constructor; [vm_compute; repeat split; congruence|]). constructor. Qed.

Lemma mem_series_partitions_witness :
  let m := (db_appends (S := list (list Z * list Z)) (mem_series 7 0 0) demo_ticks []).1 in
  ms_num_samples_ m = 2 /\
  exists handed, handed ++ ms_head_samples m = demo_ticks.*1 /\
    ms_num_samples_ m = Z.of_nat (length (ms_head_samples m)) /\ ms_num_samples_ m < MEM_TUPLE_SIZE /\
    Forall (fun s => partition_of s.1 = ms_time_boundary_ m) (ms_head_samples m).
Proof.
  split; [vm_compute; reflexivity|].
  exact (mem_series_partitions (S := list (list Z * list Z)) 7 0 0 demo_ticks [] demo_ticks_ok).
Defined.

Lemma flush_overwrites_chunk_witness :
  let m := (db_appends (S := list (list Z * list Z)) (mem_series 7 0 0) demo_ticks []).1 in
  exists s, stream (bstream (ms_chunk_ m)) = head_bytes ++ be_bytes 2 (Z.of_nat (length (ms_head_samples m))) ++ s /\
    (_flush m 3 []).2 =
      (db_put [] (encodeKey [] (ms_ref m) (ms_tuple_st_ m)) (kv_head (ms_logical_id m) (u64 3) ++ drop 4 s)).2.
Proof.
  refine (flush_overwrites_chunk (S := list (list Z * list Z)) 7 0 0 demo_ticks [] 3 [] demo_ticks_ok _).
  intros E. vm_compute in E. discriminate E.
Defined.

End Witnesses.
