(* ===== verification/ParallelWal.v ===== *)
(** parallel_wal/parallel_wal.h and parallel_wal/parallel_wal.cpp: the log of
    the tree head.

    Appending threads push series or samples into a queue; one background
    thread takes them out, gathers up to [ITEM_NUM] of them and writes them as
    one record, starting a new file when the current one is large.  The
    interleaving of the two is the step relation [WalStep]; [Flush] is the loop
    that empties the queue when the database is closed.

    A [Wal] is the same for both kinds of item; [LogItem] is what it needs of
    one.  [wal_logs_in_order] says that in every reachable state the records in
    the files, what is gathered and what is queued are together the items
    appended, in order. *)
From Stdlib Require Import ZArith Lia Bool.
From stdpp Require Import base list numbers option relations.
From S2P Require Import Prelude Endian Coding Label Crc32c WalLog WalRecords Gorilla.

Definition ITEM_NUM : Z := 256.
Definition MAX_LOG_SIZE : Z := 64 * 1024 * 1024.
Definition QUEUE_SIZE : Z := 1024.

(** What the log does with an item: the record of a batch, and what is done to
    the head [H] once an item is logged. *)
Class LogItem (A H : Type) := {
  encode_items : list A -> list Z;
  tag_log_ : bool;
  on_logged : H -> A -> H }.

(** A new, empty file of the log directory. *)
Class FreshFile (F : Type) := fresh_file : F.

(** ** A log *)

(** [wal_logs] are the files written before, the oldest first; [wal_items] the
    used part of [samples_] or [series_]; [wal_queue] the items pushed and not
    popped. *)
Record Wal (F A : Type) := mkWal {
  wal_logs : list F;
  cur_log_seq_ : Z;
  log_writer_ : Writer F;
  active_samples_logs_ : Z;
  wal_items : list A;
  wal_queue : list A }.
Arguments mkWal {F A} _ _ _ _ _ _.
Arguments wal_logs {F A} _.
Arguments cur_log_seq_ {F A} _.
Arguments log_writer_ {F A} _.
Arguments active_samples_logs_ {F A} _.
Arguments wal_items {F A} _.
Arguments wal_queue {F A} _.

Section Wal.
Context `{PE : PastEnd} `{AC : Accelerated} `{PL : Placement} `{WF : WritableFile F} `{FF : !FreshFile F} `{LI : LogItem A Hd}.
Implicit Types (w : Wal F A) (h : Hd).

(** The constructor on an empty directory; [junk] is what
    [active_samples_logs_] holds, which it does not set. *)
Definition new_wal (junk : Z) : Wal F A := mkWal [] 0 (writer fresh_file) junk [] [].

(** [push] of the bounded queue waits while it is full. *)
Definition Append (x : A) w : option (Wal F A) :=
  if Z.of_nat (length (wal_queue w)) <? QUEUE_SIZE then
    Some (mkWal (wal_logs w) (cur_log_seq_ w) (log_writer_ w) (active_samples_logs_ w) (wal_items w) (wal_queue w ++ [x]))
  else None.

Definition TryExtendLog w : Wal F A :=
  if MAX_LOG_SIZE <? write_off (log_writer_ w) then
    mkWal (wal_logs w ++ [dest_ (log_writer_ w)]) (cur_log_seq_ w + 1) (writer fresh_file)
      (if tag_log_ then active_samples_logs_ w else active_samples_logs_ w + 1) (wal_items w) (wal_queue w)
  else w.

(** [series_queue_.try_pop(series_[cur_item_num_])], [cur_item_num_++] *)
Definition try_pop w : option (Wal F A) :=
  match wal_queue w with
  | [] => None
  | x :: q => Some (mkWal (wal_logs w) (cur_log_seq_ w) (log_writer_ w) (active_samples_logs_ w) (wal_items w ++ [x]) q)
  end.

(** The record of the gathered items; the status of [AddRecord] is dropped.
    [None]: [AddRecord] does not return. *)
Definition write_record w : option (Wal F A) :=
  '(_, lw) ← AddRecord (encode_items (wal_items w)) (log_writer_ w);
  let w := TryExtendLog (mkWal (wal_logs w) (cur_log_seq_ w) lw (active_samples_logs_ w) (wal_items w) (wal_queue w)) in
  Some (mkWal (wal_logs w) (cur_log_seq_ w) (log_writer_ w) (active_samples_logs_ w) [] (wal_queue w)).

Definition record_due w : bool :=
  (ITEM_NUM <=? Z.of_nat (length (wal_items w))) || (length (wal_queue w) =? 0)%nat.

(** What follows a pop in [WriteToDiskBG]. *)
Definition bg_check w h : option (Wal F A * Hd) :=
  if record_due w then w' ← write_record w; Some (w', foldl on_logged h (wal_items w)) else Some (w, h).

(** The loop of [Flush] with nobody pushing. *)
Fixpoint flush_loop (rounds : nat) w : option (Wal F A) :=
  match try_pop w with
  | None => Some w
  | Some w =>
    match rounds with
    | O => None
    | S rounds => w ← (if record_due w then write_record w else Some w); flush_loop rounds w
    end
  end.

(** [Flush]; flushing the file itself leaves its contents as they are. *)
Definition Flush w : option (Wal F A) :=
  w ← flush_loop (length (wal_queue w)) w;
  match wal_items w with [] => Some w | _ => write_record w end.

(** The appending threads and the background thread; [busy] when the latter
    has popped an item and not yet looked at the count. *)
Record WalState := mkWalState { wal : Wal F A; head_ : Hd; busy : bool }.

Inductive WalStep : WalState -> option A -> WalState -> Prop :=
  | step_append w h b x w' :
      Append x w = Some w' -> WalStep (mkWalState w h b) (Some x) (mkWalState w' h b)
  | step_pop w h w' :
      try_pop w = Some w' -> WalStep (mkWalState w h false) None (mkWalState w' h true)
  | step_check w h w' h' :
      bg_check w h = Some (w', h') -> WalStep (mkWalState w h true) None (mkWalState w' h' false).

(** A run, with the items appended in it. *)
Inductive WalRun (s : WalState) : list A -> WalState -> Prop :=
  | run_refl : WalRun s [] s
  | run_step l s1 e s2 : WalRun s l s1 -> WalStep s1 e s2 -> WalRun s (l ++ option_list e) s2.

End Wal.
Arguments WalState : clear implicits.

(** ** The steps as a function *)

Section Schedule.
Context `{PE : PastEnd} `{AC : Accelerated} `{PL : Placement} `{WF : WritableFile F} `{FF : !FreshFile F} `{LI : LogItem A Hd}.

(** [Some x]: a thread appends [x]; [None]: the background thread goes on. *)
Definition wal_step (s : WalState F A Hd) (e : option A) : option (WalState F A Hd) :=
  match e, busy s with
  | Some x, _ => w ← Append x (wal s); Some (mkWalState w (head_ s) (busy s))
  | None, false => w ← try_pop (wal s); Some (mkWalState w (head_ s) true)
  | None, true => '(w, h) ← bg_check (wal s) (head_ s); Some (mkWalState w h false)
  end.

Lemma wal_step_spec s e s' : wal_step s e = Some s' <-> WalStep s e s'.
Proof.
  split.
  - destruct s as [w h b]. intros E. destruct e as [x|]; simpl in E.
    + destruct (Append x w) eqn:Ea; simplify_eq/=. by constructor.
    + destruct b.
      * destruct (bg_check w h) as [[w' h']|] eqn:Ea; simplify_eq/=. by constructor.
      * destruct (try_pop w) eqn:Ea; simplify_eq/=. by constructor.
  - intros Hs. destruct Hs as [w h b x w' E|w h w' E|w h w' h' E]; unfold wal_step; simpl; by rewrite E.
Qed.

Fixpoint schedule (s : WalState F A Hd) (moves : list (option A)) : option (WalState F A Hd) :=
  match moves with
  | [] => Some s
  | e :: moves => s ← wal_step s e; schedule s moves
  end.

Lemma schedule_run s0 l s moves s' :
  WalRun s0 l s -> schedule s moves = Some s' -> WalRun s0 (l ++ (moves ≫= option_list)) s'.
Proof.
  revert l s. induction moves as [|e moves IH]; intros l s Hr E; simpl in *.
  - injection E as <-. by rewrite app_nil_r.
  - destruct (wal_step s e) as [s1|] eqn:E1; simplify_eq/=. rewrite app_assoc. apply (IH _ s1); [|done].
    eapply run_step; [done|]. by apply wal_step_spec.
Qed.

End Schedule.

(** ** Series and samples *)

(** What the log writer needs of the head: counting a logged sample of a
    series ([++ms->flushed_txn_], when the series exists). *)
Class LoggedHead (H : Type) := note_logged : H -> Z -> Z -> H.

#[export] Instance series_item {H} : LogItem TreeRefSeries H := {
  encode_items l := treeSeries l [];
  tag_log_ := true;
  on_logged h _ := h }.

#[export] Instance sample_item {H} `{LoggedHead H} : LogItem TreeRefSample H := {
  encode_items l := treeSamplesGorilla l [];
  tag_log_ := false;
  on_logged h s := note_logged h (sgid s) (mid s) }.

(** ** The management *)

Record PWalManagement (F : Type) := mkPWal {
  tag_wal_ : Wal F TreeRefSeries;
  sample_wal_ : list (Wal F TreeRefSample) }.
Arguments mkPWal {F}. Arguments tag_wal_ {F}. Arguments sample_wal_ {F}.

Section Management.
Context `{PE : PastEnd} `{AC : Accelerated} `{PL : Placement} `{WF : WritableFile F} `{FF : !FreshFile F} `{LH : LoggedHead Hd}.

Definition pwal (junk : Z) (wal_num : nat) : PWalManagement F :=
  mkPWal (new_wal junk) (replicate wal_num (new_wal junk)).

Definition wal_of (p : PWalManagement F) (m : Z) : nat := Z.to_nat (m mod Z.of_nat (length (sample_wal_ p))).

(** [None]: the queue is full and the caller waits. *)
Definition AppendSample (s : TreeRefSample) (p : PWalManagement F) : option (PWalManagement F) :=
  w ← sample_wal_ p !! wal_of p (mid s);
  w ← Append s w;
  Some (mkPWal (tag_wal_ p) (<[wal_of p (mid s) := w]> (sample_wal_ p))).

Definition AppendSeries (s : TreeRefSeries) (p : PWalManagement F) : option (PWalManagement F) :=
  w ← Append s (tag_wal_ p); Some (mkPWal w (sample_wal_ p)).

Definition FlushTagLog (p : PWalManagement F) : option (PWalManagement F) :=
  w ← Flush (Hd := Hd) (tag_wal_ p); Some (mkPWal w (sample_wal_ p)).

Definition FlushSampleLog (seq : nat) (p : PWalManagement F) : option (PWalManagement F) :=
  w ← sample_wal_ p !! seq;
  w ← Flush (Hd := Hd) w;
  Some (mkPWal (tag_wal_ p) (<[seq := w]> (sample_wal_ p))).

Definition FlushAll (p : PWalManagement F) : option (PWalManagement F) :=
  p ← FlushTagLog p;
  foldl (fun op seq => p ← op; FlushSampleLog seq p) (Some p) (seq 0 (length (sample_wal_ p))).

End Management.

(** ** What an item promises *)

(** [item_ok]: the item is representable.  A record of the batch [l] reads back
    as [as_read l], item by item, of which at least what [kept_item] says is the
    item that was logged; where the batch is a [run_ok] one it is [reloaded]
    of each item. *)
Class LogItemSpec (A H : Type) `{LogItem A H} := {
  decode_items : list Z -> option (list A);
  item_ok : A -> Prop;
  as_read : list A -> list A;
  kept_item : A -> A -> Prop;
  reloaded : A -> A;
  run_ok : list A -> Prop;
  run_ok_app l k : run_ok (l ++ k) -> run_ok l /\ run_ok k;
  encode_bytes l : Z.of_nat (length l) <= ITEM_NUM -> Forall item_ok l -> bytes_ok (encode_items l);
  decode_encode l : l <> [] -> Z.of_nat (length l) <= ITEM_NUM -> Forall item_ok l ->
    decode_items (encode_items l) = Some (as_read l);
  as_read_kept l : Forall item_ok l -> Forall2 kept_item (as_read l) l;
  as_read_run l : Forall item_ok l -> run_ok l -> as_read l = reloaded <$> l }.

Class FreshSpec (F : Type) `{ReliableFile F} `{!FreshFile F} : Prop := fresh_empty : contents fresh_file = [].

Section Invariant.
Context `{PE : PastEnd} `{AC : Accelerated} `{AS : !AcceleratedSpec} `{PL : Placement} `{PS : !PlacementSpec}.
Context `{WF : WritableFile F} `{RF : !ReliableFile F} `{FF : !FreshFile F} `{FS : !FreshSpec F}.
Context `{LI : LogItem A Hd} `{LS : !LogItemSpec A Hd}.
Implicit Types (w : Wal F A) (h : Hd) (l : list A) (s : WalState F A Hd).

(** A file that holds the records of [batches]. *)
Definition holds_batches (f : F) (batches : list (list A)) : Prop :=
  exists ends o, Log 0 kBlockSize (map encode_items batches) (contents f) ends o.

(** The writer has written [batches] to its file and stands behind them. *)
Definition writing (lw : Writer F) (batches : list (list A)) : Prop :=
  exists ends o, Log 0 kBlockSize (map encode_items batches) (contents (dest_ lw)) ends o /\ stands_at lw o.

Definition batch_ok (b : list A) : Prop := b <> [] /\ Z.of_nat (length b) <= ITEM_NUM.

(** [done_] in the files before, [cur] in the current one. *)
Record logged_as w (done_ : list (list (list A))) (cur : list (list A)) l : Prop := {
  la_done : Forall2 holds_batches (wal_logs w) done_;
  la_cur : writing (log_writer_ w) cur;
  la_ok : Forall (Forall batch_ok) (done_ ++ [cur]);
  la_all : concat (concat (done_ ++ [cur])) ++ wal_items w ++ wal_queue w = l;
  la_items : Z.of_nat (length (wal_items w)) <= ITEM_NUM;
  la_queue : Z.of_nat (length (wal_queue w)) <= QUEUE_SIZE;
  la_seq : cur_log_seq_ w = Z.of_nat (length (wal_logs w)) }.

Lemma fresh_writing : writing (writer fresh_file) [].
Proof.
  exists [], kBlockSize. simpl. rewrite fresh_empty. split; [constructor|].
  split; [unfold kBlockSize; lia|]. split; [by right|]. simpl. by rewrite fresh_empty.
Qed.

Lemma writing_holds lw cur : writing lw cur -> holds_batches (dest_ lw) cur.
Proof. intros (ends & o & Hl & _). by exists ends, o. Qed.

Lemma writing_add lw cur b : writing lw cur ->
  exists lw', AddRecord (encode_items b) lw = Some (true, lw') /\ writing lw' (cur ++ [b]).
Proof.
  intros (ends & o & Hl & Hs). destruct (AddRecord_spec (encode_items b) lw o Hs) as (lw' & bytes & o' & E & Hf & Hc & Hs').
  rewrite <- (app_nil_r bytes) in Hc. exists lw'. split; [done|]. eexists _, o'. split; [|done]. rewrite fmap_app, Hc.
  eapply Log_app; [done|]. by eapply Log_cons; [|constructor].
Qed.

Lemma extend_logged w done_ cur l : logged_as w done_ cur l ->
  exists done_' cur', logged_as (TryExtendLog w) done_' cur' l /\ concat (done_' ++ [cur']) = concat (done_ ++ [cur]) /\
    wal_items (TryExtendLog w) = wal_items w /\ wal_queue (TryExtendLog w) = wal_queue w.
Proof.
  intros [H1 H2 H3 H4 H5 H6 H7]. unfold TryExtendLog. destruct (MAX_LOG_SIZE <? _); [|by exists done_, cur].
  exists (done_ ++ [cur]), []. assert (E : concat ((done_ ++ [cur]) ++ [[]]) = concat (done_ ++ [cur])).
  { by rewrite (concat_app (done_ ++ [cur])), app_nil_r. }
  split; [|done]. split; simpl; try done.
  - apply Forall2_app; [done|]. constructor; [by apply writing_holds|constructor].
  - apply fresh_writing.
  - apply Forall_app. split; [done|]. by repeat constructor.
  - by rewrite E.
  - rewrite length_app. simpl. lia.
Qed.

(** A record moves what is gathered into the files. *)
Lemma write_record_logged w done_ cur l :
  logged_as w done_ cur l -> wal_items w <> [] ->
  exists w' done_' cur', write_record w = Some w' /\ logged_as w' done_' cur' l /\ wal_items w' = [] /\
    wal_queue w' = wal_queue w /\ concat (done_' ++ [cur']) = concat (done_ ++ [cur]) ++ [wal_items w].
Proof.
  intros [H1 H2 H3 H4 H5 H6 H7] Hne. destruct (writing_add _ _ (wal_items w) H2) as (lw & E & Hlw).
  set (w1 := mkWal (wal_logs w) (cur_log_seq_ w) lw (active_samples_logs_ w) [] (wal_queue w)).
  assert (Hc : concat (done_ ++ [cur ++ [wal_items w]]) = concat (done_ ++ [cur]) ++ [wal_items w]).
  { rewrite !concat_app. simpl. by rewrite !app_nil_r, app_assoc. }
  assert (Hl : logged_as w1 done_ (cur ++ [wal_items w]) l).
  { split; simpl; try done.
    - apply Forall_app in H3 as [H3 H3']. apply Forall_cons_1 in H3' as [H3' _]. apply Forall_app. split; [done|].
      constructor; [|constructor]. apply Forall_app. split; [done|]. constructor; [by split|constructor].
    - rewrite Hc, concat_app, <- app_assoc. simpl. by rewrite app_nil_r. }
  destruct (extend_logged _ _ _ _ Hl) as (d' & c' & Hl' & Ec & Ei & Eq).
  exists (TryExtendLog w1), d', c'. unfold write_record. rewrite E. cbn [mbind option_bind]. split.
  - f_equal. unfold TryExtendLog, w1. simpl. by destruct (MAX_LOG_SIZE <? _).
  - split; [done|]. split; [done|]. split; [done|]. congruence.
Qed.

(** ** Steps *)

(** [busy] while an item is gathered and not looked at; at rest nothing is
    gathered unless more is queued. *)
Record wal_inv (h0 : Hd) s l : Prop := {
  wi_logged : exists done_ cur, logged_as (wal s) done_ cur l /\
    head_ s = foldl on_logged h0 (concat (concat (done_ ++ [cur])));
  wi_busy : busy s = true -> wal_items (wal s) <> [];
  wi_room : busy s = false -> Z.of_nat (length (wal_items (wal s))) < ITEM_NUM;
  wi_rest : busy s = false -> wal_queue (wal s) = [] -> wal_items (wal s) = [] }.

Lemma inv_new junk h0 : wal_inv h0 (mkWalState (new_wal junk) h0 false) [].
Proof.
  split; [|done|done|done]. exists [], []. split; [|done]. split; simpl; try done; [apply fresh_writing|by repeat constructor].
Qed.

Lemma inv_append h0 w h b x w' l :
  wal_inv h0 (mkWalState w h b) l -> Append x w = Some w' -> wal_inv h0 (mkWalState w' h b) (l ++ [x]).
Proof.
  intros [(d & c & [H1 H2 H3 H4 H5 H6 H7] & Hh) Hb Hr Hq]. unfold Append.
  destruct (Z.ltb_spec (Z.of_nat (length (wal_queue w))) QUEUE_SIZE) as [Hlt|]; [|done]. intros [= <-].
  split; simpl in *; try done.
  - exists d, c. split; [|done]. split; simpl; try done; [|rewrite length_app; simpl; lia].
    by rewrite <- H4, <- !app_assoc.
  - intros _ E%app_nil. by destruct E.
Qed.

Lemma inv_pop h0 w h w' l :
  wal_inv h0 (mkWalState w h false) l -> try_pop w = Some w' -> wal_inv h0 (mkWalState w' h true) l.
Proof.
  intros [(d & c & [H1 H2 H3 H4 H5 H6 H7] & Hh) Hb Hr Hq]. unfold try_pop. simpl in *. specialize (Hr eq_refl).
  destruct (wal_queue w) as [|x q] eqn:Eq; [done|]. intros [= <-]. split; simpl; try done.
  - exists d, c. split; [|done]. split; simpl in *; try done.
    + by rewrite <- H4, <- !app_assoc.
    + rewrite length_app. simpl. lia.
    + lia.
  - intros _ E%app_nil. by destruct E.
Qed.

Lemma inv_check h0 w h l :
  wal_inv h0 (mkWalState w h true) l ->
  exists w' h', bg_check w h = Some (w', h') /\ wal_inv h0 (mkWalState w' h' false) l /\ wal_queue w' = wal_queue w.
Proof.
  intros [(d & c & Hl & Hh) Hb _ _]. simpl in *. specialize (Hb eq_refl). unfold bg_check.
  destruct (record_due w) eqn:Ed.
  - destruct (write_record_logged _ _ _ _ Hl Hb) as (w' & d' & c' & -> & Hl' & Ei & Eq & Ec). cbn [mbind option_bind].
    eexists w', _. split; [done|]. split; [|done]. split; simpl; try done.
    + exists d', c'. split; [done|]. rewrite Ec, concat_app, foldl_app, <- Hh. simpl. by rewrite app_nil_r.
    + by rewrite Ei.
  - exists w, h. split; [done|]. split; [|done]. unfold record_due in Ed. apply orb_false_iff in Ed as [E1%Z.leb_gt E2%Nat.eqb_neq].
    split; simpl; try done; [by exists d, c|]. intros _ E. by rewrite E in E2.
Qed.

Lemma inv_run junk h0 l s : WalRun (mkWalState (new_wal junk) h0 false) l s -> wal_inv h0 s l.
Proof.
  intros Hr. induction Hr as [|l s1 e s2 _ IH Hs]; [apply inv_new|]. destruct Hs as [w h b x w' E|w h w' E|w h w' h' E]; simpl.
  - by eapply inv_append.
  - rewrite app_nil_r. by eapply inv_pop.
  - rewrite app_nil_r. destruct (inv_check _ _ _ _ IH) as (w1 & h1 & E1 & Hi & _). congruence.
Qed.

(** ** Reading the files back *)

Context `{SF : SequentialFile G} `{WR : !WholeReads G}.

(** Reading [f] to its end returns records that decode to [read]. *)
Definition reads_back (f : F) (read : list (list A)) : Prop :=
  forall (g : G) reporter checksum, remaining g = contents f ->
    exists ds r, read_all (S (length read)) (reader g reporter checksum 0) = Some (ds, r) /\ reports r = [] /\
      mapM (M := option) decode_items ds = Some read.

(** The files read back as the batches logged: every item, in order, with what
    [kept_item] says of it, and exactly where the values are a [run_ok] run. *)
Definition reads_as (files : list F) (batches : list (list (list A))) : Prop :=
  Forall2 reads_back files (map (map as_read) batches) /\
  Forall2 kept_item (concat (concat (map (map as_read) batches))) (concat (concat batches)) /\
  (run_ok (concat (concat batches)) -> concat (concat (map (map as_read) batches)) = reloaded <$> concat (concat batches)).

Lemma run_ok_concat bs : run_ok (concat bs) -> Forall run_ok bs.
Proof.
  induction bs as [|b bs IH]; intros Hr; [constructor|]. simpl in Hr. apply run_ok_app in Hr as [H1 H2].
  constructor; [done|by apply IH].
Qed.

Lemma batches_kept bs : Forall (Forall item_ok) bs -> Forall2 kept_item (concat (map as_read bs)) (concat bs).
Proof. induction 1 as [|b bs Hb _ IH]; [constructor|]. simpl. apply Forall2_app; [by apply as_read_kept|done]. Qed.

Lemma batches_exact bs : Forall (Forall item_ok) bs -> Forall run_ok bs -> concat (map as_read bs) = reloaded <$> concat bs.
Proof.
  induction 1 as [|b bs Hb _ IH]; intros Hr; [done|]. apply Forall_cons_1 in Hr as [Hr Hrs]. simpl.
  by rewrite fmap_app, as_read_run, IH.
Qed.

Lemma concat_map2 {X Y} (f : X -> Y) (bss : list (list X)) : concat (map (map f) bss) = map f (concat bss).
Proof. symmetry. apply concat_map. Qed.

Lemma decode_batches bs : Forall batch_ok bs -> Forall (Forall item_ok) bs ->
  mapM (M := option) decode_items (map encode_items bs) = Some (map as_read bs).
Proof.
  intros Hb Hr. apply mapM_Some. induction Hr as [|b bs Hrb Hr IH]; [constructor|]. apply Forall_cons_1 in Hb as [[Hb1 Hb2] Hb].
  constructor; [by apply decode_encode|by apply IH].
Qed.

Lemma all_ends ds ends n :
  length ends = length ds -> Forall (fun e => e <= n) ends -> (filter (fun x : list Z * Z => x.2 <= n) (zip ds ends)).*1 = ds.
Proof.
  revert ends. induction ds as [|d ds IH]; intros [|e ends] Hl He; try done. apply Forall_cons_1 in He as [He Hes].
  simpl. rewrite filter_cons, decide_True by done. simpl. f_equal. apply IH; [by injection Hl|done].
Qed.

Lemma holds_reads f bs : holds_batches f bs -> Forall batch_ok bs -> Forall (Forall item_ok) bs -> reads_back f (map as_read bs).
Proof.
  intros (ends & o & Hl) Hb Hr g reporter checksum Hg. destruct (Log_ends _ _ _ _ _ _ Hl) as (H1 & H2 & _).
  set (n := Z.of_nat (length (contents f))).
  destruct (read_log 0 kBlockSize _ _ _ _ n Hl) with (r := reader g reporter checksum 0) as (r & E & Hrep).
  - assert (Hbr : Forall (fun b => batch_ok b /\ Forall item_ok b) bs) by (by apply Forall_and).
    apply Forall_fmap. eapply List.Forall_impl; [|exact Hbr]. intros b [[_ H3] H4]. by apply encode_bytes.
  - unfold n. lia.
  - unfold kBlockSize. lia.
  - rewrite Z.sub_0_r. unfold n. rewrite Nat2Z.id, firstn_all. split; simpl; try done. by left.
  - rewrite length_fmap, all_ends in E; [|done|].
    + eexists _, r. rewrite length_map. split; [done|]. split; [done|]. by apply decode_batches.
    + eapply List.Forall_impl; [|exact H2]. intros e. simpl. unfold n. lia.
Qed.

Definition wal_files w : list F := wal_logs w ++ [dest_ (log_writer_ w)].

Lemma logged_reads w d c l : logged_as w d c l -> Forall item_ok l -> reads_as (wal_files w) (d ++ [c]).
Proof.
  intros [H1 H2 H3 H4 _ _ _] Hr. rewrite <- H4 in Hr. apply Forall_app in Hr as [Hr _]. clear H4.
  apply Forall_concat in Hr. unfold reads_as. rewrite !concat_map2. split_and!; [|by apply batches_kept|].
  - assert (Hf : Forall2 holds_batches (wal_files w) (d ++ [c])).
    { apply Forall2_app; [done|]. constructor; [by apply writing_holds|constructor]. }
    apply (proj1 (Forall_concat _ _)) in Hr. clear H1 H2. induction Hf as [|f bs fs ds Hfb Hf IH]; [constructor|]. apply Forall_cons_1 in H3 as [Hb H3].
    apply Forall_cons_1 in Hr as [Hr Hr']. constructor; [by apply holds_reads|by apply IH].
  - intros Hrun%run_ok_concat. by apply batches_exact.
Qed.

(** C10.  The log of the tree head.  Whatever the appending threads and the
    background thread do, in whatever order, the files hold records of at most
    [ITEM_NUM] items each, and reading them in order gives the items logged;
    with what is gathered and what is queued they are the items appended, in
    order.  A series is read as it was; of a sample the ids, the time and the
    transaction number are, and its value is the one of [decoded_samples],
    which is the value logged only where each value equals the one before it or
    differs from it in the upper 32 bits (the 5 bits of log_writer.cc:453).
    The head has been told of the logged items, of each once and in order.
    The arrays [samples_] and [series_] are never written past their end. *)
Theorem wal_logs_in_order junk h0 l s :
  WalRun (mkWalState (new_wal junk) h0 false) l s -> Forall item_ok l ->
  exists batches : list (list (list A)),
    reads_as (wal_files (wal s)) batches /\
    Forall (Forall (fun b => 1 <= Z.of_nat (length b) <= ITEM_NUM)) batches /\
    concat (concat batches) ++ wal_items (wal s) ++ wal_queue (wal s) = l /\
    head_ s = foldl on_logged h0 (concat (concat batches)) /\
    (busy s = false -> Z.of_nat (length (wal_items (wal s))) < ITEM_NUM).
Proof.
  intros [(d & c & Hl & Hh) _ Hroom _]%inv_run Hr. exists (d ++ [c]). split; [by eapply logged_reads|].
  split; [|split; [by apply Hl|done]]. eapply List.Forall_impl; [|apply (la_ok _ _ _ _ Hl)]. intros bs Hbs.
  eapply List.Forall_impl; [|exact Hbs]. intros b [H1 H2]. simpl. destruct b; [done|]. simpl in *. lia.
Qed.

(** The background thread left alone. *)
Inductive BgRun s : WalState F A Hd -> Prop :=
  | bg_refl : BgRun s s
  | bg_step s1 s2 : WalStep s None s1 -> BgRun s1 s2 -> BgRun s s2.

Lemma drain h0 l n s : wal_inv h0 s l -> busy s = false -> length (wal_queue (wal s)) = n ->
  exists s', BgRun s s' /\ wal_inv h0 s' l /\ busy s' = false /\ wal_queue (wal s') = [].
Proof.
  revert s. induction n as [|n IH]; intros [w h b] Hi Hb Hn; simpl in Hb, Hn; subst b.
  { exists (mkWalState w h false). split; [constructor|]. split; [done|]. split; [done|]. by apply nil_length_inv. }
  destruct (wal_queue w) as [|x q] eqn:Eq; [done|].
  assert (Ep : try_pop w = Some (mkWal (wal_logs w) (cur_log_seq_ w) (log_writer_ w) (active_samples_logs_ w) (wal_items w ++ [x]) q))
    by (unfold try_pop; by rewrite Eq).
  destruct (inv_check _ _ _ _ (inv_pop _ _ _ _ _ Hi Ep)) as (w' & h' & Ec & Hi' & Eq').
  destruct (IH _ Hi' eq_refl) as (s' & Hs' & ?); [simpl; rewrite Eq'; simpl in *; lia|].
  exists s'. split; [|done]. econstructor; [by apply step_pop|]. econstructor; [by apply step_check|done].
Qed.

(** C34.  The background thread catches up.  From every state that can be
    reached it is able, on its own, to come to rest, and then the files hold
    all that was appended, to be read as in [reads_as] (series exactly; of a
    sample all but its value, and that where the values logged are a
    [samples_run]), nothing is gathered or queued, and the head has been told
    of every item. *)
Theorem wal_drains junk h0 l s :
  WalRun (mkWalState (new_wal junk) h0 false) l s -> Forall item_ok l ->
  exists s' batches, BgRun s s' /\ busy s' = false /\ wal_items (wal s') = [] /\ wal_queue (wal s') = [] /\
    reads_as (wal_files (wal s')) batches /\ concat (concat batches) = l /\ head_ s' = foldl on_logged h0 l.
Proof.
  intros Hi%inv_run Hr.
  assert (Hd' : exists s', BgRun s s' /\ wal_inv h0 s' l /\ busy s' = false /\ wal_queue (wal s') = []).
  { destruct s as [w h [|]]; [|by eapply drain]. destruct (inv_check _ _ _ _ Hi) as (w' & h' & E & Hi' & _).
    destruct (drain h0 l _ _ Hi' eq_refl eq_refl) as (s' & Hs' & ?). exists s'. split; [|done].
    econstructor; [by apply step_check|done]. }
  destruct Hd' as (s' & Hb & Hi' & Hbusy & Hq). pose proof (wi_rest _ _ _ Hi' Hbusy Hq) as Hit.
  destruct (wi_logged _ _ _ Hi') as (d & c & Hl & Hh). exists s', (d ++ [c]).
  pose proof (la_all _ _ _ _ Hl) as Ha. rewrite Hit, Hq, !app_nil_r in Ha. rewrite Ha in Hh.
  split_and!; try done. by eapply logged_reads.
Qed.

Lemma flush_loop_logged n w d c l :
  logged_as w d c l -> Z.of_nat (length (wal_items w)) < ITEM_NUM -> (length (wal_queue w) <= n)%nat ->
  exists w' d' c', flush_loop n w = Some w' /\ logged_as w' d' c' l /\ wal_queue w' = [].
Proof.
  revert w d c. induction n as [|n IH]; intros w d c Hl Hi Hn.
  { exists w, d, c. unfold flush_loop, try_pop. destruct (wal_queue w) eqn:E; [done|simpl in Hn; lia]. }
  cbn [flush_loop]. unfold try_pop at 1. destruct (wal_queue w) as [|x q] eqn:Eq; [by exists w, d, c|].
  set (w1 := mkWal _ _ _ _ _ q). assert (Hl1 : logged_as w1 d c l).
  { destruct Hl as [H1 H2 H3 H4 H5 H6 H7]. rewrite Eq in H4, H6. split; simpl in *; try done; [|rewrite length_app; simpl; lia|lia].
    by rewrite <- H4, <- !app_assoc. }
  destruct (record_due w1) eqn:Ed.
  - destruct (write_record_logged _ _ _ _ Hl1) as (w2 & d2 & c2 & -> & Hl2 & Ei & Eq2 & _); [by intros []%app_nil|].
    cbn [mbind option_bind]. apply (IH w2 d2 c2 Hl2); [by rewrite Ei|]. rewrite Eq2. simpl in *. lia.
  - cbn [mbind option_bind]. apply (IH w1 d c Hl1); [|simpl in *; lia]. unfold record_due in Ed.
    apply orb_false_iff in Ed as [E1%Z.leb_gt _]. done.
Qed.

(** What [Flush] leaves. *)
Lemma flush_logged junk h0 l s :
  WalRun (mkWalState (new_wal junk) h0 false) l s -> busy s = false ->
  exists w' d c, Flush (Hd := Hd) (wal s) = Some w' /\ logged_as w' d c l /\ wal_items w' = [] /\ wal_queue w' = [] /\
    concat (concat (d ++ [c])) = l.
Proof.
  intros [(d & c & Hl & _) _ Hroom _]%inv_run Hb.
  destruct (flush_loop_logged (length (wal_queue (wal s))) _ _ _ _ Hl (Hroom Hb)) as (w1 & d1 & c1 & E & Hl1 & Eq); [done|].
  assert (exists w' d' c', Flush (Hd := Hd) (wal s) = Some w' /\ logged_as w' d' c' l /\ wal_items w' = [] /\ wal_queue w' = [])
    as (w' & d' & c' & Ef & Hl' & Hi' & Hq').
  { unfold Flush. rewrite E. cbn [mbind option_bind]. destruct (wal_items w1) as [|x xs] eqn:Ei; [by exists w1, d1, c1|].
    destruct (write_record_logged _ _ _ _ Hl1) as (w2 & d2 & c2 & Ew & Hl2 & Ei2 & Eq2 & _); [by rewrite Ei|].
    exists w2, d2, c2. split; [done|]. split; [done|]. split; [done|]. by rewrite Eq2. }
  exists w', d', c'. pose proof (la_all _ _ _ _ Hl') as Ha. rewrite Hi', Hq', !app_nil_r in Ha. by split_and!.
Qed.

(** C35.  [Flush] on a log whose background thread is at rest ends, and leaves
    everything that was appended in the files and nothing outside them; it is
    read as in [reads_as] (series exactly; of a sample all but its value, and
    that where the values logged are a [samples_run]). *)
Theorem flush_logs_all junk h0 l s :
  WalRun (mkWalState (new_wal junk) h0 false) l s -> busy s = false -> Forall item_ok l ->
  exists w' batches, Flush (Hd := Hd) (wal s) = Some w' /\ wal_items w' = [] /\ wal_queue w' = [] /\
    reads_as (wal_files w') batches /\ concat (concat batches) = l.
Proof.
  intros Hr Hb Hok. destruct (flush_logged junk h0 l s Hr Hb) as (w' & d & c & E & Hl & Hi & Hq & Ha).
  exists w', (d ++ [c]). split_and!; try done. by eapply logged_reads.
Qed.

End Invariant.

(** ** Records are bytes *)

Definition writer_bytes (w : GorillaBitWriter) : Prop := bytes_ok (buf_ w) /\ is_byte (cur_byte_ w).

Lemma u8_byte z : is_byte (u8 z).
Proof. apply wrap_range. lia. Qed.

Lemma byte_0 : is_byte 0.
Proof. unfold is_u. lia. Qed.

Lemma snoc_bytes l b : bytes_ok l -> is_byte b -> bytes_ok (l ++ [b]).
Proof. intros Hl Hb. apply Forall_app. split; [done|]. apply Forall_cons_2; [done|apply Forall_nil_2]. Qed.

Lemma flush_bytes w : writer_bytes w -> writer_bytes (flushToByte w).
Proof.
  intros [H1 H2]. unfold flushToByte. destruct (0 <? _); [|done]. split; [|apply byte_0]. by apply snoc_bytes.
Qed.

Lemma append_bytes w b : writer_bytes w -> bytes_ok b -> writer_bytes (Gorilla.append (flushToByte w) b).
Proof. intros [H1 H2]%flush_bytes Hb. split; [|done]. simpl. by apply Forall_app. Qed.

Lemma bit_bytes w b : writer_bytes w -> writer_bytes (writeBit w b).
Proof.
  intros [H1 H2]. unfold writeBit.
  assert (Hc : is_byte (if b =? 0 then cur_byte_ w else u8 (Z.lor (cur_byte_ w) (Z.shiftl 1 (7 - bw_bit_pos_ w))))).
  { destruct (b =? 0); [done|apply u8_byte]. }
  cbv zeta. destruct (_ =? 8); split; simpl; first [done|apply byte_0|by apply snoc_bytes].
Qed.

Lemma bits_bytes n w v : writer_bytes w -> writer_bytes (writeBits w v n).
Proof. revert w. induction n as [|n IH]; intros w Hw; [done|]. apply IH. by apply bit_bytes. Qed.

Lemma field_bytes w same d : is_s64 d -> writer_bytes w -> writer_bytes (write_field w same d).
Proof.
  intros Hd Hw. unfold write_field. destruct same; [by apply bit_bytes|]. rewrite writeSignedVarint_zigzag.
  apply append_bytes; [by apply bit_bytes|]. apply varint_bytes_ok, zigzag_u64.
Qed.

Lemma value_bytes w k v : writer_bytes w -> writer_bytes (write_value w k v).1.1.
Proof.
  intros Hw. unfold write_value. cbv zeta. destruct (_ =? 0); [by apply bit_bytes|].
  destruct (_ && _); simpl; repeat first [apply bits_bytes|apply bit_bytes]; done.
Qed.

Lemma sample_bytes w k s : is_u 16 (mid s) -> is_u 16 (prev_mid k) -> writer_bytes w -> writer_bytes (write_sample w k s).1.
Proof.
  intros Hm Hk Hw. unfold write_sample. cbv zeta.
  assert (Hs : is_s64 (mid s - prev_mid k)) by (unfold is_u, is_s in *; lia).
  pose proof (field_bytes w (mid s =? prev_mid k) _ Hs Hw) as H1.
  pose proof (field_bytes _ (sgid s =? prev_sgid k) _ (swrap_s64 (s64 (sgid s) - s64 (prev_sgid k))) H1) as H2.
  pose proof (field_bytes _ (s64 (s64 (t_t s - prev_t k) - prev_t_delta k) =? 0) _ (swrap_s64 (s64 (t_t s - prev_t k) - prev_t_delta k)) H2) as H3.
  pose proof (value_bytes _ k (encode_double (t_v s)) H3) as H4. destruct (write_value _ _ _) as [[w' lz] tz]. simpl in *.
  apply field_bytes; [apply swrap_s64|done].
Qed.

Lemma samples_bytes l w k :
  Forall tree_sample_ok l -> is_u 16 (prev_mid k) -> writer_bytes w -> writer_bytes (write_samples w k l).
Proof.
  intros Hl. revert w k. induction Hl as [|s l (Hs & _) Hl IH]; intros w k Hk Hw; [done|]. cbn [write_samples].
  pose proof (sample_bytes w k s Hs Hk Hw) as H1. destruct (write_sample_track w k s) as (lz & tz & E).
  destruct (write_sample w k s) as [w1 k1]. simpl in *. apply IH; [|done]. by rewrite E.
Qed.

Lemma gorilla_bytes l : Forall tree_sample_ok l -> Z.of_nat (length l) < 2 ^ 32 -> bytes_ok (treeSamplesGorilla l []).
Proof.
  intros Hl Hn. destruct l as [|s0 rest]; [constructor|]. unfold treeSamplesGorilla. rewrite put_size by done.
  apply Forall_cons_1 in Hl as [Hs Hl]. apply flush_bytes, samples_bytes; [done|by apply Hs|]. unfold write_first, writeFixed64BE, writeFixed16.
  repeat (apply append_bytes; [|rewrite ?EncodeFixed64BE_be, ?EncodeFixed16_le; first [apply be_bytes_ok|apply le_bytes_ok]]).
  split; [|apply byte_0]. simpl. apply Forall_cons_2; [unfold is_u; vm_compute; done|]. apply varint_bytes_ok. simpl in Hn. lia.
Qed.

(** Labels whose strings are bytes. *)
Definition strings_bytes (ls : Labels) : Prop := Forall (fun l => bytes_ok (label l) /\ bytes_ok (value l)) ls.

Lemma string_bytes s : str_ok s -> bytes_ok s -> bytes_ok (string_rec s).
Proof. intros Hs Hb. apply Forall_app. split; [|done]. apply varint_bytes_ok. unfold str_ok in Hs. lia. Qed.

Lemma labels_bytes ls : labels_ok ls -> strings_bytes ls -> bytes_ok (labels_rec ls).
Proof.
  intros [Hn Hl] Hb. apply Forall_app. split; [apply varint_bytes_ok; lia|]. clear Hn.
  induction Hb as [|l ls [H1 H2] Hb IH]; [constructor|]. apply Forall_cons_1 in Hl as [[H3 H4] Hl]. simpl. apply Forall_app.
  split; [|by apply IH]. unfold label_rec. apply Forall_app. split; by apply string_bytes.
Qed.

Definition tree_series_bytes (r : TreeRefSeries) : Prop := tree_series_ok r /\ strings_bytes (labels_of (tr_lset r) (tr_lset_ptr r)).

Lemma series_bytes l : Forall tree_series_bytes l -> bytes_ok (treeSeries l []).
Proof.
  intros Hl. unfold treeSeries. rewrite (foldl_put _ tree_series_rec tree_series_ok).
  - apply Forall_cons_2; [unfold is_u; vm_compute; done|]. induction Hl as [|r l [Hr Hb] Hl IH]; [constructor|].
    change (bytes_ok (tree_series_rec r ++ (l ≫= tree_series_rec))). apply Forall_app. split; [|done]. unfold tree_series_rec. destruct Hr as (_ & _ & _ & _ & Hr).
    repeat (apply Forall_app; split; [first [apply le_bytes_ok|apply be_bytes_ok]|]). by apply labels_bytes.
  - intros. by apply put_tree_series_rec.
  - eapply List.Forall_impl; [|exact Hl]. by intros r [].
Qed.

(** ** Both logs keep their promise *)

Lemma read_treeSeries_back `{PastEnd} l : Forall tree_series_ok l -> read_treeSeries (treeSeries l []) = Some (Some (tree_loaded <$> l)).
Proof.
  intros Hl. unfold treeSeries, read_treeSeries. rewrite (foldl_put _ tree_series_rec tree_series_ok); [|intros; by apply put_tree_series_rec|done].
  simpl app. rewrite read_type. erewrite reads_all; [done| |].
  - eapply List.Forall_impl; [|exact Hl]. intros r Hr. split; [by apply reads_tree_series|apply tree_series_rec_nonempty].
  - apply length_bind_ge, Forall_true, tree_series_rec_nonempty.
Qed.

#[export] Instance series_item_spec {H} `{PastEnd} : LogItemSpec TreeRefSeries H.
Proof.
  refine {| decode_items d := mjoin (read_treeSeries d); item_ok := tree_series_bytes; as_read l := tree_loaded <$> l;
    kept_item x y := x = tree_loaded y; reloaded := tree_loaded; run_ok _ := True |}.
  - done.
  - intros l _. apply series_bytes.
  - intros l _ _ Hl. simpl encode_items. rewrite read_treeSeries_back; [done|].
    eapply List.Forall_impl; [|exact Hl]. by intros r [].
  - intros l _. apply Forall2_fmap_l, Forall_Forall2_diag. by apply Forall_true.
  - done.
Defined.

Lemma apart_split v l k : apart v (l ++ k) -> apart v l /\ samples_run k.
Proof.
  revert v. induction l as [|s l IH]; intros v Ha; simpl in *.
  - split; [done|]. destruct k; [done|]. by destruct Ha.
  - destruct Ha as [H1 H2]. destruct (IH _ H2). done.
Qed.

#[export] Instance sample_item_spec {H} `{LoggedHead H} `{PastEnd} : LogItemSpec TreeRefSample H.
Proof.
  refine {| decode_items := read_treeSamplesGorilla; item_ok := tree_sample_ok; as_read := decoded_samples;
    kept_item := same_but_value; reloaded s := s; run_ok := samples_run |}.
  - intros l k Ha. destruct l as [|s l]; simpl in *; [done|]. by apply apart_split.
  - intros l Hn Hl. apply gorilla_bytes; [done|]. unfold ITEM_NUM in Hn. lia.
  - intros l Hne Hn Hl. unfold ITEM_NUM in Hn. apply gorilla_decodes; [done|done|lia].
  - apply decoded_samples_same.
  - intros l Hl Hr. rewrite list_fmap_id. by apply decoded_samples_run.
Defined.

(** ** The management *)

Section ManagementProps.
Context `{PE : PastEnd} `{AC : Accelerated} `{PL : Placement} `{WF : WritableFile F} `{FF : !FreshFile F} `{LH : LoggedHead Hd}.
Implicit Type p : PWalManagement F.

(** All samples of a metric go through one log, and only there. *)
Lemma AppendSample_spec s p p' : AppendSample s p = Some p' ->
  exists w w', sample_wal_ p !! wal_of p (mid s) = Some w /\ Append s w = Some w' /\
    sample_wal_ p' !! wal_of p (mid s) = Some w' /\ tag_wal_ p' = tag_wal_ p /\
    length (sample_wal_ p') = length (sample_wal_ p) /\
    forall i, i <> wal_of p (mid s) -> sample_wal_ p' !! i = sample_wal_ p !! i.
Proof.
  unfold AppendSample. destruct (sample_wal_ p !! _) as [w|] eqn:Ew; [|done]. cbn [mbind option_bind].
  destruct (Append s w) as [w'|] eqn:Ea; [|done]. cbn [mbind option_bind]. intros [= <-]. exists w, w'. simpl.
  split_and!; try done; [|by rewrite length_insert|].
  - apply list_lookup_insert_eq. by eapply lookup_lt_Some.
  - intros i Hi. by rewrite list_lookup_insert_ne.
Qed.

Lemma flush_logs done_ todo todo' tw :
  Forall2 (fun w w' => Flush (Hd := Hd) w = Some w') todo todo' ->
  foldl (fun op seq => p ← op; FlushSampleLog (Hd := Hd) seq p) (Some (mkPWal tw (done_ ++ todo))) (seq (length done_) (length todo))
  = Some (mkPWal tw (done_ ++ todo')).
Proof.
  intros Hf. revert done_. induction Hf as [|w w' todo todo' E Hf IH]; intros done_; [done|]. simpl.
  unfold FlushSampleLog at 2. simpl. rewrite lookup_app_r, Nat.sub_diag by lia. simpl. rewrite E. simpl.
  rewrite insert_app_r_alt, Nat.sub_diag by lia. simpl.
  specialize (IH (done_ ++ [w'])). rewrite length_app in IH. simpl in IH. rewrite Nat.add_1_r, <- !app_assoc in IH. exact IH.
Qed.

(** [FlushAll] flushes every log. *)
Lemma FlushAll_spec p tw ws :
  Flush (Hd := Hd) (tag_wal_ p) = Some tw -> Forall2 (fun w w' => Flush (Hd := Hd) w = Some w') (sample_wal_ p) ws ->
  FlushAll (Hd := Hd) p = Some (mkPWal tw ws).
Proof.
  intros Ht Hs. unfold FlushAll, FlushTagLog. rewrite Ht. cbn [mbind option_bind]. apply (flush_logs [] (sample_wal_ p) ws tw Hs).
Qed.

End ManagementProps.

(** ** Witnesses *)

Section Witnesses.
#[local] Instance pw_past_end : PastEnd := fun _ => 0.
#[local] Instance pw_not_accelerated : Accelerated := fun _ _ => 0.
#[local] Instance pw_not_accelerated_spec : AcceleratedSpec.
Proof. by left. Defined.
#[local] Instance pw_placement : Placement := fun _ => 64.
#[local] Instance pw_placement_spec : PlacementSpec.
Proof. intros l Hl. unfold address, pw_placement. lia. Defined.
#[local] Instance pw_fresh : FreshFile (list Z) := [].
#[local] Instance pw_fresh_spec : FreshSpec (list Z).
Proof. reflexivity. Defined.
(** A head that counts. *)
#[local] Instance pw_head : LoggedHead Z := fun n _ _ => n + 1.

(** The last value differs from the one before in its lowest bit. *)
Definition pw_samples : list TreeRefSample :=
  [mkTreeRefSample 5 7 1000 (2 ^ 62) 0; mkTreeRefSample 5 7 2000 (2 ^ 62 + 2 ^ 50) 0; mkTreeRefSample 9 7 3000 (2 ^ 62 + 2 ^ 50 + 1) 0].

Lemma pw_samples_ok : Forall tree_sample_ok pw_samples.
Proof. do 3 (apply Forall_cons_2; [split_and!; simpl; unfold is_u, is_s; lia|]). apply Forall_nil_2. Qed.

Definition pw_start : WalState (list Z) TreeRefSample Z := mkWalState (new_wal 0) 0 false.

(** The third sample comes while the background thread is at work. *)
Definition pw_run (n : nat) : option (WalState (list Z) TreeRefSample Z) :=
  schedule pw_start ((Some <$> take 2 pw_samples) ++ [None] ++ (Some <$> drop 2 pw_samples) ++ replicate n None).

Lemma pw_run_runs n s : pw_run n = Some s -> WalRun (mkWalState (new_wal 0) 0 false) pw_samples s.
Proof.
  intros E%(schedule_run pw_start [] pw_start _ s (run_refl _)).
  assert (Er : replicate n (@None TreeRefSample) ≫= option_list = []) by (clear E; by induction n).
  rewrite !bind_app, Er in E. exact E.
Qed.

Lemma wal_logs_in_order_witness :
  match pw_run 5 with
  | Some s => head_ s = 3 /\ exists batches : list (list (list TreeRefSample)),
      reads_as (G := list Z) (wal_files (wal s)) batches /\
      Forall (Forall (fun b => 1 <= Z.of_nat (length b) <= ITEM_NUM)) batches /\
      concat (concat batches) ++ wal_items (wal s) ++ wal_queue (wal s) = pw_samples /\
      head_ s = foldl on_logged 0 (concat (concat batches)) /\
      (busy s = false -> Z.of_nat (length (wal_items (wal s))) < ITEM_NUM)
  | None => False
  end.
Proof.
  assert (Hc : match pw_run 5 with Some s => head_ s =? 3 | None => false end = true)
    by (vm_compute; reflexivity).
  destruct (pw_run 5) as [s|] eqn:E; [|discriminate Hc].
  split; [by apply Z.eqb_eq|].
  apply (wal_logs_in_order (F := list Z) (G := list Z) (A := TreeRefSample) 0 0 pw_samples s); [|exact pw_samples_ok].
  exact (pw_run_runs _ s E).
Defined.

Lemma wal_drains_witness :
  match pw_run 1 with
  | Some s => exists s' batches, BgRun s s' /\ busy s' = false /\ wal_items (wal s') = [] /\ wal_queue (wal s') = [] /\
      reads_as (G := list Z) (wal_files (wal s')) batches /\ concat (concat batches) = pw_samples /\
      head_ s' = foldl on_logged 0 pw_samples
  | None => False
  end.
Proof.
  assert (Hc : match pw_run 1 with Some s => negb (busy s) | None => false end = true) by (vm_compute; reflexivity).
  destruct (pw_run 1) as [s|] eqn:E; [|discriminate Hc].
  apply (wal_drains (F := list Z) (G := list Z) (A := TreeRefSample) 0 0 pw_samples s); [|exact pw_samples_ok].
  exact (pw_run_runs _ s E).
Defined.

Lemma flush_logs_all_witness :
  match pw_run 1 with
  | Some s => exists w' batches, Flush (Hd := Z) (wal s) = Some w' /\ wal_items w' = [] /\ wal_queue w' = [] /\
      reads_as (G := list Z) (wal_files w') batches /\ concat (concat batches) = pw_samples
  | None => False
  end.
Proof.
  assert (Hc : match pw_run 1 with Some s => negb (busy s) | None => false end = true) by (vm_compute; reflexivity).
  destruct (pw_run 1) as [s|] eqn:E; [|discriminate Hc].
  apply (flush_logs_all (F := list Z) (G := list Z) (A := TreeRefSample) (Hd := Z) 0 0 pw_samples s);
    [|by apply negb_true_iff|exact pw_samples_ok].
  exact (pw_run_runs _ s E).
Defined.

End Witnesses.
