(* ===== verification/HeadIndex.v ===== *)
(** head/TreeHead.h and head/TreeHead.cpp: the ids of sources and metrics, the
    pools of labels, the forward index from ids to series and its flat copy,
    and the arena the pools live in.

    The lock-free maps (third_party/thmap) are an interface, [Thmap], with the
    behaviour its manual documents ([ThmapLaws]); finite maps are an instance.
    Series objects live in [allocated_], in order of creation: a pointer is a
    position counted from 1, and 0 is the null pointer.  [None] is an access
    outside an array.  Every function here runs under the spin lock of its key
    or on one thread, so it is one step. *)
From Stdlib Require Import ZArith Lia Bool.
From stdpp Require Import base list numbers option gmap.
From S2P Require Import Prelude Endian Coding BitStream XORChunk Label MassTree SlabStore SlabFlush TreeMemSeries.

(** ** Interfaces *)

Class Thmap (K V M : Type) := {
  thmap_create : M;
  thmap_get : M -> K -> option V;
  thmap_put : M -> K -> V -> M;
  thmap_del : M -> K -> M }.

(** [thmap_put] leaves a key that is present as it is. *)
Class ThmapLaws (K V M : Type) `{Thmap K V M} `{EqDecision K} : Prop := {
  get_create k : thmap_get thmap_create k = None;
  get_put m k v k' : thmap_get (thmap_put m k v) k' =
    if decide (k' = k) then Some (default v (thmap_get m k)) else thmap_get m k';
  get_del m k k' : thmap_get (thmap_del m k) k' = if decide (k' = k) then None else thmap_get m k' }.

#[export] Instance gmap_thmap `{Countable K} {V} : Thmap K V (gmap K V) := {
  thmap_create := ∅;
  thmap_get m k := m !! k;
  thmap_put m k v := match m !! k with Some _ => m | None => <[k := v]> m end;
  thmap_del m k := delete k m }.

#[export] Instance gmap_thmap_laws `{Countable K} {V} : ThmapLaws K V (gmap K V).
Proof.
  split.
  - intros k. apply lookup_empty.
  - intros m k v k'. simpl. destruct (m !! k) as [x|] eqn:E; case_decide as Ek; subst; simpl; rewrite ?E; try done.
    + by rewrite lookup_insert_eq.
    + by rewrite lookup_insert_ne.
  - intros m k k'. simpl. case_decide as Ek; subst; [apply lookup_delete_eq|by apply lookup_delete_ne].
Qed.

(** The inverted index: [ThmapPostings::add(id, labels)]. *)
Class InvertedIndex (IV : Type) := inv_add : IV -> Z -> Labels -> IV.

Definition MAX_SOURCE_NUM : Z := 2 ^ 20.
Definition MAX_METRIC_NUM : Z := 512.

(** ** State *)

(** The members the functions below use.  [source_array_] is the set of ids
    that have a [MemSource]; the pools hold null or the labels of an id. *)
Record TreeHead (MI MF IV : Type) := mkTreeHead {
  last_source_group_id_ : Z;
  last_metric_id_ : Z;
  metric_thmap_ : MI;
  source_thmap_ : MI;
  inverted_index_ : IV;
  forward_index_ : list MF;
  flat_forward_index_ : option (list Z);
  migrate_mid_ : Z;
  migrate_sgid_ : Z;
  flat_version_ : Z;
  source_array_ : gset Z;
  source_labels_ptr_ : list (option Labels);
  metric_labels_ptr_ : list (option Label);
  allocated_ : list TreeMemSeries }.
Arguments mkTreeHead {MI MF IV}.
Arguments last_source_group_id_ {MI MF IV} _.
Arguments last_metric_id_ {MI MF IV} _.
Arguments metric_thmap_ {MI MF IV} _.
Arguments source_thmap_ {MI MF IV} _.
Arguments inverted_index_ {MI MF IV} _.
Arguments forward_index_ {MI MF IV} _.
Arguments flat_forward_index_ {MI MF IV} _.
Arguments migrate_mid_ {MI MF IV} _.
Arguments migrate_sgid_ {MI MF IV} _.
Arguments flat_version_ {MI MF IV} _.
Arguments source_array_ {MI MF IV} _.
Arguments source_labels_ptr_ {MI MF IV} _.
Arguments metric_labels_ptr_ {MI MF IV} _.
Arguments allocated_ {MI MF IV} _.

Section Index.
Context `{PE : PastEnd} `{TI : Thmap str Z MI} `{TF : Thmap Z Z MF} `{IX : InvertedIndex IV}.
Implicit Type h : TreeHead MI MF IV.

(** ** Field updates *)

Definition set_ids_of h (s m : Z) (sm mm : MI) : TreeHead MI MF IV :=
  mkTreeHead s m mm sm (inverted_index_ h) (forward_index_ h) (flat_forward_index_ h) (migrate_mid_ h) (migrate_sgid_ h)
    (flat_version_ h) (source_array_ h) (source_labels_ptr_ h) (metric_labels_ptr_ h) (allocated_ h).
Definition set_pools h (sl : list (option Labels)) (ml : list (option Label)) : TreeHead MI MF IV :=
  mkTreeHead (last_source_group_id_ h) (last_metric_id_ h) (metric_thmap_ h) (source_thmap_ h) (inverted_index_ h)
    (forward_index_ h) (flat_forward_index_ h) (migrate_mid_ h) (migrate_sgid_ h) (flat_version_ h) (source_array_ h)
    sl ml (allocated_ h).
Definition set_inverted h (i : IV) : TreeHead MI MF IV :=
  mkTreeHead (last_source_group_id_ h) (last_metric_id_ h) (metric_thmap_ h) (source_thmap_ h) i
    (forward_index_ h) (flat_forward_index_ h) (migrate_mid_ h) (migrate_sgid_ h) (flat_version_ h) (source_array_ h)
    (source_labels_ptr_ h) (metric_labels_ptr_ h) (allocated_ h).
Definition set_forward h (fi : list MF) : TreeHead MI MF IV :=
  mkTreeHead (last_source_group_id_ h) (last_metric_id_ h) (metric_thmap_ h) (source_thmap_ h) (inverted_index_ h)
    fi (flat_forward_index_ h) (migrate_mid_ h) (migrate_sgid_ h) (flat_version_ h) (source_array_ h)
    (source_labels_ptr_ h) (metric_labels_ptr_ h) (allocated_ h).
Definition set_flat h (fl : option (list Z)) (mid sgid v : Z) : TreeHead MI MF IV :=
  mkTreeHead (last_source_group_id_ h) (last_metric_id_ h) (metric_thmap_ h) (source_thmap_ h) (inverted_index_ h)
    (forward_index_ h) fl mid sgid v (source_array_ h) (source_labels_ptr_ h) (metric_labels_ptr_ h) (allocated_ h).
Definition set_objects h (sources : gset Z) (l : list TreeMemSeries) : TreeHead MI MF IV :=
  mkTreeHead (last_source_group_id_ h) (last_metric_id_ h) (metric_thmap_ h) (source_thmap_ h) (inverted_index_ h)
    (forward_index_ h) (flat_forward_index_ h) (migrate_mid_ h) (migrate_sgid_ h) (flat_version_ h) sources
    (source_labels_ptr_ h) (metric_labels_ptr_ h) l.

(** The constructors. *)
Definition new_head (max_source_num max_metric_num : nat) (inverted : IV) : TreeHead MI MF IV :=
  mkTreeHead 0 0 thmap_create thmap_create inverted (replicate max_metric_num thmap_create) None 0 0 0 ∅
    (replicate max_source_num None) (replicate max_metric_num None) [].

(** ** Ids *)

(** [pool[i] = new labels]; [None] past the end of the vector. *)
Definition pool_set {A} (pool : list (option A)) (i : Z) (x : A) : option (list (option A)) :=
  if i <? Z.of_nat (length pool) then Some (<[Z.to_nat i := Some x]> pool) else None.

Definition get_or_create_source_id h (lset : Labels) (is_exist : bool) : option (Z * bool * TreeHead MI MF IV) :=
  match lset with
  | [] => Some (0, is_exist, h)
  | _ :: rest =>
    let source_group_str := label_source_group lset in
    match thmap_get (source_thmap_ h) source_group_str with
    | Some source_group => Some (source_group, is_exist, h)
    | None =>
      let sgid := u64 (last_source_group_id_ h + 1) in
      let h := set_ids_of h sgid (last_metric_id_ h) (thmap_put (source_thmap_ h) source_group_str sgid) (metric_thmap_ h) in
      pool ← pool_set (source_labels_ptr_ h) sgid rest;
      Some (sgid, false, set_pools h pool (metric_labels_ptr_ h))
    end
  end.

Definition get_or_create_metric_id h (lset : Labels) (is_exist : bool) : option (Z * bool * TreeHead MI MF IV) :=
  match lset with
  | [] => Some (0, is_exist, h)
  | name :: _ =>
    let metric_str := label_metric lset in
    match thmap_get (metric_thmap_ h) metric_str with
    | Some metric => Some (u16 metric, is_exist, h)
    | None =>
      let mid := u16 (last_metric_id_ h + 1) in
      let h := set_ids_of h (last_source_group_id_ h) mid (source_thmap_ h) (thmap_put (metric_thmap_ h) metric_str mid) in
      pool ← pool_set (metric_labels_ptr_ h) mid name;
      Some (mid, false, set_pools h (source_labels_ptr_ h) pool)
    end
  end.

(** [get_mem_source]; [source_array_] has [MAX_SOURCE_NUM] entries. *)
Definition get_mem_source h (sgid : Z) : option (TreeHead MI MF IV) :=
  if sgid <? MAX_SOURCE_NUM then Some (set_objects h ({[sgid]} ∪ source_array_ h) (allocated_ h)) else None.

(** ** The forward index *)

Definition get_from_forward_index h (source_id metric_id : Z) : Z :=
  match forward_index_ h !! Z.to_nat metric_id with
  | None => 0
  | Some m => default 0 (thmap_get m source_id)
  end.

Definition set_to_forward_index h (source_id metric_id ms : Z) : TreeHead MI MF IV :=
  let fi := forward_index_ h ++ replicate (S (Z.to_nat metric_id) - length (forward_index_ h)) thmap_create in
  set_forward h (alter (fun m => thmap_put m source_id ms) (Z.to_nat metric_id) fi).

(** [None]: the entry is outside the flat array.  The second look at the
    version is for a migration on another thread. *)
Definition read_flat_forward_index h (sgid mid : Z) : option Z :=
  match flat_forward_index_ h with
  | Some flat =>
    if (mid <=? migrate_mid_ h) && (sgid <=? migrate_sgid_ h) then
      let i := u64 ((mid - 1) * migrate_sgid_ h + (sgid - 1)) in
      if i <? Z.of_nat (length flat) then flat !! Z.to_nat i else None
    else Some (get_from_forward_index h sgid mid)
  | None => Some (get_from_forward_index h sgid mid)
  end.

(** [for (i = i0; i <= i1; i++) for (j = j0; j <= j1; j++)] *)
Definition loop (i0 i1 j0 j1 : Z) : list (Z * Z) :=
  seqZ i0 (i1 - i0 + 1) ≫= fun i => (fun j => (i, j)) <$> seqZ j0 (j1 - j0 + 1).

(** [flat[(i-1)*width + (j-1)] = f(i, j)] in a loop *)
Definition fill (width : Z) (f : Z -> Z -> Z) (cells : list (Z * Z)) (flat : list Z) : list Z :=
  foldl (fun a '(i, j) => <[Z.to_nat ((i - 1) * width + (j - 1)) := f i j]> a) flat cells.

Definition from_maps h (i j : Z) : Z := get_from_forward_index h j i.
Definition from_flat h (flat : list Z) (i j : Z) : Z :=
  nth (Z.to_nat ((i - 1) * migrate_sgid_ h + (j - 1))) flat 0.

Definition del_cells (cells : list (Z * Z)) (fi : list MF) : list MF :=
  foldl (fun fi '(i, j) => alter (fun m => thmap_del m j) (Z.to_nat i) fi) fi cells.

(** [migrate_to_flat_forward_index]; [junk] is what the allocated array
    holds. *)
Definition migrate_to_flat_forward_index h (junk : list Z) (sgid mid : Z) : bool * TreeHead MI MF IV :=
  match flat_forward_index_ h with
  | Some flat =>
    if (mid <=? migrate_mid_ h) && (sgid <=? migrate_sgid_ h) then (true, h)
    else if Z.of_nat (length (forward_index_ h)) <=? mid then (false, h)
    else if (mid <? migrate_mid_ h) || (sgid <? migrate_sgid_ h) then (false, h)
    else
      let a := fill sgid (from_flat h flat) (loop 1 (migrate_mid_ h) 1 (migrate_sgid_ h)) junk in
      let a := if migrate_sgid_ h <? sgid
               then fill sgid (from_maps h) (loop 1 (migrate_mid_ h) (migrate_sgid_ h + 1) sgid) a else a in
      let a := if migrate_mid_ h <? mid then fill sgid (from_maps h) (loop (migrate_mid_ h + 1) mid 1 sgid) a else a in
      let h := set_flat h (Some a) mid sgid (u64 (flat_version_ h + 1)) in
      (true, set_forward h (del_cells (loop 1 mid 1 sgid) (forward_index_ h)))
  | None =>
    if Z.of_nat (length (forward_index_ h)) <=? mid then (false, h)
    else
      let a := fill sgid (from_maps h) (loop 1 mid 1 sgid) junk in
      let h := set_flat h (Some a) mid sgid (flat_version_ h) in
      (true, set_forward h (del_cells (loop 1 mid 1 sgid) (forward_index_ h)))
  end.

(** ** Series *)

(** [new TreeMemSeries(...)]: the pointer and the objects. *)
Definition new_series h (ms : TreeMemSeries) : Z * TreeHead MI MF IV :=
  (Z.of_nat (length (allocated_ h)) + 1, set_objects h (source_array_ h) (allocated_ h ++ [ms])).

(** [*ptr], [None] for a null pointer. *)
Definition deref h (ptr : Z) : option TreeMemSeries :=
  if ptr <=? 0 then None else allocated_ h !! Z.to_nat (ptr - 1).

(** The series and whether it is new. *)
Definition get_or_create_by_thmap h (junk : Z) (lset : Labels) : option (Z * bool * TreeHead MI MF IV) :=
  match get_or_create_source_id h lset true with None => None | Some (sgid, is_exist, h) =>
  match get_or_create_metric_id h lset is_exist with None => None | Some (mid, is_exist, h) =>
  let h := if is_exist then h else set_inverted h (inv_add (inverted_index_ h) sgid lset) in
  series_ptr ← read_flat_forward_index h sgid mid;
  if negb (series_ptr =? 0) then Some (series_ptr, false, h)
  else
    h ← get_mem_source h sgid;
    let '(ms, h) := new_series h (tree_mem_series junk sgid mid UINT32_MAX 0) in
    Some (ms, true, set_to_forward_index h sgid mid ms)
  end end.

(** Filling a pool during recovery: only an empty entry inside the vector. *)
Definition pool_fill {A} (pool : list (option A)) (i : Z) (x : option A) : option (list (option A)) :=
  match pool !! Z.to_nat i with
  | Some None => y ← x; Some (<[Z.to_nat i := Some y]> pool)
  | _ => Some pool
  end.

Definition get_or_create_with_id h (junk sgid mid : Z) (lset : Labels) : option (Z * bool * TreeHead MI MF IV) :=
  series_ptr ← read_flat_forward_index h sgid mid;
  if negb (series_ptr =? 0) then Some (series_ptr, false, h)
  else
    let ms := tree_mem_series junk sgid mid UINT32_MAX 0 in
    let '(p, h) := new_series h (set_txns ms INT64_MAX (sample_txn_ ms)) in
    let h := set_to_forward_index h sgid mid p in
    let h := set_inverted h (inv_add (inverted_index_ h) sgid lset) in
    sl ← pool_fill (source_labels_ptr_ h) sgid (match lset with [] => None | _ :: rest => Some rest end);
    ml ← pool_fill (metric_labels_ptr_ h) mid (head lset);
    Some (p, true, set_pools h sl ml).

(** ** Labels *)

(** The entry of a pool, null outside it. *)
Definition pool_at {A} (pool : list (option A)) (i : Z) : option A := mjoin (pool !! Z.to_nat i).

Definition get_metric_label h (mid : Z) : Label :=
  if mid =? 0 then mkLabel [] [] else default (mkLabel [] []) (pool_at (metric_labels_ptr_ h) mid).

Definition get_source_labels h (sgid : Z) : Labels :=
  if sgid =? 0 then [] else default [] (pool_at (source_labels_ptr_ h) sgid).

Definition reconstruct_labels h (sgid mid : Z) (out : Labels) : Labels :=
  let out := match pool_at (metric_labels_ptr_ h) mid with Some l => out ++ [l] | None => out end in
  match pool_at (source_labels_ptr_ h) sgid with Some src => out ++ src | None => out end.

(** [series]: the labels and the bytes of the chunk in memory; [None] when
    there is no such series. *)
Definition head_series h (source_id metric_id : Z) : option (option (Labels * list Z)) :=
  tms ← read_flat_forward_index h source_id metric_id;
  match deref h tms with
  | None => Some None
  | Some ms => Some (Some (reconstruct_labels h source_id metric_id [], stream (bstream (chunk_ ms))))
  end.

End Index.

(** ** Cells of the flat array *)

Section Cells.

Lemma elem_of_loop i j i0 i1 j0 j1 : (i, j) ∈ loop i0 i1 j0 j1 <-> i0 <= i <= i1 /\ j0 <= j <= j1.
Proof.
  unfold loop. rewrite list_elem_of_bind. split.
  - intros (i' & Hij & Hi'). apply list_elem_of_fmap in Hij as (j' & [= -> ->] & Hj').
    apply elem_of_seqZ in Hi', Hj'. lia.
  - intros [Hi Hj]. exists i. split; [|apply elem_of_seqZ; lia]. apply list_elem_of_fmap. exists j.
    split; [done|]. apply elem_of_seqZ. lia.
Qed.

(** Row [i], column [j], counted from 1. *)
Definition cell (width i j : Z) : nat := Z.to_nat ((i - 1) * width + (j - 1)).

Lemma cell_inj w i j i' j' :
  1 <= i -> 1 <= j <= w -> 1 <= i' -> 1 <= j' <= w -> cell w i j = cell w i' j' -> i = i' /\ j = j'.
Proof. unfold cell. intros Hi Hj Hi' Hj' E. assert (i = i') as -> by nia. split; [done|]. nia. Qed.

Lemma length_fill w f cells a : length (fill w f cells a) = length a.
Proof.
  unfold fill. revert a. induction cells as [|[i j] cells IH]; intros a; simpl; [done|]. by rewrite IH, length_insert.
Qed.

Lemma fill_lookup w f cells a i j :
  (forall i j, (i, j) ∈ cells -> 1 <= i /\ 1 <= j <= w) -> 1 <= i -> 1 <= j <= w -> (cell w i j < length a)%nat ->
  fill w f cells a !! cell w i j = if decide ((i, j) ∈ cells) then Some (f i j) else a !! cell w i j.
Proof.
  intros Hc Hi Hj. revert a. induction cells as [|[i' j'] cells IH] using rev_ind; intros a Hl.
  { by rewrite decide_False by apply not_elem_of_nil. }
  unfold fill. rewrite foldl_app. simpl. change (foldl _ a cells) with (fill w f cells a).
  destruct (Hc i' j') as [Hi' Hj']; [set_solver|]. fold (cell w i' j').
  destruct (decide ((i, j) = (i', j'))) as [[= -> ->]|Hne].
  - rewrite list_lookup_insert_eq by by rewrite length_fill. by rewrite decide_True by set_solver.
  - rewrite list_lookup_insert_ne.
    2:{ intros E. apply cell_inj in E as [-> ->]; done. }
    rewrite IH by (done || (intros; apply Hc; set_solver)).
    destruct (decide ((i, j) ∈ cells)) as [H1|H1]; [by rewrite decide_True by set_solver|].
    rewrite decide_False; [done|]. rewrite elem_of_app, list_elem_of_singleton. intros [?|?]; done.
Qed.

Lemma loop_no_rows i0 j0 j1 : loop (i0 + 1) i0 j0 j1 = [].
Proof. unfold loop. by replace (i0 - (i0 + 1) + 1) with 0 by lia. Qed.

Lemma loop_no_columns i0 i1 j0 : loop i0 i1 (j0 + 1) j0 = [].
Proof.
  unfold loop. replace (j0 - (j0 + 1) + 1) with 0 by lia. induction (seqZ i0 (i1 - i0 + 1)) as [|i l IH]; [done|exact IH].
Qed.

End Cells.

Section Forward.
Context `{PE : PastEnd} `{TI : Thmap str Z MI} `{TF : Thmap Z Z MF} `{TL : !ThmapLaws Z Z MF} `{IX : InvertedIndex IV}.
Implicit Type h : TreeHead MI MF IV.

Lemma length_del_cells cells (fi : list MF) : length (del_cells cells fi) = length fi.
Proof.
  unfold del_cells. revert fi. induction cells as [|[i j] cells IH]; intros fi; simpl; [done|]. by rewrite IH, length_alter.
Qed.

Lemma del_cells_get cells (fi : list MF) h s m :
  (m, s) ∉ cells -> 0 <= m -> (forall i j, (i, j) ∈ cells -> 0 <= i) ->
  get_from_forward_index (set_forward h (del_cells cells fi)) s m = get_from_forward_index (set_forward h fi) s m.
Proof.
  intros Hn Hm. revert fi. induction cells as [|[i j] cells IH]; intros fi Hc; [done|].
  unfold del_cells. simpl. change (foldl _ ?x cells) with (del_cells cells x).
  rewrite IH by (set_solver || (intros; eapply Hc; set_solver)). unfold get_from_forward_index. simpl.
  assert (Hi : 0 <= i) by (apply (Hc i j); set_solver).
  destruct (decide (m = i)) as [->|Hne].
  - rewrite list_lookup_alter_eq. destruct (fi !! _); [|done]. simpl. rewrite get_del, decide_False; [done|]. set_solver.
  - by rewrite list_lookup_alter_ne by lia.
Qed.

(** What holds of the flat copy. *)
Definition flat_ok h : Prop :=
  match flat_forward_index_ h with
  | None => True
  | Some flat =>
    0 <= migrate_mid_ h < Z.of_nat (length (forward_index_ h)) /\ 0 <= migrate_sgid_ h /\
    Z.of_nat (length flat) = migrate_mid_ h * migrate_sgid_ h /\ migrate_mid_ h * migrate_sgid_ h < 2 ^ 64
  end.

(** Reading inside and outside the flat copy. *)
Lemma read_inside h flat s m :
  flat_ok h -> flat_forward_index_ h = Some flat -> 1 <= m <= migrate_mid_ h -> 1 <= s <= migrate_sgid_ h ->
  read_flat_forward_index h s m = flat !! cell (migrate_sgid_ h) m s /\ (cell (migrate_sgid_ h) m s < length flat)%nat.
Proof.
  unfold flat_ok, read_flat_forward_index. intros Hf E Hm Hs. rewrite E in *. destruct Hf as (H1 & H2 & H3 & H4).
  rewrite (proj2 (Z.leb_le _ _)), (proj2 (Z.leb_le _ _)) by lia. cbv zeta. cbn [andb].
  unfold u64. rewrite wrap_id by (unfold is_u; nia). rewrite (proj2 (Z.ltb_lt _ _)) by nia. split; [done|]. unfold cell. nia.
Qed.

Lemma read_outside h s m :
  (flat_forward_index_ h = None \/ migrate_mid_ h < m \/ migrate_sgid_ h < s) ->
  read_flat_forward_index h s m = Some (get_from_forward_index h s m).
Proof.
  unfold read_flat_forward_index. intros Ho. destruct (flat_forward_index_ h); [|done].
  destruct Ho as [?|[?|?]]; [done| |].
  - by rewrite (proj2 (Z.leb_gt _ _)) by lia.
  - rewrite (proj2 (Z.leb_gt s (migrate_sgid_ h))) by lia. by rewrite andb_false_r.
Qed.

(** The copy made by a migration: [f] inside, the maps outside. *)
Lemma migrated_reads h h' a mid sgid v :
  h' = set_forward (set_flat h (Some a) mid sgid v) (del_cells (loop 1 mid 1 sgid) (forward_index_ h)) ->
  0 <= mid < Z.of_nat (length (forward_index_ h)) -> 0 <= sgid -> Z.of_nat (length a) = mid * sgid -> mid * sgid < 2 ^ 64 ->
  (forall s m, 1 <= m <= mid -> 1 <= s <= sgid -> a !! cell sgid m s = read_flat_forward_index h s m) ->
  (forall s m, 1 <= m -> 1 <= s -> mid < m \/ sgid < s ->
     read_flat_forward_index h s m = Some (get_from_forward_index h s m)) ->
  flat_ok h' /\ forall s m, 1 <= s -> 1 <= m -> read_flat_forward_index h' s m = read_flat_forward_index h s m.
Proof.
  intros -> Hmid Hsgid Hl Hb Hin Hout.
  assert (Hf : flat_ok (set_forward (set_flat h (Some a) mid sgid v) (del_cells (loop 1 mid 1 sgid) (forward_index_ h)))).
  { unfold flat_ok. simpl. rewrite length_del_cells. lia. }
  split; [done|]. intros s m Hs Hm.
  destruct (decide (m <= mid /\ s <= sgid)) as [[Hm' Hs']|Hn].
  - destruct (read_inside _ a s m Hf eq_refl) as [-> _]; [simpl; lia..|]. apply Hin; lia.
  - rewrite read_outside by (right; simpl; lia). rewrite Hout by lia. f_equal.
    rewrite del_cells_get; [done| |lia|intros i j Hij%elem_of_loop; lia]. rewrite elem_of_loop. lia.
Qed.

(** The array after an extension. *)
Lemma extended_cells h flat junk sgid mid s m :
  flat_ok h -> flat_forward_index_ h = Some flat -> migrate_mid_ h <= mid -> migrate_sgid_ h <= sgid ->
  Z.of_nat (length junk) = mid * sgid -> 1 <= m <= mid -> 1 <= s <= sgid ->
  fill sgid (from_maps h) (loop (migrate_mid_ h + 1) mid 1 sgid)
    (fill sgid (from_maps h) (loop 1 (migrate_mid_ h) (migrate_sgid_ h + 1) sgid)
      (fill sgid (from_flat h flat) (loop 1 (migrate_mid_ h) 1 (migrate_sgid_ h)) junk)) !! cell sgid m s
  = read_flat_forward_index h s m.
Proof.
  intros Hf Ef Hm1 Hs1 Hl Hm Hs. pose proof Hf as Hf'. unfold flat_ok in Hf'. rewrite Ef in Hf'. destruct Hf' as (H1 & H2 & H3 & H4).
  assert (Hc : (cell sgid m s < length junk)%nat) by (unfold cell; nia).
  rewrite fill_lookup; rewrite ?length_fill; [|intros i j Hij%elem_of_loop; lia|lia|lia|done].
  destruct (decide _) as [Hin%elem_of_loop|Hn1]; [rewrite read_outside by lia; done|]. rewrite elem_of_loop in Hn1.
  rewrite fill_lookup; rewrite ?length_fill; [|intros i j Hij%elem_of_loop; lia|lia|lia|done].
  destruct (decide _) as [Hin%elem_of_loop|Hn2]; [rewrite read_outside by lia; done|]. rewrite elem_of_loop in Hn2.
  rewrite fill_lookup; rewrite ?length_fill; [|intros i j Hij%elem_of_loop; lia|lia|lia|done].
  rewrite decide_True by (apply elem_of_loop; lia).
  destruct (read_inside h flat s m Hf Ef) as [-> Hlt]; [lia..|]. unfold from_flat. fold (cell (migrate_sgid_ h) m s).
  destruct (flat !! _) as [x|] eqn:Ex; [|apply lookup_ge_None in Ex; lia]. f_equal. by apply nth_lookup_Some.
Qed.

(** C18.  Moving the forward index into the flat array is invisible: whether
    [migrate_to_flat_forward_index] builds the array, extends it in one or both
    directions or declines, every lookup gives what it gave before, and a
    migration that reports success covers the ids it was asked for. *)
Theorem migration_invisible h junk sgid mid flag h' :
  flat_ok h -> 0 <= mid -> 0 <= sgid -> Z.of_nat (length junk) = mid * sgid -> mid * sgid < 2 ^ 64 ->
  migrate_to_flat_forward_index h junk sgid mid = (flag, h') ->
  flat_ok h' /\
  (forall s m, 1 <= s -> 1 <= m -> read_flat_forward_index h' s m = read_flat_forward_index h s m) /\
  (flag = true -> is_Some (flat_forward_index_ h') /\ mid <= migrate_mid_ h' /\ sgid <= migrate_sgid_ h').
Proof.
  intros Hf Hmid Hsgid Hl Hb. unfold migrate_to_flat_forward_index.
  destruct (flat_forward_index_ h) as [flat|] eqn:Ef.
  2:{ destruct (Z.leb_spec (Z.of_nat (length (forward_index_ h))) mid) as [?|Hn]; [by intros [= <- <-]|]. cbv zeta.
    intros [= <- <-]. match goal with |- flat_ok ?x /\ _ => destruct (migrated_reads h x _ mid sgid _ eq_refl) as [H1 H2] end;
      [lia|lia|by rewrite !length_fill|done| | |by split_and!].
    - intros s m Hm Hs. rewrite read_outside by (by left). rewrite fill_lookup;
      [by rewrite decide_True by (apply elem_of_loop; lia)|intros i j Hij%elem_of_loop; lia|lia|lia|unfold cell; nia].
    - intros s m _ _ _. apply read_outside. by left. }
  assert (Hgo : forall x, (if Z.of_nat (length (forward_index_ h)) <=? mid then (false, h)
      else if (mid <? migrate_mid_ h) || (sgid <? migrate_sgid_ h) then (false, h) else x) = (flag, h') ->
      (flag, h') = (false, h) \/ (mid < Z.of_nat (length (forward_index_ h)) /\ migrate_mid_ h <= mid /\ migrate_sgid_ h <= sgid /\ x = (flag, h'))).
  { intros x. destruct (Z.leb_spec (Z.of_nat (length (forward_index_ h))) mid); [by left|].
    destruct (Z.ltb_spec mid (migrate_mid_ h)); [by left|]. destruct (Z.ltb_spec sgid (migrate_sgid_ h)); [by left|].
    intros E. right. split_and!; done || lia. }
  destruct ((mid <=? migrate_mid_ h) && (sgid <=? migrate_sgid_ h)) eqn:Ec.
  { apply andb_true_iff in Ec as [?%Z.leb_le ?%Z.leb_le]. intros [= <- <-]. rewrite Ef. by eauto 6. }
  intros E. destruct (Hgo _ E) as [[= -> ->]|(Hlen & Hm1 & Hs1 & E')]; [done|]. clear Hgo E Ec. cbv zeta in E'.
  assert (E1 : forall f a, (if migrate_sgid_ h <? sgid then fill sgid f (loop 1 (migrate_mid_ h) (migrate_sgid_ h + 1) sgid) a else a)
    = fill sgid f (loop 1 (migrate_mid_ h) (migrate_sgid_ h + 1) sgid) a).
  { intros f a. destruct (Z.ltb_spec (migrate_sgid_ h) sgid); [done|]. replace sgid with (migrate_sgid_ h) by lia. by rewrite loop_no_columns. }
  assert (E2 : forall f a, (if migrate_mid_ h <? mid then fill sgid f (loop (migrate_mid_ h + 1) mid 1 sgid) a else a)
    = fill sgid f (loop (migrate_mid_ h + 1) mid 1 sgid) a).
  { intros f a. destruct (Z.ltb_spec (migrate_mid_ h) mid); [done|]. replace mid with (migrate_mid_ h) by lia. by rewrite loop_no_rows. }
  rewrite E1, E2 in E'. injection E' as <- <-.
  match goal with |- flat_ok ?x /\ _ => destruct (migrated_reads h x _ mid sgid _ eq_refl) as [H1 H2] end;
      [lia|lia|by rewrite !length_fill|done| | |by split_and!].
  - intros s m Hm Hs. by apply extended_cells.
  - intros s m Hm Hs Ho. apply read_outside. lia.
Qed.

(** A series whose ids lie in the flat copy but which is not there. *)
Lemma create_inside h junk lset s m :
  flat_ok h -> is_Some (flat_forward_index_ h) -> lset <> [] ->
  thmap_get (source_thmap_ h) (label_source_group lset) = Some s -> thmap_get (metric_thmap_ h) (label_metric lset) = Some m ->
  1 <= m <= migrate_mid_ h -> 1 <= s <= migrate_sgid_ h -> s < MAX_SOURCE_NUM -> m < 2 ^ 16 ->
  read_flat_forward_index h s m = Some 0 ->
  exists h', get_or_create_by_thmap h junk lset = Some (Z.of_nat (length (allocated_ h)) + 1, true, h') /\
    h' = set_to_forward_index (set_objects h ({[s]} ∪ source_array_ h)
           (allocated_ h ++ [tree_mem_series junk s m UINT32_MAX 0])) s m (Z.of_nat (length (allocated_ h)) + 1).
Proof.
  intros Hf [flat Ef] Hne Es Em Hm Hs Hs' Hm' Hr. unfold get_or_create_by_thmap.
  destruct lset as [|l lset]; [done|]. cbn [get_or_create_source_id]. rewrite Es. cbn [get_or_create_metric_id]. rewrite Em.
  replace (u16 m) with m by (symmetry; apply wrap_id; unfold is_u; lia). rewrite Hr. cbn [mbind option_bind].
  unfold get_mem_source. rewrite (proj2 (Z.ltb_lt _ _)) by done. cbn [negb Z.eqb mbind option_bind]. unfold new_series. by eexists.
Qed.

(** C32.  A series that is first seen after its source and its metric have been
    moved to the flat array is lost.  It is created and put into the map of its
    metric, but lookups go to the flat array, which still holds null: samples
    for it are refused, and the next [get_or_create_by_thmap] creates another
    object for it. *)
Theorem late_series_lost h junk lset s m :
  flat_ok h -> is_Some (flat_forward_index_ h) -> lset <> [] ->
  thmap_get (source_thmap_ h) (label_source_group lset) = Some s -> thmap_get (metric_thmap_ h) (label_metric lset) = Some m ->
  1 <= m <= migrate_mid_ h -> 1 <= s <= migrate_sgid_ h -> s < MAX_SOURCE_NUM -> m < 2 ^ 16 ->
  read_flat_forward_index h s m = Some 0 ->
  exists p h' p' h'', get_or_create_by_thmap h junk lset = Some (p, true, h') /\ p <> 0 /\
    read_flat_forward_index h' s m = Some 0 /\
    get_or_create_by_thmap h' junk lset = Some (p', true, h'') /\ p' <> p /\ read_flat_forward_index h'' s m = Some 0.
Proof.
  intros Hf Hs Hne E1 E2 Hm Hsg Hs' Hm' Hr.
  destruct (create_inside h junk lset s m Hf Hs Hne E1 E2 Hm Hsg Hs' Hm' Hr) as (h' & E & Eh).
  assert (Hf' : flat_ok h').
  { rewrite Eh. unfold flat_ok in *. simpl. destruct (flat_forward_index_ h); [|done]. rewrite length_alter, length_app. lia. }
  assert (Hsame : forall h1, flat_forward_index_ h1 = flat_forward_index_ h -> migrate_mid_ h1 = migrate_mid_ h ->
    migrate_sgid_ h1 = migrate_sgid_ h -> read_flat_forward_index h1 s m = Some 0).
  { intros h1 F1 F2 F3. rewrite <- Hr. unfold read_flat_forward_index. rewrite F1, F2, F3. destruct Hs as [flat ->].
    by rewrite (proj2 (Z.leb_le m _)), (proj2 (Z.leb_le s _)) by lia. }
  assert (Hr' : read_flat_forward_index h' s m = Some 0) by (by apply Hsame; rewrite Eh).
  assert (Hk : is_Some (flat_forward_index_ h') /\ thmap_get (source_thmap_ h') (label_source_group lset) = Some s /\
    thmap_get (metric_thmap_ h') (label_metric lset) = Some m /\ migrate_mid_ h' = migrate_mid_ h /\ migrate_sgid_ h' = migrate_sgid_ h)
    by (by rewrite Eh).
  destruct Hk as (K1 & K2 & K3 & K4 & K5). rewrite <- K4 in Hm. rewrite <- K5 in Hsg.
  destruct (create_inside h' junk lset s m Hf' K1 Hne K2 K3 Hm Hsg Hs' Hm' Hr') as (h'' & E' & Eh').
  rewrite Eh in E'. simpl in E'. rewrite length_app in E'. simpl in E'. rewrite <- Eh in E'.
  eexists _, h', _, h''. split; [exact E|]. split; [lia|]. split; [done|]. split; [exact E'|]. split; [lia|].
  apply Hsame; by rewrite Eh', Eh.
Qed.

End Forward.

(** ** Ids *)

Section Names.
Context `{PE : PastEnd} `{TI : Thmap str Z MI} `{TIL : !ThmapLaws str Z MI} `{TF : Thmap Z Z MF} `{TL : !ThmapLaws Z Z MF}.
Context `{IX : InvertedIndex IV}.
Implicit Type h : TreeHead MI MF IV.

(** The first label set of [seen] that [key] maps to [k]. *)
Definition first_with (key : Labels -> str) (k : str) (seen : list Labels) : option Labels :=
  List.find (fun a => str_eqb (key a) k) seen.

Lemma str_eqb_spec a b : str_eqb a b = true <-> a = b.
Proof. apply bool_decide_eq_true. Qed.

Lemma first_with_app key k l l' a : first_with key k l = Some a -> first_with key k (l ++ l') = Some a.
Proof. unfold first_with. induction l as [|b l IH]; [done|]. simpl. by destruct (str_eqb _ _). Qed.

Lemma first_with_new key k l a : key a = k -> Forall (fun b => key b <> k) l -> first_with key k (l ++ [a]) = Some a.
Proof.
  intros <- Hl. unfold first_with. induction Hl as [|b l Hb Hl IH]; simpl.
  - by rewrite (proj2 (str_eqb_spec _ _) eq_refl).
  - destruct (str_eqb (key b) (key a)) eqn:E; [by apply str_eqb_spec in E|done].
Qed.

Lemma first_with_elem key k l a : first_with key k l = Some a -> a ∈ l /\ key a = k.
Proof. intros [H1 H2]%find_some. split; [by apply list_elem_of_In|by apply str_eqb_spec]. Qed.

(** The number of different keys among label sets: the sources with
    [label_source_group], the metrics with [label_metric]. *)
Definition kinds (key : Labels -> str) (l : list Labels) : Z := Z.of_nat (size (list_to_set (key <$> l) : gset str)).

Lemma kinds_app key l k : kinds key l <= kinds key (l ++ k).
Proof. unfold kinds. apply inj_le, subseteq_size. rewrite fmap_app. set_solver. Qed.

Lemma kinds_new key l a : Forall (fun b => key b <> key a) l -> kinds key (l ++ [a]) = kinds key l + 1.
Proof.
  intros Hl. unfold kinds. rewrite fmap_app, list_to_set_app_L. simpl. rewrite union_empty_r_L, size_union, size_singleton; [lia|].
  apply disjoint_singleton_r. intros (b & Eb & Hb)%elem_of_list_to_set%list_elem_of_fmap. rewrite Forall_forall in Hl. by apply (Hl b Hb).
Qed.

(** A table of ids with its pool, after the label sets [seen]: [key] is what
    identifies a label set in it, [part] what the pool keeps of one. *)
Record ids_ok {A} (get : str -> option Z) (last : Z) (pool : list (option A)) (key : Labels -> str) (part : Labels -> option A)
    (seen : list Labels) : Prop := {
  io_from k i : get k = Some i -> 1 <= i <= last /\ exists a, first_with key k seen = Some a /\ pool !! Z.to_nat i = Some (part a);
  io_inj k k' i : get k = Some i -> get k' = Some i -> k = k';
  io_last : 0 <= last <= kinds key seen;
  io_all a : a ∈ seen -> is_Some (get (key a)) }.

Lemma ids_again {A} get last (pool : list (option A)) key part seen a :
  ids_ok get last pool key part seen -> is_Some (get (key a)) -> ids_ok get last pool key part (seen ++ [a]).
Proof.
  intros [H1 H2 H3 H4] Ha. split.
  - intros k i E. destruct (H1 k i E) as (Hi & b & Hb & ?). split; [done|]. exists b. split; [by apply first_with_app|done].
  - done.
  - pose proof (kinds_app key seen [a]). lia.
  - intros b [Hb|Hb%list_elem_of_singleton]%elem_of_app; [by apply H4|by subst].
Qed.

Lemma ids_new {A} get get' last (pool : list (option A)) key part seen a :
  ids_ok get last pool key part seen -> get (key a) = None -> kinds key (seen ++ [a]) < Z.of_nat (length pool) ->
  (forall k, get' k = if decide (k = key a) then Some (last + 1) else get k) ->
  ids_ok get' (last + 1) (<[Z.to_nat (last + 1) := part a]> pool) key part (seen ++ [a]).
Proof.
  intros [H1 H2 H3 H4] Ha Hl Hg.
  assert (Hfresh : Forall (fun b => key b <> key a) seen).
  { apply Forall_forall. intros b Hb Eb. destruct (H4 b Hb) as [x Hx]. congruence. }
  rewrite kinds_new in Hl by done. split.
  - intros k i E. rewrite Hg in E. destruct (decide (k = key a)) as [->|Hk].
    + injection E as <-. split; [lia|]. exists a. split; [|apply list_lookup_insert_eq; lia].
      by apply first_with_new.
    + destruct (H1 k i E) as (Hi & b & Hb & Hp). split; [lia|]. exists b. split; [by apply first_with_app|].
      rewrite list_lookup_insert_ne by lia. done.
  - intros k k' i. rewrite !Hg. destruct (decide (k = key a)) as [->|]; destruct (decide (k' = key a)) as [->|]; try done.
    + intros [= <-] E. apply H1 in E as [? _]. lia.
    + intros E [= <-]. apply H1 in E as [? _]. lia.
    + apply H2.
  - rewrite kinds_new by done. lia.
  - intros b Hb. rewrite Hg. destruct (decide (key b = key a)); [by eauto|].
    apply elem_of_app in Hb as [Hb|Hb%list_elem_of_singleton]; [by apply H4|by subst].
Qed.

(** A new key has room. *)
Lemma ids_room {A} get last (pool : list (option A)) key part seen a :
  ids_ok get last pool key part seen -> get (key a) = None -> last + 1 <= kinds key (seen ++ [a]).
Proof.
  intros [_ _ H3 H4] Ha. rewrite kinds_new; [lia|]. apply Forall_forall. intros b Hb Eb. destruct (H4 b Hb) as [x Hx]. congruence.
Qed.

(** The source and metric tables of a head. *)
Definition source_ids_ok h : list Labels -> Prop :=
  ids_ok (thmap_get (source_thmap_ h)) (last_source_group_id_ h) (source_labels_ptr_ h) label_source_group (fun a => Some (tail a)).
Definition metric_ids_ok h : list Labels -> Prop :=
  ids_ok (thmap_get (metric_thmap_ h)) (last_metric_id_ h) (metric_labels_ptr_ h) label_metric head.

(** What the two id functions leave alone. *)
Definition same_index h h' : Prop :=
  forward_index_ h' = forward_index_ h /\ flat_forward_index_ h' = flat_forward_index_ h /\
  allocated_ h' = allocated_ h /\ length (source_labels_ptr_ h') = length (source_labels_ptr_ h) /\
  length (metric_labels_ptr_ h') = length (metric_labels_ptr_ h).

Lemma source_id_spec h a e seen :
  source_ids_ok h seen -> metric_ids_ok h seen -> a <> [] ->
  kinds label_source_group (seen ++ [a]) < Z.of_nat (length (source_labels_ptr_ h)) < 2 ^ 64 ->
  exists s e' h', get_or_create_source_id h a e = Some (s, e', h') /\ source_ids_ok h' (seen ++ [a]) /\ metric_ids_ok h' seen /\
    thmap_get (source_thmap_ h') (label_source_group a) = Some s /\ same_index h h' /\
    (forall b, b ∈ seen -> thmap_get (source_thmap_ h') (label_source_group b) = thmap_get (source_thmap_ h) (label_source_group b)).
Proof.
  intros Hs Hm Hne Hl. destruct a as [|l rest]; [done|]. unfold get_or_create_source_id.
  destruct (thmap_get (source_thmap_ h) (label_source_group (l :: rest))) as [s|] eqn:E.
  - exists s, e, h. split; [done|]. split; [apply ids_again; [done|by eauto]|]. done.
  - pose proof (io_last _ _ _ _ _ _ Hs) as Hlast. pose proof (Z.le_lt_trans _ _ _ (ids_room _ _ _ _ _ _ _ Hs E) (proj1 Hl)) as Hroom.
    replace (u64 (last_source_group_id_ h + 1)) with (last_source_group_id_ h + 1) by (symmetry; apply wrap_id; unfold is_u; lia).
    cbv zeta. unfold pool_set. cbn [source_labels_ptr_ set_ids_of]. rewrite (proj2 (Z.ltb_lt _ _)) by lia. cbn [mbind option_bind].
    eexists _, _, _. split; [reflexivity|].
    assert (Hg : forall k, thmap_get (thmap_put (source_thmap_ h) (label_source_group (l :: rest)) (last_source_group_id_ h + 1)) k =
      if decide (k = label_source_group (l :: rest)) then Some (last_source_group_id_ h + 1) else thmap_get (source_thmap_ h) k).
    { intros k. by rewrite get_put, E. }
    split; [eapply (ids_new (A := Labels) _ _ _ _ _ (fun a => Some (tail a)) _ (l :: rest)); [exact Hs|done|exact (proj1 Hl)|done]|]. split; [done|].
    cbn [source_thmap_ set_pools set_ids_of]. split; [by rewrite Hg, decide_True|]. split.
    { split_and!; try done. simpl. by rewrite length_insert. }
    intros b Hb. rewrite Hg, decide_False; [done|]. intros Eb. destruct (io_all _ _ _ _ _ _ Hs b Hb) as [x Hx]. congruence.
Qed.

Lemma metric_id_spec h a e seen sources :
  source_ids_ok h sources -> metric_ids_ok h seen -> a <> [] ->
  kinds label_metric (seen ++ [a]) < Z.of_nat (length (metric_labels_ptr_ h)) <= 2 ^ 16 ->
  exists m e' h', get_or_create_metric_id h a e = Some (m, e', h') /\ source_ids_ok h' sources /\ metric_ids_ok h' (seen ++ [a]) /\
    thmap_get (metric_thmap_ h') (label_metric a) = Some m /\ source_thmap_ h' = source_thmap_ h /\ same_index h h' /\
    (forall b, b ∈ seen -> thmap_get (metric_thmap_ h') (label_metric b) = thmap_get (metric_thmap_ h) (label_metric b)).
Proof.
  intros Hs Hm Hne Hl. destruct a as [|l rest]; [done|]. unfold get_or_create_metric_id.
  pose proof (io_last _ _ _ _ _ _ Hm) as Hlast. pose proof (Z.le_lt_trans _ _ _ (kinds_app label_metric seen [l :: rest]) (proj1 Hl)) as Hk.
  destruct (thmap_get (metric_thmap_ h) (label_metric (l :: rest))) as [m|] eqn:E.
  - pose proof (io_from _ _ _ _ _ _ Hm _ _ E) as [Hr _].
    replace (u16 m) with m by (symmetry; apply wrap_id; unfold is_u; lia).
    exists m, e, h. split; [done|]. split; [done|]. split; [apply ids_again; [done|by eauto]|]. done.
  - pose proof (Z.le_lt_trans _ _ _ (ids_room _ _ _ _ _ _ _ Hm E) (proj1 Hl)) as Hroom.
    replace (u16 (last_metric_id_ h + 1)) with (last_metric_id_ h + 1) by (symmetry; apply wrap_id; unfold is_u; lia).
    cbv zeta. unfold pool_set. cbn [metric_labels_ptr_ set_ids_of]. rewrite (proj2 (Z.ltb_lt _ _)) by lia. cbn [mbind option_bind].
    eexists _, _, _. split; [reflexivity|].
    assert (Hg : forall k, thmap_get (thmap_put (metric_thmap_ h) (label_metric (l :: rest)) (last_metric_id_ h + 1)) k =
      if decide (k = label_metric (l :: rest)) then Some (last_metric_id_ h + 1) else thmap_get (metric_thmap_ h) k).
    { intros k. by rewrite get_put, E. }
    split; [done|]. split; [eapply (ids_new _ _ _ _ _ head _ (l :: rest)); [exact Hm|done|exact (proj1 Hl)|done]|].
    cbn [metric_thmap_ set_pools set_ids_of]. split; [by rewrite Hg, decide_True|]. split; [done|]. split.
    { split_and!; try done. simpl. by rewrite length_insert. }
    intros b Hb. rewrite Hg, decide_False; [done|]. intros Eb. destruct (io_all _ _ _ _ _ _ Hm b Hb) as [x Hx]. congruence.
Qed.

(** ** Series and their labels *)

Definition nonnull h : Prop :=
  forall m t s v, forward_index_ h !! m = Some t -> thmap_get t s = Some v -> v <> 0.

Lemma set_get h s m p s' m' :
  0 <= m -> 0 <= m' -> nonnull h -> get_from_forward_index h s m = 0 ->
  get_from_forward_index (set_to_forward_index h s m p) s' m' =
    if decide (s' = s /\ m' = m) then p else get_from_forward_index h s' m'.
Proof.
  intros Hm Hm' Hn H0. unfold get_from_forward_index, set_to_forward_index. cbn [forward_index_ set_forward].
  set (fi := forward_index_ h ++ _).
  assert (Hfi : forall i, fi !! i = forward_index_ h !! i \/ (forward_index_ h !! i = None /\ fi !! i = Some thmap_create) \/
    (forward_index_ h !! i = None /\ fi !! i = None)).
  { intros i. unfold fi. destruct (forward_index_ h !! i) as [t|] eqn:E; [left; by apply lookup_app_l_Some|].
    rewrite lookup_app_r by (by apply lookup_ge_None). destruct (replicate _ _ !! _) as [t|] eqn:Er; [|by left].
    apply lookup_replicate in Er as [-> _]. right. by left. }
  assert (Hin : (Z.to_nat m < length fi)%nat) by (unfold fi; rewrite length_app, length_replicate; lia).
  destruct (decide (m' = m)) as [->|Hne].
  - rewrite list_lookup_alter_eq. destruct (lookup_lt_is_Some_2 fi (Z.to_nat m) Hin) as [t Et]. rewrite Et. simpl. rewrite get_put.
    assert (Ht : thmap_get t s = None).
    { destruct (Hfi (Z.to_nat m)) as [E|[[_ E]|[_ E]]]; rewrite Et in E; [|injection E as ->; apply get_create|done].
      unfold get_from_forward_index in H0. rewrite <- E in H0. destruct (thmap_get t s) as [v|] eqn:Ev; [|done].
      simpl in H0. subst v. by destruct (Hn (Z.to_nat m) t s 0 (eq_sym E)). }
    destruct (decide (s' = s)) as [->|Hs]; [rewrite decide_True by done; by rewrite Ht|]. rewrite decide_False by (by intros []).
    destruct (Hfi (Z.to_nat m)) as [E|[[E0 E]|[_ E]]]; rewrite Et in E; [by rewrite <- E| |done].
    injection E as ->. by rewrite E0, get_create.
  - rewrite decide_False by (by intros []). rewrite list_lookup_alter_ne by lia.
    destruct (Hfi (Z.to_nat m')) as [->|[[-> ->]|[-> ->]]]; try done. by rewrite get_create.
Qed.

Lemma set_nonnull h s m p : p <> 0 -> nonnull h -> nonnull (set_to_forward_index h s m p).
Proof.
  intros Hp Hn i t s' v. unfold set_to_forward_index. cbn [forward_index_ set_forward]. set (fi := forward_index_ h ++ _).
  assert (Hfi : forall i t s v, fi !! i = Some t -> thmap_get t s = Some v -> v <> 0).
  { clear i t s' v. intros i t s' v Hi Hv. apply lookup_app_Some in Hi as [Hi|[_ Hi]]; [by eapply Hn|].
    apply lookup_replicate in Hi as [-> _]. by rewrite get_create in Hv. }
  destruct (decide (i = Z.to_nat m)) as [->|Hne].
  - rewrite list_lookup_alter_eq. destruct (fi !! _) as [t0|] eqn:E; [|done]. intros [= <-]. rewrite get_put.
    case_decide; [|by eapply Hfi]. intros [= <-]. destruct (thmap_get t0 s) as [v|] eqn:Ev; [by eapply Hfi|done].
  - rewrite list_lookup_alter_ne by done. apply Hfi.
Qed.

Record indexed h (made : list (Labels * Z)) : Prop := {
  ix_flat : flat_forward_index_ h = None;
  ix_nonnull : nonnull h;
  ix_src : source_ids_ok h made.*1;
  ix_met : metric_ids_ok h made.*1;
  ix_made a p : (a, p) ∈ made -> exists s m ms,
    thmap_get (source_thmap_ h) (label_source_group a) = Some s /\ thmap_get (metric_thmap_ h) (label_metric a) = Some m /\
    get_from_forward_index h s m = p /\ deref h p = Some ms /\ ms_source_id_ ms = s /\ ms_metric_id_ ms = m;
  ix_fwd s m : 0 <= m -> get_from_forward_index h s m <> 0 -> exists a,
    (a, get_from_forward_index h s m) ∈ made /\ thmap_get (source_thmap_ h) (label_source_group a) = Some s /\
    thmap_get (metric_thmap_ h) (label_metric a) = Some m }.

Definition same_series (a b : Labels) : Prop :=
  label_source_group a = label_source_group b /\ label_metric a = label_metric b.

Lemma new_head_indexed ns nm (inverted : IV) : indexed (new_head ns nm inverted) [].
Proof.
  assert (Hc : forall i t, forward_index_ (new_head (MI := MI) (MF := MF) ns nm inverted) !! i = Some t -> t = thmap_create).
  { intros i t. simpl. intros [-> _]%lookup_replicate. done. }
  split.
  - done.
  - intros m t s v Ht Hv. apply Hc in Ht as ->. by rewrite get_create in Hv.
  - split; simpl; intros *; rewrite ?get_create; first [done|lia|set_solver].
  - split; simpl; intros *; rewrite ?get_create; first [done|lia|set_solver].
  - intros a p Hap. set_solver.
  - intros s m _. unfold get_from_forward_index. destruct (forward_index_ _ !! _) as [t|] eqn:E; [|done].
    apply Hc in E as ->. by rewrite get_create.
Qed.

Lemma deref_pos h p ms : deref h p = Some ms -> p <> 0.
Proof. unfold deref. intros E ->. done. Qed.

(** A head that has named [a] and changed nothing else: [s] and [m] are its
    ids. *)
Record renamed h h' (made : list (Labels * Z)) (a : Labels) (s m : Z) : Prop := {
  rn_forward : forward_index_ h' = forward_index_ h;
  rn_flat : flat_forward_index_ h' = None;
  rn_objects : allocated_ h' = allocated_ h;
  rn_src : source_ids_ok h' (made.*1 ++ [a]);
  rn_met : metric_ids_ok h' (made.*1 ++ [a]);
  rn_source : thmap_get (source_thmap_ h') (label_source_group a) = Some s;
  rn_metric : thmap_get (metric_thmap_ h') (label_metric a) = Some m;
  rn_old b : b ∈ made.*1 ->
    thmap_get (source_thmap_ h') (label_source_group b) = thmap_get (source_thmap_ h) (label_source_group b) /\
    thmap_get (metric_thmap_ h') (label_metric b) = thmap_get (metric_thmap_ h) (label_metric b);
  rn_pools : length (source_labels_ptr_ h') = length (source_labels_ptr_ h) /\
    length (metric_labels_ptr_ h') = length (metric_labels_ptr_ h) }.

Lemma source_id_metrics h a e s e' h' : get_or_create_source_id h a e = Some (s, e', h') -> metric_thmap_ h' = metric_thmap_ h.
Proof.
  unfold get_or_create_source_id. destruct a as [|l rest]; [by intros [= _ _ <-]|].
  destruct (thmap_get _ _); [by intros [= _ _ <-]|]. cbv zeta. destruct (pool_set _ _ _); [|done]. by intros [= _ _ <-].
Qed.

(** The first part of [get_or_create_by_thmap]. *)
Lemma name_step h made (a : Labels) :
  indexed h made -> a <> [] ->
  kinds label_source_group (made.*1 ++ [a]) < Z.of_nat (length (source_labels_ptr_ h)) < 2 ^ 64 ->
  kinds label_metric (made.*1 ++ [a]) < Z.of_nat (length (metric_labels_ptr_ h)) <= 2 ^ 16 ->
  exists s e h1 m e' h2, get_or_create_source_id h a true = Some (s, e, h1) /\
    get_or_create_metric_id h1 a e = Some (m, e', h2) /\
    renamed h (if e' then h2 else set_inverted h2 (inv_add (inverted_index_ h2) s a)) made a s m.
Proof.
  intros [Hfl _ Hs Hm _ _] Hne Hls Hlm.
  destruct (source_id_spec h a true _ Hs Hm Hne) as (s & e & h1 & E1 & Hs1 & Hm1 & Es & (A1 & A2 & A3 & A4 & A5) & Ks);
    [done|].
  destruct (metric_id_spec h1 a e _ _ Hs1 Hm1 Hne) as (m & e' & h2 & E2 & Hs2 & Hm2 & Em & Est & (B1 & B2 & B3 & B4 & B5) & Km);
    [by rewrite A5|].
  exists s, e, h1, m, e', h2. split; [done|]. split; [done|]. rewrite (source_id_metrics _ _ _ _ _ _ E1) in Km.
  rewrite <- Est in Es, Ks.
  destruct e'; split; simpl; try done; try congruence; (intros b Hb; split; [by apply Ks|by apply Km]) || (split; congruence).
Qed.

Lemma renamed_ranges h h' made a s m : renamed h h' made a s m -> 1 <= s <= kinds label_source_group (made.*1 ++ [a]) /\ 1 <= m <= kinds label_metric (made.*1 ++ [a]).
Proof.
  intros [_ _ _ Hs Hm Es Em _ _]. pose proof (io_from _ _ _ _ _ _ Hs _ _ Es) as [Rs _].
  pose proof (io_from _ _ _ _ _ _ Hm _ _ Em) as [Rm _]. pose proof (io_last _ _ _ _ _ _ Hs). pose proof (io_last _ _ _ _ _ _ Hm). lia.
Qed.

Lemma renamed_get h h' made a s m s' m' :
  renamed h h' made a s m -> get_from_forward_index h' s' m' = get_from_forward_index h s' m'.
Proof. intros Hr. unfold get_from_forward_index. by rewrite (rn_forward _ _ _ _ _ _ Hr). Qed.

(** The series made before, after the renaming. *)
Lemma renamed_made h h' made a s m b q :
  indexed h made -> renamed h h' made a s m -> (b, q) ∈ made -> exists s' m' ms,
    thmap_get (source_thmap_ h') (label_source_group b) = Some s' /\ thmap_get (metric_thmap_ h') (label_metric b) = Some m' /\
    get_from_forward_index h s' m' = q /\ deref h q = Some ms /\ ms_source_id_ ms = s' /\ ms_metric_id_ ms = m' /\ 0 <= m'.
Proof.
  intros Hi Hr Hb. destruct (ix_made _ _ Hi b q Hb) as (s' & m' & ms & G1 & G2 & G3 & G4 & G5 & G6).
  assert (Hb' : b ∈ made.*1) by (apply list_elem_of_fmap; by exists (b, q)).
  pose proof (io_from _ _ _ _ _ _ (ix_met _ _ Hi) _ _ G2) as [? _].
  destruct (rn_old _ _ _ _ _ _ Hr b Hb') as [-> ->]. exists s', m', ms. by split_and!; try lia.
Qed.

(** What the index held before, after the renaming. *)
Lemma renamed_fwd h h' made a s m s' m' x :
  indexed h made -> renamed h h' made a s m -> 0 <= m' -> get_from_forward_index h s' m' <> 0 -> exists b,
    (b, get_from_forward_index h s' m') ∈ made ++ [x] /\ thmap_get (source_thmap_ h') (label_source_group b) = Some s' /\
    thmap_get (metric_thmap_ h') (label_metric b) = Some m' /\ (b, get_from_forward_index h s' m') ∈ made.
Proof.
  intros Hi Hr Hm Hz. destruct (ix_fwd _ _ Hi s' m' Hm Hz) as (b & Hb & G1 & G2). exists b.
  assert (Hb' : b ∈ made.*1) by (apply list_elem_of_fmap; by eexists (b, _)).
  destruct (rn_old _ _ _ _ _ _ Hr b Hb') as [-> ->]. split_and!; try done. set_solver.
Qed.

(** A series that is there. *)
Lemma index_again h h' made a s m :
  indexed h made -> renamed h h' made a s m -> get_from_forward_index h s m <> 0 ->
  indexed h' (made ++ [(a, get_from_forward_index h s m)]) /\ Exists (fun bq => same_series a bq.1) made.
Proof.
  intros Hi Hr E0. pose proof (renamed_ranges _ _ _ _ _ _ Hr) as [_ Rm]. set (p := get_from_forward_index h s m) in *.
  destruct (renamed_fwd _ _ _ _ _ _ s m (a, p) Hi Hr ltac:(lia) E0) as (b & _ & G1 & G2 & Hb). fold p in Hb.
  pose proof Hr as [R1 R2 R3 Hs Hm Es Em _ _]. pose proof (io_inj _ _ _ _ _ _ Hs _ _ _ Es G1) as S1.
  pose proof (io_inj _ _ _ _ _ _ Hm _ _ _ Em G2) as S2. split; [|apply Exists_exists; by exists (b, p)].
  assert (Hmade : forall c q, (c, q) ∈ made -> exists s m ms,
    thmap_get (source_thmap_ h') (label_source_group c) = Some s /\ thmap_get (metric_thmap_ h') (label_metric c) = Some m /\
    get_from_forward_index h' s m = q /\ deref h' q = Some ms /\ ms_source_id_ ms = s /\ ms_metric_id_ ms = m).
  { intros c q Hc. destruct (renamed_made _ _ _ _ _ _ _ _ Hi Hr Hc) as (s' & m' & ms & ? & ? & ? & Hq & ? & ? & _).
    exists s', m', ms. rewrite (renamed_get _ _ _ _ _ _ _ _ Hr). split_and!; try done. unfold deref in *. by rewrite R3. }
  split; rewrite ?fmap_app; try done.
  - intros i t s' v. rewrite R1. apply (ix_nonnull _ _ Hi).
  - intros c q [Hc|[= -> ->]%list_elem_of_singleton]%elem_of_app; [by apply Hmade|]. rewrite S1, S2. by apply Hmade.
  - intros s' m' Hm'. rewrite (renamed_get _ _ _ _ _ _ _ _ Hr). intros Hz.
    destruct (renamed_fwd _ _ _ _ _ _ s' m' (a, p) Hi Hr Hm' Hz) as (c & Hc & K1 & K2 & _). by exists c.
Qed.

(** A new series. *)
Lemma index_new h h' made a s m p objects ms :
  indexed h made -> renamed h h' made a s m -> get_from_forward_index h s m = 0 ->
  p = Z.of_nat (length (allocated_ h)) + 1 -> ms_source_id_ ms = s -> ms_metric_id_ ms = m ->
  indexed (set_to_forward_index (set_objects h' objects (allocated_ h' ++ [ms])) s m p) (made ++ [(a, p)]) /\
  Forall (fun bq => ~ same_series a bq.1) made.
Proof.
  intros Hi Hr E0 Hp I1 I2. pose proof (renamed_ranges _ _ _ _ _ _ Hr) as [_ Rm].
  set (h4 := set_objects _ _ _). set (h5 := set_to_forward_index h4 s m p). pose proof Hr as [R1 R2 R3 Hs Hm Es Em _ _].
  assert (Hn4 : nonnull h4) by (intros i t s' v; simpl; rewrite R1; apply (ix_nonnull _ _ Hi)).
  assert (Hg4 : forall s m, get_from_forward_index h4 s m = get_from_forward_index h s m).
  { intros s' m'. exact (renamed_get _ _ _ _ _ _ s' m' Hr). }
  assert (Hg5 : forall s' m', 0 <= m' -> get_from_forward_index h5 s' m' =
    if decide (s' = s /\ m' = m) then p else get_from_forward_index h s' m').
  { intros s' m' Hm'. unfold h5. rewrite set_get; [by rewrite Hg4|lia|done|done|by rewrite Hg4]. }
  assert (Hold : forall q x, deref h q = Some x -> deref h5 q = Some x).
  { intros q x. unfold deref. simpl. destruct (q <=? 0); [done|]. rewrite R3. apply lookup_app_l_Some. }
  assert (Hnew : deref h5 p = Some ms).
  { unfold deref. rewrite (proj2 (Z.leb_gt _ _)) by lia. simpl. rewrite R3, Hp.
    replace (Z.to_nat _) with (length (allocated_ h)) by lia. by rewrite lookup_app_r, Nat.sub_diag. }
  split.
  - split; rewrite ?fmap_app; try done.
    + apply set_nonnull; [lia|done].
    + intros b q [Hb|[= -> ->]%list_elem_of_singleton]%elem_of_app.
      * destruct (renamed_made _ _ _ _ _ _ _ _ Hi Hr Hb) as (s' & m' & x & G1 & G2 & G3 & G4 & G5 & G6 & G7).
        exists s', m', x. rewrite Hg5 by done. rewrite decide_False; [by split_and!; auto|].
        intros [-> ->]. rewrite E0 in G3. subst q. done.
      * eexists s, m, _. rewrite Hg5 by lia. rewrite decide_True by done. by split_and!.
    + intros s' m' Hm'. rewrite Hg5 by done. case_decide as Hc.
      * destruct Hc as [-> ->]. intros _. exists a. split; [set_solver|done].
      * intros Hz. destruct (renamed_fwd _ _ _ _ _ _ s' m' (a, p) Hi Hr Hm' Hz) as (b & Hb & K1 & K2 & _). by exists b.
  - apply Forall_forall. intros [b q] Hb [H1 H2]. simpl in H1, H2.
    destruct (renamed_made _ _ _ _ _ _ _ _ Hi Hr Hb) as (s' & m' & x & G1 & G2 & G3 & G4 & _).
    rewrite <- H1, Es in G1. rewrite <- H2, Em in G2. simplify_eq. rewrite E0 in G4. done.
Qed.

(** One more label set. *)
Lemma create_step h junk made (a : Labels) :
  indexed h made -> a <> [] ->
  kinds label_source_group (made.*1 ++ [a]) < Z.of_nat (length (source_labels_ptr_ h)) <= MAX_SOURCE_NUM ->
  kinds label_metric (made.*1 ++ [a]) < Z.of_nat (length (metric_labels_ptr_ h)) <= 2 ^ 16 ->
  exists p new h', get_or_create_by_thmap h junk a = Some (p, new, h') /\ indexed h' (made ++ [(a, p)]) /\
    length (source_labels_ptr_ h') = length (source_labels_ptr_ h) /\ length (metric_labels_ptr_ h') = length (metric_labels_ptr_ h) /\
    (new = true <-> Forall (fun bq => ~ same_series a bq.1) made).
Proof.
  intros Hi Hne Hls Hlm. unfold MAX_SOURCE_NUM in Hls.
  destruct (name_step h made a Hi Hne ltac:(lia) Hlm) as (s & e & h1 & m & e' & h2 & E1 & E2 & Hr).
  unfold get_or_create_by_thmap. rewrite E1, E2. set (h3 := if e' then h2 else _) in *. clearbody h3. cbv zeta.
  rewrite read_outside by (left; exact (rn_flat _ _ _ _ _ _ Hr)). cbn [mbind option_bind]. rewrite (renamed_get _ _ _ _ _ _ s m Hr).
  pose proof (renamed_ranges _ _ _ _ _ _ Hr) as [Rs _]. destruct (rn_pools _ _ _ _ _ _ Hr) as [P1 P2].
  destruct (Z.eqb_spec (get_from_forward_index h s m) 0) as [E0|E0]; cbn [negb].
  - unfold get_mem_source. rewrite (proj2 (Z.ltb_lt _ _)) by (unfold MAX_SOURCE_NUM; lia). cbn [mbind option_bind]. unfold new_series.
    eexists _, true, _. split; [reflexivity|].
    destruct (index_new h h3 made a s m (Z.of_nat (length (allocated_ h)) + 1) ({[s]} ∪ source_array_ h3)
      (tree_mem_series junk s m UINT32_MAX 0) Hi Hr E0 eq_refl eq_refl eq_refl) as [H1 H2].
    cbn [allocated_ set_objects source_array_]. rewrite (rn_objects _ _ _ _ _ _ Hr) in *. by split_and!.
  - destruct (index_again _ _ _ _ _ _ Hi Hr E0) as [H1 H2]. eexists _, false, h3. split; [reflexivity|].
    split; [done|]. split; [done|]. split; [done|]. split; [done|]. intros Hall%Forall_Exists_neg. done.
Qed.

(** Label sets one after the other. *)
Fixpoint creates h (junk : Z) (l : list Labels) : option (list (Z * bool) * TreeHead MI MF IV) :=
  match l with
  | [] => Some ([], h)
  | a :: l =>
    match get_or_create_by_thmap h junk a with
    | None => None
    | Some (p, new, h) => match creates h junk l with None => None | Some (r, h) => Some ((p, new) :: r, h) end
    end
  end.

Lemma creates_indexed (l : list Labels) : forall h junk made,
  indexed h made -> Forall (fun a => a <> []) l ->
  kinds label_source_group (made.*1 ++ l) < Z.of_nat (length (source_labels_ptr_ h)) <= MAX_SOURCE_NUM ->
  kinds label_metric (made.*1 ++ l) < Z.of_nat (length (metric_labels_ptr_ h)) <= 2 ^ 16 ->
  exists r h', creates h junk l = Some (r, h') /\ length r = length l /\ indexed h' (made ++ zip l r.*1) /\
    forall i a p new, l !! i = Some a -> r !! i = Some (p, new) ->
      (new = true <-> Forall (fun b => ~ same_series a b) (made.*1 ++ take i l)).
Proof.
  induction l as [|a l IH]; intros h junk made Hi Hl Hs Hm.
  - exists [], h. split; [done|]. split; [done|]. rewrite app_nil_r. done.
  - apply Forall_cons_1 in Hl as [Ha Hl]. change (a :: l) with ([a] ++ l) in Hs, Hm. rewrite app_assoc in Hs, Hm.
    pose proof (kinds_app label_source_group (made.*1 ++ [a]) l). pose proof (kinds_app label_metric (made.*1 ++ [a]) l).
    destruct (create_step h junk made a Hi Ha ltac:(lia) ltac:(lia)) as (p & new & h1 & E & Hi1 & L1 & L2 & Hnew).
    destruct (IH h1 junk _ Hi1 Hl) as (r & h' & E' & Hlen & Hi' & Hrest);
      [by rewrite L1, fmap_app|by rewrite L2, fmap_app|].
    exists ((p, new) :: r), h'. cbn [creates]. rewrite E, E'. split; [done|]. split; [simpl; lia|].
    split; [by rewrite <- app_assoc in Hi'|]. intros [|i] b q nw Hb Hq; simpl in Hb, Hq.
    + simplify_eq. rewrite app_nil_r, Hnew. by rewrite Forall_fmap.
    + rewrite (Hrest i b q nw Hb Hq). rewrite fmap_app, <- app_assoc. done.
Qed.

(** The label set starts with the metric name, which it has once. *)
Definition name_first (a : Labels) : Prop :=
  exists name rest, a = name :: rest /\ label name = metric_name /\ Forall (fun l => label l <> metric_name) rest.

Lemma name_first_metric a : name_first a -> exists v, head a = Some (mkLabel metric_name v) /\ label_metric a = v.
Proof.
  intros ([n v] & rest & -> & En & _). simpl in En. subst n. exists v. split; reflexivity.
Qed.

Lemma indexed_same h made a b p q :
  indexed h made -> (a, p) ∈ made -> (b, q) ∈ made -> (p = q <-> same_series a b).
Proof.
  intros Hi Ha Hb. destruct (ix_made _ _ Hi a p Ha) as (s & m & ms & G1 & G2 & G3 & G4 & G5 & G6).
  destruct (ix_made _ _ Hi b q Hb) as (s' & m' & ms' & K1 & K2 & K3 & K4 & K5 & K6). split.
  - intros ->. assert (ms' = ms) as -> by congruence. assert (s' = s) as -> by congruence. assert (m' = m) as -> by congruence.
    split; [by eapply (io_inj _ _ _ _ _ _ (ix_src _ _ Hi))|by eapply (io_inj _ _ _ _ _ _ (ix_met _ _ Hi))].
  - intros [E1 E2]. rewrite E1 in G1. rewrite E2 in G2. congruence.
Qed.

Lemma indexed_labels h made a s m :
  indexed h made -> a ∈ made.*1 -> Forall name_first made.*1 ->
  (forall b c, b ∈ made.*1 -> c ∈ made.*1 -> label_source_group b = label_source_group c -> tail b = tail c) ->
  thmap_get (source_thmap_ h) (label_source_group a) = Some s -> thmap_get (metric_thmap_ h) (label_metric a) = Some m ->
  reconstruct_labels h s m [] = a.
Proof.
  intros Hi Ha Hnf Hinj Es Em. rewrite Forall_forall in Hnf.
  destruct (io_from _ _ _ _ _ _ (ix_src _ _ Hi) _ _ Es) as (_ & b & [Hb Eb]%first_with_elem & Pb).
  destruct (io_from _ _ _ _ _ _ (ix_met _ _ Hi) _ _ Em) as (_ & c & [Hc Ec]%first_with_elem & Pc).
  destruct (name_first_metric a (Hnf a Ha)) as (v & Hv & Ev). destruct (name_first_metric c (Hnf c Hc)) as (v' & Hv' & Ev').
  assert (v' = v) as -> by congruence. 
  unfold reconstruct_labels, pool_at. rewrite Pb, Pc, Hv'. simpl. rewrite (Hinj b a Hb Ha Eb).
  destruct a as [|x rest]; [done|]. simpl in Hv. by injection Hv as ->.
Qed.

(** C17.  The head identifies series.  Any number of label sets, none empty,
    with fewer different sources, and fewer different metric names, than the pools have
    room for are all accepted; two of them get the same series exactly when they
    agree on the metric name and on the source string, and a series is
    reported as new exactly when no earlier label set had it.  The series
    carries the ids it is found under.  When each label set starts with its
    metric name and the source string determines the other labels, the labels
    read back for a series are those it was created with. *)
Theorem series_identified ns nm (inverted : IV) junk (lsets : list Labels) :
  Forall (fun a => a <> []) lsets ->
  kinds label_source_group lsets < Z.of_nat ns <= MAX_SOURCE_NUM -> kinds label_metric lsets < Z.of_nat nm <= 2 ^ 16 ->
  exists r h, creates (new_head (MI := MI) (MF := MF) ns nm inverted) junk lsets = Some (r, h) /\ length r = length lsets /\
    (forall i j a b p q ni nj, lsets !! i = Some a -> lsets !! j = Some b -> r !! i = Some (p, ni) -> r !! j = Some (q, nj) ->
      (p = q <-> same_series a b)) /\
    (forall i a p new, lsets !! i = Some a -> r !! i = Some (p, new) ->
      (new = true <-> Forall (fun b => ~ same_series a b) (take i lsets)) /\
      exists ms, deref h p = Some ms /\ read_flat_forward_index h (ms_source_id_ ms) (ms_metric_id_ ms) = Some p /\
        (Forall name_first lsets ->
         (forall b c, b ∈ lsets -> c ∈ lsets -> label_source_group b = label_source_group c -> tail b = tail c) ->
         reconstruct_labels h (ms_source_id_ ms) (ms_metric_id_ ms) [] = a)).
Proof.
  intros Hl Hs Hm.
  destruct (creates_indexed lsets (new_head ns nm inverted) junk [] (new_head_indexed ns nm inverted) Hl)
    as (r & h & E & Hlen & Hi & Hnew); [simpl; rewrite length_replicate; lia..|].
  simpl in Hi. exists r, h. split; [done|]. split; [done|].
  assert (Hin : forall i a p new, lsets !! i = Some a -> r !! i = Some (p, new) -> (a, p) ∈ zip lsets r.*1).
  { intros i a p new Ha Hp. apply list_elem_of_lookup. exists i. apply lookup_zip_with_Some. exists a, p.
    split; [done|]. split; [done|]. rewrite list_lookup_fmap, Hp. done. }
  assert (Hz : (zip lsets r.*1).*1 = lsets) by (apply fst_zip; rewrite length_fmap, Hlen; reflexivity).
  split.
  - intros i j a b p q ni nj Ha Hb Hp Hq. apply (indexed_same h _ a b p q Hi); by eapply Hin.
  - intros i a p new Ha Hp. split; [by apply (Hnew i a p new)|].
    destruct (ix_made _ _ Hi a p) as (s & m & ms & G1 & G2 & G3 & G4 & <- & <-); [by eapply Hin|].
    exists ms. split; [done|]. split; [rewrite read_outside by (left; apply (ix_flat _ _ Hi)); by rewrite G3|].
    intros Hnf Hinj. rewrite <- Hz in Hnf, Hinj. apply (indexed_labels h _ a _ _ Hi); try done.
    rewrite Hz. by apply (list_elem_of_lookup_2 _ i).
Qed.

End Names.

(** ** The arena of the labels *)

Definition kLabelArenaChunkSize : Z := 64 * 1024.

(** [label_arena_], the sizes of its chunks, and [label_arena_chunk_offset_]. *)
Record Arena := mkArena { arena_chunks : list Z; arena_offset : Z }.

(** [label_arena_alloc]: the chunk and the offset in it. *)
Definition label_arena_alloc (a : Arena) (size alignment : Z) : nat * Z * Arena :=
  let a := match arena_chunks a with [] => mkArena [kLabelArenaChunkSize] 0 | _ => a end in
  let aligned := Z.land (u64 (arena_offset a + alignment - 1)) (u64 (Z.lnot (alignment - 1))) in
  let '(chunks, aligned) :=
    if kLabelArenaChunkSize <? u64 (aligned + size) then
      (arena_chunks a ++ [if kLabelArenaChunkSize <? size then size else kLabelArenaChunkSize], 0)
    else (arena_chunks a, aligned) in
  ((length chunks - 1)%nat, aligned, mkArena chunks (u64 (aligned + size))).

(** Requests one after the other: the chunk, the offset and the size of each
    block. *)
Fixpoint arena_allocs (a : Arena) (l : list (Z * Z)) : list (nat * Z * Z) * Arena :=
  match l with
  | [] => ([], a)
  | (size, alignment) :: l =>
    let '(c, o, a) := label_arena_alloc a size alignment in
    let '(r, a) := arena_allocs a l in ((c, o, size) :: r, a)
  end.

(** Blocks handed out: inside their chunk and, in the last chunk, below the
    offset. *)
Definition arena_ok (a : Arena) (out : list (nat * Z * Z)) : Prop :=
  0 <= arena_offset a < 2 ^ 60 /\ (arena_chunks a = [] -> out = []) /\
  (forall n, last (arena_chunks a) = Some n -> kLabelArenaChunkSize <= n /\ arena_offset a <= n) /\
  forall c o sz, (c, o, sz) ∈ out -> 0 <= o /\ (exists n, arena_chunks a !! c = Some n /\ o + sz <= n) /\
    (S c = length (arena_chunks a) -> o + sz <= arena_offset a).

Definition apart_blocks (x y : nat * Z * Z) : Prop :=
  let '(c, o, sz) := x in let '(c', o', sz') := y in c = c' -> o + sz <= o' \/ o' + sz' <= o.

Lemma round_up x k : 0 <= x < 2 ^ 62 -> 0 <= k <= 16 ->
  exists q, Z.land (u64 (x + 2 ^ k - 1)) (u64 (Z.lnot (2 ^ k - 1))) = q * 2 ^ k /\ x <= q * 2 ^ k < x + 2 ^ k.
Proof.
  intros Hx Hk. assert (Hp : 1 <= 2 ^ k <= 2 ^ 16) by (split; [apply (Z.pow_le_mono_r 2 0 k)|apply Z.pow_le_mono_r]; lia).
  unfold u64 at 1. rewrite wrap_id by (unfold is_u; lia). exists ((x + 2 ^ k - 1) / 2 ^ k).
  assert (E : Z.land (x + 2 ^ k - 1) (u64 (Z.lnot (2 ^ k - 1))) = (x + 2 ^ k - 1) / 2 ^ k * 2 ^ k).
  { unfold u64, wrap. rewrite <- Z.land_ones by lia. rewrite Z.land_assoc, (Z.land_comm _ (Z.lnot _)), <- Z.land_assoc.
    rewrite Z.land_ones by lia. rewrite Z.mod_small by lia. rewrite Z.land_comm.
    change (Z.land ?a (Z.lnot ?b)) with (Z.land a (Z.lnot b)). rewrite <- Z.ldiff_land.
    replace (2 ^ k - 1) with (Z.ones k) by (rewrite Z.ones_equiv; lia). rewrite Z.ldiff_ones_r by lia.
    by rewrite Z.shiftl_mul_pow2, Z.shiftr_div_pow2 by lia. }
  split; [done|]. pose proof (Z.div_mod (x + 2 ^ k - 1) (2 ^ k) ltac:(lia)). pose proof (Z.mod_pos_bound (x + 2 ^ k - 1) (2 ^ k) ltac:(lia)). nia.
Qed.

Lemma last_length {A} (l : list A) x : last l = Some x -> l !! (length l - 1)%nat = Some x /\ l <> [].
Proof. rewrite last_lookup. intros E. destruct l; [done|]. simpl in *. by rewrite Nat.sub_0_r. Qed.

(** One more block. *)
Lemma arena_alloc_ok a out size k :
  arena_ok a out -> 0 < size < 2 ^ 59 -> 0 <= k <= 16 ->
  exists c o a', label_arena_alloc a size (2 ^ k) = (c, o, a') /\ arena_ok a' (out ++ [(c, o, size)]) /\
    (2 ^ k | o) /\ Forall (apart_blocks (c, o, size)) out.
Proof.
  intros (Ho & He & Hl & Hout) Hs Hk. unfold label_arena_alloc.
  set (b := match arena_chunks a with [] => _ | _ => a end).
  assert (Hb : arena_chunks b <> [] /\ 0 <= arena_offset b < 2 ^ 60 /\
    (forall n, last (arena_chunks b) = Some n -> kLabelArenaChunkSize <= n /\ arena_offset b <= n) /\
    forall c o sz, (c, o, sz) ∈ out -> 0 <= o /\ (exists n, arena_chunks b !! c = Some n /\ o + sz <= n) /\
      (S c = length (arena_chunks b) -> o + sz <= arena_offset b)).
  { unfold b. destruct (arena_chunks a) as [|x l] eqn:E; [|split; [by rewrite E|]; split; [exact Ho|]; rewrite E; split; [exact Hl|exact Hout]]. rewrite He by done.
    unfold kLabelArenaChunkSize. simpl.
    split; [done|]. split; [lia|]. split; [intros n [= <-]; lia|]. intros c o sz Hc. by apply not_elem_of_nil in Hc. }
  clearbody b. clear a Ho He Hl Hout. destruct Hb as (Hne & Ho & Hl & Hout). cbv zeta.
  destruct (round_up (arena_offset b) k ltac:(lia) Hk) as (q & -> & Hq).
  assert (Hp : 1 <= 2 ^ k <= 2 ^ 16) by (split; [apply (Z.pow_le_mono_r 2 0 k)|apply Z.pow_le_mono_r]; lia).
  assert (Hw : u64 (q * 2 ^ k + size) = q * 2 ^ k + size) by (apply wrap_id; unfold is_u; lia). rewrite Hw.
  assert (Hlt : forall c n, arena_chunks b !! c = Some n -> (c < length (arena_chunks b))%nat) by (intros; by eapply lookup_lt_Some).
  destruct (Z.ltb_spec kLabelArenaChunkSize (q * 2 ^ k + size)) as [Hbig|Hfit].
  - (* a new chunk *)
    set (n := if kLabelArenaChunkSize <? size then size else kLabelArenaChunkSize).
    assert (Hn : kLabelArenaChunkSize <= n /\ size <= n) by (unfold n, kLabelArenaChunkSize; destruct (Z.ltb_spec (64 * 1024) size); lia).
    replace (u64 (0 + size)) with size by (symmetry; apply wrap_id; unfold is_u; lia).
    eexists _, 0, _. split; [reflexivity|]. rewrite length_app. simpl length. replace (length (arena_chunks b) + 1 - 1)%nat with (length (arena_chunks b)) by lia.
    split; [|split; [apply Z.divide_0_r|]].
    + split; [simpl; lia|]. split; [simpl; intros E%app_nil; by destruct E|]. split.
      { simpl. intros n'. rewrite last_snoc. intros [= <-]. lia. }
      simpl. intros c o sz [Hc|[= -> -> ->]%list_elem_of_singleton]%elem_of_app.
      * destruct (Hout c o sz Hc) as (H0 & (n' & Hn' & Hle) & _). split; [done|]. split.
        { exists n'. split; [by apply lookup_app_l_Some|done]. }
        rewrite length_app. simpl. apply Hlt in Hn'. lia.
      * split; [done|]. split; [|lia]. exists n. rewrite lookup_app_r, Nat.sub_diag by lia. split; [done|lia].
    + apply Forall_forall. intros [[c o] sz] Hc. destruct (Hout c o sz Hc) as (_ & (n' & Hn'%Hlt & _) & _). simpl. lia.
  - (* room in the last chunk *)
    destruct (last (arena_chunks b)) as [n|] eqn:El; [|by apply last_None in El].
    destruct (Hl n eq_refl) as [Hn1 Hn2]. apply last_length in El as [El _].
    eexists _, _, _. split; [reflexivity|]. rewrite Hw. split; [|split; [by exists q|]].
    + split; [unfold kLabelArenaChunkSize in *; simpl; lia|]. split; [done|]. split.
      { simpl. intros n' En'. apply last_length in En' as [En' _]. rewrite El in En'. injection En' as <-. lia. }
      simpl. intros c o sz [Hc|[= -> -> ->]%list_elem_of_singleton]%elem_of_app.
      * destruct (Hout c o sz Hc) as (H0 & H1 & H2). split; [done|]. split; [done|]. intros E%H2. lia.
      * split; [lia|]. split; [|lia]. exists n. split; [done|lia].
    + apply Forall_forall. intros [[c o] sz] Hc. destruct (Hout c o sz Hc) as (_ & (n' & Hn'%Hlt & _) & H2). simpl. intros E.
      right. assert (S c = length (arena_chunks b)) as E2%H2 by lia. lia.
Qed.

Lemma arena_allocs_ok l : forall a out,
  arena_ok a out -> Forall (fun x => 0 < x.1 < 2 ^ 59 /\ exists k, x.2 = 2 ^ k /\ 0 <= k <= 16) l ->
  exists r a', arena_allocs a l = (r, a') /\ arena_ok a' (out ++ r) /\ length r = length l /\
    (forall i size al, l !! i = Some (size, al) -> exists c o, r !! i = Some (c, o, size) /\ (al | o)) /\
    (forall i x y, r !! i = Some y -> x ∈ out ++ take i r -> apart_blocks y x).
Proof.
  induction l as [|[size al] l IH]; intros a out Ha Hl.
  { exists [], a. rewrite app_nil_r. by split_and!. }
  apply Forall_cons_1 in Hl as [[Hs (k & Ek & Hk)] Hl]. simpl in Hs, Ek. subst al.
  destruct (arena_alloc_ok a out size k Ha Hs Hk) as (c & o & a1 & E & Ha1 & Hd & Hap).
  destruct (IH a1 _ Ha1 Hl) as (r & a' & E' & Ha' & Hlen & Hreq & Hold).
  exists ((c, o, size) :: r), a'. cbn [arena_allocs]. rewrite E, E'. split; [done|].
  split; [by rewrite <- app_assoc in Ha'|]. split; [simpl; lia|]. split.
  - intros [|i] sz al; simpl; [intros [= <- <-]; by exists c, o|apply Hreq].
  - intros [|i] x y; simpl.
    + intros [= <-]. rewrite app_nil_r. by apply Forall_forall.
    + intros Hy Hx. apply (Hold i x y Hy). rewrite <- app_assoc. done.
Qed.

(** C39.  The arena of the labels.  Whatever is asked for, large requests
    included, each block starts at its alignment and ends inside its chunk, and
    no two blocks overlap, so labels placed there never overwrite each
    other. *)
Theorem arena_blocks_disjoint l :
  Forall (fun x => 0 < x.1 < 2 ^ 59 /\ exists k, x.2 = 2 ^ k /\ 0 <= k <= 16) l ->
  exists r a, arena_allocs (mkArena [] 0) l = (r, a) /\ length r = length l /\
    (forall i size al, l !! i = Some (size, al) -> exists c o n, r !! i = Some (c, o, size) /\ (al | o) /\
       arena_chunks a !! c = Some n /\ 0 <= o /\ o + size <= n) /\
    (forall i j x y, (i < j)%nat -> r !! i = Some x -> r !! j = Some y -> apart_blocks y x).
Proof.
  intros Hl. destruct (arena_allocs_ok l (mkArena [] 0) []) as (r & a & E & Ha & Hlen & Hreq & Hold); [|done|].
  { split; [simpl; lia|]. split; [done|]. split; [done|]. intros c o sz Hc. by apply not_elem_of_nil in Hc. }
  exists r, a. split; [done|]. split; [done|]. split.
  - intros i size al Hi. destruct (Hreq i size al Hi) as (c & o & Hr & Hd). destruct Ha as (_ & _ & _ & Ha).
    destruct (Ha c o size) as (H0 & (n & Hn & Hle) & _); [by eapply (list_elem_of_lookup_2 _ i)|]. by exists c, o, n.
  - intros i j x y Hij Hx Hy. apply (Hold j x y Hy). apply (list_elem_of_lookup_2 _ i). simpl. rewrite lookup_take_lt by done. done.
Qed.

(** ** Instances *)

Module HeadDemo.

(** Finite maps, and an inverted index that lists what it was given. *)
Definition Head : Type := TreeHead (gmap str Z) (gmap Z Z) (list (Z * Labels)).
#[local] Instance demo_inverted : InvertedIndex (list (Z * Labels)) := fun l id a => l ++ [(id, a)].
#[local] Instance demo_past : PastEnd := fun _ => 0.

(** [cpu] and [mem] of two hosts. *)
Definition lset (metric host : Z) : Labels := [mkLabel metric_name [metric]; mkLabel [104] [host]].
Definition demo_sets : list Labels := [lset 1 1; lset 2 1; lset 1 2; lset 1 1].

(** The head after the first three series, with its index moved. *)
Definition made : Head :=
  match creates (new_head 8 8 []) 0 (take 3 demo_sets) with Some (_, h) => h | None => new_head 8 8 [] end.
Definition moved : Head := snd (migrate_to_flat_forward_index made (replicate 4 7) 2 2).

Lemma demo_facts :
  flat_forward_index_ made = None /\ flat_forward_index_ moved = Some [1; 3; 2; 0] /\
  migrate_mid_ moved = 2 /\ migrate_sgid_ moved = 2 /\ length (forward_index_ moved) = 8%nat.
Proof. vm_compute. done. Qed.

Lemma demo_moved_ok : flat_ok moved.
Proof. unfold flat_ok. destruct demo_facts as (_ & -> & -> & -> & ->). simpl. lia. Qed.

(** The index moved, and read where a series is and where there is none. *)
Lemma migration_invisible_witness :
  read_flat_forward_index moved 1 2 = read_flat_forward_index made 1 2 /\
  read_flat_forward_index moved 2 2 = read_flat_forward_index made 2 2 /\ 2 <= migrate_mid_ moved.
Proof.
  destruct (migration_invisible made (replicate 4 7) 2 2 true moved) as (_ & H1 & H2);
    [unfold flat_ok; by destruct demo_facts as (-> & _)|lia|lia|reflexivity|lia|vm_compute; reflexivity|].
  split; [apply H1; lia|]. split; [apply H1; lia|]. apply H2. reflexivity.
Defined.

(** [mem] of the second host, first seen after the move. *)
Lemma late_series_lost_witness :
  exists p h' p' h'', get_or_create_by_thmap moved 0 (lset 2 2) = Some (p, true, h') /\ p <> 0 /\
    read_flat_forward_index h' 2 2 = Some 0 /\
    get_or_create_by_thmap h' 0 (lset 2 2) = Some (p', true, h'') /\ p' <> p /\ read_flat_forward_index h'' 2 2 = Some 0.
Proof.
  apply (late_series_lost moved 0 (lset 2 2) 2 2 demo_moved_ok).
  - destruct demo_facts as (_ & -> & _). by eexists.
  - done.
  - vm_compute. reflexivity.
  - vm_compute. reflexivity.
  - destruct demo_facts as (_ & _ & -> & _). lia.
  - destruct demo_facts as (_ & _ & _ & -> & _). lia.
  - unfold MAX_SOURCE_NUM. lia.
  - lia.
  - vm_compute. reflexivity.
Defined.

Definition source_determines (b c : Labels) : Prop := label_source_group b = label_source_group c -> tail b = tail c.

Lemma demo_sources : forall b c, b ∈ demo_sets -> c ∈ demo_sets -> source_determines b c.
Proof.
  assert (H : Forall (fun b => Forall (source_determines b) demo_sets) demo_sets).
  { repeat constructor; unfold source_determines; first [reflexivity|vm_compute; intros [=]]. }
  intros b c Hb Hc. rewrite Forall_forall in H. specialize (H b Hb). rewrite Forall_forall in H. exact (H c Hc).
Qed.

(** Four label sets, the last a repetition of the first: its labels. *)
Lemma series_identified_witness :
  exists r (h : Head), creates (new_head 3 3 []) 0 demo_sets = Some (r, h) /\
    exists p new ms, r !! 3%nat = Some (p, new) /\ (new = true <-> Forall (fun b => ~ same_series (lset 1 1) b) (take 3 demo_sets)) /\
    deref h p = Some ms /\ reconstruct_labels h (ms_source_id_ ms) (ms_metric_id_ ms) [] = lset 1 1.
Proof.
  destruct (series_identified (MI := gmap str Z) (MF := gmap Z Z) 3 3 ([] : list (Z * Labels)) 0 demo_sets)
    as (r & h & E & Hl & _ & H).
  { repeat constructor; done. }
  { split; [apply Z.ltb_lt; vm_compute; reflexivity|unfold MAX_SOURCE_NUM; lia]. }
  { split; [apply Z.ltb_lt; vm_compute; reflexivity|lia]. }
  exists r, h. split; [exact E|]. destruct (lookup_lt_is_Some_2 r 3) as [[p new] Ep]; [rewrite Hl; simpl; lia|].
  destruct (H 3%nat (lset 1 1) p new eq_refl Ep) as (H1 & ms & H2 & _ & H3). exists p, new, ms.
  split; [exact Ep|]. split; [exact H1|]. split; [exact H2|]. apply H3.
  - repeat constructor; (eexists _, _; split; [reflexivity|]; split; [reflexivity|]; repeat constructor; done).
  - apply demo_sources.
Defined.

(** A block in a full chunk, and one larger than a chunk. *)
Lemma arena_blocks_disjoint_witness :
  exists r a, arena_allocs (mkArena [] 0) [(24, 8); (65530, 16); (100000, 8); (64, 8)] = (r, a) /\ length r = 4%nat.
Proof.
  destruct (arena_blocks_disjoint [(24, 8); (65530, 16); (100000, 8); (64, 8)]) as (r & a & E & Hl & _).
  { repeat apply Forall_cons_2; [..|apply Forall_nil_2]; (split; [simpl; lia|]);
      [exists 3|exists 4|exists 3|exists 3]; split; (reflexivity || lia). }
  exists r, a. split; [exact E|exact Hl].
Defined.

End HeadDemo.
