(* ===== verification/HeadAppender.v ===== *)
(** head/TreeHeadAppender.hpp: adding samples to the tree head.

    An appender gathers new series and samples, logs them and appends each
    sample to its series, which hands full chunks to the slab store.  The log
    is an interface, [LogSink]: the logs of parallel_wal are one instance, a
    recorder of what is logged, in order, is the other.  [None] is a crash or
    a wait that does not end. *)
From Stdlib Require Import ZArith Lia Bool.
From stdpp Require Import base list numbers option gmap.
From S2P Require Import Prelude Endian Coding Label Crc32c WalLog WalRecords Gorilla ParallelWal.
From S2P Require Import BitStream XORChunk MassTree SlabStore SlabFlush TreeMemSeries HeadIndex.

(** ** The log *)

Class LogSink (P : Type) := {
  sink_series : P -> TreeRefSeries -> option P;
  sink_sample : P -> TreeRefSample -> option P }.

#[export] Instance pwal_sink `{PastEnd} `{Accelerated} `{Placement} `{WritableFile F} `{!FreshFile F}
    : LogSink (PWalManagement F) := {
  sink_series p s := AppendSeries s p;
  sink_sample p s := AppendSample s p }.

(** What has been logged, the oldest first. *)
Definition Recorder : Type := list TreeRefSeries * list TreeRefSample.

#[export] Instance recorder_sink : LogSink Recorder := {
  sink_series p s := Some (p.1 ++ [s], p.2);
  sink_sample p s := Some (p.1, p.2 ++ [s]) }.

(** ** The appender *)

Record TreeHeadAppender := mkAppender { app_series : list TreeRefSeries; app_samples : list TreeRefSample }.

(** [head->appender()] *)
Definition new_appender : TreeHeadAppender := mkAppender [] [].

Section Appender.
Context `{PE : PastEnd} `{TI : Thmap str Z MI} `{TF : Thmap Z Z MF} `{IX : InvertedIndex IV}.
Context `{CS : ChunkStore St} `{TH : !Threads St} `{LK : LogSink P}.
Implicit Types (h : TreeHead MI MF IV) (app : TreeHeadAppender).

(** Whether it was accepted. *)
Definition add_fast h app (s m t v : Z) : option (bool * TreeHeadAppender) :=
  ms ← read_flat_forward_index h s m;
  if ms =? 0 then Some (false, app)
  else Some (true, mkAppender (app_series app) (app_samples app ++ [mkTreeRefSample s m t v 0])).

(** The status, the ids, the appender and the head. *)
Definition add h app (junk : Z) (lset : Labels) (t v : Z) : option (bool * Z * Z * TreeHeadAppender * TreeHead MI MF IV) :=
  match get_or_create_by_thmap h junk lset with
  | None => None
  | Some (p, created, h) =>
    s ← deref h p;
    let sgid := ms_source_id_ s in
    let mid := ms_metric_id_ s in
    let app := if created then mkAppender (app_series app ++ [mkTreeRefSeries sgid mid lset None 0 0]) (app_samples app) else app in
    '(ok, app) ← add_fast h app sgid mid t v;
    Some (ok, sgid, mid, app, h)
  end.

Definition add_mock h (lset : Labels) : option (bool * TreeHead MI MF IV) :=
  match get_or_create_metric_id h lset true with
  | None => None
  | Some (_, is_exist, h) =>
    match get_or_create_source_id h lset is_exist with
    | None => None
    | Some (_, _, h) => Some (true, h)
    end
  end.

(** [for (auto & s : l) f(s)] *)
Fixpoint each {A B} (f : B -> A -> option B) (l : list A) (b : B) : option B :=
  match l with
  | [] => Some b
  | a :: l => b ← f b a; each f l b
  end.

Definition log app (p : P) : option P :=
  p ← each sink_series (app_series app) p;
  each sink_sample (app_samples app) p.

(** [ms->append(...)] on the object [ptr] points to. *)
Definition set_series h (ptr : Z) (ms : TreeMemSeries) : TreeHead MI MF IV :=
  set_objects h (source_array_ h) (<[Z.to_nat (ptr - 1) := ms]> (allocated_ h)).

Definition append_sample_of h (st : St) (s : TreeRefSample) : option (TreeHead MI MF IV * St) :=
  ptr ← read_flat_forward_index h (sgid s) (mid s);
  if ptr =? 0 then Some (h, st)
  else
    ms ← deref h ptr;
    '(_, ms, st) ← tree_append ms (t_t s) (t_v s) st;
    Some (set_series h ptr ms, st).

(** The loop over the samples in [commit] and [recover_commit]. *)
Definition append_samples (l : list TreeRefSample) h (st : St) : option (TreeHead MI MF IV * St) :=
  each (fun '(h, st) s => append_sample_of h st s) l (h, st).

Definition commit h (st : St) app (p : P) : option (TreeHead MI MF IV * St * TreeHeadAppender * P) :=
  p ← log app p;
  '(h, st) ← append_samples (app_samples app) h st;
  Some (h, st, new_appender, p).

Definition recover_commit h (st : St) app : option (TreeHead MI MF IV * St * TreeHeadAppender) :=
  '(h, st) ← append_samples (app_samples app) h st;
  Some (h, st, new_appender).

(** [rollback]: the series stay in the appender. *)
Definition rollback app (p : P) : option (TreeHeadAppender * P) :=
  let app := mkAppender (app_series app) [] in
  p ← log app p;
  Some (app, p).

(** ** Transactions *)

Record Request := mkRequest { rq_lset : Labels; rq_t : Z; rq_v : Z }.

(** Requests added one after the other. *)
Definition adds (junk : Z) (l : list Request) h app : option (TreeHead MI MF IV * TreeHeadAppender) :=
  each (fun '(h, app) r =>
    match add h app junk (rq_lset r) (rq_t r) (rq_v r) with None => None | Some (_, _, _, app, h) => Some (h, app) end) l (h, app).

(** An appender per transaction, each committed. *)
Definition transactions (junk : Z) (l : list (list Request)) h (st : St) (p : P) : option (TreeHead MI MF IV * St * P) :=
  each (fun '(h, st, p) rs =>
    match adds junk rs h new_appender with
    | None => None
    | Some (h, app) => match commit h st app p with None => None | Some (h, st, _, p) => Some (h, st, p) end
    end) l (h, st, p).

End Appender.

(** ** What the head holds *)

(** The chunks of a series among those handed over. *)
Definition put_of (s m : Z) (p : Put) : Prop := p_source p = s /\ p_metric p = m.
#[export] Instance put_of_dec s m p : Decision (put_of s m p).
Proof. unfold put_of. apply _. Defined.

(** The samples of a series among those logged. *)
Definition sample_of (s m : Z) (x : TreeRefSample) : Prop := sgid x = s /\ mid x = m.
#[export] Instance sample_of_dec s m x : Decision (sample_of s m x).
Proof. unfold sample_of. apply _. Defined.

Definition tv (x : TreeRefSample) : Z * Z := (t_t x, t_v x).
Definition samples_of (s m : Z) (l : list TreeRefSample) : list (Z * Z) := tv <$> filter (sample_of s m) l.

Lemma samples_of_app s m l k : samples_of s m (l ++ k) = samples_of s m l ++ samples_of s m k.
Proof. unfold samples_of. by rewrite filter_app, fmap_app. Qed.

Lemma samples_of_none s m l : Forall (fun x => ~ sample_of s m x) l -> samples_of s m l = [].
Proof.
  unfold samples_of. induction 1 as [|x l Hx _ IH]; [done|]. by rewrite filter_cons, decide_False.
Qed.

Lemma samples_of_one x : samples_of (sgid x) (mid x) [x] = [tv x].
Proof. unfold samples_of. by rewrite filter_cons, decide_True. Qed.

Lemma filter_ext_in {A} (P Q : A -> Prop) `{!forall x, Decision (P x)} `{!forall x, Decision (Q x)} (l : list A) :
  (forall x, x ∈ l -> (P x <-> Q x)) -> filter P l = filter Q l.
Proof.
  induction l as [|x l IH]; intros Hpq; [done|]. rewrite !filter_cons. pose proof (Hpq x ltac:(set_solver)) as Hx.
  rewrite IH by (intros y Hy; apply Hpq; set_solver). destruct (decide (P x)), (decide (Q x)); tauto.
Qed.

(** Ids that a chunk can carry. *)
Definition ids_fit (s m : Z) : Prop := is_u 16 m /\ is_u64 s /\ id_ok s m.

Section Holding.
Context `{PE : PastEnd} `{TI : Thmap str Z MI} `{TIL : !ThmapLaws str Z MI} `{TF : Thmap Z Z MF} `{TL : !ThmapLaws Z Z MF}.
Context `{IX : InvertedIndex IV} `{CS : ChunkStore St} `{TH : !Threads St} `{SS : !StoreSpec St}.
Implicit Types (h : TreeHead MI MF IV) (puts : list Put) (L : list TreeRefSample).

(** The samples of a series: those handed over and those in memory. *)
Definition stored_samples h puts (s m : Z) : list (Z * Z) :=
  concat (map put_samples (filter (put_of s m) puts)) ++
  match deref h (get_from_forward_index h s m) with Some ms => head_samples ms | None => [] end.

Definition known h (s m : Z) : Prop := 0 <= m /\ get_from_forward_index h s m <> 0.

(** The series of [h] hold the samples [L]. *)
Record holding h puts L : Prop := {
  hd_flat : flat_forward_index_ h = None;
  hd_at s m : known h s m -> exists ms kept, deref h (get_from_forward_index h s m) = Some ms /\
    ms_source_id_ ms = s /\ ms_metric_id_ ms = m /\ ids_fit s m /\ filling ms kept /\
    concat (map put_samples (filter (put_of s m) puts)) ++ kept = samples_of s m L;
  hd_puts : Forall (fun p => known h (p_source p) (p_metric p)) puts;
  hd_samples : Forall (fun x => known h (sgid x) (mid x)) L }.

Lemma holding_stored h puts L s m : holding h puts L -> known h s m -> stored_samples h puts s m = samples_of s m L.
Proof.
  intros Hh Hk. destruct (hd_at _ _ _ Hh s m Hk) as (ms & kept & E & _ & _ & _ & Hf & Hc). unfold stored_samples.
  by rewrite E, (filling_samples _ _ Hf).
Qed.

(** Everything but the objects. *)
Definition same_but_objects h h' : Prop := exists l, h' = set_objects h (source_array_ h) l /\ length l = length (allocated_ h).

Lemma same_but_objects_trans h h' h'' : same_but_objects h h' -> same_but_objects h' h'' -> same_but_objects h h''.
Proof. intros (l & -> & H1) (l' & -> & H2). exists l'. split; [done|]. simpl in H2. congruence. Qed.

Lemma set_series_same h p ms : same_but_objects h (set_series h p ms).
Proof. eexists. split; [reflexivity|]. apply length_insert. Qed.

Lemma deref_set h p q ms x :
  deref h p = Some x -> deref (set_series h p ms) q = if decide (q = p) then Some ms else deref h q.
Proof.
  unfold deref, set_series. cbn [allocated_ set_objects]. intros Ex. destruct (Z.leb_spec p 0) as [|Hp]; [done|].
  apply lookup_lt_Some in Ex. destruct (decide (q = p)) as [->|Hne].
  - rewrite (proj2 (Z.leb_gt _ _)) by lia. by apply list_lookup_insert_eq.
  - destruct (Z.leb_spec q 0) as [|Hq]; [done|]. by rewrite list_lookup_insert_ne by lia.
Qed.

Lemma filter_puts s m s' m' (new : list Put) :
  Forall (fun p => good_put s m p (put_samples p)) new ->
  filter (put_of s' m') new = if decide (s' = s /\ m' = m) then new else [].
Proof.
  intros Hn. case_decide as Hc.
  - destruct Hc as [-> ->]. induction Hn as [|p l (H1 & H2 & _) _ IH]; [done|]. rewrite filter_cons, decide_True by done. by f_equal.
  - induction Hn as [|p l (H1 & H2 & _) _ IH]; [done|]. rewrite filter_cons, decide_False; [done|].
    intros [K1 K2]. apply Hc. split; congruence.
Qed.

(** A sample of a known series. *)
Lemma append_known h st puts L x :
  holding h puts L -> store_ok st -> known h (sgid x) (mid x) -> sample_ok (tv x) ->
  exists h' st' puts', append_sample_of h (st, puts) x = Some (h', (st', puts')) /\ store_ok st' /\
    holding h' puts' (L ++ [x]) /\ same_but_objects h h'.
Proof.
  intros Hh Hst Hk Hx. unfold append_sample_of. rewrite read_outside by (left; exact (hd_flat _ _ _ Hh)). cbn [mbind option_bind].
  destruct (hd_at _ _ _ Hh _ _ Hk) as (ms & kept & E & I1 & I2 & (F1 & F2 & F3) & Hf & Hc).
  rewrite (proj2 (Z.eqb_neq _ _)) by apply Hk. rewrite E. cbn [mbind option_bind].
  destruct (tree_append_spec ms (t_t x) (t_v x) st puts kept Hf Hx Hst)
    as (fl & ms' & st' & puts' & -> & Hst' & kept' & new & handed & -> & Hg & Hcat & Hf' & J1 & J2); rewrite ?I1, ?I2; try done.
  cbn [mbind option_bind]. do 3 eexists. split; [reflexivity|]. split; [done|]. split; [|apply set_series_same].
  rewrite I1, I2 in Hg. rewrite (good_put_samples _ _ _ _ Hg) in Hcat. apply good_put_self in Hg.
  set (p := get_from_forward_index h (sgid x) (mid x)) in *.
  assert (Hget : forall s m, get_from_forward_index (set_series h p ms') s m = get_from_forward_index h s m) by done.
  split.
  - exact (hd_flat _ _ _ Hh).
  - intros s m Hk'. unfold known in Hk'. rewrite Hget in Hk'. destruct (hd_at _ _ _ Hh s m Hk') as (ms2 & kept2 & E2 & K1 & K2 & K3 & K4 & K5).
    rewrite Hget, (deref_set _ _ _ _ _ E), filter_app, (filter_puts _ _ _ _ _ Hg), samples_of_app.
    destruct (decide (s = sgid x /\ m = mid x)) as [[-> ->]|Hne].
    + rewrite decide_True by done. exists ms', kept'. rewrite map_app, concat_app, <- app_assoc, Hcat, app_assoc, Hc, J1, J2.
      rewrite samples_of_one. by split_and!.
    + rewrite decide_False. 2:{ intros Ep. fold p in E. rewrite Ep in E2. apply Hne. split; congruence. }
      exists ms2, kept2. rewrite (samples_of_none s m [x]), !app_nil_r, K5; [done|]. apply Forall_singleton. intros [? ?]. by apply Hne.
  - apply Forall_app. split; [exact (hd_puts _ _ _ Hh)|]. eapply List.Forall_impl; [|exact Hg].
    intros q (Q1 & Q2 & _). unfold known. rewrite Q1, Q2, Hget. exact Hk.
  - apply Forall_app. split; [exact (hd_samples _ _ _ Hh)|]. by apply Forall_singleton.
Qed.

Lemma same_known h h' s m : same_but_objects h h' -> known h s m -> known h' s m.
Proof. by intros (l & -> & _). Qed.

Lemma append_samples_known l : forall h st puts L,
  holding h puts L -> store_ok st -> Forall (fun x => known h (sgid x) (mid x) /\ sample_ok (tv x)) l ->
  exists h' st' puts', append_samples l h (st, puts) = Some (h', (st', puts')) /\ store_ok st' /\
    holding h' puts' (L ++ l) /\ same_but_objects h h'.
Proof.
  induction l as [|x l IH]; intros h st puts L Hh Hst Hl.
  - exists h, st, puts. rewrite app_nil_r. split_and!; try done. exists (allocated_ h). by destruct h.
  - apply Forall_cons_1 in Hl as [[Hk Hx] Hl].
    destruct (append_known h st puts L x Hh Hst Hk Hx) as (h1 & st1 & puts1 & E & Hst1 & Hh1 & Hs1).
    destruct (IH h1 st1 puts1 _ Hh1 Hst1) as (h2 & st2 & puts2 & E2 & Hst2 & Hh2 & Hs2).
    { eapply List.Forall_impl; [|exact Hl]. intros y [Hy ?]. split; [by eapply same_known|done]. }
    exists h2, st2, puts2. unfold append_samples in *. cbn [each]. rewrite E. cbn [mbind option_bind]. rewrite <- app_assoc in Hh2.
    split_and!; try done. by eapply same_but_objects_trans.
Qed.

End Holding.

(** ** Creating series *)

Section Creating.
Context `{PE : PastEnd} `{TI : Thmap str Z MI} `{TIL : !ThmapLaws str Z MI} `{TF : Thmap Z Z MF} `{TL : !ThmapLaws Z Z MF}.
Context `{IX : InvertedIndex IV} `{CS : ChunkStore St} `{TH : !Threads St} `{SS : !StoreSpec St}.
Implicit Types (h : TreeHead MI MF IV) (puts : list Put) (L : list TreeRefSample).

(** The ids of a label set. *)
Definition ids_of h (a : Labels) : option (Z * Z) :=
  s ← thmap_get (source_thmap_ h) (label_source_group a);
  m ← thmap_get (metric_thmap_ h) (label_metric a);
  Some (s, m).

Lemma ids_of_some h a s m :
  ids_of h a = Some (s, m) <->
  thmap_get (source_thmap_ h) (label_source_group a) = Some s /\ thmap_get (metric_thmap_ h) (label_metric a) = Some m.
Proof.
  unfold ids_of. destruct (thmap_get (source_thmap_ h) _) as [x|]; cbn [mbind option_bind]; [|by split; [|intros []]].
  destruct (thmap_get (metric_thmap_ h) _) as [y|]; cbn [mbind option_bind]; [|by split; [|intros []]].
  split; [by intros [= -> ->]|]. by intros [[= ->] [= ->]].
Qed.

(** A series object that holds nothing yet. *)
Definition empty_series (s m : Z) (ms : TreeMemSeries) : Prop :=
  ms_source_id_ ms = s /\ ms_metric_id_ ms = m /\ chunk_ ms = new_chunk /\ appender_ ms = appender new_chunk.

(** The objects and the index after a label set: a new series or the same. *)
Definition created h h' (p s m : Z) (new : bool) : Prop :=
  if new then get_from_forward_index h s m = 0 /\ p = Z.of_nat (length (allocated_ h)) + 1 /\
    (exists ms, allocated_ h' = allocated_ h ++ [ms] /\ empty_series s m ms) /\
    forall s' m', 0 <= m' -> get_from_forward_index h' s' m' = if decide (s' = s /\ m' = m) then p else get_from_forward_index h s' m'
  else allocated_ h' = allocated_ h /\ p = get_from_forward_index h s m /\ p <> 0 /\
    forall s' m', get_from_forward_index h' s' m' = get_from_forward_index h s' m'.

Lemma renamed_created h h' made a s m : renamed h h' made a s m -> ids_of h' a = Some (s, m).
Proof. intros Hr. apply ids_of_some. split; [apply (rn_source _ _ _ _ _ _ Hr)|apply (rn_metric _ _ _ _ _ _ Hr)]. Qed.

Lemma renamed_old h h' made a s m b : renamed h h' made a s m -> b ∈ made.*1 -> ids_of h' b = ids_of h b.
Proof. intros Hr Hb. unfold ids_of. by destruct (rn_old _ _ _ _ _ _ Hr b Hb) as [-> ->]. Qed.

Lemma create_effect h junk made (a : Labels) :
  indexed h made -> a <> [] ->
  kinds label_source_group (made.*1 ++ [a]) < Z.of_nat (length (source_labels_ptr_ h)) <= MAX_SOURCE_NUM ->
  kinds label_metric (made.*1 ++ [a]) < Z.of_nat (length (metric_labels_ptr_ h)) <= 2 ^ 16 ->
  exists p new h' s m, get_or_create_by_thmap h junk a = Some (p, new, h') /\ indexed h' (made ++ [(a, p)]) /\
    length (source_labels_ptr_ h') = length (source_labels_ptr_ h) /\ length (metric_labels_ptr_ h') = length (metric_labels_ptr_ h) /\
    ids_of h' a = Some (s, m) /\ 1 <= s < Z.of_nat (length (source_labels_ptr_ h)) /\ 1 <= m < Z.of_nat (length (metric_labels_ptr_ h)) /\
    (forall b, b ∈ made.*1 -> ids_of h' b = ids_of h b) /\ created h h' p s m new.
Proof.
  intros Hi Hne Hls Hlm. destruct (create_step h junk made a Hi Hne Hls Hlm) as (p & new & h' & E & Hi' & P1 & P2 & _).
  destruct (name_step h made a Hi Hne ltac:(unfold MAX_SOURCE_NUM in Hls; lia) Hlm) as (s & e & h1 & m & e' & h2 & E1 & E2 & Hr).
  revert E. unfold get_or_create_by_thmap. rewrite E1, E2. set (h3 := if e' then h2 else _) in *. clearbody h3. cbv zeta.
  rewrite read_outside by (left; exact (rn_flat _ _ _ _ _ _ Hr)). cbn [mbind option_bind]. rewrite (renamed_get _ _ _ _ _ _ s m Hr).
  pose proof (renamed_ranges _ _ _ _ _ _ Hr) as [Rs Rm].
  assert (Hcommon : forall x, ids_of x a = ids_of h3 a -> (forall b, ids_of x b = ids_of h3 b) -> ids_of x a = Some (s, m) /\
    forall b, b ∈ made.*1 -> ids_of x b = ids_of h b).
  { intros x Hx1 Hx2. rewrite Hx1. split; [by eapply renamed_created|]. intros b Hb. rewrite Hx2. by eapply renamed_old. }
  destruct (Z.eqb_spec (get_from_forward_index h s m) 0) as [E0|E0]; cbn [negb].
  - unfold get_mem_source. rewrite (proj2 (Z.ltb_lt _ _)) by (unfold MAX_SOURCE_NUM in *; lia). cbn [mbind option_bind].
    unfold new_series. intros [= <- <- <-]. eexists _, true, _, s, m. split; [reflexivity|]. split; [exact Hi'|]. split; [done|]. split; [done|].
    destruct (Hcommon _ ltac:(reflexivity) ltac:(intros; reflexivity)) as [C1 C2]. split; [exact C1|].
    split; [lia|]. split; [lia|]. split; [exact C2|]. split; [done|].
    cbn [allocated_ set_objects set_to_forward_index set_forward]. rewrite (rn_objects _ _ _ _ _ _ Hr). split; [done|]. split; [by eexists|].
    intros s' m' Hm'. rewrite set_get; [|lia|lia| |].
    + case_decide; [done|]. exact (renamed_get _ _ _ _ _ _ s' m' Hr).
    + intros i t s0 v. simpl. rewrite (rn_forward _ _ _ _ _ _ Hr). apply (ix_nonnull _ _ Hi).
    + rewrite <- E0. exact (renamed_get _ _ _ _ _ _ s m Hr).
  - intros [= <- <- <-]. eexists _, false, h3, s, m. split; [reflexivity|]. split; [done|]. split; [done|]. split; [done|].
    destruct (Hcommon _ ltac:(reflexivity) ltac:(intros; reflexivity)) as [C1 C2]. split; [exact C1|].
    split; [lia|]. split; [lia|]. split; [exact C2|]. split; [apply (rn_objects _ _ _ _ _ _ Hr)|]. split; [done|]. split; [done|].
    intros s' m'. exact (renamed_get _ _ _ _ _ _ s' m' Hr).
Qed.

(** What the head holds is not touched by a new label set. *)
Lemma created_known h h' p s m new s' m' : created h h' p s m new -> p <> 0 -> 0 <= m ->
  (known h' s' m' <-> known h s' m' \/ (s' = s /\ m' = m)).
Proof.
  unfold known, created. intros Hc Hp Hm. destruct new.
  - destruct Hc as (E0 & _ & _ & Hg). split.
    + intros [H1 H2]. rewrite Hg in H2 by done. case_decide; [by right|by left].
    + intros [[H1 H2]|[-> ->]]; [|rewrite Hg, decide_True by done; by split]. rewrite Hg by done. split; [done|].
      case_decide as Hd; [by destruct Hd as [-> ->]|done].
  - destruct Hc as (_ & E & Hp' & Hg). rewrite Hg. split; [by left|]. intros [?|[-> ->]]; [done|]. split; [done|]. congruence.
Qed.

Lemma created_holding h h' p s m new puts L :
  created h h' p s m new -> flat_forward_index_ h' = None -> p <> 0 -> 0 <= m -> ids_fit s m ->
  holding h puts L -> holding h' puts L.
Proof.
  intros Hc Hfl Hp Hm Hfit Hh. pose proof (fun s' m' => created_known h h' p s m new s' m' Hc Hp Hm) as Hk. split.
  - done.
  - intros s' m' Hkn. unfold created in Hc. destruct new.
    2:{ destruct Hc as (A1 & Ep & _ & Hg). rewrite Hg. apply Hk in Hkn. assert (Hkn' : known h s' m').
        { destruct Hkn as [?|[-> ->]]; [done|]. split; [done|]. congruence. }
        destruct (hd_at _ _ _ Hh s' m' Hkn') as (ms & kept & E & K). exists ms, kept. split; [|done]. unfold deref in *. by rewrite A1. }
    destruct Hc as (E0 & Ep & (ms0 & A1 & M1 & M2 & M3 & M4) & Hg). rewrite Hg by apply Hkn. case_decide as Hd.
    + destruct Hd as [-> ->]. exists ms0, []. split.
      { unfold deref. rewrite (proj2 (Z.leb_gt _ _)) by lia. rewrite A1, Ep. replace (Z.to_nat _) with (length (allocated_ h)) by lia.
        by rewrite lookup_app_r, Nat.sub_diag. }
      split; [done|]. split; [done|]. split; [done|]. split; [by apply filled_new|]. rewrite app_nil_r.
      assert (Hno : ~ known h s m) by (intros [_ ?]; done).
      rewrite samples_of_none.
      2:{ eapply List.Forall_impl; [|exact (hd_samples _ _ _ Hh)]. intros x Hx [<- <-]. done. }
      replace (filter (put_of s m) puts) with (@nil Put); [done|].
      pose proof (hd_puts _ _ _ Hh) as Hputs. clear Hh. induction Hputs as [|q l Hq _ IH]; [done|]. rewrite filter_cons, decide_False; [exact IH|].
      intros [<- <-]. contradiction.
    + apply Hk in Hkn. assert (Hkn' : known h s' m') by (destruct Hkn as [?|?]; done).
      destruct (hd_at _ _ _ Hh s' m' Hkn') as (ms & kept & E & K). exists ms, kept. split; [|done]. unfold deref in *.
      destruct (_ <=? 0); [done|]. rewrite A1. by apply lookup_app_l_Some.
  - eapply List.Forall_impl; [|exact (hd_puts _ _ _ Hh)]. intros q Hq. apply Hk. by left.
  - eapply List.Forall_impl; [|exact (hd_samples _ _ _ Hh)]. intros q Hq. apply Hk. by left.
Qed.

Lemma new_head_holding ns nm (inverted : IV) : holding (new_head (MI := MI) (MF := MF) ns nm inverted) [] [].
Proof.
  split; try done. intros s m [_ Hz]. destruct Hz. unfold get_from_forward_index.
  destruct (forward_index_ _ !! _) as [t|] eqn:E; [|done]. simpl in E. apply lookup_replicate in E as [-> _]. by rewrite get_create.
Qed.

(** Appending to a series keeps the index in order. *)
Lemma same_indexed h h' puts L made :
  indexed h made -> same_but_objects h h' -> holding h' puts L -> indexed h' made.
Proof.
  intros [H1 H2 H3 H4 H5 H6] (l & -> & Hl) Hh. split; try done. intros a p Hp.
  destruct (H5 a p Hp) as (s & m & ms & G1 & G2 & G3 & G4 & G5 & G6).
  destruct (io_from _ _ _ _ _ _ H4 _ _ G2) as [Rm _].
  destruct (hd_at _ _ _ Hh s m) as (ms' & kept & E & K1 & K2 & _).
  { split; [lia|]. change (get_from_forward_index h s m <> 0). rewrite G3. by eapply deref_pos. }
  exists s, m, ms'. split_and!; try done. by rewrite <- G3.
Qed.

End Creating.

(** ** Transactions *)

Section Transactions.
Context `{PE : PastEnd} `{TI : Thmap str Z MI} `{TIL : !ThmapLaws str Z MI} `{TF : Thmap Z Z MF} `{TL : !ThmapLaws Z Z MF}.
Context `{IX : InvertedIndex IV} `{CS : ChunkStore St} `{TH : !Threads St} `{SS : !StoreSpec St}.
Implicit Types (h : TreeHead MI MF IV) (puts : list Put) (app : TreeHeadAppender) (rec : Recorder).

Definition rtv (r : Request) : Z * Z := (rq_t r, rq_v r).
Definition request_ok (r : Request) : Prop := rq_lset r <> [] /\ sample_ok (rtv r).

(** A sample is that of a request, under the ids of its label set. *)
Definition sample_for h (r : Request) (x : TreeRefSample) : Prop :=
  ids_of h (rq_lset r) = Some (sgid x, mid x) /\ tv x = rtv r /\ t_txn x = 0.

Definition series_ids (r : TreeRefSeries) : Z * Z := (tr_sgid r, tr_mid r).

(** The series logged: each known series once, with labels it was asked for
    under. *)
Record series_logged h (reqs : list Request) (l : list TreeRefSeries) : Prop := {
  sl_nodup : NoDup (series_ids <$> l);
  sl_known s m : known h s m <-> 0 <= m /\ (s, m) ∈ series_ids <$> l;
  sl_labels : Forall (fun r => ids_of h (tr_lset r) = Some (series_ids r) /\ tr_lset_ptr r = None /\
    tr_flushed_txn r = 0 /\ tr_log_clean_txn r = 0 /\ tr_lset r ∈ rq_lset <$> reqs) l }.

(** The state between two operations of an appender. *)
Record ran (ns nm : Z) h puts (reqs : list Request) app rec : Prop := {
  ra_made : exists made, indexed h made /\ made.*1 = rq_lset <$> reqs;
  ra_room : Z.of_nat (length (source_labels_ptr_ h)) = ns /\ Z.of_nat (length (metric_labels_ptr_ h)) = nm;
  ra_hold : holding h puts rec.2;
  ra_match : Forall2 (sample_for h) reqs (rec.2 ++ app_samples app);
  ra_known : Forall (fun x => known h (sgid x) (mid x) /\ sample_ok (tv x)) (app_samples app);
  ra_series : series_logged h reqs (rec.1 ++ app_series app) }.

Lemma each_series l rec : each sink_series l rec = Some (rec.1 ++ l, rec.2).
Proof.
  revert rec. induction l as [|x l IH]; intros [a b]; simpl; [by rewrite app_nil_r|]. rewrite IH. simpl. by rewrite <- app_assoc.
Qed.

Lemma each_samples l rec : each sink_sample l rec = Some (rec.1, rec.2 ++ l).
Proof.
  revert rec. induction l as [|x l IH]; intros [a b]; simpl; [by rewrite app_nil_r|]. rewrite IH. simpl. by rewrite <- app_assoc.
Qed.

Lemma log_recorded app rec : log app rec = Some (rec.1 ++ app_series app, rec.2 ++ app_samples app).
Proof. unfold log. rewrite each_series. cbn [mbind option_bind]. by rewrite each_samples. Qed.

Lemma series_logged_add h h' p s m new reqs r l :
  series_logged h reqs l -> created h h' p s m new -> p <> 0 -> 0 <= m -> ids_of h' (rq_lset r) = Some (s, m) ->
  (forall b, b ∈ rq_lset <$> reqs -> ids_of h' b = ids_of h b) ->
  series_logged h' (reqs ++ [r]) (if new then l ++ [mkTreeRefSeries s m (rq_lset r) None 0 0] else l).
Proof.
  intros [S1 S2 S3] Hc Hp Hm Hids Hold. pose proof (fun s' m' => created_known h h' p s m new s' m' Hc Hp Hm) as Hk.
  assert (S3' : Forall (fun x => ids_of h' (tr_lset x) = Some (series_ids x) /\ tr_lset_ptr x = None /\ tr_flushed_txn x = 0 /\
    tr_log_clean_txn x = 0 /\ tr_lset x ∈ rq_lset <$> (reqs ++ [r])) l).
  { eapply List.Forall_impl; [|exact S3]. intros x (X1 & X2 & X3 & X4 & X5). rewrite Hold by done. split_and!; try done.
    rewrite fmap_app. set_solver. }
  destruct new.
  - destruct Hc as (E0 & _). split.
    + rewrite fmap_app. apply NoDup_app. split; [done|]. split; [|apply NoDup_singleton].
      intros [s' m'] H1 H2%list_elem_of_singleton. injection H2 as -> ->. destruct (proj2 (S2 s m) (conj Hm H1)). done.
    + intros s' m'. rewrite Hk, S2, fmap_app, elem_of_app. change (series_ids <$> [_]) with [(s, m)]. rewrite list_elem_of_singleton.
      split; [intros [[? ?]|[-> ->]]; [by auto|by auto]|]. intros [? [?|[= -> ->]]]; by auto.
    + apply Forall_app. split; [done|]. apply Forall_singleton. simpl. split_and!; try done. rewrite fmap_app. set_solver.
  - split; [done| |done]. intros s' m'. rewrite Hk, S2. split; [|by left]. intros [?|[-> ->]]; [done|].
    apply S2. destruct Hc as (_ & -> & ? & _). by split.
Qed.

Lemma Forall2_impl_in {A B} (Q R : A -> B -> Prop) l k :
  Forall2 Q l k -> (forall x y, x ∈ l -> Q x y -> R x y) -> Forall2 R l k.
Proof. induction 1 as [|x y l k Hxy _ IH]; intros HR; constructor; [apply HR; [set_solver|done]|]. apply IH. set_solver. Qed.

(** How many sources, and metrics, requests are for. *)
Definition sources_of (reqs : list Request) : Z := kinds label_source_group (rq_lset <$> reqs).
Definition metrics_of (reqs : list Request) : Z := kinds label_metric (rq_lset <$> reqs).

Lemma sources_app l k : sources_of l <= sources_of (l ++ k).
Proof. unfold sources_of. rewrite fmap_app. apply kinds_app. Qed.
Lemma metrics_app l k : metrics_of l <= metrics_of (l ++ k).
Proof. unfold metrics_of. rewrite fmap_app. apply kinds_app. Qed.

Lemma add_ran ns nm h puts reqs app rec junk r :
  ran ns nm h puts reqs app rec -> request_ok r ->
  sources_of (reqs ++ [r]) < ns <= MAX_SOURCE_NUM -> metrics_of (reqs ++ [r]) < nm <= 256 * CX_NUM ->
  exists s m app' h', add h app junk (rq_lset r) (rq_t r) (rq_v r) = Some (true, s, m, app', h') /\
    ran ns nm h' puts (reqs ++ [r]) app' rec.
Proof.
  intros [(made & Hi & Em) [<- <-] Hh Hm Hk Hs] [Hne Hok] Hls Hlm. unfold MAX_SOURCE_NUM, CX_NUM in *.
  unfold sources_of, metrics_of in Hls, Hlm. rewrite fmap_app, <- Em in Hls, Hlm. cbn [fmap list_fmap] in Hls, Hlm.
  destruct (create_effect h junk made (rq_lset r) Hi Hne) as (p & new & h' & s & m & E & Hi' & P1 & P2 & Hids & Rs & Rm & Hold & Hc);
    [unfold MAX_SOURCE_NUM; lia|lia|]. rewrite Em in Hold.
  destruct (ix_made _ _ Hi' (rq_lset r) p) as (s' & m' & ms & G1 & G2 & G3 & G4 & G5 & G6); [set_solver|].
  assert (Hsm : (s', m') = (s, m)) by (assert (ids_of h' (rq_lset r) = Some (s', m')) by (by apply ids_of_some); congruence).
  injection Hsm as -> ->. pose proof (deref_pos _ _ _ G4) as Hp.
  assert (Hfit : ids_fit s m) by (unfold ids_fit, id_ok, is_u64, is_u, CY_NUM, CX_NUM in *; lia).
  unfold add. rewrite E, G4. cbn [mbind option_bind]. rewrite G5, G6. unfold add_fast.
  rewrite read_outside by (left; exact (ix_flat _ _ Hi')). rewrite G3. cbn [mbind option_bind].
  rewrite (proj2 (Z.eqb_neq _ _)) by done. cbn [mbind option_bind]. do 4 eexists. split; [reflexivity|].
  pose proof (fun s' m' => created_known h h' p s m new s' m' Hc Hp ltac:(lia)) as Hkn. split.
  - exists (made ++ [(rq_lset r, p)]). split; [done|]. by rewrite !fmap_app, Em.
  - by rewrite P1, P2.
  - eapply created_holding; try done; [apply (ix_flat _ _ Hi')|lia].
  - cbn [app_samples]. replace (app_samples (if new then _ else app)) with (app_samples app) by (by destruct new).
    rewrite app_assoc. apply Forall2_app; [|by repeat constructor].
    eapply Forall2_impl_in; [exact Hm|]. intros a x Ha (M1 & M2 & M3). split_and!; try done.
    rewrite Hold; [done|]. by apply list_elem_of_fmap_2.
  - cbn [app_samples]. replace (app_samples (if new then _ else app)) with (app_samples app) by (by destruct new).
    apply Forall_app. split.
    + eapply List.Forall_impl; [|exact Hk]. intros x [K1 K2]. split; [apply Hkn; by left|done].
    + apply Forall_singleton. split; [apply Hkn; by right|done].
  - cbn [app_series]. replace (rec.1 ++ _) with
      (if new then (rec.1 ++ app_series app) ++ [mkTreeRefSeries s m (rq_lset r) None 0 0] else rec.1 ++ app_series app)
      by (destruct new; [by rewrite <- app_assoc|done]).
    eapply series_logged_add; try done. lia.
Qed.

Lemma same_ids_of h h' a : same_but_objects h h' -> ids_of h' a = ids_of h a.
Proof. by intros (l & -> & _). Qed.

Lemma commit_ran ns nm h st puts reqs app rec :
  ran ns nm h puts reqs app rec -> store_ok st ->
  exists h' st' puts' rec', commit h (st, puts) app rec = Some (h', (st', puts'), new_appender, rec') /\ store_ok st' /\
    ran ns nm h' puts' reqs new_appender rec'.
Proof.
  intros [(made & Hi & Em) Hroom Hh Hm Hk Hs] Hst. unfold commit. rewrite log_recorded. cbn [mbind option_bind].
  destruct (append_samples_known (app_samples app) h st puts rec.2 Hh Hst Hk) as (h' & st' & puts' & -> & Hst' & Hh' & Hsame).
  cbn [mbind option_bind]. do 4 eexists. split; [reflexivity|]. split; [done|]. split; cbn [fst snd app_samples app_series new_appender].
  - exists made. split; [by eapply same_indexed|done].
  - by destruct Hsame as (l & -> & _).
  - done.
  - rewrite app_nil_r. eapply Forall2_impl; [exact Hm|]. intros a x (M1 & M2 & M3). split_and!; try done. by rewrite (same_ids_of _ _ _ Hsame).
  - constructor.
  - rewrite app_nil_r. destruct Hs as [S1 S2 S3]. split; [done| |].
    + intros s m. rewrite <- S2. by destruct Hsame as (l & -> & _).
    + eapply List.Forall_impl; [|exact S3]. intros x X. by rewrite (same_ids_of _ _ _ Hsame).
Qed.

Lemma adds_ran ns nm junk (l : list Request) : forall h puts reqs app rec,
  ran ns nm h puts reqs app rec -> Forall request_ok l ->
  sources_of (reqs ++ l) < ns <= MAX_SOURCE_NUM -> metrics_of (reqs ++ l) < nm <= 256 * CX_NUM ->
  exists h' app', adds junk l h app = Some (h', app') /\ ran ns nm h' puts (reqs ++ l) app' rec.
Proof.
  induction l as [|r l IH]; intros h puts reqs app rec Hr Hl Hs Hm.
  - exists h, app. rewrite app_nil_r. by split.
  - apply Forall_cons_1 in Hl as [Hok Hl]. change (r :: l) with ([r] ++ l) in Hs, Hm. rewrite app_assoc in Hs, Hm.
    pose proof (sources_app (reqs ++ [r]) l). pose proof (metrics_app (reqs ++ [r]) l).
    destruct (add_ran ns nm h puts reqs app rec junk r Hr Hok ltac:(lia) ltac:(lia)) as (s & m & app1 & h1 & E & Hr1).
    destruct (IH h1 puts _ app1 rec Hr1 Hl) as (h2 & app2 & E2 & Hr2); [done..|].
    exists h2, app2. unfold adds in *. cbn [each]. rewrite E. cbn [mbind option_bind]. rewrite <- app_assoc in Hr2. by split.
Qed.

Lemma transactions_ran ns nm junk (txs : list (list Request)) : forall h st puts reqs rec,
  ran ns nm h puts reqs new_appender rec -> store_ok st -> Forall (Forall request_ok) txs ->
  sources_of (reqs ++ concat txs) < ns <= MAX_SOURCE_NUM -> metrics_of (reqs ++ concat txs) < nm <= 256 * CX_NUM ->
  exists h' st' puts' rec', transactions junk txs h (st, puts) rec = Some (h', (st', puts'), rec') /\ store_ok st' /\
    ran ns nm h' puts' (reqs ++ concat txs) new_appender rec'.
Proof.
  induction txs as [|l txs IH]; intros h st puts reqs rec Hr Hst Hl Hs Hm.
  - exists h, st, puts, rec. simpl. rewrite app_nil_r. by split_and!.
  - apply Forall_cons_1 in Hl as [Hok Hl]. cbn [concat] in *. rewrite app_assoc in Hs, Hm.
    pose proof (sources_app (reqs ++ l) (concat txs)). pose proof (metrics_app (reqs ++ l) (concat txs)).
    destruct (adds_ran ns nm junk l h puts reqs new_appender rec Hr Hok ltac:(lia) ltac:(lia)) as (h1 & app1 & E1 & Hr1).
    destruct (commit_ran ns nm h1 st puts _ app1 rec Hr1 Hst) as (h2 & st2 & puts2 & rec2 & E2 & Hst2 & Hr2).
    destruct (IH h2 st2 puts2 _ rec2 Hr2 Hst2 Hl) as (h3 & st3 & puts3 & rec3 & E3 & Hst3 & Hr3); [done..|].
    exists h3, st3, puts3, rec3. unfold transactions in *. cbn [each]. rewrite E1, E2. cbn [mbind option_bind].
    rewrite <- app_assoc in Hr3. by split_and!.
Qed.

Lemma new_head_ran ns nm (inverted : IV) :
  ran (Z.of_nat ns) (Z.of_nat nm) (new_head (MI := MI) (MF := MF) ns nm inverted) [] [] new_appender ([], []).
Proof.
  split; cbn [fst snd app app_samples app_series new_appender].
  - exists []. split; [apply new_head_indexed|done].
  - simpl. by rewrite !length_replicate.
  - apply new_head_holding.
  - constructor.
  - constructor.
  - split; [constructor| |constructor]. intros s m. split; [|intros [_ ?]; set_solver].
    intros Hk. destruct (hd_at _ _ _ (new_head_holding ns nm inverted) s m Hk) as (ms & kept & E & _). unfold deref in E.
    cbn [allocated_ new_head] in E. rewrite lookup_nil in E. by case_match.
Qed.

Lemma samples_match h reqs L s m :
  Forall2 (sample_for h) reqs L -> samples_of s m L = rtv <$> filter (fun r => ids_of h (rq_lset r) = Some (s, m)) reqs.
Proof.
  induction 1 as [|r x reqs L (E1 & E2 & E3) _ IH]; [done|]. change (x :: L) with ([x] ++ L). rewrite samples_of_app, IH, filter_cons.
  destruct (decide (ids_of h (rq_lset r) = Some (s, m))) as [E|E].
  - assert (sgid x = s /\ mid x = m) as [<- <-] by (split; congruence). rewrite samples_of_one, E2. done.
  - rewrite samples_of_none; [done|]. apply Forall_singleton. intros [H1 H2]. apply E. by rewrite E1, H1, H2.
Qed.

#[export] Instance same_series_dec a b : Decision (same_series a b).
Proof. unfold same_series. apply _. Defined.

Lemma indexed_same_ids h made a b s m :
  indexed h made -> a ∈ made.*1 -> b ∈ made.*1 -> ids_of h a = Some (s, m) -> (ids_of h b = Some (s, m) <-> same_series a b).
Proof.
  intros Hi Ha Hb E. apply ids_of_some in E as [E1 E2]. rewrite ids_of_some. split.
  - intros [F1 F2]. split; [by eapply (io_inj _ _ _ _ _ _ (ix_src _ _ Hi))|by eapply (io_inj _ _ _ _ _ _ (ix_met _ _ Hi))].
  - intros [<- <-]. done.
Qed.

Lemma ran_stored ns nm h puts reqs rec r :
  ran ns nm h puts reqs new_appender rec -> r ∈ reqs ->
  exists s m, ids_of h (rq_lset r) = Some (s, m) /\ known h s m /\
    stored_samples h puts s m = rtv <$> filter (fun x => same_series (rq_lset r) (rq_lset x)) reqs.
Proof.
  intros [(made & Hi & Em) _ Hh Hm _ _] Hr. cbn [app_samples new_appender] in Hm. rewrite app_nil_r in Hm.
  assert (Hin : forall x, x ∈ reqs -> rq_lset x ∈ made.*1) by (intros x Hx; rewrite Em; by apply list_elem_of_fmap_2).
  pose proof (Hin r Hr) as Ha. apply list_elem_of_fmap in Ha as ([a p] & Ea & Hp). cbn [fst] in Ea.
  destruct (ix_made _ _ Hi a p Hp) as (s & m & ms & G1 & G2 & G3 & G4 & _). exists s, m. rewrite <- Ea in G1, G2.
  assert (Eid : ids_of h (rq_lset r) = Some (s, m)) by (by apply ids_of_some). split; [done|].
  destruct (io_from _ _ _ _ _ _ (ix_met _ _ Hi) _ _ G2) as [Rm _].
  assert (Hk : known h s m) by (split; [lia|]; rewrite G3; by eapply deref_pos). split; [done|].
  rewrite (holding_stored _ _ _ _ _ Hh Hk), (samples_match _ _ _ _ _ Hm). f_equal. apply filter_ext_in. intros x Hx.
  apply (indexed_same_ids h made); by auto.
Qed.

(** C4.  Committed samples are kept.  Whatever transactions are committed on a
    new head, with any number of samples for fewer different sources, and fewer
    different metrics, than its pools have room for, each returns; a label set,
    which is not empty, gets ids, and the chunks handed to the slab store under
    these ids with the chunk in memory hold exactly the samples that were added
    for the series, in order, across transactions.
    What is logged is each sample once and in order, with its ids, and each
    series once, with the labels it was created for. *)
Theorem commits_keep_samples ns nm (inverted : IV) junk st (txs : list (list Request)) :
  store_ok st -> Forall (Forall request_ok) txs ->
  sources_of (concat txs) < Z.of_nat ns <= MAX_SOURCE_NUM -> metrics_of (concat txs) < Z.of_nat nm <= 256 * CX_NUM ->
  exists h st' puts series samples,
    transactions junk txs (new_head (MI := MI) (MF := MF) ns nm inverted) (st, []) ([], []) = Some (h, (st', puts), (series, samples)) /\
    (forall r, r ∈ concat txs -> exists s m, ids_of h (rq_lset r) = Some (s, m) /\ (s, m) ∈ series_ids <$> series /\
       stored_samples h puts s m = rtv <$> filter (fun x => same_series (rq_lset r) (rq_lset x)) (concat txs)) /\
    Forall2 (sample_for h) (concat txs) samples /\
    NoDup (series_ids <$> series) /\ Forall (fun x => ids_of h (tr_lset x) = Some (series_ids x)) series.
Proof.
  intros Hst Hl Hs Hm.
  destruct (transactions_ran (Z.of_nat ns) (Z.of_nat nm) junk txs _ st [] [] ([], []) (new_head_ran ns nm inverted) Hst Hl Hs Hm)
    as (h & st' & puts & [series samples] & E & _ & Hr). cbn [app] in Hr.
  exists h, st', puts, series, samples. split; [exact E|]. pose proof (ra_series _ _ _ _ _ _ _ Hr) as Hsl.
  cbn [fst app_series new_appender] in Hsl. rewrite app_nil_r in Hsl. destruct Hsl as [S1 S2 S3]. split.
  - intros r Hin. destruct (ran_stored _ _ _ _ _ _ _ Hr Hin) as (s & m & E1 & E2 & E3). exists s, m. split; [done|].
    split; [by apply S2|done].
  - pose proof (ra_match _ _ _ _ _ _ _ Hr) as Hmt. cbn [snd app_samples new_appender] in Hmt. rewrite app_nil_r in Hmt.
    split; [done|]. split; [done|]. eapply List.Forall_impl; [|exact S3]. by intros x [? _].
Qed.

End Transactions.

(** ** Witnesses *)

Module AppenderDemo.
#[local] Instance demo_past : PastEnd := fun _ => 0.
#[local] Instance demo_inverted : InvertedIndex (list (Z * Labels)) := fun l id a => l ++ [(id, a)].

(** A store that takes every chunk. *)
#[local] Instance any_store : ChunkStore (list Put) := fun l p => Some (true, 7, l ++ [p]).
#[local] Instance any_threads : Threads (list Put) := { attempts := 1; between := id; logged := sample_txn_ }.
#[local] Instance any_store_spec : StoreSpec (list Put).
Proof.
  refine {| store_ok := fun _ => True |}; [|intros; done]. intros st p _ _. by exists 7, (st ++ [p]).
Defined.

(** Two transactions over three series. *)
Definition demo_txs : list (list Request) :=
  [[mkRequest (HeadDemo.lset 1 1) 1000 5; mkRequest (HeadDemo.lset 2 1) 1000 6];
   [mkRequest (HeadDemo.lset 1 1) 2000 7; mkRequest (HeadDemo.lset 1 2) 2000 8]].

Lemma demo_txs_ok : Forall (Forall request_ok) demo_txs.
Proof. repeat constructor; done. Qed.

Lemma commits_keep_samples_witness :
  exists h st' puts series samples,
    transactions 0 demo_txs (new_head (MI := gmap str Z) (MF := gmap Z Z) 3 3 ([] : list (Z * Labels))) (([] : list Put), []) ([], [])
      = Some (h, (st', puts), (series, samples)) /\
    exists s m, ids_of h (HeadDemo.lset 1 1) = Some (s, m) /\ stored_samples h puts s m = [(1000, 5); (2000, 7)].
Proof.
  destruct (commits_keep_samples (MI := gmap str Z) (MF := gmap Z Z) 3 3 ([] : list (Z * Labels)) 0 ([] : list Put) demo_txs)
    as (h & st' & puts & series & samples & E & H & _).
  - exact I.
  - exact demo_txs_ok.
  - split; [apply Z.ltb_lt; vm_compute; reflexivity|unfold MAX_SOURCE_NUM; lia].
  - split; [apply Z.ltb_lt; vm_compute; reflexivity|unfold CX_NUM; lia].
  - exists h, st', puts, series, samples. split; [exact E|].
    destruct (H (mkRequest (HeadDemo.lset 1 1) 1000 5)) as (s & m & E1 & _ & E2).
    { apply list_elem_of_here. }
    exists s, m. split; [exact E1|]. rewrite E2. vm_compute. reflexivity.
Defined.

End AppenderDemo.
