(* ===== verification/HeadRecovery.v ===== *)
(** head/TreeHead.cpp: reading the logs back into a tree head
    ([recover_index_from_log], [recover_samples_from_log], [recover_serial],
    [reset_flush_txn]) and cleaning them ([clean_sample_log]).

    A directory of logs is a finite map from file names to files; it is walked
    in an order that is not specified, and the names are sorted by their
    number.  [None] is a crash, an exception or a loop that does not end; a
    boolean is whether the returned status is ok.  Creating and removing a file
    succeeds. *)
From Stdlib Require Import ZArith Lia Bool.
From stdpp Require Import base list numbers option gmap sorting.
From S2P Require Import Prelude Endian Coding Label Crc32c WalLog WalRecords Gorilla ParallelWal.
From S2P Require Import BitStream XORChunk MassTree SlabStore SlabFlush TreeMemSeries HeadIndex HeadAppender.

(** ** Names *)

(** "head_index" and "head_samples" *)
Definition HEAD_INDEX_LOG_NAME : str := [104; 101; 97; 100; 95; 105; 110; 100; 101; 120].
Definition HEAD_SAMPLES_LOG_NAME : str := [104; 101; 97; 100; 95; 115; 97; 109; 112; 108; 101; 115].
Definition HEAD_SAMPLES_LOG_CLEANING_THRES : Z := 5.

(** [std::to_string] of an [int]. *)
Fixpoint decimal (digits : nat) (n : Z) : str :=
  match digits with
  | O => []
  | S digits => (if n <? 10 then [] else decimal digits (n / 10)) ++ [48 + n mod 10]
  end.
Definition to_string (n : Z) : str := if n <? 0 then 45 :: decimal 10 (- n) else decimal 10 n.

Definition is_space (c : Z) : bool := (c =? 32) || ((9 <=? c) && (c <=? 13)).
Definition is_digit (c : Z) : bool := (48 <=? c) && (c <=? 57).

Fixpoint skip_spaces (l : str) : str :=
  match l with
  | [] => []
  | c :: l' => if is_space c then skip_spaces l' else l
  end.

Fixpoint parse_digits (acc : Z) (l : str) : Z :=
  match l with
  | [] => acc
  | c :: l => if is_digit c then parse_digits (acc * 10 + (c - 48)) l else acc
  end.

(** [std::stoi]; [None]: it throws. *)
Definition stoi (s : str) : option Z :=
  let '(neg, s) := match skip_spaces s with
    | c :: l => if c =? 45 then (true, l) else if c =? 43 then (false, l) else (false, c :: l)
    | [] => (false, [])
    end in
  match s with
  | [] => None
  | c :: _ =>
    if is_digit c then
      let n := if neg then - parse_digits 0 s else parse_digits 0 s in
      if (- 2 ^ 31 <=? n) && (n <? 2 ^ 31) then Some n else None
    else None
  end.

(** A file name that starts with [name] and goes on. *)
Definition is_log (name file : str) : bool :=
  (length name <? length file)%nat && str_eqb (take (length name) file) name.

(** The order of numbered files. *)
Definition earlier {F} (a b : Z * F) : Prop := a.1 <= b.1.
#[export] Instance earlier_dec {F} (a b : Z * F) : Decision (earlier a b).
Proof. unfold earlier. apply _. Defined.

(** ** State *)

(** [NewSequentialFile]. *)
Class OpenFile (F G : Type) := open_file : F -> option G.

Record HeadState (MI MF IV St F : Type) := mkHeadState {
  hs_head : TreeHead MI MF IV;
  hs_store : St;
  pwal_m_ : PWalManagement F }.
Arguments mkHeadState {MI MF IV St F}.
Arguments hs_head {MI MF IV St F} _.
Arguments hs_store {MI MF IV St F} _.
Arguments pwal_m_ {MI MF IV St F} _.

(** [log_path_]: the directories "metric0" and "sample<i>". *)
Record LogPath (F : Type) := mkLogPath {
  metric_dir : option (gmap str F);
  sample_dirs : list (option (gmap str F)) }.
Arguments mkLogPath {F}. Arguments metric_dir {F} _. Arguments sample_dirs {F} _.

Section Recovery.
Context `{PE : PastEnd} `{TI : Thmap str Z MI} `{TF : Thmap Z Z MF} `{IX : InvertedIndex IV}.
Context `{CS : ChunkStore St} `{TH : !Threads St} `{AC : Accelerated} `{PL : Placement}.
Context `{FF : FreshFile F} `{SF : SequentialFile G} `{OF : !OpenFile F G}.
Implicit Types (h : TreeHead MI MF IV) (st : St).

(** [existing_logs] with their numbers, in order. *)
Definition existing_logs (name : str) (dir : gmap str F) : option (list (Z * F)) :=
  l ← mapM (M := option) (fun x => n ← stoi (drop (length name) x.1); Some (n, x.2))
        (filter (fun x => is_log name x.1 = true) (map_to_list dir));
  Some (merge_sort earlier l).

(** [while (r.ReadRecord(&record, &scratch))], without checksums. *)
Definition records_of (g : G) : option (list (list Z)) :=
  '(ds, _) ← read_all (S (sf_left g)) (reader g false false 0); Some ds.

(** For each file its records; whether all could be opened. *)
Definition each_file {B} (f : B -> list (list Z) -> option (bool * B)) : list (Z * F) -> B -> option (bool * B) :=
  fix go files b :=
    match files with
    | [] => Some (true, b)
    | (_, file) :: files =>
      match open_file file with
      | None => Some (false, b)
      | Some g => ds ← records_of g; '(ok, b) ← f b ds; if ok : bool then go files b else Some (false, b)
      end
    end.

(** The number of the log to write next. *)
Definition next_seq (files : list (Z * F)) : Z :=
  match last files with None => 0 | Some (n, _) => n + 1 end.

(** ** Recovery of the series *)

Definition recover_series (junk : Z) h (r : TreeRefSeries) : option (TreeHead MI MF IV) :=
  match get_or_create_with_id h junk (tr_sgid r) (tr_mid r) (tr_lset r) with
  | None => None
  | Some (_, true, h) =>
    Some (set_ids_of h (if last_source_group_id_ h <? tr_sgid r then tr_sgid r else last_source_group_id_ h)
            (if last_metric_id_ h <? tr_mid r then tr_mid r else last_metric_id_ h) (source_thmap_ h) (metric_thmap_ h))
  | Some (_, false, h) => Some h
  end.

Fixpoint recover_index_records (junk : Z) h (ds : list (list Z)) : option (bool * TreeHead MI MF IV) :=
  match ds with
  | [] => Some (true, h)
  | d :: ds =>
    if peek d 0 =? kSeries then
      match read_treeSeries d with
      | None => None
      | Some None => Some (false, h)
      | Some (Some rs) => h ← each (recover_series junk) rs h; recover_index_records junk h ds
      end
    else recover_index_records junk h ds
  end.

Definition recover_index_from_log (junk : Z) (dir : option (gmap str F)) (s : HeadState MI MF IV St F)
    : option (bool * HeadState MI MF IV St F) :=
  match dir with
  | None => Some (true, s)
  | Some dir =>
    files ← existing_logs HEAD_INDEX_LOG_NAME dir;
    '(ok, h) ← each_file (recover_index_records junk) files (hs_head s);
    if ok : bool then
      let w := tag_wal_ (pwal_m_ s) in
      let w := mkWal (files.*2) (next_seq files) (writer fresh_file) (active_samples_logs_ w) (wal_items w) (wal_queue w) in
      Some (true, mkHeadState h (hs_store s) (mkPWal w (sample_wal_ (pwal_m_ s))))
    else Some (false, mkHeadState h (hs_store s) (pwal_m_ s))
  end.

(** ** Recovery of the samples *)

(** The samples of a record, [rs]. *)
Definition record_samples (d : list Z) : option (list TreeRefSample) :=
  if peek d 0 =? kSample then
    match read_treeSamples d with None => None | Some None => Some [] | Some (Some rs) => Some rs end
  else if peek d 0 =? kSampleGorilla then Some (default [] (read_treeSamplesGorilla d))
  else Some [].

(** [app->add_fast(...)] for each, the status dropped. *)
Definition add_all_fast h (rs : list TreeRefSample) : option TreeHeadAppender :=
  each (fun app x => '(_, app) ← add_fast h app (sgid x) (mid x) (t_t x) (t_v x); Some app) rs new_appender.

Fixpoint recover_samples_records (b : TreeHead MI MF IV * St) (ds : list (list Z)) : option (bool * (TreeHead MI MF IV * St)) :=
  match ds with
  | [] => Some (true, b)
  | d :: ds =>
    let '(h, st) := b in
    rs ← record_samples d;
    app ← add_all_fast h rs;
    '(h, st, _) ← recover_commit h st app;
    recover_samples_records (h, st) ds
  end.

Definition recover_samples_from_log (seq : nat) (dir : option (gmap str F)) (s : HeadState MI MF IV St F)
    : option (bool * HeadState MI MF IV St F) :=
  match dir with
  | None => Some (true, s)
  | Some dir =>
    files ← existing_logs HEAD_SAMPLES_LOG_NAME dir;
    '(ok, (h, st)) ← each_file recover_samples_records files (hs_head s, hs_store s);
    if ok : bool then
      let p := pwal_m_ s in
      w ← sample_wal_ p !! seq;
      let w := mkWal (files.*2) (next_seq files) (writer fresh_file) (Z.of_nat (length files)) (wal_items w) (wal_queue w) in
      Some (true, mkHeadState h st (mkPWal (tag_wal_ p) (<[seq := w]> (sample_wal_ p))))
    else Some (false, mkHeadState h st (pwal_m_ s))
  end.

(** [None]: [uint16_t j] never exceeds a last metric id of 65535. *)
Definition reset_flush_txn h : option (TreeHead MI MF IV) :=
  if (1 <=? last_source_group_id_ h) && (2 ^ 16 - 1 <=? last_metric_id_ h) then None
  else
    each (fun h '(i, j) =>
      p ← read_flat_forward_index h i j;
      if p =? 0 then Some h else tms ← deref h p; Some (set_series h p (set_txns tms (sample_txn_ tms) (sample_txn_ tms))))
      (loop 1 (last_source_group_id_ h) 1 (last_metric_id_ h)) h.

(** The statuses are dropped. *)
Definition recover_serial (junk : Z) (path : LogPath F) (s : HeadState MI MF IV St F) : option (HeadState MI MF IV St F) :=
  '(_, s) ← recover_index_from_log junk (metric_dir path) s;
  s ← each (fun s i => '(_, s) ← recover_samples_from_log i (mjoin (sample_dirs path !! i)) s; Some s)
        (seq 0 (length (sample_wal_ (pwal_m_ s)))) s;
  h ← reset_flush_txn (hs_head s);
  Some (mkHeadState h (hs_store s) (pwal_m_ s)).

End Recovery.

(** ** Log names *)

Lemma digit_of n : 0 <= n < 10 -> is_digit (48 + n) = true.
Proof. intros Hn. unfold is_digit. rewrite (proj2 (Z.leb_le _ _)), (proj2 (Z.leb_le _ _)) by lia. done. Qed.

Lemma parse_decimal k : forall n l, 0 <= n < 10 ^ Z.of_nat k -> parse_digits 0 (decimal k n ++ l) = parse_digits n l.
Proof.
  induction k as [|k IH]; intros n l Hn; [simpl in *; f_equal; lia|].
  assert (Hp : 10 ^ Z.of_nat (S k) = 10 * 10 ^ Z.of_nat k) by (rewrite Nat2Z.inj_succ, Z.pow_succ_r; lia).
  pose proof (Z.mod_pos_bound n 10 ltac:(lia)) as Hd. pose proof (Z.div_mod n 10 ltac:(lia)) as Hq.
  cbn [decimal]. rewrite <- app_assoc. cbn [app]. destruct (Z.ltb_spec n 10) as [Hl|Hl].
  - cbn [app parse_digits]. rewrite digit_of by lia. f_equal. rewrite Z.mod_small by lia. lia.
  - rewrite IH by (split; [apply Z.div_pos; lia|apply Z.div_lt_upper_bound; lia]). cbn [parse_digits]. rewrite digit_of by lia.
    f_equal. lia.
Qed.

Lemma decimal_first k n : 0 <= n -> exists c l, decimal (S k) n = c :: l /\ is_digit c = true.
Proof.
  revert n. induction k as [|k IH]; intros n Hn; pose proof (Z.mod_pos_bound n 10 ltac:(lia)) as Hd.
  - cbn [decimal]. destruct (n <? 10); eexists _, _; (split; [reflexivity|by apply digit_of]).
  - remember (S k) as k' eqn:Ek. cbn [decimal]. subst k'. destruct (Z.ltb_spec n 10).
    + eexists _, _. split; [reflexivity|by apply digit_of].
    + destruct (IH (n / 10)) as (c & l & -> & Hc); [apply Z.div_pos; lia|]. eexists c, _. split; [reflexivity|done].
Qed.

Lemma stoi_to_string n : 0 <= n < 2 ^ 31 -> stoi (to_string n) = Some n.
Proof.
  intros Hn. unfold to_string. rewrite (proj2 (Z.ltb_ge _ _)) by lia.
  pose proof (parse_decimal 10 n [] ltac:(lia)) as Hp. rewrite app_nil_r in Hp. cbn [parse_digits] in Hp.
  destruct (decimal_first 9 n ltac:(lia)) as (c & l & E & Hc). rewrite E in *. unfold stoi. cbn [skip_spaces].
  assert (Hr : 48 <= c <= 57) by (unfold is_digit in Hc; apply andb_true_iff in Hc as [?%Z.leb_le ?%Z.leb_le]; lia).
  replace (is_space c) with false by (unfold is_space; symmetry; rewrite (proj2 (Z.eqb_neq _ _)), (proj2 (Z.leb_gt c 13)), andb_false_r by lia; done).
  rewrite (proj2 (Z.eqb_neq c 45)), (proj2 (Z.eqb_neq c 43)) by lia. rewrite Hc, Hp.
  rewrite (proj2 (Z.leb_le _ _)), (proj2 (Z.ltb_lt _ _)) by lia. done.
Qed.

(** The directory of a log whose files are [files], the oldest first. *)
Definition numbered {F} (files : list F) : list (Z * F) := imap (fun i f => (Z.of_nat i, f)) files.
Definition named {F} (name : str) (files : list (Z * F)) : list (str * F) := (fun x => (name ++ to_string x.1, x.2)) <$> files.
Definition listing {F} (name : str) (files : list F) : gmap str F := list_to_map (named name (numbered files)).

Lemma numbered_lookup {F} (files : list F) i : numbered files !! i = (fun f => (Z.of_nat i, f)) <$> files !! i.
Proof. unfold numbered. rewrite list_lookup_imap. done. Qed.

Lemma numbered_elem {F} (files : list F) n f :
  (n, f) ∈ numbered files <-> 0 <= n < Z.of_nat (length files) /\ files !! Z.to_nat n = Some f.
Proof.
  rewrite list_elem_of_lookup. split.
  - intros (i & E). rewrite numbered_lookup in E. destruct (files !! i) as [f'|] eqn:Ef; [|done]. injection E as <- <-.
    apply lookup_lt_Some in Ef as Hi. rewrite Nat2Z.id. split; [lia|done].
  - intros [Hn E]. exists (Z.to_nat n). rewrite numbered_lookup, E. simpl. by rewrite Z2Nat.id by lia.
Qed.

Lemma numbered_fst {F} (files : list F) : (numbered files).*2 = files.
Proof. apply list_eq. intros i. rewrite list_lookup_fmap, numbered_lookup. by destruct (files !! i). Qed.

Lemma to_string_inj a b : 0 <= a < 2 ^ 31 -> 0 <= b < 2 ^ 31 -> to_string a = to_string b -> a = b.
Proof. intros Ha Hb E. pose proof (stoi_to_string a Ha) as H1. rewrite E, stoi_to_string in H1 by done. by injection H1. Qed.

Lemma named_nodup {F} name (l : list (Z * F)) :
  NoDup l.*1 -> Forall (fun x => 0 <= x.1 < 2 ^ 31) l -> NoDup (named name l).*1.
Proof.
  intros Hnd Hl. unfold named. rewrite <- list_fmap_compose. simpl. induction l as [|[n f] l IH]; [constructor|].
  apply NoDup_cons in Hnd as [H1 H2]. apply Forall_cons_1 in Hl as [H3 H4]. simpl. constructor; [|by apply IH].
  intros ([n' f'] & E & Hin)%list_elem_of_fmap. simpl in *. apply app_inv_head in E. rewrite Forall_forall in H4.
  apply to_string_inj in E; [|done|by apply (H4 (n', f'))]. subst n'. apply H1. apply list_elem_of_fmap. by exists (n, f').
Qed.

Lemma numbered_keys {F} (files : list F) : NoDup (numbered files).*1.
Proof.
  apply NoDup_alt. intros i j x. rewrite !list_lookup_fmap, !numbered_lookup.
  destruct (files !! i), (files !! j); simpl; intros; simplify_eq. lia.
Qed.

Lemma numbered_sorted {F} (files : list F) : StronglySorted earlier (numbered files).
Proof.
  unfold numbered. generalize 0%nat as k.
  assert (H : forall k, StronglySorted earlier (imap (fun i f => (Z.of_nat (i + k), f)) files)).
  { induction files as [|f files IH]; intros k; simpl; [constructor|]. constructor.
    - replace (imap _ files) with (imap (fun i f => (Z.of_nat (i + S k), f)) files); [apply IH|].
      apply imap_ext. intros i x _. simpl. f_equal. lia.
    - apply Forall_forall. intros [n x] Hx. apply list_elem_of_lookup in Hx as (i & Hi). rewrite list_lookup_imap in Hi.
      destruct (files !! i); [|done]. injection Hi as <- _. unfold earlier. simpl. lia. }
  intros _. specialize (H 0%nat). erewrite imap_ext; [exact H|]. intros i x _. simpl. by rewrite Nat.add_0_r.
Qed.

#[export] Instance earlier_total {F} : Total (@earlier F).
Proof. intros a b. unfold earlier. lia. Qed.
#[export] Instance earlier_trans {F} : Transitive (@earlier F).
Proof. intros a b c. unfold earlier. lia. Qed.

Lemma mapM_perm {A B} (f : A -> option B) l l' k :
  l ≡ₚ l' -> mapM f l = Some k -> exists k', mapM f l' = Some k' /\ k' ≡ₚ k.
Proof.
  intros Hp. revert k. induction Hp as [|x l l' _ IH|x y l|l1 l2 l3 _ IH1 _ IH2]; intros k E.
  - by exists k.
  - simpl in *. destruct (f x) as [b|]; [|done]. cbn [mbind option_bind] in *. destruct (mapM f l) as [k1|]; [|done].
    injection E as <-. destruct (IH k1 eq_refl) as (k' & -> & Hk). exists (b :: k'). split; [done|by constructor].
  - simpl in *. destruct (f y) as [b|], (f x) as [c|]; try done. cbn [mbind option_bind] in *. destruct (mapM f l) as [k1|]; [|done].
    injection E as <-. eexists. split; [reflexivity|apply Permutation_swap].
  - destruct (IH1 k E) as (k1 & E1 & H1). destruct (IH2 k1 E1) as (k2 & E2 & H2). exists k2. split; [done|by transitivity k1].
Qed.

(** In whatever order the directory is walked, the logs are read in the order
    they were written. *)
Lemma existing_logs_listing {F} name (files : list F) :
  Z.of_nat (length files) < 2 ^ 31 -> existing_logs name (listing name files) = Some (numbered files).
Proof.
  intros Hl. unfold existing_logs, listing.
  assert (Hr : Forall (fun x => 0 <= x.1 < 2 ^ 31) (numbered files)).
  { apply Forall_forall. intros [n f] [Hn _]%numbered_elem. simpl. lia. }
  pose proof (map_to_list_to_map _ (named_nodup name _ (numbered_keys files) Hr)) as Hp.
  assert (Hlog : Forall (fun x => is_log name x.1 = true /\ exists n, stoi (drop (length name) x.1) = Some n) (named name (numbered files))).
  { unfold named. apply Forall_fmap. eapply List.Forall_impl; [|exact Hr]. intros [n f] Hn. simpl in *. unfold is_log.
    rewrite length_app, take_app_length, drop_app_length, stoi_to_string by done. split; [|by eexists].
    unfold to_string. rewrite (proj2 (Z.ltb_ge _ _)) by lia. destruct (decimal_first 9 n ltac:(lia)) as (c & l & -> & _).
    rewrite (proj2 (Nat.ltb_lt _ _)) by (simpl; lia). apply bool_decide_eq_true. done. }
  set (l := map_to_list _) in *. rewrite <- Hp in Hlog.
  replace (filter _ l) with l.
  2:{ clear Hp. induction Hlog as [|x l [Hx _] _ IH]; [done|]. rewrite filter_cons, decide_True by done. by rewrite <- IH. }
  assert (Ek : mapM (M := option) (fun x => n ← stoi (drop (length name) x.1); Some (n, x.2)) (named name (numbered files)) = Some (numbered files)).
  { apply mapM_Some. unfold named. apply Forall2_fmap_l. apply Forall_Forall2_diag. eapply List.Forall_impl; [|exact Hr].
    intros [n f] Hn. simpl. rewrite drop_app_length, stoi_to_string by done. done. }
  destruct (mapM_perm _ _ _ _ (symmetry Hp) Ek) as (k & -> & Hk).
  cbn [mbind option_bind]. f_equal. apply (StronglySorted_unique_strong earlier).
  - intros [n1 f1] [n2 f2] H1 H2 R1 R2. unfold earlier in *. simpl in *. rewrite merge_sort_Permutation, Hk in H1.
    apply numbered_elem in H1 as [_ H1], H2 as [_ H2]. assert (n1 = n2) as -> by lia. congruence.
  - apply StronglySorted_merge_sort; apply _.
  - apply numbered_sorted.
  - by rewrite merge_sort_Permutation.
Qed.

(** ** Reading the records of a log *)

(** What opening a file gives. *)
Class OpenSpec (F G : Type) `{ReliableFile F} `{WholeReads G} `{!OpenFile F G} : Prop :=
  open_whole f : exists g, open_file f = Some g /\ remaining g = contents f.

Section Records.
Context `{PE : PastEnd} `{AC : Accelerated} `{AS : !AcceleratedSpec} `{PL : Placement} `{PS : !PlacementSpec}.
Context `{WF : WritableFile F} `{RF : !ReliableFile F} `{SF : SequentialFile G} `{WR : !WholeReads G} `{BR : !BoundedReads G}.
Context `{OF : !OpenFile F G} `{OS : !OpenSpec F G} `{LI : LogItem A Hd} `{LS : !LogItemSpec A Hd}.

Definition decodes (ds : list (list Z)) (batches : list (list A)) : Prop :=
  mapM (M := option) decode_items ds = Some batches.

Lemma records_back f batches : reads_back (G := G) f batches ->
  exists g ds, open_file f = Some g /\ records_of g = Some ds /\ decodes ds batches.
Proof.
  intros Hr. destruct (open_whole f) as (g & Eg & Hg). destruct (Hr g false false Hg) as (ds & r & E & _ & Hds).
  exists g, ds. split; [done|]. split; [|done]. unfold records_of.
  destruct (read_all_ends (S (sf_left g)) (reader g false false 0)) as [[ds' r'] E']; [unfold unread; simpl; lia|].
  pose proof (read_all_mono _ _ _ (Nat.max (S (length batches)) (S (sf_left g))) E ltac:(lia)) as M1.
  pose proof (read_all_mono _ _ _ (Nat.max (S (length batches)) (S (sf_left g))) E' ltac:(lia)) as M2.
  rewrite E'. rewrite M1 in M2. injection M2 as <- <-. done.
Qed.

(** Records of several files, one after the other. *)
Fixpoint each_records {B} (f : B -> list (list Z) -> option (bool * B)) (dss : list (list (list Z))) (b : B) : option (bool * B) :=
  match dss with
  | [] => Some (true, b)
  | ds :: dss => '(ok, b) ← f b ds; if ok : bool then each_records f dss b else Some (false, b)
  end.

Lemma each_file_records {B} (f : B -> list (list Z) -> option (bool * B)) (files : list (Z * F)) (batches : list (list (list A))) :
  Forall2 (reads_back (G := G)) files.*2 batches ->
  exists dss, Forall2 decodes dss batches /\ forall b, each_file (G := G) f files b = each_records f dss b.
Proof.
  revert batches. induction files as [|[n file] files IH]; intros batches Hr; inversion Hr as [|? bs ? bss H1 H2]; subst.
  - exists []. by split.
  - destruct (records_back _ _ H1) as (g & ds & Eg & Ed & Hds). destruct (IH _ H2) as (dss & Hdss & He).
    exists (ds :: dss). split; [by constructor|]. intros b. cbn [each_file each_records]. rewrite Eg, Ed. cbn [mbind option_bind].
    destruct (f b ds) as [[[] b']|]; [apply He|done|done].
Qed.

End Records.

Lemma each_app {A B} (f : B -> A -> option B) l k b : each f (l ++ k) b = b' ← each f l b; each f k b'.
Proof. revert b. induction l as [|x l IH]; intros b; [done|]. simpl. destruct (f b x); [apply IH|done]. Qed.

Lemma series_record `{PastEnd} d rs : mjoin (read_treeSeries d) = Some rs -> peek d 0 = kSeries /\ read_treeSeries d = Some (Some rs).
Proof.
  unfold read_treeSeries, of_type. destruct d as [|b l]; [done|]. destruct (Z.eqb_spec b kSeries) as [->|]; [|done].
  destruct (get_all _ _ _); [|done]. intros [= ->]. done.
Qed.

Lemma sample_record `{PastEnd} d rs : read_treeSamplesGorilla d = Some rs -> record_samples d = Some rs.
Proof.
  intros E. unfold record_samples. assert (Hd : peek d 0 = kSampleGorilla).
  { unfold read_treeSamplesGorilla in E. destruct d as [|b l]; [done|]. by destruct (Z.eqb_spec b kSampleGorilla) as [->|]. }
  by rewrite Hd, E.
Qed.

(** ** Recovering the series *)

Section Series.
Context `{PE : PastEnd} `{TI : Thmap str Z MI} `{TIL : !ThmapLaws str Z MI} `{TF : Thmap Z Z MF} `{TL : !ThmapLaws Z Z MF}.
Context `{IX : InvertedIndex IV} `{CS : ChunkStore St} `{TH : !Threads St} `{SS : !StoreSpec St}.
Implicit Types (h : TreeHead MI MF IV).

(** A head into which the series [rs] have been read: it knows them and no
    others, the tables of names are empty, and new ids come after theirs. *)
Record recovered (ns nm : Z) h (rs : list TreeRefSeries) : Prop := {
  rv_nonnull : nonnull h;
  rv_hold : holding h [] [];
  rv_known s m : known h s m <-> 0 <= m /\ (s, m) ∈ series_ids <$> rs;
  rv_names k : thmap_get (source_thmap_ h) k = None /\ thmap_get (metric_thmap_ h) k = None;
  rv_last : Forall (fun r => tr_sgid r <= last_source_group_id_ h /\ tr_mid r <= last_metric_id_ h) rs;
  rv_least : last_source_group_id_ h ∈ 0 :: (tr_sgid <$> rs) /\ last_metric_id_ h ∈ 0 :: (tr_mid <$> rs);
  rv_room : Z.of_nat (length (source_labels_ptr_ h)) = ns /\ Z.of_nat (length (metric_labels_ptr_ h)) = nm }.

Lemma new_head_recovered ns nm (inverted : IV) :
  recovered (Z.of_nat ns) (Z.of_nat nm) (new_head (MI := MI) (MF := MF) ns nm inverted) [].
Proof.
  split.
  - apply (ix_nonnull _ _ (new_head_indexed ns nm inverted)).
  - apply new_head_holding.
  - intros s m. split; [|intros [_ ?]; set_solver]. intros Hk. apply (sl_known _ _ _ (ra_series _ _ _ _ _ _ _ (new_head_ran ns nm inverted))).
    done.
  - intros k. simpl. by rewrite !get_create.
  - constructor.
  - simpl. set_solver.
  - simpl. by rewrite !length_replicate.
Qed.

Lemma pool_fill_some {A} (pool : list (option A)) i x : exists pool', pool_fill pool i (Some x) = Some pool' /\ length pool' = length pool.
Proof.
  unfold pool_fill. destruct (pool !! _) as [[y|]|]; [by exists pool| |by exists pool]. simpl. eexists. split; [reflexivity|].
  apply length_insert.
Qed.

Lemma with_id_new h junk s m l rest :
  flat_forward_index_ h = None -> nonnull h -> 0 <= m -> get_from_forward_index h s m = 0 ->
  exists h', get_or_create_with_id h junk s m (l :: rest) = Some (Z.of_nat (length (allocated_ h)) + 1, true, h') /\
    created h h' (Z.of_nat (length (allocated_ h)) + 1) s m true /\ flat_forward_index_ h' = None /\ nonnull h' /\
    last_source_group_id_ h' = last_source_group_id_ h /\ last_metric_id_ h' = last_metric_id_ h /\
    source_thmap_ h' = source_thmap_ h /\ metric_thmap_ h' = metric_thmap_ h /\
    length (source_labels_ptr_ h') = length (source_labels_ptr_ h) /\ length (metric_labels_ptr_ h') = length (metric_labels_ptr_ h).
Proof.
  intros Hf Hn Hm E0. unfold get_or_create_with_id. rewrite read_outside by (by left). cbn [mbind option_bind]. rewrite E0.
  cbn [Z.eqb negb]. unfold new_series. set (ms := set_txns _ _ _). cbn [head].
  destruct (pool_fill_some (A := Labels) (source_labels_ptr_ h) s rest) as (sl & Es & Ls).
  destruct (pool_fill_some (metric_labels_ptr_ h) m l) as (ml & Em & Lm).
  change (source_labels_ptr_ (set_inverted _ _)) with (source_labels_ptr_ h).
  change (metric_labels_ptr_ (set_inverted _ _)) with (metric_labels_ptr_ h). change (@Some (list Label) rest) with (@Some Labels rest). rewrite Es. cbn [mbind option_bind].
  rewrite Em. cbn [mbind option_bind]. eexists. split; [reflexivity|]. split_and!; try done.
  - split; [done|]. split; [done|]. split; [by exists ms|].
    intros s' m' Hm'. apply (set_get (set_objects h (source_array_ h) (allocated_ h ++ [ms])) s m); done.
  - apply (set_nonnull (set_objects h (source_array_ h) (allocated_ h ++ [ms])) s m); [lia|done].
Qed.

Lemma recover_series_step ns nm junk h rs r :
  recovered ns nm h rs -> ids_fit (tr_sgid r) (tr_mid r) -> tr_lset r <> [] ->
  exists h', recover_series junk h r = Some h' /\ recovered ns nm h' (rs ++ [r]).
Proof.
  intros [H1 H2 H3 H4 H5 H6 H7] Hfit Hne. pose proof Hfit as (F1 & F2 & F3). unfold is_u in F1.
  unfold recover_series. destruct (tr_lset r) as [|l rest]; [done|].
  destruct (decide (get_from_forward_index h (tr_sgid r) (tr_mid r) = 0)) as [E0|E0].
  - destruct (with_id_new h junk (tr_sgid r) (tr_mid r) l rest (hd_flat _ _ _ H2) H1 ltac:(lia) E0)
      as (h1 & -> & Hc & Hf1 & Hn1 & L1 & L2 & T1 & T2 & P1 & P2).
    eexists. split; [reflexivity|]. rewrite L1, L2. set (p := Z.of_nat (length (allocated_ h)) + 1) in *.
    pose proof (fun s' m' => created_known h h1 p _ _ true s' m' Hc ltac:(lia) ltac:(lia)) as Hk. split.
    + done.
    + assert (Hh1 : holding h1 [] []) by (eapply created_holding; try done; lia). destruct Hh1 as [A1 A2 A3 A4]. by split.
    + intros s m. change (known h1 s m <-> 0 <= m /\ (s, m) ∈ series_ids <$> rs ++ [r]).
      rewrite Hk, H3, fmap_app, elem_of_app. change (series_ids <$> [r]) with [(tr_sgid r, tr_mid r)]. rewrite list_elem_of_singleton.
      split; [intros [[? ?]|[-> ->]]; [by auto|split; [lia|by auto]]|]. intros [? [?|[= -> ->]]]; by auto.
    + intros k. simpl. rewrite T1, T2. apply H4.
    + simpl. apply Forall_app. split; [eapply List.Forall_impl; [|exact H5]; intros x Hx; simpl in *|apply Forall_singleton];
        destruct (Z.ltb_spec (last_source_group_id_ h) (tr_sgid r)), (Z.ltb_spec (last_metric_id_ h) (tr_mid r)); lia.
    + simpl. rewrite !fmap_app. destruct H6 as [G1 G2]. split.
      * destruct (_ <? tr_sgid r); set_solver.
      * destruct (_ <? tr_mid r); set_solver.
    + simpl. by rewrite P1, P2.
  - unfold get_or_create_with_id. rewrite read_outside by (left; exact (hd_flat _ _ _ H2)). cbn [mbind option_bind].
    rewrite (proj2 (Z.eqb_neq _ _)) by done. cbn [negb]. exists h. split; [done|].
    assert (Hin : (tr_sgid r, tr_mid r) ∈ series_ids <$> rs) by (apply H3; split; [lia|done]).
    split; try done.
    + intros s m. rewrite H3, fmap_app, elem_of_app. change (series_ids <$> [r]) with [(tr_sgid r, tr_mid r)]. rewrite list_elem_of_singleton.
      split; [intros [? ?]; by auto|]. intros [? [?|[= -> ->]]]; by auto.
    + apply Forall_app. split; [done|]. apply Forall_singleton. apply list_elem_of_fmap in Hin as (x & [= E1 E2] & Hx).
      rewrite Forall_forall in H5. rewrite E1, E2. by apply H5.
    + rewrite !fmap_app. set_solver.
Qed.

Lemma recover_series_all ns nm junk l : forall h rs,
  recovered ns nm h rs -> Forall (fun r => ids_fit (tr_sgid r) (tr_mid r) /\ tr_lset r <> []) l ->
  exists h', each (recover_series junk) l h = Some h' /\ recovered ns nm h' (rs ++ l).
Proof.
  induction l as [|r l IH]; intros h rs Hr Hl.
  - exists h. rewrite app_nil_r. by split.
  - apply Forall_cons_1 in Hl as [[Hf Hn] Hl]. destruct (recover_series_step ns nm junk h rs r Hr Hf Hn) as (h1 & E1 & Hr1).
    destruct (IH h1 _ Hr1 Hl) as (h2 & E2 & Hr2). exists h2. cbn [each]. rewrite E1. cbn [mbind option_bind].
    rewrite <- app_assoc in Hr2. by split.
Qed.

Lemma recover_index_batches `{LI : LoggedHead Hd} junk h h' ds bs :
  decodes (Hd := Hd) ds bs -> each (recover_series junk) (concat bs) h = Some h' ->
  recover_index_records junk h ds = Some (true, h').
Proof.
  unfold decodes. intros Hds%mapM_Some. revert h.
  induction Hds as [|d b ds bs H1 _ IH]; intros h E; simplify_eq/=; [done|].
  apply series_record in H1 as [P1 P2]. rewrite P1, Z.eqb_refl, P2. rewrite each_app in E.
  destruct (each _ b h) as [h1|]; [|done]. cbn [mbind option_bind] in *. by apply IH.
Qed.

Lemma recover_index_each `{LI : LoggedHead Hd} junk dss batches : forall h h',
  Forall2 (decodes (Hd := Hd)) dss batches -> each (recover_series junk) (concat (concat batches)) h = Some h' ->
  each_records (recover_index_records junk) dss h = Some (true, h').
Proof.
  intros h h' Hds. revert h. induction Hds as [|ds bs dss batches H1 _ IH]; intros h E; [simpl in *; by injection E as ->|].
  cbn [concat] in E. rewrite concat_app, each_app in E. cbn [each_records].
  destruct (each _ (concat bs) h) as [h1|] eqn:E1; [|done]. cbn [mbind option_bind] in E.
  rewrite (recover_index_batches junk h h1 ds bs H1 E1). cbn [mbind option_bind]. by apply IH.
Qed.

End Series.

(** ** Recovering the samples *)

(** As [add_fast] makes it. *)
Definition zero_txn (x : TreeRefSample) : TreeRefSample := mkTreeRefSample (sgid x) (mid x) (t_t x) (t_v x) 0.

Lemma samples_of_zero s m l : samples_of s m (zero_txn <$> l) = samples_of s m l.
Proof.
  unfold samples_of. induction l as [|x l IH]; [done|]. rewrite fmap_cons, !filter_cons.
  destruct (decide (sample_of s m x)) as [H|H]; [rewrite decide_True by exact H|rewrite decide_False by exact H; done].
  rewrite !fmap_cons, IH. done.
Qed.

Section Samples.
Context `{PE : PastEnd} `{TI : Thmap str Z MI} `{TIL : !ThmapLaws str Z MI} `{TF : Thmap Z Z MF} `{TL : !ThmapLaws Z Z MF}.
Context `{IX : InvertedIndex IV} `{CS : ChunkStore St} `{TH : !Threads St} `{SS : !StoreSpec St}.
Implicit Types (h : TreeHead MI MF IV) (puts : list Put).

Definition sample_known h (x : TreeRefSample) : Prop := known h (sgid x) (mid x) /\ sample_ok (tv x).

Lemma add_all_fast_known h rs :
  flat_forward_index_ h = None -> Forall (sample_known h) rs -> add_all_fast h rs = Some (mkAppender [] (zero_txn <$> rs)).
Proof.
  intros Hf Hk. unfold add_all_fast, new_appender.
  enough (He : forall l, each (fun app x => '(_, app) ← add_fast h app (sgid x) (mid x) (t_t x) (t_v x); Some app) rs (mkAppender [] l) =
    Some (mkAppender [] (l ++ (zero_txn <$> rs)))) by apply He.
  induction Hk as [|x rs [[_ Hx] _] _ IH]; intros l; [by rewrite app_nil_r|]. cbn [each]. unfold add_fast.
  rewrite read_outside by (by left). cbn [mbind option_bind]. rewrite (proj2 (Z.eqb_neq _ _)) by done. cbn [mbind option_bind app_series app_samples].
  fold (zero_txn x). rewrite IH, <- app_assoc. done.
Qed.

(** The head after some samples. *)
Definition replayed h puts L h' st' puts' L' : Prop :=
  store_ok st' /\ holding h' puts' (L ++ L') /\ same_but_objects h h'.

Lemma replayed_more h puts L h1 puts1 L1 h2 st2 puts2 L2 :
  same_but_objects h h1 -> replayed h1 puts1 (L ++ L1) h2 st2 puts2 L2 -> replayed h puts L h2 st2 puts2 (L1 ++ L2).
Proof. intros Hs (H1 & H2 & H3). split; [done|]. rewrite app_assoc. split; [done|by eapply same_but_objects_trans]. Qed.

Lemma replayed_none h st puts L : store_ok st -> holding h puts L -> replayed h puts L h st puts [].
Proof. intros H1 H2. split; [done|]. rewrite app_nil_r. split; [done|]. exists (allocated_ h). by destruct h. Qed.

Lemma same_sample_known h h' l : same_but_objects h h' -> Forall (sample_known h) l -> Forall (sample_known h') l.
Proof. intros Hs Hl. eapply List.Forall_impl; [|exact Hl]. intros x [H1 H2]. split; [by eapply same_known|done]. Qed.

Lemma replay_record h st puts L rs :
  holding h puts L -> store_ok st -> Forall (sample_known h) rs ->
  exists h' st' puts' app', add_all_fast h rs = Some app' /\ recover_commit h (st, puts) app' = Some (h', (st', puts'), new_appender) /\
    replayed h puts L h' st' puts' (zero_txn <$> rs).
Proof.
  intros Hh Hst Hk.
  destruct (append_samples_known (zero_txn <$> rs) h st puts L Hh Hst) as (h' & st' & puts' & E & Hst' & Hh' & Hs).
  { apply Forall_fmap. exact Hk. }
  eexists h', st', puts', _. split; [apply (add_all_fast_known h rs (hd_flat _ _ _ Hh) Hk)|]. unfold recover_commit. cbn [app_samples].
  rewrite E. split; [done|]. done.
Qed.

Lemma replay_records `{LH : LoggedHead Hd} ds bs : forall h st puts L,
  decodes (Hd := Hd) ds bs -> holding h puts L -> store_ok st -> Forall (sample_known h) (concat bs) ->
  exists h' st' puts', recover_samples_records (h, (st, puts)) ds = Some (true, (h', (st', puts'))) /\
    replayed h puts L h' st' puts' (zero_txn <$> concat bs).
Proof.
  unfold decodes. intros h st puts L Hds%mapM_Some. revert h st puts L.
  induction Hds as [|d b ds bs H1 _ IH]; intros h st puts L Hh Hst Hk.
  - exists h, st, puts. split; [done|]. by apply replayed_none.
  - cbn [concat] in Hk |- *. apply Forall_app in Hk as [Hk1 Hk2].
    cbn [recover_samples_records]. rewrite (sample_record _ _ H1). cbn [mbind option_bind].
    destruct (replay_record h st puts L b Hh Hst Hk1) as (h1 & st1 & puts1 & app1 & -> & E1 & Hr). cbn [mbind option_bind].
    rewrite E1. cbn [mbind option_bind]. destruct Hr as (Hst1 & Hh1 & Hs1).
    destruct (IH h1 st1 puts1 _ Hh1 Hst1) as (h2 & st2 & puts2 & E2 & Hr2); [by eapply same_sample_known|].
    exists h2, st2, puts2. split; [done|]. rewrite fmap_app. by eapply replayed_more.
Qed.

Lemma replay_files `{LH : LoggedHead Hd} dss batches : forall h st puts L,
  Forall2 (decodes (Hd := Hd)) dss batches -> holding h puts L -> store_ok st -> Forall (sample_known h) (concat (concat batches)) ->
  exists h' st' puts', each_records recover_samples_records dss (h, (st, puts)) = Some (true, (h', (st', puts'))) /\
    replayed h puts L h' st' puts' (zero_txn <$> concat (concat batches)).
Proof.
  intros h st puts L Hds. revert h st puts L. induction Hds as [|ds bs dss batches H1 _ IH]; intros h st puts L Hh Hst Hk.
  - exists h, st, puts. split; [done|]. by apply replayed_none.
  - cbn [concat] in *. rewrite concat_app in Hk |- *. apply Forall_app in Hk as [Hk1 Hk2].
    destruct (replay_records ds bs h st puts L H1 Hh Hst Hk1) as (h1 & st1 & puts1 & E1 & Hst1 & Hh1 & Hs1). cbn [each_records].
    rewrite E1. cbn [mbind option_bind].
    destruct (IH h1 st1 puts1 _ Hh1 Hst1) as (h2 & st2 & puts2 & E2 & Hr2); [by eapply same_sample_known|].
    exists h2, st2, puts2. split; [done|]. rewrite fmap_app. by eapply replayed_more.
Qed.

(** Resetting the counters does not touch the samples. *)
Lemma reset_holding h puts L : holding h puts L -> last_metric_id_ h < 2 ^ 16 - 1 -> 
  exists h', reset_flush_txn h = Some h' /\ holding h' puts L /\ same_but_objects h h'.
Proof.
  intros Hh Hl. unfold reset_flush_txn. rewrite (proj2 (Z.leb_gt (2 ^ 16 - 1) _)) by lia. rewrite andb_false_r.
  assert (Hc : Forall (fun x => 0 <= x.2) (loop 1 (last_source_group_id_ h) 1 (last_metric_id_ h))).
  { apply Forall_forall. intros [i j] Hij%elem_of_loop. simpl. lia. }
  clear Hl. generalize dependent (loop 1 (last_source_group_id_ h) 1 (last_metric_id_ h)). intros l. revert h Hh.
  induction l as [|[i j] l IH]; intros h Hh Hc.
  { exists h. split; [done|]. split; [done|]. exists (allocated_ h). by destruct h. }
  apply Forall_cons_1 in Hc as [Hj Hc]. cbn [each]. rewrite read_outside by (left; exact (hd_flat _ _ _ Hh)). cbn [mbind option_bind].
  destruct (Z.eqb_spec (get_from_forward_index h i j) 0) as [E|E]; [cbn [mbind option_bind]; by apply IH|].
  destruct (hd_at _ _ _ Hh i j (conj Hj E)) as (ms & kept & Ed & _). rewrite Ed. cbn [mbind option_bind].
  set (h1 := set_series _ _ _). assert (Hh1 : holding h1 puts L).
  { destruct Hh as [H1 H2 H3 H4]. split; try done. intros s m Hk. destruct (H2 s m Hk) as (ms' & kept' & Ed' & I1 & I2 & I3 & Hf & Hs').
    unfold h1. rewrite (deref_set _ _ _ _ _ Ed). change (get_from_forward_index (set_series _ _ _) s m) with (get_from_forward_index h s m).
    case_decide as Hp; [|by exists ms', kept']. rewrite Hp in Ed'. assert (ms' = ms) as -> by congruence.
    eexists _, kept'. split; [reflexivity|]. split_and!; try done. by eapply filling_chunk; [| |exact Hf]. }
  destruct (IH h1 Hh1 Hc) as (h2 & E2 & Hh2 & Hs2). exists h2. split; [done|]. split; [done|].
  eapply same_but_objects_trans; [apply set_series_same|exact Hs2].
Qed.

End Samples.

(** ** Restart *)

(** The samples that go through log [i] of [n]. *)
Definition of_wal (n i : nat) (l : list TreeRefSample) : list TreeRefSample :=
  filter (fun x => Z.to_nat (mid x mod Z.of_nat n) = i) l.

Lemma concat_single {A} (f : nat -> list A) k n :
  (k < n)%nat -> (forall i, i <> k -> f i = []) -> concat (map f (seq 0 n)) = f k.
Proof.
  intros Hk Hf. assert (H : forall n, concat (map f (seq 0 n)) = if decide (k < n)%nat then f k else []); [|by rewrite H, decide_True].
  clear n Hk. induction n as [|n IH]; [by rewrite decide_False by lia|]. rewrite seq_S, map_app, concat_app, IH. simpl. rewrite app_nil_r.
  destruct (decide (k = n)) as [->|Hne]; [rewrite decide_False, decide_True by lia; done|]. rewrite (Hf n) by done. rewrite app_nil_r.
  destruct (decide (k < n)%nat); [by rewrite decide_True by lia|by rewrite decide_False by lia].
Qed.

Lemma samples_of_filter s m n i l :
  samples_of s m (of_wal n i l) = if decide (i = Z.to_nat (m mod Z.of_nat n)) then samples_of s m l else [].
Proof.
  unfold samples_of, of_wal. rewrite list_filter_filter. case_decide as Hi.
  - f_equal. apply filter_ext_in. intros x _. split; [by intros []|]. intros [H1 H2]. split; [done|]. by rewrite H2.
  - induction l as [|x l IH]; [done|]. rewrite filter_cons, decide_False; [done|]. intros [[H1 H2] H3]. apply Hi. by rewrite <- H3, H2.
Qed.

Lemma samples_of_concat s m ls : samples_of s m (concat ls) = concat (map (samples_of s m) ls).
Proof. induction ls as [|l ls IH]; [done|]. simpl. by rewrite samples_of_app, IH. Qed.

(** A log that is read but for its values. *)
Lemma samples_of_same s m l k : Forall2 same_but_value l k -> (samples_of s m l).*1 = (samples_of s m k).*1.
Proof.
  unfold samples_of. induction 1 as [|x y l k (E1 & E2 & E3 & _) _ IH]; [done|]. rewrite !filter_cons.
  assert (Hiff : sample_of s m x <-> sample_of s m y) by (unfold sample_of; by rewrite E1, E2).
  destruct (decide (sample_of s m y)) as [Hy|Hy]; [rewrite decide_True by (by apply Hiff)|rewrite decide_False by (by rewrite Hiff); done].
  rewrite !fmap_cons, IH. unfold tv at 1 3. simpl. by rewrite E3.
Qed.

(** Reading the logs one after the other keeps the order within a series. *)
Lemma samples_of_wals s m n l : (0 < n)%nat ->
  samples_of s m (concat (map (fun i => of_wal n i l) (seq 0 n))) = samples_of s m l.
Proof.
  intros Hn. rewrite samples_of_concat, map_map. rewrite (concat_single _ (Z.to_nat (m mod Z.of_nat n))).
  - by rewrite samples_of_filter, decide_True.
  - pose proof (Z.mod_pos_bound m (Z.of_nat n) ltac:(lia)). lia.
  - intros i Hi. by rewrite samples_of_filter, decide_False.
Qed.

Section Restart.
Context `{PE : PastEnd} `{TI : Thmap str Z MI} `{TIL : !ThmapLaws str Z MI} `{TF : Thmap Z Z MF} `{TL : !ThmapLaws Z Z MF}.
Context `{IX : InvertedIndex IV} `{CS : ChunkStore St} `{TH : !Threads St} `{SS : !StoreSpec St}.
Context `{AC : Accelerated} `{AS : !AcceleratedSpec} `{PL : Placement} `{PS : !PlacementSpec}.
Context `{WF : WritableFile F} `{RF : !ReliableFile F} `{FF : !FreshFile F} `{FS : !FreshSpec F}.
Context `{SF : SequentialFile G} `{WR : !WholeReads G} `{BR : !BoundedReads G} `{OF : !OpenFile F G} `{OS : !OpenSpec F G}.
Context `{LH : LoggedHead Hd}.
Implicit Types (h : TreeHead MI MF IV) (puts : list Put).

(** A log directory whose files read back as [batches], each a list of
    records. *)
Definition dir_holds {A} `{LI : LogItem A Hd} `{LS : !LogItemSpec A Hd} (name : str) (dir : option (gmap str F)) (batches : list (list (list A))) : Prop :=
  exists files, dir = Some (listing name files) /\ Z.of_nat (length files) < 2 ^ 31 /\ Forall2 (reads_back (G := G)) files batches.

Lemma recover_index_holds (ns nm junk : Z) (dir : option (gmap str F)) (batches : list (list (list TreeRefSeries))) h0 (st : St * list Put) p :
  dir_holds HEAD_INDEX_LOG_NAME dir batches -> recovered ns nm h0 [] ->
  Forall (fun r => ids_fit (tr_sgid r) (tr_mid r) /\ tr_lset r <> []) (concat (concat batches)) ->
  exists h p', recover_index_from_log (G := G) junk dir (mkHeadState h0 st p) = Some (true, mkHeadState h st p') /\
    recovered ns nm h (concat (concat batches)) /\ sample_wal_ p' = sample_wal_ p.
Proof.
  intros (files & -> & Hn & Hr) Hh Hl. unfold recover_index_from_log. rewrite existing_logs_listing by done. cbn [mbind option_bind].
  destruct (recover_series_all ns nm junk _ h0 [] Hh Hl) as (h & E & Hh').
  rewrite <- (numbered_fst files) in Hr. destruct (each_file_records (recover_index_records (MI := MI) (MF := MF) (IV := IV) junk) _ _ Hr) as (dss & Hds & Ef).
  cbn [hs_head hs_store pwal_m_]. rewrite Ef, (recover_index_each junk dss batches h0 h Hds E). cbn [mbind option_bind].
  eexists _, _. split; [reflexivity|]. by split.
Qed.

Lemma recover_samples_holds (i : nat) (dir : option (gmap str F)) (batches : list (list (list TreeRefSample))) h st puts L p :
  dir_holds HEAD_SAMPLES_LOG_NAME dir batches -> holding h puts L -> store_ok st -> (i < length (sample_wal_ p))%nat ->
  Forall (sample_known h) (concat (concat batches)) ->
  exists h' st' puts' p', recover_samples_from_log (G := G) i dir (mkHeadState h (st, puts) p) = Some (true, mkHeadState h' (st', puts') p') /\
    replayed h puts L h' st' puts' (zero_txn <$> concat (concat batches)) /\ length (sample_wal_ p') = length (sample_wal_ p).
Proof.
  intros (files & -> & Hn & Hr) Hh Hst Hi Hk. unfold recover_samples_from_log. rewrite existing_logs_listing by done. cbn [mbind option_bind].
  rewrite <- (numbered_fst files) in Hr. destruct (each_file_records (recover_samples_records (MI := MI) (MF := MF) (IV := IV) (St := St * list Put)) _ _ Hr) as (dss & Hds & Ef).
  cbn [hs_head hs_store pwal_m_]. rewrite Ef.
  destruct (replay_files dss batches h st puts L Hds Hh Hst Hk) as (h' & st' & puts' & -> & Hrep). cbn [mbind option_bind].
  destruct (lookup_lt_is_Some_2 _ _ Hi) as [w ->]. cbn [mbind option_bind]. eexists _, _, _, _. split; [reflexivity|]. split; [done|].
  simpl. apply length_insert.
Qed.

Lemma recover_all_samples (all : list (list (list (list TreeRefSample)))) (dirs : list (option (gmap str F))) : forall i h st puts L p,
  Forall2 (dir_holds HEAD_SAMPLES_LOG_NAME) (drop i dirs) all -> holding h puts L -> store_ok st ->
  length (sample_wal_ p) = (i + length all)%nat -> Forall (sample_known h) (concat (map (fun b => concat (concat b)) all)) ->
  exists h' st' puts' p', each (fun s i => '(_, s) ← recover_samples_from_log (G := G) i (mjoin (dirs !! i)) s; Some s)
      (seq i (length all)) (mkHeadState h (st, puts) p) = Some (mkHeadState h' (st', puts') p') /\
    replayed h puts L h' st' puts' (zero_txn <$> concat (map (fun b => concat (concat b)) all)).
Proof.
  induction all as [|bs all IH]; intros i h st puts L p Hdirs Hh Hst Hl Hk.
  - exists h, st, puts, p. split; [done|]. by apply replayed_none.
  - inversion Hdirs as [|dir ? ds ? H1 H2 Ed]; subst. cbn [map concat] in Hk |- *. apply Forall_app in Hk as [Hk1 Hk2].
    assert (Edir : dirs !! i = Some dir) by (rewrite <- (Nat.add_0_r i), <- lookup_drop, <- Ed; done).
    destruct (recover_samples_holds i dir bs h st puts L p H1 Hh Hst ltac:(simpl in Hl; lia) Hk1)
      as (h1 & st1 & puts1 & p1 & E1 & (Hst1 & Hh1 & Hs1) & L1).
    destruct (IH (S i) h1 st1 puts1 (L ++ (zero_txn <$> concat (concat bs))) p1) as (h2 & st2 & puts2 & p2 & E2 & Hr2); [|done|done|simpl in Hl; lia|by eapply same_sample_known|].
    { replace (drop (S i) dirs) with ds; [done|]. rewrite <- Nat.add_1_r, <- drop_drop, <- Ed. done. }
    exists h2, st2, puts2, p2. cbn [length seq each]. rewrite Edir. cbn [mjoin option_join]. rewrite E1. cbn [mbind option_bind].
    split; [done|]. rewrite fmap_app. by eapply replayed_more.
Qed.

(** The whole recovery. *)
Lemma recover_serial_holds ns nm junk path tbatches (all : list (list (list (list TreeRefSample)))) (inverted : IV) st p :
  dir_holds (A := TreeRefSeries) HEAD_INDEX_LOG_NAME (metric_dir path) tbatches ->
  Forall2 (dir_holds HEAD_SAMPLES_LOG_NAME) (sample_dirs path) all -> length (sample_wal_ p) = length all -> store_ok st ->
  Forall (fun r => ids_fit (tr_sgid r) (tr_mid r) /\ tr_lset r <> []) (concat (concat tbatches)) ->
  Forall (fun x => (sgid x, mid x) ∈ series_ids <$> (concat (concat tbatches)) /\ sample_ok (tv x))
    (concat (map (fun b => concat (concat b)) all)) ->
  exists h1 h st' puts p', recover_serial (G := G) junk path (mkHeadState (new_head (MI := MI) (MF := MF) ns nm inverted) (st, []) p)
      = Some (mkHeadState h (st', puts) p') /\
    recovered (Z.of_nat ns) (Z.of_nat nm) h1 (concat (concat tbatches)) /\ same_but_objects h1 h /\
    holding h puts (zero_txn <$> concat (map (fun b => concat (concat b)) all)).
Proof.
  intros Ht Hs Hp Hst Hr Hx. unfold recover_serial.
  destruct (recover_index_holds _ _ junk _ _ _ (st, []) p Ht (new_head_recovered ns nm inverted) Hr) as (h1 & p1 & -> & H1 & Hp1).
  cbn [mbind option_bind pwal_m_]. rewrite Hp1, Hp.
  destruct (recover_all_samples all (sample_dirs path) 0 h1 st [] [] p1) as (h2 & st2 & puts2 & p2 & -> & Hst2 & Hh2 & Hs2); try done.
  - apply (rv_hold _ _ _ _ H1).
  - by rewrite Hp1.
  - eapply List.Forall_impl; [|exact Hx]. intros x [X1 X2]. split; [|done]. apply (rv_known _ _ _ _ H1). split; [|done].
    apply list_elem_of_fmap in X1 as (r & [= _ ->] & Hin). rewrite Forall_forall in Hr. destruct (Hr r Hin) as [[F1 _] _]. unfold is_u in F1. lia.
  - cbn [mbind option_bind hs_head hs_store pwal_m_]. cbn [app] in Hh2.
    destruct (reset_holding h2 _ _ Hh2) as (h3 & -> & Hh3 & Hs3).
    { destruct Hs2 as (l & -> & _). simpl. destruct (rv_least _ _ _ _ H1) as [_ Hm]. apply elem_of_cons in Hm as [->|Hm]; [lia|].
      apply list_elem_of_fmap in Hm as (r & -> & Hin). rewrite Forall_forall in Hr. destruct (Hr r Hin) as [(_ & _ & _ & F3) _].
      unfold CX_NUM in F3. lia. }
    cbn [mbind option_bind]. eexists h1, h3, st2, puts2, _. split; [reflexivity|]. split; [done|]. split; [|done].
    by eapply same_but_objects_trans.
Qed.


(** The directories in which the logs of [p] are. *)
Definition path_of (p : PWalManagement F) : LogPath F :=
  mkLogPath (Some (listing HEAD_INDEX_LOG_NAME (wal_files (tag_wal_ p))))
    ((fun w => Some (listing HEAD_SAMPLES_LOG_NAME (wal_files w))) <$> sample_wal_ p).

(** The numbers of the logs fit an [int]. *)
Definition few_files (p : PWalManagement F) : Prop :=
  Z.of_nat (length (wal_files (tag_wal_ p))) < 2 ^ 31 /\ Forall (fun w => Z.of_nat (length (wal_files w)) < 2 ^ 31) (sample_wal_ p).

Lemma flushed_dir {A} `{LI : LogItem A Hd} `{LS : !LogItemSpec A Hd} name junk (h0 : Hd) (l : list A) (s : WalState F A Hd) :
  WalRun (mkWalState (new_wal junk) h0 false) l s -> busy s = false -> Forall ParallelWal.item_ok l ->
  exists w batches, Flush (Hd := Hd) (wal s) = Some w /\ Forall2 kept_item (concat (concat batches)) l /\
    (ParallelWal.run_ok l -> concat (concat batches) = reloaded <$> l) /\
    (Z.of_nat (length (wal_files w)) < 2 ^ 31 -> dir_holds name (Some (listing name (wal_files w))) batches).
Proof.
  intros Hr Hb Hok. destruct (flush_logged junk h0 l s Hr Hb) as (w & d & c & E & Hl & _ & _ & Ha).
  destruct (logged_reads (G := G) _ _ _ _ Hl Hok) as (R1 & R2 & R3). rewrite Ha in R2, R3.
  eexists w, _. split; [done|]. split; [exact R2|]. split; [exact R3|]. intros Hn. exists (wal_files w). by split.
Qed.

(** What reading a log makes of the samples [l]. *)
Definition read_log_as (l : list TreeRefSample) (batches : list (list (list TreeRefSample))) : Prop :=
  Forall2 same_but_value (concat (concat batches)) l /\ (samples_run l -> concat (concat batches) = l).

Lemma flushed_dirs n junk (h0 : Hd) samples ids (ss : list (WalState F TreeRefSample Hd)) :
  Forall tree_sample_ok samples ->
  Forall2 (fun i s => WalRun (mkWalState (new_wal junk) h0 false) (of_wal n i samples) s /\ busy s = false) ids ss ->
  exists ws all, Forall2 (fun w w' => Flush (Hd := Hd) w = Some w') (wal <$> ss) ws /\
    Forall2 (fun i => read_log_as (of_wal n i samples)) ids all /\
    (Forall (fun w => Z.of_nat (length (wal_files w)) < 2 ^ 31) ws ->
     Forall2 (dir_holds HEAD_SAMPLES_LOG_NAME) ((fun w => Some (listing HEAD_SAMPLES_LOG_NAME (wal_files w))) <$> ws) all).
Proof.
  intros Hok. induction 1 as [|i s ids ss (H1 & H2) _ (ws & all & E1 & E2 & E3)].
  - exists [], []. split; [constructor|]. split; [constructor|]. intros _. constructor.
  - assert (H3 : Forall tree_sample_ok (of_wal n i samples)) by (apply Forall_forall; intros x [_ Hx]%list_elem_of_filter; rewrite Forall_forall in Hok; by apply Hok).
    destruct (flushed_dir (LS := sample_item_spec) HEAD_SAMPLES_LOG_NAME junk h0 (of_wal n i samples) s H1 H2 H3) as (w & b & F1 & F2 & F3 & F4).
    exists (w :: ws), (b :: all). split; [by constructor|]. split.
    + constructor; [|done]. split; [done|]. intros Hrun. rewrite (F3 Hrun). apply list_fmap_id.
    + intros [Hw Hws]%Forall_cons_1. constructor; [by apply F4|by apply E3].
Qed.

(** What the log can carry of a request. *)
Definition loggable (r : Request) : Prop := labels_ok (rq_lset r) /\ strings_bytes (rq_lset r).

Lemma series_loadable ns nm h puts reqs rec :
  ran ns nm h puts reqs new_appender rec -> Forall request_ok reqs -> Forall loggable reqs ->
  tree_loaded <$> rec.1 = rec.1 /\ Forall tree_series_bytes rec.1 /\
  Forall (fun r => ids_fit (tr_sgid r) (tr_mid r) /\ tr_lset r <> []) rec.1.
Proof.
  intros Hr Hq Hl. pose proof (ra_series _ _ _ _ _ _ _ Hr) as [_ S2 S3]. cbn [app_series new_appender] in S2, S3. rewrite app_nil_r in S2, S3.
  rewrite Forall_forall in Hq, Hl.
  assert (Hall : Forall (fun r => tree_loaded r = r /\ tree_series_bytes r /\ ids_fit (tr_sgid r) (tr_mid r) /\ tr_lset r <> []) rec.1).
  { apply Forall_forall. intros r Hin. rewrite Forall_forall in S3. destruct (S3 r Hin) as (X1 & X2 & X3 & X4 & X5).
    assert (Hfit : ids_fit (tr_sgid r) (tr_mid r)).
    { assert (Hk : known h (tr_sgid r) (tr_mid r)).
      { apply S2. split; [|by apply list_elem_of_fmap_2 with (f := series_ids)]. destruct (ra_made _ _ _ _ _ _ _ Hr) as (made & Hi & _).
        apply ids_of_some in X1 as [_ X1]. destruct (io_from _ _ _ _ _ _ (ix_met _ _ Hi) _ _ X1) as [? _]. lia. }
      by destruct (hd_at _ _ _ (ra_hold _ _ _ _ _ _ _ Hr) _ _ Hk) as (ms & kept & _ & _ & _ & Hf & _). }
    apply list_elem_of_fmap in X5 as (q & Eq & Hq'). destruct (Hl q Hq') as [L1 L2]. destruct (Hq q Hq') as [Q1 _].
    rewrite <- Eq in L1, L2, Q1. destruct r as [a b c d e f]; simpl in *; subst d e f. destruct Hfit as (F1 & F2 & F3).
    split; [done|]. split; [|by split]. split; [|done]. split_and!; try done; unfold is_s64, is_s; simpl; lia. }
  split; [|split; eapply List.Forall_impl; try exact Hall; by intros r (? & ? & ?)].
  clear -Hall. induction Hall as [|r l [E _] _ IH]; [done|]. by rewrite fmap_cons, E, IH.
Qed.

Lemma samples_loadable ns nm h puts reqs rec :
  ran ns nm h puts reqs new_appender rec -> Forall request_ok reqs -> Forall tree_sample_ok rec.2.
Proof.
  intros Hr Hq. pose proof (ra_match _ _ _ _ _ _ _ Hr) as Hm. cbn [app_samples new_appender] in Hm. rewrite app_nil_r in Hm.
  pose proof (ra_hold _ _ _ _ _ _ _ Hr) as Hh. apply Forall_forall. intros x Hx. pose proof (hd_samples _ _ _ Hh) as Hk.
  rewrite Forall_forall in Hk. rewrite Forall_forall in Hq. destruct (hd_at _ _ _ Hh _ _ (Hk x Hx)) as (ms & kept & _ & _ & _ & (F1 & F2 & _) & _).
  apply list_elem_of_lookup in Hx as (k & Hx). destruct (Forall2_lookup_r _ _ _ _ _ Hm Hx) as (r & Hr' & (_ & E2 & E3)).
  destruct (Hq r) as [_ Hok]; [by eapply list_elem_of_lookup_2|]. rewrite <- E2 in Hok. destruct Hok as [O1 O2].
  split_and!; try done. rewrite E3. unfold is_s64, is_s. simpl. lia.
Qed.

(** All logs read one after the other. *)
Lemma read_wals n samples ids all :
  Forall2 (fun i => read_log_as (of_wal n i samples)) ids all ->
  let read := concat (map (fun b => concat (concat b)) all) in
  let logged := concat (map (fun i => of_wal n i samples) ids) in
  Forall2 same_but_value read logged /\
  forall s m, samples_run (of_wal n (Z.to_nat (m mod Z.of_nat n)) samples) -> samples_of s m read = samples_of s m logged.
Proof.
  cbv zeta. induction 1 as [|i b ids all [H1 H2] _ [IH1 IH2]]; [by split; [constructor|]|]. cbn [map concat]. split; [by apply Forall2_app|].
  intros s m Hrun. rewrite !samples_of_app, (IH2 s m Hrun). f_equal.
  destruct (decide (i = Z.to_nat (m mod Z.of_nat n))) as [->|Hi]; [by rewrite (H2 Hrun)|].
  apply (samples_of_same s m) in H1. rewrite samples_of_filter, decide_False in H1 |- * by done. by apply fmap_nil_inv in H1.
Qed.

(** C3.  A restart restores the head.  Whatever transactions were committed for
    fewer different sources and metrics than the pools have room for, once the
    logs have caught up and are flushed (to fewer than 2^31 files each), reading them into a new head succeeds,
    and the new head knows the same series under the same ids and has a sample
    for each one of the old head, at the same times and in the same order,
    although they come from several logs and the directory is walked in any
    order.  The values of a series are the same too when in the log it goes
    through each value equals the one before it or differs from it in the upper
    32 bits; other values do not survive the 5 bits of log_writer.cc:453. *)
Theorem restart_restores ns nm (inverted inverted' : IV) junk junk' st st2 (txs : list (list Request)) h st' puts series samples
    (n : nat) (h0 : Hd) (ts : WalState F TreeRefSeries Hd) (ss : list (WalState F TreeRefSample Hd)) (p0 : PWalManagement F) :
  store_ok st -> store_ok st2 -> Forall (Forall request_ok) txs -> Forall loggable (concat txs) ->
  sources_of (concat txs) < Z.of_nat ns <= MAX_SOURCE_NUM -> metrics_of (concat txs) < Z.of_nat nm <= 256 * CX_NUM ->
  transactions junk txs (new_head (MI := MI) (MF := MF) ns nm inverted) (st, []) ([], []) = Some (h, (st', puts), (series, samples)) ->
  (0 < n)%nat -> length (sample_wal_ p0) = n ->
  WalRun (mkWalState (new_wal junk) h0 false) series ts -> busy ts = false ->
  Forall2 (fun i s => WalRun (mkWalState (new_wal junk) h0 false) (of_wal n i samples) s /\ busy s = false) (seq 0 n) ss ->
  exists p, FlushAll (Hd := Hd) (mkPWal (wal ts) (wal <$> ss)) = Some p /\
    (few_files p -> exists h2 st3 puts2 p2,
      recover_serial (G := G) junk' (path_of p) (mkHeadState (new_head (MI := MI) (MF := MF) ns nm inverted') (st2, []) p0)
        = Some (mkHeadState h2 (st3, puts2) p2) /\
      (forall s m, known h2 s m <-> known h s m) /\
      (forall s m, known h s m -> (stored_samples h2 puts2 s m).*1 = (stored_samples h puts s m).*1) /\
      (forall s m, known h s m -> samples_run (of_wal n (Z.to_nat (m mod Z.of_nat n)) samples) ->
        stored_samples h2 puts2 s m = stored_samples h puts s m)).
Proof.
  intros Hst Hst2 Hreq Hlog Hns Hnm E Hn Hp0 Ht Hbt Hss.
  destruct (transactions_ran (Z.of_nat ns) (Z.of_nat nm) junk txs _ st [] [] ([], []) (new_head_ran ns nm inverted) Hst Hreq Hns Hnm)
    as (h' & st'' & puts' & rec & E' & _ & Hr). pose proof (eq_trans (eq_sym E) E') as Ee. injection Ee as <- <- <- <-. clear E'. cbn [app] in Hr.
  apply (proj2 (Forall_concat _ _)) in Hreq.
  destruct (series_loadable _ _ _ _ _ _ Hr Hreq Hlog) as (L1 & L2 & L3). pose proof (samples_loadable _ _ _ _ _ _ Hr Hreq) as L4. cbn [fst snd] in *.
  destruct (flushed_dir (LS := series_item_spec) HEAD_INDEX_LOG_NAME junk h0 series ts Ht Hbt L2) as (tw & tb & F1 & _ & F2 & F3).
  specialize (F2 I). change (reloaded <$> series) with (tree_loaded <$> series) in F2. rewrite L1 in F2.
  destruct (flushed_dirs n junk h0 samples _ ss L4 Hss) as (ws & all & G1 & G2 & G3).
  exists (mkPWal tw ws). split; [by apply FlushAll_spec|]. intros [N1 N2]. simpl in N1, N2.
  pose proof (ra_hold _ _ _ _ _ _ _ Hr) as Hh. pose proof (ra_series _ _ _ _ _ _ _ Hr) as [_ S2 _].
  cbn [fst snd app_series new_appender] in Hh, S2. rewrite app_nil_r in S2.
  assert (Hlen : length all = n) by (rewrite <- (Forall2_length _ _ _ G2); apply length_seq).
  destruct (read_wals _ _ _ _ G2) as [R1 R2]. set (read := concat (map _ all)) in *. set (logged := concat (map _ (seq 0 n))) in *.
  destruct (recover_serial_holds ns nm junk' (path_of (mkPWal tw ws)) tb all inverted' st2 p0) as (h1 & h2 & st3 & puts2 & p2 & E2 & Hv & Hsame & Hh2).
  - by apply F3.
  - by apply G3.
  - congruence.
  - done.
  - by rewrite F2.
  - rewrite F2. apply Forall_forall. intros x Hx. apply list_elem_of_lookup in Hx as (k & Hx).
    destruct (Forall2_lookup_l _ _ _ _ _ R1 Hx) as (y & Hy & (-> & -> & E3 & _ & Hv)).
    assert (Hin : y ∈ samples).
    { apply list_elem_of_lookup_2, list_elem_of_In, in_concat in Hy as (l & Hl & Hy). apply in_map_iff in Hl as (i & <- & _).
      apply list_elem_of_In in Hy. by apply list_elem_of_filter in Hy as [_ ?]. }
    pose proof (hd_samples _ _ _ Hh) as Hk. rewrite Forall_forall in Hk. rewrite Forall_forall in L4. split; [by apply S2, Hk|].
    destruct (L4 y Hin) as (_ & _ & Ht' & _). unfold tv. rewrite E3. by split.
  - rewrite F2 in Hv. fold read in Hh2. exists h2, st3, puts2, p2. split; [exact E2|].
    assert (Hk : forall s m, known h2 s m <-> known h s m).
    { intros s m. rewrite S2, <- (rv_known _ _ _ _ Hv). by destruct Hsame as (l & -> & _). }
    assert (Hst3 : forall s m, known h s m -> stored_samples h2 puts2 s m = samples_of s m read).
    { intros s m Hs. rewrite (holding_stored _ _ _ _ _ Hh2 (proj2 (Hk s m) Hs)). apply samples_of_zero. }
    assert (Hsw : forall s m, samples_of s m logged = samples_of s m samples) by (intros s m; by apply samples_of_wals).
    split; [done|]. split; intros s m Hs; rewrite (Hst3 s m Hs), (holding_stored _ _ _ _ _ Hh Hs), <- Hsw.
    + by apply samples_of_same.
    + apply R2.
Qed.

Lemma forgotten ns nm h1 h rs puts L junk (a : Labels) :
  recovered ns nm h1 rs -> same_but_objects h1 h -> holding h puts L -> a <> [] ->
  0 <= last_source_group_id_ h1 -> last_source_group_id_ h1 + 1 < ns <= MAX_SOURCE_NUM ->
  0 <= last_metric_id_ h1 -> last_metric_id_ h1 + 1 < nm <= 2 ^ 16 ->
  exists q h', get_or_create_by_thmap h junk a = Some (q, true, h') /\
    ids_of h' a = Some (last_source_group_id_ h1 + 1, last_metric_id_ h1 + 1).
Proof.
  intros [V1 V2 V3 V4 V5 V6 [V7 V8]] (l & -> & Hl) Hh Hne Hs0 Hs Hm0 Hm. unfold MAX_SOURCE_NUM in Hs.
  set (s := last_source_group_id_ h1 + 1) in *. set (m := last_metric_id_ h1 + 1) in *.
  assert (Hno : ~ known h1 s m).
  { intros [_ Hin]%V3. apply list_elem_of_fmap in Hin as (r & [= E1 E2] & Hr). rewrite Forall_forall in V5. apply V5 in Hr. lia. }
  destruct a as [|x rest]; [done|]. unfold get_or_create_by_thmap, get_or_create_source_id. cbn [source_thmap_ set_objects].
  rewrite (proj1 (V4 (label_source_group (x :: rest)))).
  replace (u64 (last_source_group_id_ (set_objects h1 (source_array_ h1) l) + 1)) with s by (symmetry; apply wrap_id; unfold is_u; simpl; lia).
  cbv zeta. unfold pool_set at 1. cbn [source_labels_ptr_ set_ids_of set_objects]. rewrite V7, (proj2 (Z.ltb_lt _ _)) by lia.
  cbn [mbind option_bind]. unfold get_or_create_metric_id. cbn [metric_thmap_ set_pools set_ids_of set_objects].
  rewrite (proj2 (V4 (label_metric (x :: rest)))). cbn [last_metric_id_ set_pools set_ids_of set_objects].
  replace (u16 (last_metric_id_ h1 + 1)) with m by (symmetry; apply wrap_id; unfold is_u; lia).
  cbv zeta. unfold pool_set at 1. cbn [metric_labels_ptr_ set_pools set_ids_of set_objects]. rewrite V8, (proj2 (Z.ltb_lt _ _)) by lia.
  cbn [mbind option_bind]. rewrite read_outside by (left; exact (hd_flat _ _ _ Hh)). cbn [mbind option_bind].
  assert (E0 : get_from_forward_index h1 s m = 0).
  { destruct (decide (get_from_forward_index h1 s m = 0)) as [|Hz]; [done|]. destruct Hno. split; [lia|done]. }
  match goal with |- context [get_from_forward_index ?x s m] => change (get_from_forward_index x s m) with (get_from_forward_index h1 s m) end.
  rewrite E0. cbn [Z.eqb negb]. unfold get_mem_source. rewrite (proj2 (Z.ltb_lt _ _)) by (unfold MAX_SOURCE_NUM; lia).
  cbn [mbind option_bind]. unfold new_series. eexists _, _. split; [reflexivity|]. apply ids_of_some.
  cbn [source_thmap_ metric_thmap_ set_to_forward_index set_forward set_objects set_inverted set_pools set_ids_of].
  rewrite !get_put, !decide_True by done. rewrite (proj1 (V4 _)), (proj2 (V4 _)). done.
Qed.

(** C28.  A restart forgets the names of the series.  The logs are read back
    into the index but not into the tables from label sets to ids, so the next
    sample for any label set, also for one that was recovered, starts a new
    series under ids that no recovered series has: its old samples stay under
    the old ids. *)
Theorem restart_forgets_names (ns nm : nat) junk path tbatches (all : list (list (list (list TreeRefSample)))) (inverted : IV) st p :
  dir_holds (A := TreeRefSeries) HEAD_INDEX_LOG_NAME (metric_dir path) tbatches ->
  Forall2 (dir_holds HEAD_SAMPLES_LOG_NAME) (sample_dirs path) all -> length (sample_wal_ p) = length all -> store_ok st ->
  Forall (fun r => ids_fit (tr_sgid r) (tr_mid r) /\ tr_lset r <> [] /\ tr_sgid r + 1 < Z.of_nat ns /\ tr_mid r + 1 < Z.of_nat nm)
    (concat (concat tbatches)) ->
  Forall (fun x => (sgid x, mid x) ∈ series_ids <$> (concat (concat tbatches)) /\ sample_ok (tv x))
    (concat (map (fun b => concat (concat b)) all)) ->
  1 < Z.of_nat ns <= MAX_SOURCE_NUM -> 1 < Z.of_nat nm <= 2 ^ 16 ->
  exists h st' puts p', recover_serial (G := G) junk path (mkHeadState (new_head (MI := MI) (MF := MF) ns nm inverted) (st, []) p)
      = Some (mkHeadState h (st', puts) p') /\
    forall a, a <> [] -> exists q h' s m, get_or_create_by_thmap h junk a = Some (q, true, h') /\ ids_of h' a = Some (s, m) /\
      Forall (fun r => tr_sgid r < s /\ tr_mid r < m) (concat (concat tbatches)).
Proof.
  intros Ht Hs Hp Hst Hr Hx Hns Hnm.
  destruct (recover_serial_holds ns nm junk path tbatches all inverted st p Ht Hs Hp Hst) as (h1 & h & st' & puts & p' & E & Hv & Hsame & Hh); [|done|].
  { eapply List.Forall_impl; [|exact Hr]. by intros r (? & ? & _). }
  exists h, st', puts, p'. split; [done|]. intros a Ha. destruct (rv_least _ _ _ _ Hv) as [Ls Lm].
  assert (Rs : 0 <= last_source_group_id_ h1 < Z.of_nat ns - 1).
  { apply elem_of_cons in Ls as [->|Hin]; [lia|]. apply list_elem_of_fmap in Hin as (r & -> & Hin). rewrite Forall_forall in Hr.
    destruct (Hr r Hin) as ((_ & F2 & _) & _ & ? & _). unfold is_u64, is_u in F2. lia. }
  assert (Rm : 0 <= last_metric_id_ h1 < Z.of_nat nm - 1).
  { apply elem_of_cons in Lm as [->|Hin]; [lia|]. apply list_elem_of_fmap in Hin as (r & -> & Hin). rewrite Forall_forall in Hr.
    destruct (Hr r Hin) as ((F1 & _) & _ & _ & ?). unfold is_u in F1. lia. }
  destruct (forgotten _ _ h1 h _ puts _ junk a Hv Hsame Hh Ha) as (q & h' & E1 & E2); [lia..|].
  eexists q, h', _, _. split; [exact E1|]. split; [exact E2|]. eapply List.Forall_impl; [|exact (rv_last _ _ _ _ Hv)]. intros r. simpl. lia.
Qed.

End Restart.

(** ** Witnesses *)

Module RestartDemo.
#[local] Instance demo_past : PastEnd := fun _ => 0.
#[local] Instance demo_inverted : InvertedIndex (list (Z * Labels)) := fun l id a => l ++ [(id, a)].
#[local] Instance demo_store : ChunkStore (list Put) := AppenderDemo.any_store.
#[local] Instance demo_threads : Threads (list Put) := AppenderDemo.any_threads.
#[local] Instance demo_store_spec : StoreSpec (list Put) := AppenderDemo.any_store_spec.
#[local] Instance demo_accelerated : Accelerated := fun _ _ => 0.
#[local] Instance demo_accelerated_spec : AcceleratedSpec.
Proof. by left. Defined.
#[local] Instance demo_placement : Placement := fun _ => 64.
#[local] Instance demo_placement_spec : PlacementSpec.
Proof. intros l Hl. unfold address, demo_placement. lia. Defined.
#[local] Instance demo_fresh : FreshFile (list Z) := [].
#[local] Instance demo_fresh_spec : FreshSpec (list Z).
Proof. reflexivity. Defined.
#[local] Instance demo_open : OpenFile (list Z) (list Z) := fun f => Some f.
#[local] Instance demo_open_spec : OpenSpec (list Z) (list Z).
Proof. intros f. by exists f. Defined.
#[local] Instance demo_logged : LoggedHead unit := fun n _ _ => n.

(** Three transactions over three series; the last value differs from the one
    before it in its log in the lowest bit. *)
Definition demo_txs : list (list Request) :=
  [[mkRequest (HeadDemo.lset 1 1) 1000 (2 ^ 40); mkRequest (HeadDemo.lset 2 1) 1000 (2 ^ 41)];
   [mkRequest (HeadDemo.lset 1 1) 2000 (2 ^ 42); mkRequest (HeadDemo.lset 1 2) 2000 (2 ^ 43)];
   [mkRequest (HeadDemo.lset 2 1) 3000 (2 ^ 41 + 1)]].

Definition Head : Type := TreeHead (gmap str Z) (gmap Z Z) (list (Z * Labels)).
Definition demo_new : Head := new_head 8 8 [].
Definition demo_live : option (Head * (list Put * list Put) * Recorder) := transactions 0 demo_txs demo_new ([], []) ([], []).

Definition demo_series : list TreeRefSeries :=
  [mkTreeRefSeries 1 1 (HeadDemo.lset 1 1) None 0 0; mkTreeRefSeries 1 2 (HeadDemo.lset 2 1) None 0 0;
   mkTreeRefSeries 2 1 (HeadDemo.lset 1 2) None 0 0].
Definition demo_samples : list TreeRefSample :=
  [mkTreeRefSample 1 1 1000 (2 ^ 40) 0; mkTreeRefSample 1 2 1000 (2 ^ 41) 0; mkTreeRefSample 1 1 2000 (2 ^ 42) 0;
   mkTreeRefSample 2 1 2000 (2 ^ 43) 0; mkTreeRefSample 1 2 3000 (2 ^ 41 + 1) 0].

Lemma demo_live_logs : match demo_live with Some (_, _, rec) => rec = (demo_series, demo_samples) | None => False end.
Proof. vm_compute. reflexivity. Qed.

(** A log that was given [l], its thread at work in between and after. *)
Definition moves {A} (l : list A) : list (option A) := (Some <$> take 1 l) ++ [None] ++ (Some <$> drop 1 l) ++ [None].
Definition logged_run {A} `{LogItem A unit} (l : list A) : option (WalState (list Z) A unit) :=
  schedule (mkWalState (new_wal 0) tt false) (moves l).
Definition logged_state {A} `{LogItem A unit} (l : list A) : WalState (list Z) A unit :=
  default (mkWalState (new_wal 0) tt false) (logged_run l).
Definition at_rest {A} `{LogItem A unit} (l : list A) : bool :=
  match logged_run l with Some s => negb (busy s) | None => false end.

Lemma logged_state_run {A} `{LogItem A unit} (l : list A) :
  at_rest l = true -> WalRun (mkWalState (new_wal 0) tt false) l (logged_state l) /\ busy (logged_state l) = false.
Proof.
  unfold at_rest, logged_state, logged_run. destruct (schedule _ _) as [s|] eqn:E; [|done]. intros Hb%negb_true_iff. split; [|done].
  apply (schedule_run _ [] _ _ s (run_refl _)) in E. unfold moves in E. rewrite !bind_app, app_nil_l in E. cbn [default].
  assert (Eo : forall k : list A, (Some <$> k) ≫= option_list = k) by (induction k as [|x k IH]; [done|]; cbn; f_equal; exact IH).
  rewrite !Eo in E. change ([None] ≫= option_list) with (@nil A) in E. rewrite app_nil_l, app_nil_r, take_drop in E. exact E.
Qed.

Definition few_files_b (p : PWalManagement (list Z)) : bool :=
  (Z.of_nat (length (wal_files (tag_wal_ p))) <? 2 ^ 31) && forallb (fun w => Z.of_nat (length (wal_files w)) <? 2 ^ 31) (sample_wal_ p).

Lemma few_files_spec p : few_files_b p = true -> few_files p.
Proof.
  unfold few_files_b. intros [H1%Z.ltb_lt H2]%andb_true_iff. split; [done|]. apply Forall_forall. intros w Hw. rewrite forallb_forall in H2.
  apply Z.ltb_lt, H2. by apply list_elem_of_In.
Qed.

Lemma demo_run : samples_run (of_wal 2 1 demo_samples).
Proof. vm_compute of_wal. repeat split; right; vm_compute; discriminate. Qed.

Lemma demo_loggable metric host t v : is_byte metric -> is_byte host -> loggable (mkRequest (HeadDemo.lset metric host) t v).
Proof.
  intros Hm Hh. split.
  - split; [simpl; lia|]. repeat (apply Forall_cons_2; [split; unfold str_ok; simpl; lia|]). apply Forall_nil_2.
  - repeat (apply Forall_cons_2; [split; repeat (apply Forall_cons_2; [first [done|unfold is_byte; lia]|]); apply Forall_nil_2|]). apply Forall_nil_2.
Qed.

Lemma demo_txs_loggable : Forall loggable (concat demo_txs).
Proof. cbn [demo_txs concat app]. repeat (apply Forall_cons_2; [apply demo_loggable; done|]). apply Forall_nil_2. Qed.

Lemma restart_txs_ok : Forall (Forall request_ok) demo_txs.
Proof. repeat constructor; done. Qed.

(** Two logs of samples; the first ones are written while the others come. *)
Lemma restart_restores_witness :
  match demo_live with
  | Some (h, (_, puts), _) =>
    exists p h2 st3 puts2 p2, FlushAll (Hd := unit) (mkPWal (wal (logged_state demo_series))
        [wal (logged_state (of_wal 2 0 demo_samples)); wal (logged_state (of_wal 2 1 demo_samples))]) = Some p /\
      recover_serial (G := list Z) 0 (path_of p) (mkHeadState demo_new (([] : list Put), []) (pwal 0 2)) = Some (mkHeadState h2 (st3, puts2) p2) /\
      stored_samples h2 puts2 1 1 = [(1000, 2 ^ 40); (2000, 2 ^ 42)] /\ (stored_samples h2 puts2 1 2).*1 = [1000; 3000]
  | None => False
  end.
Proof.
  pose proof demo_live_logs as Hlogs. destruct demo_live as [[[h [st' puts]] rec]|] eqn:E; [|done]. subst rec.
  assert (Hk : bool_decide (get_from_forward_index h 1 1 <> 0 /\ stored_samples h puts 1 1 = [(1000, 2 ^ 40); (2000, 2 ^ 42)] /\
    get_from_forward_index h 1 2 <> 0 /\ (stored_samples h puts 1 2).*1 = [1000; 3000]) = true).
  { assert (H : match demo_live with Some (h, (_, puts), _) =>
      bool_decide (get_from_forward_index h 1 1 <> 0 /\ stored_samples h puts 1 1 = [(1000, 2 ^ 40); (2000, 2 ^ 42)] /\
        get_from_forward_index h 1 2 <> 0 /\ (stored_samples h puts 1 2).*1 = [1000; 3000]) | None => false end = true)
      by (vm_compute; reflexivity). by rewrite E in H. }
  apply bool_decide_eq_true in Hk as (Hk1 & Hk2 & Hk3 & Hk4).
  assert (R1 : at_rest demo_series = true) by (vm_compute; reflexivity).
  assert (R2 : at_rest (of_wal 2 0 demo_samples) = true) by (vm_compute; reflexivity).
  assert (R3 : at_rest (of_wal 2 1 demo_samples) = true) by (vm_compute; reflexivity).
  apply logged_state_run in R1 as [W1 B1]. apply logged_state_run in R2 as [W2 B2], R3 as [W3 B3].
  destruct (restart_restores (F := list Z) (G := list Z) (Hd := unit) 8 8 [] [] 0 0 ([] : list Put) ([] : list Put) demo_txs h st' puts
    demo_series demo_samples 2 tt (logged_state demo_series)
    [logged_state (of_wal 2 0 demo_samples); logged_state (of_wal 2 1 demo_samples)] (pwal 0 2)) as (p & Ef & Hrec).
  - exact I.
  - exact I.
  - exact restart_txs_ok.
  - exact demo_txs_loggable.
  - split; [apply Z.ltb_lt; vm_compute; reflexivity|unfold MAX_SOURCE_NUM; lia].
  - split; [apply Z.ltb_lt; vm_compute; reflexivity|unfold CX_NUM; lia].
  - exact E.
  - lia.
  - reflexivity.
  - exact W1.
  - exact B1.
  - apply Forall2_cons_2; [|apply Forall2_cons_2; [|apply Forall2_nil_2]].
    + split; [exact W2|exact B2].
    + split; [exact W3|exact B3].
  - assert (Hf : few_files p).
    { apply few_files_spec. assert (H : match FlushAll (Hd := unit) (mkPWal (wal (logged_state demo_series))
        [wal (logged_state (of_wal 2 0 demo_samples)); wal (logged_state (of_wal 2 1 demo_samples))]) with Some p => few_files_b p | None => false end = true)
        by (vm_compute; reflexivity). cbn [fmap list_fmap] in Ef. by rewrite Ef in H. }
    destruct (Hrec Hf) as (h2 & st3 & puts2 & p2 & E2 & _ & Ht & Hs). exists p, h2, st3, puts2, p2. split; [exact Ef|]. split; [exact E2|]. split.
    + rewrite (Hs 1 1); [exact Hk2|split; [lia|exact Hk1]|exact demo_run].
    + rewrite (Ht 1 2); [exact Hk4|split; [lia|exact Hk3]].
Defined.

(** A log that was given [l], flushed. *)
Definition flushed_log {A} `{LogItem A unit} (l : list A) : Wal (list Z) A := default (new_wal 0) (Flush (Hd := unit) (wal (logged_state l))).

Lemma flushed_log_dir {A} `{LI : LogItem A unit} `{LS : !LogItemSpec A unit} (name : str) (l : list A) :
  at_rest l = true -> Forall ParallelWal.item_ok l -> ParallelWal.run_ok l -> Z.of_nat (length (wal_files (flushed_log l))) < 2 ^ 31 ->
  exists batches, dir_holds (G := list Z) (Hd := unit) name (Some (listing name (wal_files (flushed_log l)))) batches /\
    concat (concat batches) = reloaded <$> l.
Proof.
  intros [Hw Hb]%logged_state_run Hok Hrun. destruct (flushed_dir name 0 tt l _ Hw Hb Hok) as (w & batches & E & _ & Hc & Hd).
  unfold flushed_log. rewrite E. intros Hn. exists batches. split; [by apply Hd|by apply Hc].
Qed.

Lemma demo_series_bytes : Forall tree_series_bytes demo_series.
Proof.
  assert (Hl : forall s m metric host, is_u64 s -> is_u 16 m -> is_byte metric -> is_byte host ->
    tree_series_bytes (mkTreeRefSeries s m (HeadDemo.lset metric host) None 0 0)).
  { intros s m metric host H1 H2 H3 H4. destruct (demo_loggable metric host 0 0 H3 H4) as [L1 L2].
    split; [|exact L2]. split_and!; try done; unfold is_s64, is_s; simpl; lia. }
  repeat (apply Forall_cons_2; [apply Hl; unfold is_u64, is_u, is_byte; lia|]). apply Forall_nil_2.
Qed.

Lemma demo_all_ok : Forall tree_sample_ok demo_samples.
Proof. repeat (apply Forall_cons_2; [split_and!; simpl; unfold is_u, is_s; lia|]). apply Forall_nil_2. Qed.

Lemma demo_all_run : samples_run demo_samples.
Proof. repeat split; right; vm_compute; discriminate. Qed.

Lemma demo_series_fit : Forall (fun r => ids_fit (tr_sgid r) (tr_mid r) /\ tr_lset r <> [] /\ tr_sgid r + 1 < Z.of_nat 8 /\ tr_mid r + 1 < Z.of_nat 8)
  (tree_loaded <$> demo_series).
Proof.
  repeat (apply Forall_cons_2; [split; [unfold ids_fit, id_ok, is_u64, is_u, CX_NUM, CY_NUM; simpl; lia|split; [discriminate|simpl; lia]]|]).
  apply Forall_nil_2.
Qed.

Lemma demo_samples_series :
  Forall (fun x => (sgid x, mid x) ∈ series_ids <$> (tree_loaded <$> demo_series) /\ sample_ok (tv x)) demo_samples.
Proof. repeat (apply Forall_cons_2; [split; [by apply (bool_decide_unpack _)|done]|]). apply Forall_nil_2. Qed.

(** One log of samples; the first series again. *)
Definition demo_path : LogPath (list Z) :=
  mkLogPath (Some (listing HEAD_INDEX_LOG_NAME (wal_files (flushed_log demo_series))))
    [Some (listing HEAD_SAMPLES_LOG_NAME (wal_files (flushed_log demo_samples)))].

Lemma restart_forgets_names_witness :
  exists h st' puts p', recover_serial (G := list Z) 0 demo_path (mkHeadState demo_new (([] : list Put), []) (pwal 0 1))
      = Some (mkHeadState h (st', puts) p') /\
    exists q h' s m, get_or_create_by_thmap h 0 (HeadDemo.lset 1 1) = Some (q, true, h') /\ ids_of h' (HeadDemo.lset 1 1) = Some (s, m) /\ 1 < s /\ 1 < m.
Proof.
  destruct (flushed_log_dir HEAD_INDEX_LOG_NAME demo_series) as (tb & H1 & E1);
    [vm_compute; reflexivity|exact demo_series_bytes|exact I|apply Z.ltb_lt; vm_compute; reflexivity|].
  destruct (flushed_log_dir HEAD_SAMPLES_LOG_NAME demo_samples) as (sb & H2 & E2);
    [vm_compute; reflexivity|exact demo_all_ok|exact demo_all_run|apply Z.ltb_lt; vm_compute; reflexivity|].
  change (reloaded <$> demo_series) with (tree_loaded <$> demo_series) in E1. change (reloaded <$> demo_samples) with demo_samples in E2.
  destruct (restart_forgets_names (MI := gmap str Z) (MF := gmap Z Z) (F := list Z) (G := list Z) (Hd := unit) 8 8 0 demo_path tb [sb]
    ([] : list (Z * Labels)) ([] : list Put) (pwal 0 1)) as (h & st' & puts & p' & E & Ha).
  - exact H1.
  - apply Forall2_cons_2; [exact H2|apply Forall2_nil_2].
  - reflexivity.
  - exact I.
  - rewrite E1. exact demo_series_fit.
  - rewrite E1. cbn [map concat]. rewrite app_nil_r, E2. exact demo_samples_series.
  - unfold MAX_SOURCE_NUM. lia.
  - lia.
  - exists h, st', puts, p'. split; [exact E|]. destruct (Ha (HeadDemo.lset 1 1) ltac:(discriminate)) as (q & h' & s & m & E3 & E4 & Hall).
    exists q, h', s, m. split; [exact E3|]. split; [exact E4|]. rewrite E1 in Hall. apply Forall_cons_1 in Hall as [Hall _]. exact Hall.
Defined.

End RestartDemo.
