(* ===== verification/HeadFlush.v ===== *)
(** head/TreeHead.cpp: what the tree head does in the background: cleaning the
    logs of samples that are in the store ([clean_sample_log],
    [clean_samples_logs]) and moving slabs to the key-value store
    ([flush_db]).  [None] is a crash or a wait that does not end. *)
From Stdlib Require Import ZArith Lia Bool.
From stdpp Require Import base list numbers option gmap sorting.
From S2P Require Import Prelude Endian Coding Label Crc32c WalLog WalRecords Gorilla ParallelWal.
From S2P Require Import BitStream XORChunk MassTree SlabStore SlabFlush TreeMemSeries HeadIndex HeadAppender HeadRecovery.

Section Background.
Context `{PE : PastEnd} `{TI : Thmap str Z MI} `{TF : Thmap Z Z MF} `{IX : InvertedIndex IV} `{TO : TreeOps T SlabRef}.
Context `{AC : Accelerated} `{PL : Placement} `{WF : WritableFile F} `{FF : !FreshFile F} `{SF : SequentialFile G} `{OF : !OpenFile F G}.
Implicit Types (h : TreeHead MI MF IV) (ts : TreeSeries T).

(** ** Cleaning a log *)

(** [GetMemSlabInfo(source_id, metric_id, sid, idx)]: the last position in the
    slab that holds the two ids; [idx] stays what it was when none does. *)
Definition GetMemSlabInfo ts (source_id metric_id sid idx : Z) : Z :=
  let s := minfo ts sid in
  foldl (fun idx i => if (arr (source_id_ s) i =? source_id) && (arr (metric_id_ s) i =? metric_id) then i else idx)
    idx (seqZ 0 (idx_ s)).

Definition GetSlabClassInfo ts (source_id metric_id : Z) : SlabClass :=
  class_of ts (metric_id mod CX_NUM) (source_id mod CY_NUM).

(** [r.txn > cinfo->txn_[idx]]: whether the sample is kept; [idx] starts as
    [junk].  The comparison is between unsigned numbers. *)
Definition still_needed h ts (junk : Z) (r : TreeRefSample) : option bool :=
  p ← read_flat_forward_index h (sgid r) (mid r);
  ms ← deref h p;
  if sid_ ms =? UINT32_MAX then None
  else
    let idx := GetMemSlabInfo ts (ms_source_id_ ms) (ms_metric_id_ ms) (sid_ ms) junk in
    let cinfo := GetSlabClassInfo ts (ms_source_id_ ms) (ms_metric_id_ ms) in
    Some (arr (txn_ cinfo) idx <? u64 (t_txn r)).

(** [reserve] of a record. *)
Fixpoint reserve_of h ts (junk : Z) (rs : list TreeRefSample) : option (list TreeRefSample) :=
  match rs with
  | [] => Some []
  | r :: rs => b ← still_needed h ts junk r; l ← reserve_of h ts junk rs; Some (if b : bool then r :: l else l)
  end.

(** [refSamples] of a file. *)
Fixpoint ref_samples h ts (junk : Z) (ds : list (list Z)) : option (list (list TreeRefSample)) :=
  match ds with
  | [] => Some []
  | d :: ds =>
    rs ← record_samples d;
    reserve ← reserve_of h ts junk rs;
    l ← ref_samples h ts junk ds;
    Some (match reserve with [] => l | _ => reserve :: l end)
  end.

(** The records of a new file; whether every write succeeded. *)
Fixpoint add_records (l : list (list TreeRefSample)) (w : Writer F) : option (bool * Writer F) :=
  match l with
  | [] => Some (true, w)
  | x :: l =>
    record ← treeSamples x [];
    '(ok, w) ← AddRecord record w;
    if ok : bool then add_records l w else Some (false, w)
  end.

Definition decr_active (w : Wal F TreeRefSample) : Wal F TreeRefSample :=
  mkWal (wal_logs w) (cur_log_seq_ w) (log_writer_ w) (active_samples_logs_ w - 1) (wal_items w) (wal_queue w).

(** The loop over the files [0 .. end]: the status, the directory, the log. *)
Fixpoint clean_files h ts (junk : Z) (l : list Z) (dir : gmap str F) (w : Wal F TreeRefSample)
    : option (bool * gmap str F * Wal F TreeRefSample) :=
  match l with
  | [] => Some (true, dir, w)
  | i :: l =>
    let fname := HEAD_SAMPLES_LOG_NAME ++ to_string i in
    match dir !! fname with
    | None => clean_files h ts junk l dir w
    | Some f =>
      match open_file f with
      | None => Some (false, dir, w)
      | Some g =>
        ds ← records_of g;
        refSamples ← ref_samples h ts junk ds;
        let dir := delete fname dir in
        match refSamples with
        | [] => clean_files h ts junk l dir (decr_active w)
        | _ =>
          '(ok, lw) ← add_records refSamples (writer fresh_file);
          let dir := <[fname := dest_ lw]> dir in
          if ok : bool then clean_files h ts junk l dir w else Some (false, dir, w)
        end
      end
    end
  end.

Definition clean_sample_log h ts (junk : Z) (dir : gmap str F) (w : Wal F TreeRefSample)
    : option (bool * gmap str F * Wal F TreeRefSample) :=
  let end_ := if cur_log_seq_ w - 1 =? -1 then 0 else cur_log_seq_ w - 1 in
  clean_files h ts junk (seqZ 0 (end_ + 1)) dir w.

(** [clean_samples_logs], the logs one after the other. *)
Fixpoint clean_samples_logs h ts (junk : Z) (l : list (gmap str F * Wal F TreeRefSample))
    : option (list (gmap str F * Wal F TreeRefSample)) :=
  match l with
  | [] => Some []
  | (dir, w) :: l =>
    x ← (if HEAD_SAMPLES_LOG_CLEANING_THRES <? active_samples_logs_ w
         then '(_, dir, w) ← clean_sample_log h ts junk dir w; Some (dir, w) else Some (dir, w));
    l ← clean_samples_logs h ts junk l;
    Some (x :: l)
  end.

(** ** Moving slabs to the key-value store *)

(** [DecodeItemChunkHeader]: the metric and the source of an item; the chunk
    follows a time of 8 bytes. *)
Definition DecodeItemChunkHeader (item : list Z) : Z * Z :=
  let s := take (Z.to_nat CHUNK_SIZE) (drop 8 item) in
  (DecodeFixed16 (drop 1 s), DecodeFixed64BE (drop 3 s)).

(** Item [j] of a slab. *)
Definition slab_item (slab : list Z) (j : Z) : list Z := load slab (j * SLAB_ITEM_SIZE) SLAB_ITEM_SIZE.

(** The inner loop: the items of a series, copied to [slab_buffer_]. *)
Definition items_of (slab : list Z) (nalloc sgid mid : Z) : list (list Z) :=
  filter (fun item => DecodeItemChunkHeader item = (mid, sgid)) (map (slab_item slab) (seqZ 0 nalloc)).

(** [db_->Put(key, value)], whether its status is ok. *)
Class KeyValueStore (D : Type) := kv_put : D -> list Z -> list Z -> bool * D.

Context `{KV : KeyValueStore D}.

(** Setting [level_flush_time_] of a series. *)
Definition set_level_time h (sgid mid t : Z) : option (TreeHead MI MF IV) :=
  p ← read_flat_forward_index h sgid mid;
  tms ← deref h p;
  Some (set_series h p (set_flush_times tms (head_flush_time_ tms) t (time_boundary_ tms))).

(** The loop over the series of a slab: the head, the store and the last
    status. *)
Fixpoint flush_series ts (s : SlabInfo) (slab : list Z) (l : list Z) h (db : D) (status : bool) : option (TreeHead MI MF IV * D * bool) :=
  match l with
  | [] => Some (h, db, status)
  | i :: l =>
    let sgid := GetSinfoSourceID ts s i in
    let mid := GetSinfoMetricID ts s i in
    let key_ := EnCodeKey [] sgid mid (arr (start_time_ s) i) in
    match items_of slab (nalloc_ s) sgid mid with
    | [] => flush_series ts s slab l h db status
    | items =>
      let '(status, db) := kv_put db key_ (concat items) in
      h ← set_level_time h sgid mid (arr (end_time_ s) i);
      flush_series ts s slab l h db status
    end
  end.

(** The loop over the slabs; [bufs] are the buffers they were read into. *)
Fixpoint flush_slabs (l : list (Z * list Z)) (bufs : list Z) ts h (db : D) (status : bool) : option (TreeSeries T * TreeHead MI MF IV * D * bool) :=
  match l with
  | [] => Some (ts, h, db, status)
  | (d, slab) :: l =>
    let s := dinfo ts d in
    match flush_series ts s slab (seqZ 0 (idx_ s)) h db status with
    | None => None
    | Some (h, db, status) =>
      match bufs with
      | [] => flush_slabs l [] ts h db status
      | b :: bufs => flush_slabs l bufs (FreeBufSlab ts b) h db status
      end
    end
  end.

Definition flush_db h ts (db : D) : option (TreeSeries T * TreeHead MI MF IV * D * bool) :=
  match MigrateReadLazyFlush ts with
  | None => None
  | Some (None, ts) => Some (ts, h, db, true)
  | Some (Some (migrate_array, is_seq), ts') =>
    let bufs := if is_seq : bool then [] else take (length migrate_array) (free_bsinfoq_ (queues ts)) in
    flush_slabs migrate_array bufs ts' h db true
  end.

End Background.

(** ** What cleaning removes *)

Section Cleaning.
Context `{PE : PastEnd} `{TI : Thmap str Z MI} `{TF : Thmap Z Z MF} `{IX : InvertedIndex IV} `{TO : TreeOps T SlabRef}.
Context `{AC : Accelerated} `{AS : !AcceleratedSpec} `{PL : Placement} `{PS : !PlacementSpec}.
Context `{WF : WritableFile F} `{RF : !ReliableFile F} `{FF : !FreshFile F}.
Context `{SF : SequentialFile G} `{WR : !WholeReads G} `{BR : !BoundedReads G} `{OF : !OpenFile F G} `{OS : !OpenSpec F G}.
Context `{LH : LoggedHead Hd}.
Implicit Types (h : TreeHead MI MF IV) (ts : TreeSeries T).










End Cleaning.

(** ** What is moved *)

(** A store that lists what it was given. *)
#[export] Instance recorded_puts : KeyValueStore (list (list Z * list Z)) := fun db k v => (true, db ++ [(k, v)]).

(** The items of a value. *)
Fixpoint chop (n : nat) (v : list Z) : list (list Z) :=
  match n with
  | O => []
  | S n => take (Z.to_nat SLAB_ITEM_SIZE) v :: chop n (drop (Z.to_nat SLAB_ITEM_SIZE) v)
  end.
Definition value_items (v : list Z) : list (list Z) := chop (length v / Z.to_nat SLAB_ITEM_SIZE) v.

Lemma value_items_concat items :
  Forall (fun it => length it = Z.to_nat SLAB_ITEM_SIZE) items -> value_items (concat items) = items.
Proof.
  unfold value_items. intros Hi. assert (Hl : (length (concat items) = length items * Z.to_nat SLAB_ITEM_SIZE)%nat).
  { clear -Hi. induction Hi as [|x l Hx _ IH]; [done|]. cbn [concat length]. rewrite length_app, IH, Hx, Nat.mul_succ_l. lia. }
  rewrite Hl, Nat.div_mul by done. clear Hl. induction Hi as [|x l Hx _ IH]; [done|]. cbn [length chop concat].
  rewrite take_app_length', drop_app_length' by done. by rewrite IH.
Qed.

Section Moving.
Context `{PE : PastEnd} `{TI : Thmap str Z MI} `{TF : Thmap Z Z MF} `{IX : InvertedIndex IV} `{TO : TreeOps T SlabRef}.
Implicit Types (h : TreeHead MI MF IV) (ts : TreeSeries T) (db : list (list Z * list Z)).

(** The ids of the series of a slab, in the order of [DecodeItemChunkHeader]. *)
Definition slab_ids ts (s : SlabInfo) : list (Z * Z) :=
  map (fun i => (GetSinfoMetricID ts s i, GetSinfoSourceID ts s i)) (seqZ 0 (idx_ s)).
Definition slab_items (s : SlabInfo) (slab : list Z) : list (list Z) := map (slab_item slab) (seqZ 0 (nalloc_ s)).

(** The head has the series of the ids. *)
Definition has_series h (id : Z * Z) : Prop :=
  exists p ms, read_flat_forward_index h id.2 id.1 = Some p /\ deref h p = Some ms.

(** A slab as the store keeps them: its series are known, each once, and its
    items are theirs. *)
Record slab_sound h ts (s : SlabInfo) (slab : list Z) : Prop := {
  ss_length : length slab = Z.to_nat SLAB_SIZE;
  ss_nalloc : 0 <= nalloc_ s <= 16;
  ss_ids : NoDup (slab_ids ts s);
  ss_known : Forall (has_series h) (slab_ids ts s);
  ss_items : Forall (fun it => DecodeItemChunkHeader it ∈ slab_ids ts s) (slab_items s slab) }.

Lemma set_level_known h sgid mid t : has_series h (mid, sgid) ->
  exists h', set_level_time h sgid mid t = Some h' /\ forall id, has_series h id -> has_series h' id.
Proof.
  intros (p & ms & E1 & E2). simpl in E1. unfold set_level_time. rewrite E1. cbn [mbind option_bind]. rewrite E2. cbn [mbind option_bind].
  eexists. split; [reflexivity|]. intros [m s] (q & x & F1 & F2). simpl in F1. exists q. rewrite (deref_set _ _ _ _ _ E2). simpl.
  change (read_flat_forward_index (set_series h p _) s m) with (read_flat_forward_index h s m). case_decide; by eexists.
Qed.

(** A put of a series: its key, and items of it. *)
Definition series_put (kv : list Z * list Z) : Prop :=
  exists sgid mid t, kv.1 = EnCodeKey [] sgid mid t /\ value_items kv.2 <> [] /\
    Forall (fun it => DecodeItemChunkHeader it = (mid, sgid)) (value_items kv.2).

Lemma items_length s slab : length slab = Z.to_nat SLAB_SIZE -> 0 <= nalloc_ s <= 16 ->
  Forall (fun it => length it = Z.to_nat SLAB_ITEM_SIZE) (slab_items s slab).
Proof.
  intros Hl Hn. unfold slab_items. apply Forall_map, Forall_forall. intros j Hj%elem_of_seqZ. unfold slab_item, load, SLAB_ITEM_SIZE, SLAB_SIZE in *.
  rewrite length_take, length_drop. lia.
Qed.

Lemma flush_series_puts ts s slab l : forall h db status,
  length slab = Z.to_nat SLAB_SIZE -> 0 <= nalloc_ s <= 16 ->
  Forall (has_series h) (map (fun i => (GetSinfoMetricID ts s i, GetSinfoSourceID ts s i)) l) ->
  exists h' new status', flush_series ts s slab l h db status = Some (h', db ++ new, status') /\ (status = true -> status' = true) /\
    Forall series_put new /\ (forall id, has_series h id -> has_series h' id) /\
    concat (map (fun kv => value_items kv.2) new) =
    concat (map (fun i => items_of slab (nalloc_ s) (GetSinfoSourceID ts s i) (GetSinfoMetricID ts s i)) l).
Proof.
  induction l as [|i l IH]; intros h db status Hl Hn Hk.
  - exists h, [], status. rewrite app_nil_r. split_and!; try done.
  - cbn [map] in Hk. apply Forall_cons_1 in Hk as [Hi Hk]. cbn [flush_series].
    assert (Hlen : Forall (fun it => length it = Z.to_nat SLAB_ITEM_SIZE)
      (items_of slab (nalloc_ s) (GetSinfoSourceID ts s i) (GetSinfoMetricID ts s i))).
    { apply Forall_forall. intros it [_ Hin]%list_elem_of_filter. pose proof (items_length s slab Hl Hn) as Ha. rewrite Forall_forall in Ha. by apply Ha. }
    assert (Hid : Forall (fun it => DecodeItemChunkHeader it = (GetSinfoMetricID ts s i, GetSinfoSourceID ts s i))
      (items_of slab (nalloc_ s) (GetSinfoSourceID ts s i) (GetSinfoMetricID ts s i))).
    { apply Forall_forall. intros it [? _]%list_elem_of_filter. done. }
    cbn [map concat]. set (items := items_of _ _ _ _) in *. clearbody items. destruct items as [|it items].
    { cbn [app]. by apply IH. }
    remember (it :: items) as all eqn:Eall. assert (Hne : all <> []) by (by rewrite Eall).
    destruct (set_level_known h _ _ (arr (end_time_ s) i) Hi) as (h1 & E1 & Hk1). subst all.
    change (kv_put db (EnCodeKey [] ?a ?b ?c) ?v) with (true, db ++ [(EnCodeKey [] a b c, v)]). rewrite E1. cbn [mbind option_bind].
    destruct (IH h1 (db ++ [(EnCodeKey [] (GetSinfoSourceID ts s i) (GetSinfoMetricID ts s i) (arr (start_time_ s) i), concat (it :: items))]) true Hl Hn)
      as (h' & new & status' & E & Hst & Hp & Hk' & Hc).
    { eapply List.Forall_impl; [|exact Hk]. apply Hk1. }
    eexists h', (_ :: new), status'. rewrite <- app_assoc in E. split; [exact E|]. split; [by auto|]. split; [|split; [by auto|]].
    + constructor; [|done]. eexists _, _, _. split; [reflexivity|]. cbn [snd]. rewrite value_items_concat by done. by split.
    + cbn [map concat snd]. change (it ++ concat items) with (concat (it :: items)). rewrite value_items_concat by done. by rewrite Hc.
Qed.

(** Sorting items by series neither loses nor doubles one. *)
Lemma items_partition (ids : list (Z * Z)) (items : list (list Z)) :
  NoDup ids -> Forall (fun it => DecodeItemChunkHeader it ∈ ids) items ->
  concat (map (fun id => filter (fun it => DecodeItemChunkHeader it = id) items) ids) ≡ₚ items.
Proof.
  intros Hnd Hi. induction Hi as [|it items Hit _ IH]; [clear Hnd; by induction ids|].
  etransitivity; [|apply perm_skip, IH]. clear IH.
  revert Hit. induction Hnd as [|id ids Hni Hnd IH]; intros Hit; [set_solver|]. cbn [map concat]. rewrite filter_cons.
  destruct (decide (DecodeItemChunkHeader it = id)) as [E|E].
  - rewrite <- app_comm_cons. constructor. apply Permutation_app_head.
    erewrite map_ext_in; [reflexivity|]. intros id' Hin%list_elem_of_In. rewrite filter_cons, decide_False; [done|]. congruence.
  - rewrite IH by (apply elem_of_cons in Hit as [?|?]; [congruence|done]). by rewrite Permutation_middle.
Qed.

Lemma flush_slab_moves ts s slab h db status :
  slab_sound h ts s slab ->
  exists h' new status', flush_series ts s slab (seqZ 0 (idx_ s)) h db status = Some (h', db ++ new, status') /\ (status = true -> status' = true) /\
    Forall series_put new /\ (forall id, has_series h id -> has_series h' id) /\
    concat (map (fun kv => value_items kv.2) new) ≡ₚ slab_items s slab.
Proof.
  intros [H1 H2 H3 H4 H5]. destruct (flush_series_puts ts s slab (seqZ 0 (idx_ s)) h db status H1 H2 H4) as (h' & new & st' & E & Hs & Hp & Hk & Hc).
  exists h', new, st'. split_and!; try done. rewrite Hc. rewrite <- (items_partition (slab_ids ts s) (slab_items s slab)) by done.
  unfold slab_ids. rewrite map_map. done.
Qed.

Lemma free_buf_sound h ts b s slab : slab_sound h ts s slab -> slab_sound h (FreeBufSlab ts b) s slab.
Proof. intros [H1 H2 H3 H4 H5]. by split. Qed.

Lemma known_sound h h' ts s slab :
  (forall id, has_series h id -> has_series h' id) -> slab_sound h ts s slab -> slab_sound h' ts s slab.
Proof. intros Hk [H1 H2 H3 H4 H5]. split; try done. eapply List.Forall_impl; [|exact H4]. apply Hk. Qed.

Lemma flush_slabs_moves (l : list (Z * list Z)) : forall bufs ts h db,
  Forall (fun p => slab_sound h ts (dinfo ts p.1) p.2) l ->
  exists ts' h' new, flush_slabs l bufs ts h db true = Some (ts', h', db ++ new, true) /\ Forall series_put new /\
    concat (map (fun kv => value_items kv.2) new) ≡ₚ concat (map (fun p => slab_items (dinfo ts p.1) p.2) l).
Proof.
  induction l as [|[d slab] l IH]; intros bufs ts h db Hl.
  - exists ts, h, []. rewrite app_nil_r. by split_and!.
  - apply Forall_cons_1 in Hl as [Hs Hl]. cbn [flush_slabs fst snd] in *.
    destruct (flush_slab_moves ts (dinfo ts d) slab h db true Hs) as (h1 & new & st1 & -> & Hst & Hp & Hk & Hc). rewrite (Hst eq_refl).
    assert (Hgo : forall ts1, (forall d, dinfo ts1 d = dinfo ts d) -> (forall s slab, slab_sound h ts s slab -> slab_sound h ts1 s slab) ->
      Forall (fun p => slab_sound h1 ts1 (dinfo ts1 p.1) p.2) l).
    { intros ts1 H1 H2. eapply List.Forall_impl; [|exact Hl]. intros p Hp'. rewrite H1. apply (known_sound h); [done|by apply H2]. }
    destruct bufs as [|b bufs].
    + destruct (IH [] ts h1 (db ++ new)) as (ts' & h' & new' & E & Hp' & Hc'); [by apply Hgo|].
      exists ts', h', (new ++ new'). rewrite app_assoc. split; [done|]. split; [by apply Forall_app|]. rewrite map_app, concat_app. cbn [map concat].
      by rewrite Hc, Hc'.
    + destruct (IH bufs (FreeBufSlab ts b) h1 (db ++ new)) as (ts' & h' & new' & E & Hp' & Hc'); [apply Hgo; [done|intros; by apply free_buf_sound]|].
      exists ts', h', (new ++ new'). rewrite app_assoc. split; [done|]. split; [by apply Forall_app|]. rewrite map_app, concat_app. cbn [map concat].
      by rewrite Hc, Hc'.
Qed.

(** C24.  Moving slabs to the key-value store moves every item.  For slabs whose
    series the head knows, each once, and whose items belong to these series,
    [flush_db] puts, for each series that has items in a slab, the items of
    that series under its key; the items in all values are the items of the
    slabs, none lost and none twice. *)
Theorem flush_db_moves_items h ts pairs is_seq ts' :
  MigrateReadLazyFlush ts = Some (Some (pairs, is_seq), ts') ->
  Forall (fun p => slab_sound h ts' (dinfo ts' p.1) p.2) pairs ->
  exists ts2 h2 db, flush_db h ts [] = Some (ts2, h2, db, true) /\ Forall series_put db /\
    concat (map (fun kv => value_items kv.2) db) ≡ₚ concat (map (fun p => slab_items (dinfo ts' p.1) p.2) pairs).
Proof.
  intros E Hs. unfold flush_db. rewrite E. destruct (flush_slabs_moves pairs (if is_seq then [] else take (length pairs) (free_bsinfoq_ (queues ts))) ts' h [] Hs)
    as (ts2 & h2 & db & E2 & H1 & H2). by exists ts2, h2, db.
Qed.

End Moving.

(** ** Witnesses *)

Module FlushDemo.
#[local] Instance demo_past : PastEnd := fun _ => 0.
#[local] Instance demo_inverted : InvertedIndex (list (Z * Labels)) := fun l id a => l ++ [(id, a)].
#[local] Instance demo_device : Device := fun _ n => n.

Definition tree : Type := gmap (list Z) SlabRef.
Definition Head : Type := TreeHead (gmap str Z) (gmap Z Z) (list (Z * Labels)).

(** Sixteen chunks of two series of one class, in turn. *)
Definition demo_put (st : option (TreeSeries tree)) (t : Z) : option (TreeSeries tree) :=
  st ← st;
  let sgid := if t mod 2 =? 0 then 1 else 10001 in
  '(_, _, st) ← ConPutKV st sgid 1 (10 * t) (10 * t + 5) (item_header 1 sgid (replicate 248 0)) CHUNK_SIZE 0;
  Some st.
Definition demo_slabs : option (TreeSeries tree) :=
  st ← foldl demo_put (Some (init_store ∅ [] 2 10 1)) (seqZ 1 16);
  '(_, st) ← OptBatchWriteLazyFlush st;
  Some st.

(** A head that knows them. *)
Definition demo_head : Head :=
  match get_or_create_with_id (new_head 8 8 []) 0 1 1 (HeadDemo.lset 1 1) with
  | Some (_, _, h) => match get_or_create_with_id h 0 10001 1 (HeadDemo.lset 1 2) with Some (_, _, h) => h | None => h end
  | None => new_head 8 8 []
  end.

Definition has_series_b (h : Head) (id : Z * Z) : bool :=
  match read_flat_forward_index h id.2 id.1 with Some p => match deref h p with Some _ => true | None => false end | None => false end.

Lemma has_series_spec h id : has_series_b h id = true -> has_series h id.
Proof.
  unfold has_series_b, has_series. destruct (read_flat_forward_index h id.2 id.1) as [p|]; [|done].
  destruct (deref h p) as [ms|] eqn:E; [|done]. by exists p, ms.
Qed.

Definition sound_b (h : Head) (ts : TreeSeries tree) (s : SlabInfo) (slab : list Z) : bool :=
  bool_decide (length slab = Z.to_nat SLAB_SIZE /\ 0 <= nalloc_ s <= 16 /\ NoDup (slab_ids ts s) /\
    Forall (fun it => DecodeItemChunkHeader it ∈ slab_ids ts s) (slab_items s slab)) && forallb (has_series_b h) (slab_ids ts s).

Lemma sound_spec h ts s slab : sound_b h ts s slab = true -> slab_sound h ts s slab.
Proof.
  unfold sound_b. intros [(H1 & H2 & H3 & H4)%bool_decide_eq_true H5]%andb_true_iff. split; try done.
  apply Forall_forall. intros id Hid. apply has_series_spec. rewrite forallb_forall in H5. apply H5. by apply list_elem_of_In.
Qed.

Definition demo_migrated : option (TreeSeries tree * list (Z * list Z) * bool * TreeSeries tree) :=
  ts ← demo_slabs;
  match MigrateReadLazyFlush ts with Some (Some (p, q), ts') => Some (ts, p, q, ts') | _ => None end.

Lemma flush_db_moves_items_witness :
  match demo_migrated with
  | Some (ts, pairs, is_seq, ts') => exists ts2 h2 db, flush_db demo_head ts [] = Some (ts2, h2, db, true) /\ Forall series_put db /\
      concat (map (fun kv => value_items kv.2) db) ≡ₚ concat (map (fun p => slab_items (dinfo ts' p.1) p.2) pairs) /\
      length (concat (map (fun p => slab_items (dinfo ts' p.1) p.2) pairs)) = 16%nat
  | None => False
  end.
Proof.
  assert (Hb : match demo_migrated with
    | Some (_, pairs, _, ts') => forallb (fun p => sound_b demo_head ts' (dinfo ts' p.1) p.2) pairs &&
        (length (concat (map (fun p => slab_items (dinfo ts' p.1) p.2) pairs)) =? 16)%nat
    | None => false end = true) by (vm_compute; reflexivity).
  destruct demo_migrated as [[[[ts pairs] is_seq] ts']|] eqn:E; [|discriminate Hb]. apply andb_true_iff in Hb as [Hb Hn].
  unfold demo_migrated in E. destruct demo_slabs as [ts0|]; [|done]. cbn [mbind option_bind] in E.
  destruct (MigrateReadLazyFlush ts0) as [[[[p q]|] ts1]|] eqn:Em; [|done|done]. injection E as -> -> -> ->.
  destruct (flush_db_moves_items demo_head ts pairs is_seq ts' Em) as (ts2 & h2 & db & E1 & E2 & E3).
  { apply Forall_forall. intros p Hp. apply sound_spec. rewrite forallb_forall in Hb. apply Hb. by apply list_elem_of_In. }
  exists ts2, h2, db. split; [exact E1|]. split; [exact E2|]. split; [exact E3|]. by apply Nat.eqb_eq.
Defined.

#[local] Existing Instance RestartDemo.demo_accelerated.
#[local] Existing Instance RestartDemo.demo_accelerated_spec.
#[local] Existing Instance RestartDemo.demo_placement.
#[local] Existing Instance RestartDemo.demo_placement_spec.
#[local] Existing Instance RestartDemo.demo_fresh.
#[local] Existing Instance RestartDemo.demo_fresh_spec.
#[local] Existing Instance RestartDemo.demo_open.
#[local] Existing Instance RestartDemo.demo_open_spec.
#[local] Existing Instance RestartDemo.demo_logged.







End FlushDemo.
