(* ===== verification/PrefixPostings.v ===== *)
(** index/prefix_postings.h: sets of series ids in blocks.

    An id is a prefix, which it shares with the other ids of its block, and an
    offset, of which a block keeps the bytes, two for [PrefixPostings] and
    [PrefixPostingsV2] and one for [PrefixPostingsV3].  The cursor of the three
    classes is the same code, the functions [cursor_...] over how a class reads
    its blocks ([Blocks]); each class has its own [insert] and [remove].

    [PrefixPostingsV2], the one the inverted index of the tree head uses, is
    the iterator of a set of ids ([PrefixPostingsV2_spec]) as long as no block
    is created below another one. *)
From Stdlib Require Import ZArith Lia Bool Sorting.Sorted.
From stdpp Require Import base list numbers option sorting sets gmap.
From S2P Require Import Prelude Endian Coding Postings.

(** [std::lower_bound] and [search_inside_block] are the same loop: the number
    of positions of [first, first + count) that are [less], if these come
    first. *)
Fixpoint bsearch (rounds : nat) (less : nat -> bool) (first count : nat) : nat :=
  match rounds, count with
  | S rounds, S _ =>
    let step := (count / 2)%nat in
    let it := (first + step)%nat in
    if less it then bsearch rounds less (S it) (count - (step + 1))
    else bsearch rounds less first step
  | _, _ => first
  end.

(** [v & 0xffffffffffff0000] and [v & 0xffff] for blocks of [2^16] ids, and
    with one hex digit pair less for blocks of [2^8]: the two masks are the
    complements of each other. *)
Definition high (w v : Z) : Z := Z.ldiff v (2 ^ w - 1).
Definition low (w v : Z) : Z := Z.land v (2 ^ w - 1).

(** How a class reads its blocks, of which the vectors of prefixes and of
    strings have the same number: this number, and the prefix, the
    number of offsets and an offset of one of them. *)
Record Blocks := mkBlocks {
  nblocks : nat;
  bprefix : nat -> Z;
  bsize : nat -> nat;
  offset : nat -> nat -> Z }.

(** ** The cursor *)

Section Cursor.
Variable w : Z.
Variable B : Blocks.
Implicit Types cb ci : Z.

Definition lower_block (v : Z) : nat :=
  bsearch (nblocks B) (fun i => bprefix B i <? high w v) 0 (nblocks B).

Definition search_inside_block (b : nat) (value : Z) : nat :=
  bsearch (bsize B b) (fun i => offset B b i <? value) 0 (bsize B b).

(** [blocks[i]] is in the vector. *)
Definition in_blocks (i : Z) : bool := (0 <=? i) && (i <? Z.of_nat (nblocks B)).

(** [None]: an index outside of the vector of blocks, or past a block. *)
Definition cursor_at cb ci : option Z :=
  if in_blocks cb && (0 <=? ci) && (ci <? Z.of_nat (bsize B (Z.to_nat cb)))
  then Some (Z.lor (bprefix B (Z.to_nat cb)) (offset B (Z.to_nat cb) (Z.to_nat ci)))
  else None.

Definition cursor_next cb ci : option (bool * (Z * Z)) :=
  if cb =? -1 then Some (negb (nblocks B =? 0)%nat, (0, 0))
  else
    let ci := ci + 1 in
    if negb (in_blocks cb) then None
    else if ci =? Z.of_nat (bsize B (Z.to_nat cb)) then
      if cb =? Z.of_nat (nblocks B) - 1 then Some (false, (cb, ci)) else Some (true, (cb + 1, 0))
    else Some (true, (cb, ci)).

Definition cursor_seek (v : Z) cb ci : option (bool * (Z * Z)) :=
  if cb =? -1 then Some (negb (nblocks B =? 0)%nat, (0, 0))
  else
    x ← cursor_at cb ci;
    if v <=? x then Some (true, (cb, ci))
    else
      let b := lower_block v in
      if (b =? nblocks B)%nat then Some (false, (cb, ci))
      else if negb (bprefix B b =? high w v) then Some (true, (Z.of_nat b, 0))
      else
        let idx := search_inside_block b (low w v) in
        let '(cb, ci) := if (idx =? bsize B b)%nat then (Z.of_nat b + 1, 0) else (Z.of_nat b, Z.of_nat idx) in
        Some (negb (cb =? Z.of_nat (nblocks B)), (cb, ci)).

End Cursor.

(** The offset at position [i] of a block of byte pairs. *)
Definition pair_offset (i : nat) (s : list Z) : Z :=
  Z.lor (Z.shiftl (nth (i * 2) s 0) 8) (nth (1 + i * 2) s 0).

(** The two bytes of an offset. *)
Definition offset_bytes (id : Z) : list Z := [u8 (Z.shiftr (low 16 id) 8); u8 (Z.land id 255)].

(** [s.insert(i, v, n)] and [s.erase(i, n)] *)
Definition string_insert (i : nat) (v s : list Z) : list Z := take i s ++ v ++ drop i s.
Definition string_erase (i n : nat) (s : list Z) : list Z := take i s ++ drop (i + n) s.

(** ** PrefixPostingsV2 *)

Record PrefixPostingsV2 := mkV2 {
  v2_blocks : list (list Z);
  v2_block_prefixes : list Z;
  v2_cur_block : Z;
  v2_cur_idx : Z;
  v2_num : Z }.

Definition v2_new : PrefixPostingsV2 := mkV2 [] [] (-1) (-1) 0.

Definition v2_reading (p : PrefixPostingsV2) : Blocks := {|
  nblocks := length (v2_block_prefixes p);
  bprefix i := nth i (v2_block_prefixes p) 0;
  bsize i := (length (nth i (v2_blocks p) []) / 2)%nat;
  offset i j := pair_offset j (nth i (v2_blocks p) []) |}.

Definition v2_at_cursor (p : PrefixPostingsV2) (c : Z * Z) : PrefixPostingsV2 :=
  mkV2 (v2_blocks p) (v2_block_prefixes p) c.1 c.2 (v2_num p).

Definition v2_push (p : PrefixPostingsV2) (id : Z) : PrefixPostingsV2 :=
  mkV2 (v2_blocks p ++ [offset_bytes id]) (v2_block_prefixes p ++ [high 16 id])
    (v2_cur_block p) (v2_cur_idx p) (s32 (v2_num p + 1)).

Definition v2_set_block (p : PrefixPostingsV2) (b : nat) (s : list Z) (num : Z) : PrefixPostingsV2 :=
  mkV2 (<[b := s]> (v2_blocks p)) (v2_block_prefixes p) (v2_cur_block p) (v2_cur_idx p) (s32 num).

Definition v2_insert (p : PrefixPostingsV2) (id : Z) : PrefixPostingsV2 :=
  let B := v2_reading p in
  let b := lower_block 16 B id in
  if negb (b =? nblocks B)%nat then
    if bprefix B b =? high 16 id then
      let s := nth b (v2_blocks p) [] in
      let idx := search_inside_block B b (low 16 id) in
      if (idx =? length s / 2)%nat then v2_set_block p b (s ++ offset_bytes id) (v2_num p + 1)
      else if bool_decide (take 2 (drop (idx * 2) s) <> offset_bytes id)
      then v2_set_block p b (string_insert (idx * 2) (offset_bytes id) s) (v2_num p + 1)
      else p
    else v2_push p id
  else v2_push p id.

Definition v2_remove (p : PrefixPostingsV2) (id : Z) : bool * PrefixPostingsV2 :=
  let B := v2_reading p in
  let b := lower_block 16 B id in
  if negb (b =? nblocks B)%nat && (bprefix B b =? high 16 id) then
    let s := nth b (v2_blocks p) [] in
    let idx := search_inside_block B b (low 16 id) in
    if (idx <? length s / 2)%nat then
      (true,
       if (length s =? 2)%nat then
         mkV2 (delete b (v2_blocks p)) (delete b (v2_block_prefixes p)) (v2_cur_block p) (v2_cur_idx p)
           (s32 (v2_num p - 1))
       else v2_set_block p b (string_erase (idx * 2) 2 s) (v2_num p - 1))
    else (false, p)
  else (false, p).

Definition v2_reset_cursor (p : PrefixPostingsV2) : PrefixPostingsV2 := v2_at_cursor p (-1, -1).
Definition v2_reset (p : PrefixPostingsV2) : PrefixPostingsV2 := mkV2 [] [] (-1) (-1) (v2_num p).
Definition v2_size (p : PrefixPostingsV2) : Z := u64 (v2_num p).

#[export] Instance PrefixPostingsV2_postings : Postings PrefixPostingsV2 := {
  p_next p := '(ok, c) ← cursor_next (v2_reading p) (v2_cur_block p) (v2_cur_idx p); Some (ok, v2_at_cursor p c);
  p_seek v p :=
    '(ok, c) ← cursor_seek 16 (v2_reading p) v (v2_cur_block p) (v2_cur_idx p); Some (ok, v2_at_cursor p c);
  p_at p := default 0 (cursor_at (v2_reading p) (v2_cur_block p) (v2_cur_idx p));
  p_left p := sum_list ((fun s => (length s / 2)%nat) <$> v2_blocks p) }.

(** ** The ids of a list of blocks *)

Lemma bsearch_spec less k : forall rounds first count,
  (count <= rounds)%nat -> (first <= k <= first + count)%nat ->
  (forall i, (first <= i < first + count)%nat -> less i = (i <? k)%nat) ->
  bsearch rounds less first count = k.
Proof.
  induction rounds as [|rounds IH]; intros first count Hr Hk Hl; [simpl; lia|].
  destruct count as [|count]; [simpl; lia|]. cbn [bsearch].
  assert (Hh : (S count / 2 < S count)%nat) by (apply Nat.div_lt; lia).
  rewrite Hl by lia. destruct (Nat.ltb_spec (first + S count / 2) k).
  - apply IH; [lia..|]. intros i Hi. apply Hl. lia.
  - apply IH; [lia..|]. intros i Hi. apply Hl. lia.
Qed.

Lemma below_count l v i x :
  StronglySorted Z.le l -> l !! i = Some x -> (x <? v) = (i <? length (below v l))%nat.
Proof.
  intros Hs. revert i. induction Hs as [|y l Hs IH Hy]; intros i Ei; [done|]. simpl.
  destruct i as [|i]; simpl in Ei.
  - injection Ei as ->. destruct (Z.ltb_spec x v); done.
  - destruct (Z.ltb_spec y v) as [|Hv]; [by apply IH|].
    apply list_elem_of_lookup_2 in Ei. rewrite Forall_forall in Hy. specialize (Hy x Ei).
    destruct (Z.ltb_spec x v); [lia|done].
Qed.

Lemma below_length v l : (length (below v l) <= length l)%nat.
Proof. induction l as [|x l IH]; simpl; [done|]. destruct (x <? v); simpl; lia. Qed.

Lemma search_count (f : nat -> Z) l v :
  StronglySorted Z.le l -> (forall i x, l !! i = Some x -> f i = x) ->
  bsearch (length l) (fun i => f i <? v) 0 (length l) = length (below v l).
Proof.
  intros Hs Hf. pose proof (below_length v l). apply bsearch_spec; [lia..|].
  intros i Hi. destruct (lookup_lt_is_Some_2 l i) as [x Ex]; [lia|].
  rewrite (Hf i x Ex). by apply below_count.
Qed.

Lemma sorted_lt_le l : StronglySorted Z.lt l -> StronglySorted Z.le l.
Proof. induction 1 as [|x l _ IH Hx]; constructor; [done|]. eapply Forall_impl; [exact Hx|]. intros; lia. Qed.

(** A block as a prefix and its offsets; the ids of a list of blocks. *)
Definition block_ids (b : Z * list Z) : list Z := Z.add b.1 <$> b.2.
Definition ids (L : list (Z * list Z)) : list Z := L ≫= block_ids.

Definition block_ok (w : Z) (b : Z * list Z) : Prop :=
  is_u64 b.1 /\ b.1 mod 2 ^ w = 0 /\ b.2 <> [] /\ StronglySorted Z.lt b.2 /\ Forall (fun o => 0 <= o < 2 ^ w) b.2.

Definition blocks_ok (w : Z) (L : list (Z * list Z)) : Prop :=
  StronglySorted Z.lt L.*1 /\ Forall (block_ok w) L.

(** [B] reads the blocks [L]. *)
Definition reads (B : Blocks) (L : list (Z * list Z)) : Prop :=
  nblocks B = length L /\
  forall i pre os, L !! i = Some (pre, os) ->
    bprefix B i = pre /\ bsize B i = length os /\ forall j o, os !! j = Some o -> offset B i j = o.

Lemma ids_elem L z : z ∈ ids L <-> exists b, b ∈ L /\ z ∈ block_ids b.
Proof. unfold ids. rewrite list_elem_of_bind. naive_solver. Qed.

Section BlocksSpec.
Variable w : Z.
Hypothesis Hw : 0 < w <= 64.

Lemma high_spec v : high w v = v - v mod 2 ^ w.
Proof.
  unfold high. replace (2 ^ w - 1) with (Z.ones w) by (rewrite Z.ones_equiv; lia).
  rewrite Z.ldiff_ones_r, Z.shiftl_mul_pow2, Z.shiftr_div_pow2 by lia.
  pose proof (Z.div_mod v (2 ^ w)). lia.
Qed.

Lemma high_lt a b : high w a < high w b -> a < b.
Proof.
  rewrite !high_spec. intros Hlt. destruct (Z.lt_ge_cases a b) as [|Hge]; [done|].
  assert (0 < 2 ^ w) by lia. pose proof (Z.div_le_mono b a (2 ^ w) ltac:(lia) ltac:(lia)).
  pose proof (Z.div_mod a (2 ^ w)). pose proof (Z.div_mod b (2 ^ w)). nia.
Qed.

Lemma low_spec v : low w v = v mod 2 ^ w.
Proof. unfold low. rewrite <- Z.land_ones by lia. f_equal. rewrite Z.ones_equiv. lia. Qed.

Lemma block_elem b z : block_ok w b -> z ∈ block_ids b -> b.1 <= z < b.1 + 2 ^ w.
Proof.
  intros (_ & _ & _ & _ & Ho) (o & -> & Hin)%list_elem_of_fmap. rewrite Forall_forall in Ho.
  specialize (Ho o Hin). lia.
Qed.

Lemma block_asc b : block_ok w b -> asc (block_ids b).
Proof.
  intros ([Hp _] & _ & _ & Hs & Ho). destruct b as [pre os]. unfold block_ids. simpl in *.
  induction Hs as [|o os Hs IH Hlt]; [apply asc_nil|]. apply Forall_cons in Ho as [Ho Hos].
  simpl. apply asc_cons. split_and!; [lia| |by apply IH].
  apply Forall_fmap. eapply Forall_impl; [exact Hlt|]. simpl. intros; lia.
Qed.

Lemma blocks_ok_cons b L :
  blocks_ok w (b :: L) <-> block_ok w b /\ Forall (fun c => b.1 + 2 ^ w <= c.1) L /\ blocks_ok w L.
Proof.
  unfold blocks_ok. rewrite fmap_cons. split.
  - intros [[Hs Hlt]%StronglySorted_inv [Hb HL]%Forall_cons]. split_and!; [done| |done..].
    rewrite Forall_fmap in Hlt. rewrite Forall_forall in *. intros c Hc. specialize (Hlt c Hc). simpl in Hlt.
    destruct (HL c Hc) as (_ & Hc2 & _). destruct Hb as (_ & Hb2 & _).
    apply Z.mod_divide in Hc2 as [x Ex]; [|lia]. apply Z.mod_divide in Hb2 as [y Ey]; [|lia].
    rewrite Ex, Ey in *. assert (0 < 2 ^ w) by lia. assert (y < x) by nia. nia.
  - intros (Hb & Hlt & Hs & HL). split; constructor; try done. rewrite Forall_fmap.
    eapply Forall_impl; [exact Hlt|]. intros c Hc. simpl in *. assert (0 < 2 ^ w) by lia. lia.
Qed.

Lemma ids_asc L : blocks_ok w L -> asc (ids L).
Proof.
  induction L as [|b L IH]; intros HL; [apply asc_nil|].
  apply blocks_ok_cons in HL as (Hb & Hlt & HL). apply asc_app; [by apply block_asc|by apply IH|].
  intros x y Hx (c & Hc & Hy)%ids_elem. apply (block_elem b x Hb) in Hx.
  rewrite Forall_forall in Hlt. specialize (Hlt c Hc). destruct HL as [_ HL].
  rewrite Forall_forall in HL. apply (block_elem c y (HL c Hc)) in Hy. lia.
Qed.

Lemma ids_app L K : ids (L ++ K) = ids L ++ ids K.
Proof. apply bind_app. Qed.

Lemma blocks_ok_app L K : blocks_ok w (L ++ K) -> blocks_ok w L /\ blocks_ok w K.
Proof.
  unfold blocks_ok. rewrite fmap_app, Forall_app. intros [Hs [HL HK]].
  apply StronglySorted_app in Hs. naive_solver.
Qed.

(** *** Moving over the blocks *)

(** The cursor is on the id [x], with the ids [r] behind it. *)
Definition on_cursor (L : list (Z * list Z)) (c : Z * Z) (x : Z) (r : list Z) : Prop :=
  exists b i pre os L' o os', c = (Z.of_nat b, Z.of_nat i) /\ drop b L = (pre, os) :: L' /\
    drop i os = o :: os' /\ x = pre + o /\ r = block_ids (pre, os') ++ ids L'.

(** The ids from block [b] and its offset [i] on: the cursor on the first. *)
Lemma on_cursor_at L b i pre os L' os' :
  drop b L = (pre, os) :: L' -> drop i os = os' -> os' <> [] ->
  exists x r, block_ids (pre, os') ++ ids L' = x :: r /\ on_cursor L (Z.of_nat b, Z.of_nat i) x r.
Proof. intros Eb Ei Ho. destruct os' as [|o os']; [done|]. simpl. eexists _, _. split; [done|]. by repeat eexists. Qed.

Lemma drop_block L b pre os L' :
  blocks_ok w L -> drop b L = (pre, os) :: L' -> block_ok w (pre, os) /\ blocks_ok w L' /\ L !! b = Some (pre, os) /\
    Forall (fun c => pre + 2 ^ w <= c.1) L'.
Proof.
  intros HL E. rewrite <- (take_drop b L) in HL. apply blocks_ok_app in HL as [_ HL]. rewrite E in HL.
  apply blocks_ok_cons in HL as (? & ? & ?). split_and!; try done.
  rewrite <- (Nat.add_0_r b), <- lookup_drop, E. done.
Qed.

Lemma drop_one L b pre os L' :
  Forall (block_ok w) L -> drop b L = (pre, os) :: L' -> block_ok w (pre, os) /\ L !! b = Some (pre, os).
Proof.
  intros HL E. assert (El : L !! b = Some (pre, os)) by (rewrite <- (Nat.add_0_r b), <- lookup_drop, E; done).
  split; [|done]. rewrite Forall_forall in HL. apply HL. by eapply list_elem_of_lookup_2.
Qed.

Lemma on_cursor_start L b :
  Forall (block_ok w) L -> match ids (drop b L) with
                   | [] => (length L <= b)%nat
                   | x :: r => (b < length L)%nat /\ on_cursor L (Z.of_nat b, 0) x r
                   end.
Proof.
  intros HL. destruct (drop b L) as [|[pre os] L'] eqn:E; [by apply drop_length_nil|].
  destruct (drop_one L b pre os L' HL E) as ((_ & _ & Ho & _) & Hl).
  apply lookup_lt_Some in Hl.
  destruct (on_cursor_at L b 0 pre os L' os E eq_refl Ho) as (x & r & E' & Hon).
  change (ids ((pre, os) :: L')) with (block_ids (pre, os) ++ ids L'). rewrite E'. done.
Qed.

Lemma lor_block pre o : pre mod 2 ^ w = 0 -> 0 <= o < 2 ^ w -> Z.lor pre o = pre + o.
Proof.
  intros Hp Ho. apply Z.mod_divide in Hp as [a ->]; [|lia]. apply lor_disjoint; lia.
Qed.

Section Reading.
Variables (B : Blocks) (L : list (Z * list Z)).
Hypothesis HB : reads B L.
Hypothesis HL : Forall (block_ok w) L.

Lemma in_blocks_of_nat b : in_blocks B (Z.of_nat b) = (b <? length L)%nat.
Proof.
  unfold in_blocks. destruct HB as [-> _]. apply eq_true_iff_eq. rewrite andb_true_iff, Z.leb_le, Z.ltb_lt, Nat.ltb_lt. lia.
Qed.

Lemma cursor_at_on c x r : on_cursor L c x r -> cursor_at B c.1 c.2 = Some x.
Proof.
  intros (b & i & pre & os & L' & o & os' & -> & Eb & Ei & -> & _). simpl.
  destruct (drop_one L b pre os L' HL Eb) as ((_ & Hp & _ & _ & Ho) & Hl).
  assert (Eo : os !! i = Some o) by (rewrite <- (Nat.add_0_r i), <- lookup_drop, Ei; done).
  destruct HB as [_ HB']. destruct (HB' b pre os Hl) as (Hpre & Hsz & Hoff).
  unfold cursor_at. rewrite in_blocks_of_nat, Nat2Z.id, Hsz, Hpre, Nat2Z.id, (Hoff i o Eo).
  pose proof (lookup_lt_Some _ _ _ Hl). pose proof (lookup_lt_Some _ _ _ Eo).
  rewrite (proj2 (Nat.ltb_lt _ _)) by done. rewrite (proj2 (Z.leb_le _ _)), (proj2 (Z.ltb_lt _ _)) by lia.
  simpl. f_equal. apply lor_block; [done|]. rewrite Forall_forall in Ho. apply Ho.
  by eapply list_elem_of_lookup_2.
Qed.

(** A call that leaves the cursor on the first id of [l]. *)
Definition cursor_lands (res : option (bool * (Z * Z))) (l : list Z) : Prop :=
  exists c, res = Some (negb (bool_decide (l = [])), c) /\ match l with [] => True | y :: l => on_cursor L c y l end.

Lemma cursor_first_lands : cursor_lands (cursor_next B (-1) (-1)) (ids L).
Proof.
  unfold cursor_next. simpl. exists (0, 0). pose proof (on_cursor_start L 0 HL) as Hs. rewrite drop_0 in Hs.
  destruct HB as [-> _]. destruct (ids L) as [|x r].
  - by destruct (Nat.eqb_spec (length L) 0); [|lia].
  - destruct Hs as [Hs ?]. destruct (Nat.eqb_spec (length L) 0); [lia|]. done.
Qed.

Lemma cursor_next_lands c x r : on_cursor L c x r -> cursor_lands (cursor_next B c.1 c.2) r.
Proof.
  intros (b & i & pre & os & L' & o & os' & -> & Eb & Ei & -> & ->). simpl.
  destruct (drop_one L b pre os L' HL Eb) as (_ & Hl).
  pose proof (lookup_lt_Some _ _ _ Hl) as Hb. pose proof HB as [Hn HB']. destruct (HB' b pre os Hl) as (_ & Hsz & _).
  assert (Ei' : drop (S i) os = os') by (rewrite <- Nat.add_1_r, <- drop_drop, Ei; done).
  assert (Eb' : drop (S b) L = L') by (rewrite <- Nat.add_1_r, <- drop_drop, Eb; done).
  assert (Hlen : length os = (S i + length os')%nat).
  { apply (f_equal length) in Ei. rewrite length_drop in Ei. simpl in Ei. lia. }
  unfold cursor_next. rewrite in_blocks_of_nat, Nat2Z.id, Hsz, Hn.
  rewrite (proj2 (Nat.ltb_lt _ _)) by done. destruct (Z.eqb_spec (Z.of_nat b) (-1)); [lia|]. simpl.
  destruct (Z.eqb_spec (Z.of_nat i + 1) (Z.of_nat (length os))) as [Eq|Ne].
  - destruct os'; [|simpl in *; lia]. simpl. pose proof (on_cursor_start L (S b) HL) as Hs. rewrite Eb' in Hs.
    destruct (Z.eqb_spec (Z.of_nat b) (Z.of_nat (length L) - 1)); destruct (ids L') as [|y r].
    + by eexists.
    + destruct Hs; lia.
    + lia.
    + destruct Hs as [_ Hs]. eexists. split; [done|]. by replace (Z.of_nat b + 1) with (Z.of_nat (S b)) by lia.
  - assert (Hne : os' <> []) by (intros ->; simpl in *; lia).
    destruct (on_cursor_at L b (S i) pre os L' os' Eb Ei' Hne) as (y & k & -> & Hon).
    exists (Z.of_nat b, Z.of_nat i + 1). split; [done|]. by replace (Z.of_nat i + 1) with (Z.of_nat (S i)) by lia.
Qed.

End Reading.

(** *** Seeking *)

Section Search.
Variables (B : Blocks) (L : list (Z * list Z)).
Hypothesis HB : reads B L.
Hypothesis HL : blocks_ok w L.

Lemma lower_block_count v : lower_block w B v = length (below (high w v) L.*1).
Proof.
  unfold lower_block. destruct HB as [Hn HB']. rewrite Hn, <- (length_fmap fst L). apply search_count.
  - apply sorted_lt_le, HL.
  - intros i x (b & -> & Eb)%list_lookup_fmap_Some. destruct b as [pre os]. apply (HB' i pre os Eb).
Qed.

Lemma search_inside_count b pre os v :
  L !! b = Some (pre, os) -> search_inside_block B b v = length (below v os).
Proof.
  intros Eb. unfold search_inside_block. destruct HB as [_ HB']. destruct (HB' b pre os Eb) as (_ & -> & Ho).
  apply search_count; [|done]. apply sorted_lt_le. destruct HL as [_ Hf]. rewrite Forall_forall in Hf.
  apply (Hf (pre, os)). by eapply list_elem_of_lookup_2.
Qed.

End Search.

Lemma below_take v l : take (length (below v l)) l = below v l.
Proof. induction l as [|x l IH]; simpl; [done|]. destruct (x <? v); simpl; [by rewrite IH|done]. Qed.

Lemma below_drop v l : drop (length (below v l)) l = from v l.
Proof. induction l as [|x l IH]; simpl; [done|]. by destruct (x <? v). Qed.

Lemma below_lt v l : Forall (fun x => x < v) (below v l).
Proof. induction l as [|x l IH]; simpl; [done|]. destruct (Z.ltb_spec x v); by constructor. Qed.

Lemma from_first v l y r : from v l = y :: r -> v <= y.
Proof. induction l as [|x l IH]; simpl; [done|]. destruct (Z.ltb_spec x v); [done|]. by intros [= -> _]. Qed.

Lemma from_skip v a b : Forall (fun x => x < v) a -> from v (a ++ b) = from v b.
Proof. induction 1 as [|x a Hx _ IH]; simpl; [done|]. by rewrite (proj2 (Z.ltb_lt _ _) Hx). Qed.

Lemma from_here v l : match l with [] => True | x :: _ => v <= x end -> from v l = l.
Proof. destruct l as [|x l]; simpl; [done|]. intros Hv. by rewrite (proj2 (Z.ltb_ge _ _) Hv). Qed.

(** The blocks before the one [lower_block] finds only have ids below [v]. *)
Lemma blocks_below v L :
  blocks_ok w L -> Forall (fun x => x < v) (ids (take (length (below (high w v) L.*1)) L)).
Proof.
  intros [_ HL]. apply Forall_forall. intros z (b & Hb & Hz)%ids_elem.
  assert (Hb1 : b.1 < high w v).
  { apply (list_elem_of_fmap_2 fst) in Hb. rewrite fmap_take, below_take in Hb.
    pose proof (below_lt (high w v) L.*1) as Hlt. rewrite Forall_forall in Hlt. by apply Hlt. }
  assert (Hok : block_ok w b).
  { rewrite Forall_forall in HL. apply HL. eapply subseteq_take. exact Hb. }
  apply block_elem in Hz; [|done]. rewrite high_spec in Hb1.
  destruct Hok as (_ & Hm & _). apply Z.mod_divide in Hm as [y Ey]; [|lia].
  pose proof (Z.div_mod v (2 ^ w)) as Hd. assert (0 < 2 ^ w) by lia.
  pose proof (Z.mod_pos_bound v (2 ^ w)). assert (y < v / 2 ^ w) by nia. nia.
Qed.

Lemma high_low v : v = high w v + low w v.
Proof. rewrite high_spec, low_spec. lia. Qed.

Lemma low_range v : 0 <= low w v < 2 ^ w.
Proof. rewrite low_spec. apply Z.mod_pos_bound. lia. Qed.

Lemma from_block v pre os r :
  pre = high w v -> Forall (fun z => v <= z) r ->
  from v (block_ids (pre, os) ++ r) = block_ids (pre, from (low w v) os) ++ r.
Proof.
  intros -> Hr. unfold block_ids. simpl. pose proof (high_low v) as E.
  induction os as [|o os IH]; simpl.
  - apply from_here. destruct r; [done|]. by apply Forall_cons in Hr as [? _].
  - destruct (Z.ltb_spec (high w v + o) v), (Z.ltb_spec o (low w v)); try lia; done.
Qed.

(** What [lower_block] splits: the ids from [v] on start in the block it finds. *)
Lemma from_ids v L :
  blocks_ok w L ->
  let k := length (below (high w v) L.*1) in
  match drop k L with
  | [] => from v (ids L) = []
  | (pre, os) :: L' =>
    high w v <= pre /\ Forall (fun z => v <= z) (ids L') /\
    from v (ids L) = if pre =? high w v then block_ids (pre, from (low w v) os) ++ ids L' else ids (drop k L)
  end.
Proof.
  intros HL k. pose proof (blocks_below v L HL) as Hlt. fold k in Hlt.
  assert (E : from v (ids L) = from v (ids (drop k L))).
  { rewrite <- (take_drop k L) at 1. by rewrite ids_app, from_skip. }
  destruct (drop k L) as [|[pre os] L'] eqn:Ed; [done|].
  destruct (drop_block L k pre os L' HL Ed) as (Hb & HL' & Hl & Hgt).
  assert (Hpre : high w v <= pre).
  { apply (f_equal (fmap (M := list) fst)) in Ed. rewrite fmap_drop in Ed. unfold k in Ed.
    rewrite below_drop in Ed. by eapply from_first. }
  pose proof (high_low v). pose proof (low_range v).
  assert (Hrest : Forall (fun z => v <= z) (ids L')).
  { apply Forall_forall. intros z (c & Hc & Hz)%ids_elem. rewrite Forall_forall in Hgt. specialize (Hgt c Hc).
    destruct HL' as [_ HL']. rewrite Forall_forall in HL'. apply (block_elem c z (HL' c Hc)) in Hz. simpl in Hgt. lia. }
  split_and!; [done..|]. rewrite E. destruct (Z.eqb_spec pre (high w v)) as [Eq|Ne].
  - by apply from_block.
  - apply from_here. change (ids ((pre, os) :: L')) with (block_ids (pre, os) ++ ids L').
    destruct (block_ids (pre, os) ++ ids L') as [|z r] eqn:Ez; [done|].
    assert (Hz : z ∈ block_ids (pre, os) ++ ids L') by (rewrite Ez; by left).
    apply elem_of_app in Hz as [Hz|Hz]; [|rewrite Forall_forall in Hrest; by apply Hrest].
    apply (block_elem _ _ Hb) in Hz. simpl in Hz.
    destruct Hb as (_ & Hm & _). simpl in Hm. apply Z.mod_divide in Hm as [y Ey]; [|lia].
    rewrite high_spec in *. pose proof (Z.div_mod v (2 ^ w)). assert (0 < 2 ^ w) by lia.
    assert (v / 2 ^ w < y) by nia. pose proof (Z.mod_pos_bound v (2 ^ w)). nia.
Qed.

(** The ids up to the one the cursor is on are below it. *)
Lemma on_cursor_split L c x r : on_cursor L c x r -> exists a, ids L = a ++ x :: r.
Proof.
  intros (b & i & pre & os & L' & o & os' & -> & Eb & Ei & -> & ->).
  exists (ids (take b L) ++ block_ids (pre, take i os)).
  rewrite <- (take_drop b L) at 1. rewrite ids_app, Eb, <- app_assoc. f_equal.
  change (ids ((pre, os) :: L')) with (block_ids (pre, os) ++ ids L').
  rewrite <- (take_drop i os) at 1. rewrite Ei. unfold block_ids. simpl.
  by rewrite fmap_app, <- app_assoc.
Qed.

Lemma on_cursor_asc L c x r : blocks_ok w L -> on_cursor L c x r -> asc (x :: r).
Proof.
  intros HL [a Ea]%on_cursor_split. apply ids_asc in HL. rewrite Ea in HL. clear Ea.
  induction a as [|y a IH]; [done|]. apply IH. by apply asc_cons in HL as (_ & _ & ?).
Qed.

Lemma from_on_cursor L c x r v : blocks_ok w L -> on_cursor L c x r -> x < v -> from v (x :: r) = from v (ids L).
Proof.
  intros HL [a Ea]%on_cursor_split Hx. apply ids_asc in HL. rewrite Ea in *. symmetry. apply from_skip.
  clear Ea. induction a as [|y a IH]; [done|]. apply asc_cons in HL as (_ & Hy & HL). constructor; [|by apply IH].
  rewrite Forall_forall in Hy. specialize (Hy x). assert (y < x); [|lia]. apply Hy. apply elem_of_app. right. by left.
Qed.

Lemma cursor_seek_lands B L v c x r :
  reads B L -> blocks_ok w L -> on_cursor L c x r ->
  cursor_lands L (cursor_seek w B v c.1 c.2) (from v (x :: r)).
Proof.
  intros HB HL Hon. pose proof (cursor_at_on B L HB (proj2 HL) c x r Hon) as Hat.
  assert (Hc : (c.1 =? -1) = false).
  { destruct Hon as (b & i & pre & os & L' & o & os' & -> & _). simpl. destruct (Z.eqb_spec (Z.of_nat b) (-1)); lia. }
  unfold cursor_seek. rewrite Hc, Hat. simpl. destruct (Z.leb_spec v x) as [Hle|Hlt].
  { rewrite (proj2 (Z.ltb_ge _ _) Hle). exists c. by destruct c. }
  rewrite (proj2 (Z.ltb_lt _ _) Hlt).
  replace (from v r) with (from v (x :: r)) by (simpl; by rewrite (proj2 (Z.ltb_lt _ _) Hlt)).
  rewrite (from_on_cursor L c x r v) by done. rewrite (lower_block_count B L HB HL).
  pose proof (from_ids v L HL) as Hf. cbv zeta in Hf. set (k := length (below (high w v) L.*1)) in *.
  pose proof HB as [Hn HB']. rewrite Hn.
  destruct (drop k L) as [|[pre os] L'] eqn:Ed.
  { apply drop_length_nil in Ed. rewrite Hf.
    assert (k = length L) as -> by (unfold k in *; pose proof (below_length (high w v) L.*1); rewrite length_fmap in *; lia).
    rewrite Nat.eqb_refl. by exists (c.1, c.2). }
  destruct (drop_block L k pre os L' HL Ed) as ((_ & _ & Hne & _) & _ & Hl & _). destruct Hf as (_ & _ & ->).
  pose proof (lookup_lt_Some _ _ _ Hl) as Hk. destruct (HB' k pre os Hl) as (-> & Hsz & _).
  destruct (Nat.eqb_spec k (length L)); [lia|]. destruct (Z.eqb_spec pre (high w v)) as [Eq|_]; cbn [negb].
  - rewrite (search_inside_count B L HB HL k pre os _ Hl), Hsz.
    destruct (Nat.eqb_spec (length (below (low w v) os)) (length os)) as [E|E].
    + assert (E' : from (low w v) os = []) by (rewrite <- below_drop, E; apply drop_all). rewrite E'. simpl.
      pose proof (on_cursor_start L (S k) (proj2 HL)) as Hs. replace (drop (S k) L) with L' in Hs
        by (rewrite <- Nat.add_1_r, <- drop_drop, Ed; done).
      exists (Z.of_nat k + 1, 0). destruct (ids L') as [|y r']; simpl.
      * destruct (Z.eqb_spec (Z.of_nat k + 1) (Z.of_nat (length L))); [done|lia].
      * destruct Hs as [Hs ?]. destruct (Z.eqb_spec (Z.of_nat k + 1) (Z.of_nat (length L))); [lia|].
        split; [done|]. by replace (Z.of_nat k + 1) with (Z.of_nat (S k)) by lia.
    + assert (Hne' : from (low w v) os <> []).
      { rewrite <- below_drop. intros E'%drop_length_nil. pose proof (below_length (low w v) os). lia. }
      destruct (on_cursor_at L k _ pre os L' _ Ed (below_drop (low w v) os) Hne') as (y & r' & -> & Hon').
      eexists. split; [|exact Hon']. destruct (Z.eqb_spec (Z.of_nat k) (Z.of_nat (length L))); [lia|done].
  - pose proof (on_cursor_start L k (proj2 HL)) as Hs. rewrite Ed in Hs. exists (Z.of_nat k, 0).
    destruct (ids ((pre, os) :: L')); [lia|]. destruct Hs. by split.
Qed.

End BlocksSpec.

(** ** Bytes of a block *)

Fixpoint offsets (s : list Z) : list Z :=
  match s with
  | a :: b :: s => 256 * a + b :: offsets s
  | _ => []
  end.

Lemma pairs_ind (P : list Z -> Prop) :
  P [] -> (forall a, P [a]) -> (forall a b s, P s -> P (a :: b :: s)) -> forall s, P s.
Proof.
  intros H0 H1 H2 s. assert (H : P s /\ forall a, P (a :: s)); [|apply H].
  induction s as [|b s [IH1 IH2]]; split; auto.
Qed.

Lemma half_SS n : (S (S n) / 2 = S (n / 2))%nat.
Proof. change (S (S n)) with (2 + n)%nat. rewrite Nat.add_comm. replace (n + 2)%nat with (n + 1 * 2)%nat by lia. rewrite Nat.div_add by lia. lia. Qed.

Lemma length_offsets s : length (offsets s) = (length s / 2)%nat.
Proof. induction s as [| |a b s IH] using pairs_ind; [done..|]. cbn [length offsets]. by rewrite half_SS, IH. Qed.

Lemma offsets_lookup s j o : bytes_ok s -> offsets s !! j = Some o -> pair_offset j s = o.
Proof.
  revert j. induction s as [| |a b s IH] using pairs_ind; intros j Hs; [done..|].
  apply Forall_cons in Hs as [Ha [Hb Hs]%Forall_cons]. destruct j as [|j]; simpl.
  - intros [= <-]. unfold pair_offset. simpl. rewrite Z.shiftl_mul_pow2 by lia.
    rewrite lor_disjoint by (unfold is_byte, is_u in *; lia). lia.
  - intros Hj. rewrite <- (IH j Hs Hj). done.
Qed.

Lemma offsets_range s : bytes_ok s -> Forall (fun o => 0 <= o < 2 ^ 16) (offsets s).
Proof.
  induction s as [| |a b s IH] using pairs_ind; intros Hs; [constructor..|].
  apply Forall_cons in Hs as [Ha [Hb Hs]%Forall_cons]. simpl. constructor; [|by apply IH].
  unfold is_byte, is_u in *. lia.
Qed.

Lemma offsets_take k s : offsets (take (k * 2) s) = take k (offsets s).
Proof.
  revert k. induction s as [|a|a b s IH] using pairs_ind; intros k; [by destruct k|by destruct k|].
  destruct k; [done|]. simpl. by rewrite IH.
Qed.

Lemma offsets_drop k s : offsets (drop (k * 2) s) = drop k (offsets s).
Proof.
  revert k. induction s as [|a|a b s IH] using pairs_ind; intros k; [by destruct k|by destruct k|].
  destruct k; [done|]. simpl. by rewrite IH.
Qed.

Lemma offsets_app k s t : length s = (k * 2)%nat -> offsets (s ++ t) = offsets s ++ offsets t.
Proof.
  revert k. induction s as [|a|a b s IH] using pairs_ind; intros k Hk; [done|simpl in *; lia|].
  destruct k as [|k]; [done|]. simpl. f_equal. apply (IH k). simpl in Hk. lia.
Qed.

Lemma offset_bytes_spec id : offsets (offset_bytes id) = [low 16 id] /\ bytes_ok (offset_bytes id).
Proof.
  assert (Hl : 0 <= low 16 id < 2 ^ 16) by (apply low_range; lia).
  assert (E : u8 (Z.land id 255) = low 16 id mod 256).
  { rewrite low_spec by lia. rewrite land_ff. unfold u8. rewrite wrap_wrap. unfold wrap.
    change (2 ^ 16) with (256 * 256). change (2 ^ 8) with 256. rewrite Z.rem_mul_r by lia.
    rewrite (Z.mul_comm 256), Z.mod_add by lia. by rewrite Z.mod_mod by lia. }
  unfold offset_bytes. rewrite E. rewrite Z.shiftr_div_pow2 by lia.
  assert (0 <= low 16 id / 2 ^ 8 < 256) by (split; [apply Z.div_pos; lia|apply Z.div_lt_upper_bound; lia]).
  split.
  - simpl. f_equal. unfold u8. rewrite wrap_id by (unfold is_u; lia). change (2 ^ 8) with 256.
    pose proof (Z.div_mod (low 16 id) 256). lia.
  - repeat constructor; try apply wrap_range; try lia; pose proof (Z.mod_pos_bound (low 16 id) 256); lia.
Qed.

Lemma length_offset_bytes id : length (offset_bytes id) = 2%nat.
Proof. done. Qed.

(** Two bytes say which offset they are. *)
Lemma offsets_head s id k :
  bytes_ok s -> (k < length s / 2)%nat -> bool_decide (take 2 (drop (k * 2) s) = offset_bytes id) =
  bool_decide (offsets s !! k = Some (low 16 id)).
Proof.
  intros Hs Hk. apply bool_decide_ext.
  assert (E0 : offsets s !! k = offsets (drop (k * 2) s) !! 0%nat) by by rewrite offsets_drop, lookup_drop, Nat.add_0_r.
  rewrite E0. clear E0. assert (Hd : bytes_ok (drop (k * 2) s)) by by apply Forall_drop.
  destruct (drop (k * 2) s) as [|a [|b t]] eqn:E.
  1,2: apply (f_equal length) in E; rewrite length_drop in E; simpl in E;
       pose proof (Nat.div_mod (length s) 2); pose proof (Nat.mod_upper_bound (length s) 2); lia.
  destruct (offset_bytes_spec id) as [Eo Hb]. unfold offset_bytes in *.
  generalize dependent (u8 (Z.shiftr (low 16 id) 8)). generalize dependent (u8 (Z.land id 255)).
  intros y x Eo Hb. simpl in Eo |- *. injection Eo as Eo. rewrite <- Eo. apply Forall_cons in Hd as [Ha [Hb' _]%Forall_cons].
  apply Forall_cons in Hb as [Hx [Hy _]%Forall_cons]. split; [by intros [= -> ->]|].
  intros [= E']. unfold is_u in *. f_equal; [lia|]. f_equal. lia.
Qed.

(** ** The set of ids of PrefixPostingsV2 *)

Definition v2_view (p : PrefixPostingsV2) : list (Z * list Z) :=
  zip (v2_block_prefixes p) (offsets <$> v2_blocks p).

Definition v2_ids (p : PrefixPostingsV2) : list Z := ids (v2_view p).

Record v2_ok (p : PrefixPostingsV2) : Prop := {
  ok_vectors : length (v2_block_prefixes p) = length (v2_blocks p);
  ok_bytes : Forall (fun s => bytes_ok s /\ exists k, length s = (k * 2)%nat) (v2_blocks p);
  ok_blocks : blocks_ok 16 (v2_view p);
  ok_num : v2_num p = s32 (Z.of_nat (length (v2_ids p))) }.

Lemma v2_view_lookup p i pre os :
  v2_view p !! i = Some (pre, os) <->
  exists s, v2_block_prefixes p !! i = Some pre /\ v2_blocks p !! i = Some s /\ os = offsets s.
Proof.
  unfold v2_view. rewrite lookup_zip_with_Some. split.
  - intros (x & y & [= -> ->] & Hx & (s & -> & Hs)%list_lookup_fmap_Some). eauto.
  - intros (s & Hp & Hs & ->). exists pre, (offsets s). split_and!; [done..|]. by rewrite list_lookup_fmap, Hs.
Qed.

(** The two vectors go together and hold bytes of offsets. *)
Definition v2_shape (p : PrefixPostingsV2) : Prop :=
  length (v2_block_prefixes p) = length (v2_blocks p) /\
  Forall (fun s => bytes_ok s /\ exists k, length s = (k * 2)%nat) (v2_blocks p).

Lemma v2_ok_shape p : v2_ok p -> v2_shape p.
Proof. by intros [? ? _ _]. Qed.

Lemma shape_view_length p : v2_shape p -> length (v2_view p) = length (v2_block_prefixes p).
Proof. intros [Hv _]. unfold v2_view. rewrite length_zip_with, length_fmap. lia. Qed.

Lemma v2_view_length p : v2_ok p -> length (v2_view p) = length (v2_block_prefixes p).
Proof. intros Hp. by apply shape_view_length, v2_ok_shape. Qed.

Lemma shape_reads p : v2_shape p -> reads (v2_reading p) (v2_view p).
Proof.
  intros Hp. split; [by rewrite shape_view_length|]. intros i pre os (s & Ep & Es & ->)%v2_view_lookup. simpl.
  apply nth_lookup_Some with (d := 0) in Ep. pose proof Es as Es'. apply nth_lookup_Some with (d := []) in Es'.
  rewrite Ep, Es', length_offsets. split_and!; [done..|]. intros j o Ho. apply offsets_lookup; [|done].
  destruct Hp as [_ Hb]. rewrite Forall_forall in Hb. apply Hb. by eapply list_elem_of_lookup_2.
Qed.

Lemma v2_reads p : v2_ok p -> reads (v2_reading p) (v2_view p).
Proof. intros Hp. by apply shape_reads, v2_ok_shape. Qed.

Lemma v2_prefixes p : v2_ok p -> (v2_view p).*1 = v2_block_prefixes p.
Proof. intros [Hv _ _ _]. unfold v2_view. apply fst_zip. rewrite length_fmap. lia. Qed.

Lemma v2_asc p : v2_ok p -> asc (v2_ids p).
Proof. intros [_ _ Hb _]. by apply (ids_asc 16). Qed.

Lemma v2_new_ok : v2_ok v2_new.
Proof. by repeat constructor. Qed.

Lemma ids_length L : length (ids L) = sum_list ((fun b => length b.2) <$> L).
Proof.
  induction L as [|b L IH]; [done|]. change (ids (b :: L)) with (block_ids b ++ ids L).
  rewrite length_app, IH. unfold block_ids. by rewrite length_fmap.
Qed.

Lemma shape_left p : v2_shape p -> p_left p = length (v2_ids p).
Proof.
  intros [Hv _]. unfold v2_ids. rewrite ids_length. cbn [p_left PrefixPostingsV2_postings].
  f_equal. unfold v2_view. revert Hv. generalize (v2_block_prefixes p). induction (v2_blocks p) as [|s l IH]; intros [|x k]; try done.
  intros [= E]. rewrite !fmap_cons. cbn [zip_with]. rewrite fmap_cons. cbn [snd].
  by rewrite length_offsets, (IH k E).
Qed.

Lemma v2_left p : v2_ok p -> p_left p = length (v2_ids p).
Proof. intros Hp. by apply shape_left, v2_ok_shape. Qed.

(** The iterator of the set. *)
#[export] Instance PrefixPostingsV2_spec : PostingsSpec PrefixPostingsV2.
Proof.
  refine {| ahead p l := v2_ok p /\ v2_ids p = l /\ v2_cur_block p = -1 /\ v2_cur_idx p = -1;
            on p x l := v2_ok p /\ on_cursor (v2_view p) (v2_cur_block p, v2_cur_idx p) x l |}.
  - intros p l (Hp & <- & _). by apply v2_asc.
  - intros p x l (Hp & Hon). eapply (on_cursor_asc 16 ltac:(lia)); [apply Hp|exact Hon].
  - intros p l (Hp & <- & _). by rewrite v2_left.
  - intros p x l (Hp & Hon). rewrite v2_left by done. apply on_cursor_split in Hon as [a Ea].
    unfold v2_ids. rewrite Ea, length_app. simpl. lia.
  - intros p x l (Hp & Hon). pose proof (cursor_at_on 16 ltac:(lia) _ _ (v2_reads p Hp) (proj2 (ok_blocks p Hp)) _ _ _ Hon) as E.
    simpl in *. by rewrite E.
  - intros p l (Hp & <- & Hc & Hi). cbn [p_next PrefixPostingsV2_postings]. rewrite Hc, Hi.
    destruct (cursor_first_lands 16 _ _ (v2_reads p Hp) (proj2 (ok_blocks p Hp))) as (c & -> & Hon).
    eexists. split; [done|]. unfold v2_ids. destruct (ids (v2_view p)); [done|]. split; [by destruct Hp|].
    by destruct c.
  - intros p x l (Hp & Hon). cbn [p_next PrefixPostingsV2_postings].
    destruct (cursor_next_lands 16 _ _ (v2_reads p Hp) (proj2 (ok_blocks p Hp)) _ _ _ Hon) as (c & E & Hon'). simpl in E. rewrite E.
    eexists. split; [done|]. destruct l; [done|]. split; [by destruct Hp|]. by destruct c.
  - intros v p x l (Hp & Hon). cbn [p_seek PrefixPostingsV2_postings].
    destruct (cursor_seek_lands 16 ltac:(lia) _ _ v _ _ _ (v2_reads p Hp) (ok_blocks p Hp) Hon) as (c & E & Hon'). simpl in E. rewrite E.
    eexists. split; [done|]. destruct (from v (x :: l)); [done|]. split; [by destruct Hp|]. by destruct c.
Defined.

(** ** Inserting *)

Lemma set_insert_in x l : asc l -> x ∈ l -> set_insert x l = l.
Proof.
  intros Hl Hx. apply asc_unique; [|done|].
  - apply set_insert_asc; [|done]. destruct Hl as [_ Hl]. rewrite Forall_forall in Hl. by apply Hl.
  - intros z. rewrite set_insert_elem by done. naive_solver.
Qed.

Lemma filter_all (Q : Z -> Prop) `{forall z, Decision (Q z)} (l : list Z) : (forall z, z ∈ l -> Q z) -> filter Q l = l.
Proof.
  induction l as [|x l IH]; intros Hl; [done|]. rewrite filter_cons_True by (apply Hl; by left).
  f_equal. apply IH. intros z Hz. apply Hl. by right.
Qed.

Lemma set_insert_notin x l : asc l -> x ∉ l -> set_insert x l = below x l ++ x :: from x l.
Proof.
  intros Hl Hx. unfold set_insert. do 2 f_equal. apply filter_all. intros y Hy ->.
  apply Hx. by apply from_elem in Hy as [? _].
Qed.

Lemma length_set_insert x l : asc l -> length (set_insert x l) = if decide (x ∈ l) then length l else S (length l).
Proof.
  intros Hl. case_decide; [by rewrite set_insert_in|]. rewrite set_insert_notin by done.
  rewrite <- (below_from x l) at 3. rewrite !length_app. simpl. lia.
Qed.

Section InsertBlock.
Variable w : Z.
Hypothesis Hw : 0 < w <= 64.

Lemma low_u64 id : is_u64 id -> is_u64 (high w id) /\ high w id mod 2 ^ w = 0.
Proof.
  intros Hid. pose proof (high_low w Hw id). pose proof (low_range w Hw id). rewrite high_spec by done.
  pose proof (Z.div_mod id (2 ^ w)) as Hd. assert (0 < 2 ^ w) by lia.
  assert (0 <= id / 2 ^ w) by (apply Z.div_pos; unfold is_u in *; lia).
  replace (id - id mod 2 ^ w) with (id / 2 ^ w * 2 ^ w) by lia. split; [|apply Z.mod_mul; lia].
  rewrite high_spec in * by done. unfold is_u in *. nia.
Qed.

Lemma offsets_asc b : block_ok w b -> asc b.2.
Proof. intros (_ & _ & _ & Hs & Hf). split; [done|]. eapply Forall_impl; [exact Hf|]. simpl. lia. Qed.

Lemma block_ids_elem pre os z : z ∈ block_ids (pre, os) <-> z - pre ∈ os.
Proof.
  unfold block_ids. simpl. rewrite list_elem_of_fmap. split.
  - intros (o & -> & Ho). by replace (pre + o - pre) with o by lia.
  - intros Hz. exists (z - pre). split; [lia|done].
Qed.

(** Replacing the offsets of a block. *)
Lemma blocks_ok_set L k pre os os' :
  blocks_ok w L -> L !! k = Some (pre, os) -> block_ok w (pre, os') -> blocks_ok w (<[k := (pre, os')]> L).
Proof.
  intros [Hs HL] Ek Hb. split; [|by apply Forall_insert].
  rewrite list_fmap_insert, list_insert_id; [done|]. by rewrite list_lookup_fmap, Ek.
Qed.

Lemma ids_set_elem L k pre os os' z :
  L !! k = Some (pre, os) ->
  z ∈ ids (<[k := (pre, os')]> L) <-> z ∈ ids (take k L) \/ z - pre ∈ os' \/ z ∈ ids (drop (S k) L).
Proof.
  intros Ek. rewrite insert_take_drop by (by eapply lookup_lt_Some). rewrite ids_app.
  change (ids ((pre, os') :: drop (S k) L)) with (block_ids (pre, os') ++ ids (drop (S k) L)).
  by rewrite !elem_of_app, block_ids_elem.
Qed.

Lemma ids_block_elem L k pre os z :
  L !! k = Some (pre, os) -> z ∈ ids L <-> z ∈ ids (take k L) \/ z - pre ∈ os \/ z ∈ ids (drop (S k) L).
Proof. intros Ek. rewrite <- (ids_set_elem L k pre os os z Ek). by rewrite list_insert_id. Qed.

Lemma block_of b id : block_ok w b -> id ∈ block_ids b -> b.1 = high w id.
Proof.
  intros Hb Hin. apply (block_elem w) in Hin; [|done]. destruct Hb as (_ & Hm & _).
  rewrite high_spec by done. apply Z.mod_divide in Hm as [y Ey]; [|lia].
  pose proof (Z.div_mod id (2 ^ w)). pose proof (Z.mod_pos_bound id (2 ^ w)). assert (0 < 2 ^ w) by lia.
  assert (y = id / 2 ^ w) by (apply Z.div_unique with (id - y * 2 ^ w); lia). nia.
Qed.

Lemma id_in_block L k os id :
  blocks_ok w L -> L !! k = Some (high w id, os) -> id ∈ ids L <-> low w id ∈ os.
Proof.
  intros HL Ek. pose proof (high_low w Hw id). split.
  - intros (b & [j Ej]%list_elem_of_lookup_1 & Hin)%ids_elem. destruct HL as [Hs HL].
    assert (Hb : block_ok w b) by (rewrite Forall_forall in HL; apply HL; by eapply list_elem_of_lookup_2).
    pose proof (block_of b id Hb Hin) as E1. destruct b as [pre os']. simpl in E1. subst pre.
    assert (j = k) as ->.
    { assert (Hnd : NoDup L.*1).
      { apply asc_NoDup. split; [done|]. rewrite Forall_fmap. eapply Forall_impl; [exact HL|].
        intros b' ([? _] & _). done. }
      eapply NoDup_lookup; [exact Hnd|rewrite list_lookup_fmap, Ej; done|by rewrite list_lookup_fmap, Ek]. }
    rewrite Ek in Ej. injection Ej as <-. apply block_ids_elem in Hin. by replace (low w id) with (id - high w id) by lia.
  - intros Hin. apply (ids_block_elem L k (high w id) os); [done|]. right. left.
    by replace (id - high w id) with (low w id) by lia.
Qed.

Lemma insert_block L k pre os id :
  blocks_ok w L -> is_u64 id -> L !! k = Some (pre, os) -> pre = high w id ->
  blocks_ok w (<[k := (pre, set_insert (low w id) os)]> L) /\
  ids (<[k := (pre, set_insert (low w id) os)]> L) = set_insert id (ids L).
Proof.
  intros HL Hid Ek Hpre. pose proof (low_range w Hw id) as Hlo. pose proof (high_low w Hw id) as Hhl.
  assert (Hb : block_ok w (pre, os)).
  { destruct HL as [_ HL]. rewrite Forall_forall in HL. apply HL. by eapply list_elem_of_lookup_2. }
  pose proof (offsets_asc _ Hb) as Ho. simpl in Ho.
  assert (Hok : blocks_ok w (<[k := (pre, set_insert (low w id) os)]> L)).
  { eapply blocks_ok_set; [done..|]. destruct Hb as (? & ? & Hne & Hs & Hr). simpl in *.
    split_and!; simpl; [done..| | |].
    - unfold set_insert. by destruct (below (low w id) os).
    - apply set_insert_asc; [lia|done].
    - apply Forall_forall. intros o [->|Hin]%set_insert_elem; [done| |done]. rewrite Forall_forall in Hr. by apply Hr. }
  split; [done|]. apply asc_unique; [by apply (ids_asc w)| |].
  - apply set_insert_asc; [unfold is_u in *; lia|by apply (ids_asc w)].
  - intros z. rewrite set_insert_elem by (by apply (ids_asc w)). rewrite (ids_set_elem L k pre os) by done.
    rewrite (ids_block_elem L k pre os) by done. rewrite set_insert_elem by done.
    assert (z - pre = low w id <-> z = id) by lia. tauto.
Qed.

Lemma push_block L id :
  blocks_ok w L -> is_u64 id -> Forall (fun pre => pre < high w id) L.*1 ->
  blocks_ok w (L ++ [(high w id, [low w id])]) /\
  ids (L ++ [(high w id, [low w id])]) = set_insert id (ids L).
Proof.
  intros [Hs HL] Hid Hlt. pose proof (low_range w Hw id) as Hlo. pose proof (high_low w Hw id) as Hhl.
  destruct (low_u64 id Hid) as [Hh Hm].
  assert (Hok : blocks_ok w (L ++ [(high w id, [low w id])])).
  { split.
    - rewrite fmap_app. apply StronglySorted_app_2; [|done|by repeat constructor].
      intros x y Hx Hy%list_elem_of_singleton. simpl in Hy. subst y. rewrite Forall_forall in Hlt. by apply Hlt.
    - apply Forall_app. split; [done|]. repeat constructor; simpl; try done; try lia. all: unfold is_u in *; lia. }
  split; [done|]. apply asc_unique; [by apply (ids_asc w)| |].
  - apply set_insert_asc; [unfold is_u in *; lia|by apply (ids_asc w)].
  - intros z. rewrite set_insert_elem by (by apply (ids_asc w)). rewrite ids_app, elem_of_app.
    unfold ids at 2. simpl. unfold block_ids. simpl. rewrite <- Hhl, list_elem_of_singleton. tauto.
Qed.

End InsertBlock.

Lemma v2_view_set p b s n pre os :
  v2_view p !! b = Some (pre, os) -> v2_view (v2_set_block p b s n) = <[b := (pre, offsets s)]> (v2_view p).
Proof.
  intros (t & Ep & _ & _)%v2_view_lookup. unfold v2_view. simpl. rewrite list_fmap_insert, insert_zip_with. f_equal.
  symmetry. by apply list_insert_id.
Qed.

Lemma v2_view_push p id : v2_ok p -> v2_view (v2_push p id) = v2_view p ++ [(high 16 id, [low 16 id])].
Proof.
  intros [Hv _ _ _]. unfold v2_view. simpl. rewrite fmap_app, zip_with_app by (rewrite length_fmap; lia).
  destruct (offset_bytes_spec id) as [E _]. simpl in *. by rewrite E.
Qed.

Lemma s32_add a b : s32 (s32 a + b) = s32 (a + b).
Proof.
  unfold s32. rewrite <- (swrap_wrap 32 (swrap 32 a + b)), <- wrap_add_l, wrap_swrap, wrap_add_l by lia.
  apply swrap_wrap.
Qed.

Lemma v2_set_ok p b s n pre os :
  v2_ok p -> v2_view p !! b = Some (pre, os) -> bytes_ok s -> (exists k, length s = (k * 2)%nat) ->
  blocks_ok 16 (<[b := (pre, offsets s)]> (v2_view p)) ->
  s32 n = s32 (Z.of_nat (length (ids (<[b := (pre, offsets s)]> (v2_view p))))) ->
  v2_ok (v2_set_block p b s n).
Proof.
  intros [Hv Hb _ _] Eb Hs He Hok Hn. split.
  - simpl. by rewrite length_insert.
  - apply Forall_insert; [done|]. by split.
  - by rewrite (v2_view_set p b s n pre os Eb).
  - unfold v2_ids. by rewrite (v2_view_set p b s n pre os Eb).
Qed.

(** The block of [id] is there, or lies behind all others. *)
Definition fits (p : PrefixPostingsV2) (id : Z) : Prop :=
  high 16 id ∈ v2_block_prefixes p \/ Forall (fun pre => pre < high 16 id) (v2_block_prefixes p).

Lemma v2_push_ok p id :
  v2_ok p -> is_u64 id -> Forall (fun pre => pre < high 16 id) (v2_block_prefixes p) ->
  v2_ok (v2_push p id) /\ v2_ids (v2_push p id) = set_insert id (v2_ids p).
Proof.
  intros Hp Hid Hlt. pose proof Hp as [Hv Hb Hok Hn].
  rewrite <- (v2_prefixes p Hp) in Hlt.
  destruct (push_block 16 ltac:(lia) (v2_view p) id Hok Hid Hlt) as [Hok' E].
  unfold v2_ids. rewrite v2_view_push by done. split; [|done]. destruct (offset_bytes_spec id) as [_ Hob]. split.
  - simpl. rewrite !length_app. simpl. lia.
  - simpl. apply Forall_app. split; [done|]. apply Forall_singleton. split; [done|by exists 1%nat].
  - by rewrite v2_view_push.
  - unfold v2_ids. rewrite v2_view_push, ids_app, length_app by done. simpl. rewrite Hn, s32_add. f_equal.
    unfold v2_ids. lia.
Qed.

Lemma found_at v l : asc l -> v ∈ l <-> l !! length (below v l) = Some v.
Proof.
  intros Ha. split; [|apply list_elem_of_lookup_2]. intros Hin.
  assert (Hf : v ∈ from v l) by (apply from_elem; [done|]; split; [done|lia]).
  rewrite <- (Nat.add_0_r (length _)), <- lookup_drop, below_drop. simpl.
  destruct (from v l) as [|y r] eqn:E; [by apply elem_of_nil in Hf|]. simpl. f_equal.
  destruct (from_head v l y r Ha E) as (Hy & _ & Hr). apply elem_of_cons in Hf as [->|Hf]; [done|].
  rewrite Forall_forall in Hr. specialize (Hr v Hf). lia.
Qed.

Lemma v2_prefixes_asc p : v2_ok p -> asc (v2_block_prefixes p).
Proof.
  intros Hp. rewrite <- v2_prefixes by done. destruct (ok_blocks p Hp) as [Hs Hf]. split; [done|].
  rewrite Forall_fmap. eapply Forall_impl; [exact Hf|]. by intros b ([? _] & _).
Qed.

(** Where [insert] and [remove] look. *)
Lemma v2_block_found p id :
  v2_ok p ->
  let k := lower_block 16 (v2_reading p) id in
  (k = nblocks (v2_reading p) /\ Forall (fun pre => pre < high 16 id) (v2_block_prefixes p)) \/
  exists pre s, v2_block_prefixes p !! k = Some pre /\ v2_blocks p !! k = Some s /\
    v2_view p !! k = Some (pre, offsets s) /\ (k < nblocks (v2_reading p))%nat /\
    bprefix (v2_reading p) k = pre /\ nth k (v2_blocks p) [] = s /\
    high 16 id <= pre /\ (high 16 id ∈ v2_block_prefixes p -> pre = high 16 id) /\
    search_inside_block (v2_reading p) k (low 16 id) = length (below (low 16 id) (offsets s)).
Proof.
  intros Hp k. pose proof (v2_reads p Hp) as HB. pose proof (ok_blocks p Hp) as HL.
  assert (Ek : k = length (below (high 16 id) (v2_block_prefixes p))).
  { unfold k. rewrite (lower_block_count 16 _ _ HB HL). by rewrite v2_prefixes. }
  assert (Hd : drop k (v2_block_prefixes p) = from (high 16 id) (v2_block_prefixes p)) by (rewrite Ek; apply below_drop).
  destruct (from (high 16 id) (v2_block_prefixes p)) as [|pre r] eqn:Ef.
  - left. rewrite <- (below_from (high 16 id) (v2_block_prefixes p)), Ef, app_nil_r. split; [|apply below_lt].
    apply drop_length_nil in Hd. pose proof (below_length (high 16 id) (v2_block_prefixes p)). simpl. lia.
  - right. assert (Epre : v2_block_prefixes p !! k = Some pre) by (rewrite <- (Nat.add_0_r k), <- lookup_drop, Hd; done).
    pose proof (lookup_lt_Some _ _ _ Epre) as Hk. destruct (lookup_lt_is_Some_2 (v2_blocks p) k) as [s Es].
    { pose proof (ok_vectors p Hp). lia. }
    assert (Ev : v2_view p !! k = Some (pre, offsets s)) by (apply v2_view_lookup; eauto).
    exists pre, s. split_and!; [done..| | | | |].
    + simpl. by apply nth_lookup_Some.
    + by apply nth_lookup_Some.
    + by eapply from_first.
    + intros Hin. apply found_at in Hin; [|by apply v2_prefixes_asc]. rewrite <- Ek in Hin. congruence.
    + by apply (search_inside_count 16 _ _ HB HL k pre).
Qed.

Lemma v2_bytes_of p k s : v2_ok p -> v2_blocks p !! k = Some s -> bytes_ok s /\ exists n, length s = (n * 2)%nat.
Proof.
  intros [_ Hb _ _] Es. rewrite Forall_forall in Hb. apply Hb. by eapply list_elem_of_lookup_2.
Qed.

Lemma v2_offsets_asc p k pre os : v2_ok p -> v2_view p !! k = Some (pre, os) -> asc os /\ block_ok 16 (pre, os).
Proof.
  intros Hp Ev. destruct (ok_blocks p Hp) as [_ Hf]. rewrite Forall_forall in Hf.
  assert (Hb : block_ok 16 (pre, os)) by (apply Hf; by eapply list_elem_of_lookup_2).
  split; [|done]. by apply (offsets_asc 16 (pre, os)).
Qed.

(** Adding the bytes of an offset where it belongs. *)
Lemma offsets_insert s id n :
  bytes_ok s -> length s = (n * 2)%nat -> asc (offsets s) -> low 16 id ∉ offsets s ->
  offsets (string_insert (length (below (low 16 id) (offsets s)) * 2) (offset_bytes id) s) =
    set_insert (low 16 id) (offsets s) /\
  bytes_ok (string_insert (length (below (low 16 id) (offsets s)) * 2) (offset_bytes id) s) /\
  length (string_insert (length (below (low 16 id) (offsets s)) * 2) (offset_bytes id) s) = (S n * 2)%nat.
Proof.
  intros Hs Hn Ha Hin. destruct (offset_bytes_spec id) as [Eo Hob]. unfold string_insert.
  set (k := length (below (low 16 id) (offsets s))).
  assert (Hk : (k * 2 <= length s)%nat).
  { unfold k. pose proof (below_length (low 16 id) (offsets s)). rewrite length_offsets, Hn, Nat.div_mul in * by lia. lia. }
  split_and!.
  - rewrite (offsets_app k) by (rewrite length_take; lia). rewrite (offsets_app 1) by done.
    rewrite offsets_take, offsets_drop, Eo. unfold k. rewrite below_take, below_drop.
    by rewrite set_insert_notin.
  - apply Forall_app. split; [by apply Forall_take|]. apply Forall_app. split; [done|by apply Forall_drop].
  - rewrite !length_app, length_take, length_drop, length_offset_bytes. lia.
Qed.

Lemma v2_insert_ok p id :
  v2_ok p -> is_u64 id -> fits p id ->
  v2_ok (v2_insert p id) /\ v2_ids (v2_insert p id) = set_insert id (v2_ids p).
Proof.
  intros Hp Hid Hfit. unfold v2_insert.
  destruct (v2_block_found p id Hp) as [[-> Hlt]|(pre & s & Ep & Es & Ev & Hk & -> & -> & Hge & Hpre & ->)].
  { rewrite Nat.eqb_refl. by apply v2_push_ok. }
  generalize dependent (lower_block 16 (v2_reading p) id). intros k Ep Es Ev Hk.
  destruct (Nat.eqb_spec k (nblocks (v2_reading p))); [lia|]. cbn [negb].
  destruct (Z.eqb_spec pre (high 16 id)) as [Eq|Ne].
  2:{ exfalso. destruct Hfit as [Hin|Hf]; [by apply Ne, Hpre|].
       rewrite Forall_forall in Hf. apply list_elem_of_lookup_2 in Ep. specialize (Hf pre Ep). lia. }
  destruct (v2_bytes_of p k s Hp Es) as [Hs [m Hn]]. destruct (v2_offsets_asc p k pre _ Hp Ev) as [Ha Hb].
  destruct (insert_block 16 ltac:(lia) (v2_view p) k pre (offsets s) id (ok_blocks p Hp) Hid Ev Eq) as [Hok Hids].
  rewrite Eq in Ev. pose proof (id_in_block 16 ltac:(lia) _ _ _ _ (ok_blocks p Hp) Ev) as Hin. rewrite <- Eq in Ev.
  set (i := length (below (low 16 id) (offsets s))) in *.
  assert (Hnew : low 16 id ∉ offsets s ->
    v2_ok (v2_set_block p k (string_insert (i * 2) (offset_bytes id) s) (v2_num p + 1)) /\
    v2_ids (v2_set_block p k (string_insert (i * 2) (offset_bytes id) s) (v2_num p + 1)) = set_insert id (v2_ids p)).
  { intros Hnin. destruct (offsets_insert s id m Hs Hn Ha Hnin) as (E & Hbs & Hlen). fold i in E, Hbs, Hlen.
    assert (Hn2 : id ∉ v2_ids p) by (unfold v2_ids; by rewrite Hin).
    split; [|unfold v2_ids; by rewrite (v2_view_set p k _ _ pre (offsets s) Ev), E].
    apply (v2_set_ok p k _ _ pre (offsets s)); [done..|by eexists|by rewrite E|].
    rewrite E, Hids, length_set_insert by (by apply v2_asc). rewrite decide_False by done.
    rewrite (ok_num p Hp), s32_add. unfold v2_ids. f_equal. lia. }
  destruct (Nat.eqb_spec i (length s / 2)) as [Ei|Ei].
  - assert (Hnin : low 16 id ∉ offsets s).
    { rewrite found_at by done. fold i. rewrite Ei, <- length_offsets, lookup_ge_None_2 by done. done. }
    specialize (Hnew Hnin). unfold string_insert in Hnew. rewrite Ei, Hn, Nat.div_mul, <- Hn in Hnew by lia.
    rewrite firstn_all, drop_all, app_nil_r in Hnew. done.
  - assert (Hi : (i < length s / 2)%nat).
    { rewrite <- length_offsets in *. pose proof (below_length (low 16 id) (offsets s)). lia. }
    rewrite bool_decide_not, (offsets_head s id i Hs Hi). fold i.
    case_bool_decide as Ed; simpl.
    + split; [done|]. symmetry. apply set_insert_in; [by apply v2_asc|].
      unfold v2_ids. rewrite Hin. by apply found_at.
    + apply Hnew. rewrite found_at by done. done.
Qed.

(** ** Removing *)

Lemma filter_one (a c : list Z) y : NoDup (a ++ y :: c) -> filter (fun z => z <> y) (a ++ y :: c) = a ++ c.
Proof.
  intros (_ & Hd & [Hy _]%NoDup_cons)%NoDup_app. rewrite filter_app, filter_cons_False by tauto. f_equal; apply filter_all.
  - intros z Hz ->. apply (Hd y Hz). by left.
  - by intros z Hz ->.
Qed.

Lemma sorted_middle (a c : list Z) y : StronglySorted Z.lt (a ++ y :: c) -> StronglySorted Z.lt (a ++ c).
Proof.
  induction a as [|x a IH]; intros [Hs Hx]%StronglySorted_inv; [done|]. constructor; [by apply IH|].
  apply Forall_app in Hx as [? [_ ?]%Forall_cons]. by apply Forall_app.
Qed.

(** Taking the offset at [i] out of block [k], and the block if it was its
    last. *)
Lemma ids_without L k i pre os o :
  blocks_ok 16 L -> L !! k = Some (pre, os) -> os !! i = Some o ->
  exists a c, ids L = a ++ (pre + o) :: c /\
    ids (<[k := (pre, delete i os)]> L) = a ++ c /\
    (delete i os <> [] -> blocks_ok 16 (<[k := (pre, delete i os)]> L)) /\
    (delete i os = [] -> ids (delete k L) = a ++ c /\ blocks_ok 16 (delete k L)).
Proof.
  intros HL Ek Ei. exists (ids (take k L) ++ block_ids (pre, take i os)), (block_ids (pre, drop (S i) os) ++ ids (drop (S k) L)).
  assert (Hdel : delete i os = take i os ++ drop (S i) os) by apply delete_take_drop.
  assert (Hblk : block_ids (pre, delete i os) = block_ids (pre, take i os) ++ block_ids (pre, drop (S i) os))
    by (rewrite Hdel; apply fmap_app).
  split_and!.
  - rewrite <- (take_drop_middle L k (pre, os) Ek) at 1. rewrite ids_app, <- app_assoc. f_equal.
    change (ids ((pre, os) :: drop (S k) L)) with (block_ids (pre, os) ++ ids (drop (S k) L)).
    rewrite <- (take_drop_middle os i o Ei) at 1. unfold block_ids. simpl. by rewrite fmap_app, <- app_assoc.
  - rewrite insert_take_drop by (by eapply lookup_lt_Some). rewrite ids_app, <- app_assoc.
    change (ids ((pre, delete i os) :: drop (S k) L)) with (block_ids (pre, delete i os) ++ ids (drop (S k) L)).
    by rewrite Hblk, <- app_assoc.
  - intros Hne. apply (blocks_ok_set 16 L k pre os); [done..|]. destruct HL as [_ HL]. rewrite Forall_forall in HL.
    destruct (HL (pre, os)) as (H1 & H2 & _ & H4 & H5); [by eapply list_elem_of_lookup_2|]. simpl in *.
    split_and!; simpl; [done..| |].
    + rewrite Hdel. rewrite <- (take_drop_middle os i o Ei) in H4. by eapply sorted_middle.
    + rewrite Hdel. apply Forall_app. split; [by apply Forall_take|by apply Forall_drop].
  - intros He. rewrite He in Hblk. symmetry in Hblk. apply app_eq_nil in Hblk as [-> ->]. rewrite app_nil_r.
    rewrite delete_take_drop, ids_app. split; [done|]. destruct HL as [Hs HL]. split.
    + rewrite fmap_app. rewrite <- (take_drop_middle L k (pre, os) Ek), fmap_app, fmap_cons in Hs. by eapply sorted_middle.
    + apply Forall_app. split; [by apply Forall_take|by apply Forall_drop].
Qed.

Lemma offsets_erase s i : (i < length s / 2)%nat -> offsets (string_erase (i * 2) 2 s) = delete i (offsets s).
Proof.
  intros Hi. unfold string_erase. rewrite (offsets_app i).
  - rewrite offsets_take. replace (i * 2 + 2)%nat with (S i * 2)%nat by lia. by rewrite offsets_drop, delete_take_drop.
  - rewrite length_take. pose proof (Nat.div_mod (length s) 2). lia.
Qed.

Lemma v2_view_delete p k n c i :
  v2_view (mkV2 (delete k (v2_blocks p)) (delete k (v2_block_prefixes p)) c i n) = delete k (v2_view p).
Proof.
  unfold v2_view. simpl. rewrite list_fmap_delete. revert k. generalize (offsets <$> v2_blocks p).
  induction (v2_block_prefixes p) as [|x l IH]; intros [|y m] [|k]; simpl; try done.
  - by destruct l.
  - by rewrite IH.
Qed.

(** The two ways [remove] takes an offset out of a block. *)
Lemma v2_erase_ok p k i pre s o :
  v2_ok p -> v2_view p !! k = Some (pre, offsets s) -> v2_blocks p !! k = Some s -> offsets s !! i = Some o ->
  let p' := if (length s =? 2)%nat then
              mkV2 (delete k (v2_blocks p)) (delete k (v2_block_prefixes p)) (v2_cur_block p) (v2_cur_idx p)
                (s32 (v2_num p - 1))
            else v2_set_block p k (string_erase (i * 2) 2 s) (v2_num p - 1) in
  v2_ok p' /\ v2_ids p' = filter (fun z => z <> pre + o) (v2_ids p).
Proof.
  intros Hp Ev Es Eo. pose proof (lookup_lt_Some _ _ _ Eo) as Hi. rewrite length_offsets in Hi.
  destruct (ids_without (v2_view p) k i pre (offsets s) o (ok_blocks p Hp) Ev Eo) as (a & c & E & E1 & Hok1 & Hok2).
  assert (Ef : filter (fun z => z <> pre + o) (v2_ids p) = a ++ c).
  { unfold v2_ids. rewrite E. apply filter_one. rewrite <- E. by apply asc_NoDup, v2_asc. }
  rewrite Ef. assert (Hnum : s32 (v2_num p - 1) = s32 (Z.of_nat (length (a ++ c)))).
  { rewrite (ok_num p Hp). replace (s32 _ - 1) with (s32 (Z.of_nat (length (v2_ids p))) + -1) by lia.
    rewrite s32_add. unfold v2_ids. rewrite E, !length_app. simpl. f_equal. lia. }
  destruct (v2_bytes_of p k s Hp Es) as [Hs [m Hm]]. destruct (Nat.eqb_spec (length s) 2) as [E2|N2].
  - assert (Hd : delete i (offsets s) = []).
    { apply nil_length_inv. rewrite length_delete by (by exists o). rewrite length_offsets, E2. done. }
    destruct (Hok2 Hd) as [E2' Hok]. unfold v2_ids. rewrite v2_view_delete, E2'. split; [|done].
    pose proof (ok_vectors p Hp) as Hv. pose proof (lookup_lt_Some _ _ _ Es) as Hk. split.
    + simpl. rewrite !length_delete; [lia|by exists s|apply lookup_lt_is_Some_2; lia].
    + simpl. rewrite delete_take_drop. pose proof (ok_bytes p Hp). apply Forall_app.
      split; [by apply Forall_take|by apply Forall_drop].
    + by rewrite v2_view_delete.
    + unfold v2_ids. rewrite v2_view_delete, E2'. done.
  - assert (Hd : delete i (offsets s) <> []).
    { intros Hd. apply (f_equal length) in Hd. rewrite length_delete in Hd by (by exists o).
      rewrite length_offsets, Hm, Nat.div_mul in Hd by lia. rewrite Hm, Nat.div_mul in Hi by lia. simpl in Hd. lia. }
    pose proof (offsets_erase s i Hi) as Ee. split.
    + apply (v2_set_ok p k _ _ pre (offsets s)); [done..| | |rewrite Ee; by apply Hok1|by rewrite Ee, E1].
      * apply Forall_app. split; [by apply Forall_take|by apply Forall_drop].
      * exists (m - 1)%nat. unfold string_erase. rewrite length_app, length_take, length_drop.
        rewrite Hm, Nat.div_mul in * by lia. lia.
    + unfold v2_ids. by rewrite (v2_view_set p k _ _ pre (offsets s) Ev), Ee, E1.
Qed.

(** [remove] takes out the first id from [id] on, if it is in the block of
    [id]. *)
Lemma v2_remove_spec p id :
  v2_ok p ->
  match from id (v2_ids p) with
  | y :: _ =>
    if high 16 y =? high 16 id
    then exists p', v2_remove p id = (true, p') /\ v2_ok p' /\ v2_ids p' = filter (fun z => z <> y) (v2_ids p)
    else v2_remove p id = (false, p)
  | [] => v2_remove p id = (false, p)
  end.
Proof.
  intros Hp. pose proof (ok_blocks p Hp) as HL. unfold v2_remove.
  pose proof (from_ids 16 ltac:(lia) id (v2_view p) HL) as Hf. cbv zeta in Hf.
  rewrite <- (lower_block_count 16 _ _ (v2_reads p Hp) HL) in Hf. fold (v2_ids p) in Hf.
  destruct (v2_block_found p id Hp) as [[E Hlt]|(pre & s & Ep & Es & Ev & Hk & Epre & -> & Hge & _ & Ei)].
  { rewrite E in *. rewrite Nat.eqb_refl. rewrite drop_ge in Hf; [by rewrite Hf|]. by rewrite v2_view_length. }
  rewrite Epre, Ei. clear Epre Ei. generalize dependent (lower_block 16 (v2_reading p) id). intros k Hf Ep Es Ev Hk.
  destruct (Nat.eqb_spec k (nblocks (v2_reading p))); [lia|]. cbn [negb andb].
  pose proof (drop_S _ _ _ Ev) as Ed. rewrite Ed in Hf. destruct Hf as (_ & _ & Hf).
  destruct (drop_block 16 ltac:(lia) _ _ _ _ _ HL Ed) as (Hb & HL' & _ & Hgt).
  assert (Hother : forall y r, ids (drop (S k) (v2_view p)) = y :: r -> pre = high 16 id -> (high 16 y =? high 16 id) = false).
  { intros y r Ey Hpre. apply Z.eqb_neq. destruct (proj1 (ids_elem (drop (S k) (v2_view p)) y)) as (b & Hin & Hy).
    { rewrite Ey. by left. }
    rewrite Forall_forall in Hgt. specialize (Hgt b Hin). destruct HL' as [_ HL']. rewrite Forall_forall in HL'.
    rewrite <- (block_of 16 ltac:(lia) b y (HL' b Hin) Hy). simpl in Hgt. lia. }
  destruct (Z.eqb_spec pre (high 16 id)) as [Eq|Ne].
  - pose proof (below_drop (low 16 id) (offsets s)) as Hd.
    destruct (from (low 16 id) (offsets s)) as [|o r] eqn:Eo; rewrite Hf.
    + change (block_ids (pre, []) ++ ids (drop (S k) (v2_view p))) with (ids (drop (S k) (v2_view p))). apply drop_length_nil in Hd. rewrite length_offsets in Hd. destruct (Nat.ltb_spec (length (below (low 16 id) (offsets s))) (length s / 2)); [lia|].
      destruct (ids (drop (S k) (v2_view p))) as [|y r] eqn:Ey; [done|]. by rewrite (Hother y r).
    + cbn [block_ids fst snd fmap list_fmap app].
      assert (Eo' : offsets s !! length (below (low 16 id) (offsets s)) = Some o)
        by (rewrite <- (Nat.add_0_r (length _)), <- lookup_drop, Hd; done).
      pose proof (lookup_lt_Some _ _ _ Eo') as Hl. rewrite length_offsets in Hl.
      rewrite (proj2 (Nat.ltb_lt _ _) Hl). rewrite <- (block_of 16 ltac:(lia) (pre, offsets s) (pre + o) Hb).
      * cbn [fst]. rewrite (proj2 (Z.eqb_eq _ _) Eq). eexists. split; [done|]. by apply v2_erase_ok.
      * apply block_ids_elem. replace (pre + o - pre) with o by lia. by eapply list_elem_of_lookup_2.
  - rewrite Hf. destruct (ids ((pre, offsets s) :: drop (S k) (v2_view p))) as [|y r] eqn:Ey; [done|].
    replace (high 16 y) with pre; [by rewrite (proj2 (Z.eqb_neq _ _) Ne)|].
    apply (block_of 16 ltac:(lia) (pre, offsets s)); [done|].
    change (ids ((pre, offsets s) :: drop (S k) (v2_view p))) with (block_ids (pre, offsets s) ++ ids (drop (S k) (v2_view p))) in Ey.
    destruct Hb as (_ & _ & Hne & _). simpl in Hne. destruct (offsets s) as [|o os]; [done|]. simpl in Ey.
    injection Ey as <- _. by left.
Qed.

(** ** As a set *)

Inductive set_op := Insert (id : Z) | Remove (id : Z).

Definition v2_step (p : PrefixPostingsV2) (o : set_op) : PrefixPostingsV2 :=
  match o with Insert id => v2_insert p id | Remove id => (v2_remove p id).2 end.

Definition set_step (X : gset Z) (o : set_op) : gset Z :=
  match o with Insert id => {[id]} ∪ X | Remove id => X ∖ {[id]} end.

(** What the class can do: an id goes to a block that is there or behind all
    others, and an id that is taken out is there. *)
Definition allowed (X : gset Z) (o : set_op) : Prop :=
  match o with
  | Insert id => is_u64 id /\
      ((exists x, x ∈ X /\ high 16 x = high 16 id) \/ set_Forall (fun x => high 16 x < high 16 id) X)
  | Remove id => id ∈ X
  end.

Fixpoint all_allowed (X : gset Z) (ops : list set_op) : Prop :=
  match ops with
  | [] => True
  | o :: ops => allowed X o /\ all_allowed (set_step X o) ops
  end.

Definition holds_set (p : PrefixPostingsV2) (X : gset Z) : Prop := v2_ok p /\ forall z, z ∈ v2_ids p <-> z ∈ X.

(** The prefixes are those of the ids. *)
Lemma v2_prefix_elem p pre : v2_ok p -> pre ∈ v2_block_prefixes p <-> exists x, x ∈ v2_ids p /\ high 16 x = pre.
Proof.
  intros Hp. rewrite <- v2_prefixes by done. pose proof (ok_blocks p Hp) as [_ Hf]. rewrite Forall_forall in Hf. split.
  - intros (b & -> & Hb)%list_elem_of_fmap. destruct (Hf b Hb) as (_ & _ & Hne & _). destruct b as [pre [|o os]]; [done|].
    assert (Hin : pre + o ∈ block_ids (pre, o :: os)) by by left. exists (pre + o). split.
    + apply ids_elem. by eexists.
    + symmetry. by apply (block_of 16 ltac:(lia) _ _ (Hf _ Hb)).
  - intros (x & (b & Hb & Hx)%ids_elem & <-). rewrite <- (block_of 16 ltac:(lia) b x (Hf b Hb) Hx).
    by apply list_elem_of_fmap_2.
Qed.

Lemma fits_set p X id :
  holds_set p X -> (exists x, x ∈ X /\ high 16 x = high 16 id) \/ set_Forall (fun x => high 16 x < high 16 id) X -> fits p id.
Proof.
  intros [Hp HX] [(x & Hx & E)|Hall]; [left|right].
  - apply v2_prefix_elem; [done|]. exists x. by rewrite HX.
  - apply Forall_forall. intros pre (x & Hx & <-)%v2_prefix_elem; [|done]. apply Hall. by apply HX.
Qed.

Lemma holds_step p X o : holds_set p X -> allowed X o -> holds_set (v2_step p o) (set_step X o).
Proof.
  intros Hh Ha. pose proof Hh as [Hp HX]. destruct o as [id|id]; simpl in *.
  - destruct Ha as [Hid Hf]. destruct (v2_insert_ok p id Hp Hid (fits_set p X id Hh Hf)) as [Hok E].
    split; [done|]. intros z. rewrite E, set_insert_elem, HX by (by apply v2_asc). set_solver.
  - pose proof (v2_remove_spec p id Hp) as Hr. assert (Hf : from id (v2_ids p) !! 0%nat = Some id).
    { rewrite <- below_drop, lookup_drop, Nat.add_0_r. apply found_at; [by apply v2_asc|by apply HX]. }
    destruct (from id (v2_ids p)) as [|y r]; [done|]. injection Hf as ->. rewrite Z.eqb_refl in Hr.
    destruct Hr as (p' & -> & Hok & E). split; [done|]. intros z. simpl. rewrite E, list_elem_of_filter, HX. set_solver.
Qed.

Lemma holds_steps ops : forall p X, holds_set p X -> all_allowed X ops ->
  holds_set (foldl v2_step p ops) (foldl set_step X ops).
Proof. induction ops as [|o ops IH]; intros p X Hh; [done|]. intros [Ha Hr]. apply IH; [by apply holds_step|done]. Qed.

(** A set of ids is the length of its list in order. *)
Lemma holds_size p X : holds_set p X -> length (v2_ids p) = size X.
Proof.
  intros [Hp HX]. rewrite <- (size_list_to_set (C := gset Z) (v2_ids p)) by (by apply asc_NoDup, v2_asc).
  f_equal. apply set_eq. intros z. by rewrite elem_of_list_to_set.
Qed.

Lemma v2_reset_ahead p : v2_ok p -> ahead (v2_reset_cursor p) (v2_ids p).
Proof. intros Hp. split_and!; [|done..]. by destruct Hp. Qed.

(** [next()] called [k] times. *)
Fixpoint p_nexts `{Postings P} (k : nat) (p : P) : option P :=
  match k with
  | O => Some p
  | S k => '(_, p) ← p_next p; p_nexts k p
  end.

Lemma nexts_on `{PostingsSpec P} l : forall k (p : P) x r y, on p x r -> drop k (x :: r) = y :: l -> exists q, p_nexts k p = Some q /\ on q y l.
Proof.
  induction k as [|k IH]; intros p x r y Hp E; [injection E as -> ->; by exists p|]. cbn [drop] in E. cbn [p_nexts].
  apply next_on in Hp as (p' & -> & Hp). cbn [mbind option_bind]. destruct r as [|z r]; [by rewrite drop_nil in E|]. by eapply IH.
Qed.

Lemma nexts_ahead `{PostingsSpec P} (p : P) l k x r : ahead p l -> drop k l = x :: r -> exists q, p_nexts (S k) p = Some q /\ on q x r.
Proof.
  intros Hp E. cbn [p_nexts]. apply next_ahead in Hp as (p' & -> & Hp). cbn [mbind option_bind].
  destruct l as [|z l]; [by rewrite drop_nil in E|]. by eapply nexts_on.
Qed.

(** What a seek found: nothing, or the first id of [l], with the rest after it. *)
Definition found `{Postings P} (res : option (bool * P)) (l : list Z) : Prop :=
  exists q, res = Some (negb (bool_decide (l = [])), q) /\
    match l with [] => True | y :: r => p_at q = y /\ expand_postings q = Some r end.

Lemma lands_found `{PostingsSpec P} res l : lands on res l -> found res l.
Proof.
  intros (q & -> & Hq). exists q. split; [done|]. destruct l as [|y r]; [done|]. split; [by apply on_at in Hq|].
  pose proof (on_left _ _ _ Hq). apply (expand_on _ _ y); [done|lia].
Qed.

Lemma v2_seek_first v p : p_seek v (v2_reset_cursor p) = p_next (v2_reset_cursor p).
Proof. done. Qed.

(** C14. [PrefixPostingsV2] implements a set of 64-bit ids: after any sequence of
    insertions and removals, each of an id whose block is there or would come
    last and of an id that is in the set, reading it from the start gives the
    ids of the set in ascending order, and its [size()] is their number (up to
    the width of the [int] that counts them).  From the id a reader stands on,
    [seek(v)] goes to the first id from there on that is not below [v], with
    the ids after it still to be read, and returns false when there is none;
    before the first [next()] it goes to the first id, whatever [v] is. *)
Theorem postings_are_set ops :
  all_allowed ∅ ops ->
  let p := foldl v2_step v2_new ops in
  let X := foldl set_step ∅ ops in
  exists l, expand_postings (v2_reset_cursor p) = Some l /\ asc l /\ list_to_set l = X /\
    v2_size p = u64 (s32 (Z.of_nat (size X))) /\
    (forall k x r, drop k l = x :: r -> exists q, p_nexts (S k) (v2_reset_cursor p) = Some q /\ p_at q = x /\
      forall v, found (p_seek v q) (from v (x :: r))) /\
    (forall v, found (p_seek v (v2_reset_cursor p)) l).
Proof.
  intros Ha p X. assert (Hh : holds_set p X).
  { apply holds_steps; [|done]. split; [apply v2_new_ok|]. simpl. set_solver. }
  pose proof Hh as [Hp HX]. pose proof (v2_reset_ahead p Hp) as Hahead. exists (v2_ids p). split_and!.
  - by apply expand_ahead.
  - by apply v2_asc.
  - apply set_eq. intros z. by rewrite elem_of_list_to_set.
  - unfold v2_size. by rewrite (ok_num p Hp), (holds_size p X Hh).
  - intros k x r E. destruct (nexts_ahead _ _ _ _ _ Hahead E) as (q & Eq & Hq). exists q. split_and!; [done|by apply on_at in Hq|].
    intros v. by apply lands_found, seek_on.
  - intros v. rewrite v2_seek_first. by apply lands_found, next_ahead.
Qed.

(** ** Blocks out of order *)

(** Reading needs no order: it goes through the blocks as they are. *)
Lemma expand_shape rounds : forall p x r,
  v2_shape p -> Forall (block_ok 16) (v2_view p) ->
  on_cursor (v2_view p) (v2_cur_block p, v2_cur_idx p) x r -> (length r < rounds)%nat ->
  expand_loop rounds p = Some r.
Proof.
  induction rounds as [|rounds IH]; intros p x r Hp HL Hon Hr; [lia|]. cbn [expand_loop p_next PrefixPostingsV2_postings].
  destruct (cursor_next_lands 16 _ _ (shape_reads p Hp) HL _ _ _ Hon) as (c & E & Hon'). simpl in E. rewrite E.
  destruct r as [|y r]; [done|]. destruct c as [cb ci]. simpl in *.
  rewrite (IH (v2_at_cursor p (cb, ci)) y r) by (done || lia). simpl.
  pose proof (cursor_at_on 16 ltac:(lia) _ _ (shape_reads p Hp) HL _ _ _ Hon') as Ea. simpl in Ea.
  by replace (cursor_at _ cb ci) with (Some y).
Qed.

Lemma expand_reset p :
  v2_shape p -> Forall (block_ok 16) (v2_view p) -> expand_postings (v2_reset_cursor p) = Some (v2_ids p).
Proof.
  intros Hp HL. unfold expand_postings. cbn [expand_loop p_next PrefixPostingsV2_postings].
  destruct (cursor_first_lands 16 _ _ (shape_reads p Hp) HL) as ([cb ci] & E & Hon).
  change (cursor_next (v2_reading (v2_reset_cursor p)) _ _) with (cursor_next (v2_reading p) (-1) (-1)).
  rewrite E. cbn [mbind option_bind]. unfold v2_ids. pose proof (shape_left p Hp) as Hl. unfold v2_ids in Hl.
  change (p_left (v2_reset_cursor p)) with (p_left p). rewrite Hl.
  destruct (ids (v2_view p)) as [|y r] eqn:Ei; [done|]. cbn [bool_decide negb length].
  pose proof (cursor_at_on 16 ltac:(lia) _ _ (shape_reads p Hp) HL _ _ _ Hon) as Ea.
  change (v2_at_cursor (v2_reset_cursor p) (cb, ci)) with (v2_at_cursor p (cb, ci)).
  rewrite (expand_shape _ (v2_at_cursor p (cb, ci)) y r) by (done || lia).
  cbn. change (cursor_at _ _ _) with (cursor_at (v2_reading p) cb ci). cbn in Ea. by rewrite Ea.
Qed.

Lemma v2_reached ops : all_allowed ∅ ops -> holds_set (foldl v2_step v2_new ops) (foldl set_step ∅ ops).
Proof. intros Ha. apply holds_steps; [|done]. split; [apply v2_new_ok|]. simpl. set_solver. Qed.

(** A block below another one is appended all the same. *)
Lemma v2_insert_low p id :
  v2_ok p -> high 16 id ∉ v2_block_prefixes p -> v2_insert p id = v2_push p id.
Proof.
  intros Hp Hn. unfold v2_insert.
  destruct (v2_block_found p id Hp) as [[-> _]|(pre & s & Ep & _ & _ & _ & -> & _)]; [by rewrite Nat.eqb_refl|].
  destruct (negb _); [|done]. destruct (Z.eqb_spec pre (high 16 id)) as [->|]; [|done].
  exfalso. apply Hn. by eapply list_elem_of_lookup_2.
Qed.

(** [PrefixPostingsV2::remove] takes out an id that was not asked for: for an
    [id] that is not in the set it returns [true] and removes the next larger
    id [y] of the same block. *)
Theorem remove_takes_neighbour ops id y :
  all_allowed ∅ ops ->
  let X := foldl set_step ∅ ops in
  id ∉ X -> y ∈ X -> high 16 y = high 16 id -> id < y -> set_Forall (fun x => id <= x -> y <= x) X ->
  exists p' l, v2_remove (foldl v2_step v2_new ops) id = (true, p') /\
    expand_postings (v2_reset_cursor p') = Some l /\ list_to_set l = X ∖ {[y]}.
Proof.
  intros Ha X Hid Hy Eh Hlt Hnext. destruct (v2_reached ops Ha) as [Hp HX]. fold X in HX.
  set (p := foldl v2_step v2_new ops) in *. pose proof (v2_asc p Hp) as Hasc.
  assert (Hf : exists r, from id (v2_ids p) = y :: r).
  { destruct (from id (v2_ids p)) as [|z r] eqn:E.
    - assert (Hin : y ∈ from id (v2_ids p)) by (apply from_elem; [done|]; split; [by apply HX|lia]).
      rewrite E in Hin. by apply elem_of_nil in Hin.
    - exists r. f_equal. destruct (from_head id (v2_ids p) z r Hasc E) as (Hz & Hzin & Hr).
      assert (y <= z) by (apply Hnext; [by apply HX|done]).
      assert (Hin : y ∈ z :: r) by (rewrite <- E; apply from_elem; [done|]; split; [by apply HX|lia]).
      apply elem_of_cons in Hin as [->|Hin]; [done|]. rewrite Forall_forall in Hr. specialize (Hr y Hin). lia. }
  destruct Hf as [r Ef]. pose proof (v2_remove_spec p id Hp) as Hr. rewrite Ef, (proj2 (Z.eqb_eq _ _) Eh) in Hr.
  destruct Hr as (p' & E & Hp' & El). exists p', (v2_ids p'). split_and!; [done| |].
  - by apply expand_ahead, v2_reset_ahead.
  - apply set_eq. intros z. rewrite elem_of_list_to_set, El, list_elem_of_filter, HX. set_solver.
Qed.

(** [PrefixPostingsV2::insert] loses the order when an id belongs to a block
    that is not there and lies below another one: the block is appended, and
    reading the set gives the id last. *)
Theorem low_block_breaks_order ops id x :
  all_allowed ∅ ops ->
  let p := foldl v2_step v2_new ops in
  let X := foldl set_step ∅ ops in
  is_u64 id -> set_Forall (fun z => high 16 z <> high 16 id) X -> x ∈ X -> high 16 id < high 16 x ->
  exists l, expand_postings (v2_reset_cursor p) = Some l /\
    expand_postings (v2_reset_cursor (v2_insert p id)) = Some (l ++ [id]) /\ x ∈ l /\ id < x.
Proof.
  intros Ha p X Hid Hno Hx Hlt. destruct (v2_reached ops Ha) as [Hp HX]. fold p X in Hp, HX.
  assert (Hn : high 16 id ∉ v2_block_prefixes p).
  { intros (z & Hz & E)%v2_prefix_elem; [|done]. apply (Hno z); [by apply HX|done]. }
  exists (v2_ids p). split_and!; [by apply expand_ahead, v2_reset_ahead| |by apply HX|].
  2:{ by apply (high_lt 16 ltac:(lia)). }
  rewrite v2_insert_low by done. destruct (offset_bytes_spec id) as [Eo Hob]. destruct (low_u64 16 ltac:(lia) id Hid) as [Hh Hm].
  pose proof Hp as [Hv Hb [_ HL] _]. rewrite expand_reset.
  - unfold v2_ids. rewrite v2_view_push, ids_app by done. do 2 f_equal. unfold ids, block_ids. simpl.
    by rewrite <- (high_low 16 ltac:(lia) id).
  - split; simpl; [rewrite !length_app; simpl; lia|]. apply Forall_app. split; [done|].
    apply Forall_singleton. split; [done|by exists 1%nat].
  - rewrite v2_view_push by done. apply Forall_app. split; [done|]. apply Forall_singleton.
    pose proof (low_range 16 ltac:(lia) id). split_and!; simpl; [done..| |by apply Forall_singleton]. by repeat constructor.
Qed.

(** ** Witnesses *)
Module PrefixDemo.

Definition ops : list set_op := [Insert 70000; Insert 65536; Insert 65540; Insert 200000; Remove 200000; Insert 70000].

Lemma ops_allowed : all_allowed ∅ ops.
Proof.
  cbn [all_allowed ops allowed set_step]. split_and!; try (unfold is_u; lia); try (left; exists 70000; split; [set_solver|done]).
  - right. apply set_Forall_empty.
  - right. intros x Hx. assert (x = 65540 \/ x = 65536 \/ x = 70000) as Hx' by set_solver.
    by destruct Hx' as [->|[->| ->]].
  - set_solver.
Qed.

(** The set is 65536, 65540 and 70000: a seek from the first id, and one before
    the first [next()]. *)
Lemma postings_are_set_witness :
  exists l, expand_postings (v2_reset_cursor (foldl v2_step v2_new ops)) = Some l /\ l = [65536; 65540; 70000] /\
    exists q, p_nexts 1 (v2_reset_cursor (foldl v2_step v2_new ops)) = Some q /\ p_at q = 65536 /\
      found (p_seek 65541 q) [70000] /\ found (p_seek 65541 (v2_reset_cursor (foldl v2_step v2_new ops))) [65536; 65540; 70000].
Proof.
  destruct (postings_are_set ops ops_allowed) as (l & E & _ & _ & _ & Hs & Hf). exists l. split; [exact E|].
  assert (El : l = [65536; 65540; 70000]) by (vm_compute in E; by injection E as <-). subst l. split; [reflexivity|].
  destruct (Hs 0%nat 65536 [65540; 70000] eq_refl) as (q & Eq & Hq & Hv). exists q. split; [exact Eq|]. split; [exact Hq|].
  split; [exact (Hv 65541)|exact (Hf 65541)].
Defined.

Lemma remove_takes_neighbour_witness :
  exists p' l, v2_remove (foldl v2_step v2_new ops) 65537 = (true, p') /\
    expand_postings (v2_reset_cursor p') = Some l /\ list_to_set l = foldl set_step (∅ : gset Z) ops ∖ {[65540]}.
Proof.
  apply (remove_takes_neighbour ops 65537 65540 ops_allowed); [set_solver|set_solver|done|done|].
  intros x Hx. assert (x = 65540 \/ x = 65536 \/ x = 70000) as [->|[->| ->]] by set_solver; lia.
Defined.

Lemma low_block_breaks_order_witness :
  exists l, expand_postings (v2_reset_cursor (foldl v2_step v2_new ops)) = Some l /\
    expand_postings (v2_reset_cursor (v2_insert (foldl v2_step v2_new ops) 7)) = Some (l ++ [7]) /\ 70000 ∈ l /\ 7 < 70000.
Proof.
  apply (low_block_breaks_order ops 7 70000 ops_allowed); [unfold is_u; lia| |set_solver|done].
  intros x Hx. assert (x = 65540 \/ x = 65536 \/ x = 70000) as [->|[->| ->]] by set_solver; done.
Defined.

End PrefixDemo.
