(* ===== verification/ThmapPostings.v ===== *)
(** index/ThmapPostings and index/MergeSetPostings: the inverted index of the
    tree head, and the selection of series over it (head/TreeHead.cpp).

    The index maps a label name to a map from values to a list of ids, both
    lock-free maps ([Thmap]).  Lists of ids live in [postings_] and the inner
    maps in [value_maps_]: a pointer is a position there, and a list that was
    deleted leaves [None].  Lists that are not used often move to a merge set
    on disk, mem/MergeSet, of which [MergeSet] is the part that is called: a
    store of the newest value of each key with an ordered iterator.

    The operations are those of one thread; how several threads interleave in
    [add] is the file after this one.  [None] is a call that does not return
    normally: a null pointer is followed, a number is read that was not set, or
    a push waits for room in the queue. *)
From Stdlib Require Import ZArith Lia Bool Sorting.Sorted.
From stdpp Require Import base list numbers option gmap sorting.
From S2P Require Import Prelude Coding Label Postings Matchers MassTree HeadIndex PrefixPostings.

(** ** Interfaces *)

Class MergeSet (MS : Type) := {
  ms_put : MS -> str -> str -> MS;
  (** The entries an iterator visits after [Seek(key)]. *)
  ms_seek : MS -> str -> list (str * str);
  ms_compact : MS -> MS }.

(** The value of a key, as the iterator finds it. *)
Definition ms_value `{MergeSet MS} (m : MS) (key : str) : option str :=
  match ms_seek m key with
  | (k, v) :: _ => if decide (k = key) then Some v else None
  | [] => None
  end.

(** One entry for each key, in order; the newest value wins; compaction does
    not show. *)
Class MergeSetLaws (MS : Type) `{MergeSet MS} : Prop := {
  seek_sorted m k : StronglySorted (fun a b => bytes_ltb a.1 b.1 = true) (ms_seek m k);
  value_put m k v k' : ms_value (ms_put m k v) k' = if decide (k = k') then Some v else ms_value m k';
  value_compact m k : ms_value (ms_compact m) k = ms_value m k }.

(** ** MergeSetPostings *)

Record ConcurrencyPostingList := mkCPL { posting_list_ : PrefixPostingsV2; hot_value_ : Z }.

Definition new_list : ConcurrencyPostingList := mkCPL v2_new 0.

(** [posting_list_.insert(id); hot_value_.fetch_add(1)] *)
Definition cpl_insert (c : ConcurrencyPostingList) (id : Z) : ConcurrencyPostingList :=
  mkCPL (v2_insert (posting_list_ c) id) (u32 (hot_value_ c + 1)).

Definition merge_key (l : Label) : str := label l ++ value l.

Section MergeSetPostings.
Context `{PE : PastEnd} `{MG : MergeSet MS}.

Definition AddMergeSet (m : MS) (l : Label) (cp : ConcurrencyPostingList) : option MS :=
  ids ← expand_postings (v2_reset_cursor (posting_list_ cp));
  Some (ms_put m (merge_key l) (foldl PutFixed64 (PutFixed32 [] (v2_size (posting_list_ cp))) ids)).

(** [for (i = 0; i < id_num; i++) GetFixed64(&val, &id)]; [None]: the value is
    shorter than its count says, which is not checked. *)
Fixpoint read_ids (n : nat) (val : str) : option (list Z) :=
  match n with
  | O => Some []
  | S n => '(id, val) ← GetFixed64 val; l ← read_ids n val; Some (id :: l)
  end.

(** [while (iter->Valid() && iter->key() == key)] *)
Fixpoint read_entries (key : str) (l : list (str * str)) : option (list Z) :=
  match l with
  | [] => Some []
  | (k, val) :: l =>
    if decide (k = key) then
      '(id_num, val) ← GetFixed32 val;
      a ← read_ids (Z.to_nat id_num) val;
      b ← read_entries key l;
      Some (a ++ b)
    else Some []
  end.

Definition GetAndReadMergeSet (m : MS) (l : Label) : option (list Z) :=
  read_entries (merge_key l) (ms_seek m (merge_key l)).

End MergeSetPostings.

(** ** ThmapPostings *)

Record ThmapPostings (KM VM MS : Type) := mkTP {
  key_map_ : KM;
  value_maps_ : list VM;
  postings_ : list (option ConcurrencyPostingList);
  label_num_ : Z;
  hot_queue_ : list Label;
  hot_list_ : list (Label * Z);
  mergeset_postings_ : MS }.
Arguments mkTP {KM VM MS}.
Arguments key_map_ {KM VM MS} _.
Arguments value_maps_ {KM VM MS} _.
Arguments postings_ {KM VM MS} _.
Arguments label_num_ {KM VM MS} _.
Arguments hot_queue_ {KM VM MS} _.
Arguments hot_list_ {KM VM MS} _.
Arguments mergeset_postings_ {KM VM MS} _.

Definition HOT_QUEUE_SIZE : Z := Z.shiftl 1 16.

(** [HOT_QUEUE_SIZE / 2]: the macro is [1<<16] without parentheses, and the
    division binds first. *)
Definition HOT_QUEUE_HALF : Z := Z.shiftl 1 (16 / 2).

Section Index.
Context `{PE : PastEnd} `{TK : Thmap str nat KM} `{TV : Thmap str nat VM} `{MG : MergeSet MS}.
Implicit Type t : ThmapPostings KM VM MS.

Definition new_index (m : MS) : ThmapPostings KM VM MS := mkTP thmap_create [] [] 0 [] [] m.

Definition set_maps t (km : KM) (vms : list VM) : ThmapPostings KM VM MS :=
  mkTP km vms (postings_ t) (label_num_ t) (hot_queue_ t) (hot_list_ t) (mergeset_postings_ t).
Definition set_postings t (ps : list (option ConcurrencyPostingList)) : ThmapPostings KM VM MS :=
  mkTP (key_map_ t) (value_maps_ t) ps (label_num_ t) (hot_queue_ t) (hot_list_ t) (mergeset_postings_ t).
Definition set_hot t (n : Z) (q : list Label) (hl : list (Label * Z)) : ThmapPostings KM VM MS :=
  mkTP (key_map_ t) (value_maps_ t) (postings_ t) n q hl (mergeset_postings_ t).
Definition set_mergeset t (m : MS) : ThmapPostings KM VM MS :=
  mkTP (key_map_ t) (value_maps_ t) (postings_ t) (label_num_ t) (hot_queue_ t) (hot_list_ t) m.

(** [thmap_get(value_map, l.value)] *)
Definition find_posting t (vm : nat) (value : str) : option nat :=
  m ← value_maps_ t !! vm; thmap_get m value.

(** [thmap_get(key_map_, l.label)] and then the value. *)
Definition find_list t (l : Label) : option nat :=
  vm ← thmap_get (key_map_ t) (label l); find_posting t vm (value l).

(** The list a pointer points to. *)
Definition list_at t (p : nat) : option ConcurrencyPostingList := mjoin (postings_ t !! p).

Definition update_list t (p : nat) (f : ConcurrencyPostingList -> ConcurrencyPostingList) : option (ThmapPostings KM VM MS) :=
  c ← list_at t p; Some (set_postings t (<[p := Some (f c)]> (postings_ t))).

(** [thmap_put(value_map, l.value, posting)] with a new list. *)
Definition put_list t (vm : nat) (value : str) (c : ConcurrencyPostingList) : option (ThmapPostings KM VM MS) :=
  m ← value_maps_ t !! vm;
  let p := length (postings_ t) in
  Some (set_maps (set_postings t (postings_ t ++ [Some c])) (key_map_ t)
          (<[vm := thmap_put m value p]> (value_maps_ t))).

(** [hot_queue_.push(l); label_num_.fetch_add(1)]: a push into a full queue
    waits. *)
Definition hot_push t (l : Label) : option (ThmapPostings KM VM MS) :=
  if Z.of_nat (length (hot_queue_ t)) <? HOT_QUEUE_SIZE
  then Some (set_hot t (u32 (label_num_ t + 1)) (hot_queue_ t ++ [l]) (hot_list_ t))
  else None.

Definition read_from_mergeset t (l : Label) : option (list Z) := GetAndReadMergeSet (mergeset_postings_ t) l.

(** The pointer, or null. *)
Definition get t (l : Label) : option (option nat * ThmapPostings KM VM MS) :=
  match thmap_get (key_map_ t) (label l) with
  | None => Some (None, t)
  | Some value_map =>
    match find_posting t value_map (value l) with
    | Some p => Some (Some p, t)
    | None =>
      id_arr ← read_from_mergeset t l;
      match id_arr with
      | [] => Some (None, t)
      | _ =>
        let t := set_maps t (thmap_put (key_map_ t) (label l) value_map) (value_maps_ t) in
        let p := length (postings_ t) in
        t ← put_list t value_map (value l) (foldl cpl_insert new_list id_arr);
        t ← hot_push t l;
        Some (Some p, t)
      end
    end
  end.

(** The flag and the ids added to [listing]. *)
Definition get_and_read t (l : Label) : option (bool * list Z * ThmapPostings KM VM MS) :=
  match thmap_get (key_map_ t) (label l) with
  | None => Some (false, [], t)
  | Some value_map =>
    match find_posting t value_map (value l) with
    | None =>
      id_arr ← read_from_mergeset t l;
      Some (match id_arr with [] => false | _ => true end, id_arr, t)
    | Some p =>
      c ← list_at t p;
      listing ← expand_postings (v2_reset_cursor (posting_list_ c));
      t ← update_list t p (fun c => mkCPL (v2_reset_cursor (posting_list_ c)) (hot_value_ c));
      Some (true, listing, t)
    end
  end.

(** [while (hot_queue_.try_pop(l)) hot_list_.emplace_back(l, get(l)->hot_value_)] *)
Fixpoint drain (rounds : nat) t : option (ThmapPostings KM VM MS) :=
  match hot_queue_ t, rounds with
  | [], _ => Some t
  | _, O => None
  | l :: q, S rounds =>
    '(p, t) ← get (set_hot t (label_num_ t) q (hot_list_ t)) l;
    p ← p;
    c ← list_at t p;
    drain rounds (set_hot t (label_num_ t) (hot_queue_ t) (hot_list_ t ++ [(l, hot_value_ c)]))
  end.

(** A label that is read back from the merge set is pushed once more, and then
    found. *)
Definition drain_rounds t : nat := (2 * length (hot_queue_ t))%nat.

(** [add]: emptying the queue when it has grown; the list of the label. *)
Definition make_room t : option (ThmapPostings KM VM MS) :=
  if HOT_QUEUE_HALF <? Z.of_nat (length (hot_queue_ t)) then drain (drain_rounds t) t else Some t.

Definition add_to t (id : Z) (l : Label) : option (ThmapPostings KM VM MS) :=
  match thmap_get (key_map_ t) (label l) with
  | Some value_map =>
    match find_posting t value_map (value l) with
    | Some posting => update_list t posting (fun c => cpl_insert c id)
    | None =>
      let t := set_maps t (thmap_put (key_map_ t) (label l) value_map) (value_maps_ t) in
      t ← put_list t value_map (value l) (cpl_insert new_list id);
      hot_push t l
    end
  | None =>
    let value_map := length (value_maps_ t) in
    let t := set_maps t (thmap_put (key_map_ t) (label l) value_map) (value_maps_ t ++ [thmap_create]) in
    t ← put_list t value_map (value l) (cpl_insert new_list id);
    hot_push t l
  end.

Definition add t (id : Z) (l : Label) : option (ThmapPostings KM VM MS) := t ← make_room t; add_to t id l.

Fixpoint add_labels t (id : Z) (ls : Labels) : option (ThmapPostings KM VM MS) :=
  match ls with
  | [] => Some t
  | it :: ls => if str_eqb (label it) metric_name then add_labels t id ls else t ← add t id it; add_labels t id ls
  end.

Definition del t (id : Z) (l : Label) : option (ThmapPostings KM VM MS) :=
  match find_list t l with
  | None => Some t
  | Some p => update_list t p (fun c => mkCPL (v2_remove (posting_list_ c) id).2 (hot_value_ c))
  end.

(** [thmap_del(value_map, l.value)] *)
Definition del_value t (vm : nat) (value : str) : option (ThmapPostings KM VM MS) :=
  m ← value_maps_ t !! vm; Some (set_maps t (key_map_ t) (<[vm := thmap_del m value]> (value_maps_ t))).

Definition remove_postinglist t (l : Label) : option (bool * ThmapPostings KM VM MS) :=
  match thmap_get (key_map_ t) (label l) with
  | None => Some (false, t)
  | Some vm =>
    match find_posting t vm (value l) with
    | None => Some (false, t)
    | Some _ => t ← del_value t vm (value l); Some (true, t)
    end
  end.

(** ** Migration *)

Section Migrate.
(** [label_num_ * percent] as a [uint32_t], and [std::sort] with [cmp]. *)
Variable batch : Z -> Z.
Variable sort : list (Label * Z) -> list (Label * Z).

(** [hot_list_[i].second = get(hot_list_[i].first)->hot_value_] *)
Fixpoint refresh t (l : list (Label * Z)) : option (list (Label * Z) * ThmapPostings KM VM MS) :=
  match l with
  | [] => Some ([], t)
  | (lb, _) :: l =>
    '(p, t) ← get t lb;
    p ← p;
    c ← list_at t p;
    '(l, t) ← refresh t l;
    Some ((lb, hot_value_ c) :: l, t)
  end.

(** [mergeset_postings_.AddMergeSet(..., l, get(l))] for each of a list *)
Fixpoint save_all t (l : list (Label * Z)) : option (ThmapPostings KM VM MS) :=
  match l with
  | [] => Some t
  | (lb, _) :: l =>
    '(p, t) ← get t lb;
    p ← p;
    c ← list_at t p;
    m ← AddMergeSet (mergeset_postings_ t) lb c;
    save_all (set_mergeset t m) l
  end.

(** [delete posting; thmap_del(value_map, l.value)] for each of a list *)
Fixpoint delete_all t (l : list (Label * Z)) : option (ThmapPostings KM VM MS) :=
  match l with
  | [] => Some t
  | (lb, _) :: l =>
    vm ← thmap_get (key_map_ t) (label lb);
    let t := match find_posting t vm (value lb) with
             | Some p => set_postings t (<[p := None]> (postings_ t))
             | None => t
             end in
    t ← del_value t vm (value lb);
    delete_all t l
  end.

(** The entries from [hot_list_.size() - batch_size] on, a [uint32_t]. *)
Definition coldest (l : list (Label * Z)) (batch_size : Z) : list (Label * Z) :=
  drop (Z.to_nat (u32 (Z.of_nat (length l) - batch_size))) l.

Definition migrate t : option (Z * ThmapPostings KM VM MS) :=
  '(hl, t) ← refresh t (hot_list_ t);
  let t := set_hot t (label_num_ t) (hot_queue_ t) hl in
  let batch_size := u32 (batch (label_num_ t)) in
  t ← drain (drain_rounds t) t;
  let hl := sort (hot_list_ t) in
  let t := set_hot t (label_num_ t) (hot_queue_ t) hl in
  t ← save_all t (coldest hl batch_size);
  t ← delete_all t (coldest hl batch_size);
  let t := set_mergeset t (ms_compact (mergeset_postings_ t)) in
  Some (batch_size, set_hot t (label_num_ t) (hot_queue_ t) []).

End Migrate.

(** ** Selection in the tree head *)

(** [mem::TreeIntersectPostingsLists]: the loops of [IntersectPostings] over
    iterators of its own. *)
Definition TreeIntersectPostingsLists {P} (p : list P) : IntersectPostings P := mkIntersect p.

(** [TreeHead::postings] *)
Definition head_postings t (name value : str) : option (option VectorPostings * ThmapPostings KM VM MS) :=
  '(_, pls, t) ← get_and_read t (mkLabel name value);
  Some (match pls with [] => None | _ => Some (vector_postings pls) end, t).

(** The loop of [TreeHead::select]: the copies of the lists, or the early
    return. *)
Fixpoint select_lists t (ms : list Matcher) : option (option (list PrefixPostingsV2) * ThmapPostings KM VM MS) :=
  match ms with
  | [] => Some (Some [], t)
  | m :: ms =>
    if str_eqb (m_name m) metric_name then select_lists t ms
    else
      '(pl, t) ← get t (mkLabel (m_name m) (m_value m));
      match pl with
      | None => Some (None, t)
      | Some p =>
        c ← list_at t p;
        t ← update_list t p (fun c => mkCPL (v2_reset_cursor (posting_list_ c)) (hot_value_ c));
        '(rest, t) ← select_lists t ms;
        Some (match rest with Some ps => Some (v2_reset_cursor (posting_list_ c) :: ps) | None => None end, t)
      end
  end.

Definition select t (ms : list Matcher) : option ((EmptyPostings + VectorPostings) * ThmapPostings KM VM MS) :=
  match ms with
  | [] => Some (inl empty_postings, t)
  | _ =>
    '(lists, t) ← select_lists t ms;
    match lists with
    | None => Some (inl empty_postings, t)
    | Some [] => Some (inr (vector_postings []), t)
    | Some lists => v ← expand_postings (TreeIntersectPostingsLists lists); Some (inr (vector_postings v), t)
    end
  end.

End Index.

(** ** The index as a map from labels to lists *)

Section Lists.
Context `{PE : PastEnd} `{TK : Thmap str nat KM} `{TKL : !ThmapLaws str nat KM}.
Context `{TV : Thmap str nat VM} `{TVL : !ThmapLaws str nat VM}.
Context `{MG : MergeSet MS}.
Implicit Type t : ThmapPostings KM VM MS.

(** The list of a label. *)
Definition lists t (l : Label) : option ConcurrencyPostingList := p ← find_list t l; list_at t p.

(** No two names share a map of values, no two labels a list. *)
Record maps_ok t : Prop := {
  ok_value_maps n vm : thmap_get (key_map_ t) n = Some vm -> is_Some (value_maps_ t !! vm);
  ok_names n n' vm : thmap_get (key_map_ t) n = Some vm -> thmap_get (key_map_ t) n' = Some vm -> n = n';
  ok_lists l p : find_list t l = Some p -> is_Some (list_at t p);
  ok_apart l l' p : find_list t l = Some p -> find_list t l' = Some p -> l = l' }.

Lemma find_list_lists t l : maps_ok t -> is_Some (lists t l) <-> is_Some (find_list t l).
Proof.
  intros Hm. unfold lists. destruct (find_list t l) as [p|] eqn:E; simpl; [|by split; intros [? ?]].
  split; [done|]. intros _. by eapply ok_lists.
Qed.

Lemma list_at_set t ps p : list_at (set_postings t ps) p = mjoin (ps !! p).
Proof. done. Qed.

Lemma list_at_bound t p c : list_at t p = Some c -> postings_ t !! p = Some (Some c).
Proof. unfold list_at. destruct (postings_ t !! p) as [[]|]; simpl; congruence. Qed.

(** Changing the list of a label. *)
Lemma update_lists t l p f :
  maps_ok t -> find_list t l = Some p ->
  exists t' c, lists t l = Some c /\ update_list t p f = Some t' /\ t' = set_postings t (<[p := Some (f c)]> (postings_ t)) /\
    maps_ok t' /\ forall l', lists t' l' = if decide (l' = l) then Some (f c) else lists t l'.
Proof.
  intros Hm El. destruct (ok_lists t Hm l p El) as [c Ec]. pose proof (list_at_bound t p c Ec) as Hb.
  eexists _, c. unfold lists at 1, update_list. rewrite El. simpl. rewrite Ec. simpl. split_and!; [done..| |].
  - pose proof Hm as [H1 H2 H3 H4]. split; [done..| |done]. intros l' q Eq. unfold list_at. simpl.
    destruct (decide (q = p)) as [->|Hne].
    + rewrite list_lookup_insert_eq by (by eapply lookup_lt_Some). by eexists.
    + rewrite list_lookup_insert_ne by done. by apply (H3 l').
  - intros l'. unfold lists. change (find_list (set_postings _ _) l') with (find_list t l').
    destruct (find_list t l') as [q|] eqn:Eq; simpl; [|case_decide; [congruence|done]].
    rewrite list_at_set. destruct (decide (l' = l)) as [->|Hne].
    + rewrite El in Eq. injection Eq as ->. by rewrite list_lookup_insert_eq by (by eapply lookup_lt_Some).
    + rewrite list_lookup_insert_ne; [done|]. intros ->. apply Hne. by eapply ok_apart.
Qed.

(** Adding the list of a label whose name is there. *)
Lemma put_lists t l vm c :
  maps_ok t -> thmap_get (key_map_ t) (label l) = Some vm -> find_posting t vm (value l) = None ->
  exists t', put_list t vm (value l) c = Some t' /\ maps_ok t' /\
    (forall l', find_list t' l' = if decide (l' = l) then Some (length (postings_ t)) else find_list t l') /\
    key_map_ t' = key_map_ t /\ label_num_ t' = label_num_ t /\ hot_queue_ t' = hot_queue_ t /\ hot_list_ t' = hot_list_ t /\
    mergeset_postings_ t' = mergeset_postings_ t /\
    forall l', lists t' l' = if decide (l' = l) then Some c else lists t l'.
Proof.
  intros Hm Ek Ef. destruct (ok_value_maps t Hm _ _ Ek) as [m Em]. unfold find_posting in Ef. rewrite Em in Ef. simpl in Ef.
  unfold put_list. rewrite Em. simpl. eexists. split; [done|].
  set (t' := set_maps _ _ _). pose proof (lookup_lt_Some _ _ _ Em) as Hvm.
  assert (Hf : forall l', find_list t' l' = if decide (l' = l) then Some (length (postings_ t)) else find_list t l').
  { intros l'. unfold find_list, t'. simpl. destruct (thmap_get (key_map_ t) (label l')) as [vm'|] eqn:Ek'; simpl.
    2:{ case_decide; [subst; congruence|done]. }
    unfold find_posting. simpl. destruct (decide (vm' = vm)) as [->|Hne].
    - rewrite list_lookup_insert_eq by done. rewrite Em. simpl. rewrite get_put, Ef. simpl.
      pose proof (ok_names t Hm _ _ _ Ek Ek') as Hn. destruct l as [n v], l' as [n' v']. simpl in *. subst n'.
      case_decide; case_decide; congruence.
    - rewrite list_lookup_insert_ne by done. case_decide; [|done]. subst. congruence. }
  assert (Ha : forall p, p <> length (postings_ t) -> list_at t' p = list_at t p).
  { intros p Hp. unfold list_at, t'. simpl. destruct (decide (p < length (postings_ t))%nat).
    - by rewrite lookup_app_l.
    - rewrite !lookup_ge_None_2; [done|lia|rewrite length_app; simpl; lia]. }
  assert (Hlt : forall l' p, find_list t l' = Some p -> p <> length (postings_ t)).
  { intros l' p Hp ->. destruct (ok_lists t Hm _ _ Hp) as [c' Hc]. unfold list_at in Hc.
    by rewrite lookup_ge_None_2 in Hc. }
  assert (Hn : list_at t' (length (postings_ t)) = Some c) by (unfold list_at, t'; simpl; by rewrite list_lookup_middle).
  split_and!; [|exact Hf|done..|].
  - split.
    + intros n vm' Hn'. unfold t'. simpl. apply lookup_lt_is_Some_2. rewrite length_insert.
      apply lookup_lt_is_Some_1. by eapply ok_value_maps.
    + apply Hm.
    + intros l' p. rewrite Hf. case_decide; [intros [= <-]; rewrite Hn; by eexists|]. intros Hp.
      rewrite Ha by (by eapply Hlt). by eapply ok_lists.
    + intros l1 l2 p. rewrite !Hf. do 2 case_decide; subst; try done.
      * intros [= <-] Hp. by apply Hlt in Hp.
      * intros Hp [= <-]. by apply Hlt in Hp.
      * apply ok_apart. done.
  - intros l'. unfold lists. rewrite Hf. case_decide; [done|]. destruct (find_list t l') as [p|] eqn:Ep; [|done]. simpl.
    apply Ha. by eapply Hlt.
Qed.

(** A new name with its map of values. *)
Lemma name_lists t l :
  maps_ok t -> thmap_get (key_map_ t) (label l) = None ->
  let vm := length (value_maps_ t) in
  let t' := set_maps t (thmap_put (key_map_ t) (label l) vm) (value_maps_ t ++ [thmap_create]) in
  maps_ok t' /\ thmap_get (key_map_ t') (label l) = Some vm /\ find_posting t' vm (value l) = None /\
  forall l', lists t' l' = lists t l'.
Proof.
  intros Hm Ek vm t'.
  assert (Hg : forall n, thmap_get (key_map_ t') n = if decide (n = label l) then Some vm else thmap_get (key_map_ t) n).
  { intros n. unfold t'. simpl. rewrite get_put, Ek. done. }
  assert (Hv : forall i, i <> vm -> value_maps_ t' !! i = value_maps_ t !! i).
  { intros i Hi. unfold t'. simpl. destruct (decide (i < vm)%nat).
    - by rewrite lookup_app_l.
    - rewrite !lookup_ge_None_2; [done|unfold vm in *; lia|rewrite length_app; simpl; unfold vm in *; lia]. }
  assert (Hnew : value_maps_ t' !! vm = Some thmap_create) by (unfold t', vm; simpl; by rewrite list_lookup_middle).
  assert (Hold : forall n i, thmap_get (key_map_ t) n = Some i -> i <> vm).
  { intros n i Hi ->. destruct (ok_value_maps t Hm _ _ Hi) as [m Hx]. unfold vm in Hx. by rewrite lookup_ge_None_2 in Hx. }
  assert (Hf : forall l', find_list t' l' = find_list t l').
  { intros l'. unfold find_list. rewrite Hg. case_decide as E; simpl.
    - rewrite E, Ek. unfold find_posting. rewrite Hnew. simpl. by rewrite get_create.
    - destruct (thmap_get (key_map_ t) (label l')) as [i|] eqn:Ei; [|done]. simpl. unfold find_posting.
      by rewrite Hv by (by eapply Hold). }
  split_and!; [|by rewrite Hg, decide_True|unfold find_posting; rewrite Hnew; apply get_create|].
  - split.
    + intros n i. rewrite Hg. case_decide; [intros [= <-]; by rewrite Hnew|]. intros Hi.
      rewrite Hv by (by eapply Hold). by eapply ok_value_maps.
    + intros n n' i. rewrite !Hg. do 2 case_decide; subst; try done.
      * intros [= <-] Hi. by apply Hold in Hi.
      * intros Hi [= <-]. by apply Hold in Hi.
      * apply ok_names. done.
    + intros l' p. rewrite Hf. apply ok_lists. done.
    + intros l1 l2 p. rewrite !Hf. apply ok_apart. done.
  - intros l'. unfold lists. by rewrite Hf.
Qed.

End Lists.

(** ** Lists on disk *)

Section Disk.
Context `{PE : PastEnd} `{MG : MergeSet MS} `{ML : !MergeSetLaws MS}.

(** The value [AddMergeSet] writes for the ids [X]. *)
Definition stored (n : Z) (X : list Z) : str := foldl PutFixed64 (PutFixed32 [] n) X.

Lemma stored_bytes n X : stored n X = le_bytes 4 n ++ (X ≫= le_bytes 8).
Proof.
  unfold stored, PutFixed32. rewrite EncodeFixed32_le. simpl ([] ++ _). generalize (le_bytes 4 n).
  induction X as [|x X IH]; intros acc; simpl; [by rewrite app_nil_r|].
  rewrite IH. unfold PutFixed64. by rewrite EncodeFixed64_le, <- app_assoc.
Qed.

Lemma read_ids_back X rest : Forall (is_u 64) X -> read_ids (length X) ((X ≫= le_bytes 8) ++ rest) = Some X.
Proof.
  induction 1 as [|x X Hx _ IH]; [done|]. cbn [length read_ids]. rewrite bind_cons, <- app_assoc, GetFixed64_spec.
  cbn [mbind option_bind]. rewrite IH. simpl.
  unfold u64. by rewrite wrap_id.
Qed.

(** What is read for a label is what its key holds. *)
Lemma read_merge m l :
  GetAndReadMergeSet m l = match ms_value m (merge_key l) with
                           | None => Some []
                           | Some val => '(n, val) ← GetFixed32 val; read_ids (Z.to_nat n) val
                           end.
Proof.
  unfold GetAndReadMergeSet, ms_value. pose proof (seek_sorted m (merge_key l)) as Hs.
  destruct (ms_seek m (merge_key l)) as [|[k val] r]; [done|]. simpl. case_decide as Ek; [|done].
  assert (Hr : read_entries (merge_key l) r = Some []).
  { apply StronglySorted_inv in Hs as [_ Hk]. destruct r as [|[k' val'] r]; [done|]. simpl.
    apply Forall_cons in Hk as [Hk _]. simpl in Hk. rewrite decide_False; [done|]. intros ->.
    subst k. by rewrite bytes_ltb_irrefl in Hk. }
  destruct (GetFixed32 val) as [[n v]|]; [|done]. simpl. destruct (read_ids (Z.to_nat n) v) as [a|]; [|done]. simpl.
  rewrite Hr. simpl. by rewrite app_nil_r.
Qed.

Lemma read_stored m l n X :
  ms_value m (merge_key l) = Some (stored n X) -> n = Z.of_nat (length X) -> n < 2 ^ 32 -> Forall (is_u 64) X ->
  GetAndReadMergeSet m l = Some X.
Proof.
  intros Em -> Hn HX. rewrite read_merge, Em, stored_bytes, GetFixed32_spec. simpl.
  unfold u32. rewrite wrap_id by (unfold is_u; lia). rewrite Nat2Z.id.
  rewrite <- (app_nil_r (X ≫= le_bytes 8)). by apply read_ids_back.
Qed.

End Disk.

(** ** Filling a list *)

Lemma v2_ids_u64 p : v2_ok p -> Forall (is_u 64) (v2_ids p).
Proof.
  intros Hp. apply Forall_forall. intros z (b & Hb & Hz)%ids_elem. destruct (ok_blocks p Hp) as [_ Hf].
  rewrite Forall_forall in Hf. specialize (Hf b Hb). apply (block_elem 16) in Hz; [|done].
  destruct Hf as (Hu & Hm & _). apply Z.mod_divide in Hm as [y Ey]; [|lia]. unfold is_u in *. lia.
Qed.

Lemma fits_late p id : v2_ok p -> (forall z, z ∈ v2_ids p -> high 16 z <= high 16 id) -> fits p id.
Proof.
  intros Hp Hz. destruct (decide (high 16 id ∈ v2_block_prefixes p)) as [|Hn]; [by left|]. right.
  apply Forall_forall. intros pre Hin. pose proof Hin as (x & Hx & <-)%v2_prefix_elem; [|done].
  specialize (Hz x Hx). assert (high 16 x <> high 16 id) by (intros E; by rewrite E in Hin). lia.
Qed.

Lemma high_le a b : a <= b -> high 16 a <= high 16 b.
Proof. intros Hab. destruct (Z.lt_ge_cases (high 16 b) (high 16 a)) as [Hlt|]; [|done]. apply high_lt in Hlt; lia. Qed.

Lemma set_insert_last l x : asc (l ++ [x]) -> set_insert x l = l ++ [x].
Proof.
  intros Ha. assert (Hl : asc l) by (destruct Ha as [Hs Hf]; split; [by eapply StronglySorted_app_1_l|by apply Forall_app in Hf as [? _]]).
  apply asc_unique; [|done|].
  - apply set_insert_asc; [|done]. destruct Ha as [_ Hf]. apply Forall_app in Hf as [_ [? _]%Forall_cons]. done.
  - intros z. rewrite set_insert_elem, elem_of_app, list_elem_of_singleton by done. tauto.
Qed.

Lemma cpl_inserts X : forall c,
  v2_ok (posting_list_ c) -> asc (v2_ids (posting_list_ c) ++ X) -> Forall (is_u 64) X ->
  v2_ok (posting_list_ (foldl cpl_insert c X)) /\
  v2_ids (posting_list_ (foldl cpl_insert c X)) = v2_ids (posting_list_ c) ++ X.
Proof.
  induction X as [|x X IH]; intros c Hc Ha Hu; simpl; [by rewrite app_nil_r|].
  apply Forall_cons in Hu as [Hx Hu]. replace (v2_ids (posting_list_ c) ++ x :: X)
    with ((v2_ids (posting_list_ c) ++ [x]) ++ X) in * by by rewrite <- app_assoc.
  assert (Ha1 : asc (v2_ids (posting_list_ c) ++ [x])).
  { destruct Ha as [Hs Hf]; split; [by eapply StronglySorted_app_1_l|by apply Forall_app in Hf as [? _]]. }
  assert (Hfit : fits (posting_list_ c) x).
  { apply fits_late; [done|]. intros z Hz. apply high_le. destruct Ha1 as [Hs _].
    assert (z < x); [|lia]. eapply StronglySorted_app_1_elem_of; [exact Hs|done|by left]. }
  destruct (v2_insert_ok (posting_list_ c) x Hc Hx Hfit) as [Hok E]. rewrite set_insert_last in E by done.
  destruct (IH (cpl_insert c x)) as [H1 H2]; simpl in *; [done|by rewrite E|done|].
  split; [done|]. by rewrite H2, E.
Qed.

(** ** What the index holds *)

Section Holds.
Context `{PE : PastEnd} `{TK : Thmap str nat KM} `{TKL : !ThmapLaws str nat KM}.
Context `{TV : Thmap str nat VM} `{TVL : !ThmapLaws str nat VM}.
Context `{MG : MergeSet MS} `{ML : !MergeSetLaws MS}.
Implicit Type t : ThmapPostings KM VM MS.
Implicit Type H : list (Z * Label).

Definition known t (n : str) : Prop := is_Some (thmap_get (key_map_ t) n).

(** The index holds the pairs [H] of an id and a label, in lists in memory and
    in the merge set; the labels it counts have a list in memory. *)
Record holds t H : Prop := {
  h_maps : maps_ok t;
  h_memory l c : lists t l = Some c ->
    v2_ok (posting_list_ c) /\ forall z, z ∈ v2_ids (posting_list_ c) <-> (z, l) ∈ H;
  h_disk l : lists t l = None -> known t (label l) ->
    exists X, read_from_mergeset t l = Some X /\ asc X /\ Forall (is_u 64) X /\ forall z, z ∈ X <-> (z, l) ∈ H;
  h_known z l : (z, l) ∈ H -> known t (label l);
  h_hot l : l ∈ hot_queue_ t ++ (hot_list_ t).*1 -> is_Some (lists t l) }.

(** A list of [l] with the ids of [H]. *)
Definition list_of H l c : Prop :=
  v2_ok (posting_list_ c) /\ forall z, z ∈ v2_ids (posting_list_ c) <-> (z, l) ∈ H.

(** Putting the name of a label again changes nothing. *)
Lemma put_again t l vm :
  thmap_get (key_map_ t) (label l) = Some vm ->
  let t' := set_maps t (thmap_put (key_map_ t) (label l) vm) (value_maps_ t) in
  (forall n, thmap_get (key_map_ t') n = thmap_get (key_map_ t) n) /\ (forall l', find_list t' l' = find_list t l').
Proof.
  intros Ek t'. assert (Hg : forall n, thmap_get (key_map_ t') n = thmap_get (key_map_ t) n).
  { intros n. unfold t'. simpl. rewrite get_put, Ek. case_decide; [by subst|done]. }
  split; [done|]. intros l'. unfold find_list. by rewrite Hg.
Qed.

Lemma put_again_ok t l vm :
  thmap_get (key_map_ t) (label l) = Some vm -> maps_ok t ->
  maps_ok (set_maps t (thmap_put (key_map_ t) (label l) vm) (value_maps_ t)).
Proof.
  intros Ek [H1 H2 H3 H4]. destruct (put_again t l vm Ek) as [Hg Hf]. split.
  - intros n i. rewrite Hg. apply H1.
  - intros n n' i. rewrite !Hg. apply H2.
  - intros l' p. rewrite Hf. apply H3.
  - intros l1 l2 p. rewrite !Hf. apply H4.
Qed.

(** A new list for a label that has none in memory, with room in the queue. *)
Lemma put_push t l vm c :
  maps_ok t -> thmap_get (key_map_ t) (label l) = Some vm -> find_posting t vm (value l) = None ->
  Z.of_nat (length (hot_queue_ t)) < HOT_QUEUE_SIZE ->
  exists t', (t1 ← put_list t vm (value l) c; hot_push t1 l) = Some t' /\
    maps_ok t' /\ find_list t' l = Some (length (postings_ t)) /\
    (forall l', lists t' l' = if decide (l' = l) then Some c else lists t l') /\ key_map_ t' = key_map_ t /\
    hot_queue_ t' = hot_queue_ t ++ [l] /\ hot_list_ t' = hot_list_ t /\ mergeset_postings_ t' = mergeset_postings_ t.
Proof.
  intros Hm Ek Hn Hq. destruct (put_lists t l vm c Hm Ek Hn) as (t1 & -> & Hm1 & Hf1 & Ek1 & En & Eq1 & Eh1 & Em1 & Hl1).
  simpl. unfold hot_push. rewrite Eq1, (proj2 (Z.ltb_lt _ _) Hq). eexists. split_and!; [done| |transitivity (find_list t1 l); [done|by rewrite Hf1, decide_True]|exact Hl1|done|done|done|done].
  destruct Hm1 as [a1 a2 a3 a4]. split; [exact a1|exact a2|exact a3|exact a4].
Qed.

Lemma get_memory t l c :
  lists t l = Some c -> exists p, get t l = Some (Some p, t) /\ find_list t l = Some p /\ list_at t p = Some c.
Proof.
  unfold lists, get, find_list. destruct (thmap_get (key_map_ t) (label l)) as [vm|]; [|done]. simpl.
  destruct (find_posting t vm (value l)) as [p|]; [|done]. simpl. intros E. by exists p.
Qed.

(** A label without a list in memory, whose name is known. *)
Lemma lists_none t l vm :
  maps_ok t -> lists t l = None -> thmap_get (key_map_ t) (label l) = Some vm -> find_posting t vm (value l) = None.
Proof.
  intros Hm Hl Ek. destruct (find_posting t vm (value l)) as [p|] eqn:E; [|done]. exfalso.
  assert (Ef : find_list t l = Some p) by (unfold find_list; rewrite Ek; done).
  destruct (ok_lists t Hm l p Ef) as [c Ec]. unfold lists in Hl. rewrite Ef in Hl. simpl in Hl. congruence.
Qed.

(** The labels of the queue have a list: emptying it only moves them to
    [hot_list_]. *)
Lemma drain_spec H rounds : forall t,
  holds t H -> (length (hot_queue_ t) <= rounds)%nat ->
  exists hl, drain rounds t = Some (set_hot t (label_num_ t) [] (hot_list_ t ++ hl)) /\ hl.*1 = hot_queue_ t.
Proof.
  induction rounds as [|rounds IH]; intros t Ht Hr.
  - destruct t as [km vms ps n [|l q] hl m]; [|simpl in Hr; lia]. exists []. split; [|done].
    unfold set_hot. simpl. by rewrite app_nil_r.
  - destruct (hot_queue_ t) as [|l q] eqn:Eq.
    { exists []. split; [|done]. cbn [drain]. rewrite Eq. f_equal. destruct t; simpl in *; subst. unfold set_hot. simpl.
      by rewrite app_nil_r. }
    cbn [drain]. rewrite Eq. set (t1 := set_hot t (label_num_ t) q (hot_list_ t)).
    destruct (h_hot t H Ht l) as [c Ec]; [rewrite Eq; by left|].
    destruct (get_memory t1 l c Ec) as (p & -> & _ & Ep). simpl. rewrite Ep. simpl.
    set (t2 := set_hot t1 _ _ _). assert (Ht2 : holds t2 H).
    { destruct Ht as [H1 H2 H3 H4 H5]. split; [|exact H2|exact H3|exact H4|].
      - destruct H1 as [a1 a2 a3 a4]. split; [exact a1|exact a2|exact a3|exact a4].
      - intros l' Hl'. apply (H5 l'). unfold t2 in Hl'. simpl in Hl'. rewrite Eq, fmap_app in *. simpl in *.
        rewrite elem_of_app, elem_of_app, list_elem_of_singleton in Hl'. rewrite elem_of_cons, elem_of_app. tauto. }
    destruct (IH t2 Ht2) as (hl & E & Ehl); [simpl; simpl in Hr; lia|].
    exists ((l, hot_value_ c) :: hl). split; [|rewrite fmap_cons, Ehl; done].
    rewrite E. unfold t2, t1, set_hot. simpl. by rewrite <- app_assoc.
Qed.

Lemma holds_set_hot t H n q hl :
  holds t H -> (forall l, l ∈ q ++ hl.*1 -> is_Some (lists t l)) -> holds (set_hot t n q hl) H.
Proof.
  intros [[a1 a2 a3 a4] H2 H3 H4 _] Hh. split; [|exact H2|exact H3|exact H4|exact Hh].
  split; [exact a1|exact a2|exact a3|exact a4].
Qed.

(** [id] goes to a block of the list of [l] that is there, or behind all. *)
Definition late H (id : Z) (l : Label) : Prop :=
  (exists z, (z, l) ∈ H /\ high 16 z = high 16 id) \/ (forall z, (z, l) ∈ H -> high 16 z < high 16 id).

Lemma late_fits H id l c : list_of H l c -> late H id l -> fits (posting_list_ c) id.
Proof.
  intros [Hok Hz] [(z & Hin & E)|Hall]; [left|right].
  - apply v2_prefix_elem; [done|]. exists z. by rewrite Hz.
  - apply Forall_forall. intros pre (x & Hx & <-)%v2_prefix_elem; [|done]. apply Hall. by apply Hz.
Qed.

Lemma list_of_insert H id l c :
  list_of H l c -> is_u64 id -> late H id l -> list_of (H ++ [(id, l)]) l (cpl_insert c id).
Proof.
  intros Hl Hid Hlate. pose proof (late_fits H id l c Hl Hlate) as Hf. destruct Hl as [Hok Hz].
  destruct (v2_insert_ok (posting_list_ c) id Hok Hid Hf) as [Hok' E]. split; [done|]. intros z. simpl.
  rewrite E, set_insert_elem by (by apply v2_asc). rewrite Hz, elem_of_app, list_elem_of_singleton.
  split; [intros [->|?]; tauto|]. intros [?|[= ->]]; tauto.
Qed.

Lemma list_of_new H id l :
  (forall z, (z, l) ∉ H) -> is_u64 id -> list_of (H ++ [(id, l)]) l (cpl_insert new_list id).
Proof.
  intros Hn Hid. apply list_of_insert; [|done|].
  - split; [apply v2_new_ok|]. intros z. simpl. split; [by intros ?%elem_of_nil|]. by intros ?%Hn.
  - right. by intros z ?%Hn.
Qed.

Lemma other_pairs H id l l' z : l' <> l -> (z, l') ∈ H ++ [(id, l)] <-> (z, l') ∈ H.
Proof. intros Hne. rewrite elem_of_app, list_elem_of_singleton. split; [|tauto]. intros [?|[= -> ->]]; done. Qed.


(** The index after a list was put at [l]. *)
Lemma holds_put t t' H H' l c :
  holds t H -> maps_ok t' -> (forall l', lists t' l' = if decide (l' = l) then Some c else lists t l') ->
  mergeset_postings_ t' = mergeset_postings_ t ->
  list_of H' l c -> (forall l' z, l' <> l -> (z, l') ∈ H' <-> (z, l') ∈ H) ->
  (forall n, known t' n <-> known t n \/ n = label l) ->
  (known t (label l) \/ forall v, read_from_mergeset t (mkLabel (label l) v) = Some []) ->
  (forall l', l' ∈ hot_queue_ t' ++ (hot_list_ t').*1 -> l' = l \/ l' ∈ hot_queue_ t ++ (hot_list_ t).*1) ->
  holds t' H'.
Proof.
  intros Ht Hm Hl Em Hc Ho Hk Hclean Hh. split; [done| | | |].
  - intros l' c'. rewrite Hl. case_decide as E; [subst; by intros [= <-]|]. intros Hl'.
    destruct (h_memory t H Ht l' c' Hl') as [? Hz]. split; [done|]. intros z. rewrite Hz. symmetry. by apply Ho.
  - intros l'. rewrite Hl. case_decide as E; [done|]. intros Hl' Hk'. unfold read_from_mergeset. rewrite Em.
    destruct (decide (is_Some (thmap_get (key_map_ t) (label l')))) as [Hkn|Hkn].
    + destruct (h_disk t H Ht l' Hl' Hkn) as (X & E1 & E2 & E3 & E4). exists X. split_and!; [done..|].
      intros z. rewrite E4. symmetry. by apply Ho.
    + apply Hk in Hk' as [?|En]; [done|]. destruct Hclean as [?|Hclean]; [by rewrite En in Hkn|].
      exists []. split_and!; [|apply asc_nil|constructor|].
      * rewrite <- (Hclean (value l')). unfold read_from_mergeset. f_equal. destruct l'. simpl in *. by subst.
      * intros z. split; [by intros ?%elem_of_nil|]. intros Hin. apply (Ho l' z E) in Hin.
        by apply (h_known t H Ht) in Hin.
  - intros z l' Hin. apply Hk. destruct (decide (l' = l)) as [->|Hne]; [by right|]. left.
    eapply (h_known t H Ht). apply (Ho l' z Hne). exact Hin.
  - intros l' Hin. rewrite Hl. case_decide; [done|]. apply (h_hot t H Ht). by destruct (Hh l' Hin).
Qed.

(** What [add] needs of a label: its ids are not on disk only, and a name that
    is new finds nothing there either. *)
Definition addable t H (id : Z) (l : Label) : Prop :=
  is_u64 id /\ late H id l /\ (lists t l = None -> forall z, (z, l) ∉ H) /\
  (known t (label l) \/ forall v, read_from_mergeset t (mkLabel (label l) v) = Some []).

Lemma add_to_spec t H id l :
  holds t H -> addable t H id l -> Z.of_nat (length (hot_queue_ t)) < HOT_QUEUE_SIZE ->
  exists t', add_to t id l = Some t' /\ holds t' (H ++ [(id, l)]) /\ mergeset_postings_ t' = mergeset_postings_ t /\
    (length (hot_queue_ t') <= S (length (hot_queue_ t)))%nat /\
    (forall l', is_Some (lists t' l') <-> is_Some (lists t l') \/ l' = l) /\
    (forall n, known t' n <-> known t n \/ n = label l).
Proof.
  intros Ht (Hid & Hlate & Hdisk & Hclean) Hq. pose proof (h_maps t H Ht) as Hm. unfold add_to.
  assert (Hlst : forall t' c, (forall l', lists t' l' = if decide (l' = l) then Some c else lists t l') ->
    forall l', is_Some (lists t' l') <-> is_Some (lists t l') \/ l' = l).
  { intros t' c Hl' l'. rewrite Hl'. case_decide; [split; [by right|by eexists]|]. tauto. }
  destruct (thmap_get (key_map_ t) (label l)) as [vm|] eqn:Ek.
  - assert (Hkl : known t (label l)) by by eexists.
    assert (Hkn : forall n, known t n <-> known t n \/ n = label l) by (intros n; split; [tauto|intros [?| ->]; done]).
    destruct (find_posting t vm (value l)) as [p|] eqn:Ep.
    + assert (Ef : find_list t l = Some p) by (unfold find_list; by rewrite Ek).
      destruct (update_lists t l p (fun c => cpl_insert c id) Hm Ef) as (t' & c & Ec & -> & -> & Hm' & Hl').
      eexists. split; [done|]. split_and!; [|done|simpl; lia|by eapply Hlst|exact Hkn].
      apply (holds_put t _ H _ l (cpl_insert c id)); [done..| | |exact Hkn|done|].
      * apply list_of_insert; [|done..]. by apply (h_memory t H Ht).
      * intros l' z Hne. by apply other_pairs.
      * intros l' Hin. by right.
    + assert (El : lists t l = None) by (unfold lists, find_list; rewrite Ek; simpl; by rewrite Ep).
      destruct (put_again t l vm Ek) as [Hg Hf]. set (t0 := set_maps t _ _) in *.
      destruct (put_push t0 l vm (cpl_insert new_list id)) as (t' & -> & Hm' & _ & Hl' & Ek' & Eq & Eh & Em);
        [by apply put_again_ok|by rewrite Hg|exact Ep|exact Hq|].
      assert (Hl0 : forall l', lists t' l' = if decide (l' = l) then Some (cpl_insert new_list id) else lists t l').
      { intros l'. rewrite Hl'. case_decide; [done|]. unfold lists. by rewrite Hf. }
      assert (Hkn' : forall n, known t' n <-> known t n \/ n = label l).
      { intros n. unfold known. rewrite Ek', Hg. apply Hkn. }
      exists t'. split; [done|]. split_and!; [|done|rewrite Eq, length_app; simpl; lia|by eapply Hlst|exact Hkn'].
      apply (holds_put t t' H _ l (cpl_insert new_list id)); [done..| | |done|done|].
      * apply list_of_new; [by apply Hdisk|done].
      * intros l' z Hne. by apply other_pairs.
      * intros l'. rewrite Eq, Eh. change (hot_queue_ t0) with (hot_queue_ t). change (hot_list_ t0) with (hot_list_ t).
        rewrite !elem_of_app, list_elem_of_singleton. tauto.
  - destruct (name_lists t l Hm Ek) as (Hm0 & Ek0 & Hf0 & Hl0). set (t0 := set_maps t _ _) in *.
    destruct (put_push t0 l (length (value_maps_ t)) (cpl_insert new_list id)) as (t' & -> & Hm' & _ & Hl' & Ek' & Eq & Eh & Em);
      [done..|exact Hq|].
    assert (Hl1 : forall l', lists t' l' = if decide (l' = l) then Some (cpl_insert new_list id) else lists t l').
    { intros l'. rewrite Hl', Hl0. done. }
    assert (Hkn' : forall n, known t' n <-> known t n \/ n = label l).
    { intros n. unfold known. rewrite Ek'. unfold t0. simpl. rewrite get_put, Ek. case_decide; [split; [by right|by eexists]|]. tauto. }
    exists t'. split; [done|]. split_and!; [|done|rewrite Eq, length_app; simpl; lia|by eapply Hlst|exact Hkn'].
    apply (holds_put t t' H _ l (cpl_insert new_list id)); [done..| | |done|done|].
    + apply list_of_new; [|done]. intros z Hin%(h_known t H Ht). unfold known in Hin. rewrite Ek in Hin. by destruct Hin.
    + intros l' z Hne. by apply other_pairs.
    + intros l'. rewrite Eq, Eh. change (hot_queue_ t0) with (hot_queue_ t). change (hot_list_ t0) with (hot_list_ t).
      rewrite !elem_of_app, list_elem_of_singleton. tauto.
Qed.


(** The queue stays short: at most one label more than where it is emptied. *)
Definition queue_short t : Prop := Z.of_nat (length (hot_queue_ t)) <= HOT_QUEUE_HALF + 1.

Lemma make_room_spec t H :
  holds t H -> exists t', make_room t = Some t' /\ holds t' H /\ Z.of_nat (length (hot_queue_ t')) <= HOT_QUEUE_HALF /\
    mergeset_postings_ t' = mergeset_postings_ t /\ key_map_ t' = key_map_ t /\ forall l, lists t' l = lists t l.
Proof.
  intros Ht. unfold make_room. destruct (Z.ltb_spec HOT_QUEUE_HALF (Z.of_nat (length (hot_queue_ t)))) as [_|Hle].
  2:{ by exists t. }
  destruct (drain_spec H (drain_rounds t) t Ht) as (hl & -> & Ehl); [unfold drain_rounds; lia|].
  eexists. split; [done|]. split_and!; [|done..]. apply holds_set_hot; [done|]. intros l Hl. apply (h_hot t H Ht).
  rewrite fmap_app, Ehl in Hl. simpl in Hl. rewrite elem_of_app in Hl |- *. tauto.
Qed.

Lemma add_spec t H id l :
  holds t H -> addable t H id l ->
  exists t', add t id l = Some t' /\ holds t' (H ++ [(id, l)]) /\ queue_short t' /\
    mergeset_postings_ t' = mergeset_postings_ t /\
    (forall l', is_Some (lists t' l') <-> is_Some (lists t l') \/ l' = l) /\
    (forall n, known t' n <-> known t n \/ n = label l).
Proof.
  intros Ht (Hid & Hlate & Hdisk & Hclean). destruct (make_room_spec t H Ht) as (t1 & E1 & Ht1 & Hq & Em & Ek & Hl).
  unfold add. rewrite E1. simpl. assert (Hk : forall n, known t1 n <-> known t n) by (intros n; unfold known; by rewrite Ek).
  assert (Hr : forall l', read_from_mergeset t1 l' = read_from_mergeset t l') by (intros l'; unfold read_from_mergeset; by rewrite Em).
  destruct (add_to_spec t1 H id l Ht1) as (t' & E & Ht' & Em' & Hq' & Hl' & Hk').
  - split_and!; [done..| |].
    + rewrite Hl. exact Hdisk.
    + rewrite Hk. destruct Hclean as [?|Hc]; [by left|]. right. intros v. by rewrite Hr.
  - change HOT_QUEUE_SIZE with 65536. change HOT_QUEUE_HALF with 256 in Hq. lia.
  - exists t'. split_and!; [done|done|unfold queue_short; lia|congruence| |].
    + intros l'. rewrite Hl', Hl. done.
    + intros n. by rewrite Hk', Hk.
Qed.

(** The pairs of a series. *)
Definition pairs_of (id : Z) (ls : list Label) : list (Z * Label) :=
  (fun l => (id, l)) <$> filter (fun l => label l <> metric_name) ls.

Lemma pairs_elem id ls z l : (z, l) ∈ pairs_of id ls <-> z = id /\ l ∈ ls /\ label l <> metric_name.
Proof.
  unfold pairs_of. rewrite list_elem_of_fmap. split.
  - intros (l' & [= -> ->] & [? ?]%list_elem_of_filter). done.
  - intros (-> & ? & ?). exists l. split; [done|]. by apply list_elem_of_filter.
Qed.

Lemma late_more H id l l' : late H id l -> late (H ++ [(id, l')]) id l.
Proof.
  intros [(z & Hz & E)|Hall].
  - left. exists z. split; [apply elem_of_app; by left|done].
  - destruct (decide (l' = l)) as [->|Hne].
    + left. exists id. split; [apply elem_of_app; right; by left|done].
    + right. intros z Hz. apply Hall. apply (other_pairs H id l' l z); [congruence|done].
Qed.

(** In memory only: nothing was moved to the merge set. *)
Definition unmoved t H : Prop :=
  (forall k, ms_value (mergeset_postings_ t) k = None) /\ (forall z l, (z, l) ∈ H -> is_Some (lists t l)) /\
  queue_short t /\ forall n, known t n -> exists z l, (z, l) ∈ H /\ label l = n.

Lemma unmoved_read t H l : unmoved t H -> read_from_mergeset t l = Some [].
Proof. intros [Hv _]. unfold read_from_mergeset. by rewrite read_merge, Hv. Qed.

Lemma unmoved_addable t H id l : holds t H -> unmoved t H -> is_u64 id -> late H id l -> addable t H id l.
Proof.
  intros Ht Hu Hid Hlate. split_and!; [done..| |].
  - intros Hn z Hin. destruct Hu as (_ & Hu & _). destruct (Hu z l Hin) as [c Hc]. congruence.
  - right. intros v. by eapply unmoved_read.
Qed.

Lemma add_labels_spec ls : forall t H id,
  holds t H -> unmoved t H -> is_u64 id -> Forall (late H id) ls ->
  exists t', add_labels t id ls = Some t' /\ holds t' (H ++ pairs_of id ls) /\ unmoved t' (H ++ pairs_of id ls).
Proof.
  induction ls as [|l ls IH]; intros t H id Ht Hu Hid Hlate.
  - exists t. unfold pairs_of. simpl. by rewrite app_nil_r.
  - apply Forall_cons in Hlate as [Hl Hlate]. cbn [add_labels]. unfold str_eqb. case_bool_decide as En.
    + destruct (IH t H id Ht Hu Hid Hlate) as (t' & E & Ht' & Hu'). exists t'. rewrite E.
      unfold pairs_of. rewrite filter_cons_False by tauto. done.
    + destruct (add_spec t H id l Ht) as (t1 & -> & Ht1 & Hq1 & Em & Hl1 & Hk1); [by apply unmoved_addable|]. simpl.
      assert (Hu1 : unmoved t1 (H ++ [(id, l)])).
      { destruct Hu as (Hv & Hu & _ & Hkn). split_and!; [by rewrite Em| |done|].
        - intros z l' Hin. apply Hl1.
          destruct (decide (l' = l)) as [->|Hne]; [by right|]. left. eapply Hu. by apply (other_pairs H id l l' z Hne).
        - intros n [(z & l' & Hin & E)%Hkn| ->]%Hk1.
          + exists z, l'. split; [apply elem_of_app; by left|done].
          + exists id, l. split; [apply elem_of_app; right; by left|done]. }
      destruct (IH t1 (H ++ [(id, l)]) id Ht1 Hu1 Hid) as (t' & E & Ht' & Hu').
      { eapply Forall_impl; [exact Hlate|]. intros l'. apply late_more. }
      exists t'. rewrite E. unfold pairs_of. rewrite filter_cons_True by done. rewrite fmap_cons.
      unfold pairs_of in Ht', Hu'. by rewrite <- app_assoc in Ht', Hu'.
Qed.

(** [add] for each of a list of series *)
Fixpoint add_all t (sr : list (Z * Labels)) : option (ThmapPostings KM VM MS) :=
  match sr with
  | [] => Some t
  | (id, ls) :: sr => t ← add_labels t id ls; add_all t sr
  end.

Definition pairs (sr : list (Z * Labels)) : list (Z * Label) := sr ≫= fun s => pairs_of s.1 s.2.

(** The ids of the series come in an order the lists can take. *)
Fixpoint orderly H (sr : list (Z * Labels)) : Prop :=
  match sr with
  | [] => True
  | (id, ls) :: sr => is_u64 id /\ Forall (late H id) ls /\ orderly (H ++ pairs_of id ls) sr
  end.

Lemma index_add_all sr : forall t H,
  holds t H -> unmoved t H -> orderly H sr ->
  exists t', add_all t sr = Some t' /\ holds t' (H ++ pairs sr) /\ unmoved t' (H ++ pairs sr).
Proof.
  induction sr as [|[id ls] sr IH]; intros t H Ht Hu Ho.
  - exists t. unfold pairs. simpl. by rewrite app_nil_r.
  - destruct Ho as (Hid & Hl & Ho). cbn [add_all].
    destruct (add_labels_spec ls t H id Ht Hu Hid Hl) as (t1 & -> & Ht1 & Hu1). simpl.
    destruct (IH t1 _ Ht1 Hu1 Ho) as (t' & -> & Ht' & Hu'). exists t'. rewrite <- app_assoc in Ht', Hu'. done.
Qed.

Lemma new_index_holds (m : MS) t :
  t = new_index m -> (forall k, ms_value m k = None) -> holds t [] /\ unmoved t [].
Proof.
  intros -> Hv. set (t := new_index m). assert (Hg : forall n, thmap_get (key_map_ t) n = None) by (intros n; apply get_create).
  assert (Hf : forall l, find_list t l = None) by (intros l; unfold find_list; by rewrite Hg).
  assert (Hl : forall l, lists t l = None) by (intros l; unfold lists; by rewrite Hf).
  split; [|split_and!; [done|by intros z l ?%elem_of_nil|done|]]; [split|].
  - split.
    + intros n vm. by rewrite Hg.
    + intros n n' vm. by rewrite Hg.
    + intros l p. by rewrite Hf.
    + intros l l' p. by rewrite Hf.
  - intros l c. by rewrite Hl.
  - intros l _ [vm Hk]. by rewrite Hg in Hk.
  - by intros z l ?%elem_of_nil.
  - by intros l ?%elem_of_nil.
  - intros n [vm Hk]. by rewrite Hg in Hk.
Qed.

(** Ids in ascending order are orderly. *)
Lemma ascending_orderly sr : forall H,
  Forall (fun s => is_u64 s.1) sr -> StronglySorted Z.le sr.*1 ->
  (forall z l, (z, l) ∈ H -> Forall (Z.le z) sr.*1) -> orderly H sr.
Proof.
  induction sr as [|[id ls] sr IH]; intros H Hu Hs HH; [done|]. apply Forall_cons in Hu as [Hid Hu].
  rewrite fmap_cons in Hs. apply StronglySorted_inv in Hs as [Hs Hlt]. simpl in *. split_and!; [done| |].
  - apply Forall_forall. intros l _. unfold late.
    destruct (decide (Exists (fun p => p.2 = l /\ high 16 p.1 = high 16 id) H)) as [He|Hn].
    + left. apply Exists_exists in He as ([z l'] & Hin & El & E). simpl in *. subst l'. by exists z.
    + right. intros z Hin. assert (z <= id) by (specialize (HH z l Hin); by apply Forall_cons in HH as [? _]).
      pose proof (high_le z id ltac:(done)). assert (high 16 z <> high 16 id); [|lia].
      intros E. apply Hn. apply Exists_exists. by exists (z, l).
  - apply IH; [done..|]. intros z l [Hin|Hin]%elem_of_app.
    + specialize (HH z l Hin). by apply Forall_cons in HH as [_ ?].
    + apply pairs_elem in Hin as [-> _]. done.
Qed.


(** ** Reading *)

(** [get] finds the list of a label, in memory or from the merge set. *)
Lemma get_spec t H l :
  holds t H -> Z.of_nat (length (hot_queue_ t)) < HOT_QUEUE_SIZE ->
  exists r t', get t l = Some (r, t') /\ holds t' H /\ mergeset_postings_ t' = mergeset_postings_ t /\
    (forall n, known t' n <-> known t n) /\ (length (hot_queue_ t') <= S (length (hot_queue_ t)))%nat /\
    match r with
    | Some p => exists c, find_list t' l = Some p /\ list_at t' p = Some c /\ list_of H l c
    | None => forall z, (z, l) ∉ H
    end.
Proof.
  intros Ht Hq. pose proof (h_maps t H Ht) as Hm. destruct (lists t l) as [c|] eqn:El.
  { destruct (get_memory t l c El) as (p & -> & Ef & Ec). exists (Some p), t. split_and!; try done; [lia|].
    exists c. split_and!; [done..|]. by apply (h_memory t H Ht). }
  unfold get. destruct (thmap_get (key_map_ t) (label l)) as [vm|] eqn:Ek.
  2:{ exists None, t. split_and!; try done; [lia|]. intros z Hin%(h_known t H Ht). unfold known in Hin. rewrite Ek in Hin.
      by destruct Hin. }
  assert (Hkl : known t (label l)) by by eexists. rewrite (lists_none t l vm Hm El Ek).
  destruct (h_disk t H Ht l El Hkl) as (X & -> & HaX & HuX & HX). simpl. destruct X as [|x X].
  { exists None, t. split_and!; try done; [lia|]. intros z Hin%HX. by apply elem_of_nil in Hin. }
  destruct (cpl_inserts (x :: X) new_list v2_new_ok HaX HuX) as [Hok Eids]. set (c := foldl cpl_insert new_list (x :: X)) in *.
  assert (Hc : list_of H l c) by (split; [done|]; intros z; rewrite Eids; apply HX).
  destruct (put_again t l vm Ek) as [Hg Hf]. set (t0 := set_maps t _ _) in *.
  destruct (put_push t0 l vm c) as (t' & E & Hm' & Hfl & Hl' & Ek' & Eq & Eh & Em);
    [by apply put_again_ok|by rewrite Hg|exact (lists_none t l vm Hm El Ek)|exact Hq|].
  change (foldl cpl_insert (cpl_insert new_list x) X) with c.
  destruct (put_list t0 vm (value l) c) as [t1|]; [|done]. simpl in E |- *. rewrite E. simpl.
  assert (Hk' : forall n, known t' n <-> known t n) by (intros n; unfold known; by rewrite Ek', Hg).
  exists (Some (length (postings_ t0))), t'. split_and!; try done; [|rewrite Eq, length_app; simpl; lia|].
  - apply (holds_put t t' H H l c); [done|done| |done|done|done| |by left|].
    + intros l'. rewrite Hl'. case_decide; [done|]. unfold lists. by rewrite Hf.
    + intros n. rewrite Hk'. split; [tauto|intros [?| ->]; done].
    + intros l'. rewrite Eq, Eh. change (hot_queue_ t0) with (hot_queue_ t). change (hot_list_ t0) with (hot_list_ t).
      rewrite !elem_of_app, list_elem_of_singleton. tauto.
  - exists c. split_and!; [done| |done]. specialize (Hl' l). rewrite decide_True in Hl' by done. unfold lists in Hl'.
    rewrite Hfl in Hl'. done.
Qed.

(** Resetting the cursor of a list. *)
Lemma reset_holds t H l p c :
  holds t H -> find_list t l = Some p -> list_at t p = Some c ->
  exists t', update_list t p (fun c => mkCPL (v2_reset_cursor (posting_list_ c)) (hot_value_ c)) = Some t' /\
    holds t' H /\ mergeset_postings_ t' = mergeset_postings_ t /\ hot_queue_ t' = hot_queue_ t /\ (forall n, known t' n <-> known t n).
Proof.
  intros Ht Ef Ec. destruct (update_lists t l p (fun c => mkCPL (v2_reset_cursor (posting_list_ c)) (hot_value_ c)) (h_maps t H Ht) Ef)
    as (t' & c' & Ec' & -> & -> & Hm' & Hl').
  eexists. split; [done|]. split_and!; [|done..].
  apply (holds_put t _ H H l (mkCPL (v2_reset_cursor (posting_list_ c')) (hot_value_ c'))); [done|done|done|done| |done| | |].
  - destruct (h_memory t H Ht l c' Ec') as [Hok Hz]. split; [|done]. by destruct Hok.
  - intros n. split; [by left|]. intros [?| ->]; [done|]. unfold find_list in Ef.
    change (known t (label l)). unfold known. by destruct (thmap_get (key_map_ t) (label l)).
  - left. unfold known. unfold find_list in Ef. by destruct (thmap_get (key_map_ t) (label l)).
  - intros l' Hin. by right.
Qed.

Definition matcher_label (m : Matcher) : Label := mkLabel (m_name m) (m_value m).

(** The matchers [select] looks at. *)
Definition looked_at (ms : list Matcher) : list Matcher := filter (fun m => m_name m <> metric_name) ms.

Lemma select_lists_spec ms : forall t H,
  holds t H -> Z.of_nat (length (hot_queue_ t) + length ms) <= HOT_QUEUE_SIZE ->
  exists r t', select_lists t ms = Some (r, t') /\ holds t' H /\
    match r with
    | Some ps => exists ks, Forall2 ahead ps ks /\
        Forall2 (fun m k => forall z, z ∈ k <-> (z, matcher_label m) ∈ H) (looked_at ms) ks
    | None => exists m, m ∈ looked_at ms /\ forall z, (z, matcher_label m) ∉ H
    end.
Proof.
  induction ms as [|m ms IH]; intros t H Ht Hq.
  { exists (Some []), t. split_and!; [done..|]. exists []. by split. }
  cbn [select_lists]. unfold str_eqb. case_bool_decide as En.
  { destruct (IH t H Ht) as (r & t' & E & Ht' & Hr); [simpl in Hq; lia|]. exists r, t'. rewrite E. split_and!; [done..|].
    unfold looked_at. rewrite filter_cons_False by tauto. exact Hr. }
  unfold looked_at. rewrite filter_cons_True by done. fold (looked_at ms).
  destruct (get_spec t H (matcher_label m) Ht) as (r & t1 & E & Ht1 & _ & _ & Hq1 & Hr); [simpl in Hq; lia|].
  unfold matcher_label in E. rewrite E. simpl. destruct r as [p|].
  2:{ exists None, t1. split_and!; [done..|]. exists m. split; [by left|done]. }
  destruct Hr as (c & Ef & Ec & Hc). rewrite Ec. simpl.
  destruct (reset_holds t1 H (matcher_label m) p c Ht1 Ef Ec) as (t2 & -> & Ht2 & _ & Eq & _). simpl.
  destruct (IH t2 H Ht2) as (r & t' & -> & Ht' & Hr'); [rewrite Eq; simpl in Hq; lia|]. simpl.
  eexists _, t'. split; [done|]. split; [done|]. destruct r as [ps|].
  - destruct Hr' as (ks & Hps & Hks). exists (v2_ids (posting_list_ c) :: ks). destruct Hc as [Hok Hz].
    split; constructor; try done. by apply v2_reset_ahead.
  - destruct Hr' as (m' & Hm' & Hz). exists m'. split; [by right|done].
Qed.

Lemma select_spec t H ms :
  holds t H -> Z.of_nat (length (hot_queue_ t) + length ms) <= HOT_QUEUE_SIZE ->
  exists r t' l, select t ms = Some (r, t') /\ holds t' H /\ expand_postings r = Some l /\ asc l /\
    forall z, z ∈ l <-> looked_at ms <> [] /\ Forall (fun m => (z, matcher_label m) ∈ H) (looked_at ms).
Proof.
  intros Ht Hq. unfold select. destruct ms as [|m0 ms0]; [|set (ms := m0 :: ms0) in *].
  { exists (inl empty_postings), t, []. split_and!; [done..|apply asc_nil|]. intros z. split; [by intros ?%elem_of_nil|].
    by intros [? _]. }
  destruct (select_lists_spec ms t H Ht Hq) as (r & t' & -> & Ht' & Hr). simpl. destruct r as [ps|].
  2:{ exists (inl empty_postings), t', []. split_and!; [done..|apply asc_nil|]. intros z. split; [by intros ?%elem_of_nil|].
      intros [_ Hall]. destruct Hr as (m & Hm & Hz). rewrite Forall_forall in Hall. exfalso. by eapply Hz, Hall. }
  destruct Hr as (ks & Hps & Hks).
  assert (Hin : forall z, common ks z <-> Forall (fun m => (z, matcher_label m) ∈ H) (looked_at ms)).
  { intros z. unfold common. clear Hps. induction Hks as [|m k mt ks Hm Hks IH]; [by rewrite !Forall_nil|].
    by rewrite !Forall_cons, IH, Hm. }
  destruct ps as [|p ps].
  { exists (inr (vector_postings [])), t', []. split_and!; [done..|apply asc_nil|]. intros z. split; [by intros ?%elem_of_nil|].
    apply Forall2_nil_inv_l in Hps. subst ks. apply Forall2_nil_inv_r in Hks. rewrite Hks. by intros [? _]. }
  assert (Hk : ks <> []) by (intros ->; by apply Forall2_nil_inv_r in Hps).
  assert (Ha : asc (inter ks)).
  { apply inter_asc. clear -Hps. induction Hps; constructor; [by eapply ahead_asc|done]. }
  assert (E : expand_postings (TreeIntersectPostingsLists (p :: ps)) = Some (inter ks)).
  { apply expand_ahead. split; [done|]. by exists ks. }
  rewrite E. simpl. exists (inr (vector_postings (inter ks))), t', (inter ks). split_and!; [done..| |done|].
  - apply expand_ahead. by apply vector_ahead.
  - intros z. rewrite inter_elem, Hin by done. split; [|tauto]. intros Hz. split; [|done].
    intros E'. rewrite E' in Hks. by apply Forall2_nil_inv_l in Hks.
Qed.


(** ** Migration *)

Lemma refresh_spec t H l :
  holds t H -> (forall lb, lb ∈ l.*1 -> is_Some (lists t lb)) ->
  exists l', refresh t l = Some (l', t) /\ l'.*1 = l.*1.
Proof.
  intros Ht. induction l as [|[lb n] l IH]; intros Hl; [by exists []|]. cbn [refresh].
  destruct (Hl lb) as [c Ec]; [by left|]. destruct (get_memory t lb c Ec) as (p & -> & _ & Ep). simpl. rewrite Ep. simpl.
  destruct IH as (l' & -> & E); [intros lb' Hin; apply Hl; by right|]. simpl. eexists. split; [done|].
  by rewrite !fmap_cons, E.
Qed.

(** The ids a list holds. *)
Definition ids_at t (l : Label) : list Z := match lists t l with Some c => v2_ids (posting_list_ c) | None => [] end.

Definition small_list (c : ConcurrencyPostingList) : Prop :=
  v2_ok (posting_list_ c) /\ Z.of_nat (length (v2_ids (posting_list_ c))) < 2 ^ 31.

Lemma small_size c : small_list c -> v2_size (posting_list_ c) = Z.of_nat (length (v2_ids (posting_list_ c))).
Proof.
  intros [Hok Hn]. unfold v2_size. rewrite (ok_num _ Hok). unfold s32. rewrite swrap_id by (unfold is_s; lia).
  unfold u64. apply wrap_id. unfold is_u. lia.
Qed.

(** The number of pairs bounds every list. *)
Lemma list_small H l c : list_of H l c -> Z.of_nat (length H) < 2 ^ 31 -> small_list c.
Proof.
  intros [Hok Hz] Hn. split; [done|].
  assert (Hs : (fun z => (z, l)) <$> v2_ids (posting_list_ c) ⊆+ H).
  { apply NoDup_submseteq.
    - apply NoDup_fmap_2; [by intros ?? [=]|]. by apply asc_NoDup, v2_asc.
    - intros [z l'] (x & [= -> ->] & Hx)%list_elem_of_fmap. by apply Hz. }
  apply submseteq_length in Hs. rewrite length_fmap in Hs. lia.
Qed.

Lemma save_all_spec cl : forall t,
  (forall lb, lb ∈ cl.*1 -> exists c, lists t lb = Some c /\ small_list c) ->
  exists m', save_all t cl = Some (set_mergeset t m') /\
    (forall k, k ∉ merge_key <$> cl.*1 -> ms_value m' k = ms_value (mergeset_postings_ t) k) /\
    (forall k, k ∈ merge_key <$> cl.*1 -> exists l, l ∈ cl.*1 /\ merge_key l = k /\
       ms_value m' k = Some (stored (Z.of_nat (length (ids_at t l))) (ids_at t l))).
Proof.
  induction cl as [|[lb n] cl IH]; intros t Hl.
  { exists (mergeset_postings_ t). split_and!; [by destruct t|done|]. by intros k ?%elem_of_nil. }
  cbn [save_all]. destruct (Hl lb) as (c & Ec & Hc); [by left|]. destruct (get_memory t lb c Ec) as (p & -> & Ef & Ep).
  simpl. rewrite Ep. simpl. unfold AddMergeSet.
  rewrite (expand_ahead _ _ (v2_reset_ahead _ (proj1 Hc))). simpl. rewrite (small_size c Hc).
  fold (stored (Z.of_nat (length (v2_ids (posting_list_ c)))) (v2_ids (posting_list_ c))). set (m1 := ms_put _ _ _).
  destruct (IH (set_mergeset t m1)) as (m' & -> & Hout & Hin); [intros lb' Hin; apply (Hl lb'); by right|].
  exists m'. split; [done|].
  assert (Eids : ids_at t lb = v2_ids (posting_list_ c)) by (unfold ids_at; by rewrite Ec). split.
  - intros k Hk. apply not_elem_of_cons in Hk as [Hne Hk]. rewrite Hout by done. simpl.
    unfold m1. rewrite value_put, decide_False; [done|]. intros <-. by apply Hne.
  - intros k Hk. destruct (decide (k ∈ merge_key <$> cl.*1)) as [Hk'|Hk'].
    + destruct (Hin k Hk') as (l & Hl1 & Hl2 & Hl3). exists l. split_and!; [by right|done|exact Hl3].
    + apply elem_of_cons in Hk as [Hk|?]; [|done]. simpl in Hk. exists lb.
      split_and!; [by left|done|]. rewrite Hout by done. simpl. unfold m1. rewrite value_put, decide_True by done.
      by rewrite Eids.
Qed.

(** Deleting the list of a label and taking it out of its map. *)
Lemma delete_one t l vm :
  maps_ok t -> thmap_get (key_map_ t) (label l) = Some vm ->
  exists t', del_value (match find_posting t vm (value l) with
                        | Some p => set_postings t (<[p := None]> (postings_ t))
                        | None => t
                        end) vm (value l) = Some t' /\
    maps_ok t' /\ key_map_ t' = key_map_ t /\ mergeset_postings_ t' = mergeset_postings_ t /\
    label_num_ t' = label_num_ t /\ hot_queue_ t' = hot_queue_ t /\ hot_list_ t' = hot_list_ t /\
    forall l', lists t' l' = if decide (l' = l) then None else lists t l'.
Proof.
  intros Hm Ek. destruct (ok_value_maps t Hm _ _ Ek) as [m Em]. set (t0 := match find_posting t vm (value l) with Some p => _ | None => _ end).
  assert (E0 : key_map_ t0 = key_map_ t /\ value_maps_ t0 = value_maps_ t /\ mergeset_postings_ t0 = mergeset_postings_ t /\
    label_num_ t0 = label_num_ t /\ hot_queue_ t0 = hot_queue_ t /\ hot_list_ t0 = hot_list_ t)
    by (unfold t0; by destruct (find_posting t vm (value l))).
  destruct E0 as (E1 & E2 & E3 & E4 & E5 & E6). unfold del_value. rewrite E2, Em. simpl.
  eexists. split; [done|]. set (t' := set_maps t0 _ _). pose proof (lookup_lt_Some _ _ _ Em) as Hvm.
  assert (Hf : forall l', find_list t' l' = if decide (l' = l) then None else find_list t l').
  { intros l'. unfold find_list. change (key_map_ t') with (key_map_ t0). rewrite E1.
    destruct (thmap_get (key_map_ t) (label l')) as [vm'|] eqn:Ek'; simpl; [|by case_decide].
    unfold find_posting. unfold t'. simpl. destruct (decide (vm' = vm)) as [->|Hne].
    - rewrite list_lookup_insert_eq by done. rewrite Em. simpl. rewrite get_del.
      pose proof (ok_names t Hm _ _ _ Ek Ek') as Hn. destruct l as [n v], l' as [n' v']. simpl in *. subst n'.
      case_decide; case_decide; congruence.
    - rewrite list_lookup_insert_ne by done. case_decide; [|done]. subst. congruence. }
  assert (Ha : forall l' p, l' <> l -> find_list t l' = Some p -> list_at t' p = list_at t p).
  { intros l' p Hne Hp. unfold list_at, t'. simpl. unfold t0. destruct (find_posting t vm (value l)) as [q|] eqn:Eq; [|done].
    simpl. rewrite list_lookup_insert_ne; [done|]. intros ->. apply Hne. eapply (ok_apart t Hm); [exact Hp|].
    unfold find_list. by rewrite Ek. }
  split_and!; [|done..|].
  - split.
    + intros n i. change (key_map_ t') with (key_map_ t0). rewrite E1. intros Hi. unfold t'. simpl. apply lookup_lt_is_Some_2.
      rewrite length_insert. apply lookup_lt_is_Some_1. by eapply ok_value_maps.
    + intros n n' i. change (key_map_ t') with (key_map_ t0). rewrite E1. apply (ok_names t Hm).
    + intros l' p. rewrite Hf. case_decide as El; [done|]. intros Hp. rewrite (Ha l' p El Hp). by eapply ok_lists.
    + intros l1 l2 p. rewrite !Hf. do 2 case_decide; try done. by apply ok_apart.
  - intros l'. unfold lists. rewrite Hf. case_decide as El; [done|]. destruct (find_list t l') as [p|] eqn:Ep; [|done]. simpl.
    by apply (Ha l').
Qed.

Lemma delete_all_spec cl : forall t,
  maps_ok t -> (forall lb, lb ∈ cl.*1 -> known t (label lb)) ->
  exists t', delete_all t cl = Some t' /\ maps_ok t' /\ key_map_ t' = key_map_ t /\
    mergeset_postings_ t' = mergeset_postings_ t /\ label_num_ t' = label_num_ t /\ hot_queue_ t' = hot_queue_ t /\
    forall l', lists t' l' = if decide (l' ∈ cl.*1) then None else lists t l'.
Proof.
  induction cl as [|[lb n] cl IH]; intros t Hm Hk.
  { exists t. split_and!; [done..|]. intros l'. by rewrite decide_False by (by intros ?%elem_of_nil). }
  cbn [delete_all]. destruct (Hk lb) as [vm Ek]; [by left|]. rewrite Ek. simpl.
  destruct (delete_one t lb vm Hm Ek) as (t1 & -> & Hm1 & Ek1 & Em1 & En1 & Eq1 & _ & Hl1). simpl.
  destruct (IH t1 Hm1) as (t' & -> & Hm' & Ek' & Em' & En' & Eq' & Hl').
  { intros lb' Hin. unfold known. rewrite Ek1. apply Hk. by right. }
  exists t'. split_and!; [done..|congruence|congruence|congruence|congruence|]. intros l'. rewrite Hl', Hl1.
  destruct (decide (l' ∈ cl.*1)) as [Hin|Hn].
  - by rewrite decide_True by by right.
  - destruct (decide (l' = lb)) as [->|Hne]; [by rewrite decide_True by by left|].
    rewrite decide_False; [done|]. intros [?|?]%elem_of_cons; [by apply Hne|done].
Qed.


Lemma lists_known t l c : lists t l = Some c -> known t (label l).
Proof. unfold lists, find_list, known. by destruct (thmap_get (key_map_ t) (label l)). Qed.

(** No name is the beginning of another: the keys of the merge set, a name and
    a value without anything in between, tell the labels apart. *)
Definition names_apart t : Prop := forall n n', known t n -> known t n' -> n `prefix_of` n' -> n = n'.

Lemma keys_apart t l l' :
  names_apart t -> known t (label l) -> known t (label l') -> merge_key l = merge_key l' -> l = l'.
Proof.
  intros Hn Hl Hl' E. destruct l as [n v], l' as [n' v']. unfold merge_key in E. simpl in *.
  assert (n = n') as <-.
  { destruct (prefix_weak_total n n' (n ++ v)) as [Hp|Hp].
    - by exists v.
    - by exists v'.
    - by apply Hn.
    - symmetry. by apply Hn. }
  apply app_inv_head in E. by subst.
Qed.

(** The lists of [cl] after they went to the merge set. *)
Lemma moved_holds t t' H (cl : list Label) m' :
  holds t H -> Z.of_nat (length H) < 2 ^ 31 -> names_apart t -> (forall lb, lb ∈ cl -> is_Some (lists t lb)) ->
  (forall k, k ∉ merge_key <$> cl -> ms_value m' k = ms_value (mergeset_postings_ t) k) ->
  (forall k, k ∈ merge_key <$> cl -> exists l, l ∈ cl /\ merge_key l = k /\
     ms_value m' k = Some (stored (Z.of_nat (length (ids_at t l))) (ids_at t l))) ->
  maps_ok t' -> key_map_ t' = key_map_ t -> (forall l, ms_value (mergeset_postings_ t') l = ms_value m' l) ->
  (forall l, lists t' l = if decide (l ∈ cl) then None else lists t l) ->
  hot_queue_ t' = [] -> hot_list_ t' = [] -> holds t' H.
Proof.
  intros Ht Hn Hna Hcl Hout Hin Hm' Ek Ems Hl Eq Eh. split; [done| | | |].
  - intros l c. rewrite Hl. case_decide; [done|]. apply (h_memory t H Ht).
  - intros l. rewrite Hl. unfold known. rewrite Ek. unfold read_from_mergeset. rewrite read_merge, Ems. case_decide as Ec.
    + intros _ Hkl. destruct (Hin (merge_key l)) as (l2 & Hl2 & E2 & ->); [by apply list_elem_of_fmap_2|].
      destruct (Hcl l2 Hl2) as [c2 Hc2].
      assert (l2 = l) as -> by (apply (keys_apart t); [done|by eapply lists_known|done|done]).
      destruct (h_memory t H Ht l c2 Hc2) as [Hok Hz]. unfold ids_at. rewrite Hc2.
      exists (v2_ids (posting_list_ c2)). split_and!; [|by apply v2_asc|by apply v2_ids_u64|done].
      destruct (list_small H l c2) as [_ Hs]; [by split|done|].
      rewrite stored_bytes, GetFixed32_spec. simpl. unfold u32. rewrite wrap_id by (unfold is_u; lia).
      rewrite Nat2Z.id, <- (app_nil_r (v2_ids _ ≫= _)). apply read_ids_back. by apply v2_ids_u64.
    + intros El Hkl. rewrite Hout, <- read_merge; [by apply (h_disk t H Ht)|].
      intros (l2 & E2 & Hl2)%list_elem_of_fmap. destruct (Hcl l2 Hl2) as [c2 Hc2]. apply Ec.
      by rewrite (keys_apart t l l2 Hna Hkl (lists_known t l2 c2 Hc2) E2).
  - intros z l Hzl. unfold known. rewrite Ek. by eapply (h_known t H Ht).
  - intros l. rewrite Eq, Eh. by intros ?%elem_of_nil.
Qed.

Section MigrateSpec.
Variable batch : Z -> Z.
Variable sort : list (Label * Z) -> list (Label * Z).
Hypothesis Hsort : forall l, sort l ≡ₚ l.

Lemma migrate_spec t H :
  holds t H -> Z.of_nat (length H) < 2 ^ 31 -> names_apart t ->
  exists t', migrate batch sort t = Some (u32 (batch (label_num_ t)), t') /\ holds t' H /\ (forall n, known t' n <-> known t n) /\
    hot_queue_ t' = [] /\ hot_list_ t' = [] /\ label_num_ t' = label_num_ t.
Proof.
  intros Ht Hn Hna. unfold migrate.
  destruct (refresh_spec t H (hot_list_ t) Ht) as (hl & -> & Ehl).
  { intros lb Hin. apply (h_hot t H Ht). apply elem_of_app. by right. }
  simpl. set (t1 := set_hot t (label_num_ t) (hot_queue_ t) hl).
  assert (Ht1 : holds t1 H).
  { apply holds_set_hot; [done|]. rewrite Ehl. apply (h_hot t H Ht). }
  destruct (drain_spec H (drain_rounds t1) t1 Ht1) as (hl2 & -> & Ehl2); [unfold drain_rounds; lia|]. simpl.
  set (bs := u32 (batch (label_num_ t))). set (hs := sort (hl ++ hl2)). set (t2 := set_hot _ _ [] hs).
  assert (Hin : forall lb, lb ∈ (coldest hs bs).*1 -> is_Some (lists t lb)).
  { intros lb (x & -> & Hx)%list_elem_of_fmap. apply (h_hot t H Ht). apply (subseteq_drop _ hs) in Hx.
    unfold hs in Hx. rewrite Hsort, elem_of_app in Hx. rewrite elem_of_app, <- Ehl.
    destruct Hx as [Hx|Hx]; [right|left]; [by apply list_elem_of_fmap_2|].
    change (hot_queue_ t) with (hot_queue_ t1). rewrite <- Ehl2. by apply list_elem_of_fmap_2. }
  destruct (save_all_spec (coldest hs bs) t2) as (m' & -> & Hout & Hsv).
  { intros lb Hlb. destruct (Hin lb Hlb) as [c Ec]. exists c. split; [exact Ec|].
    eapply (list_small H lb); [|done]. exact (h_memory t H Ht lb c Ec). }
  simpl. assert (Hm2 : maps_ok (set_mergeset t2 m')).
  { destruct (h_maps t H Ht) as [a1 a2 a3 a4]. split; [exact a1|exact a2|exact a3|exact a4]. }
  destruct (delete_all_spec (coldest hs bs) (set_mergeset t2 m') Hm2) as (t3 & -> & Hm3 & Ek & Em & En & Eq & Hl).
  { intros lb Hlb. destruct (Hin lb Hlb) as [c Ec]. exact (lists_known t lb c Ec). }
  simpl. eexists. split; [done|]. split_and!; [|intros n; simpl; unfold known; simpl; by rewrite Ek|by rewrite Eq|done|by rewrite En].
  apply (moved_holds t _ H (coldest hs bs).*1 m'); [done..| | | |exact Hl|by rewrite Eq|done].
  - destruct Hm3 as [a1 a2 a3 a4]. split; [exact a1|exact a2|exact a3|exact a4].
  - simpl. by rewrite Ek.
  - intros k. simpl. rewrite value_compact, Em. done.
Qed.

(** Without labels to count, a migration does nothing. *)
Lemma migrate_idle t :
  hot_queue_ t = [] -> hot_list_ t = [] ->
  migrate batch sort t = Some (u32 (batch (label_num_ t)), set_mergeset t (ms_compact (mergeset_postings_ t))).
Proof.
  intros Eq Eh. unfold migrate. rewrite Eh. simpl. unfold drain_rounds. simpl. rewrite Eq. simpl.
  assert (Es : sort [] = []) by (apply Permutation_nil; symmetry; apply Hsort). rewrite Es. unfold coldest.
  rewrite drop_nil. simpl. do 2 f_equal. destruct t. simpl in *. by subst.
Qed.

End MigrateSpec.


Lemma read_memory t l c :
  lists t l = Some c -> v2_ok (posting_list_ c) ->
  exists t', get_and_read t l = Some (true, v2_ids (posting_list_ c), t').
Proof.
  intros El Hok. unfold get_and_read. unfold lists, find_list in El.
  destruct (thmap_get (key_map_ t) (label l)) as [vm|] eqn:Ek; [|done]. simpl in El.
  destruct (find_posting t vm (value l)) as [p|] eqn:Ep; [|done]. simpl in El. rewrite El. simpl.
  rewrite (expand_ahead _ _ (v2_reset_ahead _ Hok)). simpl. unfold update_list. rewrite El. simpl. by eexists.
Qed.

Lemma read_spec t H l :
  holds t H -> exists b X t', get_and_read t l = Some (b, X, t') /\ holds t' H /\ asc X /\ forall z, z ∈ X <-> (z, l) ∈ H.
Proof.
  intros Ht. pose proof (h_maps t H Ht) as Hm. unfold get_and_read.
  destruct (thmap_get (key_map_ t) (label l)) as [vm|] eqn:Ek.
  2:{ exists false, [], t. split_and!; [done..|apply asc_nil|]. intros z. split; [by intros ?%elem_of_nil|].
      intros Hin%(h_known t H Ht). unfold known in Hin. rewrite Ek in Hin. by destruct Hin. }
  destruct (find_posting t vm (value l)) as [p|] eqn:Ep.
  - assert (Ef : find_list t l = Some p) by (unfold find_list; by rewrite Ek).
    destruct (ok_lists t Hm l p Ef) as [c Ec]. rewrite Ec. simpl.
    assert (El : lists t l = Some c) by (unfold lists; by rewrite Ef). destruct (h_memory t H Ht l c El) as [Hok Hz].
    rewrite (expand_ahead _ _ (v2_reset_ahead _ Hok)). simpl.
    destruct (reset_holds t H l p c Ht Ef Ec) as (t' & -> & Ht' & _). simpl.
    eexists _, _, t'. split_and!; [done..|by apply v2_asc|done].
  - assert (El : lists t l = None) by (unfold lists, find_list; rewrite Ek; simpl; by rewrite Ep).
    destruct (h_disk t H Ht l El) as (X & -> & Ha & _ & Hz); [by eexists|]. simpl. by eexists _, X, t.
Qed.

Lemma pairs_all_elem sr z l :
  (z, l) ∈ pairs sr <-> label l <> metric_name /\ exists ls, (z, ls) ∈ sr /\ l ∈ ls.
Proof.
  unfold pairs. rewrite list_elem_of_bind. split.
  - intros ([id ls] & Hp & Hin). apply pairs_elem in Hp as (-> & ? & ?). split; [done|]. by exists ls.
  - intros (Hn & ls & Hin & Hl). exists (z, ls). split; [|done]. by apply pairs_elem.
Qed.

(** The index that [sr] was added to. *)
Lemma added_holds (m : MS) t sr :
  t = new_index m -> (forall k, ms_value m k = None) -> orderly [] sr ->
  exists t', add_all t sr = Some t' /\ holds t' (pairs sr) /\ unmoved t' (pairs sr).
Proof. intros Et Hv Ho. destruct (new_index_holds m t Et Hv). by apply (index_add_all sr t []). Qed.

(** The inverted index of the tree head answers exactly: after any series
    were added, in an order of ids in which no block comes below a block that
    is there, [TreeHead::select] gives in ascending order the ids of the series
    that carry the label of every matcher other than that of the metric name.
    Neither the adding nor the selection fails or waits. *)
Theorem tree_select_exact (m : MS) t0 sr ms :
  t0 = new_index m -> (forall k, ms_value m k = None) -> orderly [] sr -> Z.of_nat (length ms) < 65000 ->
  exists t r t' l, add_all t0 sr = Some t /\ select t ms = Some (r, t') /\ expand_postings r = Some l /\ asc l /\
    forall z, z ∈ l <-> looked_at ms <> [] /\
      Forall (fun mt => exists ls, (z, ls) ∈ sr /\ matcher_label mt ∈ ls) (looked_at ms).
Proof.
  intros E0 Hv Ho Hms. destruct (added_holds m t0 sr E0 Hv Ho) as (t & Et & Ht & _ & _ & Hq & _).
  destruct (select_spec t (pairs sr) ms Ht) as (r & t' & l & Er & _ & El & Ha & Hz).
  { unfold queue_short in Hq. change HOT_QUEUE_SIZE with 65536. change HOT_QUEUE_HALF with 256 in Hq. lia. }
  exists t, r, t', l. split_and!; [done..|]. intros z. rewrite Hz. f_equiv. rewrite !Forall_forall.
  split; intros Hall mt Hmt; specialize (Hall mt Hmt).
  - by apply pairs_all_elem in Hall as [_ ?].
  - apply pairs_all_elem. split; [|done]. simpl. by apply list_elem_of_filter in Hmt as [? _].
Qed.

Lemma unmoved_names t H :
  unmoved t H ->
  (forall z l z' l', (z, l) ∈ H -> (z', l') ∈ H -> label l `prefix_of` label l' -> label l = label l') -> names_apart t.
Proof.
  intros (_ & _ & _ & Hk) Hpre n n' (z & l & Hin & <-)%Hk (z' & l' & Hin' & <-)%Hk. by apply (Hpre z l z' l').
Qed.

(** C19. Migration does not show: after fewer than 2^31 labels of series were
    added whose label names are not beginnings of each other (the key of the
    merge set is the name and the value without a separator, and
    [keys_collide] is what happens otherwise), each id of a label in a block
    its list has or in a later one ([orderly]), moving any share of the lists
    to the merge set leaves what is read for every label as it was. *)
Theorem migration_keeps_ids (m : MS) t0 sr batch sort :
  t0 = new_index m -> (forall k, ms_value m k = None) -> orderly [] sr -> Z.of_nat (length (pairs sr)) < 2 ^ 31 ->
  (forall l, sort l ≡ₚ l) ->
  (forall z l z' l', (z, l) ∈ pairs sr -> (z', l') ∈ pairs sr -> label l `prefix_of` label l' -> label l = label l') ->
  exists t n t', add_all t0 sr = Some t /\ migrate batch sort t = Some (n, t') /\
    forall l, exists X b1 t1 b2 t2, get_and_read t l = Some (b1, X, t1) /\ get_and_read t' l = Some (b2, X, t2) /\
      asc X /\ forall z, z ∈ X <-> label l <> metric_name /\ exists ls, (z, ls) ∈ sr /\ l ∈ ls.
Proof.
  intros E0 Hv Ho Hn Hsort Hpre. destruct (added_holds m t0 sr E0 Hv Ho) as (t & Et & Ht & Hu).
  assert (Hna : names_apart t) by (eapply unmoved_names; [exact Hu|exact Hpre]).
  destruct (migrate_spec batch sort Hsort t (pairs sr) Ht Hn Hna) as (t' & Em & Ht' & _).
  exists t, (u32 (batch (label_num_ t))), t'. split_and!; [done..|]. intros l.
  destruct (read_spec t _ l Ht) as (b1 & X1 & t1 & E1 & _ & Ha1 & Hz1).
  destruct (read_spec t' _ l Ht') as (b2 & X2 & t2 & E2 & _ & Ha2 & Hz2).
  assert (X2 = X1) as -> by (apply asc_unique; [done..|]; intros z; by rewrite Hz1, Hz2).
  exists X1, b1, t1, b2, t2. split_and!; [done..|]. intros z. by rewrite Hz1, pairs_all_elem.
Qed.


(** Adding an id to a label whose list was moved to the merge set hides the
    ids that are there: the new list holds the new id alone, and it is what is
    read from then on. *)
Theorem add_hides_moved t H l id X :
  holds t H -> lists t l = None -> read_from_mergeset t l = Some X -> X <> [] -> is_u64 id -> known t (label l) ->
  exists t1 t2 t3, get_and_read t l = Some (true, X, t1) /\ add t id l = Some t2 /\
    get_and_read t2 l = Some (true, [id], t3).
Proof.
  intros Ht El EX HX Hid [vm Ek]. pose proof (h_maps t H Ht) as Hm. exists t.
  destruct (make_room_spec t H Ht) as (t1 & E1 & Ht1 & Hq & Em & Ekm & Hl). pose proof (h_maps t1 H Ht1) as Hm1.
  assert (Ek1 : thmap_get (key_map_ t1) (label l) = Some vm) by by rewrite Ekm.
  assert (El1 : lists t1 l = None) by by rewrite Hl. pose proof (lists_none t1 l vm Hm1 El1 Ek1) as Ef1.
  unfold add. rewrite E1. simpl. unfold add_to. rewrite Ek1, Ef1.
  destruct (put_again t1 l vm Ek1) as [Hg Hf]. set (t0 := set_maps t1 _ _) in *.
  destruct (put_push t0 l vm (cpl_insert new_list id)) as (t2 & E2 & Hm2 & _ & Hl2 & _);
    [by apply put_again_ok|by rewrite Hg|exact Ef1|change HOT_QUEUE_SIZE with 65536; change HOT_QUEUE_HALF with 256 in Hq; simpl; lia|].
  specialize (Hl2 l). rewrite decide_True in Hl2 by done.
  destruct (list_of_new [] id l) as [Hok Hz]; [by intros z ?%elem_of_nil|done|].
  destruct (read_memory t2 l _ Hl2 Hok) as (t3 & E3). exists t2, t3. split_and!; [|done|].
  - unfold get_and_read. rewrite Ek, (lists_none t l vm Hm El Ek), EX. simpl. by destruct X.
  - rewrite E3. do 3 f_equal. apply asc_unique; [by apply v2_asc| |].
    + apply asc_cons. unfold is_u in Hid. split_and!; [lia|constructor|apply asc_nil].
    + intros z. rewrite Hz, list_elem_of_singleton. simpl. rewrite list_elem_of_singleton.
      split; [by intros [= ->]|by intros ->].
Qed.


(** A migration forgets the lists it leaves in memory: a second one reports
    a batch of the size it was asked for but moves no list at all, whatever the
    size. *)
Theorem migrate_forgets (m : MS) t0 sr batch sort :
  t0 = new_index m -> (forall k, ms_value m k = None) -> orderly [] sr -> Z.of_nat (length (pairs sr)) < 2 ^ 31 ->
  (forall l, sort l ≡ₚ l) ->
  (forall z l z' l', (z, l) ∈ pairs sr -> (z', l') ∈ pairs sr -> label l `prefix_of` label l' -> label l = label l') ->
  exists t n t' t'', add_all t0 sr = Some t /\ migrate batch sort t = Some (n, t') /\
    forall batch', migrate batch' sort t' = Some (u32 (batch' (label_num_ t)), t'') /\
      forall l, find_list t'' l = find_list t' l.
Proof.
  intros E0 Hv Ho Hn Hsort Hpre. destruct (added_holds m t0 sr E0 Hv Ho) as (t & Et & Ht & Hu).
  destruct (migrate_spec batch sort Hsort t (pairs sr) Ht Hn) as (t' & Em & _ & _ & Eq & Eh & En).
  { eapply unmoved_names; [exact Hu|exact Hpre]. }
  exists t, (u32 (batch (label_num_ t))), t', (set_mergeset t' (ms_compact (mergeset_postings_ t'))).
  split_and!; [done..|]. intros batch'. rewrite (migrate_idle batch' sort Hsort t' Eq Eh), En. done.
Qed.

End Holds.

(** ** A finite map as a merge set *)

#[export] Instance map_mergeset : MergeSet (gmap str str) := {|
  ms_put m k v := <[k := v]> m;
  ms_seek m k := tr_from m k;
  ms_compact m := m |}.

Lemma map_seek_strict (m : gmap str str) k : StronglySorted (fun a b => bytes_ltb a.1 b.1 = true) (ms_seek m k).
Proof.
  assert (Hnd : NoDup (ms_seek m k).*1).
  { simpl. rewrite merge_sort_Permutation. pose proof (NoDup_fst_map_to_list m) as Hm.
    induction (map_to_list m) as [|e l IH]; [constructor|]. rewrite fmap_cons in Hm. apply NoDup_cons in Hm as [He Hm].
    rewrite filter_cons. case_decide; [|by apply IH]. rewrite fmap_cons. apply NoDup_cons. split; [|by apply IH].
    intros (e' & E & [_ Hin]%list_elem_of_filter)%list_elem_of_fmap. apply He. rewrite E. by apply list_elem_of_fmap_2. }
  assert (Hs : StronglySorted key_le (ms_seek m k).*1) by apply (from_sorted m k).
  induction (ms_seek m k) as [|[a v] l IH]; [constructor|]. rewrite fmap_cons in Hs, Hnd.
  apply StronglySorted_inv in Hs as [Hs Ha]. apply NoDup_cons in Hnd as [Hn Hnd]. constructor; [by apply IH|].
  apply Forall_forall. intros [b w] Hb. simpl in *. apply (list_elem_of_fmap_2 fst) in Hb. simpl in Hb.
  rewrite Forall_forall in Ha. specialize (Ha b Hb). unfold key_le in Ha. destruct (bytes_ltb a b) eqn:E; [done|].
  rewrite (bytes_ltb_total a b E Ha) in Hn. done.
Qed.

Lemma map_ms_value (m : gmap str str) k : ms_value m k = m !! k.
Proof.
  unfold ms_value. pose proof (map_seek_strict m k) as Hs. pose proof (from_spec m k) as Hf. change (tr_from m k) with (ms_seek m k) in Hf.
  destruct (ms_seek m k) as [|[a v] l].
  - destruct (m !! k) as [v|] eqn:E; [|done]. assert (Hin : (k, v) ∈ ([] : list (str * str))).
    { apply Hf. split; [done|]. unfold key_le. apply bytes_ltb_irrefl. }
    by apply elem_of_nil in Hin.
  - case_decide as Ea.
    + subst a. symmetry. apply (Hf k v). by left.
    + destruct (m !! k) as [w|] eqn:E; [|done]. exfalso. apply StronglySorted_inv in Hs as [_ Hs].
      assert (Hin : (k, w) ∈ (a, v) :: l) by (apply Hf; split; [done|]; apply bytes_ltb_irrefl).
      apply elem_of_cons in Hin as [?|Hin].
      * congruence.
      * rewrite Forall_forall in Hs. specialize (Hs _ Hin). simpl in Hs.
        assert (Hk : key_le k a) by (apply (Hf a v); by left). unfold key_le in Hk. congruence.
Qed.

#[export] Instance map_mergeset_laws : MergeSetLaws (gmap str str).
Proof.
  split.
  - apply map_seek_strict.
  - intros m k v k'. rewrite !map_ms_value. simpl. case_decide; subst; [apply lookup_insert_eq|by apply lookup_insert_ne].
  - done.
Qed.

(** ** Witnesses *)
Module IndexDemo.

#[local] Instance zero_end : PastEnd := fun _ => 0.

Definition Index : Type := ThmapPostings (gmap str nat) (gmap str nat) (gmap str str).
Definition empty : Index := new_index ∅.

Definition host (v : Z) : Label := mkLabel [104] [v].
Definition job (v : Z) : Label := mkLabel [106] [v].
Definition name (v : Z) : Label := mkLabel metric_name [v].

Definition demo_series : list (Z * Labels) :=
  [(1, [name 1; host 1; job 1]); (2, [name 1; host 1; job 2]); (70000, [name 2; host 2; job 1]); (70001, [name 2; host 1; job 1])].

Lemma nothing_stored k : ms_value (∅ : gmap str str) k = None.
Proof. by rewrite map_ms_value, lookup_empty. Qed.

Lemma series_orderly : orderly [] demo_series.
Proof.
  apply ascending_orderly.
  - repeat constructor; unfold is_u; simpl; lia.
  - cbn. repeat (apply SSorted_nil || apply Forall_nil_2 || apply SSorted_cons || apply Forall_cons_2); lia.
  - by intros z l ?%elem_of_nil.
Qed.

Lemma names_differ z l z' l' :
  (z, l) ∈ pairs demo_series -> (z', l') ∈ pairs demo_series -> label l `prefix_of` label l' -> label l = label l'.
Proof.
  assert (Hn : forall z l, (z, l) ∈ pairs demo_series -> label l = [104] \/ label l = [106]).
  { intros y k. unfold pairs, demo_series, pairs_of. simpl. rewrite !elem_of_cons, elem_of_nil. naive_solver. }
  intros [-> | ->]%Hn [-> | ->]%Hn; try done; intros [k [=]].
Qed.

Lemma tree_select_exact_witness :
  exists t r t' l, add_all empty demo_series = Some t /\ select t [EqualMatcher [104] [1]; EqualMatcher [106] [1]] = Some (r, t') /\
    expand_postings r = Some l /\ asc l /\
    forall z, z ∈ l <-> looked_at [EqualMatcher [104] [1]; EqualMatcher [106] [1]] <> [] /\
      Forall (fun mt => exists ls, (z, ls) ∈ demo_series /\ matcher_label mt ∈ ls)
        (looked_at [EqualMatcher [104] [1]; EqualMatcher [106] [1]]).
Proof.
  apply (tree_select_exact (∅ : gmap str str)); [done|apply nothing_stored|apply series_orderly|done].
Defined.

Example demo_select :
  (t ← add_all empty demo_series;
   '(r, _) ← select t [EqualMatcher [104] [1]; EqualMatcher metric_name [1]; EqualMatcher [106] [1]];
   expand_postings r) = Some [1; 70001].
Proof. vm_compute. reflexivity. Qed.

Lemma migration_keeps_ids_witness :
  exists t n t', add_all empty demo_series = Some t /\ migrate (fun n => n) id t = Some (n, t') /\
    forall l, exists X b1 t1 b2 t2, get_and_read t l = Some (b1, X, t1) /\ get_and_read t' l = Some (b2, X, t2) /\
      asc X /\ forall z, z ∈ X <-> label l <> metric_name /\ exists ls, (z, ls) ∈ demo_series /\ l ∈ ls.
Proof.
  apply (migration_keeps_ids (∅ : gmap str str)); [done|apply nothing_stored|apply series_orderly|done|done|exact names_differ].
Defined.

Lemma migrate_forgets_witness :
  exists t n t' t'', add_all empty demo_series = Some t /\ migrate (fun n => n / 2) id t = Some (n, t') /\
    forall batch', migrate batch' id t' = Some (u32 (batch' (label_num_ t)), t'') /\
      forall l, find_list t'' l = find_list t' l.
Proof.
  apply (migrate_forgets (∅ : gmap str str)); [done|apply nothing_stored|apply series_orderly|done|done|exact names_differ].
Defined.

(** All lists moved. *)
Definition moved : Index := default empty (t ← add_all empty demo_series; snd <$> migrate (fun n => n) id t).

Lemma moved_holds_series : holds moved (pairs demo_series).
Proof.
  destruct (added_holds (∅ : gmap str str) empty demo_series eq_refl nothing_stored series_orderly) as (t & Et & Ht & Hu).
  destruct (migrate_spec (fun n => n) id (fun l => reflexivity l) t (pairs demo_series) Ht) as (t' & Em & Ht' & _);
    [done|eapply unmoved_names; [exact Hu|exact names_differ]|].
  unfold moved. rewrite Et. simpl. rewrite Em. done.
Qed.

Lemma add_hides_moved_witness :
  exists t1 t2 t3, get_and_read moved (host 1) = Some (true, [1; 2; 70001], t1) /\ add moved 70002 (host 1) = Some t2 /\
    get_and_read t2 (host 1) = Some (true, [70002], t3).
Proof.
  apply (add_hides_moved moved (pairs demo_series) (host 1) 70002 [1; 2; 70001]).
  - apply moved_holds_series.
  - vm_compute. reflexivity.
  - vm_compute. reflexivity.
  - discriminate.
  - unfold is_u. lia.
  - exists 0%nat. vm_compute. reflexivity.
Defined.

(** The keys of the merge set run a name and its value together: after a
    migration, [a="bc"] is answered with the series of [ab="c"]. *)
Example keys_collide :
  (t ← add_all empty [(1, [mkLabel [97; 98] [99]]); (2, [mkLabel [97] [120]])];
   '(_, before, t) ← get_and_read t (mkLabel [97] [98; 99]);
   '(_, t) ← migrate (fun n => n) id t;
   '(_, after, _) ← get_and_read t (mkLabel [97] [98; 99]);
   Some (before, after)) = Some ([], [1]).
Proof. vm_compute. reflexivity. Qed.

(** A label whose list was removed is still counted: the next migration
    follows a null pointer. *)
Example removed_is_followed :
  (t ← add_all empty demo_series; '(_, t) ← remove_postinglist t (host 2); migrate (fun n => 0) id t) = None.
Proof. vm_compute. reflexivity. Qed.

End IndexDemo.
