(* ===== verification/ThmapThreads.v ===== *)
(** index/ThmapPostings: threads that call [add] at the same time.

    A thread is the id and the label it adds and where it is in [add] ([Point]);
    [astep] is its next access to what the threads share: one call of a
    lock-free map, one insertion under the lock of a list, one lock taken or
    given back.  A run is a sequence of thread numbers, in which a thread that
    waits for a lock stays where it is.  The first lines of [add], which empty
    the queue of labels, are [ThmapPostings.make_room] and not repeated here.

    A thread that runs alone does what [ThmapPostings.add_to] says
    ([alone_adds]).  Threads that add labels of names that are known do not
    disturb each other, and none of them is ever stuck for good; two threads
    that bring in the same name at once can lose an id. *)
From Stdlib Require Import ZArith Lia Bool Sorting.Sorted.
From stdpp Require Import base list numbers option gmap sorting.
From S2P Require Import Prelude Coding Label Postings Matchers MassTree HeadIndex PrefixPostings ThmapPostings.

(** Where a thread is: about to do what the comment says, with the map of
    values and the list it has found. *)
Inductive Point :=
  | Start                   (* thmap_get(key_map_, ...) *)
  | HasMap (vm : nat)       (* thmap_get(value_map, ...) *)
  | HasList (p : nat)       (* insert under mtx_ *)
  | ValueLock (vm : nat)    (* label_value_lock_.lock() *)
  | ValueCheck (vm : nat)   (* thmap_get again *)
  | ValueFound (p : nat)    (* insert under mtx_ *)
  | ValuePut (vm : nat)     (* a new list, thmap_put *)
  | ValueUnlock (put : bool)
  | Push                    (* hot_queue_.push, label_num_.fetch_add *)
  | NameLock                (* label_name_lock_.lock() *)
  | NameCheck               (* thmap_get(key_map_, ...) again *)
  | NameMap (vm : nat)      (* thmap_get(value_map, ...) *)
  | NameList (p : nat)      (* insert under mtx_ *)
  | NameValueLock (vm : nat)
  | NameValueCheck (vm : nat)
  | NameValueCheck2 (vm : nat)
  | NameValueFound (p : nat)
  | NameValuePut (vm : nat)
  | NameValueUnlock
  | NamePush
  | NameNew                 (* a new map of values, thmap_put(key_map_, ...) *)
  | NameNewPut (vm : nat)   (* a new list, thmap_put(value_map, ...) *)
  | NameUnlock (put : bool)
  | Done.

#[export] Instance Point_eq_dec : EqDecision Point.
Proof. solve_decision. Defined.

Record Thread := mkThread { th_id : Z; th_label : Label; th_at : Point }.

(** The index and the locks that are held. *)
Record Shared (KM VM MS : Type) := mkShared {
  sh_index : ThmapPostings KM VM MS;
  sh_names : gset Z;
  sh_values : gset Z }.
Arguments mkShared {KM VM MS}.
Arguments sh_index {KM VM MS} _.
Arguments sh_names {KM VM MS} _.
Arguments sh_values {KM VM MS} _.

Section Threads.
Context `{PE : PastEnd} `{TK : Thmap str nat KM} `{TV : Thmap str nat VM} `{MG : MergeSet MS}.
(** [hash % label_name_lock_num] and [hash % label_value_lock_num_] *)
Variables (name_slot value_slot : Label -> Z).
Implicit Type s : Shared KM VM MS.

Definition set_index s t : Shared KM VM MS := mkShared t (sh_names s) (sh_values s).

(** [lock]: waits while the lock is held; [unlock]. *)
Definition lock_name s (l : Label) : option (Shared KM VM MS) :=
  if decide (name_slot l ∈ sh_names s) then None
  else Some (mkShared (sh_index s) ({[name_slot l]} ∪ sh_names s) (sh_values s)).
Definition unlock_name s (l : Label) : Shared KM VM MS :=
  mkShared (sh_index s) (sh_names s ∖ {[name_slot l]}) (sh_values s).
Definition lock_value s (l : Label) : option (Shared KM VM MS) :=
  if decide (value_slot l ∈ sh_values s) then None
  else Some (mkShared (sh_index s) (sh_names s) ({[value_slot l]} ∪ sh_values s)).
Definition unlock_value s (l : Label) : Shared KM VM MS :=
  mkShared (sh_index s) (sh_names s) (sh_values s ∖ {[value_slot l]}).

Definition insert_at s (p : nat) (id : Z) : option (Shared KM VM MS) :=
  set_index s <$> update_list (sh_index s) p (fun c => cpl_insert c id).

Definition push_label s (l : Label) : option (Shared KM VM MS) := set_index s <$> hot_push (sh_index s) l.

(** One step of a thread; [None]: it waits. *)
Definition astep s (th : Thread) : option (Shared KM VM MS * Point) :=
  let id := th_id th in
  let l := th_label th in
  let t := sh_index s in
  match th_at th with
  | Start => Some (s, match thmap_get (key_map_ t) (label l) with Some vm => HasMap vm | None => NameLock end)
  | HasMap vm => Some (s, match find_posting t vm (value l) with Some p => HasList p | None => ValueLock vm end)
  | HasList p => s ← insert_at s p id; Some (s, Done)
  | ValueLock vm => s ← lock_value s l; Some (s, ValueCheck vm)
  | ValueCheck vm => Some (s, match find_posting t vm (value l) with Some p => ValueFound p | None => ValuePut vm end)
  | ValueFound p => s ← insert_at s p id; Some (s, ValueUnlock false)
  | ValuePut vm =>
    let t := set_maps t (thmap_put (key_map_ t) (label l) vm) (value_maps_ t) in
    t ← put_list t vm (value l) (cpl_insert new_list id);
    Some (set_index s t, ValueUnlock true)
  | ValueUnlock put => Some (unlock_value s l, if put then Push else Done)
  | Push => s ← push_label s l; Some (s, Done)
  | NameLock => s ← lock_name s l; Some (s, NameCheck)
  | NameCheck => Some (s, match thmap_get (key_map_ t) (label l) with Some vm => NameMap vm | None => NameNew end)
  | NameMap vm => Some (s, match find_posting t vm (value l) with Some p => NameList p | None => NameValueLock vm end)
  | NameList p => s ← insert_at s p id; Some (s, NameUnlock false)
  | NameValueLock vm => s ← lock_value s l; Some (s, NameValueCheck vm)
  | NameValueCheck vm =>
    Some (s, match find_posting t vm (value l) with Some p => NameValueFound p | None => NameValueCheck2 vm end)
  | NameValueCheck2 vm =>
    Some (s, match find_posting t vm (value l) with Some p => NameValueFound p | None => NameValuePut vm end)
  | NameValueFound p => s ← insert_at s p id; Some (s, NameValueUnlock)
  | NameValuePut vm =>
    t ← put_list t vm (value l) (mkCPL (v2_insert v2_new id) 0);
    Some (set_index s t, NameValueUnlock)
  | NameValueUnlock => Some (unlock_value s l, NamePush)
  | NamePush => s ← push_label s l; Some (s, NameUnlock false)
  | NameNew =>
    let vm := length (value_maps_ t) in
    Some (set_index s (set_maps t (thmap_put (key_map_ t) (label l) vm) (value_maps_ t ++ [thmap_create])), NameNewPut vm)
  | NameNewPut vm =>
    t ← put_list t vm (value l) (cpl_insert new_list id);
    Some (set_index s t, NameUnlock true)
  | NameUnlock put => Some (unlock_name s l, if put then Push else Done)
  | Done => None
  end.

Definition at_point (th : Thread) (pt : Point) : Thread := mkThread (th_id th) (th_label th) pt.

(** Thread [i] takes a step, if it can. *)
Definition tstep (st : Shared KM VM MS * list Thread) (i : nat) : Shared KM VM MS * list Thread :=
  match st.2 !! i with
  | None => st
  | Some th =>
    match astep st.1 th with
    | None => st
    | Some (s, pt) => (s, <[i := at_point th pt]> st.2)
    end
  end.

Definition run (st : Shared KM VM MS * list Thread) (schedule : list nat) : Shared KM VM MS * list Thread :=
  foldl tstep st schedule.

Definition all_done (ths : list Thread) : Prop := Forall (fun th => th_at th = Done) ths.

(** Threads at the start of [add]. *)
Definition starting (l : list (Z * Label)) : list Thread := (fun p => mkThread p.1 p.2 Start) <$> l.


(** ** One thread *)

Lemma run_one s th s' pt sch :
  astep s th = Some (s', pt) -> run (s, [th]) (0%nat :: sch) = run (s', [at_point th pt]) sch.
Proof. intros E. unfold run. simpl. unfold tstep at 2. simpl. by rewrite E. Qed.

(** The locks are given back. *)
Lemma locks_back (x : Z) (X : gset Z) : x ∉ X -> ({[x]} ∪ X) ∖ {[x]} = X.
Proof. set_solver. Qed.

(** A thread that runs alone does what [add_to] does. *)
Lemma alone_adds s id l t' :
  name_slot l ∉ sh_names s -> value_slot l ∉ sh_values s -> add_to (sh_index s) id l = Some t' ->
  exists n, run (s, [mkThread id l Start]) (replicate n 0%nat) = (set_index s t', [mkThread id l Done]).
Proof.
  destruct s as [t N V]. simpl. intros HN HV E. unfold add_to in E.
  destruct (thmap_get (key_map_ t) (label l)) as [vm|] eqn:Ek; [destruct (find_posting t vm (value l)) as [p|] eqn:Ep|].
  - exists 3%nat. cbn [replicate]. rewrite (run_one _ _ (mkShared t N V) (HasMap vm)) by (unfold astep; simpl; by rewrite Ek). cbn [at_point th_id th_label].
    rewrite (run_one _ _ (mkShared t N V) (HasList p)) by (unfold astep; simpl; by rewrite Ep). cbn [at_point th_id th_label].
    rewrite (run_one _ _ (mkShared t' N V) Done); [done|]. unfold astep, insert_at. simpl. by rewrite E.
  - destruct (put_list _ vm (value l) _) as [t1|] eqn:E1; [|done]. simpl in E.
    exists 7%nat. cbn [replicate]. rewrite (run_one _ _ (mkShared t N V) (HasMap vm)) by (unfold astep; simpl; by rewrite Ek). cbn [at_point th_id th_label].
    rewrite (run_one _ _ (mkShared t N V) (ValueLock vm)) by (unfold astep; simpl; by rewrite Ep). cbn [at_point th_id th_label].
    rewrite (run_one _ _ (mkShared t N ({[value_slot l]} ∪ V)) (ValueCheck vm))
      by (unfold astep, lock_value; simpl; by rewrite decide_False). cbn [at_point th_id th_label].
    rewrite (run_one _ _ (mkShared t N ({[value_slot l]} ∪ V)) (ValuePut vm)) by (unfold astep; simpl; by rewrite Ep). cbn [at_point th_id th_label].
    rewrite (run_one _ _ (mkShared t1 N ({[value_slot l]} ∪ V)) (ValueUnlock true)) by (unfold astep; simpl; by rewrite E1). cbn [at_point th_id th_label].
    rewrite (run_one _ _ (mkShared t1 N V) Push) by (unfold astep, unlock_value; simpl; by rewrite locks_back). cbn [at_point th_id th_label].
    rewrite (run_one _ _ (mkShared t' N V) Done); [done|]. unfold astep, push_label. simpl. by rewrite E.
  - destruct (put_list _ _ (value l) _) as [t1|] eqn:E1; [|done]. simpl in E. set (vm := length (value_maps_ t)) in *.
    set (t0 := set_maps t _ _) in E1.
    exists 7%nat. cbn [replicate]. rewrite (run_one _ _ (mkShared t N V) NameLock) by (unfold astep; simpl; by rewrite Ek). cbn [at_point th_id th_label].
    rewrite (run_one _ _ (mkShared t ({[name_slot l]} ∪ N) V) NameCheck)
      by (unfold astep, lock_name; simpl; by rewrite decide_False). cbn [at_point th_id th_label].
    rewrite (run_one _ _ (mkShared t ({[name_slot l]} ∪ N) V) NameNew) by (unfold astep; simpl; by rewrite Ek). cbn [at_point th_id th_label].
    rewrite (run_one _ _ (mkShared t0 ({[name_slot l]} ∪ N) V) (NameNewPut vm)) by done. cbn [at_point th_id th_label].
    rewrite (run_one _ _ (mkShared t1 ({[name_slot l]} ∪ N) V) (NameUnlock true)) by (unfold astep; simpl; by rewrite E1). cbn [at_point th_id th_label].
    rewrite (run_one _ _ (mkShared t1 N V) Push) by (unfold astep, unlock_name; simpl; by rewrite locks_back). cbn [at_point th_id th_label].
    rewrite (run_one _ _ (mkShared t' N V) Done); [done|]. unfold astep, push_label. simpl. by rewrite E.
Qed.

End Threads.

(** ** A new name *)

Section Race.
Context `{PE : PastEnd} `{TK : Thmap str nat KM} `{TKL : !ThmapLaws str nat KM}.
Context `{TV : Thmap str nat VM} `{TVL : !ThmapLaws str nat VM} `{MG : MergeSet MS}.
Variables (name_slot value_slot : Label -> Z).
Implicit Type s : Shared KM VM MS.
Implicit Type t : ThmapPostings KM VM MS.

Lemma run_first s th th2 s' pt sch :
  astep name_slot value_slot s th = Some (s', pt) -> run name_slot value_slot (s, [th; th2]) (0%nat :: sch) = run name_slot value_slot (s', [at_point th pt; th2]) sch.
Proof. intros E. unfold run. simpl. unfold tstep at 2. simpl. by rewrite E. Qed.

Lemma run_second s th th2 s' pt sch :
  astep name_slot value_slot s th2 = Some (s', pt) -> run name_slot value_slot (s, [th; th2]) (1%nat :: sch) = run name_slot value_slot (s', [th; at_point th2 pt]) sch.
Proof. intros E. unfold run. simpl. unfold tstep at 2. simpl. by rewrite E. Qed.

(** A lock that nobody holds. *)
Lemma lock_name_free t V l : lock_name name_slot (mkShared t ∅ V) l = Some (mkShared t {[name_slot l]} V).
Proof. unfold lock_name. cbn [sh_names]. rewrite decide_False by set_solver. simpl. by rewrite union_empty_r_L. Qed.

Lemma lock_value_free t N l : lock_value value_slot (mkShared t N ∅) l = Some (mkShared t N {[value_slot l]}).
Proof. unfold lock_value. cbn [sh_values]. rewrite decide_False by set_solver. simpl. by rewrite union_empty_r_L. Qed.

(** The next step of the first or of the second of two threads. *)
Ltac first_goes s pt :=
  rewrite (run_first _ _ _ s pt); [|unfold astep; cbn [th_at th_id th_label sh_index]]; unfold at_point; cbn [th_id th_label].
Ltac second_goes s pt :=
  rewrite (run_second _ _ _ s pt); [|unfold astep; cbn [th_at th_id th_label sh_index]]; unfold at_point; cbn [th_id th_label].

(** [thmap_put] of a value that is there leaves its list. *)
Lemma put_kept t vm v q c c' :
  find_posting t vm v = Some q -> list_at t q = Some c ->
  exists t', put_list t vm v c' = Some t' /\ find_posting t' vm v = Some q /\ list_at t' q = Some c /\
    key_map_ t' = key_map_ t /\ hot_queue_ t' = hot_queue_ t.
Proof.
  intros Ef Ec. unfold find_posting in Ef. destruct (value_maps_ t !! vm) as [m|] eqn:Em; [|done]. simpl in Ef.
  unfold put_list. rewrite Em. simpl. eexists. split; [done|]. unfold find_posting. simpl.
  rewrite list_lookup_insert_eq by (by eapply lookup_lt_Some). simpl. rewrite get_put, decide_True by done. rewrite Ef. simpl.
  split_and!; [done| |done..]. apply list_at_bound in Ec. unfold list_at. simpl. by rewrite (lookup_app_l_Some _ _ _ _ Ec).
Qed.

Lemma hot_push_room t l :
  Z.of_nat (length (hot_queue_ t)) < HOT_QUEUE_SIZE ->
  exists t', hot_push t l = Some t' /\ key_map_ t' = key_map_ t /\ value_maps_ t' = value_maps_ t /\ postings_ t' = postings_ t /\
    hot_queue_ t' = hot_queue_ t ++ [l].
Proof. intros Hq. unfold hot_push. rewrite (proj2 (Z.ltb_lt _ _) Hq). by eexists. Qed.

(** C33. Two threads that add different ids to the same label, whose name is not
    known, can lose one of them: a thread makes the new map of values visible
    before it puts its list there, and without the lock of the value; the other
    puts its own list in between, and the first list is dropped. *)
Theorem new_name_loses_id t l a b :
  maps_ok t -> thmap_get (key_map_ t) (label l) = None -> is_u64 a -> is_u64 b -> a <> b ->
  Z.of_nat (length (hot_queue_ t)) + 1 < HOT_QUEUE_SIZE ->
  exists schedule s', run name_slot value_slot (mkShared t ∅ ∅, starting [(a, l); (b, l)]) schedule = (s', [mkThread a l Done; mkThread b l Done]) /\
    exists t', get_and_read (sh_index s') l = Some (true, [b], t').
Proof.
  intros Hm Ek Ha Hb Hne Hq. destruct (name_lists t l Hm Ek) as (Hm0 & Ek0 & Ef0 & _).
  set (vm := length (value_maps_ t)) in *. set (t0 := set_maps t _ _) in *.
  destruct (put_again t0 l vm Ek0) as [Hg Hf]. set (t0' := set_maps t0 _ _) in Hg, Hf.
  assert (Hm0' : maps_ok t0') by by apply put_again_ok.
  assert (Ek0' : thmap_get (key_map_ t0') (label l) = Some vm) by by rewrite Hg.
  destruct (put_lists t0' l vm (cpl_insert new_list b) Hm0' Ek0' Ef0) as (t1 & E1 & Hm1 & Ef1 & Ekm & _ & Eq1 & _ & _ & Hl1).
  specialize (Ef1 l). rewrite decide_True in Ef1 by done.
  destruct (hot_push_room t1 l) as (t2 & E2 & K2 & V2 & P2 & Q2); [rewrite Eq1; simpl; lia|].
  assert (Efp : find_posting t2 vm (value l) = Some (length (postings_ t0'))).
  { unfold find_list in Ef1. rewrite Ekm, Ek0' in Ef1. simpl in Ef1. unfold find_posting in *. by rewrite V2. }
  assert (Elp : list_at t2 (length (postings_ t0')) = Some (cpl_insert new_list b)).
  { specialize (Hl1 l). rewrite decide_True in Hl1 by done. unfold lists in Hl1. rewrite Ef1 in Hl1. simpl in Hl1.
    unfold list_at in *. by rewrite P2. }
  destruct (put_kept t2 vm (value l) _ _ (cpl_insert new_list a) Efp Elp) as (t3 & E3 & Ef3 & El3 & K3 & Q3).
  destruct (hot_push_room t3 l) as (t4 & E4 & K4 & V4 & P4 & Q4); [rewrite Q3, Q2, Eq1, length_app; simpl; lia|].
  exists [0; 0; 0; 0; 1; 1; 1; 1; 1; 1; 1; 0; 0; 0]%nat, (mkShared t4 ∅ ∅). split.
  - cbn [starting fmap list_fmap fst snd].
    first_goes (mkShared t ∅ ∅) NameLock; [|by rewrite Ek].
    first_goes (mkShared t {[name_slot l]} ∅) NameCheck; [|by rewrite lock_name_free].
    first_goes (mkShared t {[name_slot l]} ∅) NameNew; [|by rewrite Ek].
    first_goes (mkShared t0 {[name_slot l]} ∅) (NameNewPut vm); [|done].
    second_goes (mkShared t0 {[name_slot l]} ∅) (HasMap vm); [|by rewrite Ek0].
    second_goes (mkShared t0 {[name_slot l]} ∅) (ValueLock vm); [|by rewrite Ef0].
    second_goes (mkShared t0 {[name_slot l]} {[value_slot l]}) (ValueCheck vm);
      [|by rewrite lock_value_free].
    second_goes (mkShared t0 {[name_slot l]} {[value_slot l]}) (ValuePut vm); [|by rewrite Ef0].
    second_goes (mkShared t1 {[name_slot l]} {[value_slot l]}) (ValueUnlock true); [|fold t0'; by rewrite E1].
    second_goes (mkShared t1 {[name_slot l]} ∅) Push; [|unfold unlock_value; simpl; by rewrite difference_diag_L].
    second_goes (mkShared t2 {[name_slot l]} ∅) Done; [|unfold push_label; simpl; by rewrite E2].
    first_goes (mkShared t3 {[name_slot l]} ∅) (NameUnlock true); [|by rewrite E3].
    first_goes (mkShared t3 ∅ ∅) Push; [|unfold unlock_name; simpl; by rewrite difference_diag_L].
    first_goes (mkShared t4 ∅ ∅) Done; [|unfold push_label; simpl; by rewrite E4]. done.
  - assert (El4 : lists t4 l = Some (cpl_insert new_list b)).
    { unfold lists, find_list. rewrite K4, K3, K2, Ekm, Ek0'. simpl. unfold find_posting in *. rewrite V4, Ef3. simpl.
      unfold list_at in *. by rewrite P4. }
    destruct (list_of_new [] b l) as [Hok Hz]; [by intros z ?%elem_of_nil|done|].
    destruct (read_memory t4 l _ El4 Hok) as (t5 & E5). exists t5. simpl. rewrite E5. do 3 f_equal.
    apply asc_unique; [by apply v2_asc| |].
    + apply asc_cons. unfold is_u in Hb. split_and!; [lia|constructor|apply asc_nil].
    + intros z. rewrite Hz, list_elem_of_singleton. simpl. rewrite list_elem_of_singleton.
      split; [by intros [= ->]|by intros ->].
Qed.

End Race.

(** ** Names that are known *)

Section Safe.
Context `{PE : PastEnd} `{TK : Thmap str nat KM} `{TKL : !ThmapLaws str nat KM}.
Context `{TV : Thmap str nat VM} `{TVL : !ThmapLaws str nat VM} `{MG : MergeSet MS}.
Variables (name_slot value_slot : Label -> Z).
Implicit Type s : Shared KM VM MS.
Implicit Type t : ThmapPostings KM VM MS.
Implicit Type ths : list Thread.

(** The pairs the index held before, and the block of all ids. *)
Variables (H0 : list (Z * Label)) (B : Label -> Z).

(** The thread has put its id in; it holds the lock of its value. *)
Definition inserted (pt : Point) : bool :=
  match pt with
  | ValueUnlock _ | Push | NameValueUnlock | NamePush | NameUnlock _ | Done => true
  | _ => false
  end.

Definition critical (pt : Point) : bool :=
  match pt with ValueCheck _ | ValueFound _ | ValuePut _ | ValueUnlock _ => true | _ => false end.

Definition finished (pt : Point) : bool := match pt with Done => true | _ => false end.

(** The pair was there, or a thread has put it in. *)
Definition present ths (z : Z) (l : Label) : Prop :=
  (z, l) ∈ H0 \/ exists i th, ths !! i = Some th /\ inserted (th_at th) = true /\ th_id th = z /\ th_label th = l.

(** What a thread knows where it is. *)
Definition point_ok t (th : Thread) : Prop :=
  known t (label (th_label th)) /\
  match th_at th with
  | Start => True
  | HasMap vm | ValueLock vm | ValueCheck vm => thmap_get (key_map_ t) (label (th_label th)) = Some vm
  | ValuePut vm => thmap_get (key_map_ t) (label (th_label th)) = Some vm /\ lists t (th_label th) = None
  | HasList p | ValueFound p => find_list t (th_label th) = Some p
  | ValueUnlock _ | Push | Done => True
  | _ => False
  end.

Definition unfinished ths : nat := length (filter (fun th => finished (th_at th) = false) ths).

Record threads_ok s ths : Prop := {
  t_maps : maps_ok (sh_index s);
  t_lists l c : lists (sh_index s) l = Some c ->
    v2_ok (posting_list_ c) /\ forall z, z ∈ v2_ids (posting_list_ c) <-> present ths z l;
  t_none l z : lists (sh_index s) l = None -> ~ present ths z l;
  t_points i th : ths !! i = Some th -> point_ok (sh_index s) th;
  t_alone i j th th' : ths !! i = Some th -> ths !! j = Some th' -> critical (th_at th) = true -> critical (th_at th') = true ->
    value_slot (th_label th) = value_slot (th_label th') -> i = j;
  t_held x : x ∈ sh_values s <->
    exists i th, ths !! i = Some th /\ critical (th_at th) = true /\ value_slot (th_label th) = x;
  t_room : Z.of_nat (length (hot_queue_ (sh_index s)) + unfinished ths) <= HOT_QUEUE_SIZE;
  t_ids i th : ths !! i = Some th -> is_u64 (th_id th) /\ high 16 (th_id th) = B (th_label th);
  t_before z l : (z, l) ∈ H0 -> high 16 z = B l }.

Lemma present_step ths i th pt z l :
  ths !! i = Some th -> (inserted (th_at th) = true -> inserted pt = true) ->
  present (<[i := at_point th pt]> ths) z l <-> present ths z l \/ (inserted pt = true /\ z = th_id th /\ l = th_label th).
Proof.
  intros Hi Hmono. pose proof (lookup_lt_Some _ _ _ Hi) as Hlt. unfold present. split.
  - intros [?|(j & th' & Hj & Hin & <- & <-)]; [by left; left|].
    apply list_lookup_insert_Some in Hj as [(<- & <- & _)|[Hne Hj]].
    + by right.
    + left. right. by exists j, th'.
  - intros [[?|(j & th' & Hj & Hin & <- & <-)]|(Hin & -> & ->)]; [by left| |].
    + right. destruct (decide (i = j)) as [<-|Hne].
      * assert (th' = th) as -> by congruence. exists i, (at_point th pt). rewrite list_lookup_insert_eq by done.
        split_and!; [done| |done..]. by apply Hmono.
      * exists j, th'. by rewrite list_lookup_insert_ne.
    + right. exists i, (at_point th pt). rewrite list_lookup_insert_eq by done. done.
Qed.

(** Locks: those of the critical threads, when thread [i] moves to [pt]. *)
Definition locks_ok (V : gset Z) ths : Prop :=
  (forall i j th th', ths !! i = Some th -> ths !! j = Some th' -> critical (th_at th) = true -> critical (th_at th') = true ->
    value_slot (th_label th) = value_slot (th_label th') -> i = j) /\
  (forall x, x ∈ V <-> exists i th, ths !! i = Some th /\ critical (th_at th) = true /\ value_slot (th_label th) = x).

Lemma locks_step V V' ths i th pt :
  locks_ok V ths -> ths !! i = Some th ->
  ((critical pt = critical (th_at th) /\ V' = V) \/
   (critical pt = true /\ critical (th_at th) = false /\ (value_slot (th_label th) ∉ V) /\ V' = {[value_slot (th_label th)]} ∪ V) \/
   (critical pt = false /\ critical (th_at th) = true /\ V' = V ∖ {[value_slot (th_label th)]})) ->
  locks_ok V' (<[i := at_point th pt]> ths).
Proof.
  intros [Ha Hh] Hi Hc. pose proof (lookup_lt_Some _ _ _ Hi) as Hlt.
  assert (Hl : forall j x, <[i := at_point th pt]> ths !! j = Some x <->
    (j = i /\ x = at_point th pt) \/ (j <> i /\ ths !! j = Some x)).
  { intros j x. rewrite list_lookup_insert_Some. naive_solver. }
  assert (Hold : critical (th_at th) = true -> forall j x, ths !! j = Some x -> critical (th_at x) = true ->
    value_slot (th_label x) = value_slot (th_label th) -> j = i) by (intros C j x Hj Cx E; by eapply Ha).
  destruct Hc as [[C ->]|[(C & Co & Hn & ->)|(C & Co & ->)]]; split.
  - intros j k x y [(-> & ->)|(Hj & Hx)]%Hl [(-> & ->)|(Hk & Hy)]%Hl Cx Cy E; try done.
    + simpl in *. symmetry. eapply (Hold ltac:(congruence)); eauto.
    + simpl in *. eapply (Hold ltac:(congruence)); eauto.
    + by eapply Ha.
  - intros x. rewrite Hh. split.
    + intros (j & y & Hj & Cy & <-). destruct (decide (j = i)) as [->|Hne].
      * exists i, (at_point th pt). rewrite Hl. assert (y = th) as -> by congruence. split_and!; [by left|simpl; congruence|done].
      * exists j, y. rewrite Hl. naive_solver.
    + intros (j & y & [(-> & ->)|(Hj & Hy)]%Hl & Cy & <-); [exists i, th|exists j, y]; simpl in *; split_and!; congruence.
  - intros j k x y [(-> & ->)|(Hj & Hx)]%Hl [(-> & ->)|(Hk & Hy)]%Hl Cx Cy E; try done.
    + exfalso. apply Hn, Hh. exists k, y. simpl in *. by split_and!.
    + exfalso. apply Hn, Hh. exists j, x. simpl in *. by split_and!.
    + by eapply Ha.
  - intros x. rewrite elem_of_union, elem_of_singleton, Hh. split.
    + intros [->|(j & y & Hj & Cy & <-)].
      * exists i, (at_point th pt). rewrite Hl. split_and!; [by left|done..].
      * exists j, y. rewrite Hl. assert (j <> i) by (intros ->; congruence). naive_solver.
    + intros (j & y & [(-> & ->)|(Hj & Hy)]%Hl & Cy & <-); [by left|right]. by exists j, y.
  - intros j k x y [(-> & ->)|(Hj & Hx)]%Hl [(-> & ->)|(Hk & Hy)]%Hl Cx Cy E; simpl in *; try congruence. by eapply Ha.
  - intros x. rewrite elem_of_difference, elem_of_singleton, Hh. split.
    + intros [(j & y & Hj & Cy & <-) Hne]. exists j, y. rewrite Hl.
      assert (j <> i) by (intros ->; assert (y = th) as -> by congruence; done). naive_solver.
    + intros (j & y & [(-> & ->)|(Hj & Hy)]%Hl & Cy & <-); simpl in *; [congruence|]. split; [by exists j, y|].
      intros E. apply Hj. by eapply Hold.
Qed.


Lemma unfinished_step ths i th pt :
  ths !! i = Some th -> finished (th_at th) = false ->
  (unfinished (<[i := at_point th pt]> ths) + (if finished pt then 1 else 0) = unfinished ths)%nat.
Proof.
  intros Hi Hf. unfold unfinished. rewrite insert_take_drop by (by eapply lookup_lt_Some).
  transitivity (length (filter (fun th => finished (th_at th) = false) (take i ths ++ th :: drop (S i) ths)));
    [|by rewrite take_drop_middle].
  rewrite !filter_app, !length_app, (filter_cons_True _ th) by done. rewrite filter_cons. simpl.
  destruct (finished pt); case_decide; try done; simpl; lia.
Qed.

Lemma point_frame t t' th :
  (forall n, thmap_get (key_map_ t') n = thmap_get (key_map_ t) n) ->
  (forall l p, find_list t l = Some p -> find_list t' l = Some p) ->
  (forall vm, th_at th = ValuePut vm -> lists t (th_label th) = None -> lists t' (th_label th) = None) ->
  point_ok t th -> point_ok t' th.
Proof.
  intros Hk Hf Hp [Hkn Hpt]. split; [unfold known; by rewrite Hk|]. destruct (th_at th) eqn:E; rewrite ?Hk; try done; try (by apply Hf).
  destruct Hpt as [? ?]. split; [done|]. by eapply Hp.
Qed.

(** Thread [i] moves to [pt] and the shared state to [s']. *)
Lemma moved_ok s s' ths i th pt :
  threads_ok s ths -> ths !! i = Some th -> finished (th_at th) = false ->
  (inserted (th_at th) = true -> inserted pt = true) ->
  maps_ok (sh_index s') ->
  (forall l c, lists (sh_index s') l = Some c -> v2_ok (posting_list_ c) /\
     forall z, z ∈ v2_ids (posting_list_ c) <-> present ths z l \/ (inserted pt = true /\ z = th_id th /\ l = th_label th)) ->
  (forall l z, lists (sh_index s') l = None -> ~ (present ths z l \/ (inserted pt = true /\ z = th_id th /\ l = th_label th))) ->
  (forall j th', j <> i -> ths !! j = Some th' -> point_ok (sh_index s') th') -> point_ok (sh_index s') (at_point th pt) ->
  locks_ok (sh_values s') (<[i := at_point th pt]> ths) ->
  (length (hot_queue_ (sh_index s')) <= length (hot_queue_ (sh_index s)) + (if finished pt then 1 else 0))%nat ->
  threads_ok s' (<[i := at_point th pt]> ths).
Proof.
  intros Hok Hi Hfin Hmono Hm Hl Hnone Hpts Hpt [Ha Hh] Hq.
  pose proof (fun z l => present_step ths i th pt z l Hi Hmono) as Hp. split; [done| | | |done|done| | |].
  - intros l c Hlc. destruct (Hl l c Hlc) as [? Hz]. split; [done|]. intros z. by rewrite Hz, Hp.
  - intros l z Hn. rewrite Hp. by apply Hnone.
  - intros j th' Hj. apply list_lookup_insert_Some in Hj as [(<- & <- & _)|[Hne Hj]]; [done|]. by apply (Hpts j).
  - pose proof (t_room _ _ Hok). pose proof (unfinished_step ths i th pt Hi Hfin). lia.
  - intros j th' Hj. apply list_lookup_insert_Some in Hj as [(<- & <- & _)|[Hne Hj]]; [exact (t_ids _ _ Hok i th Hi)|].
    by apply (t_ids _ _ Hok j).
  - apply (t_before _ _ Hok).
Qed.


(** A step that changes no list. *)
Lemma kept_ok s s' ths i th pt :
  threads_ok s ths -> ths !! i = Some th -> finished (th_at th) = false -> inserted pt = inserted (th_at th) ->
  maps_ok (sh_index s') -> (forall l, lists (sh_index s') l = lists (sh_index s) l) ->
  (forall th', point_ok (sh_index s) th' -> point_ok (sh_index s') th') -> point_ok (sh_index s') (at_point th pt) ->
  locks_ok (sh_values s') (<[i := at_point th pt]> ths) ->
  (length (hot_queue_ (sh_index s')) <= length (hot_queue_ (sh_index s)) + (if finished pt then 1 else 0))%nat ->
  threads_ok s' (<[i := at_point th pt]> ths).
Proof.
  intros Hok Hi Hfin Hin Hm Hl Hf Hpt Hlk Hq.
  assert (Hp : forall z l, present ths z l \/ (inserted pt = true /\ z = th_id th /\ l = th_label th) <-> present ths z l).
  { intros z l. split; [|by left]. intros [?|(Hpi & -> & ->)]; [done|]. right. exists i, th. by rewrite <- Hin. }
  apply (moved_ok s); try done.
  - by rewrite Hin.
  - intros l c. rewrite Hl. intros Hlc. destruct (t_lists _ _ Hok l c Hlc) as [? Hz]. split; [done|]. intros z. by rewrite Hz, Hp.
  - intros l z. rewrite Hl, Hp. apply (t_none _ _ Hok l z).
  - intros j th' _ Hj. by apply Hf, (t_points _ _ Hok j).
Qed.

(** A step that changes nothing that is shared. *)
Lemma silent_ok s ths i th pt :
  threads_ok s ths -> ths !! i = Some th -> finished (th_at th) = false -> inserted (th_at th) = false -> inserted pt = false ->
  critical pt = critical (th_at th) -> point_ok (sh_index s) (at_point th pt) -> threads_ok s (<[i := at_point th pt]> ths).
Proof.
  intros Hok Hi Hfin Hin Hpi Hc Hpt. apply (kept_ok s); try done; [congruence|apply (t_maps _ _ Hok)| |lia].
  eapply locks_step; [split; [apply (t_alone _ _ Hok)|apply (t_held _ _ Hok)]|done|by left].
Qed.

(** All ids of a list are in the block of the ids to come. *)
Lemma list_insert_ok s ths i th c :
  threads_ok s ths -> ths !! i = Some th -> lists (sh_index s) (th_label th) = Some c ->
  v2_ok (posting_list_ (cpl_insert c (th_id th))) /\
  forall z, z ∈ v2_ids (posting_list_ (cpl_insert c (th_id th))) <-> z = th_id th \/ present ths z (th_label th).
Proof.
  intros Hok Hi Hl. destruct (t_lists _ _ Hok _ _ Hl) as [Hv Hz]. destruct (t_ids _ _ Hok i th Hi) as [Hu Hb].
  assert (Hfit : fits (posting_list_ c) (th_id th)).
  { apply fits_late; [done|]. intros z Hin%Hz. rewrite Hb. destruct Hin as [Hin|(j & th' & Hj & _ & <- & El)].
    - by rewrite (t_before _ _ Hok z _ Hin).
    - destruct (t_ids _ _ Hok j th' Hj) as [_ ->]. by rewrite El. }
  destruct (v2_insert_ok _ _ Hv Hu Hfit) as [Hv' E]. split; [done|]. intros z. simpl. rewrite E, set_insert_elem by (by apply v2_asc).
  by rewrite Hz.
Qed.

Lemma new_list_ok id : is_u64 id ->
  v2_ok (posting_list_ (cpl_insert new_list id)) /\ forall z, z ∈ v2_ids (posting_list_ (cpl_insert new_list id)) <-> z = id.
Proof.
  intros Hu. destruct (v2_insert_ok v2_new id v2_new_ok Hu) as [Hv E]; [right; constructor|]. split; [done|].
  intros z. simpl. rewrite E, set_insert_elem by (apply asc_nil). split; [intros [?|?%elem_of_nil]; done|by left].
Qed.

(** The list of the label of thread [i] gets its id. *)
Lemma inserted_ok s s' ths i th pt c :
  threads_ok s ths -> ths !! i = Some th -> finished (th_at th) = false -> inserted pt = true ->
  maps_ok (sh_index s') ->
  (forall l, lists (sh_index s') l = if decide (l = th_label th) then Some c else lists (sh_index s) l) ->
  (v2_ok (posting_list_ c) /\ forall z, z ∈ v2_ids (posting_list_ c) <-> z = th_id th \/ present ths z (th_label th)) ->
  (forall n, thmap_get (key_map_ (sh_index s')) n = thmap_get (key_map_ (sh_index s)) n) ->
  (forall l p, find_list (sh_index s) l = Some p -> find_list (sh_index s') l = Some p) ->
  (lists (sh_index s) (th_label th) = None -> critical (th_at th) = true) ->
  sh_values s' = sh_values s -> critical pt = critical (th_at th) ->
  (match pt with ValueUnlock _ | Push | Done => True | _ => False end) ->
  hot_queue_ (sh_index s') = hot_queue_ (sh_index s) -> threads_ok s' (<[i := at_point th pt]> ths).
Proof.
  intros Hok Hi Hfin Hpi Hm Hl [Hv Hz] Hk Hf Hcr EV Hc Hpt Eq. pose proof (t_points _ _ Hok i th Hi) as [Hkn _].
  assert (Hlocks : locks_ok (sh_values s) ths) by (split; [apply (t_alone _ _ Hok)|apply (t_held _ _ Hok)]).
  apply (moved_ok s); try done.
  - intros l c'. rewrite Hl. case_decide as El.
    + intros [= <-]. split; [done|]. intros z. rewrite Hz, El. naive_solver.
    + intros Hl'. destruct (t_lists _ _ Hok l c' Hl') as [? Hz']. split; [done|]. intros z. rewrite Hz'. naive_solver.
  - intros l z. rewrite Hl. case_decide; [done|]. intros Hl'. pose proof (t_none _ _ Hok l z Hl'). naive_solver.
  - intros j th' Hj Hth'. apply (point_frame (sh_index s)); [done|done| |by apply (t_points _ _ Hok j)].
    intros vm Evm Hn. rewrite Hl. case_decide as El; [|done]. exfalso. apply Hj. rewrite El in Hn.
    apply (proj1 Hlocks j i th' th); [done|done|by rewrite Evm|by apply Hcr|by rewrite El].
  - split; [unfold known in *; simpl; by rewrite Hk|]. simpl. by destruct pt.
  - rewrite EV. eapply locks_step; [exact Hlocks|done|by left].
  - rewrite Eq. lia.
Qed.

(** The insert into a list that was found. *)
Lemma found_ok s s' ths i th p r pt :
  threads_ok s ths -> ths !! i = Some th -> finished (th_at th) = false -> inserted r = true ->
  find_list (sh_index s) (th_label th) = Some p -> critical r = critical (th_at th) ->
  match r with ValueUnlock _ | Push | Done => True | _ => False end ->
  (s1 ← insert_at s p (th_id th); Some (s1, r)) = Some (s', pt) -> threads_ok s' (<[i := at_point th pt]> ths).
Proof.
  intros Hok Hi Hfin Hin Hp Hc Hr Hs. pose proof (t_maps _ _ Hok) as Hm.
  destruct (update_lists (sh_index s) (th_label th) p (fun c => cpl_insert c (th_id th)) Hm Hp) as (t' & c & Ec & E & -> & Hm' & Hl').
  unfold insert_at in Hs. rewrite E in Hs. injection Hs as <- <-.
  apply (inserted_ok s _ ths i th r (cpl_insert c (th_id th))); try done.
  - by apply (list_insert_ok s ths i).
  - intros Hn. congruence.
Qed.

(** A list for a value that has none. *)
Lemma put_ok s ths i th vm s' pt :
  threads_ok s ths -> ths !! i = Some th -> th_at th = ValuePut vm ->
  astep name_slot value_slot s th = Some (s', pt) -> threads_ok s' (<[i := at_point th pt]> ths).
Proof.
  intros Hok Hi Eat Hs. pose proof (t_points _ _ Hok i th Hi) as [Hkn Hpt]. pose proof (t_maps _ _ Hok) as Hm.
  unfold astep in Hs. rewrite Eat in Hs, Hpt. cbv zeta in Hs.
  destruct Hpt as [Ek El]. destruct (put_again _ _ _ Ek) as [Hg Hf]. set (t0 := set_maps (sh_index s) _ _) in *.
  destruct (put_lists t0 (th_label th) vm (cpl_insert new_list (th_id th))) as (t1 & E1 & Hm1 & Hf1 & Ek1 & _ & Eq1 & _ & _ & Hl1);
    [by apply put_again_ok|by rewrite Hg|exact (lists_none _ _ _ Hm El Ek)|].
  rewrite E1 in Hs. injection Hs as <- <-.
  assert (Hl1' : forall l, lists t1 l = if decide (l = th_label th) then Some (cpl_insert new_list (th_id th)) else lists (sh_index s) l).
  { intros l. rewrite Hl1. case_decide; [done|]. unfold lists. by rewrite Hf. }
  apply (inserted_ok s _ ths i th (ValueUnlock true) (cpl_insert new_list (th_id th))); rewrite ?Eat; try done.
  - destruct (new_list_ok (th_id th)) as [Hv Hz]; [by apply (t_ids _ _ Hok i)|]. split; [done|]. intros z. rewrite Hz.
    split; [by left|]. intros [?|Hp]; [done|]. exfalso. by apply (t_none _ _ Hok _ z El).
  - intros n. simpl. by rewrite Ek1, Hg.
  - intros l p Hp. simpl. rewrite Hf1. case_decide as E; [|by rewrite Hf]. subst l. unfold lists in El. rewrite Hp in El. simpl in El.
    destruct (ok_lists _ Hm _ _ Hp) as [c Hc]. congruence.
Qed.

Lemma step_ok s ths i th s' pt :
  threads_ok s ths -> ths !! i = Some th -> astep name_slot value_slot s th = Some (s', pt) ->
  threads_ok s' (<[i := at_point th pt]> ths).
Proof.
  intros Hok Hi Hs. pose proof (t_points _ _ Hok i th Hi) as [Hkn Hpt]. pose proof (t_maps _ _ Hok) as Hm.
  assert (Hlocks : locks_ok (sh_values s) ths) by (split; [apply (t_alone _ _ Hok)|apply (t_held _ _ Hok)]).
  pose proof Hs as Hs0. unfold astep in Hs. destruct (th_at th) eqn:Eat; try done; cbv zeta in Hs.
  - destruct Hkn as [vm Ek]. rewrite Ek in Hs. injection Hs as <- <-. apply silent_ok; rewrite ?Eat; try done.
    split; [by exists vm|done].
  - injection Hs as <- <-. destruct (find_posting (sh_index s) vm (value (th_label th))) as [p|] eqn:Ep;
      apply silent_ok; rewrite ?Eat; try done; (split; [done|]).
    simpl. unfold find_list. by rewrite Hpt.
  - by apply (found_ok s s' ths i th p Done pt); rewrite ?Eat.
  - unfold lock_value in Hs. destruct (decide (value_slot (th_label th) ∈ sh_values s)) as [|Hfree]; [done|]. injection Hs as <- <-.
    apply (kept_ok s); rewrite ?Eat; try done; [|simpl; lia].
    eapply locks_step; [exact Hlocks|done|]. right. left. by rewrite Eat.
  - injection Hs as <- <-. destruct (find_posting (sh_index s) vm (value (th_label th))) as [p|] eqn:Ep;
      apply silent_ok; rewrite ?Eat; try done; (split; [done|]); simpl.
    + unfold find_list. by rewrite Hpt.
    + split; [done|]. unfold lists, find_list. rewrite Hpt. simpl. by rewrite Ep.
  - by apply (found_ok s s' ths i th p (ValueUnlock false) pt); rewrite ?Eat.
  - by eapply put_ok.
  - injection Hs as <- <-. apply (kept_ok s); rewrite ?Eat; try done; [by destruct put|by split; destruct put| |simpl; lia].
    eapply locks_step; [exact Hlocks|done|]. right. right. rewrite Eat. by destruct put.
  - unfold push_label, hot_push in Hs. destruct (Z.of_nat (length (hot_queue_ (sh_index s))) <? HOT_QUEUE_SIZE); [|done].
    injection Hs as <- <-. apply (kept_ok s); rewrite ?Eat; try done.
    + destruct Hm as [a1 a2 a3 a4]. split; [exact a1|exact a2|exact a3|exact a4].
    + eapply locks_step; [exact Hlocks|done|]. left. by rewrite Eat.
    + simpl. rewrite length_app. simpl. lia.
Qed.


(** ** No thread is stuck *)

(** A thread that holds a lock can go on, and any other one when no lock is
    held. *)
Lemma can_step s ths i th :
  threads_ok s ths -> ths !! i = Some th -> finished (th_at th) = false ->
  critical (th_at th) = true \/ sh_values s = ∅ -> is_Some (astep name_slot value_slot s th).
Proof.
  intros Hok Hi Hfin Hc. pose proof (t_points _ _ Hok i th Hi) as [Hkn Hpt]. pose proof (t_maps _ _ Hok) as Hm.
  unfold astep. destruct (th_at th) eqn:Eat; try done; cbv zeta.
  - destruct (update_lists (sh_index s) (th_label th) p (fun c => cpl_insert c (th_id th)) Hm Hpt) as (t' & c & _ & E & _).
    unfold insert_at. by rewrite E.
  - destruct Hc as [Hc|Hc]; [done|]. unfold lock_value. rewrite decide_False; [done|]. rewrite Hc. set_solver.
  - destruct (update_lists (sh_index s) (th_label th) p (fun c => cpl_insert c (th_id th)) Hm Hpt) as (t' & c & _ & E & _).
    unfold insert_at. by rewrite E.
  - destruct Hpt as [Ek El]. destruct (put_again _ _ _ Ek) as [Hg Hf]. set (t0 := set_maps (sh_index s) _ _) in *.
    destruct (put_lists t0 (th_label th) vm (cpl_insert new_list (th_id th))) as (t1 & E1 & _);
      [by apply put_again_ok|by rewrite Hg|exact (lists_none _ _ _ Hm El Ek)|]. by rewrite E1.
  - unfold push_label, hot_push. rewrite (proj2 (Z.ltb_lt _ _)); [done|]. pose proof (t_room _ _ Hok).
    pose proof (unfinished_step ths i th Done Hi ltac:(by rewrite Eat)). simpl in *. lia.
Qed.

Lemma some_can_step s ths :
  threads_ok s ths -> ~ all_done ths -> exists i th, ths !! i = Some th /\ is_Some (astep name_slot value_slot s th).
Proof.
  intros Hok Hnd. destruct (set_choose_or_empty (sh_values s)) as [[x Hx]|He].
  - apply (t_held _ _ Hok) in Hx as (i & th & Hi & Hc & _). exists i, th. split; [done|].
    apply (can_step s ths i); [done..|by destruct (th_at th)|by left].
  - apply leibniz_equiv in He. unfold all_done in Hnd. apply not_Forall_Exists in Hnd; [|apply _].
    apply Exists_exists in Hnd as (th & [i Hi]%list_elem_of_lookup_1 & Hd). exists i, th. split; [done|].
    apply (can_step s ths i); [done..| |by right]. simpl in Hd. by destruct (th_at th).
Qed.

(** Steps a thread still has to take, at most. *)
Definition steps_left (pt : Point) : nat :=
  match pt with
  | Start => 7 | HasMap _ => 6 | HasList _ => 5 | ValueLock _ => 5 | ValueCheck _ => 4
  | ValueFound _ => 3 | ValuePut _ => 3 | ValueUnlock _ => 2 | Push => 1 | _ => 0
  end.

Lemma step_left s th s' pt :
  point_ok (sh_index s) th -> astep name_slot value_slot s th = Some (s', pt) -> (steps_left pt < steps_left (th_at th))%nat.
Proof.
  intros [[vm Hk] Hpt] Hs. unfold astep in Hs. destruct (th_at th) eqn:Eat; try done; cbv zeta in Hs.
  - rewrite Hk in Hs. injection Hs as _ <-. simpl. lia.
  - injection Hs as _ <-. destruct (find_posting _ _ _); simpl; lia.
  - destruct (insert_at s p _); [|done]. injection Hs as _ <-. simpl. lia.
  - destruct (lock_value value_slot s _); [|done]. injection Hs as _ <-. simpl. lia.
  - injection Hs as _ <-. destruct (find_posting _ _ _); simpl; lia.
  - destruct (insert_at s p _); [|done]. injection Hs as _ <-. simpl. lia.
  - destruct (put_list _ _ _ _); [|done]. injection Hs as _ <-. simpl. lia.
  - injection Hs as _ <-. destruct put; simpl; lia.
  - destruct (push_label s _); [|done]. injection Hs as _ <-. simpl. lia.
Qed.

Definition total_left ths : nat := sum_list_with (fun th => steps_left (th_at th)) ths.

Lemma total_step ths i th pt :
  ths !! i = Some th -> (steps_left pt < steps_left (th_at th))%nat ->
  (total_left (<[i := at_point th pt]> ths) < total_left ths)%nat.
Proof.
  intros Hi Hlt. unfold total_left. rewrite insert_take_drop by (by eapply lookup_lt_Some).
  apply Nat.lt_le_trans with (sum_list_with (fun th => steps_left (th_at th)) (take i ths ++ th :: drop (S i) ths));
    [|by rewrite take_drop_middle].
  rewrite !sum_list_with_app. simpl. lia.
Qed.

Lemma run_ok sch : forall s ths,
  threads_ok s ths -> threads_ok (run name_slot value_slot (s, ths) sch).1 (run name_slot value_slot (s, ths) sch).2.
Proof.
  induction sch as [|i sch IH]; intros s ths Hok; [done|]. unfold run. simpl. unfold tstep at 2 4. simpl.
  destruct (ths !! i) as [th|] eqn:Hi; [|by apply IH].
  destruct (astep name_slot value_slot s th) as [[s' pt]|] eqn:E; [|by apply IH].
  apply IH. by eapply step_ok.
Qed.

(** From every state there is a run to the end. *)
Lemma can_finish n : forall s ths,
  threads_ok s ths -> (total_left ths <= n)%nat -> exists sch, all_done (run name_slot value_slot (s, ths) sch).2.
Proof.
  induction n as [|n IH]; intros s ths Hok Hn.
  - exists []. simpl. destruct (decide (all_done ths)) as [|Hnd]; [done|]. exfalso.
    destruct (some_can_step s ths Hok Hnd) as (i & th & Hi & [s' pt] & E).
    pose proof (total_step ths i th pt Hi (step_left _ _ _ _ (t_points _ _ Hok i th Hi) E)). lia.
  - destruct (decide (all_done ths)) as [|Hnd]; [by exists []|].
    destruct (some_can_step s ths Hok Hnd) as (i & th & Hi & [s' pt] & E).
    pose proof (total_step ths i th pt Hi (step_left _ _ _ _ (t_points _ _ Hok i th Hi) E)) as Hlt.
    destruct (IH s' (<[i := at_point th pt]> ths)) as [sch Hd]; [by eapply step_ok|lia|].
    exists (i :: sch). unfold run in *. simpl. unfold tstep at 2. simpl. by rewrite Hi, E.
Qed.

End Safe.

Section Concurrent.
Context `{PE : PastEnd} `{TK : Thmap str nat KM} `{TKL : !ThmapLaws str nat KM}.
Context `{TV : Thmap str nat VM} `{TVL : !ThmapLaws str nat VM} `{MG : MergeSet MS} `{ML : !MergeSetLaws MS}.
Variables (name_slot value_slot : Label -> Z).
Implicit Type t : ThmapPostings KM VM MS.

(** The threads go on adding what they started with. *)
Definition adds (ths : list Thread) : list (Z * Label) := (fun th => (th_id th, th_label th)) <$> ths.

Lemma run_adds sch : forall st : Shared KM VM MS * list Thread, adds (run name_slot value_slot st sch).2 = adds st.2.
Proof.
  induction sch as [|i sch IH]; intros [s ths]; [done|]. unfold run in *. simpl. rewrite IH. unfold tstep. simpl.
  destruct (ths !! i) as [th|] eqn:Hi; [|done]. destruct (astep _ _ s th) as [[s' pt]|]; [|done]. simpl.
  unfold adds. rewrite list_fmap_insert. apply list_insert_id. by rewrite list_lookup_fmap, Hi.
Qed.

Lemma starting_adds l : adds (starting l) = l.
Proof. induction l as [|[z lb] l IH]; [done|]. unfold adds, starting in *. rewrite !fmap_cons, IH. done. Qed.

Lemma starting_ok t H B l :
  holds t H -> unmoved t H -> (forall z lb, (z, lb) ∈ H -> high 16 z = B lb) ->
  Forall (fun p => is_u64 p.1 /\ high 16 p.1 = B p.2 /\ known t (label p.2)) l ->
  Z.of_nat (length (hot_queue_ t) + length l) <= HOT_QUEUE_SIZE ->
  threads_ok value_slot H B (mkShared t ∅ ∅) (starting l).
Proof.
  intros Ht Hu HB Hl Hq.
  assert (Hst : forall i th, starting l !! i = Some th -> exists p, p ∈ l /\ th = mkThread p.1 p.2 Start).
  { intros i th (p & -> & Hp)%list_lookup_fmap_Some. exists p. split; [by eapply list_elem_of_lookup_2|done]. }
  rewrite Forall_forall in Hl.
  assert (Hpr : forall z lb, present H (starting l) z lb <-> (z, lb) ∈ H).
  { intros z lb. split; [|by left]. intros [?|(i & th & (p & _ & ->)%Hst & Hin & _)]; done. }
  split; simpl.
  - apply (h_maps t H Ht).
  - intros lb c Hc. destruct (h_memory t H Ht lb c Hc) as [? Hz]. split; [done|]. intros z. by rewrite Hz, Hpr.
  - intros lb z Hn. rewrite Hpr. intros Hin. destruct Hu as (_ & Hu & _). destruct (Hu z lb Hin). congruence.
  - intros i th (p & Hp & ->)%Hst. split; [|done]. by apply Hl.
  - intros i j th th' (p & _ & ->)%Hst _ Hc. done.
  - intros x. split; [set_solver|]. intros (i & th & (p & _ & ->)%Hst & Hc & _). done.
  - unfold unfinished. pose proof (length_filter (fun th => finished (th_at th) = false) (starting l)) as Hf.
    unfold starting in Hf at 2. rewrite length_fmap in Hf. lia.
  - intros i th (p & Hp & ->)%Hst. simpl. by destruct (Hl p Hp) as (? & ? & _).
  - done.
Qed.

(** C15. Threads that add ids to labels whose names are known do not disturb each
    other: under every interleaving of their steps all of them can still
    finish, and once they have, what is read for a label is the ids it had and
    those that were added to it, none lost or double.  The ids of a label are
    those of one block of 2^16 ([B], which may differ from label to label), no
    list has been moved to the merge set, the queue of labels has room for the
    threads, and emptying it, the first lines of [add], is not among the steps. *)
Theorem concurrent_adds_kept t H B l schedule :
  holds t H -> unmoved t H -> (forall z lb, (z, lb) ∈ H -> high 16 z = B lb) ->
  Forall (fun p => is_u64 p.1 /\ high 16 p.1 = B p.2 /\ known t (label p.2)) l ->
  Z.of_nat (length (hot_queue_ t) + length l) <= HOT_QUEUE_SIZE ->
  let st := run name_slot value_slot (mkShared t ∅ ∅, starting l) schedule in
  (exists more, all_done (run name_slot value_slot st more).2) /\
  (all_done st.2 -> forall z lb, (z, lb) ∈ H ++ l -> exists X t',
     get_and_read (sh_index st.1) lb = Some (true, X, t') /\ asc X /\ forall y, y ∈ X <-> (y, lb) ∈ H ++ l).
Proof.
  intros Ht Hu HB Hl Hq st. pose proof (starting_ok t H B l Ht Hu HB Hl Hq) as Hok0.
  pose proof (run_ok name_slot value_slot H B schedule _ _ Hok0) as Hok. fold st in Hok. split.
  - destruct st as [s ths]. by eapply can_finish.
  - intros Hd z lb Hin. pose proof (run_adds schedule (mkShared t ∅ ∅, starting l)) as El. fold st in El.
    assert (Hpr : forall y k, present H st.2 y k <-> (y, k) ∈ H ++ l).
    { intros y k. rewrite elem_of_app. unfold present. f_equiv. unfold all_done in Hd. rewrite Forall_forall in Hd. split.
      - intros (i & th & Hi & _ & <- & <-). rewrite <- (starting_adds l). simpl in El. rewrite <- El.
        apply list_elem_of_fmap. exists th. split; [done|by eapply list_elem_of_lookup_2].
      - intros Hyk. rewrite <- (starting_adds l) in Hyk. simpl in El. rewrite <- El in Hyk.
        apply list_elem_of_fmap in Hyk as (th & [= -> ->] & [i Hi]%list_elem_of_lookup_1). exists i, th.
        split_and!; [done| |done..]. rewrite Hd; [done|]. by eapply list_elem_of_lookup_2. }
    destruct (lists (sh_index st.1) lb) as [c|] eqn:Ec.
    + destruct (t_lists _ _ _ _ _ Hok lb c Ec) as [Hv Hz]. destruct (read_memory _ _ _ Ec Hv) as (t' & E).
      exists (v2_ids (posting_list_ c)), t'. split_and!; [done|by apply v2_asc|]. intros y. by rewrite Hz, Hpr.
    + exfalso. apply (t_none _ _ _ _ _ Hok lb z Ec). by apply Hpr.
Qed.

End Concurrent.

(** ** Instances *)
Module ThreadsDemo.
Import IndexDemo.
#[local] Existing Instance IndexDemo.zero_end.

Definition few : list (Z * Labels) := [(1, [name 1; host 1; job 1]); (2, [name 1; host 2])].

Lemma few_orderly : orderly [] few.
Proof.
  apply ascending_orderly.
  - repeat constructor; unfold is_u; simpl; lia.
  - cbn. repeat (apply SSorted_nil || apply Forall_nil_2 || apply SSorted_cons || apply Forall_cons_2); lia.
  - by intros z l ?%elem_of_nil.
Qed.

(** The index with two series. *)
Definition before : Index := default empty (add_all empty few).

Lemma before_holds : holds before (pairs few) /\ unmoved before (pairs few).
Proof.
  destruct (added_holds (∅ : gmap str str) empty few eq_refl nothing_stored few_orderly) as (t & Et & Ht & Hu).
  unfold before. by rewrite Et.
Qed.

(** Two threads bring in the same value of a known name, a third one adds to a
    list that is there; all values share one lock. *)
Definition jobs : list (Z * Label) := [(3, host 9); (4, host 9); (5, host 1)].
Definition schedule : list nat := [0; 1; 2; 0; 1; 0; 1; 2; 0; 2; 1; 0; 1; 0; 1; 0; 1; 1; 1; 1]%nat.

Lemma concurrent_adds_kept_witness :
  let st := run (fun _ => 0) (fun _ => 0) (mkShared before ∅ ∅, starting jobs) schedule in
  (exists more, all_done (run (fun _ => 0) (fun _ => 0) st more).2) /\
  (all_done st.2 -> forall z lb, (z, lb) ∈ pairs few ++ jobs -> exists X t',
     get_and_read (sh_index st.1) lb = Some (true, X, t') /\ asc X /\ forall y, y ∈ X <-> (y, lb) ∈ pairs few ++ jobs).
Proof.
  apply (concurrent_adds_kept (fun _ => 0) (fun _ => 0) before (pairs few) (fun _ => 0) jobs schedule).
  - apply before_holds.
  - apply before_holds.
  - intros z lb. unfold pairs, few, pairs_of. simpl. rewrite !elem_of_cons, elem_of_nil.
    intros [[= -> _]|[[= -> _]|[[= -> _]|[]]]]; reflexivity.
  - repeat (apply Forall_cons_2 || apply Forall_nil_2); (split; [unfold is_u; simpl; lia|]); (split; [reflexivity|]);
      exists 0%nat; vm_compute; reflexivity.
  - vm_compute. discriminate.
Defined.

(** The threads of the schedule do finish, and no id is lost. *)
Example demo_threads :
  let st := run (fun _ => 0) (fun _ => 0) (mkShared before ∅ ∅, starting jobs) schedule in
  th_at <$> st.2 = [Done; Done; Done] /\
  ('(_, X, t) ← get_and_read (sh_index st.1) (host 9); '(_, Y, _) ← get_and_read t (host 1); Some (X, Y)) = Some ([3; 4], [1; 5]).
Proof. vm_compute. split; reflexivity. Qed.

Lemma new_name_loses_id_witness :
  exists sch s', run (fun _ => 0) (fun _ => 0) (mkShared empty ∅ ∅, starting [(1, host 1); (2, host 1)]) sch =
      (s', [mkThread 1 (host 1) Done; mkThread 2 (host 1) Done]) /\
    exists t', get_and_read (sh_index s') (host 1) = Some (true, [2], t').
Proof.
  apply (new_name_loses_id (fun _ => 0) (fun _ => 0) empty (host 1) 1 2).
  - destruct (new_index_holds (∅ : gmap str str) empty eq_refl nothing_stored) as [H _]. apply H.
  - vm_compute. reflexivity.
  - unfold is_u. lia.
  - unfold is_u. lia.
  - lia.
  - vm_compute. reflexivity.
Defined.

End ThreadsDemo.
