(* ===== verification/HeadSelect.v ===== *)
(** head/TreeHead.cpp with index/ThmapPostings: the selection of series the
    head has named.

    [ThmapPostings] is the inverted index ([InvertedIndex]) of the tree head of
    HeadIndex; what [TreeHead::select] answers is related to the label sets
    series were created with. *)
From Stdlib Require Import ZArith Lia Bool Sorting.Sorted.
From stdpp Require Import base list numbers option gmap sorting.
From S2P Require Import Prelude Endian Coding BitStream XORChunk Label MassTree SlabStore SlabFlush TreeMemSeries.
From S2P Require Import Postings Matchers HeadIndex PrefixPostings ThmapPostings.

Section HeadSelect.
Context `{PE : PastEnd} `{TI : Thmap str Z MI} `{TIL : !ThmapLaws str Z MI} `{TF : Thmap Z Z MF} `{TL : !ThmapLaws Z Z MF}.
Context `{TK : Thmap str nat KM} `{TKL : !ThmapLaws str nat KM}.
Context `{TV : Thmap str nat VM} `{TVL : !ThmapLaws str nat VM}.
Context `{MG : MergeSet MS} `{ML : !MergeSetLaws MS}.

(** [inverted_index_.add(sgid, lset)]; [None] once a call did not return. *)
#[export] Instance thmap_inverted : InvertedIndex (option (ThmapPostings KM VM MS)) :=
  fun o id ls => t ← o; add_labels t id ls.

Implicit Type h : TreeHead MI MF (option (ThmapPostings KM VM MS)).

(** ** How creating a series uses the inverted index *)

Lemma source_id_inverted h a e s e' h' :
  get_or_create_source_id h a e = Some (s, e', h') ->
  inverted_index_ h' = inverted_index_ h /\
  (a <> [] -> e' = true -> e = true /\ thmap_get (source_thmap_ h) (label_source_group a) = Some s).
Proof.
  unfold get_or_create_source_id. destruct a as [|l rest]; [by intros [= _ _ <-]|].
  destruct (thmap_get _ _) as [g|] eqn:E; [by intros [= <- <- <-]|]. cbv zeta.
  destruct (pool_set _ _ _); [|done]. cbn [mbind option_bind]. by intros [= <- <- <-].
Qed.

Lemma metric_id_inverted h a e m e' h' :
  get_or_create_metric_id h a e = Some (m, e', h') ->
  inverted_index_ h' = inverted_index_ h /\ source_thmap_ h' = source_thmap_ h /\ (e' = true -> e = true).
Proof.
  unfold get_or_create_metric_id. destruct a as [|l rest]; [by intros [= _ <- <-]|].
  destruct (thmap_get _ _) as [g|] eqn:E; [by intros [= <- <- <-]|]. cbv zeta.
  destruct (pool_set _ _ _); [|done]. cbn [mbind option_bind]. by intros [= <- <- <-].
Qed.

(** The ids, and the call of the inverted index when one of them is new. *)
Lemma create_inverted h junk a p new h' :
  get_or_create_by_thmap h junk a = Some (p, new, h') ->
  exists s e h1 m e' h2, get_or_create_source_id h a true = Some (s, e, h1) /\
    get_or_create_metric_id h1 a e = Some (m, e', h2) /\ source_thmap_ h' = source_thmap_ h1 /\
    inverted_index_ h' = if e' then inverted_index_ h else inv_add (inverted_index_ h) s a.
Proof.
  unfold get_or_create_by_thmap. destruct (get_or_create_source_id h a true) as [[[s e] h1]|] eqn:E1; [|done].
  destruct (get_or_create_metric_id h1 a e) as [[[m e'] h2]|] eqn:E2; [|done].
  destruct (source_id_inverted _ _ _ _ _ _ E1) as [I1 _]. destruct (metric_id_inverted _ _ _ _ _ _ E2) as (I2 & S2 & _).
  set (h3 := if e' then h2 else _).
  assert (H3 : source_thmap_ h3 = source_thmap_ h1 /\ inverted_index_ h3 = if e' then inverted_index_ h else inv_add (inverted_index_ h) s a).
  { unfold h3. destruct e'; simpl; split; congruence. }
  clearbody h3. destruct (read_flat_forward_index h3 s m) as [q|]; [|done]. cbn [mbind option_bind].
  intros E. exists s, e, h1, m, e', h2. split_and!; [done..| |]; destruct (negb (q =? 0)).
  1,3: injection E as _ _ <-; apply H3.
  all: unfold get_mem_source in E; destruct (s <? MAX_SOURCE_NUM); [|done]; simpl in E; injection E as _ _ <-; apply H3.
Qed.

(** ** The index of the head *)

(** The other labels of a label set are those its source string stands for. *)
Definition sources_determine (l : list Labels) : Prop :=
  forall b c, b ∈ l -> c ∈ l -> label_source_group b = label_source_group c -> tail b = tail c.

(** The inverted index holds, for each label set, its labels under the id of
    its source. *)
Definition searchable h (seen : list Labels) : Prop :=
  exists t H, inverted_index_ h = Some t /\ holds t H /\ unmoved t H /\
    forall z l, (z, l) ∈ H <-> label l <> metric_name /\
      exists a, a ∈ seen /\ l ∈ a /\ thmap_get (source_thmap_ h) (label_source_group a) = Some z.

Lemma same_labels a b l :
  name_first a -> name_first b -> tail a = tail b -> label l <> metric_name -> l ∈ a -> l ∈ b.
Proof.
  intros (na & ra & -> & Ea & _) (nb & rb & -> & _ & _) E Hl. simpl in E. subst rb.
  intros [->|Hin]%elem_of_cons; [done|]. by right.
Qed.

Lemma source_id_new h a e s e' h' :
  get_or_create_source_id h a e = Some (s, e', h') -> a <> [] ->
  thmap_get (source_thmap_ h) (label_source_group a) = None -> s = u64 (last_source_group_id_ h + 1).
Proof.
  unfold get_or_create_source_id. destruct a as [|l rest]; [done|]. intros E _ En. rewrite En in E. cbv zeta in E.
  destruct (pool_set _ _ _); [|done]. cbn [mbind option_bind] in E. by injection E as <- _ _.
Qed.

(** The source of [a] is known with its labels, or its id is above all others. *)
Lemma source_late h made (a : Labels) s e h1 H :
  indexed h made -> Forall name_first (made.*1 ++ [a]) -> sources_determine (made.*1 ++ [a]) ->
  kinds label_source_group (made.*1 ++ [a]) < MAX_SOURCE_NUM -> get_or_create_source_id h a true = Some (s, e, h1) ->
  (forall z l, (z, l) ∈ H <-> label l <> metric_name /\
     exists b, b ∈ made.*1 /\ l ∈ b /\ thmap_get (source_thmap_ h) (label_source_group b) = Some z) ->
  Forall (late H s) a /\
  (thmap_get (source_thmap_ h) (label_source_group a) = Some s -> forall l, l ∈ a -> label l <> metric_name -> (s, l) ∈ H).
Proof.
  intros Hi Hnf Hdet Hn E1 HH. unfold MAX_SOURCE_NUM in Hn. pose proof (ix_src _ _ Hi) as Hs.
  pose proof (io_last _ _ _ _ _ _ Hs) as Hlast. pose proof (kinds_app label_source_group made.*1 [a]) as Hk.
  assert (Hne : a <> []).
  { apply Forall_app in Hnf as [_ [(x & r & -> & _) _]%Forall_cons]. done. }
  assert (Hknown : thmap_get (source_thmap_ h) (label_source_group a) = Some s -> forall l, l ∈ a -> label l <> metric_name -> (s, l) ∈ H).
  { intros Es l Hl Hname. destruct (io_from _ _ _ _ _ _ Hs _ _ Es) as (_ & b & [Hb Eb]%first_with_elem & _).
    apply HH. split; [done|]. exists b. split_and!; [done| |by rewrite Eb]. rewrite Forall_forall in Hnf.
    apply (same_labels a b); [apply Hnf; set_solver|apply Hnf; set_solver| |done|done].
    apply Hdet; [set_solver|set_solver|done]. }
  split; [|done]. apply Forall_forall. intros l Hl. destruct (decide (label l = metric_name)) as [En|Hname].
  { right. intros z [Hz _]%HH. done. }
  destruct (thmap_get (source_thmap_ h) (label_source_group a)) as [s0|] eqn:Es.
  - left. exists s. split; [|done]. apply Hknown; [|done|done]. destruct a as [|x rest]; [done|].
    unfold get_or_create_source_id in E1. rewrite Es in E1. by injection E1 as -> _ _.
  - apply (source_id_new _ _ _ _ _ _ E1 Hne) in Es. unfold u64 in Es. rewrite wrap_id in Es by (unfold is_u; lia).
    assert (Hle : forall z, (z, l) ∈ H -> z < s).
    { intros z (_ & b & _ & _ & Hz)%HH. destruct (io_from _ _ _ _ _ _ Hs _ _ Hz) as [? _]. lia. }
    destruct (decide (Exists (fun q => q.2 = l /\ high 16 q.1 = high 16 s) H)) as [He|Hn'].
    + left. apply Exists_exists in He as ([z l'] & Hin & El & Eh). simpl in *. subst l'. by exists z.
    + right. intros z Hin. pose proof (high_le z s ltac:(specialize (Hle z Hin); lia)).
      assert (high 16 z <> high 16 s); [|lia]. intros Eh. apply Hn'. apply Exists_exists. by exists (z, l).
Qed.

Lemma create_searchable h junk made (a : Labels) p new h' :
  indexed h made -> searchable h made.*1 -> Forall name_first (made.*1 ++ [a]) -> sources_determine (made.*1 ++ [a]) ->
  kinds label_source_group (made.*1 ++ [a]) < Z.of_nat (length (source_labels_ptr_ h)) <= MAX_SOURCE_NUM ->
  kinds label_metric (made.*1 ++ [a]) < Z.of_nat (length (metric_labels_ptr_ h)) <= 2 ^ 16 ->
  get_or_create_by_thmap h junk a = Some (p, new, h') -> searchable h' (made.*1 ++ [a]).
Proof.
  intros Hi (t & H & Et & Ht & Hu & HH) Hnf Hdet Hls Hlm E. unfold MAX_SOURCE_NUM in Hls.
  assert (Hne : a <> []).
  { apply Forall_app in Hnf as [_ [(x & r & -> & _) _]%Forall_cons]. done. }
  destruct (name_step h made a Hi Hne ltac:(lia) Hlm) as (s & e & h1 & m & e' & h2 & E1 & E2 & Hr).
  destruct (create_inverted _ _ _ _ _ _ E) as (s_ & e_ & h1_ & m_ & e'_ & h2_ & E1_ & E2_ & Es & Ei).
  rewrite E1 in E1_. injection E1_ as <- <- <-. rewrite E2 in E2_. injection E2_ as <- <- <-.
  assert (Hsrc : thmap_get (source_thmap_ h') (label_source_group a) = Some s /\
    forall b, b ∈ made.*1 -> thmap_get (source_thmap_ h') (label_source_group b) = thmap_get (source_thmap_ h) (label_source_group b)).
  { rewrite Es. destruct (metric_id_inverted _ _ _ _ _ _ E2) as (_ & <- & _). split.
    - pose proof (rn_source _ _ _ _ _ _ Hr) as Hs. by destruct e'.
    - intros b Hb. destruct (rn_old _ _ _ _ _ _ Hr b Hb) as [Hb1 _]. by destruct e'. }
  destruct Hsrc as [Hsa Hsb].
  destruct (source_late h made a s e h1 H Hi Hnf Hdet ltac:(unfold MAX_SOURCE_NUM; lia) E1 HH) as [Hlate Hthere].
  assert (Hold : forall z l, (z, l) ∈ H \/ (z = s /\ l ∈ a /\ label l <> metric_name) <-> label l <> metric_name /\
    exists b, b ∈ made.*1 ++ [a] /\ l ∈ b /\ thmap_get (source_thmap_ h') (label_source_group b) = Some z).
  { intros z l. rewrite HH. split.
    - intros [(Hn & b & Hb & Hl & Hz)|(-> & Hl & Hn)]; (split; [done|]).
      + exists b. split_and!; [set_solver|done|by rewrite Hsb].
      + exists a. split_and!; [set_solver|done..].
    - intros (Hn & b & [Hb|Hb%list_elem_of_singleton]%elem_of_app & Hl & Hz).
      + left. split; [done|]. exists b. by rewrite Hsb in Hz.
      + subst b. right. split; [congruence|done]. }
  destruct (source_id_inverted _ _ _ _ _ _ E1) as [_ Hex]. destruct (metric_id_inverted _ _ _ _ _ _ E2) as (_ & _ & Hex').
  destruct e'.
  - exists t, H. split_and!; [by rewrite Ei|done..|]. intros z l. rewrite <- Hold. split; [by left|].
    intros [?|(-> & Hl & Hn)]; [done|]. apply Hthere; [|done|done]. by apply Hex; [|apply Hex'].
  - destruct (add_labels_spec a t H s Ht Hu) as (t' & Ea & Ht' & Hu'); [|done|].
    { pose proof (renamed_ranges _ _ _ _ _ _ Hr) as [? _]. unfold is_u. lia. }
    exists t', (H ++ pairs_of s a). split_and!; [|done..|].
    + rewrite Ei, Et. exact Ea.
    + intros z l. rewrite <- Hold, elem_of_app, pairs_elem. tauto.
Qed.

Lemma creates_searchable (l : list Labels) : forall h junk made r h',
  indexed h made -> searchable h made.*1 -> Forall name_first (made.*1 ++ l) -> sources_determine (made.*1 ++ l) ->
  kinds label_source_group (made.*1 ++ l) < Z.of_nat (length (source_labels_ptr_ h)) <= MAX_SOURCE_NUM ->
  kinds label_metric (made.*1 ++ l) < Z.of_nat (length (metric_labels_ptr_ h)) <= 2 ^ 16 ->
  creates h junk l = Some (r, h') -> searchable h' (made.*1 ++ l).
Proof.
  induction l as [|a l IH]; intros h junk made r h' Hi Hse Hnf Hdet Hs Hm E.
  - injection E as _ <-. by rewrite app_nil_r.
  - cbn [creates] in E. replace (made.*1 ++ a :: l) with ((made.*1 ++ [a]) ++ l) in * by by rewrite <- app_assoc.
    pose proof (kinds_app label_source_group (made.*1 ++ [a]) l). pose proof (kinds_app label_metric (made.*1 ++ [a]) l).
    assert (Hne : a <> []).
    { apply Forall_app in Hnf as [Hnf _]. apply Forall_app in Hnf as [_ [(x & y & -> & _) _]%Forall_cons]. done. }
    destruct (create_step h junk made a Hi Hne ltac:(lia) ltac:(lia)) as (p & new & h1 & E1 & Hi1 & L1 & L2 & _).
    rewrite E1 in E. destruct (creates h1 junk l) as [[r1 h2]|] eqn:E2; [|done]. injection E as _ <-.
    pose proof Hnf as Hnf'. apply Forall_app in Hnf' as [Hnf1 _].
    assert (Hse1 : searchable h1 (made.*1 ++ [a])).
    { eapply create_searchable; [exact Hi|done|done| |lia|lia|exact E1]. intros b c Hb Hc. apply Hdet; set_solver. }
    assert (Ef : (made ++ [(a, p)]).*1 = made.*1 ++ [a]) by by rewrite fmap_app.
    rewrite <- Ef in Hse1, Hnf, Hdet, Hs, Hm |- *. eapply (IH h1 junk); [done..| | |exact E2]; [by rewrite L1|by rewrite L2].
Qed.


(** All labels of one id are those of one label set. *)
Lemma one_label_set h made z (ls : list Label) :
  indexed h made -> Forall name_first made.*1 -> sources_determine made.*1 -> ls <> [] ->
  Forall (fun l => label l <> metric_name /\ exists a, a ∈ made.*1 /\ l ∈ a /\
    thmap_get (source_thmap_ h) (label_source_group a) = Some z) ls ->
  exists a, a ∈ made.*1 /\ thmap_get (source_thmap_ h) (label_source_group a) = Some z /\ Forall (fun l => l ∈ a) ls.
Proof.
  intros Hi Hnf Hdet Hne Hls. destruct ls as [|l0 ls]; [done|]. pose proof Hls as [(_ & a & Ha & _ & Ez) _]%Forall_cons.
  exists a. split_and!; [done..|]. eapply Forall_impl; [exact Hls|]. intros l (Hn & b & Hb & Hl & Ez').
  rewrite Forall_forall in Hnf. apply (same_labels b a); [by apply Hnf|by apply Hnf| |done|done].
  apply Hdet; [done..|]. exact (io_inj _ _ _ _ _ _ (ix_src _ _ Hi) _ _ _ Ez' Ez).
Qed.

(** C9. The tree head finds the series it created.  After series were created
    for label sets that start with their metric name, whose source string tells
    the other labels, and that have fewer different sources and metric names
    than the pools have room for, in a head whose merge set is empty,
    [TreeHead::select] with fewer than 65000 matchers returns, and gives in
    ascending order the source ids of exactly the series whose label set has
    the label of every matcher other than the one of the metric name; with no
    other matcher it gives none.  The labels read back for a series are those
    it was created with. *)
Theorem head_select_exact ns nm (m : MS) junk (lsets : list Labels) (ms : list Matcher) :
  (forall k, ms_value m k = None) -> Forall name_first lsets -> sources_determine lsets ->
  kinds label_source_group lsets < Z.of_nat ns <= MAX_SOURCE_NUM -> kinds label_metric lsets < Z.of_nat nm <= 2 ^ 16 ->
  Z.of_nat (length ms) < 65000 ->
  exists r h t v t' l,
    creates (new_head (MI := MI) (MF := MF) ns nm (Some (new_index m : ThmapPostings KM VM MS))) junk lsets = Some (r, h) /\
    inverted_index_ h = Some t /\ select t ms = Some (v, t') /\ expand_postings v = Some l /\ asc l /\
    (forall z, z ∈ l <-> looked_at ms <> [] /\
      exists i a p new sr, lsets !! i = Some a /\ r !! i = Some (p, new) /\ deref h p = Some sr /\ ms_source_id_ sr = z /\
        Forall (fun mt => matcher_label mt ∈ a) (looked_at ms)) /\
    (forall i a, lsets !! i = Some a -> exists p new sr, r !! i = Some (p, new) /\ deref h p = Some sr /\
      reconstruct_labels h (ms_source_id_ sr) (ms_metric_id_ sr) [] = a).
Proof.
  intros Hv Hnf Hdet Hns Hnm Hms. set (t0 := new_index m : ThmapPostings KM VM MS).
  assert (Hne : Forall (fun a : Labels => a <> []) lsets) by (eapply Forall_impl; [exact Hnf|]; by intros a (x & y & -> & _)).
  destruct (creates_indexed lsets (new_head ns nm (Some t0)) junk [] (new_head_indexed ns nm (Some t0)) Hne)
    as (r & h & E & Hlen & Hi & _); [simpl; rewrite length_replicate; lia..|]. simpl in Hi.
  assert (Hz : (zip lsets r.*1).*1 = lsets) by (apply fst_zip; rewrite length_fmap, Hlen; reflexivity).
  assert (Hse : searchable h (([] : list (Labels * Z)).*1 ++ lsets)).
  { eapply (creates_searchable lsets (new_head ns nm (Some t0)) junk []); [apply new_head_indexed| |done|done| | |exact E].
    2,3: simpl; rewrite length_replicate; lia.
    destruct (new_index_holds m t0 eq_refl Hv). exists t0, []. split_and!; [done..|]. intros z l.
    split; [by intros ?%elem_of_nil|]. by intros (_ & b & ?%elem_of_nil & _). }
  destruct Hse as (t & H & Et & Ht & (_ & _ & Hq & _) & HH). simpl in HH.
  destruct (select_spec t H ms Ht) as (v & t' & l & Ev & _ & El & Ha & Hl).
  { unfold queue_short in Hq. change HOT_QUEUE_SIZE with 65536. change HOT_QUEUE_HALF with 256 in Hq. lia. }
  assert (Hmade : forall i a p new, lsets !! i = Some a -> r !! i = Some (p, new) -> (a, p) ∈ zip lsets r.*1).
  { intros i a p new Hia Hp. apply list_elem_of_lookup. exists i. apply lookup_zip_with_Some. exists a, p. by rewrite list_lookup_fmap, Hp. }
  exists r, h, t, v, t', l. split_and!; [done..| |].
  2:{ intros i a Hia. destruct (lookup_lt_is_Some_2 r i) as [[p new] Hp]; [rewrite Hlen; by eapply lookup_lt_Some|].
    destruct (ix_made _ _ Hi a p) as (s & mm & sr & G1 & G2 & _ & G4 & <- & <-); [by eapply Hmade|]. exists p, new, sr. split_and!; [done..|].
    apply (indexed_labels h (zip lsets r.*1)); rewrite ?Hz; try done. by eapply list_elem_of_lookup_2. }
  intros z. rewrite Hl. split.
  - intros [Hlk Hall]. split; [done|].
    destruct (one_label_set h (zip lsets r.*1) z (matcher_label <$> looked_at ms) Hi) as (a & Hin & Ez & Hla).
    + by rewrite Hz.
    + by rewrite Hz.
    + by destruct (looked_at ms).
    + rewrite Hz. apply Forall_fmap. eapply Forall_impl; [exact Hall|]. intros mt Hmt. by apply HH.
    + rewrite Hz in Hin. apply list_elem_of_lookup_1 in Hin as [i Hia].
      destruct (lookup_lt_is_Some_2 r i) as [[p new] Hp]; [rewrite Hlen; by eapply lookup_lt_Some|].
      destruct (ix_made _ _ Hi a p) as (s & mm & sr & G1 & _ & _ & G4 & G5 & _); [by eapply Hmade|].
      exists i, a, p, new, sr. split_and!; [done..|congruence|]. by rewrite Forall_fmap in Hla.
  - intros (Hlk & i & a & p & new & sr & Hia & Hp & Hd & <- & Hla). split; [done|].
    destruct (ix_made _ _ Hi a p) as (s & mm & sr' & G1 & _ & _ & G4 & G5 & _); [by eapply Hmade|].
    apply Forall_forall. intros mt Hmt. apply HH. split; [simpl; by apply list_elem_of_filter in Hmt as [? _]|].
    exists a. rewrite Forall_forall in Hla. split_and!; [by eapply list_elem_of_lookup_2|by apply Hla|congruence].
Qed.

End HeadSelect.

(** ** Instances *)
Module SelectDemo.

#[local] Instance zero_end : PastEnd := fun _ => 0.

Definition Index : Type := ThmapPostings (gmap str nat) (gmap str nat) (gmap str str).
Definition Head : Type := TreeHead (gmap str Z) (gmap Z Z) (option Index).
Definition no_head : Head := new_head 4 4 (Some (new_index ∅)).

(** Two metrics of the first host, one of the second. *)
Lemma head_select_exact_witness :
  exists r h t v t' l, creates no_head 0 HeadDemo.demo_sets = Some (r, h) /\ inverted_index_ h = Some t /\
    select t [EqualMatcher [104] [1]] = Some (v, t') /\ expand_postings v = Some l /\ asc l /\
    (forall z, z ∈ l <-> looked_at [EqualMatcher [104] [1]] <> [] /\
      exists i a p new sr, HeadDemo.demo_sets !! i = Some a /\ r !! i = Some (p, new) /\ deref h p = Some sr /\
        ms_source_id_ sr = z /\ Forall (fun mt => matcher_label mt ∈ a) (looked_at [EqualMatcher [104] [1]])) /\
    (forall i a, HeadDemo.demo_sets !! i = Some a -> exists p new sr, r !! i = Some (p, new) /\ deref h p = Some sr /\
      reconstruct_labels h (ms_source_id_ sr) (ms_metric_id_ sr) [] = a).
Proof.
  apply (head_select_exact (MI := gmap str Z) (MF := gmap Z Z) 4 4 (∅ : gmap str str) 0 HeadDemo.demo_sets).
  - intros k. by rewrite map_ms_value, lookup_empty.
  - repeat constructor; (eexists _, _; split; [reflexivity|]; split; [reflexivity|]; repeat constructor; done).
  - intros b c Hb Hc. exact (HeadDemo.demo_sources b c Hb Hc).
  - split; [apply Z.ltb_lt; vm_compute; reflexivity|unfold MAX_SOURCE_NUM; lia].
  - split; [apply Z.ltb_lt; vm_compute; reflexivity|lia].
  - simpl. lia.
Defined.

(** The source of the second host, whatever its metric. *)
Example demo_select_host :
  ('(_, h) ← creates no_head 0 HeadDemo.demo_sets; t ← inverted_index_ h;
   '(v, _) ← select t [EqualMatcher metric_name [2]; EqualMatcher [104] [2]]; expand_postings v) = Some [2].
Proof. vm_compute. reflexivity. Qed.

End SelectDemo.
