(* ===== verification/SeriesIterators.v ===== *)
(** querier/SeriesIteratorInterface and the iterators of querier/tsdb_tree_querier:
    the samples of a series, read one after the other.

    [SeriesIterator] is the interface; [SeriesIteratorSpec] says what an iterator
    promises: the samples that are still to come.  Its implementations are the
    merge of several iterators by time ([MergeSeriesIterator]), their
    concatenation ([ListMergeSeriesIterator]), the chunk in memory of a series
    ([TreeHeadIterator]) and an array of slabs ([SlabArrayIterator]).  A
    [SlabArrayIterator] is modelled without its cache of decoded chunks: no
    caller gives it one.  [None] is a read through a null pointer or past the
    end of a vector. *)
From Stdlib Require Import ZArith Lia Bool.
From stdpp Require Import base list numbers option gmap sorting.
From S2P Require Import Prelude Endian Coding BitStream XORChunk MassTree SlabStore SlabFlush TreeMemSeries ChunkOps.

(** ** The interface *)

Class SeriesIterator (I : Type) := {
  si_next : I -> option (bool * I);
  si_seek : Z -> I -> option (bool * I);
  si_at : I -> option (Z * Z) }.

(** What is still to come: [next] visits it in order.  Nothing is promised
    about calls after [next] returned false. *)
Class SeriesIteratorSpec (I : Type) `{SeriesIterator I} := {
  coming : I -> list (Z * Z) -> Prop;
  coming_nil it : coming it [] -> exists it', si_next it = Some (false, it');
  coming_cons it x l : coming it (x :: l) -> exists it', si_next it = Some (true, it') /\ si_at it' = Some x /\ coming it' l }.

(** [while (it->next())], for at most [rounds] samples. *)
Fixpoint expand {I : Type} `{SI : SeriesIterator I} (rounds : nat) (it : I) : option (list (Z * Z)) :=
  match rounds with
  | O => None
  | S rounds =>
    '(ok, it) ← si_next it;
    if (ok : bool) then x ← si_at it; l ← expand rounds it; Some (x :: l) else Some []
  end.

Lemma expand_coming {I : Type} `{SS : SeriesIteratorSpec I} rounds it l :
  coming it l -> (length l < rounds)%nat -> expand rounds it = Some l.
Proof.
  revert rounds it. induction l as [|x l IH]; intros [|rounds] it Hc Hr; simpl in Hr; try lia; cbn [expand].
  - destruct (coming_nil it Hc) as (it' & ->). done.
  - destruct (coming_cons it x l Hc) as (it' & -> & Ha & Hl). cbn [mbind option_bind]. rewrite Ha. cbn [mbind option_bind].
    rewrite (IH rounds it' Hl) by lia. done.
Qed.

(** An iterator of one class or of another. *)
#[export] Instance sum_iterator {A B : Type} `{SA : SeriesIterator A} `{SB : SeriesIterator B} : SeriesIterator (A + B) := {
  si_next i := match i with inl a => '(ok, a) ← si_next a; Some (ok, inl a) | inr b => '(ok, b) ← si_next b; Some (ok, inr b) end;
  si_seek t i := match i with inl a => '(ok, a) ← si_seek t a; Some (ok, inl a) | inr b => '(ok, b) ← si_seek t b; Some (ok, inr b) end;
  si_at i := match i with inl a => si_at a | inr b => si_at b end }.

#[export] Instance sum_iterator_spec {A B : Type} `{SA : SeriesIteratorSpec A} `{SB : SeriesIteratorSpec B} : SeriesIteratorSpec (A + B).
Proof.
  refine {| coming i l := match i with inl a => coming a l | inr b => coming b l end |}.
  - intros [a|b] Hc; destruct (coming_nil _ Hc) as (i & E); eexists; simpl; by rewrite E.
  - intros [a|b] x l Hc; destruct (coming_cons _ x l Hc) as (i & E & Ha & Hl); eexists; simpl; rewrite E; simpl; by split_and!.
Defined.

(** ** Moving several at once *)

Section Moving.
Context {I : Type} (move : I -> option (bool * I)).

(** The loops of [init] and [seek]: iterators that have nothing are erased. *)
Fixpoint keep (l : list I) : option (list I) :=
  match l with
  | [] => Some []
  | it :: l => '(ok, it) ← move it; rest ← keep l; Some (if (ok : bool) then it :: rest else rest)
  end.

(** [_next]: the iterators on the current time move on; [d] of them were
    erased so far. *)
Fixpoint step_ids (ids : list nat) (d : nat) (iters : list I) : option (list I) :=
  match ids with
  | [] => Some iters
  | i :: ids =>
    if (i - d <? length iters)%nat then
      it ← iters !! (i - d)%nat;
      '(ok, it) ← move it;
      if (ok : bool) then step_ids ids d (<[(i - d)%nat := it]> iters)
      else step_ids ids (S d) (delete (i - d)%nat iters)
    else step_ids ids d iters
  end.

End Moving.

(** What is left where [xs] are the current elements of several iterators, by a
    key of the elements: times of samples, ids of series. *)
Section Keys.
Context {A : Type} (key : A -> Z).

(** The list behind its element of key [t] at the front. *)
Definition past (t : Z) (L : list A) : list A :=
  match L with x :: L' => if key x =? t then L' else L | [] => [] end.

(** The positions from [i] on of the elements of key [t]. *)
Fixpoint on_time (t : Z) (i : nat) (xs : list A) : list nat :=
  match xs with [] => [] | x :: xs => if key x =? t then i :: on_time t (S i) xs else on_time t (S i) xs end.

Context {I : Type} (move : I -> option (bool * I)) (at_elem : I -> option A) (left : I -> list A -> Prop).
Hypothesis left_nil : forall it, left it [] -> exists it', move it = Some (false, it').
Hypothesis left_cons : forall it x l, left it (x :: l) -> exists it', move it = Some (true, it') /\ at_elem it' = Some x /\ left it' l.

(** Iterators on the elements [xs], with [Ls] to come. *)
Definition current (iters : list I) (xs : list A) (Ls : list (list A)) : Prop :=
  Forall2 (fun it xl => at_elem it = Some xl.1 /\ left it xl.2) iters (zip xs Ls) /\ length xs = length Ls.

Lemma keep_next iters Ls :
  Forall2 left iters Ls ->
  exists iters' xs Ls', keep move iters = Some iters' /\ current iters' xs Ls' /\
    zip_with cons xs Ls' = filter (fun L => L <> []) Ls.
Proof.
  induction 1 as [|it L iters Ls Hc Hcs (iters' & xs & Ls' & E & [Hc' Hl'] & Ef)]; [exists [], [], []; by repeat constructor|].
  cbn [keep]. destruct L as [|x L].
  - destruct (left_nil it Hc) as (it' & ->). cbn [mbind option_bind]. rewrite E. by exists iters', xs, Ls'.
  - destruct (left_cons it x L Hc) as (it' & -> & Ha & Hcl). cbn [mbind option_bind]. rewrite E.
    exists (it' :: iters'), (x :: xs), (L :: Ls'). split_and!; [done| |cbn [zip_with]; by rewrite Ef].
    split; [by constructor|]. simpl. by rewrite Hl'.
Qed.

(** After the iterators on time [t] have moved: those that are left. *)
Lemma step_ids_spec t iters : forall xs Ls moved d,
  current iters xs Ls ->
  exists iters' xs' Ls', step_ids move (on_time t (length moved + d) xs) d (moved ++ iters) = Some (moved ++ iters') /\
    current iters' xs' Ls' /\ zip_with cons xs' Ls' = filter (fun L => L <> []) (past t <$> zip_with cons xs Ls).
Proof.
  induction iters as [|it iters IH]; intros xs Ls moved d [Hc Hl].
  { apply Forall2_nil_inv_l in Hc. assert (xs = []) as -> by (destruct xs, Ls; done). exists [], [], []. by repeat constructor. }
  destruct xs as [|x xs], Ls as [|L Ls]; try done; [by inversion Hc|]. injection Hl as Hl.
  apply Forall2_cons_1 in Hc as [[Ha Hco] Hc]. simpl in Ha, Hco. cbn [on_time zip_with fmap list_fmap past].
  destruct (Z.eqb_spec (key x) t) as [Ex|Hne].
  - cbn [step_ids]. replace (length moved + d - d)%nat with (length moved) by lia.
    rewrite length_app. simpl length. rewrite (proj2 (Nat.ltb_lt _ _)) by lia.
    rewrite list_lookup_middle by done. cbn [mbind option_bind]. destruct L as [|y L].
    + destruct (left_nil it Hco) as (it' & ->). cbn [mbind option_bind].
      rewrite (delete_middle moved iters it). replace (S (length moved + d)) with (length moved + S d)%nat by lia.
      destruct (IH xs Ls moved (S d)) as (iters' & xs' & Ls' & E & Hc' & Ef); [by split|]. by exists iters', xs', Ls'.
    + destruct (left_cons it y L Hco) as (it' & -> & Ha' & Hco'). cbn [mbind option_bind].
      destruct (IH xs Ls (moved ++ [it']) d) as (iters' & xs' & Ls' & E & [Hc' Hl'] & Ef); [by split|].
      exists (it' :: iters'), (y :: xs'), (L :: Ls'). split_and!.
      * rewrite length_app, <- !app_assoc in E. simpl in E. replace (length moved + 1 + d)%nat with (S (length moved + d)) in E by lia.
        rewrite insert_app_r_alt by lia. rewrite Nat.sub_diag. exact E.
      * split; [by constructor|simpl; by rewrite Hl'].
      * cbn [zip_with]. by rewrite Ef.
  - destruct (IH xs Ls (moved ++ [it]) d) as (iters' & xs' & Ls' & E & [Hc' Hl'] & Ef); [by split|].
    exists (it :: iters'), (x :: xs'), (L :: Ls'). split_and!.
    + rewrite length_app, <- !app_assoc in E. simpl in E. by replace (length moved + 1 + d)%nat with (S (length moved + d)) in E by lia.
    + split; [by constructor|simpl; by rewrite Hl'].
    + cbn [zip_with]. by rewrite Ef.
Qed.

End Keys.

(** ** Merging by time *)

Record MergeSeriesIterator (I : Type) := mkMSI {
  ms_iters : list I;
  ms_id : list nat;
  ms_t : Z;
  ms_v : Z;
  ms_init : bool }.
Arguments mkMSI {I}.
Arguments ms_iters {I}.
Arguments ms_id {I}.
Arguments ms_t {I}.
Arguments ms_v {I}.
Arguments ms_init {I}.

Section Merge.
Context {I : Type} `{SI : SeriesIterator I}.

(** The constructors; [t_] and [v_] start with any values. *)
Definition merge_series_iterator (junk : Z * Z) (iters : list I) : MergeSeriesIterator I := mkMSI iters [] junk.1 junk.2 false.

(** The loop that looks for the least time: the positions of the iterators on
    it, the time, and the value of the last of them. *)
Fixpoint pick (i : nat) (l : list I) (id : list nat) (t v : Z) : option (list nat * Z * Z) :=
  match l with
  | [] => Some (id, t, v)
  | it :: l =>
    '(t', v') ← si_at it;
    if t' <? t then pick (S i) l [i] t' v'
    else if t' =? t then pick (S i) l (id ++ [i]) t v'
    else pick (S i) l id t v
  end.

(** The common end of [next] and [seek]. *)
Definition choose (m : MergeSeriesIterator I) (iters : list I) : option (bool * MergeSeriesIterator I) :=
  match iters with
  | [] => Some (false, mkMSI [] (ms_id m) (ms_t m) (ms_v m) true)
  | it :: rest =>
    '(t, v) ← si_at it;
    '(id, t, v) ← pick 1 rest [0%nat] t v;
    Some (true, mkMSI iters id t v true)
  end.

Definition merge_next (m : MergeSeriesIterator I) : option (bool * MergeSeriesIterator I) :=
  match ms_iters m with
  | [] => Some (false, m)
  | _ =>
    iters ← (if ms_init m then Some (ms_iters m) else keep si_next (ms_iters m));
    iters ← step_ids si_next (ms_id m) 0 iters;
    choose m iters
  end.

Definition merge_seek (t : Z) (m : MergeSeriesIterator I) : option (bool * MergeSeriesIterator I) :=
  match ms_iters m with
  | [] => Some (false, m)
  | _ => iters ← keep (si_seek t) (ms_iters m); choose m iters
  end.

#[export] Instance MergeSeriesIterator_iterator : SeriesIterator (MergeSeriesIterator I) := {
  si_next := merge_next;
  si_seek := merge_seek;
  si_at m := Some (ms_t m, ms_v m) }.

End Merge.

(** ** One after the other *)

Record ListMergeSeriesIterator (I : Type) := mkLMSI { lm_iters : list I; lm_idx : nat; lm_err : bool }.
Arguments mkLMSI {I}.
Arguments lm_iters {I}.
Arguments lm_idx {I}.
Arguments lm_err {I}.

Section ListMerge.
Context {I : Type} `{SI : SeriesIterator I}.

Definition list_merge_series (iters : list I) : ListMergeSeriesIterator I := mkLMSI iters 0 false.

Definition lm_set (m : ListMergeSeriesIterator I) (i : nat) (it : I) : ListMergeSeriesIterator I :=
  mkLMSI (<[i := it]> (lm_iters m)) i (lm_err m).

(** [while (idx_ < iters_.size())]: the first iterator from [lm_idx] on that
    [move] leaves on a sample. *)
Fixpoint lm_find (rounds : nat) (move : I -> option (bool * I)) (m : ListMergeSeriesIterator I)
    : option (bool * ListMergeSeriesIterator I) :=
  match rounds with
  | O => None
  | S rounds =>
    match lm_iters m !! lm_idx m with
    | None => Some (false, m)
    | Some it =>
      '(ok, it) ← move it;
      let m := lm_set m (lm_idx m) it in
      if (ok : bool) then Some (true, m) else lm_find rounds move (mkLMSI (lm_iters m) (S (lm_idx m)) (lm_err m))
    end
  end.

(** One round for each iterator that is left, and the one that finds none. *)
Definition lm_rounds (m : ListMergeSeriesIterator I) : nat := S (length (lm_iters m) - lm_idx m).

Definition lm_next (m : ListMergeSeriesIterator I) : option (bool * ListMergeSeriesIterator I) :=
  if lm_err m || (length (lm_iters m) <=? lm_idx m)%nat then Some (false, m) else lm_find (lm_rounds m) si_next m.

Definition lm_seek (t : Z) (m : ListMergeSeriesIterator I) : option (bool * ListMergeSeriesIterator I) :=
  if lm_err m then Some (false, m) else lm_find (lm_rounds m) (si_seek t) m.

#[export] Instance ListMergeSeriesIterator_iterator : SeriesIterator (ListMergeSeriesIterator I) := {
  si_next := lm_next;
  si_seek := lm_seek;
  si_at m := it ← lm_iters m !! lm_idx m; si_at it }.

End ListMerge.

(** ** What merging yields *)

(** The merge of several lists by time; where several have a sample of a time,
    the last list's is kept. *)
Definition merged (Ls : list (list (Z * Z))) : list (Z * Z) := foldr merge_samples [] Ls.

Definition heads_from (t : Z) (L : list (Z * Z)) : Prop := match L with [] => True | x :: _ => t <= x.1 end.

Lemma merge_nil_l L : merge_samples [] L = L.
Proof. by destruct L. Qed.

Lemma merge_heads_from t L R : heads_from t L -> heads_from t R -> heads_from t (merge_samples L R).
Proof.
  destruct L as [|x L]; [by rewrite merge_nil_l|]. destruct R as [|y R]; [done|]. intros HL HR. rewrite merge_samples_cons.
  by repeat case_match.
Qed.

Lemma merge_past t L R :
  heads_from t L -> heads_from t R -> past fst t (merge_samples L R) = merge_samples (past fst t L) (past fst t R).
Proof.
  destruct L as [|x L]; [by rewrite !merge_nil_l|].
  destruct R as [|y R]; [intros _ _; by rewrite !merge_samples_nil|].
  cbn [heads_from]. intros HL HR. rewrite merge_samples_cons. cbn [past].
  destruct (Z.ltb_spec x.1 y.1); [|destruct (Z.ltb_spec y.1 x.1)]; cbn [past];
    destruct (Z.eqb_spec x.1 t), (Z.eqb_spec y.1 t); try lia; try done; rewrite merge_samples_cons;
    destruct (Z.ltb_spec x.1 y.1), (Z.ltb_spec y.1 x.1); lia || done.
Qed.

Lemma merged_heads_from t Ls : Forall (heads_from t) Ls -> heads_from t (merged Ls).
Proof. induction 1 as [|L Ls HL _ IH]; [done|]. by apply merge_heads_from. Qed.

Lemma merged_past t Ls : Forall (heads_from t) Ls -> past fst t (merged Ls) = merged (past fst t <$> Ls).
Proof.
  induction 1 as [|L Ls HL HLs IH]; [done|]. change (merged (L :: Ls)) with (merge_samples L (merged Ls)).
  rewrite merge_past by (done || by apply merged_heads_from). by rewrite IH.
Qed.

(** The earlier of two samples, the second of two of the same time. *)
Definition earlier_of (a b : Z * Z) : Z * Z := if a.1 <? b.1 then a else b.

Lemma earlier_assoc a b c : earlier_of a (earlier_of b c) = earlier_of (earlier_of a b) c.
Proof. unfold earlier_of. repeat case_match; rewrite ?Z.ltb_lt, ?Z.ltb_ge in *; lia || done. Qed.

Lemma merged_head xs Ls x L :
  length xs = length Ls -> exists R, merged ((x :: L) :: zip_with cons xs Ls) = foldl earlier_of x xs :: R.
Proof.
  revert x L Ls. induction xs as [|y xs IH]; intros x L [|L' Ls] Hl; try done; [by exists L|].
  cbn [zip_with]. injection Hl as Hl. destruct (IH y L' Ls Hl) as (R & E).
  change (merged ((x :: L) :: (y :: L') :: zip_with cons xs Ls))
    with (merge_samples (x :: L) (merged ((y :: L') :: zip_with cons xs Ls))).
  rewrite E, merge_samples_cons. cbn [foldl].
  assert (Ef : foldl earlier_of (earlier_of x y) xs = earlier_of x (foldl earlier_of y xs)).
  { clear. revert y. induction xs as [|z xs IH]; intros y; [done|]. cbn [foldl]. by rewrite <- IH, <- earlier_assoc. }
  rewrite Ef. generalize (foldl earlier_of y xs). intros z. unfold earlier_of.
  destruct (Z.ltb_spec x.1 z.1); [by eexists|]. destruct (Z.ltb_spec z.1 x.1); by eexists.
Qed.

Lemma merged_filter Ls : merged (filter (fun L => L <> []) Ls) = merged Ls.
Proof.
  induction Ls as [|L Ls IH]; [done|]. rewrite filter_cons. case_decide as H.
  - change (merge_samples L (merged (filter (fun L => L <> []) Ls)) = merge_samples L (merged Ls)). by rewrite IH.
  - assert (L = []) as -> by (by destruct (decide (L = []))).
    change (merged ([] :: Ls)) with (merge_samples [] (merged Ls)). by rewrite merge_nil_l.
Qed.

(** The merge as a map from times. *)
Lemma merged_map Ls : Forall ascending Ls ->
  ascending (merged Ls) /\ sample_map (merged Ls) = foldr (fun L m => m ∪ sample_map L) ∅ Ls.
Proof.
  induction 1 as [|L Ls HL _ [IH1 IH2]]; [split; [constructor|done]|].
  split; [by apply merge_samples_ascending|]. cbn [merged foldr]. change (foldr merge_samples [] Ls) with (merged Ls).
  by rewrite merge_samples_map, IH2.
Qed.

Section MergeSpec.
Context {I : Type} `{SS : SeriesIteratorSpec I}.

(** Iterators on the samples [xs], with [Ls] to come. *)
Abbreviation currents := (current si_at coming).

Lemma earliest_le xs : forall x, (foldl earlier_of x xs).1 <= x.1 /\ Forall (fun y => (foldl earlier_of x xs).1 <= y.1) xs.
Proof.
  induction xs as [|y xs IH]; intros x; [split; [simpl; lia|constructor]|]. cbn [foldl].
  destruct (IH (earlier_of x y)) as [H1 H2].
  assert ((earlier_of x y).1 <= x.1 /\ (earlier_of x y).1 <= y.1) by (unfold earlier_of; destruct (Z.ltb_spec x.1 y.1); lia).
  split; [lia|]. constructor; [lia|done].
Qed.

Lemma pick_spec iters : forall xs Ls i id x, currents iters xs Ls ->
  let r := foldl earlier_of x xs in
  pick i iters id x.1 x.2 = Some ((if x.1 =? r.1 then id else []) ++ on_time fst r.1 i xs, r.1, r.2).
Proof.
  induction iters as [|it iters IH]; intros xs Ls i id x [Hc Hl].
  { apply Forall2_nil_inv_l in Hc. assert (xs = []) as -> by (destruct xs, Ls; done). simpl. by rewrite Z.eqb_refl, app_nil_r. }
  destruct xs as [|y xs], Ls as [|L Ls]; try done; [by inversion Hc|]. injection Hl as Hl.
  apply Forall2_cons_1 in Hc as [[Ha _] Hc]. simpl in Ha. cbn [pick foldl on_time]. rewrite Ha. destruct y as [t v]. cbn [mbind option_bind].
  assert (Hcur : currents iters xs Ls) by by split.
  destruct (earliest_le xs (earlier_of x (t, v))) as [Hle _].
  assert (Ee : earlier_of x (t, v) = if t <? x.1 then (t, v) else if t =? x.1 then (t, v) else x).
  { unfold earlier_of. cbn [fst]. destruct (Z.ltb_spec x.1 t), (Z.ltb_spec t x.1), (Z.eqb_spec t x.1); lia || done. }
  rewrite Ee in *. destruct (Z.ltb_spec t x.1) as [Hlt|Hge]; [|destruct (Z.eqb_spec t x.1) as [Et|Hne]]; cbn [fst] in *.
  - etransitivity; [exact (IH xs Ls (S i) [i] (t, v) Hcur)|]. cbn [fst].
    destruct (Z.eqb_spec x.1 (foldl earlier_of (t, v) xs).1); [lia|]. by destruct (t =? _).
  - rewrite <- Et. etransitivity; [exact (IH xs Ls (S i) (id ++ [i]) (t, v) Hcur)|]. cbn [fst].
    destruct (t =? _); [by rewrite <- app_assoc|done].
  - rewrite (IH xs Ls (S i) id x Hcur). destruct (Z.eqb_spec t (foldl earlier_of x xs).1); [lia|done].
Qed.

(** On a sample of time [t]; the iterators on it have not moved. *)
Definition running (m : MergeSeriesIterator I) (R : list (Z * Z)) : Prop :=
  ms_init m = true /\ exists xs Ls t, currents (ms_iters m) xs Ls /\ ms_id m = on_time fst t 0 xs /\
    R = merged (past fst t <$> zip_with cons xs Ls).

Definition merge_coming (m : MergeSeriesIterator I) (R : list (Z * Z)) : Prop :=
  (ms_init m = false /\ ms_id m = [] /\ exists Ls, Forall2 coming (ms_iters m) Ls /\ R = merged Ls) \/ running m R.

Lemma choose_spec m iters xs Ls :
  currents iters xs Ls ->
  match merged (zip_with cons xs Ls) with
  | [] => exists m', choose m iters = Some (false, m')
  | x :: R => exists m', choose m iters = Some (true, m') /\ (ms_t m', ms_v m') = x /\ running m' R
  end.
Proof.
  intros Hcur. destruct iters as [|it iters].
  { destruct Hcur as [Hc Hl]. apply Forall2_nil_inv_l in Hc. assert (xs = []) as -> by (destruct xs, Ls; done). by eexists. }
  destruct xs as [|x xs], Ls as [|L Ls]; try (by destruct Hcur as [Hc Hl]; inversion Hc || done).
  pose proof Hcur as [Hc Hl]. injection Hl as Hl. apply Forall2_cons_1 in Hc as [[Ha _] Hc]. simpl in Ha.
  cbn [zip_with]. destruct (merged_head xs Ls x L Hl) as (R & E). rewrite E. destruct (earliest_le xs x) as [Hx Hxs].
  set (r := foldl earlier_of x xs) in *. cbn [choose]. rewrite Ha. destruct x as [t v] eqn:Ex. cbn [mbind option_bind].
  pose proof (pick_spec iters xs Ls 1 [0%nat] (t, v) ltac:(by split)) as Hp. cbn [fst snd] in Hp. rewrite Hp. fold r. cbn [mbind option_bind].
  eexists. split_and!; [done|by destruct r|]. split; [done|]. exists ((t, v) :: xs), (L :: Ls), r.1. split_and!; [done| |].
  - cbn [on_time ms_id fst]. by destruct (t =? r.1).
  - change ((t, v) :: L) with ((fun y M => y :: M) (t, v) L) in E. cbn [zip_with].
    rewrite <- merged_past; [rewrite E; cbn [past]; by rewrite Z.eqb_refl|]. constructor; [done|].
    clearbody r. clear -Hxs Hl. revert Ls Hl. induction xs as [|y xs IH]; intros [|M Ls] Hl; try done.
    apply Forall_cons_1 in Hxs as [Hy Hxs]. constructor; [done|]. apply IH; [done|]. by injection Hl.
Qed.

Lemma merge_next_spec m R :
  merge_coming m R ->
  match R with
  | [] => exists m', merge_next m = Some (false, m')
  | x :: R => exists m', merge_next m = Some (true, m') /\ (ms_t m', ms_v m') = x /\ running m' R
  end.
Proof.
  intros Hm. unfold merge_next. destruct (ms_iters m) as [|it0 l0] eqn:Ei.
  { destruct Hm as [(_ & _ & Ls & Hc & ->)|(_ & xs & Ls & t & [Hc Hl] & _ & ->)]; rewrite Ei in Hc.
    - apply Forall2_nil_inv_l in Hc as ->. by eexists.
    - apply Forall2_nil_inv_l in Hc. assert (xs = []) as -> by (destruct xs, Ls; done). by eexists. }
  rewrite <- Ei. clear it0 l0 Ei.
  destruct Hm as [(-> & -> & Ls & Hc & ->)|(-> & xs & Ls & t & Hc & -> & ->)].
  - destruct (keep_next si_next si_at coming coming_nil coming_cons _ _ Hc) as (iters' & xs & Ls' & -> & Hc' & E). cbn [mbind option_bind step_ids].
    rewrite <- merged_filter, <- E. by apply choose_spec.
  - cbn [mbind option_bind]. destruct (step_ids_spec fst si_next si_at coming coming_nil coming_cons t (ms_iters m) xs Ls [] 0 Hc) as (iters' & xs' & Ls' & Es & Hc' & E).
    simpl app in Es. simpl Nat.add in Es. rewrite Es. cbn [mbind option_bind]. rewrite <- merged_filter, <- E. by apply choose_spec.
Qed.

#[export] Instance MergeSeriesIterator_spec : SeriesIteratorSpec (MergeSeriesIterator I).
Proof.
  refine {| coming := merge_coming |}.
  - intros m Hm. exact (merge_next_spec m [] Hm).
  - intros m x l Hm. destruct (merge_next_spec m (x :: l) Hm) as (m' & E & Ex & Hr). exists m'. simpl. rewrite Ex.
    split_and!; [done|done|by right].
Defined.

(** ** What a concatenation yields *)

Definition list_coming (m : ListMergeSeriesIterator I) (l : list (Z * Z)) : Prop :=
  lm_err m = false /\ exists Ls, Forall2 coming (drop (lm_idx m) (lm_iters m)) Ls /\ l = concat Ls.

Lemma lm_find_spec rounds : forall m Ls,
  Forall2 coming (drop (lm_idx m) (lm_iters m)) Ls -> (length Ls < rounds)%nat -> lm_err m = false ->
  match concat Ls with
  | [] => exists m', lm_find rounds si_next m = Some (false, m')
  | x :: l => exists m', lm_find rounds si_next m = Some (true, m') /\ si_at m' = Some x /\ list_coming m' l
  end.
Proof.
  induction rounds as [|rounds IH]; intros m Ls Hc Hr He; [lia|]. cbn [lm_find].
  destruct (lm_iters m !! lm_idx m) as [it|] eqn:Ei.
  - rewrite (drop_S _ _ _ Ei) in Hc. apply Forall2_cons_inv_l in Hc as (L & Ls' & Hco & Hc & ->). simpl in Hr.
    assert (Hlt : (lm_idx m < length (lm_iters m))%nat) by (by eapply lookup_lt_Some).
    destruct L as [|x L]; simpl.
    + destruct (coming_nil it Hco) as (it' & ->). cbn [mbind option_bind].
      apply (IH (mkLMSI (lm_iters (lm_set m (lm_idx m) it')) (S (lm_idx m)) (lm_err m)) Ls'); [|lia|done].
      cbn [lm_iters lm_idx lm_set]. by rewrite drop_insert_lt by lia.
    + destruct (coming_cons it x L Hco) as (it' & -> & Ha & Hl). cbn [mbind option_bind]. eexists. split; [done|].
      cbn [si_at ListMergeSeriesIterator_iterator lm_set lm_iters lm_idx]. rewrite list_lookup_insert_eq by done. split; [done|].
      split; [done|]. exists (L :: Ls'). split; [|done]. cbn [lm_iters lm_idx lm_set].
      rewrite (drop_S _ it') by (by rewrite list_lookup_insert_eq). constructor; [done|]. by rewrite drop_insert_lt by lia.
  - apply lookup_ge_None in Ei. rewrite drop_ge in Hc by done. apply Forall2_nil_inv_l in Hc as ->. by eexists.
Qed.

#[export] Instance ListMergeSeriesIterator_spec : SeriesIteratorSpec (ListMergeSeriesIterator I).
Proof.
  assert (Hn : forall m l, list_coming m l ->
    match l with
    | [] => exists m', lm_next m = Some (false, m')
    | x :: l => exists m', lm_next m = Some (true, m') /\ si_at m' = Some x /\ list_coming m' l
    end).
  { intros m l (He & Ls & Hc & ->). unfold lm_next. rewrite He. pose proof (Forall2_length _ _ _ Hc) as Hl. rewrite length_drop in Hl.
    destruct (Nat.leb_spec (length (lm_iters m)) (lm_idx m)); cbn [orb].
    - assert (Ls = []) as -> by (destruct Ls; [done|simpl in Hl; lia]). by eexists.
    - apply lm_find_spec; [done|unfold lm_rounds; lia|done]. }
  refine {| coming := list_coming |}; intros; by apply (Hn _ _ ltac:(eassumption)).
Defined.

End MergeSpec.

(** ** The chunk in memory *)

Record TreeHeadIterator := mkTHI {
  hi_iter : XORIterator;
  hi_end : bool;
  hi_min : Z;
  hi_max : Z;
  hi_init : bool;
  hi_mid : Z;
  hi_sgid : Z }.

Section Head.
Context `{PE : PastEnd}.

Definition tree_head_iterator (chunk_content : list Z) (mint maxt : Z) : TreeHeadIterator :=
  let c := xor_chunk_of (drop 11 chunk_content) (Z.of_nat (length chunk_content) - 11) false in
  mkTHI (chunk_iterator c) false mint maxt false (DecodeFixed16 (drop 1 chunk_content)) (DecodeFixed64BE (drop 3 chunk_content)).

Definition hi_move (h : TreeHeadIterator) (it : XORIterator) (e : bool) : TreeHeadIterator :=
  mkTHI it e (hi_min h) (hi_max h) true (hi_mid h) (hi_sgid h).

(** [while (true)] at the first call: to the first sample that is not before
    the range; whether there is none. *)
Fixpoint hi_skip (rounds : nat) (mint maxt : Z) (it : XORIterator) : option (bool * XORIterator) :=
  match rounds with
  | O => None
  | S rounds =>
    let '(ok, it) := next it in
    if negb ok then Some (true, it)
    else if maxt <? (at_ it).1 then Some (true, it)
    else if mint <=? (at_ it).1 then Some (false, it)
    else hi_skip rounds mint maxt it
  end.

(** A round for each sample the header announces, and one that fails. *)
Definition hi_rounds (h : TreeHeadIterator) : nat := S (Z.to_nat (num_total (hi_iter h))).

Definition hi_next (h : TreeHeadIterator) : option (bool * TreeHeadIterator) :=
  if negb (hi_init h) then
    '(e, it) ← hi_skip (hi_rounds h) (hi_min h) (hi_max h) (hi_iter h);
    Some (negb e, hi_move h it e)
  else if hi_end h then Some (false, h)
  else
    let '(ok, it) := next (hi_iter h) in
    let e := negb ok in
    let e := if negb e && (hi_max h <? (at_ it).1) then true else e in
    Some (negb e, hi_move h it e).

(** [while (iter_->next())] of [seek] *)
Fixpoint hi_find (rounds : nat) (t : Z) (h : TreeHeadIterator) : option (bool * TreeHeadIterator) :=
  match rounds with
  | O => None
  | S rounds =>
    let '(ok, it) := next (hi_iter h) in
    if negb ok then Some (false, hi_move h it true)
    else if hi_max h <? (at_ it).1 then Some (false, hi_move h it true)
    else if t <=? (at_ it).1 then Some (true, hi_move h it (hi_end h))
    else hi_find rounds t (hi_move h it (hi_end h))
  end.

Definition hi_seek (t : Z) (h : TreeHeadIterator) : option (bool * TreeHeadIterator) :=
  if hi_max h <? t then Some (false, h)
  else
    h ← (if negb (hi_init h) then
           '(e, it) ← hi_skip (hi_rounds h) (hi_min h) (hi_max h) (hi_iter h);
           Some (hi_move h it (if (e : bool) then true else hi_end h))
         else Some h);
    if hi_end h then Some (false, h) else hi_find (hi_rounds h) t h.

#[export] Instance TreeHeadIterator_iterator : SeriesIterator TreeHeadIterator := {
  si_next := hi_next;
  si_seek := hi_seek;
  si_at h := Some (if hi_end h then (0, 0) else at_ (hi_iter h)) }.

End Head.

(** ** An array of slabs *)

(** A slab: how many items it has, and its bytes.  [sa_t]: [t_] and [v_], which
    are null before a chunk was decoded; [sa_item]: [INT_MAX] is [None]. *)
Record SlabArrayIterator := mkSAI {
  sa_slabs : list (Z * list Z);
  sa_min : Z;
  sa_max : Z;
  sa_sgid : Z;
  sa_mid : Z;
  sa_t : option (list (Z * Z));
  sa_sub : nat;
  sa_slab : nat;
  sa_item : option nat;
  sa_init : bool;
  sa_err : bool }.

Section Slabs.
Context `{PE : PastEnd}.

Definition slab_array_iterator (slab_array : list (Z * list Z)) (min_time max_time sgid mid : Z) : SlabArrayIterator :=
  mkSAI slab_array (if min_time <? 0 then 0 else min_time) max_time sgid mid None 0 0 (Some 0%nat) false false.

Definition GetSlabItem (slab : list Z) (idx : nat) : list Z := load slab (Z.of_nat idx * SLAB_ITEM_SIZE) SLAB_ITEM_SIZE.

(** [DecodeItemChunkHeader]: the ids of an item, and the time of its first
    sample. *)
Definition item_start (item : list Z) : Z * Z * Z :=
  let s := take (Z.to_nat CHUNK_SIZE) (drop 8 item) in
  let c := xor_chunk_of (drop 11 s) (CHUNK_SIZE - 11) false in
  (DecodeFixed16 (drop 1 s), DecodeFixed64BE (drop 3 s),
   match next (chunk_iterator c) with (true, it) => it_timestamp it | (false, _) => INT64_MAX end).

(** [decode_value]: the samples of an item that belongs to the series. *)
Definition item_samples (sgid mid : Z) (item : list Z) : list (Z * Z) :=
  let '(m, s, l) := DecodeChunk (drop 8 item) in
  if negb (m =? mid) || negb (s =? sgid) then [] else l.

(** The loop of [GetItemIdx], from item [i] on. *)
Fixpoint find_item (sgid mid mint : Z) (slab : list Z) (n i : nat) (prev : option nat) : option nat :=
  match n with
  | O => prev
  | S n =>
    let '(m, s, start_time) := item_start (GetSlabItem slab i) in
    if negb (m =? mid) || negb (s =? sgid) then find_item sgid mid mint slab n (S i) prev
    else
      let prev := if start_time <? mint then Some i else prev in
      if start_time =? mint then Some i
      else if mint <? start_time then (match prev with Some p => Some p | None => Some i end)
      else find_item sgid mid mint slab n (S i) prev
  end.

Definition GetItemIdx (s : SlabArrayIterator) (slab : Z * list Z) : option nat :=
  find_item (sa_sgid s) (sa_mid s) (sa_min s) slab.2 (Z.to_nat slab.1) 0 None.

Definition sa_at_item (s : SlabArrayIterator) (slab : nat) (item : option nat) : SlabArrayIterator :=
  mkSAI (sa_slabs s) (sa_min s) (sa_max s) (sa_sgid s) (sa_mid s) (sa_t s) (sa_sub s) slab item (sa_init s) (sa_err s).
Definition sa_decoded (s : SlabArrayIterator) (l : list (Z * Z)) : SlabArrayIterator :=
  mkSAI (sa_slabs s) (sa_min s) (sa_max s) (sa_sgid s) (sa_mid s) (Some l) (sa_sub s) (sa_slab s) (sa_item s) (sa_init s) (sa_err s).
Definition sa_at_sub (s : SlabArrayIterator) (i : nat) : SlabArrayIterator :=
  mkSAI (sa_slabs s) (sa_min s) (sa_max s) (sa_sgid s) (sa_mid s) (sa_t s) i (sa_slab s) (sa_item s) (sa_init s) (sa_err s).
Definition sa_started (s : SlabArrayIterator) : SlabArrayIterator :=
  mkSAI (sa_slabs s) (sa_min s) (sa_max s) (sa_sgid s) (sa_mid s) (sa_t s) (sa_sub s) (sa_slab s) (sa_item s) true (sa_err s).
Definition sa_failed (s : SlabArrayIterator) : SlabArrayIterator :=
  mkSAI (sa_slabs s) (sa_min s) (sa_max s) (sa_sgid s) (sa_mid s) (sa_t s) (sa_sub s) (sa_slab s) (sa_item s) (sa_init s) true.

(** [item_idx_ = GetItemIdx(...); while (item_idx_ == INT_MAX) ...]: the first
    slab from [sa_slab] on with an item of the series; false: there is none. *)
Fixpoint find_slab (rounds : nat) (s : SlabArrayIterator) : option (bool * SlabArrayIterator) :=
  match rounds with
  | O => None
  | S rounds =>
    slab ← sa_slabs s !! sa_slab s;
    match GetItemIdx s slab with
    | Some i => Some (true, sa_at_item s (sa_slab s) (Some i))
    | None =>
      let s := sa_at_item s (S (sa_slab s)) None in
      if (length (sa_slabs s) <=? sa_slab s)%nat then Some (false, s) else find_slab rounds s
    end
  end.

(** [DecodeItemChunk(GetSlabItem(...)); item_idx_++] *)
Definition decode_item (s : SlabArrayIterator) : option SlabArrayIterator :=
  slab ← sa_slabs s !! sa_slab s;
  i ← sa_item s;
  Some (sa_at_item (sa_decoded s (item_samples (sa_sgid s) (sa_mid s) (GetSlabItem slab.2 i))) (sa_slab s) (Some (S i))).

(** How a step to the next item ends: the end of the array, an item of
    another series, a decoded item. *)
Inductive Stepped := Ended | Skipped | Decoded.

Definition next_item (s : SlabArrayIterator) : option (Stepped * SlabArrayIterator) :=
  slab ← sa_slabs s !! sa_slab s;
  i ← sa_item s;
  if slab.1 <=? Z.of_nat i then
    let s := sa_at_item s (S (sa_slab s)) (sa_item s) in
    if (length (sa_slabs s) <=? sa_slab s)%nat then Some (Ended, s)
    else
      '(found, s) ← find_slab (length (sa_slabs s)) s;
      if (found : bool) then s ← decode_item s; Some (Decoded, s) else Some (Ended, s)
  else
    let '(m, g, _) := item_start (GetSlabItem slab.2 i) in
    if negb (m =? sa_mid s) || negb (g =? sa_sgid s) then Some (Skipped, sa_at_item s (sa_slab s) (Some (S i)))
    else s ← decode_item s; Some (Decoded, s).

(** [while (sub_idx_ < t_->size())]: to a sample that is not before the range
    ([Some true]), or past fst the range ([Some false]), or to the end of the chunk. *)
Fixpoint scan_chunk (rounds : nat) (t : list (Z * Z)) (s : SlabArrayIterator) : option bool * SlabArrayIterator :=
  match rounds, t !! sa_sub s with
  | S rounds, Some x =>
    if sa_max s <? x.1 then (Some false, sa_failed s)
    else if sa_min s <=? x.1 then (Some true, s)
    else scan_chunk rounds t (sa_at_sub s (S (sa_sub s)))
  | _, _ => (None, s)
  end.

(** The loop of the first call. *)
Fixpoint first_loop (rounds : nat) (s : SlabArrayIterator) : option (bool * SlabArrayIterator) :=
  match rounds with
  | O => None
  | S rounds =>
    t ← sa_t s;
    match scan_chunk (length t) t s with
    | (Some r, s) => Some (r, s)
    | (None, s) =>
      '(r, s) ← next_item (sa_at_sub s 0);
      match r with Ended => Some (false, s) | _ => first_loop rounds s end
    end
  end.

(** The loop of later calls; an item whose samples are all before the range
    makes it pass over the item after it. *)
Fixpoint later_loop (rounds : nat) (s : SlabArrayIterator) : option (bool * SlabArrayIterator) :=
  match rounds with
  | O => None
  | S rounds =>
    '(r, s) ← next_item s;
    match r with
    | Ended => Some (false, s)
    | Skipped => later_loop rounds s
    | Decoded =>
      t ← sa_t s;
      match t !! sa_sub s with
      | None => later_loop rounds s
      | Some x =>
        if sa_max s <? x.1 then Some (false, sa_failed s)
        else
          match scan_chunk (length t) t s with
          | (Some r, s) => Some (r, s)
          | (None, s) => later_loop rounds (sa_at_item s (sa_slab s) (S <$> sa_item s))
          end
      end
    end
  end.

(** A round for each item, and one for each slab, and one more. *)
Definition sa_rounds (s : SlabArrayIterator) : nat := S (sum_list_with (fun slab => S (Z.to_nat slab.1)) (sa_slabs s)).

Definition sa_next (s : SlabArrayIterator) : option (bool * SlabArrayIterator) :=
  if sa_err s then Some (false, s)
  else match sa_slabs s with
  | [] => Some (false, s)
  | _ =>
    if negb (sa_init s) then
      '(found, s) ← find_slab (length (sa_slabs s)) s;
      if negb found then Some (false, s)
      else s ← decode_item s; first_loop (sa_rounds s) (sa_started s)
    else
      let s := sa_at_sub s (S (sa_sub s)) in
      t ← sa_t s;
      match t !! sa_sub s with
      | None => later_loop (sa_rounds s) (sa_at_sub s 0)
      | Some x => if sa_max s <? x.1 then Some (false, sa_failed s) else Some (true, s)
      end
  end.

(** [seek] finds nothing: its body is commented out. *)
Definition sa_seek (t : Z) (s : SlabArrayIterator) : option (bool * SlabArrayIterator) :=
  if sa_err s || (sa_max s <? t) then Some (false, s) else Some (false, s).

#[export] Instance SlabArrayIterator_iterator : SeriesIterator SlabArrayIterator := {
  si_next := sa_next;
  si_seek := sa_seek;
  si_at s := t ← sa_t s; Some (default (0, 0) (t !! sa_sub s)) }.

End Slabs.

(** ** What a range of times leaves *)

Definition in_range (mint maxt : Z) (l : list (Z * Z)) : list (Z * Z) := filter (fun x => mint <= x.1 <= maxt) l.

Lemma in_range_app mint maxt l k : in_range mint maxt (l ++ k) = in_range mint maxt l ++ in_range mint maxt k.
Proof. apply filter_app. Qed.

Lemma in_range_none mint maxt l : Forall (fun x => x.1 < mint \/ maxt < x.1) l -> in_range mint maxt l = [].
Proof.
  induction 1 as [|x l Hx _ IH]; [done|]. unfold in_range. rewrite filter_cons, decide_False by lia. exact IH.
Qed.

Lemma in_range_before mint maxt l : Forall (fun x => x.1 < mint) l -> in_range mint maxt l = [].
Proof. intros Hl. apply in_range_none. eapply Forall_impl; [exact Hl|]. simpl. lia. Qed.

Lemma in_range_after mint maxt x l : ascending (x :: l) -> maxt < x.1 -> in_range mint maxt (x :: l) = [].
Proof.
  intros [Hl _]%ascending_cons Hx. apply in_range_none. constructor; [lia|]. eapply Forall_impl; [exact Hl|]. simpl. lia.
Qed.

Lemma in_range_cons mint maxt x l : mint <= x.1 <= maxt -> in_range mint maxt (x :: l) = x :: in_range mint maxt l.
Proof. intros Hx. unfold in_range. by rewrite filter_cons, decide_True. Qed.

Lemma ascending_app l k :
  ascending (l ++ k) <-> ascending l /\ ascending k /\ Forall (fun x => Forall (fun y => x.1 < y.1) k) l.
Proof.
  induction l as [|x l IH]; simpl.
  - split; [intros H; split_and!; [constructor|done|constructor]|by intros (_ & ? & _)].
  - rewrite !ascending_cons, IH, Forall_app, Forall_cons. naive_solver.
Qed.

Lemma in_range_ascending mint maxt l : ascending l -> ascending (in_range mint maxt l).
Proof.
  unfold in_range. induction l as [|x l IH]; [constructor|]. intros [F Hl]%ascending_cons. rewrite filter_cons.
  case_decide; [|by apply IH]. apply ascending_cons. split; [|by apply IH]. apply Forall_forall. intros y [_ Hy]%list_elem_of_filter.
  rewrite Forall_forall in F. by apply F.
Qed.

Lemma elem_of_in_range mint maxt x l : x ∈ in_range mint maxt l <-> mint <= x.1 <= maxt /\ x ∈ l.
Proof. unfold in_range. by rewrite list_elem_of_filter. Qed.

Section HeadSpec.
Context `{PE : PastEnd}.

Lemma visits_count it l e :
  visits it l e -> 0 <= num_read it <= num_total it -> num_total it <= 65535 ->
  (length l <= Z.to_nat (num_total it - num_read it))%nat.
Proof.
  induction 1 as [it e E|it it1 l e E Hv IH]; intros Hr Ht; [simpl; lia|].
  apply next_true in E as (E1 & E2 & E3). unfold u16 in E3. rewrite wrap_id in E3 by (unfold is_u; lia).
  specialize (IH ltac:(lia) ltac:(lia)). simpl. lia.
Qed.

Lemma run_visits b safe : exists e, visits (xor_iterator_of b safe) (run (xor_iterator_of b safe)).1 e.
Proof.
  assert (Ht : is_u 16 (num_total (xor_iterator_of b safe))) by by apply wrap_range. unfold is_u in Ht.
  eexists. apply drain_visits; simpl num_read; lia.
Qed.

Definition head_coming (h : TreeHeadIterator) (l : list (Z * Z)) : Prop :=
  hi_end h = false /\ exists L e, visits (hi_iter h) L e /\ ascending L /\ l = in_range (hi_min h) (hi_max h) L /\
    (hi_init h = true -> Forall (fun x => hi_min h <= x.1) L) /\ (hi_init h = false -> (length L < hi_rounds h)%nat).

Lemma hi_skip_spec rounds mint maxt it L e :
  visits it L e -> ascending L -> (length L < rounds)%nat ->
  match in_range mint maxt L with
  | [] => exists it', hi_skip rounds mint maxt it = Some (true, it')
  | x :: l => exists it' L', hi_skip rounds mint maxt it = Some (false, it') /\ at_ it' = x /\ visits it' L' e /\
      ascending (x :: L') /\ l = in_range mint maxt L' /\ mint <= x.1
  end.
Proof.
  revert it L. induction rounds as [|rounds IH]; intros it L Hv Ha Hr; [lia|]. cbn [hi_skip].
  destruct Hv as [it it' E|it it1 L it' E Hv]; change (ci_next it) with (next it) in E; rewrite E; cbn [negb]; [by eexists|].
  change (ci_at it1) with (at_ it1) in *. set (x := at_ it1) in *. simpl in Hr.
  destruct (Z.ltb_spec maxt x.1); [rewrite in_range_after by done; by eexists|].
  pose proof (proj1 (ascending_cons _ _) Ha) as [_ Ha'].
  destruct (Z.leb_spec mint x.1).
  - rewrite in_range_cons by lia. by exists it1, L.
  - specialize (IH it1 L Hv Ha' ltac:(lia)). change (x :: L) with ([x] ++ L). rewrite in_range_app, in_range_before by (repeat constructor; lia).
    done.
Qed.

Lemma head_next_spec h l :
  head_coming h l ->
  match l with
  | [] => exists h', hi_next h = Some (false, h')
  | x :: l => exists h', hi_next h = Some (true, h') /\ si_at h' = Some x /\ head_coming h' l
  end.
Proof.
  intros (He & L & e & Hv & Ha & -> & Hin & Hlen). unfold hi_next. destruct (hi_init h) eqn:Ei; cbn [negb].
  - rewrite He. specialize (Hin eq_refl).
    destruct Hv as [it it' E|it it1 L it' E Hv]; change (ci_next it) with (next it) in E; rewrite E; cbn [negb andb]; [by eexists|].
    change (ci_at it1) with (at_ it1) in *. set (x := at_ it1) in *. apply Forall_cons_1 in Hin as [Hx Hin].
    destruct (Z.ltb_spec (hi_max h) x.1); [rewrite in_range_after by done; by eexists|].
    rewrite in_range_cons by lia. eexists. split; [done|]. split; [done|]. split; [done|]. exists L, it'.
    split_and!; [done|by apply ascending_cons in Ha as [_ ?]|done|done|done].
  - pose proof (hi_skip_spec (hi_rounds h) (hi_min h) (hi_max h) (hi_iter h) L e Hv Ha (Hlen eq_refl)) as Hs.
    destruct (in_range _ _ L) as [|x l]; [destruct Hs as (it' & ->); by eexists|].
    destruct Hs as (it' & L' & -> & Hat & Hv' & Ha' & -> & Hx). cbn [mbind option_bind negb].
    eexists. split; [done|]. split; [simpl; by rewrite Hat|]. split; [done|]. apply ascending_cons in Ha' as [Hall Ha'].
    exists L', e. split_and!; [done|done|done| |done]. intros _. eapply Forall_impl; [exact Hall|]. simpl. lia.
Qed.

#[export] Instance TreeHeadIterator_spec : SeriesIteratorSpec TreeHeadIterator.
Proof.
  refine {| coming := head_coming |}.
  - intros h Hh. exact (head_next_spec h [] Hh).
  - intros h x l Hh. exact (head_next_spec h (x :: l) Hh).
Defined.

(** The iterator over the bytes of a chunk yields its samples in the range. *)
Lemma tree_head_coming content mint maxt :
  let L := (run (chunk_iterator (xor_chunk_of (drop 11 content) (Z.of_nat (length content) - 11) false))).1 in
  ascending L -> coming (tree_head_iterator content mint maxt) (in_range mint maxt L).
Proof.
  intros L HL. split; [done|]. set (b := bstream (xor_chunk_of (drop 11 content) (Z.of_nat (length content) - 11) false)).
  destruct (run_visits b false) as (e & He). exists L, e. split_and!; [exact He|done|done|done|].
  intros _. assert (Ht : is_u 16 (num_total (xor_iterator_of b false))) by by apply wrap_range. unfold is_u in Ht.
  pose proof (visits_count _ _ _ He) as Hc. simpl num_read in Hc. specialize (Hc ltac:(lia) ltac:(lia)).
  unfold hi_rounds. change (hi_iter (tree_head_iterator content mint maxt)) with (xor_iterator_of b false).
  change L with (run (xor_iterator_of b false)).1. lia.
Qed.

End HeadSpec.

Section SlabsSpec.
Context `{PE : PastEnd}.

(** The samples of the series in items [i], [i + 1], ... of a slab, and in all
    slabs from item [i] of slab [k] on. *)
Definition items_from (sgid mid : Z) (slab : Z * list Z) (i : nat) : list (Z * Z) :=
  concat ((fun j => item_samples sgid mid (GetSlabItem slab.2 j)) <$> seq i (Z.to_nat slab.1 - i)).
Definition slab_samples (sgid mid : Z) (slab : Z * list Z) : list (Z * Z) := items_from sgid mid slab 0.
Definition samples_from (s : SlabArrayIterator) (k i : nat) : list (Z * Z) :=
  match drop k (sa_slabs s) with
  | [] => []
  | slab :: slabs => items_from (sa_sgid s) (sa_mid s) slab i ++ concat (slab_samples (sa_sgid s) (sa_mid s) <$> slabs)
  end.

Lemma item_start_spec sgid mid item :
  let '(m, g, start) := item_start item in
  if negb (m =? mid) || negb (g =? sgid) then item_samples sgid mid item = []
  else start = match item_samples sgid mid item with x :: _ => x.1 | [] => INT64_MAX end.
Proof.
  unfold item_start, item_samples, DecodeChunk. set (c := xor_chunk_of _ _ false).
  destruct (negb _ || negb _); [done|]. unfold run. cbn [drain]. destruct (next (chunk_iterator c)) as [[|] it]; [|done].
  by destruct (drain _ it).
Qed.

Lemma items_from_S sgid mid slab i : Z.of_nat i < slab.1 ->
  items_from sgid mid slab i = item_samples sgid mid (GetSlabItem slab.2 i) ++ items_from sgid mid slab (S i).
Proof.
  intros Hi. unfold items_from. destruct (Z.to_nat slab.1 - i)%nat as [|n] eqn:E; [lia|].
  replace (Z.to_nat slab.1 - S i)%nat with n by lia. done.
Qed.

Lemma items_from_end sgid mid slab i : slab.1 <= Z.of_nat i -> items_from sgid mid slab i = [].
Proof. intros Hi. unfold items_from. by replace (Z.to_nat slab.1 - i)%nat with O by lia. Qed.

(** The item [GetItemIdx] finds: nothing in the range is before it. *)
Lemma find_item_spec sgid mid mint slab : mint < INT64_MAX -> forall n i prev before,
  (i + n)%nat = Z.to_nat slab.1 -> ascending (before ++ items_from sgid mid slab i) ->
  slab_samples sgid mid slab = before ++ items_from sgid mid slab i ->
  match prev with
  | Some p => (p < i)%nat /\ exists b, slab_samples sgid mid slab = b ++ items_from sgid mid slab p /\ Forall (fun x => x.1 < mint) b
  | None => before = []
  end ->
  match find_item sgid mid mint slab.2 n i prev with
  | Some p => Z.of_nat p < slab.1 /\ exists b, slab_samples sgid mid slab = b ++ items_from sgid mid slab p /\ Forall (fun x => x.1 < mint) b
  | None => slab_samples sgid mid slab = []
  end.
Proof.
  intros Hmin. induction n as [|n IH]; intros i prev before Hn Ha Hs Hp; cbn [find_item].
  { destruct prev as [p|]; [destruct Hp; split; [lia|done]|]. by rewrite Hs, Hp, items_from_end by lia. }
  rewrite items_from_S in Hs, Ha by lia. pose proof (item_start_spec sgid mid (GetSlabItem slab.2 i)) as Hst.
  destruct (item_start (GetSlabItem slab.2 i)) as [[m g] start].
  set (X := item_samples sgid mid (GetSlabItem slab.2 i)) in *. set (R := items_from sgid mid slab (S i)) in *.
  assert (Hrec : forall prev', match prev' with
      | Some p => (p < S i)%nat /\ exists b, slab_samples sgid mid slab = b ++ items_from sgid mid slab p /\ Forall (fun x => x.1 < mint) b
      | None => before ++ X = [] end ->
    match find_item sgid mid mint slab.2 n (S i) prev' with
    | Some p => Z.of_nat p < slab.1 /\ exists b, slab_samples sgid mid slab = b ++ items_from sgid mid slab p /\ Forall (fun x => x.1 < mint) b
    | None => slab_samples sgid mid slab = []
    end).
  { intros prev' Hp'. apply (IH (S i) prev' (before ++ X)); [lia| | |done]; rewrite <- app_assoc; done. }
  destruct (negb _ || negb _).
  { apply Hrec. rewrite Hst, app_nil_r. destruct prev as [p|]; [|done]. destruct Hp; split; [lia|done]. }
  assert (Here : start <= mint -> exists b, slab_samples sgid mid slab = b ++ items_from sgid mid slab i /\ Forall (fun x => x.1 < mint) b).
  { intros Hle. exists before. rewrite items_from_S by lia. split; [done|].
    destruct X as [|x X']; [lia|]. apply ascending_app in Ha as (_ & _ & Hb). eapply Forall_impl; [exact Hb|].
    simpl. intros y Hy. apply Forall_cons_1 in Hy as [? _]. lia. }
  destruct (Z.eqb_spec start mint); [split; [lia|]; apply Here; lia|].
  destruct (Z.ltb_spec start mint).
  - rewrite (proj2 (Z.ltb_ge mint start)) by lia. apply Hrec. split; [lia|]. apply Here. lia.
  - rewrite (proj2 (Z.ltb_lt mint start)) by lia. destruct prev as [p|]; [destruct Hp; split; [lia|done]|].
    split; [lia|]. exists []. rewrite items_from_S by lia. subst before. by split.
Qed.

Lemma GetItemIdx_spec s slab :
  sa_min s < INT64_MAX -> ascending (slab_samples (sa_sgid s) (sa_mid s) slab) ->
  match GetItemIdx s slab with
  | Some p => Z.of_nat p < slab.1 /\ exists b, slab_samples (sa_sgid s) (sa_mid s) slab = b ++ items_from (sa_sgid s) (sa_mid s) slab p /\
      Forall (fun x => x.1 < sa_min s) b
  | None => slab_samples (sa_sgid s) (sa_mid s) slab = []
  end.
Proof. intros Hmin Ha. by apply (find_item_spec (sa_sgid s) (sa_mid s) (sa_min s) slab Hmin _ 0 None []). Qed.

(** The parts of the state no step changes. *)
Definition same_query (s s' : SlabArrayIterator) : Prop :=
  sa_slabs s' = sa_slabs s /\ sa_min s' = sa_min s /\ sa_max s' = sa_max s /\ sa_sgid s' = sa_sgid s /\ sa_mid s' = sa_mid s /\
  sa_init s' = sa_init s /\ sa_err s' = sa_err s.

(** The steps that are left at most, from item [i] of slab [k] on. *)
Definition items_left (s : SlabArrayIterator) (k i : nat) : nat :=
  match drop k (sa_slabs s) with
  | [] => 0
  | slab :: slabs => Z.to_nat slab.1 - i + sum_list_with (fun slab => S (Z.to_nat slab.1)) slabs
  end.

(** What the search for a slab does: the samples it passes over are before the
    range. *)
Lemma find_slab_spec rounds : forall s,
  sa_min s < INT64_MAX -> (sa_slab s < length (sa_slabs s))%nat -> (length (sa_slabs s) - sa_slab s <= rounds)%nat ->
  ascending (samples_from s (sa_slab s) 0) ->
  exists found s', find_slab rounds s = Some (found, s') /\ same_query s s' /\ sa_t s' = sa_t s /\ sa_sub s' = sa_sub s /\
    if found : bool then exists p slab b, sa_slabs s !! sa_slab s' = Some slab /\ sa_item s' = Some p /\ Z.of_nat p < slab.1 /\
      samples_from s (sa_slab s) 0 = b ++ samples_from s (sa_slab s') p /\ Forall (fun x => x.1 < sa_min s) b /\
      (items_left s (sa_slab s') p <= items_left s (sa_slab s) 0)%nat
    else samples_from s (sa_slab s) 0 = [].
Proof.
  induction rounds as [|rounds IH]; intros s Hmin Hk Hr Ha; [lia|]. cbn [find_slab].
  destruct (lookup_lt_is_Some_2 (sa_slabs s) (sa_slab s) Hk) as [slab Es]. rewrite Es. cbn [mbind option_bind].
  unfold samples_from in Ha |- *. rewrite (drop_S _ _ _ Es) in Ha |- *.
  change (items_from (sa_sgid s) (sa_mid s) slab 0) with (slab_samples (sa_sgid s) (sa_mid s) slab) in Ha |- *.
  pose proof (GetItemIdx_spec s slab Hmin (proj1 (proj1 (ascending_app _ _) Ha))) as Hg.
  destruct (GetItemIdx s slab) as [p|].
  - destruct Hg as (Hp & b & Eb & Hb). eexists true, _. split; [done|]. split_and!; [done..|].
    exists p, slab, b. cbn [sa_slab sa_item sa_at_item]. rewrite (drop_S _ _ _ Es), Eb, <- app_assoc.
    split_and!; try done. unfold items_left. rewrite (drop_S _ _ _ Es). lia.
  - rewrite Hg. simpl app. cbn [sa_slabs sa_slab sa_at_item].
    destruct (Nat.leb_spec (length (sa_slabs s)) (S (sa_slab s))) as [Hle|Hlt].
    + eexists false, _. split; [done|]. split_and!; [done..|]. by rewrite drop_ge by lia.
    + set (s1 := sa_at_item s (S (sa_slab s)) None).
      assert (E1 : samples_from s1 (sa_slab s1) 0 = concat (slab_samples (sa_sgid s) (sa_mid s) <$> drop (S (sa_slab s)) (sa_slabs s))).
      { unfold samples_from. cbn [sa_slabs sa_slab s1 sa_at_item sa_sgid sa_mid]. by destruct (drop (S (sa_slab s)) (sa_slabs s)). }
      destruct (IH s1 Hmin Hlt) as (found & s' & E & Hq & Ht & Hsub & Hf); [cbn [sa_slabs sa_slab s1 sa_at_item]; lia| |].
      { rewrite E1. by apply ascending_app in Ha as (_ & ? & _). }
      exists found, s'. split; [exact E|]. split_and!; [done..|]. rewrite E1 in Hf. destruct found; [|done].
      destruct Hf as (p & slab' & b & H1 & H2 & H3 & H4 & H5 & H6). exists p, slab', b. split_and!; try done.
      etransitivity; [exact H6|]. unfold items_left. rewrite (drop_S _ _ _ Es). cbn [sa_slabs sa_slab s1 sa_at_item].
      destruct (drop (S (sa_slab s)) (sa_slabs s)); simpl; lia.
Qed.

(** On an item of a slab of the array. *)
Definition on_item (s : SlabArrayIterator) (i : nat) : Prop := (sa_slab s < length (sa_slabs s))%nat /\ sa_item s = Some i.

Lemma decode_item_spec s p slab :
  sa_slabs s !! sa_slab s = Some slab -> sa_item s = Some p -> Z.of_nat p < slab.1 ->
  exists s' L, decode_item s = Some s' /\ same_query s s' /\ sa_sub s' = sa_sub s /\ sa_t s' = Some L /\ on_item s' (S p) /\
    samples_from s (sa_slab s) p = L ++ samples_from s (sa_slab s') (S p) /\
    (items_left s (sa_slab s') (S p) < items_left s (sa_slab s) p)%nat.
Proof.
  intros Es Ei Hp. unfold decode_item. rewrite Es. cbn [mbind option_bind]. rewrite Ei. cbn [mbind option_bind].
  eexists _, _. split; [done|]. split; [done|]. split; [done|]. split; [done|].
  split; [split; [by eapply lookup_lt_Some|done]|]. cbn [sa_slab sa_at_item sa_decoded].
  unfold samples_from, items_left. rewrite (drop_S _ _ _ Es). rewrite items_from_S by done. rewrite <- app_assoc. split; [done|]. lia.
Qed.

Lemma same_query_trans a b c : same_query a b -> same_query b c -> same_query a c.
Proof. unfold same_query. naive_solver congruence. Qed.

Lemma same_query_samples a b k i : same_query a b -> samples_from b k i = samples_from a k i /\ items_left b k i = items_left a k i.
Proof. intros (E1 & _ & _ & E2 & E3 & _). unfold samples_from, items_left. by rewrite E1, E2, E3. Qed.

(** A step to the next item: an item that is decoded, or passed over. *)
Lemma next_item_spec s i :
  sa_min s < INT64_MAX -> on_item s i -> ascending (samples_from s (sa_slab s) i) ->
  exists r s', next_item s = Some (r, s') /\ same_query s s' /\ sa_sub s' = sa_sub s /\
    match r with
    | Ended => samples_from s (sa_slab s) i = []
    | Skipped => sa_t s' = sa_t s /\ exists i', on_item s' i' /\ samples_from s (sa_slab s) i = samples_from s (sa_slab s') i' /\
        (items_left s (sa_slab s') i' < items_left s (sa_slab s) i)%nat
    | Decoded => exists b L i', sa_t s' = Some L /\ on_item s' i' /\ samples_from s (sa_slab s) i = b ++ L ++ samples_from s (sa_slab s') i' /\
        Forall (fun x => x.1 < sa_min s) b /\ (items_left s (sa_slab s') i' < items_left s (sa_slab s) i)%nat
    end.
Proof.
  intros Hmin [Hk Ei] Ha. unfold next_item. destruct (lookup_lt_is_Some_2 _ _ Hk) as [slab Es]. rewrite Es. cbn [mbind option_bind].
  rewrite Ei. cbn [mbind option_bind]. unfold samples_from at 1 in Ha. rewrite (drop_S _ _ _ Es) in Ha.
  destruct (Z.leb_spec slab.1 (Z.of_nat i)) as [Hle|Hlt].
  - cbn [sa_slabs sa_slab sa_at_item].
    assert (E0 : samples_from s (sa_slab s) i = samples_from s (S (sa_slab s)) 0).
    { unfold samples_from. rewrite (drop_S _ _ _ Es), items_from_end by done. by destruct (drop (S (sa_slab s)) (sa_slabs s)). }
    assert (M0 : items_left s (sa_slab s) i = items_left s (S (sa_slab s)) 0 \/ (items_left s (S (sa_slab s)) 0 < items_left s (sa_slab s) i)%nat).
    { unfold items_left. rewrite (drop_S _ _ _ Es). destruct (drop (S (sa_slab s)) (sa_slabs s)); simpl; lia. }
    rewrite E0. destruct (Nat.leb_spec (length (sa_slabs s)) (S (sa_slab s))) as [He|Hin].
    + eexists Ended, _. split_and!; [done..|]. unfold samples_from. by rewrite drop_ge.
    + set (s1 := sa_at_item s (S (sa_slab s)) (Some i)).
      destruct (find_slab_spec (length (sa_slabs s)) s1) as (found & s' & E & Hq & Ht & Hsub & Hf); [done|done| | |].
      { cbn [sa_slabs sa_slab s1 sa_at_item]. lia. }
      { change (ascending (samples_from s (S (sa_slab s)) 0)). rewrite <- E0. unfold samples_from. by rewrite (drop_S _ _ _ Es). }
      fold s1. rewrite E. cbn [mbind option_bind]. destruct found.
      * destruct Hf as (p & slab' & b & F1 & F2 & F3 & F4 & F5 & F6).
        destruct (decode_item_spec s' p slab') as (s2 & L & G1 & G2 & G3 & G4 & G5 & G6 & G7);
          [destruct Hq as (-> & _); exact F1|done|done|].
        rewrite G1. cbn [mbind option_bind]. eexists Decoded, s2. split; [done|].
        split; [exact (same_query_trans _ _ _ Hq G2)|]. split; [by rewrite G3|].
        destruct (same_query_samples s1 s' (sa_slab s') p Hq) as [Q1 Q2].
        destruct (same_query_samples s1 s' (sa_slab s2) (S p) Hq) as [Q3 Q4].
        exists b, L, (S p). split; [done|]. split; [done|]. split; [|split; [done|]].
        -- change (samples_from s (S (sa_slab s)) 0) with (samples_from s1 (sa_slab s1) 0). rewrite F4, <- Q1, G6, Q3. done.
        -- change (items_left s1) with (items_left s) in *. cbn [s1 sa_slab sa_at_item] in F6. lia.
      * exists Ended, s'. by split_and!.
  - pose proof (item_start_spec (sa_sgid s) (sa_mid s) (GetSlabItem slab.2 i)) as Hst.
    destruct (item_start (GetSlabItem slab.2 i)) as [[m g] start]. destruct (negb _ || negb _).
    + eexists Skipped, _. split_and!; [done..|]. exists (S i). cbn [sa_slab sa_at_item]. split; [by split|].
      unfold samples_from, items_left. rewrite (drop_S _ _ _ Es), items_from_S by done. rewrite Hst. split; [done|]. lia.
    + destruct (decode_item_spec s i slab Es Ei Hlt) as (s2 & L & G1 & G2 & G3 & G4 & G5 & G6 & G7).
      rewrite G1. cbn [mbind option_bind]. exists Decoded, s2. split; [done|]. split; [done|]. split; [done|].
      exists [], L, (S i). by split_and!.
Qed.

(** On sample [sa_sub] of the decoded chunk, the rest of it and of the array
    still to come. *)
Definition sa_running (s : SlabArrayIterator) (l : list (Z * Z)) : Prop :=
  sa_init s = true /\ sa_err s = false /\ sa_min s < INT64_MAX /\ exists T i, sa_t s = Some T /\ on_item s i /\
    let P := drop (S (sa_sub s)) T ++ samples_from s (sa_slab s) i in
    ascending P /\ Forall (fun x => sa_min s <= x.1) P /\ l = in_range (sa_min s) (sa_max s) P.

(** What a call of [next] shows of the samples [P] it had before it. *)
Definition shows (r : option (bool * SlabArrayIterator)) (l : list (Z * Z)) : Prop :=
  match l with
  | [] => exists s', r = Some (false, s')
  | x :: l => exists s', r = Some (true, s') /\ si_at s' = Some x /\ sa_running s' l
  end.

Lemma running_at s T k i x P :
  sa_init s = true -> sa_err s = false -> sa_min s < INT64_MAX -> sa_t s = Some T -> on_item s i -> sa_sub s = k ->
  T !! k = Some x -> sa_min s <= x.1 <= sa_max s -> P = drop k T ++ samples_from s (sa_slab s) i -> ascending P ->
  shows (Some (true, s)) (in_range (sa_min s) (sa_max s) P).
Proof.
  intros Hi He Hm Ht Ho Hk Hx Hr -> Ha. rewrite (drop_S _ _ _ Hx) in *. rewrite <- app_comm_cons in *. rewrite in_range_cons by done.
  exists s. split; [done|]. split; [simpl; rewrite Ht; simpl; by rewrite Hk, Hx|]. apply ascending_cons in Ha as [Hall Ha].
  split_and!; [done..|]. exists T, i. rewrite Hk. do 3 (split; [done|]). split; [|done]. eapply Forall_impl; [exact Hall|]. simpl. lia.
Qed.

(** The scan of a chunk from sample [k] on. *)
Lemma scan_chunk_spec rounds T : forall s k i P,
  sa_init s = true -> sa_err s = false -> sa_min s < INT64_MAX -> sa_t s = Some T -> on_item s i -> sa_sub s = k ->
  (length T <= k + rounds)%nat -> P = drop k T ++ samples_from s (sa_slab s) i -> ascending P ->
  match scan_chunk rounds T s with
  | (Some r, s') => shows (Some (r, s')) (in_range (sa_min s) (sa_max s) P)
  | (None, s') => exists k', s' = sa_at_sub s k' /\ Forall (fun x => x.1 < sa_min s) (drop k T)
  end.
Proof.
  induction rounds as [|rounds IH]; intros s k i P Hi He Hm Ht Ho Hk Hl HP Ha; cbn [scan_chunk].
  { exists (sa_sub s). rewrite drop_ge by lia. split; [by destruct s|constructor]. }
  rewrite Hk. destruct (T !! k) as [x|] eqn:Ex; [|exists k; rewrite drop_ge by (by apply lookup_ge_None); split; [by destruct s; simpl in *; subst|constructor]].
  pose proof HP as HP'. rewrite (drop_S _ _ _ Ex), <- app_comm_cons in HP'.
  destruct (Z.ltb_spec (sa_max s) x.1).
  { rewrite HP' in Ha |- *. rewrite in_range_after by done. by eexists. }
  destruct (Z.leb_spec (sa_min s) x.1); [by apply (running_at s T k i x)|].
  rewrite HP' in Ha |- *. apply ascending_cons in Ha as [_ Ha].
  specialize (IH (sa_at_sub s (S k)) (S k) i _ Hi He Hm Ht Ho eq_refl ltac:(lia) eq_refl Ha). cbn [sa_min sa_max sa_at_sub] in IH.
  change (?x :: ?l) with ([x] ++ l). rewrite in_range_app, (in_range_before _ _ [x]) by (repeat constructor; lia).
  destruct (scan_chunk rounds T (sa_at_sub s (S k))) as [[r|] s']; [exact IH|]. destruct IH as (k' & -> & Hb). exists k'.
  rewrite (drop_S _ _ _ Ex). split; [done|]. by constructor.
Qed.

Lemma same_query_started s s' : same_query s s' -> sa_init s = true -> sa_err s = false -> sa_min s < INT64_MAX ->
  sa_init s' = true /\ sa_err s' = false /\ sa_min s' < INT64_MAX.
Proof. intros (_ & E1 & _ & _ & _ & E2 & E3). by rewrite E1, E2, E3. Qed.

(** The loop of the first call shows the first sample of the range. *)
Lemma first_loop_spec rounds : forall s T i P,
  sa_init s = true -> sa_err s = false -> sa_min s < INT64_MAX -> sa_t s = Some T -> on_item s i -> sa_sub s = 0%nat ->
  P = T ++ samples_from s (sa_slab s) i -> ascending P -> (items_left s (sa_slab s) i < rounds)%nat ->
  shows (first_loop rounds s) (in_range (sa_min s) (sa_max s) P).
Proof.
  induction rounds as [|rounds IH]; intros s T i P Hi He Hm Ht Ho Hk HP Ha Hr; [lia|]. cbn [first_loop]. rewrite Ht. cbn [mbind option_bind].
  pose proof (scan_chunk_spec (length T) T s 0 i P Hi He Hm Ht Ho Hk ltac:(lia) HP Ha) as Hs.
  destruct (scan_chunk (length T) T s) as [[r|] s1]; [exact Hs|]. destruct Hs as (k' & -> & Hb). rewrite drop_0 in Hb.
  set (s2 := sa_at_sub (sa_at_sub s k') 0). pose proof Ha as Ha'. rewrite HP in Ha'. apply ascending_app in Ha' as (_ & Ha' & _).
  destruct (next_item_spec s2 i Hm Ho Ha') as (r & s3 & -> & Hq & Hsub & Hr3). cbn [mbind option_bind].
  assert (ER : in_range (sa_min s) (sa_max s) P = in_range (sa_min s) (sa_max s) (samples_from s (sa_slab s) i))
    by (rewrite HP, in_range_app, (in_range_before _ _ T) by done; done).
  destruct (same_query_started _ _ Hq Hi He Hm) as (Hi3 & He3 & Hm3). pose proof Hq as (_ & E1 & E2 & _).
  change (samples_from s2) with (samples_from s) in *. change (items_left s2) with (items_left s) in *. cbn [s2 sa_slab sa_at_sub sa_min sa_max sa_t] in *.
  assert (Hsame : forall i', samples_from s3 (sa_slab s3) i' = samples_from s (sa_slab s3) i' /\
    items_left s3 (sa_slab s3) i' = items_left s (sa_slab s3) i') by (intros i'; exact (same_query_samples s2 s3 _ i' Hq)).
  rewrite ER. destruct r.
  - rewrite Hr3. by eexists.
  - destruct Hr3 as (Et & i' & Ho' & E & Hlt). destruct (Hsame i') as [Q1 Q2].
    rewrite E, <- E1, <- E2, <- Q1. rewrite <- (app_nil_l (in_range _ _ _)), <- (in_range_before (sa_min s3) (sa_max s3) T) by (by rewrite E1).
    rewrite <- in_range_app. apply (IH s3 T i'); try done; [by rewrite Et|by rewrite Q1, <- E, <- HP|lia].
  - destruct Hr3 as (b & L & i' & Et & Ho' & E & Hb' & Hlt). destruct (Hsame i') as [Q1 Q2].
    rewrite E, in_range_app, (in_range_before _ _ b) by done. simpl app. rewrite <- E1, <- E2, <- Q1.
    apply (IH s3 L i'); try done; [|lia]. rewrite Q1. rewrite E in Ha'. by apply ascending_app in Ha' as (_ & ? & _).
Qed.

(** The loop of later calls, when all that is left is in or after the range. *)
Lemma later_loop_spec rounds : forall s i P,
  sa_init s = true -> sa_err s = false -> sa_min s < INT64_MAX -> on_item s i -> sa_sub s = 0%nat ->
  P = samples_from s (sa_slab s) i -> ascending P -> Forall (fun x => sa_min s <= x.1) P -> (items_left s (sa_slab s) i < rounds)%nat ->
  shows (later_loop rounds s) (in_range (sa_min s) (sa_max s) P).
Proof.
  induction rounds as [|rounds IH]; intros s i P Hi He Hm Ho Hk HP Ha Hf Hr; [lia|]. cbn [later_loop]. rewrite HP in Ha, Hf.
  destruct (next_item_spec s i Hm Ho Ha) as (r & s3 & -> & Hq & Hsub & Hr3). cbn [mbind option_bind]. rewrite HP. clear HP.
  destruct (same_query_started _ _ Hq Hi He Hm) as (Hi3 & He3 & Hm3). pose proof Hq as (_ & E1 & E2 & _). destruct r.
  - rewrite Hr3. by eexists.
  - destruct Hr3 as (Et & i' & Ho' & E & Hlt). destruct (same_query_samples _ _ (sa_slab s3) i' Hq) as [Q1 Q2].
    rewrite E in Ha, Hf |- *. rewrite <- E1, <- E2, <- Q1. apply (IH s3 i'); rewrite ?Q1, ?E1; try done; [by rewrite Hsub|lia].
  - destruct Hr3 as (b & L & i' & Et & Ho' & E & Hb & Hlt). destruct (same_query_samples _ _ (sa_slab s3) i' Hq) as [Q1 Q2].
    rewrite E in Ha, Hf |- *. assert (b = []) as ->.
    { destruct b as [|x b]; [done|]. apply Forall_cons_1 in Hb as [? _]. apply Forall_cons_1 in Hf as [? _]. lia. }
    simpl app in *. rewrite <- E1, <- E2, <- Q1 in *. rewrite Et. cbn [mbind option_bind]. rewrite Hsub, Hk.
    destruct L as [|x L]; simpl.
    + apply (IH s3 i'); try done; [by rewrite Hsub|lia].
    + simpl app in Ha, Hf. apply Forall_cons_1 in Hf as [Hx Hf].
      destruct (Z.ltb_spec (sa_max s3) x.1) as [Hgt|Hle]; [rewrite in_range_after by done; by eexists|].
      cbn [scan_chunk]. rewrite Hsub, Hk. cbn [lookup list_lookup].
      rewrite (proj2 (Z.ltb_ge _ _)) by lia. rewrite (proj2 (Z.leb_le _ _)) by lia.
      by apply (running_at s3 (x :: L) 0 i' x); rewrite ?Hsub.
Qed.

(** All samples of the series in the array. *)
Definition array_samples (sgid mid : Z) (slabs : list (Z * list Z)) : list (Z * Z) := concat (slab_samples sgid mid <$> slabs).

Definition sa_fresh (s : SlabArrayIterator) (l : list (Z * Z)) : Prop :=
  sa_init s = false /\ sa_err s = false /\ sa_min s < INT64_MAX /\ sa_slab s = 0%nat /\ sa_sub s = 0%nat /\
  ascending (array_samples (sa_sgid s) (sa_mid s) (sa_slabs s)) /\
  l = in_range (sa_min s) (sa_max s) (array_samples (sa_sgid s) (sa_mid s) (sa_slabs s)).

Lemma items_left_rounds s k i : (items_left s k i < sa_rounds s)%nat.
Proof.
  unfold items_left, sa_rounds. rewrite <- (take_drop k (sa_slabs s)) at 2. rewrite sum_list_with_app.
  destruct (drop k (sa_slabs s)); simpl; lia.
Qed.

Lemma sa_first_next s l : sa_fresh s l -> shows (sa_next s) l.
Proof.
  intros (Hi & He & Hm & Hk & Hs & Ha & ->). unfold sa_next. rewrite He. destruct (sa_slabs s) as [|slab0 slabs0] eqn:Es; [by eexists|].
  rewrite <- Es. rewrite <- Es in Ha. rewrite Hi. cbn [negb].
  assert (E0 : array_samples (sa_sgid s) (sa_mid s) (sa_slabs s) = samples_from s (sa_slab s) 0).
  { unfold samples_from, array_samples. by rewrite Hk, drop_0, Es. }
  rewrite E0 in *.
  destruct (find_slab_spec (length (sa_slabs s)) s) as (found & s1 & -> & Hq & Ht & Hsub & Hf); [done|rewrite Hk, Es; simpl; lia|lia|done|].
  cbn [mbind option_bind]. destruct found; cbn [negb]; [|rewrite Hf; by eexists].
  destruct Hf as (p & slab & b & F1 & F2 & F3 & F4 & F5 & F6). pose proof Hq as (Q1 & Q2 & Q3 & _ & _ & _ & Q7).
  destruct (decode_item_spec s1 p slab) as (s2 & L & -> & G2 & G3 & G4 & G5 & G6 & G7); [by rewrite Q1|done|done|]. cbn [mbind option_bind].
  pose proof (same_query_trans _ _ _ Hq G2) as Hq2. pose proof Hq2 as (R1 & R2 & R3 & _ & _ & _ & R7).
  destruct (same_query_samples _ _ (sa_slab s1) p Hq) as [S1 _]. destruct (same_query_samples _ _ (sa_slab s2) (S p) Hq) as [S2 _].
  destruct (same_query_samples _ _ (sa_slab s2) (S p) Hq2) as [S3 _].
  rewrite F4, in_range_app, (in_range_before _ _ b) by done. simpl app. rewrite <- S1, G6, S2, <- S3, <- R2, <- R3.
  apply (first_loop_spec (sa_rounds s2) (sa_started s2) L (S p)); cbn [sa_started sa_init sa_err sa_min sa_t sa_sub sa_slab].
  - done.
  - by rewrite R7.
  - by rewrite R2.
  - done.
  - exact G5.
  - by rewrite G3, Hsub.
  - done.
  - rewrite F4, <- S1, G6, S2, <- S3 in Ha. by apply ascending_app in Ha as (_ & ? & _).
  - exact (items_left_rounds s2 _ _).
Qed.

Lemma sa_later_next s l : sa_running s l -> shows (sa_next s) l.
Proof.
  intros (Hi & He & Hm & T & i & Ht & Ho & Ha & Hf & ->). unfold sa_next. rewrite He.
  destruct (sa_slabs s) as [|slab0 slabs0] eqn:Es; [destruct Ho as [Ho _]; rewrite Es in Ho; simpl in Ho; lia|].
  rewrite Hi. cbn [negb]. cbn [sa_t sa_at_sub]. rewrite Ht. cbn [mbind option_bind sa_sub sa_at_sub].
  set (s1 := sa_at_sub s (S (sa_sub s))). destruct (T !! S (sa_sub s)) as [x|] eqn:Ex.
  - rewrite (drop_S _ _ _ Ex), <- app_comm_cons in Ha, Hf |- *. apply Forall_cons_1 in Hf as [Hx Hf].
    change (sa_max s1) with (sa_max s). destruct (Z.ltb_spec (sa_max s) x.1) as [Hgt|Hle]; [rewrite in_range_after by done; by eexists|].
    apply (running_at s1 T (S (sa_sub s)) i x); try done; by rewrite (drop_S _ _ _ Ex).
  - apply lookup_ge_None in Ex. rewrite drop_ge, app_nil_l in Ha, Hf |- * by done.
    apply (later_loop_spec (sa_rounds s1) (sa_at_sub s1 0) i); try done. exact (items_left_rounds s _ _).
Qed.

#[export] Instance SlabArrayIterator_spec : SeriesIteratorSpec SlabArrayIterator.
Proof.
  assert (Hn : forall s l, sa_fresh s l \/ sa_running s l -> shows (sa_next s) l)
    by (intros s l [?|?]; [by apply sa_first_next|by apply sa_later_next]).
  refine {| coming s l := sa_fresh s l \/ sa_running s l |}.
  - intros s Hs. exact (Hn s [] Hs).
  - intros s x l Hs. destruct (Hn s (x :: l) Hs) as (s' & E & Ea & Hr). exists s'. split_and!; [done|done|by right].
Defined.

Lemma slab_array_coming slabs mint maxt sgid mid :
  mint < INT64_MAX -> ascending (array_samples sgid mid slabs) ->
  coming (slab_array_iterator slabs mint maxt sgid mid) (in_range (Z.max 0 mint) maxt (array_samples sgid mid slabs)).
Proof.
  intros Hm Ha. left. unfold sa_fresh, slab_array_iterator. cbn [sa_min sa_max sa_sgid sa_mid sa_slabs sa_init sa_err sa_slab sa_sub].
  split_and!; try done; [unfold INT64_MAX in *; destruct (Z.ltb_spec mint 0); lia|].
  f_equal. destruct (Z.ltb_spec mint 0); lia.
Qed.

End SlabsSpec.

(** ** What the iterators return *)

Lemma merged_length Ls : (length (merged Ls) <= length (concat Ls))%nat.
Proof.
  induction Ls as [|L Ls IH]; [done|]. cbn [merged foldr concat]. change (foldr merge_samples [] Ls) with (merged Ls).
  rewrite length_app. pose proof (merge_samples_length L (merged Ls)). lia.
Qed.

Lemma in_range_length mint maxt l : (length (in_range mint maxt l) <= length l)%nat.
Proof. apply length_filter. Qed.

Section Claims.
Context `{PE : PastEnd}.

(** C22.  [MergeSeriesIterator] merges by time.  Of any iterators, each with
    ascending times, it returns every time any of them has, once, in ascending
    order; where several have a sample at the same time the value is that of the
    last of them.  It comes to its end: one call for each sample and one more. *)
Theorem merge_iterators_union {I : Type} `{SS : SeriesIteratorSpec I} junk (its : list I) Ls rounds :
  Forall2 coming its Ls -> Forall ascending Ls -> (length (concat Ls) < rounds)%nat ->
  exists L, expand rounds (merge_series_iterator junk its) = Some L /\ ascending L /\
    sample_map L = foldr (fun L m => m ∪ sample_map L) ∅ Ls.
Proof.
  intros Hc Ha Hr. destruct (merged_map Ls Ha) as [H1 H2]. exists (merged Ls). split_and!; [|done|done].
  apply expand_coming; [|pose proof (merged_length Ls); lia]. left. split; [done|]. split; [done|]. by exists Ls.
Qed.

(** C21.  [SlabArrayIterator] reads a range from slabs.  From slabs that hold the
    samples of a series in ascending order, among items of other series and in
    any number of slabs, it returns exactly the samples of the series whose
    times are in the range, both ends included and the lower one raised to 0,
    and then ends. *)
Theorem slab_array_exact slabs mint maxt sgid mid rounds :
  mint < INT64_MAX -> ascending (array_samples sgid mid slabs) -> (length (array_samples sgid mid slabs) < rounds)%nat ->
  expand rounds (slab_array_iterator slabs mint maxt sgid mid) = Some (in_range (Z.max 0 mint) maxt (array_samples sgid mid slabs)).
Proof.
  intros Hm Ha Hr. apply expand_coming; [by apply slab_array_coming|].
  pose proof (in_range_length (Z.max 0 mint) maxt (array_samples sgid mid slabs)). lia.
Qed.

End Claims.

(** ** Examples *)

Module IteratorDemo.
#[local] Instance demo_past : PastEnd := fun _ => 0.
#[local] Instance any_store : ChunkStore (list Put) := fun l p => Some (true, 7, l ++ [p]).
#[local] Instance any_threads : Threads (list Put) := { attempts := 1; between := id; logged := sample_txn_ }.

(** Samples of a series: the chunks it hands over, and the one it keeps. *)
Definition demo_samples : list (Z * Z) := map (fun i => (2 ^ 40 * i * i * i, u64 (i * i * i * i * i * 1234567898765 + 1))) (seqZ 1 40).
Definition run_series (sgid mid : Z) (l : list (Z * Z)) : list Put * TreeMemSeries :=
  match appends (tree_mem_series 0 sgid mid 0 0) l ([], []) with
  | Some (m, (_, puts)) => (puts, m)
  | None => ([], tree_mem_series 0 sgid mid 0 0)
  end.

#[local] Instance any_store_spec : StoreSpec (list Put).
Proof.
  refine {| store_ok := fun _ => True |}; [|intros; done]. intros st p _ _. by exists 7, (st ++ [p]).
Defined.

Lemma series_filling : filling (run_series 1 1 demo_samples).2 (head_samples (run_series 1 1 demo_samples).2).
Proof.
  assert (Hl : Forall sample_ok demo_samples).
  { unfold demo_samples. cbv [seqZ fmap list_fmap seq Z.to_nat app map]. repeat (constructor; [vm_compute; repeat split; congruence|]). constructor. }
  destruct (appends_spec demo_samples (tree_mem_series 0 1 1 0 0) ([] : list Put) [] []) as (m & st & puts & E & _ & kept & _ & Hf & _).
  - by apply filled_new.
  - exact Hl.
  - done.
  - vm_compute. repeat split; congruence.
  - vm_compute. repeat split; congruence.
  - vm_compute. repeat split; congruence.
  - unfold run_series. rewrite E. cbn [snd]. by rewrite (filling_samples _ _ Hf).
Qed.

(** An item of a slab, and a slab of some items: [nalloc_] and the bytes. *)
Definition item_of (p : Put) : list Z :=
  take (Z.to_nat SLAB_ITEM_SIZE) (le_bytes 8 (p_start p) ++ p_value p ++ replicate (Z.to_nat SLAB_ITEM_SIZE) 0).
Definition slab_of (ps : list Put) : Z * list Z :=
  let bytes := concat (item_of <$> ps) in
  (Z.of_nat (length ps), bytes ++ replicate (Z.to_nat SLAB_SIZE - length bytes) 0).

(** The chunks of a series in two slabs, among those of another. *)
Definition mine : list Put := (run_series 1 1 demo_samples).1.
Definition other : list Put := (run_series 10001 1 demo_samples).1.
Definition demo_slabs : list (Z * list Z) := [slab_of (take 1 mine ++ take 1 other); slab_of (drop 1 other ++ drop 1 mine)].

Definition ascending_b (l : list (Z * Z)) : bool :=
  forallb (fun p => p.1.1 <? p.2.1) (zip l (tail l)).

Lemma ascending_b_spec l : ascending_b l = true -> ascending l.
Proof.
  induction l as [|x l IH]; [constructor|]. intros Hb. destruct l as [|y l]; [apply ascending_cons; split; constructor|].
  unfold ascending_b in Hb. cbn [zip zip_with tail forallb fst snd] in Hb. apply andb_true_iff in Hb as [Hx%Z.ltb_lt Hb].
  specialize (IH Hb). apply ascending_cons. split; [|done]. apply ascending_cons in IH as [HF _]. constructor; [done|].
  eapply Forall_impl; [exact HF|]. intros z Hz. simpl in *. lia.
Qed.

(** Read back: those of the range only. *)
Lemma slab_array_exact_witness :
  exists l, expand 100 (slab_array_iterator demo_slabs (2 ^ 40 * 8) (2 ^ 40 * 1000) 1 1) = Some l /\ length l = 9%nat.
Proof.
  eexists. split.
  - apply slab_array_exact; [unfold INT64_MAX; lia| |].
    + apply ascending_b_spec. vm_compute. reflexivity.
    + apply Nat.ltb_lt. vm_compute. reflexivity.
  - vm_compute. reflexivity.
Defined.

(** The chunks in memory of two series, merged: the times of both. *)
Definition kept (k n : nat) : list Z := stream (bstream (chunk_ (run_series 1 1 (take n (drop k demo_samples))).2)).
Definition kept_samples (content : list Z) : list (Z * Z) :=
  (run (chunk_iterator (xor_chunk_of (drop 11 content) (Z.of_nat (length content) - 11) false))).1.
Definition two_heads : list TreeHeadIterator := [tree_head_iterator (kept 0 5) 0 (2 ^ 60); tree_head_iterator (kept 3 4) 0 (2 ^ 60)].

Lemma kept_coming content mint maxt :
  ascending (kept_samples content) -> coming (tree_head_iterator content mint maxt) (in_range mint maxt (kept_samples content)).
Proof. exact (tree_head_coming content mint maxt). Qed.

Lemma merge_iterators_union_witness :
  exists L, expand 100 (merge_series_iterator (7, 7) two_heads) = Some L /\ ascending L /\
    sample_map L = sample_map (take 7 demo_samples).
Proof.
  assert (H1 : ascending (kept_samples (kept 0 5))) by (apply ascending_b_spec; vm_compute; reflexivity).
  assert (H2 : ascending (kept_samples (kept 3 4))) by (apply ascending_b_spec; vm_compute; reflexivity).
  pose proof (kept_coming (kept 0 5) 0 (2 ^ 60) H1) as C1. pose proof (kept_coming (kept 3 4) 0 (2 ^ 60) H2) as C2.
  destruct (merge_iterators_union (7, 7) two_heads
    [in_range 0 (2 ^ 60) (kept_samples (kept 0 5)); in_range 0 (2 ^ 60) (kept_samples (kept 3 4))] 100) as (L & E & Ha & Hm).
  - constructor; [exact C1|constructor; [exact C2|constructor]].
  - constructor; [|constructor; [|constructor]]; apply ascending_b_spec; vm_compute; reflexivity.
  - apply Nat.ltb_lt. vm_compute. reflexivity.
  - exists L. split; [exact E|]. split; [exact Ha|]. rewrite Hm. vm_compute. reflexivity.
Defined.

(** [seek] on a fresh [TreeHeadIterator] passes over the first sample in the
    range: it asks for a time the first sample already has, and stands on the
    second. *)
Example head_seek_skips :
  ('(ok, it) ← si_seek (2 ^ 40) (tree_head_iterator (kept 0 5) 0 (2 ^ 60)); x ← si_at it; Some (ok, x)) =
    (fun x => (true, x)) <$> demo_samples !! 1%nat /\ (fst <$> demo_samples !! 0%nat) = Some (2 ^ 40).
Proof. vm_compute. done. Qed.

End IteratorDemo.
