(* ===== verification/TreeQuerier.v ===== *)
(** querier/tsdb_tree_querier: queries on the tree head, the slab store and the
    key-value store.

    A query selects ids through the inverted index ([TreeQuerierSeriesSet]); for
    each of them the samples are read from up to five places (the two levels of
    the key-value store, its tables in memory, the slabs, the chunk in memory)
    and merged by time ([TreeQuerierSeries]).  The iterators over single places
    are those of SeriesIterators; here is how each gets its slabs.  The key-value
    store is met through [DBIterator].  The buffers that hold slabs read from the
    SSD go back when an iterator is destroyed ([FreeBufSlab] in SlabFlush); the
    destructors are not modelled. *)
From Stdlib Require Import ZArith Lia Bool.
From stdpp Require Import base list numbers option gmap sorting.
From S2P Require Import Prelude Endian Coding BitStream XORChunk Label MassTree SlabStore SlabFlush TreeMemSeries ChunkOps.
From S2P Require Import Postings Matchers HeadIndex HeadAppender PrefixPostings ThmapPostings HeadSelect SeriesIterators.

(** ** The key-value store *)

(** [leveldb::Iterator] over internal keys, which are a key and a tag of 8
    bytes; [Seek] is to the first entry whose key is not below the one asked
    for.  [db_left] bounds the entries after the current one. *)
Class DBIterator (D : Type) := {
  db_seek : list Z -> D -> D;
  db_valid : D -> bool;
  db_next : D -> D;
  db_prev : D -> D;
  db_key : D -> list Z;
  db_value : D -> list Z;
  db_left : D -> nat }.

Section Slabs.
Context `{PE : PastEnd} `{DI : DBIterator D} `{TO : TreeOps T SlabRef}.

(** A value as a slab: [nalloc_] is that of a full slab. *)
Definition value_slab (d : D) : Z * list Z := (SLAB_SIZE / SLAB_ITEM_SIZE, db_value d).

Definition of_series (d : D) (sgid mid : Z) : bool :=
  let '(s, m, _) := DeCodeKey (db_key d) in negb (negb (s =? sgid) || negb (m =? mid)).

(** [while (true)]: the entries of the series after the current one; whether
    the iterator came to its end.  [last] is the check of [L0TreeSeriesIterator]
    on the time of an entry. *)
Fixpoint more_slabs (rounds : nat) (last : Z -> bool) (sgid mid : Z) (d : D) : option (list (Z * list Z) * bool) :=
  match rounds with
  | O => None
  | S rounds =>
    let d := db_next d in
    if negb (db_valid d) then Some ([], true)
    else if negb (of_series d sgid mid) then Some ([], false)
    else if last (DeCodeKey (db_key d)).2 then Some ([], false)
    else '(l, e) ← more_slabs rounds last sgid mid d; Some (value_slab d :: l, e)
  end.

Definition slabs_at (last : Z -> bool) (sgid mid : Z) (d : D) : option (list (Z * list Z) * bool) :=
  '(l, e) ← more_slabs (S (db_left d)) last sgid mid d; Some (value_slab d :: l, e).

(** [GetSlabArray] of [MemtableIterator]: the slabs, and whether [err_] was
    set. *)
Definition GetSlabArray (last : Z -> bool) (sgid mid min_time : Z) (d : D) : option (list (Z * list Z) * bool) :=
  let key := EnCodeKey [] sgid mid min_time in
  let d := db_seek key d in
  if negb (db_valid d) then Some ([], true)
  else
    let d := db_prev d in
    let d := if negb (db_valid d) then db_seek key d else d in
    if negb (of_series d sgid mid) then
      let d := db_next d in
      if negb (db_valid d) then Some ([], true)
      else if negb (of_series d sgid mid) then Some ([], false)
      else slabs_at last sgid mid d
    else slabs_at last sgid mid d.

Definition any_time (t : Z) : bool := false.

(** [GetSlabArray] of [L1TreeSeriesIterator], the same body, and of
    [L0TreeSeriesIterator], which stops after the end of the query. *)
Definition L1_GetSlabArray (sgid mid min_time : Z) (d : D) : option (list (Z * list Z) * bool) :=
  GetSlabArray any_time sgid mid (u64 min_time) d.
Definition L0_GetSlabArray (sgid mid min_time max_time : Z) (d : D) : option (list (Z * list Z) * bool) :=
  GetSlabArray (fun t => u64 max_time <? t) sgid mid (u64 min_time) d.

(** [MemtableIterator] and [L1TreeSeriesIterator]; a negative minimum is cut
    off only for the former, and again in the iterator over slabs. *)
Definition memtable_iterator (d : D) (min_time max_time sgid mid : Z) : option SlabArrayIterator :=
  let min_time := if min_time <? 0 then 0 else min_time in
  '(slabs, _) ← GetSlabArray any_time sgid mid min_time d;
  Some (slab_array_iterator slabs min_time max_time sgid mid).
Definition l1_iterator (d : D) (mint maxt sgid mid : Z) : option SlabArrayIterator :=
  '(slabs, _) ← L1_GetSlabArray sgid mid mint d;
  Some (slab_array_iterator slabs mint maxt sgid mid).
Definition l0_iterator (d : D) (mint maxt sgid mid : Z) : option SlabArrayIterator :=
  '(slabs, _) ← L0_GetSlabArray sgid mid mint maxt d;
  Some (slab_array_iterator slabs mint maxt sgid mid).

(** [TreeSeriesIterator]: the slabs of a range lookup. *)
Definition scanned (ts : TreeSeries T) (l : list (SlabRef * list Z)) : list (Z * list Z) :=
  (fun p => (nalloc_ (info_at ts p.1), p.2)) <$> l.
Definition tree_series_iterator (ts : TreeSeries T) (min_time max_time sgid mid : Z) : option (SlabArrayIterator * TreeSeries T) :=
  '(slab_array, ts) ← Scan ts sgid mid (u64 min_time) (u64 max_time);
  Some (slab_array_iterator (scanned ts slab_array) min_time max_time sgid mid, ts).

End Slabs.

(** ** A series of a query *)

(** What [TreeQuerier] holds of the key-value store: an iterator for each
    partition of level 1, those of the tables of each partition of level 0, the
    tables in memory, older ones first. *)
Record TreeQuerier (D : Type) := mkTQ {
  q_min : Z;
  q_max : Z;
  q_l1 : list D;
  q_l0 : list (list D);
  q_mems : list D }.
Arguments mkTQ {D}.
Arguments q_min {D}.
Arguments q_max {D}.
Arguments q_l1 {D}.
Arguments q_l0 {D}.
Arguments q_mems {D}.

(** An iterator of [TreeQuerierSeries::iterator]: the merge of a partition of
    level 0, slabs, or the chunk in memory. *)
Definition QueryIterator : Type := MergeSeriesIterator SlabArrayIterator + (SlabArrayIterator + TreeHeadIterator).

Section Query.
Context `{PE : PastEnd} `{DI : DBIterator D} `{TO : TreeOps T SlabRef}.
Context `{TI : Thmap str Z MI} `{TF : Thmap Z Z MF} `{IX : InvertedIndex IV}.
Implicit Types (q : TreeQuerier D) (h : TreeHead MI MF IV) (ts : TreeSeries T).

Definition tree_querier (min_time max_time : Z) (l1 : list D) (l0 : list (list D)) (mems : list D) : TreeQuerier D :=
  mkTQ (if min_time <? 0 then 0 else min_time) max_time l1 l0 mems.

(** The iterators over the key-value store. *)
Definition l1_part q (sgid mid : Z) : option (list QueryIterator) :=
  mapM (fun d => it ← l1_iterator d (q_min q) (q_max q) sgid mid; Some (inr (inl it))) (q_l1 q).
Definition l0_part q (junk : Z * Z) (sgid mid : Z) : option (list QueryIterator) :=
  mapM (fun ds => its ← mapM (fun d => l0_iterator d (q_min q) (q_max q) sgid mid) ds; Some (inl (merge_series_iterator junk its))) (q_l0 q).
Definition mem_part q (sgid mid : Z) : option (list QueryIterator) :=
  mapM (fun d => it ← memtable_iterator d (q_min q) (q_max q) sgid mid; Some (inr (inl it))) (q_mems q).

(** [TreeQuerierSeries(q, sgid, mid)->iterator()]: the labels and the merged
    iterator; [None] also when the series is a null pointer. *)
Definition series_iterator q h ts (junk : Z * Z) (sgid mid : Z) : option (Labels * MergeSeriesIterator QueryIterator * TreeSeries T) :=
  p ← read_flat_forward_index h sgid mid;
  tms ← deref h p;
  labels_chunk ← head_series h sgid mid;
  let '(lset, head_chunk_contents) := default ([], []) labels_chunk in
  db ← (if q_min q <=? level_flush_time_ tms then
          l1 ← l1_part q sgid mid; l0 ← l0_part q junk sgid mid; mem ← mem_part q sgid mid; Some (l1 ++ l0 ++ mem)
        else Some []);
  '(tree, ts) ← (if level_flush_time_ tms <? q_max q then
                   '(it, ts) ← tree_series_iterator ts (Z.max (q_min q) (level_flush_time_ tms)) (q_max q) sgid mid;
                   Some ([inr (inl it)], ts)
                 else Some ([], ts));
  let head := if (head_flush_time_ tms <=? q_max q) && negb (bool_decide (head_chunk_contents = []))
              then [inr (inr (tree_head_iterator head_chunk_contents (q_min q) (q_max q)))] else [] in
  Some (lset, merge_series_iterator junk (db ++ tree ++ head), ts).

(** [chain_iterator()]: the same places one after the other; the tables of
    level 0 are not merged. *)
Definition l0_chain q (sgid mid : Z) : option (list (SlabArrayIterator + TreeHeadIterator)) :=
  mapM (fun d => it ← l0_iterator d (q_min q) (q_max q) sgid mid; Some (inl it)) (concat (q_l0 q)).
Definition chain_iterator q h ts (sgid mid : Z)
    : option (Labels * ListMergeSeriesIterator (SlabArrayIterator + TreeHeadIterator) * TreeSeries T) :=
  p ← read_flat_forward_index h sgid mid;
  tms ← deref h p;
  labels_chunk ← head_series h sgid mid;
  let '(lset, head_chunk_contents) := default ([], []) labels_chunk in
  db ← (if q_min q <=? level_flush_time_ tms then
          l1 ← mapM (fun d => it ← l1_iterator d (q_min q) (q_max q) sgid mid; Some (inl it)) (q_l1 q);
          l0 ← l0_chain q sgid mid;
          mem ← mapM (fun d => it ← memtable_iterator d (q_min q) (q_max q) sgid mid; Some (inl it)) (q_mems q);
          Some (l1 ++ l0 ++ mem)
        else Some []);
  '(tree, ts) ← (if level_flush_time_ tms <? q_max q then
                   '(it, ts) ← tree_series_iterator ts (Z.max (level_flush_time_ tms) (q_min q)) (q_max q) sgid mid;
                   Some ([inl it], ts)
                 else Some ([], ts));
  let head := if (head_flush_time_ tms <=? q_max q) && negb (bool_decide (head_chunk_contents = []))
              then [inr (tree_head_iterator head_chunk_contents (q_min q) (q_max q))] else [] in
  Some (lset, list_merge_series (db ++ tree ++ head), ts).

End Query.

(** ** The series of a query *)

(** [TreeQuerierSeriesSet]; the postings are never null. *)
Record TreeQuerierSeriesSet := mkSet { ss_p : EmptyPostings + VectorPostings; ss_sgid : Z; ss_mid : Z }.

Section Select.
Context `{PE : PastEnd} `{TI : Thmap str Z MI} `{TF : Thmap Z Z MF}.
Context `{TK : Thmap str nat KM} `{TV : Thmap str nat VM} `{MG : MergeSet MS}.
Implicit Type h : TreeHead MI MF (option (ThmapPostings KM VM MS)).

(** The loop over the matchers: the id of the metric asked for, 0 when it was
    not known. *)
Fixpoint matched_metric h (ms : list Matcher) : option (Z * TreeHead MI MF (option (ThmapPostings KM VM MS))) :=
  match ms with
  | [] => Some (0, h)
  | m :: ms =>
    if str_eqb (m_name m) metric_name then
      '(mid, is_exist, h) ← get_or_create_metric_id h [mkLabel (m_name m) (m_value m)] true;
      Some (if (is_exist : bool) then mid else 0, h)
    else matched_metric h ms
  end.

Definition query_select h (ms : list Matcher) : option (TreeQuerierSeriesSet * TreeHead MI MF (option (ThmapPostings KM VM MS))) :=
  t ← inverted_index_ h;
  '(p, t) ← select t ms;
  '(mid, h) ← matched_metric (set_inverted h (Some t)) ms;
  Some (mkSet p 0 mid, h).

Definition set_next (s : TreeQuerierSeriesSet) : option (bool * TreeQuerierSeriesSet) :=
  if ss_mid s =? 0 then Some (false, s)
  else
    '(ok, p) ← p_next (ss_p s);
    if negb ok then Some (false, mkSet p (ss_sgid s) (ss_mid s)) else Some (true, mkSet p (p_at p) (ss_mid s)).

(** [at()]: the ids of the series, [None] for the null pointer. *)
Definition set_at h (s : TreeQuerierSeriesSet) : option (option (Z * Z)) :=
  if (ss_mid s =? 0) || (ss_sgid s =? 0) then Some None
  else p ← read_flat_forward_index h (ss_sgid s) (ss_mid s);
       Some (if p =? 0 then None else Some (ss_sgid s, ss_mid s)).

(** [while (ss->next()) ss->at()], for at most [rounds] ids. *)
Fixpoint set_expand (rounds : nat) h (s : TreeQuerierSeriesSet) : option (list (option (Z * Z))) :=
  match rounds with
  | O => None
  | S rounds =>
    '(ok, s) ← set_next s;
    if (ok : bool) then x ← set_at h s; l ← set_expand rounds h s; Some (x :: l) else Some []
  end.

End Select.

(** ** What the iterators of the key-value store promise *)

(** An entry: source, metric and time of its key, the tag, the value. *)
Record Entry := mkEntry { e_sgid : Z; e_mid : Z; e_time : Z; e_tag : list Z; e_value : list Z }.

Definition e_key (e : Entry) : list Z := EnCodeKey [] (e_sgid e) (e_mid e) (e_time e).

(** [db_at d es i]: the iterator goes over [es] and stands on entry [i], or
    nowhere. *)
Class DBIteratorSpec (D : Type) `{DBIterator D} := {
  db_at : D -> list Entry -> option nat -> Prop;
  valid_spec d es i : db_at d es i -> db_valid d = match i with Some _ => true | None => false end;
  pos_spec d es i : db_at d es (Some i) -> exists e, es !! i = Some e /\ db_key d = e_key e ++ e_tag e /\ db_value d = e_value e /\
    (length es <= S i + db_left d)%nat;
  seek_spec d es i key : db_at d es i ->
    db_at (db_seek key d) es (fst <$> list_find (fun e => bytes_ltb (e_key e) key = false) es);
  next_spec d es i : db_at d es (Some i) -> db_at (db_next d) es (if decide (S i < length es)%nat then Some (S i) else None);
  prev_spec d es i : db_at d es (Some i) -> db_at (db_prev d) es (match i with O => None | S i => Some i end) }.

Section DBSpec.
Context `{PE : PastEnd} `{DS : DBIteratorSpec D}.
Implicit Types (es : list Entry) (e : Entry).

Definition entry_ok e : Prop := is_u64 (e_sgid e) /\ is_u 16 (e_mid e) /\ is_u64 (e_time e).

(** The entries in the order of their keys. *)
Definition in_key_order es : Prop := StronglySorted (fun a b => bytes_ltb (e_key b) (e_key a) = false) es.

Definition entry_of (sgid mid : Z) e : Prop := e_sgid e = sgid /\ e_mid e = mid.
#[export] Instance entry_of_dec sgid mid e : Decision (entry_of sgid mid e).
Proof. apply _. Defined.

Definition entry_slab e : Z * list Z := (SLAB_SIZE / SLAB_ITEM_SIZE, e_value e).

(** The entries from the front on that are of the series and pass [last]. *)
Fixpoint leading (last : Z -> bool) (sgid mid : Z) es : list Entry :=
  match es with
  | [] => []
  | e :: es => if bool_decide (entry_of sgid mid e) && negb (last (e_time e)) then e :: leading last sgid mid es else []
  end.

Lemma of_series_spec d es i e sgid mid :
  db_at d es (Some i) -> es !! i = Some e -> entry_ok e ->
  of_series d sgid mid = bool_decide (entry_of sgid mid e) /\ (DeCodeKey (db_key d)).2 = e_time e /\ value_slab d = entry_slab e.
Proof.
  intros Hd He (H1 & H2 & H3). destruct (pos_spec _ _ _ Hd) as (e' & He' & Ek & Ev & _). assert (e' = e) as -> by congruence.
  assert (Ed : DeCodeKey (db_key d) = (e_sgid e, e_mid e, e_time e)) by (rewrite Ek; unfold e_key; by apply index_key_round_trip).
  unfold of_series, value_slab, entry_slab. rewrite Ed, Ev. split_and!; [|done|done]. unfold entry_of.
  destruct (Z.eqb_spec (e_sgid e) sgid), (Z.eqb_spec (e_mid e) mid); simpl; symmetry;
    [apply bool_decide_eq_true_2|apply bool_decide_eq_false_2..]; naive_solver.
Qed.

Lemma more_slabs_spec last sgid mid es : Forall entry_ok es -> forall rounds d i,
  db_at d es (Some i) -> (length es <= i + rounds)%nat ->
  exists b, more_slabs rounds last sgid mid d = Some (entry_slab <$> leading last sgid mid (drop (S i) es), b).
Proof.
  intros Hok. induction rounds as [|rounds IH]; intros d i Hd Hr.
  { destruct (pos_spec _ _ _ Hd) as (e & He & _). apply lookup_lt_Some in He. lia. }
  cbn [more_slabs]. pose proof (next_spec _ _ _ Hd) as Hn. set (d' := db_next d) in *. case_decide as Hi.
  - rewrite (valid_spec _ _ _ Hn). cbn [negb]. destruct (lookup_lt_is_Some_2 es (S i) Hi) as [e He]. rewrite (drop_S _ _ _ He).
    destruct (of_series_spec d' es (S i) e sgid mid Hn He) as (-> & -> & ->); [rewrite Forall_forall in Hok; by eapply Hok, list_elem_of_lookup_2|].
    cbn [leading]. destruct (bool_decide (entry_of sgid mid e)); cbn [negb andb]; [|by eexists].
    destruct (last (e_time e)); cbn [negb]; [by eexists|]. destruct (IH d' (S i) Hn) as (b & ->); [lia|]. by eexists.
  - rewrite (valid_spec _ _ _ Hn), drop_ge by lia. by eexists.
Qed.

Lemma slabs_at_spec last sgid mid es d i e :
  Forall entry_ok es -> db_at d es (Some i) -> es !! i = Some e ->
  exists b, slabs_at last sgid mid d = Some (entry_slab e :: (entry_slab <$> leading last sgid mid (drop (S i) es)), b).
Proof.
  intros Hok Hd He. unfold slabs_at. destruct (pos_spec _ _ _ Hd) as (e' & He' & _ & _ & Hl).
  destruct (more_slabs_spec last sgid mid es Hok (S (db_left d)) d i Hd) as (b & ->); [lia|]. cbn [mbind option_bind].
  destruct (of_series_spec d es i e sgid mid Hd He) as (_ & _ & ->); [rewrite Forall_forall in Hok; by eapply Hok, list_elem_of_lookup_2|].
  by eexists.
Qed.

(** The entries [GetSlabArray] takes: the one before the key asked for, when it
    is of the series, and the following ones; the first is taken whatever its
    time. *)
Definition taken (lst : Z -> bool) (sgid mid : Z) (before after : list Entry) : list Entry :=
  match last before with
  | Some e => if bool_decide (entry_of sgid mid e) then e :: leading lst sgid mid after
              else match after with
                   | e :: after => if bool_decide (entry_of sgid mid e) then e :: leading lst sgid mid after else []
                   | [] => []
                   end
  | None => match after with
            | e :: after => if bool_decide (entry_of sgid mid e) then e :: leading lst sgid mid after else []
            | [] => []
            end
  end.

Lemma find_after key before after :
  Forall (fun e => bytes_ltb (e_key e) key = true) before ->
  match after with [] => True | e :: _ => bytes_ltb (e_key e) key = false end ->
  fst <$> list_find (fun e => bytes_ltb (e_key e) key = false) (before ++ after) =
  match after with [] => None | _ => Some (length before) end.
Proof.
  intros Hb Ha. induction Hb as [|e before He _ IH]; cbn [app list_find].
  - destruct after as [|e after]; [done|]. cbn [list_find]. by rewrite decide_True.
  - case_decide as Hd; [by rewrite He in Hd|]. destruct after as [|e' after]; destruct (list_find _ (before ++ _)) as [[j x]|]; try done.
    cbn [fmap option_fmap option_map fst] in IH |- *. by injection IH as ->.
Qed.

Lemma bytes_le_trans a b c : bytes_ltb b a = false -> bytes_ltb c b = false -> bytes_ltb c a = false.
Proof.
  intros H1 H2. destruct (bytes_ltb c a) eqn:E; [|done]. destruct (bytes_ltb a b) eqn:E1.
  - by rewrite (bytes_ltb_trans _ _ _ E E1) in H2.
  - pose proof (bytes_ltb_total _ _ E1 H1) as ->. congruence.
Qed.

(** Among keys not below one of the series, those of the series come first. *)
Lemma series_first sgid mid mint e es :
  is_u64 sgid -> is_u 16 mid -> is_u64 mint -> Forall entry_ok (e :: es) -> in_key_order (e :: es) ->
  bytes_ltb (e_key e) (EnCodeKey [] sgid mid mint) = false -> ~ entry_of sgid mid e -> Forall (fun e' => ~ entry_of sgid mid e') es.
Proof.
  intros Hs Hm Ht Hok Hord Hge Hne. apply Forall_forall. intros e' He' [E1 E2]. apply Hne.
  apply Forall_cons_1 in Hok as [(O1 & O2 & O3) Hok]. rewrite Forall_forall in Hok. destruct (Hok e' He') as (P1 & P2 & P3).
  apply StronglySorted_inv in Hord as [_ Hord]. rewrite Forall_forall in Hord. specialize (Hord e' He'). cbn beta in Hord.
  unfold e_key in *. rewrite E1, E2 in *. destruct (bytes_ltb (EnCodeKey [] (e_sgid e) (e_mid e) (e_time e)) (EnCodeKey [] sgid mid (e_time e'))) eqn:El.
  - destruct (EnCodeKey_between sgid mid mint (e_time e') (e_sgid e) (e_mid e) (e_time e)) as (? & ? & _); done.
  - pose proof (bytes_ltb_total _ _ El Hord) as E. pose proof (index_key_round_trip sgid mid (e_time e') [] Hs Hm P3) as D1.
    rewrite <- E, index_key_round_trip in D1 by done. injection D1 as D1 D2 _. by split.
Qed.

Lemma leading_filter lst sgid mid mint es :
  is_u64 sgid -> is_u 16 mid -> is_u64 mint -> Forall entry_ok es -> in_key_order es ->
  match es with [] => True | e :: _ => bytes_ltb (e_key e) (EnCodeKey [] sgid mid mint) = false end ->
  exists rest, filter (entry_of sgid mid) es = leading lst sgid mid es ++ rest /\
    match rest with [] => True | e :: _ => lst (e_time e) = true end.
Proof.
  intros Hs Hm Ht. induction es as [|e es IH]; intros Hok Hord Hge; [by exists []|]. cbn [leading]. rewrite filter_cons.
  case_decide as He; [rewrite bool_decide_true by done|rewrite bool_decide_false by done]; simpl.
  - destruct (lst (e_time e)) eqn:El; simpl; [by eexists|]. apply Forall_cons_1 in Hok as [Ho Hok]. pose proof Hord as [Hord' Hf]%StronglySorted_inv.
    destruct IH as (rest & E & Hr); [done|done| |exists rest; by rewrite E]. destruct es as [|e' es]; [done|].
    apply Forall_cons_1 in Hf as [Hf _]. exact (bytes_le_trans _ _ _ Hge Hf).
  - exists []. split; [|done]. pose proof (series_first sgid mid mint e es Hs Hm Ht Hok Hord Hge He) as Hn.
    clear -Hn. induction Hn as [|x l Hx _ IHl]; [done|]. by rewrite filter_cons, decide_False.
Qed.

Lemma GetSlabArray_spec lst sgid mid mint es d p before after :
  is_u64 sgid -> is_u 16 mid -> is_u64 mint ->
  Forall entry_ok es -> in_key_order es -> db_at d es p -> es = before ++ after ->
  Forall (fun e => bytes_ltb (e_key e) (EnCodeKey [] sgid mid mint) = true) before ->
  match after with [] => True | e :: _ => bytes_ltb (e_key e) (EnCodeKey [] sgid mid mint) = false end ->
  exists b, GetSlabArray lst sgid mid mint d =
    Some (entry_slab <$> match after with [] => [] | _ => taken lst sgid mid before after end, b).
Proof.
  intros Hs Hm Ht Hok Hord Hd Hes Hb Ha. unfold GetSlabArray. set (key := EnCodeKey [] sgid mid mint) in *.
  pose proof (find_after key before after Hb Ha) as Ef. pose proof (seek_spec d es p key Hd) as Hsk. rewrite Hes, Ef, <- Hes in Hsk.
  destruct after as [|e after]; [rewrite (valid_spec _ _ _ Hsk); by eexists|].
  rewrite (valid_spec _ _ _ Hsk). cbn [negb].
  assert (He : es !! length before = Some e) by (rewrite Hes; by apply list_lookup_middle).
  assert (Hdr : drop (S (length before)) es = after) by (rewrite Hes, drop_app_ge by lia; by replace (S (length before) - length before)%nat with 1%nat by lia).
  pose proof (prev_spec _ _ _ Hsk) as Hpr. unfold taken. destruct before as [|e0 before0] eqn:Eb.
  - simpl in Hpr. rewrite (valid_spec _ _ _ Hpr). cbn [negb last].
    pose proof (seek_spec _ es _ key Hpr) as Hsk2. rewrite Hes, Ef, <- Hes in Hsk2. simpl in Hsk2, He, Hdr.
    rewrite Forall_forall in Hok. pose proof (Hok e ltac:(by eapply list_elem_of_lookup_2)) as Hoe.
    destruct (of_series_spec _ es 0 e sgid mid Hsk2 He Hoe) as (-> & _ & _). case_bool_decide as Hse; cbn [negb].
    + rewrite <- Forall_forall in Hok. destruct (slabs_at_spec lst sgid mid es _ 0 e Hok Hsk2 He) as (b & ->). rewrite Hdr. by eexists.
    + pose proof (next_spec _ _ _ Hsk2) as Hn. case_decide as Hlt; rewrite (valid_spec _ _ _ Hn); cbn [negb]; [|by eexists].
      destruct (lookup_lt_is_Some_2 es 1 Hlt) as [e1 He1].
      destruct (of_series_spec _ es 1 e1 sgid mid Hn He1 (Hok e1 ltac:(by eapply list_elem_of_lookup_2))) as (-> & _ & _).
      rewrite bool_decide_false; [by eexists|]. simpl in Hes. subst es.
      assert (Hno : Forall (fun e' => ~ entry_of sgid mid e') after)
        by (apply (series_first sgid mid mint e); try done; by rewrite Forall_forall).
      rewrite Forall_forall in Hno. apply Hno. simpl in He1. by eapply list_elem_of_lookup_2.
  - rewrite <- Eb in *. assert (Hne : before <> []) by (by rewrite Eb). clear e0 before0 Eb.
    destruct (last before) as [el|] eqn:El; [|by apply last_None in El].
    apply last_Some in El as (bf & ->). rewrite length_app in *. simpl length in *. replace (length bf + 1)%nat with (S (length bf)) in * by lia.
    rewrite (valid_spec _ _ _ Hpr). cbn [negb].
    assert (Hel : es !! length bf = Some el) by (rewrite Hes, <- app_assoc; by apply list_lookup_middle).
    rewrite Forall_forall in Hok. pose proof (Hok el ltac:(by eapply list_elem_of_lookup_2)) as Hoe.
    destruct (of_series_spec _ es (length bf) el sgid mid Hpr Hel Hoe) as (-> & _ & _).
    assert (Hdr' : drop (S (length bf)) es = e :: after) by (rewrite (drop_S _ _ _ He), Hdr; done).
    rewrite <- Forall_forall in Hok. case_bool_decide as Hse; cbn [negb].
    + destruct (slabs_at_spec lst sgid mid es _ (length bf) el Hok Hpr Hel) as (b & ->). rewrite Hdr'. by eexists.
    + pose proof (next_spec _ _ _ Hpr) as Hn. rewrite decide_True in Hn by (by eapply lookup_lt_Some). rewrite (valid_spec _ _ _ Hn). cbn [negb].
      rewrite Forall_forall in Hok. destruct (of_series_spec _ es _ e sgid mid Hn He (Hok e ltac:(by eapply list_elem_of_lookup_2))) as (-> & _ & _).
      rewrite <- Forall_forall in Hok. case_bool_decide as Hs2; cbn [negb]; [|by eexists].
      destruct (slabs_at_spec lst sgid mid es _ _ e Hok Hn He) as (b & ->). rewrite Hdr. by eexists.
Qed.

(** The time in the key of an entry is that of its first sample. *)
Definition starts_at_key (sgid mid : Z) e : Prop :=
  match slab_samples sgid mid (entry_slab e) with x :: _ => x.1 = e_time e | [] => False end.

Lemma array_samples_app sgid mid a b : array_samples sgid mid (a ++ b) = array_samples sgid mid a ++ array_samples sgid mid b.
Proof. unfold array_samples. by rewrite fmap_app, concat_app. Qed.

Abbreviation samples_in sgid mid es := (array_samples sgid mid (entry_slab <$> es)).

Lemma samples_in_app sgid mid a b : samples_in sgid mid (a ++ b) = samples_in sgid mid a ++ samples_in sgid mid b.
Proof. rewrite fmap_app. apply array_samples_app. Qed.

Lemma samples_before sgid mid A e R t :
  ascending (samples_in sgid mid (A ++ e :: R)) -> starts_at_key sgid mid e -> e_time e < t -> Forall (fun x => x.1 < t) (samples_in sgid mid A).
Proof.
  rewrite samples_in_app, ascending_app. intros (_ & _ & Hf) Hst Hlt. eapply Forall_impl; [exact Hf|]. intros y Hy. cbn beta in *.
  unfold array_samples in Hy. cbn [fmap list_fmap concat] in Hy. unfold starts_at_key in Hst.
  destruct (slab_samples sgid mid (entry_slab e)) as [|x l]; [done|]. apply Forall_cons_1 in Hy as [Hy _]. lia.
Qed.

Lemma samples_after sgid mid A B t :
  ascending (samples_in sgid mid (A ++ B)) -> Forall (starts_at_key sgid mid) B ->
  match B with [] => True | e :: _ => t < e_time e end -> Forall (fun x => t < x.1) (samples_in sgid mid B).
Proof.
  rewrite samples_in_app, ascending_app. intros (_ & Ha & _) Hst Hlt. destruct B as [|e B]; [constructor|].
  apply Forall_cons_1 in Hst as [Hst _]. unfold array_samples in *. cbn [fmap list_fmap concat] in *. unfold starts_at_key in Hst.
  destruct (slab_samples sgid mid (entry_slab e)) as [|x l]; [done|]. simpl app in *. apply ascending_cons in Ha as [Hf _].
  constructor; [lia|]. eapply Forall_impl; [exact Hf|]. cbn beta. lia.
Qed.

Lemma no_series_filter sgid mid es : Forall (fun e => ~ entry_of sgid mid e) es -> filter (entry_of sgid mid) es = [].
Proof. induction 1 as [|e es He _ IH]; [done|]. by rewrite filter_cons, decide_False. Qed.

(** What is taken, among the entries of the series. *)
Lemma taken_split lst sgid mid mint before after :
  is_u64 sgid -> is_u 16 mid -> is_u64 mint -> Forall entry_ok (before ++ after) -> in_key_order (before ++ after) ->
  Forall (fun e => bytes_ltb (e_key e) (EnCodeKey [] sgid mid mint) = true) before ->
  match after with [] => True | e :: _ => bytes_ltb (e_key e) (EnCodeKey [] sgid mid mint) = false end -> after <> [] ->
  exists A B, filter (entry_of sgid mid) (before ++ after) = A ++ taken lst sgid mid before after ++ B /\
    match B with [] => True | e :: _ => lst (e_time e) = true end /\
    (A = [] \/ exists e R, taken lst sgid mid before after = e :: R /\ e_time e < mint).
Proof.
  intros Hs Hm Ht Hok Hord Hb Ha Hne. rewrite filter_app. unfold taken.
  pose proof Hok as [Hok1 Hok2]%Forall_app. assert (Ho2 : in_key_order after) by (by apply StronglySorted_app_1_r in Hord).
  destruct after as [|e after]; [done|]. pose proof Ho2 as [Ho3 Hf3]%StronglySorted_inv. pose proof Hok2 as [Hoe Hok3]%Forall_cons_1.
  assert (Hafter : exists B, filter (entry_of sgid mid) (e :: after) =
      (if bool_decide (entry_of sgid mid e) then e :: leading lst sgid mid after else []) ++ B /\
      match B with [] => True | e :: _ => lst (e_time e) = true end).
  { rewrite filter_cons. case_decide as He; [rewrite bool_decide_true by done|rewrite bool_decide_false by done].
    - destruct (leading_filter lst sgid mid mint after) as (B & E & HB); try done; [|exists B; by rewrite E].
      destruct after as [|e' after]; [done|]. apply Forall_cons_1 in Hf3 as [Hf _]. exact (bytes_le_trans _ _ _ Ha Hf).
    - exists []. split; [|done]. by apply no_series_filter, (series_first sgid mid mint e). }
  destruct (last before) as [el|] eqn:El.
  - apply last_Some in El as (bf & ->). rewrite filter_app, filter_cons, filter_nil. case_decide as Hel.
    + rewrite bool_decide_true by done. destruct (leading_filter lst sgid mid mint (e :: after)) as (B & E & HB); try done.
      exists (filter (entry_of sgid mid) bf), B. rewrite E, <- app_assoc. split_and!; [done..|]. right. exists el, (leading lst sgid mid (e :: after)).
      split; [done|]. apply Forall_app in Hb as [_ [Hb _]%Forall_cons_1]. apply Forall_app in Hok1 as [_ [(K1 & K2 & K3) _]%Forall_cons_1].
      destruct Hel as [E1 E2]. unfold e_key in Hb. rewrite E1, E2, EnCodeKey_time in Hb by done. by apply Z.ltb_lt in Hb.
    + rewrite bool_decide_false by done. destruct Hafter as (B & E & HB). exists [], B. rewrite E. split_and!; [|done|by left].
      rewrite no_series_filter; [done|]. apply Forall_forall. intros e' He' [E1 E2]. apply Hel.
      apply Forall_app in Hb as [_ [Hb _]%Forall_cons_1]. apply Forall_app in Hok1 as [Hbf [(K1 & K2 & K3) _]%Forall_cons_1].
      rewrite Forall_forall in Hbf. destruct (Hbf e' He') as (L1 & L2 & L3). rewrite <- app_assoc in Hord.
      apply (StronglySorted_app_1_elem_of _ _ _ e' el) in Hord; [|done|by left]. cbn beta in Hord. unfold e_key in Hb, Hord. rewrite E1, E2 in Hord.
      destruct (EnCodeKey_between sgid mid (e_time e') mint (e_sgid el) (e_mid el) (e_time el)) as (? & ? & _); done.
  - apply last_None in El as ->. destruct Hafter as (B & E & HB). exists [], B. rewrite E. split_and!; [done..|by left].
Qed.

(** The range of the entries taken is that of all entries of the series. *)
Lemma taken_range lst sgid mid mint maxt before after :
  is_u64 sgid -> is_u 16 mid -> is_u64 mint -> Forall entry_ok (before ++ after) -> in_key_order (before ++ after) ->
  Forall (fun e => bytes_ltb (e_key e) (EnCodeKey [] sgid mid mint) = true) before ->
  match after with [] => True | e :: _ => bytes_ltb (e_key e) (EnCodeKey [] sgid mid mint) = false end -> after <> [] ->
  (forall t, lst t = true -> maxt < t) ->
  let mine := filter (entry_of sgid mid) (before ++ after) in
  ascending (samples_in sgid mid mine) -> Forall (starts_at_key sgid mid) mine ->
  ascending (samples_in sgid mid (taken lst sgid mid before after)) /\
  in_range mint maxt (samples_in sgid mid (taken lst sgid mid before after)) = in_range mint maxt (samples_in sgid mid mine).
Proof.
  intros Hs Hm Ht Hok Hord Hb Ha Hne Hl mine Hasc Hst.
  destruct (taken_split lst sgid mid mint before after Hs Hm Ht Hok Hord Hb Ha Hne) as (A & B & E & HB & HA). fold mine in E.
  rewrite E in *. apply Forall_app in Hst as [_ [Hst1 Hst2]%Forall_app]. rewrite !samples_in_app, !in_range_app.
  rewrite (in_range_none mint maxt (samples_in sgid mid B)), app_nil_r.
  2: { eapply Forall_impl; [apply (samples_after sgid mid (A ++ taken lst sgid mid before after) B maxt)|cbn beta; lia];
       [by rewrite <- app_assoc|done|]. destruct B; [done|]. by apply Hl. }
  rewrite (in_range_none mint maxt (samples_in sgid mid A)).
  2: { destruct HA as [->|(e & R & E' & Hlt)]; [constructor|]. rewrite E' in Hasc, Hst1. simpl app in Hasc. apply Forall_cons_1 in Hst1 as [Hst1 _].
       eapply Forall_impl; [exact (samples_before sgid mid A e (R ++ B) mint Hasc Hst1 Hlt)|]. cbn beta. lia. }
  split; [|done]. rewrite !samples_in_app in Hasc. apply ascending_app in Hasc as (_ & Hasc & _). by apply ascending_app in Hasc as (? & _).
Qed.

End DBSpec.

(** ** What a query of a series yields *)

Lemma ascending_unique l : forall k, ascending l -> ascending k -> (forall x, x ∈ l <-> x ∈ k) -> l = k.
Proof.
  induction l as [|a l IH]; intros [|b k] Hl Hk He; [done| | |].
  - specialize (He b). exfalso. apply (not_elem_of_nil b), He. by left.
  - specialize (He a). exfalso. apply (not_elem_of_nil a), He. by left.
  - apply ascending_cons in Hl as [Fl Hl]. apply ascending_cons in Hk as [Fk Hk]. rewrite Forall_forall in Fl, Fk.
    assert (a = b) as ->.
    { pose proof (proj1 (He a) ltac:(by left)) as Ha. pose proof (proj2 (He b) ltac:(by left)) as Hb.
      apply elem_of_cons in Ha as [?|Ha]; [done|]. apply elem_of_cons in Hb as [?|Hb]; [done|]. specialize (Fl b Hb). specialize (Fk a Ha). lia. }
    f_equal. apply IH; [done|done|]. intros x. specialize (He x). rewrite !elem_of_cons in He. split; intros Hx.
    + assert (x <> b) by (intros ->; specialize (Fl b Hx); lia). naive_solver.
    + assert (x <> b) by (intros ->; specialize (Fk b Hx); lia). naive_solver.
Qed.

Lemma ascending_time l x y : ascending l -> x ∈ l -> y ∈ l -> x.1 = y.1 -> x = y.
Proof.
  induction l as [|a l IH]; intros Ha Hx Hy E; [by apply elem_of_nil in Hx|]. apply ascending_cons in Ha as [F Ha]. rewrite Forall_forall in F.
  apply elem_of_cons in Hx as [->|Hx]; apply elem_of_cons in Hy as [->|Hy]; [done| | |by apply IH].
  - specialize (F y Hy). lia.
  - specialize (F x Hx). lia.
Qed.

Lemma merge_elems l k x : (x ∈ merge_samples l k -> x ∈ l \/ x ∈ k) /\
  (x ∈ l \/ x ∈ k -> exists y, y ∈ merge_samples l k /\ y.1 = x.1).
Proof.
  revert k. induction l as [|a l IHl]; intros k.
  { rewrite merge_nil_l. split; [by right|]. intros [?%elem_of_nil|?]; [done|by exists x]. }
  induction k as [|b k IHk]; [rewrite merge_samples_nil; split; [by left|intros [?|?%elem_of_nil]; [by exists x|done]]|].
  rewrite merge_samples_cons. destruct (Z.ltb_spec a.1 b.1); [|destruct (Z.ltb_spec b.1 a.1)].
  - destruct (IHl (b :: k)) as [I1 I2]. split; [rewrite !elem_of_cons in *; naive_solver|].
    intros Hx. destruct (decide (x = a)) as [->|Hne]; [exists a; split; [by left|done]|].
    destruct I2 as (y & Hy & E); [rewrite !elem_of_cons in *; naive_solver|]. exists y. split; [by right|done].
  - destruct IHk as [I1 I2]. split; [rewrite !elem_of_cons in *; naive_solver|].
    intros Hx. destruct (decide (x = b)) as [->|Hne]; [exists b; split; [by left|done]|].
    destruct I2 as (y & Hy & E); [rewrite !elem_of_cons in *; naive_solver|]. exists y. split; [by right|done].
  - destruct (IHl k) as [I1 I2]. split; [rewrite !elem_of_cons in *; naive_solver|].
    intros Hx. destruct (decide (x = b)) as [->|Hne]; [exists b; split; [by left|done]|].
    destruct (decide (x = a)) as [->|Hne']; [exists b; split; [by left|lia]|].
    destruct I2 as (y & Hy & E); [rewrite !elem_of_cons in *; naive_solver|]. exists y. split; [by right|done].
Qed.

Lemma merged_elems Ls x : (x ∈ merged Ls -> exists L, L ∈ Ls /\ x ∈ L) /\
  ((exists L, L ∈ Ls /\ x ∈ L) -> exists y, y ∈ merged Ls /\ y.1 = x.1).
Proof.
  induction Ls as [|L Ls [IH1 IH2]].
  { split; [by intros ?%elem_of_nil|]. by intros (L & ?%elem_of_nil & _). }
  change (merged (L :: Ls)) with (merge_samples L (merged Ls)). destruct (merge_elems L (merged Ls) x) as [M1 M2]. split.
  - intros [Hx|Hx]%M1; [exists L; split; [by left|done]|]. destruct (IH1 Hx) as (M & HM & ?). exists M. split; [by right|done].
  - intros (M & [->|HM]%elem_of_cons & Hx); [apply M2; by left|]. destruct IH2 as (y & Hy & E); [by exists M|].
    destruct (merge_elems L (merged Ls) y) as [_ M3]. destruct M3 as (z & Hz & E'); [by right|]. exists z. split; [done|congruence].
Qed.

(** Lists that hold samples of [S] only, and together all of a range. *)
Lemma merged_complete mint maxt S Ls :
  ascending S -> Forall ascending Ls -> (forall L x, L ∈ Ls -> x ∈ L -> x ∈ in_range mint maxt S) ->
  (forall x, x ∈ in_range mint maxt S -> exists L, L ∈ Ls /\ x ∈ L) -> merged Ls = in_range mint maxt S.
Proof.
  intros HS HL Hin Hall. destruct (merged_map Ls HL) as [Ha _].
  pose proof (in_range_ascending mint maxt S HS) as HR.
  apply ascending_unique; [done..|]. intros x. destruct (merged_elems Ls x) as [M1 M2]. split.
  - intros (L & HLL & Hx)%M1. by apply (Hin L).
  - intros Hx. destruct (M2 (Hall x Hx)) as (y & Hy & E). destruct (merged_elems Ls y) as [M3 _]. destruct (M3 Hy) as (L & HLL & HyL).
    assert (y = x) as <-; [|done]. apply (ascending_time (in_range mint maxt S)); try done. by apply (Hin L).
Qed.

(** The chunk in memory, read from its bytes. *)
Lemma head_chunk_coming `{PE : PastEnd} m samples mint maxt :
  filling m samples -> ascending samples ->
  coming (tree_head_iterator (stream (bstream (chunk_ m))) mint maxt) (in_range mint maxt samples).
Proof.
  intros (a & w & body & Hf & _) Hs. pose proof (fi_at _ _ _ _ _ Hf) as Hc. pose proof (fi_reads _ _ _ _ _ Hf) as Hr.
  destruct (chunk_at_mem _ _ _ _ Hc) as (s & pad & _ & Hb & Hok & Hst). destruct Hc as (_ & _ & Hn).
  set (n := Z.of_nat (length samples)) in *.
  assert (E : (run (chunk_iterator (xor_chunk_of (drop 11 (stream (bstream (chunk_ m))))
    (Z.of_nat (length (stream (bstream (chunk_ m)))) - 11) false))).1 = samples).
  { rewrite Hst. change (drop 11 (head_bytes ++ be_bytes 2 n ++ s)) with (be_bytes 2 n ++ s).
    change (chunk_iterator _) with (xor_iterator_of (bs_of_ptr (be_bytes 2 n ++ s) (Z.of_nat (length (head_bytes ++ be_bytes 2 n ++ s)) - 11)) false).
    destruct (iterator_facing (bs_of_ptr (be_bytes 2 n ++ s) (Z.of_nat (length (head_bytes ++ be_bytes 2 n ++ s)) - 11)) n s 0 body pad false)
      as (Hfr & Ht & rest & Hface); try done.
    - change (Z.of_nat (length (head_bytes ++ be_bytes 2 n ++ s)) - 11 = Z.of_nat (0 + (2 + length s))).
      rewrite !length_app, length_be_bytes. change (length head_bytes) with 11%nat. lia.
    - unfold is_u in Hn. apply (run_reads body samples a w _ rest); try done; rewrite Ht; subst n; lia. }
  rewrite <- E at 1. apply tree_head_coming. by rewrite E.
Qed.

Abbreviation samples_in sgid mid es := (array_samples sgid mid (entry_slab <$> es)).

Section QuerySpec.
Context `{PE : PastEnd} `{DS : DBIteratorSpec D} `{TO : TreeOps T SlabRef}.
Context `{TI : Thmap str Z MI} `{TF : Thmap Z Z MF} `{IX : InvertedIndex IV}.
Implicit Types (q : TreeQuerier D) (h : TreeHead MI MF IV) (ts : TreeSeries T).

(** What a query finds of the samples of a series in a table with the entries
    [es]: all of them when some key is not before the start of the query, and
    nothing otherwise, since the seek then runs off the end of the table. *)
Definition samples_found (sgid mid mint : Z) (es : list Entry) : list (Z * Z) :=
  if decide (Exists (fun e => bytes_ltb (e_key e) (EnCodeKey [] sgid mid mint) = false) es)
  then samples_in sgid mid (filter (entry_of sgid mid) es) else [].

(** The iterator [d] goes over entries in order, and [L] are the samples of the
    series that a query finds in them. *)
Definition db_holds (sgid mid mint : Z) (d : D) (L : list (Z * Z)) : Prop :=
  exists es p, db_at d es p /\ Forall entry_ok es /\ in_key_order es /\
    L = samples_found sgid mid mint es /\ ascending L /\ Forall (starts_at_key sgid mid) (filter (entry_of sgid mid) es).

(** A table whose last key is before the start of the query. *)
Lemma GetSlabArray_late lst sgid mid mint (d : D) es p :
  db_at d es p -> Forall (fun e => bytes_ltb (e_key e) (EnCodeKey [] sgid mid mint) = true) es ->
  GetSlabArray lst sgid mid mint d = Some ([], true).
Proof.
  intros Hd Hb. unfold GetSlabArray. pose proof (seek_spec _ _ _ (EnCodeKey [] sgid mid mint) Hd) as Hs.
  rewrite <- (app_nil_r es) in Hs at 2. rewrite (find_after _ es []) in Hs by done. by rewrite (valid_spec _ _ _ Hs).
Qed.

Lemma split_at_key key es : Exists (fun e => bytes_ltb (e_key e) key = false) es ->
  exists before e after, es = before ++ e :: after /\ Forall (fun e => bytes_ltb (e_key e) key = true) before /\ bytes_ltb (e_key e) key = false.
Proof.
  induction es as [|e es IH]; intros Hx; [by apply Exists_nil in Hx|]. destruct (bytes_ltb (e_key e) key) eqn:E.
  - apply Exists_cons in Hx as [?|Hx]; [congruence|]. destruct (IH Hx) as (b & e' & a & -> & Hb & He). exists (e :: b), e', a.
    split_and!; [done|by constructor|done].
  - exists [], e, es. by split_and!.
Qed.

Lemma db_coming lst sgid mid mint maxt d L :
  is_u64 sgid -> is_u 16 mid -> 0 <= mint < INT64_MAX -> (forall t, lst t = true -> maxt < t) -> db_holds sgid mid mint d L ->
  exists slabs b, GetSlabArray lst sgid mid mint d = Some (slabs, b) /\
    coming (slab_array_iterator slabs mint maxt sgid mid) (in_range mint maxt L).
Proof.
  intros Hs Hm Ht Hl (es & p & Hd & Hok & Hord & -> & Hasc & Hst). unfold samples_found in *. case_decide as Hex.
  2:{ exists [], true. split.
    - apply (GetSlabArray_late lst sgid mid mint d es p Hd). apply Forall_forall. intros e He.
      destruct (bytes_ltb (e_key e) _) eqn:E; [done|]. destruct Hex. apply Exists_exists. by exists e.
    - pose proof (slab_array_coming [] mint maxt sgid mid) as Hc. rewrite Z.max_r in Hc by lia. apply Hc; [lia|done]. }
  destruct (split_at_key _ _ Hex) as (before & e & after & Hes & Hb & He).
  assert (Htu : is_u64 mint) by (unfold INT64_MAX, is_u in *; lia).
  destruct (GetSlabArray_spec lst sgid mid mint es d p before (e :: after)) as (b & E); try done.
  destruct (taken_range lst sgid mid mint maxt before (e :: after)) as [Ha Hr]; rewrite <- ?Hes; try done. cbv zeta in Hr. rewrite <- Hes in Hr.
  exists (entry_slab <$> taken lst sgid mid before (e :: after)), b. split; [done|]. rewrite <- Hr.
  pose proof (slab_array_coming (entry_slab <$> taken lst sgid mid before (e :: after)) mint maxt sgid mid) as Hc.
  rewrite Z.max_r in Hc by lia. apply Hc; [lia|done].
Qed.

Lemma mapM_coming {A J : Type} `{SJ : SeriesIteratorSpec J} (f : A -> option J) (g : list (Z * Z) -> list (Z * Z)) (P : A -> list (Z * Z) -> Prop) l Ls :
  (forall x L, P x L -> exists it, f x = Some it /\ coming it (g L)) -> Forall2 P l Ls ->
  exists its, mapM f l = Some its /\ Forall2 coming its (g <$> Ls).
Proof.
  intros Hf. induction 1 as [|x L l Ls Hx _ (its & E & Hc)]; [by exists []|]. destruct (Hf x L Hx) as (it & Ef & Hit).
  exists (it :: its). simpl. rewrite Ef. simpl. rewrite E. split; [done|by constructor].
Qed.

(** The lists a query merges: [L1], [L0] and [LM] are the samples of the
    key-value store, [LT] those of the slabs, [LH] the chunk in memory. *)
Definition query_lists q (tms : TreeMemSeries) (L1 : list (list (Z * Z))) (L0 : list (list (list (Z * Z)))) (LM : list (list (Z * Z)))
    (LT LH : list (Z * Z)) : list (list (Z * Z)) :=
  let range := in_range (q_min q) (q_max q) in
  (if q_min q <=? level_flush_time_ tms then (range <$> L1) ++ ((fun Ls => merged (range <$> Ls)) <$> L0) ++ (range <$> LM) else []) ++
  (if level_flush_time_ tms <? q_max q then [in_range (Z.max (q_min q) (level_flush_time_ tms)) (q_max q) LT] else []) ++
  (if head_flush_time_ tms <=? q_max q then [range LH] else []).

(** What a query finds in each place. *)
Record query_state q h ts (sgid mid : Z) (tms : TreeMemSeries) L1 L0 LM LT LH ts' : Prop := {
  qs_sgid : is_u64 sgid;
  qs_mid : is_u 16 mid;
  qs_min : 0 <= q_min q < INT64_MAX;
  qs_max : 0 <= q_max q <= INT64_MAX;
  qs_series : exists p, read_flat_forward_index h sgid mid = Some p /\ deref h p = Some tms;
  qs_level : 0 <= level_flush_time_ tms < INT64_MAX;
  qs_l1 : Forall2 (db_holds sgid mid (q_min q)) (q_l1 q) L1;
  qs_l0 : Forall2 (Forall2 (db_holds sgid mid (q_min q))) (q_l0 q) L0;
  qs_mems : Forall2 (db_holds sgid mid (q_min q)) (q_mems q) LM;
  qs_tree : if level_flush_time_ tms <? q_max q
            then exists a, Scan ts sgid mid (u64 (Z.max (q_min q) (level_flush_time_ tms))) (u64 (q_max q)) = Some (a, ts') /\
                   LT = array_samples sgid mid (scanned ts' a)
            else ts' = ts;
  qs_asc : ascending LT;
  qs_head : filling tms LH;
  qs_head_asc : ascending LH }.

Lemma db_part_coming q h ts sgid mid tms L1 L0 LM LT LH ts' junk :
  query_state q h ts sgid mid tms L1 L0 LM LT LH ts' ->
  exists l1 l0 mem, l1_part q sgid mid = Some l1 /\ l0_part q junk sgid mid = Some l0 /\ mem_part q sgid mid = Some mem /\
    Forall2 coming (l1 ++ l0 ++ mem) ((in_range (q_min q) (q_max q) <$> L1) ++
      ((fun Ls => merged (in_range (q_min q) (q_max q) <$> Ls)) <$> L0) ++ (in_range (q_min q) (q_max q) <$> LM)).
Proof.
  intros Hq. destruct Hq as [Hs Hm Hmin Hmax _ _ H1 H0 HM _ _ _ _].
  assert (Eu : u64 (q_min q) = q_min q) by (apply wrap_id; unfold is_u, INT64_MAX in *; lia).
  assert (Hany : forall t, any_time t = true -> q_max q < t) by done.
  destruct (mapM_coming (J := QueryIterator) (fun d => it ← l1_iterator d (q_min q) (q_max q) sgid mid; Some (inr (inl it)))
    (in_range (q_min q) (q_max q)) (db_holds sgid mid (q_min q)) (q_l1 q) L1) as (l1 & E1 & C1); [|done|].
  { intros d L Hd. unfold l1_iterator, L1_GetSlabArray. rewrite Eu. destruct (db_coming any_time sgid mid (q_min q) (q_max q) d L Hs Hm Hmin Hany Hd) as (sl & b & -> & Hc).
    cbn [mbind option_bind]. eexists. split; [done|]. exact Hc. }
  destruct (mapM_coming (J := QueryIterator) (fun d => it ← memtable_iterator d (q_min q) (q_max q) sgid mid; Some (inr (inl it)))
    (in_range (q_min q) (q_max q)) (db_holds sgid mid (q_min q)) (q_mems q) LM) as (lm & EM & CM); [|done|].
  { intros d L Hd. unfold memtable_iterator. rewrite (proj2 (Z.ltb_ge (q_min q) 0)) by lia.
    destruct (db_coming any_time sgid mid (q_min q) (q_max q) d L Hs Hm Hmin Hany Hd) as (sl & b & -> & Hc).
    cbn [mbind option_bind]. eexists. split; [done|]. exact Hc. }
  assert (E0 : exists l0, l0_part q junk sgid mid = Some l0 /\ Forall2 coming l0 ((fun Ls => merged (in_range (q_min q) (q_max q) <$> Ls)) <$> L0)).
  { unfold l0_part. induction H0 as [|ds Ls l Lss Hds _ (l0 & E & C)]; [by exists []|].
    destruct (mapM_coming (fun d => l0_iterator d (q_min q) (q_max q) sgid mid) (in_range (q_min q) (q_max q)) (db_holds sgid mid (q_min q)) ds Ls)
      as (its & Ei & Ci); [|done|].
    { intros d L Hd. unfold l0_iterator, L0_GetSlabArray. rewrite Eu.
      destruct (db_coming (fun t => u64 (q_max q) <? t) sgid mid (q_min q) (q_max q) d L Hs Hm Hmin) as (sl & b & -> & Hc); [|done|by eexists].
      intros t Ht%Z.ltb_lt. unfold u64 in Ht. rewrite wrap_id in Ht by (unfold is_u, INT64_MAX in *; lia). done. }
    exists (inl (merge_series_iterator junk its) :: l0). simpl. rewrite Ei. simpl. rewrite E. split; [done|]. constructor; [|done].
    left. split_and!; [done|done|]. by exists (in_range (q_min q) (q_max q) <$> Ls). }
  destruct E0 as (l0 & E0 & C0). exists l1, l0, lm. split_and!; [done..|]. by repeat apply Forall2_app.
Qed.

Lemma series_iterator_coming q h ts sgid mid tms L1 L0 LM LT LH ts' junk :
  query_state q h ts sgid mid tms L1 L0 LM LT LH ts' ->
  exists it, series_iterator q h ts junk sgid mid = Some (reconstruct_labels h sgid mid [], it, ts') /\
    coming it (merged (query_lists q tms L1 L0 LM LT LH)).
Proof.
  intros Hq. destruct (db_part_coming q h ts sgid mid tms L1 L0 LM LT LH ts' junk Hq) as (l1 & l0 & lm & E1 & E0 & EM & CD).
  destruct Hq as [Hs Hm Hmin Hmax (p & Ep & Ed) Hlev _ _ _ HT HaT Hhead Hha]. unfold series_iterator, head_series.
  rewrite Ep. cbn [mbind option_bind]. rewrite Ed. cbn [mbind option_bind default]. rewrite E1, E0, EM. cbn [mbind option_bind].
  assert (Hne : bool_decide (stream (bstream (chunk_ tms)) = []) = false).
  { apply bool_decide_eq_false_2. destruct Hhead as (a & w & body & Hf & _). pose proof (fi_at _ _ _ _ _ Hf) as Hc.
    destruct (chunk_at_mem _ _ _ _ Hc) as (s & pad & _ & _ & _ & ->). done. }
  cbn [id]. unfold id. rewrite Hne. cbn [negb]. rewrite andb_true_r.
  change (MergeSeriesIterator SlabArrayIterator + (SlabArrayIterator + TreeHeadIterator))%type with QueryIterator.
  set (db := if q_min q <=? level_flush_time_ tms then Some (l1 ++ l0 ++ lm) else Some []).
  assert (Hdb : exists db', db = Some db' /\ Forall2 coming db' (if q_min q <=? level_flush_time_ tms
    then (in_range (q_min q) (q_max q) <$> L1) ++ ((fun Ls => merged (in_range (q_min q) (q_max q) <$> Ls)) <$> L0) ++ (in_range (q_min q) (q_max q) <$> LM) else []))
    by (unfold db; destruct (q_min q <=? level_flush_time_ tms); by eexists).
  destruct Hdb as (db' & -> & CD'). cbn [mbind option_bind].
  set (head := if head_flush_time_ tms <=? q_max q then _ else []).
  assert (CH : Forall2 coming head (if head_flush_time_ tms <=? q_max q then [in_range (q_min q) (q_max q) LH] else [])).
  { unfold head. destruct (head_flush_time_ tms <=? q_max q); [|constructor]. constructor; [|constructor].
    exact (head_chunk_coming tms LH (q_min q) (q_max q) Hhead Hha). }
  destruct (level_flush_time_ tms <? q_max q) eqn:El.
  - destruct HT as (a & Ea & EL). unfold tree_series_iterator. rewrite Ea. cbn [mbind option_bind]. eexists. split; [done|].
    left. split_and!; [done|done|]. eexists. split; [|reflexivity]. unfold query_lists. rewrite El. cbn [ms_iters merge_series_iterator]. repeat apply Forall2_app; [done| |done].
    constructor; [|constructor]. rewrite EL. pose proof (slab_array_coming (scanned ts' a) (Z.max (q_min q) (level_flush_time_ tms)) (q_max q) sgid mid) as Hc.
    rewrite (Z.max_r 0) in Hc by lia. apply Hc; [lia|]. by rewrite <- EL.
  - rewrite HT. cbn [mbind option_bind]. eexists. split; [done|]. left. split_and!; [done|done|]. eexists. split; [|reflexivity].
    unfold query_lists. rewrite El. cbn [ms_iters merge_series_iterator]. by repeat apply Forall2_app.
Qed.

(** The division of the samples [S] of a series among the places: every place
    holds samples of [S] only; up to [level_flush_time_] those in the range are in
    the key-value store, after it in the slabs found, from [head_flush_time_] on
    they may be in the chunk in memory. *)
Record divided q (tms : TreeMemSeries) L1 (L0 : list (list (list (Z * Z)))) LM (LT LH S : list (Z * Z)) : Prop := {
  dv_db x L : L ∈ L1 ++ concat L0 ++ LM -> x ∈ L -> x ∈ S;
  dv_slabs x : x ∈ LT -> x ∈ S;
  dv_head x : x ∈ LH -> x ∈ S;
  dv_all x : x ∈ in_range (q_min q) (q_max q) S ->
    x.1 <= level_flush_time_ tms /\ (exists L, L ∈ L1 ++ concat L0 ++ LM /\ x ∈ L) \/
    level_flush_time_ tms < x.1 /\ x ∈ LT \/
    head_flush_time_ tms <= x.1 /\ x ∈ LH }.

Lemma query_lists_ascending q h ts sgid mid tms L1 L0 LM LT LH ts' :
  query_state q h ts sgid mid tms L1 L0 LM LT LH ts' -> Forall ascending (query_lists q tms L1 L0 LM LT LH).
Proof.
  intros Hq. destruct Hq as [_ _ _ _ _ _ H1 H0 HM _ HT _ HH].
  assert (Hdb : forall l Ls, Forall2 (db_holds sgid mid (q_min q)) l Ls -> Forall ascending (in_range (q_min q) (q_max q) <$> Ls)).
  { intros l Ls. induction 1 as [|d L l Ls Hd _ IH]; [constructor|]. constructor; [|done]. apply in_range_ascending.
    destruct Hd as (es & p & _ & _ & _ & _ & Ha & _). done. }
  unfold query_lists. repeat (apply Forall_app; split); case_match; try constructor; try constructor; try by apply in_range_ascending.
  repeat (apply Forall_app; split); [by eapply Hdb| |by eapply Hdb].
  clear -H0 Hdb. induction H0 as [|l Ls l0 L0 Hl _ IH]; [constructor|]. constructor; [|done]. apply merged_map. by eapply Hdb.
Qed.

(** The lists that are merged hold samples of [S] in the range, all of them. *)
Lemma query_lists_sound q tms L1 L0 LM LT LH S L x : 0 <= level_flush_time_ tms ->
  divided q tms L1 L0 LM LT LH S -> L ∈ query_lists q tms L1 L0 LM LT LH -> x ∈ L -> x ∈ in_range (q_min q) (q_max q) S.
Proof.
  intros Hl [H1 H2 H3 _] HL Hx. rewrite elem_of_in_range. unfold query_lists in HL. rewrite !elem_of_app in HL. destruct HL as [HL|[HL|HL]].
  - case_match; [|by apply elem_of_nil in HL]. rewrite !elem_of_app, !list_elem_of_fmap in HL.
    destruct HL as [(L' & -> & HL)|[(Ls & -> & HL)|(L' & -> & HL)]].
    + apply elem_of_in_range in Hx as [? Hx]. split; [done|]. apply (H1 x L'); [|done]. by apply elem_of_app; left.
    + apply merged_elems in Hx as (L' & HL' & Hx). apply list_elem_of_fmap in HL' as (L'' & -> & HL'').
      apply elem_of_in_range in Hx as [? Hx]. split; [done|]. apply (H1 x L''); [|done]. apply elem_of_app. right. apply elem_of_app. left.
      apply list_elem_of_In, in_concat. exists Ls. by rewrite <- !list_elem_of_In.
    + apply elem_of_in_range in Hx as [? Hx]. split; [done|]. apply (H1 x L'); [|done]. by rewrite !elem_of_app; right; right.
  - case_match; [|by apply elem_of_nil in HL]. apply list_elem_of_singleton in HL as ->. apply elem_of_in_range in Hx as [? Hx].
    split; [lia|by apply H2].
  - case_match; [|by apply elem_of_nil in HL]. apply list_elem_of_singleton in HL as ->. apply elem_of_in_range in Hx as [? Hx].
    split; [done|by apply H3].
Qed.

Lemma query_lists_complete q tms L1 L0 LM LT LH S x : ascending S ->
  divided q tms L1 L0 LM LT LH S -> x ∈ in_range (q_min q) (q_max q) S -> exists L, L ∈ query_lists q tms L1 L0 LM LT LH /\ x ∈ L.
Proof.
  intros HS [H1 H2 H3 H4] Hx. destruct (proj1 (elem_of_in_range _ _ _ _) Hx) as [Hr HxS]. unfold query_lists.
  destruct (H4 x Hx) as [(Ht & L & HL & HxL)|[(Ht & HxL)|(Ht & HxL)]].
  - rewrite (proj2 (Z.leb_le (q_min q) _)) by lia. rewrite !elem_of_app in HL. destruct HL as [HL|[HL|HL]].
    + exists (in_range (q_min q) (q_max q) L). rewrite elem_of_in_range. split; [|done]. rewrite !elem_of_app. left. left.
      by apply list_elem_of_fmap_2.
    + apply list_elem_of_In, in_concat in HL as (Ls & HLs%list_elem_of_In & HL%list_elem_of_In).
      exists (merged (in_range (q_min q) (q_max q) <$> Ls)). split.
      * rewrite !elem_of_app. left. right. left. apply list_elem_of_fmap. by exists Ls.
      * destruct (proj2 (merged_elems (in_range (q_min q) (q_max q) <$> Ls) x)) as (y & Hy & E).
        { exists (in_range (q_min q) (q_max q) L). rewrite elem_of_in_range. split; [|done]. by apply list_elem_of_fmap_2. }
        assert (y = x) as <-; [|done]. apply (ascending_time S); try done.
        apply merged_elems in Hy as (L' & HL' & Hy). apply list_elem_of_fmap in HL' as (L'' & -> & HL'').
        apply elem_of_in_range in Hy as [_ Hy]. apply (H1 y L''); [|done]. rewrite !elem_of_app. right. left.
        apply list_elem_of_In, in_concat. exists Ls. by rewrite <- !list_elem_of_In.
    + exists (in_range (q_min q) (q_max q) L). rewrite elem_of_in_range. split; [|done]. rewrite !elem_of_app. left. right. right.
      by apply list_elem_of_fmap_2.
  - exists (in_range (Z.max (q_min q) (level_flush_time_ tms)) (q_max q) LT). rewrite elem_of_in_range. split; [|split; [lia|done]].
    rewrite (proj2 (Z.ltb_lt (level_flush_time_ tms) (q_max q))) by lia. rewrite !elem_of_app. right. left. by apply list_elem_of_singleton.
  - exists (in_range (q_min q) (q_max q) LH). rewrite elem_of_in_range. split; [|done].
    rewrite (proj2 (Z.leb_le (head_flush_time_ tms) (q_max q))) by lia. rewrite !elem_of_app. right. right. by apply list_elem_of_singleton.
Qed.

(** C6.  A query returns the samples of its range.  When the samples of a series
    are divided among the partitions of both levels of the key-value store, its
    tables in memory, the slabs the range lookup finds and the chunk in memory as
    [level_flush_time_] and [head_flush_time_] say, some of them in several
    places, the iterator of the series returns exactly those whose times are in
    the range of the query, each once, in ascending order, with the labels of the
    series.  A table of the key-value store whose last key is before the start of
    the query counts as holding nothing ([samples_found]): the seek finds no
    entry there and the one before the start is not looked at
    (tsdb_tree_querier.cpp:504). *)
Theorem query_returns_range q h ts sgid mid tms L1 L0 LM LT LH ts' junk S rounds :
  query_state q h ts sgid mid tms L1 L0 LM LT LH ts' -> ascending S -> divided q tms L1 L0 LM LT LH S -> (length S < rounds)%nat ->
  exists it, series_iterator q h ts junk sgid mid = Some (reconstruct_labels h sgid mid [], it, ts') /\
    expand rounds it = Some (in_range (q_min q) (q_max q) S).
Proof.
  intros Hq HS Hd Hr. destruct (series_iterator_coming q h ts sgid mid tms L1 L0 LM LT LH ts' junk Hq) as (it & E & Hc).
  exists it. split; [done|]. pose proof (qs_level _ _ _ _ _ _ _ _ _ _ _ _ Hq) as [Hlev _].
  rewrite (merged_complete (q_min q) (q_max q) S) in Hc; [|done|by eapply query_lists_ascending| |].
  - apply expand_coming; [done|]. pose proof (in_range_length (q_min q) (q_max q) S). lia.
  - intros L x. by apply query_lists_sound.
  - intros x. by apply query_lists_complete.
Qed.

End QuerySpec.

(** ** Ranges that find nothing *)

Section Misses.
Context `{PE : PastEnd} `{DS : DBIteratorSpec D} {T : Type} `{TL : TreeLaws T SlabRef}.

(** C30.  A query inside a chunk finds nothing in the slabs.  The index has a key
    for the first and one for the last time of a chunk only; when none of the
    keys of the series is in the half-open range of the query, the iterator over
    the slabs ends at once, whatever the slabs hold. *)
Theorem narrow_query_misses (ts : TreeSeries T) sgid mid mint maxt :
  is_u64 sgid -> is_u 16 mid -> 0 <= mint <= INT64_MAX -> 0 <= maxt <= INT64_MAX ->
  (forall k v, tr_find (mass_tree_ ts) k = Some v -> exists s m t, is_u64 s /\ is_u 16 m /\ is_u64 t /\ k = EnCodeKey [] s m t) ->
  (forall t, mint <= t < maxt -> SearchMT ts sgid mid t = None) ->
  exists it, tree_series_iterator ts mint maxt sgid mid = Some (it, ts) /\ expand 1 it = Some [].
Proof.
  intros Hs Hm H1 H2 Hk Hn. unfold tree_series_iterator, Scan.
  assert (E : ScanMT ts sgid mid (u64 mint) (u64 maxt) = []).
  { assert (Hu : is_u64 mint /\ is_u64 maxt) by (unfold is_u, INT64_MAX in *; lia). destruct Hu as [Hu1 Hu2].
    unfold u64. rewrite !wrap_id by done. destruct (ScanMT ts sgid mid mint maxt) as [|r l] eqn:E; [done|].
    assert (Hr : r ∈ ScanMT ts sgid mid mint maxt) by (rewrite E; by left). apply scan_finds_range in Hr as (t & Ht & Hf); try done.
    rewrite Hn in Hf; done. }
  rewrite E. eexists. split; [reflexivity|]. done.
Qed.

(** A key-value store whose last key is before the start of the query: the
    entry before the start is not looked at. *)
Theorem late_query_misses_db lst sgid mid mint (d : D) es p :
  db_at d es p -> Forall (fun e => bytes_ltb (e_key e) (EnCodeKey [] sgid mid mint) = true) es ->
  GetSlabArray lst sgid mid mint d = Some ([], true).
Proof. apply GetSlabArray_late. Qed.

End Misses.

(** ** Examples *)

(** An iterator over a list of entries. *)
Record ListDB := mkDB { ld_entries : list Entry; ld_pos : option nat }.

Definition ld_entry (d : ListDB) : option Entry := i ← ld_pos d; ld_entries d !! i.
Definition ld_move (d : ListDB) (i : option nat) : ListDB :=
  mkDB (ld_entries d) (i ← i; if decide (i < length (ld_entries d))%nat then Some i else None).

#[export] Instance ListDB_iterator : DBIterator ListDB := {
  db_seek key d := ld_move d (fst <$> list_find (fun e => bytes_ltb (e_key e) key = false) (ld_entries d));
  db_valid d := match ld_pos d with Some _ => true | None => false end;
  db_next d := ld_move d (S <$> ld_pos d);
  db_prev d := ld_move d (i ← ld_pos d; match i with O => None | S i => Some i end);
  db_key d := match ld_entry d with Some e => e_key e ++ e_tag e | None => [] end;
  db_value d := match ld_entry d with Some e => e_value e | None => [] end;
  db_left d := length (ld_entries d) }.

Definition ld_at (d : ListDB) (es : list Entry) (p : option nat) : Prop :=
  ld_entries d = es /\ ld_pos d = p /\ match p with Some i => (i < length es)%nat | None => True end.

Lemma ld_move_at d es p i :
  ld_at d es p -> match i with Some i => (i < length es)%nat | None => True end -> ld_at (ld_move d i) es i.
Proof.
  intros (<- & _ & _) Hi. split; [done|]. split; [|done]. unfold ld_move. cbn [ld_pos]. destruct i as [i|]; [|done].
  cbn [mbind option_bind]. by rewrite decide_True.
Qed.

#[export] Instance ListDB_spec : DBIteratorSpec ListDB.
Proof.
  refine {| db_at := ld_at |}.
  - intros d es i (_ & E & _). cbn [db_valid ListDB_iterator]. by rewrite E.
  - intros d es i (<- & E & Hi). destruct (lookup_lt_is_Some_2 _ _ Hi) as [e He]. exists e.
    cbn [db_key db_value db_left ListDB_iterator]. unfold ld_entry. rewrite E. cbn [mbind option_bind]. rewrite He. split_and!; try done. lia.
  - intros d es i key Hd. pose proof Hd as (<- & _ & _). eapply ld_move_at; [exact Hd|].
    destruct (list_find _ _) as [[j e]|] eqn:E; [|done]. apply list_find_Some in E as (E & _). by eapply lookup_lt_Some.
  - intros d es i Hd. pose proof Hd as (E1 & E2 & _). cbn [db_next ListDB_iterator]. rewrite E2. cbn [fmap option_fmap option_map].
    case_decide as Hi; [by eapply ld_move_at|]. split; [done|]. split; [|done]. unfold ld_move. cbn [ld_pos mbind option_bind].
    rewrite E1. by rewrite decide_False.
  - intros d es i Hd. pose proof Hd as (E1 & E2 & Hi). cbn [db_prev ListDB_iterator]. rewrite E2. cbn [mbind option_bind].
    eapply ld_move_at; [exact Hd|]. destruct i; [done|lia].
Defined.

Module QueryDemo.
#[local] Instance demo_past : PastEnd := fun _ => 0.
#[local] Instance demo_inverted : InvertedIndex (list (Z * Labels)) := fun l id a => l ++ [(id, a)].
Import IteratorDemo.

Definition tree : Type := gmap (list Z) SlabRef.
Definition Head : Type := TreeHead (gmap str Z) (gmap Z Z) (list (Z * Labels)).

(** A series of forty samples: its first chunk is in the key-value store, the
    second in a slab, the rest in memory. *)
Definition demo_entry : Entry := mkEntry 1 1 (2 ^ 40) (replicate 8 0) (slab_of (take 1 mine)).2.
Definition demo_db : ListDB := mkDB [demo_entry] None.
Definition demo_store : TreeSeries tree :=
  foldl (fun st p => match ConPutKV st 1 1 (p_start p) (p_end p) (p_value p) CHUNK_SIZE 0 with Some (_, _, st) => st | None => st end)
    small_store (drop 1 mine).
Definition demo_mem : TreeMemSeries :=
  let m := (run_series 1 1 demo_samples).2 in
  set_flush_times m (head_flush_time_ m) (from_option p_end 0 (head mine)) (time_boundary_ m).
Definition demo_head : Head :=
  match creates (new_head 8 8 []) 0 [HeadDemo.lset 1 1] with
  | Some ((p, _) :: _, h) => set_series h p demo_mem
  | _ => new_head 8 8 []
  end.
Definition demo_query (mint maxt : Z) : TreeQuerier ListDB := tree_querier mint maxt [] [[demo_db]] [].

(** The samples in each place. *)
Definition db_samples : list (Z * Z) := take 14 demo_samples.
Definition scan_result : option (list (SlabRef * list Z) * TreeSeries tree) := Scan demo_store 1 1 (level_flush_time_ demo_mem) (2 ^ 60).
Definition slab_part : list (Z * Z) := from_option (fun r => array_samples 1 1 (scanned r.2 r.1)) [] scan_result.

Lemma demo_places : db_samples ++ slab_part ++ head_samples demo_mem = demo_samples /\
  level_flush_time_ demo_mem = 3017059906617344 /\ head_flush_time_ demo_mem = 21641687369515008.
Proof. vm_compute. done. Qed.

Lemma flush_times_filling m l a b c : filling m l -> filling (set_flush_times m a b c) l.
Proof. by apply filling_chunk. Qed.

Lemma demo_filling : filling demo_mem (head_samples demo_mem).
Proof.
  pose proof (flush_times_filling _ _ (head_flush_time_ (run_series 1 1 demo_samples).2) (from_option p_end 0 (head mine))
    (time_boundary_ (run_series 1 1 demo_samples).2) series_filling) as Hf.
  fold demo_mem in Hf. by rewrite (filling_samples _ _ Hf).
Qed.

Definition the_query : TreeQuerier ListDB := demo_query 0 (2 ^ 60).
Definition scanned_store : TreeSeries tree := from_option snd demo_store scan_result.
Definition scanned_slabs : list (SlabRef * list Z) := from_option fst [] scan_result.

Lemma demo_scan : scan_result = Some (scanned_slabs, scanned_store) /\ slab_part = array_samples 1 1 (scanned scanned_store scanned_slabs).
Proof.
  assert (E : match scan_result with Some _ => true | None => false end = true) by (vm_compute; reflexivity).
  unfold slab_part, scanned_slabs, scanned_store. destruct scan_result as [[a ts]|]; done.
Qed.

Lemma demo_db_holds : db_holds 1 1 0 demo_db db_samples.
Proof.
  assert (Ef : filter (entry_of 1 1) [demo_entry] = [demo_entry]) by (by rewrite filter_cons_True).
  assert (Es : slab_samples 1 1 (entry_slab demo_entry) = db_samples) by (vm_compute; reflexivity).
  exists [demo_entry], None. rewrite Ef. split; [exact (conj eq_refl (conj eq_refl I))|]. split; [|split; [|split; [|split]]].
  - apply Forall_singleton. unfold entry_ok, demo_entry. cbn [e_sgid e_mid e_time]. unfold is_u64, is_u. lia.
  - apply SSorted_cons; [apply SSorted_nil|apply Forall_nil_2].
  - unfold samples_found. rewrite decide_True by (apply Exists_cons_hd; vm_compute; reflexivity). rewrite Ef.
    unfold array_samples. cbn [fmap list_fmap concat]. by rewrite Es, app_nil_r.
  - apply ascending_b_spec. vm_compute. reflexivity.
  - apply Forall_singleton. unfold starts_at_key. rewrite Es. vm_compute. reflexivity.
Qed.

Lemma demo_series_found : exists p, read_flat_forward_index demo_head 1 1 = Some p /\ deref demo_head p = Some demo_mem.
Proof. exists 1. vm_compute. done. Qed.

Lemma demo_state : query_state the_query demo_head demo_store 1 1 demo_mem [] [[db_samples]] [] slab_part (head_samples demo_mem) scanned_store.
Proof.
  destruct demo_places as (Ep & El & Eh). destruct demo_scan as [Es Esl].
  assert (Hl : (level_flush_time_ demo_mem <? q_max the_query) = true) by (rewrite El; done).
  assert (E1 : u64 (Z.max (q_min the_query) (level_flush_time_ demo_mem)) = level_flush_time_ demo_mem) by (rewrite El; vm_compute; reflexivity).
  assert (E2 : u64 (q_max the_query) = 2 ^ 60) by (vm_compute; reflexivity).
  constructor.
  - vm_compute. split; congruence.
  - vm_compute. split; congruence.
  - vm_compute. split; congruence.
  - vm_compute. split; congruence.
  - exact demo_series_found.
  - rewrite El. unfold INT64_MAX. lia.
  - constructor.
  - constructor; [|constructor]. constructor; [exact demo_db_holds|constructor].
  - constructor.
  - rewrite Hl. exists scanned_slabs. split; [|exact Esl]. rewrite E1, E2. exact Es.
  - apply ascending_b_spec. vm_compute. reflexivity.
  - exact demo_filling.
  - apply ascending_b_spec. vm_compute. reflexivity.
Qed.

Lemma divided_app (q : TreeQuerier ListDB) tms A B C :
  Forall (fun x => x.1 <= level_flush_time_ tms) A -> Forall (fun x => level_flush_time_ tms < x.1) B ->
  Forall (fun x => head_flush_time_ tms <= x.1) C -> divided q tms [] [[A]] [] B C (A ++ B ++ C).
Proof.
  rewrite !Forall_forall. intros HA HB HC. split.
  - intros x L HL Hx. change (L ∈ [A]) in HL. apply list_elem_of_singleton in HL as ->. apply elem_of_app. by left.
  - intros x Hx. rewrite !elem_of_app. tauto.
  - intros x Hx. rewrite !elem_of_app. tauto.
  - intros x [_ Hx]%elem_of_in_range. rewrite !elem_of_app in Hx. destruct Hx as [Hx|[Hx|Hx]]; [|auto..].
    left. split; [by apply HA|]. exists A. split; [by apply list_elem_of_singleton|done].
Qed.

Lemma demo_divided : divided the_query demo_mem [] [[db_samples]] [] slab_part (head_samples demo_mem) demo_samples.
Proof.
  destruct demo_places as (Ep & El & Eh). rewrite <- Ep. apply divided_app; rewrite ?El, ?Eh;
    apply (bool_decide_eq_true_1 _); vm_compute; reflexivity.
Qed.

(** All forty samples, from the three places. *)
Lemma query_returns_range_witness :
  exists it, series_iterator the_query demo_head demo_store (7, 7) 1 1 = Some (reconstruct_labels demo_head 1 1 [], it, scanned_store) /\
    expand 100 it = Some demo_samples.
Proof.
  assert (E : in_range (q_min the_query) (q_max the_query) demo_samples = demo_samples) by (vm_compute; reflexivity).
  assert (Ha : ascending demo_samples) by (apply ascending_b_spec; vm_compute; reflexivity).
  assert (Hl : (length demo_samples < 100)%nat) by (apply Nat.ltb_lt; vm_compute; reflexivity).
  pose proof (query_returns_range the_query demo_head demo_store 1 1 demo_mem [] [[db_samples]] [] slab_part (head_samples demo_mem)
    scanned_store (7, 7) demo_samples 100 demo_state Ha demo_divided Hl) as Hx.
  rewrite E in Hx. exact Hx.
Defined.

(** A chunk of a store, asked for a range between two of its samples. *)
Definition demo_tree : gmap (list Z) SlabRef :=
  <[EnCodeKey [] 1 1 3710851743744000 := MemRef 0]> {[ EnCodeKey [] 1 1 21641687369515008 := MemRef 0 ]}.

Lemma demo_tree_keys k v : demo_tree !! k = Some v ->
  exists t, (t = 3710851743744000 \/ t = 21641687369515008) /\ k = EnCodeKey [] 1 1 t.
Proof.
  unfold demo_tree. rewrite lookup_insert_Some, lookup_singleton_Some. intros [[<- _]|[_ [<- _]]]; eexists; (split; [|reflexivity]); auto.
Qed.

Lemma demo_store_tree : mass_tree_ demo_store = demo_tree.
Proof. vm_compute. reflexivity. Qed.

(** The slab holds eleven samples after [4e15] and up to [2e16]; the query
    finds none. *)
Lemma narrow_query_misses_witness :
  (exists it, tree_series_iterator demo_store 4000000000000000 20000000000000000 1 1 = Some (it, demo_store) /\ expand 1 it = Some []) /\
  length (in_range 4000000000000000 20000000000000000 slab_part) = 11%nat.
Proof.
  split; [|vm_compute; reflexivity]. apply narrow_query_misses.
  - done.
  - done.
  - done.
  - done.
  - intros k v Hk. rewrite demo_store_tree in Hk. destruct (demo_tree_keys k v Hk) as (t & Ht & ->). exists 1, 1, t.
    split; [done|]. split; [done|]. split; [unfold is_u; lia|done].
  - intros t Ht. unfold SearchMT, get_value. rewrite demo_store_tree. destruct (demo_tree !! EnCodeKey [] 1 1 t) as [v|] eqn:E; [|done].
    destruct (demo_tree_keys _ _ E) as (t' & Ht' & Ek).
    apply EnCodeKey_inj in Ek as (_ & _ & ->); [lia|done|done|unfold is_u; lia|done|done|unfold is_u; lia].
Defined.

(** The series of a query: the metric and the host; a host without a metric
    selects ids but returns no series, and a metric alone selects no ids. *)
Definition index_head : option SelectDemo.Head := '(_, h) ← creates SelectDemo.no_head 0 HeadDemo.demo_sets; Some h.

Example demo_series_sets :
  (h ← index_head; '(s, h) ← query_select h [EqualMatcher metric_name [1]; EqualMatcher [104] [2]]; set_expand 9 h s) = Some [Some (2, 1)] /\
  (h ← index_head; '(s, h) ← query_select h [EqualMatcher metric_name [1]]; set_expand 9 h s) = Some [] /\
  (h ← index_head; '(s, h) ← query_select h [EqualMatcher [104] [2]]; set_expand 9 h s) = Some [].
Proof. vm_compute. done. Qed.

(** A query for a metric nobody wrote allocates an id for it. *)
Example query_creates_metric :
  (last_metric_id_ <$> index_head) = Some 2 /\
  (h ← index_head; '(s, h) ← query_select h [EqualMatcher metric_name [9]]; Some (last_metric_id_ h, ss_mid s)) = Some (3, 0).
Proof. vm_compute. done. Qed.

End QueryDemo.
