(* ===== verification/IndexFile.v ===== *)
(** index/IndexWriter and index/IndexReader: the index file of a block.

    The writer appends an entry per series, aligned to 16 bytes, and, when it is
    closed, a footer with the ids and the offsets of the entries and a table of
    contents that points to the footer.  The reader finds a series by binary
    search in the footer.  The file is a list of bytes; [crc32] is boost's
    checksum (class [Crc]).  Chunk metas are read without their chunks
    ([ChunkRef]); a null pointer from [range] is a buffer with nothing in it. *)
From Stdlib Require Import ZArith Lia Bool Sorting.Sorted.
From stdpp Require Import base list numbers option sorting.
From S2P Require Import Prelude Endian Record Tombstone.

(** ** Data *)

Definition MAGIC_INDEX : Z := 429262100.
Definition INDEX_VERSION_V1 : Z := 1.

(** A chunk meta without its chunk. *)
Record ChunkRef := mkChunkRef { cr_ref : Z; cr_min : Z; cr_max : Z }.

Record IndexWriter := mkIW {
  iw_file : list Z;
  iw_pos : Z;
  buf1_ : EncBuf;
  buf2_ : EncBuf;
  ids_ : list Z;
  offsets_ : list Z;
  footer_offset_ : Z }.

(** [len_] is never -1 here: the file was opened. *)
Definition mm_len (b : list Z) : Z := Z.of_nat (length b).

(** [MMapSlice::range]: the bytes from the pointer on, and the size. *)
Definition mm_range (b : list Z) (begin_ end_ : Z) : list Z * Z :=
  if end_ <=? begin_ then ([], 0)
  else
    let begin_ := if begin_ <? 0 then 0 else begin_ in
    let end_ := if mm_len b <? end_ then mm_len b else end_ in
    (drop (Z.to_nat begin_) b, end_ - begin_).

(** ** The writer *)

Section Writer.
Context `{CR : Crc}.

Definition iw_write (w : IndexWriter) (v : list Z) (len : Z) : IndexWriter :=
  mkIW (iw_file w ++ take (Z.to_nat len) v) (u64 (iw_pos w + len)) (buf1_ w) (buf2_ w) (ids_ w) (offsets_ w) (footer_offset_ w).

Definition set_bufs (w : IndexWriter) (b1 b2 : EncBuf) : IndexWriter :=
  mkIW (iw_file w) (iw_pos w) b1 b2 (ids_ w) (offsets_ w) (footer_offset_ w).

Definition write_meta (w : IndexWriter) : IndexWriter :=
  let b1 := put_byte (put_BE_uint32 (eb_reset (buf1_ w)) MAGIC_INDEX) INDEX_VERSION_V1 in
  iw_write (set_bufs w b1 (buf2_ w)) (eb_b b1) (eb_len b1).

Definition index_writer : IndexWriter := write_meta (mkIW [] 0 enc_buf enc_buf [] [] 0).

Definition add_padding (w : IndexWriter) (padding : Z) : IndexWriter :=
  let p := iw_pos w mod padding in
  if negb (p =? 0) then
    mkIW (iw_file w ++ replicate (Z.to_nat (padding - p)) 0) (u64 (iw_pos w + (padding - p))) (buf1_ w) (buf2_ w) (ids_ w) (offsets_ w)
      (footer_offset_ w)
  else w.

Fixpoint put_later (e : EncBuf) (last_t last_ref : Z) (chunks : list ChunkRef) : EncBuf :=
  match chunks with
  | [] => e
  | c :: chunks =>
    let e := put_unsigned_variant e (u64 (cr_min c - last_t)) in
    let e := put_unsigned_variant e (u64 (cr_max c - cr_min c)) in
    let e := put_signed_variant e (s64 (cr_ref c - last_ref)) in
    put_later e (cr_max c) (cr_ref c) chunks
  end.

Definition put_chunks (e : EncBuf) (chunks : list ChunkRef) : EncBuf :=
  match chunks with
  | [] => e
  | c :: chunks =>
    let e := put_signed_variant e (cr_min c) in
    let e := put_unsigned_variant e (u64 (cr_max c - cr_min c)) in
    let e := put_unsigned_variant e (cr_ref c) in
    put_later e (cr_max c) (cr_ref c) chunks
  end.

Definition add_series (w : IndexWriter) (ref : Z) (chunks : list ChunkRef) : IndexWriter :=
  let w := add_padding w 16 in
  let b2 := put_chunks (put_unsigned_variant (eb_reset (buf2_ w)) (Z.of_nat (length chunks))) chunks in
  let b1 := put_unsigned_variant (eb_reset (buf1_ w)) (eb_len b2) in
  let b2 := put_BE_uint32 b2 (crc32 (eb_out b2)) in
  let w := mkIW (iw_file w) (iw_pos w) b1 b2 (ids_ w ++ [ref]) (offsets_ w ++ [iw_pos w]) (footer_offset_ w) in
  iw_write (iw_write w (eb_b b1) (eb_len b1)) (eb_b b2) (eb_len b2).

Definition put_id (e : EncBuf) (p : Z * Z) : EncBuf := put_BE_uint64 (put_BE_uint64 e p.1) p.2.

Definition write_ids (w : IndexWriter) : IndexWriter :=
  let b1 := foldl put_id (eb_reset (buf1_ w)) (zip (ids_ w) (offsets_ w)) in
  let b1 := put_BE_uint32 b1 (crc32 (eb_out b1)) in
  iw_write (mkIW (iw_file w) (iw_pos w) b1 (buf2_ w) (ids_ w) (offsets_ w) (iw_pos w)) (eb_b b1) (eb_len b1).

Definition write_TOC (w : IndexWriter) : IndexWriter :=
  let b1 := put_BE_uint64 (eb_reset (buf1_ w)) (footer_offset_ w) in
  let b1 := put_BE_uint32 b1 (crc32 (eb_out b1)) in
  iw_write (set_bufs w b1 (buf2_ w)) (eb_b b1) (eb_len b1).

(** [~IndexWriter] *)
Definition iw_close (w : IndexWriter) : list Z := iw_file (write_TOC (write_ids w)).

(** Series added one after the other. *)
Definition add_all (w : IndexWriter) (l : list (Z * list ChunkRef)) : IndexWriter :=
  foldl (fun w p => add_series w p.1 p.2) w l.

End Writer.

(** ** The reader *)

(** [ir_b] is [None] when [b] was reset, or never set. *)
Record IndexReader := mkIR {
  ir_b : option (list Z);
  ir_footer : list Z;
  ir_footer_size : Z;
  ir_err : bool }.

Section Reader.
Context `{PE : PastEnd} `{CR : Crc}.

Definition validate (b : list Z) : bool :=
  if mm_len b <? 4 then false
  else if negb (get_uint32_big_endian (mm_range b 0 4).1 0 =? MAGIC_INDEX) then false
  else if negb (peek (mm_range b 4 5).1 0 =? INDEX_VERSION_V1) then false
  else true.

Definition ir_init (b : list Z) : IndexReader :=
  let '(p, n) := mm_range b (mm_len b - 12) (mm_len b) in
  let crc1 := get_uint32_big_endian p (n - 4) in
  let crc2 := crc32 (take (Z.to_nat (n - 4)) p) in
  if negb (crc1 =? crc2) then mkIR None [] 0 true
  else
    let footer_offset := (get_BE_uint64 (dec_buf (take (Z.to_nat (n - 4)) p) (n - 4))).1 in
    mkIR (Some b) (mm_range b (s32 footer_offset) (mm_len b)).1 (u64 (mm_len b - footer_offset - 16)) false.

Definition index_reader (b : list Z) : IndexReader :=
  if negb (validate b) then mkIR None [] 0 true else ir_init b.

(** [while (count > 0)]: the offset in the footer. *)
Fixpoint ir_search (rounds : nat) (footer : list Z) (ref first count : Z) : option Z :=
  match rounds with
  | O => None
  | S rounds =>
    if 0 <? count then
      let step := count / 2 in
      let it := first + step * 16 in
      if get_uint64_big_endian footer it <? ref then ir_search rounds footer ref (it + 16) (count - (step + 1))
      else ir_search rounds footer ref first step
    else Some first
  end.

(** The loop over the chunks after the first: whether it came to its end. *)
Fixpoint get_later (n : nat) (last_t delta_t last_ref : Z) (d : DecBuf) : bool * list ChunkRef :=
  match n with
  | O => (true, [])
  | S n =>
    let '(dt, d) := get_unsigned_variant d in
    let last_t := s64 (last_t + s64 (u64 (dt + delta_t))) in
    let '(delta_t, d) := get_unsigned_variant d in
    let '(dr, d) := get_signed_variant d in
    let last_ref := s64 (last_ref + dr) in
    if failed d then (false, [])
    else
      let '(ok, l) := get_later n last_t delta_t last_ref d in
      (ok, mkChunkRef (u64 last_ref) last_t (s64 (s64 delta_t + last_t)) :: l)
  end.

Definition get_chunks (d : DecBuf) : bool * list ChunkRef :=
  let '(num_chunks, d) := get_unsigned_variant d in
  if num_chunks =? 0 then (true, [])
  else
    let '(last_t, d) := get_signed_variant d in
    let '(delta_t, d) := get_unsigned_variant d in
    let '(r, d) := get_unsigned_variant d in
    let last_ref := s64 r in
    if failed d then (false, [])
    else
      let '(ok, l) := get_later (Z.to_nat (num_chunks - 1)) last_t delta_t last_ref d in
      (ok, mkChunkRef (u64 last_ref) last_t (s64 (s64 delta_t + last_t)) :: l).

(** [None]: the length of the entry is not a varint, an exception. *)
Definition ir_series (r : IndexReader) (ref : Z) : option (bool * list ChunkRef) :=
  match ir_b r with
  | None => Some (false, [])
  | Some b =>
    let count := s32 (ir_footer_size r / 16) in
    first ← ir_search (S (Z.to_nat count)) (ir_footer r) ref 0 count;
    if (ir_footer_size r <=? first) || negb (get_uint64_big_endian (ir_footer r) first =? ref) then Some (false, [])
    else
      let series_off := get_uint64_big_endian (ir_footer r) (first + 8) in
      let start := (mm_range b (s32 series_off) (s32 (series_off + MAX_VARINT_LEN_64))).1 in
      '(len, decoded) ← decode_unsigned_varint start 0 MAX_VARINT_LEN_64;
      Some (get_chunks (dec_buf (take (Z.to_nat len) (drop (Z.to_nat decoded) start)) len))
  end.

Definition ir_size (r : IndexReader) : Z := match ir_b r with Some b => mm_len b | None => 0 end.

End Reader.

(** ** What is written *)

Definition later_rec (last_t last_ref : Z) (c : ChunkRef) : list Z :=
  encode_unsigned_varint (u64 (cr_min c - last_t)) ++ encode_unsigned_varint (u64 (cr_max c - cr_min c)) ++
  encode_signed_varint (s64 (cr_ref c - last_ref)).

Fixpoint later_recs (last_t last_ref : Z) (chunks : list ChunkRef) : list Z :=
  match chunks with
  | [] => []
  | c :: chunks => later_rec last_t last_ref c ++ later_recs (cr_max c) (cr_ref c) chunks
  end.

Definition chunks_rec (chunks : list ChunkRef) : list Z :=
  match chunks with
  | [] => []
  | c :: chunks =>
    encode_signed_varint (cr_min c) ++ encode_unsigned_varint (u64 (cr_max c - cr_min c)) ++ encode_unsigned_varint (cr_ref c) ++
    later_recs (cr_max c) (cr_ref c) chunks
  end.

Definition body (chunks : list ChunkRef) : list Z := encode_unsigned_varint (Z.of_nat (length chunks)) ++ chunks_rec chunks.

Definition ref_ok (c : ChunkRef) : Prop := is_u64 (cr_ref c) /\ is_s64 (cr_min c) /\ is_s64 (cr_max c).

Lemma puts_nil : puts (fun e => e) [].
Proof. intros e He. by rewrite app_nil_r. Qed.

Lemma put_later_puts chunks : forall last_t last_ref, puts (fun e => put_later e last_t last_ref chunks) (later_recs last_t last_ref chunks).
Proof.
  induction chunks as [|c chunks IH]; intros last_t last_ref; [exact puts_nil|]. cbn [put_later later_recs]. unfold later_rec.
  rewrite <- !app_assoc.
  apply (puts_comp (fun e => put_unsigned_variant e _) (fun e => put_later (put_signed_variant (put_unsigned_variant e _) _) _ _ chunks));
    [apply put_unsigned_puts, wrap_range; lia|].
  apply (puts_comp (fun e => put_unsigned_variant e _) (fun e => put_later (put_signed_variant e _) _ _ chunks));
    [apply put_unsigned_puts, wrap_range; lia|].
  apply (puts_comp (fun e => put_signed_variant e _) (fun e => put_later e _ _ chunks)); [apply put_signed_puts|apply IH].
Qed.

Lemma put_chunks_puts chunks : Forall ref_ok chunks -> puts (fun e => put_chunks e chunks) (chunks_rec chunks).
Proof.
  intros Hc. destruct chunks as [|c chunks]; [exact puts_nil|]. apply Forall_cons in Hc as [(Hr & _) _]. cbn [put_chunks chunks_rec].
  apply (puts_comp (fun e => put_signed_variant e _) (fun e => put_later (put_unsigned_variant (put_unsigned_variant e _) _) _ _ chunks));
    [apply put_signed_puts|].
  apply (puts_comp (fun e => put_unsigned_variant e _) (fun e => put_later (put_unsigned_variant e _) _ _ chunks));
    [apply put_unsigned_puts, wrap_range; lia|].
  apply (puts_comp (fun e => put_unsigned_variant e _) (fun e => put_later e _ _ chunks)); [by apply put_unsigned_puts|].
  apply put_later_puts.
Qed.

Lemma eb_reset_ok e : eb_ok e -> eb_ok (eb_reset e) /\ eb_out (eb_reset e) = [].
Proof. intros [H1 H2]. split; [|done]. unfold eb_ok, eb_reset, eb_size in *. simpl. lia. Qed.

(** Writing a buffer. *)
Lemma iw_write_file w e : eb_ok e -> iw_file (iw_write w (eb_b e) (eb_len e)) = iw_file w ++ eb_out e.
Proof. done. Qed.

(** A buffer that was reset, and filled by [f]. *)
Lemma reset_puts f bytes e : puts f bytes -> eb_ok e ->
  eb_ok (f (eb_reset e)) /\ eb_out (f (eb_reset e)) = bytes /\ eb_len (f (eb_reset e)) = Z.of_nat (length bytes).
Proof.
  intros Hf He. destruct (eb_reset_ok e He) as [H1 H2]. destruct (Hf _ H1) as [H3 H4]. rewrite H2 in H4. simpl in H4.
  split_and!; [done|done|]. rewrite <- H4. symmetry. by apply length_eb_out.
Qed.

Section Layout.
Context `{PE : PastEnd} `{CR : Crc}.

(** The checksum is a number of 32 bits. *)
Hypothesis crc_u32 : forall b, is_u 32 (crc32 b).

Definition entry (chunks : list ChunkRef) : list Z :=
  encode_unsigned_varint (Z.of_nat (length (body chunks))) ++ body chunks ++ be_bytes 4 (crc32 (body chunks)).

Definition index_header : list Z := be_bytes 4 MAGIC_INDEX ++ [INDEX_VERSION_V1].

Definition entry_at (f : list Z) (off : Z) (chunks : list ChunkRef) : Prop :=
  exists pre post, f = pre ++ entry chunks ++ post /\ Z.of_nat (length pre) = off.

(** The writer holds the series [l]. *)
Record holding_index (w : IndexWriter) (l : list (Z * list ChunkRef)) : Prop := {
  hi_pos : iw_pos w = Z.of_nat (length (iw_file w));
  hi_header : exists rest, iw_file w = index_header ++ rest;
  hi_ids : ids_ w = map fst l;
  hi_entries : Forall2 (fun off p => entry_at (iw_file w) off p.2) (offsets_ w) l;
  hi_buf1 : eb_ok (buf1_ w);
  hi_buf2 : eb_ok (buf2_ w) }.

Lemma entry_at_app f off chunks more : entry_at f off chunks -> entry_at (f ++ more) off chunks.
Proof. intros (pre & post & -> & E). exists pre, (post ++ more). by rewrite <- !app_assoc. Qed.

Lemma new_holding : holding_index index_writer [] /\ length (iw_file index_writer) = 5%nat.
Proof. split; [|reflexivity]. split; try done. by exists []. Qed.

Lemma padding_file w padding : 0 < padding -> exists n, iw_file (add_padding w padding) = iw_file w ++ replicate n 0.
Proof.
  intros Hp. unfold add_padding. destruct (iw_pos w mod padding =? 0); simpl; [exists O; by rewrite app_nil_r|by eexists].
Qed.

Lemma padding_holding w l padding : 0 < padding -> holding_index w l ->
  Z.of_nat (length (iw_file (add_padding w padding))) < 2 ^ 63 -> holding_index (add_padding w padding) l.
Proof.
  intros Hp [H1 (rest & H2) H3 H4 H5 H6] Hs. unfold add_padding in *. destruct (Z.eqb_spec (iw_pos w mod padding) 0) as [E|E]; cbn [negb] in *.
  { split; try done. by exists rest. }
  pose proof (Z.mod_pos_bound (iw_pos w) padding Hp). cbn [iw_file iw_pos ids_ offsets_ buf1_ buf2_] in *. split; cbn [iw_file iw_pos ids_ offsets_ buf1_ buf2_]; try done.
  - rewrite length_app, length_replicate in *. unfold u64. rewrite wrap_id by (unfold is_u; lia). lia.
  - exists (rest ++ replicate (Z.to_nat (padding - iw_pos w mod padding)) 0). by rewrite H2, <- app_assoc.
  - eapply Forall2_impl; [exact H4|]. intros off p Hx. by apply entry_at_app.
Qed.

(** The buffers of an entry. *)
Lemma entry_bufs w chunks : eb_ok (buf1_ w) -> eb_ok (buf2_ w) -> Forall ref_ok chunks -> Z.of_nat (length chunks) < 2 ^ 63 ->
  Z.of_nat (length (body chunks)) < 2 ^ 63 ->
  let b2 := put_chunks (put_unsigned_variant (eb_reset (buf2_ w)) (Z.of_nat (length chunks))) chunks in
  let b1 := put_unsigned_variant (eb_reset (buf1_ w)) (eb_len b2) in
  let b2 := put_BE_uint32 b2 (crc32 (eb_out b2)) in
  eb_ok b1 /\ eb_ok b2 /\ eb_out b1 ++ eb_out b2 = entry chunks.
Proof.
  intros H1 H2 Hc Hn Hb. cbv zeta.
  destruct (reset_puts (fun e => put_chunks (put_unsigned_variant e (Z.of_nat (length chunks))) chunks) (body chunks) (buf2_ w)) as (B1 & B2 & B3);
    [|done|].
  { apply (puts_comp (fun e => put_unsigned_variant e _) (fun e => put_chunks e chunks)); [apply put_unsigned_puts; unfold is_u; lia|by apply put_chunks_puts]. }
  rewrite B2, B3. destruct (put_BE_uint32_puts (crc32 (body chunks)) _ B1) as [B4 B5]. rewrite B2 in B5.
  destruct (reset_puts (fun e => put_unsigned_variant e (Z.of_nat (length (body chunks)))) _ (buf1_ w)
    (put_unsigned_puts (Z.of_nat (length (body chunks))) ltac:(unfold is_u; lia))) as (B6 & B7 & _); [done|].
  split_and!; [done|done|]. by rewrite B7, B5.
Qed.

Lemma add_series_file w l ref chunks :
  holding_index w l -> Forall ref_ok chunks -> Z.of_nat (length chunks) < 2 ^ 63 -> Z.of_nat (length (body chunks)) < 2 ^ 63 ->
  iw_file (add_series w ref chunks) = iw_file (add_padding w 16) ++ entry chunks.
Proof.
  intros [H1 H2 H3 H4 H5 H6] Hc Hn Hb. set (w1 := add_padding w 16).
  assert (Hbuf : buf1_ w1 = buf1_ w /\ buf2_ w1 = buf2_ w) by (unfold w1, add_padding; by case_match). destruct Hbuf as [E1 E2].
  destruct (entry_bufs w1 chunks) as (B1 & B2 & B3); rewrite ?E1, ?E2; try done.
  unfold add_series. fold w1. rewrite iw_write_file by done. rewrite iw_write_file by done. cbn [iw_file]. by rewrite <- app_assoc, B3.
Qed.

Lemma add_series_holding w l ref chunks :
  holding_index w l -> Forall ref_ok chunks -> Z.of_nat (length chunks) < 2 ^ 63 -> Z.of_nat (length (body chunks)) < 2 ^ 63 ->
  Z.of_nat (length (iw_file (add_series w ref chunks))) < 2 ^ 63 ->
  holding_index (add_series w ref chunks) (l ++ [(ref, chunks)]).
Proof.
  intros Hw Hc Hn Hb Hs. pose proof (add_series_file w l ref chunks Hw Hc Hn Hb) as Ef.
  assert (Hs1 : Z.of_nat (length (iw_file (add_padding w 16))) < 2 ^ 63) by (rewrite Ef, length_app in Hs; lia).
  destruct (padding_holding w l 16 ltac:(lia) Hw Hs1) as [H1 (rest & H2) H3 H4 H5 H6]. set (w1 := add_padding w 16) in *.
  destruct (entry_bufs w1 chunks H5 H6 Hc Hn Hb) as (B1 & B2 & B3). cbv zeta in B1, B2, B3.
  set (b1 := put_unsigned_variant (eb_reset (buf1_ w1)) _) in *. set (b2 := put_BE_uint32 _ _) in *.
  assert (Hlen : Z.of_nat (length (entry chunks)) = eb_len b1 + eb_len b2).
  { rewrite <- B3, length_app, Nat2Z.inj_add. unfold eb_len. by rewrite <- !length_eb_out. }
  assert (Hp1 : 0 <= eb_len b1) by (unfold eb_ok, eb_len in *; lia). assert (Hp2 : 0 <= eb_len b2) by (unfold eb_ok, eb_len in *; lia).
  split; try done.
  - change (iw_pos (add_series w ref chunks)) with (u64 (u64 (iw_pos w1 + eb_len b1) + eb_len b2)). rewrite Ef in Hs |- *.
    rewrite H1, length_app in *. unfold u64. rewrite !wrap_id by (unfold is_u; rewrite ?wrap_id by (unfold is_u; lia); lia). lia.
  - exists (rest ++ entry chunks). by rewrite Ef, H2, <- app_assoc.
  - change (ids_ (add_series w ref chunks)) with (ids_ w1 ++ [ref]). by rewrite H3, map_app.
  - change (offsets_ (add_series w ref chunks)) with (offsets_ w1 ++ [iw_pos w1]). rewrite Ef. apply Forall2_app.
    + eapply Forall2_impl; [exact H4|]. intros off p Hx. by apply entry_at_app.
    + constructor; [|constructor]. exists (iw_file w1), []. by rewrite app_nil_r.
Qed.

(** Series that can be written: an entry is shorter than 2 GB. *)
Definition series_fit (p : Z * list ChunkRef) : Prop :=
  is_u64 p.1 /\ Forall ref_ok p.2 /\ Z.of_nat (length (body p.2)) < 2 ^ 31.

Lemma body_length chunks : (length chunks <= length (body chunks))%nat.
Proof.
  assert (Hne : forall v, (1 <= length (encode_unsigned_varint (u64 v)))%nat).
  { intros v. pose proof (encode_unsigned_nonempty (u64 v) ltac:(apply wrap_range; lia)). destruct (encode_unsigned_varint (u64 v)); [done|simpl; lia]. }
  assert (Hl : forall l t r, (length l <= length (later_recs t r l))%nat).
  { induction l as [|c l IH]; intros t r; [simpl; lia|]. cbn [later_recs length]. unfold later_rec. rewrite !length_app.
    pose proof (IH (cr_max c) (cr_ref c)). pose proof (Hne (cr_min c - t)). lia. }
  destruct chunks as [|c chunks]; [simpl; lia|]. unfold body. cbn [chunks_rec]. rewrite !length_app. pose proof (Hl chunks (cr_max c) (cr_ref c)).
  pose proof (Hne (cr_max c - cr_min c)). simpl length at 1. lia.
Qed.

Lemma add_series_grows w ref chunks : exists more, iw_file (add_series w ref chunks) = iw_file w ++ more.
Proof.
  destruct (padding_file w 16 ltac:(lia)) as (n & E). unfold add_series, iw_write. cbn [iw_file]. rewrite E, <- !app_assoc. by eexists.
Qed.

Lemma add_all_grows l : forall w, exists more, iw_file (add_all w l) = iw_file w ++ more.
Proof.
  induction l as [|p l IH]; intros w; [exists []; by rewrite app_nil_r|]. cbn [add_all foldl]. change (foldl _ ?x l) with (add_all x l).
  destruct (IH (add_series w p.1 p.2)) as (m & ->). destruct (add_series_grows w p.1 p.2) as (m' & ->). exists (m' ++ m). by rewrite app_assoc.
Qed.

Lemma add_all_holding l : forall w before, holding_index w before -> Forall series_fit l ->
  Z.of_nat (length (iw_file (add_all w l))) < 2 ^ 63 -> holding_index (add_all w l) (before ++ l).
Proof.
  induction l as [|[id cs] l IH]; intros w before Hw Hl Hs; [by rewrite app_nil_r|]. apply Forall_cons in Hl as [(Hid & Hc & Hb) Hl].
  cbn [add_all foldl fst snd] in *. change (foldl _ ?x l) with (add_all x l) in *.
  pose proof (body_length cs). destruct (add_all_grows l (add_series w id cs)) as (m & E). cbn [fst snd] in *.
  assert (Hw' : holding_index (add_series w id cs) (before ++ [(id, cs)])).
  { apply add_series_holding; try done; try lia. rewrite E, length_app in Hs. lia. }
  specialize (IH _ _ Hw' Hl Hs). by rewrite <- app_assoc in IH.
Qed.

(** ** What is read back *)

Definition id_rec (p : Z * Z) : list Z := be_bytes 8 p.1 ++ be_bytes 8 p.2.

Definition footer (w : IndexWriter) : list Z := zip (ids_ w) (offsets_ w) ≫= id_rec.

Definition toc (w : IndexWriter) : list Z := be_bytes 8 (iw_pos w) ++ be_bytes 4 (crc32 (be_bytes 8 (iw_pos w))).

Lemma close_file w l : holding_index w l -> iw_close w = iw_file w ++ footer w ++ be_bytes 4 (crc32 (footer w)) ++ toc w.
Proof.
  intros [H1 H2 H3 H4 H5 H6]. unfold iw_close, write_TOC, write_ids.
  destruct (reset_puts (fun e => foldl put_id e (zip (ids_ w) (offsets_ w))) (footer w) (buf1_ w)) as (B1 & B2 & B3); [|done|].
  { apply puts_foldl. intros p _. apply (puts_comp (fun e => put_BE_uint64 e p.1) (fun e => put_BE_uint64 e p.2)); apply put_BE_uint64_puts. }
  destruct (put_BE_uint32_puts (crc32 (footer w)) _ B1) as [B4 B5]. rewrite B2 in B5. rewrite B2.
  set (b1 := put_BE_uint32 _ (crc32 (footer w))) in *. cbn [buf1_ iw_write footer_offset_].
  destruct (reset_puts (fun e => put_BE_uint64 e (iw_pos w)) _ b1 (put_BE_uint64_puts (iw_pos w)) B4) as (C1 & C2 & C3).
  rewrite C2. destruct (put_BE_uint32_puts (crc32 (be_bytes 8 (iw_pos w))) _ C1) as [C4 C5]. rewrite C2 in C5.
  rewrite iw_write_file by done. cbn [set_bufs iw_file]. change (iw_file (iw_write ?w ?v ?n)) with (iw_file w ++ take (Z.to_nat n) v).
  cbn [iw_file]. change (take (Z.to_nat (eb_len b1)) (eb_b b1)) with (eb_out b1). rewrite B5, C5. unfold toc. by rewrite <- !app_assoc.
Qed.

Lemma u64_ex z : exists k, u64 z = z + k * 2 ^ 64.
Proof. exists (- (z / 2 ^ 64)). unfold u64, wrap. pose proof (Z.div_mod z (2 ^ 64)). lia. Qed.

Lemma s64_of k y : is_s64 y -> s64 (y + k * 2 ^ 64) = y.
Proof.
  intros Hy. rewrite <- (s64_u64 (y + k * 2 ^ 64)). unfold u64, wrap. rewrite Z_mod_plus_full. by apply s64_u64_id.
Qed.

(** What the reader makes of the times and references of a chunk, given those
    of the chunk before it. *)
Lemma min_read prev_min prev_max t : is_s64 t ->
  s64 (prev_min + s64 (u64 (u64 (t - prev_max) + u64 (prev_max - prev_min)))) = t.
Proof.
  intros Ht. rewrite s64_u64. destruct (u64_ex (t - prev_max)) as [i ->]. destruct (u64_ex (prev_max - prev_min)) as [j ->].
  destruct (swrap_ex 64 (t - prev_max + i * 2 ^ 64 + (prev_max - prev_min + j * 2 ^ 64))) as [k Ek]. unfold s64 at 2. rewrite Ek.
  replace (prev_min + _) with (t + (i + j + k) * 2 ^ 64) by lia. by apply s64_of.
Qed.

Lemma max_read tmin tmax : is_s64 tmax -> s64 (s64 (u64 (tmax - tmin)) + tmin) = tmax.
Proof. intros Ht. rewrite s64_u64, Z.add_comm. by apply delta_s64. Qed.

Lemma ref_read prev r : s64 (s64 prev + s64 (r - prev)) = s64 r.
Proof.
  apply (is_s_inj 64); [done|by apply swrap_range|by apply swrap_range|]. unfold s64. rewrite !wrap_swrap by done.
  destruct (swrap_ex 64 prev) as [i ->]. destruct (swrap_ex 64 (r - prev)) as [j ->].
  replace (prev + i * 2 ^ 64 + (r - prev + j * 2 ^ 64)) with (r + (i + j) * 2 ^ 64) by lia. unfold wrap. apply Z_mod_plus_full.
Qed.

Lemma u64_range z : is_u64 (u64 z).
Proof. apply wrap_range. lia. Qed.

Lemma get_later_reads cs : forall prev d rest, Forall ref_ok cs -> db_at d (later_recs (cr_max prev) (cr_ref prev) cs ++ rest) ->
  get_later (length cs) (cr_min prev) (u64 (cr_max prev - cr_min prev)) (s64 (cr_ref prev)) d = (true, cs).
Proof.
  induction cs as [|c cs IH]; intros prev d rest Hc Hd; [done|]. apply Forall_cons in Hc as [(Hr & Hmin & Hmax) Hc].
  cbn [later_recs length get_later] in *. unfold later_rec in Hd. rewrite <- !app_assoc in Hd.
  destruct (get_unsigned_takes _ (u64_range _) _ _ Hd) as (d1 & -> & Hd1).
  destruct (get_unsigned_takes _ (u64_range _) _ _ Hd1) as (d2 & -> & Hd2).
  destruct (get_signed_takes _ ltac:(by apply swrap_range) _ _ Hd2) as (d3 & -> & Hd3).
  rewrite (db_at_ok _ _ Hd3), min_read, ref_read, max_read by done. rewrite (IH c _ _ Hc Hd3). rewrite u64_s64.
  destruct c as [r mn mx]. cbn [cr_ref cr_min cr_max] in *. unfold u64. by rewrite wrap_id.
Qed.

Lemma get_chunks_reads cs d rest : Forall ref_ok cs -> Z.of_nat (length cs) < 2 ^ 63 -> db_at d (body cs ++ rest) -> get_chunks d = (true, cs).
Proof.
  intros Hc Hn Hd. unfold body in Hd. rewrite <- app_assoc in Hd. unfold get_chunks.
  destruct (get_unsigned_takes (Z.of_nat (length cs)) ltac:(unfold is_u; lia) _ _ Hd) as (d0 & -> & Hd0).
  destruct cs as [|c cs]; [done|]. apply Forall_cons in Hc as [(Hr & Hmin & Hmax) Hc]. cbn [chunks_rec] in Hd0. rewrite <- !app_assoc in Hd0.
  rewrite (proj2 (Z.eqb_neq _ _)) by (simpl length; lia).
  destruct (get_signed_takes _ Hmin _ _ Hd0) as (d1 & -> & Hd1).
  destruct (get_unsigned_takes _ (u64_range _) _ _ Hd1) as (d2 & -> & Hd2).
  destruct (get_unsigned_takes _ Hr _ _ Hd2) as (d3 & -> & Hd3). rewrite (db_at_ok _ _ Hd3).
  replace (Z.to_nat (Z.of_nat (length (c :: cs)) - 1)) with (length cs) by (simpl length; lia).
  rewrite (get_later_reads cs c _ _ Hc Hd3), max_read, u64_s64 by done. destruct c as [r mn mx]. cbn [cr_ref cr_min cr_max] in *. unfold u64. by rewrite wrap_id.
Qed.

(** The ids of the footer. *)
Lemma id_rec_length p : length (id_rec p) = 16%nat.
Proof. unfold id_rec. by rewrite length_app, !length_be_bytes. Qed.

Lemma footer_split (l : list (Z * Z)) i p : l !! i = Some p ->
  exists pre post, l ≫= id_rec = pre ++ id_rec p ++ post /\ length pre = (16 * i)%nat.
Proof.
  revert i. induction l as [|q l IH]; intros [|i] Hi; simplify_eq/=.
  - by exists [], (l ≫= id_rec).
  - destruct (IH i Hi) as (pre & post & -> & Hl). exists (id_rec q ++ pre), post. rewrite <- app_assoc. split; [done|].
    rewrite length_app, id_rec_length, Hl. lia.
Qed.

Lemma footer_read (l : list (Z * Z)) i p rest : l !! i = Some p -> is_u64 p.1 -> is_u64 p.2 ->
  get_uint64_big_endian ((l ≫= id_rec) ++ rest) (16 * Z.of_nat i) = p.1 /\
  get_uint64_big_endian ((l ≫= id_rec) ++ rest) (16 * Z.of_nat i + 8) = p.2.
Proof.
  intros Hi H1 H2. destruct (footer_split l i p Hi) as (pre & post & -> & Hl). unfold id_rec. rewrite <- !app_assoc. split.
  - replace (16 * Z.of_nat i) with (Z.of_nat (length pre)) by lia. rewrite get_uint64_spec. by apply wrap_id.
  - rewrite (app_assoc pre). replace (16 * Z.of_nat i + 8) with (Z.of_nat (length (pre ++ be_bytes 8 p.1))) by (rewrite length_app, length_be_bytes; lia).
    rewrite get_uint64_spec. by apply wrap_id.
Qed.

(** The first position whose id is not below [ref]. *)
Definition lower (l : list (Z * Z)) (ref : Z) (i : nat) : Prop :=
  Forall (fun p => p.1 < ref) (take i l) /\ Forall (fun p => ref <= p.1) (drop i l).

Lemma search_lower (l : list (Z * Z)) rest ref : StronglySorted (fun a b => a.1 < b.1) l -> Forall (fun p => is_u64 p.1 /\ is_u64 p.2) l ->
  forall rounds first count, (count < rounds)%nat -> (first + count <= length l)%nat ->
  Forall (fun p => p.1 < ref) (take first l) -> Forall (fun p => ref <= p.1) (drop (first + count) l) ->
  exists i, ir_search rounds ((l ≫= id_rec) ++ rest) ref (16 * Z.of_nat first) (Z.of_nat count) = Some (16 * Z.of_nat i) /\ lower l ref i /\
    (i <= length l)%nat.
Proof.
  intros Hs Hu. induction rounds as [|rounds IH]; intros first count Hr Hl Hlo Hhi; [lia|]. cbn [ir_search].
  destruct (Z.ltb_spec 0 (Z.of_nat count)) as [Hc|Hc].
  - set (step := (count / 2)%nat). assert (Est : Z.of_nat count / 2 = Z.of_nat step) by (unfold step; by rewrite Nat2Z.inj_div). rewrite Est.
    assert (Hst : (step < count)%nat) by (apply Nat.div_lt; lia).
    destruct (lookup_lt_is_Some_2 l (first + step)) as [p Hp]; [lia|].
    assert (Hpu : is_u64 p.1 /\ is_u64 p.2) by (rewrite Forall_forall in Hu; by eapply Hu, list_elem_of_lookup_2).
    replace (16 * Z.of_nat first + Z.of_nat step * 16) with (16 * Z.of_nat (first + step)) by lia.
    rewrite (proj1 (footer_read l _ p rest Hp (proj1 Hpu) (proj2 Hpu))). pose proof (take_drop_middle l (first + step) p Hp) as Em.
    rewrite <- Em in Hs. apply StronglySorted_app in Hs as (Hs1 & _ & Hs2). apply StronglySorted_inv in Hs2 as [_ Hs2].
    destruct (Z.ltb_spec p.1 ref) as [Hlt|Hge].
    + replace (16 * Z.of_nat (first + step) + 16) with (16 * Z.of_nat (first + step + 1)) by lia.
      replace (Z.of_nat count - (Z.of_nat step + 1)) with (Z.of_nat (count - step - 1)) by lia.
      apply IH; [lia|lia| |].
      * replace (first + step + 1)%nat with (S (first + step)) by lia. rewrite (take_S_r _ _ _ Hp). apply Forall_app. split; [|by constructor].
        apply Forall_forall. intros q Hq. assert (q.1 < p.1); [|lia]. apply Hs1; [done|]. by left.
      * by replace (first + step + 1 + (count - step - 1))%nat with (first + count)%nat by lia.
    + apply IH; [lia|lia|done|]. rewrite (drop_S _ _ _ Hp). constructor; [lia|]. eapply Forall_impl; [exact Hs2|]. intros q Hq. simpl in Hq. lia.
  - exists first. split; [done|]. split; [|lia]. split; [done|]. by replace (first + count)%nat with first in Hhi by lia.
Qed.

(** Opening a file of that shape. *)
Lemma index_reader_opens (f rest : list Z) (l : list (Z * Z)) (F : list Z) :
  F = f ++ (l ≫= id_rec) ++ be_bytes 4 (crc32 (l ≫= id_rec)) ++ be_bytes 8 (Z.of_nat (length f)) ++ be_bytes 4 (crc32 (be_bytes 8 (Z.of_nat (length f)))) ->
  f = index_header ++ rest -> mm_len F < 2 ^ 31 ->
  exists more, index_reader F = mkIR (Some F) ((l ≫= id_rec) ++ more) (16 * Z.of_nat (length l)) false.
Proof.
  intros EF Ef HN. set (pos := Z.of_nat (length f)) in *. set (toc := be_bytes 8 pos ++ be_bytes 4 (crc32 (be_bytes 8 pos))) in *.
  assert (Hk : length (l ≫= id_rec) = (16 * length l)%nat).
  { clear. induction l as [|p l IH]; [done|]. cbn [mbind list_bind]. rewrite length_app, id_rec_length, IH. simpl. lia. }
  assert (HL : mm_len F = pos + 16 * Z.of_nat (length l) + 16).
  { unfold mm_len. rewrite EF. unfold toc. rewrite !length_app, !length_be_bytes, Hk. unfold pos. lia. }
  assert (Hv : validate F = true).
  { unfold validate, mm_range. rewrite (proj2 (Z.ltb_ge _ 4)) by (unfold pos in HL; lia). change (4 <=? 0) with false. change (5 <=? 4) with false. change (0 <? 0) with false.
    change (4 <? 0) with false. cbn [fst negb]. change (drop (Z.to_nat 0) F) with F.
    assert (E1 : get_uint32_big_endian F 0 = MAGIC_INDEX).
    { rewrite EF, Ef. unfold index_header. rewrite <- !app_assoc. exact (get_uint32_spec [] _ MAGIC_INDEX). }
    rewrite E1, Z.eqb_refl. cbn [negb]. by rewrite EF, Ef. }
  unfold index_reader. rewrite Hv. cbn [negb]. unfold ir_init.
  assert (Hr1 : mm_range F (mm_len F - 12) (mm_len F) = (toc, 12)).
  { unfold mm_range. rewrite (proj2 (Z.leb_gt _ _)) by lia. rewrite (proj2 (Z.ltb_ge _ 0)) by (unfold pos in HL; lia). rewrite Z.ltb_irrefl. f_equal; [|lia].
    rewrite EF at 2. rewrite !app_assoc. apply drop_app_length'. rewrite HL, !length_app, !length_be_bytes, Hk. unfold pos. lia. }
  rewrite Hr1. change (12 - 4) with 8. assert (Ht : take (Z.to_nat 8) toc = be_bytes 8 pos) by (apply take_app_length'; by rewrite length_be_bytes).
  rewrite Ht. assert (Ec : get_uint32_big_endian toc 8 = crc32 (be_bytes 8 pos)).
  { unfold toc. rewrite <- (app_nil_r (be_bytes 4 (crc32 _))). change 8 with (Z.of_nat (length (be_bytes 8 pos))).
    rewrite get_uint32_spec. apply wrap_id, crc_u32. }
  rewrite Ec, Z.eqb_refl. cbn [negb].
  assert (Hpu : is_u64 pos) by (unfold is_u, pos in *; lia).
  assert (Hd : db_at (dec_buf (be_bytes 8 pos) 8) (be_bytes 8 pos ++ [])).
  { rewrite app_nil_r. change 8 with (Z.of_nat (length (be_bytes 8 pos))). apply dec_buf_at. rewrite length_be_bytes. lia. }
  destruct (get_BE_uint64_takes pos Hpu _ _ Hd) as (d' & -> & _). cbn [fst].
  exists (be_bytes 4 (crc32 (l ≫= id_rec)) ++ toc). f_equal.
  - unfold mm_range, s32. rewrite swrap_id by (done || (unfold is_s, pos in *; lia)). rewrite (proj2 (Z.leb_gt _ _)) by lia.
    rewrite (proj2 (Z.ltb_ge _ 0)) by (unfold pos; lia). cbn [fst]. rewrite EF. apply drop_app_length'. unfold pos. lia.
  - rewrite HL. unfold u64. rewrite wrap_id; [lia|]. unfold is_u. lia.
Qed.

(** Reading an entry. *)
Lemma entry_read F off cs : entry_at F off cs -> series_fit (0, cs) -> off + 16 <= mm_len F -> mm_len F < 2 ^ 31 ->
  ('(len, decoded) ← decode_unsigned_varint (mm_range F (s32 off) (s32 (off + MAX_VARINT_LEN_64))).1 0 MAX_VARINT_LEN_64;
   Some (get_chunks (dec_buf (take (Z.to_nat len) (drop (Z.to_nat decoded) (mm_range F (s32 off) (s32 (off + MAX_VARINT_LEN_64))).1)) len)))
  = Some (true, cs).
Proof.
  intros (pre & post & EF & Ho) (_ & Hc & Hb) H1 H2. cbn [snd] in *. pose proof (body_length cs) as Hbl.
  assert (Er : (mm_range F (s32 off) (s32 (off + MAX_VARINT_LEN_64))).1 = entry cs ++ post).
  { unfold mm_range, s32, MAX_VARINT_LEN_64. rewrite !swrap_id by (done || (unfold is_s; lia)).
    rewrite (proj2 (Z.leb_gt _ _)) by lia. rewrite (proj2 (Z.ltb_ge _ 0)) by lia. cbn [fst]. rewrite EF. apply drop_app_length'. lia. }
  rewrite Er. unfold entry. rewrite <- app_assoc. set (n := Z.of_nat (length (body cs))) in *.
  assert (Hn : is_u64 n) by (unfold is_u, n in *; lia).
  rewrite (decode_encode_unsigned n [] _ MAX_VARINT_LEN_64 Hn (encode_unsigned_length n Hn) :
    decode_unsigned_varint (encode_unsigned_varint n ++ _) 0 MAX_VARINT_LEN_64 = _). cbn [mbind option_bind].
  rewrite Nat2Z.id, drop_app_length, <- app_assoc. unfold n at 1. rewrite Nat2Z.id, take_app_length. f_equal.
  apply (get_chunks_reads cs _ []); [done|lia|]. rewrite app_nil_r. apply dec_buf_at. lia.
Qed.

Lemma lower_at (l : list (Z * Z)) ref i j p : StronglySorted (fun a b => a.1 < b.1) l -> lower l ref i -> l !! j = Some p -> p.1 = ref -> i = j.
Proof.
  intros Hs [Hlo Hhi] Hj E. destruct (decide (j < i)%nat) as [Hji|Hji].
  - rewrite Forall_forall in Hlo. assert (p.1 < ref); [|lia]. apply Hlo. apply list_elem_of_lookup. exists j. by rewrite lookup_take_lt.
  - destruct (decide (i = j)) as [|Hne]; [done|]. destruct (lookup_lt_is_Some_2 l i) as [q Hq]; [apply lookup_lt_Some in Hj; lia|].
    assert (Hqr : ref <= q.1).
    { rewrite Forall_forall in Hhi. apply Hhi. rewrite (drop_S _ _ _ Hq). by left. }
    rewrite <- (take_drop_middle l i q Hq) in Hs. apply StronglySorted_app in Hs as (_ & _ & Hs). apply StronglySorted_inv in Hs as [_ Hs].
    rewrite Forall_forall in Hs. assert (q.1 < p.1); [|lia]. apply Hs. apply list_elem_of_lookup. exists (j - S i)%nat.
    rewrite lookup_drop. by replace (S i + (j - S i))%nat with j by lia.
Qed.

(** The ids and offsets of the footer, in the order of the series. *)
Lemma holding_zip w l : holding_index w l -> Forall series_fit l -> StronglySorted (fun a b => a.1 < b.1) l ->
  mm_len (iw_file w) < 2 ^ 31 ->
  let zl := zip (ids_ w) (offsets_ w) in
  length zl = length l /\ StronglySorted (fun a b => a.1 < b.1) zl /\ Forall (fun p => is_u64 p.1 /\ is_u64 p.2) zl /\
  (forall j id cs, l !! j = Some (id, cs) -> exists off, zl !! j = Some (id, off) /\ entry_at (iw_file w) off cs) /\
  (forall p, p ∈ zl -> p.1 ∈ map fst l).
Proof.
  intros [_ _ H3 H4 _ _] Hfit Hs HN. rewrite H3. clear H3. cbv zeta. revert H4. generalize (offsets_ w) as offs.
  induction l as [|[id cs] l IH]; intros offs H4.
  { apply Forall2_nil_inv_r in H4 as ->. cbn [map zip zip_with]. split; [done|]. split; [apply SSorted_nil|]. split; [done|].
    split; [intros j id cs Hj; by destruct j|by intros p ?%elem_of_nil]. }
  apply Forall2_cons_inv_r in H4 as (off & offs' & Ho & H4 & ->). apply Forall_cons in Hfit as [(Hid & _) Hfit].
  apply StronglySorted_inv in Hs as [Hs Hlt]. destruct (IH Hfit Hs offs' H4) as (I1 & I2 & I3 & I4 & I5). cbn [map zip zip_with fst snd] in *.
  change (zip_with pair (map fst l) offs') with (zip (map fst l) offs') in *. split_and!.
  - simpl. by f_equal.
  - constructor; [done|]. apply Forall_forall. intros p Hp. specialize (I5 p Hp). apply list_elem_of_fmap in I5 as (q & -> & Hq).
    rewrite Forall_forall in Hlt. exact (Hlt q Hq).
  - constructor; [|done]. split; [done|]. destruct Ho as (pre & post & E & <-). unfold mm_len in HN. cbn [snd]. rewrite E, length_app in HN. unfold is_u. lia.
  - intros [|j] id' cs' Hj; simplify_eq/=; [by exists off|]. exact (I4 j id' cs' Hj).
  - intros p Hp. apply elem_of_cons in Hp as [->|Hp]; [by left|right; by apply I5].
Qed.

Lemma ir_series_spec w l : holding_index w l -> Forall series_fit l -> StronglySorted (fun a b => a.1 < b.1) l ->
  mm_len (iw_close w) < 2 ^ 31 ->
  exists r, index_reader (iw_close w) = r /\ ir_err r = false /\ ir_size r = mm_len (iw_close w) /\
    (forall id cs, (id, cs) ∈ l -> ir_series r id = Some (true, cs)) /\
    (forall id, id ∉ map fst l -> ir_series r id = Some (false, [])).
Proof.
  intros Hw Hfit Hs HN. pose proof (close_file w l Hw) as EF. destruct (hi_header _ _ Hw) as (rest & Ef). pose proof (hi_pos _ _ Hw) as Hp.
  set (F := iw_close w) in *. unfold toc, footer in EF. rewrite Hp in EF.
  destruct (index_reader_opens (iw_file w) rest _ F EF Ef HN) as (more & Er).
  assert (HL : mm_len (iw_file w) + 16 <= mm_len F).
  { unfold mm_len. rewrite EF, !length_app, !length_be_bytes. lia. }
  destruct (holding_zip w l Hw Hfit Hs ltac:(lia)) as (Z1 & Z2 & Z3 & Z4 & Z5). set (zl := zip (ids_ w) (offsets_ w)) in *.
  assert (HLz : 16 * Z.of_nat (length zl) <= mm_len F).
  { unfold mm_len. rewrite EF, !length_app. assert (length (zl ≫= id_rec) = (16 * length zl)%nat); [|lia].
    clear. induction zl as [|p zl IH]; [done|]. cbn [mbind list_bind]. rewrite length_app, id_rec_length, IH. simpl. lia. }
  assert (Hc : s32 (16 * Z.of_nat (length zl) / 16) = Z.of_nat (length zl)).
  { rewrite Z.mul_comm, Z_div_mult by lia. unfold s32. apply swrap_id; [done|]. unfold is_s. lia. }
  assert (Hsearch : forall id, exists i, ir_search (S (length zl)) ((zl ≫= id_rec) ++ more) id 0 (Z.of_nat (length zl)) = Some (16 * Z.of_nat i) /\
    lower zl id i /\ (i <= length zl)%nat).
  { intros id. apply (search_lower zl more id Z2 Z3 (S (length zl)) 0 (length zl)); [lia|lia|constructor|]. rewrite drop_ge by (simpl; lia). constructor. }
  exists (mkIR (Some F) ((zl ≫= id_rec) ++ more) (16 * Z.of_nat (length zl)) false). split_and!; [done|done|done| |].
  - intros id cs Hin. apply list_elem_of_lookup in Hin as (j & Hj). destruct (Z4 j id cs Hj) as (off & Hzj & Hent).
    assert (Hfit' : series_fit (id, cs)) by (rewrite Forall_forall in Hfit; by eapply Hfit, list_elem_of_lookup_2).
    assert (Hu : is_u64 id /\ is_u64 off) by (rewrite Forall_forall in Z3; exact (Z3 _ (list_elem_of_lookup_2 _ _ _ Hzj))). destruct Hu as [Hu1 Hu2].
    unfold ir_series. cbn [ir_b ir_footer ir_footer_size]. rewrite Hc, Nat2Z.id. destruct (Hsearch id) as (i & -> & Hlow & Hi). cbn [mbind option_bind].
    rewrite (lower_at zl id i j (id, off) Z2 Hlow Hzj eq_refl) in *. pose proof (lookup_lt_Some _ _ _ Hzj) as Hlt.
    destruct (footer_read zl j (id, off) more Hzj Hu1 Hu2) as [R1 R2]. cbn [fst snd] in R1, R2. rewrite R1, R2, Z.eqb_refl.
    rewrite (proj2 (Z.leb_gt _ _)) by lia. cbn [orb negb].
    assert (HF : entry_at F off cs) by (rewrite EF; by apply entry_at_app).
    apply entry_read; [done| |destruct Hent as (pre & post & E & <-); unfold mm_len in *; rewrite E, length_app in HL; lia|done].
    destruct Hfit' as (_ & Hfit'). by split.
  - intros id Hid. unfold ir_series. cbn [ir_b ir_footer ir_footer_size]. rewrite Hc, Nat2Z.id. destruct (Hsearch id) as (i & -> & [_ Hhi] & Hi). cbn [mbind option_bind].
    destruct (decide (i = length zl)) as [->|Hne]; [by rewrite (proj2 (Z.leb_le _ _)) by lia|]. rewrite (proj2 (Z.leb_gt _ _)) by lia. cbn [orb].
    destruct (lookup_lt_is_Some_2 zl i) as [p Hpi]; [lia|].
    assert (Hu : is_u64 p.1 /\ is_u64 p.2) by (rewrite Forall_forall in Z3; exact (Z3 _ (list_elem_of_lookup_2 _ _ _ Hpi))).
    rewrite (proj1 (footer_read zl i p more Hpi (proj1 Hu) (proj2 Hu))).
    rewrite (proj2 (Z.eqb_neq _ _)); [done|]. intros E. apply Hid. rewrite <- E. apply Z5. by eapply list_elem_of_lookup_2.
Qed.

(** A file to which series were added. *)
Lemma index_file_read l :
  StronglySorted (fun a b => a.1 < b.1) l -> Forall series_fit l -> mm_len (iw_close (add_all index_writer l)) < 2 ^ 31 ->
  exists r, index_reader (iw_close (add_all index_writer l)) = r /\ ir_err r = false /\ ir_size r = mm_len (iw_close (add_all index_writer l)) /\
    (forall id cs, (id, cs) ∈ l -> ir_series r id = Some (true, cs)) /\
    (forall id, id ∉ map fst l -> ir_series r id = Some (false, [])).
Proof.
  intros Hs Hf HN. apply ir_series_spec; [|done..].
  apply (add_all_holding l index_writer []); [exact (proj1 new_holding)|done|]. unfold iw_close, write_TOC, write_ids, iw_write, mm_len in HN.
  cbn [iw_file set_bufs] in HN. rewrite !length_app in HN. lia.
Qed.

(** C36.  An index file gives back its series.  Whatever series are added in the
    order of their ids and the file closed, a reader opens it without an error;
    for each series it finds the references and the times of its chunks exactly,
    and for no other id does it find anything. *)
Theorem index_file_round_trip l :
  StronglySorted (fun a b => a.1 < b.1) l -> Forall series_fit l -> mm_len (iw_close (add_all index_writer l)) < 2 ^ 31 ->
  let r := index_reader (iw_close (add_all index_writer l)) in
  ir_err r = false /\ ir_size r = mm_len (iw_close (add_all index_writer l)) /\
  (forall id cs, (id, cs) ∈ l -> ir_series r id = Some (true, cs)) /\
  (forall id, id ∉ map fst l -> ir_series r id = Some (false, [])).
Proof.
  intros Hs Hf HN. destruct (index_file_read l Hs Hf HN) as (r & -> & H). exact H.
Qed.

End Layout.

(** ** Examples *)

Module IndexDemo.
#[local] Instance demo_past : PastEnd := fun _ => 0.

(** A checksum of 32 bits. *)
#[local] Instance demo_crc : Crc := fun b => u32 (foldl (fun h x => 31 * h + x + 1) 7 b).

Definition demo_series : list (Z * list ChunkRef) :=
  [(3, [mkChunkRef 8 (-1000) 2000; mkChunkRef 300 2000 9000; mkChunkRef 120 5 7]); (5, []); (2 ^ 63, [mkChunkRef (2 ^ 33 + 8) 0 (2 ^ 62)])].

Lemma demo_crc_u32 b : is_u 32 (crc32 b).
Proof. unfold crc32, demo_crc. apply wrap_range. lia. Qed.

Lemma demo_sorted : StronglySorted (fun a b => a.1 < b.1) demo_series.
Proof. repeat (apply SSorted_cons; [|repeat (apply Forall_cons; split; [reflexivity|]); apply Forall_nil_2]). apply SSorted_nil. Qed.

Lemma demo_fit : Forall series_fit demo_series.
Proof.
  repeat (apply Forall_cons; split); [..|apply Forall_nil_2];
    (split; [done|split; [|vm_compute; reflexivity]]); repeat (apply Forall_cons; split; [split; [|split]; done|]); apply Forall_nil_2.
Qed.

Lemma index_file_round_trip_witness :
  let r := index_reader (iw_close (add_all index_writer demo_series)) in
  ir_err r = false /\ ir_series r 5 = Some (true, []) /\ ir_series r 4 = Some (false, []) /\
  ir_series r 3 = Some (true, [mkChunkRef 8 (-1000) 2000; mkChunkRef 300 2000 9000; mkChunkRef 120 5 7]).
Proof.
  assert (HN : mm_len (iw_close (add_all index_writer demo_series)) < 2 ^ 31) by (vm_compute; reflexivity).
  destruct (index_file_round_trip demo_crc_u32 demo_series demo_sorted demo_fit HN) as (H1 & _ & H2 & H3).
  split; [exact H1|]. split; [apply H2; right; left|]. split; [|apply H2; left]. apply H3. cbn [map demo_series fst].
  rewrite !elem_of_cons, elem_of_nil. lia.
Defined.

End IndexDemo.
