(* ===== verification/ChunkFile.v ===== *)
(** chunk/ChunkWriter, chunk/ChunkReader and the sequence files of
    chunk/ChunkUtils: the chunks of a block, in numbered files or in the
    key-value store.

    A directory is a list of names with contents, in the order in which it is
    listed; a [FILE*] is the name of its file.  Chunk metas are behind shared
    pointers (store [Metas] of ChunkOps), and writing sets their references.  A
    chunk that is read is the bytes of the chunk: what follows it in the file is
    past its end. *)
From Stdlib Require Import ZArith Lia Bool Sorting.Sorted.
From stdpp Require Import base list numbers option gmap sorting.
From S2P Require Import Prelude Endian BitStream XORChunk MassTree Label Record Tombstone ChunkOps HeadRecovery IndexFile.

(** ** Numbered files *)

Definition MAGIC_CHUNK : Z := 1366315609.
Definition DEFAULT_CHUNK_SIZE : Z := 512 * 1024 * 1024.
Definition CHUNK_FORMAT_V1 : Z := 1.
Definition MAX_VARINT_LEN_32 : Z := 5.
Definition EncXOR : Z := 1.

Abbreviation Dir := (list (str * list Z)).
Abbreviation Metas := (list ChunkMeta).

Fixpoint is_number_tail (s : str) : bool :=
  match s with
  | [] => true
  | c :: s => if is_digit c then is_number_tail s else false
  end.
Definition is_number (s : str) : bool := match s with [] => false | _ => is_number_tail s end.

(** [sprintf("%0.6d")] of a number that is not negative. *)
Definition sequence_name (n : Z) : str := replicate (6 - length (to_string n)) 48 ++ to_string n.

(** The loop over the directory; [None]: [stoi] throws. *)
Fixpoint max_sequence (max : Z) (dir : Dir) : option Z :=
  match dir with
  | [] => Some max
  | e :: dir => n ← stoi e.1; max_sequence (if max <? n then n else max) dir
  end.

Definition next_sequence_file (dir : Dir) : option (Z * str) :=
  max ← max_sequence (-1) dir;
  Some (max + 1, sequence_name (max + 1)).

(** The files whose names end in six digits, by name. *)
Definition sequence_files (dir : Dir) : Dir :=
  merge_sort entry_le (filter (fun e => ((6 <=? length e.1)%nat && is_number (drop (length e.1 - 6) e.1)) = true) dir).

(** ** The writer *)

Record ChunkWriter := mkCW {
  cw_dir : Dir;
  cw_files : list str;
  cw_seqs : list Z;
  cw_pos : Z }.

Definition chunk_writer (dir : Dir) : ChunkWriter := mkCW dir [] [] 0.

(** [fopen(name, "wb+")] *)
Definition create_file (dir : Dir) (name : str) : Dir := filter (fun e => e.1 <> name) dir ++ [(name, [])].

Definition append_to (dir : Dir) (name : str) (bytes : list Z) : Dir :=
  (fun e => if str_eqb e.1 name then (e.1, e.2 ++ bytes) else e) <$> dir.

Section Writer.
Context `{PE : PastEnd} `{CR : Crc}.

Definition cw_write (w : ChunkWriter) (bytes : list Z) : option ChunkWriter :=
  name ← last (cw_files w);
  Some (mkCW (append_to (cw_dir w) name bytes) (cw_files w) (cw_seqs w) (u64 (cw_pos w + Z.of_nat (length bytes)))).

(** The header of a new file. *)
Definition chunk_header : list Z :=
  put_uint32_big_endian (put_uint32_big_endian (replicate 8 0) 0 MAGIC_CHUNK) 4 CHUNK_FORMAT_V1.

Definition cut (w : ChunkWriter) : option ChunkWriter :=
  '(seq, name) ← next_sequence_file (cw_dir w);
  Some (mkCW (append_to (create_file (cw_dir w) name) name chunk_header) (cw_files w ++ [name]) (cw_seqs w ++ [seq]) 8).

(** The bytes of a chunk: [bytes()] for [size()]. *)
Definition chunk_data (c : XORChunk) : list Z := map (peek (chunk_bytes c)) (seqZ 0 (chunk_size c)).

(** The length of the chunk, its encoding, its bytes, their checksum. *)
Definition chunk_rec (c : XORChunk) : list Z :=
  encode_unsigned_varint (chunk_size c) ++ [EncXOR] ++ chunk_data c ++
  take 4 (put_uint32_big_endian (replicate 5 0) 0 (crc32 (chunk_data c))).

(** The loop over the chunks. *)
Fixpoint write_each (w : ChunkWriter) (st : Metas) (sequence : Z) (chunks : list nat) : option (ChunkWriter * Metas) :=
  match chunks with
  | [] => Some (w, st)
  | p :: chunks =>
    m ← st !! p;
    let st := <[p := mkChunkMeta (Z.lor sequence (cw_pos w)) (cm_chunk m) (cm_min_time m) (cm_max_time m)]> st in
    w ← cw_write w (encode_unsigned_varint (chunk_size (cm_chunk m)));
    w ← cw_write w [EncXOR];
    w ← cw_write w (chunk_data (cm_chunk m));
    w ← cw_write w (take 4 (put_uint32_big_endian (replicate 5 0) 0 (crc32 (chunk_data (cm_chunk m)))));
    write_each w st sequence chunks
  end.

Fixpoint max_len (st : Metas) (chunks : list nat) : option Z :=
  match chunks with
  | [] => Some 0
  | p :: chunks => m ← st !! p; n ← max_len st chunks; Some (u64 (5 + MAX_VARINT_LEN_32 + chunk_size (cm_chunk m) + n))
  end.

(** [write_chunks]; [None]: a null pointer, or an exception. *)
Definition write_chunks (w : ChunkWriter) (st : Metas) (chunks : list nat) : option (ChunkWriter * Metas) :=
  n ← max_len st chunks;
  w ← (if bool_decide (cw_files w = []) || (DEFAULT_CHUNK_SIZE <? cw_pos w) ||
          ((DEFAULT_CHUNK_SIZE <? u64 (cw_pos w + n)) && (n <=? DEFAULT_CHUNK_SIZE))
       then cut w else Some w);
  seq ← last (cw_seqs w);
  write_each w st (u64 (Z.shiftl seq 32)) chunks.

End Writer.

(** ** The reader *)

Record ChunkReader := mkCRd { rd_bs : list (list Z); rd_err : bool; rd_size : Z }.

Section Reader.
Context `{PE : PastEnd}.

Definition chunk_file_valid (b : list Z) : bool :=
  if mm_len b <? 4 then false else get_uint32_big_endian (mm_range b 0 4).1 0 =? MAGIC_CHUNK.

Fixpoint open_files (files : Dir) (bs : list (list Z)) (size : Z) : ChunkReader :=
  match files with
  | [] => mkCRd bs false size
  | e :: files => if negb (chunk_file_valid e.2) then mkCRd [] true size else open_files files (bs ++ [e.2]) (u64 (size + mm_len e.2))
  end.

Definition chunk_reader (dir : Dir) : ChunkReader := open_files (sequence_files dir) [] 0.

(** [chunk(ref)]: the outer [None] is an exception, the inner one the empty
    chunk and false. *)
Definition read_chunk (r : ChunkReader) (ref : Z) : option (option XORChunk) :=
  let seq := s32 (Z.shiftr ref 32) in
  let offset := s32 (Z.shiftr (u64 (Z.shiftl ref 32)) 32) in
  if Z.of_nat (length (rd_bs r)) <=? u64 seq then Some None
  else
    b ← rd_bs r !! Z.to_nat seq;
    if mm_len b <=? offset then Some None
    else
      '(l, decoded) ← decode_unsigned_varint (mm_range b offset (offset + MAX_VARINT_LEN_32)).1 0 MAX_VARINT_LEN_32;
      if (2 ^ 32 - 1 <? l) || (mm_len b <? u64 (offset + l + decoded + 1)) then Some None
      else
        let n := s32 l in
        let stream := (mm_range b (offset + decoded + 1) (offset + decoded + 1 + n)).1 in
        Some (Some (xor_chunk_of (take (Z.to_nat n) stream) (u64 n) false)).

End Reader.

(** ** Chunks in the key-value store *)

Section LevelDB.
Context `{PE : PastEnd} `{CR : Crc}.

Definition unpack_chunk_id (id : Z) : Z * Z := (Z.shiftr id 24, Z.shiftr (u64 (Z.shiftl id 40)) 40).

(** The key: the id of the series in four bytes, the time of its first sample. *)
Definition chunk_key (sid min_time : Z) : list Z :=
  put_uint64_big_endian (put_uint32_big_endian (replicate 12 0) 0 sid) 4 (u64 min_time).

(** [LevelDBChunkWriter::write_chunks] *)
Fixpoint db_write_chunks (db : gmap (list Z) (list Z)) (st : Metas) (chunks : list nat) : option (gmap (list Z) (list Z) * Metas) :=
  match chunks with
  | [] => Some (db, st)
  | p :: chunks =>
    m ← st !! p;
    let sid := (unpack_chunk_id (cm_ref m)).1 in
    let st := <[p := mkChunkMeta sid (cm_chunk m) (cm_min_time m) (cm_max_time m)]> st in
    db_write_chunks (<[chunk_key sid (cm_min_time m) := chunk_rec (cm_chunk m)]> db) st chunks
  end.

(** [LevelDBChunkReader::chunk]; a string has a zero after its end. *)
Definition db_read_chunk (db : gmap (list Z) (list Z)) (ref starting_time : Z) : option (option XORChunk) :=
  match db !! chunk_key ref starting_time with
  | None => Some None
  | Some value =>
    let value := value ++ [0] in
    '(l, decoded) ← decode_unsigned_varint value 0 MAX_VARINT_LEN_32;
    Some (Some (xor_chunk_of (take (Z.to_nat l) (drop (Z.to_nat (decoded + 1)) value)) l true))
  end.

End LevelDB.

(** ** Names of numbered files *)

(** The last [k] decimal digits. *)
Fixpoint digits (k : nat) (n : Z) : str :=
  match k with
  | O => []
  | S k => digits k (n / 10) ++ [48 + n mod 10]
  end.

Lemma length_digits k n : length (digits k n) = k.
Proof. revert n. induction k as [|k IH]; intros n; [done|]. cbn [digits]. rewrite length_app, IH. simpl. lia. Qed.

Lemma digits_zero k : digits k 0 = replicate k 48.
Proof.
  induction k as [|k IH]; [done|]. cbn [digits]. change (0 / 10) with 0. rewrite IH. change (48 + 0 mod 10) with 48.
  by rewrite <- replicate_S_end.
Qed.

Lemma decimal_digits k : forall m n, 0 <= n < 10 ^ Z.of_nat k -> (k <= m)%nat -> (1 <= k)%nat ->
  replicate (k - length (decimal m n)) 48 ++ decimal m n = digits k n /\ (1 <= length (decimal m n) <= k)%nat.
Proof.
  induction k as [|k IH]; intros [|m] n Hn Hm Hk; try lia.
  assert (Hp : 10 ^ Z.of_nat (S k) = 10 * 10 ^ Z.of_nat k) by (rewrite Nat2Z.inj_succ, Z.pow_succ_r; lia).
  cbn [decimal digits]. destruct (Z.ltb_spec n 10) as [Hl|Hl].
  - rewrite Z.div_small, digits_zero by lia. split; [|simpl; lia]. cbn [app length]. by replace (S k - 1)%nat with k by lia.
  - destruct k as [|k]; [simpl in Hn; lia|].
    destruct (IH m (n / 10)) as [E Hlen]; [split; [apply Z.div_pos; lia|apply Z.div_lt_upper_bound; lia]|lia|lia|].
    rewrite <- E, length_app. cbn [length]. replace (S (S k) - (length (decimal m (n / 10)) + 1))%nat with (S k - length (decimal m (n / 10)))%nat by lia.
    split; [by rewrite app_assoc|lia].
Qed.

Lemma sequence_name_digits n : 0 <= n < 10 ^ 6 -> sequence_name n = digits 6 n.
Proof.
  intros Hn. unfold sequence_name, to_string. rewrite (proj2 (Z.ltb_ge _ _)) by lia.
  exact (proj1 (decimal_digits 6 10 n Hn ltac:(lia) ltac:(lia))).
Qed.

Lemma parse_digits_app k : forall n l, 0 <= n < 10 ^ Z.of_nat k -> parse_digits 0 (digits k n ++ l) = parse_digits n l.
Proof.
  induction k as [|k IH]; intros n l Hn; [simpl in *; f_equal; lia|].
  assert (Hp : 10 ^ Z.of_nat (S k) = 10 * 10 ^ Z.of_nat k) by (rewrite Nat2Z.inj_succ, Z.pow_succ_r; lia).
  pose proof (Z.mod_pos_bound n 10 ltac:(lia)) as Hd. pose proof (Z.div_mod n 10 ltac:(lia)) as Hq.
  cbn [digits]. rewrite <- app_assoc. rewrite IH by (split; [apply Z.div_pos; lia|apply Z.div_lt_upper_bound; lia]).
  cbn [app parse_digits]. rewrite digit_of by lia. f_equal. lia.
Qed.

Lemma digits_ok k : forall n, Forall (fun c => is_digit c = true) (digits k n).
Proof.
  induction k as [|k IH]; intros n; [constructor|]. cbn [digits]. apply Forall_app. split; [apply IH|]. constructor; [|constructor].
  apply digit_of, Z.mod_pos_bound. lia.
Qed.

Lemma stoi_digits s c l : s = c :: l -> Forall (fun c => is_digit c = true) s -> 0 <= parse_digits 0 s < 2 ^ 31 -> stoi s = Some (parse_digits 0 s).
Proof.
  intros -> Hc Hp. apply Forall_cons in Hc as [Hc _]. unfold stoi. cbn [skip_spaces].
  assert (Hr : 48 <= c <= 57) by (unfold is_digit in Hc; apply andb_true_iff in Hc as [?%Z.leb_le ?%Z.leb_le]; lia).
  replace (is_space c) with false by (unfold is_space; symmetry; rewrite (proj2 (Z.eqb_neq _ _)), (proj2 (Z.leb_gt c 13)), andb_false_r by lia; done).
  rewrite (proj2 (Z.eqb_neq c 45)), (proj2 (Z.eqb_neq c 43)) by lia. rewrite Hc.
  rewrite (proj2 (Z.leb_le _ _)), (proj2 (Z.ltb_lt _ _)) by lia. done.
Qed.

Lemma stoi_name n : 0 <= n < 10 ^ 6 -> stoi (sequence_name n) = Some n.
Proof.
  intros Hn. rewrite sequence_name_digits by done. pose proof (parse_digits_app 6 n [] Hn) as Hp. rewrite app_nil_r in Hp. cbn [parse_digits] in Hp.
  pose proof (length_digits 6 n) as Hl. destruct (digits 6 n) as [|c l] eqn:E; [done|]. rewrite <- E in *.
  rewrite (stoi_digits _ c l E (digits_ok 6 n)); rewrite Hp; [done|lia].
Qed.

Lemma bytes_ltb_longer p : forall q a b, length p = length q -> bytes_ltb p q = true -> bytes_ltb (p ++ a) (q ++ b) = true.
Proof.
  induction p as [|x p IH]; intros [|y q] a b Hl Hb; try done. cbn [app bytes_ltb] in *. apply orb_true_iff in Hb as [->|[E Hb]%andb_true_iff]; [done|].
  rewrite E, IH by (done || (simpl in Hl; lia)). apply orb_true_r.
Qed.

Lemma digits_lt k : forall a b, 0 <= a < b -> b < 10 ^ Z.of_nat k -> bytes_ltb (digits k a) (digits k b) = true.
Proof.
  induction k as [|k IH]; intros a b Ha Hb; [simpl in *; lia|].
  assert (Hp : 10 ^ Z.of_nat (S k) = 10 * 10 ^ Z.of_nat k) by (rewrite Nat2Z.inj_succ, Z.pow_succ_r; lia).
  pose proof (Z.div_mod a 10 ltac:(lia)). pose proof (Z.div_mod b 10 ltac:(lia)). pose proof (Z.mod_pos_bound a 10 ltac:(lia)).
  pose proof (Z.mod_pos_bound b 10 ltac:(lia)). cbn [digits]. destruct (decide (a / 10 = b / 10)) as [E|E].
  - rewrite E, bytes_ltb_app. cbn [bytes_ltb]. rewrite (proj2 (Z.ltb_lt _ _)) by lia. done.
  - apply bytes_ltb_longer; [by rewrite !length_digits|]. apply IH; [split; [apply Z.div_pos; lia|lia]|apply Z.div_lt_upper_bound; lia].
Qed.

(** ** Directories of numbered files *)

Definition files_of (cs : list (list Z)) : Dir := imap (fun i c => (sequence_name (Z.of_nat i), c)) cs.

Definition few {A} (cs : list A) : Prop := Z.of_nat (length cs) <= 10 ^ 6.

Lemma files_snoc cs c : files_of (cs ++ [c]) = files_of cs ++ [(sequence_name (Z.of_nat (length cs)), c)].
Proof. unfold files_of. rewrite imap_app. simpl. by rewrite Nat.add_0_r. Qed.

Lemma files_lookup cs i e : files_of cs !! i = Some e -> exists c, cs !! i = Some c /\ e = (sequence_name (Z.of_nat i), c).
Proof. unfold files_of. rewrite list_lookup_imap. destruct (cs !! i) as [c|]; [|done]. intros [= <-]. by exists c. Qed.

Lemma name_lt (cs : list (list Z)) (i j : nat) : few cs -> (i < j)%nat -> (j < length cs)%nat ->
  bytes_ltb (sequence_name (Z.of_nat i)) (sequence_name (Z.of_nat j)) = true.
Proof. unfold few. intros Hf Hij Hj. rewrite !sequence_name_digits by lia. apply digits_lt; lia. Qed.

Lemma name_inj (i j : nat) : Z.of_nat i < 10 ^ 6 -> Z.of_nat j < 10 ^ 6 -> sequence_name (Z.of_nat i) = sequence_name (Z.of_nat j) -> i = j.
Proof.
  intros Hi Hj E. pose proof (stoi_name (Z.of_nat i) ltac:(lia)) as S1. pose proof (stoi_name (Z.of_nat j) ltac:(lia)) as S2. rewrite E, S2 in S1.
  injection S1 as S1. lia.
Qed.

Lemma max_sequence_files cs : forall n m, Z.of_nat (n + length cs) <= 10 ^ 6 -> m = Z.of_nat n - 1 ->
  max_sequence m (imap (fun i c => (sequence_name (Z.of_nat (n + i)), c)) cs) = Some (Z.of_nat (n + length cs) - 1).
Proof.
  induction cs as [|c cs IH]; intros n m Hn ->; [simpl; f_equal; lia|]. cbn [imap max_sequence fst length] in *.
  rewrite Nat.add_0_r, stoi_name by lia. cbn [mbind option_bind]. rewrite (proj2 (Z.ltb_lt _ _)) by lia.
  replace (n + S (length cs))%nat with (S n + length cs)%nat by lia. rewrite <- (IH (S n) (Z.of_nat n)); [|lia|lia]. f_equal.
  apply imap_ext. intros i x _. simpl. by rewrite Nat.add_succ_r.
Qed.

Lemma next_sequence cs : few cs -> next_sequence_file (files_of cs) = Some (Z.of_nat (length cs), sequence_name (Z.of_nat (length cs))).
Proof.
  intros Hf. unfold next_sequence_file, files_of. 
  rewrite (max_sequence_files cs 0 (-1) ltac:(unfold few in Hf; simpl; lia) eq_refl : max_sequence (-1) (imap (fun i c => (sequence_name (Z.of_nat i), c)) cs) = _).
  cbn [mbind option_bind]. simpl. by replace (Z.of_nat (length cs) - 1 + 1) with (Z.of_nat (length cs)) by lia.
Qed.

Lemma is_number_tail_spec s : Forall (fun c => is_digit c = true) s -> is_number_tail s = true.
Proof. induction 1 as [|c s Hc _ IH]; [done|]. cbn [is_number_tail]. by rewrite Hc. Qed.

Lemma sorted_files cs : few cs -> StronglySorted entry_le (files_of cs).
Proof.
  induction cs as [|c cs IH] using rev_ind; intros Hf; [apply SSorted_nil|]. rewrite files_snoc. unfold few in *. rewrite length_app in Hf. cbn [length] in Hf.
  apply StronglySorted_app. split_and!; [|apply IH; lia|apply SSorted_cons; [apply SSorted_nil|constructor]].
  intros e x He ->%list_elem_of_singleton. apply list_elem_of_lookup in He as (i & He). destruct (files_lookup _ _ _ He) as (c' & Hc' & ->).
  apply lookup_lt_Some in Hc'. unfold entry_le, key_le. cbn [fst]. apply bytes_ltb_asym. apply (name_lt (cs ++ [c])); [unfold few|..]; rewrite ?length_app; simpl; lia.
Qed.

Lemma sequence_files_all cs : few cs -> sequence_files (files_of cs) = files_of cs.
Proof.
  intros Hf. unfold sequence_files. set (P := fun e : str * list Z => _ = true).
  assert (Hall : filter P (files_of cs) = files_of cs).
  { apply filter_id. apply Forall_lookup. intros i e Hi. destruct (files_lookup cs i e Hi) as (c & Hc & ->). apply lookup_lt_Some in Hc. unfold P, few in *. cbn [fst].
    rewrite sequence_name_digits, length_digits by lia. cbn [Nat.leb andb]. change (6 - 6)%nat with O. rewrite drop_0. unfold is_number.
    pose proof (length_digits 6 (Z.of_nat i)). pose proof (is_number_tail_spec _ (digits_ok 6 (Z.of_nat i))). by destruct (digits 6 (Z.of_nat i)). }
  rewrite Hall. apply (StronglySorted_unique_strong entry_le).
  - intros [n1 c1] [n2 c2] H1 H2 R1 R2. rewrite merge_sort_Permutation in H1. unfold entry_le, key_le in R1, R2. cbn [fst] in R1, R2.
    pose proof (bytes_ltb_total n1 n2 R2 R1) as ->. apply list_elem_of_lookup in H1 as (i & H1). apply list_elem_of_lookup in H2 as (j & H2).
    destruct (files_lookup _ _ _ H1) as (x & Hx & E1). destruct (files_lookup _ _ _ H2) as (y & Hy & E2). simplify_eq.
    pose proof (lookup_lt_Some _ _ _ Hx). pose proof (lookup_lt_Some _ _ _ Hy). unfold few in Hf. assert (i = j) as -> by (apply name_inj; [lia|lia|congruence]).
    congruence.
  - apply StronglySorted_merge_sort; apply _.
  - apply sorted_files. exact Hf.
  - by rewrite merge_sort_Permutation.
Qed.

(** ** What is written *)

Section Layout.
Context `{PE : PastEnd} `{CR : Crc}.

Lemma header_bytes : chunk_header = be_bytes 4 MAGIC_CHUNK ++ be_bytes 4 CHUNK_FORMAT_V1.
Proof. reflexivity. Qed.

Lemma crc_bytes d : take 4 (put_uint32_big_endian (replicate 5 0) 0 (crc32 d)) = be_bytes 4 (crc32 d).
Proof.
  rewrite (put_uint32_spec [] [0; 0; 0; 0] [0] (crc32 d) eq_refl : put_uint32_big_endian (replicate 5 0) 0 (crc32 d) = _).
  apply (take_app_length' (be_bytes 4 (crc32 d)) [0]). by rewrite length_be_bytes.
Qed.

Lemma length_chunk_data c : Z.of_nat (length (chunk_data c)) = Z.max 0 (chunk_size c).
Proof. unfold chunk_data. rewrite length_map, length_seqZ. lia. Qed.

Lemma chunk_rec_eq c : chunk_rec c = encode_unsigned_varint (chunk_size c) ++ [EncXOR] ++ chunk_data c ++ be_bytes 4 (crc32 (chunk_data c)).
Proof. unfold chunk_rec. by rewrite crc_bytes. Qed.

Lemma varint_short k : forall v, 0 <= v < 2 ^ (7 * Z.of_nat k) -> v < 2 ^ 64 -> (length (varint v) <= S (pred k))%nat.
Proof.
  induction k as [|k IH]; intros v Hv Hu; [rewrite varint_small by (simpl in Hv; lia); done|]. destruct (Z.ltb_spec v 128) as [Hl|Hl].
  - rewrite varint_small by lia. simpl. lia.
  - rewrite varint_big by lia. replace (7 * Z.of_nat (S k)) with (7 + 7 * Z.of_nat k) in Hv by lia. rewrite Z.pow_add_r in Hv by lia.
    assert (Hd : 0 <= v / 128 < 2 ^ (7 * Z.of_nat k)) by (split; [apply Z.div_pos; lia|apply Z.div_lt_upper_bound; lia]).
    specialize (IH _ Hd ltac:(apply Z.div_lt_upper_bound; lia)). destruct k as [|k]; [simpl in Hd; pose proof (Z.div_le_lower_bound v 128 1); lia|].
    simpl. simpl in IH. lia.
Qed.

Lemma chunk_rec_length c : 0 <= chunk_size c < 2 ^ 31 -> Z.of_nat (length (chunk_rec c)) <= 10 + chunk_size c.
Proof.
  intros Hc. rewrite chunk_rec_eq, encode_unsigned_varint_varint by (unfold is_u; lia). pose proof (varint_short 5 (chunk_size c)) as Hv.
  rewrite !length_app, length_be_bytes. pose proof (length_chunk_data c). specialize (Hv ltac:(change (7 * Z.of_nat 5) with 35; lia) ltac:(lia)). simpl in *. lia.
Qed.

(** The writer has written the files [cs]. *)
Record cw_inv (w : ChunkWriter) (cs : list (list Z)) : Prop := {
  ci_dir : cw_dir w = files_of cs;
  ci_files : cw_files w = fst <$> files_of cs;
  ci_seqs : cw_seqs w = Z.of_nat <$> seq 0 (length cs);
  ci_pos : cw_pos w = match last cs with Some c => Z.of_nat (length c) | None => 0 end;
  ci_few : few cs;
  ci_valid : Forall (fun c => exists rest, c = chunk_header ++ rest) cs;
  ci_short : Forall (fun c => mm_len c <= DEFAULT_CHUNK_SIZE + 8) cs }.

Lemma writer_inv : cw_inv (chunk_writer []) [].
Proof. split; try done. Qed.

Lemma append_last cs c bytes : few (cs ++ [c]) ->
  append_to (files_of (cs ++ [c])) (sequence_name (Z.of_nat (length cs))) bytes = files_of (cs ++ [c ++ bytes]).
Proof.
  intros Hf. rewrite !files_snoc. unfold append_to. rewrite fmap_app. f_equal.
  - rewrite <- (list_fmap_id (files_of cs)) at 2. apply list_fmap_ext. intros i e He. destruct (files_lookup _ _ _ He) as (x & Hx & ->). cbn [fst].
    apply lookup_lt_Some in Hx. unfold few in Hf. rewrite length_app in Hf. simpl in Hf. unfold str_eqb. rewrite bool_decide_eq_false_2; [done|].
    intros E%name_inj; lia.
  - simpl. unfold str_eqb. by rewrite bool_decide_eq_true_2.
Qed.

Lemma write_inv w cs c bytes : cw_inv w (cs ++ [c]) -> mm_len (c ++ bytes) <= DEFAULT_CHUNK_SIZE + 8 ->
  exists w', cw_write w bytes = Some w' /\ cw_inv w' (cs ++ [c ++ bytes]) /\ cw_pos w' = cw_pos w + Z.of_nat (length bytes).
Proof.
  intros [H1 H2 H3 H4 H5 H6 H7] Hs. unfold cw_write. rewrite H2, files_snoc, fmap_app. cbn [fmap list_fmap fst]. rewrite last_snoc. cbn [mbind option_bind].
  rewrite last_snoc in H4. unfold mm_len, DEFAULT_CHUNK_SIZE in Hs. rewrite length_app in Hs.
  assert (Ep : u64 (cw_pos w + Z.of_nat (length bytes)) = cw_pos w + Z.of_nat (length bytes)) by (apply wrap_id; unfold is_u; lia).
  eexists. split; [done|]. cbn [cw_pos]. split; [|done]. rewrite Ep. split; cbn [cw_dir cw_files cw_seqs cw_pos].
  - rewrite H1. by apply append_last.
  - by rewrite files_snoc, fmap_app.
  - rewrite H3, !length_app. done.
  - rewrite last_snoc, length_app, H4. lia.
  - unfold few in *. rewrite length_app in *. done.
  - apply Forall_app in H6 as [H6 (rest & ->)%Forall_singleton]. apply Forall_app. split; [done|]. constructor; [|constructor].
    exists (rest ++ bytes). by rewrite <- app_assoc.
  - apply Forall_app in H7 as [H7 _]. apply Forall_app. split; [done|]. constructor; [|constructor]. unfold mm_len, DEFAULT_CHUNK_SIZE. rewrite length_app. lia.
Qed.

Lemma cut_inv w cs : cw_inv w cs -> Z.of_nat (length cs) < 10 ^ 6 -> exists w', cut w = Some w' /\ cw_inv w' (cs ++ [chunk_header]) /\ cw_pos w' = 8.
Proof.
  intros [H1 H2 H3 H4 H5 H6 H7] Hl. unfold cut. rewrite H1, next_sequence by done. cbn [mbind option_bind]. eexists. split; [done|]. split; [|done].
  assert (Hf : few (cs ++ [[]])) by (unfold few; rewrite length_app; simpl; lia).
  assert (Ec : create_file (files_of cs) (sequence_name (Z.of_nat (length cs))) = files_of (cs ++ [[]])).
  { unfold create_file. rewrite files_snoc. f_equal. apply filter_id. apply Forall_lookup. intros i e He E.
    destruct (files_lookup _ _ _ He) as (c & Hc & ->). apply lookup_lt_Some in Hc. apply name_inj in E; lia. }
  split; cbn [cw_dir cw_files cw_seqs cw_pos].
  - rewrite Ec. by apply (append_last cs [] chunk_header).
  - by rewrite H2, files_snoc, fmap_app.
  - by rewrite H3, length_app, seq_app, fmap_app.
  - by rewrite last_snoc.
  - unfold few. rewrite length_app. simpl. lia.
  - apply Forall_app. split; [done|]. constructor; [|constructor]. by exists [].
  - apply Forall_app. split; [done|]. constructor; [|constructor]. vm_compute. done.
Qed.

(** Files only grow. *)
Definition grows (cs cs' : list (list Z)) : Prop := forall i c, cs !! i = Some c -> exists more, cs' !! i = Some (c ++ more).

Lemma grows_refl cs : grows cs cs.
Proof. intros i c Hi. exists []. by rewrite app_nil_r. Qed.

Lemma grows_trans a b c : grows a b -> grows b c -> grows a c.
Proof.
  intros H1 H2 i x Hi. destruct (H1 i x Hi) as (m & Hm). destruct (H2 i _ Hm) as (m' & Hm'). exists (m ++ m'). by rewrite app_assoc.
Qed.

Lemma grows_last cs c more : grows (cs ++ [c]) (cs ++ [c ++ more]).
Proof.
  intros i x Hi. apply lookup_app_Some in Hi as [Hi|[Hl Hi]].
  - exists []. rewrite app_nil_r. by apply lookup_app_l_Some.
  - apply list_lookup_singleton_Some in Hi as [E <-]. exists more. rewrite lookup_app_r by done. by rewrite E.
Qed.

Lemma grows_snoc cs c : grows cs (cs ++ [c]).
Proof. intros i x Hi. exists []. rewrite app_nil_r. by apply lookup_app_l_Some. Qed.

(** The chunk a reference leads to. *)
Definition placed (cs : list (list Z)) (ref : Z) (c : XORChunk) : Prop :=
  exists i pre post, cs !! i = Some (pre ++ chunk_rec c ++ post) /\ ref = Z.of_nat i * 2 ^ 32 + Z.of_nat (length pre).

Lemma placed_grows cs cs' ref c : grows cs cs' -> placed cs ref c -> placed cs' ref c.
Proof.
  intros Hg (i & pre & post & Hi & ->). destruct (Hg i _ Hi) as (more & Hm). exists i, pre, (post ++ more). split; [|done]. by rewrite Hm, <- !app_assoc.
Qed.

Definition same_but_ref (m m' : ChunkMeta) : Prop :=
  cm_chunk m' = cm_chunk m /\ cm_min_time m' = cm_min_time m /\ cm_max_time m' = cm_max_time m.

(** The metas of [chunks] refer to their chunks; no other one changed. *)
Definition refs_set (cs : list (list Z)) (st st' : Metas) (chunks : list nat) : Prop :=
  (forall p, p ∉ chunks -> st' !! p = st !! p) /\
  (forall p m, p ∈ chunks -> st !! p = Some m -> exists m', st' !! p = Some m' /\ same_but_ref m m' /\ placed cs (cm_ref m') (cm_chunk m)).

Definition size_at (st : Metas) (p : nat) : Z := match st !! p with Some m => chunk_size (cm_chunk m) | None => 0 end.

(** What a batch needs at most. *)
Definition batch_len (st : Metas) (chunks : list nat) : Z := foldr (fun p n => 10 + size_at st p + n) 0 chunks.

Definition batch_ok (st : Metas) (chunks : list nat) : Prop :=
  NoDup chunks /\ Forall (fun p => exists m, st !! p = Some m /\ 0 <= chunk_size (cm_chunk m)) chunks /\ batch_len st chunks <= DEFAULT_CHUNK_SIZE.

Lemma batch_len_insert st p m chunks : p ∉ chunks -> batch_len (<[p := m]> st) chunks = batch_len st chunks.
Proof.
  induction chunks as [|q chunks IH]; intros Hp; [done|]. apply not_elem_of_cons in Hp as [Hne Hp]. cbn [batch_len foldr]. unfold size_at.
  rewrite list_lookup_insert_ne by done. f_equal. by apply IH.
Qed.

Lemma batch_len_nonneg st chunks : Forall (fun p => exists m, st !! p = Some m /\ 0 <= chunk_size (cm_chunk m)) chunks -> 0 <= batch_len st chunks.
Proof.
  induction 1 as [|p chunks (m & E & Hm) _ IH]; [done|]. cbn [batch_len foldr]. change (foldr _ 0 chunks) with (batch_len st chunks).
  unfold size_at. rewrite E. lia.
Qed.

Lemma max_len_batch st chunks : Forall (fun p => exists m, st !! p = Some m /\ 0 <= chunk_size (cm_chunk m)) chunks ->
  batch_len st chunks < 2 ^ 63 -> max_len st chunks = Some (batch_len st chunks).
Proof.
  induction 1 as [|p chunks (m & E & Hm) Hc IH]; intros Hb; [done|]. cbn [max_len batch_len foldr] in *. change (foldr _ 0 chunks) with (batch_len st chunks) in *.
  unfold size_at in *. rewrite E in *. pose proof (batch_len_nonneg st chunks Hc). cbn [mbind option_bind]. rewrite IH by lia. cbn [mbind option_bind]. f_equal.
  unfold u64, MAX_VARINT_LEN_32. apply wrap_id. unfold is_u. lia.
Qed.

Lemma write_each_spec chunks : forall w st cs c, cw_inv w (cs ++ [c]) -> NoDup chunks ->
  Forall (fun p => exists m, st !! p = Some m /\ 0 <= chunk_size (cm_chunk m)) chunks -> mm_len c + batch_len st chunks <= DEFAULT_CHUNK_SIZE + 8 ->
  exists w' st' more, write_each w st (u64 (Z.shiftl (Z.of_nat (length cs)) 32)) chunks = Some (w', st') /\ cw_inv w' (cs ++ [c ++ more]) /\
    refs_set (cs ++ [c ++ more]) st st' chunks.
Proof.
  induction chunks as [|p chunks IH]; intros w st cs c Hw Hnd Hc Hb.
  { exists w, st, []. rewrite app_nil_r. split; [done|]. split; [done|]. split; [done|]. by intros p m ?%elem_of_nil. }
  apply NoDup_cons in Hnd as [Hp Hnd]. apply Forall_cons in Hc as [(m & Em & Hm) Hc]. cbn [batch_len foldr] in Hb. change (foldr _ 0 chunks) with (batch_len st chunks) in Hb.
  unfold size_at in Hb. rewrite Em in Hb. pose proof (batch_len_nonneg st chunks Hc) as Hn.
  assert (Hlen : Z.of_nat (length (chunk_rec (cm_chunk m))) <= 10 + chunk_size (cm_chunk m)) by (apply chunk_rec_length; unfold DEFAULT_CHUNK_SIZE, mm_len in *; lia).
  cbn [write_each]. rewrite Em. cbn [mbind option_bind].
  set (st1 := <[p := _]> st). set (r := Z.lor _ _) in st1.
  pose proof (chunk_rec_eq (cm_chunk m)) as Er. rewrite Er, !length_app in Hlen. unfold mm_len in Hb.
  destruct (write_inv w cs c (encode_unsigned_varint (chunk_size (cm_chunk m))) Hw) as (w1 & -> & Hw1 & _); [unfold mm_len; rewrite length_app; lia|]. cbn [mbind option_bind].
  destruct (write_inv w1 cs _ [EncXOR] Hw1) as (w2 & -> & Hw2 & _); [unfold mm_len; rewrite !length_app; lia|]. cbn [mbind option_bind].
  destruct (write_inv w2 cs _ (chunk_data (cm_chunk m)) Hw2) as (w3 & -> & Hw3 & _); [unfold mm_len; rewrite !length_app; lia|]. cbn [mbind option_bind].
  rewrite crc_bytes.
  destruct (write_inv w3 cs _ (be_bytes 4 (crc32 (chunk_data (cm_chunk m)))) Hw3) as (w4 & -> & Hw4 & _); [unfold mm_len; rewrite !length_app; lia|]. cbn [mbind option_bind].
  rewrite <- !app_assoc, <- Er in Hw4.
  assert (Hc1 : Forall (fun q => exists m, st1 !! q = Some m /\ 0 <= chunk_size (cm_chunk m)) chunks).
  { rewrite Forall_forall in Hc |- *. intros q Hq. unfold st1. rewrite list_lookup_insert_ne by (by intros ->). by apply Hc. }
  destruct (IH w4 st1 cs _ Hw4 Hnd Hc1) as (w' & st' & more & -> & Hw' & R1 & R2).
  { unfold st1. rewrite batch_len_insert by done. unfold mm_len. rewrite Er, !length_app. lia. }
  exists w', st', (chunk_rec (cm_chunk m) ++ more). rewrite app_assoc. split; [done|]. split; [done|]. split.
  - intros q [Hne Hq]%not_elem_of_cons. rewrite R1 by done. unfold st1. by rewrite list_lookup_insert_ne.
  - intros q mq [->|Hq]%elem_of_cons Eq.
    + assert (mq = m) as -> by congruence. rewrite R1 by done. unfold st1. rewrite list_lookup_insert_eq by (by eapply lookup_lt_Some).
      eexists. split; [done|]. split; [done|]. cbn [cm_ref]. exists (length cs), c, more. split.
      * rewrite lookup_app_r, Nat.sub_diag by done. cbn [lookup list_lookup]. by rewrite <- app_assoc.
      * pose proof (ci_pos _ _ Hw) as Hpos. rewrite last_snoc in Hpos. pose proof (ci_few _ _ Hw) as Hf. unfold few in Hf. rewrite length_app in Hf. simpl length in Hf.
        unfold r. rewrite Z.shiftl_mul_pow2 by lia. unfold u64. rewrite wrap_id by (unfold is_u; lia). rewrite Hpos. apply lor_disjoint; [lia|].
        unfold DEFAULT_CHUNK_SIZE in Hb. lia.
    + destruct (R2 q mq Hq) as (m' & E' & H1 & H2); [unfold st1; rewrite list_lookup_insert_ne; [done|by intros ->]|]. by exists m'.
Qed.

Lemma last_file w cs : cw_inv w cs -> cs <> [] -> exists front c, cs = front ++ [c] /\ cw_files w <> [] /\
  last (cw_seqs w) = Some (Z.of_nat (length front)) /\ cw_pos w = mm_len c.
Proof.
  intros [H1 H2 H3 H4 H5 H6 H7] Hne. destruct (exists_last Hne) as (front & c & ->). exists front, c. rewrite last_snoc in H4. split_and!; try done.
  - rewrite H2, files_snoc, fmap_app. by destruct (fst <$> files_of front).
  - rewrite H3, length_app, Nat.add_1_r, seq_S, fmap_app. apply last_snoc.
Qed.

Lemma write_chunks_spec w st chunks cs : cw_inv w cs -> batch_ok st chunks -> Z.of_nat (length cs) < 10 ^ 6 ->
  exists w' st' cs', write_chunks w st chunks = Some (w', st') /\ cw_inv w' cs' /\ grows cs cs' /\ refs_set cs' st st' chunks /\
    (length cs' <= S (length cs))%nat.
Proof.
  intros Hw (Hnd & Hc & Hb) Hl. unfold write_chunks. rewrite max_len_batch by (done || (unfold DEFAULT_CHUNK_SIZE in Hb; lia)). cbn [mbind option_bind].
  pose proof (batch_len_nonneg st chunks Hc) as Hn.
  assert (Hstep : forall w1 front c, cw_inv w1 (front ++ [c]) -> grows cs (front ++ [c]) -> mm_len c + batch_len st chunks <= DEFAULT_CHUNK_SIZE + 8 ->
    (length (front ++ [c]) <= S (length cs))%nat ->
    exists w' st' cs', (seq ← last (cw_seqs w1); write_each w1 st (u64 (Z.shiftl seq 32)) chunks) = Some (w', st') /\ cw_inv w' cs' /\ grows cs cs' /\
      refs_set cs' st st' chunks /\ (length cs' <= S (length cs))%nat).
  { intros w1 front c Hw1 Hg Hlen Hcs. destruct (last_file w1 _ Hw1) as (front' & c' & E & _ & -> & _); [by destruct front|].
    apply app_inj_2 in E as [<- [= <-]]; [|done]. cbn [mbind option_bind].
    destruct (write_each_spec chunks w1 st front c Hw1 Hnd Hc Hlen) as (w' & st' & more & -> & Hw' & Hr).
    exists w', st', (front ++ [c ++ more]). split_and!; try done; [|rewrite !length_app in *; simpl in *; lia].
    eapply grows_trans; [exact Hg|apply grows_last]. }
  destruct (bool_decide (cw_files w = []) || (DEFAULT_CHUNK_SIZE <? cw_pos w) ||
    ((DEFAULT_CHUNK_SIZE <? u64 (cw_pos w + batch_len st chunks)) && (batch_len st chunks <=? DEFAULT_CHUNK_SIZE))) eqn:Ecut.
  - destruct (cut_inv w cs Hw Hl) as (w1 & -> & Hw1 & _). cbn [mbind option_bind]. apply (Hstep w1 cs chunk_header Hw1 (grows_snoc cs _)).
    + change (mm_len chunk_header) with 8. lia.
    + rewrite length_app. simpl. lia.
  - apply orb_false_iff in Ecut as [Ecut E3]. apply orb_false_iff in Ecut as [E1 E2]. apply bool_decide_eq_false in E1. apply Z.ltb_ge in E2.
    assert (Hne : cs <> []) by (intros ->; apply E1; by rewrite (ci_files _ _ Hw)).
    destruct (last_file w cs Hw Hne) as (front & c & -> & _ & _ & Hp). cbn [mbind option_bind]. apply (Hstep w front c Hw (grows_refl _)); [|lia].
    rewrite (proj2 (Z.leb_le _ _)), andb_true_r in E3 by done. apply Z.ltb_ge in E3. unfold u64 in E3. rewrite wrap_id in E3.
    + rewrite Hp in E3. lia.
    + unfold is_u, DEFAULT_CHUNK_SIZE, mm_len in *. lia.
Qed.

(** ** What is read back *)

Lemma open_files_spec cs : forall n bs size, Forall (fun c => exists rest, c = chunk_header ++ rest) cs ->
  exists size', open_files (imap (fun i c => (sequence_name (Z.of_nat (n + i)), c)) cs) bs size = mkCRd (bs ++ cs) false size'.
Proof.
  induction cs as [|c cs IH]; intros n bs size Hc; [exists size; by rewrite app_nil_r|]. apply Forall_cons in Hc as [(rest & ->) Hc].
  cbn [imap open_files snd]. assert (Hv : chunk_file_valid (chunk_header ++ rest) = true).
  { unfold chunk_file_valid, mm_range, mm_len. rewrite (proj2 (Z.ltb_ge _ 4)) by (rewrite length_app; change (length chunk_header) with 8%nat; lia).
    change (4 <=? 0) with false. change (0 <? 0) with false. cbn [fst]. change (drop (Z.to_nat 0) ?l) with l. apply Z.eqb_eq. rewrite header_bytes, <- app_assoc.
    exact (get_uint32_spec [] _ MAGIC_CHUNK). }
  rewrite Hv. cbn [negb]. destruct (IH (S n) (bs ++ [chunk_header ++ rest]) (u64 (size + mm_len (chunk_header ++ rest))) Hc) as (size' & E).
  exists size'. rewrite <- app_assoc in E. cbn [app] in E. etransitivity; [|exact E]. f_equal. apply imap_ext. intros i x _. simpl. by rewrite Nat.add_succ_r.
Qed.

Lemma reader_opens w cs : cw_inv w cs -> exists size, chunk_reader (cw_dir w) = mkCRd cs false size.
Proof.
  intros Hw. unfold chunk_reader. rewrite (ci_dir _ _ Hw), sequence_files_all by apply (ci_few _ _ Hw).
  exact (open_files_spec cs 0 [] 0 (ci_valid _ _ Hw)).
Qed.

Lemma read_placed r cs ref c : rd_bs r = cs -> few cs -> Forall (fun c => mm_len c <= DEFAULT_CHUNK_SIZE + 8) cs -> placed cs ref c ->
  0 < chunk_size c < 2 ^ 31 -> read_chunk r ref = Some (Some (xor_chunk_of (chunk_data c) (chunk_size c) false)).
Proof.
  intros Er Hf Hs (i & pre & post & Hi & ->) Hc. pose proof (lookup_lt_Some _ _ _ Hi) as Hil. unfold few in Hf.
  assert (Hb : mm_len (pre ++ chunk_rec c ++ post) <= DEFAULT_CHUNK_SIZE + 8) by (rewrite Forall_forall in Hs; by eapply Hs, list_elem_of_lookup_2).
  set (b := pre ++ chunk_rec c ++ post) in *. set (off := Z.of_nat (length pre)).
  assert (Hbl : mm_len b = off + Z.of_nat (length (chunk_rec c)) + Z.of_nat (length post)) by (unfold mm_len, b, off; rewrite !length_app; lia).
  pose proof (length_chunk_data c) as Hd. pose proof (chunk_rec_eq c) as Ec.
  assert (Hrl : Z.of_nat (length (chunk_rec c)) = Z.of_nat (length (encode_unsigned_varint (chunk_size c))) + 5 + chunk_size c).
  { rewrite Ec, !length_app, length_be_bytes. simpl length. lia. }
  unfold DEFAULT_CHUNK_SIZE in *.
  assert (E1 : s32 (Z.shiftr (Z.of_nat i * 2 ^ 32 + off) 32) = Z.of_nat i).
  { rewrite Z.shiftr_div_pow2 by lia. replace ((Z.of_nat i * 2 ^ 32 + off) / 2 ^ 32) with (Z.of_nat i); [unfold s32; apply swrap_id; [done|unfold is_s; lia]|].
    rewrite Z.add_comm, Z_div_plus_full by lia. rewrite Z.div_small by (unfold off in *; lia). lia. }
  assert (E2 : s32 (Z.shiftr (u64 (Z.shiftl (Z.of_nat i * 2 ^ 32 + off) 32)) 32) = off).
  { rewrite Z.shiftl_mul_pow2, Z.shiftr_div_pow2 by lia. unfold u64, wrap.
    replace ((Z.of_nat i * 2 ^ 32 + off) * 2 ^ 32) with (off * 2 ^ 32 + Z.of_nat i * 2 ^ 64) by lia. rewrite Z_mod_plus_full, Z.mod_small by (unfold off in *; lia).
    rewrite Z_div_mult by lia. unfold s32. apply swrap_id; [done|]. unfold is_s, off in *. lia. }
  unfold read_chunk. rewrite E1, E2, Er. unfold u64. rewrite wrap_id by (unfold is_u; lia).
  rewrite (proj2 (Z.leb_gt _ _)) by lia. rewrite Nat2Z.id, Hi. cbn [mbind option_bind]. rewrite (proj2 (Z.leb_gt _ _)) by lia.
  assert (Er1 : (mm_range b off (off + MAX_VARINT_LEN_32)).1 = chunk_rec c ++ post).
  { unfold mm_range, MAX_VARINT_LEN_32. rewrite (proj2 (Z.leb_gt _ _)) by lia. rewrite (proj2 (Z.ltb_ge _ 0)) by (unfold off; lia). cbn [fst]. apply drop_app_length'.
    unfold off. lia. }
  rewrite Er1, Ec. rewrite <- app_assoc.
  assert (Hu : is_u64 (chunk_size c)) by (unfold is_u; lia).
  assert (Hv : Z.of_nat (length (encode_unsigned_varint (chunk_size c))) <= MAX_VARINT_LEN_32).
  { rewrite encode_unsigned_varint_varint by done. pose proof (varint_short 5 (chunk_size c) ltac:(change (7 * Z.of_nat 5) with 35; lia) ltac:(lia)). unfold MAX_VARINT_LEN_32. simpl in *. lia. }
  rewrite (decode_encode_unsigned (chunk_size c) [] _ MAX_VARINT_LEN_32 Hu Hv : decode_unsigned_varint (encode_unsigned_varint (chunk_size c) ++ _) 0 MAX_VARINT_LEN_32 = _).
  cbn [mbind option_bind]. set (k := Z.of_nat (length (encode_unsigned_varint (chunk_size c)))) in *.
  rewrite wrap_id by (unfold is_u, off in *; lia). rewrite (proj2 (Z.ltb_ge _ _)) by lia. rewrite (proj2 (Z.ltb_ge _ _)) by lia. cbn [orb].
  unfold s32. rewrite swrap_id by (done || (unfold is_s; lia)). do 2 f_equal. rewrite wrap_id by (unfold is_u; lia). f_equal.
  unfold mm_range. rewrite (proj2 (Z.leb_gt _ _)) by lia. rewrite (proj2 (Z.ltb_ge _ 0)) by (unfold off, k; lia). cbn [fst].
  unfold b. rewrite Ec, <- !app_assoc, !app_assoc. rewrite <- (app_assoc _ (be_bytes 4 _)), <- (app_assoc _ (chunk_data c)). rewrite drop_app_length'.
  - apply take_app_length'. lia.
  - rewrite !length_app. simpl length. unfold off, k. lia.
Qed.

(** Chunks whose bytes can be read on their own, as the samples [l]. *)
Definition reads_back (c : XORChunk) (l : list (Z * Z)) : Prop :=
  0 < chunk_size c < 2 ^ 31 /\ chunk_reads (xor_chunk_of (chunk_data c) (chunk_size c) false) = l /\
  chunk_fails (xor_chunk_of (chunk_data c) (chunk_size c) false) = false.

(** A chunk that was appended to. *)
Lemma held_reads_back c hdr l a w : read_mode c = false -> holds (bstream c) hdr l a w -> chunk_size c < 2 ^ 31 -> reads_back c l.
Proof.
  intros Hm (body & Hc & Hr & _) Hs. pose proof Hc as ((Hv & _) & Hhs & Hn). destruct (chunk_at_mem _ _ _ _ Hc) as (s & pad & Hp & Hb & Hok & Hst).
  set (n := Z.of_nat (length l)) in *. set (d := be_bytes 2 n ++ s).
  assert (Hdl : length d = (2 + length s)%nat) by (unfold d; by rewrite length_app, length_be_bytes).
  assert (Hsz : chunk_size c = Z.of_nat (length d)).
  { unfold chunk_size, bs_size, size_of. rewrite Hm, Hv, Hst, Hhs, !length_app, length_be_bytes. lia. }
  assert (Ed : chunk_data c = d).
  { unfold chunk_data, chunk_bytes. rewrite Hm, Hp, Hsz. fold d. replace (Z.of_nat (length d)) with (Z.of_nat (length d + 0)) by lia.
    destruct (copied_bytes d 0) as (g & Eg & _); [apply Forall_app; split; [apply be_bytes_ok|done]|]. rewrite Eg.
    apply (f_equal length) in Eg as El. rewrite length_map, length_seqZ, length_app in El. destruct g; [by rewrite app_nil_r|simpl in El; lia]. }
  split; [lia|]. rewrite Ed, Hsz. unfold chunk_reads, chunk_fails.
  change (chunk_iterator (xor_chunk_of d (Z.of_nat (length d)) false)) with (xor_iterator_of (bs_of_ptr d (Z.of_nat (length d))) false).
  destruct (iterator_facing (bs_of_ptr d (Z.of_nat (length d))) n s 0 body pad false) as (Hf & Ht & rest & Hface); try done.
  unfold is_u in Hn. destruct (run_reads body l a w _ rest Hr Hf Hface Ht ltac:(lia)) as [E1 (_ & _ & _ & _ & E2 & _)]. done.
Qed.

(** ** Batches *)

Fixpoint write_batches (w : ChunkWriter) (st : Metas) (batches : list (list nat)) : option (ChunkWriter * Metas) :=
  match batches with
  | [] => Some (w, st)
  | b :: batches => '(w, st) ← write_chunks w st b; write_batches w st batches
  end.

(** A chunk that can be moved: its bytes alone give its samples, its header
    counts them, and it is no larger than they account for. *)
Definition portable (c : XORChunk) : Prop :=
  reads_back c (chunk_reads c) /\ chunk_num_samples c = Z.of_nat (length (chunk_reads c)) /\
  chunk_size c <= 32 + 20 * Z.of_nat (length (chunk_reads c)).

Lemma made_portable c l : made c l -> Z.of_nat (length l) <= 65535 -> portable c.
Proof.
  intros Hm Hl. pose proof (made_size c l Hm) as Hs. unfold portable. destruct (made_reads c l Hm) as [-> _]. destruct Hm as (Hm & _ & a & w & Hh).
  split; [apply (held_reads_back c [] l a w); [done|done|lia]|]. split; [|lia]. destruct Hh as (body & Hc & _). pose proof Hc as (_ & _ & Hn).
  destruct (chunk_at_mem _ _ _ _ Hc) as (s & pad & Hp & _). unfold chunk_num_samples, chunk_bytes. rewrite Hm, Hp. by apply get_count.
Qed.

Lemma batch_ok_same st st' chunks : (forall p, p ∈ chunks -> st' !! p = st !! p) -> batch_ok st chunks -> batch_ok st' chunks.
Proof.
  intros He (H1 & H2 & H3). split; [done|]. split.
  - rewrite Forall_forall in H2 |- *. intros p Hp. rewrite He by done. by apply H2.
  - replace (batch_len st' chunks) with (batch_len st chunks); [done|]. clear -He. induction chunks as [|p chunks IH]; [done|]. cbn [batch_len foldr].
    unfold size_at at 1 3. rewrite He by left. f_equal. apply IH. intros q Hq. apply He. by right.
Qed.

Lemma chunk_batches_spec batches : forall w st cs, cw_inv w cs -> Forall (batch_ok st) batches -> NoDup (concat batches) ->
  Z.of_nat (length cs + length batches) <= 10 ^ 6 ->
  exists w' st' cs', write_batches w st batches = Some (w', st') /\ cw_inv w' cs' /\ grows cs cs' /\ refs_set cs' st st' (concat batches).
Proof.
  induction batches as [|b batches IH]; intros w st cs Hw Hb Hnd Hl.
  { exists w, st, cs. split_and!; [done|done|apply grows_refl|]. split; [done|]. by intros p m ?%elem_of_nil. }
  apply Forall_cons in Hb as [Hb Hbs]. cbn [concat] in *. apply NoDup_app in Hnd as (Hn1 & Hdis & Hn2). cbn [length] in Hl.
  destruct (write_chunks_spec w st b cs Hw Hb ltac:(lia)) as (w1 & st1 & cs1 & E & Hw1 & Hg1 & [R1 R2] & Hl1).
  assert (Hkeep : forall p, p ∈ concat batches -> st1 !! p = st !! p) by (intros p Hp; apply R1; intros Hx; by apply (Hdis p)).
  destruct (IH w1 st1 cs1 Hw1) as (w2 & st2 & cs2 & E2 & Hw2 & Hg2 & [S1 S2]); [|done|lia|].
  { rewrite Forall_forall in Hbs |- *. intros x Hx. apply (batch_ok_same st); [|by apply Hbs]. intros p Hp. apply Hkeep.
    apply list_elem_of_In, in_concat. exists x. by rewrite <- !list_elem_of_In. }
  exists w2, st2, cs2. cbn [write_batches]. rewrite E. cbn [mbind option_bind]. split_and!; [done|done|by eapply grows_trans|]. split.
  - intros p [Hp1 Hp2]%not_elem_of_app. by rewrite S1, R1.
  - intros p m Hp Em. destruct (decide (p ∈ concat batches)) as [Hx|Hx].
    + apply S2; [done|]. by rewrite Hkeep.
    + apply elem_of_app in Hp as [Hp|]; [|done]. destruct (R2 p m Hp Em) as (m' & E' & Hs & Hpl). exists m'. rewrite S1 by done.
      split_and!; [done|done|]. by eapply placed_grows.
Qed.

(** C38.  Chunk files give back their chunks.  Whatever batches of chunks are
    written to an empty directory, each batch at most a file's worth, the writer
    cuts files as it goes and sets the reference of every chunk; a reader of the
    directory then opens without an error, and from its reference every chunk is
    read back with the samples it held. *)
Theorem chunk_files_round_trip st batches :
  Forall (batch_ok st) batches -> NoDup (concat batches) -> Z.of_nat (length batches) <= 10 ^ 6 ->
  exists w st', write_batches (chunk_writer []) st batches = Some (w, st') /\ rd_err (chunk_reader (cw_dir w)) = false /\
    (forall p, p ∉ concat batches -> st' !! p = st !! p) /\
    forall p m l, p ∈ concat batches -> st !! p = Some m -> reads_back (cm_chunk m) l ->
      exists m' c, st' !! p = Some m' /\ same_but_ref m m' /\ read_chunk (chunk_reader (cw_dir w)) (cm_ref m') = Some (Some c) /\
        chunk_reads c = l /\ chunk_fails c = false.
Proof.
  intros Hb Hnd Hl. destruct (chunk_batches_spec batches (chunk_writer []) st [] writer_inv Hb Hnd Hl) as (w & st' & cs & E & Hw & _ & [R1 R2]).
  destruct (reader_opens w cs Hw) as (size & Er). exists w, st'. rewrite Er. split_and!; [done|done|done|]. intros p m l Hp Em (Hs & Hr & Hf).
  destruct (R2 p m Hp Em) as (m' & E' & Hsame & Hpl). exists m', (xor_chunk_of (chunk_data (cm_chunk m)) (chunk_size (cm_chunk m)) false).
  split_and!; try done. by apply (read_placed _ cs); [|apply (ci_few _ _ Hw)|apply (ci_short _ _ Hw)| |].
Qed.

End Layout.

(** ** Examples *)

Module ChunkDemo.
#[local] Instance demo_past : PastEnd := fun _ => 0.
#[local] Instance demo_crc : Crc := fun b => u32 (foldl (fun h x => 31 * h + x + 1) 7 b).

Definition demo_samples (k : Z) : list (Z * Z) := map (fun i => (1000 * i + k, i * i * 77777777777 + k)) (seqZ 1 20).
Definition demo_metas : Metas := map (fun k => mkChunkMeta 0 (chunk_of (demo_samples k)) (1000 + k) (20000 + k)) [0; 1; 2].

(** The chunk behind a pointer holds its samples. *)
Lemma demo_reads_back k : k = 0 \/ k = 1 \/ k = 2 -> reads_back (chunk_of (demo_samples k)) (demo_samples k).
Proof.
  intros Hk. assert (Hok : Forall sample_ok (demo_samples k)).
  { unfold demo_samples. cbv [seqZ fmap list_fmap seq Z.to_nat app map]. destruct Hk as [->|[->| ->]];
      repeat (constructor; [vm_compute; repeat split; congruence|]); constructor. }
  assert (Hl : Z.of_nat (length (demo_samples k)) <= 65535) by (unfold demo_samples; rewrite length_map, length_seqZ; lia).
  destruct (append_batch_holds xor_chunk _ [] _ _ (demo_samples k) (fresh_holds 0 ltac:(lia)) eq_refl Hok Hl) as (c & a & w & E & Hm & Hh).
  unfold chunk_of. rewrite E. eapply held_reads_back; [done|exact Hh|].
  assert (Ec : match append_batch xor_chunk (demo_samples k) with Some c => chunk_size c <? 2 ^ 31 | None => false end = true)
    by (destruct Hk as [->|[->| ->]]; vm_compute; reflexivity).
  rewrite E in Ec. by apply Z.ltb_lt.
Qed.

Lemma demo_batch chunks : NoDup chunks -> forallb (fun p => match demo_metas !! p with Some m => 0 <=? chunk_size (cm_chunk m) | None => false end) chunks = true ->
  (batch_len demo_metas chunks <=? DEFAULT_CHUNK_SIZE) = true -> batch_ok demo_metas chunks.
Proof.
  intros Hn Hc Hb%Z.leb_le. split; [done|]. split; [|done]. apply Forall_forall. intros p Hp. rewrite forallb_forall in Hc.
  apply list_elem_of_In in Hp. specialize (Hc p Hp). destruct (demo_metas !! p) as [m|]; [|done]. exists m. split; [done|]. by apply Z.leb_le.
Qed.

(** Three chunks in two batches, one of them read back. *)
Lemma chunk_files_round_trip_witness :
  exists w st', write_batches (chunk_writer []) demo_metas [[2; 0]; [1]]%nat = Some (w, st') /\
    exists m' c, st' !! 1%nat = Some m' /\ read_chunk (chunk_reader (cw_dir w)) (cm_ref m') = Some (Some c) /\ chunk_reads c = demo_samples 1.
Proof.
  destruct (chunk_files_round_trip demo_metas [[2; 0]; [1]]%nat) as (w & st' & E & _ & _ & H).
  - repeat (apply Forall_cons; split); [..|apply Forall_nil_2]; (apply demo_batch; [apply (bool_decide_eq_true_1 _); reflexivity|vm_compute; reflexivity..]).
  - apply (bool_decide_eq_true_1 _). reflexivity.
  - simpl. lia.
  - exists w, st'. split; [exact E|].
    destruct (H 1%nat (mkChunkMeta 0 (chunk_of (demo_samples 1)) 1001 20001) (demo_samples 1)) as (m' & c & H1 & _ & H2 & H3 & _).
    + apply list_elem_of_In. simpl. tauto.
    + reflexivity.
    + exact (demo_reads_back 1 (or_intror (or_introl eq_refl))).
    + exists m', c. split; [exact H1|]. split; [exact H2|exact H3].
Defined.

(** The keys of the key-value store have room for 32 bits of an id only. *)
Example chunk_keys_collide : chunk_key 5 1000 = chunk_key (2 ^ 32 + 5) 1000.
Proof. vm_compute. reflexivity. Qed.

End ChunkDemo.
