(* ===== verification/CompactPlan.v ===== *)
(** compact/LeveledCompactor: which blocks to compact ([plan_helper],
    [overlapping_dirs], [select_dirs], [split_by_range]) and the meta of the new
    block ([compact_block_metas]); block/BlockUtils.hpp: the metas.

    [std::sort] is a parameter (class [Sort]): it leaves the order of blocks that
    start together open.  So are ULIDs, which third_party defines.  The ratio of
    tombstones is computed in doubles ([SpecFloat], 53 bits). *)
From Stdlib Require Import ZArith Lia Bool Sorting.Sorted SpecFloat.
From stdpp Require Import base list numbers option sorting.
From S2P Require Import Prelude Label.

(** ** Sorting *)

(** [std::sort] with a comparator that compares a key. *)
Class Sort := sort_by : forall A : Type, (A -> Z) -> list A -> list A.
Arguments sort_by {_ A}.

Class SortLaws (SO : Sort) := {
  sort_by_perm {A} (key : A -> Z) l : sort_by key l ≡ₚ l;
  sort_by_sorted {A} (key : A -> Z) l : StronglySorted (fun a b => key a <= key b) (sort_by key l) }.

Class Ulid := {
  ULID : Type;
  ulid_eq_dec :: EqDecision ULID;
  CompareULIDs : ULID -> ULID -> Z }.

Section Plan.
Context `{SO : Sort} `{UL : Ulid}.

(** ** Metas of blocks *)

Record BlockStats := mkBlockStats {
  num_samples : Z;
  num_series : Z;
  num_chunks : Z;
  num_tombstones : Z;
  num_bytes : Z }.

Record BlockDesc := mkBlockDesc { bd_ulid : ULID; bd_min_time : Z; bd_max_time : Z }.

Record BlockMetaCompaction := mkCompaction {
  level : Z;
  sources : list ULID;
  parents : list BlockDesc;
  compaction_failed : bool;
  deletable : bool }.

Record BlockMeta := mkBlockMeta {
  bm_ulid : ULID;
  bm_min_time : Z;
  bm_max_time : Z;
  stats : BlockStats;
  compaction : BlockMetaCompaction;
  version : Z }.

Record DirMeta := mkDirMeta { dm_dir : str; dm_meta : BlockMeta }.

Definition dm_min (d : DirMeta) : Z := bm_min_time (dm_meta d).
Definition dm_max (d : DirMeta) : Z := bm_max_time (dm_meta d).

Definition sort_by_min_time (dms : list DirMeta) : list DirMeta := sort_by dm_min dms.

(** ** Overlapping blocks *)

(** The loop of [overlapping_dirs]: [prev] is the block before. *)
Fixpoint overlapping_loop (prev : DirMeta) (max : Z) (overlappings : list str) (dms : list DirMeta) : list str :=
  match dms with
  | [] => overlappings
  | d :: dms =>
    let max' := if max <? dm_max d then dm_max d else max in
    if dm_min d <? max then
      let overlappings := if bool_decide (overlappings = []) then overlappings ++ [dm_dir prev] else overlappings in
      overlapping_loop d max' (overlappings ++ [dm_dir d]) dms
    else if negb (bool_decide (overlappings = [])) then overlappings
    else overlapping_loop d max' overlappings dms
  end.

Definition overlapping_dirs (dms : list DirMeta) : list str :=
  match dms with
  | d :: (_ :: _) as rest => overlapping_loop d (dm_max d) [] rest
  | _ => []
  end.

(** ** Windows of time *)

(** The start of the window of size [range] that holds [mt]; division truncates. *)
Definition window_start (range mt : Z) : Z :=
  if 0 <=? mt then s64 (range * (mt ÷ range)) else s64 (range * (s64 (s64 (mt - range) + 1) ÷ range)).

(** The blocks from the front on that end by [limit], and the others. *)
Fixpoint take_group (limit : Z) (dms : list DirMeta) : list DirMeta * list DirMeta :=
  match dms with
  | [] => ([], [])
  | d :: rest => if limit <? dm_max d then ([], dms) else let '(g, rest) := take_group limit rest in (d :: g, rest)
  end.

Fixpoint split_loop (rounds : nat) (range : Z) (dms : list DirMeta) : option (list (list DirMeta)) :=
  match rounds with
  | O => None
  | S rounds =>
    match dms with
    | [] => Some []
    | d :: rest =>
      let limit := s64 (window_start range (dm_min d) + range) in
      if limit <? dm_max d then split_loop rounds range rest
      else
        let '(group, rest) := take_group limit dms in
        parts ← split_loop rounds range rest;
        Some (if bool_decide (group = []) then parts else group :: parts)
    end
  end.

Definition split_by_range (dms : list DirMeta) (range : Z) : option (list (list DirMeta)) :=
  split_loop (S (length dms)) range dms.

(** Whether a part is to be compacted; [None]: there is no first block. *)
Definition part_chosen (high_time range : Z) (part : list DirMeta) : option bool :=
  if existsb (fun d => compaction_failed (compaction (dm_meta d))) part then Some false
  else
    first ← head part;
    final ← last part;
    let min_time := dm_min first in
    let max_time := dm_max final in
    Some (((s64 (max_time - min_time) =? range) || (max_time <=? high_time)) && (1 <? Z.of_nat (length part))).

Fixpoint select_part (high_time range : Z) (parts : list (list DirMeta)) : option (option (list DirMeta)) :=
  match parts with
  | [] => Some None
  | part :: parts => chosen ← part_chosen high_time range part; if chosen : bool then Some (Some part) else select_part high_time range parts
  end.

Fixpoint select_range (dms : list DirMeta) (high_time : Z) (ranges : list Z) : option (option (list DirMeta)) :=
  match ranges with
  | [] => Some None
  | range :: ranges =>
    parts ← split_by_range dms range;
    found ← select_part high_time range parts;
    match found with Some part => Some (Some part) | None => select_range dms high_time ranges end
  end.

(** The inner [None] is a null pointer. *)
Definition select_dirs (ranges : list Z) (dms : list DirMeta) : option (option (list DirMeta)) :=
  if (length ranges <? 2)%nat || bool_decide (dms = []) then Some None
  else
    newest ← last dms;
    select_range dms (dm_min newest) (drop 1 ranges).

(** ** Blocks with tombstones *)

Definition double_of (n : Z) : spec_float := binary_normalize 53 1024 n 0 false.

(** [(double)num_tombstones / (double)num_series > 0.05] *)
Definition many_tombstones (s : BlockStats) : bool :=
  SFltb (SFdiv 53 1024 (double_of 5) (double_of 100)) (SFdiv 53 1024 (double_of (num_tombstones s)) (double_of (num_series s))).

(** The loop from the last block to the first, the list reversed. *)
Fixpoint tombstone_loop (middle : Z) (dms : list DirMeta) : list str :=
  match dms with
  | [] => []
  | d :: dms =>
    if s64 (dm_max d - dm_min d) <? middle then []
    else if many_tombstones (stats (dm_meta d)) then [dm_dir d]
    else tombstone_loop middle dms
  end.

(** ** The plan *)

(** [None]: there are no blocks to pop, or no ranges to index. *)
Definition plan_helper (ranges : list Z) (dms : list DirMeta) : option (list str) :=
  let dms := sort_by_min_time dms in
  let res := overlapping_dirs dms in
  if negb (bool_decide (res = [])) then Some res
  else
    _ ← last dms;
    let dms := removelast dms in
    selected ← select_dirs ranges dms;
    let res := match selected with Some part => map dm_dir part | None => [] end in
    if negb (bool_decide (res = [])) then Some res
    else if bool_decide (dms = []) then Some []
    else middle ← ranges !! (length ranges / 2)%nat; Some (tombstone_loop middle (rev dms)).

(** ** The meta of the new block *)

Definition ulid_key_le (a b : ULID) : Prop := CompareULIDs a b <= 0.

#[local] Instance ulid_key_le_dec : RelDecision ulid_key_le.
Proof. intros a b. unfold ulid_key_le. apply _. Defined.

Definition int64_min : Z := - 2 ^ 63.

Definition compact_block_metas (ulid : ULID) (bms : list BlockMeta) : option BlockMeta :=
  front ← head bms;
  let max_time := foldl (fun m b => if m <? bm_max_time b then bm_max_time b else m) int64_min bms in
  let level := foldl (fun l b => if l <? level (compaction b) then level (compaction b) else l) 0 bms in
  let sources := remove_dups (bms ≫= fun b => sources (compaction b)) in
  Some (mkBlockMeta ulid (bm_min_time front) max_time (mkBlockStats 0 0 0 0 0)
    (mkCompaction (s32 (level + 1)) (merge_sort ulid_key_le sources)
       (map (fun b => mkBlockDesc (bm_ulid b) (bm_min_time b) (bm_max_time b)) bms) false false) 1).

(** ** Blocks in order *)

Definition starts_before (a b : DirMeta) : Prop := dm_min a <= dm_min b.
Definition ends_before (a b : DirMeta) : Prop := dm_max a <= dm_min b.

(** No two of the blocks, in the order of time, overlap. *)
Definition apart_blocks (l : list DirMeta) : Prop := StronglySorted ends_before l.

Definition block_ok (d : DirMeta) : Prop := - 2 ^ 61 <= dm_min d < dm_max d /\ dm_max d <= 2 ^ 61.

(** Each block overlaps one before it. *)
Inductive linked : list DirMeta -> Prop :=
| linked_one d : linked [d]
| linked_snoc cl d y : linked cl -> y ∈ cl -> dm_min d < dm_max y -> linked (cl ++ [d]).

(** Every block of the first list ends before every block of the second starts. *)
Definition all_before (a b : list DirMeta) : Prop := forall x y, x ∈ a -> y ∈ b -> ends_before x y.

Lemma all_before_app_r a b c : all_before a b -> all_before a c -> all_before a (b ++ c).
Proof. intros H1 H2 x y Hx [Hy|Hy]%elem_of_app; auto. Qed.

Lemma all_before_later a d rest : all_before a [d] -> Forall (starts_before d) rest -> all_before a (d :: rest).
Proof.
  intros H Hs x y Hx [->|Hy]%elem_of_cons; [apply H; [done|left]|].
  rewrite Forall_forall in Hs. specialize (Hs y Hy). specialize (H x d Hx ltac:(left)). unfold starts_before, ends_before in *. lia.
Qed.

(** ** The first overlapping blocks *)

Lemma cluster_loop rest : forall cl max prev,
  linked cl -> Forall (fun x => dm_max x <= max) cl -> (exists y, y ∈ cl /\ dm_max y = max) -> StronglySorted starts_before rest ->
  exists c2 l2, rest = c2 ++ l2 /\ overlapping_loop prev max (map dm_dir cl) rest = map dm_dir (cl ++ c2) /\
    linked (cl ++ c2) /\ all_before (cl ++ c2) l2.
Proof.
  induction rest as [|d rest IH]; intros cl max prev Hl Hm (y & Hy & Ey) Hs.
  { exists [], []. rewrite (app_nil_r cl). split; [done|]. split; [done|]. split; [done|]. by intros ? ? _ ?%elem_of_nil. }
  apply StronglySorted_inv in Hs as [Hs Hd]. cbn [overlapping_loop].
  rewrite (bool_decide_eq_false_2 (map dm_dir cl = [])) by (intros E; apply map_eq_nil in E; subst; by apply elem_of_nil in Hy).
  destruct (Z.ltb_spec (dm_min d) max) as [Hlt|Hge]; cbn [negb].
  - replace (map dm_dir cl ++ [dm_dir d]) with (map dm_dir (cl ++ [d])) by by rewrite map_app.
    set (max' := if max <? dm_max d then dm_max d else max). assert (Hmax : max <= max' /\ dm_max d <= max' /\ (max' = max \/ max' = dm_max d))
      by (unfold max'; destruct (Z.ltb_spec max (dm_max d)); lia).
    destruct (IH (cl ++ [d]) max' d) as (c2 & l2 & -> & E & Hlk & Hb); [apply (linked_snoc _ _ y); [done|done|lia]| | |done|].
    + apply Forall_app. split; [|apply Forall_singleton; lia]. eapply Forall_impl; [exact Hm|]. intros x Hx. cbn beta in Hx. lia.
    + destruct Hmax as (_ & _ & [->| ->]); [exists y|exists d]; (split; [apply elem_of_app|done]); [by left|right; left].
    + exists (d :: c2), l2. rewrite <- app_assoc in E, Hlk, Hb. done.
  - exists [], (d :: rest). rewrite (app_nil_r cl). split; [done|]. split; [done|]. split; [done|]. apply all_before_later; [|done].
    intros x z Hx ->%list_elem_of_singleton. rewrite Forall_forall in Hm. specialize (Hm x Hx). unfold ends_before. cbn beta in Hm. lia.
Qed.

(** The blocks split at the first that overlap. *)
Definition first_cluster (l l1 cl l2 : list DirMeta) : Prop :=
  l = l1 ++ cl ++ l2 /\ (2 <= length cl)%nat /\ linked cl /\ all_before l1 (cl ++ l2) /\ all_before cl l2.

Lemma apart_snoc l d : apart_blocks l -> all_before l [d] -> apart_blocks (l ++ [d]).
Proof.
  intros Hl Hb. apply StronglySorted_app. split_and!; [exact Hb|exact Hl|]. apply SSorted_cons; [apply SSorted_nil|apply Forall_nil_2].
Qed.

Lemma overlapping_loop_spec rest : forall pre prev,
  StronglySorted starts_before (pre ++ prev :: rest) -> Forall block_ok (pre ++ prev :: rest) -> apart_blocks (pre ++ [prev]) ->
  (apart_blocks (pre ++ prev :: rest) /\ overlapping_loop prev (dm_max prev) [] rest = []) \/
  exists l1 cl l2, first_cluster (pre ++ prev :: rest) l1 cl l2 /\ overlapping_loop prev (dm_max prev) [] rest = map dm_dir cl.
Proof.
  induction rest as [|d rest IH]; intros pre prev Hs Hok Ha; [by left|].
  assert (Hpre : all_before pre [prev]) by (apply StronglySorted_app in Ha as (Ha & _); exact Ha).
  pose proof Hs as (Hs1 & _ & Hs2)%StronglySorted_app. apply StronglySorted_inv in Hs2 as [Hs2 Hp].
  pose proof Hs2 as [Hs3 Hd]%StronglySorted_inv.
  pose proof Hok as [_ [Hprev [Hdok _]%Forall_cons]%Forall_cons]%Forall_app.
  cbn [overlapping_loop]. rewrite bool_decide_eq_true_2 by done. cbn [negb app]. destruct (Z.ltb_spec (dm_min d) (dm_max prev)) as [Hlt|Hge].
  - right. change [dm_dir prev; dm_dir d] with (map dm_dir [prev; d]).
    set (max' := if dm_max prev <? dm_max d then dm_max d else dm_max prev).
    assert (Hmax : dm_max prev <= max' /\ dm_max d <= max' /\ (max' = dm_max prev \/ max' = dm_max d))
      by (unfold max'; destruct (Z.ltb_spec (dm_max prev) (dm_max d)); lia).
    destruct (cluster_loop rest [prev; d] max' d) as (c2 & l2 & -> & E & Hlk & Hb); [| | |done|].
    + apply (linked_snoc [prev] d prev); [constructor|left|done].
    + repeat (apply Forall_cons; split; [lia|]). apply Forall_nil_2.
    + destruct Hmax as (_ & _ & [->| ->]); [exists prev|exists d]; (split; [|done]); [left|right; left].
    + exists pre, (prev :: d :: c2), l2. split; [|exact E]. split; [done|]. split; [simpl; lia|]. split; [exact Hlk|]. split; [|exact Hb].
      exact (all_before_later pre prev (d :: c2 ++ l2) Hpre Hp).
  - replace (if dm_max prev <? dm_max d then dm_max d else dm_max prev) with (dm_max d)
      by (unfold block_ok in *; destruct (Z.ltb_spec (dm_max prev) (dm_max d)); lia).
    specialize (IH (pre ++ [prev]) d). rewrite <- (app_assoc pre [prev]) in IH. cbn [app] in IH. apply IH; [done|done|].
    apply apart_snoc; [done|]. intros x y [Hx| ->%list_elem_of_singleton]%elem_of_app ->%list_elem_of_singleton; [|done].
    specialize (Hpre x prev Hx ltac:(left)). unfold ends_before, block_ok in *. lia.
Qed.

Lemma overlapping_dirs_spec l :
  StronglySorted starts_before l -> Forall block_ok l ->
  (apart_blocks l /\ overlapping_dirs l = []) \/
  exists l1 cl l2, first_cluster l l1 cl l2 /\ overlapping_dirs l = map dm_dir cl.
Proof.
  intros Hs Hok. destruct l as [|d [|e l]].
  - left. split; [apply SSorted_nil|done].
  - left. split; [apply SSorted_cons; [apply SSorted_nil|apply Forall_nil_2]|done].
  - apply (overlapping_loop_spec (e :: l) [] d Hs Hok). apply SSorted_cons; [apply SSorted_nil|apply Forall_nil_2].
Qed.

(** ** Windows *)

Definition range_ok (r : Z) : Prop := 0 < r <= 2 ^ 61.

(** The start of the window of a block, and whether the block lies in it. *)
Definition window (r : Z) (d : DirMeta) : Z := r * (dm_min d / r).
Definition fits (r : Z) (d : DirMeta) : Prop := dm_max d <= window r d + r.

Lemma window_bounds r d : range_ok r -> window r d <= dm_min d < window r d + r.
Proof. intros Hr. unfold window, range_ok in *. pose proof (Z.div_mod (dm_min d) r ltac:(lia)). pose proof (Z.mod_pos_bound (dm_min d) r ltac:(lia)). lia. Qed.

Lemma window_unique r d k : range_ok r -> r * k <= dm_min d < r * k + r -> window r d = r * k.
Proof. intros Hr Hk. unfold window, range_ok in *. f_equal. symmetry. apply (Z.div_unique_pos _ _ _ (dm_min d - r * k)); lia. Qed.

(** Rounding to zero, as the code does it, is rounding down. *)
Lemma round_down r t : 0 < r -> t < 0 -> (t - r + 1) ÷ r = t / r.
Proof.
  intros Hr Ht. rewrite <- (Z.opp_involutive (t - r + 1)), Z.quot_opp_l, Z.quot_div_nonneg by lia.
  pose proof (Z.div_mod t r ltac:(lia)). pose proof (Z.mod_pos_bound t r ltac:(lia)).
  enough (- (t - r + 1) / r = - (t / r)) by lia. symmetry. apply (Z.div_unique_pos _ _ _ (r - 1 - t mod r)); lia.
Qed.

Lemma window_start_spec r d : range_ok r -> block_ok d -> window_start r (dm_min d) = window r d.
Proof.
  intros Hr Hd. pose proof (window_bounds r d Hr) as Hw. unfold window_start, window, range_ok, block_ok, s64 in *.
  destruct (Z.leb_spec 0 (dm_min d)).
  - rewrite Z.quot_div_nonneg by lia. apply swrap_id; unfold is_s; lia.
  - rewrite (swrap_id 64 (dm_min d - r)), (swrap_id 64 (dm_min d - r + 1)), round_down by (unfold is_s; lia). apply swrap_id; unfold is_s; lia.
Qed.

Lemma limit_spec r d : range_ok r -> block_ok d -> s64 (window_start r (dm_min d) + r) = window r d + r.
Proof.
  intros Hr Hd. rewrite window_start_spec by done. pose proof (window_bounds r d Hr). apply swrap_id; unfold is_s, range_ok, block_ok in *; lia.
Qed.

Lemma take_group_spec limit l g rest : take_group limit l = (g, rest) ->
  l = g ++ rest /\ Forall (fun d => dm_max d <= limit) g /\ match rest with [] => True | e :: _ => limit < dm_max e end.
Proof.
  revert g rest. induction l as [|d l IH]; intros g rest; cbn [take_group]; [by intros [= <- <-]|].
  destruct (Z.ltb_spec limit (dm_max d)); [by intros [= <- <-]|]. destruct (take_group limit l) as [g' rest'] eqn:E. intros [= <- <-].
  destruct (IH _ _ eq_refl) as (-> & Hg & Hr). split; [done|]. split; [by apply Forall_cons|done].
Qed.

(** Blocks after one that ends late end late. *)
Lemma late_blocks limit l : apart_blocks l -> Forall block_ok l -> match l with [] => True | e :: _ => limit < dm_max e end ->
  Forall (fun d => limit < dm_max d) l.
Proof.
  destruct l as [|e l]; [constructor|]. intros [_ Ha]%StronglySorted_inv [_ Hl]%Forall_cons He. apply Forall_cons. split; [done|].
  apply Forall_forall. intros y Hy. rewrite Forall_forall in Ha, Hl. specialize (Ha y Hy). specialize (Hl y Hy). unfold ends_before, block_ok in *. lia.
Qed.

(** The blocks of each part are in one window, those of later parts in later
    ones. *)
Definition one_window (r : Z) (part : list DirMeta) : Prop := part <> [] /\ exists w, Forall (fun d => window r d = w) part.
Definition earlier_window (r : Z) (p q : list DirMeta) : Prop := forall x y, x ∈ p -> y ∈ q -> window r x < window r y.

#[export] Instance fits_dec r d : Decision (fits r d) := Z_le_dec _ _.

(** The parts of a list of blocks: the blocks that fit, by their windows. *)
Record by_window (r : Z) (l : list DirMeta) (parts : list (list DirMeta)) : Prop := {
  bw_all : concat parts = filter (fits r) l;
  bw_one : Forall (one_window r) parts;
  bw_order : StronglySorted (earlier_window r) parts;
  bw_runs : Forall (fun p => exists l1 l2, l = l1 ++ p ++ l2) parts }.

Lemma group_window r d g rest : range_ok r -> apart_blocks (d :: g ++ rest) -> Forall block_ok (d :: g ++ rest) ->
  Forall (fun x => dm_max x <= window r d + r) (d :: g) -> Forall (fun x => window r x = window r d /\ fits r x) (d :: g).
Proof.
  intros Hr Ha Hok Hg. pose proof (window_bounds r d Hr) as Hw. apply Forall_cons in Hok as [Hd Hok]. apply Forall_cons in Hg as [Hmd Hg].
  apply StronglySorted_inv in Ha as [_ Ha]. apply Forall_cons. split; [by split|]. apply Forall_forall. intros x Hx.
  assert (Hx' : x ∈ g ++ rest) by (apply elem_of_app; by left). rewrite Forall_forall in Hok, Ha, Hg.
  specialize (Hok x Hx'). specialize (Ha x Hx'). specialize (Hg x Hx). unfold block_ok, ends_before in *. cbn beta in Hg.
  assert (E : window r x = window r d) by (unfold window at 2; apply window_unique; [done|]; fold (window r d); lia).
  split; [done|]. unfold fits. rewrite E. lia.
Qed.

Lemma split_loop_spec rounds : forall r l, (length l < rounds)%nat -> range_ok r -> apart_blocks l -> Forall block_ok l ->
  exists parts, split_loop rounds r l = Some parts /\ by_window r l parts.
Proof.
  induction rounds as [|rounds IH]; intros r l Hn Hr Ha Hok; [lia|]. destruct l as [|d l]; cbn [split_loop].
  { exists []. split; [done|]. by split; constructor. }
  pose proof Hok as [Hd Hok']%Forall_cons. pose proof Ha as [Ha' _]%StronglySorted_inv. rewrite limit_spec by done.
  destruct (Z.ltb_spec (window r d + r) (dm_max d)) as [Hlate|Hin].
  - destruct (IH r l) as (parts & E & [B1 B2 B3 B4]); [simpl in Hn; lia|done..|]. exists parts. split; [done|]. split; [|done|done|].
    + rewrite filter_cons_False by (unfold fits; lia). done.
    + eapply Forall_impl; [exact B4|]. intros p (l1 & l2 & ->). by exists (d :: l1), l2.
  - destruct (take_group (window r d + r) (d :: l)) as [g rest] eqn:Eg. pose proof (take_group_spec _ _ _ _ Eg) as (El & Hg & Hrest).
    cbn [take_group] in Eg. rewrite (proj2 (Z.ltb_ge _ _)) in Eg by lia. destruct (take_group _ l) as [g' rest']. injection Eg as <- ->.
    cbn [app] in El. injection El as El. subst l.
    pose proof (group_window r d g' rest Hr Ha Hok Hg) as Hw.
    assert (Harest : apart_blocks rest) by (apply StronglySorted_app in Ha' as (_ & _ & Ha'); exact Ha').
    assert (Hokrest : Forall block_ok rest) by (by apply Forall_app in Hok' as [_ Hok']).
    destruct (IH r rest) as (parts & E & [B1 B2 B3 B4]); [simpl in Hn; rewrite length_app in Hn; lia|done..|].
    exists ((d :: g') :: parts). rewrite E. split; [done|]. split.
    + cbn [concat]. rewrite B1. change (d :: g' ++ rest) with ((d :: g') ++ rest). rewrite filter_app. f_equal. symmetry.
      apply filter_id. eapply Forall_impl; [exact Hw|]. by intros x [_ Hx].
    + apply Forall_cons. split; [|done]. split; [done|]. exists (window r d). eapply Forall_impl; [exact Hw|]. by intros x [Hx _].
    + apply SSorted_cons; [done|]. apply Forall_forall. intros q Hq x y Hx Hy. rewrite Forall_forall in Hw. destruct (Hw x Hx) as [-> _].
      assert (Hyf : y ∈ filter (fits r) rest) by (rewrite <- B1; apply list_elem_of_In, in_concat; exists q; split; by apply list_elem_of_In).
      apply list_elem_of_filter in Hyf as [Hf Hyr]. pose proof (late_blocks _ rest Harest Hokrest Hrest) as Hlate.
      rewrite Forall_forall in Hlate. specialize (Hlate y Hyr). unfold fits in Hf. cbn beta in Hlate. lia.
    + apply Forall_cons. split; [by exists [], rest|]. eapply Forall_impl; [exact B4|]. intros p (l1 & l2 & ->). exists (d :: g' ++ l1), l2.
      cbn [app]. by rewrite <- app_assoc.
Qed.

(** ** The choice *)

(** At least two blocks, none of which failed before, that fill their window or
    lie before the newest block. *)
Definition compactable (high_time r : Z) (part : list DirMeta) : Prop :=
  (2 <= length part)%nat /\ Forall (fun d => compaction_failed (compaction (dm_meta d)) = false) part /\
  exists first final, head part = Some first /\ last part = Some final /\ (dm_max final - dm_min first = r \/ dm_max final <= high_time).

Lemma last_some (l : list DirMeta) : l <> [] -> exists x, last l = Some x /\ x ∈ l.
Proof.
  intros Hl. destruct (last l) as [x|] eqn:E; [|by apply last_None in E]. exists x. split; [done|].
  apply last_Some in E as (l' & ->). apply elem_of_app. right. left.
Qed.

Lemma part_chosen_spec high r part : part <> [] -> Forall block_ok part ->
  exists b, part_chosen high r part = Some b /\ (b = true <-> compactable high r part).
Proof.
  intros Hn Hok. unfold part_chosen. destruct (existsb _ part) eqn:Ef.
  { exists false. split; [done|]. split; [done|]. intros (_ & Hf & _). apply existsb_exists in Ef as (d & Hd & E).
    rewrite Forall_forall in Hf. apply list_elem_of_In in Hd. rewrite (Hf d Hd) in E. done. }
  destruct (last_some part Hn) as (final & El & Hl). rewrite El. destruct part as [|first part]; [done|]. cbn [head mbind option_bind].
  eexists. split; [done|]. pose proof Hok as [Hfirst _]%Forall_cons. rewrite Forall_forall in Hok. specialize (Hok final Hl). unfold block_ok in *.
  unfold s64. rewrite swrap_id by (unfold is_s; lia). rewrite andb_true_iff, orb_true_iff, Z.eqb_eq, Z.leb_le, Z.ltb_lt. split.
  - intros [Hc Hlen]. split; [lia|]. split; [|by exists first, final]. apply Forall_forall. intros d Hd. apply not_true_is_false. intros E.
    apply not_true_iff_false in Ef. apply Ef, existsb_exists. exists d. split; [by apply list_elem_of_In|done].
  - intros (Hlen & _ & f & l & [= <-] & E2 & Hc). rewrite El in E2. injection E2 as <-. split; [done|lia].
Qed.

Lemma select_part_spec high r parts : Forall (fun p => p <> [] /\ Forall block_ok p) parts ->
  exists sel, select_part high r parts = Some sel /\
    match sel with Some part => part ∈ parts /\ compactable high r part | None => Forall (fun p => ~ compactable high r p) parts end.
Proof.
  induction parts as [|p parts IH]; intros Hp; cbn [select_part]; [by exists None|]. apply Forall_cons in Hp as [[Hn Hok] Hp].
  destruct (part_chosen_spec high r p Hn Hok) as (b & -> & Hb). cbn [mbind option_bind]. destruct b.
  - exists (Some p). split; [done|]. split; [left|by apply Hb].
  - destruct (IH Hp) as (sel & E & Hsel). exists sel. split; [done|]. destruct sel as [part|]; [destruct Hsel; split; [by right|done]|].
    apply Forall_cons. split; [|done]. by intros Hc%Hb.
Qed.

(** A run of blocks in one window of size [r]. *)
Definition window_run (r : Z) (l part : list DirMeta) : Prop :=
  (exists l1 l2, l = l1 ++ part ++ l2) /\ exists w, Forall (fun d => window r d = w /\ fits r d) part.

Lemma parts_ok r l parts : by_window r l parts -> Forall block_ok l -> Forall (fun p => p <> [] /\ Forall block_ok p) parts.
Proof.
  intros [_ B2 _ B4] Hok. apply Forall_forall. intros p Hp. rewrite Forall_forall in B2, B4. destruct (B2 p Hp) as [Hn _]. split; [done|].
  destruct (B4 p Hp) as (l1 & l2 & ->). apply Forall_app in Hok as [_ Hok]. by apply Forall_app in Hok as [Hok _].
Qed.

Lemma part_run r l parts p : by_window r l parts -> p ∈ parts -> window_run r l p.
Proof.
  intros [B1 B2 _ B4] Hp. rewrite Forall_forall in B2, B4. split; [exact (B4 p Hp)|]. destruct (B2 p Hp) as (_ & w & Hw). exists w.
  apply Forall_forall. intros d Hd. rewrite Forall_forall in Hw. split; [exact (Hw d Hd)|].
  assert (Hc : d ∈ concat parts) by (apply list_elem_of_In, in_concat; exists p; split; by apply list_elem_of_In).
  rewrite B1 in Hc. by apply list_elem_of_filter in Hc as [Hc _].
Qed.

Lemma select_range_spec l high ranges : apart_blocks l -> Forall block_ok l -> Forall range_ok ranges ->
  exists sel, select_range l high ranges = Some sel /\
    match sel with
    | Some part => exists r, r ∈ ranges /\ window_run r l part /\ compactable high r part
    | None => Forall (fun r => exists parts, by_window r l parts /\ Forall (fun p => ~ compactable high r p) parts) ranges
    end.
Proof.
  intros Ha Hok. induction ranges as [|r ranges IH]; intros Hr; cbn [select_range]; [by exists None|]. apply Forall_cons in Hr as [Hr Hrs].
  destruct (split_loop_spec (S (length l)) r l ltac:(lia) Hr Ha Hok) as (parts & E & Hb). unfold split_by_range. rewrite E. cbn [mbind option_bind].
  destruct (select_part_spec high r parts (parts_ok r l parts Hb Hok)) as (sel & -> & Hsel). cbn [mbind option_bind]. destruct sel as [part|].
  - exists (Some part). split; [done|]. destruct Hsel as [Hin Hc]. exists r. split; [left|]. split; [by apply (part_run r l parts)|done].
  - destruct (IH Hrs) as (sel & -> & Hs). exists sel. split; [done|]. destruct sel as [part|].
    + destruct Hs as (r' & Hr' & H). exists r'. split; [by right|done].
    + apply Forall_cons. split; [by exists parts|done].
Qed.

(** ** The new meta *)

Lemma max_fold l : forall m0, let m := foldl (fun m b => if m <? bm_max_time b then bm_max_time b else m) m0 l in
  m0 <= m /\ Forall (fun b => bm_max_time b <= m) l /\ (m = m0 \/ exists b, b ∈ l /\ bm_max_time b = m).
Proof.
  induction l as [|b l IH]; intros m0; cbn [foldl]; [split; [lia|]; split; [constructor|by left]|].
  specialize (IH (if m0 <? bm_max_time b then bm_max_time b else m0)). cbn zeta in IH |- *. destruct IH as (H1 & H2 & H3).
  destruct (Z.ltb_spec m0 (bm_max_time b)); (split; [lia|]); (split; [apply Forall_cons; split; [lia|done]|]);
    destruct H3 as [->|(b' & Hb & E)]; [right; exists b; split; [left|done]|right; exists b'; split; [by right|done]|by left|
      right; exists b'; split; [by right|done]].
Qed.

(** The new meta spans the blocks. *)
Lemma compact_metas_span ulid part : part <> [] -> StronglySorted starts_before part -> Forall block_ok part ->
  exists bm, compact_block_metas ulid (map dm_meta part) = Some bm /\
    (exists d, d ∈ part /\ dm_min d = bm_min_time bm) /\ (exists d, d ∈ part /\ dm_max d = bm_max_time bm) /\
    Forall (fun d => bm_min_time bm <= dm_min d /\ dm_max d <= bm_max_time bm) part.
Proof.
  intros Hn Hs Hok. destruct part as [|d part]; [done|]. unfold compact_block_metas. cbn [map head mbind option_bind]. eexists. split; [done|].
  cbn [bm_min_time bm_max_time]. change (dm_meta d :: map dm_meta part) with (map dm_meta (d :: part)).
  destruct (max_fold (map dm_meta (d :: part)) int64_min) as (H1 & H2 & H3). cbn zeta in *. set (m := foldl _ _ _) in *.
  assert (H4 : Forall (fun x => dm_max x <= m) (d :: part)).
  { apply Forall_forall. intros x Hx. rewrite Forall_forall in H2. by apply (H2 (dm_meta x)), list_elem_of_In, in_map, list_elem_of_In. }
  clear H2. rename H4 into H2. split; [exists d; split; [left|done]|]. split.
  - destruct H3 as [E|(b & Hb & E)]; [|apply list_elem_of_In, in_map_iff in Hb as (x & <- & Hx); exists x; split; [by apply list_elem_of_In|done]].
    apply Forall_cons in H2 as [H2 _]. apply Forall_cons in Hok as [Hd _]. change (dm_max d <= m) in H2. unfold block_ok in Hd. unfold int64_min in E. lia.
  - apply StronglySorted_inv in Hs as [_ Hs]. apply Forall_cons. apply Forall_cons in H2 as [H2 H2']. split; [split; [done|exact H2]|].
    apply Forall_forall. intros x Hx. rewrite Forall_forall in Hs; rewrite Forall_forall in H2'. split; [exact (Hs x Hx)|exact (H2' x Hx)].
Qed.

(** ** The plan *)

Lemma sorted_run {A} (R : A -> A -> Prop) l1 part l2 : StronglySorted R (l1 ++ part ++ l2) ->
  StronglySorted R part /\ (forall x y, x ∈ l1 -> y ∈ part -> R x y) /\ (forall x y, x ∈ part -> y ∈ l2 -> R x y).
Proof.
  intros (H1 & _ & (H2 & H3 & _)%StronglySorted_app)%StronglySorted_app. split; [done|]. split; [|done]. intros x y Hx Hy.
  apply H1; [done|]. apply elem_of_app. by left.
Qed.

Lemma select_dirs_spec l ranges : apart_blocks l -> Forall block_ok l -> Forall range_ok ranges ->
  exists sel, select_dirs ranges l = Some sel /\
    match sel with
    | Some part => exists newest r, last l = Some newest /\ r ∈ drop 1 ranges /\ window_run r l part /\ compactable (dm_min newest) r part
    | None => forall newest, last l = Some newest ->
        Forall (fun r => exists parts, by_window r l parts /\ Forall (fun p => ~ compactable (dm_min newest) r p) parts) (drop 1 ranges)
    end.
Proof.
  intros Ha Hok Hr. unfold select_dirs. destruct (Nat.ltb_spec (length ranges) 2) as [Hn|Hn]; cbn [orb].
  { exists None. split; [done|]. intros newest _. destruct ranges as [|r [|]]; [constructor|constructor|simpl in Hn; lia]. }
  destruct (decide (l = [])) as [->|Hl]; [exists None; by split|]. rewrite bool_decide_eq_false_2 by done.
  destruct (last_some l Hl) as (newest & E & _). rewrite E. cbn [mbind option_bind].
  destruct (select_range_spec l (dm_min newest) (drop 1 ranges) Ha Hok (Forall_drop _ _ _ Hr)) as (sel & Es & Hs). exists sel. split; [done|].
  destruct sel as [part|]; [|by intros ? [= <-]]. destruct Hs as (r & H). by exists newest, r.
Qed.

Lemma tombstone_loop_spec middle l : tombstone_loop middle l = [] \/ exists d, d ∈ l /\ tombstone_loop middle l = [dm_dir d].
Proof.
  induction l as [|d l IH]; [by left|]. cbn [tombstone_loop]. destruct (_ <? _); [by left|]. destruct (many_tombstones _).
  - right. exists d. split; [left|done].
  - destruct IH as [->|(x & Hx & ->)]; [by left|]. right. exists x. split; [by right|done].
Qed.

(** What a plan is: nothing, and no blocks overlap; or the first blocks that
    overlap; or, when none do, a run of blocks without the newest. *)
Inductive planned (l : list DirMeta) : list DirMeta -> Prop :=
| plan_nothing : apart_blocks l -> planned l []
| plan_overlap l1 cl l2 : first_cluster l l1 cl l2 -> planned l cl
| plan_run l1 part l2 : apart_blocks l -> l = l1 ++ part ++ l2 -> part <> [] -> l2 <> [] -> planned l part.

Lemma plan_helper_spec ranges dms : SortLaws SO ->
  dms <> [] -> ranges <> [] -> Forall block_ok dms -> Forall range_ok ranges ->
  exists part, plan_helper ranges dms = Some (map dm_dir part) /\ planned (sort_by_min_time dms) part.
Proof.
  intros SL Hn Hrn Hok Hr. unfold plan_helper. set (l := sort_by_min_time dms). assert (Hp : l ≡ₚ dms) by apply sort_by_perm.
  assert (Hs : StronglySorted starts_before l) by apply sort_by_sorted. assert (Hokl : Forall block_ok l) by by rewrite Hp.
  destruct (overlapping_dirs_spec l Hs Hokl) as [[Ha ->]|(l1 & cl & l2 & Hc & ->)].
  2: { pose proof Hc as (_ & Hlen & _). rewrite bool_decide_eq_false_2 by (intros E; apply map_eq_nil in E; subst; simpl in Hlen; lia).
       exists cl. split; [done|by apply (plan_overlap _ l1 _ l2)]. }
  rewrite bool_decide_eq_true_2 by done. cbn [negb]. assert (Hln : l <> []) by (intros E; apply Hn, Permutation_nil_r; by rewrite <- E).
  destruct (last_some l Hln) as (newest & E & _). rewrite E. cbn [mbind option_bind]. apply last_Some in E as (init & El). rewrite El, removelast_last.
  assert (Hai : apart_blocks init) by (rewrite El in Ha; apply StronglySorted_app in Ha as (_ & Ha & _); exact Ha).
  assert (Hoki : Forall block_ok init) by (rewrite El in Hokl; by apply Forall_app in Hokl as [Hokl _]).
  destruct (select_dirs_spec init ranges Hai Hoki Hr) as (sel & -> & Hsel). cbn [mbind option_bind].
  assert (Hrun : forall part, (exists l1 l2, init = l1 ++ part ++ l2) -> part <> [] -> planned (init ++ [newest]) part).
  { intros part (l1 & l2 & ->) Hpn. apply (plan_run _ l1 _ (l2 ++ [newest])); [by rewrite <- El| |done|]; [by rewrite <- !app_assoc|by destruct l2]. }
  destruct sel as [part|].
  - destruct Hsel as (newest' & r & _ & _ & [Hw _] & (Hlen & _)). assert (Hpn : part <> []) by (intros ->; simpl in Hlen; lia).
    rewrite bool_decide_eq_false_2 by (intros Em; by apply map_eq_nil in Em). exists part. split; [done|]. by apply Hrun.
  - rewrite bool_decide_eq_true_2 by done. cbn [negb]. case_bool_decide; [exists []; split; [done|]; constructor; by rewrite <- El|].
    destruct (lookup_lt_is_Some_2 ranges (length ranges / 2)) as (middle & ->).
    { destruct ranges; [done|]. apply Nat.div_lt; simpl; lia. }
    cbn [mbind option_bind]. destruct (tombstone_loop_spec middle (rev init)) as [->|(d & Hd & ->)].
    + exists []. split; [done|]. constructor. by rewrite <- El.
    + exists [d]. split; [done|]. apply Hrun; [|done]. apply list_elem_of_In, in_rev, list_elem_of_In, list_elem_of_split in Hd as (l1 & l2 & ->).
      by exists l1, l2.
Qed.

(** The new block and the blocks around it. *)
Lemma new_block_apart ulid l1 part l2 : part <> [] -> StronglySorted starts_before (l1 ++ part ++ l2) -> Forall block_ok (l1 ++ part ++ l2) ->
  all_before l1 part -> all_before part l2 ->
  exists bm, compact_block_metas ulid (map dm_meta part) = Some bm /\
    (exists d, d ∈ part /\ dm_min d = bm_min_time bm) /\ (exists d, d ∈ part /\ dm_max d = bm_max_time bm) /\
    Forall (fun d => bm_min_time bm <= dm_min d /\ dm_max d <= bm_max_time bm) part /\
    Forall (fun d => dm_max d <= bm_min_time bm) l1 /\ Forall (fun d => bm_max_time bm <= dm_min d) l2.
Proof.
  intros Hn (Hs & _)%sorted_run [_ [Hok _]%Forall_app]%Forall_app B1 B2.
  destruct (compact_metas_span ulid part Hn Hs Hok) as (bm & Eb & (a & Ha & Ea) & (b & Hb & Eb') & Hf). exists bm.
  split; [done|]. split; [by exists a|]. split; [by exists b|]. split; [done|]. rewrite <- Ea, <- Eb'.
  split; apply Forall_forall; intros d Hd; [by apply B1|by apply B2].
Qed.

(** C20.  Compaction never makes blocks overlap.  Whatever blocks there are, in
    whatever order their directories are listed, planning ends; the blocks it
    names follow each other in time, the meta computed for the new block spans
    exactly their times, and the new block overlaps none of the blocks that
    stay.  When it names none, no two blocks overlap; when some overlap it names
    at least two; when none overlap it leaves out the newest. *)
Theorem plan_keeps_blocks_apart ranges dms ulid : SortLaws SO ->
  dms <> [] -> ranges <> [] -> Forall block_ok dms -> Forall range_ok ranges ->
  exists part l1 l2, plan_helper ranges dms = Some (map dm_dir part) /\ l1 ++ part ++ l2 ≡ₚ dms /\
    (part = [] -> apart_blocks (l1 ++ l2)) /\
    (apart_blocks (l1 ++ part ++ l2) /\ (part <> [] -> l2 <> []) \/ (2 <= length part)%nat) /\
    (part <> [] -> exists bm, compact_block_metas ulid (map dm_meta part) = Some bm /\
      (exists d, d ∈ part /\ dm_min d = bm_min_time bm) /\ (exists d, d ∈ part /\ dm_max d = bm_max_time bm) /\
      Forall (fun d => bm_min_time bm <= dm_min d /\ dm_max d <= bm_max_time bm) part /\
      Forall (fun d => dm_max d <= bm_min_time bm) l1 /\ Forall (fun d => bm_max_time bm <= dm_min d) l2).
Proof.
  intros SL Hn Hrn Hok Hr. destruct (plan_helper_spec ranges dms SL Hn Hrn Hok Hr) as (part & E & Hpl).
  pose proof (sort_by_perm dm_min dms) as Hp. pose proof (sort_by_sorted dm_min dms) as Hs. fold (sort_by_min_time dms) in Hp, Hs.
  set (l := sort_by_min_time dms) in *. assert (Hokl : Forall block_ok l) by by rewrite Hp.
  destruct Hpl as [Ha|l1 cl l2 (El & Hlen & _ & B1 & B2)|l1 part l2 Ha El Hpn Hl2].
  { exists [], [], l. split; [done|]. split; [done|]. split; [done|]. split; [by left|done]. }
  all: [> exists cl, l1, l2|exists part, l1, l2]; (split; [done|]); rewrite <- El.
  - split; [done|]. split; [intros ->; simpl in Hlen; lia|]. split; [by right|]. intros Hcn. rewrite El in Hs, Hokl.
    apply new_block_apart; [done..| |done]. intros x y Hx Hy. apply B1; [done|]. apply elem_of_app. by left.
  - split; [done|]. split; [by intros ->|]. split; [by left|]. intros _. rewrite El in Hs, Hokl, Ha.
    apply (sorted_run ends_before) in Ha as (_ & B1 & B2). by apply new_block_apart.
Qed.

(** C31.  What is compacted by windows.  [split_by_range] divides blocks that do
    not overlap exactly by the windows they lie in: rounding with truncating
    division is rounding down, also before time zero; each part is a run of the
    blocks of one window, and blocks that cross a border are in no part. *)
Theorem split_by_range_windows l r : range_ok r -> apart_blocks l -> Forall block_ok l ->
  exists parts, split_by_range l r = Some parts /\ concat parts = filter (fits r) l /\ Forall (one_window r) parts /\
    StronglySorted (earlier_window r) parts /\ Forall (fun p => exists l1 l2, l = l1 ++ p ++ l2) parts.
Proof.
  intros Hr Ha Hok. destruct (split_loop_spec (S (length l)) r l ltac:(lia) Hr Ha Hok) as (parts & E & [B1 B2 B3 B4]). by exists parts.
Qed.

End Plan.

(** ** Examples *)

Module PlanDemo.

Definition key_below {A} (key : A -> Z) (a b : A) : Prop := key a <= key b.

#[local] Instance key_below_dec {A} (key : A -> Z) a b : Decision (key_below key a b) := Z_le_dec _ _.

#[local] Instance key_below_total {A} (key : A -> Z) : Total (key_below key).
Proof. intros a b. unfold key_below. lia. Qed.

#[local] Instance key_below_trans {A} (key : A -> Z) : Transitive (key_below key).
Proof. intros a b c. unfold key_below. lia. Qed.

#[local] Instance demo_sort : Sort := fun A key l => merge_sort (key_below key) l.

#[local] Instance demo_sort_laws : SortLaws demo_sort.
Proof. split; intros A key l; [apply merge_sort_Permutation|apply (StronglySorted_merge_sort (key_below key) l)]. Qed.

#[local] Instance demo_ulid : Ulid := { ULID := Z; CompareULIDs a b := a - b }.

(** A block with tombstones on [t] of its 100 series. *)
Definition demo_block (id mn mx t : Z) : DirMeta :=
  mkDirMeta [id] (mkBlockMeta (id : @ULID demo_ulid) mn mx (mkBlockStats 1000 100 10 t 0) (mkCompaction 1 [id] [] false false) 1).

(** Four blocks in three windows of 30, one of them before time zero. *)
Definition demo_blocks : list DirMeta := [demo_block 5 90 100 0; demo_block 1 (-20) (-10) 0; demo_block 3 10 20 0; demo_block 2 0 10 0; demo_block 4 50 60 0].

Lemma demo_blocks_ok : Forall block_ok demo_blocks.
Proof. repeat (apply Forall_cons; split; [vm_compute; intuition congruence|]). apply Forall_nil_2. Qed.

Lemma demo_ranges_ok : Forall range_ok [10; 30].
Proof. repeat (apply Forall_cons; split; [vm_compute; intuition congruence|]). apply Forall_nil_2. Qed.

(** The two blocks of one window are planned; with a block that overlaps, the
    ones it overlaps; blocks with tombstones on more than a twentieth of their
    series on their own. *)
Example demo_plans :
  plan_helper [10; 30] demo_blocks = Some [[2]; [3]] /\
  plan_helper [10; 30] (demo_block 6 15 55 0 :: demo_blocks) = Some [[3]; [6]; [4]] /\
  plan_helper [10; 300] [demo_block 1 0 300 5; demo_block 2 300 600 6; demo_block 3 600 900 9] = Some [[2]] /\
  plan_helper [10; 300] [demo_block 1 0 300 5; demo_block 2 300 600 5; demo_block 3 600 900 9] = Some [].
Proof. vm_compute. repeat split. Qed.

Lemma plan_keeps_blocks_apart_witness :
  exists part l1 l2, plan_helper [10; 30] demo_blocks = Some (map dm_dir part) /\ l1 ++ part ++ l2 ≡ₚ demo_blocks /\
    (part <> [] -> exists bm, compact_block_metas (7 : @ULID demo_ulid) (map dm_meta part) = Some bm /\ Forall (fun d => dm_max d <= bm_min_time bm) l1).
Proof.
  destruct (plan_keeps_blocks_apart [10; 30] demo_blocks (7 : @ULID demo_ulid) demo_sort_laws ltac:(discriminate) ltac:(discriminate) demo_blocks_ok
    demo_ranges_ok) as (part & l1 & l2 & H1 & H2 & _ & _ & H3).
  exists part, l1, l2. split; [exact H1|]. split; [exact H2|]. intros Hn. destruct (H3 Hn) as (bm & E & _ & _ & _ & H & _). exists bm. split; [exact E|exact H].
Defined.

Lemma split_by_range_windows_witness :
  exists parts, split_by_range (sort_by_min_time demo_blocks) 30 = Some parts /\ concat parts = filter (fits 30) (sort_by_min_time demo_blocks) /\
    length parts = 4%nat.
Proof.
  destruct (split_by_range_windows (sort_by_min_time demo_blocks) 30) as (parts & E & H & _).
  - vm_compute. intuition congruence.
  - repeat (apply SSorted_cons; [|repeat (apply Forall_cons; split; [vm_compute; congruence|]); apply Forall_nil_2]). apply SSorted_nil.
  - unfold sort_by_min_time. rewrite sort_by_perm. exact demo_blocks_ok.
  - exists parts. split; [exact E|]. split; [exact H|].
    assert (Ec : match split_by_range (sort_by_min_time demo_blocks) 30 with Some p => length p | None => O end = 4%nat) by (vm_compute; reflexivity).
    rewrite E in Ec. exact Ec.
Defined.

End PlanDemo.
