(* ===== verification/Compaction.v ===== *)
(** compact/LeveledCompactor::populate_blocks and write_helper: the files of a
    new block from the series of other blocks; compact/CompactionChunkSeriesSet
    (the series of one block), querier/QuerierUtils ChunkSeriesSets and
    compact/MergedChunkSeriesSet MergedIDChunkSeriesSet (the series of several).

    A block is read through the class [BlockInterface].  Chunk metas are behind
    shared pointers (ChunkOps); the sets make new ones for every series.
    [cancelled n] is what the [n]-th look at the cancel channel finds.  Files can
    be created, written and renamed. *)
From Stdlib Require Import ZArith Lia Bool Sorting.Sorted.
From stdpp Require Import base list numbers option gmap sorting.
From S2P Require Import Prelude Endian BitStream XORChunk Label Record Tombstone ChunkOps IndexFile ChunkFile CompactPlan.

(** ** Blocks that are read *)

(** [block::BlockInterface] with its readers.  [series_lset] and [series_chunks]
    are the two [series] of the index reader, [all_postings] the sorted ids
    under [ALL_POSTINGS_KEYS], [deleted] the intervals of [tr->get], where [None]
    is [std::out_of_range]. *)
Class BlockInterface (B : Type) := {
  MinTime : B -> Z;
  MaxTime : B -> Z;
  index_opens : B -> bool;
  chunks_open : B -> bool;
  tombstones_open : B -> bool;
  all_postings : B -> option (list Z);
  series_lset : B -> Z -> option (Labels * list ChunkRef);
  series_chunks : B -> Z -> option (list ChunkRef);
  block_chunk : B -> Z -> option XORChunk;
  deleted : B -> Z -> option Intervals }.

Record ChunkSeriesMeta := mkCSM {
  csm_lset : Labels;
  csm_chunks : list nat;
  csm_intervals : Intervals;
  csm_tsid : Z }.

Section Sets.
Context `{PE : PastEnd} `{SO : Sort} {B : Type} `{BI : BlockInterface B}.

(** ** The series of one block *)

Record CompactionChunkSeriesSet := mkCCS {
  ccs_p : list Z;
  ccs_block : B;
  ccs_csm : ChunkSeriesMeta;
  ccs_err : bool;
  ccs_global : bool }.

Definition compaction_set (b : B) (p : list Z) (global : bool) : CompactionChunkSeriesSet := mkCCS p b (mkCSM [] [] [] 0) false global.

(** The chunks of the metas; [None]: a chunk was not found. *)
Fixpoint read_refs (b : B) (refs : list ChunkRef) : option (list ChunkMeta) :=
  match refs with
  | [] => Some []
  | r :: refs => c ← block_chunk b (cr_ref r); ms ← read_refs b refs; Some (mkChunkMeta (cr_ref r) c (cr_min r) (cr_max r) :: ms)
  end.

Definition live_refs (intervals : Intervals) (refs : list ChunkRef) : list ChunkRef :=
  if bool_decide (intervals = []) then refs else filter (fun r => is_subrange (cr_min r) (cr_max r) intervals = false) refs.

Definition ccs_next (st : Metas) (s : CompactionChunkSeriesSet) : bool * CompactionChunkSeriesSet * Metas :=
  match ccs_p s with
  | [] => (false, s, st)
  | id :: p =>
    let intervals := default [] (deleted (ccs_block s) id) in
    let fail := (false, mkCCS p (ccs_block s) (mkCSM [] [] intervals (csm_tsid (ccs_csm s))) true (ccs_global s), st) in
    match (if ccs_global s then series_lset (ccs_block s) id else (fun refs => ([], refs)) <$> series_chunks (ccs_block s) id) with
    | None => fail
    | Some (lset, refs) =>
      match read_refs (ccs_block s) (live_refs intervals refs) with
      | None => fail
      | Some ms => (true, mkCCS p (ccs_block s) (mkCSM lset (seq (length st) (length ms)) intervals id) (ccs_err s) (ccs_global s), st ++ ms)
      end
    end
  end.

(** ** Several sets *)

Abbreviation Sets := (list CompactionChunkSeriesSet).

(** [ChunkSeriesSets::next()] *)
Fixpoint sets_next (st : Metas) (css : Sets) : Sets * Metas :=
  match css with
  | [] => ([], st)
  | s :: css =>
    let '(ok, s, st) := ccs_next st s in
    let '(css, st) := sets_next st css in
    (if ok : bool then s :: css else css, st)
  end.

(** [ChunkSeriesSets::next(id)]; [d] sets were erased. *)
Fixpoint sets_next_ids (st : Metas) (d : Z) (id : list nat) (css : Sets) : Sets * Metas :=
  match id with
  | [] => (css, st)
  | i :: id =>
    match css !! Z.to_nat (u64 (Z.of_nat i - d)) with
    | None => sets_next_ids st d id css
    | Some s =>
      let k := Z.to_nat (u64 (Z.of_nat i - d)) in
      let '(ok, s, st) := ccs_next st s in
      if ok : bool then sets_next_ids st d id (<[k := s]> css) else sets_next_ids st (d + 1) id (delete k css)
    end
  end.

Record MergedIDChunkSeriesSet := mkMerged {
  mcs_sets : Sets;
  mcs_csm : ChunkSeriesMeta;
  mcs_id : list nat;
  mcs_err : bool }.

Definition merged_set (st : Metas) (css : Sets) : MergedIDChunkSeriesSet * Metas :=
  let '(css, st) := sets_next st css in
  (mkMerged css (mkCSM [] [] [] 0) [] (bool_decide (css = [])), st).

Definition set_lset (lset old : Labels) : Labels := if bool_decide (lset = []) then old else lset.

(** The loop over the sets after the first: the smallest id, its labels, the
    sets that are at it. *)
Fixpoint pick_id (i : nat) (tsid : Z) (lset : Labels) (id : list nat) (css : Sets) : Z * Labels * list nat :=
  match css with
  | [] => (tsid, lset, id)
  | s :: css =>
    if csm_tsid (ccs_csm s) <? tsid then pick_id (S i) (csm_tsid (ccs_csm s)) (set_lset (csm_lset (ccs_csm s)) lset) [i] css
    else if csm_tsid (ccs_csm s) =? tsid then pick_id (S i) tsid lset (id ++ [i]) css
    else pick_id (S i) tsid lset id css
  end.

Definition start_of (st : Metas) (p : nat) : Z := match st !! p with Some m => cm_min_time m | None => 0 end.

(** What the sets [id] are at. *)
Definition gather {A} (f : ChunkSeriesMeta -> list A) (css : Sets) (id : list nat) : list A :=
  id ≫= fun i => match css !! i with Some s => f (ccs_csm s) | None => [] end.

Definition next_helper (st : Metas) (m : MergedIDChunkSeriesSet) : bool * MergedIDChunkSeriesSet * Metas :=
  let '(css, st) := sets_next_ids st 0 (mcs_id m) (mcs_sets m) in
  match css with
  | [] => (false, mkMerged [] (mkCSM [] [] [] (csm_tsid (mcs_csm m))) [] true, st)
  | s :: rest =>
    let '(tsid, lset, id) := pick_id 1 (csm_tsid (ccs_csm s)) (set_lset (csm_lset (ccs_csm s)) []) [0%nat] rest in
    let chunks := sort_by (start_of st) (gather csm_chunks css id) in
    (true, mkMerged css (mkCSM lset chunks (gather csm_intervals css id) tsid) id (mcs_err m), st)
  end.

Definition merged_next (st : Metas) (m : MergedIDChunkSeriesSet) : bool * MergedIDChunkSeriesSet * Metas :=
  if mcs_err m then (false, m, st) else next_helper st m.

(** [error()], whose sense is inverted. *)
Definition merged_error (m : MergedIDChunkSeriesSet) : bool := negb (mcs_err m).

End Sets.
Arguments CompactionChunkSeriesSet : clear implicits.
Arguments MergedIDChunkSeriesSet : clear implicits.

(** ** Filling the files of a block *)

Inductive PopulateError :=
| NoReaders
| Cancel
| IndexFails
| ChunksFail
| TombstonesFail
| PostingsFail
| OutsideRange
| MergeFails (e : MergeError)
| IterateFails.

Section Populate.
Context `{PE : PastEnd} `{CR : Crc} `{SO : Sort} {B : Type} `{BI : BlockInterface B}.

(** Where the block is written to. *)
Record Output := mkOutput { o_index : IndexWriter; o_chunks : ChunkWriter; o_stats : BlockStats }.

Definition overlap_closed (m : ChunkMeta) (min_time max_time : Z) : bool :=
  (min_time <=? cm_max_time m) && (cm_min_time m <=? max_time).

(** The chunk without the deleted samples, made anew. *)
Definition reencode (m : ChunkMeta) (intervals : Intervals) : option ChunkMeta :=
  let it := chunk_iterator (cm_chunk m) in
  '(l, _) ← del_drain (S (Z.to_nat (num_total it))) (mkDeleteIterator it intervals);
  c ← append_batch xor_chunk l;
  Some (mkChunkMeta (cm_ref m) c (cm_min_time m) (cm_max_time m)).

(** The loop over the chunks of a series; [None]: a null pointer, an exception. *)
Fixpoint check_chunks (st : Metas) (mint maxt : Z) (intervals : Intervals) (chunks : list nat) : option (PopulateError + Metas) :=
  match chunks with
  | [] => Some (inr st)
  | p :: chunks =>
    m ← st !! p;
    if (cm_min_time m <? mint) || (maxt <? cm_max_time m) then Some (inl OutsideRange)
    else
      match head intervals, last intervals with
      | Some front, Some back =>
        if negb (overlap_closed m (min_time front) (max_time back)) then check_chunks st mint maxt intervals chunks
        else m' ← reencode m intervals; check_chunks (<[p := m']> st) mint maxt intervals chunks
      | _, _ => check_chunks st mint maxt intervals chunks
      end
  end.

Definition ref_of (m : ChunkMeta) : ChunkRef := mkChunkRef (cm_ref m) (cm_min_time m) (cm_max_time m).

(** What the pointers lead to. *)
Definition metas_at (st : Metas) (ps : list nat) : option (list ChunkMeta) := mapM (fun p => st !! p) ps.

Definition count_series (s : BlockStats) (ms : list ChunkMeta) : BlockStats :=
  mkBlockStats (foldl (fun n m => u64 (n + chunk_num_samples (cm_chunk m))) (num_samples s) ms) (u64 (num_series s + 1))
    (u64 (num_chunks s + Z.of_nat (length ms))) (num_tombstones s) (num_bytes s).

(** One series: the body of the loop over the merged set. *)
Definition write_series (overlapping : bool) (mint maxt : Z) (o : Output) (st : Metas) (csm : ChunkSeriesMeta) : option (PopulateError + (Output * Metas)) :=
  let chunks := if overlapping then sort_by (start_of st) (csm_chunks csm) else csm_chunks csm in
  if bool_decide (chunks = []) then Some (inr (o, st))
  else
    r ← check_chunks st mint maxt (csm_intervals csm) chunks;
    match r with
    | inl e => Some (inl e)
    | inr st =>
      r ← match (if overlapping then merge_overlapping_chunks st chunks else MOk st chunks) with
          | MOk st chunks => Some (inr (st, chunks))
          | MErr _ e => Some (inl (MergeFails e))
          | MCrash => None
          end;
      match r with
      | inl e => Some (inl e)
      | inr (st, chunks) =>
        '(w, st) ← write_chunks (o_chunks o) st chunks;
        ms ← metas_at st chunks;
        Some (inr (mkOutput (add_series (o_index o) (csm_tsid csm) (map ref_of ms)) w (count_series (o_stats o) ms), st))
      end
    end.

(** The loop over the merged set; [n] looks at the cancel channel before. *)
Fixpoint populate_loop (rounds : nat) (cancelled : nat -> bool) (n : nat) (overlapping : bool) (mint maxt : Z)
    (o : Output) (st : Metas) (m : MergedIDChunkSeriesSet B) : option (PopulateError + (Output * nat)) :=
  match rounds with
  | O => None
  | S rounds =>
    let '(ok, m, st) := merged_next st m in
    if negb ok then Some (if merged_error m then inl IterateFails else inr (o, n))
    else if cancelled n then Some (inl Cancel)
    else
      r ← write_series overlapping mint maxt o st (mcs_csm m);
      match r with
      | inl e => Some (inl e)
      | inr (o, st) => populate_loop rounds cancelled (S n) overlapping mint maxt o st m
      end
  end.

(** The loop over the blocks: whether they overlap, and their sets. *)
Fixpoint open_blocks (cancelled : nat -> bool) (i : nat) (overlapping : bool) (max_time : Z) (blocks : list B)
    : PopulateError + (bool * list (CompactionChunkSeriesSet B)) :=
  match blocks with
  | [] => inr (overlapping, [])
  | b :: blocks =>
    if cancelled i then inl Cancel
    else
      let overlapping' := overlapping || ((0 <? Z.of_nat i) && (MinTime b <? max_time)) in
      let max_time := if overlapping then max_time else if max_time <? MaxTime b then MaxTime b else max_time in
      if negb (index_opens b) then inl IndexFails
      else if negb (chunks_open b) then inl ChunksFail
      else if negb (tombstones_open b) then inl TombstonesFail
      else
        match all_postings b with
        | None => inl PostingsFail
        | Some ids =>
          match open_blocks cancelled (S i) overlapping' max_time blocks with
          | inl e => inl e
          | inr (overlapping, css) => inr (overlapping, compaction_set b ids true :: css)
          end
        end
  end.

(** The output, and how often the cancel channel was looked at. *)
Definition populate_blocks (cancelled : nat -> bool) (blocks : list B) (mint maxt : Z) (o : Output) : option (PopulateError + (Output * nat)) :=
  match blocks with
  | [] => Some (inl NoReaders)
  | b :: _ =>
    match open_blocks cancelled 0 false (MaxTime b) blocks with
    | inl e => Some (inl e)
    | inr (overlapping, css) =>
      let rounds := S (length (css ≫= ccs_p)) in
      let '(m, st) := merged_set [] css in
      populate_loop rounds cancelled (length blocks) overlapping mint maxt o st m
    end
  end.

End Populate.

(** ** Writing a block *)

Section Write.
Context `{PE : PastEnd} `{CR : Crc} `{SO : Sort} `{UL : Ulid} {B : Type} `{BI : BlockInterface B}.

(** The directory of a block. *)
Record BlockFiles := mkBlockFiles {
  bf_index : list Z;
  bf_chunks : list (str * list Z);
  bf_meta : BlockMeta;
  bf_tombstones : list Z }.

(** [write_helper]: the inner [None] is a block without samples, which is not
    written. *)
Definition write_helper (cancelled : nat -> bool) (bm : BlockMeta) (blocks : list B) : option (PopulateError + option BlockFiles) :=
  r ← populate_blocks cancelled blocks (bm_min_time bm) (bm_max_time bm) (mkOutput index_writer (chunk_writer []) (stats bm));
  Some match r with
  | inl e => inl e
  | inr (o, n) =>
    if cancelled n then inl Cancel
    else if num_samples (o_stats o) =? 0 then inr None
    else
      let bm := mkBlockMeta (bm_ulid bm) (bm_min_time bm) (bm_max_time bm) (o_stats o) (compaction bm) (version bm) in
      inr (Some (mkBlockFiles (iw_close (o_index o)) (cw_dir (o_chunks o)) bm (write_tombstones [])))
  end.

(** [write]: the meta of the new block. *)
Definition write_meta_of (ulid : ULID) (min_time max_time : Z) (parent : option BlockMeta) : BlockMeta :=
  mkBlockMeta ulid min_time max_time (mkBlockStats 0 0 0 0 0)
    (mkCompaction 1 [ulid] (match parent with Some p => [mkBlockDesc (bm_ulid p) (bm_min_time p) (bm_max_time p)] | None => [] end) false false) 1.

Definition compactor_write (cancelled : nat -> bool) (ulid : ULID) (b : B) (min_time max_time : Z) (parent : option BlockMeta)
    : option (PopulateError + option BlockFiles) :=
  write_helper cancelled (write_meta_of ulid min_time max_time parent) [b].

End Write.

(** ** One series *)

Section OneSeries.
Context `{PE : PastEnd} `{CR : Crc} `{SO : Sort} `{SL : !SortLaws SO}.

(** Samples that stay. *)
Abbreviation kept itvls := (filter (fun s : Z * Z => ~ covers itvls s.1)).

(** What is left of a chunk: of one that overlaps the span from the first interval
    to the last, what the deletion iterator lets through, which compares times
    narrowed to an [int] (DeleteIterator.cpp:19). *)
Definition survivors (itvls : Intervals) (m : ChunkMeta) : list (Z * Z) :=
  match head itvls, last itvls with
  | Some front, Some back =>
    if overlap_closed m (min_time front) (max_time back) then del_samples (chunk_reads (cm_chunk m)) itvls else chunk_reads (cm_chunk m)
  | _, _ => chunk_reads (cm_chunk m)
  end.

(** A meta whose chunk lost its deleted samples. *)
Definition pruned (itvls : Intervals) (m m' : ChunkMeta) : Prop :=
  cm_min_time m' = cm_min_time m /\ cm_max_time m' = cm_max_time m /\
  chunk_reads (cm_chunk m') = survivors itvls m /\ meta_ok m' /\ portable (cm_chunk m').

Definition good_meta (m : ChunkMeta) : Prop := meta_ok m /\ portable (cm_chunk m) /\ is_s64 (cm_min_time m) /\ is_s64 (cm_max_time m).

(** The deletion iterator reads times as 32-bit numbers. *)
Definition short_times (m : ChunkMeta) : Prop := Forall (fun s => is_s 32 s.1) (chunk_reads (cm_chunk m)).

(** Intervals and times for which the deletion does what it is meant to: none,
    or intervals in order and apart, and times that fit an [int]. *)
Definition itvls_fine (itvls : Intervals) (ms : list ChunkMeta) : Prop := itvls = [] \/ apart itvls /\ Forall short_times ms.

(** Intervals that begin at or after [2^31]. *)
Definition itvls_recent (itvls : Intervals) : Prop := Forall (fun i => 2 ^ 31 <= min_time i <= max_time i) itvls.

Lemma forall_sublist {A} (Q : A -> Prop) l l' : l' `sublist_of` l -> Forall Q l -> Forall Q l'.
Proof. intros Hs Hl. rewrite Forall_forall in *. intros x Hx. apply Hl. by eapply elem_of_sublist. Qed.

Lemma sublist_ascending l l' : l' `sublist_of` l -> ascending l -> ascending l'.
Proof.
  induction 1 as [|x l' l Hs IH|x l' l Hs IH]; intros Ha; [done| |]; apply StronglySorted_inv in Ha as [Ha Hx]; [|by apply IH].
  apply SSorted_cons; [by apply IH|]. by eapply forall_sublist.
Qed.

Lemma del_samples_sublist l : forall itvls, del_samples l itvls `sublist_of` l.
Proof.
  induction l as [|x l IH]; intros itvls; [done|]. cbn [del_samples]. destruct (deleted_at _ itvls) as [[] itvls1]; [by apply sublist_cons|by apply sublist_skip].
Qed.

Lemma survivors_sublist itvls m : survivors itvls m `sublist_of` chunk_reads (cm_chunk m).
Proof. unfold survivors. destruct (head itvls), (last itvls); try done. destruct (overlap_closed _ _ _); [apply del_samples_sublist|done]. Qed.

Lemma ascending_in_order l : ascending l -> in_order l.
Proof.
  induction 1 as [|s l Hs IH Hl]; [apply SSorted_nil|]. apply SSorted_cons; [done|]. eapply Forall_impl; [exact Hl|]. intros x. cbn beta. lia.
Qed.

Lemma chunk_kept_ok itvls (P : Z * Z -> Prop) l : Forall P l -> Forall P (kept itvls l).
Proof. intros Hl. apply Forall_forall. intros x [_ Hx]%list_elem_of_filter. rewrite Forall_forall in Hl. by apply Hl. Qed.

Lemma kept_ascending itvls l : ascending l -> ascending (kept itvls l).
Proof.
  induction 1 as [|s l Hs IH Hl]; [apply SSorted_nil|]. destruct (decide (~ covers itvls s.1)).
  - rewrite filter_cons_True by done. apply SSorted_cons; [done|]. by apply chunk_kept_ok.
  - by rewrite filter_cons_False.
Qed.

Lemma apart_by_min itvls : apart itvls -> StronglySorted by_min itvls.
Proof.
  intros [Hs Hok]. induction Hs as [|i itvls Hs IH Hi]; [apply SSorted_nil|]. apply Forall_cons in Hok as [Hok Hoks]. apply SSorted_cons; [by apply IH|].
  eapply Forall_impl; [exact Hi|]. intros j Hj. unfold gap, by_min, itvl_ok in *. lia.
Qed.

Lemma chunk_reads_length c : Z.of_nat (length (chunk_reads c)) <= 65535.
Proof.
  pose proof (proj2 (chunk_visits c)) as Hl.
  assert (Hn : is_u 16 (num_total (chunk_iterator c))) by (apply wrap_range; lia). unfold is_u in Hn. lia.
Qed.

Lemma reencode_spec m itvls : good_meta m -> exists m', reencode m itvls = Some m' /\ cm_min_time m' = cm_min_time m /\ cm_max_time m' = cm_max_time m /\
  chunk_reads (cm_chunk m') = del_samples (chunk_reads (cm_chunk m)) itvls /\ meta_ok m' /\ portable (cm_chunk m').
Proof.
  intros Hg. pose proof (chunk_reads_length (cm_chunk m)) as Hlen. destruct Hg as ((Hf & Hs & Ha & Hb) & _). unfold reencode.
  destruct (chunk_visits (cm_chunk m)) as [Hv Hl].
  destruct (del_drain_samples _ _ _ Hv (S (Z.to_nat (num_total (chunk_iterator (cm_chunk m))))) itvls ltac:(lia)) as (itvls' & ->). cbn [mbind option_bind].
  pose proof (del_samples_sublist (chunk_reads (cm_chunk m)) itvls) as Hsub. set (l := del_samples _ _) in *. pose proof (sublist_length _ _ Hsub) as Hll.
  destruct (append_batch_made l (forall_sublist _ _ _ Hsub Hs) ltac:(lia)) as (c & -> & Hm). cbn [mbind option_bind]. eexists. split; [done|].
  destruct (made_reads c l Hm) as [Er Ef]. split; [done|]. split; [done|]. cbn [cm_chunk]. split; [done|]. split; [|by apply (made_portable c l); [|lia]].
  unfold meta_ok. cbn [cm_chunk cm_min_time cm_max_time]. rewrite Er. split; [done|].
  split; [by eapply forall_sublist|]. split; [by eapply sublist_ascending|by eapply forall_sublist].
Qed.

(** What intervals cover lies between the first and the last. *)
Lemma apart_span itvls front back t : apart itvls -> head itvls = Some front -> last itvls = Some back -> covers itvls t ->
  min_time front <= t <= max_time back.
Proof.
  intros [Hs Hok] Hh Hl (i & Hi & Ht). destruct itvls as [|j itvls]; [done|]. injection Hh as ->. apply last_Some in Hl as (pre & El).
  assert (Hfront : min_time front <= min_time i).
  { apply elem_of_cons in Hi as [->|Hi]; [lia|]. apply StronglySorted_inv in Hs as [_ Hs]. rewrite Forall_forall in Hs. specialize (Hs i Hi).
    apply Forall_cons in Hok as [Hok _]. unfold gap, itvl_ok in *. lia. }
  assert (Hback : max_time i <= max_time back); [|lia]. rewrite El in Hi, Hs, Hok. apply elem_of_app in Hi as [Hi|Hi%list_elem_of_singleton]; [|subst; lia].
  apply StronglySorted_app in Hs as (Hs & _). specialize (Hs i back Hi ltac:(left)). apply Forall_app in Hok as [_ Hok].
  apply Forall_cons in Hok as [Hok _]. unfold gap, itvl_ok in *. lia.
Qed.

Lemma pruned_untouched itvls m : good_meta m -> survivors itvls m = chunk_reads (cm_chunk m) -> pruned itvls m m.
Proof. intros (Hm & Hp & _) E. split; [done|]. split; [done|]. split; [|done]. by rewrite E. Qed.

(** Where the deletion does what it is meant to, what is left is what no interval
    covers; where the intervals begin late, all is left. *)
Lemma survivors_fine itvls ms m : itvls_fine itvls ms -> m ∈ ms -> meta_ok m -> survivors itvls m = kept itvls (chunk_reads (cm_chunk m)).
Proof.
  intros Hi Hin (_ & _ & Ha & Hb). unfold survivors.
  assert (Hnone : (forall t, cm_min_time m <= t <= cm_max_time m -> ~ covers itvls t) -> chunk_reads (cm_chunk m) = kept itvls (chunk_reads (cm_chunk m))).
  { intros Hc. symmetry. apply filter_id. eapply Forall_impl; [exact Hb|]. intros s Hs. by apply Hc. }
  destruct (head itvls) as [front|] eqn:Eh; [|destruct itvls; [apply Hnone; intros t _ ?%covers_nil; done|done]].
  destruct (last itvls) as [back|] eqn:El; [|apply last_None in El; by subst].
  destruct Hi as [->|[Hi Ht]]; [done|]. destruct (overlap_closed m (min_time front) (max_time back)) eqn:Eo.
  - apply del_samples_filter; [by apply ascending_in_order| |by apply apart_by_min]. rewrite Forall_forall in Ht. by apply Ht.
  - apply Hnone. intros t Hm Hc. pose proof (apart_span _ _ _ _ Hi Eh El Hc). unfold overlap_closed in Eo.
    apply andb_false_iff in Eo as [Eo%Z.leb_gt|Eo%Z.leb_gt]; lia.
Qed.

Lemma survivors_recent itvls m : itvls_recent itvls -> survivors itvls m = chunk_reads (cm_chunk m).
Proof. intros Hi. unfold survivors. destruct (head itvls), (last itvls); try done. destruct (overlap_closed _ _ _); [by apply del_samples_recent|done]. Qed.

Definition within (mint maxt : Z) (m : ChunkMeta) : Prop := mint <= cm_min_time m /\ cm_max_time m <= maxt.

Lemma check_chunks_spec itvls mint maxt chunks : forall st ms,
  NoDup chunks -> points st chunks ms -> Forall good_meta ms -> Forall (within mint maxt) ms ->
  exists st' ms', check_chunks st mint maxt itvls chunks = Some (inr st') /\ points st' chunks ms' /\ Forall2 (pruned itvls) ms ms' /\
    (forall p, p ∉ chunks -> st' !! p = st !! p) /\ length st' = length st.
Proof.
  induction chunks as [|p chunks IH]; intros st ms Hnd Hp Hg Hw; inversion Hp as [|? m ? ms' Hpm Hps]; subst.
  { exists st, []. by split_and!. }
  apply NoDup_cons in Hnd as [Hpn Hnd]. apply Forall_cons in Hg as [Hgm Hg]. apply Forall_cons in Hw as [Hwm Hw]. cbn [check_chunks]. rewrite Hpm.
  cbn [mbind option_bind]. destruct Hwm as [Hw1 Hw2]. rewrite (proj2 (Z.ltb_ge _ _)), (proj2 (Z.ltb_ge _ _)) by lia. cbn [orb].
  assert (Hkeep : pruned itvls m m -> exists st' ms2, check_chunks st mint maxt itvls chunks = Some (inr st') /\ points st' (p :: chunks) ms2 /\
    Forall2 (pruned itvls) (m :: ms') ms2 /\ (forall q, q ∉ p :: chunks -> st' !! q = st !! q) /\ length st' = length st).
  { intros Hpr. destruct (IH st ms' Hnd Hps Hg Hw) as (st' & ms2 & E & P1 & P2 & P3 & P4).
    exists st', (m :: ms2). split; [done|]. split; [by constructor; [rewrite P3|]|]. split; [by constructor|]. split; [|done].
    intros q [_ Hq]%not_elem_of_cons. by apply P3. }
  assert (Hsv : survivors itvls m = survivors itvls m) by done. unfold survivors in Hsv at 2.
  destruct (head itvls) as [front|]; [|by apply Hkeep, pruned_untouched]. destruct (last itvls) as [back|]; [|by apply Hkeep, pruned_untouched].
  destruct (overlap_closed m (min_time front) (max_time back)); cbn [negb]; [|by apply Hkeep, pruned_untouched].
  destruct (reencode_spec m itvls Hgm) as (m2 & -> & M1 & M2 & M3 & M4 & M5). cbn [mbind option_bind].
  destruct (IH (<[p:=m2]> st) ms' Hnd (points_insert _ _ _ _ _ Hpn Hps) Hg Hw) as (st' & ms2 & E & P1 & P2 & P3 & P4).
  exists st', (m2 :: ms2). split; [done|]. split; [constructor; [|done]; rewrite P3 by done; apply list_lookup_insert_eq; by eapply lookup_lt_Some|].
  split; [constructor; [|done]; split_and!; try done; by rewrite M3|]. split; [|by rewrite P4, length_insert].
  intros q [Hq1 Hq2]%not_elem_of_cons. rewrite P3 by done. by apply list_lookup_insert_ne.
Qed.

(** *** The samples of a run of chunks *)

(** A series without the times that are deleted. *)
Definition uncovered (itvls : Intervals) (m : gmap Z Z) : gmap Z Z := filter (fun kv => ~ covers itvls kv.1) m.

Lemma uncovered_lookup itvls m t : uncovered itvls m !! t = if decide (covers itvls t) then None else m !! t.
Proof.
  unfold uncovered. rewrite map_lookup_filter. destruct (m !! t) as [v|]; cbn [mbind option_bind]; [|by destruct (decide _)].
  destruct (decide (covers itvls t)) as [Hc|Hc]; [rewrite option_guard_False by (cbn [fst]; tauto)|rewrite option_guard_True by done]; done.
Qed.

Lemma uncovered_union itvls a b : uncovered itvls (a ∪ b) = uncovered itvls a ∪ uncovered itvls b.
Proof. apply map_eq. intros t. rewrite lookup_union, !uncovered_lookup, lookup_union. by destruct (decide _). Qed.

Lemma kept_map itvls l : ascending l -> sample_map (kept itvls l) = uncovered itvls (sample_map l).
Proof.
  intros Ha. apply map_eq. intros t. rewrite uncovered_lookup. induction Ha as [|s l Ha IH Hl]; [by destruct (decide _)|].
  rewrite sample_map_cons. destruct (decide (covers itvls s.1)) as [Hc|Hc].
  - rewrite filter_cons_False by tauto. rewrite IH. destruct (decide (covers itvls t)) as [Ht|Ht]; [done|].
    rewrite lookup_insert_ne; [done|]. congruence.
  - rewrite filter_cons_True by done. rewrite sample_map_cons. destruct (decide (s.1 = t)) as [E|Hn]; [subst t|].
    + rewrite !lookup_insert_eq. by rewrite decide_False.
    + by rewrite !lookup_insert_ne.
Qed.

(** What is left of chunks, a later chunk over an earlier one. *)
Definition survived (itvls : Intervals) (ms : list ChunkMeta) : gmap Z Z := foldl (fun acc m => sample_map (survivors itvls m) ∪ acc) ∅ ms.

Lemma survived_fine itvls ms : itvls_fine itvls ms -> Forall meta_ok ms -> survived itvls ms = uncovered itvls (contents ms).
Proof.
  intros Hi Hok. unfold survived, contents. assert (Hacc : (∅ : gmap Z Z) = uncovered itvls ∅) by (apply map_eq; intros t; rewrite uncovered_lookup; by destruct (decide _)).
  rewrite Hacc at 1. generalize (∅ : gmap Z Z) as acc. clear Hacc.
  enough (He : forall k, (forall m, m ∈ k -> m ∈ ms) -> forall acc, foldl (fun acc m => sample_map (survivors itvls m) ∪ acc) (uncovered itvls acc) k = uncovered itvls (foldl add_samples acc k))
    by (intros acc; by apply He).
  intros k. induction k as [|m k IH]; intros Hk acc; [done|]. cbn [foldl]. rewrite <- IH by (intros m' Hm'; apply Hk; by right). f_equal.
  rewrite Forall_forall in Hok. pose proof (Hk m ltac:(left)) as Hin. rewrite (survivors_fine itvls ms m Hi Hin (Hok m Hin)).
  destruct (Hok m Hin) as (_ & _ & Ha & _). unfold add_samples. by rewrite kept_map, uncovered_union.
Qed.

Lemma survived_recent itvls ms : itvls_recent itvls -> survived itvls ms = contents ms.
Proof.
  intros Hi. unfold survived, contents. generalize (∅ : gmap Z Z) as acc. induction ms as [|m ms IH]; intros acc; [done|]. cbn [foldl].
  rewrite (survivors_recent itvls m Hi). apply IH.
Qed.

Lemma contents_pruned itvls ms ms' : Forall2 (pruned itvls) ms ms' -> contents ms' = survived itvls ms.
Proof.
  unfold contents, survived. generalize (∅ : gmap Z Z) as acc. intros acc H. revert acc.
  induction H as [|m m' ms ms' (_ & _ & E & _) _ IH]; intros acc; [done|]. cbn [foldl]. rewrite <- IH. f_equal. unfold add_samples. by rewrite E.
Qed.

Lemma pruned_total itvls ms ms' : Forall2 (pruned itvls) ms ms' -> (total_samples ms' <= total_samples ms)%nat.
Proof.
  induction 1 as [|m m' ms ms' (_ & _ & E & _) _ IH]; [done|]. rewrite !total_cons, E.
  pose proof (sublist_length _ _ (survivors_sublist itvls m)). lia.
Qed.

Lemma pruned_good itvls ms ms' : Forall2 (pruned itvls) ms ms' -> Forall good_meta ms -> Forall good_meta ms' /\ (StronglySorted by_start ms -> StronglySorted by_start ms').
Proof.
  intros H Hg. split.
  - induction H as [|m m' ms ms' (E1 & E2 & _ & Hok & Hp) _ IH]; [constructor|]. apply Forall_cons in Hg as [(_ & _ & H1 & H2) Hg].
    apply Forall_cons. split; [|by apply IH]. split; [done|]. split; [done|]. by rewrite E1, E2.
  - clear Hg. induction H as [|m m' ms ms' (E1 & _) Hf IH]; intros Hs; [apply SSorted_nil|]. apply StronglySorted_inv in Hs as [Hs Hm].
    apply SSorted_cons; [by apply IH|]. clear IH Hs. induction Hf as [|x x' ms ms' (Ex & _) _ IH]; [constructor|].
    apply Forall_cons in Hm as [Hx Hm]. apply Forall_cons. split; [|by apply IH]. unfold by_start in *. by rewrite E1, Ex.
Qed.

(** *** Pointers in order *)

Lemma points_perm st ps ps' ms : ps' ≡ₚ ps -> points st ps ms -> exists ms', points st ps' ms' /\ ms' ≡ₚ ms.
Proof.
  intros Hp. revert ms. induction Hp as [|p ps' ps _ IH|p q ps|ps1 ps2 ps3 _ IH1 _ IH2]; intros ms H.
  - inversion H; subst. by exists [].
  - inversion H as [|? m ? ms1 Hm Hms]; subst. destruct (IH _ Hms) as (ms' & H1 & H2). exists (m :: ms'). split; [by constructor|by constructor].
  - inversion H as [|? m ? ms1 Hm Hms]; subst. inversion Hms as [|? m2 ? ms2 Hm2 Hms2]; subst. exists (m2 :: m :: ms2).
    split; [by repeat constructor|]. constructor.
  - destruct (IH2 _ H) as (ms2 & H1 & H2). destruct (IH1 _ H1) as (ms1 & H3 & H4). exists ms1. split; [done|]. by etransitivity.
Qed.

Lemma points_sorted st ps ms : points st ps ms -> StronglySorted (fun p q => start_of st p <= start_of st q) ps -> StronglySorted by_start ms.
Proof.
  induction 1 as [|p m ps ms Hp Hps IH]; intros Hs; [apply SSorted_nil|]. apply StronglySorted_inv in Hs as [Hs Hl]. apply SSorted_cons; [by apply IH|].
  clear IH Hs. induction Hps as [|q m' ps ms Hq Hps IH]; [constructor|]. apply Forall_cons in Hl as [Hx Hl]. apply Forall_cons. split; [|by apply IH].
  unfold by_start, start_of in *. by rewrite Hp, Hq in Hx.
Qed.

Lemma sort_points st ps ms : points st ps ms ->
  sort_by (start_of st) ps ≡ₚ ps /\ exists ms', points st (sort_by (start_of st) ps) ms' /\ ms' ≡ₚ ms /\ StronglySorted by_start ms'.
Proof.
  intros H. pose proof (sort_by_perm (start_of st) ps) as Hp. split; [done|]. destruct (points_perm st _ _ _ Hp H) as (ms' & H1 & H2).
  exists ms'. split; [done|]. split; [done|]. apply (points_sorted st _ _ H1). apply sort_by_sorted.
Qed.

Lemma total_perm a b : a ≡ₚ b -> total_samples a = total_samples b.
Proof. induction 1; rewrite ?total_cons in *; [done| | |]; lia. Qed.

(** *** What a batch needs *)

Lemma batch_points st ps ms : points st ps ms -> Forall (fun m => portable (cm_chunk m)) ms ->
  batch_len st ps <= 42 * Z.of_nat (length ps) + 20 * Z.of_nat (total_samples ms).
Proof.
  induction 1 as [|p m ps ms Hp _ IH]; intros Hm; [done|]. apply Forall_cons in Hm as [(_ & _ & Hm) Hms]. cbn [batch_len foldr].
  change (foldr _ 0 ps) with (batch_len st ps). unfold size_at. rewrite Hp, total_cons. specialize (IH Hms). simpl length. lia.
Qed.

(** A series that can be written: not too many chunks and samples. *)
Definition series_small (ms : list ChunkMeta) : Prop := Z.of_nat (length ms) <= 10 ^ 6 /\ Z.of_nat (total_samples ms) <= 65535.

Lemma batch_small st ps ms : NoDup ps -> points st ps ms -> Forall good_meta ms -> series_small ms -> batch_ok st ps.
Proof.
  intros Hnd Hp Hg [H1 H2]. split; [done|]. split.
  - clear Hnd H1 H2. induction Hp as [|p m ps ms Hpm _ IH]; [constructor|]. apply Forall_cons in Hg as [Hgm Hg]. apply Forall_cons. split; [|by apply IH].
    exists m. split; [done|]. destruct Hgm as (_ & [(Hs & _) _] & _). lia.
  - pose proof (batch_points st ps ms Hp) as Hb. pose proof (Forall2_length _ _ _ Hp) as Hl. unfold DEFAULT_CHUNK_SIZE.
    assert (Hm : Forall (fun m => portable (cm_chunk m)) ms) by (eapply Forall_impl; [exact Hg|]; by intros m (_ & Hm & _)). specialize (Hb Hm). lia.
Qed.

Lemma small_perm ms ms' : ms' ≡ₚ ms -> series_small ms -> series_small ms'.
Proof. intros Hp [H1 H2]. split; [by rewrite (Permutation_length Hp)|by rewrite (total_perm _ _ Hp)]. Qed.

(** *** Writing *)

Lemma write_each_length chunks : forall w st q w' st', write_each w st q chunks = Some (w', st') -> length st' = length st.
Proof.
  induction chunks as [|p chunks IH]; intros w st q w' st' E; cbn [write_each] in E; [by injection E as _ <-|].
  apply bind_Some in E as (m & _ & E). do 4 (apply bind_Some in E as (? & _ & E)). rewrite (IH _ _ _ _ _ E). apply length_insert.
Qed.

Lemma write_chunks_length w st chunks w' st' : write_chunks w st chunks = Some (w', st') -> length st' = length st.
Proof.
  unfold write_chunks. intros E. apply bind_Some in E as (n & _ & E). apply bind_Some in E as (w1 & _ & E). apply bind_Some in E as (q & _ & E).
  by apply write_each_length in E.
Qed.

Lemma placed_u64 w cs ref c : cw_inv w cs -> placed cs ref c -> is_u64 ref.
Proof.
  intros Hw (i & pre & post & Hi & ->). pose proof (lookup_lt_Some _ _ _ Hi). pose proof (ci_few _ _ Hw) as Hf. unfold few in Hf.
  pose proof (ci_short _ _ Hw) as Hs. rewrite Forall_forall in Hs. specialize (Hs _ (list_elem_of_lookup_2 _ _ _ Hi)).
  unfold mm_len, DEFAULT_CHUNK_SIZE in Hs. rewrite length_app in Hs. unfold is_u. lia.
Qed.

Definition same_all_but_ref (ms ms' : list ChunkMeta) : Prop := Forall2 same_but_ref ms ms'.

Lemma same_contents ms ms' : same_all_but_ref ms ms' -> contents ms' = contents ms.
Proof.
  unfold contents. generalize (∅ : gmap Z Z) as acc. intros acc H. revert acc. induction H as [|m m' ms ms' (E & _) _ IH]; intros acc; [done|].
  cbn [foldl]. rewrite IH. unfold add_samples. by rewrite E.
Qed.

Lemma same_good ms ms' : same_all_but_ref ms ms' -> Forall good_meta ms -> Forall good_meta ms'.
Proof.
  induction 1 as [|m m' ms ms' (E1 & E2 & E3) _ IH]; intros Hg; [constructor|]. apply Forall_cons in Hg as [Hm Hg]. apply Forall_cons.
  split; [|by apply IH]. unfold good_meta, meta_ok in *. by rewrite E1, E2, E3.
Qed.

Lemma same_small ms ms' : same_all_but_ref ms ms' -> series_small ms -> series_small ms'.
Proof.
  intros H [H1 H2]. assert (Ht : total_samples ms' = total_samples ms).
  { clear H1 H2. induction H as [|m m' ms ms' (E & _) _ IH]; [done|]. rewrite !total_cons, E. lia. }
  pose proof (Forall2_length _ _ _ H). split; [lia|by rewrite Ht].
Qed.

Lemma refs_set_points cs st st' ps ms : refs_set cs st st' ps -> points st ps ms ->
  exists ms', points st' ps ms' /\ same_all_but_ref ms ms' /\ Forall (fun m => placed cs (cm_ref m) (cm_chunk m)) ms'.
Proof.
  intros [_ Hr] Hp. assert (Hin : forall p m, (p, m) ∈ zip ps ms -> exists m', st' !! p = Some m' /\ same_but_ref m m' /\ placed cs (cm_ref m') (cm_chunk m)).
  { intros p m H. apply list_elem_of_lookup in H as (i & H). apply lookup_zip_Some in H as [H1 H2]. apply Hr; [by eapply list_elem_of_lookup_2|].
    by eapply Forall2_lookup_lr in Hp. }
  clear Hr. induction Hp as [|p m ps ms Hpm _ IH]; [exists []; by repeat split; constructor|].
  destruct (Hin p m ltac:(left)) as (m' & E & Hs & Hpl). destruct IH as (ms' & H1 & H2 & H3); [intros q x Hx; apply Hin; by right|].
  exists (m' :: ms'). split; [by constructor|]. split; [by constructor|]. apply Forall_cons. split; [|done]. by rewrite (proj1 Hs).
Qed.

Lemma metas_at_points st ps ms : points st ps ms -> metas_at st ps = Some ms.
Proof. intros H. apply mapM_Some. exact H. Qed.

(** Merging writes to no other metas. *)
Lemma overlap_step_frame st new last p st' new' (ps : list nat) : overlap_step st new last p = MOk st' new' -> (forall q, q ∈ new -> q ∈ ps) -> p ∈ ps ->
  (forall q, q ∉ ps -> st' !! q = st !! q) /\ length st' = length st /\ (forall q, q ∈ new' -> q ∈ ps).
Proof.
  intros E Hn Hp. unfold overlap_step in E. destruct (st !! p) as [c|]; [|done]. destruct (new !! last) as [q|] eqn:Eq; [|done].
  destruct (st !! q) as [l|]; [|done]. assert (Hq : q ∈ ps) by by eapply Hn, list_elem_of_lookup_2.
  destruct (cm_max_time l <? cm_min_time c).
  - injection E as <- <-. split; [done|]. split; [done|]. intros x [Hx| ->%list_elem_of_singleton]%elem_of_app; [by apply Hn|done].
  - destruct (merge_chunks _ _) as [[e|k]|]; [done| |done]. injection E as <- <-. split; [|by rewrite !length_insert].
    intros x Hx. assert (x <> q) by congruence. by rewrite !list_lookup_insert_ne.
Qed.

Lemma overlap_loop_frame (ps rest : list nat) : forall st new st' new', overlap_loop st new rest = MOk st' new' -> (forall q, q ∈ new -> q ∈ ps) -> (forall q, q ∈ rest -> q ∈ ps) ->
  (forall q, q ∉ ps -> st' !! q = st !! q) /\ length st' = length st.
Proof.
  induction rest as [|p rest IH]; intros st new st' new' E Hn Hr; cbn [overlap_loop] in E; [by injection E as <- _|].
  destruct (overlap_step st new (length new - 1) p) as [st1 new1| |] eqn:E1; [|done|done].
  destruct (overlap_step_frame _ _ _ _ _ _ ps E1 Hn (Hr p ltac:(left))) as (F1 & F2 & F3).
  destruct (IH st1 new1 st' new' E F3) as [G1 G2]; [intros q Hq; apply Hr; by right|]. split; [|by rewrite G2]. intros q Hq. by rewrite G1, F1.
Qed.

Lemma merge_frame st ps st' ps' : merge_overlapping_chunks st ps = MOk st' ps' -> (forall q, q ∉ ps -> st' !! q = st !! q) /\ length st' = length st.
Proof.
  intros E. destruct ps as [|p [|p2 rest]]; [by injection E as <- _..|]. apply (overlap_loop_frame _ _ _ _ _ _ E).
  - intros q ->%list_elem_of_singleton. left.
  - intros q Hq. by right.
Qed.

(** What merging keeps besides the samples. *)
Definition movable (m : ChunkMeta) : Prop := portable (cm_chunk m) /\ is_s64 (cm_min_time m) /\ is_s64 (cm_max_time m).

Lemma movable_merges : merge_keeps movable.
Proof.
  intros l c m (_ & Hl1 & Hl2) (_ & _ & Hc2) Hm E1 E2. split; [apply (made_portable _ _ Hm), chunk_reads_length|]. unfold is_s in *. rewrite E1, E2. lia.
Qed.

Lemma good_movable ms : Forall good_meta ms <-> Forall meta_ok ms /\ Forall movable ms.
Proof. unfold good_meta, movable. rewrite <- Forall_and. apply Forall_iff. intros m. tauto. Qed.

(** Merging the chunks, if blocks overlap. *)
Lemma merge_if_spec (overlapping : bool) st ps ms : NoDup ps -> points st ps ms -> Forall good_meta ms -> StronglySorted by_start ms -> series_small ms ->
  exists st' ps' ms', (if overlapping then merge_overlapping_chunks st ps else MOk st ps) = MOk st' ps' /\ points st' ps' ms' /\ ps' `sublist_of` ps /\
    Forall good_meta ms' /\ contents ms' = contents ms /\ series_small ms' /\ (forall p, p ∉ ps -> st' !! p = st !! p) /\ length st' = length st /\
    (overlapping = true -> StronglySorted before ms').
Proof.
  intros Hnd Hp Hg Hs [Hl Ht]. destruct overlapping; [|exists st, ps, ms; by split_and!]. pose proof (proj1 (good_movable ms) Hg) as [Hok Hmv].
  destruct (merge_overlapping_spec movable st ps ms movable_merges Hnd Hp Hok Hs Ht Hmv) as (st' & ps' & ms' & E & P1 & P2 & P3 & P4 & P5 & P6 & P7).
  destruct (merge_frame st ps st' ps' E) as [Hf Hlen]. exists st', ps', ms'.
  pose proof (Forall2_length _ _ _ P1). pose proof (Forall2_length _ _ _ Hp). pose proof (sublist_length _ _ P2).
  split; [done|]. split; [done|]. split; [done|]. split; [by apply good_movable|]. split; [done|]. split; [split; lia|done].
Qed.

Lemma write_series_spec (overlapping : bool) mint maxt o st csm ms cs :
  cw_inv (o_chunks o) cs -> Z.of_nat (length cs) < 10 ^ 6 -> csm_chunks csm <> [] -> NoDup (csm_chunks csm) -> points st (csm_chunks csm) ms ->
  Forall good_meta ms -> StronglySorted by_start ms -> series_small ms -> Forall (within mint maxt) ms ->
  exists st' w cs' ms' ms0, write_series overlapping mint maxt o st csm
      = Some (inr (mkOutput (add_series (o_index o) (csm_tsid csm) (map ref_of ms')) w (count_series (o_stats o) ms'), st')) /\
    cw_inv w cs' /\ grows cs cs' /\ (length cs' <= S (length cs))%nat /\
    Forall (fun m => placed cs' (cm_ref m) (cm_chunk m)) ms' /\ Forall good_meta ms' /\ series_small ms' /\
    (forall p, p ∉ csm_chunks csm -> st' !! p = st !! p) /\ length st' = length st /\
    ms0 ≡ₚ ms /\ StronglySorted by_start ms0 /\ contents ms' = survived (csm_intervals csm) ms0.
Proof.
  intros Hw Hl Hne Hnd Hp Hg Hs Hsm Hin. unfold write_series.
  assert (Hsort : exists ps ms0, (if overlapping then sort_by (start_of st) (csm_chunks csm) else csm_chunks csm) = ps /\ ps ≡ₚ csm_chunks csm /\
    points st ps ms0 /\ ms0 ≡ₚ ms /\ StronglySorted by_start ms0).
  { destruct overlapping; [|by exists (csm_chunks csm), ms]. destruct (sort_points st _ _ Hp) as (H1 & ms0 & H2 & H3 & H4).
    by exists (sort_by (start_of st) (csm_chunks csm)), ms0. }
  destruct Hsort as (ps & ms0 & -> & Eps & Hp0 & Ems & Hs0).
  rewrite bool_decide_eq_false_2 by (intros ->; apply Hne; by apply Permutation_nil_r).
  assert (Hsm0 : series_small ms0) by by apply (small_perm ms).
  assert (Hg0 : Forall good_meta ms0) by by rewrite Ems.
  destruct (check_chunks_spec (csm_intervals csm) mint maxt ps st ms0) as (st1 & ms1 & -> & P1 & P2 & P3 & P4); try done; [by rewrite Eps|by rewrite Ems|].
  cbn [mbind option_bind]. destruct (pruned_good _ _ _ P2 Hg0) as [Hg1 Hs1].
  assert (Hsm1 : series_small ms1) by (unfold series_small in *; pose proof (Forall2_length _ _ _ P2); pose proof (pruned_total _ _ _ P2); lia).
  destruct (merge_if_spec overlapping st1 ps ms1) as (st2 & ps2 & ms2 & -> & Q1 & Q2 & Q3 & Q4 & Q5 & Q6 & Q7 & _); [by rewrite Eps|done|done|by apply Hs1|done|].
  cbn [mbind option_bind]. assert (Hnd2 : NoDup ps2) by (eapply sublist_NoDup; [|exact Q2]; by rewrite Eps).
  destruct (write_chunks_spec (o_chunks o) st2 ps2 cs Hw (batch_small _ _ _ Hnd2 Q1 Q3 Q5) Hl) as (w & st3 & cs' & Ew & W1 & W2 & W3 & W4). rewrite Ew. cbn [mbind option_bind].
  destruct (refs_set_points _ _ _ _ _ W3 Q1) as (ms3 & R1 & R2 & R3). rewrite (metas_at_points _ _ _ R1). cbn [mbind option_bind].
  exists st3, w, cs', ms3, ms0. split; [done|]. split; [done|]. split; [done|]. split; [done|]. split; [done|].
  split; [by apply (same_good ms2)|]. split; [apply (same_small ms2 ms3 R2 Q5)|]. split.
  { intros p Hpn. assert (p ∉ ps) by by rewrite Eps. rewrite (proj1 W3), Q6, P3; [done..|]. intros Hx. by eapply elem_of_submseteq in Hx; [|by apply sublist_submseteq]. }
  split; [by rewrite (write_chunks_length _ _ _ _ _ Ew), Q7, P4|].
  split; [done|]. split; [done|]. rewrite (same_contents _ _ R2), Q4. by apply contents_pruned.
Qed.

End OneSeries.

(** ** The series of several blocks *)

Section Merging.
Context `{PE : PastEnd} `{SO : Sort} `{SL : !SortLaws SO} {B : Type} `{BI : BlockInterface B}.

Definition ids_of (b : B) : list Z := default [] (all_postings b).
Definition itvls_of (b : B) (id : Z) : Intervals := default [] (deleted b id).
Definition refs_of (b : B) (id : Z) : list ChunkRef := match series_lset b id with Some (_, refs) => refs | None => [] end.

(** The chunks of a series in a block, and those that are not deleted as a whole. *)
Definition metas_of (b : B) (id : Z) : list ChunkMeta := default [] (read_refs b (refs_of b id)).
Definition live_of (b : B) (id : Z) : list ChunkMeta := default [] (read_refs b (live_refs (itvls_of b id) (refs_of b id))).

(** A block that can be read: its ids ascend, its chunks are there and hold
    samples within their times. *)
Record block_fine (b : B) : Prop := {
  bf_opens : index_opens b = true /\ chunks_open b = true /\ tombstones_open b = true /\ all_postings b = Some (ids_of b);
  bf_ids : StronglySorted Z.lt (ids_of b) /\ Forall is_u64 (ids_of b);
  bf_series : forall id, id ∈ ids_of b -> exists lset refs ms,
    series_lset b id = Some (lset, refs) /\ read_refs b refs = Some ms /\ Forall good_meta ms }.

Definition meta_live (itvls : Intervals) (m : ChunkMeta) : Prop := is_subrange (cm_min_time m) (cm_max_time m) itvls = false.

#[export] Instance meta_live_dec itvls m : Decision (meta_live itvls m) := decide (_ = _).

Lemma read_refs_live b itvls refs ms : read_refs b refs = Some ms -> read_refs b (live_refs itvls refs) = Some (filter (meta_live itvls) ms).
Proof.
  intros E. unfold live_refs. case_bool_decide as Hi.
  - rewrite E. f_equal. symmetry. apply filter_id. apply Forall_forall. intros m _. by subst.
  - clear Hi. revert ms E. induction refs as [|r refs IH]; intros ms E; cbn [read_refs] in E; [by injection E as <-|].
    apply bind_Some in E as (c & Ec & E). apply bind_Some in E as (ms' & Ems & E). injection E as <-.
    destruct (decide (is_subrange (cr_min r) (cr_max r) itvls = false)) as [Hd|Hd].
    + rewrite filter_cons_True by done. rewrite filter_cons_True by done. cbn [read_refs]. rewrite Ec, (IH _ Ems). done.
    + rewrite filter_cons_False by done. rewrite filter_cons_False by done. by apply IH.
Qed.

Lemma live_filter b id : block_fine b -> id ∈ ids_of b -> live_of b id = filter (meta_live (itvls_of b id)) (metas_of b id) /\ Forall good_meta (live_of b id) /\
  exists lset, series_lset b id = Some (lset, refs_of b id) /\ read_refs b (live_refs (itvls_of b id) (refs_of b id)) = Some (live_of b id).
Proof.
  intros Hb Hid. destruct (bf_series b Hb id Hid) as (lset & refs & ms & E1 & E2 & Hg). unfold live_of, metas_of, refs_of. rewrite E1, E2.
  rewrite (read_refs_live _ _ _ _ E2). cbn [default]. split; [done|]. split; [|by exists lset]. apply Forall_forall.
  intros m [_ Hm]%list_elem_of_filter. rewrite Forall_forall in Hg. by apply Hg.
Qed.

(** *** Sets and what they have left *)

(** The ids a set is at and has left. *)
Abbreviation Rest := (B * list Z)%type.

(** A set at the first of the ids. *)
Definition at_series (st : Metas) (r : Rest) (s : CompactionChunkSeriesSet B) : Prop :=
  exists id p, r.2 = id :: p /\ csm_tsid (ccs_csm s) = id /\ csm_intervals (ccs_csm s) = itvls_of r.1 id /\
    points st (csm_chunks (ccs_csm s)) (live_of r.1 id).

(** A set with the ids after the first left; at the first, unless it is done
    with. *)
Definition ready (st : Metas) (r : Rest) (k : bool) (s : CompactionChunkSeriesSet B) : Prop :=
  ccs_block s = r.1 /\ ccs_global s = true /\ (exists id, r.2 = id :: ccs_p s) /\ (k = false -> at_series st r s).

Inductive all_ready (st : Metas) : list Rest -> list bool -> list (CompactionChunkSeriesSet B) -> Prop :=
| ready_nil : all_ready st [] [] []
| ready_cons r k s rs ks css : ready st r k s -> all_ready st rs ks css -> all_ready st (r :: rs) (k :: ks) (s :: css).

Definition rest_ok (r : Rest) : Prop := block_fine r.1 /\ forall id, id ∈ tail r.2 -> id ∈ ids_of r.1.

(** The pointers of the sets that are not done with. *)
Fixpoint open_ptrs (ks : list bool) (css : list (CompactionChunkSeriesSet B)) : list nat :=
  match ks, css with
  | k :: ks, s :: css => (if k : bool then [] else csm_chunks (ccs_csm s)) ++ open_ptrs ks css
  | _, _ => []
  end.

Definition ptrs (css : list (CompactionChunkSeriesSet B)) : list nat := css ≫= fun s => csm_chunks (ccs_csm s).

(** The sets that are done with advance; those at their end go. *)
Fixpoint advance (st : Metas) (ks : list bool) (css : list (CompactionChunkSeriesSet B)) : list (CompactionChunkSeriesSet B) * Metas :=
  match ks, css with
  | k :: ks, s :: css =>
    if k : bool then
      let '(ok, s, st) := ccs_next st s in
      let '(css, st) := advance st ks css in
      (if ok : bool then s :: css else css, st)
    else let '(css, st) := advance st ks css in (s :: css, st)
  | _, _ => (css, st)
  end.

Fixpoint adv (rs : list Rest) (ks : list bool) : list Rest :=
  match rs, ks with
  | r :: rs, k :: ks =>
    if k : bool then match tail r.2 with [] => adv rs ks | p => (r.1, p) :: adv rs ks end else r :: adv rs ks
  | _, _ => []
  end.

Lemma points_grow st st' ps ms : points st ps ms -> points (st ++ st') ps ms.
Proof. intros H. eapply Forall2_impl; [exact H|]. intros p m Hp. by apply lookup_app_l_Some. Qed.

Lemma points_below st ps ms p : points st ps ms -> p ∈ ps -> (p < length st)%nat.
Proof. intros H Hp. apply list_elem_of_lookup in Hp as (i & Hp). destruct (Forall2_lookup_l _ _ _ _ _ H Hp) as (m & _ & Hm). by eapply lookup_lt_Some. Qed.

Lemma ready_grow st st' r k s : ready st r k s -> ready (st ++ st') r k s.
Proof.
  intros (H1 & H2 & H3 & H4). split; [done|]. split; [done|]. split; [done|]. intros Hk. destruct (H4 Hk) as (id & p & E1 & E2 & E3 & E4).
  exists id, p. split_and!; try done. by apply points_grow.
Qed.

Lemma all_ready_grow st st' rs ks css : all_ready st rs ks css -> all_ready (st ++ st') rs ks css.
Proof. induction 1; constructor; [by apply ready_grow|done]. Qed.

Lemma points_new st ms : points (st ++ ms) (seq (length st) (length ms)) ms.
Proof.
  apply Forall2_same_length_lookup. split; [apply length_seq|]. intros i p m Hp Hm. apply lookup_seq in Hp as [-> Hi].
  rewrite lookup_app_r by lia. by replace (length st + i - length st)%nat with i by lia.
Qed.

(** A set that advances. *)
Lemma ccs_next_spec st r s : ready st r true s -> rest_ok r ->
  match tail r.2 with
  | [] => exists s', ccs_next st s = (false, s', st)
  | id :: p => exists s', ccs_next st s = (true, s', st ++ live_of r.1 id) /\ ready (st ++ live_of r.1 id) (r.1, id :: p) false s' /\
      csm_chunks (ccs_csm s') = seq (length st) (length (live_of r.1 id))
  end.
Proof.
  intros (E1 & E2 & (id0 & E3) & _) [Hb Hids]. rewrite E3 in *. cbn [tail] in *. unfold ccs_next. destruct (ccs_p s) as [|id p] eqn:Ep; [by exists s|].
  rewrite E1, E2. destruct (live_filter r.1 id Hb (Hids id ltac:(left))) as (_ & _ & lset & El & Er). rewrite El. fold (itvls_of r.1 id). rewrite Er.
  eexists. split; [done|]. split; [|done]. split; [done|]. split; [done|]. split; [by exists id|]. intros _. exists id, p. split; [done|].
  split; [done|]. split; [done|]. apply points_new.
Qed.

Lemma open_ptrs_below st rs ks css p : all_ready st rs ks css -> p ∈ open_ptrs ks css -> (p < length st)%nat.
Proof.
  induction 1 as [|r k s rs ks css Hr _ IH]; cbn [open_ptrs]; [by intros ?%elem_of_nil|]. intros [Hp|Hp]%elem_of_app; [|by apply IH].
  destruct k; [by apply elem_of_nil in Hp|]. destruct Hr as (_ & _ & _ & Ha). destruct (Ha eq_refl) as (id & q & _ & _ & _ & Hpt). by eapply points_below.
Qed.

Lemma advance_spec rs : forall ks css st, all_ready st rs ks css -> Forall rest_ok rs -> NoDup (open_ptrs ks css) ->
  exists new css', advance st ks css = (css', st ++ new) /\ all_ready (st ++ new) (adv rs ks) (replicate (length css') false) css' /\ NoDup (ptrs css') /\
    forall p, p ∈ ptrs css' -> p ∈ open_ptrs ks css \/ (length st <= p < length (st ++ new))%nat.
Proof.
  induction rs as [|r rs IH]; intros ks css st H Hok Hnd; inversion H as [|? k s ? ks' css' Hr Hrs]; subst.
  { exists [], []. rewrite app_nil_r. split; [done|]. split; [constructor|]. split; [constructor|]. by intros p ?%elem_of_nil. }
  apply Forall_cons in Hok as [Hokr Hok]. cbn [advance adv open_ptrs] in *. destruct k.
  - pose proof (ccs_next_spec st r s Hr Hokr) as Hn. destruct (tail r.2) as [|id p].
    + destruct Hn as (s' & ->). destruct (IH ks' css' st Hrs Hok Hnd) as (new & css2 & E & P1 & P2 & P3). exists new, css2. by rewrite E.
    + destruct Hn as (s' & -> & Hs' & Hc). set (live := live_of r.1 id) in *.
      destruct (IH ks' css' (st ++ live) (all_ready_grow _ _ _ _ _ Hrs) Hok Hnd) as (new & css2 & E & P1 & P2 & P3).
      exists (live ++ new), (s' :: css2). rewrite E, app_assoc. split; [done|]. split; [constructor; [by apply ready_grow|done]|].
      cbn [ptrs mbind list_bind]. fold (ptrs css2). rewrite Hc. split.
      * apply NoDup_app. split; [apply NoDup_seq|]. split; [|done]. intros q Hq%elem_of_seq Hq2. destruct (P3 q Hq2) as [Ho|Ho].
        { apply (open_ptrs_below _ _ _ _ _ Hrs) in Ho. lia. } rewrite length_app in Ho. lia.
      * intros q [Hq%elem_of_seq|Hq]%elem_of_app; [right; rewrite !length_app; lia|]. destruct (P3 q Hq) as [Ho|Ho]; [by left|right].
        rewrite !length_app in *. lia.
  - apply NoDup_app in Hnd as (Hn1 & Hn2 & Hn3). destruct (IH ks' css' st Hrs Hok Hn3) as (new & css2 & E & P1 & P2 & P3). exists new, (s :: css2).
    rewrite E. split; [done|]. split; [constructor; [by apply ready_grow|done]|]. cbn [ptrs mbind list_bind]. fold (ptrs css2). split.
    + apply NoDup_app. split; [done|]. split; [|done]. intros q Hq Hq2. destruct (P3 q Hq2) as [Ho|Ho]; [by apply (Hn2 q)|].
      destruct Hr as (_ & _ & _ & Ha). destruct (Ha eq_refl) as (id & pp & _ & _ & _ & Hpt). pose proof (points_below _ _ _ _ Hpt Hq). lia.
    + intros q [Hq|Hq]%elem_of_app; [left; apply elem_of_app; by left|]. destruct (P3 q Hq) as [Ho|Ho]; [left; apply elem_of_app; by right|by right].
Qed.

(** *** Advancing by positions *)

Fixpoint positions (base : nat) (ks : list bool) : list nat :=
  match ks with
  | [] => []
  | k :: ks => (if k : bool then [base] else []) ++ positions (S base) ks
  end.

Lemma positions_app base a b : positions base (a ++ b) = positions base a ++ positions (base + length a) b.
Proof.
  revert base. induction a as [|k a IH]; intros base; cbn [app positions length]; [by rewrite Nat.add_0_r|]. rewrite IH, <- app_assoc.
  by replace (S base + length a)%nat with (base + S (length a))%nat by lia.
Qed.

Lemma positions_none base ks : Forall (fun k => k = false) ks -> positions base ks = [].
Proof. intros H. revert base. induction H as [|k ks -> _ IH]; intros base; [done|]. apply IH. Qed.

Lemma sets_next_ids_advance rest : forall ks st pre d, length ks = length rest -> Z.of_nat (length pre + length rest) + d < 2 ^ 64 -> 0 <= d ->
  sets_next_ids st d (positions (length pre + Z.to_nat d) ks) (pre ++ rest) = (pre ++ (advance st ks rest).1, (advance st ks rest).2).
Proof.
  induction rest as [|s rest IH]; intros [|k ks] st pre d Hl Hb Hd; try done. cbn [positions advance]. injection Hl as Hl.
  cbn [length] in Hb. destruct k; cbn [app].
  - cbn [sets_next_ids]. replace (Z.to_nat (u64 (Z.of_nat (length pre + Z.to_nat d) - d))) with (length pre)
      by (unfold u64; rewrite wrap_id by (unfold is_u; lia); lia).
    rewrite list_lookup_middle by done. destruct (ccs_next st s) as [[ok s'] st'] eqn:E. destruct ok.
    + rewrite insert_app_r_alt by lia. rewrite Nat.sub_diag. cbn [insert list_insert].
      rewrite (cons_middle s' pre rest), app_assoc. specialize (IH ks st' (pre ++ [s']) d Hl). rewrite length_app in IH. cbn [length] in IH.
      replace (S (length pre + Z.to_nat d)) with (length pre + 1 + Z.to_nat d)%nat by lia. rewrite IH by lia.
      destruct (advance st' ks rest) as [css2 st2]. by rewrite <- app_assoc.
    + rewrite delete_middle. specialize (IH ks st' pre (d + 1) Hl).
      replace (S (length pre + Z.to_nat d)) with (length pre + Z.to_nat (d + 1))%nat by lia. rewrite IH by lia.
      by destruct (advance st' ks rest) as [css2 st2].
  - rewrite (cons_middle s pre rest), app_assoc. specialize (IH ks st (pre ++ [s]) d Hl). rewrite length_app in IH. cbn [length] in IH.
    replace (S (length pre + Z.to_nat d)) with (length pre + 1 + Z.to_nat d)%nat by lia. rewrite IH by lia.
    destruct (advance st ks rest) as [css2 st2]. by rewrite <- app_assoc.
Qed.

Lemma sets_next_advance css : forall st, sets_next st css = advance st (replicate (length css) true) css.
Proof.
  induction css as [|s css IH]; intros st; [done|]. cbn [sets_next length replicate advance]. destruct (ccs_next st s) as [[ok s'] st']. by rewrite IH.
Qed.

(** *** The smallest id *)

Abbreviation tsid_of := (fun s : CompactionChunkSeriesSet B => csm_tsid (ccs_csm s)).
Abbreviation at_id t := (map (fun s : CompactionChunkSeriesSet B => csm_tsid (ccs_csm s) =? t)).

Lemma at_id_none t css : Forall (fun s => t < tsid_of s) css -> Forall (fun k => k = false) (at_id t css).
Proof. induction 1 as [|s css Hs _ IH]; [constructor|]. cbn [map]. constructor; [apply Z.eqb_neq; lia|done]. Qed.

Lemma pick_id_spec css : forall pre tsid lset, Forall (fun s => tsid <= tsid_of s) pre -> (exists s, s ∈ pre /\ tsid_of s = tsid) ->
  exists t lset', pick_id (length pre) tsid lset (positions 0 (at_id tsid pre)) css = (t, lset', positions 0 (at_id t (pre ++ css))) /\
    Forall (fun s => t <= tsid_of s) (pre ++ css) /\ exists s, s ∈ pre ++ css /\ tsid_of s = t.
Proof.
  induction css as [|s css IH]; intros pre tsid lset Hmin Hex; cbn [pick_id].
  { exists tsid, lset. by rewrite app_nil_r. }
  assert (Hgo : forall tsid' lset', Forall (fun x => tsid' <= tsid_of x) (pre ++ [s]) -> (exists x, x ∈ pre ++ [s] /\ tsid_of x = tsid') ->
    exists t l, pick_id (S (length pre)) tsid' lset' (positions 0 (at_id tsid' (pre ++ [s]))) css = (t, l, positions 0 (at_id t (pre ++ s :: css))) /\
      Forall (fun x => t <= tsid_of x) (pre ++ s :: css) /\ exists x, x ∈ pre ++ s :: css /\ tsid_of x = t).
  { intros tsid' lset' H1 H2. specialize (IH (pre ++ [s]) tsid' lset' H1 H2). rewrite length_app, <- app_assoc in IH. cbn [app length] in IH.
    by rewrite Nat.add_1_r in IH. }
  assert (Epos : forall t, positions 0 (at_id t (pre ++ [s])) = positions 0 (at_id t pre) ++ (if tsid_of s =? t then [length pre] else [])).
  { intros t. rewrite map_app, positions_app, length_map. cbn [map positions]. by rewrite app_nil_r. }
  destruct (Z.ltb_spec (tsid_of s) tsid) as [Hlt|Hge]; [|destruct (Z.eqb_spec (tsid_of s) tsid) as [Heq|Hne]].
  - specialize (Hgo (tsid_of s) (set_lset (csm_lset (ccs_csm s)) lset)). rewrite Epos, Z.eqb_refl in Hgo. rewrite (positions_none 0) in Hgo.
    2: { apply at_id_none. eapply Forall_impl; [exact Hmin|]. intros x Hx. cbn beta in Hx. lia. }
    apply Hgo; [|exists s; split; [apply elem_of_app; right; left|done]]. apply Forall_app. split; [|apply Forall_singleton; lia].
    eapply Forall_impl; [exact Hmin|]. intros x Hx. cbn beta in Hx. lia.
  - specialize (Hgo tsid lset). rewrite Epos, (proj2 (Z.eqb_eq _ _) Heq) in Hgo. apply Hgo; [|destruct Hex as (x & Hx & E); exists x; split; [apply elem_of_app; by left|done]].
    apply Forall_app. split; [done|apply Forall_singleton; lia].
  - specialize (Hgo tsid lset). rewrite Epos, (proj2 (Z.eqb_neq _ _) Hne), app_nil_r in Hgo.
    apply Hgo; [|destruct Hex as (x & Hx & E); exists x; split; [apply elem_of_app; by left|done]].
    apply Forall_app. split; [done|apply Forall_singleton; lia].
Qed.

Lemma gather_positions {A} (f : ChunkSeriesMeta -> list A) t css : forall pre,
  gather f (pre ++ css) (positions (length pre) (at_id t css)) = css ≫= fun s => if tsid_of s =? t then f (ccs_csm s) else [].
Proof.
  induction css as [|s css IH]; intros pre; [done|]. cbn [map positions mbind list_bind]. unfold gather. rewrite bind_app. specialize (IH (pre ++ [s])).
  rewrite length_app, <- app_assoc in IH. cbn [app length] in IH. rewrite Nat.add_1_r in IH. unfold gather in IH. rewrite IH. f_equal.
  destruct (tsid_of s =? t); [|done]. cbn [mbind list_bind]. rewrite list_lookup_middle by done. apply app_nil_r.
Qed.

(** *** What is left after an id *)

(** The ids of a block that come after [t]. *)
Definition after (t : Z) (b : B) : list Z := filter (fun id => t < id) (ids_of b).

Definition rest_of (t : Z) (b : B) : option Rest := match after t b with [] => None | l => Some (b, l) end.

Definition rests (t : Z) (blocks : list B) : list Rest := omap (rest_of t) blocks.

Definition first_id (r : Rest) : Z := default 0 (head r.2).

Lemma after_cons t b id p : block_fine b -> after t b = id :: p -> t < id /\ id ∈ ids_of b /\ after id b = p /\ Forall (fun x => id < x) p /\
  (forall x, x ∈ ids_of b -> t < x -> id <= x).
Proof.
  intros Hb E. destruct (bf_ids b Hb) as [Hs _]. unfold after in *.
  assert (Hid : id ∈ filter (fun x => t < x) (ids_of b)) by (rewrite E; left). apply list_elem_of_filter in Hid as [Hlt Hin].
  assert (Hsf : StronglySorted Z.lt (id :: p)).
  { rewrite <- E. clear E Hlt Hin. induction Hs as [|x l Hs IH Hl]; [apply SSorted_nil|]. destruct (decide (t < x)).
    - rewrite filter_cons_True by done. apply SSorted_cons; [apply IH|]. apply Forall_forall. intros y [_ Hy]%list_elem_of_filter.
      rewrite Forall_forall in Hl. by apply Hl.
    - rewrite filter_cons_False by done. apply IH. }
  apply StronglySorted_inv in Hsf as [_ Hp]. split; [done|]. split; [done|]. split; [|split; [done|]].
  - transitivity (filter (fun x => id < x) (filter (fun x => t < x) (ids_of b))).
    + rewrite list_filter_filter. apply list_filter_iff. intros x. lia.
    + rewrite E, filter_cons_False by lia. by apply filter_id.
  - intros x Hx Htx. assert (Hx' : x ∈ id :: p) by (rewrite <- E; by apply list_elem_of_filter). apply elem_of_cons in Hx' as [->|Hx']; [lia|].
    rewrite Forall_forall in Hp. specialize (Hp x Hx'). cbn beta in Hp. lia.
Qed.

Lemma rest_of_ok t b r : block_fine b -> rest_of t b = Some r -> r.1 = b /\ after t b = r.2 /\ r.2 <> [] /\ rest_ok r.
Proof.
  intros Hb. unfold rest_of. destruct (after t b) as [|id p] eqn:E; [done|]. intros [= <-]. split; [done|]. split; [done|]. split; [done|]. split; [done|].
  cbn [fst snd tail]. intros x Hx. assert (Hx' : x ∈ after t b) by (rewrite E; by right). by apply list_elem_of_filter in Hx' as [_ Hx'].
Qed.

Lemma list_filter_iff' (P Q : Z -> Prop) `{forall x, Decision (P x)} `{forall x, Decision (Q x)} (l : list Z) :
  (forall x, x ∈ l -> (P x <-> Q x)) -> filter P l = filter Q l.
Proof.
  induction l as [|x l IH]; intros Hl; [done|]. assert (Hx := Hl x ltac:(left)). assert (E : filter P l = filter Q l) by (apply IH; intros y Hy; apply Hl; by right).
  destruct (decide (P x)); [rewrite !filter_cons_True by tauto|rewrite !filter_cons_False by tauto]; by rewrite E.
Qed.

Lemma rests_cons t b blocks : rests t (b :: blocks) = match rest_of t b with Some r => r :: rests t blocks | None => rests t blocks end.
Proof. done. Qed.

Lemma after_nothing t0 t b : t0 <= t -> after t0 b = [] -> after t b = [].
Proof.
  intros Ht E. destruct (after t b) as [|x l] eqn:Ex; [done|]. assert (Hx : x ∈ after t b) by (rewrite Ex; left). apply list_elem_of_filter in Hx as [H1 H2].
  assert (Hx : x ∈ after t0 b) by (apply list_elem_of_filter; split; [lia|done]). rewrite E in Hx. by apply elem_of_nil in Hx.
Qed.

(** Past [t], when nothing before it is left. *)
Lemma rests_adv t0 t blocks : Forall block_fine blocks -> Forall (fun r => t <= first_id r) (rests t0 blocks) -> t0 <= t ->
  adv (rests t0 blocks) (map (fun r => first_id r =? t) (rests t0 blocks)) = rests t blocks.
Proof.
  induction blocks as [|b blocks IH]; intros Hb Hr Ht; [done|]. apply Forall_cons in Hb as [Hb Hbs]. rewrite !rests_cons in *.
  unfold rest_of in *. destruct (after t0 b) as [|id p] eqn:E.
  - rewrite (after_nothing t0 t b Ht E). by apply IH.
  - destruct (after_cons t0 b id p Hb E) as (H1 & H2 & H3 & H4 & H5). apply Forall_cons in Hr as [Hh Hr]. change (t <= id) in Hh.
    cbn [map adv]. change (first_id (b, id :: p)) with id. cbn [snd fst tail]. specialize (IH Hbs Hr Ht). destruct (Z.eqb_spec id t) as [->|Hne].
    + rewrite H3. destruct p; by rewrite IH.
    + assert (Ea : after t b = id :: p).
      { rewrite <- E. unfold after. apply list_filter_iff'. intros x Hx. split; [lia|]. intros Hx0. specialize (H5 x Hx Hx0). lia. }
      by rewrite Ea, IH.
Qed.

(** The blocks that hold a series. *)
Definition holding (t : Z) (blocks : list B) : list B := filter (fun b => t ∈ ids_of b) blocks.

Lemma rests_holding {A} (f : B -> list A) t0 t blocks : Forall block_fine blocks -> Forall (fun r => t <= first_id r) (rests t0 blocks) -> t0 < t ->
  (rests t0 blocks ≫= fun r => if first_id r =? t then f r.1 else []) = holding t blocks ≫= f.
Proof.
  induction blocks as [|b blocks IH]; intros Hb Hr Ht; [done|]. apply Forall_cons in Hb as [Hb Hbs]. rewrite rests_cons in *. unfold holding.
  unfold rest_of in *. destruct (after t0 b) as [|id p] eqn:E.
  - rewrite filter_cons_False; [by apply IH|]. intros Hin. assert (Hx : t ∈ after t0 b) by by apply list_elem_of_filter. rewrite E in Hx. by apply elem_of_nil in Hx.
  - destruct (after_cons t0 b id p Hb E) as (H1 & H2 & H3 & H4 & H5). apply Forall_cons in Hr as [Hh Hr]. change (t <= id) in Hh.
    specialize (IH Hbs Hr Ht). cbn [mbind list_bind]. change (first_id (b, id :: p)) with id. cbn [fst]. destruct (Z.eqb_spec id t) as [->|Hne].
    + rewrite filter_cons_True by done. cbn [mbind list_bind]. f_equal. exact IH.
    + rewrite filter_cons_False; [exact IH|]. intros Hin. specialize (H5 t Hin Ht). lia.
Qed.

(** *** The next series *)

Lemma Forall2_impl_elem_of_l' {A C} (P Q : A -> C -> Prop) l k : Forall2 P l k -> (forall x y, x ∈ l -> P x y -> Q x y) -> Forall2 Q l k.
Proof. induction 1 as [|x y l k Hxy _ IH]; intros Hpq; constructor; [apply Hpq; [left|done]|]. apply IH. intros a b Ha. apply Hpq. by right. Qed.

Lemma advance_length ks : forall css st css' st', advance st ks css = (css', st') -> (length css' <= length css)%nat.
Proof.
  induction ks as [|k ks IH]; intros css st css' st' E; cbn [advance] in E; [by injection E as <- _|]. destruct css as [|s css]; [by injection E as <- _|].
  destruct k.
  - destruct (ccs_next st s) as [[ok s'] st1]. destruct (advance st1 ks css) as [css2 st2] eqn:E2. apply IH in E2. destruct ok; injection E as <- _; simpl; lia.
  - destruct (advance st ks css) as [css2 st2] eqn:E2. apply IH in E2. injection E as <- _. simpl. lia.
Qed.

Lemma all_ready_frame st st' rs ks css : all_ready st rs ks css -> (forall p, p ∈ open_ptrs ks css -> st' !! p = st !! p) -> all_ready st' rs ks css.
Proof.
  induction 1 as [|r k s rs ks css (H1 & H2 & H3 & H4) _ IH]; intros Hf; constructor.
  - split; [done|]. split; [done|]. split; [done|]. intros ->. destruct (H4 eq_refl) as (id & p & E1 & E2 & E3 & E4). exists id, p. split_and!; try done.
    eapply Forall2_impl_elem_of_l'; [exact E4|]. intros q m Hq Hm. rewrite Hf; [done|]. cbn [open_ptrs]. apply elem_of_app. by left.
  - apply IH. intros p Hp. apply Hf. cbn [open_ptrs]. apply elem_of_app. by right.
Qed.

(** Sets that are all at a series. *)
Lemma ready_at st rs css : all_ready st rs (replicate (length css) false) css -> forall t,
  at_id t css = map (fun r => first_id r =? t) rs /\ all_ready st rs (at_id t css) css /\
  points st (css ≫= fun s => if tsid_of s =? t then csm_chunks (ccs_csm s) else []) (rs ≫= fun r => if first_id r =? t then live_of r.1 t else []) /\
  (css ≫= fun s => if tsid_of s =? t then csm_intervals (ccs_csm s) else []) = (rs ≫= fun r => if first_id r =? t then itvls_of r.1 t else []) /\
  ptrs css ≡ₚ (css ≫= fun s => if tsid_of s =? t then csm_chunks (ccs_csm s) else []) ++ open_ptrs (at_id t css) css.
Proof.
  intros H t. remember (replicate (length css) false) as ks eqn:Ek. revert Ek.
  induction H as [|r k s rs ks css Hr _ IH]; intros Ek; [split_and!; try done; constructor|]. cbn [length replicate] in Ek. injection Ek as -> Ek.
  destruct (IH Ek) as (I1 & I2 & I3 & I4 & I5). destruct Hr as (H1 & H2 & H3 & H4). destruct (H4 eq_refl) as (id & p & E1 & E2 & E3 & E4).
  assert (Ef : first_id r = id) by (unfold first_id; by rewrite E1). cbn [map mbind list_bind ptrs open_ptrs]. fold (ptrs css). rewrite Ef, E2.
  split; [by f_equal|]. split; [|split; [|split]].
  - constructor; [|done]. split; [done|]. split; [done|]. split; [done|]. intros _. by apply H4.
  - destruct (Z.eqb_spec id t) as [->|Hne]; [by apply Forall2_app|exact I3].
  - destruct (Z.eqb_spec id t) as [->|Hne]; [by rewrite E3, I4|exact I4].
  - rewrite I5. destruct (Z.eqb_spec id t) as [->|Hne]; cbn [app]; [by rewrite app_assoc|]. solve_Permutation.
Qed.

Lemma ready_first st rs css : all_ready st rs (replicate (length css) false) css -> Forall2 (fun r s => first_id r = tsid_of s) rs css.
Proof.
  intros H. remember (replicate (length css) false) as ks eqn:Ek. revert Ek. induction H as [|r k s rs ks css Hr _ IH]; intros Ek; [constructor|].
  cbn [length replicate] in Ek. injection Ek as -> Ek. constructor; [|by apply IH]. destruct Hr as (_ & _ & _ & H4).
  destruct (H4 eq_refl) as (id & p & E1 & E2 & _). unfold first_id. by rewrite E1, E2.
Qed.

Lemma ready_min st rs css : all_ready st rs (replicate (length css) false) css -> forall t, Forall (fun s => t <= tsid_of s) css -> Forall (fun r => t <= first_id r) rs.
Proof. intros H t. pose proof (ready_first _ _ _ H) as Hf. clear H. induction Hf as [|r s rs css E _ IH]; [done|]. rewrite !Forall_cons, E. tauto. Qed.

Lemma ready_ex st rs css : all_ready st rs (replicate (length css) false) css -> forall s, s ∈ css -> exists r, r ∈ rs /\ first_id r = tsid_of s.
Proof.
  intros H s Hs. pose proof (ready_first _ _ _ H) as Hf. apply list_elem_of_lookup in Hs as (i & Hs).
  destruct (Forall2_lookup_r _ _ _ _ _ Hf Hs) as (r & Hr & E). exists r. split; [by eapply list_elem_of_lookup_2|done].
Qed.

(** What the merged set is at. *)
Record at_merged (st : Metas) (blocks : list B) (t0 t : Z) (m : MergedIDChunkSeriesSet B) : Prop := {
  am_tsid : csm_tsid (mcs_csm m) = t;
  am_later : t0 < t;
  am_first : Forall (fun r => t <= first_id r) (rests t0 blocks);
  am_some : holding t blocks <> [];
  am_itvls : csm_intervals (mcs_csm m) = holding t blocks ≫= (fun b => itvls_of b t);
  am_metas : exists ms, points st (csm_chunks (mcs_csm m)) ms /\ ms ≡ₚ (holding t blocks ≫= fun b => live_of b t) /\ StronglySorted by_start ms;
  am_nodup : NoDup (csm_chunks (mcs_csm m) ++ open_ptrs (map (fun r => first_id r =? t) (rests t0 blocks)) (mcs_sets m));
  am_ready : all_ready st (rests t0 blocks) (map (fun r => first_id r =? t) (rests t0 blocks)) (mcs_sets m);
  am_id : mcs_id m = positions 0 (map (fun r => first_id r =? t) (rests t0 blocks)) }.

Lemma rests_first t0 blocks r : Forall block_fine blocks -> r ∈ rests t0 blocks -> t0 < first_id r /\ r.1 ∈ holding (first_id r) blocks.
Proof.
  intros Hb Hr. apply list_elem_of_omap in Hr as (b & Hin & Hr). rewrite Forall_forall in Hb. specialize (Hb b Hin).
  destruct (rest_of_ok t0 b r Hb Hr) as (E1 & E2 & Hn & _). destruct r as [b' [|id p]]; [done|]. cbn [fst snd] in *. subst b'.
  destruct (after_cons t0 b id p Hb E2) as (H1 & H2 & _). change (first_id (b, id :: p)) with id. split; [done|]. by apply list_elem_of_filter.
Qed.

Lemma next_helper_spec blocks t0 rs ks st m : Forall block_fine blocks -> Forall rest_ok rs -> all_ready st rs ks (mcs_sets m) -> mcs_id m = positions 0 ks ->
  NoDup (open_ptrs ks (mcs_sets m)) -> adv rs ks = rests t0 blocks -> Z.of_nat (length (mcs_sets m)) < 2 ^ 64 ->
  exists new m', if bool_decide (rests t0 blocks = []) then next_helper st m = (false, m', st ++ new) /\ mcs_err m' = true
    else next_helper st m = (true, m', st ++ new) /\ mcs_err m' = mcs_err m /\ (length (mcs_sets m') <= length (mcs_sets m))%nat /\
      exists t, at_merged (st ++ new) blocks t0 t m'.
Proof.
  intros Hb Hok Hr Hid Hnd Hadv Hlen. destruct (advance_spec rs ks (mcs_sets m) st Hr Hok Hnd) as (new & css & E & Hrd & Hnd2 & _). exists new.
  assert (Hkl : length ks = length (mcs_sets m)) by (clear -Hr; induction Hr; simpl; congruence).
  assert (Hcl : (length css <= length (mcs_sets m))%nat) by (eapply advance_length; exact E).
  pose proof (sets_next_ids_advance (mcs_sets m) ks st [] 0 Hkl ltac:(simpl; lia) ltac:(lia)) as En. cbn [length app] in En. rewrite Nat.add_0_l in En.
  unfold next_helper. rewrite Hid. change (Z.to_nat 0) with 0%nat in En. rewrite En, E. cbn [fst snd]. rewrite Hadv in Hrd.
  destruct css as [|s css]; inversion Hrd as [|r ? ? rs' ? ? Hrs Hrss Er]; subst.
  { eexists. by rewrite bool_decide_eq_true_2. }
  assert (Hne : rests t0 blocks <> []) by by rewrite <- Er.
  rewrite Er. rewrite (bool_decide_eq_false_2 _ Hne).
  destruct (pick_id_spec css [s] (tsid_of s) (set_lset (csm_lset (ccs_csm s)) [])) as (t & lset & Ep & Hmin & (s0 & Hs0 & Et)).
  { apply Forall_singleton. lia. } { exists s. split; [left|done]. }
  assert (Ez : positions 0 (at_id (csm_tsid (ccs_csm s)) [s]) = [0%nat]) by (cbn [map positions]; by rewrite Z.eqb_refl). rewrite Ez in Ep.
  cbn [app length] in Ep, Hmin, Hs0. rewrite Ep. eexists. split; [done|]. split; [done|]. split; [done|]. exists t.
  destruct (ready_at _ _ _ Hrd t) as (I1 & I2 & I3 & I4 & I5).
  assert (Hfirst : Forall (fun r => t <= first_id r) (rests t0 blocks)) by (apply (ready_min _ _ _ Hrd); done).
  assert (Hlater : t0 < t /\ holding t blocks <> []).
  { destruct (ready_ex _ _ _ Hrd s0 Hs0) as (r0 & Hr0 & E0). rewrite Et in E0. destruct (rests_first t0 blocks r0 Hb Hr0) as [G1 G2]. rewrite E0 in G1, G2.
    split; [done|]. intros Eh. rewrite Eh in G2. by apply elem_of_nil in G2. }
  destruct Hlater as [Hlater Hsome]. rewrite (rests_holding (fun b => live_of b t) t0 t blocks Hb Hfirst Hlater) in I3.
  rewrite (rests_holding (fun b => itvls_of b t) t0 t blocks Hb Hfirst Hlater) in I4.
  pose proof (gather_positions csm_chunks t (s :: css) []) as G1. pose proof (gather_positions csm_intervals t (s :: css) []) as G2.
  cbn [length app] in G1, G2. destruct (sort_points _ _ _ I3) as (Hperm & Hms).
  split; cbn [mcs_csm mcs_sets mcs_id csm_tsid csm_intervals csm_chunks]; rewrite ?G1, ?G2, <- ?I1; try done.
  rewrite Hperm, <- I5. exact Hnd2.
Qed.

End Merging.

(** ** The new block *)

Abbreviation entries L := (map (fun e : Z * list ChunkMeta => (e.1, map ref_of e.2)) L).

Section NewBlock.
Context `{PE : PastEnd} `{CR : Crc} `{SO : Sort} `{SL : !SortLaws SO} {B : Type} `{BI : BlockInterface B}.
Variables (blocks : list B) (mint maxt : Z).

(** A series in all blocks: its chunks, those that are not deleted as a whole,
    its deleted intervals. *)
Definition series_metas (t : Z) : list ChunkMeta := holding t blocks ≫= fun b => metas_of b t.
Definition series_live (t : Z) : list ChunkMeta := holding t blocks ≫= fun b => live_of b t.
Definition series_itvls (t : Z) : Intervals := holding t blocks ≫= fun b => itvls_of b t.

(** Blocks that can be compacted into one with times from [mint] to [maxt]: each
    can be read, there are not too many series, and no series has too many
    samples. *)
Record blocks_fine : Prop := {
  bs_fine : Forall block_fine blocks;
  bs_count : Z.of_nat (length blocks) < 2 ^ 64;
  bs_few : Z.of_nat (length (blocks ≫= ids_of)) <= 10 ^ 6;
  bs_series : forall t, holding t blocks <> [] -> series_small (series_metas t) /\ Forall (within mint maxt) (series_metas t) }.

Hypothesis Hfine : blocks_fine.

(** The metas written for a series: each chunk is in the files [cs] where its
    reference says, and together they hold the samples that are left, a later
    chunk over an earlier one. *)
Definition entry_ok (cs : list (list Z)) (e : Z * list ChunkMeta) : Prop :=
  is_u64 e.1 /\ Forall (fun m => placed cs (cm_ref m) (cm_chunk m)) e.2 /\ Forall good_meta e.2 /\ series_small e.2 /\
  exists ms, ms ≡ₚ series_live e.1 /\ StronglySorted by_start ms /\ contents e.2 = survived (series_itvls e.1) ms.

Lemma entry_grows cs cs' e : grows cs cs' -> entry_ok cs e -> entry_ok cs' e.
Proof.
  intros Hg (H1 & H2 & H). split; [done|]. split; [|done]. eapply Forall_impl; [exact H2|]. intros m Hm. by eapply placed_grows.
Qed.

Lemma holding_ids t b : b ∈ holding t blocks -> block_fine b /\ t ∈ ids_of b.
Proof.
  intros [Ht Hb]%list_elem_of_filter. split; [|done]. pose proof (bs_fine Hfine) as Hf. rewrite Forall_forall in Hf. by apply Hf.
Qed.

Lemma live_sublist t : series_live t `sublist_of` series_metas t.
Proof.
  unfold series_live, series_metas. pose proof (holding_ids t) as Hh. revert Hh. induction (holding t blocks) as [|b bs IH]; intros Hh; [done|].
  cbn [mbind list_bind]. apply sublist_app; [|apply IH; intros x Hx; apply Hh; by right]. destruct (Hh b ltac:(left)) as [Hb Ht].
  destruct (live_filter b t Hb Ht) as (-> & _). apply sublist_filter.
Qed.

Lemma live_good t : Forall good_meta (series_live t).
Proof.
  apply Forall_forall. intros m Hm. apply list_elem_of_bind in Hm as (b & Hm & Hb). destruct (holding_ids t b Hb) as [Hbf Ht].
  destruct (live_filter b t Hbf Ht) as (_ & Hg & _). rewrite Forall_forall in Hg. by apply Hg.
Qed.

Lemma live_small t ms : ms ≡ₚ series_live t -> series_small (series_metas t) -> series_small ms.
Proof.
  intros Hp [H1 H2]. apply (small_perm _ _ Hp). pose proof (live_sublist t) as Hs. split; [apply sublist_length in Hs; lia|].
  assert (Ht : (total_samples (series_live t) <= total_samples (series_metas t))%nat); [|lia]. clear -Hs.
  induction Hs as [|m a b _ IH|m a b _ IH]; rewrite ?total_cons; [done|lia|lia].
Qed.

Lemma live_forall t (P : ChunkMeta -> Prop) ms : ms ≡ₚ series_live t -> Forall P (series_metas t) -> Forall P ms.
Proof.
  intros -> H. apply Forall_forall. intros m Hm. rewrite Forall_forall in H. apply H. eapply elem_of_submseteq; [exact Hm|].
  apply sublist_submseteq, live_sublist.
Qed.

(** *** How much is left *)

Definition left_after (t : Z) : nat := length (blocks ≫= after t).

Lemma left_less t0 t : t0 < t -> holding t blocks <> [] -> (left_after t < left_after t0)%nat.
Proof.
  intros Ht Hh. unfold left_after.
  assert (Hle : forall b, (length (after t b) <= length (after t0 b))%nat).
  { intros b. replace (after t b) with (filter (fun x => t < x) (after t0 b)); [apply length_filter|]. unfold after. rewrite list_filter_filter.
    apply list_filter_iff. intros x. lia. }
  assert (Hlt : forall b, t ∈ ids_of b -> (length (after t b) < length (after t0 b))%nat).
  { intros b Hb. replace (after t b) with (filter (fun x => t < x) (after t0 b)).
    - apply (length_filter_lt _ _ t); [|lia]. by apply list_elem_of_filter.
    - unfold after. rewrite list_filter_filter. apply list_filter_iff. intros x. lia. }
  destruct (holding t blocks) as [|b bs] eqn:E; [done|]. assert (Hb : b ∈ holding t blocks) by (rewrite E; left). apply list_elem_of_filter in Hb as [Hb Hin].
  clear Hh E. induction blocks as [|c cs IH]; [by apply elem_of_nil in Hin|]. cbn [mbind list_bind]. rewrite !length_app.
  apply elem_of_cons in Hin as [->|Hin].
  - specialize (Hlt c Hb). assert (Hcs : (length (cs ≫= after t) <= length (cs ≫= after t0))%nat); [|lia].
    clear -Hle. induction cs as [|x cs IH]; [done|]. cbn [mbind list_bind]. rewrite !length_app. specialize (Hle x). lia.
  - specialize (IH Hin). specialize (Hle c). lia.
Qed.

(** *** Writing the series one after the other *)

(** The series up to [t0] are written: [L]. *)
Record progress (t0 : Z) (o : Output) (cs : list (list Z)) (L : list (Z * list ChunkMeta)) : Prop := {
  pg_chunks : cw_inv (o_chunks o) cs;
  pg_index : o_index o = add_all index_writer (entries L);
  pg_entries : Forall (entry_ok cs) L;
  pg_sorted : StronglySorted (fun a b => a.1 < b.1) L;
  pg_ids : forall t, t ∈ map fst L <-> t <= t0 /\ series_live t <> [];
  pg_few : Z.of_nat (length cs + left_after t0) <= 10 ^ 6;
  pg_count : Z.of_nat (length L + left_after t0) <= 10 ^ 6;
  pg_stats : num_samples (o_stats o) = Z.of_nat (total_samples (L ≫= snd)) }.

Lemma live_held t : series_live t <> [] -> holding t blocks <> [].
Proof. intros H E. apply H. unfold series_live. by rewrite E. Qed.

(** No series comes between. *)
Lemma next_is_first t0 t t' : Forall (fun r => t <= first_id r) (rests t0 blocks) -> t0 < t' -> holding t' blocks <> [] -> t <= t'.
Proof.
  intros Hf Ht Hh. destruct (holding t' blocks) as [|b bs] eqn:E; [done|]. assert (Hb : b ∈ holding t' blocks) by (rewrite E; left).
  destruct (holding_ids t' b Hb) as [Hbf Hin]. apply list_elem_of_filter in Hb as [_ Hb].
  assert (Hx : t' ∈ after t0 b) by by apply list_elem_of_filter. destruct (after t0 b) as [|id p] eqn:Ea; [by apply elem_of_nil in Hx|].
  destruct (after_cons t0 b id p Hbf Ea) as (_ & _ & _ & _ & H5). specialize (H5 t' Hin Ht).
  rewrite Forall_forall in Hf. assert (Hr : (b, id :: p) ∈ rests t0 blocks) by (apply list_elem_of_omap; exists b; split; [done|unfold rest_of; by rewrite Ea]).
  specialize (Hf _ Hr). change (t <= id) in Hf. lia.
Qed.

Lemma entries_total cs L : Forall (entry_ok cs) L -> Z.of_nat (total_samples (L ≫= snd)) <= 65535 * Z.of_nat (length L).
Proof.
  induction 1 as [|e L (_ & _ & _ & [_ He] & _) _ IH]; [done|]. cbn [mbind list_bind length]. rewrite total_app. lia.
Qed.

Lemma count_spec s ms : Forall good_meta ms -> 0 <= num_samples s -> num_samples s + Z.of_nat (total_samples ms) < 2 ^ 64 ->
  num_samples (count_series s ms) = num_samples s + Z.of_nat (total_samples ms).
Proof.
  intros Hg. unfold count_series. cbn [num_samples]. generalize (num_samples s) as n. induction Hg as [|m ms Hm _ IH]; intros n Hn Hb; [change (n = n + 0); lia|].
  cbn [foldl]. rewrite total_cons in Hb. destruct Hm as (_ & (_ & Hc & _) & _). unfold u64. rewrite wrap_id by (rewrite Hc; unfold is_u; lia).
  rewrite IH by (rewrite Hc; lia). rewrite Hc, total_cons. lia.
Qed.

Lemma one_series (overlapping : bool) st t0 t o cs L m : progress t0 o cs L -> at_merged st blocks t0 t m ->
  exists o' st' cs' L', write_series overlapping mint maxt o st (mcs_csm m) = Some (inr (o', st')) /\ progress t o' cs' L' /\
    (forall p, p ∉ csm_chunks (mcs_csm m) -> st' !! p = st !! p) /\ length st' = length st.
Proof.
  intros [G1 G2 G3 G4 G5 G6 G7 G8] [A1 A2 A3 A4 A5 (ms & A6 & A7 & A8) A9 _ _]. destruct (bs_series Hfine t A4) as (B1 & B4).
  fold (series_live t) in A7. fold (series_itvls t) in A5. pose proof (left_less t0 t A2 A4) as Hleft.
  assert (Hids : forall t', t' <= t /\ series_live t' <> [] <-> (t' <= t0 /\ series_live t' <> []) \/ (t' = t /\ series_live t <> [])).
  { intros t'. split; [|intros [[? ?]|[-> ?]]; split; try done; lia]. intros [H1 H2]. destruct (Z.le_gt_cases t' t0) as [?|Hgt]; [by left|right].
    pose proof (next_is_first t0 t t' A3 Hgt (live_held t' H2)) as Hle. assert (t' = t) as -> by lia. done. }
  destruct (decide (csm_chunks (mcs_csm m) = [])) as [En|En].
  - exists o, st, cs, L. rewrite En in A6. apply Forall2_nil_inv_l in A6 as ->. apply Permutation_nil_l in A7. split.
    + unfold write_series. rewrite En. replace (if overlapping then sort_by (start_of st) [] else []) with (@nil nat); [done|].
      destruct overlapping; [|done]. symmetry. apply Permutation_nil_r, sort_by_perm.
    + split; [|done]. split; try done; [|lia|lia]. intros t'. rewrite G5, Hids. rewrite A7. intuition.
  - apply NoDup_app in A9 as (A9 & _ & _).
    destruct (write_series_spec overlapping mint maxt o st (mcs_csm m) ms cs) as (st' & w & cs' & ms' & ms0 & E & W1 & W2 & W3 & W4 & W5 & W6 & W7 & W8 & W9 & W10 & W11);
      rewrite ?A5; try done; [lia|rewrite A7; apply live_good|by apply (live_small t)|by apply (live_forall t)|].
    rewrite A1, A5 in *. eexists _, st', cs', (L ++ [(t, ms')]). split; [exact E|]. split; [|done].
    assert (Hlive : series_live t <> []).
    { intros Hl. rewrite Hl in A7. apply Permutation_nil_r in A7. rewrite A7 in A6. by apply Forall2_nil_inv_r in A6. }
    split; cbn [o_chunks o_index o_stats]; try done.
    + rewrite G2. unfold add_all. by rewrite map_app, foldl_app.
    + apply Forall_app. split; [eapply Forall_impl; [exact G3|]; intros e He; by eapply entry_grows|]. apply Forall_singleton. split; [|split; [done|split; [done|split; [done|]]]].
      * destruct (holding t blocks) as [|b bs] eqn:Eh; [done|]. destruct (holding_ids t b ltac:(rewrite Eh; left)) as [Hbf Hin].
        destruct (bf_ids b Hbf) as [_ Hu]. rewrite Forall_forall in Hu. by apply Hu.
      * exists ms0. cbn [fst snd]. split; [by etransitivity|done].
    + apply StronglySorted_app. split; [|split; [done|apply SSorted_cons; [apply SSorted_nil|apply Forall_nil_2]]]. intros a b Ha ->%list_elem_of_singleton. cbn [fst].
      assert (Hx : a.1 ∈ map fst L) by by apply list_elem_of_In, in_map, list_elem_of_In. apply G5 in Hx as [Hx _]. lia.
    + intros t'. rewrite map_app, elem_of_app, G5, Hids. cbn [map fst]. rewrite list_elem_of_singleton. intuition.
    + lia.
    + rewrite length_app. cbn [length]. lia.
    + rewrite bind_app, total_app. cbn [mbind list_bind snd]. rewrite app_nil_r. pose proof (entries_total cs L G3) as Htot. destruct W6 as [_ W6].
      rewrite (count_spec (o_stats o) ms'); [rewrite G8; lia|done|lia|rewrite G8; lia].
Qed.

Lemma rests_ok t : Forall rest_ok (rests t blocks).
Proof.
  apply Forall_forall. intros r Hr. apply list_elem_of_omap in Hr as (b & Hb & Hr). pose proof (bs_fine Hfine) as Hf. rewrite Forall_forall in Hf.
  by apply (rest_of_ok t b r (Hf b Hb)) in Hr as (_ & _ & _ & Hr).
Qed.

Lemma populate_loop_spec (overlapping : bool) (cancelled : nat -> bool) : (forall n, cancelled n = false) -> forall rounds n st m o cs L t0 rs ks,
  progress t0 o cs L -> mcs_err m = false -> Forall rest_ok rs -> all_ready st rs ks (mcs_sets m) -> mcs_id m = positions 0 ks ->
  NoDup (open_ptrs ks (mcs_sets m)) -> adv rs ks = rests t0 blocks -> Z.of_nat (length (mcs_sets m)) < 2 ^ 64 -> (left_after t0 < rounds)%nat ->
  exists o' n' cs' L' t1, populate_loop rounds cancelled n overlapping mint maxt o st m = Some (inr (o', n')) /\ progress t1 o' cs' L' /\ rests t1 blocks = [].
Proof.
  intros Hc. induction rounds as [|rounds IH]; intros n st m o cs L t0 rs ks Hp He Hok Hr Hid Hnd Hadv Hlen Hl; [lia|]. cbn [populate_loop].
  unfold merged_next. rewrite He. destruct (next_helper_spec blocks t0 rs ks st m (bs_fine Hfine) Hok Hr Hid Hnd Hadv Hlen) as (new & m' & Hn).
  case_bool_decide as Hrest.
  - destruct Hn as [-> He']. cbn [negb]. unfold merged_error. rewrite He'. cbn [negb]. exists o, n, cs, L, t0. done.
  - destruct Hn as (-> & He' & Hlen' & t & Hat). cbn [negb]. rewrite Hc.
    destruct (one_series overlapping _ t0 t o cs L m' Hp Hat) as (o' & st' & cs' & L' & -> & Hp' & Hf & _). cbn [mbind option_bind].
    destruct Hat as [A1 A2 A3 A4 A5 A6 A7 A8 A9]. apply NoDup_app in A7 as (_ & A7 & A7'). pose proof (left_less t0 t A2 A4) as Hless.
    apply (IH (S n) st' m' o' cs' L' t (rests t0 blocks) (map (fun r => first_id r =? t) (rests t0 blocks))); try done.
    + by rewrite He'.
    + apply rests_ok.
    + apply (all_ready_frame _ _ _ _ _ A8). intros p Hp2. apply Hf. intros Hp3. by apply (A7 p).
    + apply rests_adv; [apply (bs_fine Hfine)|done|lia].
    + lia.
    + lia.
Qed.

(** *** Opening the blocks *)

Lemma open_blocks_spec (cancelled : nat -> bool) bs : (forall n, cancelled n = false) -> Forall block_fine bs -> forall i overlapping max_time,
  exists ov, open_blocks cancelled i overlapping max_time bs = inr (ov, map (fun b => compaction_set b (ids_of b) true) bs).
Proof.
  intros Hc. induction 1 as [|b bs Hb _ IH]; intros i overlapping max_time; cbn [open_blocks map]; [by exists overlapping|]. rewrite Hc.
  destruct (bf_opens b Hb) as (-> & -> & -> & ->). cbn [negb]. destruct (IH (S i) (overlapping || ((0 <? Z.of_nat i) && (MinTime b <? max_time)))
    (if overlapping then max_time else if max_time <? MaxTime b then MaxTime b else max_time)) as (ov & ->). by exists ov.
Qed.

(** Sets before their first series. *)
Lemma fresh_ready bs : Forall block_fine bs -> let rs := map (fun b => (b, -1 :: ids_of b)) bs in
  all_ready [] rs (replicate (length bs) true) (map (fun b => compaction_set b (ids_of b) true) bs) /\ Forall rest_ok rs /\
  open_ptrs (replicate (length bs) true) (map (fun b => compaction_set b (ids_of b) true) bs) = [] /\
  adv rs (replicate (length bs) true) = rests (-1) bs.
Proof.
  induction 1 as [|b bs Hb Hbs IH]; cbn [map length replicate open_ptrs adv app]; [by repeat split; constructor|]. destruct IH as (I1 & I2 & I3 & I4).
  split; [|split; [|split; [done|]]].
  - constructor; [|done]. split; [done|]. split; [done|]. split; [by exists (-1)|done].
  - apply Forall_cons. split; [|done]. split; [done|]. by intros id Hid.
  - rewrite I4, rests_cons. unfold rest_of. cbn [snd fst tail]. replace (after (-1) b) with (ids_of b); [by destruct (ids_of b)|].
    symmetry. apply filter_id. destruct (bf_ids b Hb) as [_ Hu]. eapply Forall_impl; [exact Hu|]. intros id Hid. unfold is_u in Hid. lia.
Qed.

Lemma left_all : left_after (-1) = length (blocks ≫= ids_of).
Proof.
  unfold left_after. f_equal. pose proof (bs_fine Hfine) as Hf. clear -Hf. induction Hf as [|b bs Hb _ IH]; [done|]. cbn [mbind list_bind]. f_equal; [|exact IH].
  apply filter_id. destruct (bf_ids b Hb) as [_ Hu]. eapply Forall_impl; [exact Hu|]. intros id Hid. unfold is_u in Hid. lia.
Qed.

Lemma start_progress s : num_samples s = 0 -> progress (-1) (mkOutput index_writer (chunk_writer []) s) [] [].
Proof.
  intros Hs. pose proof left_all as Hl. pose proof (bs_few Hfine) as Hf. split; cbn [o_chunks o_index o_stats length]; try done.
  - apply SSorted_nil.
  - intros t. split; [by intros ?%elem_of_nil|]. intros [Ht Hx%live_held]. destruct (holding t blocks) as [|b bs] eqn:E; [done|].
    destruct (holding_ids t b ltac:(rewrite E; left)) as [Hb Hin]. destruct (bf_ids b Hb) as [_ Hu]. rewrite Forall_forall in Hu. specialize (Hu t Hin). unfold is_u in Hu. lia.
  - rewrite Hl. lia.
  - rewrite Hl. lia.
Qed.

Lemma populate_spec (cancelled : nat -> bool) s : (forall n, cancelled n = false) -> blocks <> [] -> num_samples s = 0 ->
  exists o n cs L t1, populate_blocks cancelled blocks mint maxt (mkOutput index_writer (chunk_writer []) s) = Some (inr (o, n)) /\
    progress t1 o cs L /\ rests t1 blocks = [].
Proof.
  intros Hc Hn Hs. pose proof (start_progress s Hs) as Hp. unfold populate_blocks. destruct blocks as [|b0 bs0] eqn:Eb; [done|]. rewrite <- Eb in *.
  destruct (open_blocks_spec cancelled blocks Hc (bs_fine Hfine) 0 false (MaxTime b0)) as (ov & ->). set (css := map _ blocks).
  destruct (fresh_ready blocks (bs_fine Hfine)) as (F1 & F2 & F3 & F4). cbn zeta in F1, F2, F3, F4. fold css in F1, F3.
  assert (Hcl : length css = length blocks) by apply length_map.
  assert (Hrounds : length (css ≫= ccs_p) = left_after (-1)).
  { rewrite left_all. unfold css. clear. induction blocks as [|b bs IH]; [done|]. cbn [map mbind list_bind]. rewrite !length_app. f_equal. exact IH. }
  destruct (advance_spec _ _ _ _ F1 F2 ltac:(rewrite F3; constructor)) as (new & css' & E & Hr & Hnd & _). rewrite F4 in Hr. cbn [app] in E, Hr.
  unfold merged_set. rewrite sets_next_advance, Hcl, E, Hrounds. case_bool_decide as Hcs.
  - subst css'. inversion Hr as [Hrest|]; subst. eexists _, _, [], [], (-1). split; [|split; [exact Hp|done]]. done.
  - assert (Ero : rests (-1) blocks = adv (rests (-1) blocks) (replicate (length css') false)).
    { clear -Hr. remember (replicate (length css') false) as ks. assert (Hks : Forall (fun k => k = false) ks) by (subst; by apply Forall_replicate). clear Heqks.
      induction Hr as [|r k s rs ks css Hrs _ IH]; [done|]. apply Forall_cons in Hks as [-> Hks]. cbn [adv]. by rewrite <- IH. }
    apply (populate_loop_spec ov cancelled Hc _ (length blocks) new _ _ [] [] (-1) (rests (-1) blocks) (replicate (length css') false)); cbn [mcs_sets mcs_id mcs_err]; try done.
    + apply rests_ok.
    + symmetry. apply positions_none. by apply Forall_replicate.
    + replace (open_ptrs (replicate (length css') false) css') with (ptrs css'); [done|]. clear. induction css' as [|s css' IH]; [done|].
      cbn [length replicate open_ptrs ptrs mbind list_bind]. by rewrite <- IH.
    + pose proof (bs_count Hfine). pose proof (advance_length _ _ _ _ _ E). lia.
    + lia.
Qed.

(** *** Chunks that are deleted as a whole *)

Lemma uncovered_covered itvls l acc : Forall (fun s : Z * Z => covers itvls s.1) l -> uncovered itvls (sample_map l ∪ acc) = uncovered itvls acc.
Proof.
  intros Hl. apply map_eq. intros t. rewrite !uncovered_lookup. destruct (decide (covers itvls t)) as [Hc|Hc]; [done|]. apply lookup_union_r.
  apply not_elem_of_list_to_map_1. rewrite list_elem_of_fmap. intros (x & -> & Hx). rewrite Forall_forall in Hl. by specialize (Hl x Hx).
Qed.

Lemma uncovered_foldl itvls ms : forall a b, uncovered itvls a = uncovered itvls b -> uncovered itvls (foldl add_samples a ms) = uncovered itvls (foldl add_samples b ms).
Proof.
  induction ms as [|m ms IH]; intros a b E; [done|]. cbn [foldl]. apply IH. unfold add_samples. by rewrite !uncovered_union, E.
Qed.

Definition all_covered (itvls : Intervals) (m : ChunkMeta) : Prop := Forall (fun s => covers itvls s.1) (chunk_reads (cm_chunk m)).

Lemma insert_covered itvls m ms : all_covered itvls m -> StronglySorted by_start ms ->
  exists ms', ms' ≡ₚ m :: ms /\ StronglySorted by_start ms' /\ uncovered itvls (contents ms') = uncovered itvls (contents ms).
Proof.
  intros Hm Hs. assert (Hins : exists a b, ms = a ++ b /\ StronglySorted by_start (a ++ m :: b)).
  { induction Hs as [|x ms Hs IH Hx]; [exists [], []; split; [done|]; apply SSorted_cons; [apply SSorted_nil|constructor]|].
    destruct (Z.le_gt_cases (cm_min_time m) (cm_min_time x)) as [Hle|Hgt].
    - exists [], (x :: ms). split; [done|]. apply SSorted_cons; [by apply SSorted_cons|]. apply Forall_cons. split; [done|].
      eapply Forall_impl; [exact Hx|]. intros y Hy. unfold by_start in *. lia.
    - destruct IH as (a & b & -> & Hab). exists (x :: a), b. split; [done|]. apply SSorted_cons; [done|]. apply Forall_app in Hx as [Ha Hb].
      apply Forall_app. split; [done|]. apply Forall_cons. split; [unfold by_start; lia|done]. }
  destruct Hins as (a & b & -> & Hab). exists (a ++ m :: b). split; [by rewrite Permutation_middle|]. split; [done|]. unfold contents.
  rewrite !foldl_app. cbn [foldl]. apply uncovered_foldl. unfold add_samples at 1. by apply uncovered_covered.
Qed.

Lemma insert_all_covered itvls dead ms : Forall (all_covered itvls) dead -> StronglySorted by_start ms ->
  exists ms', ms' ≡ₚ dead ++ ms /\ StronglySorted by_start ms' /\ uncovered itvls (contents ms') = uncovered itvls (contents ms).
Proof.
  induction 1 as [|m dead Hm _ IH]; intros Hs; [by exists ms|]. destruct (IH Hs) as (ms1 & P1 & S1 & E1).
  destruct (insert_covered itvls m ms1 Hm S1) as (ms2 & P2 & S2 & E2). exists ms2. split; [by rewrite P2, P1|]. split; [done|]. by rewrite E2.
Qed.

Lemma bind_split {A C} (f g h : A -> list C) l : (forall x, x ∈ l -> f x ≡ₚ g x ++ h x) -> l ≫= f ≡ₚ (l ≫= g) ++ (l ≫= h).
Proof.
  induction l as [|x l IH]; intros Hf; [done|]. cbn [mbind list_bind]. rewrite (Hf x ltac:(left)), IH by (intros y Hy; apply Hf; by right).
  solve_Permutation.
Qed.

Lemma dead_covered b t : b ∈ holding t blocks -> Forall (all_covered (series_itvls t)) (filter (fun m => ~ meta_live (itvls_of b t) m) (metas_of b t)).
Proof.
  intros Hb. destruct (holding_ids t b Hb) as [Hbf Hin]. apply Forall_forall. intros m [Hd Hm]%list_elem_of_filter.
  destruct (bf_series b Hbf t Hin) as (lset & refs & ms & E1 & E2 & Hg). unfold metas_of, refs_of in Hm. rewrite E1, E2 in Hm. cbn [default] in Hm.
  rewrite Forall_forall in Hg. destruct (Hg m Hm) as ((_ & _ & _ & Hr) & _). unfold meta_live in Hd. apply not_false_is_true in Hd.
  apply existsb_exists in Hd as (i & Hi & [H1%in_bounds_spec H2%in_bounds_spec]%andb_true_iff). eapply Forall_impl; [exact Hr|]. intros s Hs. cbn beta in Hs.
  exists i. split; [|lia]. apply list_elem_of_bind. exists b. split; [by apply list_elem_of_In|done].
Qed.

(** The order in which all chunks of a series take effect. *)
Lemma with_dead t ms : ms ≡ₚ series_live t -> StronglySorted by_start ms ->
  exists ms', ms' ≡ₚ series_metas t /\ StronglySorted by_start ms' /\ uncovered (series_itvls t) (contents ms') = uncovered (series_itvls t) (contents ms).
Proof.
  intros Hp Hs. set (dead := holding t blocks ≫= fun b => filter (fun m => ~ meta_live (itvls_of b t) m) (metas_of b t)).
  assert (Hd : Forall (all_covered (series_itvls t)) dead).
  { apply Forall_forall. intros m Hm. apply list_elem_of_bind in Hm as (b & Hm & Hb). pose proof (dead_covered b t Hb) as H. rewrite Forall_forall in H. by apply H. }
  assert (Hsp : series_metas t ≡ₚ series_live t ++ dead).
  { apply bind_split. intros b Hb. destruct (holding_ids t b Hb) as [Hbf Hin]. destruct (live_filter b t Hbf Hin) as (-> & _).
    symmetry. apply filter_app_complement. }
  destruct (insert_all_covered _ dead ms Hd Hs) as (ms' & P & S & E). exists ms'. split; [|done]. rewrite P, Hsp, Hp. by rewrite (comm (++)).
Qed.

(** Where the deletion does what it is meant to, what is left of a series are the
    samples of all its chunks that no interval covers. *)
Lemma survived_uncovered t ms : ms ≡ₚ series_live t -> StronglySorted by_start ms -> itvls_fine (series_itvls t) (series_metas t) ->
  exists ms0, ms0 ≡ₚ series_metas t /\ StronglySorted by_start ms0 /\ survived (series_itvls t) ms = uncovered (series_itvls t) (contents ms0).
Proof.
  intros Hp Hs Hi. destruct (with_dead t ms Hp Hs) as (ms0 & P & S & E). exists ms0. split; [done|]. split; [done|]. rewrite E. apply survived_fine.
  - destruct Hi as [->|[Hi Ht]]; [by left|right]. split; [done|]. by apply (live_forall t).
  - rewrite Hp. eapply Forall_impl; [apply live_good|]. by intros m [? _].
Qed.

End NewBlock.

(** ** Reading the new block *)

Section ReadBack.
Context `{PE : PastEnd} `{CR : Crc} `{SO : Sort} `{SL : !SortLaws SO} `{UL : Ulid} {B : Type} `{BI : BlockInterface B}.

(** The samples the chunks of a series give, a later chunk over an earlier one. *)
Fixpoint read_samples (cr : ChunkReader) (acc : gmap Z Z) (refs : list ChunkRef) : option (gmap Z Z) :=
  match refs with
  | [] => Some acc
  | r :: refs =>
    match read_chunk cr (cr_ref r) with
    | Some (Some c) => read_samples cr (sample_map (chunk_reads c) ∪ acc) refs
    | _ => None
    end
  end.

(** What a reader of the block finds for a series: nothing, or its samples. *)
Definition block_samples (bf : BlockFiles) (id : Z) : option (gmap Z Z) :=
  '(_, refs) ← ir_series (index_reader (bf_index bf)) id;
  read_samples (chunk_reader (bf_chunks bf)) ∅ refs.

Lemma read_entry w cs ms : cw_inv w cs -> Forall (fun m => placed cs (cm_ref m) (cm_chunk m)) ms -> Forall good_meta ms -> forall acc,
  read_samples (chunk_reader (cw_dir w)) acc (map ref_of ms) = Some (foldl add_samples acc ms).
Proof.
  intros Hw Hp Hg. destruct (reader_opens w cs Hw) as (size & ->). induction Hp as [|m ms Hm _ IH]; intros acc; [done|].
  apply Forall_cons in Hg as [(_ & ((Hs & Hr & _) & _) & _) Hg]. cbn [map read_samples ref_of cr_ref].
  rewrite (read_placed (mkCRd cs false size) cs (cm_ref m) (cm_chunk m) eq_refl (ci_few _ _ Hw) (ci_short _ _ Hw) Hm Hs). rewrite IH by done. cbn [foldl]. f_equal. f_equal.
  unfold add_samples. by rewrite Hr.
Qed.

Lemma varint_u64_length v : is_u64 v -> (length (encode_unsigned_varint v) <= 10)%nat.
Proof. intros Hv. rewrite encode_unsigned_varint_varint by done. by apply length_varint. Qed.

Lemma svarint_length v : (length (encode_signed_varint v) <= 10)%nat.
Proof. apply varint_u64_length, zigzag_u64. Qed.

Lemma later_recs_length cs : forall t r, (length (later_recs t r cs) <= 30 * length cs)%nat.
Proof.
  induction cs as [|c cs IH]; intros t r; [done|]. cbn [later_recs length]. unfold later_rec. rewrite !length_app.
  pose proof (varint_u64_length (u64 (cr_min c - t)) ltac:(apply wrap_range; lia)). pose proof (varint_u64_length (u64 (cr_max c - cr_min c)) ltac:(apply wrap_range; lia)).
  pose proof (svarint_length (s64 (cr_ref c - r))). specialize (IH (cr_max c) (cr_ref c)). lia.
Qed.

Lemma body_short cs : Forall ref_ok cs -> Z.of_nat (length cs) <= 10 ^ 6 -> Z.of_nat (length (body cs)) < 2 ^ 31.
Proof.
  intros Hr Hl. unfold body. rewrite length_app. pose proof (varint_u64_length (Z.of_nat (length cs)) ltac:(unfold is_u; lia)).
  destruct cs as [|c cs]; [simpl in *; lia|]. apply Forall_cons in Hr as [(Hc & _) _]. cbn [chunks_rec]. rewrite !length_app.
  pose proof (svarint_length (cr_min c)). pose proof (varint_u64_length (u64 (cr_max c - cr_min c)) ltac:(apply wrap_range; lia)).
  pose proof (varint_u64_length (cr_ref c) Hc). pose proof (later_recs_length cs (cr_max c) (cr_ref c)). simpl length in *. lia.
Qed.

Lemma entry_fits blocks w cs e : cw_inv w cs -> entry_ok blocks cs e -> series_fit (e.1, map ref_of e.2).
Proof.
  intros Hw (H1 & H2 & H3 & [H4 _] & _). cbn [fst snd]. assert (Hr : Forall ref_ok (map ref_of e.2)).
  { clear -H2 H3 Hw. induction H2 as [|m ms Hm _ IH]; [constructor|]. apply Forall_cons in H3 as [(_ & _ & Ha & Hb) H3]. cbn [map]. constructor; [|by apply IH].
    split; [by eapply placed_u64|done]. }
  split; [done|]. split; [done|]. cbn [snd]. apply body_short; [done|]. by rewrite length_map.
Qed.

(** The samples of a series after all series are written. *)
Lemma series_written blocks mint maxt o cs L t1 : blocks_fine blocks mint maxt -> progress blocks t1 o cs L -> rests t1 blocks = [] -> forall t,
  exists ms, ms ≡ₚ series_live blocks t /\ StronglySorted by_start ms /\
    ((exists e, e ∈ L /\ e.1 = t /\ contents e.2 = survived (series_itvls blocks t) ms) \/
     ((t ∉ map fst L) /\ survived (series_itvls blocks t) ms = ∅)).
Proof.
  intros Hf [G1 G2 G3 G4 G5 G6 G7 G8] Hrest t. assert (Hall : series_live blocks t <> [] -> t <= t1).
  { intros Hl%live_held. destruct (Z.le_gt_cases t t1) as [?|Hgt]; [done|]. exfalso. destruct (holding t blocks) as [|b bs] eqn:E; [done|].
    assert (Hb : b ∈ holding t blocks) by (rewrite E; left). pose proof (holding_ids blocks mint maxt Hf t b Hb) as [_ Hin].
    apply list_elem_of_filter in Hb as [_ Hb]. assert (Hx : t ∈ after t1 b) by (apply list_elem_of_filter; split; [lia|done]).
    destruct (after t1 b) as [|x l] eqn:Ea; [by apply elem_of_nil in Hx|]. assert (Hr : (b, x :: l) ∈ rests t1 blocks); [|rewrite Hrest in Hr; by apply elem_of_nil in Hr].
    apply list_elem_of_omap. exists b. split; [done|]. unfold rest_of. by rewrite Ea. }
  destruct (decide (series_live blocks t = [])) as [El|El].
  - exists []. rewrite El. split; [done|]. split; [apply SSorted_nil|]. right. split; [intros [_ H]%G5; done|done].
  - assert (Hin : t ∈ map fst L) by (apply G5; split; [by apply Hall|done]). apply list_elem_of_In, in_map_iff in Hin as (e & Ee & He).
    apply list_elem_of_In in He. rewrite Forall_forall in G3. destruct (G3 e He) as (_ & _ & _ & _ & ms0 & P0 & S0 & E0). rewrite Ee in *.
    exists ms0. split; [done|]. split; [done|]. left. by exists e.
Qed.

Lemma total_zero ms : total_samples ms = 0%nat -> contents ms = ∅.
Proof.
  unfold contents. enough (H : forall acc, total_samples ms = 0%nat -> foldl add_samples acc ms = acc) by apply H. induction ms as [|m ms IH]; intros acc Ht; [done|].
  rewrite total_cons in Ht. cbn [foldl]. rewrite IH by lia. unfold add_samples. destruct (chunk_reads (cm_chunk m)) as [|s l]; [|simpl in Ht; lia].
  change (sample_map []) with (∅ : gmap Z Z). apply (left_id_L ∅ (∪)).
Qed.

Lemma entry_total (L : list (Z * list ChunkMeta)) e : e ∈ L -> (total_samples e.2 <= total_samples (L ≫= snd))%nat.
Proof.
  induction L as [|x L IH]; [by intros ?%elem_of_nil|]. cbn [mbind list_bind]. rewrite total_app. intros [->|He]%elem_of_cons; [lia|]. specialize (IH He). lia.
Qed.

Lemma entries_sorted (L : list (Z * list ChunkMeta)) : StronglySorted (fun a b => a.1 < b.1) L -> StronglySorted (fun a b => a.1 < b.1) (entries L).
Proof.
  induction 1 as [|e L _ IH Hl]; [apply SSorted_nil|]. cbn [map]. apply SSorted_cons; [done|]. clear IH. induction Hl as [|x L Hx _ IH]; [constructor|].
  cbn [map]. constructor; [exact Hx|exact IH].
Qed.

(** C7.  A compacted block holds the samples of its blocks.  When blocks that can
    be read, with not too many series, chunks and samples ([blocks_fine]), are
    written into one, nothing fails; a reader opens the index and the
    chunks of the new block without an error, and finds for every series exactly
    what the deletion leaves of its chunks in all blocks, a later chunk over an
    earlier one; no block is written only when no sample is left.  What is left
    of a chunk that is not inside one deleted interval of its block is what
    [survivors] says.  Where the deleted intervals of all blocks together are in
    order and apart, and all times of the series fit an [int], to which the
    deletion narrows them (DeleteIterator.cpp:19), these are the samples of all
    chunks that no interval covers; where the intervals begin at or after [2^31],
    as with milliseconds of today, they are all samples of these chunks. *)
Theorem compacted_block_exact (cancelled : nat -> bool) (bm : BlockMeta) (blocks : list B) :
  (forall b, is_u 32 (crc32 b)) -> (forall n, cancelled n = false) -> blocks <> [] -> num_samples (stats bm) = 0 -> blocks_fine blocks (bm_min_time bm) (bm_max_time bm) ->
  (exists r, write_helper cancelled bm blocks = Some (inr r) /\
    match r with
    | None => forall id, exists ms, ms ≡ₚ series_live blocks id /\ StronglySorted by_start ms /\ survived (series_itvls blocks id) ms = ∅
    | Some bf => mm_len (bf_index bf) < 2 ^ 31 ->
        ir_err (index_reader (bf_index bf)) = false /\ rd_err (chunk_reader (bf_chunks bf)) = false /\
        forall id, exists ms, ms ≡ₚ series_live blocks id /\ StronglySorted by_start ms /\
          block_samples bf id = Some (survived (series_itvls blocks id) ms)
    end) /\
  (forall id ms, ms ≡ₚ series_live blocks id -> StronglySorted by_start ms -> itvls_fine (series_itvls blocks id) (series_metas blocks id) ->
    exists ms0, ms0 ≡ₚ series_metas blocks id /\ StronglySorted by_start ms0 /\
      survived (series_itvls blocks id) ms = uncovered (series_itvls blocks id) (contents ms0)) /\
  (forall id ms, itvls_recent (series_itvls blocks id) -> survived (series_itvls blocks id) ms = contents ms).
Proof.
  intros Hcrc Hc Hn Hs Hf. split; [|split; [intros id ms; by eapply survived_uncovered|intros id ms; apply survived_recent]].
  destruct (populate_spec blocks _ _ Hf cancelled (stats bm) Hc Hn Hs) as (o & n & cs & L & t1 & E & Hp & Hrest).
  unfold write_helper. rewrite E. cbn [mbind option_bind]. rewrite Hc. pose proof (series_written _ _ _ _ _ _ _ Hf Hp Hrest) as Hw.
  destruct Hp as [G1 G2 G3 G4 G5 G6 G7 G8]. destruct (Z.eqb_spec (num_samples (o_stats o)) 0) as [Ez|Ez]; eexists; (split; [done|]).
  - intros id. destruct (Hw id) as (ms & P & S & [(e & He & _ & Ec)|[_ Ec]]); exists ms; (split; [done|]); (split; [done|]); [|done]. rewrite <- Ec. apply total_zero.
    rewrite G8 in Ez. pose proof (entry_total L e He). lia.
  - cbn [bf_index bf_chunks]. intros Hlen. rewrite G2 in *.
    assert (Hfit : Forall series_fit (entries L)) by (apply Forall_map; eapply Forall_impl; [exact G3|]; intros e He; by eapply entry_fits).
    destruct (index_file_read Hcrc (entries L)) as (r & Er & H1 & _ & H2 & H3); [by apply entries_sorted|done|done|]. rewrite Er.
    destruct (reader_opens _ _ G1) as (size & Erd). split; [done|]. split; [by rewrite Erd|]. intros id.
    destruct (Hw id) as (ms & P & S & Hms). exists ms. split; [done|]. split; [done|]. unfold block_samples. cbn [bf_index bf_chunks]. rewrite Er.
    destruct Hms as [(e & He & Ee & Ec)|[Hid Ec]].
    + rewrite (H2 id (map ref_of e.2)) by (rewrite <- Ee; apply list_elem_of_In, in_map_iff; exists e; split; [done|by apply list_elem_of_In]). cbn [mbind option_bind].
      rewrite Forall_forall in G3. destruct (G3 e He) as (_ & Hpl & Hg & _). rewrite (read_entry _ _ _ G1 Hpl Hg). by rewrite <- Ec.
    + rewrite (H3 id) by (by rewrite map_map). cbn [mbind option_bind read_samples]. by rewrite Ec.
Qed.

End ReadBack.

(** ** Blocks on disk *)

(** A block with the readers of its files, which a block that is closing does not
    hand out.  The index reader overrides only the [series] without labels and
    inherits the others from IndexReaderInterface: they find nothing. *)
Record DiskBlock := mkDiskBlock {
  disk_min : Z;
  disk_max : Z;
  disk_closing : bool;
  disk_index : IndexFile.IndexReader;
  disk_chunks : ChunkReader;
  disk_tombstones : gmap Z Intervals }.

#[export] Instance DiskBlock_interface `{PE : PastEnd} `{CR : Crc} : BlockInterface DiskBlock := {
  MinTime := disk_min;
  MaxTime := disk_max;
  index_opens b := negb (disk_closing b);
  chunks_open b := negb (disk_closing b);
  tombstones_open b := negb (disk_closing b);
  all_postings _ := None;
  series_lset _ _ := None;
  series_chunks b id := match ir_series (disk_index b) id with Some (true, refs) => Some refs | _ => None end;
  block_chunk b ref := match read_chunk (disk_chunks b) ref with Some (Some c) => Some c | _ => None end;
  deleted b id := disk_tombstones b !! id }.

(** Blocks on disk cannot be compacted: as the reader of an index file has
    no postings, filling a new block from blocks on disk ends with an error,
    whatever they hold. *)
Lemma disk_blocks_not_compacted `{PE : PastEnd} `{CR : Crc} `{SO : Sort} `{UL : Ulid} (cancelled : nat -> bool) (bm : BlockMeta) (b : DiskBlock) (blocks : list DiskBlock) :
  exists e, write_helper cancelled bm (b :: blocks) = Some (inl e) /\
    (cancelled 0%nat = false -> disk_closing b = false -> e = PostingsFail).
Proof.
  unfold write_helper, populate_blocks. cbn [open_blocks index_opens chunks_open tombstones_open all_postings DiskBlock_interface].
  destruct (cancelled 0%nat); [by exists Cancel|]. destruct (disk_closing b); [by exists IndexFails|by exists PostingsFail].
Qed.

(** ** Examples *)

Module CompactionDemo.
#[local] Instance demo_past : PastEnd := fun _ => 0.
#[local] Instance demo_crc : Crc := fun b => u32 (foldl (fun h x => 31 * h + x + 1) 7 b).
#[local] Existing Instances PlanDemo.demo_sort PlanDemo.demo_sort_laws PlanDemo.demo_ulid.

(** A block in memory, some of whose chunks may be missing. *)
Record DemoBlock := mkDemo { d_min : Z; d_max : Z; d_series : list (Z * list ChunkMeta); d_deleted : list (Z * Intervals); d_missing : list Z }.

Definition assoc {A} (l : list (Z * A)) (id : Z) : option A := snd <$> find (fun e => e.1 =? id) l.

#[local] Instance demo_interface : BlockInterface DemoBlock := {
  MinTime := d_min;
  MaxTime := d_max;
  index_opens _ := true;
  chunks_open _ := true;
  tombstones_open _ := true;
  all_postings b := Some (map fst (d_series b));
  series_lset b id := ms ← assoc (d_series b) id; Some ([], map ref_of ms);
  series_chunks b id := map ref_of <$> assoc (d_series b) id;
  block_chunk b ref := if existsb (Z.eqb ref) (d_missing b) then None else cm_chunk <$> find (fun m => cm_ref m =? ref) (d_series b ≫= snd);
  deleted b id := assoc (d_deleted b) id }.

Definition demo_meta (ref : Z) (l : list (Z * Z)) (mn mx : Z) : ChunkMeta := mkChunkMeta ref (chunk_of l) mn mx.

(** Two blocks that overlap; series 3 is in both, 5 is deleted in part. *)
Definition block1 : DemoBlock :=
  mkDemo 0 100 [(3, [demo_meta 1 [(10, 7); (20, 8)] 10 20; demo_meta 2 [(60, 9)] 60 60]); (5, [demo_meta 3 [(30, 1); (40, 2); (50, 3)] 30 50])]
    [(5, [mkInterval 35 45])] [].
Definition block2 : DemoBlock := mkDemo 15 200 [(3, [demo_meta 1 [(20, 100); (25, 4)] 20 25])] [] [].

Example demo_written :
  match write_helper (fun _ => false) (write_meta_of (7 : @ULID PlanDemo.demo_ulid) 0 200 None) [block1; block2] with
  | Some (inr (Some bf)) => (num_samples (stats (bf_meta bf)), num_chunks (stats (bf_meta bf)), block_samples bf 3, block_samples bf 5, block_samples bf 4)
  | _ => (0, 0, None, None, None)
  end = (6, 3, Some (list_to_map [(10, 7); (20, 100); (25, 4); (60, 9)]), Some (list_to_map [(30, 1); (50, 3)]), Some ∅).
Proof. vm_compute. reflexivity. Qed.

(** A block with a chunk that cannot be read is left out from there on, without
    an error: of the first block nothing is written. *)
Example missing_chunk_drops_block :
  match write_helper (fun _ => false) (write_meta_of (7 : @ULID PlanDemo.demo_ulid) 0 200 None) [mkDemo 0 100 (d_series block1) [] [2]; block2] with
  | Some (inr (Some bf)) => (block_samples bf 3, block_samples bf 5)
  | _ => (None, None)
  end = (Some (list_to_map [(20, 100); (25, 4)]), Some ∅).
Proof. vm_compute. reflexivity. Qed.

Lemma demo_good ref l mn mx : Forall sample_ok l -> Z.of_nat (length l) <= 65535 -> ascending l -> Forall (fun s => mn <= s.1 <= mx) l -> is_s64 mn -> is_s64 mx ->
  good_meta (demo_meta ref l mn mx).
Proof.
  intros H1 H2 H3 H4 H5 H6. split; [by apply meta_of_ok|]. split; [|done]. cbn [demo_meta cm_chunk]. unfold chunk_of.
  destruct (append_batch_made l H1 H2) as (c & -> & Hm). by apply (made_portable c l).
Qed.

Ltac forall_cases := repeat (apply Forall_cons; split); [..|apply Forall_nil_2].
Ltac small := vm_compute; repeat split; congruence.
Ltac sorted := repeat (apply SSorted_cons; [|forall_cases; small]); apply SSorted_nil.

Lemma demo_good_all : Forall good_meta (d_series block1 ≫= snd) /\ Forall good_meta (d_series block2 ≫= snd).
Proof.
  split; cbn [block1 block2 d_series mbind list_bind snd app]; forall_cases;
    (apply demo_good; [forall_cases; small|small|sorted|forall_cases; small|small|small]).
Qed.

Lemma demo_fine_block b : b = block1 \/ b = block2 -> block_fine b.
Proof.
  intros Hb. assert (Hids : ids_of b = [3; 5] \/ ids_of b = [3]) by (destruct Hb as [->| ->]; [left|right]; reflexivity).
  split; [done| |].
  - destruct Hids as [-> | ->]; (split; [sorted|forall_cases; small]).
  - destruct demo_good_all as [G1 G2]. intros id Hid. destruct Hb as [->| ->].
    + cbn [block1 d_series mbind list_bind snd app] in G1. apply (Forall_app _ [_; _] [_]) in G1 as [G1 G1'].
      change (ids_of block1) with [3; 5] in Hid. apply elem_of_cons in Hid as [->|[->|[]%elem_of_nil]%elem_of_cons].
      * eexists _, _, _. split; [reflexivity|]. split; [reflexivity|]. exact G1.
      * eexists _, _, _. split; [reflexivity|]. split; [reflexivity|]. exact G1'.
    + change (ids_of block2) with [3] in Hid. apply list_elem_of_singleton in Hid as ->.
      eexists _, _, _. split; [reflexivity|]. split; [reflexivity|]. exact G2.
Qed.

Lemma demo_held t : holding t [block1; block2] <> [] -> t = 3 \/ t = 5.
Proof.
  intros H. destruct (decide (t = 3)); [by left|]. destruct (decide (t = 5)); [by right|]. exfalso. apply H. unfold holding.
  rewrite !filter_cons_False; [done| |]; [change (ids_of block2) with [3]|change (ids_of block1) with [3; 5]]; rewrite ?elem_of_cons, ?elem_of_nil; tauto.
Qed.

Lemma demo_fine : blocks_fine [block1; block2] 0 200.
Proof.
  split; [forall_cases; apply demo_fine_block; tauto|done|done|]. intros t [->| ->]%demo_held.
  - change (series_metas [block1; block2] 3) with
      [demo_meta 1 [(10, 7); (20, 8)] 10 20; demo_meta 2 [(60, 9)] 60 60; demo_meta 1 [(20, 100); (25, 4)] 20 25].
    split; [small|]. forall_cases; small.
  - change (series_metas [block1; block2] 5) with [demo_meta 3 [(30, 1); (40, 2); (50, 3)] 30 50].
    split; [small|]. forall_cases; small.
Qed.

Lemma demo_itvls_fine : itvls_fine (series_itvls [block1; block2] 5) (series_metas [block1; block2] 5).
Proof.
  change (series_metas [block1; block2] 5) with [demo_meta 3 [(30, 1); (40, 2); (50, 3)] 30 50].
  change (series_itvls [block1; block2] 5) with [mkInterval 35 45]. right.
  split; [split; [apply SSorted_cons; [apply SSorted_nil|constructor]|forall_cases; small]|]. apply Forall_singleton.
  unfold short_times, demo_meta, cm_chunk. rewrite (proj1 (chunk_of_reads [(30, 1); (40, 2); (50, 3)] ltac:(forall_cases; small) ltac:(small))). forall_cases; small.
Qed.

(** The series 5, of which 35 to 45 is deleted in one block. *)
Lemma compacted_block_exact_witness :
  exists bf, write_helper (fun _ => false) (write_meta_of (7 : @ULID PlanDemo.demo_ulid) 0 200 None) [block1; block2] = Some (inr (Some bf)) /\
    ir_err (index_reader (bf_index bf)) = false /\
    exists ms, ms ≡ₚ series_metas [block1; block2] 5 /\ block_samples bf 5 = Some (uncovered (series_itvls [block1; block2] 5) (contents ms)).
Proof.
  destruct (compacted_block_exact (fun _ => false) (write_meta_of (7 : @ULID PlanDemo.demo_ulid) 0 200 None) [block1; block2]) as ((r & E & H) & Hu & _).
  - intros b. apply wrap_range. lia.
  - reflexivity.
  - discriminate.
  - reflexivity.
  - exact demo_fine.
  - assert (Hr : match write_helper (fun _ => false) (write_meta_of (7 : @ULID PlanDemo.demo_ulid) 0 200 None) [block1; block2] with
      | Some (inr (Some bf)) => mm_len (bf_index bf) <? 2 ^ 31 | _ => false end = true) by (vm_compute; reflexivity).
    rewrite E in Hr. destruct r as [bf|]; [|discriminate Hr]. exists bf. split; [exact E|].
    destruct (H (proj1 (Z.ltb_lt _ _) Hr)) as (H1 & _ & H2). split; [exact H1|]. destruct (H2 5) as (ms & P & S & Eb).
    destruct (Hu 5 ms P S demo_itvls_fine) as (ms0 & P0 & _ & E0). exists ms0. split; [exact P0|]. rewrite Eb, E0. reflexivity.
Defined.

End CompactionDemo.
