(* ===== verification/BlockQuery.v ===== *)
(** querier: queries on blocks.  A [ChunkSeriesIterator] reads the chunks of one
    series, a [ChainSeriesIterator] the same series of several blocks one after
    the other; [BaseChunkSeriesSet], [PopulatedChunkSeriesSet] and
    [BlockSeriesSet] yield the series of one block, [MergedIDSeriesSet] those of
    several; [querier_select] is [Querier::select] over the [BlockQuerier]s.

    A block is read through [BlockInterface] (Compaction).  A series set owns one
    [ChunkSeriesMeta], which every call of [next] fills anew and the series it
    handed out point to: a series here is what a caller reads before the set
    moves on.  [None] is a read through a null pointer or past the end of a
    deque. *)
From Stdlib Require Import ZArith Lia Bool Sorting.Sorted.
From stdpp Require Import base list numbers option gmap sorting.
From S2P Require Import Prelude Endian BitStream XORChunk Label Record Tombstone ChunkOps Postings Matchers SeriesIterators IndexFile Compaction.

(** ** The samples of one chunk *)

Section ChunkSeries.
Context `{PE : PastEnd}.

(** [cur]: the iterator of a chunk, inside a [DeleteIterator] where intervals
    are deleted. *)
Abbreviation Cur := (XORIterator + DeleteIterator XORIterator)%type.

Definition cur_of (itvls : Intervals) (m : ChunkMeta) : Cur :=
  match itvls with [] => inl (chunk_iterator (cm_chunk m)) | _ => inr (mkDeleteIterator (chunk_iterator (cm_chunk m)) itvls) end.

(** One round per sample, and the one that finds none. *)
Definition cur_rounds (c : Cur) : nat := S (Z.to_nat (num_total (match c with inl it => it | inr d => dl_it d end))).

Definition cur_next (c : Cur) : option (bool * Cur) :=
  match c with
  | inl it => let '(ok, it) := ci_next it in Some (ok, inl it)
  | inr d => '(ok, d) ← del_next (cur_rounds c) d; Some (ok, inr d)
  end.

Definition cur_at (c : Cur) : Z * Z := match c with inl it => ci_at it | inr d => del_at d end.
Definition cur_error (c : Cur) : bool := match c with inl it => ci_error it | inr d => del_error d end.

(** [while (cur->next()) if (cur->at().first >= t) return true;] *)
Fixpoint cur_seek (rounds : nat) (t : Z) (c : Cur) : option (bool * Cur) :=
  match rounds with
  | O => None
  | S rounds =>
    '(ok, c) ← cur_next c;
    if (ok : bool) then if t <=? (cur_at c).1 then Some (true, c) else cur_seek rounds t c
    else Some (false, c)
  end.

(** ** The samples of one series *)

Record ChunkSeriesIterator := mkCSI {
  cs_chunks : list ChunkMeta;
  cs_i : nat;
  cs_cur : option Cur;
  cs_min : Z;
  cs_max : Z;
  cs_itvls : Intervals;
  cs_err : bool }.

Definition chunk_series_iterator (chunks : list ChunkMeta) (itvls : Intervals) (min_time max_time : Z) : ChunkSeriesIterator :=
  mkCSI chunks 0 (cur_of itvls <$> head chunks) min_time max_time itvls (bool_decide (chunks = [])).

Definition cs_put (s : ChunkSeriesIterator) (i : nat) (c : option Cur) : ChunkSeriesIterator :=
  mkCSI (cs_chunks s) i c (cs_min s) (cs_max s) (cs_itvls s) (cs_err s).

(** [while (t > chunks[i]->max_time)], over the chunks from [i] on: whether one
    was found, and where [i] is then. *)
Fixpoint skip_chunks (t : Z) (i : nat) (rest : list ChunkMeta) : option (bool * nat) :=
  match rest with
  | [] => None
  | m :: rest =>
    if cm_max_time m <? t then match rest with [] => Some (false, i) | _ => skip_chunks t (S i) rest end
    else Some (true, i)
  end.

Definition cs_seek (t : Z) (s : ChunkSeriesIterator) : option (bool * ChunkSeriesIterator) :=
  if cs_err s then Some (false, s)
  else if cs_max s <? t then Some (false, s)
  else
    let t := if t <? cs_min s then cs_min s else t in
    '(found, i) ← skip_chunks t (cs_i s) (drop (cs_i s) (cs_chunks s));
    if negb found then Some (false, cs_put s i (cs_cur s))
    else
      cur ← (if (i =? cs_i s)%nat then cs_cur s else m ← cs_chunks s !! i; Some (cur_of (cs_itvls s) m));
      '(ok, cur) ← cur_seek (cur_rounds cur) t cur;
      Some (ok, cs_put s i (Some cur)).

(** [next], which calls itself once per chunk at most. *)
Fixpoint cs_next_from (rounds : nat) (s : ChunkSeriesIterator) : option (bool * ChunkSeriesIterator) :=
  match rounds with
  | O => None
  | S rounds =>
    cur ← cs_cur s;
    '(ok, cur) ← cur_next cur;
    let s := cs_put s (cs_i s) (Some cur) in
    if (ok : bool) then
      if (cur_at cur).1 <? cs_min s then
        '(ok, s) ← cs_seek (cs_min s) s;
        if (ok : bool) then cur ← cs_cur s; Some ((cur_at cur).1 <=? cs_max s, s) else Some (false, s)
      else Some (negb (cs_max s <? (cur_at cur).1), s)
    else if cur_error cur then Some (false, mkCSI (cs_chunks s) (cs_i s) (Some cur) (cs_min s) (cs_max s) (cs_itvls s) true)
    else if (S (cs_i s) =? length (cs_chunks s))%nat then Some (false, s)
    else m ← cs_chunks s !! S (cs_i s); cs_next_from rounds (cs_put s (S (cs_i s)) (Some (cur_of (cs_itvls s) m)))
  end.

Definition cs_next (s : ChunkSeriesIterator) : option (bool * ChunkSeriesIterator) := cs_next_from (S (length (cs_chunks s))) s.

#[export] Instance ChunkSeriesIterator_iterator : SeriesIterator ChunkSeriesIterator := {
  si_next := cs_next;
  si_seek := cs_seek;
  si_at s := cur_at <$> cs_cur s }.

(** ** Series *)

(** [EmptySeriesIterator] *)
Inductive EmptySeriesIterator := EmptyIterator.

#[export] Instance EmptySeriesIterator_iterator : SeriesIterator EmptySeriesIterator := {
  si_next e := Some (false, e);
  si_seek _ e := Some (false, e);
  si_at _ := Some (0, 0) }.

Record ChunkSeries := mkChunkSeries {
  se_lset : Labels;
  se_chunks : list ChunkMeta;
  se_itvls : Intervals;
  se_tsid : Z;
  se_min : Z;
  se_max : Z }.

Abbreviation SeriesIter := (EmptySeriesIterator + ChunkSeriesIterator)%type.

(** [ChunkSeries::iterator] *)
Definition ChunkSeries_iterator (s : ChunkSeries) : SeriesIter :=
  match se_chunks s with [] => inl EmptyIterator | _ => inr (chunk_series_iterator (se_chunks s) (se_itvls s) (se_min s) (se_max s)) end.

Definition series_error (i : SeriesIter) : bool := match i with inl _ => false | inr s => cs_err s end.

(** ** The same series of several blocks *)

Record ChainSeriesIterator := mkChain {
  ch_series : list ChunkSeries;
  ch_i : nat;
  ch_cur : option SeriesIter }.

Definition chain_series_iterator (series : list ChunkSeries) : ChainSeriesIterator := mkChain series 0 (ChunkSeries_iterator <$> head series).

(** [for (int j = i; j < series->size(); j++)], whose body opens the series at
    [i], not at [j]. *)
Fixpoint chain_seek_from (rounds : nat) (t : Z) (j : nat) (c : ChainSeriesIterator) : option (bool * ChainSeriesIterator) :=
  match rounds with
  | O => Some (false, c)
  | S rounds =>
    s ← ch_series c !! ch_i c;
    '(ok, temp) ← si_seek t (ChunkSeries_iterator s);
    if (ok : bool) then Some (true, mkChain (ch_series c) j (Some temp)) else chain_seek_from rounds t (S j) c
  end.

Definition chain_seek (t : Z) (c : ChainSeriesIterator) : option (bool * ChainSeriesIterator) :=
  chain_seek_from (length (ch_series c) - ch_i c) t (ch_i c) c.

Fixpoint chain_next_from (rounds : nat) (c : ChainSeriesIterator) : option (bool * ChainSeriesIterator) :=
  match rounds with
  | O => None
  | S rounds =>
    match ch_cur c with
    | None => Some (false, c)
    | Some it =>
      '(ok, it) ← si_next it;
      let c := mkChain (ch_series c) (ch_i c) (Some it) in
      if (ok : bool) then Some (true, c)
      else if series_error it then Some (false, c)
      else if (S (ch_i c) =? length (ch_series c))%nat then Some (false, c)
      else s ← ch_series c !! S (ch_i c); chain_next_from rounds (mkChain (ch_series c) (S (ch_i c)) (Some (ChunkSeries_iterator s)))
    end
  end.

Definition chain_next (c : ChainSeriesIterator) : option (bool * ChainSeriesIterator) := chain_next_from (S (length (ch_series c))) c.

#[export] Instance ChainSeriesIterator_iterator : SeriesIterator ChainSeriesIterator := {
  si_next := chain_next;
  si_seek := chain_seek;
  si_at c := it ← ch_cur c; si_at it }.

(** ** The series of one block *)

Section Block.
Context {B : Type} `{BI : BlockInterface B}.

(** What [BaseChunkSeriesSet] knows of a series: chunks by reference. *)
Record SeriesRefs := mkRefs { rf_lset : Labels; rf_chunks : list ChunkRef; rf_itvls : Intervals; rf_tsid : Z }.

(** Readers are pointers; [err_] stays clear. *)
Record BaseChunkSeriesSet := mkBase {
  ba_p : list Z;
  ba_ir : option B;
  ba_tr : option B;
  ba_cm : SeriesRefs;
  ba_err : bool;
  ba_global : bool }.

(** The series [ref] in the index: with its labels where the block has the
    global index. *)
Definition index_series (global : bool) (b : B) (ref : Z) : option (Labels * list ChunkRef) :=
  if global then series_lset b ref else (fun refs => ([], refs)) <$> series_chunks b ref.

(** [while (p_->next())] *)
Fixpoint base_find (s : BaseChunkSeriesSet) (p : list Z) : option (bool * BaseChunkSeriesSet) :=
  let put p cm := mkBase p (ba_ir s) (ba_tr s) cm (ba_err s) (ba_global s) in
  match p with
  | [] => Some (false, put [] (ba_cm s))
  | ref :: p =>
    b ← ba_ir s;
    match index_series (ba_global s) b ref with
    | None => base_find s p
    | Some (lset, refs) =>
      tr ← ba_tr s;
      let itvls := default [] (deleted tr ref) in
      Some (true, put p (mkRefs lset (live_refs itvls refs) itvls ref))
    end
  end.

Definition base_next (s : BaseChunkSeriesSet) : option (bool * BaseChunkSeriesSet) :=
  if ba_err s then Some (false, s) else base_find s (ba_p s).

Record PopulatedChunkSeriesSet := mkPopulated {
  po_set : BaseChunkSeriesSet;
  po_chunkr : option B;
  po_min : Z;
  po_max : Z;
  po_cm : ChunkSeries;
  po_err : bool }.

(** [while (!cm->chunks.empty())]: chunks that end before the query. *)
Fixpoint pop_early (mint : Z) (refs : list ChunkRef) : list ChunkRef :=
  match refs with [] => [] | r :: refs' => if mint <=? cr_max r then refs else pop_early mint refs' end.

(** The loop that reads the chunks up to the first behind the query; the inner
    [None]: a chunk was not found. *)
Fixpoint populate (chunkr : option B) (maxt : Z) (refs : list ChunkRef) : option (option (list ChunkMeta)) :=
  match refs with
  | [] => Some (Some [])
  | r :: refs =>
    if maxt <? cr_min r then Some (Some [])
    else
      b ← chunkr;
      match block_chunk b (cr_ref r) with
      | None => Some None
      | Some c => rest ← populate chunkr maxt refs; Some (option_map (cons (mkChunkMeta (cr_ref r) c (cr_min r) (cr_max r))) rest)
      end
  end.

(** [next]: one round per id that is left, and the one that finds none. *)
Fixpoint populated_find (rounds : nat) (s : PopulatedChunkSeriesSet) : option (bool * PopulatedChunkSeriesSet) :=
  match rounds with
  | O => None
  | S rounds =>
    '(ok, set) ← base_next (po_set s);
    let put cm err := mkPopulated set (po_chunkr s) (po_min s) (po_max s) cm err in
    if negb ok then Some (false, put (po_cm s) (ba_err set || po_err s))
    else
      let cm := ba_cm set in
      r ← populate (po_chunkr s) (po_max s) (pop_early (po_min s) (rf_chunks cm));
      match r with
      | None => Some (false, put (mkChunkSeries (rf_lset cm) [] (rf_itvls cm) (rf_tsid cm) (po_min s) (po_max s)) true)
      | Some ms =>
        let s := put (mkChunkSeries (rf_lset cm) ms (rf_itvls cm) (rf_tsid cm) (po_min s) (po_max s)) (if bool_decide (ms = []) then po_err s else false) in
        if bool_decide (ms = []) && bool_decide (rf_lset cm = []) then populated_find rounds s else Some (true, s)
      end
  end.

Definition populated_next (s : PopulatedChunkSeriesSet) : option (bool * PopulatedChunkSeriesSet) :=
  populated_find (S (length (ba_p (po_set s)))) s.

Record BlockSeriesSet := mkBlockSet { bl_cs : PopulatedChunkSeriesSet; bl_cur : option ChunkSeries; bl_err : bool }.

Definition block_next (s : BlockSeriesSet) : option (bool * BlockSeriesSet) :=
  '(ok, cs) ← populated_next (bl_cs s);
  Some (if (ok : bool) then (true, mkBlockSet cs (Some (po_cm cs)) (bl_err s))
        else if po_err cs then (false, mkBlockSet cs None true) else (false, mkBlockSet cs (bl_cur s) (bl_err s))).

(** *** Queries on one block *)

Record BlockQuerier := mkBQ {
  bq_indexr : option B;
  bq_chunkr : option B;
  bq_tombstones : option B;
  bq_min : Z;
  bq_max : Z;
  bq_global : bool;
  bq_err : bool }.

Definition block_querier (b : B) (min_time max_time : Z) (global : bool) : BlockQuerier :=
  if negb (index_opens b) then mkBQ None None None min_time max_time global true
  else if negb (chunks_open b) then mkBQ (Some b) None None min_time max_time global true
  else if negb (tombstones_open b) then mkBQ (Some b) (Some b) None min_time max_time global true
  else mkBQ (Some b) (Some b) (Some b) min_time max_time global false.

(** [select] over the ids [p]; what a set is at before its first [next] is not
    read. *)
Definition block_select (q : BlockQuerier) (p : list Z) : BlockSeriesSet :=
  let base := mkBase p (bq_indexr q) (bq_tombstones q) (mkRefs [] [] [] 0) false (bq_global q) in
  mkBlockSet (mkPopulated base (bq_chunkr q) (bq_min q) (bq_max q) (mkChunkSeries [] [] [] 0 (bq_min q) (bq_max q)) false) None false.

(** ** The series of several blocks *)

Record MergedIDSeriesSet := mkMergedSet {
  mi_ss : list BlockSeriesSet;
  mi_series : list ChunkSeries;
  mi_id : list nat;
  mi_err : bool }.

(** [SeriesSets::next()] is [keep], [SeriesSets::next(id)] is [step_ids]. *)
Definition merged_id_set (ss : list BlockSeriesSet) : option MergedIDSeriesSet :=
  ss ← keep block_next ss;
  Some (mkMergedSet ss [] [] (bool_decide (ss = []))).

(** The loop over the sets after the first: those at the least id, [tsid]. *)
Fixpoint pick_sets (i : nat) (l : list BlockSeriesSet) (id : list nat) (tsid : Z) : option (list nat) :=
  match l with
  | [] => Some id
  | s :: l =>
    c ← bl_cur s;
    if se_tsid c <? tsid then pick_sets (S i) l [i] (se_tsid c)
    else if se_tsid c =? tsid then pick_sets (S i) l (id ++ [i]) tsid
    else pick_sets (S i) l id tsid
  end.

Definition merged_ids_helper (m : MergedIDSeriesSet) : option (bool * MergedIDSeriesSet) :=
  ss ← step_ids block_next (mi_id m) 0 (mi_ss m);
  match ss with
  | [] => Some (false, mkMergedSet [] [] [] true)
  | s :: rest =>
    c ← bl_cur s;
    id ← pick_sets 1 rest [0%nat] (se_tsid c);
    series ← mapM (fun i => s ← ss !! i; bl_cur s) id;
    Some (true, mkMergedSet ss series id (mi_err m))
  end.

Definition merged_ids_next (m : MergedIDSeriesSet) : option (bool * MergedIDSeriesSet) :=
  if mi_err m then Some (false, m) else merged_ids_helper m.

(** [at]: one series, or a [ChainSeries]. *)
Definition merged_ids_at (m : MergedIDSeriesSet) : option (ChunkSeries + list ChunkSeries) :=
  match mi_id m with
  | [] => None
  | [_] => inl <$> mi_series m !! 0%nat
  | _ => Some (inr (mi_series m))
  end.

(** ** Queries on several blocks *)

(** [SeriesSetInterface], [SeriesInterface] *)
Abbreviation SeriesSet := (BlockSeriesSet + MergedIDSeriesSet)%type.

Definition any_next (s : SeriesSet) : option (bool * SeriesSet) :=
  match s with
  | inl s => '(ok, s) ← block_next s; Some (ok, inl s)
  | inr s => '(ok, s) ← merged_ids_next s; Some (ok, inr s)
  end.

Definition any_at (s : SeriesSet) : option (ChunkSeries + list ChunkSeries) :=
  match s with inl s => inl <$> bl_cur s | inr s => merged_ids_at s end.

Definition any_tsid (s : ChunkSeries + list ChunkSeries) : Z :=
  match s with inl s => se_tsid s | inr l => match l with s :: _ => se_tsid s | [] => 0 end end.

Definition any_iterator (s : ChunkSeries + list ChunkSeries) : SeriesIter + ChainSeriesIterator :=
  match s with inl s => inl (ChunkSeries_iterator s) | inr l => inr (chain_series_iterator l) end.

Context {R P : Type} `{PS : Postings P} `{IR : !Matchers.IndexReader R P}.

(** [Querier::select]; the inner [None] is a null pointer.  [junk] is what a
    postings iterator holds that has not moved. *)
Definition querier_select (junk : Z) (r : R) (l : list Matcher) (queriers : list BlockQuerier) : option (option SeriesSet) :=
  '(p, ok) ← postings_for_matchers junk r l;
  if negb ok then Some None
  else
    shared_vec ← expand_postings p;
    match queriers with
    | [q] => Some (Some (inl (block_select q shared_vec)))
    | [] => Some None
    | _ => m ← merged_id_set (map (fun q => block_select q shared_vec) queriers); Some (Some (inr m))
    end.

(** How a caller reads what it selected: the samples of one series after the
    other, for at most [rounds] series of fewer than [n] samples. *)
Fixpoint read_set (rounds n : nat) (s : SeriesSet) : option (list (Z * list (Z * Z))) :=
  match rounds with
  | O => None
  | S rounds =>
    '(ok, s) ← any_next s;
    if (ok : bool) then
      x ← any_at s;
      l ← expand n (any_iterator x);
      rest ← read_set rounds n s;
      Some ((any_tsid x, l) :: rest)
    else Some []
  end.

End Block.
Arguments BaseChunkSeriesSet : clear implicits.
Arguments PopulatedChunkSeriesSet : clear implicits.
Arguments BlockSeriesSet : clear implicits.
Arguments BlockQuerier : clear implicits.
Arguments MergedIDSeriesSet : clear implicits.

(** ** What the iterator of a chunk yields *)

(** The samples of a chunk that the deleting iterator lets through.  It compares
    times narrowed to an [int] (DeleteIterator.cpp:19). *)
Definition live_samples (itvls : Intervals) (m : ChunkMeta) : list (Z * Z) :=
  match itvls with [] => chunk_reads (cm_chunk m) | _ => del_samples (chunk_reads (cm_chunk m)) itvls end.

(** What [cur] has left. *)
Definition cur_left (c : Cur) (l : list (Z * Z)) : Prop :=
  match c with
  | inl it => exists e, visits it l e /\ err_ e = false
  | inr d => exists l0 e, visits (dl_it d) l0 e /\ err_ e = false /\ (length l0 < cur_rounds c)%nat /\ l = del_samples l0 (dl_itvls d)
  end /\ (length l < cur_rounds c)%nat.

Lemma del_samples_length l : forall itvls, (length (del_samples l itvls) <= length l)%nat.
Proof.
  induction l as [|x l IH]; intros itvls; [done|]. cbn [del_samples]. destruct (deleted_at _ itvls) as [[] itvls1]; specialize (IH itvls1); simpl; lia.
Qed.

Lemma cur_of_left itvls m : meta_ok m -> cur_left (cur_of itvls m) (live_samples itvls m).
Proof.
  intros (Hf & _). destruct (chunk_visits (cm_chunk m)) as [Hv Hl]. unfold cur_of, live_samples. destruct itvls as [|i itvls].
  - split; [by eexists|]. unfold cur_rounds. lia.
  - split.
    + eexists _, _. split_and!; [exact Hv|exact Hf| |done]. unfold cur_rounds. cbn [dl_it]. lia.
    + pose proof (del_samples_length (chunk_reads (cm_chunk m)) (i :: itvls)). unfold cur_rounds. cbn [dl_it]. lia.
Qed.

Lemma next_total (it it' : XORIterator) : ci_next it = (true, it') -> num_total it' = num_total it.
Proof. intros E. by apply next_true in E as (_ & ? & _). Qed.

Lemma del_next_left it l e : visits it l e -> forall rounds itvls, (length l < rounds)%nat ->
  match del_samples l itvls with
  | [] => exists itvls', del_next rounds (mkDeleteIterator it itvls) = Some (false, mkDeleteIterator e itvls')
  | x :: l' => exists it' itvls' l1, del_next rounds (mkDeleteIterator it itvls) = Some (true, mkDeleteIterator it' itvls') /\ ci_at it' = x /\
      visits it' l1 e /\ (length l1 < length l)%nat /\ l' = del_samples l1 itvls' /\ num_total it' = num_total it
  end.
Proof.
  induction 1 as [it e E|it it1 l e E Hv IH]; intros [|rounds] itvls Hr; try (simpl in Hr; lia); cbn [del_next dl_it dl_itvls del_samples]; rewrite E.
  { by exists itvls. }
  simpl in Hr. pose proof (next_total _ _ E) as Et. destruct (deleted_at (to_int (ci_at it1).1) itvls) as [[] itvls1].
  - specialize (IH rounds itvls1 ltac:(lia)). destruct (del_samples l itvls1) as [|x l']; [exact IH|].
    destruct IH as (it' & itvls' & l1 & ? & ? & ? & ? & ? & ?). exists it', itvls', l1. split_and!; try done; [simpl; lia|congruence].
  - exists it1, itvls1, l. by split_and!; simpl; try lia.
Qed.

Lemma cur_next_left c l : cur_left c l ->
  match l with
  | [] => exists c', cur_next c = Some (false, c') /\ cur_error c' = false
  | x :: l' => exists c', cur_next c = Some (true, c') /\ cur_at c' = x /\ cur_left c' l' /\ cur_rounds c' = cur_rounds c
  end.
Proof.
  destruct c as [it|d]; intros [Hc Hr]; cbn [cur_next].
  - destruct Hc as (e & Hv & He). destruct Hv as [it e E|it it1 l e E Hv]; rewrite E; [by eexists|]. pose proof (next_total _ _ E) as Et.
    assert (Er : cur_rounds (inl it1) = cur_rounds (inl it)) by (unfold cur_rounds; congruence).
    eexists. split_and!; [done|done| |done]. split; [by eexists|]. rewrite Er. simpl in Hr. simpl. lia.
  - destruct Hc as (l0 & e & Hv & He & Hl & ->). destruct d as [it itvls]. cbn [dl_it dl_itvls] in *.
    pose proof (del_next_left it l0 e Hv (cur_rounds (inr (mkDeleteIterator it itvls))) itvls Hl) as Hd.
    destruct (del_samples l0 itvls) as [|x l'] eqn:El.
    + destruct Hd as (itvls' & ->). by eexists.
    + destruct Hd as (it' & itvls' & l1 & -> & Ha & Hv1 & Hl1 & -> & Et).
      assert (Er : cur_rounds (inr (mkDeleteIterator it' itvls')) = cur_rounds (inr (mkDeleteIterator it itvls))) by (unfold cur_rounds; cbn [dl_it]; congruence).
      eexists. split_and!; [done|done| |done]. simpl in Hr. split; [|rewrite Er; lia].
      exists l1, e. split_and!; [done|done| |done]. rewrite Er. lia.
Qed.

(** The samples from the first one at or after [t] on. *)
Fixpoint from_time (t : Z) (l : list (Z * Z)) : list (Z * Z) :=
  match l with [] => [] | x :: l' => if t <=? x.1 then l else from_time t l' end.

Lemma cur_seek_left t l : forall rounds c, cur_left c l -> (length l < rounds)%nat ->
  match from_time t l with
  | [] => exists c', cur_seek rounds t c = Some (false, c')
  | x :: l' => exists c', cur_seek rounds t c = Some (true, c') /\ cur_at c' = x /\ cur_left c' l'
  end.
Proof.
  induction l as [|x l IH]; intros [|rounds] c Hc Hr; simpl in Hr; try lia; pose proof (cur_next_left c _ Hc) as Hn; cbn [cur_seek from_time].
  - destruct Hn as (c' & -> & _). by eexists.
  - destruct Hn as (c' & -> & Ha & Hc' & _). cbn [mbind option_bind]. rewrite Ha. destruct (t <=? x.1); [by eexists|].
    apply (IH rounds c' Hc'). lia.
Qed.

(** ** What the iterator of a series yields *)

(** The samples up to the time [t]. *)
Fixpoint until_time (t : Z) (l : list (Z * Z)) : list (Z * Z) :=
  match l with [] => [] | x :: l => if t <? x.1 then [] else x :: until_time t l end.

(** A chunk as its [max_time] and the samples it has left. *)
Abbreviation Lives := (list (Z * list (Z * Z))).

Definition all_left (cs : Lives) : list (Z * Z) := cs ≫= snd.

Definition lives (itvls : Intervals) (ms : list ChunkMeta) : Lives := map (fun m => (cm_max_time m, live_samples itvls m)) ms.

(** What a seek to [t] leaves: it looks at one chunk, the first that ends at or
    after [t]. *)
Fixpoint sought (t : Z) (cs : Lives) : list (Z * Z) :=
  match cs with
  | [] => []
  | (mx, L) :: cs =>
    if mx <? t then sought t cs else match from_time t L with [] => [] | L' => L' ++ all_left cs end
  end.

(** What [next] visits, up to the end of the query. *)
Fixpoint walk (mint maxt : Z) (cs : Lives) : list (Z * Z) :=
  match cs with
  | [] => []
  | (mx, L) :: cs =>
    match L with
    | [] => walk mint maxt cs
    | x :: L' => if x.1 <? mint then if maxt <? mint then [] else sought mint ((mx, L') :: cs) else L ++ all_left cs
    end
  end.

Lemma walk_all mint maxt cs : Forall (fun x => mint <= x.1) (all_left cs) -> walk mint maxt cs = all_left cs.
Proof.
  induction cs as [|[mx L] cs IH]; intros Hf; [done|]. change (all_left ((mx, L) :: cs)) with (L ++ all_left cs) in *.
  apply Forall_app in Hf as [HL Hf]. cbn [walk]. destruct L as [|x L]; [by apply IH|]. apply Forall_cons in HL as [Hx _].
  destruct (Z.ltb_spec x.1 mint); [lia|done].
Qed.

Lemma from_time_suffix t l : exists pre, l = pre ++ from_time t l /\ Forall (fun x => x.1 < t) pre.
Proof.
  induction l as [|x l (pre & E & Hp)]; [by exists []|]. cbn [from_time]. destruct (Z.leb_spec t x.1); [by exists []|].
  exists (x :: pre). split; [by rewrite E at 1|by constructor].
Qed.

Lemma skip_spec itvls t rest : forall i, rest <> [] ->
  exists found j, skip_chunks t i rest = Some (found, (i + j)%nat) /\
    if found : bool then exists m, rest !! j = Some m /\
      sought t (lives itvls rest) = match from_time t (live_samples itvls m) with [] => [] | L => L ++ all_left (lives itvls (drop (S j) rest)) end
    else sought t (lives itvls rest) = [].
Proof.
  induction rest as [|m rest IH]; intros i Hne; [done|]. cbn [skip_chunks lives map sought]. destruct (cm_max_time m <? t) eqn:Em.
  - destruct rest as [|m' rest'] eqn:Er; [exists false, 0%nat; by rewrite Nat.add_0_r|]. rewrite <- Er in *.
    destruct (IH (S i) ltac:(by rewrite Er)) as (found & j & E & Hs). exists found, (S j).
    replace (i + S j)%nat with (S i + j)%nat by lia. rewrite E. split; [done|]. exact Hs.
  - exists true, 0%nat. rewrite Nat.add_0_r. split; [done|]. exists m. done.
Qed.

(** An iterator with the chunks [cs] left, the first in part. *)
Definition series_left (s : ChunkSeriesIterator) (cs : Lives) : Prop :=
  cs_err s = false /\ Forall meta_ok (cs_chunks s) /\ exists m cur l,
    cs_chunks s !! cs_i s = Some m /\ cs_cur s = Some cur /\ cur_left cur l /\
    cs = (cm_max_time m, l) :: lives (cs_itvls s) (drop (S (cs_i s)) (cs_chunks s)).

Lemma put_left s i m cur l :
  cs_err s = false -> Forall meta_ok (cs_chunks s) -> cs_chunks s !! i = Some m -> cur_left cur l ->
  series_left (cs_put s i (Some cur)) ((cm_max_time m, l) :: lives (cs_itvls s) (drop (S i) (cs_chunks s))).
Proof. intros He Hm Hi Hc. split; [done|]. split; [done|]. by exists m, cur, l. Qed.

(** A seek goes where [sought] says. *)
Lemma cs_seek_left s cs : series_left s cs -> cs_min s <= cs_max s ->
  match sought (cs_min s) cs with
  | [] => exists s', cs_seek (cs_min s) s = Some (false, s') /\ cs_err s' = false
  | x :: l => exists s' cs', cs_seek (cs_min s) s = Some (true, s') /\ cur_at <$> cs_cur s' = Some x /\ series_left s' cs' /\ all_left cs' = l /\
      (cs_min s', cs_max s') = (cs_min s, cs_max s)
  end.
Proof.
  intros (He & Hm & m & cur & l & Hi & Ec & Hc & ->) Hle. unfold cs_seek. rewrite He, Z.ltb_irrefl.
  destruct (Z.ltb_spec (cs_max s) (cs_min s)); [lia|]. rewrite (drop_S _ _ _ Hi). cbn [skip_chunks sought].
  assert (Hgo : forall i m' cur' L, cs_chunks s !! i = Some m' -> cur_left cur' L ->
    match (match from_time (cs_min s) L with [] => [] | L' => L' ++ all_left (lives (cs_itvls s) (drop (S i) (cs_chunks s))) end) with
    | [] => exists s', ('(ok, c) ← cur_seek (cur_rounds cur') (cs_min s) cur'; Some (ok, cs_put s i (Some c))) = Some (false, s') /\ cs_err s' = false
    | x :: l => exists s' cs', ('(ok, c) ← cur_seek (cur_rounds cur') (cs_min s) cur'; Some (ok, cs_put s i (Some c))) = Some (true, s') /\
        cur_at <$> cs_cur s' = Some x /\ series_left s' cs' /\ all_left cs' = l /\ (cs_min s', cs_max s') = (cs_min s, cs_max s)
    end).
  { intros i m' cur' L Hi' Hc'. pose proof (cur_seek_left (cs_min s) L (cur_rounds cur') cur' Hc' (proj2 Hc')) as Hs.
    destruct (from_time (cs_min s) L) as [|x L']; [destruct Hs as (c & ->); by eexists|]. destruct Hs as (c & -> & Ha & Hl). cbn [app mbind option_bind].
    eexists _, _. split_and!; [done|cbn; by rewrite Ha|by apply (put_left s i m' c L')|done|done]. }
  destruct (cm_max_time m <? cs_min s).
  - destruct (drop (S (cs_i s)) (cs_chunks s)) as [|m1 rest] eqn:Er; [by eexists|]. rewrite <- Er.
    destruct (skip_spec (cs_itvls s) (cs_min s) (drop (S (cs_i s)) (cs_chunks s)) (S (cs_i s)) ltac:(by rewrite Er)) as (found & j & -> & Hs).
    cbn [mbind option_bind]. destruct found; cbn [negb]; [|rewrite Hs; by eexists]. destruct Hs as (m' & Hj & ->).
    rewrite (proj2 (Nat.eqb_neq _ _)) by lia. rewrite lookup_drop in Hj. rewrite Hj. cbn [mbind option_bind]. rewrite drop_drop.
    replace (S (cs_i s) + S j)%nat with (S (S (cs_i s) + j)) by lia. apply (Hgo _ m' _ _ Hj). apply cur_of_left.
    rewrite Forall_lookup in Hm. by eapply Hm.
  - cbn [mbind option_bind negb]. rewrite Nat.eqb_refl, Ec. cbn [mbind option_bind]. by apply (Hgo _ m).
Qed.

Lemma sought_suffix t cs : exists pre, all_left cs = pre ++ sought t cs.
Proof.
  induction cs as [|[mx L] cs (pre & E)]; [by exists []|]. change (all_left ((mx, L) :: cs)) with (L ++ all_left cs). cbn [sought]. destruct (mx <? t).
  - exists (L ++ pre). by rewrite <- app_assoc, <- E.
  - destruct (from_time_suffix t L) as (pre' & E' & _). destruct (from_time t L) as [|x L']; [exists (L ++ all_left cs); by rewrite app_nil_r|].
    exists pre'. by rewrite app_assoc, <- E'.
Qed.

Lemma sought_head t cs x l : sought t cs = x :: l -> t <= x.1.
Proof.
  induction cs as [|[mx L] cs IH]; [done|]. cbn [sought]. destruct (mx <? t); [exact IH|].
  assert (Hh : forall y l', from_time t L = y :: l' -> t <= y.1).
  { clear IH. induction L as [|y L IH]; [done|]. cbn [from_time]. intros z l'. destruct (Z.leb_spec t y.1); [by intros [= <- _]|apply IH]. }
  destruct (from_time t L) as [|y L']; [done|]. intros [= <- _]. by eapply Hh.
Qed.

Lemma ascending_suffix pre l : ascending (pre ++ l) -> ascending l.
Proof. induction pre as [|x pre IH]; [done|]. intros [Hs _]%StronglySorted_inv. by apply IH. Qed.

Lemma ascending_from t x l : ascending (x :: l) -> t <= x.1 -> Forall (fun y => t <= y.1) l.
Proof. intros [_ Hl]%StronglySorted_inv Ht. eapply Forall_impl; [exact Hl|]. intros y. simpl. lia. Qed.

(** An iterator inside the range of its query, or not started. *)
Definition series_coming (s : ChunkSeriesIterator) (out : list (Z * Z)) : Prop :=
  exists cs, series_left s cs /\ ascending (all_left cs) /\ out = until_time (cs_max s) (walk (cs_min s) (cs_max s) cs).

Lemma coming_inside s cs x l : series_left s cs -> ascending (x :: all_left cs) -> cs_min s <= x.1 -> l = until_time (cs_max s) (all_left cs) -> series_coming s l.
Proof.
  intros Hl Ha Hx ->. exists cs. split; [done|]. split; [by apply StronglySorted_inv in Ha as [Ha _]|].
  by rewrite walk_all by (by eapply ascending_from).
Qed.

Lemma cs_next_left rounds : forall s cs, series_left s cs -> ascending (all_left cs) -> (length (cs_chunks s) < cs_i s + rounds)%nat ->
  match until_time (cs_max s) (walk (cs_min s) (cs_max s) cs) with
  | [] => exists s', cs_next_from rounds s = Some (false, s') /\ cs_err s' = false
  | x :: l => exists s', cs_next_from rounds s = Some (true, s') /\ cur_at <$> cs_cur s' = Some x /\ series_coming s' l
  end.
Proof.
  induction rounds as [|rounds IH]; intros s cs Hs Ha Hr; pose proof Hs as (He & Hm & m & cur & l & Hi & Ec & Hc & ->).
  { apply lookup_lt_Some in Hi. lia. }
  cbn [cs_next_from]. rewrite Ec. cbn [mbind option_bind]. pose proof (cur_next_left cur l Hc) as Hn. cbn [walk]. destruct l as [|x l].
  - destruct Hn as (c & -> & Hce). cbn [mbind option_bind]. rewrite Hce. cbn [cs_i cs_put cs_chunks].
    destruct (Nat.eqb_spec (S (cs_i s)) (length (cs_chunks s))) as [El|Hne].
    + rewrite drop_ge by lia. by eexists.
    + apply lookup_lt_Some in Hi as Hlt. destruct (lookup_lt_is_Some_2 (cs_chunks s) (S (cs_i s)) ltac:(lia)) as (m' & Hm').
      rewrite Hm'. cbn [mbind option_bind]. rewrite (drop_S _ _ _ Hm') in *. cbn [lives map] in *.
      apply (IH (cs_put s (S (cs_i s)) (Some (cur_of (cs_itvls s) m')))); [|exact Ha|cbn [cs_i cs_put cs_chunks]; lia].
      apply (put_left s _ m'); [done|done|done|]. apply cur_of_left. rewrite Forall_lookup in Hm. by eapply Hm.
  - destruct Hn as (c & -> & Hat & Hc' & _). cbn [mbind option_bind]. rewrite Hat.
    pose proof (put_left s (cs_i s) m c l He Hm Hi Hc') as Hp. cbn [cs_min cs_max cs_put].
    change (all_left _) with (x :: l ++ all_left (lives (cs_itvls s) (drop (S (cs_i s)) (cs_chunks s)))) in Ha.
    destruct (Z.ltb_spec x.1 (cs_min s)) as [Hx|Hx].
    + destruct (Z.ltb_spec (cs_max s) (cs_min s)) as [Hmm|Hmm].
      { unfold cs_seek. cbn [cs_err cs_put cs_max]. rewrite He, (proj2 (Z.ltb_lt _ _)) by lia. by eexists. }
      pose proof (cs_seek_left _ _ Hp Hmm) as Hk. cbn [cs_min cs_put] in Hk. destruct (sought_suffix (cs_min s) ((cm_max_time m, l) :: lives (cs_itvls s) (drop (S (cs_i s)) (cs_chunks s)))) as (pre & Epre).
      destruct (sought _ _) as [|y l'] eqn:Es; cbn [until_time].
      * destruct Hk as (s' & -> & He'). by eexists.
      * apply sought_head in Es as Hy. destruct Hk as (s' & cs' & -> & Hat' & Hl' & Eall & [= E1 E2]). cbn [mbind option_bind].
        destruct (cs_cur s') as [c'|] eqn:Ec'; [|done]. injection Hat' as Hat'. cbn [mbind option_bind]. rewrite Hat'. rewrite E2. cbn [cs_max cs_put].
        destruct (Z.ltb_spec (cs_max s) y.1) as [Hmax|Hmax].
        { rewrite (proj2 (Z.leb_gt _ _)) by lia. eexists. split; [done|]. apply Hl'. }
        rewrite (proj2 (Z.leb_le _ _)) by lia. eexists. split_and!; [done|rewrite Ec'; cbn; by rewrite Hat'|].
        eapply (coming_inside s' cs' y); [done| |rewrite E1; exact Hy|rewrite E2, Eall; done].
        rewrite Eall. apply (ascending_suffix (x :: pre)). change (all_left _) with (l ++ all_left (lives (cs_itvls s) (drop (S (cs_i s)) (cs_chunks s)))) in Epre.
        rewrite <- app_comm_cons, <- Epre. exact Ha.
    + cbn [app until_time]. destruct (Z.ltb_spec (cs_max s) x.1) as [Hmax|Hmax]; cbn [negb]; [by eexists|].
      eexists. split_and!; [done|cbn; by rewrite Hat|]. by eapply (coming_inside _ _ x _ Hp).
Qed.

Lemma cs_next_nil s : series_coming s [] -> exists s', cs_next s = Some (false, s') /\ cs_err s' = false.
Proof. intros (cs & Hl & Ha & E). pose proof (cs_next_left (S (length (cs_chunks s))) s cs Hl Ha ltac:(lia)) as Hn. rewrite <- E in Hn. exact Hn. Qed.

#[export] Instance ChunkSeriesIterator_spec : SeriesIteratorSpec ChunkSeriesIterator.
Proof.
  refine {| coming := series_coming |}.
  - intros s Hc. destruct (cs_next_nil s Hc) as (s' & E & _). by exists s'.
  - intros s x l (cs & Hl & Ha & E). pose proof (cs_next_left (S (length (cs_chunks s))) s cs Hl Ha ltac:(lia)) as Hn. rewrite <- E in Hn. exact Hn.
Defined.

(** *** Exactly what a query sees *)

(** A query from [mint] on stops at once where a sample before [mint] was seen
    and the first chunk that ends at or after [mint] has no live sample from
    [mint] on. *)
Fixpoint stuck (mint : Z) (seen : bool) (cs : Lives) : bool :=
  match cs with
  | [] => false
  | (mx, L) :: cs =>
    let seen := seen || negb (bool_decide (L = [])) in
    if mx <? mint then stuck mint seen cs else seen && forallb (fun x => x.1 <? mint) L
  end.

(** Chunks in time order that end at their [max_time]. *)
Definition lives_ok (cs : Lives) : Prop :=
  Forall (fun c => ascending c.2 /\ Forall (fun x => x.1 <= c.1) c.2) cs /\ StronglySorted (fun a b => Forall (fun x => a.1 < x.1) b.2) cs.

Lemma lives_ok_cons mx L cs : lives_ok ((mx, L) :: cs) ->
  ascending L /\ Forall (fun x => x.1 <= mx) L /\ Forall (fun x => mx < x.1) (all_left cs) /\ lives_ok cs.
Proof.
  intros [Hf Hs]. apply Forall_cons in Hf as [[Ha Hb] Hf]. apply StronglySorted_inv in Hs as [Hs Hl]. split_and!; try done.
  clear -Hl. induction Hl as [|c cs Hc Hl IH]; [constructor|]. by apply Forall_app.
Qed.

Lemma lives_ascending cs : lives_ok cs -> ascending (all_left cs).
Proof.
  induction cs as [|[mx L] cs IH]; [constructor|]. intros (Ha & Hb & Hl & Hok)%lives_ok_cons. specialize (IH Hok).
  change (all_left _) with (L ++ all_left cs). induction Ha as [|x L Ha IHL Hx]; [exact IH|]. apply Forall_cons in Hb as [Hxm Hb].
  apply SSorted_cons; [by apply IHL|]. apply Forall_app. split; [done|]. eapply Forall_impl; [exact Hl|]. intros y. simpl. lia.
Qed.

Lemma from_time_filter t l : ascending l -> from_time t l = filter (fun x => t <= x.1) l.
Proof.
  induction 1 as [|x l Ha IH Hl]; [done|]. cbn [from_time]. destruct (Z.leb_spec t x.1).
  - symmetry. apply filter_id. constructor; [done|]. eapply Forall_impl; [exact Hl|]. intros y. simpl. lia.
  - rewrite IH. by rewrite filter_cons_False by (simpl; lia).
Qed.

Lemma until_filter mint maxt l : ascending l -> Forall (fun x => mint <= x.1) l -> until_time maxt l = in_range mint maxt l.
Proof.
  induction 1 as [|x l Ha IH Hl]; intros Hf; [done|]. apply Forall_cons in Hf as [Hx Hf]. cbn [until_time]. destruct (Z.ltb_spec maxt x.1).
  - symmetry. apply in_range_after; [by apply SSorted_cons|done].
  - rewrite in_range_cons by done. by rewrite IH.
Qed.

Lemma forallb_early t (l : list (Z * Z)) : forallb (fun x => x.1 <? t) l = true <-> filter (fun x => t <= x.1) l = [].
Proof.
  induction l as [|x l IH]; [done|]. cbn [forallb]. destruct (Z.ltb_spec x.1 t).
  - rewrite filter_cons_False by (simpl; lia). done.
  - rewrite filter_cons_True by done. done.
Qed.

Lemma filter_late t l : Forall (fun x : Z * Z => t <= x.1) l -> filter (fun x => t <= x.1) l = l.
Proof. apply filter_id. Qed.

Lemma filter_early t l : Forall (fun x : Z * Z => x.1 < t) l -> filter (fun x => t <= x.1) l = [].
Proof. induction 1 as [|x l Hx Hl IH]; [done|]. by rewrite filter_cons_False by (simpl; lia). Qed.

Lemma sought_exact t cs : lives_ok cs -> sought t cs = if stuck t true cs then [] else filter (fun x => t <= x.1) (all_left cs).
Proof.
  induction cs as [|[mx L] cs IH]; [done|]. intros (Ha & Hb & Hl & Hok)%lives_ok_cons. cbn [sought stuck orb].
  change (all_left ((mx, L) :: cs)) with (L ++ all_left cs). rewrite filter_app. destruct (Z.ltb_spec mx t) as [Hm|Hm].
  - rewrite (filter_early t L) by (eapply Forall_impl; [exact Hb|]; simpl; intros; lia). by apply IH.
  - rewrite (from_time_filter t L Ha), (filter_late t (all_left cs)) by (eapply Forall_impl; [exact Hl|]; simpl; intros; lia). cbn [andb].
    destruct (forallb (fun x => x.1 <? t) L) eqn:Ef.
    + by rewrite (proj1 (forallb_early t L) Ef).
    + destruct (filter (fun x => t <= x.1) L) eqn:El; [|done]. apply (forallb_early t L) in El. congruence.
Qed.

Lemma in_range_both mint maxt l : in_range mint maxt (filter (fun x => mint <= x.1) l) = in_range mint maxt l.
Proof.
  unfold in_range. induction l as [|x l IH]; [done|]. destruct (decide (mint <= x.1)).
  - rewrite (filter_cons_True (fun x => mint <= x.1)) by done. rewrite !filter_cons, IH. done.
  - rewrite (filter_cons_False (fun x => mint <= x.1)) by done. rewrite IH. symmetry. apply filter_cons_False. simpl. lia.
Qed.

Lemma filter_ascending t l : ascending l -> ascending (filter (fun x => t <= x.1) l).
Proof. intros Ha. rewrite <- from_time_filter by done. destruct (from_time_suffix t l) as (pre & E & _). rewrite E in Ha. by eapply ascending_suffix. Qed.

Lemma in_range_empty mint maxt l : maxt < mint -> in_range mint maxt l = [].
Proof. intros Hlt. apply in_range_none, Forall_forall. intros x _. lia. Qed.

Lemma until_late mint maxt l : ascending l -> until_time maxt (filter (fun x => mint <= x.1) l) = in_range mint maxt l.
Proof.
  intros Ha. rewrite <- in_range_both. apply until_filter; [by apply filter_ascending|]. apply Forall_forall. by intros x [? _]%list_elem_of_filter.
Qed.

Lemma stuck_late mint mx cs : mint <= mx -> Forall (fun x => mx < x.1) (all_left cs) -> lives_ok cs -> stuck mint false cs = false.
Proof.
  intros Hm. induction cs as [|[mx' L] cs IH]; [done|]. change (all_left ((mx', L) :: cs)) with (L ++ all_left cs). intros [HL Hl]%Forall_app Hok.
  apply lives_ok_cons in Hok as (_ & Hb & _ & Hok). cbn [stuck orb]. destruct L as [|y L].
  - rewrite (bool_decide_eq_true_2 ([] = [])) by done. cbn [negb andb]. destruct (mx' <? mint); [by apply IH|done].
  - apply Forall_cons in HL as [Hy _]. apply Forall_cons in Hb as [Hy' _]. destruct (Z.ltb_spec mx' mint); [lia|]. cbn [forallb].
    destruct (Z.ltb_spec y.1 mint); [lia|]. apply andb_false_r.
Qed.

Lemma walk_exact mint maxt cs : lives_ok cs -> until_time maxt (walk mint maxt cs) = if stuck mint false cs then [] else in_range mint maxt (all_left cs).
Proof.
  induction cs as [|[mx L] cs IH]; [done|]. intros Hc. pose proof (lives_ascending _ Hc) as Hasc. pose proof Hc as (Ha & Hb & Hl & Hok)%lives_ok_cons.
  cbn [walk stuck orb]. change (all_left ((mx, L) :: cs)) with (L ++ all_left cs) in *. destruct L as [|x L].
  - rewrite (bool_decide_eq_true_2 ([] = [])) by done. cbn [negb andb app]. rewrite (IH Hok). destruct (Z.ltb_spec mx mint); [done|].
    by rewrite (stuck_late mint mx cs).
  - rewrite (bool_decide_eq_false_2 (x :: L = [])) by done. cbn [negb andb]. apply Forall_cons in Hb as [Hx Hb].
    destruct (Z.ltb_spec x.1 mint) as [Hlt|Hge].
    + destruct (Z.ltb_spec maxt mint).
      { rewrite in_range_empty by done. by destruct (if mx <? mint then _ else _). }
      assert (Hok' : lives_ok ((mx, L) :: cs)).
      { destruct Hc as [Hf Hs]. apply Forall_cons in Hf as [_ Hf]. apply StronglySorted_inv in Ha as [Ha _]. apply StronglySorted_inv in Hs as [Hs Hl'].
        split; [by constructor|by constructor]. }
      rewrite (sought_exact mint _ Hok'). change (all_left ((mx, L) :: cs)) with (L ++ all_left cs). cbn [stuck orb andb forallb].
      rewrite (proj2 (Z.ltb_lt x.1 mint) Hlt). cbn [andb]. apply StronglySorted_inv in Hasc as [Hasc _].
      replace (in_range mint maxt ((x :: L) ++ all_left cs)) with (in_range mint maxt (L ++ all_left cs))
        by (unfold in_range; cbn [app]; rewrite filter_cons_False by (simpl; lia); done).
      destruct (if mx <? mint then _ else _); [done|]. by apply until_late.
    + destruct (Z.ltb_spec mx mint); [lia|]. cbn [forallb]. rewrite (proj2 (Z.ltb_ge x.1 mint) Hge). cbn [andb]. apply until_filter; [done|].
      constructor; [done|]. by eapply (ascending_from mint x).
Qed.

Lemma live_samples_sublist itvls m : live_samples itvls m `sublist_of` chunk_reads (cm_chunk m).
Proof. unfold live_samples. destruct itvls; [done|apply del_samples_sublist]. Qed.

Lemma live_within itvls m : meta_ok m -> Forall (fun s => cm_min_time m <= s.1 <= cm_max_time m) (live_samples itvls m).
Proof. intros (_ & _ & _ & Hr). by eapply forall_sublist; [apply live_samples_sublist|]. Qed.

Lemma lives_are_ok itvls ms : Forall meta_ok ms -> StronglySorted before ms -> lives_ok (lives itvls ms).
Proof.
  intros Hm Hs. split.
  - apply Forall_map. eapply Forall_impl; [exact Hm|]. intros m Hok. pose proof Hok as (_ & _ & Ha & _).
    split; [by eapply sublist_ascending; [apply live_samples_sublist|]|]. eapply Forall_impl; [by apply (live_within itvls m)|]. simpl. lia.
  - induction Hs as [|m ms Hs IH Hb]; [constructor|]. apply Forall_cons in Hm as [_ Hm]. apply SSorted_cons; [by apply IH|]. apply Forall_map.
    rewrite Forall_forall in Hb, Hm. apply Forall_forall. intros m' Hin. specialize (Hb m' Hin). unfold before in Hb.
    eapply Forall_impl; [by apply (live_within itvls m'), Hm|]. cbn [fst]. intros s Hsr. cbn beta in Hsr. lia.
Qed.

(** All that the deletion leaves of chunks. *)
Definition all_live (itvls : Intervals) (ms : list ChunkMeta) : list (Z * Z) := ms ≫= live_samples itvls.

Lemma all_left_live itvls ms : all_left (lives itvls ms) = all_live itvls ms.
Proof. induction ms as [|m ms IH]; [done|]. change (live_samples itvls m ++ all_left (lives itvls ms) = live_samples itvls m ++ all_live itvls ms). by rewrite IH. Qed.

(** The samples of the chunks. *)
Definition all_samples (ms : list ChunkMeta) : list (Z * Z) := ms ≫= fun m => chunk_reads (cm_chunk m).

(** Those that no interval covers. *)
Definition uncovered_samples (itvls : Intervals) (l : list (Z * Z)) : list (Z * Z) := filter (fun s => ~ covers itvls s.1) l.

Lemma live_uncovered itvls ms m : itvls_fine itvls ms -> m ∈ ms -> meta_ok m -> live_samples itvls m = uncovered_samples itvls (chunk_reads (cm_chunk m)).
Proof.
  intros Hi Hm (_ & _ & Ha & _). unfold live_samples, uncovered_samples. destruct itvls as [|i itvls].
  - symmetry. apply filter_id, Forall_forall. by intros s _ ?%covers_nil.
  - destruct Hi as [|[Hi Ht]]; [done|]. apply del_samples_filter; [by apply ascending_in_order| |by apply apart_by_min].
    rewrite Forall_forall in Ht. by apply Ht.
Qed.

Lemma all_live_uncovered itvls ms : itvls_fine itvls ms -> Forall meta_ok ms -> all_live itvls ms = uncovered_samples itvls (all_samples ms).
Proof.
  intros Hi. enough (He : forall k, (forall m, m ∈ k -> m ∈ ms) -> Forall meta_ok k -> all_live itvls k = uncovered_samples itvls (all_samples k)) by (by apply He).
  intros k Hk Hm. induction Hm as [|m k Hm _ IH]; [done|].
  change (live_samples itvls m ++ all_live itvls k = uncovered_samples itvls (chunk_reads (cm_chunk m) ++ all_samples k)). unfold uncovered_samples. rewrite filter_app.
  rewrite (live_uncovered itvls ms m Hi (Hk m ltac:(left)) Hm). f_equal. apply IH. intros m' Hm'. apply Hk. by right.
Qed.

Lemma all_live_recent itvls ms : itvls_recent itvls -> all_live itvls ms = all_samples ms.
Proof.
  intros Hi. unfold all_live, all_samples. induction ms as [|m ms IH]; [done|]. cbn [mbind list_bind]. f_equal; [|exact IH].
  unfold live_samples. destruct itvls; [done|]. by apply del_samples_recent.
Qed.

(** What a query of the chunks visits. *)
Definition visible (itvls : Intervals) (ms : list ChunkMeta) (mint maxt : Z) : list (Z * Z) :=
  if stuck mint false (lives itvls ms) then [] else in_range mint maxt (all_live itvls ms).

Lemma fresh_coming ms itvls mint maxt :
  ms <> [] -> Forall meta_ok ms -> StronglySorted before ms ->
  series_coming (chunk_series_iterator ms itvls mint maxt) (visible itvls ms mint maxt).
Proof.
  intros Hne Hm Hs. pose proof (lives_are_ok itvls ms Hm Hs) as Hok. exists (lives itvls ms).
  split; [|split; [by apply lives_ascending|]].
  - destruct ms as [|m ms]; [done|]. split; [by apply bool_decide_eq_false_2|]. split; [done|]. exists m, (cur_of itvls m), (live_samples itvls m).
    split_and!; [done|done| |done]. apply cur_of_left. by apply Forall_cons in Hm as [Hm _].
  - cbn [cs_min cs_max chunk_series_iterator]. unfold visible. rewrite (walk_exact mint maxt _ Hok), all_left_live. done.
Qed.

(** C23.  Reading the chunks of a series.  For chunks in time order, an iterator
    over them for the range from [mint] to [maxt] ends and returns exactly the
    samples in the range that the deleting iterator lets through, with one
    exception: where samples before [mint] are met and the first chunk that ends
    at or after [mint] has no sample left from [mint] on, it returns nothing at
    all, whatever the chunks behind it hold.  The samples let through are those
    that no deleted interval covers where the intervals are apart and all times
    fit an [int], to which the deletion narrows them (DeleteIterator.cpp:19);
    where the intervals begin at or after [2^31], as with milliseconds of
    today, they are all samples. *)
Theorem chunk_series_exact ms itvls mint maxt rounds :
  ms <> [] -> Forall meta_ok ms -> StronglySorted before ms -> (length (all_live itvls ms) < rounds)%nat ->
  expand rounds (chunk_series_iterator ms itvls mint maxt) =
    Some (if stuck mint false (lives itvls ms) then [] else in_range mint maxt (all_live itvls ms)) /\
  (itvls_fine itvls ms -> all_live itvls ms = uncovered_samples itvls (all_samples ms)) /\
  (itvls_recent itvls -> all_live itvls ms = all_samples ms).
Proof.
  intros Hne Hm Hs Hr. split_and!; [|intros Hi; by apply all_live_uncovered|apply all_live_recent].
  apply expand_coming; [by apply fresh_coming|]. destruct (stuck mint false (lives itvls ms)); [simpl; lia|].
  pose proof (length_filter (fun x : Z * Z => mint <= x.1 <= maxt) (all_live itvls ms)). unfold in_range. lia.
Qed.

(** ** What a series and a chain of series yield *)

#[export] Instance EmptySeriesIterator_spec : SeriesIteratorSpec EmptySeriesIterator.
Proof. refine {| coming _ l := l = [] |}; [intros it _; by exists it|done]. Defined.

Definition series_fine (s : ChunkSeries) : Prop :=
  Forall meta_ok (se_chunks s) /\ StronglySorted before (se_chunks s).

Definition series_view (s : ChunkSeries) : list (Z * Z) := visible (se_itvls s) (se_chunks s) (se_min s) (se_max s).

Lemma ChunkSeries_iterator_coming s : series_fine s -> coming (ChunkSeries_iterator s) (series_view s).
Proof.
  intros (Hm & Hs). unfold ChunkSeries_iterator, series_view. destruct (se_chunks s) as [|m ms] eqn:E; [done|].
  by apply fresh_coming.
Qed.

Lemma series_next_nil (it : SeriesIter) : coming it [] -> exists it', si_next it = Some (false, it') /\ series_error it' = false.
Proof.
  destruct it as [e|s]; intros Hc; [by exists (inl e)|]. destruct (cs_next_nil s Hc) as (s' & E & He). exists (inr s'). split; [|done].
  cbn [si_next sum_iterator ChunkSeriesIterator_iterator]. by rewrite E.
Qed.

Definition chain_coming (c : ChainSeriesIterator) (out : list (Z * Z)) : Prop :=
  match ch_cur c with
  | None => out = []
  | Some it => exists l, coming it l /\ (ch_i c < length (ch_series c))%nat /\ Forall series_fine (drop (S (ch_i c)) (ch_series c)) /\
      out = l ++ (drop (S (ch_i c)) (ch_series c) ≫= series_view)
  end.

Lemma chain_next_spec rounds : forall c it l, ch_cur c = Some it -> coming it l -> (ch_i c < length (ch_series c))%nat ->
  Forall series_fine (drop (S (ch_i c)) (ch_series c)) -> (length (ch_series c) < ch_i c + rounds)%nat ->
  match l ++ (drop (S (ch_i c)) (ch_series c) ≫= series_view) with
  | [] => exists c', chain_next_from rounds c = Some (false, c')
  | x :: out => exists c', chain_next_from rounds c = Some (true, c') /\ si_at c' = Some x /\ chain_coming c' out
  end.
Proof.
  induction rounds as [|rounds IH]; intros c it l Ec Hc Hi Hf Hr; [lia|]. cbn [chain_next_from]. rewrite Ec. destruct l as [|x l]; cbn [app].
  - destruct (series_next_nil it Hc) as (it' & -> & He). cbn [mbind option_bind ch_i ch_series]. rewrite He.
    destruct (Nat.eqb_spec (S (ch_i c)) (length (ch_series c))) as [El|Hne]; [rewrite drop_ge by lia; by eexists|].
    destruct (lookup_lt_is_Some_2 (ch_series c) (S (ch_i c)) ltac:(lia)) as (s & Es). rewrite Es. cbn [mbind option_bind].
    rewrite (drop_S _ _ _ Es) in *. apply Forall_cons in Hf as [Hs Hf].
    apply (IH (mkChain (ch_series c) (S (ch_i c)) (Some (ChunkSeries_iterator s))) (ChunkSeries_iterator s) (series_view s));
      [done|by apply ChunkSeries_iterator_coming|cbn [ch_i ch_series]; lia|done|cbn [ch_i ch_series]; lia].
  - destruct (coming_cons it x l Hc) as (it' & -> & Ha & Hl). cbn [mbind option_bind]. eexists. split_and!; [done|exact Ha|].
    unfold chain_coming. cbn [ch_cur ch_i ch_series]. by exists l.
Qed.

#[export] Instance ChainSeriesIterator_spec : SeriesIteratorSpec ChainSeriesIterator.
Proof.
  assert (Hn : forall c out, chain_coming c out ->
    match out with
    | [] => exists c', chain_next c = Some (false, c')
    | x :: out => exists c', chain_next c = Some (true, c') /\ si_at c' = Some x /\ chain_coming c' out
    end).
  { intros c out Hc. unfold chain_coming in Hc. destruct (ch_cur c) as [it|] eqn:Ec.
    - destruct Hc as (l & Hc & Hi & Hf & ->). apply (chain_next_spec _ c it l Ec Hc Hi Hf). lia.
    - subst. exists c. unfold chain_next. cbn [chain_next_from]. by rewrite Ec. }
  refine {| coming := chain_coming |}; intros; by apply (Hn _ _ ltac:(eassumption)).
Defined.

Lemma chain_fresh series : Forall series_fine series -> chain_coming (chain_series_iterator series) (series ≫= series_view).
Proof.
  intros Hf. unfold chain_coming, chain_series_iterator. destruct series as [|s series]; [done|]. cbn [ch_cur ch_i ch_series head fmap option_fmap option_map].
  apply Forall_cons in Hf as [Hs Hf]. exists (series_view s). split_and!; [by apply ChunkSeries_iterator_coming|simpl; lia|done|done].
Qed.

(** A seek on a chain looks at one series only, the one the chain is at: where
    that one has nothing from [t] on, the seek fails, whatever the series behind
    it hold. *)
Theorem chain_seek_misses t c s it : ch_series c !! ch_i c = Some s -> si_seek t (ChunkSeries_iterator s) = Some (false, it) -> chain_seek t c = Some (false, c).
Proof.
  intros Es E. unfold chain_seek. generalize (ch_i c) at 2. induction (length (ch_series c) - ch_i c)%nat as [|rounds IH]; intros j; [done|].
  cbn [chain_seek_from]. rewrite Es. cbn [mbind option_bind]. rewrite E. apply IH.
Qed.

(** ** What the set of one block yields *)

Section BlockSpec.
Context {B : Type} `{BI : BlockInterface B} (mint maxt : Z).

(** The chunks up to the first that begins after the query. *)
Fixpoint upto_refs (refs : list ChunkRef) : list ChunkRef :=
  match refs with [] => [] | r :: refs => if maxt <? cr_min r then [] else r :: upto_refs refs end.

(** The chunks of a series that a query reads. *)
Definition window (itvls : Intervals) (refs : list ChunkRef) : list ChunkRef := upto_refs (pop_early mint (live_refs itvls refs)).

(** The series [id] as a query on the block yields it. *)
Definition block_series (global : bool) (b : B) (id : Z) : option ChunkSeries :=
  '(lset, refs) ← index_series global b id;
  ms ← read_refs b (window (itvls_of b id) refs);
  if bool_decide (ms = []) && bool_decide (lset = []) then None else Some (mkChunkSeries lset ms (itvls_of b id) id mint maxt).

(** The chunks of the series [id] of a block can be read and hold samples in
    order. *)
Definition readable (global : bool) (b : B) (id : Z) : Prop :=
  forall lset refs, index_series global b id = Some (lset, refs) -> exists ms, read_refs b refs = Some ms /\
    Forall meta_ok ms /\ Forall (fun m => cm_min_time m <= cm_max_time m) ms /\ StronglySorted before ms.

Lemma read_refs_sublist b refs refs' ms : refs' `sublist_of` refs -> read_refs b refs = Some ms ->
  exists ms', read_refs b refs' = Some ms' /\ ms' `sublist_of` ms.
Proof.
  intros Hs. revert ms. induction Hs as [|r refs' refs Hs IH|r refs' refs Hs IH]; intros ms E; cbn [read_refs] in *.
  - injection E as <-. by exists [].
  - apply bind_Some in E as (c & -> & E). apply bind_Some in E as (ms1 & E1 & E). injection E as <-. destruct (IH ms1 E1) as (ms' & -> & Hsub).
    eexists. split; [done|]. by apply sublist_skip.
  - apply bind_Some in E as (c & _ & E). apply bind_Some in E as (ms1 & E1 & E). injection E as <-. destruct (IH ms1 E1) as (ms' & -> & Hsub).
    eexists. split; [done|]. by apply sublist_cons.
Qed.

Lemma window_sublist itvls refs : window itvls refs `sublist_of` refs.
Proof.
  unfold window. transitivity (pop_early mint (live_refs itvls refs)).
  - generalize (pop_early mint (live_refs itvls refs)). intros l. induction l as [|r l IH]; [done|]. cbn [upto_refs].
    destruct (maxt <? cr_min r); [by apply sublist_nil_l|by apply sublist_skip].
  - transitivity (live_refs itvls refs).
    + generalize (live_refs itvls refs). intros l. induction l as [|r l IH]; [done|]. cbn [pop_early].
      destruct (mint <=? cr_max r); [done|by apply sublist_cons].
    + unfold live_refs. case_bool_decide; [done|]. apply sublist_filter.
Qed.

Lemma populate_read b refs : forall ms, read_refs b (upto_refs refs) = Some ms -> populate (Some b) maxt refs = Some (Some ms).
Proof.
  induction refs as [|r refs IH]; intros ms E; cbn [upto_refs populate] in *; [by injection E as <-|]. destruct (maxt <? cr_min r); [by injection E as <-|].
  cbn [read_refs mbind option_bind] in *. apply bind_Some in E as (c & -> & E). apply bind_Some in E as (ms1 & E1 & E). injection E as <-.
  by rewrite (IH ms1 E1).
Qed.

(** A set over the block [b] with the ids [p] left. *)
Definition over (global : bool) (b : B) (p : list Z) (s : PopulatedChunkSeriesSet B) : Prop :=
  (exists cm, po_set s = mkBase p (Some b) (Some b) cm false global) /\ po_chunkr s = Some b /\ po_min s = mint /\ po_max s = maxt /\ po_err s = false.

Lemma base_find_spec global b p0 cm p :
  let s := mkBase p0 (Some b) (Some b) cm false global in
  (base_find s p = Some (false, mkBase [] (Some b) (Some b) cm false global) /\ Forall (fun id => index_series global b id = None) p) \/
  exists pre id p' lset refs, p = pre ++ id :: p' /\ Forall (fun id => index_series global b id = None) pre /\ index_series global b id = Some (lset, refs) /\
    base_find s p = Some (true, mkBase p' (Some b) (Some b) (mkRefs lset (live_refs (itvls_of b id) refs) (itvls_of b id) id) false global).
Proof.
  cbn zeta. induction p as [|id p IH]; [left; by split|]. cbn [base_find ba_ir ba_tr ba_cm ba_err ba_global mbind option_bind].
  destruct (index_series global b id) as [[lset refs]|] eqn:Ei.
  - right. exists [], id, p, lset, refs. by repeat split.
  - destruct IH as [[E Hf]|(pre & id' & p' & lset & refs & -> & Hf & Ei' & E)]; [left; split; [exact E|by constructor]|].
    right. exists (id :: pre), id', p', lset, refs. split_and!; [done|by constructor|done|exact E].
Qed.

Lemma omap_none {A C} (f : A -> option C) l : Forall (fun x => f x = None) l -> omap f l = [].
Proof. induction 1 as [|x l Hx Hl IH]; [done|]. cbn. by rewrite Hx. Qed.

Lemma not_indexed global b p : Forall (fun id => index_series global b id = None) p -> omap (block_series global b) p = [].
Proof. intros Hp. apply omap_none. eapply Forall_impl; [exact Hp|]. intros id E. unfold block_series. by rewrite E. Qed.

Lemma populated_spec global b rounds : forall p s, over global b p s -> Forall (readable global b) p -> (length p < rounds)%nat ->
  match omap (block_series global b) p with
  | [] => exists s', populated_find rounds s = Some (false, s') /\ po_err s' = false
  | c :: l => exists s' p', populated_find rounds s = Some (true, s') /\ po_cm s' = c /\ over global b p' s' /\
      Forall (readable global b) p' /\ l = omap (block_series global b) p'
  end.
Proof.
  induction rounds as [|rounds IH]; intros p s ((cm & Es) & Ech & Emin & Emax & Eerr) Hr Hl; [lia|]. cbn [populated_find]. unfold base_next.
  rewrite Es. cbn [ba_err ba_p]. destruct (base_find_spec global b p cm p) as [[-> Hn]|(pre & id & p' & lset & refs & -> & Hn & Ei & ->)].
  - rewrite (not_indexed _ _ _ Hn). cbn [mbind option_bind negb ba_err orb]. by eexists.
  - rewrite omap_app, (not_indexed _ _ _ Hn). cbn [app mbind option_bind negb ba_cm rf_chunks rf_lset rf_itvls rf_tsid].
    apply Forall_app in Hr as [_ Hr]. apply Forall_cons in Hr as [Hid Hr]. destruct (Hid lset refs Ei) as (ms0 & E0 & _).
    destruct (read_refs_sublist b refs _ ms0 (window_sublist (itvls_of b id) refs) E0) as (ms & Ems & _).
    rewrite Ech, Emin, Emax, (populate_read b _ ms Ems). cbn [mbind option_bind].
    assert (Eb : block_series global b id = if bool_decide (ms = []) && bool_decide (lset = []) then None
      else Some (mkChunkSeries lset ms (itvls_of b id) id mint maxt)) by (unfold block_series; rewrite Ei; cbn [mbind option_bind]; by rewrite Ems).
    change (omap (block_series global b) (id :: p')) with (match block_series global b id with Some c => c :: omap (block_series global b) p' | None => omap (block_series global b) p' end).
    rewrite Eb, Eerr. destruct (bool_decide (ms = []) && bool_decide (lset = [])).
    + apply IH; [|done|rewrite length_app in Hl; simpl in Hl; lia]. split; [by eexists|]. split_and!; try done. by destruct (bool_decide _).
    + eexists _, p'. split_and!; [done|done| |done|done]. split; [by eexists|]. split_and!; try done. by destruct (bool_decide _).
Qed.

(** A block's set with the series [l] left. *)
Definition block_left (s : BlockSeriesSet B) (l : list ChunkSeries) : Prop :=
  exists global b p, over global b p (bl_cs s) /\ Forall (readable global b) p /\ l = omap (block_series global b) p.

Lemma block_next_left s l : block_left s l ->
  match l with
  | [] => exists s', block_next s = Some (false, s')
  | c :: l => exists s', block_next s = Some (true, s') /\ bl_cur s' = Some c /\ block_left s' l
  end.
Proof.
  intros (global & b & p & Ho & Hr & ->). pose proof Ho as ((cm & Es) & _). unfold block_next, populated_next.
  rewrite Es. cbn [ba_p]. pose proof (populated_spec global b (S (length p)) p (bl_cs s) Ho Hr ltac:(lia)) as Hp.
  destruct (omap (block_series global b) p) as [|c l].
  - destruct Hp as (s' & -> & He). cbn [mbind option_bind]. rewrite He. by eexists.
  - destruct Hp as (s' & p' & -> & <- & Ho' & Hr' & ->). cbn [mbind option_bind]. eexists. split_and!; [done|done|]. by exists global, b, p'.
Qed.

Definition opens (b : B) : Prop := index_opens b = true /\ chunks_open b = true /\ tombstones_open b = true.

Lemma block_select_left global b p : opens b -> Forall (readable global b) p ->
  block_left (block_select (block_querier b mint maxt global) p) (omap (block_series global b) p).
Proof.
  intros (H1 & H2 & H3) Hr. exists global, b, p. split; [|done]. unfold block_querier. rewrite H1, H2, H3. cbn [negb]. split; [by eexists|done].
Qed.

(** ** What the set of several blocks yields *)

Abbreviation at_sets := (current bl_cur block_left).

Definition least (x : Z) (xs : list ChunkSeries) : Z := foldl (fun t c => Z.min t (se_tsid c)) x xs.

Lemma least_le xs : forall x, least x xs <= x /\ Forall (fun c => least x xs <= se_tsid c) xs.
Proof.
  induction xs as [|c xs IH]; intros x; [split; [simpl; lia|constructor]|]. unfold least. cbn [foldl]. destruct (IH (Z.min x (se_tsid c))) as [H1 H2].
  unfold least in H1, H2. split; [lia|]. constructor; [lia|done].
Qed.

Lemma pick_sets_spec ss : forall xs Ls i id x, at_sets ss xs Ls ->
  pick_sets i ss id x = Some ((if x =? least x xs then id else []) ++ on_time se_tsid (least x xs) i xs).
Proof.
  induction ss as [|s ss IH]; intros xs Ls i id x [Hc Hl].
  { apply Forall2_nil_inv_l in Hc. assert (xs = []) as -> by (destruct xs, Ls; done). simpl. by rewrite Z.eqb_refl, app_nil_r. }
  destruct xs as [|c xs], Ls as [|L Ls]; try done; [by inversion Hc|]. injection Hl as Hl. apply Forall2_cons_1 in Hc as [[Ha _] Hc]. simpl in Ha.
  assert (Hcur : at_sets ss xs Ls) by by split. cbn [pick_sets on_time]. rewrite Ha. cbn [mbind option_bind].
  change (least x (c :: xs)) with (least (Z.min x (se_tsid c)) xs). pose proof (proj1 (least_le xs (Z.min x (se_tsid c)))) as Hle.
  destruct (Z.ltb_spec (se_tsid c) x) as [Hlt|Hge]; [|destruct (Z.eqb_spec (se_tsid c) x) as [Et|Hne]].
  - rewrite Z.min_r in * by lia. rewrite (IH xs Ls _ _ _ Hcur). rewrite (proj2 (Z.eqb_neq x _)) by lia. by destruct (se_tsid c =? _).
  - rewrite Z.min_l in * by lia. rewrite (IH xs Ls _ _ _ Hcur), <- Et. destruct (se_tsid c =? _); [by rewrite <- app_assoc|done].
  - rewrite Z.min_l in * by lia. rewrite (IH xs Ls _ _ _ Hcur). rewrite (proj2 (Z.eqb_neq (se_tsid c) _)) by lia. done.
Qed.

Lemma series_at t ss : forall xs Ls pre, at_sets ss xs Ls ->
  mapM (fun i => s ← (pre ++ ss) !! i; bl_cur s) (on_time se_tsid t (length pre) xs) = Some (filter (fun c => se_tsid c = t) xs).
Proof.
  induction ss as [|s ss IH]; intros xs Ls pre [Hc Hl].
  { apply Forall2_nil_inv_l in Hc. by assert (xs = []) as -> by (destruct xs, Ls; done). }
  destruct xs as [|c xs], Ls as [|L Ls]; try done. injection Hl as Hl. apply Forall2_cons_1 in Hc as [[Ha _] Hc]. simpl in Ha.
  specialize (IH xs Ls (pre ++ [s]) ltac:(by split)). rewrite length_app, <- app_assoc in IH. simpl in IH. rewrite Nat.add_1_r in IH. cbn [on_time].
  destruct (Z.eqb_spec (se_tsid c) t) as [Et|Hne].
  - rewrite filter_cons_True by done. cbn [mapM]. rewrite list_lookup_middle by done. cbn [mbind option_bind]. rewrite Ha. cbn [mbind option_bind]. by rewrite IH.
  - by rewrite filter_cons_False.
Qed.

(** A merged set that has the series [Rs] left. *)
Definition merged_left (m : MergedIDSeriesSet B) (Rs : list (list ChunkSeries)) : Prop :=
  (mi_err m = true /\ Rs = []) \/
  mi_err m = false /\ exists ss xs Ls, step_ids block_next (mi_id m) 0 (mi_ss m) = Some ss /\ at_sets ss xs Ls /\ zip_with cons xs Ls = Rs.

Definition heads (Rs : list (list ChunkSeries)) : list ChunkSeries := omap head Rs.

Lemma heads_zip (xs : list ChunkSeries) : forall Ls, length xs = length Ls -> heads (zip_with cons xs Ls) = xs.
Proof. induction xs as [|x xs IH]; intros [|L Ls] Hl; try done. injection Hl as Hl. cbn. by rewrite IH. Qed.

Lemma merged_next_left m Rs : merged_left m Rs ->
  match heads Rs with
  | [] => exists m', merged_ids_next m = Some (false, m')
  | x :: xs => let t := least (se_tsid x) xs in exists m', merged_ids_next m = Some (true, m') /\
      mi_series m' = filter (fun c => se_tsid c = t) (x :: xs) /\ length (mi_id m') = length (mi_series m') /\
      merged_left m' (filter (fun L => L <> []) (past se_tsid t <$> Rs))
  end.
Proof.
  intros [[He ->]|(He & ss & xs & Ls & E & Hc & <-)]; unfold merged_ids_next; rewrite He; [by eexists|]. rewrite heads_zip by apply Hc.
  unfold merged_ids_helper. rewrite E. cbn [mbind option_bind]. destruct ss as [|s ss].
  { destruct Hc as [Hc Hl]. apply Forall2_nil_inv_l in Hc. assert (xs = []) as -> by (destruct xs, Ls; done). by eexists. }
  destruct xs as [|x xs], Ls as [|L Ls]; try (by destruct Hc as [Hc Hl]; inversion Hc || done). pose proof Hc as [H1 Hl]. injection Hl as Hl.
  apply Forall2_cons_1 in H1 as [[Ha _] H1]. simpl in Ha. rewrite Ha. cbn [mbind option_bind].
  rewrite (pick_sets_spec ss xs Ls 1 [0%nat] (se_tsid x) ltac:(by split)). cbn [mbind option_bind]. set (t := least (se_tsid x) xs).
  assert (Ei : (if se_tsid x =? t then [0%nat] else []) ++ on_time se_tsid t 1 xs = on_time se_tsid t 0 (x :: xs)) by (cbn [on_time]; by destruct (se_tsid x =? t)).
  rewrite Ei. pose proof (series_at t (s :: ss) (x :: xs) (L :: Ls) [] Hc) as Em. rewrite app_nil_l in Em. change (length []) with 0%nat in Em. rewrite Em. cbn [mbind option_bind].
  eexists. split_and!; [done|done| |].
  - cbn [mi_id mi_series]. generalize 0%nat. generalize (x :: xs). intros l. induction l as [|y l IH]; intros i; [done|]. cbn [on_time].
    destruct (Z.eqb_spec (se_tsid y) t); [rewrite filter_cons_True by done; simpl; by rewrite IH|by rewrite filter_cons_False].
  - right. split; [done|]. cbn [mi_id mi_ss].
    destruct (step_ids_spec se_tsid block_next bl_cur block_left (fun s H => block_next_left s [] H) (fun s x l H => block_next_left s (x :: l) H)
      t (s :: ss) (x :: xs) (L :: Ls) [] 0 Hc) as (ss' & xs' & Ls' & Es & Hc' & Ez). exists ss', xs', Ls'. split_and!; [exact Es|exact Hc'|exact Ez].
Qed.

Lemma merged_set_left ss Rs : Forall2 block_left ss Rs -> exists m, merged_id_set ss = Some m /\ merged_left m (filter (fun L => L <> []) Rs).
Proof.
  intros Hs. destruct (keep_next block_next bl_cur block_left (fun s H => block_next_left s [] H) (fun s x l H => block_next_left s (x :: l) H) ss Rs Hs)
    as (ss' & xs & Ls & E & Hc & Ez). unfold merged_id_set. rewrite E. cbn [mbind option_bind]. eexists. split; [done|]. rewrite <- Ez.
  destruct ss' as [|s ss'].
  - left. split; [done|]. destruct Hc as [Hc Hl]. apply Forall2_nil_inv_l in Hc. by assert (xs = []) as -> by (destruct xs, Ls; done).
  - right. split; [done|]. by exists (s :: ss'), xs, Ls.
Qed.

(** ** Reading what was selected *)

Definition by_tsid (l : list ChunkSeries) : Prop := StronglySorted (fun a b => se_tsid a < se_tsid b) l.

Abbreviation with_tsid t := (filter (fun c => se_tsid c = t)).

(** What is read of the series [t]. *)
Definition joined (Rs : list (list ChunkSeries)) (t : Z) : list (Z * Z) := with_tsid t (concat Rs) ≫= series_view.

Lemma filter_rejects {A} (Q : A -> Prop) `{forall x, Decision (Q x)} l : Forall (fun x => ~ Q x) l -> filter Q l = [].
Proof. induction 1 as [|x l Hx _ IH]; [done|]. by rewrite filter_cons_False. Qed.

(** The first series of a list, and what is behind it, by the least id. *)
Lemma past_split t L : by_tsid L -> (forall x, head L = Some x -> t <= se_tsid x) ->
  with_tsid t L = with_tsid t (option_list (head L)) /\ past se_tsid t L = filter (fun c => se_tsid c <> t) L.
Proof.
  intros Hs Hh. destruct L as [|x L]; [done|]. specialize (Hh x eq_refl). apply StronglySorted_inv in Hs as [_ Hl].
  assert (Hn : Forall (fun c => se_tsid c <> t) L) by (eapply Forall_impl; [exact Hl|]; intros c; simpl; lia).
  cbn [head option_list past]. split.
  - rewrite !filter_cons. by rewrite (filter_rejects _ L Hn).
  - destruct (Z.eqb_spec (se_tsid x) t) as [E|E]; rewrite filter_cons; [rewrite decide_False by (by intros ?)|rewrite decide_True by done];
      by rewrite (filter_id _ L Hn).
Qed.

Lemma forall_filter {A} (Q Q' : A -> Prop) `{forall x, Decision (Q' x)} l : Forall Q l -> Forall Q (filter Q' l).
Proof. intros Hl. apply Forall_forall. intros x [_ Hx]%list_elem_of_filter. rewrite Forall_forall in Hl. by apply Hl. Qed.

Lemma filter_by_tsid Q `{forall x : ChunkSeries, Decision (Q x)} L : by_tsid L -> by_tsid (filter Q L).
Proof.
  induction 1 as [|x L Hs IH Hl]; [constructor|]. rewrite filter_cons. case_decide; [|done]. apply SSorted_cons; [done|].
  by apply forall_filter.
Qed.

Lemma concat_filter_nonempty {A} (Rs : list (list A)) : concat (filter (fun L => L <> []) Rs) = concat Rs.
Proof. induction Rs as [|L Rs IH]; [done|]. rewrite filter_cons. case_decide as H; cbn; [by rewrite IH|]. by assert (L = []) as -> by (by destruct (decide (L = []))). Qed.

Lemma heads_concat Rs x xs : Forall by_tsid Rs -> heads Rs = x :: xs -> let t := least (se_tsid x) xs in
  with_tsid t (x :: xs) = with_tsid t (concat Rs) /\
  concat (filter (fun L => L <> []) (past se_tsid t <$> Rs)) = filter (fun c => se_tsid c <> t) (concat Rs) /\
  Forall by_tsid (filter (fun L => L <> []) (past se_tsid t <$> Rs)) /\ Forall (fun c => t <= se_tsid c) (concat Rs).
Proof.
  intros Hs Eh t. assert (Hle : Forall (fun c => t <= se_tsid c) (heads Rs)) by (rewrite Eh; destruct (least_le xs (se_tsid x)); by constructor).
  rewrite <- Eh. rewrite concat_filter_nonempty. clear Eh. generalize dependent t. clear x xs. intros t Hle.
  induction Hs as [|L Rs HL Hs IH]; [done|].
  assert (Hh : (forall y, head L = Some y -> t <= se_tsid y) /\ Forall (fun c => t <= se_tsid c) (heads Rs)).
  { destruct L as [|y L]; [done|]. apply Forall_cons in Hle as [Hy Hle]. split; [by intros ? [= <-]|done]. }
  destruct Hh as [Hh Hr]. destruct (IH Hr) as (I1 & I2 & I3 & I4). destruct (past_split t L HL Hh) as [P1 P2].
  replace (heads (L :: Rs)) with (option_list (head L) ++ heads Rs) by (by destruct L). cbn [concat fmap list_fmap]. rewrite !filter_app, P1, I1, P2, I2.
  split_and!; [done|done| |].
  - rewrite filter_cons. case_decide; [|done]. constructor; [by apply filter_by_tsid|done].
  - apply Forall_app. split; [|done]. destruct L as [|y L]; [done|]. specialize (Hh y eq_refl). apply StronglySorted_inv in HL as [_ HL].
    constructor; [done|]. eapply Forall_impl; [exact HL|]. intros c. simpl. lia.
Qed.

(** The list of what was read: every id once, in order. *)
Definition reads_as (Rs : list (list ChunkSeries)) (out : list (Z * list (Z * Z))) : Prop :=
  StronglySorted (fun a b => a.1 < b.1) out /\ forall id l, (id, l) ∈ out <-> (exists c, c ∈ concat Rs /\ se_tsid c = id) /\ l = joined Rs id.

Lemma filter_other t (id : Z) (l : list ChunkSeries) : id <> t -> with_tsid id (filter (fun c => se_tsid c <> t) l) = with_tsid id l.
Proof.
  intros Hne. induction l as [|c l IH]; [done|]. destruct (decide (se_tsid c = t)).
  - rewrite (filter_cons_False (fun c => se_tsid c <> t)) by (intros []; done). rewrite IH. rewrite filter_cons_False; [done|congruence].
  - rewrite (filter_cons_True (fun c => se_tsid c <> t)) by done. rewrite !filter_cons, IH. done.
Qed.

Lemma reads_as_cons Rs Rs' t out : Forall (fun c => t <= se_tsid c) (concat Rs) -> (exists c, c ∈ concat Rs /\ se_tsid c = t) ->
  concat Rs' = filter (fun c => se_tsid c <> t) (concat Rs) -> reads_as Rs' out -> reads_as Rs ((t, joined Rs t) :: out).
Proof.
  intros Hle Hex Ec [Hs Hm]. split.
  - apply SSorted_cons; [done|]. apply Forall_forall. intros [id l] [(c & Hc & <-) _]%Hm. rewrite Ec in Hc. apply list_elem_of_filter in Hc as [Hne Hc].
    rewrite Forall_forall in Hle. specialize (Hle c Hc). simpl. lia.
  - intros id l. rewrite elem_of_cons, Hm. destruct (decide (id = t)) as [->|Hne].
    + split; [intros [[= ->]|[(c & Hc & E) _]]|intros [_ ->]; by left]; [done|]. rewrite Ec in Hc. by apply list_elem_of_filter in Hc as [? _].
    + assert (Eg : joined Rs' id = joined Rs id) by (unfold joined; by rewrite Ec, filter_other). rewrite Eg, Ec. split.
      * intros [[= ? ?]|[(c & [_ Hc]%list_elem_of_filter & E) ->]]; [done|]. split; [by exists c|done].
      * intros [(c & Hc & E) ->]. right. split; [|done]. exists c. split; [|done]. apply list_elem_of_filter. split; [congruence|done].
Qed.

Lemma joined_fine Rs t : Forall series_fine (concat Rs) -> Forall series_fine (with_tsid t (concat Rs)).
Proof. apply forall_filter. Qed.

Lemma least_member xs : forall x, exists c, c ∈ x :: xs /\ se_tsid c = least (se_tsid x) xs.
Proof.
  induction xs as [|y xs IH]; intros x; [exists x; split; [left|done]|]. change (least (se_tsid x) (y :: xs)) with (least (Z.min (se_tsid x) (se_tsid y)) xs).
  destruct (Z.le_gt_cases (se_tsid x) (se_tsid y)).
  - rewrite Z.min_l by lia. destruct (IH x) as (c & Hc & E). exists c. split; [|done]. apply elem_of_cons in Hc as [->|Hc]; [left|by do 2 right].
  - rewrite Z.min_r by lia. destruct (IH y) as (c & Hc & E). exists c. split; [|done]. by right.
Qed.

(** The series a merged set is at, read to its end. *)
Lemma merged_view n (m : MergedIDSeriesSet B) t l : mi_series m = l -> l <> [] -> length (mi_id m) = length l -> Forall (fun c => se_tsid c = t) l -> Forall series_fine l ->
  (length (l ≫= series_view) < n)%nat ->
  exists y, merged_ids_at m = Some y /\ any_tsid y = t /\ expand n (any_iterator y) = Some (l ≫= series_view).
Proof.
  intros Es Hne El Ht Hf Hn. destruct l as [|c l]; [done|]. unfold merged_ids_at. rewrite Es. apply Forall_cons in Ht as [Ht _].
  destruct (mi_id m) as [|i [|j id]]; [done| |].
  - destruct l; [|done]. exists (inl c). split_and!; [done|done|]. apply Forall_cons in Hf as [Hf _]. cbn [mbind list_bind] in *. rewrite app_nil_r in *.
    apply (expand_coming (I := (SeriesIter + ChainSeriesIterator)%type)); [|done]. by apply ChunkSeries_iterator_coming.
  - exists (inr (c :: l)). split_and!; [done|done|]. apply (expand_coming (I := (SeriesIter + ChainSeriesIterator)%type)); [|done]. by apply chain_fresh.
Qed.

Lemma joined_after Rs Rs' t n id : concat Rs' = filter (fun c => se_tsid c <> t) (concat Rs) -> (forall id, (length (joined Rs id) < n)%nat) -> (length (joined Rs' id) < n)%nat.
Proof.
  intros E Hn. unfold joined. rewrite E. destruct (decide (id = t)) as [->|Hne]; [|rewrite filter_other by done; apply Hn].
  rewrite filter_rejects; [|apply Forall_forall; by intros d [? _]%list_elem_of_filter]. specialize (Hn 0). simpl. lia.
Qed.

Lemma heads_nil Rs : heads Rs = [] -> concat Rs = [].
Proof. induction Rs as [|[|y L] Rs IH]; [done|exact IH|done]. Qed.

Lemma merged_reads rounds n : forall Rs m, merged_left m Rs -> Forall by_tsid Rs -> Forall series_fine (concat Rs) ->
  (forall id, (length (joined Rs id) < n)%nat) -> (length (concat Rs) < rounds)%nat ->
  exists out, read_set rounds n (inr m) = Some out /\ reads_as Rs out.
Proof.
  induction rounds as [|rounds IH]; intros Rs m Hm Hs Hf Hn Hr; [lia|]. cbn [read_set any_next]. pose proof (merged_next_left m Rs Hm) as Hx.
  destruct (heads Rs) as [|x xs] eqn:Eh.
  - destruct Hx as (m' & ->). exists []. split; [done|]. split; [constructor|]. intros id l. rewrite (heads_nil Rs Eh).
    split; [by intros ?%elem_of_nil|]. by intros [(c & ?%elem_of_nil & _) _].
  - destruct (heads_concat Rs x xs Hs Eh) as (H1 & H2 & H3 & H4). cbn zeta in Hx. destruct Hx as (m' & -> & Es & El & Hm').
    destruct (least_member xs x) as (c & Hc & Et). set (t := least (se_tsid x) xs) in *. cbn [mbind option_bind any_at]. rewrite H1 in Es.
    assert (Hin : c ∈ with_tsid t (concat Rs)) by (rewrite <- H1; by apply list_elem_of_filter). pose proof Hin as [_ Hcc]%list_elem_of_filter.
    destruct (merged_view n m' t (with_tsid t (concat Rs)) Es) as (y & -> & Ey & Eexp).
    { intros E. rewrite E in Hin. by apply elem_of_nil in Hin. }
    { by rewrite El, Es. }
    { apply Forall_forall. by intros d [? _]%list_elem_of_filter. }
    { by apply joined_fine. }
    { apply Hn. }
    cbn [mbind option_bind]. rewrite Eexp. cbn [mbind option_bind]. rewrite Ey.
    destruct (IH _ m' Hm' H3) as (out & -> & Ho).
    + rewrite H2. by apply forall_filter.
    + intros id. by eapply joined_after.
    + rewrite H2. pose proof (length_filter_lt (fun c => se_tsid c <> t) (concat Rs) c Hcc ltac:(intros Hd; by apply Hd)). lia.
    + cbn [mbind option_bind]. eexists. split; [done|]. eapply reads_as_cons; [done|by exists c|exact H2|done].
Qed.

Lemma block_reads rounds n : forall L s, block_left s L -> by_tsid L -> Forall series_fine L ->
  (forall id, (length (joined [L] id) < n)%nat) -> (length L < rounds)%nat -> exists out, read_set rounds n (inl s) = Some out /\ reads_as [L] out.
Proof.
  induction rounds as [|rounds IH]; intros L s Hl Hs Hf Hn Hr; [lia|]. cbn [read_set any_next]. pose proof (block_next_left s L Hl) as Hx. destruct L as [|c L].
  - destruct Hx as (s' & ->). exists []. split; [done|]. split; [constructor|]. intros id l. split; [by intros ?%elem_of_nil|].
    by intros [(c & ?%elem_of_nil & _) _].
  - destruct Hx as (s' & -> & Ec & Hl'). cbn [mbind option_bind any_at]. rewrite Ec. cbn [fmap option_fmap option_map mbind option_bind].
    apply StronglySorted_inv in Hs as [Hs Hc]. apply Forall_cons in Hf as [Hfc Hf].
    assert (Hother : Forall (fun d => se_tsid d <> se_tsid c) L) by (eapply Forall_impl; [exact Hc|]; intros d; simpl; lia).
    assert (Eg : joined [c :: L] (se_tsid c) = series_view c).
    { unfold joined. cbn [concat]. rewrite app_nil_r, filter_cons_True by done. rewrite (filter_rejects _ L Hother). cbn [mbind list_bind]. by rewrite app_nil_r. }
    assert (Ef : concat [L] = filter (fun d => se_tsid d <> se_tsid c) (concat [c :: L])).
    { cbn [concat]. rewrite !app_nil_r, filter_cons_False by (by intros []). by rewrite (filter_id _ L Hother). }
    pose proof (Hn (se_tsid c)) as Hlc. rewrite Eg in Hlc.
    rewrite (expand_coming (I := (SeriesIter + ChainSeriesIterator)%type) n (any_iterator (inl c)) (series_view c)) by (done || by apply ChunkSeries_iterator_coming).
    cbn [mbind option_bind any_tsid].
    destruct (IH L s' Hl' Hs Hf) as (out & -> & Ho); [intros id; by eapply joined_after|simpl in Hr; lia|]. cbn [mbind option_bind].
    eexists. split; [done|]. rewrite <- Eg. eapply reads_as_cons; [|exists c; split; [left|done]|exact Ef|done]. cbn [concat]. rewrite app_nil_r.
    constructor; [lia|]. eapply Forall_impl; [exact Hc|]. intros d. simpl. lia.
Qed.

(** ** A series of a block *)

(** All chunks of a series in a block. *)
Definition block_metas (global : bool) (b : B) (id : Z) : list ChunkMeta :=
  match index_series global b id with Some (_, refs) => default [] (read_refs b refs) | None => [] end.

(** What the deletion leaves of them: nothing of a chunk that is inside one
    interval, and of the others what the deleting iterator lets through. *)
Definition block_live (global : bool) (b : B) (id : Z) : list (Z * Z) :=
  all_live (itvls_of b id) (filter (meta_live (itvls_of b id)) (block_metas global b id)).

(** A chunk that begins before the query and ends in it, and is not deleted as a
    whole, has a sample in the query that is let through. *)
Definition starts_live (itvls : Intervals) (ms : list ChunkMeta) : Prop :=
  Forall (fun m => cm_min_time m < mint <= cm_max_time m -> meta_live itvls m -> Exists (fun s => mint <= s.1) (live_samples itvls m)) ms.

Fixpoint pop_metas (ms : list ChunkMeta) : list ChunkMeta :=
  match ms with [] => [] | m :: ms' => if mint <=? cm_max_time m then ms else pop_metas ms' end.

Fixpoint upto_metas (ms : list ChunkMeta) : list ChunkMeta :=
  match ms with [] => [] | m :: ms => if maxt <? cm_min_time m then [] else m :: upto_metas ms end.

Lemma read_cons b r refs ms : read_refs b (r :: refs) = Some ms ->
  exists c ms', block_chunk b (cr_ref r) = Some c /\ read_refs b refs = Some ms' /\ ms = mkChunkMeta (cr_ref r) c (cr_min r) (cr_max r) :: ms'.
Proof. cbn [read_refs]. intros (c & Ec & (ms' & E' & [= <-])%bind_Some)%bind_Some. by exists c, ms'. Qed.

Lemma read_pop b refs : forall ms, read_refs b refs = Some ms -> read_refs b (pop_early mint refs) = Some (pop_metas ms).
Proof.
  induction refs as [|r refs IH]; intros ms E; [by injection E as <-|]. pose proof E as (c & ms' & Ec & E' & ->)%read_cons. cbn [pop_early pop_metas cm_max_time].
  destruct (mint <=? cr_max r); [done|by apply IH].
Qed.

Lemma read_upto b refs : forall ms, read_refs b refs = Some ms -> read_refs b (upto_refs refs) = Some (upto_metas ms).
Proof.
  induction refs as [|r refs IH]; intros ms E; [by injection E as <-|]. apply read_cons in E as (c & ms' & Ec & E' & ->). cbn [upto_refs upto_metas cm_min_time].
  destruct (maxt <? cr_min r); [done|]. cbn [read_refs]. by rewrite Ec, (IH ms' E').
Qed.

Abbreviation live_metas itvls := (filter (meta_live itvls)).

Lemma read_window b itvls refs ms : read_refs b refs = Some ms -> read_refs b (window itvls refs) = Some (upto_metas (pop_metas (live_metas itvls ms))).
Proof. intros E. apply read_upto, read_pop, read_refs_live, E. Qed.

(** Chunks that are deleted as a whole keep nothing. *)
Lemma dead_kept itvls m : meta_ok m -> ~ meta_live itvls m -> uncovered_samples itvls (chunk_reads (cm_chunk m)) = [].
Proof.
  intros (_ & _ & _ & Hr) Hd. unfold meta_live in Hd. apply not_false_is_true in Hd.
  apply existsb_exists in Hd as (i & Hi & [H1%in_bounds_spec H2%in_bounds_spec]%andb_true_iff).
  apply filter_rejects. eapply Forall_impl; [exact Hr|]. intros s Hs Hn. apply Hn. cbn beta in Hs. exists i. split; [by apply list_elem_of_In|lia].
Qed.

Lemma live_uncovered_all itvls ms : itvls_fine itvls ms -> Forall meta_ok ms -> all_live itvls (live_metas itvls ms) = uncovered_samples itvls (all_samples ms).
Proof.
  intros Hi Hm. rewrite <- all_live_uncovered by done. unfold all_live. induction ms as [|m ms IH]; [done|].
  assert (Hi' : itvls_fine itvls ms) by (destruct Hi as [?|[? [_ ?]%Forall_cons]]; [by left|by right]).
  apply Forall_cons in Hm as [Hm Hms]. specialize (IH Hi' Hms). cbn [mbind list_bind]. destruct (decide (meta_live itvls m)).
  - rewrite filter_cons_True by done. cbn [mbind list_bind]. by f_equal.
  - rewrite filter_cons_False by done. rewrite (live_uncovered itvls (m :: ms) m Hi ltac:(left) Hm), (dead_kept itvls m) by done. exact IH.
Qed.

Lemma pop_live itvls ms : Forall meta_ok ms -> in_range mint maxt (all_live itvls (pop_metas ms)) = in_range mint maxt (all_live itvls ms).
Proof.
  induction 1 as [|m ms Hm _ IH]; [done|]. cbn [pop_metas]. destruct (Z.leb_spec mint (cm_max_time m)); [done|].
  change (all_live itvls (m :: ms)) with (live_samples itvls m ++ all_live itvls ms). rewrite in_range_app, IH, (in_range_before _ _ (live_samples itvls m)); [done|].
  eapply Forall_impl; [by apply (live_within itvls m)|]. simpl. lia.
Qed.

Lemma upto_live itvls ms : Forall meta_ok ms -> Forall (fun m => cm_min_time m <= cm_max_time m) ms -> StronglySorted before ms ->
  in_range mint maxt (all_live itvls (upto_metas ms)) = in_range mint maxt (all_live itvls ms).
Proof.
  intros Hms Ho Hs. induction Hs as [|m ms Hs IH Hb]; [done|]. pose proof Hms as Hall. apply Forall_cons in Hms as [Hm Hms]. apply Forall_cons in Ho as [Hom Ho]. cbn [upto_metas].
  destruct (Z.ltb_spec maxt (cm_min_time m)).
  - symmetry. apply in_range_none, Forall_forall. intros x (m' & Hx & Hm')%list_elem_of_bind.
    rewrite Forall_forall in Hall, Hb. pose proof (live_within itvls m' (Hall m' Hm')) as Hk. rewrite Forall_forall in Hk. specialize (Hk x Hx).
    apply elem_of_cons in Hm' as [->|Hm']; [lia|]. specialize (Hb m' Hm'). unfold before in Hb. lia.
  - change (in_range mint maxt (live_samples itvls m ++ all_live itvls (upto_metas ms)) = in_range mint maxt (live_samples itvls m ++ all_live itvls ms)).
    rewrite !in_range_app, IH; done.
Qed.

Lemma sorted_sublist ms ms' : ms' `sublist_of` ms -> StronglySorted before ms -> StronglySorted before ms'.
Proof.
  induction 1 as [|m ms' ms Hs IH|m ms' ms Hs IH]; intros Hb; [constructor| |]; apply StronglySorted_inv in Hb as [Hb Hm]; [|by apply IH].
  apply SSorted_cons; [by apply IH|]. by eapply forall_sublist.
Qed.

(** The window of a query is not stuck where its first chunk is live. *)
Lemma window_not_stuck itvls ms : Forall meta_ok ms -> starts_live itvls ms ->
  stuck mint false (lives itvls (upto_metas (pop_metas (live_metas itvls ms)))) = false.
Proof.
  intros Hm Hl. assert (Hp : pop_metas (live_metas itvls ms) = [] \/ exists m l, pop_metas (live_metas itvls ms) = m :: l /\ mint <= cm_max_time m /\ meta_live itvls m /\ m ∈ ms).
  { clear -Hm. induction ms as [|m ms IH]; [by left|]. apply Forall_cons in Hm as [_ Hm]. rewrite filter_cons. case_decide as Hd.
    - cbn [pop_metas]. destruct (Z.leb_spec mint (cm_max_time m)); [right; eexists m, _; split_and!; [done|done|done|left]|].
      destruct (IH Hm) as [?|(m' & l & ? & ? & ? & ?)]; [by left|right]. exists m', l. split_and!; try done. by right.
    - destruct (IH Hm) as [?|(m' & l & ? & ? & ? & ?)]; [by left|right]. exists m', l. split_and!; try done. by right. }
  destruct Hp as [->|(m & l & -> & Hmax & Hlive & Hin)]; [done|]. cbn [upto_metas]. destruct (maxt <? cm_min_time m); [done|].
  cbn [lives map stuck orb]. destruct (Z.ltb_spec (cm_max_time m) mint); [lia|].
  rewrite Forall_forall in Hm. unfold starts_live in Hl. rewrite Forall_forall in Hl. apply andb_false_iff.
  destruct (decide (live_samples itvls m = [])) as [E|Hne]; [left; by rewrite E|right]. apply not_true_is_false. intros Hall%forallb_early.
  assert (He : Exists (fun s => mint <= s.1) (live_samples itvls m)).
  { destruct (Z.le_gt_cases mint (cm_min_time m)); [|apply Hl; [done|lia|done]]. pose proof (live_within itvls m (Hm m Hin)) as Hk.
    destruct (live_samples itvls m) as [|x k]; [done|]. apply Forall_cons in Hk as [Hk _]. left. lia. }
  apply Exists_exists in He as (x & Hx & Hge). assert (Hf : x ∈ filter (fun s => mint <= s.1) (live_samples itvls m)) by (by apply list_elem_of_filter).
  rewrite Hall in Hf. by apply elem_of_nil in Hf.
Qed.

Lemma block_series_view global b id : readable global b id -> starts_live (itvls_of b id) (block_metas global b id) ->
  (forall c, block_series global b id = Some c -> se_tsid c = id /\ series_fine c) /\
  (option_list (block_series global b id) ≫= series_view) = in_range mint maxt (block_live global b id).
Proof.
  intros Hr Hl. unfold block_series, block_live, block_metas in *. destruct (index_series global b id) as [[lset refs]|] eqn:Ei; [|done].
  destruct (Hr lset refs Ei) as (ms & E & Hm & Ho & Hs). rewrite E in *. unfold default, Datatypes.id in *. cbn [mbind option_bind].
  rewrite (read_window b _ refs ms E). cbn [mbind option_bind].
  destruct (read_refs_sublist b refs _ ms (window_sublist (itvls_of b id) refs) E) as (ms' & Ems & Hsub). rewrite (read_window b _ refs ms E) in Ems. injection Ems as Ems.
  assert (Hlive : in_range mint maxt (all_live (itvls_of b id) ms') = in_range mint maxt (all_live (itvls_of b id) (live_metas (itvls_of b id) ms))).
  { rewrite <- Ems. assert (Hls : live_metas (itvls_of b id) ms `sublist_of` ms) by apply sublist_filter.
    assert (Hps : pop_metas (live_metas (itvls_of b id) ms) `sublist_of` ms).
    { etransitivity; [|exact Hls]. generalize (live_metas (itvls_of b id) ms). intros k. induction k as [|m k IH]; [done|]. cbn [pop_metas].
      destruct (mint <=? cm_max_time m); [done|by apply sublist_cons]. }
    rewrite upto_live, pop_live; try done; try (by eapply forall_sublist); by eapply sorted_sublist. }
  pose proof (window_not_stuck _ _ Hm Hl) as Hst. rewrite Ems in *. split.
  - intros c. destruct (bool_decide _ && bool_decide _); intros Ec; [discriminate Ec|]. injection Ec as <-. split; [done|]. unfold series_fine. cbn [se_chunks se_itvls].
    split; [by eapply forall_sublist|by eapply sorted_sublist].
  - destruct (bool_decide _ && bool_decide _) eqn:Eb; cbn [option_list mbind list_bind].
    + apply andb_true_iff in Eb as [->%bool_decide_eq_true _]. by rewrite <- Hlive.
    + etransitivity; [exact (app_nil_r _)|]. unfold series_view, visible. cbn [se_chunks se_itvls se_min se_max]. by rewrite Hst.
Qed.

(** Where the deletion does what it is meant to, it leaves the samples that no
    interval covers; where the intervals begin late, all of the chunks that are
    not inside one. *)
Lemma block_live_fine global b id : readable global b id -> itvls_fine (itvls_of b id) (block_metas global b id) ->
  block_live global b id = uncovered_samples (itvls_of b id) (all_samples (block_metas global b id)).
Proof.
  intros Hr Hi. apply live_uncovered_all; [done|]. unfold block_metas. destruct (index_series global b id) as [[lset refs]|] eqn:Ei; [|constructor].
  destruct (Hr lset refs Ei) as (ms & -> & Hm & _). done.
Qed.

(** ** Queries *)

(** A block and whether it has the global index. *)
Abbreviation Block := (B * bool)%type.

Definition block_list (ids : list Z) (k : Block) : list ChunkSeries := omap (block_series k.2 k.1) ids.

(** The series [id] of the block can be queried. *)
Definition queried (id : Z) (k : Block) : Prop :=
  readable k.2 k.1 id /\ starts_live (itvls_of k.1 id) (block_metas k.2 k.1 id).

Lemma block_list_elem ids k c : (forall id, id ∈ ids -> queried id k) -> c ∈ block_list ids k -> se_tsid c ∈ ids /\ series_fine c.
Proof.
  intros Hq (id & Hid & E)%list_elem_of_omap. destruct (block_series_view k.2 k.1 id (proj1 (Hq id Hid)) (proj2 (Hq id Hid))) as [Hc _].
  by destruct (Hc c E) as [-> Hf].
Qed.

Lemma block_list_sorted ids k : StronglySorted Z.lt ids -> (forall id, id ∈ ids -> queried id k) -> by_tsid (block_list ids k).
Proof.
  induction 1 as [|id ids Hs IH Hl]; intros Hq; [constructor|]. unfold block_list.
  assert (Hq' : forall x, x ∈ ids -> queried x k) by (intros x Hx; apply Hq; by right). specialize (IH Hq').
  destruct (block_series_view k.2 k.1 id (proj1 (Hq id ltac:(left))) (proj2 (Hq id ltac:(left)))) as [Hc _]. cbn [omap list_omap].
  destruct (block_series k.2 k.1 id) as [c|] eqn:E; [|exact IH]. destruct (Hc c eq_refl) as [Et _]. apply SSorted_cons; [exact IH|].
  apply Forall_forall. intros d Hd. destruct (block_list_elem ids k d Hq' Hd) as [Hin _]. rewrite Forall_forall in Hl. rewrite Et. by apply Hl.
Qed.

Lemma block_list_group ids k id : StronglySorted Z.lt ids -> (forall id, id ∈ ids -> queried id k) -> id ∈ ids ->
  with_tsid id (block_list ids k) = option_list (block_series k.2 k.1 id).
Proof.
  induction 1 as [|x ids Hs IH Hl]; intros Hq Hid; [by apply elem_of_nil in Hid|].
  assert (Hq' : forall y, y ∈ ids -> queried y k) by (intros y Hy; apply Hq; by right).
  destruct (block_series_view k.2 k.1 x (proj1 (Hq x ltac:(left))) (proj2 (Hq x ltac:(left)))) as [Hc _].
  assert (Hcons : block_list (x :: ids) k = option_list (block_series k.2 k.1 x) ++ block_list ids k)
    by (unfold block_list; cbn [omap list_omap]; by destruct (block_series k.2 k.1 x)).
  rewrite Hcons, filter_app. apply elem_of_cons in Hid as [->|Hid].
  - rewrite (filter_rejects _ (block_list ids k)).
    + rewrite app_nil_r. destruct (block_series k.2 k.1 x) as [c|]; [|done]. destruct (Hc c eq_refl) as [Et _]. exact (filter_cons_True (fun c => se_tsid c = x) c [] Et).
    + apply Forall_forall. intros d Hd. destruct (block_list_elem ids k d Hq' Hd) as [Hin _]. rewrite Forall_forall in Hl. specialize (Hl _ Hin). lia.
  - rewrite IH by done. rewrite Forall_forall in Hl. specialize (Hl id Hid). destruct (block_series k.2 k.1 x) as [c|]; [|done]. destruct (Hc c eq_refl) as [Et _].
    replace (with_tsid id (option_list (Some c))) with (@nil ChunkSeries); [done|]. symmetry. apply (filter_cons_False (fun c => se_tsid c = id) c []). lia.
Qed.

(** The samples of a series that a query over the blocks is to return. *)
Definition query_samples (blocks : list Block) (id : Z) : list (Z * Z) := blocks ≫= fun k => in_range mint maxt (block_live k.2 k.1 id).

Lemma groups_are_samples ids blocks id : StronglySorted Z.lt ids -> (forall k id, k ∈ blocks -> id ∈ ids -> queried id k) -> id ∈ ids ->
  joined (map (block_list ids) blocks) id = query_samples blocks id.
Proof.
  intros Hs Hq Hid. unfold joined, query_samples. induction blocks as [|k blocks IH]; [done|]. cbn [map concat]. rewrite filter_app, bind_app.
  rewrite IH by (intros k' x Hk; apply Hq; by right). rewrite block_list_group by (done || (intros x; apply Hq; left)).
  destruct (Hq k id ltac:(left) Hid) as [Hr Hl]. by rewrite (proj2 (block_series_view k.2 k.1 id Hr Hl)).
Qed.

(** What was read of the series [id]. *)
Definition samples_of (out : list (Z * list (Z * Z))) (id : Z) : list (Z * Z) :=
  match find (fun e => e.1 =? id) out with Some e => e.2 | None => [] end.

Lemma reads_samples Rs out id : reads_as Rs out -> samples_of out id = joined Rs id.
Proof.
  intros [_ Hm]. unfold samples_of. destruct (find (fun e => e.1 =? id) out) as [[id' l]|] eqn:E.
  - apply find_some in E as [Hin%list_elem_of_In Eid%Z.eqb_eq]. simpl in Eid. subst id'. by apply Hm in Hin as [_ ->].
  - unfold joined. rewrite filter_rejects; [done|]. apply Forall_forall. intros c Hc Et. pose proof (proj2 (Hm id (joined Rs id)) ltac:(split; [by exists c|done])) as Hin.
    apply list_elem_of_In in Hin. pose proof (find_none _ _ E _ Hin) as Hn. simpl in Hn. lia.
Qed.

Lemma block_lists_length ids blocks : (length (concat (map (block_list ids) blocks)) <= length blocks * length ids)%nat.
Proof.
  induction blocks as [|k blocks IH]; [done|]. cbn [map concat]. rewrite length_app. unfold block_list at 1.
  assert (Ho : (length (omap (block_series k.2 k.1) ids) <= length ids)%nat).
  { clear. induction ids as [|x ids IH]; [done|]. cbn [omap list_omap]. destruct (block_series k.2 k.1 x); simpl; lia. }
  simpl. lia.
Qed.

(** What all blocks yield for the ids. *)
Lemma lists_fine ids blocks : (forall k id, k ∈ blocks -> id ∈ ids -> queried id k) ->
  Forall (fun c => se_tsid c ∈ ids /\ series_fine c) (concat (map (block_list ids) blocks)).
Proof.
  intros Hq. apply Forall_forall. intros c Hc. apply list_elem_of_In, in_concat in Hc as (L & (k & <- & Hk)%in_map_iff & HL).
  apply list_elem_of_In in Hk, HL. apply (block_list_elem ids k c); [|done]. intros id. by apply Hq.
Qed.

Lemma lists_short ids blocks n : StronglySorted Z.lt ids -> (forall k id, k ∈ blocks -> id ∈ ids -> queried id k) ->
  (forall id, id ∈ ids -> (length (query_samples blocks id) < n)%nat) -> (0 < n)%nat -> forall id, (length (joined (map (block_list ids) blocks) id) < n)%nat.
Proof.
  intros Hs Hq Hn Hpos id. destruct (decide (id ∈ ids)) as [Hid|Hid]; [rewrite groups_are_samples by done; by apply Hn|].
  unfold joined. rewrite filter_rejects; [done|]. eapply Forall_impl; [by apply lists_fine|]. intros c [Hin _] Et. by rewrite Et in Hin.
Qed.

Lemma reads_exact ids blocks Rs out : StronglySorted Z.lt ids -> (forall k id, k ∈ blocks -> id ∈ ids -> queried id k) ->
  concat Rs = concat (map (block_list ids) blocks) -> reads_as Rs out ->
  StronglySorted (fun a b => a.1 < b.1) out /\ Forall (fun e => e.1 ∈ ids) out /\ forall id, id ∈ ids -> samples_of out id = query_samples blocks id.
Proof.
  intros Hs Hq Ec Hr. split; [apply Hr|]. split.
  - apply Forall_forall. intros [id l] [(c & Hc & <-) _]%Hr. rewrite Ec in Hc. pose proof (lists_fine ids blocks Hq) as Hf. rewrite Forall_forall in Hf. by apply Hf.
  - intros id Hid. rewrite (reads_samples Rs out id Hr). unfold joined. rewrite Ec. by apply groups_are_samples.
Qed.

Section Select.
Context {R P : Type} `{PS : Postings P} `{IR : !Matchers.IndexReader R P}.

(** The matchers select the series [ids]. *)
Definition selects (junk : Z) (r : R) (l : list Matcher) (ids : list Z) : Prop :=
  exists p, postings_for_matchers junk r l = Some (p, true) /\ expand_postings p = Some ids.

(** C8.  Queries on blocks.  Where the matchers select the series [ids], a query
    over several blocks that can be read yields series of [ids], each once and in
    the order of the ids, and reading the series [id] to its end gives exactly
    the samples of [id] in the range of the query that the deletion leaves, block
    after block.  A chunk that the start of the query cuts is assumed to have a
    sample in the query that is left, unless it is deleted as a whole.  The
    deletion leaves the samples that no deleted interval covers where the
    intervals are apart and all times of the series fit an [int], to which it
    narrows them (DeleteIterator.cpp:19); where the intervals begin at or after
    [2^31], as with milliseconds of today, it leaves all samples of the chunks
    that are not inside one interval. *)
Theorem block_query_exact (junk : Z) (r : R) (l : list Matcher) (ids : list Z) (blocks : list Block) (rounds n : nat) :
  selects junk r l ids -> StronglySorted Z.lt ids -> blocks <> [] ->
  Forall (fun k => opens k.1) blocks -> (forall k id, k ∈ blocks -> id ∈ ids -> queried id k) ->
  (forall id, id ∈ ids -> (length (query_samples blocks id) < n)%nat) -> (0 < n)%nat -> (length blocks * length ids < rounds)%nat ->
  (exists set out, querier_select junk r l (map (fun k => block_querier k.1 mint maxt k.2) blocks) = Some (Some set) /\
    read_set rounds n set = Some out /\ StronglySorted (fun a b => a.1 < b.1) out /\ Forall (fun e => e.1 ∈ ids) out /\
    forall id, id ∈ ids -> samples_of out id = query_samples blocks id) /\
  (forall k id, k ∈ blocks -> id ∈ ids -> itvls_fine (itvls_of k.1 id) (block_metas k.2 k.1 id) ->
    block_live k.2 k.1 id = uncovered_samples (itvls_of k.1 id) (all_samples (block_metas k.2 k.1 id))) /\
  (forall k id, k ∈ blocks -> id ∈ ids -> itvls_recent (itvls_of k.1 id) ->
    block_live k.2 k.1 id = all_samples (filter (meta_live (itvls_of k.1 id)) (block_metas k.2 k.1 id))).
Proof.
  intros (p & Ep & Ei) Hs Hne Ho Hq Hn Hpos Hr.
  split; [|split; intros k id Hk Hid Hi; [apply block_live_fine; [apply (Hq k id Hk Hid)|done]|by apply all_live_recent]].
  pose proof (lists_short ids blocks n Hs Hq Hn Hpos) as Hshort.
  pose proof (block_lists_length ids blocks) as Hlen. set (Rs := map (block_list ids) blocks) in *.
  assert (Hfine : Forall series_fine (concat Rs)) by (eapply Forall_impl; [by apply lists_fine|]; by intros c [_ ?]).
  assert (Hsort : Forall by_tsid Rs) by (apply Forall_map, Forall_forall; intros k Hk; apply block_list_sorted; [done|intros id; by apply Hq]).
  assert (Hleft : Forall2 block_left (map (fun q => block_select q ids) (map (fun k => block_querier k.1 mint maxt k.2) blocks)) Rs).
  { unfold Rs. clear -Ho Hq. induction Ho as [|k blocks Hk Ho IH]; constructor; [|apply IH; intros k' id Hk'; apply Hq; by right].
    apply block_select_left; [done|]. apply Forall_forall. intros id Hid. exact (proj1 (Hq k id ltac:(left) Hid)). }
  unfold querier_select. rewrite Ep. cbn [mbind option_bind negb]. rewrite Ei. cbn [mbind option_bind]. destruct blocks as [|k [|k2 blocks]]; [done| |].
  - apply Forall2_cons_1 in Hleft as [Hleft _]. apply Forall_cons in Hsort as [Hsort _].
    destruct (block_reads rounds n (block_list ids k) _ Hleft Hsort) as (out & E & Hout).
    { unfold Rs in Hfine. cbn [map concat] in Hfine. by rewrite app_nil_r in Hfine. }
    { exact Hshort. }
    { unfold Rs in Hlen. cbn [map concat] in Hlen. rewrite app_nil_r in Hlen. lia. }
    eexists _, out. split; [done|]. split; [exact E|]. by apply (reads_exact ids [k] Rs).
  - destruct (merged_set_left _ Rs Hleft) as (m & Em & Hm).
    destruct (merged_reads rounds n _ m Hm) as (out & E & Hout).
    { by apply forall_filter. }
    { by rewrite concat_filter_nonempty. }
    { intros id. unfold joined. rewrite concat_filter_nonempty. apply Hshort. }
    { rewrite concat_filter_nonempty. lia. }
    eexists (inr m), out. split; [cbn [map] in Em |- *; by rewrite Em|]. split; [exact E|].
    apply (reads_exact ids (k :: k2 :: blocks) (filter (fun L => L <> []) Rs)); [done|done|by apply concat_filter_nonempty|done].
Qed.

End Select.

End BlockSpec.
End ChunkSeries.

(** ** Examples *)

Module QueryDemo.
#[local] Instance demo_past : PastEnd := fun _ => 0.
#[local] Existing Instance CompactionDemo.demo_interface.

(** Two chunks; the end of the first is deleted. *)
Definition two_chunks : list ChunkMeta :=
  [CompactionDemo.demo_meta 1 [(10, 7); (20, 8)] 10 20; CompactionDemo.demo_meta 2 [(30, 9); (40, 1)] 30 40].
Definition end_deleted : Intervals := [mkInterval 18 25].

(** A query from 5 on reads what is kept, one from 15 on nothing, one from 25 on
    the second chunk. *)
Example deleted_end_hides_rest :
  map (fun mint => expand 9 (chunk_series_iterator two_chunks end_deleted mint 35)) [5; 15; 25] = [Some [(10, 7); (30, 9)]; Some []; Some [(30, 9)]].
Proof. vm_compute. reflexivity. Qed.

(** A seek to 25 on a chain of two series fails; [next] gets there. *)
Example chain_seek_fails :
  let c := chain_series_iterator [mkChunkSeries [] (take 1 two_chunks) [] 3 0 100; mkChunkSeries [] (drop 1 two_chunks) [] 3 0 100] in
  (fst <$> chain_seek 25 c, expand 9 c) = (Some false, Some [(10, 7); (20, 8); (30, 9); (40, 1)]).
Proof. vm_compute. reflexivity. Qed.

Ltac forall_cases := repeat (apply Forall_cons; split); [..|apply Forall_nil_2].
Ltac small := vm_compute; repeat split; congruence.
Ltac sorted := repeat (apply SSorted_cons; [|forall_cases; small]); apply SSorted_nil.

Lemma demo_reads ref l mn mx : Forall sample_ok l -> Z.of_nat (length l) <= 65535 -> chunk_reads (cm_chunk (CompactionDemo.demo_meta ref l mn mx)) = l.
Proof. intros H1 H2. exact (proj1 (chunk_of_reads l H1 H2)). Qed.

Lemma two_chunks_ok : Forall meta_ok two_chunks /\ StronglySorted before two_chunks /\ itvls_fine end_deleted two_chunks.
Proof.
  split_and!.
  - unfold two_chunks. apply (Forall_impl good_meta); [|by intros m [? _]]. apply Forall_cons; split; [|apply Forall_cons; split; [|apply Forall_nil_2]];
      (apply CompactionDemo.demo_good; [forall_cases; small|small|sorted|forall_cases; small|small|small]).
  - apply SSorted_cons; [apply SSorted_cons; [apply SSorted_nil|apply Forall_nil_2]|]. forall_cases. reflexivity.
  - right. split; [split; [apply SSorted_cons; [apply SSorted_nil|apply Forall_nil_2]|forall_cases; small]|].
    unfold two_chunks. apply Forall_cons; split; [|apply Forall_cons; split; [|apply Forall_nil_2]]; unfold short_times; (rewrite demo_reads; [forall_cases; small|forall_cases; small|small]).
Qed.

Lemma chunk_series_exact_witness :
  expand 9 (chunk_series_iterator two_chunks end_deleted 15 35) =
    Some (if stuck 15 false (lives end_deleted two_chunks) then [] else in_range 15 35 (all_live end_deleted two_chunks)) /\
  all_live end_deleted two_chunks = uncovered_samples end_deleted (all_samples two_chunks).
Proof.
  destruct two_chunks_ok as (H1 & H2 & H3).
  destruct (chunk_series_exact two_chunks end_deleted 15 35 9) as (E & Hf & _); [discriminate|exact H1|exact H2|vm_compute; repeat constructor|].
  split; [exact E|exact (Hf H3)].
Defined.

(** *** A query on two blocks *)

Definition demo_matchers : list Matcher := [NotMatcher (EqualMatcher [1] [7]); EqualMatcher [2] [9]].
Definition demo_blocks : list (CompactionDemo.DemoBlock * bool) := [(CompactionDemo.block1, false); (CompactionDemo.block2, false)].

Example demo_query :
  (set ← querier_select 0 demo_index demo_matchers (map (fun k => block_querier k.1 35 60 k.2) demo_blocks); s ← set; read_set 9 9 s) = Some [(5, [(50, 3)])].
Proof. vm_compute. reflexivity. Qed.

Lemma demo_queried k id : k ∈ demo_blocks -> id ∈ [5; 6] -> queried 35 id k.
Proof.
  assert (Hnone : forall (b : CompactionDemo.DemoBlock) i, index_series false b i = None -> queried 35 i (b, false)).
  { intros b i E. split; [intros lset refs E'; cbn [fst snd] in E'; congruence|]. unfold block_metas. cbn [fst snd]. rewrite E. apply Forall_nil_2. }
  intros [->|[->|[]%elem_of_nil]%elem_of_cons]%elem_of_cons [->|[->|[]%elem_of_nil]%elem_of_cons]%elem_of_cons; try (apply Hnone; reflexivity).
  set (m := CompactionDemo.demo_meta 3 [(30, 1); (40, 2); (50, 3)] 30 50).
  assert (Er : chunk_reads (cm_chunk m) = [(30, 1); (40, 2); (50, 3)]) by (apply demo_reads; [forall_cases; small|small]).
  split.
  - intros lset refs E. injection E as <- <-. exists [m]. split; [reflexivity|].
    split_and!; [apply Forall_singleton|apply Forall_singleton; small|apply SSorted_cons; [apply SSorted_nil|apply Forall_nil_2]].
    unfold m. apply (CompactionDemo.demo_good 3 [(30, 1); (40, 2); (50, 3)] 30 50); [forall_cases; small|small|sorted|forall_cases; small|small|small].
  - change (block_metas (snd (CompactionDemo.block1, false)) (fst (CompactionDemo.block1, false)) 5) with [m]. apply Forall_singleton. intros _ _.
    assert (El : live_samples (itvls_of (fst (CompactionDemo.block1, false)) 5) m = [(30, 1); (50, 3)]) by (vm_compute; reflexivity). rewrite El.
    apply Exists_exists. exists (50, 3). split; [right; left|small].
Qed.

Lemma block_query_exact_witness :
  exists set out, querier_select 0 demo_index demo_matchers (map (fun k => block_querier k.1 35 60 k.2) demo_blocks) = Some (Some set) /\
    read_set 9 9 set = Some out /\ StronglySorted (fun a b => a.1 < b.1) out /\ Forall (fun e => e.1 ∈ [5; 6]) out /\
    forall id, id ∈ [5; 6] -> samples_of out id = query_samples 35 60 demo_blocks id.
Proof.
  apply (block_query_exact 35 60 0 demo_index demo_matchers [5; 6] demo_blocks 9 9).
  - eexists. split; vm_compute; reflexivity.
  - sorted.
  - discriminate.
  - forall_cases; split_and!; reflexivity.
  - exact demo_queried.
  - intros id [->|[->|[]%elem_of_nil]%elem_of_cons]%elem_of_cons; vm_compute; repeat constructor.
  - lia.
  - simpl. lia.
Defined.

(** Where a chunk of the series 3 cannot be read, the query leaves out the rest
    of that block, the series 5 included, and ends as usual: [error] is set at
    the end of every query. *)
Example missing_chunk_ends_block :
  let broken := CompactionDemo.mkDemo 0 100 (CompactionDemo.d_series CompactionDemo.block1) [] [2] in
  let read b := m ← merged_id_set (map (fun b => block_select (block_querier b 0 100 false) [3; 5]) [b; CompactionDemo.block2]); read_set 9 9 (inr m) in
  (read CompactionDemo.block1, read broken) =
    (Some [(3, [(10, 7); (20, 8); (60, 9); (20, 100); (25, 4)]); (5, [(30, 1); (50, 3)])], Some [(3, [(20, 100); (25, 4)])]).
Proof. vm_compute. reflexivity. Qed.

End QueryDemo.
